(* ===== verification/_CoqProject ===== *)
-Q . S2P
Prelude.v
Errors.v
Text.v
Identity.v
Frame.v
Ring.v
Lease.v
Signal.v
Session.v
SessionLife.v
SessionInput.v
Resume.v
Counter.v
AuditLog.v
Admission.v
Quota.v
Broker.v
Attach.v
AttachOutput.v
AttachAnswers.v
AttachClient.v
AttachInput.v
ScreenCodec.v
ScreenDiff.v
ScreenParts.v
Utf8.v
ScreenHost.v
ScreenCuts.v
ScreenSync.v
ScreenTruth.v
ScreenStream.v
FsPath.v
FileGuard.v
Acl.v
Policy.v
Grants.v
TrustStore.v
Trust.v
TrustWatch.v
Gate.v
IpText.v
Socks5.v
Tunnel.v
Dynamic.v
Proxy.v
Reverse.v
Tickets.v
HostOs.v
AuditWriter.v
AuditDurable.v
AuditService.v
AuditDisk.v
AuditReader.v
AuditTrip.v
InodeScan.v
Listing.v
FileHost.v
FileSafety.v
FileVet.v
Transfer.v
TransferSafety.v
FileData.v
FileRoundtrip.v
