(* ===== verification/Prelude.v ===== *)
(** * A verification of the core of qsh

    qsh is a remote shell over QUIC.  A host process ([qsh serve]) admits
    connections, verifies the certificate of the peer against a trust store,
    authorizes every operation against a policy, and runs sessions, file
    transfers and forwards for the peers it lets in.  Sessions outlive their
    connections: their output is kept in a replay ring, and a client that
    comes back resumes where it stopped.  The source is under [src/]; the
    paths below are relative to [src/crates].

    ** The parts, and the files that model them

    _Wire and transport_
    - [Frame]: length-prefixed frames and the framed streams
      ([qsh-proto/src/frame.rs], [qsh-transport/src/control.rs]).
    - [Errors]: the error codes and the wire error ([qsh-proto/src/error.rs]).
    - [Identity]: fingerprints, principals and the verification of a peer
      certificate ([qsh-transport/src/identity.rs], [tls.rs]).
    - [ScreenCodec], [ScreenDiff], [ScreenParts]: screen states, their
      differences, and updates cut into parts ([qsh-proto/src/screen]);
      [Utf8]: the text conversions of the standard library they need.

    _Sessions_ ([qsh-core/src/broker])
    - [Ring]: the replay ring; [Lease]: the writer lease; [Signal]: signal
      names; [Resume]: resume credentials.
    - [Session]: the actor that owns a session with its two I/O tasks, as a
      step function on events; [SessionLife] and [SessionInput]: what holds of
      every run of it.
    - [Broker]: the registry of sessions, against the class [SessionLike].
    - [Attach]: an attach end to end: the frames and pumps of the data stream
      ([session_stream.rs]), the client's cursors and retransmit buffer
      ([client/reconnect.rs], [ops/session]) and the steps of a reattach
      ([server/sessions.rs], [server/tunnels.rs]), around the session actor;
      [AttachOutput]: the output direction; [AttachAnswers], [AttachClient] and
      [AttachInput]: the input direction.
    - [ScreenHost], [ScreenCuts]: the host's screen of a session, its numbered
      states and the updates between them ([qsh-core/src/screen]), over any
      terminal emulator (class [Vt]); [ScreenSync]: the screen path of an
      attach, from the pump that sends updates ([session_stream.rs]) over the
      stream and over datagrams to the client's screen
      ([client/screen.rs]) and its acknowledgements; [ScreenTruth] and
      [ScreenStream]: what holds of every run of it.

    _Admission and quotas_
    - [Counter]: counted reservations, shared by the two below.
    - [AuditLog]: audit records and rejection windows; [Admission]: the gate in
      front of the handshake ([qsh-core/src/admission.rs]); [Quota]: every
      resource axis ([quota.rs]).

    _Authorization and trust_
    - [FsPath], [FileGuard]: POSIX paths and the judgement of a request path
      ([file/guard.rs]).
    - [Acl], [Policy], [Grants]: the vocabulary, the one evaluator and what a
      standing grants ([qsh-core/src/acl]).
    - [TrustStore], [Trust], [TrustWatch]: the trust file, the shared store that
      rereads it, and the watch that closes connections whose trust is
      withdrawn ([qsh-core/src/trust]).
    - [Gate]: the functions every privileged operation passes
      ([server/dispatch.rs]), against the classes [Authorizer] and [AuditSink].
    - [AuditWriter], [AuditReader]: the rotating log behind the sink and the
      query over it ([qsh-core/src/audit]); [AuditDurable], [AuditService]: what
      the writer keeps of its promises on a disk that may fail, and the sink
      behind the gates; [AuditDisk]: a concrete disk; [AuditTrip]: writer and
      query composed.
    - [Reverse]: reverse registrations ([qsh-core/src/reverse]).

    _Forwards_
    - [IpText]: the text of IP addresses, as the standard library parses and
      prints it; [Socks5]: the SOCKS5 codec ([qsh-proto/src/socks5.rs]);
      [Dynamic]: one connection of a dynamic forward
      ([qsh-core/src/tunnel/dynamic.rs]); [Tunnel]: what the host does with a
      forward, gate, quota and filtered dial ([server/tunnels.rs],
      [tunnel/dial.rs]); [Proxy]: the two composed.

    _Files_
    - [Tickets]: the tickets data streams present ([server/mod.rs]).
    - [HostOs], [InodeScan], [Listing], [FileHost]: the control plane of the
      file operations ([server/file.rs], [server/file_host.rs], [file/host.rs]);
      [FileSafety] and [FileVet]: what it promises.
    - [Transfer], [TransferSafety], [FileData], [FileRoundtrip]: writing a file
      into place, and the two ends of a transfer ([file/xfer.rs],
      [server/file_data.rs], [client/file.rs]).

    [Prelude] (this file) and [Text] hold what all of them share.

    ** How code becomes definitions

    A struct is a [Record], an enum an [Inductive] with the constructors of the
    source, a function a [Definition] or [Fixpoint] of the same name.  Unsigned
    integers are [N]; where the source saturates, checks or wraps, the
    definition does.  [Result] is [result] below, with [let?] for [?]; code that
    changes a state is an [act] with [let*] and [let*?].  A critical section
    under a lock is one step.  Tasks and threads are step functions or step
    relations, and a theorem about them quantifies over all schedules.  Blocking
    code whose single system calls matter ([Transfer]) is a program over those
    calls, interleaved call by call with the other threads and with whatever
    else happens in the directory.

    Code that is not under [src/] is a parameter: prost and serde codecs, X.509
    parsing, BLAKE3 and the other hashes, Base64, the terminal emulator, random
    draws, clocks and the operating system.  What is relied on is a class with
    its laws ([Codec], [X509], [Base64], [OsText], [TrustFormat], [DirLaws], [VtLaws],
    [LiteralNet], ...);
    each has a concrete instance that the witnesses use.

    ** What the theorems show

    - Output: the ring refines the full history; a follower sees every byte and
      every control event once and in order, or a gap that covers what it
      missed; exit follows the last output; the closing entry is the last one
      except where a pump had to be aborted; a close ends within three grace
      periods, however often it is asked for, and answers everyone.
    - Input: numbered chunks are applied once and in order, whatever is
      retransmitted, as long as the session remembers the offset of the stream.
    - Attach: across any number of lost and resumed connections the client
      shows each byte of output once, in order, with gaps only over what the
      ring no longer retains; what it typed reaches the child once, in order,
      and a resume can always continue, provided no superseded connection still
      writes while a reattach is under way and the session has not forgotten the
      input stream.  The first condition is needed: an example shows the run in
      which it fails and a keystroke is run twice.
    - Screens: an update read back is the update written; a difference turns
      its base into the new state; decoded bytes never lead to an invalid
      screen; datagram parts may come in any order.
    - Screen sync: whatever happens to datagrams, a screen the client shows
      under a number has the hash of the host's state of that number, and no
      step goes back to an older one; over the stream alone, and as long as no
      update has to carry more effects than it may, the client has exactly the
      host's states, never needs a full screen and ends with what is on the
      emulator.  Three runs show where it falls short: a full screen lost as a
      datagram is not sent again, effects that pile up make an update the client
      refuses, and an overtaken update costs a full screen.
    - Admission: reservations are exactly the live permits and respect every
      limit; rejections are all accounted for in the audit log.
    - Authorization: the evaluator equals a declarative specification; an allow
      needs a rule, a role or a grant that says so; an owned resource is
      reached by its opener only; every allow has its audit line, and whoever
      is not let through gets the same refusal, whatever the reason.
    - Audit log: the records a sink accepted are in the log in order, each as
      one whole line, across write failures and rotations, or are still
      waiting to be written; nothing is removed before all files are in use and
      full; what waits and what is kept are bounded; every operation let through
      is on the record; a query returns the newest records that match.  This is
      for a log that one process writes, on a disk that cuts off what a failed
      write left ([LogView]'s [steady]), and, as to what is removed, that can
      rename.  Two theorems show how lines are lost otherwise: a rotation that
      keeps failing, and a second process that writes the same log.
    - Trust: a call that decides takes contents the file had while it was under
      way, unless an older read is applied meanwhile; concurrent refreshes refine
      a sequence of atomic ones, and the generation counts the changes; a watch
      that sleeps has judged the present store; a withdrawn pin closes its
      connection.
    - Forwards: the host uses the network for a forward only when the gate
      allowed it, on the record and within the quota, and only towards
      addresses that pass the filter; a dynamic forward opens what the client
      asked for and loses none of its bytes; composed, a proxied connection
      never ends in a host-local prefix, however its address is spelled.  The
      filter is shown equal to the table of those prefixes.
    - Files: what a handler uses was vetted in the same request by the path the
      kernel gives for it, as [handle_path] reads it; a requester without ground
      causes no system call; slots are exactly held by tickets; a transfer
      leaves the destination untouched or holding exactly the bytes of the
      stream, of the size and hash its end frame states, its temporary file
      gone; it never hangs, and says which.  What the machine of a transfer
      needs of its two receiving ends is the class [ReceiverLaws].

    Where a step of the code falls short of its comment the theorem states what
    the code does, and the manifest lists it.

    ** Fuel and bounds

    Loops that are not structural run on fuel and return [None] when it is
    spent: the walk over the protected tree ([InodeScan]; the fuel is shown to
    be enough against any file system), the paging client ([Listing]; enough
    when the server makes progress, and it is shown where it does not), the
    scan of an audit file ([AuditReader]; enough for any reads).  That the
    threads of [Session], [Transfer] and [AuditWriter] come to rest is shown by
    measures that decrease.  Counters that
    the source keeps in 64 bits and that only grow by one per event, by bytes
    received or by clock ticks are not wrapped.

    ** Not modelled

    The asynchronous runtime (a task is its sequence of steps; cancellation is
    modelled where the code handles it), QUIC and TLS, cryptography, the
    Protobuf and JSON message types, panics of library threads, and the
    Windows halves of platform code. The listeners and byte pumps of tunnels,
    the terminal interface, the client's rendering and prediction, its watch
    over the path, pairing, hole punching, the local control socket, echo and
    history frames, the carrier and keep-alive policy and the command line are
    outside the development: they are byte pumps, terminal and socket I/O,
    exchanges of a cryptographic library, or glue over the parts above. *)

From stdpp Require Export base list numbers gmap strings sets relations.
From Stdlib Require Export Strings.Byte Sorting.Sorted micromega.ZifyBool micromega.ZifyN.

#[global] Open Scope N_scope.

(** ** Results

    Rust's [Result<T, E>], with [?] as a bind. *)

Inductive result (T E : Type) : Type :=
  | Ok (v : T)
  | Err (e : E).
Arguments Ok {T E} v.
Arguments Err {T E} e.

Definition rbind {T U E} (c : result T E) (k : T -> result U E) : result U E :=
  match c with
  | Ok v => k v
  | Err e => Err e
  end.

Definition rmap {T U E} (f : T -> U) (c : result T E) : result U E :=
  rbind c (fun v => Ok (f v)).

Definition map_err {T E F} (f : E -> F) (c : result T E) : result T F :=
  match c with
  | Ok v => Ok v
  | Err e => Err (f e)
  end.

Definition is_ok {T E} (c : result T E) : bool :=
  match c with Ok _ => true | Err _ => false end.

Declare Scope rust_scope.
Delimit Scope rust_scope with rust.
#[global] Open Scope rust_scope.

Notation "'let?' x ':=' c 'in' k" := (rbind c (fun x => k))
  (at level 10, x pattern, c at level 100, k at level 200,
   format "'[v' let?  x  :=  c  in '/' k ']'") : rust_scope.

#[global] Instance result_eq_dec {T E} `{EqDecision T, EqDecision E} :
  EqDecision (result T E).
Proof. solve_decision. Defined.

(** ** Stateful code

    Code that reads and changes a state, and may fail. *)

Definition act (W A : Type) : Type := W -> W * A.
Definition aret {W A} (a : A) : act W A := fun w => (w, a).
Definition abind {W A B} (m : act W A) (k : A -> act W B) : act W B := fun w => let '(w, a) := m w in k a w.
Definition amap {W A B} (f : A -> B) (m : act W A) : act W B := abind m (fun a => aret (f a)).
(** [?] in stateful code. *)
Definition atry {W A B E} (m : act W (result A E)) (k : A -> act W (result B E)) : act W (result B E) :=
  abind m (fun r => match r with Ok a => k a | Err e => aret (Err e) end).

Notation "'let*' x ':=' c 'in' k" := (abind c (fun x => k))
  (at level 10, x pattern, c at level 100, k at level 200,
   format "'[v' let*  x  :=  c  in '/' k ']'") : rust_scope.
Notation "'let*?' x ':=' c 'in' k" := (atry c (fun x => k))
  (at level 10, x pattern, c at level 100, k at level 200,
   format "'[v' let*?  x  :=  c  in '/' k ']'") : rust_scope.

(** ** Tactics *)

(** Case analysis on the scrutinee of the first [match] or [if] found in
    hypothesis [H]. *)
Ltac case_in H :=
  match type of H with
  | context [match ?x with _ => _ end] => let E := fresh "E" in destruct x eqn:E
  end.

(** The same in the goal. *)
Ltac case_goal :=
  match goal with
  | |- context [match ?x with _ => _ end] => let E := fresh "E" in destruct x eqn:E
  end.

(** Turn boolean comparisons of [N] and boolean connectives in the context
    into propositions [lia] understands. *)
Ltac bools :=
  repeat match goal with
  | H : (_ && _)%bool = true |- _ => apply andb_prop in H as [? ?]
  | H : (_ && _)%bool = false |- _ => apply andb_false_iff in H
  | H : (_ || _)%bool = false |- _ => apply orb_false_iff in H as [? ?]
  | H : (_ || _)%bool = true |- _ => apply orb_true_iff in H
  | H : negb _ = true |- _ => apply negb_true_iff in H
  | H : negb _ = false |- _ => apply negb_false_iff in H
  | H : (_ <? _) = true |- _ => apply N.ltb_lt in H
  | H : (_ <? _) = false |- _ => apply N.ltb_ge in H
  | H : (_ <=? _) = true |- _ => apply N.leb_le in H
  | H : (_ <=? _) = false |- _ => apply N.leb_gt in H
  | H : (_ =? _) = true |- _ => apply N.eqb_eq in H
  | H : (_ =? _) = false |- _ => apply N.eqb_neq in H
  | H : bool_decide _ = true |- _ => apply bool_decide_eq_true in H
  | H : bool_decide _ = false |- _ => apply bool_decide_eq_false in H
  end.

(** ** Hint database of the development *)

Create HintDb qsh.

(** ** Lists indexed by [N]

    Rust lengths and offsets are [usize]/[u64]; they are kept as [N] (so the
    constants of the source stay cheap), and these wrappers slice lists by
    them. *)

Section NList.
Context {A : Type}.
Implicit Types l k : list A.

Definition len l : N := N.of_nat (length l).
Definition takeN (n : N) l : list A := take (N.to_nat n) l.
Definition dropN (n : N) l : list A := drop (N.to_nat n) l.

(** [l[a..b]] *)
Definition slice (a b : N) l : list A := takeN (b - a) (dropN a l).

Lemma len_nil : len [] = 0.
Proof. done. Qed.

Lemma len_cons x l : len (x :: l) = 1 + len l.
Proof. unfold len; simpl; lia. Qed.

Lemma len_app l k : len (l ++ k) = len l + len k.
Proof. unfold len; rewrite length_app; lia. Qed.

Lemma len_takeN n l : len (takeN n l) = n `min` len l.
Proof. unfold len, takeN; rewrite length_take; lia. Qed.

Lemma len_dropN n l : len (dropN n l) = len l - n.
Proof. unfold len, dropN; rewrite length_drop; lia. Qed.

Lemma len_slice a b l : len (slice a b l) = (b - a) `min` (len l - a).
Proof. unfold slice. rewrite len_takeN, len_dropN. lia. Qed.

Lemma len_0 l : len l = 0 <-> l = [].
Proof. destruct l; unfold len; simpl; split; intros; try done; lia. Qed.

Lemma len_pos l : l <> [] -> 0 < len l.
Proof. intros H. destruct (decide (len l = 0)) as [E|]; [|lia]. by apply len_0 in E. Qed.

Lemma len_pos_inv l : 0 < len l -> l <> [].
Proof. intros H ->. by apply N.lt_irrefl in H. Qed.

Lemma takeN_0 l : takeN 0 l = [].
Proof. done. Qed.

Lemma dropN_0 l : dropN 0 l = l.
Proof. done. Qed.

Lemma takeN_ge n l : len l <= n -> takeN n l = l.
Proof. unfold len, takeN; intros; apply take_ge; lia. Qed.

Lemma dropN_ge n l : len l <= n -> dropN n l = [].
Proof. unfold len, dropN; intros; apply drop_ge; lia. Qed.

Lemma takeN_dropN n l : takeN n l ++ dropN n l = l.
Proof. apply take_drop. Qed.

Lemma dropN_dropN n m l : dropN n (dropN m l) = dropN (m + n) l.
Proof. unfold dropN. rewrite drop_drop. f_equal; lia. Qed.

Lemma takeN_takeN_dropN n m l : takeN n l ++ takeN m (dropN n l) = takeN (n + m) l.
Proof. unfold takeN, dropN. rewrite take_take_drop. f_equal; lia. Qed.

Lemma takeN_app_len n l k : n = len l -> takeN n (l ++ k) = l.
Proof. intros ->. unfold takeN, len. apply take_app_length'. lia. Qed.

Lemma dropN_app_len n l k : n = len l -> dropN n (l ++ k) = k.
Proof. intros ->. unfold dropN, len. apply drop_app_length'. lia. Qed.

Lemma dropN_app_le n l k : n <= len l -> dropN n (l ++ k) = dropN n l ++ k.
Proof. unfold dropN, len; intros; apply drop_app_le; lia. Qed.

Lemma dropN_app_ge n l k : len l <= n -> dropN n (l ++ k) = dropN (n - len l) k.
Proof. unfold dropN, len; intros; rewrite drop_app_ge by lia; f_equal; lia. Qed.

Lemma takeN_app_le n l k : n <= len l -> takeN n (l ++ k) = takeN n l.
Proof. unfold takeN, len; intros; apply take_app_le; lia. Qed.

Lemma takeN_app_ge n l k : len l <= n -> takeN n (l ++ k) = l ++ takeN (n - len l) k.
Proof. unfold takeN, len; intros; rewrite take_app_ge by lia; do 2 f_equal; lia. Qed.

Lemma takeN_takeN n m l : takeN n (takeN m l) = takeN (n `min` m) l.
Proof. unfold takeN. rewrite take_take. f_equal; lia. Qed.

Lemma dropN_takeN n m l : dropN n (takeN m l) = takeN (m - n) (dropN n l).
Proof. unfold takeN, dropN. rewrite skipn_firstn_comm. f_equal; lia. Qed.

Lemma dropN_slice n a b l : dropN n (slice a b l) = slice (a + n) b l.
Proof. unfold slice. rewrite dropN_takeN, dropN_dropN. f_equal. lia. Qed.

Lemma slice_app a b c l : a <= b <= c -> slice a b l ++ slice b c l = slice a c l.
Proof.
  intros H. unfold slice. rewrite <- (takeN_dropN (b - a) (takeN (c - a) (dropN a l))).
  rewrite takeN_takeN, dropN_takeN, dropN_dropN. f_equal; f_equal; [lia..|]. f_equal. lia.
Qed.

Lemma slice_nil a l : slice a a l = [].
Proof. unfold slice. rewrite N.sub_diag. apply takeN_0. Qed.
End NList.

#[global] Arguments len : simpl never.
#[global] Arguments takeN : simpl never.
#[global] Arguments dropN : simpl never.
#[global] Arguments slice : simpl never.

Create Rewrite HintDb qsh_len.
#[export] Hint Rewrite @len_nil @len_cons @len_app @len_takeN @len_dropN @len_slice : qsh_len.

(** Arithmetic over list lengths. *)
Ltac len_lia := autorewrite with qsh_len in *; lia.

(** ** Bytes

    A [u8] is an element of the 256-constructor type [Byte.byte]; [b2n] and
    [n2b] are the casts [as u64] and [as u8] (which truncates). *)

#[global] Instance byte_eq_decision : EqDecision byte := Byte.byte_eq_dec.

Definition b2n (b : byte) : N := Byte.to_N b.

Definition n2b (n : N) : byte :=
  match Byte.of_N (n mod 256) with
  | Some b => b
  | None => x00
  end.

Lemma b2n_bound b : b2n b < 256.
Proof. unfold b2n. pose proof (Byte.to_N_bounded b). lia. Qed.

Lemma b2n_n2b n : b2n (n2b n) = n mod 256.
Proof.
  unfold n2b, b2n. destruct (Byte.of_N (n mod 256)) eqn:E.
  - by apply Byte.to_of_N.
  - apply Byte.of_N_None_iff in E. pose proof (N.mod_lt n 256). lia.
Qed.

Lemma b2n_n2b_small n : n < 256 -> b2n (n2b n) = n.
Proof. intros. rewrite b2n_n2b. by apply N.mod_small. Qed.

Lemma n2b_b2n b : n2b (b2n b) = b.
Proof.
  unfold n2b, b2n. rewrite N.mod_small by apply b2n_bound.
  by rewrite Byte.of_to_N.
Qed.

Lemma b2n_inj b c : b2n b = b2n c -> b = c.
Proof. intros H. by rewrite <- (n2b_b2n b), H, n2b_b2n. Qed.

(** ** Big-endian [u32] *)

Definition u32_max : N := 4294967295.
Definition u64_max : N := 18446744073709551615.

(** [u32::to_be_bytes] *)
Definition u32_to_be_bytes (n : N) : list byte :=
  [n2b (n / 16777216); n2b (n / 65536); n2b (n / 256); n2b n].

(** [u32::from_be_bytes] *)
Definition u32_from_be_bytes (b0 b1 b2 b3 : byte) : N :=
  b2n b0 * 16777216 + b2n b1 * 65536 + b2n b2 * 256 + b2n b3.

Lemma u32_be_roundtrip n :
  n <= u32_max ->
  u32_from_be_bytes (n2b (n / 16777216)) (n2b (n / 65536)) (n2b (n / 256)) (n2b n) = n.
Proof.
  unfold u32_max, u32_from_be_bytes; intros H. rewrite !b2n_n2b.
  pose proof (N.div_mod n 256 ltac:(lia)) as H0.
  pose proof (N.div_mod (n / 256) 256 ltac:(lia)) as H1.
  pose proof (N.div_mod (n / 65536) 256 ltac:(lia)) as H2.
  rewrite N.Div0.div_div in H1, H2. change (256 * 256) with 65536 in H1.
  change (65536 * 256) with 16777216 in H2.
  assert (n / 16777216 < 256) by (apply N.Div0.div_lt_upper_bound; lia).
  rewrite (N.mod_small (n / 16777216) 256) by done. lia.
Qed.

Lemma u32_from_be_bytes_bound b0 b1 b2 b3 : u32_from_be_bytes b0 b1 b2 b3 <= u32_max.
Proof.
  unfold u32_from_be_bytes, u32_max.
  pose proof (b2n_bound b0); pose proof (b2n_bound b1);
  pose proof (b2n_bound b2); pose proof (b2n_bound b3). lia.
Qed.

Lemma u32_be_inverse b0 b1 b2 b3 :
  u32_to_be_bytes (u32_from_be_bytes b0 b1 b2 b3) = [b0; b1; b2; b3].
Proof.
  unfold u32_to_be_bytes, u32_from_be_bytes.
  pose proof (b2n_bound b0); pose proof (b2n_bound b1);
  pose proof (b2n_bound b2); pose proof (b2n_bound b3).
  set (x0 := b2n b0) in *; set (x1 := b2n b1) in *;
  set (x2 := b2n b2) in *; set (x3 := b2n b3) in *.
  assert ((x0 * 16777216 + x1 * 65536 + x2 * 256 + x3) / 16777216 = x0) as ->
    by (symmetry; apply (N.div_unique _ _ _ (x1 * 65536 + x2 * 256 + x3)); lia).
  assert ((x0 * 16777216 + x1 * 65536 + x2 * 256 + x3) / 65536 = x0 * 256 + x1) as ->
    by (symmetry; apply (N.div_unique _ _ _ (x2 * 256 + x3)); lia).
  assert ((x0 * 16777216 + x1 * 65536 + x2 * 256 + x3) / 256 = x0 * 65536 + x1 * 256 + x2) as ->
    by (symmetry; apply (N.div_unique _ _ _ x3); lia).
  repeat f_equal; apply b2n_inj; rewrite b2n_n2b.
  - apply N.mod_small. lia.
  - symmetry; apply (N.mod_unique _ _ x0); lia.
  - symmetry; apply (N.mod_unique _ _ (x0 * 256 + x1)); lia.
  - symmetry; apply (N.mod_unique _ _ (x0 * 65536 + x1 * 256 + x2)); lia.
Qed.

#[global] Arguments u32_to_be_bytes : simpl never.
#[global] Arguments u32_from_be_bytes : simpl never.
#[global] Arguments b2n : simpl never.
#[global] Arguments n2b : simpl never.

(** ** Filtering ordered lists *)

(** Filtering an ordered list by two disjoint predicates, the first of which
    never holds after the second. *)
Lemma filter_none {A} (P : A -> bool) l :
  (forall x, x ∈ l -> P x = false) -> List.filter P l = [].
Proof.
  induction l as [|x l IH]; [done|]. simpl. intros H.
  rewrite (H x) by (apply elem_of_cons; auto). apply IH.
  intros y Hy. apply H. apply elem_of_cons. auto.
Qed.

Lemma filter_split {A} (R : A -> A -> Prop) (P1 P2 : A -> bool) l :
  StronglySorted R l ->
  (forall x, x ∈ l -> P1 x = true -> P2 x = true -> False) ->
  (forall x y, x ∈ l -> y ∈ l -> R x y -> P2 x = true -> P1 y = true -> False) ->
  List.filter P1 l ++ List.filter P2 l = List.filter (fun x => P1 x || P2 x) l.
Proof.
  induction 1 as [|x l Hl IH Hx]; intros Hd Ho; [done|]. simpl.
  rewrite <- IH.
  2: { intros y Hy. apply Hd, elem_of_cons. by right. }
  2: { intros y z Hy Hz. apply Ho; apply elem_of_cons; by right. }
  assert (x ∈ x :: l) as Hin by (apply elem_of_cons; by left).
  destruct (P1 x) eqn:E1, (P2 x) eqn:E2; simpl; try done.
  - exfalso. by eapply Hd.
  - rewrite (filter_none P1 l); [done|]. intros y Hy.
    destruct (P1 y) eqn:E3; [|done]. exfalso.
    rewrite Forall_forall in Hx.
    eapply (Ho x y); auto. apply elem_of_cons; by right.
Qed.

Lemma filter_ext_elem {A} (P Q : A -> bool) l :
  (forall x, x ∈ l -> P x = Q x) -> List.filter P l = List.filter Q l.
Proof.
  intros H. induction l as [|x l IH]; [done|]. simpl.
  rewrite (H x) by (apply elem_of_cons; auto).
  rewrite IH; [done|]. intros y Hy. apply H. apply elem_of_cons. auto.
Qed.

Lemma filter_all {A} (P : A -> bool) l :
  (forall x, x ∈ l -> P x = true) -> List.filter P l = l.
Proof.
  induction l as [|x l IH]; [done|]. simpl. intros H.
  rewrite (H x) by (apply elem_of_cons; auto). f_equal. apply IH.
  intros y Hy. apply H. apply elem_of_cons. auto.
Qed.

Lemma forallb_false {A} (f : A -> bool) (l : list A) : forallb f l = false -> exists x, x ∈ l /\ f x = false.
Proof.
  induction l as [|x l IH]; [done|]. cbn. destruct (f x) eqn:Hx.
  - intros (y & ? & ?)%IH. exists y. split; [by right|done].
  - intros _. exists x. split; [left|done].
Qed.

Lemma mjoin_cons {A} (c : list A) cs : mjoin (c :: cs) = c ++ mjoin cs.
Proof. done. Qed.
