(* ===== verification/Errors.v ===== *)
(** * Error codes

    The vocabulary of errors both ends share ([qsh-proto/src/error.rs]) and the
    wire error built from it.  A code a build does not know is carried as it
    came. *)

From S2P Require Import Prelude.

Module Errors.

Inductive ErrorCode :=
  | InvalidArgument | ConfigError | HostNotFound | ConnectionFailed | AuthFailed | TrustRequired | PermissionDenied
  | SessionNotFound | SessionConflict | ResumeGap | Timeout | Canceled | RemoteError | Unsupported | ResourceExhausted
  | Internal
  | Unknown (raw : string).

#[global] Instance ErrorCode_eq_dec : EqDecision ErrorCode.
Proof. solve_decision. Defined.

Definition KNOWN : list ErrorCode :=
  [InvalidArgument; ConfigError; HostNotFound; ConnectionFailed; AuthFailed; TrustRequired; PermissionDenied;
   SessionNotFound; SessionConflict; ResumeGap; Timeout; Canceled; RemoteError; Unsupported; ResourceExhausted; Internal].

(** [ErrorCode::as_str] *)
Definition code_str (c : ErrorCode) : string :=
  match c with
  | InvalidArgument => "INVALID_ARGUMENT"
  | ConfigError => "CONFIG_ERROR"
  | HostNotFound => "HOST_NOT_FOUND"
  | ConnectionFailed => "CONNECTION_FAILED"
  | AuthFailed => "AUTH_FAILED"
  | TrustRequired => "TRUST_REQUIRED"
  | PermissionDenied => "PERMISSION_DENIED"
  | SessionNotFound => "SESSION_NOT_FOUND"
  | SessionConflict => "SESSION_CONFLICT"
  | ResumeGap => "RESUME_GAP"
  | Timeout => "TIMEOUT"
  | Canceled => "CANCELED"
  | RemoteError => "REMOTE_ERROR"
  | Unsupported => "UNSUPPORTED"
  | ResourceExhausted => "RESOURCE_EXHAUSTED"
  | Internal => "INTERNAL"
  | Unknown raw => raw
  end.

(** [ErrorCode::default_retryable] *)
Definition default_retryable (c : ErrorCode) : bool :=
  match c with ConnectionFailed | ResumeGap | Timeout | ResourceExhausted => true | _ => false end.

(** [ErrorCode::from_str], which never fails: the code of [KNOWN] with that
    text, or the text itself. *)
Definition code_of (s : string) : ErrorCode :=
  default (Unknown s) (List.find (fun c => String.eqb (code_str c) s) KNOWN).

(** A code as [from_str] makes it. *)
Definition canonical_code (c : ErrorCode) : Prop :=
  match c with Unknown raw => forall k, k ∈ KNOWN -> code_str k <> raw | _ => True end.

Lemma code_of_known c : c ∈ KNOWN -> code_of (code_str c) = c.
Proof. intros Hc. unfold KNOWN in Hc. repeat (apply elem_of_cons in Hc as [->|Hc]; [done|]). by apply elem_of_nil in Hc. Qed.

Lemma code_of_new s : (forall k, k ∈ KNOWN -> code_str k <> s) -> code_of s = Unknown s.
Proof.
  intros Hs. unfold code_of. destruct (List.find _ KNOWN) as [c|] eqn:E; [|done]. apply find_some in E as [Hin Heq].
  apply String.eqb_eq in Heq. destruct (Hs c); [by apply list_elem_of_In|done].
Qed.

(** [wire::Error], from [Error::new]; the code travels as its text. *)
Record WireError := mkError { code : ErrorCode; message : string; retryable : bool }.

#[global] Instance WireError_eq_dec : EqDecision WireError.
Proof. solve_decision. Defined.

(** [Error::from_code] *)
Definition from_code (c : ErrorCode) (message : string) : WireError := mkError c message (default_retryable c).

(** No code is lost between two ends, known or not: the text of a code reads
    back as that code, and every text writes back unchanged. *)
Theorem code_roundtrip :
  (forall c, canonical_code c -> code_of (code_str c) = c) /\ (forall s, code_str (code_of s) = s /\ canonical_code (code_of s)).
Proof.
  split.
  - intros c Hc. destruct (decide (c ∈ KNOWN)) as [Hin|Hout]; [by apply code_of_known|].
    destruct c; try (exfalso; apply Hout; set_solver). by apply code_of_new.
  - intros s. unfold code_of. destruct (List.find _ KNOWN) as [c|] eqn:E; cbn [default].
    + apply find_some in E as [Hin Heq]. apply String.eqb_eq in Heq. split; [done|].
      apply list_elem_of_In in Hin. destruct c; try done. unfold KNOWN in Hin. repeat (apply elem_of_cons in Hin as [Hin|Hin]; [done|]). by apply elem_of_nil in Hin.
    + split; [done|]. intros k Hk Heq. apply list_elem_of_In in Hk. pose proof (find_none _ _ E k Hk) as Hn. cbn in Hn. rewrite Heq, String.eqb_refl in Hn. done.
Qed.
End Errors.
