(* ===== verification/Text.v ===== *)
(** * Rust string slices

    The operations of [str] the program uses, over [string] (the UTF-8 bytes
    of the text): prefixes and suffixes, splitting at a separator, searching.
    Separators and affixes of the source are ASCII, so working on bytes and
    on characters agree. *)

From S2P Require Import Prelude.
From Stdlib Require Export Ascii.

Module Text.

(** ** Prefixes and suffixes *)

(** [str::strip_prefix] *)
Fixpoint strip_prefix (p s : string) : option string :=
  match p, s with
  | EmptyString, _ => Some s
  | String a p, String b s => if Ascii.eqb a b then strip_prefix p s else None
  | String _ _, EmptyString => None
  end.

(** [str::starts_with] *)
Definition starts_with (p s : string) : bool :=
  match strip_prefix p s with Some _ => true | None => false end.

(** [str::strip_suffix]: the shortest head whose rest is the suffix. *)
Fixpoint strip_suffix (x s : string) : option string :=
  if bool_decide (s = x) then Some EmptyString
  else match s with
       | EmptyString => None
       | String a s => String a <$> strip_suffix x s
       end.

(** [str::ends_with] *)
Definition ends_with (x s : string) : bool :=
  match strip_suffix x s with Some _ => true | None => false end.

Definition slen (s : string) : N := N.of_nat (String.length s).

Definition is_empty (s : string) : bool := match s with EmptyString => true | _ => false end.

(** [str::contains] with a character. *)
Fixpoint contains (c : ascii) (s : string) : bool :=
  match s with
  | EmptyString => false
  | String a s => Ascii.eqb a c || contains c s
  end.

(** [str::split] with a character: always at least one piece. *)
Fixpoint split (c : ascii) (s : string) : list string :=
  match s with
  | EmptyString => [EmptyString]
  | String a s =>
      match split c s with
      | w :: ws => if Ascii.eqb a c then EmptyString :: w :: ws else String a w :: ws
      | [] => [EmptyString]
      end
  end.

(** The pieces put together again. *)
Fixpoint join (c : ascii) (ws : list string) : string :=
  match ws with
  | [] => EmptyString
  | [w] => w
  | w :: ws => w +:+ String c (join c ws)
  end.

(** [str::trim_end_matches] with a character. *)
Fixpoint trim_end (c : ascii) (s : string) : string :=
  match s with
  | EmptyString => EmptyString
  | String a s =>
      match trim_end c s with
      | EmptyString => if Ascii.eqb a c then EmptyString else String a EmptyString
      | t => String a t
      end
  end.

(** [u8::is_ascii_alphabetic], [u8::is_ascii_digit] *)
Definition is_ascii_alphabetic (a : ascii) : bool :=
  let n := N_of_ascii a in ((65 <=? n) && (n <=? 90)) || ((97 <=? n) && (n <=? 122)).
Definition is_ascii_digit (a : ascii) : bool := let n := N_of_ascii a in (48 <=? n) && (n <=? 57).

(** ** Facts *)

Lemma strip_prefix_spec p s r : strip_prefix p s = Some r <-> s = p +:+ r.
Proof.
  revert s. induction p as [|a p IH]; intros s; cbn; [by split; intros [= ->] || by intros ->|].
  destruct s as [|b s]; [done|]. destruct (Ascii.eqb_spec a b) as [->|Hne].
  - rewrite IH. split; [by intros ->|by intros [= ->]].
  - by split; [|intros [= -> _]].
Qed.

Lemma starts_with_spec p s : starts_with p s = true <-> exists r, s = p +:+ r.
Proof.
  unfold starts_with. destruct (strip_prefix p s) as [r|] eqn:E.
  - split; [|done]. intros _. exists r. by apply strip_prefix_spec.
  - split; [done|]. intros [r Hr%strip_prefix_spec]. by rewrite Hr in E.
Qed.

Lemma app_cons a s t : String a s +:+ t = String a (s +:+ t).
Proof. done. Qed.

Lemma length_app_s a b : String.length (a +:+ b) = (String.length a + String.length b)%nat.
Proof.
  induction a as [|c a IH]; [done|]. rewrite app_cons. exact (f_equal S IH).
Qed.
Lemma slen_app a b : slen (a +:+ b) = slen a + slen b.
Proof. unfold slen. rewrite length_app_s. lia. Qed.
Lemma slen_cons c s : slen (String c s) = 1 + slen s.
Proof. unfold slen. cbn [String.length]. lia. Qed.
Lemma slen_prefix n s : slen (String.substring 0 n s) = N.of_nat n `min` slen s.
Proof.
  unfold slen. revert n. induction s as [|c s IH]; intros [|n]; cbn [String.substring String.length]; try lia.
  specialize (IH n). cbn [String.length]. lia.
Qed.

Lemma app_assoc_s a b c : a +:+ (b +:+ c) = (a +:+ b) +:+ c.
Proof. induction a as [|x a IH]; [done|]. exact (f_equal (String x) IH). Qed.

Lemma app_nil_s a : a +:+ EmptyString = a.
Proof. induction a as [|x a IH]; [done|]. exact (f_equal (String x) IH). Qed.

Lemma strip_suffix_app x r : strip_suffix x (r +:+ x) = Some r.
Proof.
  induction r as [|a r IH].
  - change (EmptyString +:+ x) with x. destruct x; cbn [strip_suffix]; by rewrite bool_decide_true.
  - rewrite app_cons. cbn [strip_suffix]. case_bool_decide as E; [|by rewrite IH].
    apply (f_equal String.length) in E. simpl in E. rewrite length_app_s in E. lia.
Qed.

Lemma strip_suffix_spec x s r : strip_suffix x s = Some r <-> s = r +:+ x.
Proof.
  split; [|intros ->; apply strip_suffix_app].
  revert r. induction s as [|a s IH]; intros r; cbn [strip_suffix]; case_bool_decide as E.
  - by intros [= <-].
  - done.
  - by intros [= <-].
  - destruct (strip_suffix x s) as [t|] eqn:Et; [|done]. intros [= <-]. rewrite app_cons. f_equal. by apply IH.
Qed.

Lemma ends_with_spec x s : ends_with x s = true <-> exists r, s = r +:+ x.
Proof.
  unfold ends_with. destruct (strip_suffix x s) as [r|] eqn:E.
  - split; [|done]. intros _. exists r. by apply strip_suffix_spec.
  - split; [done|]. intros [r Hr%strip_suffix_spec]. by rewrite Hr in E.
Qed.

Lemma split_not_nil c s : split c s <> [].
Proof. destruct s; cbn; [done|]. destruct (split c s); [done|]. by destruct (Ascii.eqb a c). Qed.

Lemma join_split c s : join c (split c s) = s.
Proof.
  induction s as [|a s IH]; [done|]. cbn [split]. pose proof (split_not_nil c s).
  destruct (split c s) as [|w ws]; [done|]. destruct (Ascii.eqb_spec a c) as [->|Hne].
  - cbn. cbn in IH. by rewrite IH.
  - rewrite <- IH. by destruct ws.
Qed.

(** No piece contains the separator. *)
Lemma split_pieces c s : Forall (fun w => contains c w = false) (split c s).
Proof.
  induction s as [|a s IH]; [by repeat constructor|]. cbn [split].
  destruct (split c s) as [|w ws]; [by repeat constructor|]. apply Forall_cons in IH as [Hw Hws].
  destruct (Ascii.eqb a c) eqn:E; repeat constructor; try done. cbn. by rewrite E.
Qed.

Lemma split_none c s : contains c s = false -> split c s = [s].
Proof.
  induction s as [|a s IH]; [done|]. cbn. intros [Ha Hs]%orb_false_iff. rewrite (IH Hs). by rewrite Ha.
Qed.

Lemma split_join c ws :
  ws <> [] -> Forall (fun w => contains c w = false) ws -> split c (join c ws) = ws.
Proof.
  intros Hne Hws. induction Hws as [|w ws Hw Hws IH]; [done|]. clear Hne.
  destruct ws as [|w' ws']; [by apply split_none|].
  change (join c (w :: w' :: ws')) with (w +:+ String c (join c (w' :: ws'))).
  specialize (IH ltac:(done)). set (t := join c (w' :: ws')) in *. clearbody t. clear Hws.
  induction w as [|a w IHw].
  - change (EmptyString +:+ ?x) with x. cbn [split]. rewrite IH. by rewrite Ascii.eqb_refl.
  - cbn in Hw. apply orb_false_iff in Hw as [Ha Hw]. rewrite app_cons. cbn [split].
    rewrite (IHw Hw). by rewrite Ha.
Qed.

Lemma contains_app c a b : contains c (a +:+ b) = contains c a || contains c b.
Proof.
  induction a as [|x a IH]; [done|]. rewrite app_cons. cbn [contains]. rewrite IH. apply orb_assoc.
Qed.

Lemma split_app c a b : split c (a +:+ String c b) = split c a ++ split c b.
Proof.
  pose proof (split_not_nil c b). induction a as [|x a IH].
  - change (EmptyString +:+ ?t) with t. cbn [split]. rewrite Ascii.eqb_refl. by destruct (split c b).
  - rewrite app_cons. cbn [split]. rewrite IH. pose proof (split_not_nil c a). destruct (split c a) as [|w ws]; [done|].
    cbn. by destruct (Ascii.eqb x c).
Qed.

Lemma trim_end_absent c s : contains c s = false -> trim_end c s = s.
Proof.
  induction s as [|a s IH]; [done|]. cbn [contains trim_end]. rewrite orb_false_iff. intros [Ha Hs].
  rewrite IH by done. destruct s; [by rewrite Ha|done].
Qed.

End Text.
