(* ===== verification/Identity.v ===== *)
(** * Peer identity and its verification

    [Identity] models [crates/qsh-transport/src/identity.rs] (fingerprints,
    principals and their texts), the ownership key of
    [crates/qsh-core/src/acl/mod.rs] ([opener_key]) and the verification core
    of [crates/qsh-transport/src/tls.rs] ([verify_core], [verify_chain]).

    Certificates are opaque: what the X.509 and web-PKI libraries answer about
    one is a parameter, as is Base64.  A [TrustEvaluator] works on a state,
    because the trust store rereads its file whenever it is asked. *)

From S2P Require Import Prelude Text.

Module Identity.
Import Text.

(** ** Fingerprints *)

Definition FINGERPRINT_PREFIX : string := "sha256:".

(** The 32 bytes of a SHA-256. *)
Definition Fingerprint := list byte.
Definition FINGERPRINT_LEN : N := 32.

Definition is_b64 (a : ascii) : bool :=
  is_ascii_alphabetic a || is_ascii_digit a || bool_decide (a ∈ ["+"; "/"; "="]%char).

(** The [base64] crate's standard engine: encoding with padding, decoding
    without. *)
Class Base64 := {
  b64_encode : list byte -> string;
  b64_decode : string -> option (list byte);
  b64_law bs : b64_decode (trim_end "="%char (b64_encode bs)) = Some bs;
  b64_chars bs a : contains a (b64_encode bs) = true -> is_b64 a = true;
}.

(** The UTF-8 of the characters with the White_Space property, which
    [str::trim] removes at both ends. *)
Definition bytes_of (ns : list N) : string := foldr (fun n s => String (ascii_of_N n) s) EmptyString ns.
Definition whitespace : list string :=
  bytes_of <$> [[9]; [10]; [11]; [12]; [13]; [32]; [194; 133]; [194; 160]; [225; 154; 128];
                [226; 128; 128]; [226; 128; 129]; [226; 128; 130]; [226; 128; 131]; [226; 128; 132];
                [226; 128; 133]; [226; 128; 134]; [226; 128; 135]; [226; 128; 136]; [226; 128; 137];
                [226; 128; 138]; [226; 128; 168]; [226; 128; 169]; [226; 128; 175]; [226; 129; 159];
                [227; 128; 128]].

(** The first answer of [f] on the list ([Iterator::find_map]). *)
Fixpoint find_map {A B} (f : A -> option B) (l : list A) : option B :=
  match l with
  | [] => None
  | x :: l => match f x with Some y => Some y | None => find_map f l end
  end.

Fixpoint trim_start_loop (fuel : nat) (s : string) : string :=
  match fuel with
  | O => s
  | S fuel => match find_map (fun w => strip_prefix w s) whitespace with
              | Some t => trim_start_loop fuel t
              | None => s
              end
  end.
Fixpoint trim_end_loop (fuel : nat) (s : string) : string :=
  match fuel with
  | O => s
  | S fuel => match find_map (fun w => strip_suffix w s) whitespace with
              | Some t => trim_end_loop fuel t
              | None => s
              end
  end.
(** [str::trim] *)
Definition trim (s : string) : string :=
  trim_end_loop (String.length s) (trim_start_loop (String.length s) s).

Definition to_ascii_lowercase (a : ascii) : ascii :=
  let n := N_of_ascii a in if (65 <=? n) && (n <=? 90) then ascii_of_N (n + 32) else a.

(** Strip a prefix, ASCII case ignored. *)
Fixpoint strip_prefix_nocase (p s : string) : option string :=
  match p, s with
  | EmptyString, _ => Some s
  | String a p, String b s =>
      if Ascii.eqb (to_ascii_lowercase a) (to_ascii_lowercase b) then strip_prefix_nocase p s else None
  | String _ _, EmptyString => None
  end.

Section Text64.
Context `{Base64}.

(** [Fingerprint::fmt] *)
Definition fp_display (fp : Fingerprint) : string := FINGERPRINT_PREFIX +:+ b64_encode fp.

(** [Fingerprint::from_str] *)
Definition fp_from_str (s : string) : result Fingerprint string :=
  let s := trim s in
  match strip_prefix_nocase FINGERPRINT_PREFIX s with
  | None => Err s
  | Some rest =>
      match b64_decode (trim_end "="%char rest) with
      | None => Err s
      | Some bytes => if len bytes =? FINGERPRINT_LEN then Ok bytes else Err s
      end
  end.

(** ** Principals *)

Inductive Principal :=
  | Device (name : string)
  | User (name : string)
  | FpPrincipal (fp : Fingerprint)
  | PairingPrincipal.

#[global] Instance Principal_eq_dec : EqDecision Principal.
Proof. solve_decision. Defined.

(** [Principal::fmt] *)
Definition principal_display (p : Principal) : string :=
  match p with
  | Device name => "device:" +:+ name
  | User name => "user:" +:+ name
  | FpPrincipal fp => "fp:" +:+ fp_display fp
  | PairingPrincipal => "pairing"
  end.

(** [Principal::from_str] *)
Definition principal_from_str (s : string) : result Principal string :=
  if bool_decide (s = "pairing"%string) then Ok PairingPrincipal
  else match strip_prefix "device:" s with
  | Some name => if is_empty name then Err s else Ok (Device name)
  | None =>
      match strip_prefix "user:" s with
      | Some name => if is_empty name then Err s else Ok (User name)
      | None =>
          match strip_prefix "fp:" s with
          | Some rest => match fp_from_str rest with Ok fp => Ok (FpPrincipal fp) | Err _ => Err s end
          | None => Err s
          end
      end
  end.

(** ** How a peer authenticated *)

Inductive AuthPath := Pin | Ca | Pairing.

#[global] Instance AuthPath_eq_dec : EqDecision AuthPath.
Proof. solve_decision. Defined.

(** The [Debug] text of an [AuthPath]. *)
Definition auth_path_debug (a : AuthPath) : string :=
  match a with Pin => "Pin" | Ca => "Ca" | Pairing => "Pairing" end.

(** [opener_key] *)
Definition opener_key (p : Principal) (a : AuthPath) : string :=
  auth_path_debug a +:+ ":" +:+ principal_display p.

End Text64.

(** ** Verification *)

Inductive PeerRole := Server | Client.

Inductive RejectReason := Malformed | Expired | Untrusted | NoPrincipal.

#[global] Instance RejectReason_eq_dec : EqDecision RejectReason.
Proof. solve_decision. Defined.

Inductive CertificateError :=
  | BadEncoding | NotValidYet | CertExpired | UnknownIssuer | BadSignature
  | ApplicationVerificationFailure | OtherError.

(** The errors of [webpki] that [webpki_to_tls] tells apart. *)
Inductive WebpkiError :=
  | WCertExpired | WCertNotValidYet | WUnknownIssuer | WBadDer | WBadDerTime
  | WInvalidSignatureForPublicKey | WOther.

Definition webpki_to_tls (e : WebpkiError) : CertificateError :=
  match e with
  | WCertExpired => CertExpired
  | WCertNotValidYet => NotValidYet
  | WUnknownIssuer => UnknownIssuer
  | WBadDer | WBadDerTime => BadEncoding
  | WInvalidSignatureForPublicKey => BadSignature
  | WOther => OtherError
  end.

Record VerifiedPeer := mkVerified { v_principal : Principal; v_auth_path : AuthPath }.

(** A general name of a subject alternative name extension. *)
Inductive GeneralName := URI (uri : string) | OtherName.

(** What the certificate libraries answer. *)
Class X509 (Cert : Type) := {
  (** SHA-256 of the SubjectPublicKeyInfo; [None] when the DER does not parse. *)
  of_cert_der : Cert -> option Fingerprint;
  (** [not_before] and [not_after], UNIX seconds. *)
  validity_unix : Cert -> option (Z * Z);
  (** The subject alternative names; [Ok None] without the extension. *)
  subject_alternative_name : Cert -> result (option (list GeneralName)) unit;
  (** [webpki::anchor_from_trusted_cert] *)
  is_anchor : Cert -> bool;
  (** [EndEntityCert::try_from] *)
  is_end_entity : Cert -> bool;
  (** [EndEntityCert::verify_for_usage], over the anchors, the leaf, the
      intermediates, the time and the usage. *)
  verify_for_usage : list Cert -> Cert -> list Cert -> N -> PeerRole -> result unit WebpkiError;
}.

(** The trait [TrustEvaluator], over the state it answers from. *)
Class TrustEvaluator (Cert St : Type) := {
  lookup_pin : Fingerprint -> St -> St * option Principal;
  ca_roots : St -> St * list Cert;
  pairing_open : St -> bool;
}.

Definition valid_segment (s : string) : bool := negb (is_empty s) && negb (contains "/"%char s).

Definition guarded {A} (b : bool) (a : A) : option A := if b then Some a else None.

(** [principal_from_san] of one general name. *)
Definition name_principal (n : GeneralName) : option Principal :=
  match n with
  | URI uri =>
      match strip_prefix "qsh://user/" uri with
      | Some user => guarded (valid_segment user) (User user)
      | None => match strip_prefix "qsh://device/" uri with
                | Some device => guarded (valid_segment device) (Device device)
                | None => None
                end
      end
  | OtherName => None
  end.

Definition I64_MAX : Z := 2 ^ 63 - 1.

Section Verify.
Context {Cert St : Type} `{X509 Cert} `{TrustEvaluator Cert St}.

Definition principal_from_san (c : Cert) : result (option Principal) unit :=
  match subject_alternative_name c with
  | Ok (Some names) => Ok (find_map name_principal names)
  | Ok None => Ok None
  | Err e => Err e
  end.

Definition Rejection : Type := RejectReason * CertificateError.

(** The private CA chain of [verify_core]. *)
Definition verify_ca (roots : list Cert) (ee : Cert) (intermediates : list Cert) (now : N) (role : PeerRole)
    : result VerifiedPeer Rejection :=
  match roots with
  | [] => Err (Untrusted, UnknownIssuer)
  | _ =>
      if negb (forallb is_anchor roots) then Err (Untrusted, UnknownIssuer)
      else if negb (is_end_entity ee) then Err (Malformed, BadEncoding)
      else match verify_for_usage roots ee intermediates now role with
      | Err e => Err (Untrusted, webpki_to_tls e)
      | Ok _ =>
          match principal_from_san ee with
          | Ok (Some p) => Ok (mkVerified p Ca)
          | Ok None => Err (NoPrincipal, ApplicationVerificationFailure)
          | Err _ => Err (Malformed, BadEncoding)
          end
      end
  end.

Definition verify_core (ee : Cert) (intermediates : list Cert) (now : N) (role : PeerRole) (s : St)
    : St * result VerifiedPeer Rejection :=
  match of_cert_der ee with
  | None => (s, Err (Malformed, BadEncoding))
  | Some fp =>
      match validity_unix ee with
      | None => (s, Err (Malformed, BadEncoding))
      | Some (not_before, not_after) =>
          let now_secs := Z.min (Z.of_N now) I64_MAX in
          if (now_secs <? not_before)%Z then (s, Err (Expired, NotValidYet))
          else if (not_after <? now_secs)%Z then (s, Err (Expired, CertExpired))
          else
            let '(s, pin) := lookup_pin fp s in
            match pin with
            | Some p => (s, Ok (mkVerified p Pin))
            | None =>
                let '(s, roots) := ca_roots s in
                match verify_ca roots ee intermediates now role with
                | Ok v => (s, Ok v)
                | Err e => if pairing_open s then (s, Ok (mkVerified PairingPrincipal Pairing)) else (s, Err e)
                end
            end
      end
  end.

(** [verify_chain], at the time [now]. *)
Definition verify_chain (chain : list Cert) (now : N) (role : PeerRole) (s : St)
    : St * result VerifiedPeer RejectReason :=
  match chain with
  | [] => (s, Err Untrusted)
  | ee :: intermediates =>
      let '(s, r) := verify_core ee intermediates now role s in (s, map_err fst r)
  end.

End Verify.

(** ** Texts determine identities *)

Fixpoint last_char (s : string) : option ascii :=
  match s with
  | EmptyString => None
  | String a EmptyString => Some a
  | String _ s => last_char s
  end.

Lemma last_char_app s t : t <> EmptyString -> last_char (s +:+ t) = last_char t.
Proof.
  intros Ht. induction s as [|a s IH]; [done|]. rewrite app_cons. rewrite <- IH.
  destruct s, t; done.
Qed.

Lemma last_char_some a s : is_Some (last_char (String a s)).
Proof. revert a. induction s as [|b s IH]; intros a; [by exists a|]. exact (IH b). Qed.

Lemma last_char_contains s a : last_char s = Some a -> contains a s = true.
Proof.
  induction s as [|b s IH]; [done|]. intros Hl. cbn [contains]. destruct s as [|c s].
  - injection Hl as ->. by rewrite Ascii.eqb_refl.
  - rewrite IH by exact Hl. apply orb_true_r.
Qed.

(** A character no white space ends in. *)
Definition solid (a : ascii) : bool := is_b64 a || Ascii.eqb a ":"%char.

Lemma whitespace_not_solid w :
  w ∈ whitespace -> exists a, last_char w = Some a /\ solid a = false.
Proof.
  intros Hw. assert (Hall : Forall (fun w => exists a, last_char w = Some a /\ solid a = false) whitespace).
  { repeat (constructor; [eexists; split; [reflexivity|vm_compute; reflexivity]|]). constructor. }
  rewrite Forall_forall in Hall. by apply Hall.
Qed.

Lemma find_map_none {A B} (f : A -> option B) l : (forall x, x ∈ l -> f x = None) -> find_map f l = None.
Proof. induction l as [|x l IH]; [done|]. intros H. cbn. rewrite (H x) by set_solver. apply IH. set_solver. Qed.

Lemma trim_end_solid fuel s a : last_char s = Some a -> solid a = true -> trim_end_loop fuel s = s.
Proof.
  intros Hl Ha. destruct fuel; [done|]. cbn [trim_end_loop]. rewrite find_map_none; [done|].
  intros w Hw. destruct (strip_suffix w s) as [r|] eqn:E; [|done]. apply strip_suffix_spec in E as ->.
  destruct (whitespace_not_solid w Hw) as (b & Hb & Hs). rewrite last_char_app, Hb in Hl by by destruct w.
  injection Hl as ->. congruence.
Qed.

Section TextFacts.
Context `{Base64}.

Lemma fp_display_last fp : exists a, last_char (fp_display fp) = Some a /\ solid a = true.
Proof.
  unfold fp_display. destruct (b64_encode fp) as [|c s] eqn:E; [by exists ":"%char|].
  rewrite last_char_app by done. destruct (last_char_some c s) as [a Ea]. rewrite Ea.
  exists a. split; [done|]. unfold solid. apply orb_true_iff. left. apply (b64_chars fp).
  rewrite E. by apply last_char_contains.
Qed.

Lemma fp_roundtrip fp : len fp = FINGERPRINT_LEN -> fp_from_str (fp_display fp) = Ok fp.
Proof.
  intros Hl. unfold fp_from_str, trim. destruct (fp_display_last fp) as (a & Ha & Hs).
  replace (trim_start_loop _ (fp_display fp)) with (fp_display fp) by done.
  rewrite (trim_end_solid _ _ a) by done.
  change (strip_prefix_nocase FINGERPRINT_PREFIX (fp_display fp)) with (Some (b64_encode fp)).
  cbv match. by rewrite b64_law, (proj2 (N.eqb_eq _ _)).
Qed.

Lemma b64_encode_inj bs bs' : b64_encode bs = b64_encode bs' -> bs = bs'.
Proof. intros E. pose proof (b64_law bs) as H1. rewrite E, b64_law in H1. by injection H1. Qed.

Lemma principal_display_inj p q : principal_display p = principal_display q -> p = q.
Proof.
  destruct p, q; intros E; try done; cbn in E; simplify_eq; try done.
  f_equal. by apply b64_encode_inj.
Qed.

Lemma opener_key_inj p a q b : opener_key p a = opener_key q b -> p = q /\ a = b.
Proof.
  unfold opener_key. destruct a, b; intros E; try done;
    (split; [|done]); apply principal_display_inj; by injection E.
Qed.

(** A principal that can be written down is read back. *)
Lemma principal_roundtrip p :
  (forall n, p = Device n \/ p = User n -> n <> EmptyString) ->
  (forall fp, p = FpPrincipal fp -> len fp = FINGERPRINT_LEN) ->
  principal_from_str (principal_display p) = Ok p.
Proof.
  intros Hn Hf. destruct p as [n|n|fp|]; [..|done].
  - specialize (Hn n (or_introl eq_refl)). by destruct n.
  - specialize (Hn n (or_intror eq_refl)). by destruct n.
  - unfold principal_from_str. cbn [principal_display].
    change (strip_prefix "fp:" ("fp:" +:+ fp_display fp)) with (Some (fp_display fp)).
    rewrite bool_decide_false by done.
    change (strip_prefix "device:" ("fp:" +:+ fp_display fp)) with (@None string).
    change (strip_prefix "user:" ("fp:" +:+ fp_display fp)) with (@None string).
    cbv match. by rewrite fp_roundtrip by auto.
Qed.

End TextFacts.

(** ** What the verifier accepts *)

Section VerifyFacts.
Context {Cert St : Type} `{X509 Cert} `{TrustEvaluator Cert St}.

(** The certificate names [p] in its alternative names. *)
Definition asserts (c : Cert) (p : Principal) : Prop :=
  exists names, subject_alternative_name c = Ok (Some names) /\ find_map name_principal names = Some p.

Lemma verify_ca_ok roots ee ints now role v :
  verify_ca roots ee ints now role = Ok v ->
  roots <> [] /\ verify_for_usage roots ee ints now role = Ok tt
  /\ v_auth_path v = Ca /\ asserts ee (v_principal v).
Proof.
  unfold verify_ca. destruct roots as [|r rs] eqn:Er; [done|]. rewrite <- Er.
  destruct (negb _); [done|]. destruct (negb _); [done|].
  destruct (verify_for_usage roots ee ints now role) as [[]|] eqn:Ev; [|done].
  unfold principal_from_san, asserts. destruct (subject_alternative_name ee) as [[names|]|] eqn:Es; [|done..].
  destruct (find_map name_principal names) as [p|] eqn:Ep; [|done]. intros [= <-].
  split; [by subst|]. split; [done|]. split; [done|]. by exists names.
Qed.

Lemma name_principal_san n p :
  name_principal n = Some p -> exists s, p = Device s \/ p = User s.
Proof.
  destruct n as [uri|]; [|done]. unfold name_principal, guarded.
  repeat case_match; intros [= <-]; eauto.
Qed.

Lemma find_map_some {A B} (f : A -> option B) l y :
  find_map f l = Some y -> exists x, x ∈ l /\ f x = Some y.
Proof.
  induction l as [|x l IH]; [done|]. cbn. destruct (f x) as [z|] eqn:E.
  - intros [= ->]. exists x. split; [set_solver|done].
  - intros H'%IH. destruct H' as (x' & ? & ?). exists x'. split; [set_solver|done].
Qed.

(** An accepted peer is within its validity window and is either pinned, or
    vouched for by a configured CA, or let in by an open pairing window. *)
Lemma verify_core_ok ee ints now role s s' v :
  verify_core ee ints now role s = (s', Ok v) ->
  exists fp nb na, of_cert_der ee = Some fp /\ validity_unix ee = Some (nb, na)
  /\ (nb <= Z.min (Z.of_N now) I64_MAX <= na)%Z
  /\ ((v_auth_path v = Pin /\ lookup_pin fp s = (s', Some (v_principal v)))
      \/ exists s1 roots, lookup_pin fp s = (s1, None) /\ ca_roots s1 = (s', roots)
         /\ ((v_auth_path v = Ca /\ roots <> [] /\ verify_for_usage roots ee ints now role = Ok tt
              /\ asserts ee (v_principal v))
             \/ (v = mkVerified PairingPrincipal Pairing /\ pairing_open s' = true))).
Proof.
  unfold verify_core. destruct (of_cert_der ee) as [fp|]; [|done].
  destruct (validity_unix ee) as [[nb na]|]; [|done].
  destruct (Z.ltb_spec (Z.min (Z.of_N now) I64_MAX) nb); [done|].
  destruct (Z.ltb_spec na (Z.min (Z.of_N now) I64_MAX)); [done|].
  destruct (lookup_pin fp s) as [s1 [p|]] eqn:Ep; intros Hv.
  - injection Hv as <- <-. exists fp, nb, na. split; [done|]. split; [done|]. split; [lia|]. by left.
  - destruct (ca_roots s1) as [s2 roots] eqn:Er. exists fp, nb, na. split; [done|]. split; [done|]. split; [lia|].
    right. exists s1, roots. destruct (verify_ca roots ee ints now role) as [w|] eqn:Ec.
    + injection Hv as <- <-. apply verify_ca_ok in Ec as (? & ? & ? & ?). auto 10.
    + destruct (pairing_open s2) eqn:Eo; [|done]. injection Hv as <- <-. auto 10.
Qed.

End VerifyFacts.
(** ** A concrete engine *)

(** Two letters per byte: it satisfies what the model asks of Base64. *)
Definition letter (n : N) : ascii := ascii_of_N (97 + n).
Fixpoint letters_encode (bs : list byte) : string :=
  match bs with
  | [] => EmptyString
  | b :: bs => String (letter (Byte.to_N b / 16)) (String (letter (Byte.to_N b mod 16)) (letters_encode bs))
  end.
Fixpoint letters_decode (s : string) : option (list byte) :=
  match s with
  | EmptyString => Some []
  | String h (String l s) =>
      b ← Byte.of_N ((N_of_ascii h - 97) * 16 + (N_of_ascii l - 97));
      bs ← letters_decode s;
      Some (b :: bs)
  | String _ EmptyString => None
  end.

Lemma letters_byte b :
  Byte.of_N ((N_of_ascii (letter (Byte.to_N b / 16)) - 97) * 16 + (N_of_ascii (letter (Byte.to_N b mod 16)) - 97))
  = Some b
  /\ is_ascii_alphabetic (letter (Byte.to_N b / 16)) = true
  /\ is_ascii_alphabetic (letter (Byte.to_N b mod 16)) = true.
Proof. by destruct b; vm_compute. Qed.

Lemma letters_chars bs a : contains a (letters_encode bs) = true -> is_ascii_alphabetic a = true.
Proof.
  induction bs as [|b bs IH]; [done|]. cbn [letters_encode contains].
  destruct (letters_byte b) as (_ & H1 & H2).
  rewrite !orb_true_iff. intros [E|[E|E]]; [..|auto]; apply Ascii.eqb_eq in E; by subst.
Qed.

Lemma letters_law bs : letters_decode (trim_end "="%char (letters_encode bs)) = Some bs.
Proof.
  rewrite trim_end_absent.
  - induction bs as [|b bs IH]; [done|]. cbn [letters_encode letters_decode].
    destruct (letters_byte b) as (-> & _). by rewrite IH.
  - destruct (contains _ _) eqn:E; [|done]. by apply letters_chars in E.
Qed.

Definition letters_base64 : Base64.
Proof.
  refine {| b64_encode := letters_encode; b64_decode := letters_decode; b64_law := letters_law |}.
  intros bs a Ha%letters_chars. unfold is_b64. by rewrite Ha.
Defined.

End Identity.
