(* ===== verification/Frame.v ===== *)
(** * Length-prefixed framing

    Models [crates/qsh-proto/src/frame.rs] ([encode_frame], [FrameDecoder])
    and the framed stream reader and writer built on it in
    [crates/qsh-transport/src/control.rs] ([FramedSend::send],
    [FramedRecv::recv], [FramedRecv::into_raw]).  The message codec (prost)
    and the transport stream are parameters: a receive stream is the sequence
    of read results it will produce, ending in a clean FIN. *)

From S2P Require Import Prelude.

Module Frame.

(** Maximum payload of a control-stream frame (256 KiB) and of a data-stream
    frame (64 KiB). *)
Definition CONTROL_FRAME_MAX : N := 256 * 1024.
Definition DATA_FRAME_MAX : N := 64 * 1024.
Definition HEADER_LEN : N := 4.

Inductive FrameError :=
  | Oversize (declared max : N)
  | PayloadTooLarge.

Definition encode_frame (payload : list byte) : result (list byte) FrameError :=
  if u32_max <? len payload then Err PayloadTooLarge
  else Ok (u32_to_be_bytes (len payload) ++ payload).

Record FrameDecoder := mkDecoder {
  buf : list byte;
  max_frame_len : N;
}.

Definition new (max : N) : FrameDecoder := mkDecoder [] max.

Definition push (d : FrameDecoder) (bytes : list byte) : FrameDecoder :=
  mkDecoder (buf d ++ bytes) (max_frame_len d).

Definition buffered (d : FrameDecoder) : N := len (buf d).

Definition take_remaining (d : FrameDecoder) : list byte * FrameDecoder :=
  (buf d, mkDecoder [] (max_frame_len d)).

(** [next_frame]: the result and the decoder it leaves. *)
Definition next_frame (d : FrameDecoder)
    : result (option (list byte)) FrameError * FrameDecoder :=
  match buf d with
  | b0 :: b1 :: b2 :: b3 :: _ =>
      let declared := u32_from_be_bytes b0 b1 b2 b3 in
      if max_frame_len d <? declared then (Err (Oversize declared (max_frame_len d)), d)
      else
        let total := HEADER_LEN + declared in
        if len (buf d) <? total then (Ok None, d)
        else (Ok (Some (slice HEADER_LEN total (buf d))),
              mkDecoder (dropN total (buf d)) (max_frame_len d))
  | _ => (Ok None, d)
  end.

#[global] Arguments next_frame : simpl never.

(** ** Framed streams *)

Section Stream.
(** Protobuf messages and their codec (prost). *)
Context {M DecErr ReadErr : Type}.
Variable encode : M -> list byte.
Variable decode : list byte -> result M DecErr.

Inductive WireEncodeError :=
  | TooLarge (size max : N)
  | EncFrame (e : FrameError).

(** [wire::encode_framed] *)
Definition encode_framed (msg : M) (max : N) : result (list byte) WireEncodeError :=
  let body := encode msg in
  if max <? len body then Err (TooLarge (len body) max)
  else map_err EncFrame (encode_frame body).

Inductive StreamError :=
  | SFrame (e : FrameError)
  | SDecode (e : DecErr)
  | STruncated (buffered : N)
  | SRead (e : ReadErr).

(** One result of [RecvStream::read]: bytes, or a failure.  The end of the
    list is the clean end of the stream. *)
Inductive ReadEvt :=
  | RData (bytes : list byte)
  | RFail (e : ReadErr).

(** [FramedRecv::recv]. *)
Fixpoint recv (dec : FrameDecoder) (s : list ReadEvt)
    : result (option M) StreamError * FrameDecoder * list ReadEvt :=
  match next_frame dec with
  | (Err e, dec') => (Err (SFrame e), dec', s)
  | (Ok (Some payload), dec') =>
      (map_err SDecode (rmap Some (decode payload)), dec', s)
  | (Ok None, dec') =>
      match s with
      | [] => ((if buffered dec' =? 0 then Ok None
                else Err (STruncated (buffered dec'))), dec', s)
      | RFail e :: s' => (Err (SRead e), dec', s')
      | RData bytes :: s' => recv (push dec' bytes) s'
      end
  end.

(** [FramedRecv::into_raw]: the unread stream and the bytes already read
    past the last complete frame. *)
Definition into_raw (dec : FrameDecoder) (s : list ReadEvt) : list ReadEvt * list byte :=
  (s, (take_remaining dec).1).

(** [n] successive [recv]s, as a reader loop performs them. *)
Fixpoint recv_n (n : nat) (dec : FrameDecoder) (s : list ReadEvt)
    : list (result (option M) StreamError) * FrameDecoder * list ReadEvt :=
  match n with
  | O => ([], dec, s)
  | S n' =>
      let '(r, dec', s') := recv dec s in
      let '(rs, dec'', s'') := recv_n n' dec' s' in
      (r :: rs, dec'', s'')
  end.

(** Everything a sender writes for a list of messages. *)
Fixpoint send_all (ms : list M) (max : N) : result (list byte) WireEncodeError :=
  match ms with
  | [] => Ok []
  | m :: ms' =>
      let? w := encode_framed m max in
      let? ws := send_all ms' max in
      Ok (w ++ ws)
  end.
End Stream.
Arguments WireEncodeError : clear implicits.
Arguments StreamError : clear implicits.
Arguments ReadEvt : clear implicits.

(** ** Lemmas *)

(** A buffer that holds a whole frame yields its payload and keeps the rest. *)
Lemma next_frame_whole p rest max :
  len p <= max -> max <= u32_max ->
  next_frame (mkDecoder (u32_to_be_bytes (len p) ++ p ++ rest) max)
  = (Ok (Some p), mkDecoder rest max).
Proof.
  intros Hp Hmax. unfold next_frame, u32_to_be_bytes, HEADER_LEN. simpl buf. cbn [app max_frame_len].
  rewrite u32_be_roundtrip by lia.
  destruct (max <? len p) eqn:E; bools; [lia|].
  set (h := _ :: _ :: _ :: _ :: p ++ rest).
  assert (len h = 4 + len p + len rest) as Hlen
    by (unfold h; autorewrite with qsh_len; lia).
  destruct (len h <? 4 + len p) eqn:E2; bools; [lia|].
  assert (dropN 4 h = p ++ rest) as Hd by done.
  f_equal; [do 2 f_equal|f_equal].
  - unfold slice. rewrite Hd. apply takeN_app_len. lia.
  - rewrite <- dropN_dropN, Hd. by apply dropN_app_len.
Qed.

(** [next_frame] never grows the buffer, and when it waits for more bytes less
    than one maximal frame is buffered. *)
Lemma next_frame_buffered d r d' :
  next_frame d = (r, d') ->
  max_frame_len d' = max_frame_len d /\ buffered d' <= buffered d /\
  (r = Ok None -> buffered d' <= max_frame_len d + 3).
Proof.
  unfold next_frame, buffered, HEADER_LEN. destruct d as [b max]. simpl. intros H.
  destruct b as [|b0 [|b1 [|b2 [|b3 b]]]].
  all: try (injection H as <- <-; simpl; unfold len; simpl; repeat split; lia).
  destruct (max <? _) eqn:E; [injection H as <- <-; done|]. bools.
  set (h := b0 :: _) in *. destruct (len h <? _) eqn:E2; bools; injection H as <- <-; simpl.
  - repeat split; lia.
  - autorewrite with qsh_len. repeat split; [lia|done].
Qed.

(** A proper prefix of a frame makes the decoder wait for more. *)
Lemma next_frame_partial p a b max :
  len p <= max -> max <= u32_max ->
  a ++ b = u32_to_be_bytes (len p) ++ p -> b <> [] ->
  next_frame (mkDecoder a max) = (Ok None, mkDecoder a max).
Proof.
  intros Hp Hmax Hab Hb. apply len_pos in Hb. unfold next_frame, HEADER_LEN. simpl.
  destruct a as [|a0 [|a1 [|a2 [|a3 a]]]]; try done.
  unfold u32_to_be_bytes in Hab. simpl in Hab.
  injection Hab as -> -> -> -> Hab.
  rewrite u32_be_roundtrip by lia.
  destruct (max <? len p) eqn:E; bools; [lia|].
  apply (f_equal len) in Hab. autorewrite with qsh_len in *.
  case_goal; bools; [done|lia].
Qed.

Lemma encode_framed_Ok {M} (encode : M -> list byte) m max w :
  encode_framed encode m max = Ok w ->
  len (encode m) <= max /\ w = u32_to_be_bytes (len (encode m)) ++ encode m.
Proof.
  unfold encode_framed, encode_frame. intros H.
  destruct (max <? _) eqn:E; [done|]. bools.
  destruct (u32_max <? _); simpl in H; naive_solver.
Qed.

Lemma len_u32_be n : len (u32_to_be_bytes n) = 4.
Proof. done. Qed.
#[local] Hint Rewrite len_u32_be : qsh_len.

#[local] Opaque u32_to_be_bytes.

Section StreamFacts.
Context {M DecErr ReadErr : Type}.
Variable encode : M -> list byte.
Variable decode : list byte -> result M DecErr.
(** Prost decodes what it encoded. *)
Hypothesis decode_encode : forall m, decode (encode m) = Ok m.

Abbreviation recv := (recv (ReadErr := ReadErr) decode).
Abbreviation recv_n := (recv_n (ReadErr := ReadErr) decode).

(** However the bytes are cut into reads, [recv] returns the next message
    and loses none of the bytes after it. *)
Lemma recv_message m rest max a chunks :
  len (encode m) <= max -> max <= u32_max ->
  a ++ concat chunks = u32_to_be_bytes (len (encode m)) ++ encode m ++ rest ->
  exists a' chunks',
    recv (mkDecoder a max) (RData <$> chunks)
      = (Ok (Some m), mkDecoder a' max, RData <$> chunks') /\
    a' ++ concat chunks' = rest.
Proof.
  intros Hm Hmax. set (p := encode m) in *. revert a.
  induction chunks as [|c chunks IH]; intros a Ha.
  - simpl in Ha. rewrite app_nil_r in Ha. subst a. exists rest, []. cbn [Frame.recv fmap list_fmap].
    rewrite next_frame_whole by done. cbn. unfold p. by rewrite decode_encode, app_nil_r.
  - destruct (decide (len p + 4 <= len a)) as [Hlong|Hshort].
    + (* the whole frame is already buffered *)
      rewrite app_assoc in Ha.
      set (w := u32_to_be_bytes (len p) ++ p) in *.
      assert (len w = 4 + len p) as Hw
        by (unfold w; autorewrite with qsh_len; lia).
      assert (a = w ++ dropN (len w) a) as Hsplit.
      { rewrite <- (takeN_dropN (len w) a) at 1. f_equal.
        apply (f_equal (takeN (len w))) in Ha.
        rewrite (takeN_app_le _ a) in Ha by lia.
        rewrite (takeN_app_len (len w) w) in Ha by done. done. }
      exists (dropN (len w) a), (c :: chunks). split.
      * rewrite Hsplit at 1. unfold w. rewrite <- app_assoc. cbn [Frame.recv fmap list_fmap].
        rewrite next_frame_whole by done. simpl. unfold p. by rewrite decode_encode.
      * apply (f_equal (dropN (len w))) in Ha.
        rewrite dropN_app_le in Ha by lia. by rewrite dropN_app_len in Ha.
    + assert (exists b, a ++ b = u32_to_be_bytes (len p) ++ p /\ b <> []) as (b & Hb & Hne).
      { rewrite app_assoc in Ha.
        set (w := u32_to_be_bytes (len p) ++ p) in *.
        assert (len w = 4 + len p) as Hw
          by (unfold w; autorewrite with qsh_len; lia).
        exists (dropN (len a) w). split.
        - apply (f_equal (takeN (len w))) in Ha.
          rewrite (takeN_app_len (len w) w) in Ha by done.
          rewrite takeN_app_ge in Ha by lia.
          set (t := takeN _ _) in Ha. clearbody t. rewrite <- Ha.
          by rewrite dropN_app_len.
        - intros E. apply (f_equal len) in E. autorewrite with qsh_len in E. lia. }
      simpl. rewrite (next_frame_partial p a b) by done. simpl.
      apply IH. by rewrite <- app_assoc.
Qed.

Lemma recv_n_messages ms max w a chunks :
  send_all encode ms max = Ok w -> max <= u32_max ->
  forall tail, a ++ concat chunks = w ++ tail ->
  exists a' chunks',
    recv_n (length ms) (mkDecoder a max) (RData <$> chunks)
      = ((fun m => Ok (Some m)) <$> ms, mkDecoder a' max, RData <$> chunks') /\
    a' ++ concat chunks' = tail.
Proof.
  intros Hw Hmax. revert w Hw a chunks.
  induction ms as [|m ms IH]; intros w Hw a chunks tail Ha.
  - simpl in Hw. injection Hw as <-. exists a, chunks. by simpl in *.
  - simpl in Hw. destruct (encode_framed encode m max) as [w1|] eqn:E1; [|done].
    destruct (send_all encode ms max) as [w2|] eqn:E2; [|done]. simpl in Hw.
    injection Hw as <-. apply encode_framed_Ok in E1 as [Hm ->].
    rewrite <- !app_assoc in Ha.
    destruct (recv_message m (w2 ++ tail) max a chunks Hm Hmax Ha)
      as (a1 & c1 & Hr & Ha1).
    destruct (IH w2 eq_refl a1 c1 tail Ha1) as (a2 & c2 & Hn & Ha2).
    exists a2, c2. split; [|done]. simpl. by rewrite Hr, Hn.
Qed.

Lemma recv_n_snoc n rs d s d' s' d'' s'' r :
  recv_n n d s = (rs, d', s') -> recv d' s' = (r, d'', s'') ->
  recv_n (S n) d s = (rs ++ [r], d'', s'').
Proof.
  revert rs d s. induction n as [|n IH]; intros rs d s H1 H2.
  - simpl in H1. injection H1 as <- <- <-. simpl. by rewrite H2.
  - cbn [Frame.recv_n] in H1. destruct (recv d s) as [[r1 d1] s1] eqn:E1.
    destruct (recv_n n d1 s1) as [[rs1 d2] s2] eqn:E2.
    injection H1 as <- <- <-.
    change (recv_n (S (S n)) d s)
      with (let '(r0, d0, s0) := recv d s in
            let '(rs0, d3, s3) := recv_n (S n) d0 s0 in (r0 :: rs0, d3, s3)).
    by rewrite E1, (IH _ _ _ E2 H2).
Qed.

(** No bytes left and a FIN: the clean end of the stream. *)
Lemma recv_fin max a chunks :
  a ++ concat chunks = [] ->
  recv (mkDecoder a max) (RData <$> chunks) = (Ok None, mkDecoder [] max, []).
Proof.
  revert a. induction chunks as [|c cs IH]; intros a H; apply app_nil in H as [-> H]; [done|].
  simpl in H. apply app_nil in H as [-> H]. simpl. by apply IH.
Qed.

(** A FIN inside a frame. *)
Lemma recv_cut p a b max chunks :
  len p <= max -> max <= u32_max ->
  (a ++ concat chunks) ++ b = u32_to_be_bytes (len p) ++ p ->
  a ++ concat chunks <> [] -> b <> [] ->
  exists d, recv (mkDecoder a max) (RData <$> chunks)
    = (Err (STruncated (len (a ++ concat chunks))), d, []).
Proof.
  intros Hp Hmax. revert a. induction chunks as [|c cs IH]; intros a H Hne Hb; simpl.
  - simpl in *. rewrite app_nil_r in *. rewrite (next_frame_partial p a b) by done. simpl.
    apply len_pos in Hne. unfold buffered. simpl. destruct (len a =? 0) eqn:E; bools; [lia|].
    eauto.
  - rewrite (next_frame_partial p a ((c ++ concat cs) ++ b)); [|done..| |].
    + simpl in *. rewrite app_assoc in *. by apply IH.
    + simpl in H. by rewrite <- H, !app_assoc.
    + intros E. apply app_nil in E as [_ ->]. done.
Qed.
End StreamFacts.

(** The reader's scratch buffer: [vec![0u8; 16 * 1024]]. *)
Definition READ_BUF : N := 16 * 1024.

(** ** Properties *)

(** C30: whatever list of messages a sender writes, and however the transport
    cuts the resulting bytes into reads, the receiver gets exactly those
    messages in order and then a clean end of stream. *)
Theorem stream_roundtrip {M DecErr ReadErr : Type} (encode : M -> list byte)
    (decode : list byte -> result M DecErr) ms max w chunks :
  (forall m, decode (encode m) = Ok m) ->
  max <= u32_max ->
  send_all encode ms max = Ok w ->
  concat chunks = w ->
  recv_n (ReadErr := ReadErr) decode (S (length ms)) (new max) (RData <$> chunks)
    = (((fun m => Ok (Some m)) <$> ms) ++ [Ok None], new max, []).
Proof.
  intros Hdec Hmax Hw Hc.
  destruct (recv_n_messages (ReadErr := ReadErr) encode decode Hdec ms max w [] chunks Hw Hmax [])
    as (a' & c' & Hn & Ha'). { by rewrite app_nil_r. }
  eapply recv_n_snoc; [exact Hn|]. by apply recv_fin.
Qed.

Lemma stream_roundtrip_witness :
  recv_n (ReadErr := unit) (fun b => Ok (E := unit) b) 3 (new 8)
    (RData <$> [[x00]; [x00; x00; x02; x61]; [x62; x00; x00; x00]; [x00]])
  = ([Ok (Some [x61; x62]); Ok (Some []); Ok None], new 8, []).
Proof.
  apply (stream_roundtrip (fun b => b) (fun b => Ok b) [[x61; x62]; []] 8
    [x00; x00; x00; x02; x61; x62; x00; x00; x00; x00]);
    [done | done | by vm_compute | by vm_compute].
Defined.

(** handing a stream over from framed to raw use loses no byte and
    reorders none: after the framed messages have been received, the residue
    of [into_raw] followed by what the stream still delivers is exactly what
    the peer wrote after those messages. *)
Theorem into_raw_lossless {M DecErr ReadErr : Type} (encode : M -> list byte)
    (decode : list byte -> result M DecErr) ms max w tail chunks :
  (forall m, decode (encode m) = Ok m) ->
  max <= u32_max ->
  send_all encode ms max = Ok w ->
  concat chunks = w ++ tail ->
  exists d s,
    recv_n (ReadErr := ReadErr) decode (length ms) (new max) (RData <$> chunks)
      = ((fun m => Ok (Some m)) <$> ms, d, s) /\
    exists later, into_raw d s = (RData <$> later, buf d) /\ buf d ++ concat later = tail.
Proof.
  intros Hdec Hmax Hw Hc.
  destruct (recv_n_messages (ReadErr := ReadErr) encode decode Hdec ms max w [] chunks Hw Hmax tail)
    as (a' & c' & Hn & Ha'); [done|].
  exists (mkDecoder a' max), (RData <$> c'). split; [done|]. by exists c'.
Qed.

Lemma into_raw_lossless_witness :
  exists d s,
    recv_n (ReadErr := unit) (fun b => Ok (E := unit) b) 1 (new 8)
      (RData <$> [[x00; x00; x00]; [x01; x61; x62]; [x63]])
      = ((fun m => Ok (Some m)) <$> [[x61]], d, s) /\
    exists later, into_raw d s = (RData <$> later, buf d) /\ buf d ++ concat later = [x62; x63].
Proof.
  apply (into_raw_lossless (fun b => b) (fun b => Ok b) [[x61]] 8
    [x00; x00; x00; x01; x61]); [done | done | by vm_compute | by vm_compute].
Defined.

(** a peer that ends the stream inside a frame is reported as truncation
    with the exact number of bytes left over, never as a clean end or as a
    short message. *)
Theorem recv_truncation {M DecErr ReadErr : Type} (decode : list byte -> result M DecErr)
    (p got missing : list byte) max chunks :
  len p <= max -> max <= u32_max ->
  got ++ missing = u32_to_be_bytes (len p) ++ p ->
  got <> [] -> missing <> [] ->
  concat chunks = got ->
  exists d, recv (ReadErr := ReadErr) decode (new max) (RData <$> chunks)
    = (Err (STruncated (len got)), d, []).
Proof. intros Hp Hmax H Hg Hm <-. by apply (recv_cut decode p [] missing). Qed.

Lemma recv_truncation_witness :
  exists d, recv (ReadErr := unit) (fun b => Ok (E := unit) b) (new 8)
      (RData <$> [[x00; x00]; [x00; x02; x61]])
    = (Err (STruncated (len [x00; x00; x00; x02; x61])), d, []).
Proof.
  apply (recv_truncation (fun b => Ok b) [x61; x62] [x00; x00; x00; x02; x61] [x62] 8);
    [by vm_compute | by vm_compute | by vm_compute | done | done | done].
Defined.

(** the receiver's buffer is bounded by the frame cap: no sequence of
    reads, whatever lengths the peer declares, makes it hold more than one
    maximal frame plus one read. *)
Theorem recv_buffer_bounded {M DecErr ReadErr : Type} (decode : list byte -> result M DecErr)
    (s : list (ReadEvt ReadErr)) dec r dec' s' :
  Forall (fun e => match e with RData b => len b <= READ_BUF | RFail _ => True end) s ->
  buffered dec <= max_frame_len dec + 3 + READ_BUF ->
  recv decode dec s = (r, dec', s') ->
  max_frame_len dec' = max_frame_len dec /\
  buffered dec' <= max_frame_len dec' + 3 + READ_BUF.
Proof.
  intros Hs. revert dec. induction Hs as [|e s He Hs IH]; intros dec Hb Hr; simpl in Hr;
    destruct (next_frame dec) as [[[p|]|] d1] eqn:E.
  all: apply next_frame_buffered in E as (Hm & Hle & Hn).
  all: try (injection Hr as <- <- <-; rewrite Hm; split; [done|lia]).
  destruct e as [b|e]; [|injection Hr as <- <- <-; rewrite Hm; split; [done|lia]].
  specialize (Hn eq_refl).
  destruct (IH (push d1 b)) as [IH1 IH2]; [|done|].
  - unfold buffered, push in *. simpl. autorewrite with qsh_len. rewrite Hm. lia.
  - simpl in IH1. by rewrite IH1, Hm in *.
Qed.

Lemma recv_buffer_bounded_witness :
  max_frame_len (new 8) = 8 /\ buffered (new 8) <= 8 + 3 + READ_BUF.
Proof.
  apply (recv_buffer_bounded (ReadErr := unit) (fun b => Ok (E := unit) b)
    [RData [x00; x00; x00; x00]] (new 8) (Ok (Some [])) (new 8) []);
    [by repeat constructor | by vm_compute | by vm_compute].
Defined.

End Frame.
