(* ===== verification/Ring.v ===== *)
(** * The replay ring

    Models [crates/qsh-core/src/broker/ring.rs]: the memory-bounded output
    history of one session.  [ReplayRing] is the concrete store (a queue of
    output chunks and zero-length control entries with a byte budget);
    [Log] is the abstract history it stands for (every byte and every control
    event ever appended).  The refinement relation [Repr] says what of the
    log the ring still holds and that whatever it dropped is covered by a gap
    report. *)

From S2P Require Import Prelude.

Module Ring.

Definition RING_CHUNK_MAX : N := 16 * 1024.
Definition RING_CHUNK_DIVISOR : N := 16.
Definition CONTROL_ENTRY_COST : N := 64.

(** ** Data *)

Inductive CloseReason := Closed | Exit | TtlExpired.

Inductive ControlEvent :=
  | CExit (exit_code : option Z) (signal : option string)
  | CWriterChanged (writer : option string)
  | CClosed (reason : CloseReason).

Inductive ReplayEvent :=
  | EvOutput (sequence : N) (data : list byte)
  | EvGap (requested_after available_from : N)
  | EvControl (sequence ctl_id : N) (event : ControlEvent).

#[global] Instance CloseReason_eq_dec : EqDecision CloseReason.
Proof. solve_decision. Defined.
#[global] Instance ControlEvent_eq_dec : EqDecision ControlEvent.
Proof. solve_decision. Defined.
#[global] Instance ReplayEvent_eq_dec : EqDecision ReplayEvent.
Proof. solve_decision. Defined.

Record Cursor := mkCursor { after : N; ctl_after : N }.

(** [Cursor::from_offset] *)
Definition from_offset (a : N) : Cursor := mkCursor a 0.

Record ReadOut := mkReadOut { events : list ReplayEvent; next : Cursor }.

(** [ReadOut::has_gap] *)
Definition is_gap (e : ReplayEvent) : bool :=
  match e with EvGap _ _ => true | _ => false end.
Definition has_gap (o : ReadOut) : bool := existsb is_gap (events o).

Inductive ReadError := CursorBeyondEnd (after end_ : N).

Inductive Entry :=
  | Output (start : N) (data : list byte)
  | Control (seq id : N) (event : ControlEvent).

(** [Entry::cost] *)
Definition cost (e : Entry) : N :=
  match e with
  | Output _ data => len data
  | Control _ _ _ => CONTROL_ENTRY_COST
  end.

Record ReplayRing := mkRing {
  budget : N;
  piece_max : N;
  entries : list Entry;
  retained : N;
  end_ : N;
  next_ctl_id : N;
  lost_ctl : option (N * N);
}.

(** Field updates. *)
Definition with_entries (es : list Entry) (ret : N) (r : ReplayRing) : ReplayRing :=
  mkRing (budget r) (piece_max r) es ret (end_ r) (next_ctl_id r) (lost_ctl r).

(** ** Operations *)

(** [ReplayRing::new] *)
Definition new (b : N) : ReplayRing :=
  let b := b `max` 1 in
  mkRing b (((b / RING_CHUNK_DIVISOR) `max` 1) `min` RING_CHUNK_MAX) [] 0 0 1 None.

Definition is_output (e : Entry) : bool :=
  match e with Output _ _ => true | Control _ _ _ => false end.

(** [iter().position(|e| matches!(e, Entry::Output { .. }))] *)
Fixpoint output_position (es : list Entry) : option nat :=
  match es with
  | [] => None
  | e :: es' => if is_output e then Some O else S <$> output_position es'
  end.

(** [iter().find_map(..start..)] *)
Fixpoint first_start (es : list Entry) : option N :=
  match es with
  | [] => None
  | Output start _ :: _ => Some start
  | Control _ _ _ :: es' => first_start es'
  end.

Definition available_from (r : ReplayRing) : N :=
  default (end_ r) (first_start (entries r)).

(** The inner loop of [evict]: pop controls strictly behind [af]. *)
Fixpoint drop_behind (af : N) (es : list Entry) (ret : N) : list Entry * N :=
  match es with
  | Control seq _ _ :: es' =>
      if seq <? af then drop_behind af es' (ret - CONTROL_ENTRY_COST) else (es, ret)
  | _ => (es, ret)
  end.

(** The [_] arm of [evict]'s match: force the front control out. *)
Definition force_front (r : ReplayRing) : ReplayRing :=
  match entries r with
  | Control seq id _ :: es' =>
      mkRing (budget r) (piece_max r) es' (retained r - CONTROL_ENTRY_COST) (end_ r)
        (next_ctl_id r) (Some (seq, id))
  | _ :: es' => with_entries es' (retained r) r
  | [] => r
  end.

(** One iteration of the outer loop of [evict]. *)
Definition evict_step (r : ReplayRing) : ReplayRing :=
  let r1 :=
    match output_position (entries r) with
    | Some i =>
        if (i + 1 <? length (entries r))%nat then
          match entries r !! i with
          | Some gone => with_entries (delete i (entries r)) (retained r - cost gone) r
          | None => r
          end
        else force_front r
    | None => force_front r
    end in
  let '(es, ret) := drop_behind (available_from r1) (entries r1) (retained r1) in
  with_entries es ret r1.

Definition over_budget (r : ReplayRing) : bool :=
  (budget r <? retained r) && (1 <? length (entries r))%nat.

Fixpoint evict_loop (fuel : nat) (r : ReplayRing) : ReplayRing :=
  match fuel with
  | O => r
  | S fuel' => if over_budget r then evict_loop fuel' (evict_step r) else r
  end.

(** [ReplayRing::evict].  Every iteration removes an entry, so the number of
    entries bounds the iterations. *)
Definition evict (r : ReplayRing) : ReplayRing := evict_loop (length (entries r)) r.

(** [append_output]: extend the tail chunk if it is an output chunk with room,
    else start a new one.  Returns the entries and how many bytes went in. *)
Definition append_output (r : ReplayRing) (piece : list byte) : list Entry * N :=
  match last (entries r) with
  | Some (Output start data) =>
      if len data <? piece_max r then
        let take := len piece `min` (piece_max r - len data) in
        (removelast (entries r) ++ [Output start (data ++ takeN take piece)], take)
      else
        let take := len piece `min` piece_max r in
        (entries r ++ [Output (end_ r) (takeN take piece)], take)
  | _ =>
      let take := len piece `min` piece_max r in
      (entries r ++ [Output (end_ r) (takeN take piece)], take)
  end.

(** One iteration of [push]'s loop. *)
Definition push_piece (r : ReplayRing) (rest : list byte) : ReplayRing * list byte :=
  let '(es, n) := append_output r rest in
  let r1 := mkRing (budget r) (piece_max r) es (retained r + n) (end_ r + n)
              (next_ctl_id r) (lost_ctl r) in
  (evict r1, dropN n rest).

Fixpoint push_loop (fuel : nat) (r : ReplayRing) (rest : list byte) : ReplayRing :=
  match fuel, rest with
  | S fuel', _ :: _ => let '(r', rest') := push_piece r rest in push_loop fuel' r' rest'
  | _, _ => r
  end.

(** [ReplayStore::push]; the result is the new ring, whose [end_] is the
    returned offset.  Every iteration consumes at least one byte. *)
Definition push (r : ReplayRing) (data : list byte) : ReplayRing :=
  push_loop (length data) r data.

(** [ReplayStore::push_control]: the ring, and the [(sequence, ctl_id)]
    returned. *)
Definition push_control (r : ReplayRing) (event : ControlEvent) : ReplayRing * (N * N) :=
  let id := next_ctl_id r in
  let seq := end_ r in
  (evict (mkRing (budget r) (piece_max r) (entries r ++ [Control seq id event])
            (retained r + CONTROL_ENTRY_COST) (end_ r) (next_ctl_id r + 1) (lost_ctl r)),
   (seq, id)).

(** The [for] loop of [read].  [from], [remaining] and [ctl] are the loop's
    mutable variables; the events are returned in order. *)
Fixpoint read_loop (start_from : N) (es : list Entry) (from remaining ctl : N)
    : list ReplayEvent * N * N :=
  match es with
  | [] => ([], from, ctl)
  | Output start data :: es' =>
      if start + len data <=? from then read_loop start_from es' from remaining ctl
      else if remaining =? 0 then ([], from, ctl)
      else
        let skip := from - start in
        let take := (len data - skip) `min` remaining in
        let chunk := takeN take (dropN skip data) in
        let from' := from + take in
        if take <? len data - skip then ([EvOutput from' chunk], from', ctl)
        else
          let '(evs, f, c) := read_loop start_from es' from' (remaining - take) ctl in
          (EvOutput from' chunk :: evs, f, c)
  | Control seq id event :: es' =>
      if seq <? start_from then read_loop start_from es' from remaining (ctl `max` id)
      else if from <? seq then ([], from, ctl)
      else if id <=? ctl then read_loop start_from es' from remaining ctl
      else
        let '(evs, f, c) := read_loop start_from es' from remaining id in
        (EvControl seq id event :: evs, f, c)
  end.

(** The part of [read] before its loop: the gap report (if any), the offset
    the read starts at and the control cursor it starts with. *)
Definition read_start (r : ReplayRing) (c : Cursor) : list ReplayEvent * N * N :=
  let af := available_from r in
  let '(evs, from) :=
    if after c <? af then ([EvGap (after c) af], af) else ([], after c) in
  match lost_ctl r with
  | Some (lost_seq, lost_id) =>
      if (ctl_after c <? lost_id) && (from <=? lost_seq) then
        ((if evs is [] then [EvGap (after c) from] else evs), from, lost_id)
      else (evs, from, ctl_after c)
  | None => (evs, from, ctl_after c)
  end.

(** [ReplayStore::read] *)
Definition read (r : ReplayRing) (c : Cursor) (max_bytes : N) : result ReadOut ReadError :=
  if end_ r <? after c then Err (CursorBeyondEnd (after c) (end_ r))
  else
    let '(gaps, from, ctl) := read_start r c in
    let '(evs, from', ctl') := read_loop from (entries r) from max_bytes ctl in
    Ok (mkReadOut (gaps ++ evs) (mkCursor from' ctl')).

(** [entry_count] and [chunk_max] are [length entries] and [piece_max]. *)
Definition entry_count (r : ReplayRing) : N := len (entries r).

(** ** The abstract history

    One element per byte or control event ever appended, in order.  [annot]
    gives each byte its cumulative offset and each control its position and
    id, the way the ring numbers them. *)

Inductive Append :=
  | AByte (b : byte)
  | ACtl (ev : ControlEvent).

Abbreviation Log := (list Append).

Inductive Item :=
  | IByte (off : N) (b : byte)
  | ICtl (seq id : N) (ev : ControlEvent).

Fixpoint nbytes (log : Log) : N :=
  match log with
  | [] => 0
  | AByte _ :: l => 1 + nbytes l
  | ACtl _ :: l => nbytes l
  end.

Fixpoint nctls (log : Log) : N :=
  match log with
  | [] => 0
  | AByte _ :: l => nctls l
  | ACtl _ :: l => 1 + nctls l
  end.

Fixpoint annot (off id : N) (log : Log) : list Item :=
  match log with
  | [] => []
  | AByte b :: l => IByte off b :: annot (off + 1) id l
  | ACtl ev :: l => ICtl off id ev :: annot off (id + 1) l
  end.

(** The numbered history of a session: offsets from 0, control ids from 1. *)
Definition history (log : Log) : list Item := annot 0 1 log.

(** What a consumer at cursor [c] has already received. *)
Definition behind (c : Cursor) (it : Item) : bool :=
  match it with
  | IByte off _ => off <? after c
  | ICtl seq id _ => (seq <? after c) || (id <=? ctl_after c)
  end.

(** What lies between two cursors. *)
Definition between (c c' : Cursor) (log : Log) : list Item :=
  List.filter (fun it => negb (behind c it) && behind c' it) (history log).

(** The items a list of events carries. *)
Fixpoint byte_items (off : N) (data : list byte) : list Item :=
  match data with
  | [] => []
  | b :: d => IByte off b :: byte_items (off + 1) d
  end.

Fixpoint flat (evs : list ReplayEvent) : list Item :=
  match evs with
  | [] => []
  | EvOutput sequence data :: es => byte_items (sequence - len data) data ++ flat es
  | EvGap _ _ :: es => flat es
  | EvControl seq id ev :: es => ICtl seq id ev :: flat es
  end.

(** The items the ring holds. *)
Fixpoint items (es : list Entry) : list Item :=
  match es with
  | [] => []
  | Output start data :: es' => byte_items start data ++ items es'
  | Control seq id ev :: es' => ICtl seq id ev :: items es'
  end.

Fixpoint total_cost (es : list Entry) : N :=
  match es with
  | [] => 0
  | e :: es' => cost e + total_cost es'
  end.

(** Entries cover the offsets from [p] to [q] without holes, every control
    sits at the running offset, and no chunk is empty. *)
Fixpoint chain (p : N) (es : list Entry) (q : N) : Prop :=
  match es with
  | [] => p = q
  | Output s d :: es' => s = p /\ d <> [] /\ chain (p + len d) es' q
  | Control s _ _ :: es' => s = p /\ chain p es' q
  end.

(** The ring [r] represents the history [log]: it holds a suffix [kept] of it,
    and a control it dropped is either behind the oldest retained byte or
    recorded in [lost_ctl]. *)
Record ReprAt (r : ReplayRing) (gone kept : Log) : Prop := {
  repr_piece : 1 <= piece_max r <= budget r;
  repr_retained : retained r = total_cost (entries r);
  repr_end : end_ r = nbytes (gone ++ kept);
  repr_ids : next_ctl_id r = 1 + nctls (gone ++ kept);
  repr_chain : chain (nbytes gone) (entries r) (end_ r);
  repr_chunks : Forall (fun e => match e with Output _ d => len d <= piece_max r | _ => True end)
                  (entries r);
  repr_items : items (entries r) = annot (nbytes gone) (1 + nctls gone) kept;
  repr_covered : forall seq id ev, ICtl seq id ev ∈ history gone ->
    seq < nbytes gone \/ exists li, lost_ctl r = Some (nbytes gone, li) /\ id <= li;
  repr_lost : forall ls li, lost_ctl r = Some (ls, li) ->
    exists ev, ICtl ls li ev ∈ history gone;
}.

Definition Repr (r : ReplayRing) (log : Log) : Prop :=
  exists gone kept, log = gone ++ kept /\ ReprAt r gone kept.

(** ** Lemmas on the history *)

Lemma nbytes_app l1 l2 : nbytes (l1 ++ l2) = nbytes l1 + nbytes l2.
Proof. induction l1 as [|[] l1 IH]; simpl; lia. Qed.

Lemma nctls_app l1 l2 : nctls (l1 ++ l2) = nctls l1 + nctls l2.
Proof. induction l1 as [|[] l1 IH]; simpl; lia. Qed.

Lemma annot_app o i l1 l2 :
  annot o i (l1 ++ l2) = annot o i l1 ++ annot (o + nbytes l1) (i + nctls l1) l2.
Proof.
  revert o i. induction l1 as [|[] l1 IH]; intros o i; simpl.
  - f_equal; lia.
  - rewrite IH. do 2 f_equal; f_equal; lia.
  - rewrite IH. do 2 f_equal; f_equal; lia.
Qed.

Lemma history_app l1 l2 :
  history (l1 ++ l2) = history l1 ++ annot (nbytes l1) (1 + nctls l1) l2.
Proof. apply annot_app. Qed.

Lemma annot_byte_bounds o i l off b :
  IByte off b ∈ annot o i l -> o <= off < o + nbytes l.
Proof.
  revert o i. induction l as [|[] l IH]; intros o i; simpl.
  - by intros ?%elem_of_nil.
  - intros [?|H]%elem_of_cons; [simplify_eq; lia|apply IH in H; lia].
  - intros [?|H]%elem_of_cons; [done|apply IH in H; lia].
Qed.

Lemma annot_ctl_bounds o i l seq id ev :
  ICtl seq id ev ∈ annot o i l -> o <= seq <= o + nbytes l /\ i <= id < i + nctls l.
Proof.
  revert o i. induction l as [|[] l IH]; intros o i; simpl.
  - by intros ?%elem_of_nil.
  - intros [?|H]%elem_of_cons; [done|apply IH in H; lia].
  - intros [?|H]%elem_of_cons; [simplify_eq; lia|apply IH in H; lia].
Qed.

(** The byte at a given offset is in the history. *)
Lemma annot_byte_exists o i l off :
  o <= off < o + nbytes l -> exists b, IByte off b ∈ annot o i l.
Proof.
  revert o i. induction l as [|[b|ev] l IH]; intros o i; simpl; intros H; [lia| |].
  - destruct (decide (off = o)) as [->|].
    + exists b. apply elem_of_cons. by left.
    + destruct (IH (o + 1) i) as [b' Hb']; [lia|]. exists b'. apply elem_of_cons. by right.
  - destruct (IH o (i + 1)) as [b' Hb']; [lia|]. exists b'. apply elem_of_cons. by right.
Qed.

(** Order of the history: offsets and ids increase. *)
Definition precedes (x y : Item) : Prop :=
  match x, y with
  | IByte o1 _, IByte o2 _ => o1 < o2
  | IByte o1 _, ICtl s2 _ _ => o1 < s2
  | ICtl s1 _ _, IByte o2 _ => s1 <= o2
  | ICtl s1 i1 _, ICtl s2 i2 _ => s1 <= s2 /\ i1 < i2
  end.

Lemma annot_sorted o i l : StronglySorted precedes (annot o i l).
Proof.
  revert o i. induction l as [|[b|ev] l IH]; intros o i; simpl; constructor; try done.
  - apply Forall_forall. intros [off b'|seq id ev] H; simpl.
    + apply annot_byte_bounds in H. lia.
    + apply annot_ctl_bounds in H. lia.
  - apply Forall_forall. intros [off b'|seq id ev'] H; simpl.
    + apply annot_byte_bounds in H. lia.
    + apply annot_ctl_bounds in H. lia.
Qed.

(** ** Lemmas on entries *)

Lemma items_app es1 es2 : items (es1 ++ es2) = items es1 ++ items es2.
Proof.
  induction es1 as [|[] es1 IH]; simpl; [done| |]; rewrite IH; [by rewrite app_assoc|done].
Qed.

Lemma byte_items_app o d1 d2 :
  byte_items o (d1 ++ d2) = byte_items o d1 ++ byte_items (o + len d1) d2.
Proof.
  revert o. induction d1 as [|b d1 IH]; intros o; simpl.
  - rewrite len_nil. f_equal. lia.
  - rewrite IH, len_cons. do 3 f_equal. lia.
Qed.

Lemma total_cost_app es1 es2 : total_cost (es1 ++ es2) = total_cost es1 + total_cost es2.
Proof. induction es1 as [|e es1 IH]; simpl; lia. Qed.

Lemma chain_app p es1 es2 q :
  chain p (es1 ++ es2) q <-> exists m, chain p es1 m /\ chain m es2 q.
Proof.
  revert p. induction es1 as [|[] es1 IH]; intros p; simpl.
  - split; [eauto|]. by intros (? & -> & ?).
  - rewrite IH. clear IH; naive_solver.
  - rewrite IH. clear IH; naive_solver.
Qed.

Lemma chain_le p es q : chain p es q -> p <= q.
Proof.
  revert p. induction es as [|[] es IH]; intros p; simpl; [lia| |].
  - intros (_ & _ & H%IH). lia.
  - intros (_ & H%IH). lia.
Qed.

(** In a chain, the first output chunk starts where the chain does. *)
Lemma chain_first_start p es q : chain p es q -> default q (first_start es) = p.
Proof.
  revert p. induction es as [|[] es IH]; intros p; simpl; [done| |].
  - by intros [-> _].
  - by intros (_ & ?%IH).
Qed.

Lemma chain_available r p : chain p (entries r) (end_ r) -> available_from r = p.
Proof. apply chain_first_start. Qed.

(** A chain splits at its first output chunk; what precedes it are controls at
    the chain's start. *)
Definition front_ctl (p : N) (e : Entry) : Prop :=
  match e with Control s _ _ => s = p | Output _ _ => False end.

Lemma chain_controls p es q : Forall (front_ctl p) es -> chain p es q -> q = p.
Proof.
  induction 1 as [|[] es He _ IH]; simpl; [done|by destruct He|]. intros [_ ?]. auto.
Qed.

Lemma output_position_split p es q :
  chain p es q ->
  match output_position es with
  | Some i => exists pre d post, es = pre ++ Output p d :: post /\ length pre = i /\
                Forall (front_ctl p) pre /\ d <> [] /\ chain (p + len d) post q
  | None => Forall (front_ctl p) es
  end.
Proof.
  induction es as [|[s d|s i ev] es IH]; simpl; [constructor| |].
  - intros (-> & Hd & Hc). exists [], d, es. naive_solver.
  - intros (-> & Hc). specialize (IH Hc). destruct (output_position es); simpl.
    + destruct IH as (pre & d & post & -> & <- & Hf & Hd & Hp).
      exists (Control p i ev :: pre), d, post. split_and!; try done. by constructor.
    + by constructor.
Qed.

Lemma drop_behind_stop p es q ret : chain p es q -> drop_behind p es ret = (es, ret).
Proof.
  destruct es as [|[] es]; simpl; [done|done|]. intros [-> _].
  by rewrite N.ltb_irrefl.
Qed.

Lemma drop_behind_front p p' pre es q ret :
  Forall (front_ctl p) pre -> p < p' -> chain p' es q ->
  drop_behind p' (pre ++ es) ret = (es, ret - total_cost pre).
Proof.
  intros Hf Hlt Hc. revert ret. induction Hf as [|[] pre He _ IH]; intros ret; simpl.
  - rewrite (drop_behind_stop p' es q ret Hc). f_equal. lia.
  - by destruct He.
  - simpl in He. subst. rewrite (proj2 (N.ltb_lt _ _)) by done. rewrite IH. f_equal. lia.
Qed.

Lemma front_total p pre : Forall (front_ctl p) pre -> first_start pre = None.
Proof. induction 1 as [|[] pre He _ IH]; simpl; [done|by destruct He|done]. Qed.

Lemma first_start_app pre es : first_start pre = None ->
  first_start (pre ++ es) = first_start es.
Proof. induction pre as [|[] pre IH]; simpl; auto. done. Qed.

(** What one eviction step does: it either drops everything up to and
    including the oldest chunk, or forces the front control out. *)
Definition force_ctl (r : ReplayRing) (p id : N) (es : list Entry) : ReplayRing :=
  mkRing (budget r) (piece_max r) es (retained r - CONTROL_ENTRY_COST) (end_ r)
    (next_ctl_id r) (Some (p, id)).

Lemma evict_step_cases r p :
  chain p (entries r) (end_ r) -> (1 < length (entries r))%nat ->
  (exists pre d post, entries r = pre ++ Output p d :: post /\ post <> [] /\
     chain (p + len d) post (end_ r) /\ Forall (front_ctl p) pre /\
     evict_step r = with_entries post (retained r - len d - total_cost pre) r) \/
  (exists id ev es, entries r = Control p id ev :: es /\ es <> [] /\
     chain p es (end_ r) /\ evict_step r = force_ctl r p id es).
Proof.
  intros Hc Hl. unfold evict_step.
  assert (forall id ev es, entries r = Control p id ev :: es ->
    chain p es (end_ r) /\
    (let '(es, ret) := drop_behind (available_from (force_front r)) (entries (force_front r))
                         (retained (force_front r)) in with_entries es ret (force_front r))
    = force_ctl r p id es) as Hforce.
  { intros id ev es He. rewrite He in Hc. destruct Hc as [_ Hc]. split; [done|].
    unfold force_front. rewrite He. unfold available_from. cbn [entries end_ retained].
    rewrite (chain_first_start _ _ _ Hc).
    by rewrite (drop_behind_stop _ _ _ _ Hc). }
  pose proof (output_position_split _ _ _ Hc) as Hsp.
  destruct (output_position (entries r)) as [i|].
  - destruct Hsp as (pre & d & post & He & <- & Hf & Hd & Hp).
    destruct (Nat.ltb_spec (length pre + 1) (length (entries r))) as [Hlt|Hge].
    + left. exists pre, d, post. split; [done|]. split.
      { intros ->. rewrite He, length_app in Hlt. simpl in Hlt. lia. }
      split; [done|]. split; [done|].
      rewrite He, list_lookup_middle by done. rewrite delete_middle.
      unfold available_from. cbn [entries end_ retained with_entries].
      rewrite first_start_app by (by eapply front_total).
      rewrite (chain_first_start _ _ _ Hp).
      erewrite drop_behind_front; [|done| |done]; [done|].
      apply len_pos in Hd. lia.
    + rewrite He, length_app in Hge. simpl in Hge.
      assert (post = []) as -> by (destruct post; simpl in *; [done|lia]).
      destruct Hf as [|[] pre Hx Hf]; [rewrite He in Hl; simpl in Hl; lia|by destruct Hx|].
      simpl in Hx. subst. right. eexists _, _, _. split; [exact He|].
      split; [by destruct pre|]. by eapply Hforce.
  - destruct Hsp as [|[] es Hx Hf]; [simpl in Hl; lia|by destruct Hx|].
    simpl in Hx. right. eexists _, _, _. split; [subst; reflexivity|].
    split; [by destruct es; simpl in Hl; try lia|]. eapply Hforce. by subst.
Qed.

Fixpoint item_bytes (its : list Item) : N :=
  match its with
  | [] => 0
  | IByte _ _ :: l => 1 + item_bytes l
  | ICtl _ _ _ :: l => item_bytes l
  end.

Lemma item_bytes_app l1 l2 : item_bytes (l1 ++ l2) = item_bytes l1 + item_bytes l2.
Proof. induction l1 as [|[] l1 IH]; simpl; lia. Qed.

Lemma item_bytes_byte_items o d : item_bytes (byte_items o d) = len d.
Proof.
  revert o. induction d as [|b d IH]; intros o; simpl; [done|].
  rewrite IH, len_cons. lia.
Qed.

Lemma item_bytes_annot o i l : item_bytes (annot o i l) = nbytes l.
Proof. revert o i. induction l as [|[] l IH]; intros o i; simpl; [done| |]; by rewrite IH. Qed.

Lemma chain_item_bytes p es q : chain p es q -> p + item_bytes (items es) = q.
Proof.
  revert p. induction es as [|[] es IH]; intros p; simpl; [lia| |].
  - intros (_ & _ & H%IH). rewrite item_bytes_app, item_bytes_byte_items. lia.
  - by intros (_ & H%IH).
Qed.

Lemma annot_split o i l x y :
  annot o i l = x ++ y ->
  exists l1 l2, l = l1 ++ l2 /\ annot o i l1 = x /\ annot (o + nbytes l1) (i + nctls l1) l2 = y.
Proof.
  revert o i x. induction l as [|a l IH]; intros o i x H.
  - destruct x, y; simplify_eq. by exists [], [].
  - destruct x as [|it x].
    + exists [], (a :: l). split_and!; [done..|]. cbn [nbytes nctls].
      by rewrite !N.add_0_r.
    + destruct a; injection H as <- H; apply IH in H as (l1 & l2 & -> & <- & <-).
      * exists (AByte b :: l1), l2. split_and!; [done..|]. simpl. f_equal; lia.
      * exists (ACtl ev :: l1), l2. split_and!; [done..|]. simpl. f_equal; lia.
Qed.

Lemma byte_items_no_ctl o d seq id ev : ~ ICtl seq id ev ∈ byte_items o d.
Proof.
  revert o. induction d as [|b d IH]; intros o; simpl; [apply not_elem_of_nil|].
  intros [?|H]%elem_of_cons; [done|by eapply IH].
Qed.

Lemma front_ctl_items p pre seq id ev :
  Forall (front_ctl p) pre -> ICtl seq id ev ∈ items pre -> seq = p.
Proof.
  induction 1 as [|[] pre He _ IH]; simpl; [by intros ?%elem_of_nil|by destruct He|].
  simpl in He. subst. intros [?|?]%elem_of_cons; [by simplify_eq|auto].
Qed.

Lemma history_ctl_le log seq id ev :
  ICtl seq id ev ∈ history log -> seq <= nbytes log /\ 1 <= id <= nctls log.
Proof. intros H%annot_ctl_bounds. lia. Qed.

(** Dropping a prefix of whole entries that ends in a chunk. *)
Lemma ReprAt_drop r gone kept pre d post :
  ReprAt r gone kept -> entries r = pre ++ Output (nbytes gone) d :: post ->
  Forall (front_ctl (nbytes gone)) pre -> chain (nbytes gone + len d) post (end_ r) -> d <> [] ->
  exists k1 k2, kept = k1 ++ k2 /\
    ReprAt (with_entries post (retained r - len d - total_cost pre) r) (gone ++ k1) k2.
Proof.
  intros [Hp Hret Hend Hids Hch Hck Hit Hcov Hlost] He Hpre Hpost Hd.
  rewrite He in Hch, Hck, Hit, Hret. rewrite items_app in Hit. simpl in Hit.
  rewrite app_assoc in Hit. symmetry in Hit.
  apply annot_split in Hit as (k1 & k2 & -> & Hk1 & Hk2).
  assert (nbytes k1 = len d) as Hn.
  { rewrite <- (item_bytes_annot (nbytes gone) (1 + nctls gone)), Hk1, item_bytes_app.
    rewrite item_bytes_byte_items. apply chain_app in Hch as (m & Hm & _).
    pose proof (chain_item_bytes _ _ _ Hm). apply (chain_controls _ _ _ Hpre) in Hm. lia. }
  apply len_pos in Hd.
  exists k1, k2. split; [done|].
  split; cbn [with_entries piece_max budget retained entries end_ next_ctl_id lost_ctl];
    rewrite <- ?app_assoc, ?nbytes_app, ?nctls_app; try done.
  - rewrite Hret, total_cost_app. simpl. lia.
  - by rewrite Hend, !nbytes_app.
  - by rewrite Hids, !nctls_app.
  - by rewrite Hn.
  - apply Forall_app in Hck as [_ Hck]. by apply Forall_cons in Hck as [_ Hck].
  - rewrite <- Hk2. f_equal. lia.
  - intros seq id ev. rewrite history_app, Hk1. intros [H|[H|H]%elem_of_app]%elem_of_app.
    + apply history_ctl_le in H. left. lia.
    + apply front_ctl_items with (p := nbytes gone) in H; [|done]. left. lia.
    + by apply byte_items_no_ctl in H.
  - intros ls li H. destruct (Hlost ls li H) as [ev Hev]. exists ev.
    rewrite history_app. apply elem_of_app. by left.
Qed.

(** Forcing the front control out. *)
Lemma ReprAt_force r gone kept id ev es :
  ReprAt r gone kept -> entries r = Control (nbytes gone) id ev :: es ->
  chain (nbytes gone) es (end_ r) ->
  exists k2, kept = ACtl ev :: k2 /\
    ReprAt (force_ctl r (nbytes gone) id es) (gone ++ [ACtl ev]) k2.
Proof.
  intros [Hp Hret Hend Hids Hch Hck Hit Hcov Hlost] He Hes.
  rewrite He in Hck, Hit, Hret. simpl in Hit.
  destruct kept as [|[b|ev'] k2]; simpl in Hit; [done..|]. injection Hit as -> -> Hit.
  exists k2. split; [done|].
  split; cbn [force_ctl piece_max budget retained entries end_ next_ctl_id lost_ctl];
    rewrite <- ?app_assoc, ?(nbytes_app gone [_]), ?(nctls_app gone [_]);
    cbn [app nbytes nctls]; rewrite ?N.add_0_r; try done.
  - rewrite Hret. simpl. unfold CONTROL_ENTRY_COST. lia.
  - by apply Forall_cons in Hck as [_ Hck].
  - rewrite Hit. f_equal. lia.
  - intros seq id' ev. rewrite history_app. simpl. intros [H|H]%elem_of_app.
    + apply history_ctl_le in H. right. eexists. split; [done|]. lia.
    + apply list_elem_of_singleton in H. simplify_eq. right. eexists. split; [done|]. lia.
  - intros ls li [= <- <-]. exists ev'. rewrite history_app. simpl.
    apply elem_of_app. right. by apply list_elem_of_singleton.
Qed.

Lemma evict_step_spec r gone kept :
  ReprAt r gone kept -> (1 < length (entries r))%nat ->
  exists gone' kept', gone ++ kept = gone' ++ kept' /\ ReprAt (evict_step r) gone' kept' /\
    (length (entries (evict_step r)) < length (entries r))%nat /\
    last (entries (evict_step r)) = last (entries r) /\
    budget (evict_step r) = budget r /\ piece_max (evict_step r) = piece_max r /\
    end_ (evict_step r) = end_ r /\ next_ctl_id (evict_step r) = next_ctl_id r.
Proof.
  intros HR Hl.
  destruct (evict_step_cases r (nbytes gone) (repr_chain _ _ _ HR) Hl)
    as [(pre & d & post & He & Hpost & Hc & Hpre & ->)|(id & ev & es & He & Hes & Hc & ->)].
  - pose proof (repr_chain _ _ _ HR) as Hch. rewrite He in Hch.
    apply chain_app in Hch as (m & _ & (_ & Hd & _)).
    destruct (ReprAt_drop r gone kept pre d post) as (k1 & k2 & -> & HR'); try done.
    exists (gone ++ k1), k2. split_and!; try done.
    + by rewrite app_assoc.
    + rewrite He, length_app. simpl. lia.
    + rewrite He. simpl. rewrite last_app_cons, last_cons. by destruct (last post) eqn:E;
        [|apply last_None in E].
  - destruct (ReprAt_force r gone kept id ev es) as (k2 & -> & HR'); try done.
    exists (gone ++ [ACtl ev]), k2. split_and!; try done.
    + by rewrite <- app_assoc.
    + rewrite He. simpl. lia.
    + rewrite He. simpl. rewrite last_cons. by destruct (last es) eqn:E;
        [|apply last_None in E].
Qed.

(** ** Appending *)

(** What eviction leaves alone. *)
Record same_config (r r' : ReplayRing) : Prop := {
  sc_budget : budget r' = budget r;
  sc_piece : piece_max r' = piece_max r;
  sc_end : end_ r' = end_ r;
  sc_ids : next_ctl_id r' = next_ctl_id r;
  sc_last : last (entries r') = last (entries r);
}.

Lemma evict_loop_spec fuel r log :
  (length (entries r) <= fuel)%nat -> Repr r log ->
  Repr (evict_loop fuel r) log /\ over_budget (evict_loop fuel r) = false /\
  same_config r (evict_loop fuel r).
Proof.
  revert r. induction fuel as [|fuel IH]; intros r Hf HR; simpl.
  - split_and!; [done| |by split]. unfold over_budget.
    destruct (entries r); simpl in *; [by rewrite andb_false_r|lia].
  - destruct (over_budget r) eqn:Ho; [|split_and!; by try split].
    unfold over_budget in Ho. apply andb_true_iff in Ho as [_ Hl%Nat.ltb_lt].
    destruct HR as (gone & kept & -> & HR).
    destruct (evict_step_spec r gone kept HR Hl)
      as (g' & k' & Heq & HR' & Hlt & Hlast & ? & ? & ? & ?).
    destruct (IH (evict_step r)) as (HR1 & HR2 & []); [lia|by exists g', k'|].
    split_and!; [done..|]. split; congruence.
Qed.

Lemma evict_spec r log :
  Repr r log ->
  Repr (evict r) log /\ over_budget (evict r) = false /\ same_config r (evict r).
Proof. by apply evict_loop_spec. Qed.

Lemma nbytes_map d : nbytes (map AByte d) = len d.
Proof. induction d as [|b d IH]; simpl; [done|]. rewrite IH, len_cons. lia. Qed.

Lemma nctls_map d : nctls (map AByte d) = 0.
Proof. by induction d. Qed.

Lemma annot_map o i d : annot o i (map AByte d) = byte_items o d.
Proof. revert o. induction d as [|b d IH]; intros o; simpl; [done|]. by rewrite IH. Qed.

Lemma ReprAt_append r gone kept es t :
  ReprAt r gone kept ->
  chain (nbytes gone) es (end_ r + len t) ->
  items es = items (entries r) ++ byte_items (end_ r) t ->
  total_cost es = total_cost (entries r) + len t ->
  Forall (fun e => match e with Output _ d => len d <= piece_max r | _ => True end) es ->
  ReprAt (mkRing (budget r) (piece_max r) es (retained r + len t) (end_ r + len t)
            (next_ctl_id r) (lost_ctl r)) gone (kept ++ map AByte t).
Proof.
  intros [Hp Hret Hend Hids Hch Hck Hit Hcov Hlost] Hc Hi Ht Hf.
  split; cbn [piece_max budget retained entries end_ next_ctl_id lost_ctl];
    rewrite ?app_assoc, ?(nbytes_app (_ ++ _)), ?(nctls_app (_ ++ _)), ?nbytes_map, ?nctls_map;
    try done.
  - by rewrite Hret, Ht.
  - by rewrite Hend.
  - rewrite Hids. lia.
  - rewrite Hi, Hit, annot_app, annot_map. do 2 f_equal. by rewrite Hend, nbytes_app.
Qed.

(** What [append_output] guarantees of the entries and the count it returns. *)
Definition appended (r : ReplayRing) (log : Log) (data : list byte) (es : list Entry) (n : N) :=
  1 <= n <= len data /\
  (exists s d, last es = Some (Output s d) /\ len d <= piece_max r) /\
  Repr (mkRing (budget r) (piece_max r) es (retained r + n) (end_ r + n)
          (next_ctl_id r) (lost_ctl r)) (log ++ map AByte (takeN n data)).

Lemma append_new r log data take :
  Repr r log -> data <> [] -> take = len data `min` piece_max r ->
  appended r log data (entries r ++ [Output (end_ r) (takeN take data)]) take.
Proof.
  intros (gone & kept & -> & HR) Hd%len_pos Htake.
  pose proof (repr_piece _ _ _ HR) as Hp. pose proof (repr_chunks _ _ _ HR) as Hck.
  assert (len (takeN take data) = take) as Hlen by (subst take; len_lia).
  split; [lia|]. split; [eexists _, _; rewrite last_snoc; split; [done|lia]|].
  exists gone, (kept ++ map AByte (takeN take data)). split; [by rewrite app_assoc|].
  rewrite <- Hlen at 2 3. apply ReprAt_append; try done.
  - apply chain_app. exists (end_ r). split; [apply (repr_chain _ _ _ HR)|].
    split_and!; [done| |done]. apply len_pos_inv. lia.
  - rewrite items_app. simpl. by rewrite app_nil_r.
  - rewrite total_cost_app. simpl. lia.
  - apply Forall_app. split; [done|]. constructor; [lia|constructor].
Qed.

Lemma append_extend r log data init s d take :
  Repr r log -> data <> [] -> entries r = init ++ [Output s d] -> len d < piece_max r ->
  take = len data `min` (piece_max r - len d) ->
  appended r log data (init ++ [Output s (d ++ takeN take data)]) take.
Proof.
  intros (gone & kept & -> & HR) Hd%len_pos He Hlt Htake.
  pose proof (repr_chain _ _ _ HR) as Hch. pose proof (repr_chunks _ _ _ HR) as Hck.
  assert (len (takeN take data) = take) as Hlen by (subst take; len_lia).
  rewrite He in Hch, Hck.
  apply chain_app in Hch as (m & Hini & (-> & Hdne & Hm)). simpl in Hm.
  apply Forall_app in Hck as [Hck _].
  split; [lia|]. split.
  { eexists _, _. rewrite last_snoc. split; [done|]. rewrite len_app. lia. }
  exists gone, (kept ++ map AByte (takeN take data)). split; [by rewrite app_assoc|].
  rewrite <- Hlen at 2 3. apply ReprAt_append; try done; rewrite ?He.
  - apply chain_app. exists m. split; [done|]. split_and!; [done| |].
    + by destruct d.
    + simpl. rewrite len_app. lia.
  - rewrite !items_app. simpl. rewrite !app_nil_r, byte_items_app, Hm. by rewrite app_assoc.
  - rewrite !total_cost_app. simpl. rewrite len_app. lia.
  - apply Forall_app. split; [done|]. constructor; [rewrite len_app; lia|constructor].
Qed.

(** [append_output] puts a non-empty prefix of its input in a chunk that stays
    within the chunk bound. *)
Lemma append_output_spec r log data es n :
  Repr r log -> data <> [] -> append_output r data = (es, n) -> appended r log data es n.
Proof.
  intros HR Hd Happ. unfold append_output in Happ.
  destruct (last (entries r)) as [[s d|]|] eqn:Hlast;
    [|injection Happ as <- <-; by apply append_new..].
  destruct (N.ltb_spec (len d) (piece_max r)) as [Hlt|];
    injection Happ as <- <-; [|by apply append_new].
  apply last_Some in Hlast as [init He]. rewrite He, removelast_last.
  by apply append_extend.
Qed.

(** What an append leaves: the ring is within budget, or it holds a single
    chunk, which is no larger than [piece_max]. *)
Definition tail_ok (r : ReplayRing) : Prop :=
  over_budget r = false /\
  match last (entries r) with Some e => cost e <= piece_max r `max` CONTROL_ENTRY_COST | None => True end.

Lemma push_piece_spec r log rest r' rest' :
  Repr r log -> rest <> [] -> push_piece r rest = (r', rest') ->
  exists n, 1 <= n <= len rest /\ rest' = dropN n rest /\
    Repr r' (log ++ map AByte (takeN n rest)) /\ tail_ok r' /\
    budget r' = budget r /\ piece_max r' = piece_max r.
Proof.
  intros HR Hne Hp. unfold push_piece in Hp.
  destruct (append_output r rest) as [es n] eqn:Happ. injection Hp as <- <-.
  destruct (append_output_spec _ _ _ _ _ HR Hne Happ) as (Hn & (s & d & Hl & Hd) & HR').
  destruct (evict_spec _ _ HR') as (HR'' & Ho & []). simpl in *.
  exists n. split_and!; try done; [lia..|]. split; [done|].
  rewrite sc_last0, Hl, sc_piece0. simpl. lia.
Qed.

Lemma push_loop_spec fuel r log rest :
  (length rest <= fuel)%nat -> Repr r log ->
  Repr (push_loop fuel r rest) (log ++ map AByte rest) /\
  (tail_ok r -> tail_ok (push_loop fuel r rest)) /\
  budget (push_loop fuel r rest) = budget r /\ piece_max (push_loop fuel r rest) = piece_max r.
Proof.
  revert r log rest. induction fuel as [|fuel IH]; intros r log rest Hf HR; simpl.
  - destruct rest; simpl in *; [by rewrite app_nil_r|lia].
  - destruct rest as [|b rest]; [simpl; by rewrite app_nil_r|].
    destruct (push_piece r (b :: rest)) as [r' rest'] eqn:Hp.
    eapply push_piece_spec in Hp as (n & Hn & -> & HR' & Ht & Hb & Hpm); [|done..].
    destruct (IH _ _ (dropN n (b :: rest)) ltac:(unfold dropN; rewrite length_drop; lia) HR')
      as (HR2 & Ht2 & Hb2 & Hp2).
    rewrite <- app_assoc, <- map_app, takeN_dropN in HR2.
    split_and!; [done|auto|congruence..].
Qed.

(** Appending a control entry, before eviction. *)
Definition with_control (r : ReplayRing) (ev : ControlEvent) : ReplayRing :=
  mkRing (budget r) (piece_max r) (entries r ++ [Control (end_ r) (next_ctl_id r) ev])
    (retained r + CONTROL_ENTRY_COST) (end_ r) (next_ctl_id r + 1) (lost_ctl r).

Lemma push_control_raw r log ev : Repr r log -> Repr (with_control r ev) (log ++ [ACtl ev]).
Proof.
  intros (gone & kept & -> & [Hp Hret Hend Hids Hch Hck Hit Hcov Hlost]).
  exists gone, (kept ++ [ACtl ev]). split; [by rewrite app_assoc|].
  split; cbn [with_control piece_max budget retained entries end_ next_ctl_id lost_ctl];
    rewrite ?app_assoc, ?(nbytes_app (_ ++ _)), ?(nctls_app (_ ++ _)); cbn [nbytes nctls]; try done.
  - rewrite Hret, total_cost_app. simpl. unfold CONTROL_ENTRY_COST. lia.
  - by rewrite N.add_0_r.
  - rewrite Hids. lia.
  - apply chain_app. exists (end_ r). by split.
  - apply Forall_app. split; [done|]. by repeat constructor.
  - rewrite items_app, annot_app, Hit, Hend, Hids, nbytes_app, nctls_app. simpl.
    do 3 f_equal; lia.
Qed.

Lemma push_control_spec r log ev r' seq id :
  Repr r log -> push_control r ev = (r', (seq, id)) ->
  Repr r' (log ++ [ACtl ev]) /\ tail_ok r' /\ seq = nbytes log /\ id = 1 + nctls log /\
  budget r' = budget r /\ piece_max r' = piece_max r.
Proof.
  intros HR [= <- <- <-]. fold (with_control r ev).
  destruct (evict_spec _ _ (push_control_raw r log ev HR)) as (HR' & Ho & []).
  destruct HR as (gone & kept & -> & HR).
  split_and!; [done| |apply (repr_end _ _ _ HR)|apply (repr_ids _ _ _ HR)|done|done].
  split; [done|]. rewrite sc_last0, sc_piece0. simpl. rewrite last_snoc. simpl. lia.
Qed.

(** The first byte the ring still holds only moves ahead. *)
Lemma evict_loop_available fuel r log : Repr r log -> available_from r <= available_from (evict_loop fuel r).
Proof.
  revert r. induction fuel as [|fuel IH]; intros r HR; simpl; [done|]. destruct (over_budget r) eqn:Ho; [|done].
  unfold over_budget in Ho. apply andb_true_iff in Ho as [_ Hl%Nat.ltb_lt]. destruct HR as (gone & kept & -> & HR).
  pose proof (repr_chain _ _ _ HR) as Hch. rewrite (chain_available _ _ Hch).
  destruct (evict_step_spec r gone kept HR Hl) as (g' & k' & Heq & HR' & _). rewrite Heq in *.
  etrans; [|apply IH; by exists g', k'].
  destruct (evict_step_cases r _ Hch Hl) as [(pre & d & post & _ & _ & Hc & _ & ->)|(id & ev & es & _ & _ & Hc & ->)].
  - rewrite (chain_available (with_entries _ _ _) _ Hc). lia.
  - by rewrite (chain_available (force_ctl _ _ _ _) _ Hc).
Qed.

Lemma first_start_either es1 es2 :
  first_start (es1 ++ es2) = match first_start es1 with Some n => Some n | None => first_start es2 end.
Proof. induction es1 as [|[]]; simpl; done. Qed.

Lemma push_piece_available r log rest :
  Repr r log -> rest <> [] -> available_from r <= available_from (fst (push_piece r rest)).
Proof.
  intros HR Hne. unfold push_piece. destruct (append_output r rest) as [es n] eqn:Happ. cbn [fst].
  destruct (append_output_spec _ _ _ _ _ HR Hne Happ) as (_ & _ & HR').
  etrans; [|by eapply evict_loop_available]. unfold available_from. cbn [entries end_].
  unfold append_output in Happ. assert (forall k, default (end_ r) (first_start (entries r)) =
    default (end_ r + n) (first_start (entries r ++ [Output (end_ r) k]))) as Hnew.
  { intros k. rewrite first_start_either. by destruct (first_start (entries r)). }
  destruct (last (entries r)) as [[s d|]|] eqn:Hlast; [|injection Happ as <- <-; by rewrite <- Hnew..].
  destruct (_ <? _); injection Happ as <- <-; [|by rewrite <- Hnew].
  apply last_Some in Hlast as [init He]. rewrite He, removelast_last, !first_start_either. simpl.
  by destruct (first_start init).
Qed.

Lemma push_available r log data : Repr r log -> available_from r <= available_from (push r data).
Proof.
  unfold push. generalize (length data). intros fuel. revert r log data.
  induction fuel as [|fuel IH]; intros r log data HR; simpl; [done|]. destruct data as [|b data]; [done|].
  destruct (push_piece r (b :: data)) as [r' rest'] eqn:Hp.
  pose proof (push_piece_available r log (b :: data) HR ltac:(done)) as Ha. rewrite Hp in Ha.
  eapply push_piece_spec in Hp as (n & _ & _ & HR' & _); [|done..]. etrans; [exact Ha|by eapply IH].
Qed.

Lemma push_control_available r log ev : Repr r log -> available_from r <= available_from (fst (push_control r ev)).
Proof.
  intros HR. cbn [push_control fst]. fold (with_control r ev).
  etrans; [|eapply evict_loop_available, push_control_raw, HR]. unfold available_from. cbn [with_control entries end_].
  rewrite first_start_either. by destruct (first_start (entries r)).
Qed.

(** ** Reading *)

(** The items the loop of [read] owes: bytes in [from, upto), controls from
    [start_from] up to and including [upto] that the cursor has not seen. *)
Definition window (start_from from upto ctl : N) (it : Item) : bool :=
  match it with
  | IByte off _ => (from <=? off) && (off <? upto)
  | ICtl seq id _ => (start_from <=? seq) && (seq <=? upto) && (ctl <? id)
  end.

Lemma byte_items_bounds o d off b : IByte off b ∈ byte_items o d -> o <= off < o + len d.
Proof.
  rewrite <- (annot_map o 0). intros H%annot_byte_bounds. by rewrite nbytes_map in H.
Qed.

Lemma chain_items_ge p es q it : chain p es q -> it ∈ items es ->
  match it with IByte off _ => p <= off < q | ICtl seq _ _ => p <= seq <= q end.
Proof.
  revert p. induction es as [|[s d|s i ev] es IH]; intros p; simpl.
  - by intros _ ?%elem_of_nil.
  - intros (-> & _ & Hc) [H|H]%elem_of_app.
    + apply chain_le in Hc. destruct it; [apply byte_items_bounds in H; lia|].
      by apply byte_items_no_ctl in H.
    + specialize (IH _ Hc H). destruct it; lia.
  - intros (-> & Hc) [->|H]%elem_of_cons; [apply chain_le in Hc; lia|].
    specialize (IH _ Hc H). by destruct it.
Qed.

(** Selecting a range of offsets from a chunk is taking a slice of it. *)
Lemma filter_slice sf from upto ctl s d :
  s <= from <= s + len d -> from <= upto ->
  List.filter (window sf from upto ctl) (byte_items s d) =
  byte_items from (takeN (upto - from) (dropN (from - s) d)).
Proof.
  intros H1 H2.
  rewrite <- (takeN_dropN (from - s) d) at 1.
  rewrite <- (takeN_dropN (upto - from) (dropN (from - s) d)) at 1.
  rewrite !byte_items_app, !List.filter_app.
  assert (s + len (takeN (from - s) d) = from) as -> by len_lia.
  rewrite filter_none, filter_all, filter_none, app_nil_r; [done|..];
    (intros [off b|] Hin; [|by apply byte_items_no_ctl in Hin]);
    apply byte_items_bounds in Hin; simpl; len_lia.
Qed.

Lemma StronglySorted_app_r {A} (R : A -> A -> Prop) l1 l2 :
  StronglySorted R (l1 ++ l2) -> StronglySorted R l2.
Proof. induction l1 as [|x l1 IH]; simpl; [done|]. intros [? _]%StronglySorted_inv. auto. Qed.

(** What the loop promises of the control cursor it returns. *)
Definition ctl_upto (es : list Entry) (upto ctl ctl' : N) : Prop :=
  ctl <= ctl' /\
  (forall seq id ev, ICtl seq id ev ∈ items es -> seq <= upto -> id <= ctl') /\
  (ctl' = ctl \/ exists seq ev, ICtl seq ctl' ev ∈ items es /\ seq <= upto).

Lemma ctl_upto_none es upto ctl :
  (forall seq id ev, ICtl seq id ev ∈ items es -> upto < seq) -> ctl_upto es upto ctl ctl.
Proof. intros H. split_and!; [done| |by left]. intros seq id ev Hin. apply H in Hin. lia. Qed.

Lemma ctl_upto_output s d es upto ctl ctl' :
  ctl_upto es upto ctl ctl' -> ctl_upto (Output s d :: es) upto ctl ctl'.
Proof.
  intros (H1 & H2 & H3). split_and!; [done| |].
  - intros seq id ev [H|H]%elem_of_app; [by apply byte_items_no_ctl in H|eauto].
  - destruct H3 as [?|(seq & ev & H & ?)]; [by left|right].
    exists seq, ev. split; [|done]. simpl. apply elem_of_app. by right.
Qed.

Lemma ctl_upto_control s i ev es upto ctl ctl0 ctl' :
  ctl_upto es upto ctl0 ctl' -> s <= upto -> ctl0 = ctl `max` i ->
  ctl_upto (Control s i ev :: es) upto ctl ctl'.
Proof.
  intros (H1 & H2 & H3) Hs Hc. split_and!; [lia| |].
  - intros seq id e [?|H]%elem_of_cons; [simplify_eq; lia|eauto].
  - destruct H3 as [?|(seq & e & H & ?)].
    + destruct (decide (ctl < i)); [right|left; lia].
      exists s, ev. split; [|done]. apply elem_of_cons. left. f_equal. lia.
    + right. exists seq, e. split; [|done]. apply elem_of_cons. by right.
Qed.

Lemma filter_later p es q sf from upto ctl :
  chain p es q -> upto < p -> List.filter (window sf from upto ctl) (items es) = [].
Proof.
  intros Hc Hlt. apply filter_none. intros it Hin.
  pose proof (chain_items_ge _ _ _ _ Hc Hin). destruct it; simpl; lia.
Qed.

Lemma ctl_upto_later p es q upto ctl :
  chain p es q -> upto < p -> ctl_upto es upto ctl ctl.
Proof.
  intros Hc Hlt. apply ctl_upto_none. intros seq id ev Hin.
  pose proof (chain_items_ge _ _ _ _ Hc Hin) as H. simpl in H. lia.
Qed.

Lemma filter_output_skip s d es q sf from upto ctl :
  chain (s + len d) es q -> s + len d <= from ->
  List.filter (window sf from upto ctl) (items (Output s d :: es)) =
  List.filter (window sf from upto ctl) (items es).
Proof.
  intros Hc Hle. simpl. rewrite List.filter_app, filter_none; [done|].
  intros [off b|] Hin; [|by apply byte_items_no_ctl in Hin].
  apply byte_items_bounds in Hin. simpl. lia.
Qed.

(** Moving the start of the window inside a range the chain has left behind
    changes nothing for the rest of the chain. *)
Lemma filter_window_from p es q sf from from' upto ctl :
  chain p es q -> from <= p -> from' <= p ->
  List.filter (window sf from upto ctl) (items es) =
  List.filter (window sf from' upto ctl) (items es).
Proof.
  intros Hc H1 H2. apply filter_ext_elem. intros it Hin.
  pose proof (chain_items_ge _ _ _ _ Hc Hin). destruct it; simpl; lia.
Qed.

Lemma filter_window_ctl es i sf from upto ctl ctl' :
  (forall seq id ev, ICtl seq id ev ∈ items es -> i < id) -> ctl' = ctl `max` i ->
  List.filter (window sf from upto ctl') (items es) =
  List.filter (window sf from upto ctl) (items es).
Proof.
  intros H ->. apply filter_ext_elem. intros it Hin.
  destruct it; simpl; [done|]. apply H in Hin. lia.
Qed.

Definition read_loop_post sf es q from rem ctl evs upto ctl' : Prop :=
  upto = q `min` (from + rem) /\
  flat evs = List.filter (window sf from upto ctl) (items es) /\
  ctl_upto es upto ctl ctl'.

(** The chunk in which the budget runs out. *)
Lemma read_chunk_part sf p d es q from rem ctl :
  chain (p + len d) es q -> p <= from < p + len d -> rem < len d - (from - p) ->
  read_loop_post sf (Output p d :: es) q from rem ctl
    (if rem =? 0 then [] else [EvOutput (from + rem) (takeN rem (dropN (from - p) d))])
    (from + rem) ctl.
Proof.
  intros Hc Hp Hrem. pose proof (chain_le _ _ _ Hc) as Hle.
  split_and!; [lia| |apply ctl_upto_output; eapply ctl_upto_later; [done|lia]].
  simpl. rewrite List.filter_app, filter_slice, (filter_later _ _ _ _ _ _ _ Hc), app_nil_r by lia.
  replace (from + rem - from) with rem by lia.
  destruct (N.eqb_spec rem 0) as [->|]; simpl; [done|].
  rewrite app_nil_r. f_equal. len_lia.
Qed.

(** A chunk delivered to its end. *)
Lemma read_chunk_full sf p d es q from rem ctl evs upto ctl' :
  chain (p + len d) es q -> p <= from < p + len d -> len d - (from - p) <= rem ->
  read_loop_post sf es q (p + len d) (rem - (len d - (from - p))) ctl evs upto ctl' ->
  read_loop_post sf (Output p d :: es) q from rem ctl
    (EvOutput (p + len d) (takeN (len d - (from - p)) (dropN (from - p) d)) :: evs) upto ctl'.
Proof.
  intros Hc Hp Hrem (-> & Hflat & Hctl). pose proof (chain_le _ _ _ Hc) as Hle.
  split_and!; [lia| |by apply ctl_upto_output].
  simpl. rewrite Hflat, List.filter_app, filter_slice by lia. f_equal.
  - rewrite !takeN_ge by len_lia. f_equal. len_lia.
  - apply (filter_window_from _ _ _ _ _ _ _ _ Hc); lia.
Qed.

Lemma read_loop_spec sf es p q from rem ctl evs upto ctl' :
  chain p es q -> StronglySorted precedes (items es) ->
  p <= from <= q -> sf <= from -> (from = sf \/ p = from) ->
  read_loop sf es from rem ctl = (evs, upto, ctl') ->
  read_loop_post sf es q from rem ctl evs upto ctl'.
Proof.
  revert p from rem ctl evs. induction es as [|[s d|s i ev] es IH];
    intros p from rem ctl evs Hc Hss Hp Hsf Hfp Hr.
  - simpl in *. simplify_eq. split_and!; [lia|done|].
    apply ctl_upto_none. by intros ??? ?%elem_of_nil.
  - destruct Hc as (-> & Hd%len_pos & Hc). simpl in Hr, Hss.
    apply StronglySorted_app_r in Hss.
    destruct (N.leb_spec (p + len d) from) as [Hskip|Hin].
    { apply (IH (p + len d)) in Hr as (-> & Hflat & Hctl); try done; try lia.
      split_and!; [done| |by apply ctl_upto_output].
      by rewrite (filter_output_skip _ _ _ q) by done. }
    destruct (N.ltb_spec rem (len d - (from - p))) as [Hpart|Hall].
    + pose proof (read_chunk_part sf p d es q from rem ctl Hc) as Hpost.
      revert Hr Hpost. rewrite (N.min_r (len d - (from - p))) by lia.
      destruct (N.eqb_spec rem 0) as [->|]; [intros [= <- <- <-] Hpost; rewrite N.add_0_r in Hpost; apply Hpost; lia|].
      rewrite (proj2 (N.ltb_lt _ _)) by done. intros [= <- <- <-] Hpost. apply Hpost; lia.
    + revert Hr. rewrite (N.min_l (len d - (from - p))), N.ltb_irrefl by lia.
      destruct (N.eqb_spec rem 0) as [->|]; [lia|].
      replace (from + (len d - (from - p))) with (p + len d) by lia.
      destruct (read_loop sf es (p + len d) _ ctl) as [[evs' f] c] eqn:Hr'. intros [= <- <- <-].
      pose proof (chain_le _ _ _ Hc).
      apply read_chunk_full; try done; [lia|]. eapply (IH (p + len d)); try done; lia.
  - destruct Hc as (-> & Hc). simpl in Hr, Hss. apply StronglySorted_inv in Hss as [Hss Hlt].
    assert (forall seq id e, ICtl seq id e ∈ items es -> i < id) as Hids.
    { intros seq id e Hi. rewrite Forall_forall in Hlt. by apply Hlt in Hi as [_ ?]. }
    assert (forall ctl0 evs0, ctl0 = ctl `max` i -> read_loop sf es from rem ctl0 = (evs0, upto, ctl') ->
      flat evs = (if (sf <=? p) && (ctl <? i) then [ICtl p i ev] else []) ++ flat evs0 ->
      read_loop_post sf (Control p i ev :: es) q from rem ctl evs upto ctl') as Hctl.
    { intros ctl0 evs0 Hc0 Hr0 Hfl. apply (IH p) in Hr0 as (-> & Hflat & Hctl); try done.
      split_and!; [done| |eapply ctl_upto_control; [done|lia|done]].
      rewrite Hfl, Hflat, (filter_window_ctl es i _ _ _ ctl) by done. simpl.
      replace (p <=? q `min` (from + rem)) with true by lia. rewrite andb_true_r.
      by destruct (_ && _). }
    destruct (N.ltb_spec p sf); [by eapply Hctl; [| |replace (sf <=? p) with false by lia]|].
    replace (sf <=? p) with true in Hctl by lia. replace (from <? p) with false in Hr by lia.
    destruct (N.leb_spec i ctl).
    + eapply Hctl; [|done|replace (ctl <? i) with false by lia; done]. lia.
    + destruct (read_loop sf es from rem i) as [[evs' f] c] eqn:Hr'. simplify_eq.
      eapply Hctl; [|done|replace (ctl <? i) with true by lia; done]. lia.
Qed.

Lemma sorted_total {A} (R : A -> A -> Prop) l x y :
  StronglySorted R l -> x ∈ l -> y ∈ l -> x = y \/ R x y \/ R y x.
Proof.
  induction 1 as [|z l _ IH Hz]; [by intros ?%elem_of_nil|].
  rewrite Forall_forall in Hz.
  intros [->|Hx]%elem_of_cons [->|Hy]%elem_of_cons; auto.
Qed.

Lemma history_ctl_mono log s i e s' i' e' :
  ICtl s i e ∈ history log -> ICtl s' i' e' ∈ history log -> i <= i' -> s <= s'.
Proof.
  intros H1 H2 Hle.
  destruct (sorted_total _ _ _ _ (annot_sorted 0 1 log) H1 H2) as [?|[[]|[]]];
    [simplify_eq|..]; lia.
Qed.

(** The cursor a read resumes from after the gap report. *)
Definition resync (r : ReplayRing) (c : Cursor) : Cursor :=
  let '(_, from, ctl) := read_start r c in mkCursor from ctl.

(** The gap report is raised exactly when something owed is gone, and the
    resumed cursor has everything gone behind it. *)
Lemma read_start_spec r gone kept c gaps from ctl :
  ReprAt r gone kept -> read_start r c = (gaps, from, ctl) ->
  from = after c `max` nbytes gone /\ ctl_after c <= ctl /\
  (forall it, it ∈ history gone -> behind (mkCursor from ctl) it = true) /\
  (gaps = [] -> from = after c /\ ctl = ctl_after c) /\
  (gaps <> [] -> gaps = [EvGap (after c) from] /\
     exists it, it ∈ history gone /\ behind c it = false).
Proof.
  intros HR Hs. unfold read_start in Hs.
  rewrite (chain_available r (nbytes gone)) in Hs by apply (repr_chain _ _ _ HR).
  assert (forall ct, from = after c `max` nbytes gone -> ctl = ct ->
    (forall li, lost_ctl r = Some (nbytes gone, li) -> after c <= nbytes gone -> li <= ct) ->
    forall it, it ∈ history gone -> behind (mkCursor from ctl) it = true) as Hbehind.
  { intros ct Hf -> Hlost [off b|seq id ev] Hin; simpl.
    - apply annot_byte_bounds in Hin. lia.
    - destruct (repr_covered _ _ _ HR _ _ _ Hin) as [?|(li & Hli & ?)]; [lia|].
      specialize (Hlost li Hli). apply history_ctl_le in Hin. lia. }
  assert (after c < nbytes gone -> exists it, it ∈ history gone /\ behind c it = false) as Hlow.
  { intros Hlt. destruct (annot_byte_exists 0 1 gone (after c)) as [b Hb]; [lia|].
    exists (IByte (after c) b). split; [done|]. simpl. lia. }
  destruct (lost_ctl r) as [[ls li]|] eqn:El.
  - destruct (repr_lost _ _ _ HR _ _ El) as [ev Hev]. pose proof (history_ctl_le _ _ _ _ Hev) as Hle.
    assert (forall f, f = after c `max` nbytes gone -> ctl_after c < li -> f <= ls ->
      exists it, it ∈ history gone /\ behind c it = false) as Hc.
    { intros f -> ??. exists (ICtl ls li ev). split; [done|]. simpl. lia. }
    destruct (N.ltb_spec (after c) (nbytes gone)) as [Hlt|Hge];
      destruct (_ && _) eqn:Ec; injection Hs as <- <- <-;
      (split_and!; [lia..|eapply Hbehind; [lia|done|intros; simplify_eq; lia]|try done; lia|]);
      intros; try done; (split; [f_equal; f_equal; lia|eauto]).
    eapply Hc; [done|lia..].
  - destruct (N.ltb_spec (after c) (nbytes gone)) as [Hlt|Hge]; injection Hs as <- <- <-;
      (split_and!; [lia..|eapply Hbehind; [lia|done|done]|try done; lia|]);
      intros; try done. split; [done|auto].
Qed.

Lemma read_loop_no_gap sf es from rem ctl evs f c :
  read_loop sf es from rem ctl = (evs, f, c) -> existsb is_gap evs = false.
Proof.
  revert from rem ctl evs. induction es as [|[s d|s i ev] es IH]; intros from rem ctl evs; simpl.
  - by intros [= <- _ _].
  - destruct (_ <=? _); [by apply IH|]. destruct (_ =? _); [by intros [= <- _ _]|].
    destruct (_ <? _); [by intros [= <- _ _]|].
    destruct (read_loop sf es _ _ _) as [[evs' f'] c'] eqn:E. intros [= <- <- <-].
    simpl. by eapply IH.
  - destruct (_ <? _); [by apply IH|]. destruct (_ <? _); [by intros [= <- _ _]|].
    destruct (_ <=? _); [by apply IH|].
    destruct (read_loop sf es _ _ _) as [[evs' f'] c'] eqn:E. intros [= <- <- <-].
    simpl. by eapply IH.
Qed.

Lemma filter_app_behind (P : Item -> bool) l1 l2 :
  (forall it, it ∈ l1 -> P it = false) -> List.filter P (l1 ++ l2) = List.filter P l2.
Proof. intros H. rewrite List.filter_app. by rewrite (filter_none P l1). Qed.

(** Among the items a cursor still misses, those behind the next cursor are
    the ones up to its offset. *)
Definition tight (c c' : Cursor) (log : Log) : Prop :=
  forall it, it ∈ history log -> behind c it = false ->
    behind c' it = match it with IByte off _ => off <? after c' | ICtl seq _ _ => seq <=? after c' end.

Lemma ctl_upto_tight r gone kept from ctl from' ctl' :
  ReprAt r gone kept ->
  (forall it, it ∈ history gone -> behind (mkCursor from ctl) it = true) ->
  ctl_upto (entries r) from' ctl ctl' ->
  tight (mkCursor from ctl) (mkCursor from' ctl') (gone ++ kept).
Proof.
  intros HR Hb (Hc1 & Hc2 & Hc3) [off b|seq id ev] Hin Hnb; simpl in *; [done|].
  assert (ICtl seq id ev ∈ items (entries r)) as Hi.
  { rewrite history_app in Hin. apply elem_of_app in Hin as [Hin|Hin].
    - apply Hb in Hin. simpl in Hin. lia.
    - by rewrite (repr_items _ _ _ HR). }
  specialize (Hc2 _ _ _ Hi).
  destruct (decide (seq <= from')); [lia|].
  destruct Hc3 as [->|(s2 & e2 & Hs2 & ?)]; [lia|].
  assert (ICtl s2 ctl' e2 ∈ history (gone ++ kept)) as Hin2.
  { rewrite history_app, <- (repr_items _ _ _ HR). apply elem_of_app. by right. }
  pose proof (history_ctl_mono _ _ _ _ _ _ _ Hin Hin2). lia.
Qed.

Lemma read_spec_at r gone kept c m o :
  ReprAt r gone kept -> read r c m = Ok o ->
  flat (events o) = between (resync r c) (next o) (gone ++ kept) /\
  after (resync r c) = after c `max` nbytes gone /\
  after (next o) = nbytes (gone ++ kept) `min` (after (resync r c) + m) /\
  ctl_after c <= ctl_after (resync r c) <= ctl_after (next o) /\
  ctl_after (next o) <= ctl_after (resync r c) `max` nctls (gone ++ kept) /\
  tight (resync r c) (next o) (gone ++ kept) /\
  (forall it, it ∈ history gone -> behind (resync r c) it = true) /\
  (has_gap o = false -> resync r c = c) /\
  (has_gap o = true -> exists it, it ∈ history gone /\ behind c it = false).
Proof.
  intros HR Hread. unfold read, resync in *.
  destruct (N.ltb_spec (end_ r) (after c)) as [|Hend]; [done|].
  destruct (read_start r c) as [[gaps from] ctl] eqn:Hs.
  destruct (read_loop from (entries r) from m ctl) as [[evs from'] ctl'] eqn:Hl.
  injection Hread as <-. cbn [events next after ctl_after].
  pose proof (read_loop_no_gap _ _ _ _ _ _ _ _ Hl) as Hng.
  destruct (read_start_spec _ _ _ _ _ _ _ HR Hs) as (Hf & Hctl & Hb & Hn & Hg).
  pose proof (repr_chain _ _ _ HR) as Hch. pose proof (chain_le _ _ _ Hch) as Hle.
  apply (read_loop_spec _ _ _ _ _ _ _ _ _ _ Hch) in Hl as (Hupto & Hflat & Hc);
    [|rewrite (repr_items _ _ _ HR); apply annot_sorted|lia|lia|by left].
  pose proof (ctl_upto_tight _ _ _ _ _ _ _ HR Hb Hc) as Ht. destruct Hc as (Hc1 & _ & Hc3).
  split_and!; try done; try lia.
  - assert (flat (gaps ++ evs) = flat evs) as ->.
    { destruct gaps; [done|]. by destruct Hg as [[= -> ->] _]. }
    rewrite Hflat. unfold between. rewrite history_app, filter_app_behind, <- (repr_items _ _ _ HR).
    + apply filter_ext_elem. intros it Hi.
      assert (it ∈ history (gone ++ kept)) as Hin.
      { rewrite history_app, <- (repr_items _ _ _ HR). apply elem_of_app. by right. }
      specialize (Ht it Hin). destruct it; simpl in *; lia.
    + intros it Hit. by rewrite (Hb it Hit).
  - rewrite <- (repr_end _ _ _ HR). lia.
  - destruct Hc3 as [->|(s2 & e2 & Hin & _)]; [lia|].
    rewrite (repr_items _ _ _ HR) in Hin. apply annot_ctl_bounds in Hin. rewrite nctls_app. lia.
  - unfold has_gap. simpl. rewrite existsb_app, Hng, orb_false_r. destruct gaps as [|g gs].
    + destruct Hn as [-> ->]; [done|]. by destruct c.
    + by destruct Hg as [[= -> ->] _].
  - unfold has_gap. simpl. rewrite existsb_app, Hng, orb_false_r. intros Hgap.
    apply Hg. by intros ->.
Qed.

(** ** Composition of reads *)

(** [c'] is at or past [c]. *)
Definition cursor_le (c c' : Cursor) : Prop :=
  after c <= after c' /\ ctl_after c <= ctl_after c'.

Lemma behind_mono c c' it : cursor_le c c' -> behind c it = true -> behind c' it = true.
Proof. intros [H1 H2]. destruct it; simpl; lia. Qed.

Lemma between_refl c log : between c c log = [].
Proof. apply filter_none. intros it _. by destruct (behind c it). Qed.

(** What a consumer that started at [c0] and stands at [c] received lies at or
    before its offset. *)
Definition settled (c0 c : Cursor) (log : Log) : Prop :=
  forall seq id ev, ICtl seq id ev ∈ history log ->
    behind c0 (ICtl seq id ev) = false -> behind c (ICtl seq id ev) = true -> seq <= after c.

Lemma tight_settled c c' log : tight c c' log -> settled c c' log.
Proof. intros Ht seq id ev Hin H0 H1. rewrite (Ht _ Hin H0) in H1. lia. Qed.

Lemma settled_trans c0 c1 c2 log :
  cursor_le c1 c2 -> settled c0 c1 log -> settled c1 c2 log -> settled c0 c2 log.
Proof.
  intros [H12 _] Ht1 Ht2 seq id ev Hin H0 H2.
  destruct (behind c1 (ICtl seq id ev)) eqn:E1; [|by eauto].
  specialize (Ht1 _ _ _ Hin H0 E1). lia.
Qed.

Lemma between_trans c0 c1 c2 log :
  cursor_le c0 c1 -> cursor_le c1 c2 -> settled c0 c1 log ->
  between c0 c1 log ++ between c1 c2 log = between c0 c2 log.
Proof.
  intros H01 H12 Ht. unfold between.
  rewrite (filter_split precedes); [|apply annot_sorted|..].
  - apply filter_ext_elem. intros it _.
    pose proof (behind_mono c0 c1 it H01). pose proof (behind_mono c1 c2 it H12).
    destruct (behind c0 it), (behind c1 it), (behind c2 it); naive_solver.
  - intros it _. destruct (behind c1 it); simpl; [|rewrite andb_false_r]; done.
  - intros x y Hx Hy Hxy Px Py.
    pose proof (behind_mono c0 c1 x H01) as Hm.
    apply andb_true_iff in Px as [Px _], Py as [Py1 Py2].
    apply negb_true_iff in Px, Py1.
    destruct y as [off b|seq id ev]; [|specialize (Ht _ _ _ Hy Py1 Py2)];
      destruct x; simpl in *; lia.
Qed.

(** A consumer following a growing history: it reads at its cursor and keeps
    the cursor each read returns; appends happen in between, through whatever
    rings represent the history at the time. *)
Inductive follow (c0 : Cursor) : Log -> Cursor -> list Item -> Prop :=
  | follow_start log : after c0 <= nbytes log -> follow c0 log c0 []
  | follow_append log more c d : follow c0 log c d -> follow c0 (log ++ more) c d
  | follow_read log c d r m o : follow c0 log c d -> Repr r log -> read r c m = Ok o ->
      has_gap o = false -> follow c0 log (next o) (d ++ flat (events o)).

Record follow_inv (c0 : Cursor) (log : Log) (c : Cursor) (d : list Item) : Prop := {
  fi_between : d = between c0 c log;
  fi_le : cursor_le c0 c;
  fi_end : after c <= nbytes log;
  fi_ctl : ctl_after c <= ctl_after c0 `max` nctls log;
  fi_settled : settled c0 c log;
}.

Lemma follow_inv_append c0 log more c d :
  follow_inv c0 log c d -> follow_inv c0 (log ++ more) c d.
Proof.
  intros [-> Hle Hend Hctl Hset].
  assert (forall it, it ∈ annot (nbytes log) (1 + nctls log) more ->
    behind c0 it = false -> behind c it = false) as Hnew.
  { intros [off b|seq id ev] Hin; [apply annot_byte_bounds in Hin|apply annot_ctl_bounds in Hin];
      simpl; lia. }
  split; rewrite ?nbytes_app, ?nctls_app; try done; try lia.
  - unfold between. rewrite history_app, List.filter_app.
    rewrite (filter_none _ (annot _ _ _)), app_nil_r; [done|].
    intros it Hin. destruct (behind c0 it) eqn:E0; [done|]. by rewrite Hnew.
  - intros seq id ev Hin H0 H1. rewrite history_app in Hin.
    apply elem_of_app in Hin as [Hin|Hin]; [by eapply Hset|]. by rewrite Hnew in H1.
Qed.

Lemma follow_inv_read c0 log c d r m o :
  follow_inv c0 log c d -> Repr r log -> read r c m = Ok o -> has_gap o = false ->
  follow_inv c0 log (next o) (d ++ flat (events o)).
Proof.
  intros [-> Hle Hend Hctl Hset] (gone & kept & -> & HR) Hread Hgap.
  destruct (read_spec_at _ _ _ _ _ _ HR Hread) as (Hfl & Haf & Hnx & Hct & Hcb & Ht & _ & Hres & _).
  rewrite (Hres Hgap) in *. apply tight_settled in Ht.
  assert (cursor_le c (next o)) as Hle' by (split; lia).
  assert (cursor_le c0 (next o)) as Hle0 by (destruct Hle, Hle'; split; lia).
  split; [|done|lia|lia|by apply (settled_trans c0 c)].
  by rewrite Hfl, between_trans.
Qed.

Lemma follow_invariant c0 log c d : follow c0 log c d -> follow_inv c0 log c d.
Proof.
  induction 1 as [log H|log more c d _ IH|log c d r m o _ IH HR Hr Hg].
  - split; [by rewrite between_refl|split; lia|done|lia|]. intros seq id ev _ H0 H1. congruence.
  - by apply follow_inv_append.
  - by eapply follow_inv_read.
Qed.

(** ** The ring's contract *)

(** The mutations of a ring, and the history they append. *)
Inductive RingOp :=
  | OpPush (data : list byte)
  | OpControl (ev : ControlEvent).

Definition run_op (r : ReplayRing) (op : RingOp) : ReplayRing :=
  match op with
  | OpPush data => push r data
  | OpControl ev => fst (push_control r ev)
  end.

Definition run_ops (r : ReplayRing) (ops : list RingOp) : ReplayRing := fold_left run_op ops r.

Definition op_log (op : RingOp) : Log :=
  match op with
  | OpPush data => map AByte data
  | OpControl ev => [ACtl ev]
  end.

Definition ops_log (ops : list RingOp) : Log := concat (map op_log ops).

Lemma new_Repr b : Repr (new b) [].
Proof.
  exists [], []. split; [done|]. split; simpl; try done.
  - unfold RING_CHUNK_DIVISOR, RING_CHUNK_MAX.
    pose proof (N.Div0.div_le_upper_bound (b `max` 1) 16 (b `max` 1)). lia.
  - by intros ??? ?%elem_of_nil.
Qed.

Lemma new_tail_ok b : tail_ok (new b).
Proof. split; [|done]. unfold over_budget. simpl. apply andb_false_r. Qed.

Lemma push_spec r log data :
  Repr r log ->
  Repr (push r data) (log ++ map AByte data) /\ (tail_ok r -> tail_ok (push r data)) /\
  budget (push r data) = budget r /\ piece_max (push r data) = piece_max r.
Proof. by apply push_loop_spec. Qed.

Lemma run_op_spec r log op :
  Repr r log ->
  Repr (run_op r op) (log ++ op_log op) /\ (tail_ok r -> tail_ok (run_op r op)) /\
  budget (run_op r op) = budget r /\ piece_max (run_op r op) = piece_max r.
Proof.
  intros HR. destruct op as [data|ev]; unfold run_op, op_log; [by apply push_spec|].
  destruct (push_control r ev) as [r' [seq id]] eqn:E.
  apply (push_control_spec _ _ _ _ _ _ HR) in E as (? & ? & _ & _ & ? & ?). split_and!; auto.
Qed.

Lemma run_ops_spec ops r log :
  Repr r log -> tail_ok r ->
  Repr (run_ops r ops) (log ++ ops_log ops) /\ tail_ok (run_ops r ops) /\
  budget (run_ops r ops) = budget r.
Proof.
  revert r log. induction ops as [|op ops IH]; intros r log HR Ht; [by rewrite app_nil_r|].
  destruct (run_op_spec r log op HR) as (HR' & Ht' & Hb & _).
  destruct (IH _ _ HR' (Ht' Ht)) as (HR2 & Ht2 & Hb2).
  rewrite <- app_assoc in HR2. split_and!; [done..|]. simpl. unfold run_ops in *. simpl. congruence.
Qed.

Lemma Repr_end r log : Repr r log -> end_ r = nbytes log.
Proof. intros (gone & kept & -> & HR). apply (repr_end _ _ _ HR). Qed.

Lemma tail_ok_retained r log :
  Repr r log -> tail_ok r -> retained r <= budget r `max` CONTROL_ENTRY_COST.
Proof.
  intros (gone & kept & -> & HR) [Ho Hl]. unfold over_budget in Ho.
  apply andb_false_iff in Ho as [Ho|Ho]; [lia|]. apply Nat.ltb_ge in Ho.
  pose proof (repr_piece _ _ _ HR). rewrite (repr_retained _ _ _ HR).
  destruct (entries r) as [|e [|]]; simpl in *; lia.
Qed.

(** ** Number of entries *)

Fixpoint n_outputs (es : list Entry) : N :=
  match es with
  | [] => 0
  | Output _ _ :: es' => 1 + n_outputs es'
  | Control _ _ _ :: es' => n_outputs es'
  end.

Fixpoint n_controls (es : list Entry) : N :=
  match es with
  | [] => 0
  | Output _ _ :: es' => n_controls es'
  | Control _ _ _ :: es' => 1 + n_controls es'
  end.

(** A chunk followed by a chunk is full. *)
Fixpoint packed (pm : N) (es : list Entry) : Prop :=
  match es with
  | Output _ d :: ((Output _ _ :: _) as es') => len d = pm /\ packed pm es'
  | _ :: es' => packed pm es'
  | [] => True
  end.

Lemma packed_suffix pm es1 es2 : packed pm (es1 ++ es2) -> packed pm es2.
Proof.
  induction es1 as [|[s d|s i ev] es1 IH]; simpl; [done| |done].
  destruct (es1 ++ es2) as [|[]]; [auto|intros [_ ?]; auto|auto].
Qed.

Lemma packed_count pm es :
  packed pm es ->
  n_outputs es * pm <=
  total_cost es + (n_controls es + (if es is Output _ _ :: _ then 1 else 0)) * pm.
Proof.
  induction es as [|[s d|s i ev] es IH]; cbn [packed]; [simpl; lia| |].
  - destruct es as [|[s' d'|s' i' ev'] es]; [simpl; lia| |].
    + intros [Hd H%IH]. cbn [n_outputs n_controls total_cost cost] in *. lia.
    + intros H. cbn [n_outputs n_controls total_cost cost packed] in *. specialize (IH H). lia.
  - intros H%IH. cbn [n_outputs n_controls total_cost cost] in *. unfold CONTROL_ENTRY_COST.
    destruct es as [|[] es]; lia.
Qed.

Lemma entry_count_split r : entry_count r = n_outputs (entries r) + n_controls (entries r).
Proof.
  unfold entry_count. induction (entries r) as [|[] es IH]; [done|..];
    rewrite len_cons, IH; simpl; lia.
Qed.

Lemma evict_loop_suffix fuel r log :
  Repr r log -> exists pre, entries r = pre ++ entries (evict_loop fuel r).
Proof.
  revert r. induction fuel as [|fuel IH]; intros r HR; simpl; [by exists []|].
  destruct (over_budget r) eqn:Ho; [|by exists []].
  unfold over_budget in Ho. apply andb_true_iff in Ho as [_ Hl%Nat.ltb_lt].
  destruct HR as (gone & kept & -> & HR).
  destruct (evict_step_spec r gone kept HR Hl) as (g' & k' & Heq & HR' & _).
  destruct (IH (evict_step r)) as [pre Hpre]; [exists g', k'; by rewrite Heq|].
  destruct (evict_step_cases r (nbytes gone) (repr_chain _ _ _ HR) Hl)
    as [(pre' & d & post & He & _ & _ & _ & Hs)|(id & ev & es & He & _ & _ & Hs)];
    pose proof (f_equal entries Hs) as Hes; simpl in Hes; rewrite He, <- Hes, Hpre.
  - exists (pre' ++ Output (nbytes gone) d :: pre). by rewrite <- app_assoc.
  - by exists (Control (nbytes gone) id ev :: pre).
Qed.

Lemma packed_snoc pm es e :
  packed pm es ->
  match last es, e with Some (Output _ d), Output _ _ => len d = pm | _, _ => True end ->
  packed pm (es ++ [e]).
Proof.
  induction es as [|x es IH]; [by destruct e|]. intros Hp Hl.
  destruct es as [|y es].
  - destruct x, e; simpl in *; auto.
  - rewrite last_cons_cons in Hl.
    destruct x as [s d|]; [destruct y|]; simpl in *; try (apply IH; done).
    destruct Hp as [? Hp]. split; [done|]. by apply IH.
Qed.

Lemma packed_replace pm es s d d' :
  packed pm (es ++ [Output s d]) -> packed pm (es ++ [Output s d']).
Proof.
  induction es as [|[s' e|s' i ev] es IH]; [done| |done].
  destruct es as [|[] es]; [done| |by apply IH].
  intros [? H]. split; [done|]. by apply IH.
Qed.

Lemma append_output_packed r log data es n :
  Repr r log -> packed (piece_max r) (entries r) -> append_output r data = (es, n) ->
  packed (piece_max r) es.
Proof.
  intros (gone & kept & -> & HR) Hp Happ. unfold append_output in Happ.
  pose proof (repr_chunks _ _ _ HR) as Hck.
  destruct (last (entries r)) as [[s d|]|] eqn:Hlast;
    [|injection Happ as <- <-; apply packed_snoc; [done|by rewrite Hlast]..].
  destruct (N.ltb_spec (len d) (piece_max r)) as [Hlt|Hge]; injection Happ as <- <-;
    pose proof Hlast as [init He]%last_Some.
  - rewrite He, removelast_last. rewrite He in Hp. by eapply packed_replace.
  - apply packed_snoc; [done|]. rewrite Hlast.
    rewrite He in Hck. apply Forall_app in Hck as [_ Hck]. apply Forall_cons in Hck as [? _]. lia.
Qed.

Lemma evict_packed r log :
  Repr r log -> packed (piece_max r) (entries r) ->
  packed (piece_max (evict r)) (entries (evict r)).
Proof.
  intros HR Hp. destruct (evict_spec _ _ HR) as (_ & _ & []). rewrite sc_piece0.
  destruct (evict_loop_suffix (length (entries r)) _ _ HR) as [pre Hpre].
  rewrite Hpre in Hp. by eapply packed_suffix.
Qed.

Lemma push_loop_packed fuel r log rest :
  Repr r log -> packed (piece_max r) (entries r) ->
  packed (piece_max (push_loop fuel r rest)) (entries (push_loop fuel r rest)).
Proof.
  revert r log rest. induction fuel as [|fuel IH]; intros r log rest HR Hp; [by destruct rest|].
  destruct rest as [|b rest]; [done|]. cbn [push_loop].
  destruct (push_piece r (b :: rest)) as [r' rest'] eqn:E. pose proof E as E'.
  eapply push_piece_spec in E' as (n & _ & _ & HR' & _); [|done..].
  eapply IH; [done|]. unfold push_piece in E.
  destruct (append_output r (b :: rest)) as [es m] eqn:Ea. injection E as <- _.
  destruct (append_output_spec r log (b :: rest) es m HR ltac:(done) Ea) as (_ & _ & HR2).
  eapply evict_packed; [done|]. cbn [piece_max entries]. by eapply append_output_packed.
Qed.

Lemma push_control_packed r log ev :
  Repr r log -> packed (piece_max r) (entries r) ->
  packed (piece_max (fst (push_control r ev))) (entries (fst (push_control r ev))).
Proof.
  intros HR Hp. pose proof (push_control_raw r log ev HR) as HR'.
  unfold push_control, fst. eapply evict_packed; [done|]. cbn [entries piece_max].
  apply packed_snoc; [done|]. by destruct (last (entries r)) as [[]|].
Qed.

Lemma run_ops_packed ops r log :
  Repr r log -> packed (piece_max r) (entries r) ->
  packed (piece_max (run_ops r ops)) (entries (run_ops r ops)).
Proof.
  revert r log. induction ops as [|op ops IH]; intros r log HR Hp; [done|].
  destruct (run_op_spec r log op HR) as (HR' & _).
  eapply (IH (run_op r op)); [done|]. destruct op; unfold run_op.
  - by eapply push_loop_packed.
  - by eapply push_control_packed.
Qed.

(** ** Properties *)

(** C1: A ring of any budget, after any sequence of output pushes and control
    events, represents exactly the history they append: its end offset is the
    number of bytes ever pushed, what it holds is a suffix of the history with
    the right offsets and ids, everything it dropped is covered, and the bytes
    it keeps in memory stay within the budget (or within the cost of one
    control entry if the budget is smaller than that). *)
Theorem ring_refines_log b ops :
  Repr (run_ops (new b) ops) (ops_log ops) /\
  end_ (run_ops (new b) ops) = nbytes (ops_log ops) /\
  retained (run_ops (new b) ops) <= (b `max` 1) `max` CONTROL_ENTRY_COST.
Proof.
  destruct (run_ops_spec ops _ _ (new_Repr b) (new_tail_ok b)) as (HR & Ht & Hb).
  split_and!; [done|by apply Repr_end|].
  pose proof (tail_ok_retained _ _ HR Ht) as H. by rewrite Hb in H.
Qed.

(** A read whose cursor is not beyond the end succeeds; the events it
    returns carry, in order and with their offsets and ids, exactly the bytes
    and controls of the history between the cursor it resumes from and the
    next cursor; it advances by the byte budget or to the end; and unless it
    reports a gap it resumes from the very cursor it was given. *)
Theorem read_delivers r log c m :
  Repr r log -> after c <= nbytes log ->
  exists o, read r c m = Ok o /\
    flat (events o) = between (resync r c) (next o) log /\
    after (resync r c) = after c `max` available_from r /\
    after (next o) = nbytes log `min` (after (resync r c) + m) /\
    (has_gap o = false -> resync r c = c).
Proof.
  intros (gone & kept & -> & HR) Hle.
  destruct (read r c m) as [o|e] eqn:Hr.
  - destruct (read_spec_at _ _ _ _ _ _ HR Hr) as (H1 & H2 & H3 & _ & _ & _ & _ & H4 & _).
    exists o. rewrite (chain_available _ _ (repr_chain _ _ _ HR)). done.
  - exfalso. unfold read in Hr. rewrite (repr_end _ _ _ HR) in Hr.
    destruct (N.ltb_spec (nbytes (gone ++ kept)) (after c)); [lia|].
    by destruct (read_start r c) as [[? ?] ?], (read_loop _ _ _ _ _) as [[? ?] ?].
Qed.

Definition demo_ops : list RingOp :=
  [OpPush [x61; x62; x63]; OpControl (CExit (Some 0%Z) None); OpPush [x64]].

Lemma read_delivers_witness :
  exists o, read (run_ops (new 256) demo_ops) (mkCursor 1 0) 2 = Ok o /\
    flat (events o) = between (resync (run_ops (new 256) demo_ops) (mkCursor 1 0)) (next o)
                        (ops_log demo_ops) /\
    after (resync (run_ops (new 256) demo_ops) (mkCursor 1 0))
      = 1 `max` available_from (run_ops (new 256) demo_ops) /\
    after (next o) = nbytes (ops_log demo_ops) `min`
      (after (resync (run_ops (new 256) demo_ops) (mkCursor 1 0)) + 2) /\
    (has_gap o = false -> resync (run_ops (new 256) demo_ops) (mkCursor 1 0) = mkCursor 1 0).
Proof.
  apply (read_delivers (run_ops (new 256) demo_ops) (ops_log demo_ops) (mkCursor 1 0) 2).
  - exact (proj1 (run_ops_spec demo_ops (new 256) [] (new_Repr 256) (new_tail_ok 256))).
  - vm_compute. discriminate.
Defined.

(** A read reports a gap exactly when some byte or control event that the
    cursor has not yet seen is no longer in the ring: no loss is silent and no
    gap is spurious. *)
Theorem gap_iff_loss r log c m o :
  Repr r log -> read r c m = Ok o ->
  has_gap o = true <->
  exists it, it ∈ history log /\ ~ it ∈ items (entries r) /\ behind c it = false.
Proof.
  intros (gone & kept & -> & HR) Hread.
  destruct (read_spec_at _ _ _ _ _ _ HR Hread) as (_ & _ & _ & _ & _ & _ & Hb & Hno & Hyes).
  rewrite (repr_items _ _ _ HR), history_app. split.
  - intros (it & Hin & Hnb)%Hyes. exists it. split_and!; [apply elem_of_app; by left| |done].
    intros Hin'. destruct it as [off b|seq id ev].
    + apply annot_byte_bounds in Hin, Hin'. lia.
    + apply annot_ctl_bounds in Hin, Hin'. lia.
  - intros (it & [Hin|Hin]%elem_of_app & Hnot & Hnb); [|done].
    destruct (has_gap o); [done|]. rewrite Hno in Hb by done. by rewrite Hb in Hnb.
Qed.

Lemma gap_iff_loss_witness :
  exists o, read (run_ops (new 2) demo_ops) (mkCursor 0 0) 8 = Ok o /\
    (has_gap o = true <->
     exists it, it ∈ history (ops_log demo_ops) /\
       ~ it ∈ items (entries (run_ops (new 2) demo_ops)) /\ behind (mkCursor 0 0) it = false).
Proof.
  eexists. split; [vm_compute; reflexivity|].
  apply (gap_iff_loss (run_ops (new 2) demo_ops) (ops_log demo_ops) (mkCursor 0 0) 8).
  - exact (proj1 (run_ops_spec demo_ops (new 2) [] (new_Repr 2) (new_tail_ok 2))).
  - vm_compute. reflexivity.
Defined.

(** C2: A consumer that keeps the cursor each read returns receives, over any
    interleaving of its reads with appends and as long as no read reports a
    gap, every byte and every control event between its first and its current
    cursor exactly once and in order, whatever the byte budgets of the
    reads. *)
Theorem follower_exactly_once c0 log c d :
  follow c0 log c d -> d = between c0 c log /\ after c0 <= after c <= nbytes log.
Proof.
  intros [Hd [Ha _] Hend _ _]%follow_invariant. done.
Qed.

Lemma follower_exactly_once_witness :
  exists c d, follow (mkCursor 0 0) (ops_log demo_ops ++ []) c d /\
    d = between (mkCursor 0 0) c (ops_log demo_ops ++ []) /\
    0 <= after c <= nbytes (ops_log demo_ops ++ []).
Proof.
  assert (follow (mkCursor 0 0) (ops_log demo_ops ++ [])
    (mkCursor 2 0) ([] ++ [IByte 0 x61; IByte 1 x62])) as H.
  { apply follow_append.
    eapply (follow_read _ _ _ _ (run_ops (new 256) demo_ops) 2 (mkReadOut [EvOutput 2 [x61; x62]] (mkCursor 2 0))).
    - apply follow_start. vm_compute. discriminate.
    - exact (proj1 (run_ops_spec demo_ops (new 256) [] (new_Repr 256) (new_tail_ok 256))).
    - vm_compute. reflexivity.
    - reflexivity. }
  exists (mkCursor 2 0), ([] ++ [IByte 0 x61; IByte 1 x62]). split; [exact H|].
  exact (follower_exactly_once _ _ _ _ H).
Defined.

(** The number of entries a ring keeps is bounded: chunks are packed, so
    there are at most (retained bytes / chunk size) full ones, plus one partial
    chunk for every control entry that interrupts the output and one at the
    tail. *)
Theorem entry_count_bound b ops :
  let r := run_ops (new b) ops in
  entry_count r * piece_max r <=
  retained r + (2 * n_controls (entries r) + 1) * piece_max r.
Proof.
  intros r. destruct (run_ops_spec ops _ _ (new_Repr b) (new_tail_ok b)) as ((g & k & _ & HR) & _).
  fold r in HR. pose proof (run_ops_packed ops (new b) [] (new_Repr b) I) as Hp. fold r in Hp.
  apply packed_count in Hp. rewrite <- (repr_retained _ _ _ HR) in Hp.
  rewrite entry_count_split.
  destruct (entries r) as [|[] es]; lia.
Qed.

(** The tighter bound the module's documentation states, chunks plus
    control entries with the chunk count bounded by budget / chunk size, does
    not hold: controls that interrupt the output leave a partial chunk each. *)
Theorem entry_count_doc_bound_fails :
  exists b ops, let r := run_ops (new b) ops in
  b / piece_max r + n_controls (entries r) < entry_count r.
Proof.
  exists 2048, (concat (repeat [OpPush [x61]; OpControl (CWriterChanged None)] 20)).
  vm_compute. reflexivity.
Qed.

End Ring.
