(* ===== verification/Lease.v ===== *)
(** * The writer lease

    Models [crates/qsh-core/src/broker/lease.rs]: the slot that says which
    connection may write to a session.  A holder has a comparison identity
    ([conn]) and the physical connection on whose death the lease is released
    ([physical]). *)

From S2P Require Import Prelude.

Module Lease.

(** A [ConnectionId] is its number. *)
Abbreviation ConnectionId := N.

Record LeaseHolder := mkHolder {
  principal : string;
  conn : ConnectionId;
  physical : ConnectionId;
}.

#[global] Instance LeaseHolder_eq_dec : EqDecision LeaseHolder.
Proof. solve_decision. Defined.

Inductive TakeOutcome :=
  | Acquired (displaced : option LeaseHolder) (changed : bool)
  | Conflict (holder : LeaseHolder).

(** The slot itself; [WriterLease::new] is [None]. *)
Abbreviation WriterLease := (option LeaseHolder).

Definition new : WriterLease := None.
Definition holder (l : WriterLease) : option LeaseHolder := l.

Definition is_held_by (l : WriterLease) (c : ConnectionId) : bool :=
  match l with Some h => conn h =? c | None => false end.

Definition take_owned (l : WriterLease) (p : string) (owner phys : ConnectionId)
    (no_steal : bool) : TakeOutcome * WriterLease :=
  let replace := (Acquired l true, Some (mkHolder p owner phys)) in
  match l with
  | Some h =>
      if conn h =? owner then (Acquired None false, l)
      else if no_steal && negb (String.eqb (principal h) p) then (Conflict h, l)
      else replace
  | None => replace
  end.

Definition take (l : WriterLease) (p : string) (c : ConnectionId) (no_steal : bool)
    : TakeOutcome * WriterLease := take_owned l p c c no_steal.

Definition release_connection (l : WriterLease) (phys : ConnectionId)
    : option LeaseHolder * WriterLease :=
  match l with
  | Some h => if physical h =? phys then (Some h, None) else (None, l)
  | None => (None, None)
  end.

(** ** Lemmas *)

(** At most one identity passes the write-path check. *)
Lemma is_held_by_unique l c1 c2 : is_held_by l c1 = true -> is_held_by l c2 = true -> c1 = c2.
Proof. destruct l; simpl; lia. Qed.

(** A dead connection's lease is gone, whatever identities it carried. *)
Lemma release_connection_physical l ph r l' :
  release_connection l ph = (r, l') ->
  match l' with Some h => physical h <> ph /\ r = None /\ l = l' | None => True end.
Proof. destruct l as [h|]; simpl; [case_goal|]; intros [= <- <-]; simpl; bools; auto. Qed.

(** Taking the writer lease: a take conflicts only under [no_steal] and
    only against a different principal on a different identity, leaving the
    lease as it was; every other take succeeds, after which exactly the taker
    passes the write check, and the outcome says truthfully whether the lease
    changed hands and who was displaced. *)
Theorem take_owned_spec l p o ph ns :
  match take_owned l p o ph ns with
  | (Conflict h, l') =>
      l = Some h /\ l' = l /\ ns = true /\ principal h <> p /\ is_held_by l o = false
  | (Acquired displaced changed, l') =>
      (forall c, is_held_by l' c = true <-> c = o) /\
      (changed = false <-> is_held_by l o = true) /\
      (changed = true -> displaced = l /\ l' = Some (mkHolder p o ph)) /\
      (changed = false -> displaced = None /\ l' = l)
  end.
Proof.
  unfold take_owned. destruct l as [h|]; simpl.
  - destruct (N.eqb_spec (conn h) o) as [<-|Hne]; [|destruct ns; simpl; [destruct (String.eqb_spec (principal h) p)|]];
      simpl; repeat split; intros; try done; try lia; simplify_eq; lia.
  - repeat split; intros; try done; lia.
Qed.

End Lease.
