(* ===== verification/Signal.v ===== *)
(** * Signals a caller may name

    Models [crates/qsh-core/src/broker/signal.rs]: the closed set of signals
    and the parser that accepts them case-insensitively, with or without the
    [SIG] prefix and with surrounding white space.  A Rust [&str] is the list
    of its characters, a character its Unicode code point. *)

From Stdlib Require Import Ascii.
From S2P Require Import Prelude.

Module Signal.

Inductive Signal := Hup | Int | Quit | Term | Usr1 | Usr2 | Kill.

#[global] Instance Signal_eq_dec : EqDecision Signal.
Proof. solve_decision. Defined.

(** [Signal::ALL] *)
Definition ALL : list Signal := [Hup; Int; Quit; Term; Usr1; Usr2; Kill].

(** The characters of an ASCII literal. *)
Fixpoint lit (s : string) : list N :=
  match s with
  | EmptyString => []
  | String c s' => N_of_ascii c :: lit s'
  end.

(** [char::is_whitespace]: the Unicode [White_Space] property. *)
Definition is_whitespace (c : N) : bool :=
  ((9 <=? c) && (c <=? 13)) || (c =? 32) || (c =? 133) || (c =? 160) || (c =? 5760)
  || ((8192 <=? c) && (c <=? 8202)) || (c =? 8232) || (c =? 8233) || (c =? 8239)
  || (c =? 8287) || (c =? 12288).

Fixpoint trim_start (s : list N) : list N :=
  match s with
  | c :: s' => if is_whitespace c then trim_start s' else s
  | [] => []
  end.

(** [str::trim] *)
Definition trim (s : list N) : list N := reverse (trim_start (reverse (trim_start s))).

(** [to_ascii_uppercase] *)
Definition upper_char (c : N) : N := if (97 <=? c) && (c <=? 122) then c - 32 else c.
Definition to_ascii_uppercase (s : list N) : list N := map upper_char s.

(** [str::strip_prefix] *)
Fixpoint strip_prefix (p s : list N) : option (list N) :=
  match p, s with
  | [], _ => Some s
  | a :: p', b :: s' => if a =? b then strip_prefix p' s' else None
  | _ :: _, [] => None
  end.

(** The match of [Signal::parse] on the bare name. *)
Definition bare_signal (b : list N) : option Signal :=
  if decide (b = lit "HUP") then Some Hup
  else if decide (b = lit "INT") then Some Int
  else if decide (b = lit "QUIT") then Some Quit
  else if decide (b = lit "TERM") then Some Term
  else if decide (b = lit "USR1") then Some Usr1
  else if decide (b = lit "USR2") then Some Usr2
  else if decide (b = lit "KILL") then Some Kill
  else None.

(** [Signal::parse] *)
Definition parse (name : list N) : option Signal :=
  let upper := to_ascii_uppercase (trim name) in
  bare_signal (default upper (strip_prefix (lit "SIG") upper)).

(** [Signal::as_str] *)
Definition as_str (s : Signal) : list N :=
  match s with
  | Hup => lit "SIGHUP"
  | Int => lit "SIGINT"
  | Quit => lit "SIGQUIT"
  | Term => lit "SIGTERM"
  | Usr1 => lit "SIGUSR1"
  | Usr2 => lit "SIGUSR2"
  | Kill => lit "SIGKILL"
  end.

(** ** Lemmas *)

(** The name without its prefix. *)
Definition bare_name (s : Signal) : list N := drop 3 (as_str s).

Lemma bare_signal_spec b s : bare_signal b = Some s <-> b = bare_name s.
Proof.
  unfold bare_signal. split.
  - repeat case_decide; intros [= <-]; by subst.
  - intros ->. by destruct s.
Qed.

Lemma strip_bytes_spec p s r : strip_prefix p s = Some r <-> s = p ++ r.
Proof.
  revert s. induction p as [|a p IH]; intros s; simpl; [naive_solver|].
  destruct s as [|b s]; [done|]. destruct (N.eqb_spec a b) as [->|]; [|naive_solver].
  rewrite IH. naive_solver.
Qed.

Lemma trim_start_ws ws s :
  Forall (fun c => is_whitespace c = true) ws -> trim_start (ws ++ s) = trim_start s.
Proof. induction 1 as [|c ws Hc _ IH]; simpl; [done|]. by rewrite Hc. Qed.

Lemma trim_start_id s : (forall c, head s = Some c -> is_whitespace c = false) -> trim_start s = s.
Proof. destruct s as [|c s]; simpl; [done|]. intros H. by rewrite (H c). Qed.

(** Trimming removes white space around a word that neither starts nor ends
    with it. *)
Lemma trim_around ws1 ws2 w :
  Forall (fun c => is_whitespace c = true) ws1 -> Forall (fun c => is_whitespace c = true) ws2 ->
  (forall c, head w = Some c -> is_whitespace c = false) ->
  (forall c, last w = Some c -> is_whitespace c = false) ->
  trim (ws1 ++ w ++ ws2) = w.
Proof.
  intros H1 H2 Hh Hl. unfold trim. rewrite trim_start_ws by done.
  destruct w as [|c w].
  - simpl. assert (trim_start ws2 = []) as ->; [|done].
    rewrite <- (app_nil_r ws2). by rewrite trim_start_ws.
  - rewrite (trim_start_id ((c :: w) ++ ws2)) by (simpl; naive_solver).
    rewrite reverse_app, trim_start_ws by by apply Forall_reverse.
    rewrite trim_start_id, reverse_involutive; [done|].
    intros d Hd. apply Hl. by rewrite <- Hd, head_reverse.
Qed.

(** The signal parser accepts a name exactly when, surrounding white
    space removed and letters upper-cased, it is one of the seven documented
    names with or without the [SIG] prefix; in particular it inverts the
    printer. *)
Theorem parse_spec ws1 ws2 w s :
  Forall (fun c => is_whitespace c = true) ws1 -> Forall (fun c => is_whitespace c = true) ws2 ->
  (forall c, head w = Some c -> is_whitespace c = false) ->
  (forall c, last w = Some c -> is_whitespace c = false) ->
  (parse (ws1 ++ w ++ ws2) = Some s <->
   to_ascii_uppercase w = as_str s \/ to_ascii_uppercase w = bare_name s) /\
  parse (as_str s) = Some s.
Proof.
  intros H1 H2 Hh Hl. split; [|by destruct s].
  unfold parse. rewrite trim_around by done.
  set (u := to_ascii_uppercase w). rewrite bare_signal_spec.
  assert (as_str s = lit "SIG" ++ bare_name s) as -> by by destruct s.
  destruct (strip_prefix (lit "SIG") u) as [r|] eqn:E; simpl.
  - apply strip_bytes_spec in E as ->. split; [intros ->; by left|].
    intros [H|H]; [by apply (inj (app (lit "SIG"))) in H|]. by destruct s.
  - split; [by right|]. intros [H|H]; [|done]. by rewrite (proj2 (strip_bytes_spec (lit "SIG") u (bare_name s)) H) in E.
Qed.

Lemma parse_spec_witness :
  parse ([32; 9] ++ lit "sigTerm" ++ [10]) = Some Term /\ parse (as_str Term) = Some Term.
Proof.
  split; [|vm_compute; reflexivity].
  refine (proj2 (proj1 (parse_spec [32; 9] [10] (lit "sigTerm") Term _ _ _ _)) _).
  - repeat constructor.
  - repeat constructor.
  - intros c [= <-]. vm_compute. reflexivity.
  - intros c [= <-]. vm_compute. reflexivity.
  - left. vm_compute. reflexivity.
Defined.

End Signal.
