(* ===== verification/Session.v ===== *)
(** * The session actor

    Models [crates/qsh-core/src/broker/session.rs]: the task that owns one
    session, the two I/O tasks beside it (the output pump and the input
    writer), and the operations of [SessionHandle] that touch the shared
    metadata directly.

    A [Session] is everything those tasks share.  An [Event] is one step of
    one of them (or of the environment: the child, the clock, a client);
    [exec] performs it, or returns [None] if it is not enabled.  An event of
    the actor is one arm of its [select!] followed by the head of its loop, as
    in the code.  Times are nanoseconds on the session's clock.

    The host terminal emulator is a parameter: a feed function that returns
    the emulator's answers to terminal queries, and a resize function.  The
    results of the source's own system calls are chosen by the environment.
    [hist] is the history the ring represents and [queued] every chunk the
    input queue ever accepted; no operation reads them. *)

From S2P Require Import Prelude Ring Lease Signal.

Module Session.
Import Ring.

(** ** Data *)

Record SourceExit := mkExit { exit_code : option Z; exit_signal : option string }.

(** [SourceExit::default] *)
Definition default_exit : SourceExit := mkExit None None.

Inductive SessionState := Running | Exited.

#[global] Instance SessionState_eq_dec : EqDecision SessionState.
Proof. solve_decision. Defined.

(** [InputStreamId]s are their numbers. *)
Abbreviation InputStreamId := N.
Definition FIRST_INPUT_STREAM : InputStreamId := 1.
Definition MAX_INPUT_AXES : nat := 32.

Record Meta := mkMeta {
  state : SessionState;
  lease : Lease.WriterLease;
  attached : N;
  ttl_base : N;
  applied_input : gmap InputStreamId N;
  next_input_stream : N;
  m_closing : bool;
  closed_at : option N;
}.

Record TtlWindow := mkWindow {
  w_attached : N;
  w_closing : bool;
  w_state : SessionState;
  w_ttl_base : N;
}.

(** [TtlWindow::reap_reason] *)
Definition reap_reason (w : TtlWindow) (now ttl : N) : option CloseReason :=
  if (0 <? w_attached w) || w_closing w then None
  else if now - w_ttl_base w <? ttl then None
  else Some (match w_state w with Exited => Exit | Running => TtlExpired end).

(** [TtlWindow::deadline] *)
Definition deadline (w : TtlWindow) (now ttl : N) : N :=
  if 0 <? w_attached w then now + ttl else w_ttl_base w + ttl.

(** Response channels are numbered. *)
Abbreviation Resp := N.

Inductive WriteError :=
  | NotWriter
  | NotRunning
  | Backpressure
  | InputGap (start applied : N)
  | Io (e : string)
  | Gone.

Inductive Command :=
  | Write (conn : Lease.ConnectionId) (data : list byte) (input_seq : option (InputStreamId * N))
      (resp : Resp)
  | Resize (cols rows : N) (resp : Resp)
  | ResizeAt (conn : Lease.ConnectionId) (cols rows : N) (resp : Resp)
  | SignalCmd (signal : Signal.Signal) (resp : Resp)
  | TakeLease (principal : string) (conn physical : Lease.ConnectionId) (no_steal : bool) (resp : Resp)
  | ReleaseConnection (conn : Lease.ConnectionId) (resp : Resp)
  | Close (reason : CloseReason) (signal : option Signal.Signal) (resp : Resp).

(** What a response channel can carry. *)
Inductive Reply :=
  | RWrite (r : result N WriteError)
  | RResize (r : result unit string)
  | RResizeAt (r : result unit WriteError)
  | RSignal (r : result unit string)
  | RTake (o : Lease.TakeOutcome)
  | RDone.

Record SessionConfig := mkConfig {
  replay_bytes : N;
  inbox_capacity : N;
  input_queue : N;
  close_grace : N;
  screen_on : bool;
}.

(** [SessionConfig::default] *)
Definition default_config : SessionConfig :=
  mkConfig (8 * 1024 * 1024) 256 64 (5000 * 1000 * 1000) false.

Record Closing := mkClosing {
  c_reason : CloseReason;
  responders : list Resp;
  next_sig : option Signal.Signal;
  timer : N;
  forced : bool;
}.

Record ActorState := mkActor {
  lease_conn : option Lease.ConnectionId;
  exiting : bool;
  output_done : bool;
  exit_appended : bool;
  pending_exit : option SourceExit;
  a_closing : option Closing;
}.

(** An [InputChunk] of the queue in front of the source; the emulator's
    answers carry a channel nobody listens on.  [ch_from] says where the chunk
    came from (an input stream and the offset of its first byte); no operation
    reads it. *)
Record InputChunk := mkChunk {
  ch_data : list byte;
  ch_applied : N;
  ch_resp : option Resp;
  ch_from : option (InputStreamId * N);
}.

(** The pump task: reading, finished (its end-of-output message sent),
    aborted but not yet stopped, stopped by the abort. *)
Inductive PumpState := PumpRunning | PumpEof | PumpAborting | PumpStopped.

#[global] Instance PumpState_eq_dec : EqDecision PumpState.
Proof. solve_decision. Defined.

Record Session (Emu : Type) := mkSession {
  cfg : SessionConfig;
  now : N;
  ring : ReplayRing;
  hist : Log;
  screen : option Emu;
  meta : Meta;
  act : ActorState;
  alive : bool;
  pump : PumpState;
  in_q : list InputChunk;
  queued : list InputChunk;
  writing : option InputChunk;
  child_in : list byte;
  sigs : list Signal.Signal;
  sizes : list (N * N);
  replies : list (Resp * Reply);
}.
Arguments mkSession {Emu}.
Arguments cfg {Emu}. Arguments now {Emu}. Arguments ring {Emu}. Arguments hist {Emu}.
Arguments screen {Emu}. Arguments meta {Emu}. Arguments act {Emu}. Arguments alive {Emu}.
Arguments pump {Emu}. Arguments in_q {Emu}. Arguments queued {Emu}. Arguments writing {Emu}. Arguments child_in {Emu}.
Arguments sigs {Emu}. Arguments sizes {Emu}. Arguments replies {Emu}.

(** ** Field updates *)

Definition upd_meta {Emu} (f : Meta -> Meta) (s : Session Emu) : Session Emu :=
  mkSession (cfg s) (now s) (ring s) (hist s) (screen s) (f (meta s)) (act s) (alive s) (pump s)
    (in_q s) (queued s) (writing s) (child_in s) (sigs s) (sizes s) (replies s).
Definition upd_act {Emu} (f : ActorState -> ActorState) (s : Session Emu) : Session Emu :=
  mkSession (cfg s) (now s) (ring s) (hist s) (screen s) (meta s) (f (act s)) (alive s) (pump s)
    (in_q s) (queued s) (writing s) (child_in s) (sigs s) (sizes s) (replies s).
Definition upd_ring {Emu} (r : ReplayRing) (more : Log) (s : Session Emu) : Session Emu :=
  mkSession (cfg s) (now s) r (hist s ++ more) (screen s) (meta s) (act s) (alive s) (pump s)
    (in_q s) (queued s) (writing s) (child_in s) (sigs s) (sizes s) (replies s).
Definition upd_screen {Emu} (e : option Emu) (s : Session Emu) : Session Emu :=
  mkSession (cfg s) (now s) (ring s) (hist s) e (meta s) (act s) (alive s) (pump s)
    (in_q s) (queued s) (writing s) (child_in s) (sigs s) (sizes s) (replies s).
Definition upd_tasks {Emu} (a : bool) (p : PumpState) (s : Session Emu) : Session Emu :=
  mkSession (cfg s) (now s) (ring s) (hist s) (screen s) (meta s) (act s) a p
    (in_q s) (queued s) (writing s) (child_in s) (sigs s) (sizes s) (replies s).
Definition upd_input {Emu} (q : list InputChunk) (w : option InputChunk) (c : list byte)
    (s : Session Emu) : Session Emu :=
  mkSession (cfg s) (now s) (ring s) (hist s) (screen s) (meta s) (act s) (alive s) (pump s)
    q (queued s) w c (sigs s) (sizes s) (replies s).
Definition enqueue {Emu} (c : InputChunk) (s : Session Emu) : Session Emu :=
  mkSession (cfg s) (now s) (ring s) (hist s) (screen s) (meta s) (act s) (alive s) (pump s)
    (in_q s ++ [c]) (queued s ++ [c]) (writing s) (child_in s) (sigs s) (sizes s) (replies s).
Definition add_signal {Emu} (sig : Signal.Signal) (s : Session Emu) : Session Emu :=
  mkSession (cfg s) (now s) (ring s) (hist s) (screen s) (meta s) (act s) (alive s) (pump s)
    (in_q s) (queued s) (writing s) (child_in s) (sigs s ++ [sig]) (sizes s) (replies s).
Definition add_size {Emu} (c r : N) (s : Session Emu) : Session Emu :=
  mkSession (cfg s) (now s) (ring s) (hist s) (screen s) (meta s) (act s) (alive s) (pump s)
    (in_q s) (queued s) (writing s) (child_in s) (sigs s) (sizes s ++ [(c, r)]) (replies s).
Definition reply {Emu} (resp : Resp) (r : Reply) (s : Session Emu) : Session Emu :=
  mkSession (cfg s) (now s) (ring s) (hist s) (screen s) (meta s) (act s) (alive s) (pump s)
    (in_q s) (queued s) (writing s) (child_in s) (sigs s) (sizes s) (replies s ++ [(resp, r)]).
Definition set_now {Emu} (t : N) (s : Session Emu) : Session Emu :=
  mkSession (cfg s) t (ring s) (hist s) (screen s) (meta s) (act s) (alive s) (pump s)
    (in_q s) (queued s) (writing s) (child_in s) (sigs s) (sizes s) (replies s).

Definition set_lease (l : Lease.WriterLease) (m : Meta) : Meta :=
  mkMeta (state m) l (attached m) (ttl_base m) (applied_input m) (next_input_stream m)
    (m_closing m) (closed_at m).
Definition set_axes (a : gmap InputStreamId N) (m : Meta) : Meta :=
  mkMeta (state m) (lease m) (attached m) (ttl_base m) a (next_input_stream m)
    (m_closing m) (closed_at m).
Definition set_attached (n base : N) (m : Meta) : Meta :=
  mkMeta (state m) (lease m) n base (applied_input m) (next_input_stream m)
    (m_closing m) (closed_at m).
Definition set_closing (m : Meta) : Meta :=
  mkMeta (state m) (lease m) (attached m) (ttl_base m) (applied_input m) (next_input_stream m)
    true (closed_at m).

Definition set_a_closing (c : option Closing) (a : ActorState) : ActorState :=
  mkActor (lease_conn a) (exiting a) (output_done a) (exit_appended a) (pending_exit a) c.
Definition set_lease_conn (c : option Lease.ConnectionId) (a : ActorState) : ActorState :=
  mkActor c (exiting a) (output_done a) (exit_appended a) (pending_exit a) (a_closing a).

(** ** Input axes *)

(** [applied_input.keys().next()]: the smallest key of the [BTreeMap]. *)
Definition oldest_axis (m : gmap InputStreamId N) : option InputStreamId :=
  map_fold (fun k _ acc => Some (match acc with Some k' => k `min` k' | None => k end)) None m.

(** [prune_input_axes]; every round removes a key, so the size bounds the
    rounds. *)
Fixpoint prune_loop (fuel : nat) (m : gmap InputStreamId N) : gmap InputStreamId N :=
  match fuel with
  | O => m
  | S fuel' =>
      if (MAX_INPUT_AXES <? size m)%nat then
        match oldest_axis m with
        | Some k => prune_loop fuel' (delete k m)
        | None => m
        end
      else m
  end.

Definition prune_input_axes (m : gmap InputStreamId N) : gmap InputStreamId N :=
  prune_loop (size m) m.

(** ** Operations *)

Section Operations.
Context {Emu : Type}.
(** [HostScreen::feed] then [take_answers], and [HostScreen::resize]. *)
Variable emu_feed : Emu -> list byte -> N -> Emu * list byte.
Variable emu_resize : Emu -> N -> N -> Emu.

Abbreviation Sess := (Session Emu).

(** [SessionShared::push_control] *)
Definition shared_push_control (ev : ControlEvent) (s : Sess) : Sess :=
  upd_ring (fst (Ring.push_control (ring s) ev)) [ACtl ev] s.

(** [SessionShared::set_state_exited] *)
Definition set_state_exited (s : Sess) : Sess :=
  upd_meta (fun m => mkMeta Exited (lease m) (attached m) (now s) (applied_input m)
    (next_input_stream m) (m_closing m) (closed_at m)) s.

(** [SessionShared::mark_closed] *)
Definition mark_closed (reason : CloseReason) (s : Sess) : Sess :=
  shared_push_control (CClosed reason)
    (upd_meta (fun m => mkMeta (state m) (lease m) (attached m) (ttl_base m) (applied_input m)
      (next_input_stream m) true (Some (now s))) s).

(** [SessionShared::feed_screen] *)
Definition feed_screen (data : list byte) (s : Sess) : Sess * list byte :=
  match screen s with
  | None => (s, [])
  | Some e =>
      let '(e', answers) := emu_feed e data (end_ (ring s) + len data) in
      (upd_screen (Some e') s, answers)
  end.

(** [SessionShared::resize_screen] *)
Definition resize_screen (cols rows : N) (s : Sess) : Sess :=
  match screen s with
  | None => s
  | Some e => upd_screen (Some (emu_resize e rows cols)) s
  end.

(** [SourceControl::resize] and [::signal]: the environment decides whether
    the call succeeds. *)
Definition control_resize (cols rows : N) (res : result unit string) (s : Sess) : Sess :=
  if is_ok res then add_size cols rows s else s.

(** [Sender::try_send] on the bounded input queue. *)
Definition queue_cap (s : Sess) : N := input_queue (cfg s) `max` 1.

Inductive TrySend := Sent (s : Sess) | Full | ClosedQ.

Definition try_send (c : InputChunk) (s : Sess) : TrySend :=
  if negb (alive s) then ClosedQ
  else if len (in_q s) <? queue_cap s
  then Sent (enqueue c s)
  else Full.

(** What [enqueue_write] does with a chunk it lets in at offset [applied]. *)
Inductive Verdict :=
  | AReply (r : result N WriteError)
  | ASend (data : list byte) (next : N).

Definition judge_chunk (data : list byte) (input_seq : option (InputStreamId * N)) (applied : N)
    : Verdict :=
  match input_seq with
  | None => ASend data applied
  | Some (_, seq) =>
      if seq <? len data then AReply (Err (InputGap seq applied))
      else
        let start := seq - len data in
        if applied <? start then AReply (Err (InputGap start applied))
        else
          let skip := applied - start in
          if len data <=? skip then AReply (Ok applied)
          else ASend (dropN skip data) seq
  end.

(** [ActorState::enqueue_write] *)
Definition enqueue_write (conn : Lease.ConnectionId) (data : list byte)
    (input_seq : option (InputStreamId * N)) (resp : Resp) (s : Sess) : Sess :=
  let axis := fst <$> input_seq in
  let m := meta s in
  let admission :=
    if negb (bool_decide (state m = Running)) || m_closing m then Err NotRunning
    else if negb (Lease.is_held_by (lease m) conn) then Err NotWriter
    else Ok (default 0 (axis ≫= fun a => applied_input m !! a)) in
  match admission with
  | Err err =>
      let s1 :=
        match input_seq with
        | Some (stream, seq) =>
            let slot := default 0 (applied_input m !! stream) in
            upd_meta (set_axes (prune_input_axes (<[stream := slot `max` seq]> (applied_input m)))) s
        | None => s
        end in
      reply resp (RWrite (Err err)) s1
  | Ok applied =>
      match judge_chunk data input_seq applied with
      | AReply r => reply resp (RWrite r) s
      | ASend data' next =>
          match try_send (mkChunk data' next (Some resp) ((fun a => (a, applied)) <$> axis)) s with
          | Sent s1 =>
              match axis with
              | Some stream => upd_meta (set_axes (<[stream := next]> (applied_input m))) s1
              | None => s1
              end
          | Full => reply resp (RWrite (Err Backpressure)) s
          | ClosedQ => reply resp (RWrite (Err Gone)) s
          end
      end
  end.

(** The step after a first signal, and after an escalation signal. *)
Definition after_first (first : Signal.Signal) : option Signal.Signal :=
  match first with
  | Signal.Kill => None
  | Signal.Term => Some Signal.Kill
  | _ => Some Signal.Term
  end.
Definition after_step (sig : Signal.Signal) : option Signal.Signal :=
  match sig with
  | Signal.Kill => None
  | _ => Some Signal.Kill
  end.

(** [ActorState::begin_close] *)
Definition begin_close (reason : CloseReason) (signal : option Signal.Signal) (resp : Resp)
    (s : Sess) : Sess :=
  match a_closing (act s) with
  | Some c =>
      upd_act (set_a_closing (Some (mkClosing (c_reason c) (responders c ++ [resp]) (next_sig c)
        (timer c) (forced c)))) s
  | None =>
      let exited := bool_decide (state (meta s) = Exited) || exiting (act s) in
      let s1 := upd_meta set_closing s in
      let '(next, s2) :=
        if exited then (None, s1)
        else
          let first := default Signal.Hup signal in
          (after_first first, add_signal first s1) in
      upd_act (set_a_closing
        (Some (mkClosing reason [resp] next (now s + close_grace (cfg s)) false))) s2
  end.

(** [ActorState::escalate] *)
Definition escalate (s : Sess) : Sess :=
  match a_closing (act s) with
  | None => s
  | Some c =>
      match next_sig c with
      | Some sig =>
          upd_act (set_a_closing (Some (mkClosing (c_reason c) (responders c) (after_step sig)
            (now s + close_grace (cfg s)) (forced c)))) (add_signal sig s)
      | None =>
          upd_act (set_a_closing (Some (mkClosing (c_reason c) (responders c) None (timer c) true))) s
      end
  end.

(** [ActorState::handle_command]; [res] is the result of the source's own
    call, where the command makes one. *)
Definition handle_command (cmd : Command) (res : result unit string) (s : Sess) : Sess :=
  match cmd with
  | Write conn data input_seq resp => enqueue_write conn data input_seq resp s
  | Resize cols rows resp =>
      let s1 := control_resize cols rows res s in
      let s2 := if is_ok res then resize_screen cols rows s1 else s1 in
      reply resp (RResize res) s2
  | ResizeAt conn cols rows resp =>
      if negb (Lease.is_held_by (lease (meta s)) conn)
      then reply resp (RResizeAt (Err NotWriter)) s
      else
        let s1 := control_resize cols rows res s in
        let s2 := if is_ok res then resize_screen cols rows s1 else s1 in
        reply resp (RResizeAt (map_err Io res)) s2
  | SignalCmd signal resp =>
      let running := bool_decide (state (meta s) = Running) && negb (m_closing (meta s))
                     && negb (exiting (act s)) in
      if running then reply resp (RSignal res) (add_signal signal s)
      else reply resp (RSignal (Err "session is not running"%string)) s
  | TakeLease principal conn physical no_steal resp =>
      let '(outcome, l) := Lease.take_owned (lease (meta s)) principal conn physical no_steal in
      let s1 := upd_meta (set_lease l) s in
      let s2 :=
        match outcome with
        | Lease.Acquired _ true =>
            shared_push_control (CWriterChanged (Some principal))
              (upd_act (set_lease_conn (Some physical)) s1)
        | _ => s1
        end in
      reply resp (RTake outcome) s2
  | ReleaseConnection conn resp =>
      let '(released, l) := Lease.release_connection (lease (meta s)) conn in
      let s1 := upd_meta (set_lease l) s in
      let s2 :=
        match released with
        | Some _ =>
            shared_push_control (CWriterChanged None)
              (if bool_decide (lease_conn (act s1) = Some conn)
               then upd_act (set_lease_conn None) s1 else s1)
        | None => s1
        end in
      reply resp RDone s2
  | Close reason signal resp => begin_close reason signal resp s
  end.

(** ** The actor's loop *)

(** The head of the loop: once the child is gone and its output drained,
    append the exit entry exactly once. *)
Definition append_exit (s : Sess) : Sess :=
  let a := act s in
  if exiting a && output_done a && negb (exit_appended a) then
    let exit := default default_exit (pending_exit a) in
    set_state_exited
      (shared_push_control (CExit (exit_code exit) (exit_signal exit))
        (upd_act (fun a => mkActor (lease_conn a) (exiting a) (output_done a) true None (a_closing a)) s))
  else s.

(** After the loop: stop the I/O tasks, append [Closed], answer the closers.
    [abort] only requests the pump's end; the queue is dropped, so writers
    still waiting learn that the session is gone. *)
Definition finalise (s : Sess) : Sess :=
  let s1 := upd_tasks false (match pump s with PumpRunning => PumpAborting | p => p end) s in
  let dropped := omap (fun c => (fun r => (r, RWrite (Err Gone))) <$> ch_resp c) (in_q s) in
  let s2 := upd_input [] (writing s1) (child_in s1) s1 in
  let reason := match a_closing (act s) with Some c => c_reason c | None => Closed end in
  let resps := match a_closing (act s) with Some c => responders c | None => [] end in
  let s3 := mark_closed reason (upd_act (set_a_closing None) s2) in
  fold_left (fun st r => reply (fst r) (snd r) st)
    (dropped ++ map (fun r => (r, RDone)) resps) s3.

(** The head of the loop up to its [break]. *)
Definition loop_top (s : Sess) : Sess :=
  let s1 := append_exit s in
  match a_closing (act s1) with
  | Some c => if exit_appended (act s1) || forced c then finalise s1 else s1
  | None => s1
  end.

(** ** Steps *)

Inductive Event :=
  | PumpRead (data : list byte)
  | PumpEnd
  | PumpStop
  | OutputDone
  | ChildExit (status : SourceExit)
  | Cmd (c : Command) (res : result unit string)
  | TimerFires
  | InboxClosed
  | WriterRecv
  | WriterDone (res : result unit string) (written : N)
  | WriterAborted
  | Attach
  | Detach
  | Reserve
  | Seed (id : InputStreamId) (from : option InputStreamId)
  | Tick (dt : N).

(** One iteration of the output pump. *)
Definition pump_read (data : list byte) (s : Sess) : Sess :=
  let '(s1, answers) := feed_screen data s in
  let s2 := upd_ring (Ring.push (ring s1) data) (map AByte data) s1 in
  match answers with
  | [] => s2
  | _ => match try_send (mkChunk answers 0 None None) s2 with Sent s3 => s3 | _ => s2 end
  end.

(** The end of one [write_all] and [flush]: on failure an unknown prefix
    reached the child. *)
Definition writer_done (c : InputChunk) (res : result unit string) (written : N) (s : Sess) : Sess :=
  let sent := match res with Ok _ => ch_data c | Err _ => takeN written (ch_data c) end in
  let s1 := upd_input (in_q s) None (child_in s ++ sent) s in
  match ch_resp c with
  | Some r =>
      reply r (RWrite (match res with Ok _ => Ok (ch_applied c) | Err e => Err (Io e) end)) s1
  | None => s1
  end.

(** [SessionHandle::attach_guard] and [AttachGuard::drop] *)
Definition attach_guard (s : Sess) : Sess :=
  upd_meta (fun m => set_attached (attached m + 1) (ttl_base m) m) s.
Definition attach_drop (s : Sess) : Sess :=
  upd_meta (fun m =>
    let n := attached m - 1 in
    set_attached n (if n =? 0 then now s else ttl_base m) m) s.

(** [SessionHandle::reserve_input_stream] *)
Definition reserve_input_stream (s : Sess) : InputStreamId * Sess :=
  let id := next_input_stream (meta s) in
  (id, upd_meta (fun m => mkMeta (state m) (lease m) (attached m) (ttl_base m) (applied_input m)
         (id + 1) (m_closing m) (closed_at m)) s).

(** [SessionHandle::seed_input_stream] *)
Definition seed_input_stream (id : InputStreamId) (from : option InputStreamId) (s : Sess)
    : N * Sess :=
  let start := default 0 (from ≫= fun prev => applied_input (meta s) !! prev) in
  (start, upd_meta (set_axes (prune_input_axes (<[id := start]> (applied_input (meta s))))) s).

(** One step, if it is enabled. *)
Definition exec (s : Sess) (e : Event) : option Sess :=
  match e with
  | PumpRead data =>
      if (bool_decide (pump s = PumpRunning) || bool_decide (pump s = PumpAborting))
         && (0 <? len data) && (len data <=? RING_CHUNK_MAX)
      then Some (pump_read data s) else None
  | PumpEnd =>
      if bool_decide (pump s = PumpRunning) then Some (upd_tasks (alive s) PumpEof s) else None
  | PumpStop =>
      if bool_decide (pump s = PumpAborting) then Some (upd_tasks (alive s) PumpStopped s) else None
  | OutputDone =>
      if alive s && bool_decide (pump s = PumpEof) && negb (output_done (act s))
      then Some (loop_top (upd_act (fun a => mkActor (lease_conn a) (exiting a) true
             (exit_appended a) (pending_exit a) (a_closing a)) s))
      else None
  | ChildExit status =>
      if alive s && negb (exiting (act s))
      then Some (loop_top (upd_act (fun a => mkActor (lease_conn a) true (output_done a)
             (exit_appended a) (Some status) (a_closing a)) s))
      else None
  | Cmd c res => if alive s then Some (loop_top (handle_command c res s)) else None
  | TimerFires =>
      match a_closing (act s) with
      | Some c => if alive s && (timer c <=? now s) then Some (loop_top (escalate s)) else None
      | None => None
      end
  | InboxClosed => if alive s then Some (finalise s) else None
  | WriterRecv =>
      match in_q s, writing s with
      | c :: q, None => if alive s then Some (upd_input q (Some c) (child_in s) s) else None
      | _, _ => None
      end
  | WriterDone res written =>
      match writing s with
      | Some c => Some (writer_done c res written s)
      | None => None
      end
  | WriterAborted =>
      match writing s with
      | Some c =>
          if alive s then None
          else
            let s1 := upd_input (in_q s) None (child_in s) s in
            Some (match ch_resp c with Some r => reply r (RWrite (Err Gone)) s1 | None => s1 end)
      | None => None
      end
  | Attach => Some (attach_guard s)
  | Detach => if 0 <? attached (meta s) then Some (attach_drop s) else None
  | Reserve => Some (snd (reserve_input_stream s))
  | Seed id from => Some (snd (seed_input_stream id from s))
  | Tick dt => Some (set_now (now s + dt) s)
  end.

Fixpoint exec_all (s : Sess) (es : list Event) : option Sess :=
  match es with
  | [] => Some s
  | e :: es' => match exec s e with Some s' => exec_all s' es' | None => None end
  end.

(** [SessionActor::create], for a source that spawned. *)
Definition create (config : SessionConfig) (emu : Emu) (t : N) : Sess :=
  mkSession config t (Ring.new (replay_bytes config)) []
    (if screen_on config then Some emu else None)
    (mkMeta Running Lease.new 0 t {[ FIRST_INPUT_STREAM := 0 ]} (FIRST_INPUT_STREAM + 1) false None)
    (mkActor None false false false None None)
    true PumpRunning [] [] None [] [] [] [].

(** Every state a session can be in. *)
Definition reachable (s : Sess) : Prop :=
  exists config emu t es, exec_all (create config emu t) es = Some s.

(** [SessionHandle::ttl_window] *)
Definition ttl_window (s : Sess) : TtlWindow :=
  mkWindow (attached (meta s)) (m_closing (meta s)) (state (meta s)) (ttl_base (meta s)).

End Operations.

(** ** The shape of a session's history

    Output and writer changes, then at most one exit, then writer changes,
    then at most one [Closed]; after a [Closed] that follows the exit nothing
    at all, after one that does not only output the stopping pump still had in
    hand.  (The comment on the control entries of the ring calls [Closed] the
    last entry always; an aborted pump is not joined, and the code does not
    keep to it.) *)

Inductive Phase := PLive | PExited | PClosed (drained : bool).

Definition phase_step (p : Phase) (a : Append) : option Phase :=
  match p, a with
  | PLive, AByte _ => Some PLive
  | PLive, ACtl (CWriterChanged _) => Some PLive
  | PLive, ACtl (CExit _ _) => Some PExited
  | PLive, ACtl (CClosed _) => Some (PClosed false)
  | PExited, ACtl (CWriterChanged _) => Some PExited
  | PExited, ACtl (CClosed _) => Some (PClosed true)
  | PClosed false, AByte _ => Some (PClosed false)
  | _, _ => None
  end.

Fixpoint phase_run (p : Phase) (log : Log) : option Phase :=
  match log with
  | [] => Some p
  | a :: log' => match phase_step p a with Some p' => phase_run p' log' | None => None end
  end.

Lemma phase_run_app p l1 l2 :
  phase_run p (l1 ++ l2) = phase_run p l1 ≫= fun p' => phase_run p' l2.
Proof.
  revert p. induction l1 as [|a l1 IH]; intros p; simpl; [done|].
  destruct (phase_step p a); [apply IH|done].
Qed.

Lemma phase_run_bytes p d : p = PLive \/ p = PClosed false -> phase_run p (map AByte d) = Some p.
Proof. intros [-> | ->]; induction d as [|b d IH]; simpl; auto. Qed.

(** ** Invariant *)

Section Invariant.
Context {Emu : Type}.
Variable emu_feed : Emu -> list byte -> N -> Emu * list byte.
Variable emu_resize : Emu -> N -> N -> Emu.

Abbreviation Sess := (Session Emu).
Abbreviation handle_command := (handle_command emu_resize).
Abbreviation exec := (exec emu_feed emu_resize).
Abbreviation exec_all := (exec_all emu_feed emu_resize).

(** The phase the actor is in. *)
Definition phase_of (s : Sess) : Phase :=
  let x := exit_appended (act s) in
  if alive s then (if x then PExited else PLive) else PClosed x.

Definition closing_ok (a : ActorState) : Prop :=
  match a_closing a with
  | Some c => next_sig c <> Some Signal.Hup /\ next_sig c <> Some Signal.Int /\
      next_sig c <> Some Signal.Quit /\ next_sig c <> Some Signal.Usr1 /\
      next_sig c <> Some Signal.Usr2
  | None => True
  end.

Record Core (s : Sess) : Prop := {
  core_repr : Repr (ring s) (hist s);
  core_phase : phase_run PLive (hist s) = Some (phase_of s);
  core_pump : output_done (act s) = true -> pump s = PumpEof;
  core_pump_alive : alive s = true -> pump s = PumpRunning \/ pump s = PumpEof;
  core_pump_dead : alive s = false -> pump s <> PumpRunning;
  core_last : alive s = false -> pump s = PumpEof -> exists pre reason, hist s = pre ++ [ACtl (CClosed reason)];
  core_exit : exit_appended (act s) = true -> exiting (act s) = true /\ output_done (act s) = true;
  core_state : state (meta s) = Exited <-> exit_appended (act s) = true;
  core_next : closing_ok (act s);
  core_closing : alive s = true -> m_closing (meta s) = true <-> a_closing (act s) <> None;
  core_closed : alive s = false ->
    m_closing (meta s) = true /\ a_closing (act s) = None /\ is_Some (closed_at (meta s));
  core_open : alive s = true -> closed_at (meta s) = None;
  core_time : ttl_base (meta s) <= now s;
  core_queue : len (in_q s) <= queue_cap s;
  core_drained : alive s = false -> in_q s = [];
  core_timer : forall c, a_closing (act s) = Some c -> timer c <= now s + close_grace (cfg s);
}.

(** Between two steps a close in progress is neither forced nor drained: the
    head of the loop would have ended it. *)
Definition at_rest (s : Sess) : Prop :=
  forall c, a_closing (act s) = Some c -> forced c = false /\ exit_appended (act s) = false.

Record Inv (s : Sess) : Prop := { inv_core : Core s; inv_rest : at_rest s }.

Lemma Core_reply r x s : Core s -> Core (reply r x s).
Proof. intros []; split; done. Qed.

Lemma Core_fold_reply rs s :
  Core s -> Core (fold_left (fun st r => reply (fst r) (snd r) st) rs s).
Proof. revert s. induction rs as [|r rs IH]; intros s H; simpl; [done|]. by apply IH, Core_reply. Qed.

Lemma push_control_Repr r log ev :
  Repr r log -> Repr (fst (Ring.push_control r ev)) (log ++ [ACtl ev]).
Proof.
  intros H. destruct (Ring.push_control r ev) as [r' [q i]] eqn:E.
  by apply (push_control_spec _ _ _ _ _ _ H) in E as [? _].
Qed.

(** Appending a control the current phase allows. *)
Lemma Core_push_writer w s :
  Core s -> alive s = true -> Core (shared_push_control (CWriterChanged w) s).
Proof.
  intros [] Ha. split; cbn [shared_push_control upd_ring ring hist act alive pump meta now in_q]; try done; try (intros; congruence).
  - by apply push_control_Repr.
  - rewrite phase_run_app, core_phase0. unfold phase_of. simpl. rewrite Ha.
    by destruct (exit_appended (act s)).
Qed.

Lemma Core_lease l s : Core s -> Core (upd_meta (set_lease l) s).
Proof. intros []; split; done. Qed.

Lemma Core_lease_conn c s : Core s -> Core (upd_act (set_lease_conn c) s).
Proof. intros []; split; done. Qed.

Lemma Core_axes a s : Core s -> Core (upd_meta (set_axes a) s).
Proof. intros []; split; done. Qed.

Lemma Core_signal sig s : Core s -> Core (add_signal sig s).
Proof. intros []; split; done. Qed.

Lemma Core_resize c r res s : Core s -> Core (control_resize c r res s).
Proof. unfold control_resize. destruct (is_ok res); [|done]. intros []; split; done. Qed.

Lemma Core_resize_screen c r s : Core s -> Core (resize_screen emu_resize c r s).
Proof. unfold resize_screen. destruct (screen s); [|done]. intros []; split; done. Qed.

Lemma Core_try_send c s s' : Core s -> try_send c s = Sent s' -> Core s'.
Proof.
  unfold try_send. destruct (alive s) eqn:Ha; [|done]. simpl.
  destruct (N.ltb_spec (len (in_q s)) (queue_cap s)); [|done]. intros [] [= <-].
  split; try done; cbn [enqueue in_q alive]; [|congruence].
  unfold queue_cap in *. cbn [enqueue cfg]. len_lia.
Qed.

Lemma try_send_frame c (s s' : Sess) : try_send c s = Sent s' ->
  meta s' = meta s /\ alive s' = alive s /\ act s' = act s.
Proof. unfold try_send. repeat case_match; try done. by intros [= <-]. Qed.

#[local] Hint Resolve Core_reply Core_lease Core_lease_conn Core_axes Core_signal Core_resize
  Core_resize_screen Core_push_writer : qsh.

Lemma Core_enqueue_write conn data q resp s :
  Core s -> Core (enqueue_write conn data q resp s).
Proof.
  intros H. unfold enqueue_write.
  destruct (if _ || m_closing _ then _ else _) as [applied|err].
  - destruct (judge_chunk data q applied) as [r|d next]; [auto with qsh|].
    destruct (try_send _ s) as [s1| |] eqn:E; [|auto with qsh..].
    apply Core_try_send in E; [|done]. destruct (fst <$> q); auto with qsh.
  - apply Core_reply. destruct q as [[]|]; auto with qsh.
Qed.

Lemma Core_begin_close reason sig resp s :
  Core s -> alive s = true -> Core (begin_close reason sig resp s).
Proof.
  intros [] Ha. unfold begin_close. destruct (a_closing (act s)) as [c|] eqn:Ec.
  - split; try done; unfold closing_ok in *; cbn in *; rewrite ?Ec in *; try done.
    + intros _. split; [done|]. intros _. by apply core_closing0.
    + intros Hf. congruence.
    + intros c' [= <-]. simpl. by apply core_timer0.
  - destruct (bool_decide _ || exiting _).
    + split; try done; cbn; try done; [intros Hf; congruence|]. intros c' [= <-]. done.
    + split; try done; unfold closing_ok; cbn; try done.
      * by destruct (default Signal.Hup sig).
      * intros Hf. congruence.
      * intros c' [= <-]. done.
Qed.

Lemma Core_handle_command cmd res s :
  Core s -> alive s = true -> Core (handle_command cmd res s).
Proof.
  intros H Ha. destruct cmd; cbn [Session.handle_command].
  - by apply Core_enqueue_write.
  - apply Core_reply. destruct (is_ok res); auto with qsh.
  - destruct (negb _); [auto with qsh|]. apply Core_reply. destruct (is_ok res); auto with qsh.
  - destruct (_ && _); auto with qsh.
  - destruct (Lease.take_owned _ _ _ _ _) as [[d [|]|h] l]; apply Core_reply; auto with qsh.
  - destruct (Lease.release_connection _ _) as [[h|] l]; apply Core_reply; [|auto with qsh].
    apply Core_push_writer; [case_match; auto with qsh|by case_match].
  - by apply Core_begin_close.
Qed.

Lemma alive_handle_command cmd res (s : Sess) : alive (handle_command cmd res s) = alive s.
Proof.
  destruct cmd; cbn [Session.handle_command].
  - unfold enqueue_write. repeat (case_match; try done). all: simpl.
    all: match goal with H : try_send _ _ = Sent _ |- _ => by apply try_send_frame in H as (_ & -> & _) end.
  - unfold control_resize, resize_screen. by destruct (is_ok res); repeat case_match.
  - unfold control_resize, resize_screen. by destruct (is_ok res); repeat case_match.
  - by case_match.
  - by destruct (Lease.take_owned _ _ _ _ _) as [[d [|]|h] l].
  - destruct (Lease.release_connection _ _) as [[h|] l]; [|done]. simpl. by case_match.
  - unfold begin_close. destruct (a_closing _); [done|]. by destruct (bool_decide _ || _).
Qed.

Lemma alive_escalate (s : Sess) : alive (escalate s) = alive s.
Proof. unfold escalate. by repeat case_match. Qed.

Lemma Core_escalate s : Core s -> alive s = true -> Core (escalate s).
Proof.
  intros H Ha. unfold escalate. destruct (a_closing (act s)) as [c|] eqn:Ec; [|done]. destruct H.
  assert (m_closing (meta s) = true) as Hm by (apply core_closing0; [done|by rewrite Ec]).
  destruct (next_sig c) as [sig|] eqn:En.
  - split; try done; unfold closing_ok in *; cbn; rewrite ?Ec in *; try done.
    + by destruct sig.
    + intros Hf. congruence.
    + intros c' [= <-]. done.
  - split; try done; unfold closing_ok in *; cbn; rewrite ?Ec in *; try done.
    + intros Hf. congruence.
    + intros c' [= <-]. simpl. by apply core_timer0.
Qed.

Lemma Core_append_exit s : Core s -> alive s = true -> Core (append_exit s).
Proof.
  intros H Ha. unfold append_exit.
  destruct (exiting (act s)) eqn:E1; [|done]. destruct (output_done (act s)) eqn:E2; [|done].
  destruct (exit_appended (act s)) eqn:E3; [done|]. simpl. destruct H.
  split; cbn; try done; try (intros; congruence).
  - by apply push_control_Repr.
  - rewrite phase_run_app, core_phase0. unfold phase_of. cbn. by rewrite Ha, E3.
Qed.

Lemma alive_append_exit (s : Sess) : alive (append_exit s) = alive s.
Proof. unfold append_exit. by destruct (_ && _). Qed.

Lemma Core_finalise s : Core s -> alive s = true -> Core (finalise s).
Proof.
  intros H Ha. unfold finalise. apply Core_fold_reply. destruct H.
  destruct (core_pump_alive0 Ha) as [Hp|Hp].
  all: split; cbn; try done; rewrite ?Hp; try done.
  all: try by apply push_control_Repr.
  all: try (rewrite phase_run_app, core_phase0; unfold phase_of; cbn; rewrite Ha;
    by destruct (exit_appended (act s))).
  all: try (rewrite len_nil; lia).
  - intros Ho%core_pump0. congruence.
  - intros _ _. by eexists _, _.
Qed.

Lemma fold_reply_frame rs (s : Sess) :
  let s' := fold_left (fun st r => reply (fst r) (snd r) st) rs s in
  act s' = act s /\ alive s' = alive s /\ sigs s' = sigs s /\ meta s' = meta s /\
  hist s' = hist s /\ pump s' = pump s /\ child_in s' = child_in s /\ writing s' = writing s /\
  in_q s' = in_q s /\ cfg s' = cfg s /\ now s' = now s.
Proof.
  revert s. induction rs as [|r rs IH]; intros s; [done|]. simpl.
  specialize (IH (reply (fst r) (snd r) s)). simpl in IH. exact IH.
Qed.

Lemma finalise_act (s : Sess) : alive (finalise s) = false /\ a_closing (act (finalise s)) = None.
Proof.
  unfold finalise. match goal with |- context [fold_left _ ?rs ?x] =>
    destruct (fold_reply_frame rs x) as (-> & -> & _) end. done.
Qed.

Lemma Inv_loop_top s : Core s -> alive s = true -> Inv (loop_top s).
Proof.
  intros H Ha. apply Core_append_exit in H; [|done].
  rewrite <- (alive_append_exit s) in Ha. unfold loop_top.
  set (s1 := append_exit s) in *. clearbody s1.
  destruct (a_closing (act s1)) as [c|] eqn:Ec; [|split; [done|]; intros c; congruence].
  destruct (exit_appended (act s1) || forced c) eqn:E.
  - split; [by apply Core_finalise|]. intros c'. by rewrite (proj2 (finalise_act s1)).
  - split; [done|]. intros c' Hc. apply orb_false_iff in E. naive_solver.
Qed.

Lemma Core_pump_read d s :
  Core s -> pump s = PumpRunning \/ pump s = PumpAborting -> Core (pump_read emu_feed d s).
Proof.
  intros H Hp. unfold pump_read.
  destruct (feed_screen emu_feed d s) as [s1 answers] eqn:E.
  assert (Core s1 /\ pump s1 = pump s /\ alive s1 = alive s) as (H1 & Hp1 & Ha1).
  { unfold feed_screen in E. destruct (screen s); [|by simplify_eq].
    destruct (emu_feed _ _ _). injection E as <- _. split; [|done]. destruct H. by split. }
  assert (Core (upd_ring (Ring.push (ring s1) d) (map AByte d) s1)) as H2.
  { destruct H1. split; cbn; try done.
    - by apply push_spec.
    - rewrite phase_run_app, core_phase0. unfold phase_of. simpl.
      assert (exit_appended (act s1) = false) as ->.
      { destruct (exit_appended (act s1)); [|done].
        destruct core_exit0 as [_ Hq%core_pump0]; [done|]. destruct Hp; congruence. }
      destruct (alive s1); apply phase_run_bytes; auto.
    - intros _ Hq. destruct Hp; congruence. }
  destruct answers; [done|]. destruct (try_send _ _) eqn:Et; [|done..].
  by eapply Core_try_send.
Qed.

(** The part of the state [at_rest] reads. *)
Lemma rest_frame (s s' : Sess) : act s' = act s -> at_rest s -> at_rest s'.
Proof. intros He H c. rewrite He. apply H. Qed.

Lemma pump_read_act d (s : Sess) : act (pump_read emu_feed d s) = act s.
Proof.
  unfold pump_read, feed_screen. destruct (screen s); [destruct (emu_feed _ _ _) as [? []]|];
    simpl; try done.
  destruct (try_send _ _) as [s'| |] eqn:E; [|done..]. by apply try_send_frame in E as (_ & _ & ->).
Qed.

(** Events of the actor's loop end in the loop's head. *)
Lemma Inv_exec_actor s e s' :
  Inv s -> exec s e = Some s' ->
  match e with OutputDone | ChildExit _ | Cmd _ _ | TimerFires | InboxClosed => True | _ => False end ->
  Inv s'.
Proof.
  intros [H Hr] He Hk. destruct e; try done; cbn [Session.exec] in He.
  - destruct (alive s) eqn:Ha; [|done]. case_bool_decide as E; [|done].
    destruct (output_done (act s)) eqn:E2; [done|]. injection He as <-.
    apply Inv_loop_top; [|done]. destruct H. split; cbn; try done.
    intros Hx. by destruct (core_exit0 Hx) as [? _].
  - destruct (alive s) eqn:Ha; [|done]. destruct (exiting (act s)) eqn:E2; [done|].
    injection He as <-. apply Inv_loop_top; [|done]. destruct H. split; cbn; try done.
    intros Hx. by destruct (core_exit0 Hx) as [_ ?].
  - destruct (alive s) eqn:Ha; [|done]. injection He as <-.
    apply Inv_loop_top; [by apply Core_handle_command|]. by rewrite alive_handle_command.
  - destruct (a_closing (act s)) as [c|] eqn:Ec; [|done].
    destruct (alive s) eqn:Ha; [|done]. simpl in He. case_match; [|done]. injection He as <-.
    apply Inv_loop_top; [by apply Core_escalate|]. by rewrite alive_escalate.
  - destruct (alive s) eqn:Ha; [|done]. injection He as <-.
    split; [by apply Core_finalise|]. intros c'. by rewrite (proj2 (finalise_act s)).
Qed.

(** Every other event leaves the actor's own state alone. *)
Lemma Inv_exec s e s' : Inv s -> exec s e = Some s' -> Inv s'.
Proof.
  intros HI He. pose proof HI as [H Hr].
  destruct e; try (by eapply Inv_exec_actor); cbn [Session.exec] in He.
  - case_match eqn:E; [|done]. injection He as <-. apply andb_true_iff in E as [E _].
    apply andb_true_iff in E as [E _]. split.
    + apply Core_pump_read; [done|]. apply orb_true_iff in E as [E|E]; bools; auto.
    + eapply rest_frame, Hr. apply pump_read_act.
  - case_bool_decide as E; [|done]. injection He as <-.
    split; [|by eapply rest_frame, Hr]. destruct H. split; cbn; auto. intros Hd. by apply core_pump_dead0 in Hd.
  - case_bool_decide as E; [|done]. injection He as <-.
    split; [|by eapply rest_frame, Hr]. destruct H. split; cbn; auto.
    + intros Ho%core_pump0. congruence.
    + intros [|]%core_pump_alive0; congruence.
    + done.
  - destruct (in_q s) as [|c q] eqn:Eq; [done|]. destruct (writing s); [done|].
    destruct (alive s) eqn:Ha; [|done]. injection He as <-.
    split; [|by eapply rest_frame, Hr]. destruct H. split; cbn; try done; [|congruence].
    rewrite Eq, len_cons in core_queue0. unfold queue_cap in *. simpl. lia.
  - destruct (writing s) as [c|]; [|done]. injection He as <-. unfold writer_done.
    split; [|by destruct (ch_resp c); eapply rest_frame, Hr].
    destruct (ch_resp c); [apply Core_reply|]; destruct H; by split.
  - destruct (writing s) as [c|]; [|done]. destruct (alive s) eqn:Ha; [done|]. injection He as <-.
    split; [|by destruct (ch_resp c); eapply rest_frame, Hr].
    destruct (ch_resp c); [apply Core_reply|]; destruct H; by split.
  - injection He as <-. split; [destruct H; by split|by eapply rest_frame, Hr].
  - case_match; [|done]. injection He as <-. split; [|by eapply rest_frame, Hr].
    destruct H. split; cbn; try done. case_match; lia.
  - injection He as <-. split; [destruct H; by split|by eapply rest_frame, Hr].
  - injection He as <-. split; [by apply Core_axes|by eapply rest_frame, Hr].
  - injection He as <-. split; [|by eapply rest_frame, Hr].
    destruct H. split; cbn; try done; [lia|]. intros c Hc%core_timer0. lia.
Qed.

Lemma Inv_exec_all es s s' : Inv s -> exec_all s es = Some s' -> Inv s'.
Proof.
  revert s. induction es as [|e es IH]; intros s H; simpl; [by intros [= <-]|].
  destruct (exec s e) as [s1|] eqn:E; [|done]. apply IH. by eapply Inv_exec.
Qed.

Lemma Inv_create config emu t : Inv (create config emu t).
Proof.
  split; [|done]. split; cbn; try done.
  - apply new_Repr.
  - by left.
  - rewrite len_nil. apply N.le_0_l.
Qed.

Lemma Inv_reachable s : reachable emu_feed emu_resize s -> Inv s.
Proof. intros (config & emu & t & es & H). eapply Inv_exec_all; [apply Inv_create|done]. Qed.

End Invariant.

End Session.
