(* ===== verification/SessionLife.v ===== *)
(** * The life of a session

    Properties of the actor of [crates/qsh-core/src/broker/session.rs]
    (modelled in [Session]): the order of output, exit and close in the
    session's history; the close escalation and its termination; signals and
    the child's exit; the resume TTL; who may write. *)

From S2P Require Import Prelude Ring Lease Signal Session.

Module SessionLife.
Import Ring Session.

(** ** Histories *)

(** What the phase automaton says about the part of a history after a given
    entry. *)
Lemma phase_run_split p log pre a post :
  phase_run PLive log = Some p -> log = pre ++ a :: post ->
  exists p1 p2, phase_run PLive pre = Some p1 /\ phase_step p1 a = Some p2 /\ phase_run p2 post = Some p.
Proof.
  intros H ->. rewrite phase_run_app in H. destruct (phase_run PLive pre) as [p1|]; [|done].
  simpl in H. destruct (phase_step p1 a) as [p2|] eqn:E; [|done]. eauto.
Qed.

Definition is_byte (a : Append) : Prop := match a with AByte _ => True | ACtl _ => False end.
Definition is_exit (a : Append) : Prop := match a with ACtl (CExit _ _) => True | _ => False end.

Lemma phase_closed_true post p : phase_run (PClosed true) post = Some p -> post = [].
Proof. by destruct post as [|[|[]] post]. Qed.

Lemma phase_closed_false post p :
  phase_run (PClosed false) post = Some p -> Forall is_byte post /\ p = PClosed false.
Proof.
  revert p. induction post as [|a post IH]; intros p; simpl; [by intros [= <-]|].
  destruct a as [b|[]]; simpl; try done. intros [? ?]%IH. split; [by constructor|done].
Qed.

Lemma phase_exited post p :
  phase_run PExited post = Some p ->
  Forall (fun a => ~ is_byte a /\ ~ is_exit a) post /\ p <> PLive /\ p <> PClosed false.
Proof.
  revert p. induction post as [|a post IH]; intros p; simpl; [by intros [= <-]|].
  destruct a as [b|[]]; simpl; try done.
  - intros [? ?]%IH. split; [constructor; [naive_solver|done]|done].
  - intros H. pose proof H as ->%phase_closed_true. simpl in H. simplify_eq.
    split; [|done]. constructor; [naive_solver|constructor].
Qed.

Definition is_writer (a : Append) : Prop := match a with ACtl (CWriterChanged _) => True | _ => False end.
Definition output_or_writer (a : Append) : Prop := is_byte a \/ is_writer a.

Lemma phase_exited_shape post p :
  phase_run PExited post = Some p ->
  exists mid rest, post = mid ++ rest /\ Forall is_writer mid /\
    ((p = PExited /\ rest = []) \/ (p = PClosed true /\ exists reason, rest = [ACtl (CClosed reason)])).
Proof.
  revert p. induction post as [|a post IH]; intros p; simpl.
  { intros [= <-]. exists [], []. auto. }
  destruct a as [b|[| |reason]]; simpl; try done.
  - intros (mid & rest & -> & Hm & Hr)%IH. eexists (_ :: mid), rest. split; [done|]. split; [by constructor|done].
  - intros H. pose proof H as ->%phase_closed_true. injection H as <-. exists [], [ACtl (CClosed reason)].
    split_and!; [done..|]. right. eauto.
Qed.

Lemma phase_live_shape log p :
  phase_run PLive log = Some p ->
  exists live rest, log = live ++ rest /\ Forall output_or_writer live /\
    match p with
    | PLive => rest = []
    | PExited => exists code sig mid, rest = ACtl (CExit code sig) :: mid /\ Forall is_writer mid
    | PClosed true => exists code sig mid reason,
        rest = ACtl (CExit code sig) :: mid ++ [ACtl (CClosed reason)] /\ Forall is_writer mid
    | PClosed false => exists reason tail, rest = ACtl (CClosed reason) :: tail /\ Forall is_byte tail
    end.
Proof.
  revert p. induction log as [|a log IH]; intros p; simpl.
  { intros [= <-]. exists [], []. auto. }
  destruct a as [b|[code sig| |reason]]; simpl.
  - intros (live & rest & -> & Hl & Hr)%IH. exists (AByte b :: live), rest. split; [done|]. split; [|done].
    constructor; [by left|done].
  - intros (mid & rest & -> & Hm & [[-> ->]|[-> [reason ->]]])%phase_exited_shape; eexists [], _.
    + split; [done|]. split; [done|]. rewrite app_nil_r. eauto 10.
    + split; [done|]. split; [done|]. eauto 10.
  - intros (live & rest & -> & Hl & Hr)%IH. eexists (_ :: live), rest. split; [done|]. split; [|done].
    constructor; [by right|done].
  - intros [Hb ->]%phase_closed_false. eexists [], _. split; [done|]. split; [done|]. eauto.
Qed.

(** ** The close escalation *)

Section Life.
Context {Emu : Type}.
Variable emu_feed : Emu -> list byte -> N -> Emu * list byte.
Variable emu_resize : Emu -> N -> N -> Emu.

Abbreviation Sess := (Session Emu).
Abbreviation exec := (exec emu_feed emu_resize).
Abbreviation exec_all := (exec_all emu_feed emu_resize).
Abbreviation handle_command := (handle_command emu_resize).

(** Escalation signals a close still has to send. *)
Definition left (c : Closing) : nat :=
  match next_sig c with
  | None => 0
  | Some Signal.Kill => 1
  | Some _ => 2
  end.

Lemma left_step c sig c' :
  next_sig c = Some sig -> next_sig c' = after_step sig -> left c = S (left c').
Proof. unfold left. intros -> ->. by destruct sig. Qed.

Lemma fold_reply_replies rs (s : Sess) :
  replies (fold_left (fun st r => reply (fst r) (snd r) st) rs s) = replies s ++ rs.
Proof.
  revert s. induction rs as [|[r x] rs IH]; intros s; simpl; [by rewrite app_nil_r|].
  rewrite IH. simpl. by rewrite <- app_assoc.
Qed.

Lemma finalise_replies c (s : Sess) r :
  a_closing (act s) = Some c -> r ∈ responders c -> (r, RDone) ∈ replies (finalise s).
Proof.
  intros Hc Hr. unfold finalise. rewrite fold_reply_replies, Hc.
  apply elem_of_app. right. apply elem_of_app. right. apply list_elem_of_fmap. eauto.
Qed.

Lemma append_exit_frame (s : Sess) :
  a_closing (act (append_exit s)) = a_closing (act s) /\ cfg (append_exit s) = cfg s /\
  now (append_exit s) = now s /\ alive (append_exit s) = alive s /\ sigs (append_exit s) = sigs s.
Proof. unfold append_exit. by destruct (_ && _). Qed.

(** The head of the loop either ends a close, answering everyone who asked
    for it, or leaves it as it is. *)
Lemma loop_top_closing (s : Sess) c :
  a_closing (act s) = Some c ->
  (alive (loop_top s) = false /\ forall r, r ∈ responders c -> (r, RDone) ∈ replies (loop_top s)) \/
  (forced c = false /\ a_closing (act (loop_top s)) = Some c /\ alive (loop_top s) = alive s /\
   cfg (loop_top s) = cfg s /\ now (loop_top s) = now s).
Proof.
  intros Hc. destruct (append_exit_frame s) as (H1 & H2 & H3 & H4 & _). unfold loop_top.
  rewrite H1, Hc. destruct (_ || forced c) eqn:E.
  - left. split; [apply finalise_act|]. intros r Hr. eapply finalise_replies; [|done]. congruence.
  - right. apply orb_false_iff in E as [_ ->]. split_and!; congruence.
Qed.

Lemma exec_all_app es1 es2 (s s1 : Sess) :
  exec_all s es1 = Some s1 -> exec_all s (es1 ++ es2) = exec_all s1 es2.
Proof.
  revert s. induction es1 as [|e es1 IH]; intros s; simpl; [by intros [= <-]|].
  destruct (exec s e); [apply IH|done].
Qed.

(** Time that passes in a run. *)
Fixpoint elapsed (es : list Event) : N :=
  match es with
  | [] => 0
  | Tick dt :: es' => dt + elapsed es'
  | _ :: es' => elapsed es'
  end.

Definition only_time (e : Event) : Prop := match e with Tick _ | TimerFires => True | _ => False end.

(** Waiting for the timer of a close and letting it fire. *)
Lemma fire_timer s c :
  Inv s -> a_closing (act s) = Some c -> alive s = true ->
  exists dt s1, exec_all s [Tick dt; TimerFires] = Some s1 /\ Inv s1 /\
    dt <= close_grace (cfg s) /\
    ((alive s1 = false /\ forall r, r ∈ responders c -> (r, RDone) ∈ replies s1) \/
     exists sig c', next_sig c = Some sig /\ a_closing (act s1) = Some c' /\
       next_sig c' = after_step sig /\ responders c' = responders c /\
       alive s1 = true /\ cfg s1 = cfg s).
Proof.
  intros HI Hc Ha. pose proof (core_timer _ (inv_core _ HI) _ Hc) as Ht.
  set (s0 := set_now (now s + (timer c - now s)) s).
  assert (exec_all s [Tick (timer c - now s); TimerFires] = Some (loop_top (escalate s0))) as Hex.
  { cbn [Session.exec_all Session.exec]. fold s0. change (act s0) with (act s).
    change (alive s0) with (alive s). rewrite Hc, Ha.
    replace (timer c <=? now s0) with true; [done|]. unfold s0. simpl. lia. }
  exists (timer c - now s), (loop_top (escalate s0)). split; [done|].
  split; [by eapply Inv_exec_all|]. split; [lia|].
  assert (a_closing (act s0) = Some c) as Hc0 by done.
  destruct (next_sig c) as [sig|] eqn:En.
  - destruct (loop_top_closing (escalate s0) (mkClosing (c_reason c) (responders c) (after_step sig)
      (now s0 + close_grace (cfg s0)) (forced c))) as [[? ?]|(? & ? & ? & ? & ?)].
    + unfold escalate. by rewrite Hc0, En.
    + by left.
    + right. eexists sig, _. split_and!; try done.
      * by rewrite H1, alive_escalate.
      * rewrite H2. unfold escalate. by rewrite Hc0, En.
  - destruct (loop_top_closing (escalate s0) (mkClosing (c_reason c) (responders c) None (timer c) true))
      as [?|[? _]]; [|by left|done].
    unfold escalate. by rewrite Hc0, En.
Qed.

Lemma close_progress n s c :
  Inv s -> a_closing (act s) = Some c -> left c = n -> alive s = true ->
  exists es s', exec_all s es = Some s' /\ alive s' = false /\
    elapsed es <= (N.of_nat n + 1) * close_grace (cfg s) /\ Forall only_time es /\
    forall r, r ∈ responders c -> (r, RDone) ∈ replies s'.
Proof.
  revert s c. induction n as [|n IH]; intros s c HI Hc Hl Ha;
    destruct (fire_timer s c HI Hc Ha) as (dt & s1 & Hex & HI1 & Hdt & [[Hd Hr]|Hrec]).
  1,3: exists [Tick dt; TimerFires], s1; split_and!; try done; [simpl; lia|by repeat constructor].
  - destruct Hrec as (sig & c' & Hs & _ & Hs' & _). by rewrite (left_step c sig c') in Hl.
  - destruct Hrec as (sig & c' & Hs & Hc' & Hs' & Hr & Ha1 & Hcfg).
    destruct (IH s1 c') as (es & s' & Hes & Hd & Hel & Hot & Hrs); try done.
    { rewrite (left_step c sig c') in Hl by done. by injection Hl. }
    exists ([Tick dt; TimerFires] ++ es), s'. split_and!.
    + by rewrite (exec_all_app _ _ _ _ Hex).
    + done.
    + rewrite Hcfg in Hel. cbn [app elapsed]. lia.
    + apply Forall_app. split; [by repeat constructor|done].
    + by rewrite Hr in Hrs.
Qed.

(** Someone asks for the session to be closed. *)
Definition asks (e : Event) (resp : Resp) : Prop :=
  match e with Cmd (Close _ _ r) _ => r = resp | _ => False end.

(** Every event during a close keeps it going, and each firing of the timer
    uses up a step. *)
Lemma handle_closing cmd res (s : Sess) c :
  a_closing (act s) = Some c ->
  exists c', a_closing (act (handle_command cmd res s)) = Some c' /\ next_sig c' = next_sig c /\ timer c' = timer c /\
    forall r, r ∈ responders c \/ asks (Cmd cmd res) r -> r ∈ responders c'.
Proof.
  intros Hc. destruct cmd; cbn [Session.handle_command].
  7: { unfold begin_close. rewrite Hc. eexists. split; [done|]. split_and!; [done..|]. cbn. intros r [Hr|<-]; set_solver. }
  all: exists c; split; [rewrite <- Hc|split_and!; [done..|]; by intros r [?|?]].
  - unfold enqueue_write, try_send. by repeat (case_match; simplify_eq/=).
  - unfold control_resize, resize_screen. by destruct (is_ok res); simpl; destruct (screen s).
  - destruct (negb _); [done|]. unfold control_resize, resize_screen. by destruct (is_ok res); simpl; destruct (screen s).
  - by destruct (_ && _).
  - by destruct (Lease.take_owned _ _ _ _ _) as [[d [|]|h] l].
  - destruct (Lease.release_connection _ _) as [[h|] l]; [|done]. by case_bool_decide.
Qed.

Definition timers (es : list Event) : nat :=
  length (List.filter (fun e => match e with TimerFires => true | _ => false end) es).

Lemma loop_top_kept (s : Sess) c :
  a_closing (act s) = Some c -> alive (loop_top s) = true ->
  a_closing (act (loop_top s)) = Some c /\ forced c = false.
Proof. intros Hc Ha. destruct (loop_top_closing s c Hc) as [[? _]|(? & ? & _)]; [congruence|done]. Qed.

(** Events outside the actor's loop leave the actor's state alone. *)
Lemma exec_act s e s' :
  exec s e = Some s' ->
  match e with OutputDone | ChildExit _ | Cmd _ _ | TimerFires | InboxClosed => False | _ => True end ->
  act s' = act s /\ sigs s' = sigs s /\ sizes s' = sizes s.
Proof.
  intros He Hk. destruct e; try done; cbn [Session.exec] in He.
  - case_match; [|done]. injection He as <-. unfold pump_read, feed_screen.
    destruct (screen s); [destruct (emu_feed _ _ _) as [? []]|]; simpl; try done.
    unfold try_send. repeat case_match; simplify_eq; done.
  - case_match; [|done]. by injection He as <-.
  - case_match; [|done]. by injection He as <-.
  - destruct (in_q s), (writing s); try done. destruct (alive s); [|done]. by injection He as <-.
  - destruct (writing s) as [c|]; [|done]. injection He as <-. unfold writer_done.
    by destruct (ch_resp c).
  - destruct (writing s) as [c|]; [|done]. destruct (alive s); [done|]. injection He as <-.
    by destruct (ch_resp c).
  - by injection He as <-.
  - case_match; [|done]. by injection He as <-.
  - by injection He as <-.
  - by injection He as <-.
  - by injection He as <-.
Qed.

Lemma closing_step s e s' c :
  exec s e = Some s' -> a_closing (act s) = Some c -> alive s' = true ->
  exists c', a_closing (act s') = Some c' /\ left c = (left c' + timers [e])%nat.
Proof.
  intros He Hc Ha. destruct e;
    try (apply exec_act in He as (He & _); [|done]; exists c; rewrite He; split; [done|]; unfold timers; simpl; lia);
    cbn [Session.exec] in He.
  - case_match; [|done]. injection He as <-.
    apply (loop_top_kept _ c) in Ha as [Ha _]; [|done]. exists c. split; [done|]. unfold timers. simpl. lia.
  - case_match; [|done]. injection He as <-.
    apply (loop_top_kept _ c) in Ha as [Ha _]; [|done]. exists c. split; [done|]. unfold timers. simpl. lia.
  - case_match; [|done]. injection He as <-. destruct (handle_closing c0 res s c Hc) as (c' & Hc' & Hn & _).
    destruct (loop_top_kept _ c' Hc' Ha) as [Ha' _]. exists c'. split; [done|].
    unfold left. rewrite Hn. unfold timers. simpl. lia.
  - rewrite Hc in He. case_match; [|done]. injection He as <-. unfold escalate in Ha |- *.
    rewrite Hc in *. destruct (next_sig c) as [sig|] eqn:En.
    + eapply loop_top_kept in Ha as [Ha _]; [|done]. eexists. split; [exact Ha|].
      unfold left, timers. rewrite En. cbn. destruct sig; simpl; lia.
    + by eapply loop_top_kept in Ha as [_ ?]; [|done].
  - case_match; [|done]. injection He as <-. by rewrite (proj1 (finalise_act s)) in Ha.
Qed.

(** Once the actor is done it stays so. *)
Lemma dead_stays s e s' : exec s e = Some s' -> alive s = false -> alive s' = false.
Proof.
  intros He Ha. destruct e; cbn [Session.exec] in He; rewrite ?Ha in He; try done.
  - case_match; [|done]. injection He as <-. unfold pump_read, feed_screen.
    destruct (screen s); [destruct (emu_feed _ _ _) as [? []]|]; simpl; try done.
    unfold try_send. simpl. by rewrite Ha.
  - case_match; [|done]. by injection He as <-.
  - case_match; [|done]. by injection He as <-.
  - by destruct (a_closing (act s)).
  - by destruct (in_q s), (writing s).
  - destruct (writing s) as [c|]; [|done]. injection He as <-. unfold writer_done.
    by destruct (ch_resp c).
  - destruct (writing s) as [c|]; [|done]. injection He as <-. by destruct (ch_resp c).
  - by injection He as <-.
  - case_match; [|done]. by injection He as <-.
  - by injection He as <-.
  - by injection He as <-.
  - by injection He as <-.
Qed.

Lemma dead_stays_all es s s' : exec_all s es = Some s' -> alive s' = true -> alive s = true.
Proof.
  revert s. induction es as [|e es IH]; intros s; simpl; [by intros [= <-]|].
  destruct (exec s e) as [s1|] eqn:E; [|done]. intros H Ha. specialize (IH _ H Ha).
  destruct (alive s) eqn:Hs; [done|]. by rewrite (dead_stays _ _ _ E Hs) in IH.
Qed.

Lemma timers_cons e es : timers (e :: es) = (timers [e] + timers es)%nat.
Proof. unfold timers. simpl. by destruct e. Qed.

Lemma timers_bounded es s s' c :
  exec_all s es = Some s' -> a_closing (act s) = Some c -> alive s' = true ->
  (timers es <= left c)%nat.
Proof.
  revert s c. induction es as [|e es IH]; intros s c He Hc Ha; [unfold timers; simpl; lia|].
  simpl in He. destruct (exec s e) as [s1|] eqn:E; [|done].
  pose proof (dead_stays_all _ _ _ He Ha) as Ha1.
  destruct (closing_step _ _ _ _ E Hc Ha1) as (c' & Hc' & Hl).
  specialize (IH _ _ He Hc' Ha). rewrite timers_cons. lia.
Qed.

(** The latest a close in progress can come to its end, when its timer fires as
    soon as it is due. *)
Definition due (s : Sess) (c : Closing) : N := now s `max` timer c + N.of_nat (left c) * close_grace (cfg s).

(** In a punctual run no time passes while the timer of a close is due. *)
Definition on_time (s : Sess) (e : Event) : Prop :=
  match e, a_closing (act s) with Tick dt, Some c => now s + dt <= timer c | _, _ => True end.
Fixpoint punctual (s : Sess) (es : list Event) : Prop :=
  match es with
  | [] => True
  | e :: es' => on_time s e /\ match exec s e with Some s1 => punctual s1 es' | None => True end
  end.

(** What a step keeps of a close in progress: who waits for it and when it
    will be over. *)
Definition goes_on (s : Sess) (c : Closing) (e : Event) (s' : Sess) : Prop :=
  exists c', a_closing (act s') = Some c' /\ alive s' = true /\ cfg s' = cfg s /\ due s' c' <= due s c /\
    forall r, r ∈ responders c \/ asks e r -> r ∈ responders c'.
Definition ended (c : Closing) (e : Event) (s' : Sess) : Prop :=
  alive s' = false /\ forall r, r ∈ responders c \/ asks e r -> (r, RDone) ∈ replies s'.

(** The head of the loop on a close. *)
Lemma loop_top_goes s c e s1 c1 :
  a_closing (act s1) = Some c1 -> alive s1 = true -> cfg s1 = cfg s -> due s1 c1 <= due s c ->
  (forall r, r ∈ responders c \/ asks e r -> r ∈ responders c1) ->
  goes_on s c e (loop_top s1) \/ ended c e (loop_top s1).
Proof.
  intros Hc Ha Hcfg Hd Hr. destruct (loop_top_closing s1 c1 Hc) as [[Hf Hans]|(_ & Hc1 & Ha1 & Hcfg1 & Hn1)].
  - right. split; [done|]. auto.
  - left. exists c1. split_and!; try done; [congruence..|]. unfold due in *. by rewrite Hcfg1, Hn1.
Qed.

(** A command leaves the clock alone, and of a close all but who waits. *)
Lemma handle_command_frame cmd res (s : Sess) :
  now (handle_command cmd res s) = now s /\ cfg (handle_command cmd res s) = cfg s.
Proof.
  destruct cmd; cbn [Session.handle_command].
  - unfold enqueue_write, try_send. by repeat (case_match; simplify_eq/=).
  - unfold control_resize, resize_screen. by destruct (is_ok res); simpl; destruct (screen s).
  - destruct (negb _); [done|]. unfold control_resize, resize_screen. by destruct (is_ok res); simpl; destruct (screen s).
  - by destruct (_ && _).
  - by destruct (Lease.take_owned _ _ _ _ _) as [[d [|]|h] l].
  - destruct (Lease.release_connection _ _) as [[h|] l]; [|done]. by case_bool_decide.
  - unfold begin_close. destruct (a_closing _); [done|]. by destruct (_ || _).
Qed.

(** Events outside the actor's loop: the clock moves only with time, and
    replies are only added. *)
Lemma exec_outside s e s' :
  exec s e = Some s' ->
  match e with OutputDone | ChildExit _ | Cmd _ _ | TimerFires | InboxClosed => False | _ => True end ->
  cfg s' = cfg s /\ alive s' = alive s /\ now s' = now s + elapsed [e].
Proof.
  intros He Hk. destruct e; try done; cbn [Session.exec] in He.
  - case_match; [|done]. injection He as <-. unfold pump_read, feed_screen, try_send.
    destruct (screen s); [destruct (emu_feed _ _ _) as [? []]|]; cbn; rewrite ?N.add_0_r; try done.
    by repeat (case_match; simplify_eq/=).
  - case_match; [|done]. injection He as <-. cbn. by rewrite N.add_0_r.
  - case_match; [|done]. injection He as <-. cbn. by rewrite N.add_0_r.
  - destruct (in_q s), (writing s); try done. destruct (alive s) eqn:Ha; [|done]. injection He as <-. cbn. by rewrite Ha, N.add_0_r.
  - destruct (writing s) as [c|]; [|done]. injection He as <-. unfold writer_done.
    destruct (ch_resp c); cbn; by rewrite N.add_0_r.
  - destruct (writing s) as [c|]; [|done]. destruct (alive s) eqn:Ha; [done|]. injection He as <-.
    destruct (ch_resp c); cbn; by rewrite Ha, N.add_0_r.
  - injection He as <-. cbn. by rewrite N.add_0_r.
  - case_match; [|done]. injection He as <-. cbn. by rewrite N.add_0_r.
  - injection He as <-. cbn. by rewrite N.add_0_r.
  - injection He as <-. cbn. by rewrite N.add_0_r.
  - injection He as <-. cbn. by rewrite N.add_0_r.
Qed.

Lemma close_step s e s' c :
  exec s e = Some s' -> on_time s e -> a_closing (act s) = Some c -> alive s = true ->
  goes_on s c e s' \/ ended c e s'.
Proof.
  intros He Ht Hc Ha. destruct e;
    try (pose proof (exec_outside _ _ _ He I) as (Hcfg & Hal & Hn); apply exec_act in He as (He & _); [|done]; left; exists c;
      unfold on_time in Ht; rewrite ?Hc in Ht; unfold due; rewrite He, Hcfg, Hal, Hn; cbn [elapsed];
      split_and!; try done; [lia|by intros r [?|[]]]);
    cbn [Session.exec] in He.
  - case_match; [|done]. injection He as <-. by apply loop_top_goes with (c1 := c); [..|intros r [?|[]]].
  - case_match; [|done]. injection He as <-. by apply loop_top_goes with (c1 := c); [..|intros r [?|[]]].
  - rewrite Ha in He. injection He as <-. destruct (handle_closing c0 res s c Hc) as (c' & Hc' & Hn & Htm & Hr).
    destruct (handle_command_frame c0 res s) as [Hnow Hcfg]. apply loop_top_goes with (c1 := c'); try done.
    + by rewrite alive_handle_command.
    + unfold due, left. by rewrite Hnow, Hcfg, Hn, Htm.
  - rewrite Hc in He. rewrite Ha in He. cbn [andb] in He. destruct (N.leb_spec (timer c) (now s)) as [Hle|]; [|done].
    injection He as <-. unfold escalate. rewrite Hc. destruct (next_sig c) as [sig|] eqn:En.
    + eapply loop_top_goes; [done..| |by intros r [?|[]]]. unfold due, left. rewrite En. cbn.
      destruct sig; cbn; lia.
    + eapply loop_top_goes; [done..| |by intros r [?|[]]]. unfold due, left. rewrite En. cbn. lia.
  - rewrite Ha in He. injection He as <-. right. split; [apply finalise_act|]. intros r [Hr|[]]. by eapply finalise_replies.
Qed.

(** What was answered when the session ended stays answered. *)
Lemma dead_replies s e s' x : exec s e = Some s' -> alive s = false -> x ∈ replies s -> x ∈ replies s'.
Proof.
  intros He Ha Hx. destruct e; cbn [Session.exec] in He; rewrite ?Ha in He; try done.
  - case_match; [|done]. injection He as <-. unfold pump_read, feed_screen, try_send.
    destruct (screen s); [destruct (emu_feed _ _ _) as [? []]|]; cbn; rewrite ?Ha; done.
  - case_match; [|done]. by injection He as <-.
  - case_match; [|done]. by injection He as <-.
  - by destruct (a_closing (act s)).
  - by destruct (in_q s), (writing s).
  - destruct (writing s) as [c|]; [|done]. injection He as <-. unfold writer_done. destruct (ch_resp c); cbn; set_solver.
  - destruct (writing s) as [c|]; [|done]. injection He as <-. destruct (ch_resp c); cbn; set_solver.
  - by injection He as <-.
  - case_match; [|done]. by injection He as <-.
  - by injection He as <-.
  - by injection He as <-.
  - by injection He as <-.
Qed.

Lemma dead_replies_all es s s' x : exec_all s es = Some s' -> alive s = false -> x ∈ replies s -> x ∈ replies s'.
Proof.
  revert s. induction es as [|e es IH]; intros s; simpl; [by intros [= <-]|]. destruct (exec s e) as [s1|] eqn:E; [|done].
  intros H Ha Hx. eapply IH; [done|by eapply dead_stays|by eapply dead_replies].
Qed.

(** Commands reach only a session that is not over. *)
Lemma dead_asks es s s' r : exec_all s es = Some s' -> alive s = false -> ~ Exists (fun e => asks e r) es.
Proof.
  revert s. induction es as [|e es IH]; intros s; simpl; [intros _ _ Hx; by apply Exists_nil in Hx|].
  destruct (exec s e) as [s1|] eqn:E; [|done]. intros H Ha [He|Hes]%Exists_cons.
  - destruct e; try done. cbn [Session.exec] in E. by rewrite Ha in E.
  - eapply IH; [done|by eapply dead_stays|done].
Qed.

Lemma close_run es s s' c :
  exec_all s es = Some s' -> punctual s es -> a_closing (act s) = Some c -> alive s = true ->
  (alive s' = true -> now s' <= due s c) /\
  (alive s' = false -> forall r, r ∈ responders c \/ Exists (fun e => asks e r) es -> (r, RDone) ∈ replies s').
Proof.
  revert s c. induction es as [|e es IH]; intros s c; cbn [Session.exec_all punctual].
  { intros [= <-] _ Hc Ha. unfold due. split; [lia|congruence]. }
  destruct (exec s e) as [s1|] eqn:E; [|done]. intros Hes [Ht Hp] Hc Ha.
  destruct (close_step s e s1 c E Ht Hc Ha) as [(c1 & Hc1 & Ha1 & _ & Hd & Hr)|[Hd Hr]].
  - destruct (IH s1 c1 Hes Hp Hc1 Ha1) as [Hb Hans]. split; [intros Hl; specialize (Hb Hl); lia|]. intros Hl r Hask.
    apply Hans; [done|]. rewrite Exists_cons in Hask. naive_solver.
  - split; [intros Hl; apply dead_stays_all in Hes; [congruence|done]|]. intros _ r Hask.
    eapply dead_replies_all; [done..|]. apply Hr. rewrite Exists_cons in Hask. destruct Hask as [?|[?|Hx]]; [auto..|].
    by apply (dead_asks _ _ _ r Hes Hd) in Hx.
Qed.

(** ** Signals and the child's exit *)

(** The child's exit has been observed, and no close that started before it is
    under way. *)
Definition past_exit (s : Sess) : Prop :=
  exiting (act s) = true /\
  match a_closing (act s) with Some c => next_sig c = None | None => True end.

Lemma loop_top_past (s : Sess) : past_exit s -> past_exit (loop_top s) /\ sigs (loop_top s) = sigs s.
Proof.
  intros [Hx Hc]. unfold loop_top.
  assert (exiting (act (append_exit s)) = true) as Hx1 by by (unfold append_exit; destruct (_ && _)).
  destruct (append_exit_frame s) as (H1 & _ & _ & _ & H2). rewrite H1.
  destruct (a_closing (act s)) as [c|] eqn:Ec.
  - destruct (_ || _); [|split; [split; [done|by rewrite H1]|done]].
    unfold past_exit, finalise. match goal with |- context [fold_left _ ?rs ?x] =>
      destruct (fold_reply_frame rs x) as (-> & _ & -> & _) end. done.
  - split; [|done]. split; [done|]. by rewrite H1.
Qed.

Lemma handle_past cmd res (s : Sess) :
  past_exit s -> past_exit (handle_command cmd res s) /\ sigs (handle_command cmd res s) = sigs s.
Proof.
  intros [Hx Hc]. unfold past_exit. destruct cmd; cbn [Session.handle_command].
  - unfold enqueue_write. destruct (if _ || m_closing _ then _ else _) as [applied|err].
    + destruct (judge_chunk _ _ _); [done|]. unfold try_send. destruct (alive s); [|done]. simpl.
      destruct (_ <? _); [|done]. by destruct (fst <$> _).
    + by destruct input_seq as [[]|].
  - unfold control_resize, resize_screen. by destruct (is_ok res); simpl; destruct (screen s).
  - destruct (negb _); [done|]. unfold control_resize, resize_screen.
    by destruct (is_ok res); simpl; destruct (screen s).
  - rewrite Hx. by rewrite andb_false_r.
  - by destruct (Lease.take_owned _ _ _ _ _) as [[d [|]|h] l].
  - destruct (Lease.release_connection _ _) as [[h|] l]; [|done]. by case_bool_decide.
  - unfold begin_close. destruct (a_closing (act s)) as [c|]; [done|].
    rewrite Hx, orb_true_r. done.
Qed.

Lemma exec_past s e s' : past_exit s -> exec s e = Some s' -> past_exit s' /\ sigs s' = sigs s.
Proof.
  intros Hp He. pose proof Hp as [Hx Hc].
  destruct e; try (apply exec_act in He as (He & -> & _); [|done]; unfold past_exit; by rewrite He);
    cbn [Session.exec] in He.
  - destruct (alive s && _ && _); [|done]. injection He as <-. by apply (loop_top_past (upd_act _ s)).
  - rewrite Hx in He. simpl in He. by rewrite andb_false_r in He.
  - destruct (alive s); [|done]. injection He as <-.
    destruct (handle_past c res s Hp) as [H1 <-]. by apply loop_top_past.
  - destruct (a_closing (act s)) as [c|] eqn:Ec; [|done]. destruct (alive s && _); [|done].
    injection He as <-.
    assert (past_exit (escalate s) /\ sigs (escalate s) = sigs s) as [H1 <-].
    { unfold escalate, past_exit. rewrite Ec, Hc. done. }
    by apply loop_top_past.
  - destruct (alive s); [|done]. injection He as <-. unfold past_exit, finalise.
    match goal with |- context [fold_left _ ?rs ?x] =>
      destruct (fold_reply_frame rs x) as (-> & _ & -> & _) end. done.
Qed.

Lemma exec_all_past es s s' : past_exit s -> exec_all s es = Some s' -> sigs s' = sigs s.
Proof.
  revert s. induction es as [|e es IH]; intros s Hp; simpl; [by intros [= <-]|].
  destruct (exec s e) as [s1|] eqn:E; [|done]. intros H.
  destruct (exec_past _ _ _ Hp E) as [Hp1 <-]. by apply IH.
Qed.

(** The head of the loop queues nothing and resizes nothing. *)
Lemma loop_top_io (s : Sess) :
  queued (loop_top s) = queued s /\ child_in (loop_top s) = child_in s /\
  sizes (loop_top s) = sizes s /\ lease (meta (loop_top s)) = lease (meta s).
Proof.
  assert (forall rs (x : Sess),
    let y := fold_left (fun st r => reply (fst r) (snd r) st) rs x in
    queued y = queued x /\ sizes y = sizes x) as Hf.
  { induction rs as [|r rs IH]; intros x; [done|]. apply (IH (reply (fst r) (snd r) x)). }
  assert (queued (append_exit s) = queued s /\ child_in (append_exit s) = child_in s /\
    sizes (append_exit s) = sizes s /\ lease (meta (append_exit s)) = lease (meta s)) as H
    by (unfold append_exit; by destruct (_ && _)).
  unfold loop_top. destruct (a_closing _); [|done]. destruct (_ || _); [|done].
  unfold finalise. match goal with |- context [fold_left _ ?rs ?x] =>
    destruct (Hf rs x) as [-> ->];
    destruct (fold_reply_frame rs x) as (_ & _ & _ & -> & _ & _ & -> & _) end. done.
Qed.

(** ** The resume deadline *)

Lemma loop_top_window (s : Sess) :
  attached (meta (loop_top s)) = attached (meta s) /\ now (loop_top s) = now s /\
  (ttl_base (meta (loop_top s)) = ttl_base (meta s) \/ ttl_base (meta (loop_top s)) = now s).
Proof.
  assert (attached (meta (append_exit s)) = attached (meta s) /\ now (append_exit s) = now s /\
    (ttl_base (meta (append_exit s)) = ttl_base (meta s) \/ ttl_base (meta (append_exit s)) = now s))
    as H by (unfold append_exit; destruct (_ && _); auto).
  unfold loop_top. destruct (a_closing _); [|done]. destruct (_ || _); [|done].
  unfold finalise. match goal with |- context [fold_left _ ?rs ?x] =>
    destruct (fold_reply_frame rs x) as (_ & _ & _ & -> & _ & _ & _ & _ & _ & _ & ->) end. done.
Qed.

Lemma handle_window cmd res (s : Sess) :
  attached (meta (handle_command cmd res s)) = attached (meta s) /\
  ttl_base (meta (handle_command cmd res s)) = ttl_base (meta s) /\ now (handle_command cmd res s) = now s.
Proof.
  destruct cmd; cbn [Session.handle_command].
  - unfold enqueue_write. destruct (if _ || m_closing _ then _ else _) as [applied|err].
    + destruct (judge_chunk _ _ _); [done|]. unfold try_send. destruct (alive s); [|done]. simpl.
      destruct (_ <? _); [|done]. by destruct (fst <$> _).
    + by destruct input_seq as [[]|].
  - unfold control_resize, resize_screen. by destruct (is_ok res); simpl; destruct (screen s).
  - destruct (negb _); [done|]. unfold control_resize, resize_screen.
    by destruct (is_ok res); simpl; destruct (screen s).
  - by destruct (_ && _).
  - by destruct (Lease.take_owned _ _ _ _ _) as [[d [|]|h] l].
  - destruct (Lease.release_connection _ _) as [[h|] l]; [|done]. by case_bool_decide.
  - unfold begin_close. destruct (a_closing (act s)); [done|]. by destruct (bool_decide _ || _).
Qed.

Definition resume_deadline (s : Sess) (ttl : N) : N := deadline (ttl_window s) (now s) ttl.

Lemma deadline_le (s s' : Sess) ttl :
  attached (meta s') = attached (meta s) -> now s <= now s' ->
  ttl_base (meta s) <= ttl_base (meta s') -> resume_deadline s ttl <= resume_deadline s' ttl.
Proof.
  intros H1 H2 H3. unfold resume_deadline, deadline, ttl_window. simpl. rewrite H1.
  destruct (0 <? _); lia.
Qed.

Lemma deadline_loop_top (s s1 : Sess) ttl :
  attached (meta s1) = attached (meta s) -> now s1 = now s -> ttl_base (meta s1) = ttl_base (meta s) ->
  ttl_base (meta s) <= now s -> resume_deadline s ttl <= resume_deadline (loop_top s1) ttl.
Proof.
  intros H1 H2 H3 Hb. destruct (loop_top_window s1) as (Ha & Hn & Hw).
  apply deadline_le; [congruence|rewrite Hn; lia|]. destruct Hw as [Hw|Hw]; rewrite Hw; lia.
Qed.

Lemma deadline_step s e s' ttl :
  Inv s -> exec s e = Some s' -> resume_deadline s ttl <= resume_deadline s' ttl.
Proof.
  intros [HC _] He. pose proof (core_time _ HC) as Hb. destruct e; cbn [Session.exec] in He.
  - case_match; [|done]. injection He as <-. unfold pump_read, feed_screen.
    destruct (screen s); [destruct (emu_feed _ _ _) as [? []]|]; simpl;
      try apply N.le_refl.
    unfold try_send. simpl. destruct (alive s); simpl; [|apply N.le_refl]. destruct (len (in_q s) <? _); apply N.le_refl.
  - case_match; [|done]. injection He as <-. apply N.le_refl.
  - case_match; [|done]. injection He as <-. apply N.le_refl.
  - case_match; [|done]. injection He as <-. by apply deadline_loop_top.
  - case_match; [|done]. injection He as <-. by apply deadline_loop_top.
  - case_match; [|done]. injection He as <-. destruct (handle_window c res s) as (? & ? & ?).
    by apply deadline_loop_top.
  - destruct (a_closing (act s)) as [c|] eqn:Ec; [|done]. case_match; [|done]. injection He as <-.
    unfold escalate. rewrite Ec. destruct (next_sig c); by apply deadline_loop_top.
  - case_match; [|done]. injection He as <-. unfold finalise.
    match goal with |- context [fold_left _ ?rs ?x] => set (y := x); set (l := rs);
      destruct (fold_reply_frame l y) as (_ & _ & _ & Hm & _ & _ & _ & _ & _ & _ & Hn) end.
    apply deadline_le; rewrite ?Hm, ?Hn; simpl; lia.
  - destruct (in_q s), (writing s); try done. case_match; [|done]. injection He as <-. apply N.le_refl.
  - destruct (writing s) as [c|]; [|done]. injection He as <-. unfold writer_done.
    destruct (ch_resp c); apply N.le_refl.
  - destruct (writing s) as [c|]; [|done]. destruct (alive s); [done|]. injection He as <-.
    destruct (ch_resp c); apply N.le_refl.
  - injection He as <-. unfold resume_deadline, deadline. simpl.
    replace (0 <? attached (meta s) + 1) with true by lia. case_match; lia.
  - case_match eqn:E; [|done]. injection He as <-. unfold resume_deadline, deadline. simpl. rewrite E.
    destruct (N.eqb_spec (attached (meta s) - 1) 0) as [->|]; simpl; [lia|].
    replace (0 <? attached (meta s) - 1) with true by lia. lia.
  - injection He as <-. apply N.le_refl.
  - injection He as <-. apply N.le_refl.
  - injection He as <-. apply deadline_le; simpl; lia.
Qed.

Lemma deadline_run es s s' ttl :
  Inv s -> exec_all s es = Some s' -> resume_deadline s ttl <= resume_deadline s' ttl.
Proof.
  revert s. induction es as [|e es IH]; intros s HI; simpl; [by intros [= <-]|].
  destruct (exec s e) as [s1|] eqn:E; [|done]. intros H.
  pose proof (deadline_step _ _ _ ttl HI E). specialize (IH s1 ltac:(by eapply Inv_exec) H). lia.
Qed.

End Life.

(** ** Properties *)

(** C3: In every reachable state of a session the ring represents the
    session's history, and the history is output and writer changes, then, if
    the actor reported the child's exit, that exit and writer changes, then,
    if the actor is done, [Closed].  [Closed] is the last entry, except that
    when the session closes without having reported the exit and the pump had
    to be aborted, output that the pump still had in hand may follow it.  The
    session is published as exited exactly when the exit is in the history. *)
Theorem session_history {Emu : Type} (emu_feed : Emu -> list byte -> N -> Emu * list byte)
    (emu_resize : Emu -> N -> N -> Emu) s :
  reachable emu_feed emu_resize s ->
  Repr (ring s) (hist s) /\ (state (meta s) = Exited <-> exit_appended (act s) = true) /\
  exists live rest, hist s = live ++ rest /\ Forall output_or_writer live /\
    match alive s, exit_appended (act s) with
    | true, false => rest = []
    | true, true => exists code sig mid, rest = ACtl (CExit code sig) :: mid /\ Forall is_writer mid
    | false, true => exists code sig mid reason,
        rest = ACtl (CExit code sig) :: mid ++ [ACtl (CClosed reason)] /\ Forall is_writer mid
    | false, false => exists reason tail, rest = ACtl (CClosed reason) :: tail /\ Forall is_byte tail /\
        (tail <> [] -> pump s = PumpAborting \/ pump s = PumpStopped)
    end.
Proof.
  intros [HC _]%Inv_reachable. split_and!; [apply (core_repr _ HC)|apply (core_state _ HC)..|].
  destruct (phase_live_shape _ _ (core_phase _ HC)) as (live & rest & Hh & Hl & Hr). exists live, rest.
  split_and!; [done..|]. unfold phase_of in Hr. destruct (alive s) eqn:Ha, (exit_appended (act s)); try done.
  destruct Hr as (reason & tail & -> & Ht). exists reason, tail. split_and!; [done..|]. intros Hne.
  pose proof (core_pump_dead _ HC Ha) as Hp. destruct (pump s) eqn:Ep; auto; [done|]. exfalso.
  destruct (core_last _ HC Ha Ep) as (pre & reason' & Hlast). apply (f_equal last) in Hlast. rewrite last_snoc, Hh in Hlast.
  destruct (exists_last Hne) as (tail' & a & ->). rewrite app_comm_cons, app_assoc, last_snoc in Hlast. injection Hlast as ->.
  apply Forall_app in Ht as [_ Ht]. by apply Forall_cons in Ht as [? _].
Qed.

(** An emulator that answers nothing, and runs used as examples. *)
Definition feed1 : unit -> list byte -> N -> unit * list byte := fun e _ _ => (e, []).
Definition resize1 : unit -> N -> N -> unit := fun e _ _ => e.
Definition start : Session unit := create default_config tt 0.
Definition state_after (es : list Event) : Session unit :=
  default start (exec_all feed1 resize1 start es).

Lemma state_after_reachable es s :
  exec_all feed1 resize1 start es = Some s -> reachable feed1 resize1 (state_after es).
Proof.
  intros H. exists default_config, tt, 0, es. unfold state_after. by rewrite H.
Qed.

Definition demo_exit : list Event :=
  [PumpRead [x61]; ChildExit (mkExit (Some 0%Z) None); PumpRead [x62]; PumpEnd; OutputDone;
   Cmd (TakeLease "device:a" 7 7 false 0) (Ok tt); Cmd (Close Closed None 1) (Ok tt)].

Lemma session_history_witness :
  Repr (ring (state_after demo_exit)) (hist (state_after demo_exit)) /\
  hist (state_after demo_exit) = [AByte x61; AByte x62; ACtl (CExit (Some 0%Z) None);
    ACtl (CWriterChanged (Some "device:a"%string)); ACtl (CClosed Closed)].
Proof.
  split; [|vm_compute; reflexivity].
  apply (session_history feed1 resize1).
  eapply (state_after_reachable demo_exit). vm_compute. reflexivity.
Defined.

(** Output before exit: nothing the child printed ever appears after its
    exit entry, the exit is reported at most once, and the session is
    published as exited exactly when it is in the history. *)
Theorem output_before_exit {Emu : Type} (emu_feed : Emu -> list byte -> N -> Emu * list byte)
    (emu_resize : Emu -> N -> N -> Emu) s pre code sig post :
  reachable emu_feed emu_resize s -> hist s = pre ++ ACtl (CExit code sig) :: post ->
  Forall (fun a => ~ is_byte a /\ ~ is_exit a) post /\ ~ Exists is_exit pre /\
  state (meta s) = Exited.
Proof.
  intros [HC _]%Inv_reachable Hh. pose proof (core_phase _ HC) as Hp.
  destruct (phase_run_split _ _ _ _ _ Hp Hh) as (p1 & p2 & Hpre & Hst & Hpost).
  destruct p1 as [| |[]]; try done. injection Hst as <-. pose proof (phase_exited _ _ Hpost) as (Hf & Hne & Hnc).
  split_and!; [done| |].
  - intros He. apply Exists_exists in He as (a & Hin & Hex).
    apply list_elem_of_split in Hin as (q1 & q2 & ->).
    destruct (phase_run_split _ _ _ _ _ Hpre eq_refl) as (p3 & p4 & _ & Hst' & Hq2).
    destruct a as [|[]]; try done. destruct p3 as [| |[]]; try done. injection Hst' as <-. by apply phase_exited in Hq2 as (_ & ? & _).
  - apply (core_state _ HC). unfold phase_of in *.
    destruct (alive s), (exit_appended (act s)); try done.
Qed.

Lemma output_before_exit_witness :
  Forall (fun a => ~ is_byte a /\ ~ is_exit a)
    [ACtl (CWriterChanged (Some "device:a"%string)); ACtl (CClosed Closed)] /\
  ~ Exists is_exit [AByte x61; AByte x62] /\
  state (meta (state_after demo_exit)) = Exited.
Proof.
  apply (output_before_exit feed1 resize1 (state_after demo_exit) [AByte x61; AByte x62] (Some 0%Z) None).
  - eapply (state_after_reachable demo_exit). vm_compute. reflexivity.
  - vm_compute. reflexivity.
Defined.

(** [Closed] is final: it is appended at most once and no control entry
    follows it; if the exit entry precedes it nothing at all follows, and
    otherwise (a forced close, or the last handle dropped) only output. *)
Theorem closed_final {Emu : Type} (emu_feed : Emu -> list byte -> N -> Emu * list byte)
    (emu_resize : Emu -> N -> N -> Emu) s pre reason post :
  reachable emu_feed emu_resize s -> hist s = pre ++ ACtl (CClosed reason) :: post ->
  alive s = false /\ Forall is_byte post /\ (state (meta s) = Exited -> post = []).
Proof.
  intros [HC _]%Inv_reachable Hh. pose proof (core_phase _ HC) as Hp.
  destruct (phase_run_split _ _ _ _ _ Hp Hh) as (p1 & p2 & _ & Hst & Hpost).
  pose proof (core_state _ HC) as Hs. unfold phase_of in Hpost.
  destruct p1 as [| |[]]; try done; injection Hst as <-.
  - apply phase_closed_false in Hpost as [Hf Hc].
    destruct (alive s), (exit_appended (act s)); try done.
    split_and!; [done..|]. intros Hx%Hs. done.
  - pose proof Hpost as ->%phase_closed_true. simpl in Hpost.
    destruct (alive s), (exit_appended (act s)); try done.
Qed.

Lemma closed_final_witness :
  alive (state_after demo_exit) = false /\ Forall is_byte [] /\
  (state (meta (state_after demo_exit)) = Exited -> @nil Append = []).
Proof.
  apply (closed_final feed1 resize1 (state_after demo_exit)
    [AByte x61; AByte x62; ACtl (CExit (Some 0%Z) None); ACtl (CWriterChanged (Some "device:a"%string))]
    Closed []).
  - eapply (state_after_reachable demo_exit). vm_compute. reflexivity.
  - vm_compute. reflexivity.
Defined.

(** [Closed] is not always the last entry: [pump.abort()] does not wait
    for the pump, so on a forced close a chunk the pump has already read can
    be appended after it. *)
Theorem closed_not_last :
  exists es s, exec_all feed1 resize1 start es = Some s /\
    hist s = [ACtl (CClosed Closed); AByte x61].
Proof.
  exists [Cmd (Close Closed (Some Signal.Kill) 1) (Ok tt); Tick (5000 * 1000 * 1000); TimerFires;
     PumpRead [x61]].
  eexists. split; [vm_compute; reflexivity|]. vm_compute. reflexivity.
Qed.

(** C37: A close terminates.  In whatever run follows, other requests to close
    included, as long as the timer of the close fires when it is due: the
    session is over within three grace periods of any moment at which the
    close is in progress, after at most two earlier firings; and when it is
    over, everyone who had asked for the close or asked meanwhile has been
    answered.  Such a run always exists: time and the timer are enough. *)
Theorem close_terminates {Emu : Type} (emu_feed : Emu -> list byte -> N -> Emu * list byte)
    (emu_resize : Emu -> N -> N -> Emu) s c :
  reachable emu_feed emu_resize s -> a_closing (act s) = Some c ->
  (forall es s', exec_all emu_feed emu_resize s es = Some s' -> punctual emu_feed emu_resize s es ->
     (alive s' = true -> now s' <= now s + 3 * close_grace (cfg s) /\ (timers es <= 2)%nat) /\
     (alive s' = false ->
        forall r, r ∈ responders c \/ Exists (fun e => asks e r) es -> (r, RDone) ∈ replies s')) /\
  (exists es s', exec_all emu_feed emu_resize s es = Some s' /\ alive s' = false /\
     elapsed es <= 3 * close_grace (cfg s) /\ Forall only_time es).
Proof.
  intros HI%Inv_reachable Hc.
  assert (left c <= 2)%nat as Hl by (unfold left; destruct (next_sig c) as [[]|]; lia).
  pose proof (core_timer _ (inv_core _ HI) c Hc) as Htm.
  assert (alive s = true) as Ha.
  { destruct (alive s) eqn:Ha; [done|].
    destruct (core_closed _ (inv_core _ HI) Ha) as (_ & Hn & _). congruence. }
  assert (N.of_nat (left c) * close_grace (cfg s) <= 2 * close_grace (cfg s)) as Hg by (apply N.mul_le_mono_r; lia).
  split.
  - intros es s' He Hp. destruct (close_run _ _ es s s' c He Hp Hc Ha) as [Hb Hans]. split; [|done]. intros Hal.
    specialize (Hb Hal). unfold due in Hb. pose proof (timers_bounded _ _ _ _ _ _ He Hc Hal). split; lia.
  - destruct (close_progress emu_feed emu_resize _ s c HI Hc eq_refl Ha)
      as (es & s' & He & Hd & Hel & Ho & Hr).
    exists es, s'. split_and!; try done. lia.
Qed.

Definition demo_close : list Event := [Cmd (Close TtlExpired None 4) (Ok tt)].

(** Another request to close, two seconds later, does not put it off. *)
Definition demo_join : list Event :=
  [Tick (2000 * 1000 * 1000); Cmd (Close Closed None 5) (Ok tt); Tick (3000 * 1000 * 1000); TimerFires;
   Tick (5000 * 1000 * 1000); TimerFires; Tick (5000 * 1000 * 1000); TimerFires].

Lemma close_terminates_witness :
  exists s', exec_all feed1 resize1 (state_after demo_close) demo_join = Some s' /\ alive s' = false /\
    (5, RDone) ∈ replies s'.
Proof.
  eexists. split; [vm_compute; reflexivity|]. split; [vm_compute; reflexivity|].
  eapply (close_terminates feed1 resize1 (state_after demo_close)).
  - eapply (state_after_reachable demo_close). vm_compute. reflexivity.
  - vm_compute. reflexivity.
  - instantiate (1 := demo_join). vm_compute. reflexivity.
  - vm_compute. repeat split; discriminate.
  - vm_compute. reflexivity.
  - right. apply Exists_cons_tl, Exists_cons_hd. reflexivity.
Defined.

(** Once the child's exit has been observed and no close is under way, no
    signal is ever sent again, whatever is asked of the session: neither an
    explicit signal nor a later close reaches a process group that may have
    been reused. *)
Theorem no_signal_after_exit {Emu : Type} (emu_feed : Emu -> list byte -> N -> Emu * list byte)
    (emu_resize : Emu -> N -> N -> Emu) s es s' :
  exiting (act s) = true -> a_closing (act s) = None ->
  exec_all emu_feed emu_resize s es = Some s' -> sigs s' = sigs s.
Proof.
  intros Hx Hc He. eapply exec_all_past; [|done]. split; [done|]. by rewrite Hc.
Qed.

Definition demo_late : list Event :=
  [Cmd (SignalCmd Signal.Int 1) (Ok tt); Cmd (Close Closed None 2) (Ok tt);
   Tick (5000 * 1000 * 1000); TimerFires].

Lemma no_signal_after_exit_witness :
  exists s', exec_all feed1 resize1 (state_after [ChildExit default_exit]) demo_late = Some s' /\
    sigs s' = sigs (state_after [ChildExit default_exit]).
Proof.
  eexists. split; [vm_compute; reflexivity|].
  apply (no_signal_after_exit feed1 resize1 (state_after [ChildExit default_exit]) demo_late).
  - vm_compute. reflexivity.
  - vm_compute. reflexivity.
  - vm_compute. reflexivity.
Defined.

(** A close that started before the child exited does signal after the
    exit: the escalation does not look at [exiting], so with the exit observed
    and the output not drained yet the next timer still sends its signal. *)
Theorem escalation_signals_exited :
  exists es1 s1 es2 s2, exec_all feed1 resize1 start es1 = Some s1 /\ exiting (act s1) = true /\
    exec_all feed1 resize1 s1 es2 = Some s2 /\ sigs s2 = sigs s1 ++ [Signal.Term; Signal.Kill].
Proof.
  exists [Cmd (Close Closed None 1) (Ok tt); ChildExit (mkExit (Some 0%Z) None)].
  eexists _, [Tick (5000 * 1000 * 1000); TimerFires; Tick (5000 * 1000 * 1000); TimerFires], _.
  split; [vm_compute; reflexivity|]. split; [vm_compute; reflexivity|].
  split; vm_compute; reflexivity.
Qed.

(** The resume TTL.  A session is due for reaping exactly when it has no
    attachment, no close is accepted and its resume deadline has passed, with
    the reason its state gives; and the deadline announced at any time is
    never undercut: whatever happens next, the session is not reaped before
    it. *)
Theorem reap_not_before_deadline {Emu : Type} (emu_feed : Emu -> list byte -> N -> Emu * list byte)
    (emu_resize : Emu -> N -> N -> Emu) s es s' ttl r :
  reachable emu_feed emu_resize s -> exec_all emu_feed emu_resize s es = Some s' ->
  (reap_reason (ttl_window s') (now s') ttl = Some r <->
     attached (meta s') = 0 /\ m_closing (meta s') = false /\ resume_deadline s' ttl <= now s' /\
     r = match state (meta s') with Exited => Exit | Running => TtlExpired end) /\
  (reap_reason (ttl_window s') (now s') ttl = Some r -> resume_deadline s ttl <= now s').
Proof.
  intros HI%Inv_reachable He.
  assert (Inv s') as HI' by by eapply Inv_exec_all.
  pose proof (core_time _ (inv_core _ HI')) as Hb.
  assert (reap_reason (ttl_window s') (now s') ttl = Some r <->
     attached (meta s') = 0 /\ m_closing (meta s') = false /\ resume_deadline s' ttl <= now s' /\
     r = match state (meta s') with Exited => Exit | Running => TtlExpired end) as Hiff.
  { unfold reap_reason, resume_deadline, deadline, ttl_window. simpl.
    destruct (N.ltb_spec 0 (attached (meta s'))); simpl; [split; [done|lia]|].
    destruct (m_closing (meta s')); simpl; [split; [done|naive_solver]|].
    destruct (N.ltb_spec (now s' - ttl_base (meta s')) ttl); [split; [done|lia]|].
    split; [intros [= <-]; split_and!; (done || lia)|by intros (_ & _ & _ & ->)]. }
  split; [done|]. intros (_ & _ & Hd & _)%Hiff.
  etrans; [by eapply deadline_run|done].
Qed.

Lemma reap_not_before_deadline_witness :
  (reap_reason (ttl_window (state_after [Attach; Tick 5; Detach; Tick 10]))
     (now (state_after [Attach; Tick 5; Detach; Tick 10])) 10 = Some TtlExpired <->
     attached (meta (state_after [Attach; Tick 5; Detach; Tick 10])) = 0 /\
     m_closing (meta (state_after [Attach; Tick 5; Detach; Tick 10])) = false /\
     resume_deadline (state_after [Attach; Tick 5; Detach; Tick 10]) 10
       <= now (state_after [Attach; Tick 5; Detach; Tick 10]) /\
     TtlExpired = match state (meta (state_after [Attach; Tick 5; Detach; Tick 10])) with
                  | Exited => Exit | Running => TtlExpired end) /\
  (reap_reason (ttl_window (state_after [Attach; Tick 5; Detach; Tick 10]))
     (now (state_after [Attach; Tick 5; Detach; Tick 10])) 10 = Some TtlExpired ->
   resume_deadline (state_after [Attach; Tick 5]) 10
     <= now (state_after [Attach; Tick 5; Detach; Tick 10])).
Proof.
  apply (reap_not_before_deadline feed1 resize1 (state_after [Attach; Tick 5]) [Detach; Tick 10]).
  - eapply (state_after_reachable [Attach; Tick 5]). vm_compute. reflexivity.
  - vm_compute. reflexivity.
Defined.

(** A connection that does not hold the writer lease has no effect on the
    child: its writes queue nothing and its resizes change nothing, in any
    state. *)
Theorem non_writer_no_effect {Emu : Type} (emu_feed : Emu -> list byte -> N -> Emu * list byte)
    (emu_resize : Emu -> N -> N -> Emu) s conn c res s' :
  Lease.is_held_by (lease (meta s)) conn = false ->
  (exists data q resp, c = Write conn data q resp) \/ (exists co ro resp, c = ResizeAt conn co ro resp) ->
  exec emu_feed emu_resize s (Cmd c res) = Some s' ->
  queued s' = queued s /\ child_in s' = child_in s /\ sizes s' = sizes s /\ lease (meta s') = lease (meta s).
Proof.
  intros Hl Hc He. cbn [exec] in He. destruct (alive s); [|done]. injection He as <-.
  destruct Hc as [(data & q & resp & ->)|(co & ro & resp & ->)]; cbn [handle_command].
  - destruct (loop_top_io (enqueue_write conn data q resp s)) as (-> & -> & -> & ->).
    unfold enqueue_write. rewrite Hl. simpl.
    destruct (_ || m_closing _); by destruct q as [[]|].
  - rewrite Hl. simpl. destruct (loop_top_io (reply resp (RResizeAt (Err NotWriter)) s)) as (-> & -> & -> & ->).
    done.
Qed.

Definition demo_steal : Session unit :=
  state_after [Cmd (TakeLease "device:a" 7 7 false 0) (Ok tt);
    Cmd (TakeLease "device:b" 8 8 false 1) (Ok tt)].

Lemma non_writer_no_effect_witness :
  exists s', exec feed1 resize1 demo_steal (Cmd (Write 7 [x61] None 2) (Ok tt)) = Some s' /\
  queued s' = queued demo_steal /\ child_in s' = child_in demo_steal /\
  sizes s' = sizes demo_steal /\ lease (meta s') = lease (meta demo_steal).
Proof.
  eexists. split; [vm_compute; reflexivity|].
  apply (non_writer_no_effect feed1 resize1 demo_steal 7 (Write 7 [x61] None 2) (Ok tt)).
  - vm_compute. reflexivity.
  - left. eexists _, _, _. reflexivity.
  - vm_compute. reflexivity.
Defined.

End SessionLife.
