(* ===== verification/SessionInput.v ===== *)
(** * Client input is applied exactly once

    Properties of the input path of [crates/qsh-core/src/broker/session.rs]
    (modelled in [Session]): numbered input chunks are trimmed against the
    offset their input axis has already applied, so retransmissions are
    harmless; the axis map stays bounded; and what the queue accepts reaches
    the child in order. *)

From S2P Require Import Prelude Ring Lease Signal Session.

Module SessionInput.
Import Ring Session.

(** ** The axis map *)

Lemma oldest_axis_spec (m : gmap InputStreamId N) :
  match oldest_axis m with
  | Some k => is_Some (m !! k) /\ forall k', is_Some (m !! k') -> k <= k'
  | None => m = ∅
  end.
Proof.
  unfold oldest_axis. induction m as [|i x m Hi Hf IH] using map_first_key_ind; [done|].
  rewrite map_fold_insert_first_key by done.
  destruct (map_fold _ None m) as [k|].
  - destruct IH as [[v Hk] Hmin]. split.
    + destruct (N.min_spec i k) as [[_ ->]|[_ ->]]; [by simplify_map_eq|].
      destruct (decide (i = k)) as [->|]; [by simplify_map_eq|]. exists v. by simplify_map_eq.
    + intros k' [v' Hk']. destruct (decide (i = k')) as [->|]; [lia|].
      simplify_map_eq. specialize (Hmin k' ltac:(eauto)). lia.
  - subst m. split; [by simplify_map_eq|]. intros k' [v' Hk'].
    destruct (decide (i = k')) as [->|]; [lia|]. simplify_map_eq.
Qed.

Lemma prune_loop_lookup fuel m k v : prune_loop fuel m !! k = Some v -> m !! k = Some v.
Proof.
  revert m. induction fuel as [|fuel IH]; intros m; simpl; [done|].
  destruct (_ <? _)%nat; [|done]. destruct (oldest_axis m); [|done].
  intros H%IH. by apply lookup_delete_Some in H as [_ ?].
Qed.

Lemma prune_lookup m k v : prune_input_axes m !! k = Some v -> m !! k = Some v.
Proof. apply prune_loop_lookup. Qed.

Lemma prune_loop_size fuel m :
  (size m <= fuel)%nat -> (size (prune_loop fuel m) <= MAX_INPUT_AXES)%nat.
Proof.
  revert m. induction fuel as [|fuel IH]; intros m Hf; simpl; [unfold MAX_INPUT_AXES; lia|].
  destruct (Nat.ltb_spec MAX_INPUT_AXES (size m)); [|lia].
  pose proof (oldest_axis_spec m) as Ho. destruct (oldest_axis m) as [k|].
  - destruct Ho as [[v Hk] _]. apply IH. rewrite map_size_delete_Some by eauto. lia.
  - subst. rewrite map_size_empty in *. lia.
Qed.

(** Pruning keeps the newest axes: whatever it drops is older than all it
    keeps. *)
Lemma prune_loop_newest fuel m k k' :
  is_Some (m !! k) -> prune_loop fuel m !! k = None -> is_Some (prune_loop fuel m !! k') -> k < k'.
Proof.
  revert m. induction fuel as [|fuel IH]; intros m Hk Hn Hk'; simpl in *;
    [rewrite Hn in Hk; by destruct Hk|].
  destruct (_ <? _)%nat; [|rewrite Hn in Hk; by destruct Hk].
  pose proof (oldest_axis_spec m) as Ho. destruct (oldest_axis m) as [o|];
    [|rewrite Hn in Hk; by destruct Hk].
  destruct Ho as [_ Hmin]. destruct (decide (o = k)) as [->|Hne].
  - destruct Hk' as [v' Hv']. pose proof (prune_loop_lookup _ _ _ _ Hv') as Hd.
    apply lookup_delete_Some in Hd as [Hne Hd]. specialize (Hmin k' ltac:(eauto)). lia.
  - eapply IH; [|done|done]. by rewrite lookup_delete_ne.
Qed.

(** ** Exactly-once delivery *)

Section Input.
Context {Emu : Type}.
Variable emu_feed : Emu -> list byte -> N -> Emu * list byte.
Variable emu_resize : Emu -> N -> N -> Emu.

Abbreviation Sess := (Session Emu).
Abbreviation exec := (exec emu_feed emu_resize).
Abbreviation exec_all := (exec_all emu_feed emu_resize).

Definition axes (s : Sess) : gmap InputStreamId N := applied_input (meta s).

(** The numbered chunks among [cs] that came in on axis [a], with their
    offsets. *)
Definition axis_chunks (a : InputStreamId) (cs : list InputChunk) : list (N * list byte) :=
  omap (fun c => match ch_from c with
                 | Some (a', o) => if a' =? a then Some (o, ch_data c) else None
                 | None => None
                 end) cs.

(** The client on axis [a] numbers the bytes of one stream [S]. *)
Definition client_of (S : list byte) (a : InputStreamId) (e : Event) : Prop :=
  match e with
  | Cmd (Write _ data (Some (a', seq)) _) _ =>
      a' = a -> seq <= len S /\ len data <= seq /\ data = slice (seq - len data) seq S
  | Seed id _ => id <> a
  | _ => True
  end.

(** The writer on axis [a] is allowed to write at this step. *)
Definition granted (a : InputStreamId) (s : Sess) (e : Event) : Prop :=
  match e with
  | Cmd (Write conn _ (Some (a', _)) _) _ =>
      a' = a -> state (meta s) = Running /\ m_closing (meta s) = false /\
                Lease.is_held_by (lease (meta s)) conn = true
  | _ => True
  end.

(** A property of every step of a run (and of its states). *)
Fixpoint along (P : Sess -> Event -> Prop) (s : Sess) (es : list Event) : Prop :=
  match es with
  | [] => True
  | e :: es' => P s e /\ forall s', exec s e = Some s' -> along P s' es'
  end.

Lemma fold_reply_queued rs (s : Sess) :
  queued (fold_left (fun st r => reply (fst r) (snd r) st) rs s) = queued s.
Proof. revert s. induction rs as [|r rs IH]; intros s; [done|]. simpl. by rewrite IH. Qed.

Lemma finalise_frame (s : Sess) : axes (finalise s) = axes s /\ queued (finalise s) = queued s.
Proof.
  unfold finalise, axes. match goal with |- context [fold_left _ ?rs ?x] =>
    rewrite (fold_reply_queued rs x);
    destruct (fold_reply_frame rs x) as (_ & _ & _ & -> & _) end. done.
Qed.

Lemma loop_top_frame (s : Sess) : axes (loop_top s) = axes s /\ queued (loop_top s) = queued s.
Proof.
  unfold loop_top. assert (axes (append_exit s) = axes s /\ queued (append_exit s) = queued s) as [<- <-].
  { unfold append_exit. by destruct (_ && _). }
  destruct (a_closing _) as [c|]; [|done]. destruct (_ || _); [apply finalise_frame|done].
Qed.

(** Steps other than numbered writes and seeds leave the axes alone and queue
    nothing on an axis. *)
Definition quiet (s s' : Sess) : Prop :=
  axes s' = axes s /\ exists extra, queued s' = queued s ++ extra /\ forall a, axis_chunks a extra = [].

Lemma quiet_refl s s' : axes s' = axes s -> queued s' = queued s -> quiet s s'.
Proof. intros H1 H2. split; [done|]. exists []. by rewrite app_nil_r. Qed.

Lemma handle_quiet cmd res s :
  match cmd with Write _ _ (Some _) _ => False | _ => True end ->
  quiet s (handle_command emu_resize cmd res s).
Proof.
  destruct cmd as [conn data [q|] resp| | | | | |]; intros H; try done;
    cbn [handle_command].
  - unfold enqueue_write. simpl.
    destruct (if _ || m_closing _ then _ else _) as [applied|err]; [|by apply quiet_refl].
    unfold try_send. destruct (alive s); simpl; [|by apply quiet_refl].
    destruct (_ <? _); [|by apply quiet_refl]. split; [done|]. by eexists.
  - unfold control_resize, resize_screen.
    by apply quiet_refl; destruct (is_ok res); simpl; destruct (screen s).
  - destruct (negb _); [by apply quiet_refl|]. unfold control_resize, resize_screen.
    by apply quiet_refl; destruct (is_ok res); simpl; destruct (screen s).
  - by destruct (_ && _); apply quiet_refl.
  - by destruct (Lease.take_owned _ _ _ _ _) as [[d [|]|h] l]; apply quiet_refl.
  - destruct (Lease.release_connection _ _) as [[h|] l]; [|by apply quiet_refl].
    by case_bool_decide; apply quiet_refl.
  - unfold begin_close. destruct (a_closing _); [by apply quiet_refl|].
    by destruct (bool_decide _ || _); apply quiet_refl.
Qed.

Lemma pump_read_quiet data s : quiet s (pump_read emu_feed data s).
Proof.
  unfold pump_read, feed_screen.
  destruct (screen s); [destruct (emu_feed _ _ _) as [? []]|]; simpl; try by apply quiet_refl.
  unfold try_send. simpl. destruct (alive s); simpl; [|by apply quiet_refl].
  destruct (_ <? _); [|by apply quiet_refl]. split; [done|]. by eexists.
Qed.

Lemma quiet_loop_top s s' : quiet s s' -> quiet s (loop_top s').
Proof. unfold quiet. by destruct (loop_top_frame s') as [-> ->]. Qed.

Lemma exec_quiet s e s' :
  exec s e = Some s' ->
  match e with Cmd (Write _ _ (Some _) _) _ | Seed _ _ => False | _ => True end ->
  quiet s s'.
Proof.
  intros He Hk. destruct e; cbn [Session.exec] in He; try done.
  - case_match; [|done]. injection He as <-. apply pump_read_quiet.
  - case_match; [|done]. injection He as <-. by apply quiet_refl.
  - case_match; [|done]. injection He as <-. by apply quiet_refl.
  - case_match; [|done]. injection He as <-. by apply quiet_loop_top, quiet_refl.
  - case_match; [|done]. injection He as <-. by apply quiet_loop_top, quiet_refl.
  - destruct (alive s); [|done]. injection He as <-. apply quiet_loop_top, handle_quiet.
    by destruct c as [? ? [|] ?| | | | | |].
  - destruct (a_closing (act s)) as [c|] eqn:Ec; [|done]. case_match; [|done]. injection He as <-.
    apply quiet_loop_top. unfold escalate. rewrite Ec. by destruct (next_sig c); apply quiet_refl.
  - destruct (alive s); [|done]. injection He as <-. apply quiet_refl; apply finalise_frame.
  - destruct (in_q s), (writing s); try done. destruct (alive s); [|done].
    injection He as <-. by apply quiet_refl.
  - destruct (writing s) as [c|]; [|done]. injection He as <-. unfold writer_done.
    by destruct (ch_resp c); apply quiet_refl.
  - destruct (writing s) as [c|]; [|done]. destruct (alive s); [done|]. injection He as <-.
    by destruct (ch_resp c); apply quiet_refl.
  - injection He as <-. by apply quiet_refl.
  - case_match; [|done]. injection He as <-. by apply quiet_refl.
  - injection He as <-. by apply quiet_refl.
  - injection He as <-. by apply quiet_refl.
Qed.

(** What a numbered write does to its axis and to the queue. *)
Lemma enqueue_axis conn data a seq resp s :
  let s' := enqueue_write conn data (Some (a, seq)) resp s in
  let v := default 0 (axes s !! a) in
  let allowed := state (meta s) = Running /\ m_closing (meta s) = false /\
                 Lease.is_held_by (lease (meta s)) conn = true in
  (queued s' = queued s /\
     (axes s' = axes s \/ ~ allowed /\ axes s' = prune_input_axes (<[a := v `max` seq]> (axes s)))) \/
  (allowed /\ len data <= seq /\ seq - len data <= v < seq /\
   axes s' = <[a := seq]> (axes s) /\
   exists c, queued s' = queued s ++ [c] /\ ch_from c = Some (a, v) /\
     ch_data c = dropN (v - (seq - len data)) data).
Proof.
  intros s' v allowed. subst allowed. unfold s', enqueue_write, axes in *. cbn [fst fmap option_fmap option_map mbind option_bind].
  destruct (bool_decide (state (meta s) = Running)) eqn:Er; simpl.
  2: { left. bools. split; [done|]. right. split; [intros (? & ? & ?); congruence|done]. }
  destruct (m_closing (meta s)) eqn:Ec.
  { left. split; [done|]. right. split; [intros (? & ? & ?); congruence|done]. }
  destruct (Lease.is_held_by (lease (meta s)) conn) eqn:El; simpl.
  2: { left. split; [done|]. right. split; [intros (? & ? & ?); congruence|done]. }
  bools. fold v. destruct (N.ltb_spec seq (len data)); [left; by auto|].
  destruct (N.ltb_spec v (seq - len data)); [left; by auto|].
  destruct (N.leb_spec (len data) (v - (seq - len data))); [left; by auto|].
  unfold try_send. destruct (alive s); simpl; [|left; by auto].
  destruct (_ <? _); [|left; by auto].
  right. split_and!; try done; try lia. by eexists.
Qed.

Lemma axis_chunks_one a c a' o :
  ch_from c = Some (a', o) -> axis_chunks a [c] = if a' =? a then [(o, ch_data c)] else [].
Proof. intros H. unfold axis_chunks. simpl. rewrite H. by destruct (a' =? a). Qed.

(** One step, seen from axis [a]: it queues nothing on it, or exactly the
    stream's bytes from the applied offset to the new one. *)
Lemma exec_axis S s e s1 a v v1 :
  exec s e = Some s1 -> axes s !! a = Some v -> axes s1 !! a = Some v1 -> client_of S a e ->
  exists extra, queued s1 = queued s ++ extra /\
    ((axis_chunks a extra = [] /\ v <= v1 /\ (granted a s e -> v1 = v)) \/
     (axis_chunks a extra = [(v, slice v v1 S)] /\ v < v1 <= len S)).
Proof.
  intros He Hv Hv1 Hcl.
  assert (quiet s s1 -> exists extra, queued s1 = queued s ++ extra /\
    ((axis_chunks a extra = [] /\ v <= v1 /\ (granted a s e -> v1 = v)) \/
     (axis_chunks a extra = [(v, slice v v1 S)] /\ v < v1 <= len S))) as Hq.
  { intros [Hax (extra & Hex & Hno)]. exists extra. split; [done|]. left.
    rewrite Hax in Hv1. simplify_eq. split; [apply Hno|]. split; [lia|done]. }
  destruct e as [| | | | |cmd res| | | | | | | | |id from|];
    try (apply Hq; by eapply exec_quiet).
  - destruct cmd as [conn data [[a' seq]|] resp| | | | | |]; try (apply Hq; by eapply exec_quiet).
    cbn [Session.exec] in He. destruct (alive s); [|done]. injection He as <-.
    cbn [Session.handle_command] in *.
    destruct (loop_top_frame (enqueue_write conn data (Some (a', seq)) resp s)) as [Hax Hqu].
    rewrite Hax in Hv1. rewrite Hqu. clear Hq Hax Hqu.
    destruct (enqueue_axis conn data a' seq resp s)
      as [[-> Hax]|(Hal & Hlen & Hr & Hax & c & -> & Hfrom & Hdata)].
    + exists []. split; [by rewrite app_nil_r|]. left. split; [done|].
      destruct Hax as [Hax|[Hno Hax]]; rewrite Hax in Hv1; [simplify_eq; split; [lia|done]|].
      apply prune_lookup in Hv1. destruct (decide (a' = a)) as [->|Hne].
      * rewrite Hv in Hv1. simplify_map_eq. split; [simpl; lia|]. intros Hg. by destruct Hno; apply Hg.
      * simplify_map_eq. split; [lia|done].
    + exists [c]. split; [done|]. rewrite Hax in Hv1. destruct (decide (a' = a)) as [->|Hne].
      * apply lookup_insert_Some in Hv1 as [[_ <-]|[? _]]; [|done]. rewrite Hv in *.
        change (default 0 (Some v)) with v in *. right.
        destruct Hcl as (HS & _ & Hd); [done|]. split; [|lia].
        rewrite (axis_chunks_one _ _ _ _ Hfrom), N.eqb_refl, Hdata. do 2 f_equal.
        rewrite Hd at 2. rewrite dropN_slice. f_equal. lia.
      * left. rewrite (axis_chunks_one _ _ _ _ Hfrom).
        apply lookup_insert_Some in Hv1 as [[? _]|[_ Hv1]]; [done|]. simplify_eq.
        replace (a' =? a) with false by lia. split_and!; [done|lia|done].
  - cbn [Session.exec] in He. injection He as <-. simpl in Hcl.
    exists []. split; [by rewrite app_nil_r|]. left. split; [done|].
    unfold axes in *. simpl in Hv1. apply prune_lookup in Hv1. simplify_map_eq. split; [lia|done].
Qed.

(** Chunks that are disjoint, ordered slices of [S] between [lo] and [hi]. *)
Fixpoint slices (S : list byte) (lo hi : N) (l : list (N * list byte)) : Prop :=
  match l with
  | [] => lo <= hi
  | (o, d) :: l' => lo <= o /\ d <> [] /\ d = slice o (o + len d) S /\ slices S (o + len d) hi l'
  end.

Lemma slices_lower S lo lo' hi l : lo' <= lo -> slices S lo hi l -> slices S lo' hi l.
Proof. destruct l as [|[o d] l]; simpl; [lia|]. intros Hle (? & ?). split; [lia|done]. Qed.

Lemma axis_chunks_app a l1 l2 : axis_chunks a (l1 ++ l2) = axis_chunks a l1 ++ axis_chunks a l2.
Proof. apply omap_app. Qed.

Lemma present_head a (P : Sess -> Event -> Prop) s es s' hi :
  (forall s e, P s e -> is_Some (axes s !! a)) ->
  along P s es -> exec_all s es = Some s' -> axes s' !! a = Some hi -> is_Some (axes s !! a).
Proof.
  intros HP Hal He Hhi. destruct es as [|e es]; simpl in *; [simplify_eq; eauto|].
  destruct Hal as [H _]. by eapply HP.
Qed.

(** A client numbering the bytes of [S] on an axis the session still knows. *)
Definition client_step (S : list byte) (a : InputStreamId) (s : Sess) (e : Event) : Prop :=
  is_Some (axes s !! a) /\ client_of S a e.

Lemma axis_run S a es s s' lo hi :
  exec_all s es = Some s' -> axes s !! a = Some lo -> axes s' !! a = Some hi ->
  along (client_step S a) s es ->
  exists extra, queued s' = queued s ++ extra /\
    slices S lo hi (axis_chunks a extra) /\
    (along (granted a) s es -> lo <= hi /\ concat (snd <$> axis_chunks a extra) = slice lo hi S).
Proof.
  revert s lo. induction es as [|e es IH]; intros s lo He Hlo Hhi Hal.
  - simpl in He. simplify_eq. exists []. split; [by rewrite app_nil_r|]. simpl.
    split; [lia|]. intros _. split; [lia|]. by rewrite slice_nil.
  - cbn [Session.exec_all] in He. destruct (exec s e) as [s1|] eqn:E; [|done].
    destruct Hal as [[_ Hcl] Hal]. specialize (Hal s1 E).
    destruct (present_head a _ s1 es s' hi (fun s e H => proj1 H) Hal He Hhi) as [v1 Hv1].
    destruct (IH s1 v1 He Hv1 Hhi Hal) as (extra & Hq & Hsl & Hc).
    destruct (exec_axis S s e s1 a lo v1 E Hlo Hv1 Hcl) as (x & Hx & Hcase).
    exists (x ++ extra). rewrite Hq, Hx, app_assoc, axis_chunks_app. split; [done|].
    destruct Hcase as [(-> & Hle & Hg)|(-> & Hlt)].
    + split; [by eapply slices_lower|]. intros [Hgr Hgr']. specialize (Hgr' s1 E).
      rewrite <- (Hg Hgr). auto.
    + assert (len (slice lo v1 S) = v1 - lo) as Hlen by (rewrite len_slice; lia).
      split.
      * simpl. rewrite Hlen. replace (lo + (v1 - lo)) with v1 by lia. split_and!; try done.
        apply len_pos_inv. lia.
      * intros [_ Hgr']. specialize (Hgr' s1 E). destruct (Hc Hgr') as [? Hcc].
        split; [lia|]. rewrite fmap_app, concat_app, Hcc. cbn. rewrite app_nil_r.
        apply slice_app. lia.
Qed.

(** ** The queue is first in, first out *)

Definition pending (s : Sess) : list InputChunk :=
  match writing s with Some c => [c] | None => [] end ++ in_q s.

Definition bytes_of (cs : list InputChunk) : list byte := concat (map ch_data cs).

Definition fifo (s : Sess) : Prop :=
  exists rest, bytes_of (queued s) = child_in s ++ bytes_of (pending s) ++ rest /\
    (alive s = true -> rest = []).

Lemma bytes_of_app c1 c2 : bytes_of (c1 ++ c2) = bytes_of c1 ++ bytes_of c2.
Proof. unfold bytes_of. by rewrite map_app, concat_app. Qed.

(** The part of the state [fifo] reads. *)
Definition same_queue (s s' : Sess) : Prop :=
  queued s' = queued s /\ child_in s' = child_in s /\ writing s' = writing s /\ in_q s' = in_q s /\
  alive s' = alive s.

Lemma fifo_same s s' : same_queue s s' -> fifo s -> fifo s'.
Proof. unfold fifo, pending. by intros (-> & -> & -> & -> & ->). Qed.

Lemma fifo_enqueue c s : fifo s -> alive s = true -> fifo (enqueue c s).
Proof.
  intros (rest & H & Ha) Hal. specialize (Ha Hal) as ->. exists []. split; [|done].
  unfold pending in *. simpl. rewrite bytes_of_app, H, !app_nil_r, (app_assoc _ (in_q s)).
  by rewrite (bytes_of_app (_ ++ _)), !app_assoc.
Qed.

Lemma fifo_try_send c s s' : try_send c s = Sent s' -> fifo s -> fifo s'.
Proof.
  unfold try_send. destruct (alive s) eqn:Ha; [|done]. simpl.
  destruct (_ <? _); [|done]. intros [= <-] H. by apply fifo_enqueue.
Qed.

Lemma fifo_finalise s : fifo s -> fifo (finalise s).
Proof.
  intros (rest & H & _). unfold finalise.
  match goal with |- context [fold_left _ ?rs ?x] => set (y := x); set (l := rs) end.
  pose proof (fold_reply_queued l y) as Hqd.
  destruct (fold_reply_frame l y) as (_ & Ha & _ & _ & _ & _ & Hc & Hw & Hq & _).
  exists (bytes_of (in_q s) ++ rest). unfold pending. rewrite Hqd, Hc, Hw, Hq, Ha.
  split; [|done]. change (queued y) with (queued s). change (child_in y) with (child_in s).
  change (writing y) with (writing s). change (in_q y) with (@nil InputChunk).
  rewrite app_nil_r, H. unfold pending. by rewrite bytes_of_app, !app_assoc.
Qed.

Lemma fifo_loop_top s : fifo s -> fifo (loop_top s).
Proof.
  intros H. unfold loop_top. assert (fifo (append_exit s)) as H1.
  { eapply fifo_same, H. unfold append_exit. by destruct (_ && _). }
  destruct (a_closing _); [|done]. destruct (_ || _); [by apply fifo_finalise|done].
Qed.

Lemma fifo_handle_command cmd res s :
  fifo s -> alive s = true -> fifo (handle_command emu_resize cmd res s).
Proof.
  intros H Ha. destruct cmd; cbn [handle_command].
  - unfold enqueue_write. destruct (if _ || m_closing _ then _ else _) as [applied|err].
    + destruct (judge_chunk _ _ _) as [r|d next]; [by eapply fifo_same, H|].
      destruct (try_send _ s) as [s1| |] eqn:E; [|by eapply fifo_same, H..].
      apply fifo_try_send in E; [|done]. destruct (fst <$> _); by eapply fifo_same, E.
    + destruct input_seq as [[]|]; by eapply fifo_same, H.
  - eapply fifo_same, H. unfold control_resize, resize_screen.
    by destruct (is_ok res); simpl; destruct (screen s).
  - eapply fifo_same, H. destruct (negb _); [done|]. unfold control_resize, resize_screen.
    by destruct (is_ok res); simpl; destruct (screen s).
  - eapply fifo_same, H. by destruct (_ && _).
  - eapply fifo_same, H. by destruct (Lease.take_owned _ _ _ _ _) as [[d [|]|h] l].
  - eapply fifo_same, H. destruct (Lease.release_connection _ _) as [[h|] l]; [|done].
    by case_bool_decide.
  - eapply fifo_same, H. unfold begin_close. destruct (a_closing _); [done|].
    by destruct (bool_decide _ || _).
Qed.

(** The source never fails a write. *)
Definition write_ok (e : Event) : Prop :=
  match e with WriterDone (Err _) _ => False | _ => True end.

Lemma fifo_pump_read data s : fifo s -> fifo (pump_read emu_feed data s).
Proof.
  intros H. unfold pump_read.
  destruct (feed_screen emu_feed data s) as [s1 answers] eqn:E.
  assert (same_queue s s1) as Hs.
  { unfold feed_screen in E. destruct (screen s); [destruct (emu_feed _ _ _)|]; by simplify_eq. }
  assert (fifo (upd_ring (Ring.push (ring s1) data) (map AByte data) s1)) as H1
    by (eapply fifo_same, H; exact Hs).
  destruct answers; [done|]. destruct (try_send _ _) eqn:Et; [|done..]. by eapply fifo_try_send.
Qed.

Lemma fifo_writer_recv c q s :
  in_q s = c :: q -> writing s = None -> fifo s -> fifo (upd_input q (Some c) (child_in s) s).
Proof.
  intros Hq Hw (rest & H & Ha). exists rest. split; [|done].
  cbn [upd_input queued child_in]. rewrite H. unfold pending. cbn [upd_input writing in_q].
  by rewrite Hq, Hw.
Qed.

Lemma fifo_writer_done c written s :
  writing s = Some c -> fifo s -> fifo (writer_done c (Ok tt) written s).
Proof.
  intros Hw (rest & H & Ha).
  assert (fifo (upd_input (in_q s) None (child_in s ++ ch_data c) s)) as H1.
  { exists rest. split; [|done]. cbn [upd_input queued child_in]. rewrite H.
    unfold pending. cbn [upd_input writing in_q]. rewrite Hw, bytes_of_app.
    cbn. by rewrite app_nil_r, <- !app_assoc. }
  unfold writer_done. destruct (ch_resp c); by eapply fifo_same, H1.
Qed.

Lemma fifo_writer_aborted c s :
  writing s = Some c -> alive s = false -> fifo s -> in_q s = [] ->
  fifo (upd_input (in_q s) None (child_in s) s).
Proof.
  intros Hw Hal (rest & H & _) Hq. exists (ch_data c ++ rest). cbn [upd_input alive queued child_in].
  split; [|congruence]. rewrite H. unfold pending. cbn [upd_input writing in_q].
  rewrite Hw, Hq. cbn. by rewrite app_nil_r.
Qed.

Lemma fifo_exec s e s' : Core s -> fifo s -> write_ok e -> exec s e = Some s' -> fifo s'.
Proof.
  intros HC H Hok He. destruct e; cbn [Session.exec] in He.
  - case_match; [|done]. injection He as <-. by apply fifo_pump_read.
  - case_match; [|done]. injection He as <-. by eapply fifo_same, H.
  - case_match; [|done]. injection He as <-. by eapply fifo_same, H.
  - case_match; [|done]. injection He as <-. apply fifo_loop_top. by eapply fifo_same, H.
  - case_match; [|done]. injection He as <-. apply fifo_loop_top. by eapply fifo_same, H.
  - destruct (alive s) eqn:Ha; [|done]. injection He as <-.
    apply fifo_loop_top. by apply fifo_handle_command.
  - destruct (a_closing (act s)) as [c|] eqn:Ec; [|done]. case_match; [|done]. injection He as <-.
    apply fifo_loop_top. eapply fifo_same, H. unfold escalate. rewrite Ec. by destruct (next_sig c).
  - destruct (alive s); [|done]. injection He as <-. by apply fifo_finalise.
  - destruct (in_q s) as [|c q] eqn:Eq; [done|]. destruct (writing s) eqn:Ew; [done|].
    destruct (alive s); [|done]. injection He as <-. by apply fifo_writer_recv.
  - destruct (writing s) as [c|] eqn:Ew; [|done]. injection He as <-.
    destruct res as [[]|]; [|done]. by apply fifo_writer_done.
  - destruct (writing s) as [c|] eqn:Ew; [|done]. destruct (alive s) eqn:Ha; [done|].
    injection He as <-.
    assert (fifo (upd_input (in_q s) None (child_in s) s)) as H1.
    { eapply fifo_writer_aborted; try done. by apply (core_drained _ HC). }
    destruct (ch_resp c); by eapply fifo_same, H1.
  - injection He as <-. by eapply fifo_same, H.
  - case_match; [|done]. injection He as <-. by eapply fifo_same, H.
  - injection He as <-. by eapply fifo_same, H.
  - injection He as <-. by eapply fifo_same, H.
  - injection He as <-. by eapply fifo_same, H.
Qed.

Lemma fifo_exec_all es s s' :
  Inv s -> fifo s -> Forall write_ok es -> exec_all s es = Some s' -> fifo s'.
Proof.
  revert s. induction es as [|e es IH]; intros s HI H Hok; simpl; [by intros [= <-]|].
  destruct (exec s e) as [s1|] eqn:E; [|done]. apply Forall_cons in Hok as [Hok1 Hok].
  apply IH; [by eapply Inv_exec|by eapply fifo_exec; [apply HI|..]|done].
Qed.

End Input.

(** ** Properties *)

(** C21: Exactly-once input.  Take any run of a session in which the client on
    one input axis numbers the bytes of a single stream (retransmitting what
    it likes, interleaved with everything else that can happen) and the axis
    is not pruned.  The chunks the session queues for the child on that axis
    are disjoint slices of the stream in increasing order, starting at the
    applied offset: no byte is applied twice.  If moreover the client may
    write whenever it does, they are together exactly the bytes between the
    applied offsets before and after: no byte is lost. *)
Theorem input_exactly_once {Emu : Type} (emu_feed : Emu -> list byte -> N -> Emu * list byte)
    (emu_resize : Emu -> N -> N -> Emu) (S : list byte) a es s s' lo hi :
  exec_all emu_feed emu_resize s es = Some s' ->
  axes s !! a = Some lo -> axes s' !! a = Some hi ->
  along emu_feed emu_resize (client_step S a) s es ->
  exists extra, queued s' = queued s ++ extra /\
    slices S lo hi (axis_chunks a extra) /\
    (along emu_feed emu_resize (granted a) s es ->
     lo <= hi /\ concat (snd <$> axis_chunks a extra) = slice lo hi S).
Proof. apply axis_run. Qed.

(** A run in which a client holding the lease sends two bytes, retransmits
    them with a third, and repeats itself. *)
Definition feed0 : unit -> list byte -> N -> unit * list byte := fun e _ _ => (e, []).
Definition resize0 : unit -> N -> N -> unit := fun e _ _ => e.
Definition demo_session : Session unit :=
  default (create default_config tt 0)
    (exec (Emu := unit) feed0 resize0 (create default_config tt 0)
       (Cmd (TakeLease "device:a" 7 7 false 0) (Ok tt))).
Definition demo_writes : list Event :=
  [Cmd (Write 7 [x61; x62] (Some (1, 2)) 1) (Ok tt);
   Cmd (Write 7 [x61; x62; x63] (Some (1, 3)) 2) (Ok tt);
   Cmd (Write 7 [x62; x63] (Some (1, 3)) 3) (Ok tt)].

Lemma input_exactly_once_witness :
  exists s', exec_all (Emu := unit) feed0 resize0 demo_session demo_writes = Some s' /\
  exists extra, queued s' = queued demo_session ++ extra /\
    slices [x61; x62; x63] 0 3 (axis_chunks 1 extra) /\
    (along feed0 resize0 (granted 1) demo_session demo_writes ->
     0 <= 3 /\ concat (snd <$> axis_chunks 1 extra) = slice 0 3 [x61; x62; x63]).
Proof.
  eexists. split; [vm_compute; reflexivity|].
  apply (input_exactly_once feed0 resize0 [x61; x62; x63] 1 demo_writes demo_session).
  - vm_compute. reflexivity.
  - vm_compute. reflexivity.
  - vm_compute. reflexivity.
  - split; [split; [eexists; vm_compute; reflexivity|intros _; vm_compute; split_and!; (reflexivity || discriminate)]|].
    intros s1 H1. vm_compute in H1. injection H1 as <-. split; [split; [eexists; vm_compute; reflexivity|intros _; vm_compute; split_and!; (reflexivity || discriminate)]|].
    intros s2 H2. vm_compute in H2. injection H2 as <-. split; [split; [eexists; vm_compute; reflexivity|intros _; vm_compute; split_and!; (reflexivity || discriminate)]|].
    intros s3 H3. vm_compute in H3. injection H3 as <-. exact I.
Defined.

(** The input queue is first in, first out, up to the child: in every
    state of a session whose source accepts its writes, what the child has
    received, followed by the chunk being written and the queue, is exactly
    the concatenation of all accepted chunks in order of acceptance; after the
    session is over what the child received is a prefix of it. *)
Theorem input_fifo {Emu : Type} (emu_feed : Emu -> list byte -> N -> Emu * list byte)
    (emu_resize : Emu -> N -> N -> Emu) config emu t es s :
  exec_all emu_feed emu_resize (create config emu t) es = Some s -> Forall write_ok es ->
  (exists rest, bytes_of (queued s) = child_in s ++ rest) /\
  (alive s = true -> bytes_of (queued s) = child_in s ++ bytes_of (pending s)).
Proof.
  intros He Hok. destruct (fifo_exec_all emu_feed emu_resize es (create config emu t) s) as (rest & H & Ha);
    [apply Inv_create|by exists []|done|done|].
  split; [by eexists|]. intros Hal. rewrite H, (Ha Hal). by rewrite app_nil_r.
Qed.

Definition demo_delivery : list Event :=
  Cmd (TakeLease "device:a" 7 7 false 0) (Ok tt) :: demo_writes ++ [WriterRecv; WriterDone (Ok tt) 0].

Lemma input_fifo_witness :
  exists s, exec_all (Emu := unit) feed0 resize0 (create default_config tt 0) demo_delivery = Some s /\
  (exists rest, bytes_of (queued s) = child_in s ++ rest) /\
  (alive s = true -> bytes_of (queued s) = child_in s ++ bytes_of (pending s)).
Proof.
  eexists. split; [vm_compute; reflexivity|].
  apply (input_fifo feed0 resize0 default_config tt 0 demo_delivery).
  - vm_compute. reflexivity.
  - repeat constructor.
Defined.

(** Forking or refusing input never leaves more than [MAX_INPUT_AXES]
    axes, and what pruning drops is older than everything it keeps. *)
Theorem prune_bounded m :
  (size (prune_input_axes m) <= MAX_INPUT_AXES)%nat /\
  (forall k v, prune_input_axes m !! k = Some v -> m !! k = Some v) /\
  (forall k k', is_Some (m !! k) -> prune_input_axes m !! k = None ->
     is_Some (prune_input_axes m !! k') -> k < k').
Proof.
  split_and!; [by apply prune_loop_size|apply prune_lookup|apply prune_loop_newest].
Qed.

(** The axis map is nevertheless not bounded by [MAX_INPUT_AXES]: a write
    accepted on an axis that was pruned inserts it again without pruning. *)
Theorem axes_exceed_bound :
  exists es s, exec_all (Emu := unit) feed0 resize0 (create default_config tt 0) es = Some s /\
    (MAX_INPUT_AXES < size (axes s))%nat.
Proof.
  exists (Cmd (TakeLease "device:a" 7 7 false 0) (Ok tt)
    :: map (fun n => Seed (N.of_nat n) None) (seq 2 32)
    ++ [Cmd (Write 7 [x61] (Some (1, 1)) 1) (Ok tt)]).
  eexists. split; [vm_compute; reflexivity|]. vm_compute. lia.
Qed.

End SessionInput.
