(* ===== verification/Resume.v ===== *)
(** * Resume credentials

    Models [crates/qsh-core/src/broker/resume.rs]: the host's store of resume
    credentials, one per session, each a hash of a token bound to a peer and
    an expiry.  The hash ([blake3]) is a parameter; token bytes come from the
    operating system's generator and are an argument of the operations that
    mint.  Operations run under the store's lock, so each is one step; the
    clock is part of the state. *)

From S2P Require Import Prelude Session.

Module Resume.

Definition RESUME_TOKEN_LEN : N := 32.
Definition PEER_FINGERPRINT_LEN : N := 32.

Abbreviation SessionId := string.
(** A token is its bytes; a [PeerFingerprint] is its digest. *)
Abbreviation ResumeToken := (list byte).
Abbreviation PeerFingerprint := (list byte).

(** [ResumeToken::from_slice] *)
Definition from_slice (bytes : list byte) : option ResumeToken :=
  if len bytes =? RESUME_TOKEN_LEN then Some bytes else None.

Inductive ResumeDenied := Denied.

Section Registry.
Context {Digest : Type} `{EqDecision Digest}.
(** [TokenHash::of] and the all-zero digest an unknown session compares
    against. *)
Variable hash_of : list byte -> Digest.
Variable zero_hash : Digest.
Definition zero_peer : PeerFingerprint := repeat x00 (N.to_nat PEER_FINGERPRINT_LEN).

Record Entry := mkEntry {
  hash : Digest;
  peer : PeerFingerprint;
  expires_at : N;
  input_stream : Session.InputStreamId;
}.

(** The store and its clock, and the record of what happened to it, which no
    operation reads. *)
Inductive Mark :=
  | Minted (id : SessionId) (tok : ResumeToken) (p : PeerFingerprint)
  | Redeemed (id : SessionId) (tok : ResumeToken) (p : PeerFingerprint)
  | Dropped (id : SessionId).

Record ResumeRegistry := mkReg {
  clock : N;
  entries : gmap SessionId Entry;
  trail : list Mark;
}.

(** [ResumeRegistry::new] *)
Definition new (t : N) : ResumeRegistry := mkReg t ∅ [].

(** The comparison [verify] and [rotate] share: the three checks folded into
    one, against zeros when the session is unknown. *)
Definition credential_ok (r : ResumeRegistry) (id : SessionId) (presented : list byte)
    (p : PeerFingerprint) : bool :=
  let entry := entries r !! id in
  let present := bool_decide (is_Some entry) in
  let stored_hash := match entry with Some e => hash e | None => zero_hash end in
  let stored_peer := match entry with Some e => peer e | None => zero_peer end in
  let fresh := match entry with Some e => clock r <? expires_at e | None => false end in
  present && bool_decide (hash_of presented = stored_hash) && bool_decide (stored_peer = p) && fresh.

(** [ResumeRegistry::issue] *)
Definition issue (id : SessionId) (p : PeerFingerprint) (ttl : N) (token : ResumeToken)
    (r : ResumeRegistry) : ResumeRegistry :=
  mkReg (clock r)
    (<[id := mkEntry (hash_of token) p (clock r + ttl) Session.FIRST_INPUT_STREAM]> (entries r))
    (trail r ++ [Minted id token p]).

(** [ResumeRegistry::verify] *)
Definition verify (r : ResumeRegistry) (id : SessionId) (presented : list byte)
    (p : PeerFingerprint) : result Session.InputStreamId ResumeDenied :=
  if credential_ok r id presented p
  then Ok (match entries r !! id with Some e => input_stream e | None => Session.FIRST_INPUT_STREAM end)
  else Err Denied.

(** [ResumeRegistry::rotate] *)
Definition rotate (id : SessionId) (presented : list byte) (p : PeerFingerprint) (ttl : N)
    (stream : Session.InputStreamId) (token : ResumeToken) (r : ResumeRegistry)
    : result ResumeToken ResumeDenied * ResumeRegistry :=
  if credential_ok r id presented p
  then (Ok token,
        mkReg (clock r) (<[id := mkEntry (hash_of token) p (clock r + ttl) stream]> (entries r))
          (trail r ++ [Redeemed id presented p; Minted id token p]))
  else (Err Denied, r).

(** [ResumeRegistry::forget] *)
Definition forget (id : SessionId) (r : ResumeRegistry) : ResumeRegistry :=
  mkReg (clock r) (delete id (entries r)) (trail r ++ [Dropped id]).

(** [ResumeRegistry::purge_expired] *)
Definition purge_expired (r : ResumeRegistry) : ResumeRegistry :=
  mkReg (clock r) (filter (fun kv => clock r < expires_at kv.2) (entries r)) (trail r).

(** [ResumeRegistry::sync_expiry] *)
Definition sync_entry (deadlines : gmap SessionId N) (now : N) (id : SessionId) (e : Entry)
    : option Entry :=
  match deadlines !! id with
  | Some d => Some (mkEntry (hash e) (peer e) d (input_stream e))
  | None => if now <? expires_at e then Some e else None
  end.

Definition sync_expiry (deadlines : gmap SessionId N) (r : ResumeRegistry) : ResumeRegistry :=
  mkReg (clock r) (map_imap (sync_entry deadlines (clock r)) (entries r)) (trail r).

Definition len_entries (r : ResumeRegistry) : N := N.of_nat (size (entries r)).

(** ** Runs *)

Inductive RegOp :=
  | OIssue (id : SessionId) (p : PeerFingerprint) (ttl : N) (token : ResumeToken)
  | ORotate (id : SessionId) (presented : list byte) (p : PeerFingerprint) (ttl : N)
      (stream : Session.InputStreamId) (token : ResumeToken)
  | OForget (id : SessionId)
  | OPurge
  | OSync (deadlines : gmap SessionId N)
  | OTick (dt : N).

Definition reg_op (r : ResumeRegistry) (op : RegOp) : ResumeRegistry :=
  match op with
  | OIssue id p ttl token => issue id p ttl token r
  | ORotate id presented p ttl stream token => snd (rotate id presented p ttl stream token r)
  | OForget id => forget id r
  | OPurge => purge_expired r
  | OSync deadlines => sync_expiry deadlines r
  | OTick dt => mkReg (clock r + dt) (entries r) (trail r)
  end.

Definition reg_run (t : N) (ops : list RegOp) : ResumeRegistry := fold_left reg_op ops (new t).

(** ** Lemmas *)

Lemma credential_ok_spec r id presented p :
  credential_ok r id presented p = true <->
  exists e, entries r !! id = Some e /\ hash_of presented = hash e /\ peer e = p /\ clock r < expires_at e.
Proof.
  unfold credential_ok. destruct (entries r !! id) as [e|] eqn:E.
  - rewrite bool_decide_true by eauto. simpl.
    rewrite !andb_true_iff, !bool_decide_eq_true, N.ltb_lt. naive_solver.
  - rewrite andb_false_r. naive_solver.
Qed.

(** A mark about session [id]. *)
Definition about (id : SessionId) (m : Mark) : Prop :=
  match m with Minted i _ _ | Redeemed i _ _ | Dropped i => i = id end.

(** The last thing that happened to [id] is that [tok] was minted for [p]. *)
Definition last_minted (id : SessionId) (tok : ResumeToken) (p : PeerFingerprint) (l : list Mark) : Prop :=
  exists pre post, l = pre ++ Minted id tok p :: post /\ Forall (fun m => ~ about id m) post.

Lemma last_minted_app id tok p l m :
  last_minted id tok p l -> Forall (fun m => ~ about id m) m -> last_minted id tok p (l ++ m).
Proof.
  intros (pre & post & -> & H) Hm. exists pre, (post ++ m). split; [by rewrite <- app_assoc|].
  by apply Forall_app.
Qed.

Record reg_inv (r : ResumeRegistry) : Prop := {
  ri_entries : forall id e, entries r !! id = Some e ->
    exists tok, hash_of tok = hash e /\ last_minted id tok (peer e) (trail r);
  ri_trail : forall pre id tok p post, trail r = pre ++ Redeemed id tok p :: post ->
    exists tok', hash_of tok' = hash_of tok /\ last_minted id tok' p pre;
}.

Lemma split_snoc {A} (l ms pre post : list A) x :
  l ++ ms = pre ++ x :: post ->
  (exists post', l = pre ++ x :: post') \/ (exists pre', pre = l ++ pre' /\ ms = pre' ++ x :: post).
Proof.
  revert pre. induction l as [|y l IH]; intros pre H; [right; by exists pre|].
  destruct pre as [|z pre]; simpl in H; injection H as -> H; [left; by exists l|].
  destruct (IH _ H) as [[post' ->]|(pre' & -> & ->)]; [left; by eexists|right; by eexists].
Qed.

(** Marks other than redemptions do not disturb the record of redemptions. *)
Lemma ri_trail_app r ms :
  reg_inv r -> Forall (fun m => match m with Redeemed _ _ _ => False | _ => True end) ms ->
  forall pre id tok p post, trail r ++ ms = pre ++ Redeemed id tok p :: post ->
  exists tok', hash_of tok' = hash_of tok /\ last_minted id tok' p pre.
Proof.
  intros HI Hms pre id tok p post H. apply split_snoc in H as [[post' H]|(pre' & -> & ->)].
  - by eapply (ri_trail _ HI).
  - apply Forall_app in Hms as [_ Hms]. by apply Forall_cons in Hms as [[] _].
Qed.

Lemma reg_inv_mint r id tok p e :
  reg_inv r -> hash e = hash_of tok -> peer e = p ->
  reg_inv (mkReg (clock r) (<[id := e]> (entries r)) (trail r ++ [Minted id tok p])).
Proof.
  intros HI He Hp. split; cbn [entries trail].
  - intros id' e' [[<- <-]|[Hne H]]%lookup_insert_Some.
    + exists tok. split; [done|]. exists (trail r), []. rewrite Hp. by split.
    + destruct (ri_entries _ HI _ _ H) as (t & Ht & Hl). exists t. split; [done|].
      apply last_minted_app; [done|]. by repeat constructor.
  - apply ri_trail_app; [done|]. by repeat constructor.
Qed.

Lemma reg_inv_rotate r id presented p ttl stream token :
  reg_inv r -> credential_ok r id presented p = true ->
  reg_inv (mkReg (clock r) (<[id := mkEntry (hash_of token) p (clock r + ttl) stream]> (entries r))
    (trail r ++ [Redeemed id presented p; Minted id token p])).
Proof.
  intros HI (e & He & Hh & Hp & _)%credential_ok_spec. split; cbn [entries trail].
  - intros id' e' [[<- <-]|[Hne H]]%lookup_insert_Some.
    + exists token. split; [done|]. exists (trail r ++ [Redeemed id presented p]), [].
      rewrite <- app_assoc. by split.
    + destruct (ri_entries _ HI _ _ H) as (t & Ht & Hl). exists t. split; [done|].
      apply last_minted_app; [done|]. by repeat constructor.
  - intros pre id' tok p' post H. apply split_snoc in H as [[post' H]|(pre' & -> & H)].
    + by eapply (ri_trail _ HI).
    + destruct pre' as [|m [|m' pre']]; simpl in H; simplify_eq; [|by destruct pre'].
      destruct (ri_entries _ HI _ _ He) as (t & Ht & Hl). exists t.
      rewrite app_nil_r. split; [congruence|done].
Qed.

(** Dropping or re-dating entries. *)
Lemma reg_inv_shrink r c' m :
  reg_inv r ->
  (forall id e, m !! id = Some e ->
     exists e0, entries r !! id = Some e0 /\ hash e = hash e0 /\ peer e = peer e0) ->
  reg_inv (mkReg c' m (trail r)).
Proof.
  intros HI Hm. split; cbn [entries trail]; [|apply (ri_trail _ HI)].
  intros id e He. destruct (Hm _ _ He) as (e0 & H0 & -> & ->). by apply (ri_entries _ HI).
Qed.

Lemma reg_inv_op r op : reg_inv r -> reg_inv (reg_op r op).
Proof.
  intros HI. destruct op; simpl.
  - by apply reg_inv_mint.
  - unfold rotate. destruct (credential_ok _ _ _ _) eqn:E; [|done]. by apply reg_inv_rotate.
  - split; cbn [forget entries trail].
    + intros id' e [Hne He]%lookup_delete_Some.
      destruct (ri_entries _ HI _ _ He) as (t & Ht & Hl). exists t. split; [done|].
      apply last_minted_app; [done|]. by repeat constructor.
    + apply ri_trail_app; [done|]. by repeat constructor.
  - apply reg_inv_shrink; [done|]. intros id e [He _]%map_lookup_filter_Some. eauto.
  - apply reg_inv_shrink; [done|]. intros id e. rewrite map_lookup_imap.
    destruct (entries r !! id) as [e0|]; [|done]. simpl. unfold sync_entry.
    intros He. exists e0. repeat case_match; by simplify_eq.
  - apply reg_inv_shrink; [done|]. eauto.
Qed.

Lemma reg_inv_run t ops : reg_inv (reg_run t ops).
Proof.
  unfold reg_run. assert (reg_inv (new t)) as H.
  { split; [done|]. intros [] ? ? ? ? H; discriminate H. }
  revert H. generalize (new t). induction ops as [|op ops IH]; intros r H; [done|].
  simpl. apply IH. by apply reg_inv_op.
Qed.

(** The tokens minted in a run. *)
Definition minted (l : list Mark) : list ResumeToken :=
  omap (fun m => match m with Minted _ t _ => Some t | _ => None end) l.

Lemma minted_app l1 l2 : minted (l1 ++ l2) = minted l1 ++ minted l2.
Proof. apply omap_app. Qed.

Lemma minted_elem id tok p l : Minted id tok p ∈ l -> tok ∈ minted l.
Proof. intros H. apply list_elem_of_omap. by exists (Minted id tok p). Qed.

Lemma last_minted_elem id tok p l : last_minted id tok p l -> Minted id tok p ∈ l.
Proof. intros (pre & post & -> & _). apply elem_of_app. right. apply elem_of_cons. by left. Qed.

(** The last mint of [id] comes after every redemption of [id]. *)
Lemma last_minted_after id tok p l1 l2 t q :
  last_minted id tok p (l1 ++ Redeemed id t q :: l2) -> Minted id tok p ∈ l2.
Proof.
  intros (pre & post & H & Hf). rewrite cons_middle, app_assoc in H.
  pose proof H as [[post' H']|(pre' & -> & ->)]%split_snoc.
  - exfalso. rewrite H', <- app_assoc in H. apply (inj (app pre)) in H. injection H as H.
    destruct post' as [|m post' _] using rev_ind.
    + apply app_inj_tail in H' as [_ H']. discriminate H'.
    + rewrite app_comm_cons, app_assoc in H'.
      apply app_inj_tail in H' as [_ <-].
      rewrite <- H, Forall_app, Forall_app in Hf. destruct Hf as [[_ Hf] _].
      by apply Forall_cons in Hf as [[] _].
  - apply elem_of_app. right. apply elem_of_cons. by left.
Qed.

End Registry.

(** ** Properties *)

(** A presented token is accepted exactly when the session has a
    credential, its hash matches, the peer is the one it is bound to and it
    has not expired; then the lineage's input axis is returned.  Every other
    case gives the one same refusal. *)
Theorem verify_iff {Digest : Type} `{EqDecision Digest} (hash_of : list byte -> Digest)
    (zero_hash : Digest) r id presented p stream :
  (verify hash_of zero_hash r id presented p = Ok stream <->
   exists e, entries r !! id = Some e /\ hash_of presented = hash e /\ peer e = p /\
     clock r < expires_at e /\ stream = input_stream e) /\
  (verify hash_of zero_hash r id presented p = Err Denied <->
   forall e, entries r !! id = Some e ->
     hash_of presented <> hash e \/ peer e <> p \/ expires_at e <= clock r).
Proof.
  unfold verify. pose proof (credential_ok_spec hash_of zero_hash r id presented p) as Hc.
  destruct (credential_ok hash_of zero_hash r id presented p).
  - destruct Hc as [(e & He & Hh & Hp & Hx) _]; [done|]. rewrite He. split.
    + split; [intros [= <-]; eauto 6|]. by intros (e' & [= <-] & _ & _ & _ & ->).
    + split; [done|]. intros H. specialize (H e eq_refl). naive_solver lia.
  - split.
    + split; [done|]. intros (e & He & Hh & Hp & Hx & _).
      assert (false = true); [|done]. apply Hc. eauto 6.
    + split; [|done]. intros _ e He.
      destruct (decide (hash_of presented = hash e)); [|by left].
      destruct (decide (peer e = p)); [|by auto].
      destruct (N.lt_ge_cases (clock r) (expires_at e)); [|by auto].
      assert (false = true); [|done]. apply Hc. eauto 6.
Qed.

(** A token is redeemed at most once, and only by the peer it was minted
    for.  For a collision-free hash and distinct generated tokens, in any run
    of the store every redemption of a session's token is preceded by the
    minting of that token for that session and peer, and no other redemption
    of it ever succeeds, for any peer: of two peers racing on a token one
    loses. *)
Theorem redeem_once {Digest : Type} `{EqDecision Digest} (hash_of : list byte -> Digest)
    (zero_hash : Digest) t ops before id tok p after :
  Inj (=) (=) hash_of ->
  NoDup (minted (trail (reg_run hash_of zero_hash t ops))) ->
  trail (reg_run hash_of zero_hash t ops) = before ++ Redeemed id tok p :: after ->
  Minted id tok p ∈ before /\
  (forall q, ~ Redeemed id tok q ∈ before) /\ (forall q, ~ Redeemed id tok q ∈ after).
Proof.
  intros Hinj Hnd Htr. pose proof (ri_trail _ _ (reg_inv_run hash_of zero_hash t ops)) as Hinv.
  assert (forall pre id tok p post, trail (reg_run hash_of zero_hash t ops) = pre ++ Redeemed id tok p :: post ->
    last_minted id tok p pre) as Hlast.
  { intros pre i k q post H. destruct (Hinv _ _ _ _ _ H) as (k' & Hk & Hl).
    by apply Hinj in Hk as ->. }
  assert (forall l1 q1 l2 q2 l3,
    trail (reg_run hash_of zero_hash t ops) = (l1 ++ Redeemed id tok q1 :: l2) ++ Redeemed id tok q2 :: l3 ->
    False) as Htwice.
  { intros l1 q1 l2 q2 l3 H. pose proof (Hlast _ _ _ _ _ H) as H2%last_minted_after%minted_elem.
    rewrite H in Hnd. rewrite <- app_assoc in H. pose proof (Hlast _ _ _ _ _ H) as H1%last_minted_elem%minted_elem.
    rewrite <- app_assoc, minted_app in Hnd. simpl in Hnd. rewrite minted_app in Hnd.
    apply NoDup_app in Hnd as (_ & Hd & _). eapply Hd; [exact H1|]. apply elem_of_app. by left. }
  split; [by eapply last_minted_elem, Hlast|]. split.
  - intros q (l1 & l2 & ->)%list_elem_of_split. by eapply Htwice.
  - intros q (l1 & l2 & ->)%list_elem_of_split. eapply (Htwice before p l1 q l2).
    by rewrite Htr, <- app_assoc.
Qed.

(** Two peers race on one token; the second loses. *)
Definition demo_ops : list RegOp :=
  [OIssue "s" [x01] 10 [x41]; OTick 3; ORotate "s" [x41] [x01] 10 2 [x42];
   ORotate "s" [x41] [x01] 10 3 [x43]; OForget "s"].

Lemma redeem_once_witness :
  Minted "s"%string [x41] [x01] ∈ [Minted "s" [x41] [x01]] /\
  (forall q, ~ Redeemed "s" [x41] q ∈ [Minted "s" [x41] [x01]]) /\
  (forall q, ~ Redeemed "s" [x41] q ∈ [Minted "s" [x42] [x01]; Dropped "s"]).
Proof.
  apply (redeem_once (fun b => b) [] 0 demo_ops).
  - intros x y H. exact H.
  - vm_compute. repeat constructor; set_solver.
  - vm_compute. reflexivity.
Defined.

(** Re-anchoring: after [sync_expiry] the credential of every session
    that is still alive expires exactly at the session's own deadline, with
    its hash, peer and input axis unchanged; the others are kept only until
    their own expiry; and after [forget] nothing is accepted for the
    session. *)
Theorem sync_expiry_spec {Digest : Type} `{EqDecision Digest} (hash_of : list byte -> Digest)
    (zero_hash : Digest) r deadlines id :
  (entries (sync_expiry deadlines r) !! id =
     match entries r !! id, deadlines !! id with
     | Some e, Some d => Some (mkEntry (hash e) (peer e) d (input_stream e))
     | Some e, None => if clock r <? expires_at e then Some e else None
     | None, _ => None
     end) /\
  (forall presented p, verify hash_of zero_hash (forget id r) id presented p = Err Denied).
Proof.
  split.
  - simpl. rewrite map_lookup_imap. destruct (entries r !! id) as [e|]; [|done]. simpl.
    unfold sync_entry. by destruct (deadlines !! id).
  - intros presented p. unfold verify.
    destruct (credential_ok hash_of zero_hash (forget id r) id presented p) eqn:E; [|done].
    apply credential_ok_spec in E as (e & He & _). simpl in He. by rewrite lookup_delete_eq in He.
Qed.

End Resume.
