(* ===== verification/Counter.v ===== *)
(** * Counted reservations

    The host keeps its in-use counts in maps from a key to a positive count:
    [*map.entry(k).or_insert(0) += 1] on a reservation, a saturating
    decrement that removes the entry at zero when the permit is dropped
    ([crates/qsh-core/src/quota.rs], [crates/qsh-core/src/broker/mod.rs]).
    [counts m l] says that [m] counts exactly the live reservations [l]. *)

From S2P Require Import Prelude.

Module Counter.

Definition one (c : bool) : N := if c then 1 else 0.

Section Counting.
Context {K : Type} `{Countable K}.
Implicit Types (k : K) (l : list K) (m : gmap K N).

Definition count_of k m : N := default 0 (m !! k).

Definition inc k m : gmap K N := <[k := count_of k m + 1]> m.

Definition dec k m : gmap K N :=
  match m !! k with
  | Some n => if n - 1 =? 0 then delete k m else <[k := n - 1]> m
  | None => m
  end.

(** [map.values().sum()] *)
Definition sum m : N := map_fold (fun _ n acc => n + acc) 0 m.

Fixpoint occ k l : N :=
  match l with
  | [] => 0
  | x :: l' => one (bool_decide (x = k)) + occ k l'
  end.

Definition counts m l : Prop :=
  forall k, m !! k = if occ k l =? 0 then None else Some (occ k l).

Lemma occ_app k l1 l2 : occ k (l1 ++ l2) = occ k l1 + occ k l2.
Proof. induction l1 as [|x l1 IH]; simpl; lia. Qed.

Lemma occ_delete k l i x :
  l !! i = Some x -> occ k l = one (bool_decide (x = k)) + occ k (delete i l).
Proof.
  intros Hi. rewrite <- (take_drop_middle l i x Hi) at 1.
  rewrite delete_take_drop, !occ_app. simpl. lia.
Qed.

Lemma one_eq k : one (bool_decide (k = k)) = 1.
Proof. by rewrite bool_decide_true. Qed.

Lemma one_ne k x : x <> k -> one (bool_decide (x = k)) = 0.
Proof. intros. by rewrite bool_decide_false. Qed.

Lemma counts_nil : counts ∅ [].
Proof. intros k. by rewrite lookup_empty. Qed.

Lemma counts_of m l k : counts m l -> count_of k m = occ k l.
Proof. intros Hm. unfold count_of. rewrite (Hm k). case_match; simpl; lia. Qed.

(** No entry without a live reservation. *)
Lemma counts_pos m l k n : counts m l -> m !! k = Some n -> 0 < n /\ n = occ k l.
Proof. intros Hm Hk. rewrite (Hm k) in Hk. case_match; simplify_eq. lia. Qed.

Lemma counts_inc m l k : counts m l -> counts (inc k m) (l ++ [k]).
Proof.
  intros Hm j. unfold inc. rewrite (counts_of m l k Hm), occ_app. simpl.
  destruct (decide (k = j)) as [->|Hne].
  - rewrite one_eq, lookup_insert_eq. case_match; [lia|f_equal; lia].
  - rewrite one_ne, lookup_insert_ne by done. replace (occ j l + (0 + 0)) with (occ j l) by lia. apply Hm.
Qed.

Lemma counts_dec m l i k : counts m l -> l !! i = Some k -> counts (dec k m) (delete i l).
Proof.
  intros Hm Hi j. pose proof (occ_delete j l i k Hi) as Hj.
  pose proof (occ_delete k l i k Hi) as Hk. rewrite one_eq in Hk.
  unfold dec. rewrite (Hm k). rewrite (proj2 (N.eqb_neq (occ k l) 0)) by lia.
  destruct (decide (k = j)) as [<-|Hne].
  - destruct (N.eqb_spec (occ k l - 1) 0).
    + rewrite lookup_delete_eq. case_match; [done|lia].
    + rewrite lookup_insert_eq. case_match; [lia|f_equal; lia].
  - rewrite one_ne in Hj by done. rewrite N.add_0_l in Hj. rewrite <- Hj.
    case_match; rewrite ?lookup_delete_ne, ?lookup_insert_ne by done; apply Hm.
Qed.

Lemma sum_fresh m k n : m !! k = None -> sum (<[k := n]> m) = n + sum m.
Proof.
  intros Hk. unfold sum. rewrite map_fold_insert_L; [done| |done]. intros. lia.
Qed.

Lemma sum_delete m k n : m !! k = Some n -> sum m = n + sum (delete k m).
Proof.
  intros Hk. rewrite <- (insert_id m k n Hk) at 1.
  rewrite <- insert_delete_eq. apply sum_fresh, lookup_delete_eq.
Qed.

Lemma sum_insert m k n : sum (<[k := n]> m) + count_of k m = n + sum m.
Proof.
  unfold count_of. destruct (m !! k) as [v|] eqn:E; simpl.
  - rewrite <- insert_delete_eq, sum_fresh by apply lookup_delete_eq.
    rewrite (sum_delete m k v E). lia.
  - rewrite sum_fresh by done. lia.
Qed.

Lemma sum_inc m k : sum (inc k m) = sum m + 1.
Proof. unfold inc. pose proof (sum_insert m k (count_of k m + 1)). lia. Qed.

(** The host-wide count the code derives is the number of reservations. *)
Lemma counts_sum l m : counts m l -> sum m = len l.
Proof.
  revert m. induction l as [|k l IH]; intros m Hm.
  - assert (m = ∅) as ->; [|done]. apply map_eq. intros j. by rewrite (Hm j), lookup_empty.
  - pose proof (IH _ (counts_dec m (k :: l) 0 k Hm eq_refl)) as Hs.
    rewrite len_cons, <- Hs. unfold dec.
    assert (m !! k = Some (occ k (k :: l))) as Hk.
    { rewrite (Hm k). simpl. rewrite one_eq. case_match; [lia|done]. }
    rewrite Hk. pose proof (sum_delete m k _ Hk). simpl in *. rewrite one_eq in *.
    case_match; [lia|]. pose proof (sum_insert m k (1 + occ k l - 1)) as Hi.
    unfold count_of in Hi. rewrite Hk in Hi. simpl in Hi. lia.
Qed.

End Counting.
End Counter.
