(* ===== verification/AuditLog.v ===== *)
(** * Audit records and rejection windows

    [Audit] models the rejection records of
    [crates/qsh-core/src/audit.rs] and the aggregation window of
    [crates/qsh-core/src/admission.rs] ([WindowState],
    [AUDIT_AGGREGATION_WINDOW]): the first rejection of a ten second window
    is recorded at once, the others are counted, and the count is recorded as
    a summary when the window is found to be over.  The admission gate and the
    quotas run the same critical section on their windows ([hit]); the facts
    proved here about one window are used by both. *)

From S2P Require Import Prelude Counter Text Identity.

Module Audit.

Definition U32_MAX : N := 2 ^ 32 - 1.
Definition sat_add32 (a b : N) : N := (a + b) `min` U32_MAX.

(** ** Records *)

Record AuditRecord := mkRecord {
  ts : string;
  request_id : string;
  principal : string;
  action : string;
  resource : string;
  decision : string;
  rule : option N;
  auth_path : string;
  peer_addr : string;
  count : option N;
  role : option string;
  grant : option string;
}.

Definition auth_path_str (p : Identity.AuthPath) : string :=
  match p with
  | Identity.Pin => "pin"
  | Identity.Ca => "ca"
  | Identity.Pairing => "pairing"
  end.

(** The record constructors take the rendered time and address; neither is
    read again by the program. *)
Definition handshake_rejected (t peer category : string) : AuditRecord :=
  mkRecord t "-" "-" "connect" category "deny" None "-" peer None None None.

Definition handshake_rejected_summary (t category : string) (n : N) : AuditRecord :=
  mkRecord t "-" "-" "connect" category "deny" None "-" "-" (Some n) None None.

(** ** Windows *)

(** Nanoseconds. *)
Definition AUDIT_AGGREGATION_WINDOW : N := 10 * 1000 * 1000 * 1000.

Record WindowState := mkWindow { start : option N; suppressed : N }.

(** [WindowState::default] *)
Definition default_window : WindowState := mkWindow None 0.

(** [start] is set and at least [AUDIT_AGGREGATION_WINDOW] old. *)
Definition is_over (now : N) (w : WindowState) : bool :=
  match start w with
  | None => false
  | Some s => AUDIT_AGGREGATION_WINDOW <=? now - s
  end.

Definition window_is_fresh (now : N) (w : WindowState) : bool :=
  match start w with
  | None => true
  | Some s => AUDIT_AGGREGATION_WINDOW <=? now - s
  end.

(** The critical section of [record_rejection]: [None] when the rejection was
    only counted, [Some n] when it opens a window after one that had counted
    [n]. *)
Definition hit (now : N) (w : WindowState) : WindowState * option N :=
  if window_is_fresh now w then (mkWindow (Some now) 0, Some (suppressed w))
  else (mkWindow (start w) (sat_add32 (suppressed w) 1), None).

(** ** What a list of records accounts for *)

Definition is_first (c : string) (r : AuditRecord) : N :=
  if String.eqb (resource r) c then match count r with None => 1 | Some _ => 0 end else 0.
Definition is_summary (c : string) (r : AuditRecord) : N :=
  if String.eqb (resource r) c then match count r with None => 0 | Some _ => 1 end else 0.
Definition accounts (c : string) (r : AuditRecord) : N :=
  if String.eqb (resource r) c then match count r with None => 1 | Some n => n end else 0.

Definition total (f : AuditRecord -> N) (rs : list AuditRecord) : N :=
  foldr (fun r acc => f r + acc) 0 rs.

Lemma total_app f rs1 rs2 : total f (rs1 ++ rs2) = total f rs1 + total f rs2.
Proof. induction rs1 as [|r rs1 IH]; simpl; lia. Qed.

Lemma total_one f r : total f [r] = f r.
Proof. simpl. lia. Qed.

Lemma total_none f rs : Forall (fun r => f r = 0) rs -> total f rs = 0.
Proof. induction 1 as [|r rs Hr _ IH]; simpl; lia. Qed.

(** ** One window

    [Booked t0 last w fl sm acc tot] relates a window to the records written
    for it: [tot] rejections happened, [fl] first lines and [sm] summaries
    were written that account for [acc] of them, all between [t0] and
    [last]. *)

Record Booked (t0 last : N) (w : WindowState) (fl sm acc tot : N) : Prop := {
  bk_order : t0 <= last;
  bk_total : tot = acc + suppressed w;
  bk_closed : start w = None -> suppressed w = 0 /\ sm <= fl
                /\ fl * AUDIT_AGGREGATION_WINDOW <= last - t0;
  bk_open s : start w = Some s -> t0 <= s <= last /\ sm + 1 <= fl
                /\ fl * AUDIT_AGGREGATION_WINDOW <= s - t0 + AUDIT_AGGREGATION_WINDOW;
}.

Lemma booked_new t0 : Booked t0 t0 default_window 0 0 0 0.
Proof. by constructor; simpl; intros; simplify_eq; lia. Qed.

Lemma booked_wait t0 last last' w fl sm acc tot :
  Booked t0 last w fl sm acc tot -> last <= last' -> Booked t0 last' w fl sm acc tot.
Proof.
  intros [Ho Ht Hc Hs] Hl. constructor; [lia|done|..].
  - intros E. specialize (Hc E). lia.
  - intros s E. specialize (Hs s E). lia.
Qed.

(** A rejection: counted, or a first line with the summary of what the window
    before it had counted. *)
Lemma booked_hit t0 last w fl sm acc tot now :
  Booked t0 last w fl sm acc tot -> last <= now -> tot <= U32_MAX ->
  match hit now w with
  | (w', None) => Booked t0 now w' fl sm acc (tot + 1) \/ tot = U32_MAX
  | (w', Some n) =>
      Booked t0 now w' (fl + 1) (sm + Counter.one (0 <? n)) (acc + n + 1) (tot + 1)
  end.
Proof.
  intros [Ho Ht Hc Hs] Hl Hu. unfold hit, window_is_fresh.
  destruct (start w) as [s|] eqn:E.
  - specialize (Hs s eq_refl). clear Hc. destruct (_ <=? _) eqn:Eo; bools.
    + unfold AUDIT_AGGREGATION_WINDOW in *. constructor; cbn [start suppressed default_window]; unfold AUDIT_AGGREGATION_WINDOW in *; [lia|lia|done|].
      intros ? [= <-]. unfold Counter.one; destruct (0 <? suppressed w); lia.
    + destruct (decide (tot = U32_MAX)) as [|Hne]; [by right|left].
      unfold sat_add32. constructor; cbn [start suppressed default_window]; unfold AUDIT_AGGREGATION_WINDOW in *; [lia|lia|done|]. intros ? [= <-]. lia.
  - specialize (Hc eq_refl) as (Hz & Hsm & Hfl). rewrite Hz in *. change (Counter.one (0 <? 0)) with 0.
    unfold AUDIT_AGGREGATION_WINDOW in *. constructor; cbn [start suppressed default_window]; unfold AUDIT_AGGREGATION_WINDOW in *; [lia|lia|done|].
    intros ? [= <-]. lia.
Qed.

(** Closing a window that is over, with its summary. *)
Lemma booked_close t0 last w fl sm acc tot now :
  Booked t0 last w fl sm acc tot -> last <= now -> is_over now w = true ->
  Booked t0 now default_window fl (sm + Counter.one (0 <? suppressed w)) (acc + suppressed w) tot.
Proof.
  intros [Ho Ht Hc Hs] Hl. unfold is_over. destruct (start w) as [s|] eqn:E; [|done].
  specialize (Hs s eq_refl). intros Hov. bools. unfold AUDIT_AGGREGATION_WINDOW in *.
  constructor; cbn [start suppressed default_window]; unfold AUDIT_AGGREGATION_WINDOW in *; [lia|lia| |done]. intros _. unfold Counter.one; destruct (0 <? suppressed w); lia.
Qed.

(** At most one first line and one summary per ten seconds begun. *)
Lemma booked_volume t0 last w fl sm acc tot :
  Booked t0 last w fl sm acc tot ->
  fl * AUDIT_AGGREGATION_WINDOW <= last - t0 + AUDIT_AGGREGATION_WINDOW /\ sm <= fl.
Proof.
  intros [Ho Ht Hc Hs]. destruct (start w) as [s|].
  - specialize (Hs s eq_refl). lia.
  - specialize (Hc eq_refl). lia.
Qed.
End Audit.
