(* ===== verification/Admission.v ===== *)
(** * Connection admission

    Models [crates/qsh-core/src/admission.rs]: the gate in front of the TLS
    handshake.  An attempt from an unvalidated address is rate limited per
    source and then made to retry; a validated one is rate limited on a table
    of its own and then competes for a handshake permit.  The rate limiter is
    a count-min sketch of four rows of 1024 columns with two generations of
    counters; the weight of the previous generation is computed in IEEE
    binary64 arithmetic, as in the source, with [SpecFloat].  The seeded
    hashers of the rows are parameters. *)

From Stdlib Require Import Floats.SpecFloat.
From S2P Require Import Prelude Counter AuditLog.

Module Admission.
Import Audit.

(** ** Machine arithmetic *)

Definition wrap32 (n : N) : N := n mod 2 ^ 32.
Definition wrap64 (n : N) : N := n mod 2 ^ 64.
Definition U64_MAX : N := 2 ^ 64 - 1.

Abbreviation f64 := spec_float.

Definition f64_of_N (n : N) : f64 := binary_normalize 53 1024 (Z.of_N n) 0 false.
Definition f64_add : f64 -> f64 -> f64 := SFadd 53 1024.
Definition f64_sub : f64 -> f64 -> f64 := SFsub 53 1024.
Definition f64_mul : f64 -> f64 -> f64 := SFmul 53 1024.
Definition f64_div : f64 -> f64 -> f64 := SFdiv 53 1024.

(** [x as u32], [x as u64]: truncating, saturating, [NaN] to zero. *)
Definition f64_to_uint (max : N) (x : f64) : N :=
  match x with
  | S754_finite false m e =>
      max `min` (if (0 <=? e)%Z then N.shiftl (Npos m) (Z.to_N e)
                 else N.shiftr (Npos m) (Z.to_N (- e)))
  | S754_infinity false => max
  | _ => 0
  end.

(** [Duration::as_secs_f64], of a duration in nanoseconds. *)
Definition as_secs_f64 (d : N) : f64 :=
  f64_add (f64_of_N (d / 1000000000))
    (f64_div (f64_of_N (d mod 1000000000)) (f64_of_N 1000000000)).

(** ** Source keys *)

Inductive IpAddr := V4 (a : N) | V6 (a : N).

Record SocketAddr := mkAddr { ip : IpAddr; port : N }.

(** [IpAddr::to_canonical]: an IPv4-mapped address is the IPv4 address. *)
Definition to_canonical (a : IpAddr) : IpAddr :=
  match a with
  | V6 n => if N.shiftr n 32 =? 65535 then V4 (n mod 2 ^ 32) else V6 n
  | V4 n => V4 n
  end.

(** [Ipv6Addr::segments] *)
Definition segment (a i : N) : N := N.shiftr a (112 - 16 * i) mod 2 ^ 16.

Inductive SourceKey := KV4 (a : N) | KV6 (prefix : N).

Definition from_addr (a : IpAddr) : SourceKey :=
  match to_canonical a with
  | V4 v4 => KV4 v4
  | V6 v6 =>
      KV6 (N.lor (N.lor (N.lor (N.shiftl (segment v6 0) 48) (N.shiftl (segment v6 1) 32))
              (N.shiftl (segment v6 2) 16)) (segment v6 3))
  end.

#[global] Instance SourceKey_eq_dec : EqDecision SourceKey.
Proof. solve_decision. Defined.

(** ** The sketch *)

Definition SKETCH_ROWS : nat := 4.
Definition SKETCH_COLS : N := 1024.
Definition EPOCH : N := 2 * 1000000000.
Definition EPOCH_SECS : N := 2.

(** A row: its hasher ([RandomState::hash_one]) and its two generations. *)
Record SketchRow := mkRow { hasher : SourceKey -> N; gens : list (list N) }.

Definition row_new (h : SourceKey -> N) : SketchRow :=
  mkRow h [replicate (N.to_nat SKETCH_COLS) 0; replicate (N.to_nat SKETCH_COLS) 0].

Definition column (r : SketchRow) (k : SourceKey) : nat := N.to_nat (hasher r k mod SKETCH_COLS).

Record Sketch := mkSketch { rows : list SketchRow; index : N }.

(** The seeds of a sketch give each row a hasher of its own. *)
Definition Seeds : Type := nat -> SourceKey -> N.
Definition rows_of (seeds : Seeds) : list (SourceKey -> N) := seeds <$> seq 0 SKETCH_ROWS.

Definition sketch_new (seeds : Seeds) : Sketch := mkSketch (row_new <$> rows_of seeds) 0.

Definition clear (gen : list N) : list N := (fun _ => 0) <$> gen.

Definition advance_row (gap target : N) (r : SketchRow) : SketchRow :=
  if gap =? 1 then mkRow (hasher r) (alter clear (N.to_nat (target mod 2)) (gens r))
  else mkRow (hasher r) (clear <$> gens r).

Definition advance_to (target : N) (s : Sketch) : Sketch :=
  if target <=? index s then s
  else mkSketch (advance_row (target - index s) target <$> rows s) target.

(** [row.gens[g][c].load]; every index the code uses is in range. *)
Definition load (r : SketchRow) (g c : nat) : N := default 0 (gens r !! g ≫= (fun gen => gen !! c)).

(** [row.gens[g][c].fetch_add(1)] *)
Definition bump (r : SketchRow) (g c : nat) : SketchRow :=
  mkRow (hasher r) (alter (alter (fun n => wrap32 (n + 1)) c) g (gens r)).

Definition weighted (previous : N) (fraction : f64) : N :=
  f64_to_uint U32_MAX (f64_mul (f64_of_N previous) (f64_sub (f64_of_N 1) fraction)).

(** One row's turn of the loop of [record_and_estimate]: its contribution to
    the minimum. *)
Definition row_estimate (k : SourceKey) (cur prev : nat) (fraction : f64) (r : SketchRow) : N :=
  let col := column r k in
  let new_current := wrap32 (load r cur col + 1) in
  sat_add32 new_current (weighted (load r prev col) fraction).

Definition record_and_estimate (k : SourceKey) (epoch_index : N) (fraction : f64) (s : Sketch)
    : Sketch * N :=
  let s := advance_to epoch_index s in
  let cur := N.to_nat (epoch_index mod 2) in
  let prev := (1 - cur)%nat in
  (mkSketch ((fun r => bump r cur (column r k)) <$> rows s) (index s),
   fold_left (fun est r => est `min` row_estimate k cur prev fraction r) (rows s) U32_MAX).

(** ** The gate *)

Inductive RejectReason := RateLimited | AtCapacity | ValidatedRateLimited.

Definition ALL : list RejectReason := [RateLimited; AtCapacity; ValidatedRateLimited].

Definition category (r : RejectReason) : string :=
  match r with
  | RateLimited => "rate_limited"
  | AtCapacity => "at_capacity"
  | ValidatedRateLimited => "validated_rate_limited"
  end.

(** [reason as usize] *)
Definition reason_index (r : RejectReason) : nat :=
  match r with RateLimited => 0 | AtCapacity => 1 | ValidatedRateLimited => 2 end.

Inductive Decision :=
  | Retry
  | Ignore (r : RejectReason) (records : list AuditRecord)
  | Refuse (r : RejectReason) (records : list AuditRecord)
  | Admit.

Record DecisionCounters := mkCounters { c_retry : N; c_ignore : N; c_refuse : N; c_admit : N }.

Record Gate := mkGate {
  origin : N;
  handshake_permits : N;
  rate_per_source : N;
  sketch : Sketch;
  validated_sketch : Sketch;
  validated_rate_per_source : N;
  windows : list WindowState;
  decision_counters : DecisionCounters;
}.

(** [Gate::new]; the hashers are the random seeds of the two sketches. *)
Definition new (now max_concurrent_handshakes rate vrate : N) (hs vhs : Seeds) : Gate :=
  mkGate now max_concurrent_handshakes rate (sketch_new hs) (sketch_new vhs) vrate
    [default_window; default_window; default_window] (mkCounters 0 0 0 0).

Definition count_decision (d : Decision) (c : DecisionCounters) : DecisionCounters :=
  match d with
  | Retry => mkCounters (wrap64 (c_retry c + 1)) (c_ignore c) (c_refuse c) (c_admit c)
  | Ignore _ _ => mkCounters (c_retry c) (wrap64 (c_ignore c + 1)) (c_refuse c) (c_admit c)
  | Refuse _ _ => mkCounters (c_retry c) (c_ignore c) (wrap64 (c_refuse c + 1)) (c_admit c)
  | Admit => mkCounters (c_retry c) (c_ignore c) (c_refuse c) (wrap64 (c_admit c + 1))
  end.

(** [(epoch_index, fraction_into_epoch)] of [rate_exceeded] *)
Definition epoch_position (g : Gate) (now : N) : f64 :=
  f64_div (as_secs_f64 (now - origin g)) (as_secs_f64 EPOCH).
Definition epoch_index (g : Gate) (now : N) : N := f64_to_uint U64_MAX (epoch_position g now).
Definition fraction_into_epoch (g : Gate) (now : N) : f64 :=
  f64_sub (epoch_position g now) (f64_of_N (epoch_index g now)).

Definition burst_limit (rate : N) : N := (rate * EPOCH_SECS) `min` U32_MAX.

Definition rate_exceeded (g : Gate) (s : Sketch) (rate : N) (peer : SocketAddr) (now : N)
    : Sketch * bool :=
  let '(s, estimate) := record_and_estimate (from_addr (ip peer)) (epoch_index g now)
                          (fraction_into_epoch g now) s in
  (s, burst_limit rate <? estimate).

Section Rendered.
(** [now_rfc3339()] and [SocketAddr]'s [Display]: only ever written out. *)
Variable rfc3339 : N -> string.
Variable show_addr : SocketAddr -> string.

Definition record_rejection (reason : RejectReason) (peer : SocketAddr) (now : N)
    (ws : list WindowState) : list WindowState * list AuditRecord :=
  let i := reason_index reason in
  let '(w, opened) := hit now (default default_window (ws !! i)) in
  (<[i := w]> ws,
   match opened with
   | None => []
   | Some prior =>
       (if 0 <? prior then [handshake_rejected_summary (rfc3339 now) (category reason) prior] else [])
       ++ [handshake_rejected (rfc3339 now) (show_addr peer) (category reason)]
   end).

Definition with_windows (ws : list WindowState) (g : Gate) : Gate :=
  mkGate (origin g) (handshake_permits g) (rate_per_source g) (sketch g) (validated_sketch g)
    (validated_rate_per_source g) ws (decision_counters g).
Definition with_sketch (s : Sketch) (g : Gate) : Gate :=
  mkGate (origin g) (handshake_permits g) (rate_per_source g) s (validated_sketch g)
    (validated_rate_per_source g) (windows g) (decision_counters g).
Definition with_validated_sketch (s : Sketch) (g : Gate) : Gate :=
  mkGate (origin g) (handshake_permits g) (rate_per_source g) (sketch g) s
    (validated_rate_per_source g) (windows g) (decision_counters g).
Definition with_permits (n : N) (g : Gate) : Gate :=
  mkGate (origin g) n (rate_per_source g) (sketch g) (validated_sketch g)
    (validated_rate_per_source g) (windows g) (decision_counters g).
Definition counted (d : Decision) (g : Gate) : Gate * Decision :=
  (mkGate (origin g) (handshake_permits g) (rate_per_source g) (sketch g) (validated_sketch g)
     (validated_rate_per_source g) (windows g) (count_decision d (decision_counters g)), d).

Definition rejected (mk : list AuditRecord -> Decision) (reason : RejectReason) (peer : SocketAddr)
    (now : N) (g : Gate) : Gate * Decision :=
  let '(ws, records) := record_rejection reason peer now (windows g) in
  counted (mk records) (with_windows ws g).

(** [Gate::decide]; [try_acquire_owned] takes one of the permits if one is
    left. *)
Definition decide (peer : SocketAddr) (validated : bool) (now : N) (g : Gate) : Gate * Decision :=
  if negb validated then
    let '(s, over) := rate_exceeded g (sketch g) (rate_per_source g) peer now in
    let g := with_sketch s g in
    if over then rejected (Ignore RateLimited) RateLimited peer now g
    else counted Retry g
  else
    let '(s, over) :=
      rate_exceeded g (validated_sketch g) (validated_rate_per_source g) peer now in
    let g := with_validated_sketch s g in
    if over then rejected (Refuse ValidatedRateLimited) ValidatedRateLimited peer now g
    else if 0 <? handshake_permits g then counted Admit (with_permits (handshake_permits g - 1) g)
    else rejected (Refuse AtCapacity) AtCapacity peer now g.

(** [Gate::flush_expired]: one turn of its loop, and the loop. *)
Definition flush_one (now : N) (w : WindowState) (reason : RejectReason)
    : WindowState * list AuditRecord :=
  if is_over now w then
    (default_window,
     if 0 <? suppressed w
     then [handshake_rejected_summary (rfc3339 now) (category reason) (suppressed w)] else [])
  else (w, []).

Fixpoint flush_windows (now : N) (ws : list WindowState) (reasons : list RejectReason)
    : list WindowState * list AuditRecord :=
  match ws, reasons with
  | w :: ws', r :: rs' =>
      let '(w', out) := flush_one now w r in
      let '(ws'', out') := flush_windows now ws' rs' in
      (w' :: ws'', out ++ out')
  | _, _ => (ws, [])
  end.

Definition flush_expired (now : N) (g : Gate) : Gate * list AuditRecord :=
  let '(ws, out) := flush_windows now (windows g) ALL in (with_windows ws g, out).

(** Dropping an admitted attempt's permit. *)
Definition release (g : Gate) : Gate := with_permits (handshake_permits g + 1) g.

(** ** Runs

    The accept loop decides attempts one after another, drops permits when
    handshakes end and flushes the windows on a tick, on a monotonic clock.
    A run keeps the number of permits held, the attempts decided and all
    records handed to the audit sink. *)

Record Attempt := mkAttempt { a_peer : SocketAddr; a_validated : bool; a_now : N; a_decision : Decision }.

Record Run := mkRun {
  gate : Gate;
  clock : N;
  held : N;
  decided : list Attempt;
  out : list AuditRecord;
}.

Inductive GEvent :=
  | GAttempt (peer : SocketAddr) (validated : bool) (now : N)
  | GTick (now : N)
  | GRelease.

Definition records_of (d : Decision) : list AuditRecord :=
  match d with
  | Ignore _ rs | Refuse _ rs => rs
  | _ => []
  end.

Definition gexec (x : Run) (e : GEvent) : option Run :=
  match e with
  | GAttempt peer v now =>
      if now <? clock x then None
      else
        let '(g, d) := decide peer v now (gate x) in
        Some (mkRun g now (match d with Admit => held x + 1 | _ => held x end)
                (decided x ++ [mkAttempt peer v now d]) (out x ++ records_of d))
  | GTick now =>
      if now <? clock x then None
      else
        let '(g, rs) := flush_expired now (gate x) in
        Some (mkRun g now (held x) (decided x) (out x ++ rs))
  | GRelease =>
      if 0 <? held x then Some (mkRun (release (gate x)) (clock x) (held x - 1) (decided x) (out x))
      else None
  end.

Fixpoint gexec_all (x : Run) (es : list GEvent) : option Run :=
  match es with
  | [] => Some x
  | e :: es' => match gexec x e with Some x' => gexec_all x' es' | None => None end
  end.

Definition boot (now max rate vrate : N) (hs vhs : Seeds) : Run :=
  mkRun (new now max rate vrate hs vhs) now 0 [] [].

Lemma gexec_all_inv (P : Run -> Prop) x es x' :
  P x -> (forall y e y', P y -> gexec y e = Some y' -> P y') -> gexec_all x es = Some x' -> P x'.
Proof.
  intros Hx Hstep. revert x Hx. induction es as [|e es IH]; intros x Hx; simpl; [by intros [= <-]|].
  destruct (gexec x e) as [y|] eqn:E; [|done]. eauto.
Qed.

(** ** The sketch is exact in each column *)

(** What an attempt was counted under. *)
Definition Seen : Type := SourceKey * N.

Definition col (h : SourceKey -> N) (k : SourceKey) : nat := N.to_nat (h k mod SKETCH_COLS).

Definition in_cell (h : SourceKey -> N) (e : N) (c : nat) (a : Seen) : bool :=
  (snd a =? e) && (col h (fst a) =? c)%nat.

Definition cell (h : SourceKey -> N) (e : N) (c : nat) (l : list Seen) : N :=
  len (filter (fun a => in_cell h e c a = true) l).

Record RowOk (l : list Seen) (idx : N) (r : SketchRow) : Prop := {
  ro_gens : exists g0 g1, gens r = [g0; g1] /\ length g0 = N.to_nat SKETCH_COLS
              /\ length g1 = N.to_nat SKETCH_COLS;
  ro_cur c : (c < N.to_nat SKETCH_COLS)%nat ->
    load r (N.to_nat (idx mod 2)) c = wrap32 (cell (hasher r) idx c l);
  ro_prev c : (c < N.to_nat SKETCH_COLS)%nat ->
    load r (1 - N.to_nat (idx mod 2)) c =
    if idx =? 0 then 0 else wrap32 (cell (hasher r) (idx - 1) c l);
}.

Record SketchOk (hs : list (SourceKey -> N)) (l : list Seen) (s : Sketch) : Prop := {
  so_hashers : hasher <$> rows s = hs;
  so_rows : Forall (RowOk l (index s)) (rows s);
  so_past : Forall (fun a => snd a <= index s) l;
}.

Lemma col_lt h k : (col h k < N.to_nat SKETCH_COLS)%nat.
Proof. unfold col, SKETCH_COLS. pose proof (N.mod_upper_bound (h k) 1024). lia. Qed.

Lemma cell_app h e c l a :
  cell h e c (l ++ [a]) = cell h e c l + Counter.one (in_cell h e c a).
Proof.
  unfold cell. rewrite filter_app, len_app, filter_cons, filter_nil. unfold Counter.one.
  by destruct (in_cell h e c a).
Qed.

Lemma cell_none h e c l : Forall (fun a => snd a < e) l -> cell h e c l = 0.
Proof.
  induction 1 as [|a l Ha _ IH]; [done|]. unfold cell in *. rewrite filter_cons_False; [done|].
  unfold in_cell. destruct (snd a =? e) eqn:E; bools; [lia|done].
Qed.

(** The two generations a row has, by parity. *)
Lemma parity_cases n : n mod 2 = 0 \/ n mod 2 = 1.
Proof. pose proof (N.mod_upper_bound n 2). lia. Qed.

Lemma parity_succ n : N.to_nat ((n + 1) mod 2) = (1 - N.to_nat (n mod 2))%nat.
Proof.
  pose proof (N.mod_upper_bound n 2). destruct (parity_cases n) as [E|E].
  - assert ((n + 1) mod 2 = 1) as ->; [|lia].
    rewrite N.Div0.add_mod, E. done.
  - assert ((n + 1) mod 2 = 0) as ->; [|lia].
    rewrite N.Div0.add_mod, E. done.
Qed.

Lemma lookup_clear (gen : list N) c : default 0 (clear gen !! c) = 0.
Proof. unfold clear. rewrite list_lookup_fmap. by destruct (gen !! c). Qed.

Lemma length_clear gen : length (clear gen) = length gen.
Proof. apply length_fmap. Qed.

Lemma advance_row_gens gap target l idx r :
  RowOk l idx r -> exists g0 g1, gens (advance_row gap target r) = [g0; g1]
    /\ length g0 = N.to_nat SKETCH_COLS /\ length g1 = N.to_nat SKETCH_COLS.
Proof.
  intros [(g0 & g1 & Hg & H0 & H1) _ _]. unfold advance_row. rewrite Hg.
  destruct (gap =? 1); [|by exists (clear g0), (clear g1); rewrite !length_clear].
  destruct (parity_cases target) as [-> | ->]; simpl; eauto 10 using length_clear with congruence.
  - exists (clear g0), g1. by rewrite length_clear.
  - exists g0, (clear g1). by rewrite length_clear.
Qed.

Lemma load_advance_one target l idx r c :
  RowOk l idx r ->
  load (advance_row 1 target r) (N.to_nat (target mod 2)) c = 0
  /\ load (advance_row 1 target r) (1 - N.to_nat (target mod 2)) c
     = load r (1 - N.to_nat (target mod 2)) c.
Proof.
  intros [(g0 & g1 & Hg & H0 & H1) _ _]. unfold load, advance_row. simpl. rewrite Hg.
  by destruct (parity_cases target) as [-> | ->]; simpl; rewrite ?lookup_clear.
Qed.

Lemma load_advance_many gap target r g c : gap <> 1 -> load (advance_row gap target r) g c = 0.
Proof.
  intros Hgap. unfold load, advance_row. rewrite (proj2 (N.eqb_neq gap 1)) by done. simpl.
  rewrite list_lookup_fmap. destruct (gens r !! g); simpl; [apply lookup_clear|done].
Qed.

Lemma hasher_advance gap target r : hasher (advance_row gap target r) = hasher r.
Proof. unfold advance_row. by case_match. Qed.

Lemma row_advance l idx target r :
  idx < target -> Forall (fun a : Seen => snd a <= idx) l -> RowOk l idx r ->
  RowOk l target (advance_row (target - idx) target r).
Proof.
  intros Hlt Hpast Hr.
  assert (forall e h c, idx < e -> cell h e c l = 0) as Hnone.
  { intros e h c He. apply cell_none. eapply Forall_impl; [done|]. simpl. lia. }
  destruct (N.eqb_spec (target - idx) 1) as [E|E].
  - rewrite E. assert (target = idx + 1) as -> by lia.
    constructor; [by eapply advance_row_gens|intros c Hc..]; rewrite hasher_advance.
    + rewrite (proj1 (load_advance_one _ _ _ _ c Hr)), Hnone by lia. done.
    + rewrite (proj2 (load_advance_one _ _ _ _ c Hr)), parity_succ.
      replace (1 - (1 - N.to_nat (idx mod 2)))%nat with (N.to_nat (idx mod 2))
        by (destruct (parity_cases idx); lia).
      rewrite (ro_cur _ _ _ Hr c Hc), (proj2 (N.eqb_neq (idx + 1) 0)) by lia.
      by rewrite N.add_sub.
  - constructor; [by eapply advance_row_gens|intros c Hc..]; rewrite hasher_advance,
      load_advance_many by done.
    + by rewrite Hnone by lia.
    + rewrite Hnone by lia. by case_match.
Qed.

Lemma sketch_advance hs l s target :
  SketchOk hs l s -> index s <= target ->
  SketchOk hs l (advance_to target s) /\ index (advance_to target s) = target.
Proof.
  intros [Hh Hr Hp] Ht. unfold advance_to. destruct (N.leb_spec target (index s)).
  - assert (target = index s) as -> by lia. done.
  - split; [|done]. constructor; simpl.
    + rewrite <- Hh, <- list_fmap_compose. apply list_fmap_ext. intros ? ? ?. apply hasher_advance.
    + rewrite Forall_fmap. eapply Forall_impl; [exact Hr|]. intros r Hrow. by apply row_advance.
    + eapply Forall_impl; [exact Hp|]. simpl. lia.
Qed.

Lemma wrap32_succ n : wrap32 (wrap32 n + 1) = wrap32 (n + 1).
Proof. unfold wrap32. by rewrite N.Div0.add_mod_idemp_l. Qed.

Lemma load_bump l idx r g c g' c' :
  RowOk l idx r -> (g < 2)%nat -> (c < N.to_nat SKETCH_COLS)%nat ->
  load (bump r g c) g' c' =
  if (g =? g')%nat && (c =? c')%nat then wrap32 (load r g' c' + 1) else load r g' c'.
Proof.
  intros [(g0 & g1 & Hg & H0 & H1) _ _] Hgl Hc. unfold load, bump. simpl. rewrite Hg.
  destruct (Nat.eqb_spec g g') as [<-|Hne]; simpl.
  - rewrite list_lookup_alter_eq. destruct g as [|[|]]; [| |lia]; simpl.
    + destruct (Nat.eqb_spec c c') as [<-|?].
      * rewrite list_lookup_alter_eq. destruct (lookup_lt_is_Some_2 g0 c) as [v ->]; [lia|done].
      * by rewrite list_lookup_alter_ne.
    + destruct (Nat.eqb_spec c c') as [<-|?].
      * rewrite list_lookup_alter_eq. destruct (lookup_lt_is_Some_2 g1 c) as [v ->]; [lia|done].
      * by rewrite list_lookup_alter_ne.
  - by rewrite list_lookup_alter_ne.
Qed.

Lemma row_bump l idx r k :
  RowOk l idx r -> RowOk (l ++ [(k, idx)]) idx (bump r (N.to_nat (idx mod 2)) (column r k)).
Proof.
  intros Hr. assert (N.to_nat (idx mod 2) < 2)%nat as Hg by (destruct (parity_cases idx); lia).
  pose proof (col_lt (hasher r) k) as Hc. constructor; simpl.
  - destruct Hr as [(g0 & g1 & E & H0 & H1) _ _]. rewrite E.
    destruct (parity_cases idx) as [-> | ->]; simpl; eexists _, _; (split; [done|]);
      rewrite ?length_alter; done.
  - intros c Hlt. rewrite (load_bump l idx) by done. rewrite Nat.eqb_refl, (ro_cur _ _ _ Hr c Hlt).
    rewrite cell_app. unfold in_cell. simpl. rewrite N.eqb_refl. simpl. change (column r k) with (col (hasher r) k).
    destruct (col (hasher r) k =? c)%nat; simpl; [apply wrap32_succ|by rewrite N.add_0_r].
  - intros c Hlt. rewrite (load_bump l idx) by done.
    rewrite (proj2 (Nat.eqb_neq _ _)) by (destruct (parity_cases idx); lia). simpl.
    rewrite (ro_prev _ _ _ Hr c Hlt), cell_app. unfold in_cell. simpl.
    destruct (N.eqb_spec idx 0); [done|]. rewrite (proj2 (N.eqb_neq idx (idx - 1))) by lia.
    simpl. by rewrite N.add_0_r.
Qed.

(** What one row estimates, in terms of the attempts seen. *)
Definition estimate_of (l : list Seen) (k : SourceKey) (e : N) (fraction : f64)
    (h : SourceKey -> N) : N :=
  sat_add32 (wrap32 (cell h e (col h k) l + 1))
    (weighted (if e =? 0 then 0 else wrap32 (cell h (e - 1) (col h k) l)) fraction).

Lemma fold_min_fmap {A} (f : A -> N) l acc :
  fold_left (fun est x => est `min` f x) l acc = fold_left N.min (f <$> l) acc.
Proof. revert acc. induction l as [|x l IH]; intros acc; [done|apply IH]. Qed.

Lemma record_spec hs l s k e fraction :
  SketchOk hs l s -> index s <= e ->
  let '(s', est) := record_and_estimate k e fraction s in
  SketchOk hs (l ++ [(k, e)]) s' /\ index s' = e
  /\ est = fold_left N.min (estimate_of l k e fraction <$> hs) U32_MAX.
Proof.
  intros Hs He. destruct (sketch_advance hs l s e Hs He) as ([Hh Hr Hp] & Hi).
  unfold record_and_estimate. rewrite Hi in *. repeat split; simpl.
  - rewrite <- Hh, <- list_fmap_compose. done.
  - rewrite Forall_fmap. eapply Forall_impl; [exact Hr|]. intros r Hrow. by apply row_bump.
  - apply Forall_app_2; [done|]. by repeat constructor.
  - rewrite fold_min_fmap, <- Hh, <- list_fmap_compose. f_equal.
    apply list_fmap_ext. intros i r Hri%list_elem_of_lookup_2.
    rewrite Forall_forall in Hr. specialize (Hr r Hri). simpl. unfold row_estimate, estimate_of.
    rewrite (ro_cur _ _ _ Hr) by apply col_lt. rewrite (ro_prev _ _ _ Hr) by apply col_lt.
    by rewrite wrap32_succ.
Qed.

Lemma fold_min_ge n l acc : n <= acc -> Forall (fun x => n <= x) l -> n <= fold_left N.min l acc.
Proof.
  intros Ha Hl. revert acc Ha. induction Hl as [|x l Hx _ IH]; intros acc Ha; [done|].
  apply IH. lia.
Qed.

Lemma fold_min_le x l acc : In x l -> fold_left N.min l acc <= x.
Proof.
  assert (forall l acc, fold_left N.min l acc <= acc) as Hacc.
  { clear. induction l as [|y l IH]; intros acc; simpl; [lia|]. specialize (IH (acc `min` y)). lia. }
  revert acc. induction l as [|y l IH]; intros acc; [done|]. intros [->|Hin]; simpl; [|by apply IH].
  specialize (Hacc l (acc `min` x)). lia.
Qed.

Lemma cell_le h e c l : cell h e c l <= len l.
Proof. unfold cell, len. pose proof (length_filter (fun a => in_cell h e c a = true) l). lia. Qed.

(** The attempts of one source in one epoch. *)
Definition of_source (k : SourceKey) (e : N) (l : list Seen) : N :=
  len (filter (fun a => a = (k, e)) l).

Lemma cell_cons h e c a l : cell h e c (a :: l) = Counter.one (in_cell h e c a) + cell h e c l.
Proof.
  unfold cell, Counter.one. destruct (in_cell h e c a) eqn:E.
  - rewrite filter_cons_True, len_cons by done. done.
  - rewrite filter_cons_False by (rewrite E; done). done.
Qed.

Lemma of_source_cons k e a l :
  of_source k e (a :: l) = Counter.one (bool_decide (a = (k, e))) + of_source k e l.
Proof.
  unfold of_source, Counter.one. case_bool_decide.
  - rewrite filter_cons_True, len_cons by done. done.
  - rewrite filter_cons_False by done. done.
Qed.

Lemma of_source_cell h k e l : of_source k e l <= cell h e (col h k) l.
Proof.
  induction l as [|a l IH]; [done|]. rewrite cell_cons, of_source_cons.
  case_bool_decide as E; [|simpl; lia]. subst a. unfold in_cell. simpl.
  rewrite N.eqb_refl, Nat.eqb_refl. simpl. lia.
Qed.

(** In a row where no other source shares the column, the cell is exact. *)
Lemma of_source_alone h k e l :
  Forall (fun a : Seen => fst a <> k -> col h (fst a) <> col h k) l ->
  cell h e (col h k) l = of_source k e l.
Proof.
  induction 1 as [|a l Ha _ IH]; [done|]. rewrite cell_cons, of_source_cons, IH. f_equal. f_equal.
  destruct a as [k' e']. simpl in Ha. unfold in_cell. simpl.
  case_bool_decide as E; [injection E as -> ->; by rewrite N.eqb_refl, Nat.eqb_refl|].
  destruct (N.eqb_spec e' e) as [->|]; [|done]. destruct (Nat.eqb_spec (col h k') (col h k)); [|done].
  exfalso. destruct (base.decide (k' = k)) as [->|Hk]; [done|by apply Ha].
Qed.

(** ** The two axes of a gate *)

Definition axis (v : bool) (g : Gate) : Sketch := if v then validated_sketch g else sketch g.
Definition rate (v : bool) (g : Gate) : N :=
  if v then validated_rate_per_source g else rate_per_source g.

Definition limited (peer : SocketAddr) (v : bool) (now : N) (g : Gate) : bool :=
  snd (rate_exceeded g (axis v g) (rate v g) peer now).

(** The decision without its records. *)
Inductive Verdict := VRetry | VReject (r : RejectReason) | VAdmit.

Definition verdict (d : Decision) : Verdict :=
  match d with
  | Retry => VRetry
  | Ignore r _ | Refuse r _ => VReject r
  | Admit => VAdmit
  end.

Definition verdict_of (v over : bool) (permits : N) : Verdict :=
  if v then
    if over then VReject ValidatedRateLimited
    else if 0 <? permits then VAdmit else VReject AtCapacity
  else if over then VReject RateLimited else VRetry.

Record Decided (peer : SocketAddr) (v : bool) (now : N) (g g' : Gate) (d : Decision) : Prop := {
  dc_verdict : verdict d = verdict_of v (limited peer v now g) (handshake_permits g);
  dc_axis : axis v g' = fst (record_and_estimate (from_addr (ip peer)) (epoch_index g now)
                               (fraction_into_epoch g now) (axis v g));
  dc_other : axis (negb v) g' = axis (negb v) g;
  dc_config : origin g' = origin g /\ forall a, rate a g' = rate a g;
  dc_permits : handshake_permits g' =
    (match d with Admit => handshake_permits g - 1 | _ => handshake_permits g end)
    /\ (d = Admit -> 0 < handshake_permits g);
  dc_windows : match verdict d with
    | VReject r => record_rejection r peer now (windows g) = (windows g', records_of d)
    | _ => windows g' = windows g /\ records_of d = []
    end;
}.

Lemma rejected_decided mk r peer now g g1 v :
  (forall rs, verdict (mk rs) = VReject r) -> (forall rs, records_of (mk rs) = rs) ->
  (forall rs, mk rs <> Admit) ->
  verdict_of v (limited peer v now g) (handshake_permits g) = VReject r ->
  g1 = (if v then with_validated_sketch (axis v g1) g else with_sketch (axis v g1) g) ->
  axis v g1 = fst (record_and_estimate (from_addr (ip peer)) (epoch_index g now)
                     (fraction_into_epoch g now) (axis v g)) ->
  Decided peer v now g (fst (rejected mk r peer now g1)) (snd (rejected mk r peer now g1)).
Proof.
  intros Hv Hr Ha Hof Hg1 Hax. unfold rejected.
  destruct (record_rejection r peer now (windows g1)) as [ws rs] eqn:E.
  assert (windows g1 = windows g) as Hw by (rewrite Hg1; by destruct v).
  assert (forall A (x y : A), match mk rs with Admit => x | _ => y end = y) as Hm.
  { intros A x y. specialize (Ha rs). by destruct (mk rs). }
  assert (axis (negb v) g1 = axis (negb v) g) as Ho by (rewrite Hg1; by destruct v).
  constructor; cbn [counted fst snd].
  - by rewrite Hv.
  - by rewrite <- Hax; destruct v.
  - by rewrite <- Ho; destruct v.
  - rewrite Hg1. split; [by destruct v|]. intros a. by destruct v, a.
  - rewrite Hm. split; [rewrite Hg1; by destruct v|]. intros Hd. by apply Ha in Hd.
  - by rewrite Hv, Hr, <- Hw.
Qed.

Lemma decide_spec peer v now g :
  Decided peer v now g (fst (decide peer v now g)) (snd (decide peer v now g)).
Proof.
  destruct (record_and_estimate (from_addr (ip peer)) (epoch_index g now)
              (fraction_into_epoch g now) (axis v g)) as [s est] eqn:ER.
  assert (limited peer v now g = (burst_limit (rate v g) <? est)) as Hl.
  { unfold limited, rate_exceeded. by rewrite ER. }
  unfold decide, rate_exceeded.
  destruct v; cbn [negb];
    [change (validated_sketch g) with (axis true g)|change (sketch g) with (axis false g)];
    rewrite ER; cbn [rate] in Hl; rewrite <- Hl.
  - destruct (limited peer true now g) eqn:E.
    + apply rejected_decided; try done; [by rewrite E|]. by rewrite ER.
    + destruct (0 <? handshake_permits _) eqn:Ep; cbn [handshake_permits with_validated_sketch] in Ep.
      * constructor; cbn [counted fst snd verdict records_of]; [by rewrite E; simpl; rewrite Ep|by rewrite ER|done|by (split; [done|intros []])| |done].
        split; [done|]. bools. done.
      * apply rejected_decided; try done; [by rewrite E; simpl; rewrite Ep|]. by rewrite ER.
  - destruct (limited peer false now g) eqn:E.
    + apply rejected_decided; try done; [by rewrite E|]. by rewrite ER.
    + constructor; cbn [counted fst snd verdict records_of]; [by rewrite E|by rewrite ER|done|by (split; [done|intros []])|done|done].
Qed.

(** ** Rate limiting over a run *)

Definition seen_by (g : Gate) (a : Attempt) : Seen :=
  (from_addr (ip (a_peer a)), epoch_index g (a_now a)).

(** The attempts the sketch of an axis has counted. *)
Definition seen (v : bool) (x : Run) : list Seen :=
  seen_by (gate x) <$> filter (fun a => a_validated a = v) (decided x).

(** Epochs are counted in order. *)
Definition in_order (v : bool) (x : Run) : Prop := StronglySorted N.le (snd <$> seen v x).

Record RunOk (t0 max rt vrt : N) (hs vhs : list (SourceKey -> N)) (x : Run) : Prop := {
  r_origin : origin (gate x) = t0;
  r_rate : forall v, rate v (gate x) = if v then vrt else rt;
  r_permits : handshake_permits (gate x) + held x = max;
  r_sketch v : in_order v x ->
    SketchOk (if v then vhs else hs) (seen v x) (axis v (gate x))
    /\ (index (axis v (gate x)) = 0 \/ exists k, (k, index (axis v (gate x))) ∈ seen v x);
}.

Lemma epoch_index_origin g g' now : origin g' = origin g -> epoch_index g' now = epoch_index g now.
Proof. intros E. unfold epoch_index, epoch_position. by rewrite E. Qed.

Lemma seen_same v x x' :
  origin (gate x') = origin (gate x) -> decided x' = decided x -> seen v x' = seen v x.
Proof.
  intros Ho Hd. unfold seen. rewrite Hd. apply list_fmap_ext. intros _ a _. unfold seen_by.
  by rewrite (epoch_index_origin (gate x) (gate x')).
Qed.

Lemma seen_app v x x' a :
  origin (gate x') = origin (gate x) -> decided x' = decided x ++ [a] ->
  seen v x' = seen v x ++ (if Bool.eqb (a_validated a) v then [seen_by (gate x) a] else []).
Proof.
  intros Ho Hd. unfold seen. rewrite Hd, filter_app, fmap_app, filter_cons, filter_nil.
  f_equal.
  - apply list_fmap_ext. intros _ b _. unfold seen_by. by rewrite (epoch_index_origin (gate x) (gate x')).
  - destruct (base.decide (a_validated a = v)) as [->|Hne].
    + rewrite Bool.eqb_reflx. simpl. unfold seen_by. by rewrite (epoch_index_origin (gate x) (gate x')).
    + destruct (Bool.eqb (a_validated a) v) eqn:E; [by apply Bool.eqb_prop in E|done].
Qed.

Lemma row_new_ok h : RowOk [] 0 (row_new h).
Proof.
  constructor; cbn [gens row_new].
  - eexists _, _. split; [reflexivity|]. by rewrite length_replicate.
  - intros c Hc. change (default 0 (replicate (N.to_nat SKETCH_COLS) 0 !! c) = 0).
    by rewrite lookup_replicate_2.
  - intros c Hc. change (default 0 (replicate (N.to_nat SKETCH_COLS) 0 !! c) = 0).
    by rewrite lookup_replicate_2.
Qed.

Lemma sketch_new_ok hs : SketchOk (rows_of hs) [] (sketch_new hs).
Proof.
  constructor; cbn [rows index sketch_new]; [| |done].
  - rewrite <- list_fmap_compose. apply list_fmap_id.
  - rewrite Forall_fmap. apply Forall_true. apply row_new_ok.
Qed.

Lemma boot_ok t0 max rt vrt hs vhs : RunOk t0 max rt vrt (rows_of hs) (rows_of vhs) (boot t0 max rt vrt hs vhs).
Proof.
  constructor; simpl; [done|by intros []|lia|]. intros v _.
  split; [|left; by destruct v]. destruct v; apply sketch_new_ok.
Qed.

(** One attempt counted on its axis. *)
Lemma attempt_sketch hs l s k e fraction :
  SketchOk hs l s -> (index s = 0 \/ exists k', (k', index s) ∈ l) ->
  Forall (fun a : Seen => snd a <= e) l ->
  let s' := fst (record_and_estimate k e fraction s) in
  SketchOk hs (l ++ [(k, e)]) s' /\ (index s' = 0 \/ exists k', (k', index s') ∈ l ++ [(k, e)]).
Proof.
  intros Hs Hi Hl. assert (index s <= e) as He.
  { destruct Hi as [->|[k' Hk]]; [lia|]. rewrite Forall_forall in Hl. apply (Hl _ Hk). }
  pose proof (record_spec hs l s k e fraction Hs He) as Hr.
  destruct (record_and_estimate k e fraction s) as [s' est]. destruct Hr as (Hok & Hx & _).
  simpl. split; [done|]. right. exists k. rewrite Hx.
  apply elem_of_app. right. by apply list_elem_of_singleton.
Qed.

Lemma in_order_app l (a : Seen) :
  StronglySorted N.le (snd <$> (l ++ [a])) ->
  StronglySorted N.le (snd <$> l) /\ Forall (fun b : Seen => snd b <= snd a) l.
Proof.
  induction l as [|b l IH]; [intros _; split; constructor|]. rewrite <- app_comm_cons, !fmap_cons.
  intros [Hs Hb]%StronglySorted_inv. specialize (IH Hs) as [Hl Ha].
  rewrite fmap_app, Forall_app in Hb. destruct Hb as [Hb Hba].
  split; constructor; try done. by apply Forall_cons in Hba as [? _].
Qed.

Lemma RunOk_exec t0 max rt vrt hs vhs x e x' :
  RunOk t0 max rt vrt hs vhs x -> gexec x e = Some x' -> RunOk t0 max rt vrt hs vhs x'.
Proof.
  intros [Ho Hr Hp Hs]. destruct e as [peer v now|now|]; simpl.
  - case_match; [done|]. pose proof (decide_spec peer v now (gate x)) as D.
    destruct (decide peer v now (gate x)) as [g d]. cbn [fst snd] in D. intros [= <-].
    destruct D as [_ Dax Doth [Dorg Drate] [Dperm Dadm] _].
    constructor; cbn [gate held decided].
    + congruence.
    + intros a. by rewrite Drate.
    + rewrite Dperm. destruct d; try done. specialize (Dadm eq_refl). lia.
    + intros a Ha. unfold in_order in Ha.
      match type of Ha with context [seen a ?y] =>
        rewrite (seen_app a x y (mkAttempt peer v now d)) in Ha |- * by done end.
      cbn [a_validated] in *.
      destruct (Bool.eqb v a) eqn:Ev.
      * apply Bool.eqb_prop in Ev as <-. rewrite Dax. apply in_order_app in Ha as [Ha Hle].
        destruct (Hs v Ha). by apply attempt_sketch.
      * rewrite app_nil_r in *. assert (a = negb v) as -> by (by destruct a, v).
        rewrite Doth. by apply Hs.
  - case_match; [done|]. unfold flush_expired. destruct (flush_windows _ _ _) as [ws rs].
    intros [= <-]. by constructor.
  - case_match; [|done]. bools. intros [= <-]. constructor; try done.
    simpl. lia.
Qed.

Lemma RunOk_reach t0 max rt vrt hs vhs es x :
  gexec_all (boot t0 max rt vrt hs vhs) es = Some x ->
  RunOk t0 max rt vrt (rows_of hs) (rows_of vhs) x.
Proof. apply gexec_all_inv; [apply boot_ok|]. intros *. apply RunOk_exec. Qed.

Definition key_of (peer : SocketAddr) : SourceKey := from_addr (ip peer).

Lemma weighted_zero f : weighted 0 f = 0.
Proof.
  unfold weighted, f64_mul. change (f64_of_N 0) with (S754_zero false).
  by destruct (f64_sub (f64_of_N 1) f).
Qed.

Lemma wrap32_small n : n <= U32_MAX -> wrap32 n = n.
Proof. unfold wrap32, U32_MAX. intros. apply N.mod_small. lia. Qed.

(** The estimate of a run's next attempt. *)
Lemma limited_estimate t0 max rt vrt hs vhs x peer v now :
  RunOk t0 max rt vrt hs vhs x -> in_order v x ->
  Forall (fun a => snd a <= epoch_index (gate x) now) (seen v x) ->
  limited peer v now (gate x) =
  (burst_limit (if v then vrt else rt) <?
   fold_left N.min (estimate_of (seen v x) (key_of peer) (epoch_index (gate x) now)
                      (fraction_into_epoch (gate x) now) <$> (if v then vhs else hs)) U32_MAX).
Proof.
  intros [Ho Hr Hp Hs] Hord Hl. destruct (Hs v Hord) as [Hok Hi].
  assert (index (axis v (gate x)) <= epoch_index (gate x) now) as He.
  { destruct Hi as [->|[k' Hk]]; [lia|]. rewrite Forall_forall in Hl. apply (Hl _ Hk). }
  pose proof (record_spec _ _ _ (key_of peer) _ (fraction_into_epoch (gate x) now) Hok He) as R.
  unfold limited, rate_exceeded. fold (key_of peer).
  destruct (record_and_estimate _ _ _ _) as [s est]. destruct R as (_ & _ & ->).
  by rewrite Hr.
Qed.

Lemma verdict_decide t0 max rt vrt hs vhs x peer v now :
  RunOk t0 max rt vrt hs vhs x ->
  verdict (snd (decide peer v now (gate x))) = verdict_of v (limited peer v now (gate x)) (max - held x).
Proof.
  intros Hx. rewrite (dc_verdict _ _ _ _ _ _ (decide_spec peer v now (gate x))).
  f_equal. pose proof (r_permits _ _ _ _ _ _ _ Hx). lia.
Qed.

(** The rate limit cannot be evaded: once a source has used up its budget
    of an epoch on an axis, its next attempt in that epoch is rejected by that
    axis's limit, whatever other sources did and whatever the hashers are. *)
Theorem rate_limit_bites t0 max rt vrt hs vhs es x peer v now :
  gexec_all (boot t0 max rt vrt hs vhs) es = Some x ->
  in_order v x ->
  Forall (fun a => snd a <= epoch_index (gate x) now) (seen v x) ->
  len (seen v x) < U32_MAX ->
  burst_limit (if v then vrt else rt) <=
    of_source (key_of peer) (epoch_index (gate x) now) (seen v x) ->
  verdict (snd (decide peer v now (gate x)))
  = VReject (if v then ValidatedRateLimited else RateLimited).
Proof.
  intros Hx%RunOk_reach Hord Hl Hn Hb.
  rewrite (verdict_decide _ _ _ _ _ _ _ _ _ _ Hx).
  assert (limited peer v now (gate x) = true) as ->; [|by destruct v].
  rewrite (limited_estimate _ _ _ _ _ _ _ _ _ _ Hx Hord Hl). apply N.ltb_lt.
  set (n := of_source _ _ _) in *. apply (N.lt_le_trans _ (n + 1)); [lia|].
  assert (n <= len (seen v x)) by (pose proof (of_source_cell (fun _ => 0) (key_of peer)
    (epoch_index (gate x) now) (seen v x)); pose proof (cell_le (fun _ => 0)
    (epoch_index (gate x) now) (col (fun _ => 0) (key_of peer)) (seen v x)); lia).
  apply fold_min_ge; [lia|]. rewrite Forall_fmap. apply Forall_true. intros h. simpl.
  pose proof (of_source_cell h (key_of peer) (epoch_index (gate x) now) (seen v x)).
  pose proof (cell_le h (epoch_index (gate x) now) (col h (key_of peer)) (seen v x)).
  unfold estimate_of, sat_add32. rewrite wrap32_small by lia. lia.
Qed.

(** The rate limit does not punish the innocent: a source that sent
    nothing in the previous epoch, is within its budget in this one and shares
    its column in some row with no other source seen, is not rate limited. *)
Theorem rate_limit_fair t0 max rt vrt hs vhs es x peer v now h :
  gexec_all (boot t0 max rt vrt hs vhs) es = Some x ->
  in_order v x ->
  Forall (fun a => snd a <= epoch_index (gate x) now) (seen v x) ->
  len (seen v x) < U32_MAX ->
  In h (if v then rows_of vhs else rows_of hs) ->
  Forall (fun a : Seen => fst a <> key_of peer -> col h (fst a) <> col h (key_of peer)) (seen v x) ->
  of_source (key_of peer) (epoch_index (gate x) now - 1) (seen v x) = 0
    \/ epoch_index (gate x) now = 0 ->
  of_source (key_of peer) (epoch_index (gate x) now) (seen v x) < burst_limit (if v then vrt else rt) ->
  verdict (snd (decide peer v now (gate x)))
  = if v then if held x <? max then VAdmit else VReject AtCapacity else VRetry.
Proof.
  intros Hx%RunOk_reach Hord Hl Hn Hh Halone Hprev Hb.
  rewrite (verdict_decide _ _ _ _ _ _ _ _ _ _ Hx).
  assert (limited peer v now (gate x) = false) as ->.
  2: { destruct v; simpl; [|done]. pose proof (r_permits _ _ _ _ _ _ _ Hx).
       destruct (N.ltb_spec (held x) max), (N.ltb_spec 0 (max - held x)); try done; lia. }
  rewrite (limited_estimate _ _ _ _ _ _ _ _ _ _ Hx Hord Hl). apply N.ltb_ge.
  etrans; [apply fold_min_le, in_map, Hh|].
  unfold estimate_of. rewrite !of_source_alone by done.
  assert ((if epoch_index (gate x) now =? 0 then 0
    else wrap32 (of_source (key_of peer) (epoch_index (gate x) now - 1) (seen v x))) = 0) as ->.
  { destruct (N.eqb_spec (epoch_index (gate x) now) 0); [done|]. by destruct Hprev as [-> | ?]. }
  rewrite weighted_zero. unfold sat_add32, burst_limit in *. rewrite wrap32_small by lia. lia.
Qed.

(** No more than the configured number of handshakes are ever in progress
    at once, and a validated attempt that is not rate limited is admitted
    exactly when one of them is free; an unvalidated attempt never is. *)
Theorem handshake_cap t0 max rt vrt hs vhs es x :
  gexec_all (boot t0 max rt vrt hs vhs) es = Some x ->
  held x <= max
  /\ forall peer v now, verdict (snd (decide peer v now (gate x))) = VAdmit <->
       v = true /\ limited peer v now (gate x) = false /\ held x < max.
Proof.
  intros Hx%RunOk_reach. pose proof (r_permits _ _ _ _ _ _ _ Hx). split; [lia|]. intros peer v now.
  rewrite (verdict_decide _ _ _ _ _ _ _ _ _ _ Hx). unfold verdict_of.
  destruct v, (limited peer _ now (gate x)), (N.ltb_spec 0 (max - held x));
    split; try done; try (intros (? & ? & ?); done || lia); intros _; repeat split; lia.
Qed.

(** ** Audit of rejections *)

Definition rejects (r : RejectReason) (a : Attempt) : bool :=
  match verdict (a_decision a) with
  | VReject r' => (reason_index r' =? reason_index r)%nat
  | _ => false
  end.

Definition rejections (r : RejectReason) (x : Run) : N :=
  len (filter (fun a => rejects r a = true) (decided x)).

Definition window_of (r : RejectReason) (ws : list WindowState) : WindowState :=
  default default_window (ws !! reason_index r).

(** What a list of records says about one reason. *)
Definition tally (r : RejectReason) (rs : list AuditRecord) : N * N * N :=
  (total (is_first (category r)) rs, total (is_summary (category r)) rs,
   total (accounts (category r)) rs).

Definition booked (t0 last : N) (w : WindowState) (t : N * N * N) (tot : N) : Prop :=
  Booked t0 last w (fst (fst t)) (snd (fst t)) (snd t) tot.

Record AuditOk (t0 : N) (x : Run) : Prop := {
  ao_windows : length (windows (gate x)) = 3%nat;
  ao_booked r : len (decided x) <= U32_MAX ->
    booked t0 (clock x) (window_of r (windows (gate x))) (tally r (out x)) (rejections r x);
}.

Definition tally_add (a b : N * N * N) : N * N * N :=
  (fst (fst a) + fst (fst b), snd (fst a) + snd (fst b), snd a + snd b).

Lemma tally_app r rs1 rs2 : tally r (rs1 ++ rs2) = tally_add (tally r rs1) (tally r rs2).
Proof. unfold tally, tally_add. simpl. by rewrite !total_app. Qed.

Definition opened_records (now : N) (peer : SocketAddr) (r : RejectReason) (prior : N) : list AuditRecord :=
  (if 0 <? prior then [handshake_rejected_summary (rfc3339 now) (category r) prior] else [])
  ++ [handshake_rejected (rfc3339 now) (show_addr peer) (category r)].

Lemma tally_opened now peer r prior :
  tally r (opened_records now peer r prior) = (1, Counter.one (0 <? prior), prior + 1).
Proof.
  unfold tally, opened_records. destruct (N.ltb_spec 0 prior) as [H|H]; destruct r; simpl;
    rewrite ?N.add_0_r; try done; by replace prior with 0 by lia.
Qed.

Lemma tally_opened_other now peer r r' prior :
  r <> r' -> tally r (opened_records now peer r' prior) = (0, 0, 0).
Proof. intros Hne. unfold tally, opened_records. by destruct (0 <? prior), r, r'. Qed.

Lemma tally_flush now r r' w :
  tally r (snd (flush_one now w r')) =
  if (reason_index r =? reason_index r')%nat && is_over now w
  then (0, Counter.one (0 <? suppressed w), suppressed w) else (0, 0, 0).
Proof.
  unfold flush_one. destruct (is_over now w); [|by rewrite andb_false_r].
  destruct (N.ltb_spec 0 (suppressed w)) as [H|H]; destruct r, r'; simpl; try done;
    unfold tally; simpl; rewrite ?N.add_0_r; try done; by replace (suppressed w) with 0 by lia.
Qed.

Lemma tally_add_0 t : tally_add t (0, 0, 0) = t.
Proof. destruct t as [[a b] c]. unfold tally_add. simpl. by rewrite !N.add_0_r. Qed.

Lemma booked_later t0 last now w t tot : booked t0 last w t tot -> last <= now -> booked t0 now w t tot.
Proof. apply booked_wait. Qed.

Lemma rejections_app r x x' a :
  decided x' = decided x ++ [a] -> rejections r x' = rejections r x + Counter.one (rejects r a).
Proof.
  intros Hd. unfold rejections. rewrite Hd, filter_app, len_app, filter_cons, filter_nil.
  unfold Counter.one. by destruct (rejects r a).
Qed.

Lemma rejections_le r x : rejections r x <= len (decided x).
Proof. unfold rejections, len. pose proof (length_filter (fun a => rejects r a = true) (decided x)). lia. Qed.

Lemma reason_index_inj r r' : reason_index r = reason_index r' -> r = r'.
Proof. by destruct r, r'. Qed.

(** One rejection, seen from every reason's books. *)
Lemma rejection_booked t0 last now r r' peer ws ws' rs t tot :
  length ws = 3%nat -> record_rejection r' peer now ws = (ws', rs) -> last <= now ->
  tot < U32_MAX -> booked t0 last (window_of r ws) t tot ->
  length ws' = 3%nat
  /\ booked t0 now (window_of r ws') (tally_add t (tally r rs))
       (tot + Counter.one (reason_index r' =? reason_index r)%nat).
Proof.
  intros Hlen Hrec Hl Htot Hb. unfold record_rejection in Hrec.
  fold (window_of r' ws) in Hrec. destruct (hit now (window_of r' ws)) as [w opened] eqn:Eh.
  injection Hrec as <- Hrs. split; [by rewrite length_insert|].
  destruct (Nat.eqb_spec (reason_index r') (reason_index r)) as [E|E].
  - apply reason_index_inj in E as ->. simpl.
    assert (window_of r (<[reason_index r := w]> ws) = w) as ->.
    { unfold window_of. rewrite list_lookup_insert_eq; [done|]. rewrite Hlen. destruct r; simpl; lia. }
    pose proof (booked_hit _ _ _ _ _ _ _ now Hb Hl ltac:(lia)) as Hh. rewrite Eh in Hh.
    destruct opened as [prior|]; subst rs.
    + change (booked t0 now w (tally_add t (tally r (opened_records now peer r prior))) (tot + 1)).
      rewrite tally_opened. unfold booked, tally_add. simpl. by rewrite N.add_assoc.
    + destruct Hh as [Hh|]; [|lia]. change (tally r []) with (0, 0, 0). by rewrite tally_add_0.
  - assert (window_of r (<[reason_index r' := w]> ws) = window_of r ws) as ->.
    { unfold window_of. by rewrite list_lookup_insert_ne. }
    assert (tally r rs = (0, 0, 0)) as ->.
    { subst rs. destruct opened; [|done]. apply tally_opened_other. congruence. }
    rewrite tally_add_0, N.add_0_r. by eapply booked_later.
Qed.

Lemma flush_booked t0 last now r w t tot :
  booked t0 last w t tot -> last <= now ->
  booked t0 now (fst (flush_one now w r)) (tally_add t (tally r (snd (flush_one now w r)))) tot.
Proof.
  intros Hb Hl. rewrite tally_flush, Nat.eqb_refl. simpl. unfold flush_one.
  destruct (is_over now w) eqn:E.
  - unfold booked, tally_add. simpl. rewrite N.add_0_r. by eapply booked_close.
  - rewrite tally_add_0. by eapply booked_later.
Qed.

Lemma tally_flush_other now r r' w :
  r <> r' -> tally r (snd (flush_one now w r')) = (0, 0, 0).
Proof.
  intros Hne. rewrite tally_flush. destruct (Nat.eqb_spec (reason_index r) (reason_index r')); [|done].
  by apply reason_index_inj in e.
Qed.

Lemma tally_0_add t : tally_add (0, 0, 0) t = t.
Proof. by destruct t as [[a b] c]. Qed.

Lemma flush_windows_of now ws r :
  length ws = 3%nat ->
  let res := flush_windows now ws ALL in
  length (fst res) = 3%nat
  /\ window_of r (fst res) = fst (flush_one now (window_of r ws) r)
  /\ tally r (snd res) = tally r (snd (flush_one now (window_of r ws) r)).
Proof.
  destruct ws as [|w0 [|w1 [|w2 [|]]]]; try done. intros _. cbn [ALL flush_windows].
  pose proof (tally_flush_other now r RateLimited w0) as H0.
  pose proof (tally_flush_other now r AtCapacity w1) as H1.
  pose proof (tally_flush_other now r ValidatedRateLimited w2) as H2.
  destruct (flush_one now w0 RateLimited) as [v0 o0] eqn:E0, (flush_one now w1 AtCapacity) as [v1 o1] eqn:E1,
    (flush_one now w2 ValidatedRateLimited) as [v2 o2] eqn:E2.
  cbn [fst snd] in *. split; [done|]. rewrite app_nil_r, !tally_app.
  destruct r; unfold window_of; simpl; rewrite ?E0, ?E1, ?E2; (split; [done|]); simpl;
    rewrite ?H0, ?H1, ?H2 by done; by rewrite ?tally_0_add, ?tally_add_0.
Qed.

Lemma AuditOk_exec t0 x e x' : AuditOk t0 x -> gexec x e = Some x' -> AuditOk t0 x'.
Proof.
  intros [Hw Hb]. destruct e as [peer v now|now|]; simpl.
  - case_match eqn:Ec; [done|]. bools. pose proof (decide_spec peer v now (gate x)) as D.
    destruct (decide peer v now (gate x)) as [g d]. cbn [fst snd] in D. intros [= <-].
    destruct D as [_ _ _ _ _ Dw].
    assert (forall r, rejects r (mkAttempt peer v now d) =
      match verdict d with VReject r' => (reason_index r' =? reason_index r)%nat | _ => false end) as Hrej by done.
    constructor; cbn [gate clock decided out].
    + destruct (verdict d) as [|r'|]; [by destruct Dw as [-> _]| |by destruct Dw as [-> _]].
      unfold record_rejection in Dw. destruct (hit _ _). injection Dw as <- _. by rewrite length_insert.
    + intros r Hlen. rewrite len_app, len_cons in Hlen.
      rewrite (rejections_app r x _ (mkAttempt peer v now d)) by done. rewrite tally_app, Hrej.
      specialize (Hb r ltac:(lia)). pose proof (rejections_le r x).
      destruct (verdict d) as [|r'|]; [destruct Dw as [-> ->]| |destruct Dw as [-> ->]];
        [|by apply (rejection_booked t0 (clock x) now r r' peer _ _ _ _ (rejections r x) Hw Dw ltac:(lia) ltac:(lia))|];
        change (tally r []) with (0, 0, 0); rewrite tally_add_0, N.add_0_r; by eapply booked_later.
  - case_match eqn:Ec; [done|]. bools. unfold flush_expired.
    destruct (flush_windows now (windows (gate x)) ALL) as [ws rs] eqn:E. intros [= <-].
    constructor; cbn [gate clock decided out with_windows windows].
    + pose proof (flush_windows_of now _ RateLimited Hw) as Hf. rewrite E in Hf. apply Hf.
    + intros r Hlen. pose proof (flush_windows_of now _ r Hw) as Hf. rewrite E in Hf. cbn [fst snd] in Hf.
      destruct Hf as (_ & -> & Ht). rewrite tally_app, Ht. apply (flush_booked t0 (clock x)); [|lia].
      by apply Hb.
  - case_match; [|done]. intros [= <-]. by constructor.
Qed.

(** The audit trail of rejected connections is complete and bounded.  For
    each reason, every rejection is accounted for by a first line, by the
    count of a summary or by the count pending in the open window; and first
    lines are ten seconds apart, with no more summaries than first lines,
    however many attempts there were. *)
Theorem audit_complete t0 max rt vrt hs vhs es x r :
  gexec_all (boot t0 max rt vrt hs vhs) es = Some x ->
  len (decided x) <= U32_MAX ->
  rejections r x = total (accounts (category r)) (out x)
                   + suppressed (window_of r (windows (gate x)))
  /\ total (is_first (category r)) (out x) * AUDIT_AGGREGATION_WINDOW
     <= clock x - t0 + AUDIT_AGGREGATION_WINDOW
  /\ total (is_summary (category r)) (out x) <= total (is_first (category r)) (out x).
Proof.
  intros Hx Hlen. assert (AuditOk t0 x) as [_ Hb].
  { revert Hx. apply gexec_all_inv; [|intros *; apply AuditOk_exec].
    constructor; [done|]. intros r' _. destruct r'; apply booked_new. }
  specialize (Hb r Hlen). split; [apply (bk_total _ _ _ _ _ _ _ Hb)|by eapply booked_volume].
Qed.
End Rendered.

(** ** Examples *)

Definition demo_seeds : Seeds :=
  fun i k => match k with KV4 a => a + N.of_nat i | KV6 p => 7 * p + N.of_nat i end.
Definition demo_time (_ : N) : string := "2026-01-01T00:00:00Z".
Definition demo_show (_ : SocketAddr) : string := "192.0.2.7:4433".
Definition demo_peer (host : N) : SocketAddr := mkAddr (V4 (3221225984 + host)) 4433.
Definition demo_events : list GEvent :=
  [GAttempt (demo_peer 7) false 1000; GAttempt (demo_peer 7) false 2000;
   GAttempt (demo_peer 7) false 3000; GAttempt (demo_peer 7) false 4000;
   GAttempt (demo_peer 9) true 5000; GTick 11000000000].
Definition demo_boot : Run := boot 0 1 1 5 demo_seeds demo_seeds.
Definition demo_run : Run :=
  default demo_boot (gexec_all demo_time demo_show demo_boot demo_events).

Lemma demo_reached : gexec_all demo_time demo_show demo_boot demo_events = Some demo_run.
Proof. vm_compute. reflexivity. Qed.

Definition demo_flood : list GEvent := take 2 demo_events.
Definition demo_flooded : Run :=
  default demo_boot (gexec_all demo_time demo_show demo_boot demo_flood).

Lemma demo_flooded_reached : gexec_all demo_time demo_show demo_boot demo_flood = Some demo_flooded.
Proof. vm_compute. reflexivity. Qed.

Lemma demo_flooded_seen : seen false demo_flooded = [(key_of (demo_peer 7), 0); (key_of (demo_peer 7), 0)].
Proof. vm_compute. reflexivity. Qed.

Lemma demo_flooded_order : in_order false demo_flooded.
Proof. unfold in_order. rewrite demo_flooded_seen. by repeat constructor. Qed.

Lemma rate_limit_bites_witness :
  verdict (snd (decide demo_time demo_show (demo_peer 7) false 3000 (gate demo_flooded)))
  = VReject RateLimited.
Proof.
  apply (rate_limit_bites demo_time demo_show 0 1 1 5 demo_seeds demo_seeds demo_flood demo_flooded).
  - exact demo_flooded_reached.
  - exact demo_flooded_order.
  - rewrite demo_flooded_seen. by repeat constructor.
  - rewrite demo_flooded_seen. reflexivity.
  - rewrite demo_flooded_seen. vm_compute. discriminate.
Defined.

Lemma rate_limit_fair_witness :
  verdict (snd (decide demo_time demo_show (demo_peer 9) false 3000 (gate demo_flooded))) = VRetry.
Proof.
  apply (rate_limit_fair demo_time demo_show 0 1 1 5 demo_seeds demo_seeds demo_flood demo_flooded
           (demo_peer 9) false 3000 (demo_seeds 2%nat)).
  - exact demo_flooded_reached.
  - exact demo_flooded_order.
  - rewrite demo_flooded_seen. by repeat constructor.
  - rewrite demo_flooded_seen. reflexivity.
  - simpl. auto.
  - rewrite demo_flooded_seen. by repeat constructor.
  - right. vm_compute. reflexivity.
  - rewrite demo_flooded_seen. vm_compute. reflexivity.
Defined.

Lemma handshake_cap_witness : held demo_run <= 1 /\ held demo_run = 1.
Proof.
  split; [|vm_compute; reflexivity].
  exact (proj1 (handshake_cap demo_time demo_show 0 1 1 5 demo_seeds demo_seeds demo_events demo_run
                  demo_reached)).
Defined.

Lemma audit_complete_witness :
  rejections RateLimited demo_run = 2
  /\ rejections RateLimited demo_run =
     total (accounts (category RateLimited)) (out demo_run)
     + suppressed (window_of RateLimited (windows (gate demo_run))).
Proof.
  split; [vm_compute; reflexivity|].
  apply (audit_complete demo_time demo_show 0 1 1 5 demo_seeds demo_seeds demo_events demo_run).
  - exact demo_reached.
  - vm_compute. discriminate.
Defined.
End Admission.
