(* ===== verification/Quota.v ===== *)
(** * Resource quotas

    Models [crates/qsh-core/src/quota.rs] and its submodules: the limits
    resolved from the configuration ([crates/qsh-core/src/config.rs]), the
    reservations of every axis with the permits that release them, and the
    audit windows of rejections.  A run keeps the list of live permits; the
    abstract specification is stated on that list alone. *)

From stdpp Require Import pretty.
From S2P Require Import Prelude Counter Identity AuditLog.

Module Quota.
Import Audit Counter.

(** ** Kinds *)

Inductive QuotaKind :=
  | Sessions
  | SessionsPerPrincipal
  | ExecPerPrincipal
  | ExecHost
  | TunnelStreamsPerPrincipal
  | TunnelStreamsPerForward
  | RemoteForwardsPerPrincipal
  | ConnectionsPerPrincipal
  | Connections
  | PairingConnections
  | FilesPerPrincipal
  | FilesHost.

#[global] Instance QuotaKind_eq_dec : EqDecision QuotaKind.
Proof. solve_decision. Defined.

Definition MAX_CONCURRENT_PAIRING_CONNECTIONS : N := 8.
Definition MAX_AUDIT_WINDOW_PRINCIPALS : N := 64.

Definition ALL : list QuotaKind :=
  [Sessions; SessionsPerPrincipal; ExecPerPrincipal; ExecHost; TunnelStreamsPerPrincipal;
   TunnelStreamsPerForward; RemoteForwardsPerPrincipal; ConnectionsPerPrincipal; Connections;
   PairingConnections; FilesPerPrincipal; FilesHost].

(** [kind as usize] *)
Definition kind_index (k : QuotaKind) : nat :=
  match k with
  | Sessions => 0
  | SessionsPerPrincipal => 1
  | ExecPerPrincipal => 2
  | ExecHost => 3
  | TunnelStreamsPerPrincipal => 4
  | TunnelStreamsPerForward => 5
  | RemoteForwardsPerPrincipal => 6
  | ConnectionsPerPrincipal => 7
  | Connections => 8
  | PairingConnections => 9
  | FilesPerPrincipal => 10
  | FilesHost => 11
  end.

Definition category (k : QuotaKind) : string :=
  match k with
  | Sessions => "quota_sessions_host"
  | SessionsPerPrincipal => "quota_sessions_principal"
  | ExecPerPrincipal => "quota_exec_principal"
  | ExecHost => "quota_exec_host"
  | TunnelStreamsPerPrincipal => "quota_tunnels_principal"
  | TunnelStreamsPerForward => "quota_tunnels_forward"
  | RemoteForwardsPerPrincipal => "quota_remote_forwards_principal"
  | ConnectionsPerPrincipal => "quota_connections_principal"
  | Connections => "quota_connections_host"
  | PairingConnections => "quota_connections_pairing"
  | FilesPerPrincipal => "quota_files_principal"
  | FilesHost => "quota_files_host"
  end.

Definition kind_action (k : QuotaKind) : string :=
  match k with
  | Sessions | SessionsPerPrincipal => "session.open"
  | ExecPerPrincipal | ExecHost => "exec.run"
  | TunnelStreamsPerPrincipal | TunnelStreamsPerForward => "forward.local"
  | RemoteForwardsPerPrincipal => "forward.remote"
  | ConnectionsPerPrincipal | Connections | PairingConnections => "connect"
  | FilesPerPrincipal | FilesHost => "file.transfer"
  end.

Definition wire_message (k : QuotaKind) : string :=
  match k with
  | Sessions | SessionsPerPrincipal => "session quota exceeded"
  | ExecPerPrincipal | ExecHost => "exec quota exceeded"
  | TunnelStreamsPerPrincipal | TunnelStreamsPerForward => "tunnel quota exceeded"
  | RemoteForwardsPerPrincipal => "remote forward quota exceeded"
  | ConnectionsPerPrincipal | Connections | PairingConnections => "connection quota exceeded"
  | FilesPerPrincipal | FilesHost => "file transfer quota exceeded"
  end.

(** ** Limits *)

Record QuotaLimits := mkLimits {
  max_sessions : N;
  max_sessions_per_principal : N;
  max_exec_per_principal : N;
  max_exec : N;
  max_tunnel_streams_per_principal : N;
  max_tunnel_streams_per_forward : N;
  max_remote_forwards_per_principal : N;
  max_connections_per_principal : N;
  max_connections : N;
  max_file_transfers_per_principal : N;
  max_file_transfers : N;
}.

(** [QuotaLimits::default], with [ServeConfig]'s default constants. *)
Definition default_limits : QuotaLimits := mkLimits 256 32 32 256 256 64 16 32 512 4 64.

(** The quota fields of [ServeConfig]. *)
Record ServeConfig := mkServe {
  cfg_max_sessions : option N;
  cfg_max_sessions_per_principal : option N;
  cfg_max_exec_per_principal : option N;
  cfg_max_exec : option N;
  cfg_max_tunnel_streams_per_principal : option N;
  cfg_max_tunnel_streams_per_forward : option N;
  cfg_max_remote_forwards_per_principal : option N;
  cfg_max_connections_per_principal : option N;
  cfg_max_connections : option N;
  cfg_max_file_transfers_per_principal : option N;
  cfg_max_file_transfers : option N;
}.

(** [match self.field { Some(n) if n > 0 => n, _ => DEFAULT }] *)
Definition effective (field : option N) (dflt : N) : N :=
  match field with
  | Some n => if 0 <? n then n else dflt
  | None => dflt
  end.

Definition from_serve (c : ServeConfig) : QuotaLimits :=
  let d := default_limits in
  mkLimits
    (effective (cfg_max_sessions c) (max_sessions d))
    (effective (cfg_max_sessions_per_principal c) (max_sessions_per_principal d))
    (effective (cfg_max_exec_per_principal c) (max_exec_per_principal d))
    (effective (cfg_max_exec c) (max_exec d))
    (effective (cfg_max_tunnel_streams_per_principal c) (max_tunnel_streams_per_principal d))
    (effective (cfg_max_tunnel_streams_per_forward c) (max_tunnel_streams_per_forward d))
    (effective (cfg_max_remote_forwards_per_principal c) (max_remote_forwards_per_principal d))
    (effective (cfg_max_connections_per_principal c) (max_connections_per_principal d))
    (effective (cfg_max_connections c) (max_connections d))
    (effective (cfg_max_file_transfers_per_principal c) (max_file_transfers_per_principal d))
    (effective (cfg_max_file_transfers c) (max_file_transfers d)).

(** ** Reservations *)

Record QuotaState := mkState {
  exec_in_use : gmap string N;
  tunnel_streams_per_principal : gmap string N;
  tunnel_streams_per_forward : gmap (string * string) N;
  remote_forwards_per_principal : gmap string N;
  connections_per_principal : gmap string N;
  pairing_connections_in_use : N;
  files_in_use : gmap string N;
}.

(** [QuotaState::default] *)
Definition default_state : QuotaState := mkState ∅ ∅ ∅ ∅ ∅ 0 ∅.

Definition set_exec m s := mkState m (tunnel_streams_per_principal s) (tunnel_streams_per_forward s)
  (remote_forwards_per_principal s) (connections_per_principal s) (pairing_connections_in_use s) (files_in_use s).
Definition set_tunnels m m' s := mkState (exec_in_use s) m m'
  (remote_forwards_per_principal s) (connections_per_principal s) (pairing_connections_in_use s) (files_in_use s).
Definition set_remote m s := mkState (exec_in_use s) (tunnel_streams_per_principal s) (tunnel_streams_per_forward s)
  m (connections_per_principal s) (pairing_connections_in_use s) (files_in_use s).
Definition set_connections m s := mkState (exec_in_use s) (tunnel_streams_per_principal s) (tunnel_streams_per_forward s)
  (remote_forwards_per_principal s) m (pairing_connections_in_use s) (files_in_use s).
Definition set_pairing n s := mkState (exec_in_use s) (tunnel_streams_per_principal s) (tunnel_streams_per_forward s)
  (remote_forwards_per_principal s) (connections_per_principal s) n (files_in_use s).
Definition set_files m s := mkState (exec_in_use s) (tunnel_streams_per_principal s) (tunnel_streams_per_forward s)
  (remote_forwards_per_principal s) (connections_per_principal s) (pairing_connections_in_use s) m.

Section Reserve.
Variable limits : QuotaLimits.

Definition reserve_exec (p : string) (s : QuotaState) : result QuotaState QuotaKind :=
  if max_exec limits <=? sum (exec_in_use s) then Err ExecHost
  else if max_exec_per_principal limits <=? count_of p (exec_in_use s) then Err ExecPerPrincipal
  else Ok (set_exec (inc p (exec_in_use s)) s).

Definition reserve_tunnel_stream (p resource : string) (s : QuotaState) : result QuotaState QuotaKind :=
  if max_tunnel_streams_per_principal limits <=? count_of p (tunnel_streams_per_principal s)
  then Err TunnelStreamsPerPrincipal
  else if max_tunnel_streams_per_forward limits
            <=? count_of (p, resource) (tunnel_streams_per_forward s)
  then Err TunnelStreamsPerForward
  else Ok (set_tunnels (inc p (tunnel_streams_per_principal s))
             (inc (p, resource) (tunnel_streams_per_forward s)) s).

Definition reserve_remote_forward (p : string) (s : QuotaState) : result QuotaState QuotaKind :=
  if max_remote_forwards_per_principal limits <=? count_of p (remote_forwards_per_principal s)
  then Err RemoteForwardsPerPrincipal
  else Ok (set_remote (inc p (remote_forwards_per_principal s)) s).

Definition reserve_connection (p : string) (s : QuotaState) : result QuotaState QuotaKind :=
  if max_connections limits <=? sum (connections_per_principal s) then Err Connections
  else if max_connections_per_principal limits <=? count_of p (connections_per_principal s)
  then Err ConnectionsPerPrincipal
  else Ok (set_connections (inc p (connections_per_principal s)) s).

Definition reserve_pairing_connection (s : QuotaState) : result QuotaState QuotaKind :=
  if MAX_CONCURRENT_PAIRING_CONNECTIONS <=? pairing_connections_in_use s then Err PairingConnections
  else Ok (set_pairing (pairing_connections_in_use s + 1) s).

Definition reserve_file_transfer (p : string) (s : QuotaState) : result QuotaState QuotaKind :=
  if max_file_transfers limits <=? sum (files_in_use s) then Err FilesHost
  else if max_file_transfers_per_principal limits <=? count_of p (files_in_use s)
  then Err FilesPerPrincipal
  else Ok (set_files (inc p (files_in_use s)) s).

(** The permits, with what their [Drop] needs. *)
Inductive Permit :=
  | ExecPermit (p : string)
  | TunnelStreamPermit (p resource : string)
  | RemoteForwardPermit (p : string)
  | FilePermit (p : string)
  | ConnectionPermit (p : string)
  | PairingConnectionPermit.

Definition reserve (pm : Permit) (s : QuotaState) : result QuotaState QuotaKind :=
  match pm with
  | ExecPermit p => reserve_exec p s
  | TunnelStreamPermit p r => reserve_tunnel_stream p r s
  | RemoteForwardPermit p => reserve_remote_forward p s
  | FilePermit p => reserve_file_transfer p s
  | ConnectionPermit p => reserve_connection p s
  | PairingConnectionPermit => reserve_pairing_connection s
  end.

(** The [Drop]s. *)
Definition drop_exec (p : string) (s : QuotaState) : QuotaState := set_exec (dec p (exec_in_use s)) s.
Definition drop_tunnel (p r : string) (s : QuotaState) : QuotaState :=
  set_tunnels (dec p (tunnel_streams_per_principal s)) (dec (p, r) (tunnel_streams_per_forward s)) s.
Definition drop_remote (p : string) (s : QuotaState) : QuotaState :=
  set_remote (dec p (remote_forwards_per_principal s)) s.
Definition drop_file (p : string) (s : QuotaState) : QuotaState := set_files (dec p (files_in_use s)) s.
Definition drop_connection (p : string) (s : QuotaState) : QuotaState :=
  set_connections (dec p (connections_per_principal s)) s.
Definition drop_pairing (s : QuotaState) : QuotaState := set_pairing (pairing_connections_in_use s - 1) s.

Definition drop_permit (pm : Permit) (s : QuotaState) : QuotaState :=
  match pm with
  | ExecPermit p => drop_exec p s
  | TunnelStreamPermit p r => drop_tunnel p r s
  | RemoteForwardPermit p => drop_remote p s
  | FilePermit p => drop_file p s
  | ConnectionPermit p => drop_connection p s
  | PairingConnectionPermit => drop_pairing s
  end.
End Reserve.

(** ** Audit windows *)

Record CategoryWindows := mkCategory {
  per_principal : gmap string WindowState;
  overflow : WindowState;
}.

Definition default_category : CategoryWindows := mkCategory ∅ default_window.

Definition quota_rejected (t : string) (kind : QuotaKind) (p peer : string) (rid : option N)
    (auth : Identity.AuthPath) : AuditRecord :=
  mkRecord t (match rid with None => "-" | Some id => pretty id end) p (kind_action kind)
    (category kind) "deny" None (auth_path_str auth) peer None None None.

Definition quota_rejected_summary (t : string) (kind : QuotaKind) (p : string) (n : N) : AuditRecord :=
  mkRecord t "-" p (kind_action kind) (category kind) "deny" None "-" "-" (Some n) None None.

(** Which window a rejection of [p] goes to: the shared one or its own. *)
Definition is_overflow (p : string) (c : CategoryWindows) : bool :=
  if String.eqb p "-" then true
  else match per_principal c !! p with
       | Some _ => false
       | None => MAX_AUDIT_WINDOW_PRINCIPALS <=? N.of_nat (size (per_principal c))
       end.

Definition target (p : string) (c : CategoryWindows) : WindowState :=
  if is_overflow p c then overflow c else default default_window (per_principal c !! p).

Definition retarget (p : string) (w : WindowState) (c : CategoryWindows) : CategoryWindows :=
  if is_overflow p c then mkCategory (per_principal c) w
  else mkCategory (<[p := w]> (per_principal c)) (overflow c).

Definition summary_if (t : string) (kind : QuotaKind) (p : string) (n : N) : list AuditRecord :=
  if 0 <? n then [quota_rejected_summary t kind p n] else [].

(** The critical section and the records of [Quotas::record_rejection], on
    the windows of the category. *)
Definition reject_in (t : string) (kind : QuotaKind) (p peer : string) (now : N) (rid : option N)
    (auth : Identity.AuthPath) (c : CategoryWindows) : CategoryWindows * list AuditRecord :=
  let '(w, opened) := hit now (target p c) in
  (retarget p w c,
   match opened with
   | None => []
   | Some prior =>
       summary_if t kind (if is_overflow p c then "-"%string else p) prior
       ++ [quota_rejected t kind p peer rid auth]
   end).

(** The windows [flush_expired] closes, in the order the map yields them. *)
Definition closed (now : N) (m : gmap string WindowState) : list (string * WindowState) :=
  filter (fun kv => is_over now (snd kv) = true) (map_to_list m).

Definition still_open (now : N) (w : WindowState) : bool :=
  match start w with
  | None => false
  | Some _ => negb (is_over now w)
  end.

Definition flush_in (t : string) (kind : QuotaKind) (now : N) (c : CategoryWindows)
    : CategoryWindows * list AuditRecord :=
  (mkCategory (filter (fun kv => still_open now (snd kv) = true) (per_principal c))
     (if is_over now (overflow c) then default_window else overflow c),
   mjoin ((fun kv => summary_if t kind (fst kv) (suppressed (snd kv))) <$> closed now (per_principal c))
   ++ (if is_over now (overflow c) then summary_if t kind "-" (suppressed (overflow c)) else [])).

Fixpoint flush_categories (t : string) (now : N) (cs : list CategoryWindows) (kinds : list QuotaKind)
    : list CategoryWindows * list AuditRecord :=
  match cs, kinds with
  | c :: cs', k :: ks' =>
      let '(c', rs) := flush_in t k now c in
      let '(cs'', rs') := flush_categories t now cs' ks' in
      (c' :: cs'', rs ++ rs')
  | _, _ => (cs, [])
  end.

(** ** The quotas of a host *)

Record ConnectionCounters := mkConnCounters {
  connection_reserved : N;
  connection_refused : N;
  pairing_reserved : N;
  pairing_refused : N;
}.

Record Quotas := mkQuotas {
  limits : QuotaLimits;
  state : QuotaState;
  windows : list CategoryWindows;
  connection_counters : ConnectionCounters;
  rejections : list N;
}.

(** [Quotas::new] *)
Definition new (l : QuotaLimits) : Quotas :=
  mkQuotas l default_state (replicate (length ALL) default_category) (mkConnCounters 0 0 0 0)
    (replicate (length ALL) 0).

Definition wrap64 (n : N) : N := n mod 2 ^ 64.

(** The soak counters of the two connection axes. *)
Definition count_outcome (pm : Permit) (ok : bool) (c : ConnectionCounters) : ConnectionCounters :=
  match pm with
  | ConnectionPermit _ =>
      if ok then mkConnCounters (wrap64 (connection_reserved c + 1)) (connection_refused c)
                   (pairing_reserved c) (pairing_refused c)
      else mkConnCounters (connection_reserved c) (wrap64 (connection_refused c + 1))
             (pairing_reserved c) (pairing_refused c)
  | PairingConnectionPermit =>
      if ok then mkConnCounters (connection_reserved c) (connection_refused c)
                   (wrap64 (pairing_reserved c + 1)) (pairing_refused c)
      else mkConnCounters (connection_reserved c) (connection_refused c)
             (pairing_reserved c) (wrap64 (pairing_refused c + 1))
  | _ => c
  end.

Definition acquire (pm : Permit) (q : Quotas) : Quotas * result unit QuotaKind :=
  match reserve (limits q) pm (state q) with
  | Ok s => (mkQuotas (limits q) s (windows q) (count_outcome pm true (connection_counters q)) (rejections q), Ok tt)
  | Err k => (mkQuotas (limits q) (state q) (windows q) (count_outcome pm false (connection_counters q)) (rejections q), Err k)
  end.

Definition surrender (pm : Permit) (q : Quotas) : Quotas :=
  mkQuotas (limits q) (drop_permit pm (state q)) (windows q) (connection_counters q) (rejections q).

Section Rendered.
(** [now_rfc3339()]: only ever written out. *)
Variable rfc3339 : N -> string.

(** [Quotas::record_rejection] *)
Definition record_rejection (kind : QuotaKind) (p peer : string) (now : N) (rid : option N)
    (auth : Identity.AuthPath) (q : Quotas) : Quotas * list AuditRecord :=
  let i := kind_index kind in
  let '(c, rs) := reject_in (rfc3339 now) kind p peer now rid auth
                    (default default_category (windows q !! i)) in
  (mkQuotas (limits q) (state q) (<[i := c]> (windows q)) (connection_counters q)
     (alter (fun n => wrap64 (n + 1)) i (rejections q)), rs).

(** [Quotas::flush_expired] *)
Definition flush_expired (now : N) (q : Quotas) : Quotas * list AuditRecord :=
  let '(cs, rs) := flush_categories (rfc3339 now) now (windows q) ALL in
  (mkQuotas (limits q) (state q) cs (connection_counters q) (rejections q), rs).

(** [QuotaCounters::rejections_total] *)
Definition rejections_total (q : Quotas) : N := foldr N.add 0 (rejections q).

(** ** Runs *)

Record Run := mkRun {
  quotas : Quotas;
  permits : list Permit;
  rejected : list QuotaKind;
  out : list AuditRecord;
}.

Inductive QEvent :=
  | QReserve (pm : Permit)
  | QDrop (i : nat)
  | QReject (kind : QuotaKind) (p peer : string) (now : N) (rid : option N) (auth : Identity.AuthPath)
  | QFlush (now : N).

Definition qexec (x : Run) (e : QEvent) : option Run :=
  match e with
  | QReserve pm =>
      let '(q, res) := acquire pm (quotas x) in
      Some (mkRun q (if is_ok res then permits x ++ [pm] else permits x) (rejected x) (out x))
  | QDrop i =>
      match permits x !! i with
      | Some pm => Some (mkRun (surrender pm (quotas x)) (delete i (permits x)) (rejected x) (out x))
      | None => None
      end
  | QReject kind p peer now rid auth =>
      let '(q, rs) := record_rejection kind p peer now rid auth (quotas x) in
      Some (mkRun q (permits x) (rejected x ++ [kind]) (out x ++ rs))
  | QFlush now =>
      let '(q, rs) := flush_expired now (quotas x) in
      Some (mkRun q (permits x) (rejected x) (out x ++ rs))
  end.

Fixpoint qexec_all (x : Run) (es : list QEvent) : option Run :=
  match es with
  | [] => Some x
  | e :: es' => match qexec x e with Some x' => qexec_all x' es' | None => None end
  end.

Definition boot (l : QuotaLimits) : Run := mkRun (new l) [] [] [].

Lemma qexec_all_inv (P : Run -> Prop) x es x' :
  P x -> (forall y e y', P y -> qexec y e = Some y' -> P y') -> qexec_all x es = Some x' -> P x'.
Proof.
  intros Hx Hstep. revert x Hx. induction es as [|e es IH]; intros x Hx; simpl; [by intros [= <-]|].
  destruct (qexec x e) as [y|] eqn:E; [|done]. eauto.
Qed.

(** ** The specification: live permits *)

Definition exec_key (pm : Permit) : option string :=
  match pm with ExecPermit p => Some p | _ => None end.
Definition tunnel_key (pm : Permit) : option string :=
  match pm with TunnelStreamPermit p _ => Some p | _ => None end.
Definition forward_key (pm : Permit) : option (string * string) :=
  match pm with TunnelStreamPermit p r => Some (p, r) | _ => None end.
Definition remote_key (pm : Permit) : option string :=
  match pm with RemoteForwardPermit p => Some p | _ => None end.
Definition file_key (pm : Permit) : option string :=
  match pm with FilePermit p => Some p | _ => None end.
Definition connection_key (pm : Permit) : option string :=
  match pm with ConnectionPermit p => Some p | _ => None end.
Definition pairing_key (pm : Permit) : option unit :=
  match pm with PairingConnectionPermit => Some tt | _ => None end.

(** The live permits of one axis, by key. *)
Definition live {K} (f : Permit -> option K) (ps : list Permit) : list K := omap f ps.

(** Why a reservation must be refused, given the permits that are live: the
    broader axis is checked first. *)
Definition refusal (l : QuotaLimits) (ps : list Permit) (pm : Permit) : option QuotaKind :=
  match pm with
  | ExecPermit p =>
      if max_exec l <=? len (live exec_key ps) then Some ExecHost
      else if max_exec_per_principal l <=? occ p (live exec_key ps) then Some ExecPerPrincipal
      else None
  | TunnelStreamPermit p r =>
      if max_tunnel_streams_per_principal l <=? occ p (live tunnel_key ps)
      then Some TunnelStreamsPerPrincipal
      else if max_tunnel_streams_per_forward l <=? occ (p, r) (live forward_key ps)
      then Some TunnelStreamsPerForward
      else None
  | RemoteForwardPermit p =>
      if max_remote_forwards_per_principal l <=? occ p (live remote_key ps)
      then Some RemoteForwardsPerPrincipal else None
  | FilePermit p =>
      if max_file_transfers l <=? len (live file_key ps) then Some FilesHost
      else if max_file_transfers_per_principal l <=? occ p (live file_key ps) then Some FilesPerPrincipal
      else None
  | ConnectionPermit p =>
      if max_connections l <=? len (live connection_key ps) then Some Connections
      else if max_connections_per_principal l <=? occ p (live connection_key ps)
      then Some ConnectionsPerPrincipal
      else None
  | PairingConnectionPermit =>
      if MAX_CONCURRENT_PAIRING_CONNECTIONS <=? len (live pairing_key ps) then Some PairingConnections
      else None
  end.

(** The state counts exactly the live permits. *)
Record Exact (s : QuotaState) (ps : list Permit) : Prop := {
  ex_exec : counts (exec_in_use s) (live exec_key ps);
  ex_tunnel : counts (tunnel_streams_per_principal s) (live tunnel_key ps);
  ex_forward : counts (tunnel_streams_per_forward s) (live forward_key ps);
  ex_remote : counts (remote_forwards_per_principal s) (live remote_key ps);
  ex_file : counts (files_in_use s) (live file_key ps);
  ex_connection : counts (connections_per_principal s) (live connection_key ps);
  ex_pairing : pairing_connections_in_use s = len (live pairing_key ps);
}.

(** All caps hold of the live permits. *)
Record Capped (l : QuotaLimits) (ps : list Permit) : Prop := {
  cp_exec : len (live exec_key ps) <= max_exec l;
  cp_exec_p p : occ p (live exec_key ps) <= max_exec_per_principal l;
  cp_tunnel p : occ p (live tunnel_key ps) <= max_tunnel_streams_per_principal l;
  cp_forward p r : occ (p, r) (live forward_key ps) <= max_tunnel_streams_per_forward l;
  cp_remote p : occ p (live remote_key ps) <= max_remote_forwards_per_principal l;
  cp_file : len (live file_key ps) <= max_file_transfers l;
  cp_file_p p : occ p (live file_key ps) <= max_file_transfers_per_principal l;
  cp_connection : len (live connection_key ps) <= max_connections l;
  cp_connection_p p : occ p (live connection_key ps) <= max_connections_per_principal l;
  cp_pairing : len (live pairing_key ps) <= MAX_CONCURRENT_PAIRING_CONNECTIONS;
}.

Lemma delete_out {A} (l : list A) i : l !! i = None -> delete i l = l.
Proof.
  intros Hi%lookup_ge_None. rewrite delete_take_drop, take_ge, drop_ge by lia. apply app_nil_r.
Qed.

Section Axis.
Context {K : Type} `{Countable K} (f : Permit -> option K).

Lemma live_app ps pm :
  live f (ps ++ [pm]) = live f ps ++ match f pm with Some k => [k] | None => [] end.
Proof. unfold live. rewrite omap_app. simpl. by destruct (f pm). Qed.

Lemma live_delete ps i pm :
  ps !! i = Some pm ->
  match f pm with
  | None => live f (delete i ps) = live f ps
  | Some k => exists j, live f ps !! j = Some k /\ live f (delete i ps) = delete j (live f ps)
  end.
Proof.
  intros (l1 & l2 & -> & ->)%list_elem_of_split_length. unfold live.
  rewrite delete_middle, !omap_app. simpl. destruct (f pm) as [k|] eqn:E; simpl; [|done].
  exists (length (omap f l1)). rewrite list_lookup_middle by done. split; [done|].
  by rewrite delete_middle.
Qed.

Lemma counts_add m ps pm :
  counts m (live f ps) ->
  counts (match f pm with Some k => inc k m | None => m end) (live f (ps ++ [pm])).
Proof.
  intros Hm. rewrite live_app. destruct (f pm); [by apply counts_inc|by rewrite app_nil_r].
Qed.

Lemma counts_remove m ps i pm :
  counts m (live f ps) -> ps !! i = Some pm ->
  counts (match f pm with Some k => dec k m | None => m end) (live f (delete i ps)).
Proof.
  intros Hm Hi. pose proof (live_delete ps i pm Hi) as Hd. destruct (f pm) as [k|].
  - destruct Hd as (j & Hj & ->). by apply counts_dec.
  - by rewrite Hd.
Qed.

Lemma occ_remove ps i k : occ k (live f (delete i ps)) <= occ k (live f ps).
Proof.
  destruct (ps !! i) as [pm|] eqn:Hi; [|by rewrite delete_out].
  pose proof (live_delete ps i pm Hi) as Hd. destruct (f pm) as [k'|]; [|by rewrite Hd].
  destruct Hd as (j & Hj & ->). rewrite (occ_delete k _ j k' Hj). lia.
Qed.

Lemma len_remove ps i : len (live f (delete i ps)) <= len (live f ps).
Proof.
  destruct (ps !! i) as [pm|] eqn:Hi; [|by rewrite delete_out].
  pose proof (live_delete ps i pm Hi) as Hd. destruct (f pm) as [k'|]; [|by rewrite Hd].
  destruct Hd as (j & Hj & ->). unfold len. rewrite length_delete by eauto. lia.
Qed.
End Axis.

Lemma exact_reserve l s ps pm s' :
  Exact s ps -> reserve l pm s = Ok s' -> Exact s' (ps ++ [pm]).
Proof.
  intros [He Ht Hf Hr Hfi Hc Hp].
  pose proof (counts_add _ _ ps pm He). pose proof (counts_add _ _ ps pm Ht).
  pose proof (counts_add _ _ ps pm Hf). pose proof (counts_add _ _ ps pm Hr).
  pose proof (counts_add _ _ ps pm Hfi). pose proof (counts_add _ _ ps pm Hc).
  assert (len (live pairing_key (ps ++ [pm])) =
          len (live pairing_key ps) + one (match pm with PairingConnectionPermit => true | _ => false end)).
  { rewrite live_app, len_app. by destruct pm. }
  destruct pm; simpl in *; unfold reserve_exec, reserve_tunnel_stream, reserve_remote_forward,
    reserve_file_transfer, reserve_connection, reserve_pairing_connection;
    repeat (case_match; [done|]); intros [= <-]; constructor; try done; simpl in *; lia.
Qed.

Lemma exact_drop s ps i pm :
  Exact s ps -> ps !! i = Some pm -> Exact (drop_permit pm s) (delete i ps).
Proof.
  intros [He Ht Hf Hr Hfi Hc Hp] Hi.
  pose proof (counts_remove _ _ ps i pm He Hi). pose proof (counts_remove _ _ ps i pm Ht Hi).
  pose proof (counts_remove _ _ ps i pm Hf Hi). pose proof (counts_remove _ _ ps i pm Hr Hi).
  pose proof (counts_remove _ _ ps i pm Hfi Hi). pose proof (counts_remove _ _ ps i pm Hc Hi).
  assert (len (live pairing_key (delete i ps)) =
          len (live pairing_key ps) - one (match pm with PairingConnectionPermit => true | _ => false end)).
  { pose proof (live_delete pairing_key ps i pm Hi) as Hd. destruct pm; simpl in *; rewrite ?Hd; try lia.
    destruct Hd as (j & Hj & ->). unfold len. rewrite length_delete by eauto. lia. }
  destruct pm; constructor; try done; simpl in *; lia.
Qed.

(** The reservation decides what the specification says. *)
Lemma reserve_refines l s ps pm :
  Exact s ps ->
  match reserve l pm s with
  | Ok _ => refusal l ps pm = None
  | Err k => refusal l ps pm = Some k
  end.
Proof.
  intros [He Ht Hf Hr Hfi Hc Hp].
  destruct pm; simpl; unfold reserve_exec, reserve_tunnel_stream, reserve_remote_forward,
    reserve_file_transfer, reserve_connection, reserve_pairing_connection;
    rewrite ?(counts_sum _ _ He), ?(counts_sum _ _ Hfi), ?(counts_sum _ _ Hc),
      ?(counts_of _ _ _ He), ?(counts_of _ _ _ Ht), ?(counts_of _ _ _ Hf), ?(counts_of _ _ _ Hr),
      ?(counts_of _ _ _ Hfi), ?(counts_of _ _ _ Hc), ?Hp;
    repeat match goal with |- context [?a <=? ?b] => destruct (a <=? b); [done|] end; done.
Qed.

Lemma capped_drop l ps i : Capped l ps -> Capped l (delete i ps).
Proof.
  intros []. constructor; intros;
    first [etrans; [apply len_remove|done] | etrans; [apply occ_remove|done]].
Qed.

Lemma occ_grow {K} `{Countable K} (f : Permit -> option K) ps pm k :
  occ k (live f (ps ++ [pm])) = occ k (live f ps) + one (bool_decide (f pm = Some k)).
Proof.
  rewrite live_app, occ_app. destruct (f pm) as [k'|]; simpl; [|done].
  rewrite N.add_0_r. do 2 f_equal. apply bool_decide_ext. naive_solver.
Qed.

Lemma len_grow {K} (f : Permit -> option K) ps pm :
  len (live f (ps ++ [pm])) = len (live f ps) + one (match f pm with Some _ => true | None => false end).
Proof. unfold live. rewrite omap_app, len_app. simpl. by destruct (f pm). Qed.

Lemma capped_reserve l ps pm : Capped l ps -> refusal l ps pm = None -> Capped l (ps ++ [pm]).
Proof.
  intros [] Href. destruct pm; simpl in Href; repeat (case_match; [done|]); bools;
    constructor; intros; rewrite ?occ_grow, ?len_grow; simpl; rewrite ?N.add_0_r; try done;
    try (case_bool_decide; simplify_eq; simpl; rewrite ?N.add_0_r; auto); lia.
Qed.

Record PermitsOk (l : QuotaLimits) (x : Run) : Prop := {
  po_limits : limits (quotas x) = l;
  po_exact : Exact (state (quotas x)) (permits x);
  po_capped : Capped l (permits x);
}.

Lemma PermitsOk_exec l x e x' : PermitsOk l x -> qexec x e = Some x' -> PermitsOk l x'.
Proof.
  intros [Hl He Hc]. destruct e as [pm|i|kind p peer now rid auth|now]; simpl.
  - unfold acquire. rewrite Hl. pose proof (reserve_refines l _ _ pm He) as Hr.
    destruct (reserve l pm (state (quotas x))) as [s|k] eqn:E; intros [= <-]; constructor; simpl; try done.
    + by eapply exact_reserve.
    + by apply capped_reserve.
  - destruct (permits x !! i) as [pm|] eqn:Hi; [|done]. intros [= <-].
    constructor; simpl; [done|by apply exact_drop|by apply capped_drop].
  - unfold record_rejection. destruct (reject_in _ _ _ _ _ _ _ _) as [c rs]. intros [= <-]. by constructor.
  - unfold flush_expired. destruct (flush_categories _ _ _ _) as [c rs]. intros [= <-]. by constructor.
Qed.

Lemma PermitsOk_reach l es x : qexec_all (boot l) es = Some x -> PermitsOk l x.
Proof.
  apply qexec_all_inv; [|intros *; apply PermitsOk_exec]. constructor; [done|..].
  - constructor; try apply counts_nil. done.
  - constructor; intros; apply N.le_0_l.
Qed.

(** C17: The quotas implement their specification on live permits.  After any
    interleaving of reservations, drops, rejections and flushes, every map
    counts exactly the live permits with no entry for a key without one, the
    live permits are within every limit, and a reservation is refused exactly
    when, and for the axis which, the live permits have used up, with the
    broader axis reported first. *)
Theorem quota_refines l es x pm :
  qexec_all (boot l) es = Some x ->
  Exact (state (quotas x)) (permits x)
  /\ Capped l (permits x)
  /\ snd (acquire pm (quotas x)) =
     match refusal l (permits x) pm with None => Ok tt | Some k => Err k end.
Proof.
  intros [Hl He Hc]%PermitsOk_reach. do 2 (split; [done|]). unfold acquire. rewrite Hl.
  pose proof (reserve_refines l _ _ pm He) as Hr.
  by destruct (reserve l pm (state (quotas x))); rewrite Hr.
Qed.

(** ** The audit of rejections *)

(** Rejections counted in windows but not yet recorded. *)
Definition lsum (l : list (string * WindowState)) : N :=
  foldr (fun kv acc => suppressed (snd kv) + acc) 0 l.
Definition wsum (m : gmap string WindowState) : N := lsum (map_to_list m).
Definition pending (c : CategoryWindows) : N := suppressed (overflow c) + wsum (per_principal c).

Lemma lsum_perm l1 l2 : l1 ≡ₚ l2 -> lsum l1 = lsum l2.
Proof. induction 1; simpl; lia. Qed.

Lemma wsum_fresh m p w : m !! p = None -> wsum (<[p := w]> m) = suppressed w + wsum m.
Proof. intros Hp. unfold wsum. by rewrite (lsum_perm _ _ (map_to_list_insert m p w Hp)). Qed.

Lemma wsum_insert m p w :
  wsum (<[p := w]> m) + suppressed (default default_window (m !! p)) = suppressed w + wsum m.
Proof.
  destruct (m !! p) as [w0|] eqn:E; simpl.
  - rewrite <- insert_delete_eq, wsum_fresh by apply lookup_delete_eq. unfold wsum at 2.
    rewrite <- (lsum_perm _ _ (map_to_list_delete m p w0 E)). simpl. fold (wsum (delete p m)). lia.
  - rewrite wsum_fresh by done. lia.
Qed.

Lemma wsum_ge m p w : m !! p = Some w -> suppressed w <= wsum m.
Proof. intros E. unfold wsum. rewrite <- (lsum_perm _ _ (map_to_list_delete m p w E)). simpl. lia. Qed.

(** A window that is not open has nothing pending. *)
Definition tidy (w : WindowState) : Prop := start w = None -> suppressed w = 0.

Record CategoryOk (c : CategoryWindows) : Prop := {
  co_size : N.of_nat (size (per_principal c)) <= MAX_AUDIT_WINDOW_PRINCIPALS;
  co_name : per_principal c !! "-"%string = None;
  co_tidy : tidy (overflow c) /\ forall p w, per_principal c !! p = Some w -> tidy w;
}.

Lemma target_le p c : suppressed (target p c) <= pending c.
Proof.
  unfold target, pending. destruct (is_overflow p c); [lia|].
  destruct (per_principal c !! p) as [w|] eqn:E; simpl; [|lia]. pose proof (wsum_ge _ _ _ E). lia.
Qed.

Lemma pending_retarget p w c :
  pending (retarget p w c) + suppressed (target p c) = pending c + suppressed w.
Proof.
  unfold pending, retarget, target. destruct (is_overflow p c); simpl; [lia|].
  pose proof (wsum_insert (per_principal c) p w). lia.
Qed.

Lemma retarget_ok p w c : CategoryOk c -> tidy w -> CategoryOk (retarget p w c).
Proof.
  intros [Hs Hn [Ho Ht]] Hw. unfold retarget, is_overflow.
  destruct (String.eqb_spec p "-") as [->|Hp]; [by constructor|].
  destruct (per_principal c !! p) as [w0|] eqn:E; [|case_match; bools; [by constructor|]];
    (constructor; simpl; [|by rewrite lookup_insert_ne|]).
  - by rewrite map_size_insert_Some by eauto.
  - split; [done|]. intros q w' [[<- <-]|[_ Hq]]%lookup_insert_Some; eauto.
  - rewrite map_size_insert_None by done. lia.
  - split; [done|]. intros q w' [[<- <-]|[_ Hq]]%lookup_insert_Some; eauto.
Qed.

Lemma category_inj k k' : category k = category k' -> k = k'.
Proof. by destruct k, k'. Qed.

(** What the records of one kind account for. *)
Lemma accounts_summary t k k' p n :
  total (accounts (category k)) (summary_if t k' p n) = if bool_decide (k = k') then n else 0.
Proof.
  unfold summary_if. destruct (N.ltb_spec 0 n); simpl; [|case_bool_decide; lia].
  unfold accounts. simpl. destruct (String.eqb_spec (category k') (category k)) as [E|E].
  - apply category_inj in E as ->. rewrite bool_decide_true by done. lia.
  - rewrite bool_decide_false by congruence. done.
Qed.

Lemma accounts_first t k k' p peer rid auth :
  accounts (category k) (quota_rejected t k' p peer rid auth) = one (bool_decide (k = k')).
Proof.
  unfold accounts. simpl. destruct (String.eqb_spec (category k') (category k)) as [E|E].
  - apply category_inj in E as ->. by rewrite bool_decide_true.
  - by rewrite bool_decide_false by congruence.
Qed.

Lemma reject_in_spec t k kind p peer now rid auth c c' rs :
  CategoryOk c -> pending c < U32_MAX -> reject_in t kind p peer now rid auth c = (c', rs) ->
  CategoryOk c'
  /\ total (accounts (category k)) rs =
     (if bool_decide (k = kind) then pending c + 1 - pending c' else 0)
  /\ pending c' <= pending c + 1.
Proof.
  intros Hok Hp. unfold reject_in, hit. pose proof (target_le p c).
  destruct (window_is_fresh now (target p c)) eqn:Ef; intros [= <- <-].
  - pose proof (pending_retarget p (mkWindow (Some now) 0) c) as Hr. simpl in Hr.
    split; [by apply retarget_ok|]. rewrite total_app, accounts_summary, total_one, accounts_first.
    case_bool_decide; simpl; lia.
  - pose proof (pending_retarget p (mkWindow (start (target p c))
      (sat_add32 (suppressed (target p c)) 1)) c) as Hr.
    cbn [suppressed] in Hr. unfold sat_add32 in *. split; [apply retarget_ok; [done|]|].
    + intros Hs. simpl in Hs. unfold window_is_fresh in Ef. by rewrite Hs in Ef.
    + simpl. case_bool_decide; lia.
Qed.

Lemma lsum_filter_cons (P : string * WindowState -> bool) kv l :
  lsum (filter (fun kv => P kv = true) (kv :: l)) =
  (if P kv then suppressed (snd kv) else 0) + lsum (filter (fun kv => P kv = true) l).
Proof.
  destruct (P kv) eqn:E; [by rewrite filter_cons_True|by rewrite filter_cons_False by congruence].
Qed.

Lemma wsum_filter (P : string * WindowState -> bool) m :
  wsum (filter (fun kv => P kv = true) m) = lsum (filter (fun kv => P kv = true) (map_to_list m)).
Proof.
  unfold wsum. apply lsum_perm. rewrite map_filter_alt. apply map_to_list_to_map.
  apply NoDup_fmap_fst; [|apply NoDup_filter, NoDup_map_to_list].
  intros p w w' [_ H1]%list_elem_of_filter [_ H2]%list_elem_of_filter.
  apply elem_of_map_to_list in H1, H2. congruence.
Qed.

(** What a flush drops without closing had nothing pending. *)
Lemma wsum_flush now m :
  (forall p w, m !! p = Some w -> tidy w) ->
  wsum m = wsum (filter (fun kv => still_open now (snd kv) = true) m) + lsum (closed now m).
Proof.
  intros Ht. rewrite (wsum_filter (fun kv => still_open now (snd kv))). unfold wsum, closed.
  assert (forall kv, kv ∈ map_to_list m -> tidy (snd kv)) as Hl.
  { intros [p w] Hin%elem_of_map_to_list. by eapply Ht. }
  revert Hl. generalize (map_to_list m). clear. induction l as [|[p w] l IH]; intros Hl; [done|].
  pose proof (Hl (p, w) ltac:(apply list_elem_of_here)) as Hw.
  specialize (IH ltac:(intros; apply Hl; by apply list_elem_of_further)).
  rewrite (lsum_filter_cons (fun kv => still_open now (snd kv))),
    (lsum_filter_cons (fun kv => is_over now (snd kv))).
  cbn [lsum foldr snd]. fold (lsum l). rewrite IH. unfold tidy in Hw. cbn [snd] in Hw.
  assert (suppressed w = (if still_open now w then suppressed w else 0)
                         + (if is_over now w then suppressed w else 0)); [|lia].
  unfold still_open, is_over. destruct (start w) as [s|]; [|rewrite Hw by done; lia].
  destruct (AUDIT_AGGREGATION_WINDOW <=? now - s); simpl; lia.
Qed.

Lemma accounts_closed t k kind l :
  total (accounts (category k)) (mjoin ((fun kv => summary_if t kind (fst kv) (suppressed (snd kv))) <$> l))
  = if bool_decide (k = kind) then lsum l else 0.
Proof.
  induction l as [|kv l IH]; [by case_bool_decide|].
  rewrite fmap_cons, mjoin_cons. rewrite total_app, accounts_summary, IH.
  case_bool_decide; simpl; lia.
Qed.

Lemma length_closed t kind (l : list (string * WindowState)) :
  (length (mjoin ((fun kv => summary_if t kind (fst kv) (suppressed (snd kv))) <$> l)) <= length l)%nat.
Proof.
  induction l as [|kv l IH]; [done|]. rewrite fmap_cons, mjoin_cons.
  rewrite length_app. unfold summary_if at 1. case_match; simpl; lia.
Qed.

Lemma flush_in_spec t k kind now c :
  CategoryOk c ->
  let '(c', rs) := flush_in t kind now c in
  CategoryOk c'
  /\ total (accounts (category k)) rs + (if bool_decide (k = kind) then pending c' else 0)
     = (if bool_decide (k = kind) then pending c else 0)
  /\ pending c' <= pending c
  /\ len rs <= MAX_AUDIT_WINDOW_PRINCIPALS + 1.
Proof.
  intros [Hs Hn [Ho Ht]]. unfold flush_in. pose proof (wsum_flush now _ Ht) as Hw.
  set (m' := filter _ (per_principal c)) in *.
  assert (forall p w, m' !! p = Some w -> per_principal c !! p = Some w) as Hsub.
  { intros p w Hp. by apply map_lookup_filter_Some in Hp as [? _]. }
  split; [constructor; simpl|split; [|split]].
  - etrans; [|exact Hs]. assert (size m' <= size (per_principal c))%nat; [|lia].
    apply map_subseteq_size, map_filter_subseteq.
  - apply map_lookup_filter_None. by left.
  - split; [by case_match|eauto].
  - rewrite total_app, accounts_closed. unfold pending. cbn [overflow per_principal].
    destruct (is_over now (overflow c)); [rewrite accounts_summary|]; case_bool_decide; simpl; lia.
  - unfold pending. cbn [overflow per_principal]. destruct (is_over now (overflow c)); simpl; lia.
  - unfold len. rewrite length_app. pose proof (length_closed t kind (closed now (per_principal c))).
    assert (length (closed now (per_principal c)) <= size (per_principal c))%nat.
    { rewrite <- length_map_to_list. apply length_filter. }
    assert (length (if is_over now (overflow c) then summary_if t kind "-" (suppressed (overflow c)) else []) <= 1)%nat.
    { unfold summary_if. repeat case_match; simpl; lia. }
    unfold MAX_AUDIT_WINDOW_PRINCIPALS in *. lia.
Qed.

Lemma flush_categories_spec t now ks cs :
  NoDup ks -> length cs = length ks -> Forall CategoryOk cs ->
  let '(cs', rs) := flush_categories t now cs ks in
  length cs' = length cs
  /\ Forall CategoryOk cs'
  /\ len rs <= len ks * (MAX_AUDIT_WINDOW_PRINCIPALS + 1)
  /\ (forall k, k ∉ ks -> total (accounts (category k)) rs = 0)
  /\ (forall i k c c', ks !! i = Some k -> cs !! i = Some c -> cs' !! i = Some c' ->
        total (accounts (category k)) rs + pending c' = pending c).
Proof.
  intros Hnd Hlen Hok. revert ks Hnd Hlen. induction Hok as [|c cs Hc Hcs IH]; intros [|k ks] Hnd Hlen;
    try discriminate Hlen.
  { repeat split; try done; constructor. }
  apply NoDup_cons in Hnd as [Hk Hnd]. cbn [flush_categories]. specialize (IH ks Hnd ltac:(simpl in Hlen; lia)).
  pose proof (fun k' => flush_in_spec t k' k now c Hc) as Hf.
  destruct (flush_in t k now c) as [c1 rs1], (flush_categories t now cs ks) as [cs' rs2].
  destruct IH as (Hl & Hok' & Hn & Hout & Hin). destruct (Hf k) as (Hc1 & _ & _ & Hlen1).
  split; [simpl; lia|]. split; [by constructor|]. split; [rewrite len_app, len_cons; lia|]. split.
  - intros k' [Hne Hk']%not_elem_of_cons. rewrite total_app, (Hout k' Hk').
    destruct (Hf k') as (_ & Ht & _). rewrite bool_decide_false in Ht by done. lia.
  - intros [|i] k' d d'; simpl.
    + intros [= <-] [= <-] [= <-]. rewrite total_app, (Hout k Hk).
      destruct (Hf k) as (_ & Ht & _). rewrite bool_decide_true in Ht by done. lia.
    + intros Hi Hd Hd'. rewrite total_app. destruct (Hf k') as (_ & Ht & _).
      rewrite bool_decide_false in Ht by (intros ->; by apply Hk, list_elem_of_lookup_2 with i).
      specialize (Hin i k' d d' Hi Hd Hd'). lia.
Qed.

Lemma all_index k : ALL !! kind_index k = Some k.
Proof. by destruct k. Qed.

Lemma kind_index_inj k k' : kind_index k = kind_index k' -> k = k'.
Proof. intros E. pose proof (all_index k) as H. rewrite E, all_index in H. by simplify_eq. Qed.

Lemma NoDup_all : NoDup ALL.
Proof. apply (proj1 (bool_decide_eq_true (NoDup ALL))). vm_compute. reflexivity. Qed.

Lemma occ_le (k : QuotaKind) l : occ k l <= len l.
Proof. induction l as [|x l IH]; [done|]. rewrite len_cons. simpl. case_bool_decide; simpl; lia. Qed.

Record AuditOk (x : Run) : Prop := {
  ao_length : length (windows (quotas x)) = length ALL;
  ao_category : Forall CategoryOk (windows (quotas x));
  ao_accounts k c : windows (quotas x) !! kind_index k = Some c -> len (rejected x) <= U32_MAX ->
    occ k (rejected x) = total (accounts (category k)) (out x) + pending c;
  ao_counter k : rejections (quotas x) !! kind_index k = Some (wrap64 (occ k (rejected x)));
}.

Lemma wrap64_succ n : wrap64 (wrap64 n + 1) = wrap64 (n + 1).
Proof. unfold wrap64. by rewrite N.Div0.add_mod_idemp_l. Qed.

Lemma AuditOk_reject x kind p peer now rid auth x' :
  AuditOk x -> qexec x (QReject kind p peer now rid auth) = Some x' -> len (rejected x') <= U32_MAX ->
  AuditOk x'.
Proof.
  intros [Hl Hc Ha Hr]. cbn [qexec]. unfold record_rejection.
  destruct (lookup_lt_is_Some_2 (windows (quotas x)) (kind_index kind)) as [c Ec].
  { rewrite Hl. destruct kind; simpl; lia. }
  rewrite Ec. cbn [default from_option id].
  destruct (reject_in _ kind p peer now rid auth c) as [c' rs] eqn:E. intros [= <-].
  cbn [rejected]. rewrite len_app, len_cons. intros Hn.
  pose proof (Ha kind c Ec ltac:(lia)) as Hk. pose proof (occ_le kind (rejected x)).
  rewrite Forall_lookup in Hc. pose proof (fun k => reject_in_spec _ k _ _ _ _ _ _ _ _ _ (Hc _ _ Ec) ltac:(lia) E) as Hs.
  constructor; cbn [quotas windows rejections rejected out].
  - by rewrite length_insert.
  - apply Forall_insert; [by apply Forall_lookup|apply (Hs kind)].
  - intros k c0 Hi _. rewrite occ_app, total_app. cbn [occ]. rewrite N.add_0_r.
    destruct (Hs k) as (_ & -> & Hle). destruct (decide (kind = k)) as [->|Hne].
    + rewrite list_lookup_insert_eq in Hi by (by eapply lookup_lt_Some). injection Hi as <-.
      rewrite !bool_decide_true by done. simpl. lia.
    + rewrite list_lookup_insert_ne in Hi by (by intros ?%kind_index_inj).
      rewrite !bool_decide_false by congruence. simpl. specialize (Ha k c0 Hi ltac:(lia)). lia.
  - intros k. rewrite occ_app. cbn [occ]. rewrite N.add_0_r. destruct (decide (kind = k)) as [->|Hne].
    + rewrite list_lookup_alter_eq, Hr. simpl. by rewrite wrap64_succ, one_eq.
    + rewrite list_lookup_alter_ne by (by intros ?%kind_index_inj). rewrite Hr, one_ne by done.
      by rewrite N.add_0_r.
Qed.

Lemma AuditOk_flush x now x' : AuditOk x -> qexec x (QFlush now) = Some x' -> AuditOk x'.
Proof.
  intros [Hl Hc Ha Hr]. cbn [qexec]. unfold flush_expired.
  pose proof (flush_categories_spec (rfc3339 now) now ALL (windows (quotas x)) NoDup_all Hl Hc) as Hf.
  destruct (flush_categories _ now (windows (quotas x)) ALL) as [cs rs]. intros [= <-].
  destruct Hf as (Hlen & Hok & _ & _ & Hin).
  constructor; cbn [quotas windows rejections rejected out]; [congruence|done| |done].
  intros k c' Hi Hn. destruct (lookup_lt_is_Some_2 (windows (quotas x)) (kind_index k)) as [c Ec].
  { rewrite <- Hlen. by eapply lookup_lt_Some. }
  rewrite total_app. specialize (Hin _ _ _ _ (all_index k) Ec Hi). specialize (Ha k c Ec Hn). lia.
Qed.

Lemma rejected_grows x e x' : qexec x e = Some x' -> len (rejected x) <= len (rejected x').
Proof.
  destruct e as [pm|i|kind p peer now rid auth|now]; simpl.
  - destruct (acquire pm (quotas x)). by intros [= <-].
  - destruct (permits x !! i); [|done]. by intros [= <-].
  - destruct (record_rejection _ _ _ _ _ _ _). intros [= <-]. simpl. rewrite len_app. lia.
  - destruct (flush_expired _ _). by intros [= <-].
Qed.

Lemma AuditOk_step x e x' :
  (len (rejected x) <= U32_MAX -> AuditOk x) -> qexec x e = Some x' ->
  len (rejected x') <= U32_MAX -> AuditOk x'.
Proof.
  intros Hx He Hn. pose proof (rejected_grows x e x' He). specialize (Hx ltac:(lia)).
  destruct e as [pm|i|kind p peer now rid auth|now].
  - simpl in He. destruct (acquire pm (quotas x)) as [q res] eqn:E. injection He as <-.
    destruct Hx. unfold acquire in E. destruct (reserve _ _ _); injection E as <- <-; by constructor.
  - simpl in He. destruct (permits x !! i); [|done]. injection He as <-. destruct Hx. by constructor.
  - by eapply AuditOk_reject.
  - by eapply AuditOk_flush.
Qed.

Lemma AuditOk_reach l es x :
  qexec_all (boot l) es = Some x -> len (rejected x) <= U32_MAX -> AuditOk x.
Proof.
  apply (qexec_all_inv (fun x => len (rejected x) <= U32_MAX -> AuditOk x)); [|intros *; apply AuditOk_step].
  intros _. constructor; simpl; [done| |..].
  - repeat constructor; simpl; by try rewrite lookup_empty.
  - intros k c Hi _. destruct k; simpl in Hi; injection Hi as <-; done.
  - intros k. by destruct k.
Qed.

(** The audit trail of quota rejections is complete: for each kind, every
    rejection is accounted for by a line of its own, by the count of a summary
    or by a count still pending in an open window, and the exported counter of
    the kind is the number of rejections. *)
Theorem quota_audit_complete l es x k :
  qexec_all (boot l) es = Some x -> len (rejected x) <= U32_MAX ->
  exists c, windows (quotas x) !! kind_index k = Some c
  /\ occ k (rejected x) = total (accounts (category k)) (out x) + pending c
  /\ rejections (quotas x) !! kind_index k = Some (wrap64 (occ k (rejected x))).
Proof.
  intros Hx Hn. destruct (AuditOk_reach l es x Hx Hn) as [Hl Hc Ha Hr].
  destruct (lookup_lt_is_Some_2 (windows (quotas x)) (kind_index k)) as [c Ec].
  { rewrite Hl. destruct k; simpl; lia. }
  exists c. eauto.
Qed.

(** The memory and the burst of the audit windows are bounded: no category
    keeps more than [MAX_AUDIT_WINDOW_PRINCIPALS] windows, none of them under
    the reserved name, and one flush writes at most 780 records. *)
Theorem audit_windows_bounded l es x now :
  qexec_all (boot l) es = Some x -> len (rejected x) <= U32_MAX ->
  Forall (fun c => N.of_nat (size (per_principal c)) <= MAX_AUDIT_WINDOW_PRINCIPALS
                   /\ per_principal c !! "-"%string = None) (windows (quotas x))
  /\ len (snd (flush_expired now (quotas x))) <= 780.
Proof.
  intros Hx Hn. destruct (AuditOk_reach l es x Hx Hn) as [Hl Hc Ha Hr]. split.
  - eapply Forall_impl; [exact Hc|]. by intros c [].
  - unfold flush_expired.
    pose proof (flush_categories_spec (rfc3339 now) now ALL (windows (quotas x)) NoDup_all Hl Hc) as Hf.
    destruct (flush_categories _ now (windows (quotas x)) ALL) as [cs rs]. by destruct Hf as (_ & _ & ? & _).
Qed.
End Rendered.

(** ** Examples *)

Definition demo_time (_ : N) : string := "2026-01-01T00:00:00Z".
Definition demo_reject (k : QuotaKind) (i now : N) : QEvent :=
  QReject k ("device:" +:+ pretty i) "192.0.2.7:4433" now (Some i) Identity.Pin.

(** Two rejections of each of 65 principals for every kind. *)
Definition demo_principals : list N := N.of_nat <$> seq 0 65.
Definition demo_burst : list QEvent :=
  mjoin ((fun k => mjoin ((fun i => [demo_reject k i 1; demo_reject k i 2]) <$> demo_principals)) <$> ALL).

Definition demo_limits : QuotaLimits := mkLimits 2 1 1 2 2 1 1 1 2 1 2.
Definition demo_events : list QEvent :=
  [QReserve (ExecPermit "device:a"); QReserve (TunnelStreamPermit "device:a" "db:5432");
   QReserve (ConnectionPermit "device:b"); QDrop 1; QReserve (ExecPermit "device:a");
   demo_reject ExecPerPrincipal 1 5; demo_reject ExecPerPrincipal 1 6; QFlush 20000000000;
   demo_reject ExecPerPrincipal 2 20000000001; demo_reject ExecPerPrincipal 2 20000000002].
Definition demo_run : Run := default (boot demo_limits) (qexec_all demo_time (boot demo_limits) demo_events).

Lemma demo_quota_reached : qexec_all demo_time (boot demo_limits) demo_events = Some demo_run.
Proof. vm_compute. reflexivity. Qed.

Lemma quota_refines_witness :
  permits demo_run = [ExecPermit "device:a"; ConnectionPermit "device:b"]
  /\ snd (acquire (ExecPermit "device:a") (quotas demo_run)) = Err ExecPerPrincipal.
Proof.
  split; [vm_compute; reflexivity|].
  rewrite (proj2 (proj2 (quota_refines demo_time demo_limits demo_events demo_run (ExecPermit "device:a") demo_quota_reached))).
  vm_compute. reflexivity.
Defined.

Lemma quota_audit_complete_witness :
  occ ExecPerPrincipal (rejected demo_run) = 4
  /\ exists c, windows (quotas demo_run) !! kind_index ExecPerPrincipal = Some c
     /\ occ ExecPerPrincipal (rejected demo_run) =
        total (accounts (category ExecPerPrincipal)) (out demo_run) + pending c.
Proof.
  split; [vm_compute; reflexivity|].
  destruct (quota_audit_complete demo_time demo_limits demo_events demo_run ExecPerPrincipal demo_quota_reached)
    as (c & Hc & Ha & _); [vm_compute; discriminate|]. eauto.
Defined.

Lemma audit_windows_bounded_witness :
  len (snd (flush_expired demo_time 40000000000 (quotas demo_run))) <= 780
  /\ len (snd (flush_expired demo_time 40000000000 (quotas demo_run))) = 1.
Proof.
  split; [|vm_compute; reflexivity].
  apply (audit_windows_bounded demo_time demo_limits demo_events demo_run 40000000000 demo_quota_reached).
  vm_compute. discriminate.
Defined.

(** One flush can write 780 summary records, more than the 650 the
    documentation of [flush_expired] states. *)
Theorem flush_burst_780 :
  (fun x => len (snd (flush_expired demo_time 10000000001 (quotas x))))
    <$> qexec_all demo_time (boot default_limits) demo_burst = Some 780.
Proof. vm_compute. reflexivity. Qed.
End Quota.
