(* ===== verification/Broker.v ===== *)
(** * The session broker

    Models the registry of [crates/qsh-core/src/broker/mod.rs]: session-open
    reservations and quotas, lookup, draining, closing and reaping.  What the
    broker needs of a session is the class [SessionLike]; the actor of
    [Session] is an instance.  Each event is one critical section of the code
    (the registry lock, with the in-flight lock inside it), so a run is an
    interleaving of concurrent callers; an opener's slot lives in [slots]
    between its reservation and its consumption or drop. *)

From S2P Require Import Prelude Counter Quota Ring Lease Signal Session SessionLife Resume.

Module Broker.
Import Session.

(** Nanoseconds. *)
Definition CLOSED_RETENTION : N := 60 * 1000 * 1000 * 1000.
Definition REAPER_TICK : N := 30 * 1000 * 1000 * 1000.

(** ** What the broker relies on *)

Class SessionLike (S : Type) := {
  sl_spec : Type;
  sl_event : Type;
  sl_create : sl_spec -> N -> S;
  sl_exec : S -> sl_event -> option S;
  sl_tick : N -> S -> S;
  sl_closed_at : S -> option N;
  sl_window : S -> TtlWindow;
  sl_ok : S -> Prop;
  sl_create_ok sp t : sl_ok (sl_create sp t);
  sl_create_open sp t : sl_closed_at (sl_create sp t) = None;
  sl_exec_ok s e s' : sl_ok s -> sl_exec s e = Some s' -> sl_ok s';
  sl_tick_ok dt s : sl_ok s -> sl_ok (sl_tick dt s);
  sl_closed_stays s e s' t :
    sl_ok s -> sl_exec s e = Some s' -> sl_closed_at s = Some t -> sl_closed_at s' = Some t;
  sl_tick_closed dt s : sl_closed_at (sl_tick dt s) = sl_closed_at s;
}.

Inductive BrokerError :=
  | NotFound
  | InvalidArgument (e : string)
  | BConflict
  | BNotWriter
  | BNotRunning
  | BBackpressure
  | Unsupported (e : string)
  | Spawn (e : string)
  | BIo (e : string)
  | BGone
  | Draining
  | QuotaExceeded (k : Quota.QuotaKind).

(** [map_write_error]; the text of the input gap is the source's message. *)
Definition map_write_error (gap_text : N -> N -> string) (err : WriteError) : BrokerError :=
  match err with
  | NotWriter => BNotWriter
  | NotRunning => BNotRunning
  | Backpressure => BBackpressure
  | InputGap start applied => InvalidArgument (gap_text start applied)
  | Io e => BIo e
  | Gone => BGone
  end.

Record InFlightState := mkFlight { total : N; by_opener : gmap string N }.

Record Broker (S Digest : Type) := mkBroker {
  limits : Quota.QuotaLimits;
  resume_ttl : N;
  b_now : N;
  registry : gmap Resume.SessionId (string * S);
  draining : bool;
  in_flight : InFlightState;
  resume : Resume.ResumeRegistry (Digest := Digest);
  slots : list string;
}.
Arguments mkBroker {S Digest}.
Arguments limits {S Digest}. Arguments resume_ttl {S Digest}. Arguments b_now {S Digest}.
Arguments registry {S Digest}. Arguments draining {S Digest}. Arguments in_flight {S Digest}.
Arguments resume {S Digest}. Arguments slots {S Digest}.

Section Operations.
Context {S Digest : Type} `{SessionLike S} `{EqDecision Digest}.
Variable hash_of : list byte -> Digest.
Variable zero_hash : Digest.

Abbreviation Brk := (Broker S Digest).

(** [Broker::new] *)
Definition new (l : Quota.QuotaLimits) (ttl t : N) : Brk :=
  mkBroker l ttl t ∅ false (mkFlight 0 ∅) (Resume.new t) [].

(** [handle.closed_at().is_none()] *)
Definition is_live (h : string * S) : bool := bool_decide (sl_closed_at (snd h) = None).

Definition count_if (p : string * S -> bool) (m : gmap Resume.SessionId (string * S)) : N :=
  N.of_nat (size (filter (fun kv => p (snd kv) = true) m)).

(** [Broker::session_count] *)
Definition session_count (b : Brk) : N := count_if is_live (registry b).

Definition live_for (o : string) (h : string * S) : bool := is_live h && String.eqb (fst h) o.

(** [Broker::live_counts] *)
Record LiveCounts := mkCounts { live : N; detached : N }.
Definition live_counts (b : Brk) : LiveCounts :=
  mkCounts (count_if is_live (registry b))
    (count_if (fun h => is_live h && negb (0 <? w_attached (sl_window (snd h)))) (registry b)).

Definition with_flight (f : InFlightState) (sl : list string) (b : Brk) : Brk :=
  mkBroker (limits b) (resume_ttl b) (b_now b) (registry b) (draining b) f (resume b) sl.
Definition with_registry (m : gmap Resume.SessionId (string * S)) (b : Brk) : Brk :=
  mkBroker (limits b) (resume_ttl b) (b_now b) m (draining b) (in_flight b) (resume b) (slots b).
Definition with_resume (r : Resume.ResumeRegistry) (b : Brk) : Brk :=
  mkBroker (limits b) (resume_ttl b) (b_now b) (registry b) (draining b) (in_flight b) r (slots b).

(** [Broker::reserve_slot] *)
Definition reserve_slot (opener : string) (b : Brk) : result Brk Quota.QuotaKind :=
  let f := in_flight b in
  let tot := total f + count_if is_live (registry b) in
  let for_opener := Counter.count_of opener (by_opener f) + count_if (live_for opener) (registry b) in
  if Quota.max_sessions (limits b) <=? tot then Err Quota.Sessions
  else if Quota.max_sessions_per_principal (limits b) <=? for_opener then Err Quota.SessionsPerPrincipal
  else
    Ok (with_flight
          (mkFlight (total f + 1) (Counter.inc opener (by_opener f)))
          (slots b ++ [opener]) b).

(** [SessionSlot::release], of the [i]-th outstanding slot. *)
Definition release_flight (opener : string) (f : InFlightState) : InFlightState :=
  mkFlight (total f - 1) (Counter.dec opener (by_opener f)).

Definition release_slot (i : nat) (opener : string) (b : Brk) : Brk :=
  with_flight (release_flight opener (in_flight b)) (delete i (slots b)) b.

(** [Broker::open_with_opener_reserved], for a source and an id the
    environment supplies; [spawned] is whether [SessionActor::create]
    succeeded.  On an error the slot is dropped as the function returns. *)
Definition open_with_opener_reserved (i : nat) (opener : string) (id : Resume.SessionId)
    (sp : sl_spec) (spawned : result unit BrokerError) (b : Brk) : result unit BrokerError * Brk :=
  if draining b then (Err Draining, release_slot i opener b)
  else
    match spawned with
    | Err e => (Err e, release_slot i opener b)
    | Ok _ =>
        (Ok tt, release_slot i opener
                  (with_registry (<[id := (opener, sl_create sp (b_now b))]> (registry b)) b))
    end.

(** [Broker::get] and [Broker::get_for_read] *)
Definition get (b : Brk) (id : Resume.SessionId) : result S BrokerError :=
  match registry b !! id with
  | Some h => if is_live h then Ok (snd h) else Err NotFound
  | None => Err NotFound
  end.
Definition get_for_read (b : Brk) (id : Resume.SessionId) : result S BrokerError :=
  match registry b !! id with
  | Some h => Ok (snd h)
  | None => Err NotFound
  end.

(** The first critical section of [Broker::close_all]: commit to draining and
    take the snapshot of live sessions. *)
Definition begin_drain (b : Brk) : list Resume.SessionId * Brk :=
  (fst <$> map_to_list (filter (fun kv => is_live (snd kv) = true) (registry b)),
   mkBroker (limits b) (resume_ttl b) (b_now b) (registry b) true (in_flight b) (resume b) (slots b)).

(** [Broker::reap_once]'s decisions. *)
Definition deadlines (b : Brk) : gmap Resume.SessionId N :=
  (fun h => deadline (sl_window (snd h)) (b_now b) (resume_ttl b)) <$> registry b.
Definition doomed (b : Brk) : gmap Resume.SessionId Ring.CloseReason :=
  omap (fun h => reap_reason (sl_window (snd h)) (b_now b) (resume_ttl b)) (registry b).
Definition expired (now : N) (h : string * S) : bool :=
  match sl_closed_at (snd h) with
  | Some at_ => CLOSED_RETENTION <=? now - at_
  | None => false
  end.

(** [Broker::reap_once] up to the closes: drop closed sessions past their
    retention and re-anchor the credentials.  The closes of the [doomed]
    sessions are events of those sessions. *)
Definition reap_once (b : Brk) : Brk :=
  with_resume (Resume.sync_expiry (deadlines b) (resume b))
    (with_registry (filter (fun kv => expired (b_now b) (snd kv) = false) (registry b)) b).

(** ** Runs *)

Inductive BEvent :=
  | BReserve (opener : string)
  | BAbandon (i : nat)
  | BOpen (i : nat) (id : Resume.SessionId) (sp : sl_spec) (spawned : result unit BrokerError)
  | BSession (id : Resume.SessionId) (e : sl_event)
  | BForget (id : Resume.SessionId)
  | BResume (op : Resume.RegOp)
  | BDrain
  | BReap
  | BTick (dt : N).

Definition tick_all (dt : N) (m : gmap Resume.SessionId (string * S)) :=
  (fun h : string * S => (fst h, sl_tick dt (snd h))) <$> m.

Definition bexec (b : Brk) (e : BEvent) : option Brk :=
  match e with
  | BReserve opener => Some (match reserve_slot opener b with Ok b' => b' | Err _ => b end)
  | BAbandon i =>
      match slots b !! i with Some o => Some (release_slot i o b) | None => None end
  | BOpen i id sp spawned =>
      match slots b !! i, registry b !! id with
      | Some o, None => Some (snd (open_with_opener_reserved i o id sp spawned b))
      | _, _ => None
      end
  | BSession id e =>
      match registry b !! id with
      | Some (o, s) =>
          match sl_exec s e with
          | Some s' => Some (with_registry (<[id := (o, s')]> (registry b)) b)
          | None => None
          end
      | None => None
      end
  | BForget id =>
      match registry b !! id with
      | Some h => if is_live h then None else Some (with_resume (Resume.forget id (resume b)) b)
      | None => Some (with_resume (Resume.forget id (resume b)) b)
      end
  | BResume op =>
      match op with
      | Resume.OIssue _ _ _ _ | Resume.ORotate _ _ _ _ _ _ =>
          Some (with_resume (Resume.reg_op hash_of zero_hash (resume b) op) b)
      | _ => None
      end
  | BDrain => Some (snd (begin_drain b))
  | BReap => Some (reap_once b)
  | BTick dt =>
      Some (mkBroker (limits b) (resume_ttl b) (b_now b + dt) (tick_all dt (registry b)) (draining b)
              (in_flight b) (Resume.reg_op hash_of zero_hash (resume b) (Resume.OTick dt)) (slots b))
  end.

Fixpoint bexec_all (b : Brk) (es : list BEvent) : option Brk :=
  match es with
  | [] => Some b
  | e :: es' => match bexec b e with Some b' => bexec_all b' es' | None => None end
  end.

(** ** Counting *)

Lemma count_fresh p m id h :
  m !! id = None -> count_if p (<[id := h]> m) = Counter.one (p h) + count_if p m.
Proof.
  intros Hm. unfold count_if, Counter.one. rewrite map_filter_insert. simpl. case_decide as Hp.
  - rewrite Hp, map_size_insert_None; [lia|]. apply map_lookup_filter_None. auto.
  - rewrite delete_id by done. destruct (p h); [done|lia].
Qed.

Lemma count_delete p m id h :
  m !! id = Some h -> count_if p m = Counter.one (p h) + count_if p (delete id m).
Proof.
  intros Hm. rewrite <- (insert_id m id h Hm) at 1. rewrite <- insert_delete_eq.
  apply count_fresh. apply lookup_delete_eq.
Qed.

Lemma count_replace p m id h h' :
  m !! id = Some h -> count_if p (<[id := h']> m) + Counter.one (p h) = Counter.one (p h') + count_if p m.
Proof.
  intros Hm. rewrite <- insert_delete_eq, count_fresh by apply lookup_delete_eq.
  rewrite (count_delete p m id h Hm). lia.
Qed.

Lemma count_mono p m m' :
  (forall id h, m' !! id = Some h -> p h = true -> exists h0, m !! id = Some h0 /\ p h0 = true) ->
  count_if p m' <= count_if p m.
Proof.
  intros Hm. unfold count_if. rewrite <- !size_dom.
  assert (size (dom (filter (fun kv => p (snd kv) = true) m') : gset _) <=
    size (dom (filter (fun kv => p (snd kv) = true) m) : gset _))%nat as Hs; [|lia].
  apply subseteq_size. intros id (h & [Hh Hp]%map_lookup_filter_Some)%elem_of_dom.
  simpl in Hp. destruct (Hm id h Hh Hp) as (h0 & H0 & Hp0).
  apply elem_of_dom. exists h0. by apply map_lookup_filter_Some.
Qed.

(** ** The quota invariant *)

Record QInv (b : Brk) : Prop := {
  q_total : total (in_flight b) = len (slots b);
  q_by : Counter.counts (by_opener (in_flight b)) (slots b);
  q_cap : session_count b + total (in_flight b) <= Quota.max_sessions (limits b);
  q_cap_opener : forall o, count_if (live_for o) (registry b) + Counter.occ o (slots b)
                   <= Quota.max_sessions_per_principal (limits b);
  q_ok : forall id h, registry b !! id = Some h -> sl_ok (snd h);
}.

Lemma eqb_decide (o o' : string) : String.eqb o o' = bool_decide (o = o').
Proof. destruct (String.eqb_spec o o'); [by rewrite bool_decide_true|by rewrite bool_decide_false]. Qed.

(** Giving a slot back. *)
Lemma QInv_release i o (b : Brk) m :
  QInv b -> slots b !! i = Some o ->
  (forall id h, m !! id = Some h -> sl_ok (snd h)) ->
  count_if is_live m <= count_if is_live (registry b) + 1 ->
  (forall o', count_if (live_for o') m <= count_if (live_for o') (registry b) + Counter.one (bool_decide (o = o'))) ->
  QInv (release_slot i o (with_registry m b)).
Proof.
  intros [Ht Hb Hc Ho Hk] Hi Hok Hl Hlo.
  assert (len (delete i (slots b)) + 1 = len (slots b)) as Hlen.
  { unfold len. rewrite length_delete by eauto. apply lookup_lt_Some in Hi. lia. }
  split; cbn [release_slot with_flight with_registry in_flight slots registry limits]; try done.
  - simpl. lia.
  - by apply Counter.counts_dec.
  - unfold session_count in *. simpl. lia.
  - intros o'. specialize (Ho o'). specialize (Hlo o').
    pose proof (Counter.occ_delete o' _ _ _ Hi). lia.
Qed.

(** Sessions that only close keep the quota. *)
Lemma QInv_registry (b : Brk) m :
  QInv b -> (forall id h, m !! id = Some h -> sl_ok (snd h)) ->
  (forall id h, m !! id = Some h -> is_live h = true ->
     exists h0, registry b !! id = Some h0 /\ is_live h0 = true /\ fst h0 = fst h) ->
  QInv (with_registry m b).
Proof.
  intros [Ht Hb Hc Ho Hk] Hok Hm.
  assert (count_if is_live m <= count_if is_live (registry b)) as H1.
  { apply count_mono. intros id h Hh Hp. destruct (Hm _ _ Hh Hp) as (h0 & ? & ? & _). eauto. }
  assert (forall o, count_if (live_for o) m <= count_if (live_for o) (registry b)) as H2.
  { intros o. apply count_mono. unfold live_for. intros id h Hh [Hp Ho']%andb_prop.
    destruct (Hm _ _ Hh Hp) as (h0 & H0 & Hp0 & Hf). exists h0. by rewrite Hp0, Hf. }
  split; cbn [with_registry in_flight slots registry limits]; try done.
  - unfold session_count in *. simpl. lia.
  - intros o. specialize (Ho o). specialize (H2 o). lia.
Qed.

Lemma QInv_reserve o (b b' : Brk) : QInv b -> reserve_slot o b = Ok b' -> QInv b'.
Proof.
  intros [Ht Hb Hc Ho Hk] Hr. unfold reserve_slot in Hr.
  destruct (N.leb_spec (Quota.max_sessions (limits b)) (total (in_flight b) + count_if is_live (registry b)));
    [done|].
  destruct (N.leb_spec (Quota.max_sessions_per_principal (limits b))
    (Counter.count_of o (by_opener (in_flight b)) + count_if (live_for o) (registry b))); [done|].
  injection Hr as <-. rewrite (Counter.counts_of _ _ _ Hb) in *.
  split; cbn [with_flight in_flight slots registry limits total by_opener]; try done.
  - len_lia.
  - by apply Counter.counts_inc.
  - unfold session_count in *. simpl in *. lia.
  - intros o'. rewrite Counter.occ_app. specialize (Ho o'). simpl.
    case_bool_decide as E; [rewrite <- E in *; simpl; lia|simpl; lia].
Qed.

Lemma with_registry_id (b : Brk) : with_registry (registry b) b = b.
Proof. by destruct b. Qed.

Lemma QInv_abandon i o (b : Brk) : QInv b -> slots b !! i = Some o -> QInv (release_slot i o b).
Proof.
  intros HI Hi. rewrite <- (with_registry_id b).
  apply QInv_release; [done|done|apply (q_ok _ HI)|lia|intros; lia].
Qed.

Lemma QInv_exec (b b' : Brk) e : QInv b -> bexec b e = Some b' -> QInv b'.
Proof.
  intros HI He. destruct e; cbn [bexec] in He.
  - injection He as <-. destruct (reserve_slot opener b) eqn:E; [|done]. by eapply QInv_reserve.
  - destruct (slots b !! i) as [o|] eqn:Ei; [|done]. injection He as <-. by apply QInv_abandon.
  - destruct (slots b !! i) as [o|] eqn:Ei; [|done]. destruct (registry b !! id) eqn:Eid; [done|].
    injection He as <-. unfold open_with_opener_reserved.
    destruct (draining b); [by apply QInv_abandon|].
    destruct spawned; [|by apply QInv_abandon]. simpl.
    assert (is_live (o, sl_create sp (b_now b)) = true) as Hlive.
    { unfold is_live. simpl. by rewrite sl_create_open. }
    apply QInv_release; [done|done| | |].
    + intros id' h [[<- <-]|[_ Hh]]%lookup_insert_Some; [apply sl_create_ok|by eapply q_ok].
    + rewrite count_fresh, Hlive by done. simpl. lia.
    + intros o'. rewrite count_fresh by done. unfold live_for at 1. rewrite Hlive. simpl.
      rewrite eqb_decide. lia.
  - destruct (registry b !! id) as [[o s]|] eqn:Eid; [|done].
    destruct (sl_exec s e) as [s'|] eqn:Es; [|done]. injection He as <-.
    pose proof (q_ok _ HI _ _ Eid) as Hok. simpl in Hok. apply QInv_registry; [done| |].
    + intros id' h [[<- <-]|[_ Hh]]%lookup_insert_Some; [by eapply sl_exec_ok|by eapply q_ok].
    + intros id' h [[<- <-]|[_ Hh]]%lookup_insert_Some Hl; [|by eauto].
      exists (o, s). split_and!; [done| |done]. unfold is_live in *. bools. simpl in *.
      apply bool_decide_eq_true. destruct (sl_closed_at s) as [t|] eqn:Et; [|done].
      by rewrite (sl_closed_stays s e s' t Hok Es Et) in Hl.
  - destruct (registry b !! id) as [h|]; [destruct (is_live h); [done|]|];
      injection He as <-; destruct HI; by split.
  - destruct op; try done; injection He as <-; destruct HI; by split.
  - injection He as <-. destruct HI; by split.
  - injection He as <-. unfold reap_once.
    assert (QInv (with_registry (filter (fun kv => expired (b_now b) (snd kv) = false) (registry b)) b))
      as H1; [|destruct H1; by split].
    apply QInv_registry; [done| |].
    + intros id h [Hh _]%map_lookup_filter_Some. by eapply q_ok.
    + intros id h [Hh _]%map_lookup_filter_Some Hl. eauto.
  - injection He as <-.
    assert (QInv (with_registry (tick_all dt (registry b)) b)) as H1; [|destruct H1; by split].
    apply QInv_registry; [done| |]; unfold tick_all; intros id h; rewrite lookup_fmap.
    + intros (h0 & H0 & ->)%fmap_Some. simpl. by apply sl_tick_ok, (q_ok _ HI _ _ H0).
    + intros (h0 & H0 & ->)%fmap_Some Hl. exists h0. split_and!; [done| |done].
      unfold is_live in *. simpl in Hl. by rewrite sl_tick_closed in Hl.
Qed.

Lemma QInv_new l ttl t : QInv (new l ttl t).
Proof.
  split; cbn; try done.
  - unfold session_count, count_if. cbn [registry new]. rewrite map_filter_empty, map_size_empty. lia.
  - intros o. unfold count_if. rewrite map_filter_empty, map_size_empty. lia.
Qed.

Lemma QInv_run es (b b' : Brk) : QInv b -> bexec_all b es = Some b' -> QInv b'.
Proof.
  revert b. induction es as [|e es IH]; intros b HI; simpl; [by intros [= <-]|].
  destruct (bexec b e) as [b1|] eqn:E; [|done]. apply IH. by eapply QInv_exec.
Qed.

Lemma reserve_frame o (b : Brk) :
  let b' := match reserve_slot o b with Ok b' => b' | Err _ => b end in
  registry b' = registry b /\ draining b' = draining b /\ b_now b' = b_now b.
Proof.
  unfold reserve_slot. destruct (Quota.max_sessions _ <=? _); [done|].
  by destruct (Quota.max_sessions_per_principal _ <=? _).
Qed.

(** ** Draining *)

Lemma drain_exec (b b' : Brk) e :
  bexec b e = Some b' -> draining b = true ->
  draining b' = true /\
  (forall id h', registry b' !! id = Some h' -> exists h, registry b !! id = Some h /\
     (is_live h' = true -> sl_ok (snd h) -> is_live h = true)).
Proof.
  intros He Hd.
  assert (forall m, m = registry b -> draining b' = true -> registry b' = m ->
    draining b' = true /\ (forall id h', registry b' !! id = Some h' -> exists h,
      registry b !! id = Some h /\ (is_live h' = true -> sl_ok (snd h) -> is_live h = true))) as Hsame.
  { intros m -> Hd' Hm. split; [done|]. rewrite Hm. eauto. }
  destruct e; cbn [bexec] in He.
  - injection He as <-. destruct (reserve_frame opener b) as (Hr & Hdr & _).
    eapply Hsame; [done| |done]. by rewrite Hdr.
  - destruct (slots b !! i); [|done]. injection He as <-. by eapply Hsame.
  - destruct (slots b !! i); [|done]. destruct (registry b !! id); [done|]. injection He as <-.
    eapply Hsame; [done|..]; unfold open_with_opener_reserved; by rewrite Hd.
  - destruct (registry b !! id) as [[o s]|] eqn:Eid; [|done].
    destruct (sl_exec s e) as [s'|] eqn:Es; [|done]. injection He as <-. split; [done|]. cbn [with_registry registry].
    intros id' h' [[<- <-]|[_ Hh]]%lookup_insert_Some; [|by eauto].
    exists (o, s). split; [done|]. intros Hl Hok. unfold is_live in *. bools. simpl in *.
    apply bool_decide_eq_true. destruct (sl_closed_at s) as [t|] eqn:Et; [|done].
    by rewrite (sl_closed_stays s e s' t Hok Es Et) in Hl.
  - destruct (registry b !! id) as [h|]; [destruct (is_live h); [done|]|];
      injection He as <-; by eapply Hsame.
  - destruct op; try done; injection He as <-; by eapply Hsame.
  - injection He as <-. by eapply Hsame.
  - injection He as <-. split; [done|]. cbn [reap_once with_resume with_registry registry].
    intros id h' [Hh _]%map_lookup_filter_Some. eauto.
  - injection He as <-. split; [done|]. unfold tick_all. intros id h'. simpl. rewrite lookup_fmap.
    intros (h0 & H0 & ->)%fmap_Some. exists h0. split; [done|].
    unfold is_live. simpl. by rewrite sl_tick_closed.
Qed.

Lemma drain_run es (b b' : Brk) :
  QInv b -> bexec_all b es = Some b' -> draining b = true ->
  draining b' = true /\
  forall id h', registry b' !! id = Some h' -> exists h, registry b !! id = Some h /\
    (is_live h' = true -> is_live h = true).
Proof.
  revert b. induction es as [|e es IH]; intros b HI He Hd; simpl in He.
  { injection He as <-. split; [done|]. eauto. }
  destruct (bexec b e) as [b1|] eqn:E; [|done].
  destruct (drain_exec _ _ _ E Hd) as [Hd1 H1].
  destruct (IH b1) as [Hd' H2]; [by eapply QInv_exec|done|done|].
  split; [done|]. intros id h' (h1 & Hh1 & Hl1)%H2.
  destruct (H1 _ _ Hh1) as (h & Hh & Hl). exists h. split; [done|].
  intros Hl'. apply Hl; [by auto|]. by eapply q_ok.
Qed.

(** ** Retention *)

Lemma closed_kept_exec (b b' : Brk) e id o s t :
  QInv b -> bexec b e = Some b' -> registry b !! id = Some (o, s) -> sl_closed_at s = Some t ->
  b_now b < t + CLOSED_RETENTION ->
  b_now b <= b_now b' /\ exists s', registry b' !! id = Some (o, s') /\ sl_closed_at s' = Some t.
Proof.
  intros HI He Hr Ht Hn.
  assert (b_now b' = b_now b -> registry b' = registry b -> b_now b <= b_now b' /\
    exists s', registry b' !! id = Some (o, s') /\ sl_closed_at s' = Some t) as Hsame.
  { intros -> ->. split; [lia|]. eauto. }
  destruct e; cbn [bexec] in He.
  - injection He as <-. destruct (reserve_frame opener b) as (Hrg & _ & Hnw). by apply Hsame.
  - destruct (slots b !! i); [|done]. injection He as <-. by apply Hsame.
  - destruct (slots b !! i); [|done]. destruct (registry b !! id0) eqn:E; [done|]. injection He as <-.
    clear Hsame. unfold open_with_opener_reserved.
    destruct (draining b); [split; [simpl; lia|by exists s]|].
    destruct spawned; [|split; [simpl; lia|by exists s]].
    simpl. split; [lia|]. exists s. rewrite lookup_insert_ne; [done|congruence].
  - destruct (registry b !! id0) as [[o' s0]|] eqn:Eid; [|done].
    destruct (sl_exec s0 e) as [s'|] eqn:Es; [|done]. injection He as <-. simpl. split; [lia|].
    destruct (decide (id0 = id)) as [->|Hne]; [|rewrite lookup_insert_ne by done; eauto].
    rewrite Hr in Eid. simplify_eq. exists s'. rewrite lookup_insert_eq. split; [done|].
    eapply sl_closed_stays; [|done|done]. by apply (q_ok _ HI _ _ Hr).
  - destruct (registry b !! id0) as [h|]; [destruct (is_live h); [done|]|];
      injection He as <-; by apply Hsame.
  - destruct op; try done; injection He as <-; by apply Hsame.
  - injection He as <-. by apply Hsame.
  - injection He as <-. simpl. split; [lia|]. exists s. split; [|done].
    apply map_lookup_filter_Some. split; [done|]. cbn [snd]. unfold expired. cbn [snd]. rewrite Ht. apply N.leb_gt. unfold CLOSED_RETENTION in *. lia.
  - injection He as <-. simpl. split; [lia|]. exists (sl_tick dt s). unfold tick_all.
    rewrite lookup_fmap, Hr. simpl. by rewrite sl_tick_closed.
Qed.

Lemma now_mono_exec (b b' : Brk) e : bexec b e = Some b' -> b_now b <= b_now b'.
Proof.
  intros He. destruct e; cbn [bexec] in He.
  - injection He as <-. destruct (reserve_frame opener b) as (_ & _ & ->). lia.
  - destruct (slots b !! i); [|done]. injection He as <-. simpl. lia.
  - destruct (slots b !! i); [|done]. destruct (registry b !! id); [done|]. injection He as <-.
    unfold open_with_opener_reserved. destruct (draining b), spawned; simpl; lia.
  - destruct (registry b !! id) as [[]|]; [|done]. destruct (sl_exec _ _); [|done].
    injection He as <-. simpl. lia.
  - destruct (registry b !! id) as [h|]; [destruct (is_live h); [done|]|];
      injection He as <-; simpl; lia.
  - destruct op; try done; injection He as <-; simpl; lia.
  - injection He as <-. simpl. lia.
  - injection He as <-. simpl. lia.
  - injection He as <-. simpl. lia.
Qed.

Lemma now_mono es (b b' : Brk) : bexec_all b es = Some b' -> b_now b <= b_now b'.
Proof.
  revert b. induction es as [|e es IH]; intros b; simpl; [by intros [= <-]|].
  destruct (bexec b e) as [b1|] eqn:E; [|done]. intros H1%IH.
  apply now_mono_exec in E. lia.
Qed.

Lemma closed_kept_run es (b b' : Brk) id o s t :
  QInv b -> bexec_all b es = Some b' -> registry b !! id = Some (o, s) -> sl_closed_at s = Some t ->
  b_now b' < t + CLOSED_RETENTION ->
  exists s', registry b' !! id = Some (o, s') /\ sl_closed_at s' = Some t.
Proof.
  revert b s. induction es as [|e es IH]; intros b s HI He Hr Ht Hn; simpl in He.
  { injection He as <-. eauto. }
  destruct (bexec b e) as [b1|] eqn:E; [|done]. pose proof (now_mono _ _ _ He).
  pose proof (now_mono_exec _ _ _ E).
  destruct (closed_kept_exec _ _ _ _ _ _ _ HI E Hr Ht ltac:(lia)) as (_ & s1 & Hr1 & Ht1).
  eapply (IH b1); try done. by eapply QInv_exec.
Qed.

End Operations.

(** ** The session actor as seen by the broker *)

(** A finished actor's closing time never changes. *)
Lemma dead_closed_at {Emu} emu_feed emu_resize (s s' : Session Emu) e :
  exec emu_feed emu_resize s e = Some s' -> alive s = false ->
  closed_at (meta s') = closed_at (meta s).
Proof.
  intros He Ha. destruct e; cbn [exec] in He; rewrite ?Ha in He; try done.
  - case_match; [|done]. injection He as <-. unfold pump_read, feed_screen.
    destruct (screen s); [destruct (emu_feed _ _ _) as [? []]|]; simpl; try done.
    unfold try_send. simpl. by rewrite Ha.
  - case_match; [|done]. by injection He as <-.
  - case_match; [|done]. by injection He as <-.
  - by destruct (a_closing (act s)).
  - by destruct (in_q s), (writing s).
  - destruct (writing s) as [c|]; [|done]. injection He as <-. unfold writer_done.
    by destruct (ch_resp c).
  - destruct (writing s) as [c|]; [|done]. injection He as <-. by destruct (ch_resp c).
  - by injection He as <-.
  - case_match; [|done]. by injection He as <-.
  - by injection He as <-.
  - by injection He as <-.
  - by injection He as <-.
Qed.

(** Events of one session; the clock is the broker's. *)
Definition own_exec {Emu} emu_feed emu_resize (s : Session Emu) (e : Event) : option (Session Emu) :=
  match e with Tick _ => None | _ => exec emu_feed emu_resize s e end.

Lemma own_exec_exec {Emu} emu_feed emu_resize (s s' : Session Emu) e :
  own_exec emu_feed emu_resize s e = Some s' -> exec emu_feed emu_resize s e = Some s'.
Proof. by destruct e. Qed.

Lemma own_exec_closed {Emu} emu_feed emu_resize (s s' : Session Emu) e t :
  Inv s -> own_exec emu_feed emu_resize s e = Some s' -> closed_at (meta s) = Some t ->
  closed_at (meta s') = Some t.
Proof.
  intros HI He%own_exec_exec Ht. destruct (alive s) eqn:Ha.
  - by rewrite (core_open _ (inv_core _ HI) Ha) in Ht.
  - by rewrite (dead_closed_at _ _ _ _ _ He Ha).
Qed.

#[global] Instance session_like {Emu} (emu_feed : Emu -> list byte -> N -> Emu * list byte)
    (emu_resize : Emu -> N -> N -> Emu) : SessionLike (Session Emu) := {
  sl_spec := SessionConfig * Emu;
  sl_event := Event;
  sl_create sp t := create (fst sp) (snd sp) t;
  sl_exec := own_exec emu_feed emu_resize;
  sl_tick dt s := set_now (now s + dt) s;
  sl_closed_at s := closed_at (meta s);
  sl_window := ttl_window;
  sl_ok := Inv;
  sl_create_ok sp t := Inv_create _ _ _;
  sl_create_open sp t := eq_refl;
  sl_exec_ok s e s' HI He := Inv_exec emu_feed emu_resize s e s' HI (own_exec_exec _ _ _ _ _ He);
  sl_tick_ok dt s HI := Inv_exec emu_feed emu_resize s (Tick dt) _ HI eq_refl;
  sl_closed_stays s e s' t HI He := own_exec_closed emu_feed emu_resize s s' e t HI He;
  sl_tick_closed dt s := eq_refl;
}.

(** ** Properties *)

(** The session quotas hold under any interleaving of openers, closers,
    reapers and sessions: live sessions plus reservations in flight never
    exceed the global cap, nor the per-principal cap of any opener; and the
    reservation counters always equal the outstanding slots, so none leaks. *)
Theorem quota_respected {S Digest : Type} `{SessionLike S} `{EqDecision Digest}
    (hash_of : list byte -> Digest) (zero_hash : Digest) l ttl t es b :
  bexec_all hash_of zero_hash (new l ttl t) es = Some b ->
  session_count b + len (slots b) <= Quota.max_sessions (limits b) /\
  (forall o, count_if (live_for o) (registry b) + Counter.occ o (slots b)
     <= Quota.max_sessions_per_principal (limits b)) /\
  total (in_flight b) = len (slots b) /\
  Counter.counts (by_opener (in_flight b)) (slots b).
Proof.
  intros He. destruct (QInv_run hash_of zero_hash es (new l ttl t) b) as [Ht Hb Hc Ho _];
    [apply QInv_new|done|]. rewrite Ht in Hc. done.
Qed.

(** A broker of sessions without an emulator. *)
Definition feed2 : unit -> list byte -> N -> unit * list byte := fun e _ _ => (e, []).
Definition resize2 : unit -> N -> N -> unit := fun e _ _ => e.
Definition demo_like : SessionLike (Session unit) := session_like feed2 resize2.
#[local] Existing Instance demo_like.
Definition demo_limits : Quota.QuotaLimits := Quota.mkLimits 2 1 1 1 1 1 1 1 1 1 1.
Definition demo_new : Broker (Session unit) (list byte) := new demo_limits 100 0.
Definition demo_opens : list (@BEvent (Session unit) demo_like) :=
  [BReserve "a"; BReserve "b"; BReserve "c"; BOpen 0 "s1" (default_config, tt) (Ok tt); BReserve "a";
   BAbandon 0].

Lemma quota_respected_witness :
  exists b, bexec_all (fun x => x) [] demo_new demo_opens = Some b /\
  session_count b + len (slots b) <= Quota.max_sessions (limits b) /\
  (forall o, count_if (live_for o) (registry b) + Counter.occ o (slots b)
     <= Quota.max_sessions_per_principal (limits b)) /\
  total (in_flight b) = len (slots b) /\
  Counter.counts (by_opener (in_flight b)) (slots b).
Proof.
  eexists. split; [vm_compute; reflexivity|].
  apply (quota_respected (fun x => x) [] demo_limits 100 0 demo_opens).
  vm_compute. reflexivity.
Defined.

(** Draining is final: once [close_all] has committed to it, no run of
    the broker ever registers another session, and every session that is live
    afterwards was in the snapshot [close_all] closes. *)
Theorem drain_covers_all {S Digest : Type} `{SessionLike S} `{EqDecision Digest}
    (hash_of : list byte -> Digest) (zero_hash : Digest) l ttl t es1 b1 es2 b2 id :
  bexec_all hash_of zero_hash (new l ttl t) es1 = Some b1 ->
  bexec_all hash_of zero_hash (snd (begin_drain b1)) es2 = Some b2 ->
  (is_Some (registry b2 !! id) -> is_Some (registry b1 !! id)) /\
  (is_ok (get b2 id) = true -> id ∈ fst (begin_drain b1)).
Proof.
  intros H1 H2. assert (QInv b1) as HI by (by eapply QInv_run; [apply QInv_new|]).
  destruct (drain_run hash_of zero_hash es2 (snd (begin_drain b1)) b2) as [_ Hd];
    [destruct HI; by split|done|done|].
  split.
  - intros [h' Hh']. destruct (Hd _ _ Hh') as (h & Hh & _). by exists h.
  - unfold get. destruct (registry b2 !! id) as [h'|] eqn:E; [|done].
    destruct (is_live h') eqn:El; [|done]. intros _. destruct (Hd _ _ E) as (h & Hh & Hl).
    simpl in Hh |- *. apply list_elem_of_fmap. exists (id, h). split; [done|].
    apply elem_of_map_to_list, map_lookup_filter_Some. split; [done|]. simpl. auto.
Qed.

Definition demo_late_open : list (@BEvent (Session unit) demo_like) :=
  [BReserve "b"; BOpen 0 "s2" (default_config, tt) (Ok tt)].

Lemma drain_covers_all_witness :
  exists b1 b2, bexec_all (fun x => x) [] demo_new demo_opens = Some b1 /\
  bexec_all (fun x => x) [] (snd (begin_drain b1)) demo_late_open
    = Some b2 /\
  (is_Some (registry b2 !! "s1"%string) -> is_Some (registry b1 !! "s1"%string)) /\
  (is_ok (get b2 "s1"%string) = true -> "s1"%string ∈ fst (begin_drain b1)).
Proof.
  eexists _, _. split; [vm_compute; reflexivity|]. split; [vm_compute; reflexivity|].
  apply (drain_covers_all (fun x => x) [] demo_limits 100 0 demo_opens _
    demo_late_open).
  - vm_compute. reflexivity.
  - vm_compute. reflexivity.
Defined.

(** A closed session stays readable for the whole retention period and
    is otherwise gone at once: at any later time before the retention is over
    it is still found for reading, with the same closing time, and not found
    for anything else. *)
Theorem closed_readable {S Digest : Type} `{SessionLike S} `{EqDecision Digest}
    (hash_of : list byte -> Digest) (zero_hash : Digest) l ttl t0 es1 b1 es2 b2 id o s t :
  bexec_all hash_of zero_hash (new l ttl t0) es1 = Some b1 ->
  registry b1 !! id = Some (o, s) -> sl_closed_at s = Some t ->
  bexec_all hash_of zero_hash b1 es2 = Some b2 -> b_now b2 < t + CLOSED_RETENTION ->
  (exists s', get_for_read b2 id = Ok s' /\ sl_closed_at s' = Some t) /\ get b2 id = Err NotFound.
Proof.
  intros H1 Hr Ht H2 Hn. assert (QInv b1) as HI by (by eapply QInv_run; [apply QInv_new|]).
  destruct (closed_kept_run hash_of zero_hash es2 b1 b2 id o s t HI H2 Hr Ht Hn) as (s' & Hr' & Ht').
  unfold get_for_read, get. rewrite Hr'. split; [by exists s'|].
  unfold is_live. simpl. by rewrite Ht'.
Qed.

Definition demo_closed : list (@BEvent (Session unit) demo_like) :=
  demo_opens ++ [BSession "s1" (ChildExit default_exit); BSession "s1" PumpEnd; BSession "s1" OutputDone;
    BSession "s1" (Cmd (Close Ring.Closed None 0) (Ok tt))].

Lemma closed_readable_witness :
  exists b1 s b2, bexec_all (fun x => x) [] demo_new demo_closed = Some b1 /\
  registry b1 !! "s1"%string = Some ("a"%string, s) /\
  bexec_all (fun x => x) [] b1 [BTick 1000; BReap] = Some b2 /\
  (exists s', get_for_read b2 "s1"%string = Ok s' /\ sl_closed_at s' = Some 0) /\
  get b2 "s1"%string = Err NotFound.
Proof.
  eexists _, _, _. split; [vm_compute; reflexivity|]. split; [vm_compute; reflexivity|].
  split; [vm_compute; reflexivity|].
  eapply (closed_readable (fun x => x) [] demo_limits 100 0 demo_closed _ [BTick 1000; BReap]).
  - vm_compute. reflexivity.
  - vm_compute. reflexivity.
  - vm_compute. reflexivity.
  - vm_compute. reflexivity.
  - vm_compute. reflexivity.
Defined.

(** One reaper pass: exactly the closed sessions past their retention
    leave the registry, a session is picked for closing exactly when its own
    TTL rule says so, and every registered session's credential expires
    exactly at that session's resume deadline. *)
Theorem reap_once_spec {S Digest : Type} `{SessionLike S} `{EqDecision Digest} (b : Broker S Digest) id :
  (registry (reap_once b) !! id =
     match registry b !! id with
     | Some h => if expired (b_now b) h then None else Some h
     | None => None
     end) /\
  (doomed b !! id =
     match registry b !! id with
     | Some h => reap_reason (sl_window (snd h)) (b_now b) (resume_ttl b)
     | None => None
     end) /\
  (forall h e, registry b !! id = Some h -> Resume.entries (resume (reap_once b)) !! id = Some e ->
     Resume.expires_at e = deadline (sl_window (snd h)) (b_now b) (resume_ttl b)).
Proof.
  split_and!.
  - unfold reap_once. cbn [with_resume with_registry registry].
    destruct (registry b !! id) as [h|] eqn:E.
    + destruct (expired (b_now b) h) eqn:Ex.
      * apply map_lookup_filter_None. right. intros h' Hh'. simplify_eq. simpl. congruence.
      * by apply map_lookup_filter_Some.
    + apply map_lookup_filter_None. by left.
  - unfold doomed. rewrite lookup_omap. by destruct (registry b !! id).
  - intros h e Hh. unfold reap_once. cbn [with_resume with_registry resume Resume.sync_expiry Resume.entries].
    rewrite map_lookup_imap. destruct (Resume.entries (resume b) !! id) as [e0|]; [|done]. simpl.
    unfold Resume.sync_entry, deadlines. rewrite lookup_fmap, Hh. simpl. by intros [= <-].
Qed.

End Broker.
