(* ===== verification/Attach.v ===== *)
(** * The session data stream, from the child to the terminal and back

    Models the byte path of an attach end to end:
    - the frames of [crates/qsh-proto/src/wire.rs] ([SessionFrame]);
    - the host's pumps of [crates/qsh-core/src/session_stream.rs]
      ([output_pump], [input_pump], [apply_input_copy]);
    - the client's halves of [crates/qsh-core/src/client/mod.rs]
      ([AttachWriter], [AttachReader]) and the two cursors of
      [crates/qsh-core/src/client/reconnect.rs] that join a new connection to
      the one it replaces ([OutputCursor], [PendingInput]);
    - the attach driver of [crates/qsh-core/src/ops/session] ([read_leg],
      [pump_attach_input], [reattach]), and the two host steps a reattach goes
      through: [session.attach] of [server/sessions.rs] and the opening of the
      data stream in [server/tunnels.rs].

    [System] puts them around the session actor of [Session]: a list of legs
    (the newest is the one the client reads), each with the frames in flight
    in both directions, and the client.  [step] performs one action of one
    party; whatever else happens to the session (its child, other clients, the
    clock) is the action [Env].  Output is the byte path's: frames of the
    screen path are left out.  Input is the same on both, with the datagram
    copies a screen-sync attach adds. *)

From S2P Require Import Prelude Ring Lease Signal Session Broker.

Module Attach.
Import Ring Session.

(** ** Frames *)

Definition SESSION_CHUNK_MAX : N := 16 * 1024.

Inductive SessionFrame :=
  | FOutput (sequence : N) (data : list byte)
  | FInput (input_seq : N) (data : list byte)
  | FInputAck (acked_input_seq : N)
  | FGap (requested_after available_from : N)
  | FResize (cols rows : N)
  | FExit (final_seq : N) (exit_code : Z) (signal : option string).

Inductive ChunkTooLarge := TooLarge (len max : N).

(** [check_chunk] and [SessionFrame::validate] *)
Definition check_chunk (n : N) : result unit ChunkTooLarge :=
  if SESSION_CHUNK_MAX <? n then Err (TooLarge n SESSION_CHUNK_MAX) else Ok tt.

Definition validate (f : SessionFrame) : result unit ChunkTooLarge :=
  match f with
  | FOutput _ data | FInput _ data => check_chunk (len data)
  | _ => Ok tt
  end.

(** [slice::chunks]; each round takes a byte, so the length bounds them. *)
Fixpoint chunks_upto (fuel : nat) (n : N) (data : list byte) : list (list byte) :=
  match fuel, data with
  | S fuel', _ :: _ => takeN n data :: chunks_upto fuel' n (dropN n data)
  | _, _ => []
  end.

Definition chunks (n : N) (data : list byte) : list (list byte) := chunks_upto (length data) n data.

(** The loop both senders run over the chunks: each frame carries the
    cumulative offset after it. *)
Fixpoint numbered (offset : N) (cs : list (list byte)) : list (N * list byte) :=
  match cs with
  | [] => []
  | c :: cs' => (offset + len c, c) :: numbered (offset + len c) cs'
  end.

(** ** The host's output pump *)

Definition SESSION_STREAM_PULL_BYTES : N := 4 * SESSION_CHUNK_MAX.

(** [notify]: a control entry as an event of the control stream. *)
Inductive Notice :=
  | NExited (final_seq : N) (exit_code : Z) (signal : option string)
  | NWriterChanged (new_writer : option string) (seq : N)
  | NClosed (reason : CloseReason) (seq : N).

Definition notify (sequence : N) (ev : ControlEvent) : Notice :=
  match ev with
  | CExit exit_code signal => NExited sequence (default (-1)%Z exit_code) signal
  | CWriterChanged writer => NWriterChanged writer sequence
  | CClosed reason => NClosed reason sequence
  end.

(** What the loop over one batch of events sends: frames, notices, whether the
    batch had an exit, and whether the pump returned at a [Closed]. *)
Record Batch := mkBatch {
  b_frames : list SessionFrame;
  b_notices : list Notice;
  b_exited : bool;
  b_closed : bool;
}.

Definition output_frames (sequence : N) (data : list byte) : list SessionFrame :=
  (fun c => FOutput (fst c) (snd c)) <$> numbered (sequence - len data) (chunks SESSION_CHUNK_MAX data).

Fixpoint pump_events (evs : list ReplayEvent) : Batch :=
  match evs with
  | [] => mkBatch [] [] false false
  | EvOutput sequence data :: evs' =>
      let b := pump_events evs' in
      mkBatch (output_frames sequence data ++ b_frames b) (b_notices b) (b_exited b) (b_closed b)
  | EvGap requested_after available_from :: evs' =>
      let b := pump_events evs' in
      mkBatch (FGap requested_after available_from :: b_frames b) (b_notices b) (b_exited b) (b_closed b)
  | EvControl sequence _ event :: evs' =>
      let b := pump_events evs' in
      match event with
      | CExit exit_code signal =>
          mkBatch (FExit sequence (default (-1)%Z exit_code) signal :: b_frames b)
            (notify sequence event :: b_notices b) true (b_closed b)
      | CClosed _ => mkBatch [] [notify sequence event] false true
      | CWriterChanged _ =>
          mkBatch (b_frames b) (notify sequence event :: b_notices b) (b_exited b) (b_closed b)
      end
  end.

(** The pump's variables, and whether it has returned. *)
Record OutPump := mkOut { o_cursor : Cursor; o_grace : bool; o_over : bool }.

(** One round of [output_pump].  [pull] waits and then reads the ring; a wait
    that times out reads nothing. *)
Definition output_round (r : ReplayRing) (o : OutPump) : OutPump * list SessionFrame * list Notice :=
  match Ring.read r (o_cursor o) SESSION_STREAM_PULL_BYTES with
  | Err _ => (mkOut (o_cursor o) (o_grace o) true, [], [])
  | Ok out =>
      let b := pump_events (events out) in
      (mkOut (next out) (o_grace o || b_exited b)
         (b_closed b || (negb (b_exited b) && o_grace o)), b_frames b, b_notices b)
  end.

(** ** The host's input pump *)

(** Why the stream ended with an error. *)
Inductive StreamFault :=
  | FaultChunk (e : ChunkTooLarge)
  | FaultSeq (input_seq : N)
  | FaultSkip (start applied : N)
  | FaultGap (why : string)
  | FaultResize
  | FaultBackend (err : Broker.BrokerError).

(** The faults the peer is to blame for ([SessionStreamError::Protocol]). *)
Definition is_protocol (f : StreamFault) : bool :=
  match f with FaultBackend _ => false | _ => true end.

Inductive InputDo :=
  | DoWrite (data : list byte) (input_seq : N)
  | DoResize (cols rows : N)
  | DoNothing
  | DoFail (f : StreamFault).

Definition fits16 (n : N) : bool := n <? 2 ^ 16.

(** [input_pump] up to its call into the broker. *)
Definition input_frame (applied : N) (f : SessionFrame) : InputDo :=
  match validate f with
  | Err e => DoFail (FaultChunk e)
  | Ok _ =>
      match f with
      | FInput input_seq data =>
          if input_seq <? len data then DoFail (FaultSeq input_seq)
          else
            let start := input_seq - len data in
            if applied <? start then DoFail (FaultSkip start applied)
            else DoWrite data input_seq
      | FResize cols rows =>
          if fits16 cols && fits16 rows then DoResize cols rows else DoFail FaultResize
      | _ => DoNothing
      end
  end.

(** What it makes of the broker's answer: the offset it now acknowledges. *)
Definition input_answer (applied input_seq : N) (r : result N Broker.BrokerError)
    : result N StreamFault :=
  match r with
  | Ok now => Ok now
  | Err (Broker.InvalidArgument why) => Err (FaultGap why)
  | Err (Broker.BNotRunning | Broker.BNotWriter | Broker.NotFound) => Ok (applied `max` input_seq)
  | Err err => Err (FaultBackend err)
  end.

Definition resize_answer (r : result unit Broker.BrokerError) : option StreamFault :=
  match r with
  | Ok _ | Err (Broker.BNotRunning | Broker.NotFound | Broker.BNotWriter) => None
  | Err err => Some (FaultBackend err)
  end.

(** [apply_input_copy]: whether a datagram copy is written at all. *)
Definition copy_applies (applied input_seq : N) (data : list byte) : bool :=
  (len data <=? input_seq) && (input_seq - len data =? applied) && negb (len data =? 0).

(** ** The client *)

Inductive AttachEvent :=
  | AOutput (sequence : N) (data : list byte)
  | AGap (requested_after available_from : N)
  | AInputAck (acked_input_seq : N)
  | AExit (final_seq : N) (exit_code : Z) (signal : option string).

(** [AttachReader::next] on one stream frame: an error, an event, or a frame
    it skips. *)
Definition read_frame (f : SessionFrame) : result (option AttachEvent) ChunkTooLarge :=
  match validate f with
  | Err e => Err e
  | Ok _ =>
      Ok (match f with
          | FOutput sequence data => Some (AOutput sequence data)
          | FGap requested_after available_from => Some (AGap requested_after available_from)
          | FInputAck acked_input_seq => Some (AInputAck acked_input_seq)
          | FExit final_seq exit_code signal => Some (AExit final_seq exit_code signal)
          | FInput _ _ | FResize _ _ => None
          end)
  end.

(** [OutputCursor::accept]; the cursor is [last_seq]. *)
Definition accept (last_seq : N) (e : AttachEvent) : N * option AttachEvent :=
  match e with
  | AOutput sequence data =>
      let start := sequence - len data in
      if sequence <=? last_seq then (last_seq, None)
      else (sequence, Some (AOutput sequence (dropN (last_seq - start) data)))
  | AGap _ available_from => (last_seq `max` available_from, Some e)
  | AExit final_seq _ _ => (last_seq `max` final_seq, Some e)
  | AInputAck _ => (last_seq, Some e)
  end.

(** [attach_event_json]: what the frontend is handed, before its data is
    written out in base64. *)
Inductive SessionEvent :=
  | SOutput (sequence : N) (data : list byte)
  | SGap (requested_after available_from : N)
  | SExit (sequence : N) (exit_code : option Z) (signal : option string).

Definition attach_event_json (e : AttachEvent) : option SessionEvent :=
  match e with
  | AOutput sequence data => Some (SOutput sequence data)
  | AGap requested_after available_from => Some (SGap requested_after available_from)
  | AExit final_seq exit_code signal =>
      Some (SExit final_seq (if signal is Some _ then None else Some exit_code) signal)
  | AInputAck _ => None
  end.

Definition UNACKED_INPUT_MAX : N := 64 * 1024.

Inductive ResumeError :=
  | UnackedInputOverflow (unacked : N)
  | InputUnrecoverable (applied oldest : N).

Record PendingInput := mkPending { acked : N; sent : N; buf : list byte }.

(** [PendingInput::new], [push], [ack] and [rebase] *)
Definition pending_new (base : N) : PendingInput := mkPending base base [].

Definition pending_push (data : list byte) (p : PendingInput) : result PendingInput ResumeError :=
  let would_be := len (buf p) + len data in
  if UNACKED_INPUT_MAX <? would_be then Err (UnackedInputOverflow would_be)
  else Ok (mkPending (acked p) (sent p + len data) (buf p ++ data)).

Definition pending_ack (acked_input_seq : N) (p : PendingInput) : PendingInput :=
  let a := acked_input_seq `min` sent p in
  if a <=? acked p then p
  else mkPending a (sent p) (dropN ((a - acked p) `min` len (buf p)) (buf p)).

Definition pending_rebase (applied : N) (p : PendingInput)
    : result (PendingInput * list byte) ResumeError :=
  if applied <? acked p then Err (InputUnrecoverable applied (acked p))
  else if sent p <=? applied then Ok (mkPending applied applied [], [])
  else
    let rest := dropN (applied - acked p) (buf p) in
    Ok (mkPending applied (sent p) rest, rest).

(** [AttachWriter::send_input]: the frames, and the writer's offset after
    them. *)
Definition send_input (input_seq : N) (data : list byte) : list (N * list byte) * N :=
  (numbered input_seq (chunks SESSION_CHUNK_MAX data), input_seq + len data).

(** [await_applied]: what a detach reports, for the mark the acknowledgements
    have reached. *)
Inductive DetachFlush := Applied | Unconfirmed.

Definition await_applied (mark target : N) : DetachFlush :=
  if target <=? mark then Applied else Unconfirmed.

(** ** The system *)

(** A write the host is waiting for: the stream's own, or a datagram copy. *)
Record Waiting := mkWaiting { w_resp : Resp; w_seq : N; w_copy : bool }.

(** One connection's worth of attach: the host's two pumps and the frames in
    flight.  [l_copies] are the input chunks whose datagram copy was sent. *)
Record Leg := mkLeg {
  l_conn : Lease.ConnectionId;
  l_stream : InputStreamId;
  l_out : OutPump;
  l_applied : N;
  l_waiting : option Waiting;
  l_fault : option StreamFault;
  l_up : list SessionFrame;
  l_copies : list (N * list byte);
  l_down : list SessionFrame;
}.

(** The client across its legs.  [c_writer] is the offset of the running input
    pump's writer, if one runs; [c_mark] is [AttachContext::applied_input]. *)
Record Client := mkClient {
  c_pending : PendingInput;
  c_last_seq : N;
  c_writer : option N;
  c_mark : N;
  c_window : option (N * N);
  c_shown : list SessionEvent;
  c_errors : list ResumeError;
  c_broken : bool;
}.

(** What [session.attach] (or [session.open]) answered, until its data stream
    opens. *)
Record Ticket := mkTicket { t_stream : InputStreamId; t_input_from : N; t_replay_from : N }.

(** [y_head] is the input stream the resume credential names.  [y_typed] is
    everything the client took from its user and [y_ours] every input stream
    the session issued to it; no party reads them. *)
Record System (Emu : Type) := mkSystem {
  y_sess : Session Emu;
  y_legs : list Leg;
  y_client : Client;
  y_head : InputStreamId;
  y_ticket : option Ticket;
  y_recovering : bool;
  y_resp : Resp;
  y_typed : list byte;
  y_ours : list InputStreamId;
}.
Arguments mkSystem {Emu}.
Arguments y_sess {Emu}. Arguments y_legs {Emu}. Arguments y_client {Emu}. Arguments y_head {Emu}.
Arguments y_ticket {Emu}. Arguments y_recovering {Emu}. Arguments y_resp {Emu}.
Arguments y_typed {Emu}. Arguments y_ours {Emu}.

(** ** Field updates *)

Definition set_out (o : OutPump) (more : list SessionFrame) (l : Leg) : Leg :=
  mkLeg (l_conn l) (l_stream l) o (l_applied l) (l_waiting l) (l_fault l) (l_up l) (l_copies l)
    (l_down l ++ more).
Definition set_up (up : list SessionFrame) (copies : list (N * list byte)) (l : Leg) : Leg :=
  mkLeg (l_conn l) (l_stream l) (l_out l) (l_applied l) (l_waiting l) (l_fault l) up copies (l_down l).
Definition set_down (down : list SessionFrame) (l : Leg) : Leg :=
  mkLeg (l_conn l) (l_stream l) (l_out l) (l_applied l) (l_waiting l) (l_fault l) (l_up l)
    (l_copies l) down.
Definition set_waiting (w : option Waiting) (l : Leg) : Leg :=
  mkLeg (l_conn l) (l_stream l) (l_out l) (l_applied l) w (l_fault l) (l_up l) (l_copies l) (l_down l).
Definition set_applied (applied : N) (l : Leg) : Leg :=
  mkLeg (l_conn l) (l_stream l) (l_out l) applied None (l_fault l) (l_up l) (l_copies l)
    (l_down l ++ [FInputAck applied]).

(** A pump that returns ends the stream: the other stops, the frames already
    queued still go out. *)
Definition stop_out (o : OutPump) : OutPump := mkOut (o_cursor o) (o_grace o) true.
Definition set_fault (f : StreamFault) (l : Leg) : Leg :=
  mkLeg (l_conn l) (l_stream l) (stop_out (l_out l)) (l_applied l) None (Some f) (l_up l)
    (l_copies l) (l_down l).
Definition running (l : Leg) : bool :=
  negb (o_over (l_out l)) && (if l_fault l is Some _ then false else true).

Definition with_legs {Emu} (legs : list Leg) (y : System Emu) : System Emu :=
  mkSystem (y_sess y) legs (y_client y) (y_head y) (y_ticket y) (y_recovering y) (y_resp y)
    (y_typed y) (y_ours y).
Definition with_client {Emu} (c : Client) (y : System Emu) : System Emu :=
  mkSystem (y_sess y) (y_legs y) c (y_head y) (y_ticket y) (y_recovering y) (y_resp y)
    (y_typed y) (y_ours y).
(** A command was sent to the session on the next response channel. *)
Definition with_sess {Emu} (s : Session Emu) (y : System Emu) : System Emu :=
  mkSystem s (y_legs y) (y_client y) (y_head y) (y_ticket y) (y_recovering y) (y_resp y + 1)
    (y_typed y) (y_ours y).

(** ** Replies *)

Definition write_reply (resp : Resp) (rs : list (Resp * Reply)) : option (result N WriteError) :=
  list.head (omap (fun x => match x with
                       | (r, RWrite v) => if r =? resp then Some v else None
                       | _ => None
                       end) rs).
Definition resize_reply (resp : Resp) (rs : list (Resp * Reply)) : option (result unit WriteError) :=
  list.head (omap (fun x => match x with
                       | (r, RResizeAt v) => if r =? resp then Some v else None
                       | _ => None
                       end) rs).

Definition answer_write (w : Waiting) (r : result N Broker.BrokerError) (l : Leg) : Leg :=
  if w_copy w then
    match r with
    | Ok now => set_applied now l
    | Err _ => set_waiting None l
    end
  else
    match input_answer (l_applied l) (w_seq w) r with
    | Ok applied => set_applied applied l
    | Err f => set_fault f l
    end.

Definition answer_resize (r : result unit Broker.BrokerError) (l : Leg) : Leg :=
  match resize_answer r with
  | None => l
  | Some f => set_fault f l
  end.

(** ** Steps *)

Inductive Action :=
  | Env (e : Event)
  | Type_ (data : list byte) (n : nat)
  | Window (cols rows : N) (sent : bool)
  | Deliver (i : nat) (res : result unit string)
  | Copy (i k : nat)
  | Answer (i : nat)
  | Pull (i : nat)
  | Cut (i : nat)
  | Recv
  | Reattach
  | OpenStream (principal : string) (conn physical : Lease.ConnectionId) (no_steal : bool)
      (sent : option nat).

Section System.
Context {Emu : Type}.
Variable emu_feed : Emu -> list byte -> N -> Emu * list byte.
Variable emu_resize : Emu -> N -> N -> Emu.
(** The text of an input gap. *)
Variable gap_text : N -> N -> string.

Abbreviation Sys := (System Emu).
Abbreviation exec := (Session.exec emu_feed emu_resize).

Definition cmd_resp (c : Command) : Resp :=
  match c with
  | Write _ _ _ resp | Resize _ _ resp | ResizeAt _ _ _ resp | SignalCmd _ resp
  | TakeLease _ _ _ _ resp | ReleaseConnection _ resp | Close _ _ resp => resp
  end.

(** What the rest of the world may do to the session: anything but number
    input on a stream that is not its own, on response channels of its own. *)
Definition foreign (y : Sys) (e : Event) : bool :=
  let minted (a : InputStreamId) :=
    negb (bool_decide (a ∈ y_ours y)) && (a <? next_input_stream (meta (y_sess y))) in
  match e with
  | Cmd c _ =>
      (cmd_resp c =? y_resp y) &&
      match c with
      | Write _ _ (Some (a, _)) _ => minted a
      | _ => true
      end
  | Seed id _ => minted id
  | _ => true
  end.

(** [Broker::get]: a closed session is not found. *)
Definition found (s : Session Emu) : bool := if closed_at (meta s) is Some _ then false else true.

(** [SessionBackend::write_at], to the point where its answer is awaited. *)
Definition write_at (i : nat) (l : Leg) (data : list byte) (input_seq : N) (copy : bool) (y : Sys)
    : Sys :=
  let w := mkWaiting (y_resp y) input_seq copy in
  if found (y_sess y) then
    match exec (y_sess y) (Cmd (Write (l_conn l) data (Some (l_stream l, input_seq)) (y_resp y)) (Ok tt)) with
    | Some s => with_legs (<[i := set_waiting (Some w) l]> (y_legs y)) (with_sess s y)
    | None => with_legs (<[i := answer_write w (Err Broker.BGone) l]> (y_legs y)) y
    end
  else with_legs (<[i := answer_write w (Err Broker.NotFound) l]> (y_legs y)) y.

(** [SessionBackend::resize_at] *)
Definition resize_at (i : nat) (l : Leg) (cols rows : N) (res : result unit string) (y : Sys) : Sys :=
  if found (y_sess y) then
    match exec (y_sess y) (Cmd (ResizeAt (l_conn l) cols rows (y_resp y)) res) with
    | Some s =>
        let r := default (Err Gone) (resize_reply (y_resp y) (replies s)) in
        with_legs (<[i := answer_resize (map_err (Broker.map_write_error gap_text) r) l]> (y_legs y))
          (with_sess s y)
    | None => with_legs (<[i := answer_resize (Err Broker.BGone) l]> (y_legs y)) y
    end
  else with_legs (<[i := answer_resize (Err Broker.NotFound) l]> (y_legs y)) y.

(** One iteration of [input_pump] on leg [i]. *)
Definition deliver (i : nat) (res : result unit string) (y : Sys) : option Sys :=
  l ← y_legs y !! i;
  match l_up l, l_waiting l with
  | f :: up, None =>
      if running l then
        let l' := set_up up (l_copies l) l in
        Some (match input_frame (l_applied l) f with
              | DoFail flt => with_legs (<[i := set_fault flt l']> (y_legs y)) y
              | DoNothing => with_legs (<[i := l']> (y_legs y)) y
              | DoResize cols rows => resize_at i l' cols rows res y
              | DoWrite data input_seq => write_at i l' data input_seq false y
              end)
      else None
  | _, _ => None
  end.

(** [datagram_pump] on a copy of an input chunk. *)
Definition deliver_copy (i k : nat) (y : Sys) : option Sys :=
  l ← y_legs y !! i;
  '(input_seq, data) ← l_copies l !! k;
  if running l && (if l_waiting l is Some _ then false else true) && is_ok (validate (FInput input_seq data))
     && copy_applies (l_applied l) input_seq data
  then Some (write_at i l data input_seq true y) else None.

(** The session answered the write leg [i] is waiting for. *)
Definition answer (i : nat) (y : Sys) : option Sys :=
  l ← y_legs y !! i;
  w ← l_waiting l;
  r ← write_reply (w_resp w) (replies (y_sess y));
  if running l
  then Some (with_legs (<[i := answer_write w (map_err (Broker.map_write_error gap_text) r) l]>
               (y_legs y)) y)
  else None.

(** One round of leg [i]'s [output_pump]. *)
Definition pull (i : nat) (y : Sys) : option Sys :=
  l ← y_legs y !! i;
  if running l then
    let '(o, frames, _) := output_round (ring (y_sess y)) (l_out l) in
    Some (with_legs (<[i := set_out o frames l]> (y_legs y)) y)
  else None.

(** The host notices that leg [i]'s connection is gone, or the session left
    the registry. *)
Definition cut (i : nat) (y : Sys) : option Sys :=
  l ← y_legs y !! i;
  Some (with_legs (<[i := set_out (stop_out (l_out l)) [] l]> (y_legs y)) y).

(** [pump_attach_input] on typed bytes: recorded first, then written; [n] of
    the frames reach the transport, and a write that fails ends the pump. *)
Definition type_input (data : list byte) (n : nat) (y : Sys) : option Sys :=
  let c := y_client y in
  l ← y_legs y !! 0%nat;
  input_seq ← c_writer c;
  if y_recovering y then None else
  match pending_push data (c_pending c) with
  | Err e =>
      Some (with_client (mkClient (c_pending c) (c_last_seq c) None (c_mark c) (c_window c)
              (c_shown c) (c_errors c ++ [e]) (c_broken c)) y)
  | Ok p =>
      let '(frames, seq) := send_input input_seq data in
      let up := (fun f => FInput (fst f) (snd f)) <$> take n frames in
      let writer := if (length frames <=? n)%nat then Some seq else None in
      Some (mkSystem (y_sess y)
        (<[0%nat := set_up (l_up l ++ up) (l_copies l ++ frames) l]> (y_legs y))
        (mkClient p (c_last_seq c) writer (c_mark c) (c_window c) (c_shown c) (c_errors c) (c_broken c))
        (y_head y) (y_ticket y) (y_recovering y) (y_resp y) (y_typed y ++ data) (y_ours y))
  end.

(** [pump_attach_input] on a window change; the dimensions are [u16]. *)
Definition resize_window (cols rows : N) (sent : bool) (y : Sys) : option Sys :=
  let c := y_client y in
  l ← y_legs y !! 0%nat;
  input_seq ← c_writer c;
  if y_recovering y || negb (fits16 cols && fits16 rows) then None else
  let up := if sent then [FResize cols rows] else [] in
  Some (with_client (mkClient (c_pending c) (c_last_seq c) (if sent then Some input_seq else None)
            (c_mark c) (Some (cols, rows)) (c_shown c) (c_errors c) (c_broken c))
    (with_legs (<[0%nat := set_up (l_up l ++ up) (l_copies l) l]> (y_legs y)) y)).

(** [read_leg] on one event. *)
Definition read_event (e : AttachEvent) (c : Client) : Client :=
  let '(p, mark) :=
    match e with
    | AInputAck n => (pending_ack n (c_pending c), c_mark c `max` n)
    | _ => (c_pending c, c_mark c)
    end in
  let '(last, kept) := accept (c_last_seq c) e in
  let shown := match kept ≫= attach_event_json with Some j => [j] | None => [] end in
  mkClient p last (c_writer c) mark (c_window c) (c_shown c ++ shown) (c_errors c) (c_broken c).

Definition recv (y : Sys) : option Sys :=
  let c := y_client y in
  l ← y_legs y !! 0%nat;
  if y_recovering y || c_broken c then None else
  match l_down l with
  | [] => None
  | f :: down =>
      let c' :=
        match read_frame f with
        | Err _ => mkClient (c_pending c) (c_last_seq c) (c_writer c) (c_mark c) (c_window c)
                     (c_shown c) (c_errors c) true
        | Ok None => c
        | Ok (Some e) => read_event e c
        end in
      Some (with_client c' (with_legs (<[0%nat := set_down down l]> (y_legs y)) y))
  end.

(** [session.attach] on a fresh connection, past its checks: the host reserves
    an input stream, names it to the successor credential and forks it from
    the one the presented credential named.  The client is past the point of
    no return for its leg: its pumps have stopped. *)
Definition reattach (y : Sys) : option Sys :=
  if found (y_sess y) then
    let replay_from := c_last_seq (y_client y) `min` end_ (ring (y_sess y)) in
    let '(id, s1) := reserve_input_stream (y_sess y) in
    let '(start, s2) := seed_input_stream id (Some (y_head y)) s1 in
    let c := y_client y in
    Some (mkSystem s2 (y_legs y)
      (mkClient (c_pending c) (c_last_seq c) None (c_mark c) (c_window c) (c_shown c) (c_errors c)
         (c_broken c))
      id (Some (mkTicket id start replay_from)) true (y_resp y) (y_typed y) (id :: y_ours y))
  else None.

(** The client's half of a data stream that opened on ticket [t]: the window
    again, then the input the host has not applied; [sent] counts the input
    frames that reached the transport, [None] is a stream the client lost
    before it rebased. *)
Definition rejoin (t : Ticket) (sent : option nat) (c : Client)
    : Client * list SessionFrame * list (N * list byte) * bool :=
  match sent with
  | None => (c, [], [], false)
  | Some n =>
      let window := match c_window c with Some (cols, rows) => [FResize cols rows] | None => [] end in
      match pending_rebase (t_input_from t) (c_pending c) with
      | Err e =>
          (mkClient (c_pending c) (c_last_seq c) None (c_mark c) (c_window c) (c_shown c)
             (c_errors c ++ [e]) (c_broken c), window, [], false)
      | Ok (p, replay) =>
          let '(frames, seq) := send_input (t_input_from t) replay in
          let complete := (length frames <=? n)%nat in
          (mkClient p (c_last_seq c) (if complete then Some seq else None) (c_mark c) (c_window c)
             (c_shown c) (c_errors c) (c_broken c),
           window ++ ((fun f => FInput (fst f) (snd f)) <$> take n frames), frames, complete)
      end
  end.

(** The data stream opens on the host: the writer lease is taken, and the
    pumps start. *)
Definition open_stream (principal : string) (conn physical : Lease.ConnectionId) (no_steal : bool)
    (sent : option nat) (y : Sys) : option Sys :=
  t ← y_ticket y;
  if found (y_sess y) then
    s ← exec (y_sess y) (Cmd (TakeLease principal conn physical no_steal (y_resp y)) (Ok tt));
    match fst (Lease.take_owned (lease (meta (y_sess y))) principal conn physical no_steal) with
    | Lease.Conflict _ =>
        Some (mkSystem s (y_legs y) (y_client y) (y_head y) None (y_recovering y) (y_resp y + 1)
          (y_typed y) (y_ours y))
    | Lease.Acquired _ _ =>
        let '(c, up, copies, complete) := rejoin t sent (y_client y) in
        let l := mkLeg conn (t_stream t) (mkOut (from_offset (t_replay_from t)) false false)
                   (t_input_from t) None None up copies [] in
        Some (mkSystem s (l :: y_legs y) c (y_head y) None (negb complete) (y_resp y + 1)
          (y_typed y) (y_ours y))
    end
  else None.

(** One step of the system, if it is enabled. *)
Definition step (y : Sys) (a : Action) : option Sys :=
  match a with
  | Env e =>
      if foreign y e then
        s ← exec (y_sess y) e;
        Some (mkSystem s (y_legs y) (y_client y) (y_head y) (y_ticket y) (y_recovering y)
          (match e with Cmd _ _ => y_resp y + 1 | _ => y_resp y end) (y_typed y) (y_ours y))
      else None
  | Type_ data n => type_input data n y
  | Window cols rows sent => resize_window cols rows sent y
  | Deliver i res => deliver i res y
  | Copy i k => deliver_copy i k y
  | Answer i => answer i y
  | Pull i => pull i y
  | Cut i => cut i y
  | Recv => recv y
  | Reattach => reattach y
  | OpenStream principal conn physical no_steal sent =>
      open_stream principal conn physical no_steal sent y
  end.

Fixpoint run (y : Sys) (acts : list Action) : option Sys :=
  match acts with
  | [] => Some y
  | a :: acts' => match step y a with Some y' => run y' acts' | None => None end
  end.

(** [session.open] answered: the session exists, its first input stream is
    the client's, and the ticket's data stream is about to open. *)
Definition opened (config : SessionConfig) (emu : Emu) (t : N) : Sys :=
  mkSystem (Session.create config emu t) []
    (mkClient (pending_new 0) 0 None 0 None [] [] false)
    FIRST_INPUT_STREAM (Some (mkTicket FIRST_INPUT_STREAM 0 0)) true 0 [] [FIRST_INPUT_STREAM].

(** A condition on every step of a run. *)
Fixpoint throughout (P : Sys -> Action -> Prop) (y : Sys) (acts : list Action) : Prop :=
  match acts with
  | [] => True
  | a :: acts' => P y a /\ forall y', step y a = Some y' -> throughout P y' acts'
  end.

(** Induction over a run. *)
Lemma run_ind (I : Sys -> Prop) (P : Sys -> Action -> Prop) y acts y' :
  (forall y a y', I y -> P y a -> step y a = Some y' -> I y') ->
  I y -> throughout P y acts -> run y acts = Some y' -> I y'.
Proof.
  intros Hs. revert y. induction acts as [|a acts IH]; intros y HI Ht Hr; simpl in *; [by simplify_eq|].
  destruct (step y a) as [y1|] eqn:E; [|done]. destruct Ht as [Hp Ht]. eauto.
Qed.

(** A reattach is two steps of the session. *)
Lemma reattach_steps y y' :
  reattach y = Some y' ->
  exec_all emu_feed emu_resize (y_sess y)
    [Reserve; Seed (next_input_stream (meta (y_sess y))) (Some (y_head y))] = Some (y_sess y').
Proof. unfold reattach. destruct (found _); [|done]. by intros [= <-]. Qed.

End System.
End Attach.
