(* ===== verification/AttachOutput.v ===== *)
(** * Output reaches the terminal exactly once

    The byte path of [Attach], from the session's history to the frontend's
    event stream: through the replay ring, the host's output pump, the frames
    in flight and the client's cursor, over any number of connections.  What
    the frontend was handed is at every moment the session's output in order,
    with nothing repeated and every omission reported. *)

From S2P Require Import Prelude Ring Lease Signal Session Broker Attach.

Module AttachOutput.
Import Ring Session Attach.

(** ** The bytes of a history *)

Fixpoint log_bytes (log : Log) : list byte :=
  match log with
  | [] => []
  | AByte b :: l => b :: log_bytes l
  | ACtl _ :: l => log_bytes l
  end.

Lemma log_bytes_app l1 l2 : log_bytes (l1 ++ l2) = log_bytes l1 ++ log_bytes l2.
Proof. induction l1 as [|[b|e] l1 IH]; simpl; [done|by rewrite IH|done]. Qed.

Lemma log_bytes_len log : len (log_bytes log) = nbytes log.
Proof. induction log as [|[b|e] l IH]; simpl; [done|rewrite len_cons; lia|done]. Qed.

Lemma annot_byte_at o id log off b :
  IByte off b ∈ annot o id log -> o <= off /\ log_bytes log !! N.to_nat (off - o) = Some b.
Proof.
  revert o id. induction log as [|[c|e] l IH]; intros o id; simpl.
  - by intros ?%elem_of_nil.
  - intros [[= -> ->]|H]%elem_of_cons; [by rewrite N.sub_diag|].
    apply IH in H as [? H]. split; [lia|].
    by replace (N.to_nat (off - o)) with (S (N.to_nat (off - (o + 1)))) by lia.
  - intros [?|H]%elem_of_cons; [done|]. by apply IH in H.
Qed.

Lemma byte_items_at off d i b : d !! i = Some b -> IByte (off + N.of_nat i) b ∈ byte_items off d.
Proof.
  revert off i. induction d as [|c d IH]; intros off [|i] H; simpl in *; try done.
  - injection H as ->. rewrite N.add_0_r. by apply elem_of_cons; left.
  - apply elem_of_cons; right. replace (off + N.of_nat (S i)) with (off + 1 + N.of_nat i) by lia.
    by apply IH.
Qed.

Lemma slice_lookup_eq (d B : list byte) s :
  (forall i b, d !! i = Some b -> B !! N.to_nat (s + N.of_nat i) = Some b) ->
  d = slice s (s + len d) B.
Proof.
  intros H. apply list_eq. intros i. unfold slice, takeN, dropN.
  destruct (d !! i) as [b|] eqn:E.
  - rewrite lookup_take_lt, lookup_drop; [|apply lookup_lt_Some in E; unfold len; lia].
    specialize (H i b E). rewrite <- H. f_equal. lia.
  - symmetry. apply lookup_take_ge. apply lookup_ge_None in E. unfold len. lia.
Qed.

Lemma items_output es s d : Output s d ∈ es -> forall it, it ∈ byte_items s d -> it ∈ items es.
Proof.
  induction es as [|e es IH]; [by intros ?%elem_of_nil|].
  intros [<-|H]%elem_of_cons it Hit; simpl; [by apply elem_of_app; left|].
  destruct e; [apply elem_of_app; right|apply elem_of_cons; right]; by apply IH.
Qed.

(** Every chunk the ring holds is the history's bytes at its offset. *)
Lemma ring_chunk r gone kept s d :
  ReprAt r gone kept -> Output s d ∈ entries r -> d = slice s (s + len d) (log_bytes (gone ++ kept)).
Proof.
  intros HR Hin. apply slice_lookup_eq. intros i b Hi.
  apply (byte_items_at s), (items_output _ _ _ Hin) in Hi.
  rewrite (repr_items _ _ _ HR) in Hi.
  assert (IByte (s + N.of_nat i) b ∈ history (gone ++ kept)) as Hh
    by (rewrite history_app; apply elem_of_app; by right).
  apply annot_byte_at in Hh as [_ Hh]. by rewrite N.sub_0_r in Hh.
Qed.

(** ** Showing a stream

    A list of events continues the stream [B] from offset [p] to offset [q]:
    every output event carries exactly the bytes that follow, a gap passes over
    bytes of the first [G] only (those the ring no longer holds), and an exit
    says nothing about output not yet shown. *)

Fixpoint shows_events (B : list byte) (G p : N) (evs : list ReplayEvent) (q : N) : Prop :=
  match evs with
  | [] => p = q
  | EvOutput sequence data :: evs' =>
      p + len data = sequence /\ data = slice p sequence B /\ shows_events B G sequence evs' q
  | EvGap _ available_from :: evs' =>
      available_from <= p `max` G /\ shows_events B G (p `max` available_from) evs' q
  | EvControl sequence _ _ :: evs' => sequence <= p /\ shows_events B G p evs' q
  end.

Fixpoint shows_frames (B : list byte) (G p : N) (fs : list SessionFrame) (q : N) : Prop :=
  match fs with
  | [] => p = q
  | FOutput sequence data :: fs' =>
      p + len data = sequence /\ data = slice p sequence B /\ shows_frames B G sequence fs' q
  | FGap _ available_from :: fs' =>
      available_from <= p `max` G /\ shows_frames B G (p `max` available_from) fs' q
  | FExit final_seq _ _ :: fs' => final_seq <= p /\ shows_frames B G p fs' q
  | _ :: fs' => shows_frames B G p fs' q
  end.

Fixpoint shows (B : list byte) (G p : N) (evs : list SessionEvent) (q : N) : Prop :=
  match evs with
  | [] => p = q
  | SOutput sequence data :: evs' =>
      p + len data = sequence /\ data = slice p sequence B /\ shows B G sequence evs' q
  | SGap _ available_from :: evs' =>
      available_from <= p `max` G /\ shows B G (p `max` available_from) evs' q
  | SExit sequence _ _ :: evs' => sequence <= p /\ shows B G p evs' q
  end.

Lemma shows_frames_app B G p fs q fs' q' :
  shows_frames B G p fs q -> shows_frames B G q fs' q' -> shows_frames B G p (fs ++ fs') q'.
Proof.
  revert p. induction fs as [|f fs IH]; intros p; simpl; [by intros ->|].
  destruct f; naive_solver.
Qed.

Lemma shows_app B G p es q es' q' : shows B G p es q -> shows B G q es' q' -> shows B G p (es ++ es') q'.
Proof. revert p. induction es as [|[]]; intros p; simpl; [by intros ->|naive_solver..]. Qed.

Lemma shows_events_app B G p es q es' q' :
  shows_events B G p es q -> shows_events B G q es' q' -> shows_events B G p (es ++ es') q'.
Proof. revert p. induction es as [|[]]; intros p; simpl; [by intros ->|naive_solver..]. Qed.

Lemma slice_grows (B C : list byte) p q d :
  p + len d = q -> d = slice p q B -> d = slice p q (B ++ C).
Proof.
  intros Hq Hd. destruct (decide (p = q)) as [->|]; [by rewrite Hd, !slice_nil|].
  assert (q <= len B) by (apply (f_equal len) in Hd; rewrite len_slice in Hd; lia).
  rewrite Hd at 1. unfold slice. rewrite dropN_app_le, takeN_app_le by len_lia. done.
Qed.

Lemma shows_grows B G C G' p es q : G <= G' -> shows B G p es q -> shows (B ++ C) G' p es q.
Proof.
  intros HG. revert p. induction es as [|[]]; intros p; simpl; [done|..].
  - intros (? & ? & ?). split_and!; [done|by apply slice_grows|auto].
  - intros (? & ?). split; [lia|auto].
  - naive_solver.
Qed.

Lemma shows_frames_grows B G C G' p fs q : G <= G' -> shows_frames B G p fs q -> shows_frames (B ++ C) G' p fs q.
Proof.
  intros HG. revert p. induction fs as [|[]]; intros p; simpl; try done; auto.
  - intros (? & ? & ?). split_and!; [done|by apply slice_grows|auto].
  - intros (? & ?). split; [lia|auto].
  - naive_solver.
Qed.

(** Where nothing is reported missing, the data is the stream itself. *)
Definition is_lost (e : SessionEvent) : bool := match e with SGap _ _ => true | _ => false end.
Definition shown_data (evs : list SessionEvent) : list byte :=
  concat ((fun e => match e with SOutput _ d => d | _ => [] end) <$> evs).

Lemma shows_exact B G p es q :
  shows B G p es q -> existsb is_lost es = false -> p <= q /\ shown_data es = slice p q B.
Proof.
  revert p. induction es as [|[sequence data| |] es IH]; intros p; simpl.
  - intros -> _. by rewrite slice_nil.
  - intros (Hseq & Hd & Hs) Hl. destruct (IH _ Hs Hl) as [? Hx]. split; [lia|].
    unfold shown_data in *. simpl. rewrite Hx, Hd at 1. apply slice_app. lia.
  - done.
  - intros (_ & Hs) Hl. by apply IH.
Qed.

(** What the ring still holds was shown. *)
Lemma shows_kept B G p es q :
  shows B G p es q -> q <= len B ->
  p <= q /\ len (shown_data es) <= q - p /\ exists pre, shown_data es = pre ++ slice (p `max` (G `min` q)) q B.
Proof.
  intros Hs HB. revert p Hs. induction es as [|[sequence data|ra af|] es IH]; intros p; cbn [shows].
  - intros ->. split_and!; [done|rewrite N.sub_diag; done|]. exists []. replace (q `max` _) with q by lia. by rewrite slice_nil.
  - intros (<- & Hd & Hs). destruct (IH _ Hs) as (Hle & Hlen & pre & Hx). unfold shown_data in *. cbn [fmap list_fmap concat].
    rewrite len_app. split_and!; [lia..|]. destruct (N.le_gt_cases (p + len data) (G `min` q)).
    + exists (data ++ pre). rewrite Hx, app_assoc. f_equal. f_equal; lia.
    + replace (_ `max` (G `min` q)) with (p + len data) in Hx by lia.
      assert (pre = []) as ->.
      { apply (f_equal len) in Hx. rewrite len_app, len_slice in Hx. apply len_0. lia. }
      exists (slice p (p `max` (G `min` q)) B). rewrite (slice_app p _ q) by lia. rewrite Hx. cbn [app].
      rewrite <- (slice_app p (p + len data) q) by lia. by rewrite <- Hd.
  - intros (Haf & Hs). destruct (IH _ Hs) as (Hle & Hlen & pre & Hx).
    change (shown_data (SGap ra af :: es)) with (shown_data es). split_and!; [lia..|]. exists pre. rewrite Hx.
    f_equal. f_equal. lia.
  - intros (_ & Hs). by apply IH.
Qed.

(** ** The ring *)

Lemma read_loop_shows B G sf es p q from rem ctl evs upto ctl' :
  chain p es q -> (forall s d, Output s d ∈ es -> d = slice s (s + len d) B) ->
  p <= from <= q -> (from = sf \/ p = from) ->
  read_loop sf es from rem ctl = (evs, upto, ctl') -> shows_events B G from evs upto.
Proof.
  revert p from rem ctl evs. induction es as [|[s d|s i ev] es IH];
    intros p from rem ctl evs Hc HB Hp Hfp Hr; simpl in Hr.
  - by simplify_eq.
  - destruct Hc as (-> & Hne%len_pos & Hc). pose proof (chain_le _ _ _ Hc).
    assert (forall s d, Output s d ∈ es -> d = slice s (s + len d) B) as HB'
      by (intros; apply HB; by right).
    destruct (N.leb_spec (p + len d) from); [by eapply (IH (p + len d)); [done|done|lia|lia|exact Hr]|].
    destruct (N.eqb_spec rem 0); [by simplify_eq|].
    set (take := (len d - (from - p)) `min` rem) in *.
    assert (takeN take (dropN (from - p) d) = slice from (from + take) B /\
      len (takeN take (dropN (from - p) d)) = take) as [Hd Hl].
    { split; [|len_lia]. rewrite (HB p d) at 1 by by left.
      unfold slice. rewrite dropN_takeN, dropN_dropN, takeN_takeN. f_equal; [lia|f_equal; lia]. }
    destruct (N.ltb_spec take (len d - (from - p))).
    + simplify_eq. simpl. split_and!; [len_lia|done|done].
    + destruct (read_loop sf es (from + take) _ ctl) as [[evs' f] c] eqn:Hr'. simplify_eq. simpl.
      split_and!; [lia|done|]. eapply (IH (p + len d)); try done; lia.
  - destruct Hc as (-> & Hc).
    assert (forall s d, Output s d ∈ es -> d = slice s (s + len d) B) as HB'
      by (intros; apply HB; by right).
    destruct (_ <? sf); [by eapply (IH p)|]. destruct (N.ltb_spec from p); [by simplify_eq|].
    destruct (_ <=? ctl); [by eapply (IH p)|].
    destruct (read_loop sf es from rem i) as [[evs' f] c] eqn:Hr'. simplify_eq. simpl.
    split; [lia|]. by eapply (IH p).
Qed.

(** A read continues the history from its cursor to the next. *)
Lemma read_shows r log c m o :
  Repr r log -> read r c m = Ok o ->
  shows_events (log_bytes log) (available_from r) (after c) (events o) (after (next o)) /\ after (next o) <= nbytes log.
Proof.
  intros (gone & kept & -> & HR) Hr.
  destruct (read_spec_at _ _ _ _ _ _ HR Hr) as (_ & _ & Hn & _). split; [|lia].
  unfold read in Hr. destruct (N.ltb_spec (end_ r) (after c)); [done|].
  destruct (read_start r c) as [[gaps from] ctl] eqn:Hs.
  destruct (read_loop from (entries r) from m ctl) as [[evs from'] ctl'] eqn:Hl.
  injection Hr as <-. cbn [events next after].
  destruct (read_start_spec _ _ _ _ _ _ _ HR Hs) as (Hf & _ & _ & Hno & Hg).
  pose proof (repr_chain _ _ _ HR) as Hch. pose proof (chain_le _ _ _ Hch).
  pose proof (repr_end _ _ _ HR).
  rewrite (chain_available _ _ Hch). eapply (shows_events_app _ _ _ _ from).
  - destruct gaps as [|g gs]; [simpl; by destruct Hno|]. destruct Hg as [[= -> ->] _]; [done|].
    simpl. lia.
  - eapply read_loop_shows; [exact Hch|..|exact Hl]; [|lia|by left].
    intros s d. by apply ring_chunk.
Qed.

(** ** The output pump *)

Definition valid (f : SessionFrame) : Prop := validate f = Ok tt.

Lemma chunks_upto_spec fuel n d :
  0 < n -> (length d <= fuel)%nat ->
  concat (chunks_upto fuel n d) = d /\ Forall (fun c => len c <= n) (chunks_upto fuel n d).
Proof.
  intros Hn. revert d. induction fuel as [|fuel IH]; intros [|b d] Hf; simpl in *; try done; [lia|].
  destruct (IH (dropN n (b :: d))) as [Hc Hl].
  { unfold dropN. rewrite length_drop. simpl. lia. }
  rewrite Hc, takeN_dropN. split; [done|]. constructor; [len_lia|done].
Qed.

Lemma chunks_spec n d :
  0 < n -> concat (chunks n d) = d /\ Forall (fun c => len c <= n) (chunks n d).
Proof. intros Hn. by apply chunks_upto_spec. Qed.

Lemma numbered_shows B G p cs q :
  q = p + len (concat cs) -> concat cs = slice p q B ->
  shows_frames B G p ((fun c => FOutput (fst c) (snd c)) <$> numbered p cs) q.
Proof.
  revert p. induction cs as [|c cs IH]; intros p Hq Hd; simpl in *; [len_lia|].
  rewrite len_app in Hq.
  assert (c = slice p (p + len c) B /\ concat cs = slice (p + len c) q B) as [Hc Hcs].
  { assert (len (slice p (p + len c) B) = len c) as Hl.
    { apply (f_equal len) in Hd. rewrite len_app, len_slice in Hd. rewrite len_slice. lia. }
    rewrite <- (slice_app p (p + len c) q) in Hd by lia.
    apply app_inj_1 in Hd; [done|]. by apply Nat2N.inj. }
  split_and!; [done|done|]. apply IH; [lia|done].
Qed.

Lemma numbered_valid p cs :
  Forall (fun c => len c <= SESSION_CHUNK_MAX) cs ->
  Forall valid ((fun c => FOutput (fst c) (snd c)) <$> numbered p cs) /\
  Forall valid ((fun c => FInput (fst c) (snd c)) <$> numbered p cs).
Proof.
  intros H. revert p. induction H as [|c cs Hc _ IH]; intros p; simpl; [done|].
  destruct (IH (p + len c)). assert (check_chunk (len c) = Ok tt).
  { unfold check_chunk. by replace (_ <? len c) with false by lia. }
  split; by constructor.
Qed.

Lemma output_frames_spec B G p sequence data :
  p + len data = sequence -> data = slice p sequence B ->
  shows_frames B G p (output_frames sequence data) sequence /\ Forall valid (output_frames sequence data).
Proof.
  intros Hs Hd. destruct (chunks_spec SESSION_CHUNK_MAX data) as [Hc Hl]; [done|].
  unfold output_frames. replace (sequence - len data) with p by lia.
  split; [|by apply numbered_valid]. apply numbered_shows; rewrite Hc; [lia|done].
Qed.

(** The frames of one batch continue the stream; they reach the end of the
    batch unless a [Closed] ended the pump. *)
Lemma pump_shows B G p evs q :
  shows_events B G p evs q ->
  exists q', shows_frames B G p (b_frames (pump_events evs)) q' /\
    Forall valid (b_frames (pump_events evs)) /\ (b_closed (pump_events evs) = false -> q' = q).
Proof.
  revert p. induction evs as [|[sequence data| |sequence id ev] evs IH]; intros p; simpl.
  - intros ->. by exists q.
  - intros (Hs & Hd & H). destruct (IH _ H) as (q' & Hf & Hv & Hq).
    destruct (output_frames_spec B G p sequence data Hs Hd) as [Ho Hov].
    exists q'. split_and!; [by eapply shows_frames_app|by apply Forall_app|done].
  - intros (Ha & H). destruct (IH _ H) as (q' & Hf & Hv & Hq). exists q'.
    split_and!; [done..|by constructor|done].
  - intros (Hs & H). destruct (IH _ H) as (q' & Hf & Hv & Hq).
    destruct ev; simpl; [|by exists q'|by exists p].
    exists q'. split_and!; [done..|by constructor|done].
Qed.

(** ** The client's cursor *)

Lemma accept_output B G p L sequence data :
  p <= L -> L <= len B -> p + len data = sequence -> data = slice p sequence B ->
  exists L', sequence <= L' <= len B /\ L <= L' /\
    let '(l, kept) := accept L (AOutput sequence data) in
    l = L' /\ shows B G L (from_option (fun j => [j]) [] (kept ≫= attach_event_json)) L'.
Proof.
  intros Hp HL Hs Hd. simpl. destruct (N.leb_spec sequence L); [by exists L|].
  exists sequence. assert (sequence <= len B).
  { apply (f_equal len) in Hd. rewrite len_slice in Hd. lia. }
  split_and!; [lia..|done|]. simpl.
  assert (dropN (L - (sequence - len data)) data = slice L sequence B) as ->.
  { rewrite Hd at 2. rewrite dropN_slice. f_equal. lia. }
  rewrite len_slice. split_and!; [lia|done|done].
Qed.

(** ** The session's history only grows *)

Section Output.
Context {Emu : Type}.
Variable emu_feed : Emu -> list byte -> N -> Emu * list byte.
Variable emu_resize : Emu -> N -> N -> Emu.
Variable gap_text : N -> N -> string.

Abbreviation Sess := (Session Emu).
Abbreviation exec := (Session.exec emu_feed emu_resize).
Abbreviation step := (Attach.step emu_feed emu_resize gap_text).

(** The history grows, and what the ring has lost of it too. *)
Definition grows (s s' : Sess) : Prop :=
  hist s `prefix_of` hist s' /\
  (Repr (ring s) (hist s) -> Repr (ring s') (hist s') /\ available_from (ring s) <= available_from (ring s')).

#[local] Instance grows_preorder : PreOrder grows.
Proof.
  unfold grows. split; [by intros s|]. intros s1 s2 s3 [H1 R1] [H2 R2]. split; [by etrans|]. intros HR.
  destruct (R1 HR) as [HR2 ?]. destruct (R2 HR2). split; [done|lia].
Qed.

Lemma grows_refl s s' : hist s' = hist s -> ring s' = ring s -> grows s s'.
Proof. intros H Hr. unfold grows. by rewrite H, Hr. Qed.

Lemma grows_control s s' ev :
  hist s' = hist s ++ [ACtl ev] -> ring s' = fst (push_control (ring s) ev) -> grows s s'.
Proof.
  intros Hh Hr. unfold grows. rewrite Hh, Hr. split; [by eexists|]. intros HR.
  split; [by apply push_control_Repr|by eapply push_control_available].
Qed.

Lemma grows_output s s' data :
  hist s' = hist s ++ map AByte data -> ring s' = push (ring s) data -> grows s s'.
Proof.
  intros Hh Hr. unfold grows. rewrite Hh, Hr. split; [by eexists|]. intros HR.
  split; [by apply push_spec|by eapply push_available].
Qed.

Lemma fold_reply_ring rs (s : Sess) :
  ring (fold_left (fun st r => reply (fst r) (snd r) st) rs s) = ring s.
Proof. revert s. induction rs as [|r rs IH]; intros s; [done|]. simpl. by rewrite IH. Qed.

Lemma grows_finalise s : grows s (finalise s).
Proof.
  unfold finalise. match goal with |- context [fold_left _ ?rs ?x] =>
    destruct (fold_reply_frame rs x) as (_ & _ & _ & _ & Hh & _); pose proof (fold_reply_ring rs x) as Hr end.
  by eapply grows_control; [rewrite Hh|rewrite Hr].
Qed.

Lemma grows_loop_top s : grows s (loop_top s).
Proof.
  unfold loop_top. assert (grows s (append_exit s)) as H.
  { unfold append_exit. destruct (_ && _); [by eapply grows_control|by apply grows_refl]. }
  destruct (a_closing _); [|done]. destruct (_ || _); [|done]. etrans; [exact H|apply grows_finalise].
Qed.

Lemma grows_handle cmd res s : grows s (handle_command emu_resize cmd res s).
Proof.
  destruct cmd; cbn [handle_command].
  - apply grows_refl; unfold enqueue_write, try_send; by repeat (case_match; try done; simplify_eq).
  - apply grows_refl; unfold control_resize, resize_screen; by destruct (is_ok res); simpl; destruct (screen s).
  - apply grows_refl; (destruct (negb _); [done|]); unfold control_resize, resize_screen;
    by destruct (is_ok res); simpl; destruct (screen s).
  - apply grows_refl; by destruct (_ && _).
  - destruct (Lease.take_owned _ _ _ _ _) as [[d [|]|h] l]; [by eapply grows_control|by apply grows_refl..].
  - destruct (Lease.release_connection _ _) as [[h|] l]; [|by apply grows_refl].
    case_bool_decide; by eapply grows_control.
  - apply grows_refl; unfold begin_close; (destruct (a_closing _); [done|]); by destruct (bool_decide _ || _).
Qed.

Lemma grows_pump_read data s : grows s (pump_read emu_feed data s).
Proof.
  unfold pump_read, feed_screen, try_send.
  destruct (screen s); [destruct (emu_feed _ _ _) as [? []]|]; simpl; try by eapply grows_output.
  destruct (alive s); simpl; [|by eapply grows_output]. destruct (_ <? _); by eapply grows_output.
Qed.

Lemma exec_grows s e s' : exec s e = Some s' -> grows s s'.
Proof.
  intros He. destruct e; cbn [Session.exec] in He.
  - case_match; [|done]. injection He as <-. apply grows_pump_read.
  - case_match; [|done]. injection He as <-. by apply grows_refl.
  - case_match; [|done]. injection He as <-. by apply grows_refl.
  - case_match; [|done]. injection He as <-. etrans; [|apply grows_loop_top]. by apply grows_refl.
  - case_match; [|done]. injection He as <-. etrans; [|apply grows_loop_top]. by apply grows_refl.
  - case_match; [|done]. injection He as <-. etrans; [|apply grows_loop_top]. apply grows_handle.
  - destruct (a_closing (act s)) as [c|] eqn:Ec; [|done]. case_match; [|done]. injection He as <-.
    etrans; [|apply grows_loop_top]. unfold escalate. rewrite Ec. by destruct (next_sig c); apply grows_refl.
  - case_match; [|done]. injection He as <-. apply grows_finalise.
  - destruct (in_q s), (writing s); try done. destruct (alive s); [|done].
    injection He as <-. by apply grows_refl.
  - destruct (writing s) as [c|]; [|done]. injection He as <-. unfold writer_done.
    by destruct (ch_resp c); apply grows_refl.
  - destruct (writing s) as [c|]; [|done]. destruct (alive s); [done|]. injection He as <-.
    by destruct (ch_resp c); apply grows_refl.
  - injection He as <-. by apply grows_refl.
  - case_match; [|done]. injection He as <-. by apply grows_refl.
  - injection He as <-. by apply grows_refl.
  - injection He as <-. by apply grows_refl.
  - injection He as <-. by apply grows_refl.
Qed.

(** ** The invariant *)

Definition output_of (y : System Emu) : list byte := log_bytes (hist (y_sess y)).
(** How many bytes of it the ring has lost so far. *)
Definition lost_of (y : System Emu) : N := available_from (ring (y_sess y)).

(** A leg's frames in flight continue from an offset the client has reached
    to the pump's cursor. *)
Definition leg_shows (B : list byte) (G L : N) (l : Leg) : Prop :=
  exists p q, p <= L /\ shows_frames B G p (l_down l) q /\ Forall valid (l_down l) /\
    after (o_cursor (l_out l)) <= len B /\
    (o_over (l_out l) = false -> q = after (o_cursor (l_out l))).

Record OutInv (y : System Emu) : Prop := {
  oi_sess : Inv (y_sess y);
  oi_shown : shows (output_of y) (lost_of y) 0 (c_shown (y_client y)) (c_last_seq (y_client y));
  oi_last : c_last_seq (y_client y) <= len (output_of y);
  oi_leg : forall l, y_legs y !! 0%nat = Some l -> leg_shows (output_of y) (lost_of y) (c_last_seq (y_client y)) l;
  oi_ticket : forall t, y_ticket y = Some t -> t_replay_from t <= c_last_seq (y_client y);
  oi_whole : c_broken (y_client y) = false;
}.

Lemma leg_shows_grows B G C G' L l : G <= G' -> leg_shows B G L l -> leg_shows (B ++ C) G' L l.
Proof.
  intros HG (p & q & Hp & Hs & Hv & Hc & Hq). exists p, q. split_and!; try done; [|len_lia].
  by eapply shows_frames_grows.
Qed.

(** A step of the session leaves the invariant alone. *)
Lemma OutInv_sess y s legs c head ticket rec resp typed ours :
  OutInv y -> Inv s -> grows (y_sess y) s ->
  c_shown c = c_shown (y_client y) -> c_last_seq c = c_last_seq (y_client y) -> c_broken c = false ->
  (forall l, legs !! 0%nat = Some l -> leg_shows (output_of y) (lost_of y) (c_last_seq c) l) ->
  (forall t, ticket = Some t -> t_replay_from t <= c_last_seq c) ->
  OutInv (mkSystem s legs c head ticket rec resp typed ours).
Proof.
  intros [HI Hs Hl _ _ _] HI' [[more Hm] Hg] Hsh Hla Hb Hlegs Ht.
  destruct (Hg (core_repr _ (inv_core _ HI))) as [_ HG].
  assert (output_of (mkSystem s legs c head ticket rec resp typed ours) =
    output_of y ++ log_bytes more) as HB by (unfold output_of; simpl; by rewrite Hm, log_bytes_app).
  split; cbn [y_sess y_legs y_client y_ticket]; rewrite ?HB, ?Hsh, ?Hla; try done.
  - by eapply shows_grows.
  - len_lia.
  - intros l Hl0. rewrite <- Hla. by eapply leg_shows_grows, Hlegs.
  - by rewrite <- Hla.
Qed.

(** Replacing a leg by one with the same frames in flight and pump. *)
Lemma leg_insert (P : Leg -> Prop) (legs : list Leg) i (l l' : Leg) :
  legs !! i = Some l -> (P l -> P l') -> (forall x, legs !! 0%nat = Some x -> P x) ->
  forall x, <[i := l']> legs !! 0%nat = Some x -> P x.
Proof.
  intros Hi Hll H x Hx. apply list_lookup_insert_Some in Hx as [(-> & <- & _)|(_ & Hx)]; [|by apply H].
  apply Hll, H, Hi.
Qed.

Lemma leg_shows_same B G L l l' :
  l_down l' = l_down l -> l_out l' = l_out l -> leg_shows B G L l -> leg_shows B G L l'.
Proof. unfold leg_shows. by intros -> ->. Qed.

Lemma leg_shows_ack B G L n l : leg_shows B G L l -> leg_shows B G L (set_applied n l).
Proof.
  intros (p & q & Hp & Hs & Hv & Hc & Hq). exists p, q. cbn [set_applied l_down l_out].
  split_and!; try done; [by eapply shows_frames_app|]. apply Forall_app. split; [done|by repeat constructor].
Qed.

Lemma leg_shows_fault B G L f l : leg_shows B G L l -> leg_shows B G L (set_fault f l).
Proof. intros (p & q & ? & ? & ? & ? & _). by exists p, q. Qed.

Lemma leg_shows_answer B G L w r l : leg_shows B G L l -> leg_shows B G L (answer_write w r l).
Proof.
  intros H. unfold answer_write.
  destruct (w_copy w); [destruct r|destruct (input_answer _ _ _)];
    auto using leg_shows_ack, leg_shows_fault.
Qed.

Lemma leg_shows_resized B G L r l : leg_shows B G L l -> leg_shows B G L (answer_resize r l).
Proof. unfold answer_resize. destruct (resize_answer r); auto using leg_shows_fault. Qed.

(** A step that replaces leg [i] and may move the session. *)
Lemma OutInv_leg y s i l l' resp :
  OutInv y -> Inv s -> grows (y_sess y) s -> y_legs y !! i = Some l ->
  (leg_shows (output_of y) (lost_of y) (c_last_seq (y_client y)) l ->
   leg_shows (output_of y) (lost_of y) (c_last_seq (y_client y)) l') ->
  OutInv (mkSystem s (<[i := l']> (y_legs y)) (y_client y) (y_head y) (y_ticket y) (y_recovering y)
    resp (y_typed y) (y_ours y)).
Proof.
  intros HO HI Hg Hi Hl. apply (OutInv_sess y); try done; [apply HO| |apply HO].
  apply (leg_insert _ _ _ _ _ Hi Hl), (oi_leg _ HO).
Qed.

Ltac out_leg y :=
  unfold with_legs, with_sess;
  cbn [y_sess y_legs y_client y_head y_ticket y_recovering y_resp y_typed y_ours];
  eapply (OutInv_leg y).

Lemma OutInv_write_at i l l' data seq copy y :
  OutInv y -> y_legs y !! i = Some l -> l_down l' = l_down l -> l_out l' = l_out l ->
  OutInv (write_at emu_feed emu_resize i l' data seq copy y).
Proof.
  intros HO Hi Hd Ho. unfold write_at.
  assert (forall w r, leg_shows (output_of y) (lost_of y) (c_last_seq (y_client y)) l ->
    leg_shows (output_of y) (lost_of y) (c_last_seq (y_client y)) (answer_write w r l')) as Ha.
  { intros w r H. by eapply leg_shows_answer, leg_shows_same, H. }
  destruct (found _); [destruct (exec _ _) as [s|] eqn:E|].
  - out_leg y; [done|by eapply Inv_exec; [apply HO|]|by eapply exec_grows|done|].
    by apply leg_shows_same.
  - out_leg y; try done; [apply HO|apply Ha].
  - out_leg y; try done; [apply HO|apply Ha].
Qed.

Lemma OutInv_resize_at i l l' cols rows res y :
  OutInv y -> y_legs y !! i = Some l -> l_down l' = l_down l -> l_out l' = l_out l ->
  OutInv (resize_at emu_feed emu_resize gap_text i l' cols rows res y).
Proof.
  intros HO Hi Hd Ho. unfold resize_at.
  assert (forall r, leg_shows (output_of y) (lost_of y) (c_last_seq (y_client y)) l ->
    leg_shows (output_of y) (lost_of y) (c_last_seq (y_client y)) (answer_resize r l')) as Ha.
  { intros r H. by eapply leg_shows_resized, leg_shows_same, H. }
  destruct (found _); [destruct (exec _ _) as [s|] eqn:E|].
  - out_leg y; [done|by eapply Inv_exec; [apply HO|]|by eapply exec_grows|done|apply Ha].
  - out_leg y; try done; [apply HO|apply Ha].
  - out_leg y; try done; [apply HO|apply Ha].
Qed.

Lemma OutInv_deliver i res y y' : OutInv y -> deliver emu_feed emu_resize gap_text i res y = Some y' -> OutInv y'.
Proof.
  intros HO. unfold deliver. destruct (y_legs y !! i) as [l|] eqn:Hi; [|done]. simpl.
  destruct (l_up l) as [|f up]; [done|]. destruct (l_waiting l); [done|].
  destruct (running l); [|done]. intros [= <-].
  destruct (input_frame _ _).
  - by eapply OutInv_write_at.
  - by eapply OutInv_resize_at.
  - out_leg y; try done. apply HO.
  - out_leg y; try done; [apply HO|]. intros H. apply leg_shows_fault. by eapply leg_shows_same, H.
Qed.

(** The output pump continues where its frames left off. *)
Lemma OutInv_pull i y y' : OutInv y -> pull i y = Some y' -> OutInv y'.
Proof.
  intros HO. unfold pull. destruct (y_legs y !! i) as [l|] eqn:Hi; [|done]. simpl.
  destruct (running l) eqn:Hr; [|done]. unfold running in Hr. apply andb_true_iff in Hr as [Hr _].
  apply negb_true_iff in Hr. unfold output_round.
  destruct (read _ _ _) as [out|] eqn:Er; intros [= <-]; (out_leg y; [done|apply HO|done|done|]);
    intros (p & q & Hp & Hs & Hv & Hc & Hq); specialize (Hq Hr).
  - destruct (read_shows _ _ _ _ _ (core_repr _ (inv_core _ (oi_sess _ HO))) Er) as [Hsh Hn].
    apply pump_shows in Hsh as (q' & Hf & Hv' & Hq'). rewrite <- Hq in Hf.
    exists p, q'. cbn [set_out l_down l_out o_cursor o_over]. split_and!; [done|..].
    + by eapply shows_frames_app.
    + by apply Forall_app.
    + unfold output_of. by rewrite log_bytes_len.
    + intros [Hb _]%orb_false_iff. by apply Hq'.
  - exists p, q. cbn [set_out l_down l_out o_cursor o_over]. by rewrite app_nil_r.
Qed.

(** The client takes one frame off its leg. *)
Lemma read_event_shows B G c e p L' :
  shows B G 0 (c_shown c) (c_last_seq c) ->
  (let '(l, kept) := accept (c_last_seq c) e in
   l = L' /\ shows B G (c_last_seq c) (from_option (fun j => [j]) [] (kept ≫= attach_event_json)) L') ->
  p <= L' ->
  shows B G 0 (c_shown (read_event e c)) (c_last_seq (read_event e c)) /\
  p <= c_last_seq (read_event e c) /\ c_last_seq (read_event e c) = L' /\
  c_broken (read_event e c) = c_broken c.
Proof.
  intros Hs Ha Hp. unfold read_event. destruct (accept (c_last_seq c) e) as [l kept].
  destruct Ha as [-> Ha].
  destruct e; simpl; (split_and!; try done; eapply shows_app; [exact Hs|]);
    by destruct (kept ≫= attach_event_json).
Qed.

Lemma recv_shows B G c f p q down :
  shows B G 0 (c_shown c) (c_last_seq c) -> c_last_seq c <= len B -> G <= len B -> p <= c_last_seq c ->
  shows_frames B G p (f :: down) q ->
  match read_frame f with
  | Ok None => shows_frames B G p down q
  | Ok (Some e) =>
      shows B G 0 (c_shown (read_event e c)) (c_last_seq (read_event e c)) /\
      c_last_seq (read_event e c) <= len B /\ c_broken (read_event e c) = c_broken c /\
      exists p', p' <= c_last_seq (read_event e c) /\ shows_frames B G p' down q
  | Err _ => ~ valid f
  end.
Proof.
  intros Hs HL HG Hp Hf. unfold read_frame. destruct (validate f) as [[]|] eqn:Ev; [|unfold valid; congruence].
  destruct f as [sequence data|?|n|ra af|?|fs code sig]; simpl in Hf; try done.
  - destruct Hf as (Hq & Hd & Hf).
    destruct (accept_output B G p (c_last_seq c) sequence data Hp HL Hq Hd) as (L' & ? & ? & Ha).
    destruct (read_event_shows B G c _ sequence L' Hs Ha) as (? & ? & Heq & ?); [lia|].
    split_and!; try done; [lia|]. exists sequence. split; [lia|done].
  - destruct (read_event_shows B G c (AInputAck n) p (c_last_seq c) Hs) as (? & ? & Heq & ?); [done|lia|].
    split_and!; try done; try lia. by exists p.
  - destruct Hf as (Haf & Hf).
    destruct (read_event_shows B G c (AGap ra af) (p `max` af) (c_last_seq c `max` af) Hs)
      as (? & ? & Heq & ?); [cbn; split_and!; [done|lia|done]|lia|].
    split_and!; try done; [lia|]. exists (p `max` af). split; [lia|done].
  - destruct Hf as (Hle & Hf).
    destruct (read_event_shows B G c (AExit fs code sig) p (c_last_seq c) Hs) as (? & ? & Heq & ?);
      [cbn [accept mbind option_bind attach_event_json from_option shows]; split_and!; lia|lia|].
    split_and!; try done; try lia. by exists p.
Qed.

Lemma lost_bound y : OutInv y -> lost_of y <= len (output_of y).
Proof.
  intros HO. destruct (core_repr _ (inv_core _ (oi_sess _ HO))) as (gone & kept & Hh & HR). unfold lost_of, output_of.
  rewrite (chain_available _ _ (repr_chain _ _ _ HR)), log_bytes_len, Hh, nbytes_app. lia.
Qed.

Lemma OutInv_recv y y' : OutInv y -> recv y = Some y' -> OutInv y'.
Proof.
  intros HO. unfold recv. destruct (y_legs y !! 0%nat) as [l|] eqn:Hl; [|done]. simpl.
  destruct (_ || _); [done|]. destruct (l_down l) as [|f down] eqn:Ed; [done|]. intros [= <-].
  destruct (oi_leg _ HO l Hl) as (p & q & Hp & Hs & Hv & Hc & Hq). rewrite Ed in Hs, Hv.
  apply Forall_cons in Hv as [Hvf Hv].
  pose proof (recv_shows _ _ _ _ _ _ _ (oi_shown _ HO) (oi_last _ HO) (lost_bound _ HO) Hp Hs) as Hr.
  assert (forall c', shows (output_of y) (lost_of y) 0 (c_shown c') (c_last_seq c') ->
    c_last_seq c' <= len (output_of y) -> c_broken c' = false -> c_last_seq (y_client y) <= c_last_seq c' ->
    (exists p', p' <= c_last_seq c' /\ shows_frames (output_of y) (lost_of y) p' down q) ->
    OutInv (with_client c' (with_legs (<[0%nat := set_down down l]> (y_legs y)) y))) as Hc'.
  { intros c' ? ? ? ? (p' & Hp' & Hs'). split; cbn [with_client with_legs y_sess y_client y_legs y_ticket]; try done.
    - apply HO.
    - intros x Hx. rewrite list_lookup_insert_eq in Hx by by eapply lookup_lt_Some. injection Hx as <-.
      by exists p', q.
    - intros t Ht. pose proof (oi_ticket _ HO t Ht). lia. }
  destruct (read_frame f) as [[e|]|] eqn:Er; [|apply Hc'; try apply HO; [done|by exists p]|done].
  destruct Hr as (Hs1 & Hl1 & Hb & Hp').
  apply Hc'; try done; [rewrite Hb; apply HO|].
  unfold read_event. destruct e as [sq d| | |]; simpl; [|lia..].
  destruct (N.leb_spec sq (c_last_seq (y_client y))); simpl; lia.
Qed.

(** A data stream that opens starts at an offset the client has reached. *)
Lemma rejoin_output t sent c c' up copies complete :
  rejoin t sent c = (c', up, copies, complete) ->
  c_shown c' = c_shown c /\ c_last_seq c' = c_last_seq c /\ c_broken c' = c_broken c.
Proof.
  unfold rejoin. destruct sent as [n|]; [|by intros [= <- <- <- <-]].
  destruct (pending_rebase _ _) as [[p replay]|e]; by intros [= <- <- <- <-].
Qed.

Lemma OutInv_open principal conn physical no_steal sent y y' :
  OutInv y -> open_stream emu_feed emu_resize principal conn physical no_steal sent y = Some y' -> OutInv y'.
Proof.
  intros HO. unfold open_stream. destruct (y_ticket y) as [t|] eqn:Et; [|done].
  cbn [mbind option_bind].
  destruct (found _); [|done]. destruct (exec _ _) as [s|] eqn:E; [|done]. cbn [option_bind].
  assert (Inv s) by (by eapply Inv_exec; [apply HO|]). apply exec_grows in E.
  destruct (fst _).
  - destruct (rejoin t sent (y_client y)) as [[[c up] copies] complete] eqn:Er. intros [= <-].
    apply rejoin_output in Er as (? & Hl & Hb).
    apply (OutInv_sess y); try done; [rewrite Hb; apply HO|]. intros l [= <-].
    pose proof (oi_ticket _ HO t Et). pose proof (oi_last _ HO).
    exists (t_replay_from t), (t_replay_from t). simpl. rewrite Hl. split_and!; try done; lia.
  - intros [= <-]. apply (OutInv_sess y); try done; apply HO.
Qed.

Lemma OutInv_reattach y y' : OutInv y -> reattach y = Some y' -> OutInv y'.
Proof.
  intros HO Hr. pose proof (reattach_steps emu_feed emu_resize _ _ Hr) as He.
  apply Inv_exec_all in He as HI; [|apply HO]. clear He.
  unfold reattach in Hr. destruct (found _); [|done]. injection Hr as <-.
  apply (OutInv_sess y); try done; [apply HO|apply HO|].
  intros t [= <-]. cbn [t_replay_from c_last_seq]. lia.
Qed.

Lemma OutInv_step y a y' : OutInv y -> step y a = Some y' -> OutInv y'.
Proof.
  intros HO. destruct a; cbn [Attach.step].
  - destruct (foreign y e); [|done]. destruct (exec _ _) as [s|] eqn:E; [|done]. intros [= <-].
    apply (OutInv_sess y); try done; try apply HO; [by eapply Inv_exec; [apply HO|]|by eapply exec_grows].
  - unfold type_input. destruct (y_legs y !! 0%nat) as [l|] eqn:Hl; [|done]. simpl.
    destruct (c_writer _); [|done]. simpl. destruct (y_recovering y); [done|].
    destruct (pending_push _ _); intros [= <-]; apply (OutInv_sess y); try done; try apply HO.
    eapply (leg_insert _ _ _ _ _ Hl); [|apply HO]. by apply leg_shows_same.
  - unfold resize_window. destruct (y_legs y !! 0%nat) as [l|] eqn:Hl; [|done]. simpl.
    destruct (c_writer _); [|done]. simpl. destruct (_ || _); [done|].
    intros [= <-]. apply (OutInv_sess y); try done; try apply HO.
    eapply (leg_insert _ _ _ _ _ Hl); [|apply HO]. by apply leg_shows_same.
  - by apply OutInv_deliver.
  - unfold deliver_copy. destruct (y_legs y !! i) as [l|] eqn:Hi; [|done]. simpl.
    destruct (l_copies l !! k) as [[sq d]|]; [|done]. simpl. destruct (_ && _); [|done].
    intros [= <-]. by eapply OutInv_write_at.
  - unfold answer. destruct (y_legs y !! i) as [l|] eqn:Hi; [|done]. simpl.
    destruct (l_waiting l); [|done]. simpl. destruct (write_reply _ _); [|done]. simpl.
    destruct (running l); [|done]. intros [= <-]. out_leg y; try done; [apply HO|]. apply leg_shows_answer.
  - by apply OutInv_pull.
  - unfold cut. destruct (y_legs y !! i) as [l|] eqn:Hi; [|done]. intros [= <-].
    out_leg y; try done; [apply HO|]. intros (p & q & ? & ? & ? & ? & _). exists p, q.
    simpl. by rewrite app_nil_r.
  - by apply OutInv_recv.
  - by apply OutInv_reattach.
  - by apply OutInv_open.
Qed.

Lemma OutInv_opened config emu t : OutInv (opened config emu t).
Proof. split; try done; [apply Inv_create|]. by intros ? [= <-]. Qed.

Lemma throughout_true y acts : throughout emu_feed emu_resize gap_text (fun _ _ => True) y acts.
Proof. revert y. induction acts as [|a acts IH]; intros y; simpl; auto. Qed.

End Output.

(** ** Properties *)

(** C4: Output reaches the frontend exactly once, in order, across
    reconnections.  Take any run of an attach: the session producing output,
    its pumps, frames in flight that are delivered late or never, connections
    lost and resumed any number of times, other clients.  What the frontend
    was handed continues the session's output from its first byte to the
    client's cursor without repeating or reordering any: each chunk carries
    exactly the bytes that follow the previous one, a gap passes only over
    bytes the ring has lost, and an exit is reported only after all the output
    before it.  So every byte before the cursor that the ring still holds was
    handed over, as the end of the data; without a gap the data is exactly the
    output up to the cursor; a client that drained a leg whose pump reached the
    end has its cursor at the end; and the client never meets a frame it must
    refuse. *)
Theorem output_exactly_once {Emu : Type} (emu_feed : Emu -> list byte -> N -> Emu * list byte)
    (emu_resize : Emu -> N -> N -> Emu) gap_text config emu t acts y :
  run emu_feed emu_resize gap_text (opened config emu t) acts = Some y ->
  let shown := c_shown (y_client y) in
  let reached := c_last_seq (y_client y) in
  shows (output_of y) (lost_of y) 0 shown reached /\ reached <= len (output_of y) /\
  (exists pre, shown_data shown = pre ++ slice (lost_of y `min` reached) reached (output_of y)) /\
  (existsb is_lost shown = false -> shown_data shown = takeN reached (output_of y)) /\
  (forall l, y_legs y !! 0%nat = Some l -> l_down l = [] -> o_over (l_out l) = false ->
     after (o_cursor (l_out l)) = len (output_of y) -> reached = len (output_of y)) /\
  c_broken (y_client y) = false.
Proof.
  intros Hr. assert (OutInv y) as HO.
  { eapply (run_ind emu_feed emu_resize gap_text OutInv (fun _ _ => True));
      [|apply OutInv_opened|apply throughout_true|exact Hr]. intros y0 a y1 H _. by apply OutInv_step. }
  split_and!; [apply HO..| | | |apply HO].
  - destruct (shows_kept _ _ _ _ _ (oi_shown _ HO) (oi_last _ HO)) as (_ & _ & pre & Hx). exists pre. by rewrite N.max_0_l in Hx.
  - intros Hg. destruct (shows_exact _ _ _ _ _ (oi_shown _ HO) Hg) as [_ ->].
    unfold slice. by rewrite N.sub_0_r.
  - intros l Hl Hd Ho Hc. destruct (oi_leg _ HO l Hl) as (p & q & Hp & Hs & _ & _ & Hq).
    rewrite Hd in Hs. simpl in Hs. specialize (Hq Ho). pose proof (oi_last _ HO). lia.
Qed.

(** An attach that shows two chunks, loses its connection with a third in
    flight, and resumes. *)
Definition demo_feed : unit -> list byte -> N -> unit * list byte := fun e _ _ => (e, []).
Definition demo_resize : unit -> N -> N -> unit := fun e _ _ => e.
Definition demo_gap : N -> N -> string := fun _ _ => EmptyString.
Definition demo_output : list Action :=
  [OpenStream "device:a" 7 7 false (Some 0%nat); Env (PumpRead [x61; x62]); Pull 0; Recv;
   Env (PumpRead [x63]); Pull 0; Recv; Env (PumpRead [x64]); Pull 0; Cut 0; Reattach;
   OpenStream "device:a" 8 8 false (Some 0%nat); Env (PumpRead [x65]); Pull 0; Recv; Recv].
Definition demo_shown : System unit := Eval vm_compute in
  default (opened default_config tt 0)
    (run demo_feed demo_resize demo_gap (opened default_config tt 0) demo_output).

Lemma output_exactly_once_witness :
  run demo_feed demo_resize demo_gap (opened default_config tt 0) demo_output = Some demo_shown /\
  shown_data (c_shown (y_client demo_shown)) = [x61; x62; x63; x64; x65] /\
  c_last_seq (y_client demo_shown) = len (output_of demo_shown).
Proof.
  assert (run demo_feed demo_resize demo_gap (opened default_config tt 0) demo_output = Some demo_shown)
    as Hr by (vm_compute; reflexivity).
  destruct (output_exactly_once demo_feed demo_resize demo_gap default_config tt 0 demo_output demo_shown Hr)
    as (_ & _ & _ & Hd & Hq & _).
  split; [exact Hr|]. split.
  - rewrite Hd by (vm_compute; reflexivity). vm_compute. reflexivity.
  - eapply Hq; [vm_compute; reflexivity..].
Defined.

End AttachOutput.
