(* ===== verification/AttachAnswers.v ===== *)
(** * What the session tells its writers

    Facts about the session actor of [Session] that the input direction of an
    attach rests on: which answers a write can get, now or later; who can put
    chunks on an input stream and how far a stream can move; and the order in
    which stream ids are issued. *)

From S2P Require Import Prelude Ring Lease Signal Session SessionLife SessionInput.

Module AttachAnswers.
Import Ring Session SessionInput.

(** ** The session's answers

    Every answer to a write, given or still to come, satisfies [ok]. *)

Section Session.
Context {Emu : Type}.
Variable emu_feed : Emu -> list byte -> N -> Emu * list byte.
Variable emu_resize : Emu -> N -> N -> Emu.

Abbreviation Sess := (Session Emu).
Abbreviation exec := (Session.exec emu_feed emu_resize).

Section Tells.
Variable ok : Resp -> result N WriteError -> Prop.
(** A chunk that was let in may still be lost with the session. *)
Hypothesis ok_lost : forall r k, ok r (Ok k) -> ok r (Err Gone) /\ forall e, ok r (Err (Io e)).

Definition tells (s : Sess) : Prop :=
  (forall r x, (r, RWrite x) ∈ replies s -> ok r x) /\
  (forall c r, c ∈ pending s -> ch_resp c = Some r -> ok r (Ok (ch_applied c))).

Lemma tells_sub s s' :
  (forall r x, (r, RWrite x) ∈ replies s' -> (r, RWrite x) ∈ replies s) ->
  (forall c, c ∈ pending s' -> c ∈ pending s \/ ch_resp c = None) -> tells s -> tells s'.
Proof.
  intros Hr Hp [H1 H2]. split; [auto|]. intros c r Hc Hres.
  destruct (Hp c Hc) as [?|?]; [eauto|congruence].
Qed.

Lemma tells_same s s' : replies s' = replies s -> pending s' = pending s -> tells s -> tells s'.
Proof. intros Hr Hp. apply tells_sub; [by rewrite Hr|rewrite Hp; auto]. Qed.

Lemma tells_reply r x s : (forall v, x = RWrite v -> ok r v) -> tells s -> tells (reply r x s).
Proof.
  intros Hx [H1 H2]. split; [|done]. intros r' v. cbn [reply replies].
  intros [?|[= -> <-]%list_elem_of_singleton]%elem_of_app; auto.
Qed.

Lemma tells_replies rs s :
  (forall r v, (r, RWrite v) ∈ rs -> ok r v) -> tells s ->
  tells (fold_left (fun st r => reply (fst r) (snd r) st) rs s).
Proof.
  revert s. induction rs as [|[r x] rs IH]; intros s Hrs Hs; [done|]. cbn [fold_left]. apply IH.
  - intros r' v Hin. apply Hrs. by right.
  - apply tells_reply; [|done]. simpl. intros v ->. apply Hrs. by left.
Qed.

Lemma tells_finalise s : tells s -> tells (finalise s).
Proof.
  intros Hs. unfold finalise. apply tells_replies.
  - intros r v [Hin|Hin]%elem_of_app; [|by apply list_elem_of_fmap in Hin as (? & [= ] & _)].
    apply list_elem_of_omap in Hin as (c & Hc & Hr). destruct (ch_resp c) as [r'|] eqn:Er; [|done].
    simpl in Hr. simplify_eq. eapply ok_lost, (proj2 Hs); [|exact Er].
    apply elem_of_app. by right.
  - revert Hs. apply tells_sub; [done|]. intros c Hc. left. unfold pending in *. simpl in Hc.
    rewrite app_nil_r in Hc. apply elem_of_app. by left.
Qed.

Lemma tells_loop_top s : tells s -> tells (loop_top s).
Proof.
  intros Hs. unfold loop_top.
  assert (tells (append_exit s)) as H1 by (revert Hs; unfold append_exit; destruct (_ && _); auto; by apply tells_same).
  destruct (a_closing _); [|done]. destruct (_ || _); [by apply tells_finalise|done].
Qed.

Lemma tells_try_send c s s' :
  (forall r, ch_resp c = Some r -> ok r (Ok (ch_applied c))) -> try_send c s = Sent s' -> tells s -> tells s'.
Proof.
  unfold try_send. intros Hc. destruct (negb _); [done|]. destruct (_ <? _); [|done]. intros [= <-] [H1 H2].
  split; [done|]. intros c' r Hin. unfold pending in *. cbn [enqueue writing in_q] in Hin.
  rewrite app_assoc in Hin. apply elem_of_app in Hin as [Hin|Hin]; [eauto|].
  apply list_elem_of_singleton in Hin as ->. eauto.
Qed.

Lemma tells_handle cmd res s :
  (forall conn d q r, cmd = Write conn d q r -> tells (enqueue_write conn d q r s)) ->
  tells s -> tells (handle_command emu_resize cmd res s).
Proof.
  intros Hw Hs. destruct cmd; cbn [handle_command].
  - by apply Hw.
  - apply tells_reply; [done|]. revert Hs. apply tells_same;
      unfold control_resize, resize_screen; by destruct (is_ok res); simpl; destruct (screen s).
  - destruct (negb _); (apply tells_reply; [done|]); [done|]. revert Hs. apply tells_same;
      unfold control_resize, resize_screen; by destruct (is_ok res); simpl; destruct (screen s).
  - destruct (_ && _); (apply tells_reply; [done|]); [|done]. revert Hs. by apply tells_same.
  - destruct (Lease.take_owned _ _ _ _ _) as [[d [|]|h] l]; (apply tells_reply; [done|]); revert Hs; by apply tells_same.
  - destruct (Lease.release_connection _ _) as [[h|] l]; (apply tells_reply; [done|]); revert Hs;
      [|by apply tells_same]. case_bool_decide; by apply tells_same.
  - revert Hs. unfold begin_close. destruct (a_closing _); [by apply tells_same|].
    destruct (bool_decide _ || _); by apply tells_same.
Qed.

Lemma tells_pump_read data s : tells s -> tells (pump_read emu_feed data s).
Proof.
  intros Hs. unfold pump_read. destruct (feed_screen emu_feed data s) as [s1 answers] eqn:E.
  assert (tells (upd_ring (Ring.push (ring s1) data) (map AByte data) s1)) as H1.
  { revert Hs. unfold feed_screen in E. destruct (screen s); [destruct (emu_feed _ _ _)|]; simplify_eq; by apply tells_same. }
  destruct answers; [done|]. destruct (try_send _ _) eqn:Et; [|done..].
  by eapply tells_try_send; [|exact Et|exact H1].
Qed.

Lemma tells_exec s e s' :
  exec s e = Some s' ->
  (forall conn d q r res, e = Cmd (Write conn d q r) res -> tells (enqueue_write conn d q r s)) ->
  tells s -> tells s'.
Proof.
  intros He Hw Hs. destruct e; cbn [Session.exec] in He.
  - case_match; [|done]. injection He as <-. by apply tells_pump_read.
  - case_match; [|done]. injection He as <-. revert Hs. by apply tells_same.
  - case_match; [|done]. injection He as <-. revert Hs. by apply tells_same.
  - case_match; [|done]. injection He as <-. apply tells_loop_top. revert Hs. by apply tells_same.
  - case_match; [|done]. injection He as <-. apply tells_loop_top. revert Hs. by apply tells_same.
  - case_match; [|done]. injection He as <-. apply tells_loop_top, tells_handle; [|done].
    intros conn d q r ->. by eapply Hw.
  - destruct (a_closing (act s)) as [c|] eqn:Ec; [|done]. case_match; [|done]. injection He as <-.
    apply tells_loop_top. revert Hs. unfold escalate. rewrite Ec. destruct (next_sig c); by apply tells_same.
  - case_match; [|done]. injection He as <-. by apply tells_finalise.
  - destruct (in_q s) as [|c q] eqn:Eq; [done|]. destruct (writing s) eqn:Ew; [done|].
    destruct (alive s); [|done]. injection He as <-. revert Hs. apply tells_same; [done|].
    unfold pending. simpl. by rewrite Eq, Ew.
  - destruct (writing s) as [c|] eqn:Ew; [|done]. injection He as <-. unfold writer_done.
    set (s1 := upd_input _ _ _ _). assert (tells s1) as H1.
    { revert Hs. apply tells_sub; [done|]. intros c' Hc'. left. unfold pending. rewrite Ew. by right. }
    destruct (ch_resp c) as [r|] eqn:Er; [|done]. apply tells_reply; [|done].
    assert (ok r (Ok (ch_applied c))) as Hok.
    { apply (proj2 Hs); [|done]. unfold pending. rewrite Ew. by left. }
    intros v [= <-]. destruct res; [done|]. by eapply ok_lost.
  - destruct (writing s) as [c|] eqn:Ew; [|done]. destruct (alive s); [done|]. injection He as <-.
    set (s1 := upd_input _ _ _ _). assert (tells s1) as H1.
    { revert Hs. apply tells_sub; [done|]. intros c' Hc'. left. unfold pending. rewrite Ew. by right. }
    destruct (ch_resp c) as [r|] eqn:Er; [|done]. apply tells_reply; [|done].
    intros v [= <-]. eapply ok_lost, (proj2 Hs); [|exact Er]. unfold pending. rewrite Ew. by left.
  - injection He as <-. revert Hs. by apply tells_same.
  - case_match; [|done]. injection He as <-. revert Hs. by apply tells_same.
  - injection He as <-. revert Hs. by apply tells_same.
  - injection He as <-. revert Hs. by apply tells_same.
  - injection He as <-. revert Hs. by apply tells_same.
Qed.

(** The answers to a new write: any of them, or the ones a chunk that leaves
    no hole can get. *)
Lemma tells_enqueue conn d q r s : (forall x, ok r x) -> tells s -> tells (enqueue_write conn d q r s).
Proof.
  intros Hok Hs. unfold enqueue_write. destruct (if _ || m_closing _ then _ else _) as [applied|err].
  - destruct (judge_chunk d q applied) as [x|d' next]; [by apply tells_reply|].
    destruct (try_send _ s) as [s1| |] eqn:E; [|by apply tells_reply..].
    apply tells_try_send in E; [|by intros ? [= <-]|done].
    destruct (fst <$> q); [|done]. revert E. by apply tells_same.
  - apply tells_reply; [done|]. revert Hs. destruct q as [[]|]; [by apply tells_same|done].
Qed.

Lemma tells_enqueue_next conn d a seq r s v v1 :
  let s' := enqueue_write conn d (Some (a, seq)) r s in
  axes s !! a = Some v -> axes s' !! a = Some v1 -> len d <= seq -> seq - len d <= v ->
  (forall k, seq <= k <= v1 -> ok r (Ok k)) ->
  (seq <= v1 -> ok r (Err NotWriter) /\ ok r (Err NotRunning)) ->
  ok r (Err Backpressure) -> ok r (Err Gone) ->
  tells s -> tells s'.
Proof.
  intros s' Hv Hv1 Hlen Hstart Hok Href Hbp Hgone Hs. subst s'. unfold enqueue_write, axes in *.
  cbn [fst fmap option_fmap option_map mbind option_bind] in *. rewrite Hv in *. change (default 0 (Some v)) with v in *.
  assert (forall err, err = NotRunning \/ err = NotWriter ->
    axes (upd_meta (set_axes (prune_input_axes (<[a := v `max` seq]> (applied_input (meta s))))) s) !! a = Some v1 ->
    tells (reply r (RWrite (Err err))
      (upd_meta (set_axes (prune_input_axes (<[a := v `max` seq]> (applied_input (meta s))))) s))) as Hrefuse.
  { intros err Herr Hax. unfold axes in Hax. simpl in Hax. apply prune_lookup in Hax. simplify_map_eq.
    apply tells_reply; [|revert Hs; by apply tells_same]. intros x [= <-].
    destruct Href as [? ?]; [lia|]. by destruct Herr as [-> | ->]. }
  destruct (_ || m_closing _); [by apply Hrefuse; [left|]|].
  destruct (negb _); [by apply Hrefuse; [right|]|]. clear Hrefuse. unfold judge_chunk in *.
  replace (seq <? len d) with false in * by lia. replace (v <? seq - len d) with false in * by lia.
  destruct (N.leb_spec (len d) (v - (seq - len d))).
  - apply tells_reply; [|done]. intros x [= <-]. simpl in Hv1. rewrite Hv in Hv1. simplify_eq. apply Hok. lia.
  - destruct (try_send _ s) as [s1| |] eqn:E; [|by apply tells_reply; [intros x [= <-]|]..].
    pose proof (try_send_frame _ _ _ E) as (_ & _ & _).
    assert (v1 = seq) as -> by (simpl in Hv1; by simplify_map_eq).
    apply tells_try_send in E; [revert E; by apply tells_same|intros ? [= <-]; apply Hok; simpl; lia|done].
Qed.

End Tells.

(** ** The session's input streams *)

(** An event numbers input, seeds a stream, or leaves the streams alone. *)
Lemma event_kind (e : Event) :
  match e with Cmd (Write _ _ (Some _) _) _ | Seed _ _ => False | _ => True end \/
  (exists conn d a seq r res, e = Cmd (Write conn d (Some (a, seq)) r) res) \/
  (exists id from, e = Seed id from).
Proof. destruct e as [| | | | |[conn d [[a seq]|] r| | | | | |] res| | | | | | | | | |]; eauto 10. Qed.

(** A chunk is queued on a stream only by a numbered write of the lease
    holder. *)
Lemma exec_from s e s1 :
  exec s e = Some s1 ->
  exists extra, queued s1 = queued s ++ extra /\
    forall c a o, c ∈ extra -> ch_from c = Some (a, o) ->
      exists conn d seq r res, e = Cmd (Write conn d (Some (a, seq)) r) res /\
        Lease.is_held_by (lease (meta s)) conn = true.
Proof.
  intros He.
  assert (quiet s s1 -> exists extra, queued s1 = queued s ++ extra /\
    forall c a o, c ∈ extra -> ch_from c = Some (a, o) -> False) as Hq.
  { intros (_ & extra & Hex & Hno). exists extra. split; [done|]. intros c a o Hc Hf.
    assert ((o, ch_data c) ∈ axis_chunks a extra) as Hin.
    { apply list_elem_of_omap. exists c. by rewrite Hf, N.eqb_refl. }
    rewrite Hno in Hin. by apply elem_of_nil in Hin. }
  destruct (event_kind e) as [Hk|[(conn & d & a & seq & r & res & ->)|(id & from & ->)]].
  - destruct Hq as (extra & Hex & Hno); [by eapply exec_quiet|]. exists extra. split; [done|].
    intros c a o Hc Hf. by destruct (Hno c a o).
  - cbn [Session.exec] in He. destruct (alive s); [|done]. injection He as <-.
    cbn [Session.handle_command]. destruct (loop_top_frame (enqueue_write conn d (Some (a, seq)) r s)) as [_ ->].
    destruct (enqueue_axis emu_feed emu_resize conn d a seq r s)
      as [[-> _]|((_ & _ & Hl) & _ & _ & _ & c & -> & Hfrom & _)].
    + exists []. rewrite app_nil_r. split; [done|]. by intros ? ? ? ?%elem_of_nil.
    + exists [c]. split; [done|]. intros c' a' o' ->%list_elem_of_singleton Hf.
      rewrite Hfrom in Hf. simplify_eq. eauto 10.
  - cbn [Session.exec] in He. injection He as <-. exists []. rewrite app_nil_r. split; [done|].
    by intros ? ? ? ?%elem_of_nil.
Qed.

(** An input stream never moves past what its client numbered. *)
Lemma exec_axis_bound S s e s1 a v v1 :
  exec s e = Some s1 -> axes s !! a = Some v -> axes s1 !! a = Some v1 -> client_of S a e ->
  v <= len S -> v1 <= len S.
Proof.
  intros He Hv Hv1 Hcl Hle.
  destruct (exec_axis emu_feed emu_resize S s e s1 a v v1 He Hv Hv1 Hcl) as (x & _ & [_|[_ ?]]); [|lia].
  destruct (event_kind e) as [Hk|[(conn & d & a' & seq & r & res & ->)|(id & from & ->)]].
  - destruct (exec_quiet _ _ _ _ _ He Hk) as [Hax _]. congruence.
  - cbn [Session.exec] in He. destruct (alive s); [|done]. injection He as <-.
    cbn [Session.handle_command] in *.
    destruct (loop_top_frame (enqueue_write conn d (Some (a', seq)) r s)) as [Hax _]. rewrite Hax in Hv1.
    destruct (decide (a' = a)) as [->|Hne].
    + destruct Hcl as (HS & _); [done|].
      destruct (enqueue_axis emu_feed emu_resize conn d a seq r s) as [[_ [E|[_ E]]]|(_ & _ & _ & E & _)]; rewrite E in Hv1.
      * congruence.
      * apply prune_lookup in Hv1. rewrite Hv in Hv1. simplify_map_eq. change (default 0 (Some v)) with v. lia.
      * by simplify_map_eq.
    + destruct (enqueue_axis emu_feed emu_resize conn d a' seq r s) as [[_ [E|[_ E]]]|(_ & _ & _ & E & _)]; rewrite E in Hv1.
      * congruence.
      * apply prune_lookup in Hv1. by simplify_map_eq.
      * by simplify_map_eq.
  - cbn [Session.exec] in He. injection He as <-. simpl in Hcl. unfold axes in *. simpl in Hv1.
    apply prune_lookup in Hv1. by simplify_map_eq.
Qed.

(** Stream ids are issued in increasing order. *)
Lemma finalise_next (s : Sess) : next_input_stream (meta (finalise s)) = next_input_stream (meta s).
Proof.
  unfold finalise. match goal with |- context [fold_left _ ?rs ?x] =>
    destruct (fold_reply_frame rs x) as (_ & _ & _ & -> & _) end. done.
Qed.

Lemma loop_top_next (s : Sess) : next_input_stream (meta (loop_top s)) = next_input_stream (meta s).
Proof.
  unfold loop_top.
  assert (next_input_stream (meta (append_exit s)) = next_input_stream (meta s)) as <-
    by (unfold append_exit; by destruct (_ && _)).
  destruct (a_closing _); [|done]. destruct (_ || _); [apply finalise_next|done].
Qed.

Lemma handle_next cmd res (s : Sess) :
  next_input_stream (meta (handle_command emu_resize cmd res s)) = next_input_stream (meta s).
Proof.
  destruct cmd; cbn [handle_command].
  - unfold enqueue_write, try_send. by repeat (case_match; try done; simplify_eq).
  - unfold control_resize, resize_screen. by destruct (is_ok res); simpl; destruct (screen s).
  - destruct (negb _); [done|]. unfold control_resize, resize_screen.
    by destruct (is_ok res); simpl; destruct (screen s).
  - by destruct (_ && _).
  - by destruct (Lease.take_owned _ _ _ _ _) as [[d [|]|h] l].
  - destruct (Lease.release_connection _ _) as [[h|] l]; [|done]. by case_bool_decide.
  - unfold begin_close. destruct (a_closing _); [done|]. by destruct (bool_decide _ || _).
Qed.

Lemma exec_next s e s1 :
  exec s e = Some s1 -> next_input_stream (meta s) <= next_input_stream (meta s1).
Proof.
  intros He. destruct e; cbn [Session.exec] in He.
  - case_match; [|done]. injection He as <-. unfold pump_read, feed_screen, try_send.
    destruct (screen s); [destruct (emu_feed _ _ _) as [? []]|]; simpl; try done.
    destruct (alive s); simpl; [|done]. by destruct (len (in_q _) <? _).
  - case_match; [|done]. by injection He as <-.
  - case_match; [|done]. by injection He as <-.
  - case_match; [|done]. injection He as <-. by rewrite loop_top_next.
  - case_match; [|done]. injection He as <-. by rewrite loop_top_next.
  - case_match; [|done]. injection He as <-. by rewrite loop_top_next, handle_next.
  - destruct (a_closing (act s)) as [c|] eqn:Ec; [|done]. case_match; [|done]. injection He as <-.
    rewrite loop_top_next. unfold escalate. rewrite Ec. by destruct (next_sig c).
  - case_match; [|done]. injection He as <-. by rewrite finalise_next.
  - destruct (in_q s), (writing s); try done. destruct (alive s); [|done]. by injection He as <-.
  - destruct (writing s) as [c|]; [|done]. injection He as <-. unfold writer_done. by destruct (ch_resp c).
  - destruct (writing s) as [c|]; [|done]. destruct (alive s); [done|]. injection He as <-.
    by destruct (ch_resp c).
  - by injection He as <-.
  - case_match; [|done]. by injection He as <-.
  - injection He as <-. simpl. lia.
  - by injection He as <-.
  - by injection He as <-.
Qed.

End Session.

End AttachAnswers.
