(* ===== verification/AttachClient.v ===== *)
(** * The two ends of an attach's input

    The parts of the input direction of [Attach] that involve one party only:
    the chunks and frames that number the typed bytes, the client's retransmit
    buffer ([PendingInput] of [client/reconnect.rs]), what is true of the leg
    the client uses, and what the host's input pump ([session_stream.rs]) makes
    of its frames and of the session's answers. *)

From S2P Require Import Prelude Ring Lease Signal Session SessionInput Broker Attach AttachOutput.

Module AttachClient.
Import Ring Session SessionInput Attach AttachOutput.

(** ** Chunks and frames *)

(** The chunks among [cs] that came in on one of the streams [ours]. *)
Definition chunks_of (ours : list InputStreamId) (cs : list InputChunk) : list (N * list byte) :=
  omap (fun c => match ch_from c with
                 | Some (a, o) => if bool_decide (a ∈ ours) then Some (o, ch_data c) else None
                 | None => None
                 end) cs.

Lemma chunks_of_app ours l1 l2 : chunks_of ours (l1 ++ l2) = chunks_of ours l1 ++ chunks_of ours l2.
Proof. apply omap_app. Qed.

Lemma omap_ext_elem {A B} (f g : A -> option B) (l : list A) :
  (forall x, x ∈ l -> f x = g x) -> omap f l = omap g l.
Proof.
  induction l as [|x l IH]; intros H; [done|].
  assert (omap f l = omap g l) as Hl by (apply IH; intros y Hy; apply H; by right).
  cbn. rewrite (H x) by by left. destruct (g x); [f_equal|]; exact Hl.
Qed.

Lemma chunks_of_fresh ours a cs :
  (forall c o, c ∈ cs -> ch_from c <> Some (a, o)) -> chunks_of (a :: ours) cs = chunks_of ours cs.
Proof.
  intros H. apply omap_ext_elem. intros c Hc. destruct (ch_from c) as [[a' o]|] eqn:E; [|done].
  assert (a' <> a) by (intros ->; by eapply H).
  case_bool_decide as H1; case_bool_decide as H2; [done|..|done]; set_solver.
Qed.

Lemma chunks_of_head ours h cs :
  h ∈ ours -> (forall c a o, c ∈ cs -> ch_from c = Some (a, o) -> a ∈ ours -> a = h) ->
  chunks_of ours cs = axis_chunks h cs.
Proof.
  intros Hh H. apply omap_ext_elem. intros c Hc. destruct (ch_from c) as [[a o]|] eqn:E; [|done].
  case_bool_decide as Ha.
  - rewrite (H _ _ _ Hc E Ha). by rewrite N.eqb_refl.
  - by destruct (N.eqb_spec a h) as [->|].
Qed.

Lemma slices_app S lo mid hi l l' : slices S lo mid l -> slices S mid hi l' -> slices S lo hi (l ++ l').
Proof.
  revert lo. induction l as [|[o d] l IH]; intros lo; simpl.
  - destruct l' as [|[o d] l']; simpl; [lia|]. intros ? (? & ?). split; [lia|done].
  - intros (? & ? & ? & ?) ?. auto.
Qed.

Lemma slices_grows S T lo hi l : slices S lo hi l -> slices (S ++ T) lo hi l.
Proof.
  revert lo. induction l as [|[o d] l IH]; intros lo; simpl; [done|].
  intros (? & ? & ? & ?). split_and!; [done..|by apply slice_grows|auto].
Qed.

(** A chunk of the stream [S], numbered by the offset after it. *)
Definition chunk_of (S : list byte) (f : N * list byte) : Prop :=
  fst f <= len S /\ len (snd f) <= fst f /\ snd f = slice (fst f - len (snd f)) (fst f) S.

Definition frame_of (S : list byte) (f : SessionFrame) : Prop :=
  match f with FInput seq d => chunk_of S (seq, d) | _ => True end.

Lemma chunk_of_grows S T f : chunk_of S f -> chunk_of (S ++ T) f.
Proof.
  destruct f as [seq d]. unfold chunk_of. simpl. intros (? & ? & Hd). rewrite len_app.
  split_and!; [lia|done|]. by apply slice_grows; [lia|].
Qed.

Lemma frame_of_grows S T f : frame_of S f -> frame_of (S ++ T) f.
Proof. destruct f; try done. apply chunk_of_grows. Qed.

Abbreviation inputs := (fmap (fun f : N * list byte => FInput (fst f) (snd f))).

Lemma numbered_chunk_of S x cs :
  x + len (concat cs) <= len S -> concat cs = slice x (x + len (concat cs)) S ->
  Forall (chunk_of S) (numbered x cs).
Proof.
  revert x. induction cs as [|c cs IH]; intros x Hl Hd; simpl in *; [done|].
  rewrite len_app in *.
  assert (len (slice x (x + len c) S) = len c) as Hlen by (rewrite len_slice; lia).
  rewrite <- (slice_app x (x + len c)) in Hd by lia.
  apply app_inj_1 in Hd as [Hc Hcs]; [|by apply Nat2N.inj].
  constructor.
  - unfold chunk_of. simpl. split_and!; [lia..|]. by replace (x + len c - len c) with x by lia.
  - apply IH; [lia|]. rewrite Hcs at 1. f_equal. lia.
Qed.

(** Input frames that number consecutive bytes from [x] to [w]. *)
Fixpoint upto (x : N) (fs : list SessionFrame) (w : N) : Prop :=
  match fs with
  | [] => x = w
  | FInput seq d :: fs' => x + len d = seq /\ upto seq fs' w
  | _ :: fs' => upto x fs' w
  end.

Lemma upto_app x fs w fs' w' : upto x fs w -> upto w fs' w' -> upto x (fs ++ fs') w'.
Proof.
  revert x. induction fs as [|f fs IH]; intros x; simpl; [by intros ->|]. destruct f; naive_solver.
Qed.

Lemma numbered_upto n x cs :
  exists w, upto x (inputs (take n (numbered x cs))) w /\
    ((length (numbered x cs) <= n)%nat -> w = x + len (concat cs)).
Proof.
  revert n x. induction cs as [|c cs IH]; intros [|n] x.
  - exists x. simpl. split; [done|]. rewrite len_nil. lia.
  - exists x. simpl. split; [done|]. rewrite len_nil. lia.
  - exists x. simpl. split; [done|lia].
  - destruct (IH n (x + len c)) as (w & Hw & Hl). exists w. simpl. split; [done|].
    intros H. rewrite Hl by lia. rewrite len_app. lia.
Qed.

(** A frame the host's input pump does not refuse for its form. *)
Definition sendable (f : SessionFrame) : Prop :=
  valid f /\ match f with FResize cols rows => fits16 cols && fits16 rows = true | _ => True end.

(** What a client puts on the wire for the bytes of [S] from [x] on. *)
Lemma send_input_spec S x data n frames seq :
  send_input x data = (frames, seq) -> x + len data <= len S -> data = slice x (x + len data) S ->
  seq = x + len data /\ Forall (chunk_of S) frames /\
  Forall (frame_of S) (inputs (take n frames)) /\ Forall sendable (inputs (take n frames)) /\
  exists w, upto x (inputs (take n frames)) w /\ ((length frames <= n)%nat -> w = seq).
Proof.
  intros [= <- <-] Hl Hd. destruct (chunks_spec SESSION_CHUNK_MAX data) as [Hc Hv]; [done|].
  assert (Forall (chunk_of S) (numbered x (chunks SESSION_CHUNK_MAX data))) as Hall
    by (apply numbered_chunk_of; rewrite Hc; done).
  split_and!; [done|done|..].
  - apply Forall_fmap. eapply Forall_impl; [by apply Forall_take|]. intros [q d] H. exact H.
  - apply (numbered_valid x) in Hv as [_ Hv]. rewrite Forall_fmap in Hv.
    apply Forall_fmap, Forall_take. eapply Forall_impl; [exact Hv|]. by intros [q d] H.
  - destruct (numbered_upto n x (chunks SESSION_CHUNK_MAX data)) as (w & Hw & He). rewrite Hc in He. eauto.
Qed.

(** ** The retransmit buffer *)

Definition pend_ok (S : list byte) (p : PendingInput) : Prop :=
  acked p <= sent p /\ sent p = len S /\ buf p = slice (acked p) (sent p) S.

Lemma pend_push S p data p' :
  pend_ok S p -> pending_push data p = Ok p' ->
  pend_ok (S ++ data) p' /\ acked p' = acked p /\ sent p' = sent p + len data.
Proof.
  intros (Ha & Hs & Hb). unfold pending_push. destruct (_ <? _); [done|]. intros [= <-].
  split; [|done]. unfold pend_ok. simpl. rewrite len_app. split_and!; [lia|lia|].
  rewrite Hb, Hs. unfold slice. rewrite dropN_app_le, takeN_app_ge by len_lia.
  rewrite takeN_ge by len_lia. f_equal. symmetry. apply takeN_ge. len_lia.
Qed.

Lemma slice_tail (S data : list byte) : data = slice (len S) (len S + len data) (S ++ data).
Proof. unfold slice. rewrite dropN_app_len by done. by rewrite takeN_ge by lia. Qed.

Lemma pend_ack S p n : pend_ok S p -> pend_ok S (pending_ack n p) /\ sent (pending_ack n p) = sent p /\
  acked (pending_ack n p) <= acked p `max` n.
Proof.
  intros (Ha & Hs & Hb). unfold pending_ack. destruct (N.leb_spec (n `min` sent p) (acked p)).
  { split_and!; [by split_and!|done|lia]. }
  simpl. split_and!; [|done|lia]. unfold pend_ok. simpl. split_and!; [lia|done|].
  rewrite Hb, len_slice, dropN_slice. f_equal. lia.
Qed.

Lemma pend_rebase S p v :
  pend_ok S p -> acked p <= v -> v <= len S ->
  exists p' replay, pending_rebase v p = Ok (p', replay) /\ pend_ok S p' /\ acked p' = v /\
    replay = slice v (len S) S.
Proof.
  intros (Ha & Hs & Hb) Hv Hl. unfold pending_rebase. replace (v <? acked p) with false by lia.
  destruct (N.leb_spec (sent p) v).
  - assert (v = len S) as -> by lia. eexists _, _. split; [done|]. unfold pend_ok. simpl.
    rewrite slice_nil. split_and!; done || lia.
  - eexists _, _. split; [done|]. unfold pend_ok. simpl. rewrite Hb, dropN_slice, Hs.
    replace (acked p + (v - acked p)) with v by lia. split_and!; done || lia.
Qed.

(** ** Legs *)

Definition leg_ok (S : list byte) (ours : list InputStreamId) (l : Leg) : Prop :=
  Forall (frame_of S) (l_up l) /\ Forall (chunk_of S) (l_copies l) /\ l_stream l ∈ ours.

Lemma leg_ok_shrink S ours l f up :
  leg_ok S ours l -> l_up l = f :: up -> leg_ok S ours (set_up up (l_copies l) l) /\ frame_of S f.
Proof.
  intros (Hu & Hc & Hs) Hup. rewrite Hup in Hu. apply Forall_cons in Hu as [? ?]. by repeat split.
Qed.

Lemma leg_ok_typed S T ours l : leg_ok S ours l -> leg_ok (S ++ T) ours l.
Proof.
  intros (Hu & Hc & Hs). split_and!; [..|done].
  - eapply Forall_impl; [exact Hu|]. intros f. apply frame_of_grows.
  - eapply Forall_impl; [exact Hc|]. intros f. apply chunk_of_grows.
Qed.

(** How far the leg's host accepts the next stream frame. *)
Definition reach (l : Leg) : N :=
  match l_waiting l with
  | Some w => if w_copy w then l_applied l else w_seq w
  | None => l_applied l
  end.

(** The leg the client is using. *)
Record cur_ok (head : InputStreamId) (writer : option N) (snt v : N) (live : bool) (n : Resp) (l : Leg)
    : Prop := {
  co_stream : l_stream l = head;
  co_chain : l_fault l = None -> exists x w, x <= reach l /\ upto x (l_up l) w /\
    forall q, writer = Some q -> q = w /\ w = snt;
  co_writer : forall q, writer = Some q -> q = snt;
  co_form : Forall sendable (l_up l);
  co_fault : forall f, l_fault l = Some f -> is_protocol f = false;
  co_acks : live = true -> l_applied l <= v /\ forall k, FInputAck k ∈ l_down l -> k <= v;
  co_wait : forall w, l_waiting l = Some w ->
    w_resp w < n /\ (w_copy w = true -> l_applied l <= w_seq w);
}.

Lemma cur_ok_mono head writer snt v live n l v1 live1 n1 :
  v <= v1 -> (live1 = true -> live = true) -> n <= n1 ->
  cur_ok head writer snt v live n l -> cur_ok head writer snt v1 live1 n1 l.
Proof.
  intros Hv Hl Hn [H1 H2 H2' H3 H4 H5 H6]. split; try done.
  - intros Hlive. destruct H5 as [? Hk]; [auto|]. split; [lia|]. intros k Hin. specialize (Hk k Hin). lia.
  - intros w Hw. destruct (H6 w Hw). split; [lia|done].
Qed.

(** The client writes frames behind those in flight, and may then be unable to
    write more. *)
Lemma cur_ok_send head q snt v live n l up copies w writer snt' :
  cur_ok head (Some q) snt v live n l -> Forall sendable up -> upto snt up w ->
  (forall q', writer = Some q' -> q' = w /\ w = snt') ->
  cur_ok head writer snt' v live n (set_up (l_up l ++ up) copies l).
Proof.
  intros [K1 K2 K2' K3 K4 K5 K6] Hse Hw Hwr. split; try done.
  - intros Hf. destruct (K2 Hf) as (x & w0 & Hx & Hup & Hw0). exists x, w. split; [done|]. split; [|exact Hwr].
    cbn [set_up l_up]. eapply upto_app; [exact Hup|]. by destruct (Hw0 q eq_refl) as [_ ->].
  - intros q' Hq'. destruct (Hwr q' Hq'). congruence.
  - cbn [set_up l_up]. by apply Forall_app.
Qed.

Lemma cur_ok_stop head writer snt v live n l :
  cur_ok head writer snt v live n l -> cur_ok head None snt v live n l.
Proof.
  intros [K1 K2 K2' K3 K4 K5 K6]. split; try done.
  intros Hf. destruct (K2 Hf) as (x & w & Hx & Hup & _). exists x, w. by split_and!.
Qed.

Lemma cur_ok_idle head writer snt v live n n' l :
  l_waiting l = None -> cur_ok head writer snt v live n l -> cur_ok head writer snt v live n' l.
Proof. intros Hw [H1 H2 H2' H3 H4 H5 H6]. split; try done. intros w. by rewrite Hw. Qed.

(** The current leg's input pump takes the next frame: never one it must
    refuse. *)
Lemma consume_cur head writer snt v live n l f up :
  cur_ok head writer snt v live n l -> l_up l = f :: up -> l_waiting l = None -> l_fault l = None ->
  match input_frame (l_applied l) f with
  | DoFail _ => False
  | DoWrite data seq =>
      cur_ok head writer snt v live (n + 1)
        (set_waiting (Some (mkWaiting n seq false)) (set_up up (l_copies l) l)) /\
      seq - len data <= l_applied l
  | _ => cur_ok head writer snt v live n (set_up up (l_copies l) l)
  end.
Proof.
  intros [H1 H2 H2' H3 H4 H5 H6] Hup Hw Hf. rewrite Hup in H2, H3.
  apply Forall_cons in H3 as [[Hv Hform] H3]. destruct (H2 Hf) as (x & q & Hx & Hq & Hwr).
  unfold reach in Hx. rewrite Hw in Hx. unfold input_frame. rewrite Hv.
  assert (forall x', x' <= l_applied l -> upto x' up q -> cur_ok head writer snt v live n (set_up up (l_copies l) l)) as Hset.
  { intros x' Hx' Hq'. split; try done. intros _. exists x', q. split; [|done].
    unfold reach. simpl. by rewrite Hw. }
  destruct f as [| seq d | | |cols rows|]; simpl in Hq; try by eapply Hset.
  - destruct Hq as [Hseq Hq]. replace (seq <? len d) with false by lia.
    replace (l_applied l <? seq - len d) with false by lia. split; [|lia].
    split; try done.
    + intros _. exists seq, q. split; [done|]. by split.
    + intros w [= <-]. simpl. split; [lia|done].
  - rewrite Hform. by eapply Hset.
Qed.

Lemma input_frame_write applied f data seq :
  input_frame applied f = DoWrite data seq -> f = FInput seq data.
Proof.
  unfold input_frame. destruct (validate f); [|done]. destruct f; try done.
  - by repeat case_match; intros [= -> ->].
  - by destruct (_ && _).
Qed.

(** The output pump adds no acknowledgement. *)
Lemma pump_no_ack evs k : FInputAck k ∉ b_frames (pump_events evs).
Proof.
  induction evs as [|[sequence data| |sequence id ev] evs IH]; simpl.
  - apply not_elem_of_nil.
  - rewrite elem_of_app. intros [Hin|?]; [|done]. unfold output_frames in Hin.
    apply list_elem_of_fmap in Hin as ([] & ? & _). done.
  - rewrite elem_of_cons. by intros [?|?].
  - destruct ev; simpl; [rewrite elem_of_cons; by intros [?|?]|done|apply not_elem_of_nil].
Qed.

(** ** Answers *)

(** What the answers to the current leg's write may say. *)
Definition ok_reply (n : Resp) (w : option Waiting) (v : N) (r : Resp) (x : result N WriteError) : Prop :=
  r < n /\ forall w0, w = Some w0 -> r = w_resp w0 ->
    match x with
    | Ok k => w_seq w0 <= k <= v
    | Err (NotWriter | NotRunning) => w_seq w0 <= v
    | Err (InputGap _ _) => False
    | Err _ => True
    end.

Lemma ok_reply_lost n w v r k : ok_reply n w v r (Ok k) ->
  ok_reply n w v r (Err Gone) /\ forall e, ok_reply n w v r (Err (Io e)).
Proof. intros [? _]. by repeat split. Qed.

Lemma ok_reply_mono n w v n1 w1 v1 r x :
  n <= n1 -> v <= v1 -> (w1 = w \/ (forall w0, w1 = Some w0 -> n <= w_resp w0)) ->
  ok_reply n w v r x -> ok_reply n1 w1 v1 r x.
Proof.
  intros Hn Hv Hw [Hr Hx]. split; [lia|]. intros w0 -> ->.
  destruct Hw as [<-|Hw]; [|specialize (Hw w0 eq_refl); lia].
  specialize (Hx w0 eq_refl eq_refl). destruct x as [|[]]; try done; lia.
Qed.

Definition cur_waiting (rec : bool) (legs : list Leg) : option Waiting :=
  if rec then None else legs !! 0%nat ≫= l_waiting.

Lemma write_reply_in resp rs x : write_reply resp rs = Some x -> (resp, RWrite x) ∈ rs.
Proof.
  unfold write_reply. intros Hx.
  assert (x ∈ omap (fun x => match x with (r, RWrite v) => if r =? resp then Some v else None | _ => None end) rs)
    as Hin by (destruct (omap _ rs); [done|]; injection Hx as ->; by left).
  apply list_elem_of_omap in Hin as ([r []] & Hin & Hr); try done.
  destruct (N.eqb_spec r resp) as [->|]; [|done]. by injection Hr as ->.
Qed.

(** The host learns the answer to the current leg's write. *)
Lemma answer_cur head writer snt v live n w r l :
  cur_ok head writer snt v live n l -> l_waiting l = Some w ->
  match r with
  | Ok k => w_seq w <= k /\ (live = true -> k <= v)
  | Err (Broker.BNotWriter | Broker.BNotRunning | Broker.NotFound) => live = true -> w_seq w <= v
  | Err (Broker.InvalidArgument _) => False
  | Err _ => True
  end ->
  cur_ok head writer snt v live n (answer_write w r l) /\ l_waiting (answer_write w r l) = None.
Proof.
  intros [H1 H2 H2' H3 H4 H5 H6] Hw Hr. destruct (H6 w Hw) as [_ Hcopy].
  assert (forall k, w_seq w <= k -> (live = true -> k <= v) -> cur_ok head writer snt v live n (set_applied k l)) as Hset.
  { intros k Hk Hkv. split; try done; cbn [set_applied l_applied l_down l_fault l_up l_waiting].
    - intros Hf. destruct (H2 Hf) as (x & q & Hx & Hq). exists x, q. split; [|done].
      unfold reach in *. rewrite Hw in Hx. simpl. destruct (w_copy w); [specialize (Hcopy eq_refl)|]; lia.
    - intros Hl. destruct (H5 Hl) as [_ Hd]. split; [auto|]. intros k'.
      rewrite elem_of_app, list_elem_of_singleton. intros [?|[= ->]]; auto. }
  assert (forall f, is_protocol f = false -> cur_ok head writer snt v live n (set_fault f l)) as Hfault.
  { intros f Hf. split; try done. by intros ? [= <-]. }
  unfold answer_write. destruct (w_copy w) eqn:Ec.
  - destruct r as [k|err]; [destruct Hr; split; [by apply Hset|done]|]. split; [|done].
    split; try done; cbn [set_waiting l_fault l_up].
    intros Hf. destruct (H2 Hf) as (x & q & Hx & Hq). exists x, q. split; [|done].
    unfold reach in *. rewrite Hw, Ec in Hx. done.
  - destruct r as [k|err]; [destruct Hr; split; [by apply Hset|done]|].
    assert (live = true -> l_applied l <= v) as Ha by (intros Hl; by destruct (H5 Hl)).
    destruct err; simpl; try done; (split; [|done]); try (by apply Hfault);
      (apply Hset; [lia|]); intros Hl; specialize (Ha Hl); specialize (Hr Hl); lia.
Qed.

Lemma answer_waiting w r x l : answer_write w r (set_waiting x l) = answer_write w r l.
Proof. unfold answer_write. destruct (w_copy w); [by destruct r|]. simpl. by destruct (input_answer _ _ _). Qed.

Lemma answer_frame w r l :
  l_up (answer_write w r l) = l_up l /\ l_copies (answer_write w r l) = l_copies l /\
  l_stream (answer_write w r l) = l_stream l.
Proof. unfold answer_write. destruct (w_copy w); [by destruct r|]. by destruct (input_answer _ _ _). Qed.

(** ** Rejoining *)

(** The client rejoins where the host stands: nothing it must send again is
    gone. *)
Lemma rejoin_input S t sent0 c c' up copies complete v :
  pend_ok S (c_pending c) -> acked (c_pending c) <= v -> v <= len S -> t_input_from t = v ->
  (forall cols rows, c_window c = Some (cols, rows) -> fits16 cols && fits16 rows = true) ->
  rejoin t sent0 c = (c', up, copies, complete) ->
  pend_ok S (c_pending c') /\ acked (c_pending c') <= v /\ c_mark c' = c_mark c /\
  c_errors c' = c_errors c /\ c_window c' = c_window c /\
  Forall (frame_of S) up /\ Forall (chunk_of S) copies /\
  (complete = true -> c_writer c' = Some (len S) /\ Forall sendable up /\ upto v up (len S)).
Proof.
  intros Hp Ha Hv Ht Hwin. unfold rejoin. destruct sent0 as [n|]; [|by intros [= <- <- <- <-]].
  destruct (pend_rebase S (c_pending c) v Hp Ha Hv) as (p & replay & Hr & Hpo & Hpa & Hrep).
  rewrite Ht, Hr. destruct (send_input v replay) as [frames seq] eqn:Hs.
  assert (len replay = len S - v) as Hlen by (rewrite Hrep; len_lia).
  destruct (send_input_spec S v replay n frames seq Hs) as (-> & Hall & Hfr & Hse & w & Hw & He);
    [lia|by rewrite Hlen; replace (v + (len S - v)) with (len S) by lia|].
  intros [= <- <- <- <-]. cbn [c_pending c_mark c_errors c_window c_writer].
  set (window := match c_window c with Some _ => _ | None => _ end).
  assert (Forall (frame_of S) window /\ Forall sendable window /\ upto v window v) as (W1 & W2 & W3).
  { unfold window. destruct (c_window c) as [[cols rows]|] eqn:Ew; [|done]. specialize (Hwin _ _ eq_refl).
    split_and!; [by repeat constructor| |done]. constructor; [|done]. by split. }
  split_and!; try done; [lia|by apply Forall_app|].
  intros Hcomp%Nat.leb_le. rewrite (proj2 (Nat.leb_le _ _) Hcomp). split_and!.
  - f_equal. lia.
  - by apply Forall_app.
  - eapply upto_app; [exact W3|]. rewrite (He Hcomp) in Hw. by replace (v + len replay) with (len S) in Hw by lia.
Qed.

End AttachClient.
