(* ===== verification/AttachInput.v ===== *)
(** * Typed input reaches the child exactly once

    The input direction of [Attach]: from the bytes the client took from its
    user, through its retransmit buffer, the frames in flight and the host's
    input pump, to the session's queue, over any number of connections.  The
    client's buffer and the host's input streams never disagree: a resumed
    attach always finds what it must retransmit, the host never sees a hole,
    and what it queues for the child is what was typed, once and in order.

    The one thing that breaks this is an input frame of a superseded leg that
    the host accepts after it forked the new leg's input stream; the last
    theorem shows that the code allows it. *)

From S2P Require Import Prelude Ring Lease Signal Session SessionLife SessionInput Broker Attach AttachOutput AttachAnswers AttachClient.

Module AttachInput.
Import Ring Session SessionInput Attach AttachOutput AttachAnswers AttachClient.

(** ** The host's side of the invariant *)

Section System.
Context {Emu : Type}.
Variable emu_feed : Emu -> list byte -> N -> Emu * list byte.
Variable emu_resize : Emu -> N -> N -> Emu.
Variable gap_text : N -> N -> string.

Abbreviation Sess := (Session Emu).
Abbreviation exec := (Session.exec emu_feed emu_resize).
Abbreviation step := (Attach.step emu_feed emu_resize gap_text).
Abbreviation granted_on := (granted (Emu := Emu)).

(** The stream [head] stands at [v], and what the session queued for this
    client are slices of [S] up to there. *)
Record HostInv (s : Sess) (head : InputStreamId) (ours : list InputStreamId) (S : list byte) (v : N)
    : Prop := {
  hi_sess : Inv s;
  hi_head : axes s !! head = Some v;
  hi_ours : Forall (fun a => a < next_input_stream (meta s)) ours;
  hi_in : head ∈ ours;
  hi_from : forall c a o, c ∈ queued s -> ch_from c = Some (a, o) -> a < next_input_stream (meta s);
  hi_slices : slices S 0 v (chunks_of ours (queued s));
  hi_end : v <= len S;
}.

(** All of the typed bytes up to [v] were queued. *)
Definition exact (s : Sess) (ours : list InputStreamId) (S : list byte) (v : N) : Prop :=
  concat (snd <$> chunks_of ours (queued s)) = slice 0 v S.

(** Who may number input on our streams in this step: the newest one's
    client, or somebody the session refuses. *)
Definition orderly (s : Sess) (head : InputStreamId) (ours : list InputStreamId) (e : Event) : Prop :=
  forall conn d a seq r res, e = Cmd (Write conn d (Some (a, seq)) r) res ->
    a < next_input_stream (meta s) /\
    (Lease.is_held_by (lease (meta s)) conn = true -> a ∈ ours -> a = head).

Lemma host_step s head ours S v e s1 v1 :
  HostInv s head ours S v -> exec s e = Some s1 -> axes s1 !! head = Some v1 ->
  client_of S head e -> orderly s head ours e ->
  HostInv s1 head ours S v1 /\ v <= v1 /\ (alive s1 = true -> alive s = true) /\
  (granted_on head s e -> exact s ours S v -> exact s1 ours S v1).
Proof.
  intros [HI Hv Ho Hin Hf Hsl Hend] He Hv1 Hcl Hord.
  pose proof (exec_next emu_feed emu_resize _ _ _ He) as Hn.
  destruct (exec_from emu_feed emu_resize _ _ _ He) as (extra & Hq & Hx).
  destruct (exec_axis emu_feed emu_resize S s e s1 head v v1 He Hv Hv1 Hcl) as (extra' & Hq' & Hcase).
  rewrite Hq in Hq'. apply app_inv_head in Hq' as <-.
  assert (chunks_of ours extra = axis_chunks head extra) as Hch.
  { apply chunks_of_head; [done|]. intros c a o Hc Hfr Ha.
    destruct (Hx c a o Hc Hfr) as (conn & d & seq & r & res & -> & Hl). by eapply Hord. }
  assert (v <= v1) as Hle by (destruct Hcase as [(_ & ? & _)|(_ & ?)]; lia).
  assert (slices S v v1 (axis_chunks head extra)) as Hsx.
  { destruct Hcase as [(-> & _ & _)|(-> & ?)]; [done|]. simpl.
    assert (len (slice v v1 S) = v1 - v) as Hl by (rewrite len_slice; lia).
    rewrite Hl. replace (v + (v1 - v)) with v1 by lia. split_and!; try done. apply len_pos_inv. lia. }
  split_and!; [split|done|..].
  - by eapply Inv_exec.
  - done.
  - eapply Forall_impl; [exact Ho|]. intros a. simpl. lia.
  - done.
  - rewrite Hq. intros c a o [Hc|Hc]%elem_of_app Hfr; [pose proof (Hf c a o Hc Hfr); lia|].
    destruct (Hx c a o Hc Hfr) as (conn & d & seq & r & res & -> & _).
    destruct (Hord _ _ _ _ _ _ eq_refl). lia.
  - rewrite Hq, chunks_of_app, Hch. by eapply slices_app.
  - by eapply exec_axis_bound.
  - intros Ha. destruct (alive s) eqn:E; [done|].
    by rewrite (SessionLife.dead_stays emu_feed emu_resize _ _ _ He E) in Ha.
  - unfold exact. intros Hg Hex. rewrite Hq, chunks_of_app, fmap_app, concat_app, Hex, Hch.
    destruct Hcase as [(-> & _ & Hsame)|(-> & ?)].
    + rewrite (Hsame Hg). simpl. by rewrite app_nil_r.
    + simpl. rewrite app_nil_r. apply slice_app. lia.
Qed.

(** A stream nobody numbers input on stays where it is. *)
Lemma exec_axis_still s e s1 a v v1 :
  exec s e = Some s1 -> axes s !! a = Some v -> axes s1 !! a = Some v1 ->
  (forall conn d seq r res, e <> Cmd (Write conn d (Some (a, seq)) r) res) ->
  (forall from, e <> Seed a from) -> v1 = v.
Proof.
  intros He Hv Hv1 Hw Hs.
  destruct (exec_axis emu_feed emu_resize [] s e s1 a v v1 He Hv Hv1) as (x & _ & [(_ & _ & Hg)|(_ & Hx)]).
  - destruct e as [| | | | |[conn d [[a' seq]|] r| | | | | |] res| | | | | | | | | |]; try done; simpl.
    + intros ->. by destruct (Hw conn d seq r res).
    + intros ->. by destruct (Hs from).
  - apply Hg. destruct e as [| | | | |[conn d [[a' seq]|] r| | | | | |] res| | | | | | | | | |]; try done.
    simpl. intros ->. by destruct (Hw conn d seq r res).
  - rewrite len_nil in Hx. lia.
Qed.

(** ** The client's side *)

Lemma tells_weaken (ok ok' : Resp -> result N WriteError -> Prop) (s : Sess) :
  (forall r x, ok r x -> ok' r x) -> tells ok s -> tells ok' s.
Proof. intros H [H1 H2]. split; eauto. Qed.

Record InInv (y : System Emu) (v : N) : Prop := {
  ii_host : HostInv (y_sess y) (y_head y) (y_ours y) (y_typed y) v;
  ii_pend : pend_ok (y_typed y) (c_pending (y_client y));
  ii_legs : Forall (leg_ok (y_typed y) (y_ours y)) (y_legs y);
  ii_acked : alive (y_sess y) = true -> acked (c_pending (y_client y)) <= v /\ c_mark (y_client y) <= v;
  ii_tell : tells (ok_reply (y_resp y) (cur_waiting (y_recovering y) (y_legs y)) v) (y_sess y);
  ii_ticket : forall t, y_ticket y = Some t -> t_stream t = y_head y /\ t_input_from t = v /\
    Forall (fun l => l_stream l <> y_head y) (y_legs y);
  ii_cur : y_recovering y = false -> exists l, y_legs y !! 0%nat = Some l /\
    cur_ok (y_head y) (c_writer (y_client y)) (sent (c_pending (y_client y))) v
      (alive (y_sess y)) (y_resp y) l;
  ii_errors : forall e, e ∈ c_errors (y_client y) -> exists k, e = UnackedInputOverflow k;
  ii_window : forall cols rows, c_window (y_client y) = Some (cols, rows) ->
    fits16 cols && fits16 rows = true;
}.

(** ** Steps of the session and of one leg *)

(** The session moved by [e] and the legs changed; the client did not. *)
Lemma InInv_move y v e s1 v1 legs n1 :
  InInv y v -> exec (y_sess y) e = Some s1 -> axes s1 !! y_head y = Some v1 ->
  client_of (y_typed y) (y_head y) e -> orderly (y_sess y) (y_head y) (y_ours y) e ->
  Forall (leg_ok (y_typed y) (y_ours y)) legs -> y_resp y <= n1 ->
  (forall t, y_ticket y = Some t -> v1 = v /\ Forall (fun l => l_stream l <> y_head y) legs) ->
  (y_recovering y = false -> exists l, legs !! 0%nat = Some l /\
    cur_ok (y_head y) (c_writer (y_client y)) (sent (c_pending (y_client y))) v1 (alive s1) n1 l) ->
  (v <= v1 -> tells (ok_reply n1 (cur_waiting (y_recovering y) legs) v1) s1) ->
  InInv (mkSystem s1 legs (y_client y) (y_head y) (y_ticket y) (y_recovering y) n1 (y_typed y) (y_ours y)) v1 /\
  (granted_on (y_head y) (y_sess y) e -> exact (y_sess y) (y_ours y) (y_typed y) v ->
   exact s1 (y_ours y) (y_typed y) v1).
Proof.
  intros HI He Hv1 Hcl Hord Hlegs Hn Ht Hcur Htell.
  destruct (host_step _ _ _ _ _ _ _ _ (ii_host _ _ HI) He Hv1 Hcl Hord) as (Hh & Hle & Hal & Hex).
  split; [|done]. split; cbn [y_sess y_legs y_client y_head y_ticket y_recovering y_resp y_typed y_ours]; auto.
  - apply HI.
  - intros Ha. destruct (ii_acked _ _ HI (Hal Ha)). lia.
  - intros t Htk. destruct (Ht t Htk) as [-> ?]. by destruct (ii_ticket _ _ HI t Htk) as (? & ? & _).
  - apply HI.
  - apply HI.
Qed.

(** Only a leg changed. *)
Lemma InInv_leg y v i l l' :
  InInv y v -> y_legs y !! i = Some l -> l_stream l' = l_stream l ->
  leg_ok (y_typed y) (y_ours y) l' ->
  (y_recovering y = false -> i = 0%nat ->
   cur_ok (y_head y) (c_writer (y_client y)) (sent (c_pending (y_client y))) v (alive (y_sess y)) (y_resp y) l ->
   cur_ok (y_head y) (c_writer (y_client y)) (sent (c_pending (y_client y))) v (alive (y_sess y)) (y_resp y) l' /\
   (l_waiting l' = None \/ l_waiting l' = l_waiting l)) ->
  InInv (with_legs (<[i := l']> (y_legs y)) y) v.
Proof.
  intros HI Hi Hst Hok Hcur.
  assert (i < length (y_legs y))%nat as Hlt by by eapply lookup_lt_Some.
  split; cbn [with_legs y_sess y_legs y_client y_head y_ticket y_recovering y_resp y_typed y_ours];
    try apply HI.
  - apply Forall_insert; [apply HI|done].
  - eapply tells_weaken, HI. intros r x. apply ok_reply_mono; [done..|].
    unfold cur_waiting. destruct (y_recovering y) eqn:Er; [by left|].
    destruct (decide (i = 0%nat)) as [->|Hne]; [|left; by rewrite list_lookup_insert_ne].
    rewrite Hi, list_lookup_insert_eq by done. cbn [mbind option_bind].
    destruct (ii_cur _ _ HI Er) as (l0 & Hl0 & Hc). rewrite Hi in Hl0. injection Hl0 as <-.
    destruct (Hcur eq_refl eq_refl Hc) as [_ [-> | ->]]; [by right|by left].
  - intros t Ht. destruct (ii_ticket _ _ HI t Ht) as (? & ? & Hf). split_and!; try done.
    apply Forall_insert; [done|]. rewrite Hst. rewrite Forall_lookup in Hf. by eapply Hf.
  - intros Er. destruct (ii_cur _ _ HI Er) as (l0 & Hl0 & Hc).
    destruct (decide (i = 0%nat)) as [->|Hne].
    + rewrite Hi in Hl0. injection Hl0 as <-. exists l'. rewrite list_lookup_insert_eq by done.
      by destruct (Hcur Er eq_refl Hc).
    + exists l0. by rewrite list_lookup_insert_ne.
Qed.

Lemma found_alive y v : InInv y v -> found (y_sess y) = alive (y_sess y).
Proof.
  intros HI. pose proof (inv_core _ (hi_sess _ _ _ _ _ (ii_host _ _ HI))) as HC. unfold found.
  destruct (alive (y_sess y)) eqn:Ha.
  - by rewrite (core_open _ HC Ha).
  - destruct (core_closed _ HC Ha) as (_ & _ & [x ->]). done.
Qed.

(** The replies after a new write on leg [i]: the current leg's are bounded by
    what it wrote, and a write of any other leg has a channel of its own. *)
Lemma tells_write y v i l' data seq copy s v1 :
  InInv y v -> v <= v1 ->
  exec (y_sess y) (Cmd (Write (l_conn l') data (Some (l_stream l', seq)) (y_resp y)) (Ok tt)) = Some s ->
  axes s !! y_head y = Some v1 -> is_Some (y_legs y !! i) -> len data <= seq ->
  (y_recovering y = false -> i = 0%nat -> l_stream l' = y_head y /\ seq - len data <= v) ->
  tells (ok_reply (y_resp y + 1)
    (cur_waiting (y_recovering y) (<[i := set_waiting (Some (mkWaiting (y_resp y) seq copy)) l']> (y_legs y))) v1) s.
Proof.
  intros HI Hle He Hv1 [l Hl] Hlen Hcur.
  pose proof (lookup_lt_Some _ _ _ Hl) as Hlt.
  assert (tells (ok_reply (y_resp y + 1) (cur_waiting (y_recovering y)
    (<[i := set_waiting (Some (mkWaiting (y_resp y) seq copy)) l']> (y_legs y))) v1) (y_sess y)) as Hold.
  { eapply tells_weaken, HI. intros r x. apply ok_reply_mono; [lia|done|].
    unfold cur_waiting. destruct (y_recovering y); [by left|].
    destruct (decide (i = 0%nat)) as [->|Hne]; [|left; by rewrite list_lookup_insert_ne].
    right. rewrite list_lookup_insert_eq by done. intros w0 [= <-]. done. }
  eapply tells_exec; [apply ok_reply_lost|exact He| |exact Hold].
  intros conn d q r res [= <- <- <- <- <-].
  destruct (decide (y_recovering y = false /\ i = 0%nat)) as [[Er ->]|Hne].
  - destruct (Hcur Er eq_refl) as [Hst Hstart]. unfold cur_waiting in *. rewrite Er in *.
    rewrite list_lookup_insert_eq in * by done. cbn [mbind option_bind set_waiting l_waiting] in *.
    assert (axes (enqueue_write (l_conn l') data (Some (l_stream l', seq)) (y_resp y) (y_sess y)) !! l_stream l' = Some v1) as Hax.
    { cbn [Session.exec] in He. destruct (alive (y_sess y)); [|done]. injection He as <-.
      cbn [handle_command] in Hv1. destruct (loop_top_frame (enqueue_write (l_conn l') data
        (Some (l_stream l', seq)) (y_resp y) (y_sess y))) as [<- _].
      rewrite <- Hst in Hv1. exact Hv1. }
    eapply (tells_enqueue_next emu_feed emu_resize); [|exact Hax|exact Hlen|exact Hstart|..|exact Hold].
    + rewrite Hst. apply (hi_head _ _ _ _ _ (ii_host _ _ HI)).
    + intros k Hk. split; [lia|]. by intros w0 [= <-] _.
    + intros Hk. split; (split; [lia|]); by intros w0 [= <-] _.
    + split; [lia|done].
    + split; [lia|done].
  - apply tells_enqueue; [|done]. intros x. split; [lia|]. intros w0 Hw0 Hr.
    unfold cur_waiting in Hw0. destruct (y_recovering y) eqn:Er; [done|].
    rewrite list_lookup_insert_ne in Hw0 by naive_solver.
    destruct (ii_cur _ _ HI Er) as (l0 & Hl0 & Hc). rewrite Hl0 in Hw0. cbn [mbind option_bind] in Hw0.
    destruct (co_wait _ _ _ _ _ _ _ Hc w0 Hw0). lia.
Qed.

(** One write on leg [i]. *)
Lemma InInv_write i l l' data seq copy y v :
  let w := mkWaiting (y_resp y) seq copy in
  InInv y v -> y_legs y !! i = Some l -> l_conn l' = l_conn l -> l_stream l' = l_stream l ->
  leg_ok (y_typed y) (y_ours y) l' -> chunk_of (y_typed y) (seq, data) ->
  (l_stream l = y_head y \/ Lease.is_held_by (lease (meta (y_sess y))) (l_conn l) = false) ->
  (y_recovering y = false -> i = 0%nat ->
   cur_ok (y_head y) (c_writer (y_client y)) (sent (c_pending (y_client y))) v (alive (y_sess y)) (y_resp y + 1)
     (set_waiting (Some w) l') /\ seq - len data <= l_applied l') ->
  is_Some (axes (y_sess (write_at emu_feed emu_resize i l' data seq copy y)) !! y_head y) ->
  exists v', InInv (write_at emu_feed emu_resize i l' data seq copy y) v' /\
    ((l_stream l = y_head y -> state (meta (y_sess y)) = Running /\ m_closing (meta (y_sess y)) = false /\
        Lease.is_held_by (lease (meta (y_sess y))) (l_conn l) = true) ->
     exact (y_sess y) (y_ours y) (y_typed y) v ->
     exact (y_sess (write_at emu_feed emu_resize i l' data seq copy y)) (y_ours y) (y_typed y) v').
Proof.
  intros w HI Hi Hconn Hst Hok Hchunk Hcalm Hcur Hpres. unfold write_at in *.
  rewrite (found_alive y v HI) in *. fold w in Hpres |- *.
  destruct (alive (y_sess y)) eqn:Ha.
  2: { exists v. split; [|done]. eapply InInv_leg; [done|exact Hi|..].
    - by destruct (answer_frame w (Err Broker.NotFound) l') as (_ & _ & ->).
    - unfold leg_ok. by destruct (answer_frame w (Err Broker.NotFound) l') as (-> & -> & ->).
    - intros Er -> _. destruct (Hcur Er eq_refl) as [Hc _]. rewrite Ha.
      destruct (answer_cur _ _ _ _ _ _ w (Err Broker.NotFound) _ Hc) as [Hc' Hw]; [done|done|].
      rewrite answer_waiting in *. split; [by eapply cur_ok_idle|by left]. }
  set (e := Cmd (Write (l_conn l') data (Some (l_stream l', seq)) (y_resp y)) (Ok tt)) in *.
  destruct (exec (y_sess y) e) as [s|] eqn:He; [|unfold e in He; cbn [Session.exec] in He; by rewrite Ha in He].
  destruct Hpres as [v1 Hv1]. cbn [with_legs with_sess y_sess] in Hv1. exists v1.
  destruct Hchunk as (Hc1 & Hc2 & Hc3). simpl in Hc1, Hc2, Hc3.
  pose proof (hi_ours _ _ _ _ _ (ii_host _ _ HI)) as Hours.
  assert (client_of (y_typed y) (y_head y) e) as Hcl by (simpl; intros _; by split_and!).
  assert (orderly (y_sess y) (y_head y) (y_ours y) e) as Hord.
  { intros conn d a sq r res [= <- <- <- <- <- <-]. rewrite Forall_forall in Hours.
    split; [apply Hours, Hok|]. rewrite Hconn, Hst. intros Hh _. destruct Hcalm; [done|congruence]. }
  edestruct (InInv_move y v e s v1 (<[i := set_waiting (Some w) l']> (y_legs y)) (y_resp y + 1))
    as [HI' Hex]; [done|exact He|exact Hv1|exact Hcl|exact Hord|..|split; [exact HI'|]].
  - apply Forall_insert; [apply HI|done].
  - lia.
  - intros t Ht. destruct (ii_ticket _ _ HI t Ht) as (_ & _ & Hf).
    assert (l_stream l' <> y_head y) as Hne by (rewrite Hst; rewrite Forall_lookup in Hf; by eapply Hf).
    split; [|apply Forall_insert; [done|exact Hne]].
    eapply exec_axis_still; [exact He|apply HI|exact Hv1|..|by intros].
    intros ? ? ? ? ? [= _ _ Hs _]. congruence.
  - intros Er.
    destruct (host_step _ _ _ _ _ _ _ _ (ii_host _ _ HI) He Hv1 Hcl Hord) as (_ & Hle & Hal & _).
    destruct (decide (i = 0%nat)) as [->|Hne].
    + exists (set_waiting (Some w) l'). rewrite list_lookup_insert_eq by by eapply lookup_lt_Some.
      split; [done|]. destruct (Hcur Er eq_refl) as [Hc _].
      eapply cur_ok_mono; [exact Hle|intros Hl; exact eq_refl|reflexivity|exact Hc].
    + destruct (ii_cur _ _ HI Er) as (l0 & Hl0 & Hc). exists l0. rewrite list_lookup_insert_ne by done.
      split; [done|]. eapply cur_ok_mono; [exact Hle|exact Hal| |exact Hc]. lia.
  - intros Hle. eapply tells_write; [done|done|exact He|exact Hv1|by eexists|done|].
    intros Er ->. destruct (Hcur Er eq_refl) as [Hc Hstart]. split; [apply Hc|].
    destruct (co_acks _ _ _ _ _ _ _ Hc eq_refl) as [Hap _]. simpl in Hap. lia.
  - intros Hall. apply Hex. simpl. intros Hs. rewrite Hconn. apply Hall. by rewrite <- Hst.
Qed.

(** ** The steps of the system *)

(** No leg but the newest writes while its connection holds the lease, and
    the session has not forgotten the newest stream. *)
Definition calm (y : System Emu) (a : Action) : Prop :=
  is_Some (axes (y_sess y) !! y_head y) /\
  match a with
  | Deliver i _ | Copy i _ => forall l, y_legs y !! i = Some l ->
      l_stream l = y_head y \/ Lease.is_held_by (lease (meta (y_sess y))) (l_conn l) = false
  | _ => True
  end.

(** The newest leg writes only when the session lets it. *)
Definition allowed (y : System Emu) (a : Action) : Prop :=
  match a with
  | Deliver i _ | Copy i _ => forall l, y_legs y !! i = Some l -> l_stream l = y_head y ->
      state (meta (y_sess y)) = Running /\ m_closing (meta (y_sess y)) = false /\
      Lease.is_held_by (lease (meta (y_sess y))) (l_conn l) = true
  | _ => True
  end.

(** The invariant after a step, and completeness where the step was allowed. *)
Definition preserved (y : System Emu) (v : N) (a : Action) (y' : System Emu) : Prop :=
  exists v', InInv y' v' /\
    (allowed y a -> exact (y_sess y) (y_ours y) (y_typed y) v ->
     exact (y_sess y') (y_ours y') (y_typed y') v').

(** A step that leaves the session and the typed bytes alone. *)
Lemma preserved_still y v a y' :
  InInv y' v -> y_sess y' = y_sess y -> y_ours y' = y_ours y -> y_typed y' = y_typed y ->
  preserved y v a y'.
Proof. intros HI Hs Ho Ht. exists v. split; [done|]. by rewrite Hs, Ho, Ht. Qed.

(** What the rest of the world does is not on our streams. *)
Lemma foreign_spec (y : System Emu) e :
  foreign y e = true ->
  (forall conn d a seq r res, e = Cmd (Write conn d (Some (a, seq)) r) res ->
     (a ∉ y_ours y) /\ a < next_input_stream (meta (y_sess y))) /\
  (forall id from, e = Seed id from -> id ∉ y_ours y) /\
  (forall c res, e = Cmd c res -> cmd_resp c = y_resp y).
Proof.
  unfold foreign. intros Hf. split_and!.
  - intros conn d a seq r res ->. simpl in Hf. bools. split; [done|lia].
  - intros id from ->. bools. done.
  - intros c res ->. bools. done.
Qed.

Lemma step_env e y v y' :
  InInv y v -> step y (Env e) = Some y' -> is_Some (axes (y_sess y') !! y_head y') ->
  preserved y v (Env e) y'.
Proof.
  intros HI. cbn [Attach.step]. destruct (foreign y e) eqn:Hf; [|done].
  destruct (exec (y_sess y) e) as [s|] eqn:He; [|done]. intros [= <-] [v1 Hv1]. simpl in Hv1.
  pose proof (hi_in _ _ _ _ _ (ii_host _ _ HI)) as Hin.
  destruct (foreign_spec y e Hf) as (Hw & Hs & Hr).
  assert (client_of (y_typed y) (y_head y) e) as Hcl.
  { destruct e as [| | | | |[conn d [[a seq]|] r| | | | | |] res| | | | | | | | | |]; try done; simpl.
    - intros ->. by destruct (Hw _ _ _ _ _ _ eq_refl).
    - intros ->. by apply (Hs _ _ eq_refl). }
  set (n1 := match e with Cmd _ _ => y_resp y + 1 | _ => y_resp y end).
  assert (y_resp y <= n1) as Hn by (unfold n1; destruct e; lia).
  edestruct (InInv_move y v e s v1 (y_legs y) n1) as [HI' Hex]; [done|exact He|exact Hv1|exact Hcl|..].
  - intros conn d a seq r res ->. by destruct (Hw _ _ _ _ _ _ eq_refl).
  - apply HI.
  - done.
  - intros t Ht. split; [|by destruct (ii_ticket _ _ HI t Ht) as (_ & _ & ?)].
    eapply exec_axis_still; [exact He|apply HI|exact Hv1|..].
    + intros conn d seq r res ->. by destruct (Hw _ _ _ _ _ _ eq_refl).
    + intros from ->. by apply (Hs _ _ eq_refl).
  - intros Er. destruct (ii_cur _ _ HI Er) as (l & Hl & Hc). exists l. split; [done|].
    destruct (host_step _ _ _ _ _ _ _ _ (ii_host _ _ HI) He Hv1 Hcl) as (_ & Hle & Hal & _).
    { intros conn d a seq r res ->. by destruct (Hw _ _ _ _ _ _ eq_refl). }
    by eapply cur_ok_mono.
  - intros Hle. eapply tells_exec; [apply ok_reply_lost|exact He|..].
    + intros conn d q r res ->. apply tells_enqueue.
      * intros x. pose proof (Hr _ _ eq_refl) as Hrr. simpl in Hrr. subst r. split; [unfold n1; lia|].
        intros w0 Hw0 Hre. unfold cur_waiting in Hw0. destruct (y_recovering y) eqn:Er; [done|].
        destruct (ii_cur _ _ HI Er) as (l0 & Hl0 & Hc). rewrite Hl0 in Hw0.
        destruct (co_wait _ _ _ _ _ _ _ Hc w0 Hw0). lia.
      * eapply tells_weaken, HI. intros r' x. apply ok_reply_mono; [done..|by left].
    + eapply tells_weaken, HI. intros r' x. apply ok_reply_mono; [done..|by left].
  - exists v1. split; [exact HI'|]. intros _. apply Hex.
    destruct e as [| | | | |[conn d [[a seq]|] r| | | | | |] res| | | | | | | | | |]; try done.
    simpl. intros ->. by destruct (Hw _ _ _ _ _ _ eq_refl).
Qed.

(** The session applies a window change of leg [i]. *)
Lemma InInv_resize i l l' cols rows res y v :
  InInv y v -> y_legs y !! i = Some l -> l_stream l' = l_stream l -> leg_ok (y_typed y) (y_ours y) l' ->
  (y_recovering y = false -> i = 0%nat ->
   cur_ok (y_head y) (c_writer (y_client y)) (sent (c_pending (y_client y))) v (alive (y_sess y)) (y_resp y) l' /\
   l_waiting l' = None) ->
  let y' := resize_at emu_feed emu_resize gap_text i l' cols rows res y in
  is_Some (axes (y_sess y') !! y_head y) ->
  exists v', InInv y' v' /\
    (exact (y_sess y) (y_ours y) (y_typed y) v -> exact (y_sess y') (y_ours y) (y_typed y) v').
Proof.
  intros HI Hi Hst Hok Hcur y' Hpres. unfold y', resize_at in *.
  assert (forall r, l_stream (answer_resize r l') = l_stream l /\
    leg_ok (y_typed y) (y_ours y) (answer_resize r l') /\
    (y_recovering y = false -> i = 0%nat ->
     cur_ok (y_head y) (c_writer (y_client y)) (sent (c_pending (y_client y))) v (alive (y_sess y)) (y_resp y)
       (answer_resize r l') /\ l_waiting (answer_resize r l') = None)) as Ha.
  { intros r. unfold answer_resize. destruct (resize_answer r) as [f|] eqn:Ef; [|by auto].
    split_and!; [done|done|]. intros Er Hi0. destruct (Hcur Er Hi0) as [[] _]. split; [|done]. split; try done.
    intros ? [= <-]. unfold resize_answer in Ef. destruct r as [|[]]; simplify_eq; done. }
  rewrite (found_alive y v HI) in *.
  destruct (alive (y_sess y)) eqn:Hal.
  2: { exists v. split; [|done]. destruct (Ha (Err Broker.NotFound)) as (? & ? & Hc).
    eapply InInv_leg; [done|exact Hi|done|done|]. intros Er Hi0 _. destruct (Hc Er Hi0). rewrite Hal. auto. }
  set (e := Cmd (ResizeAt (l_conn l') cols rows (y_resp y)) res) in *.
  destruct (exec (y_sess y) e) as [s|] eqn:He; [|unfold e in He; cbn [Session.exec] in He; by rewrite Hal in He].
  destruct Hpres as [v1 Hv1]. cbn [with_legs with_sess y_sess] in Hv1.
  set (r := map_err _ _) in *. destruct (Ha r) as (Hs' & Hok' & Hc'). exists v1.
  destruct (host_step _ _ _ _ _ _ _ _ (ii_host _ _ HI) He Hv1) as (_ & Hle & Hlive & _); [done|done|].
  edestruct (InInv_move y v e s v1 (<[i := answer_resize r l']> (y_legs y)) (y_resp y + 1))
    as [HI' Hex]; [done|exact He|exact Hv1|done|done|..|split; [exact HI'|by apply Hex]].
  - apply Forall_insert; [apply HI|done].
  - lia.
  - intros t Ht. destruct (ii_ticket _ _ HI t Ht) as (_ & _ & Hf).
    split; [eapply exec_axis_still; [exact He|apply HI|exact Hv1|done|done]|].
    apply Forall_insert; [done|]. rewrite Hs'. rewrite Forall_lookup in Hf. by eapply Hf.
  - intros Er. destruct (decide (i = 0%nat)) as [->|Hne].
    + exists (answer_resize r l'). rewrite list_lookup_insert_eq by by eapply lookup_lt_Some.
      split; [done|]. destruct (Hc' Er eq_refl) as [Hc _].
      eapply cur_ok_mono; [exact Hle|..|exact Hc]; [done|lia].
    + destruct (ii_cur _ _ HI Er) as (l0 & Hl0 & Hc). exists l0. rewrite list_lookup_insert_ne by done.
      split; [done|]. eapply cur_ok_mono; [exact Hle|exact Hlive| |exact Hc]. lia.
  - intros _. eapply tells_exec; [apply ok_reply_lost|exact He|done|].
    eapply tells_weaken, HI. intros r' x. apply ok_reply_mono; [lia|done|].
    unfold cur_waiting. destruct (y_recovering y) eqn:Er; [by left|].
    destruct (decide (i = 0%nat)) as [->|Hne]; [|left; by rewrite list_lookup_insert_ne].
    right. rewrite list_lookup_insert_eq by by eapply lookup_lt_Some. cbn [mbind option_bind].
    destruct (Hc' eq_refl eq_refl) as [_ ->]. done.
Qed.

Lemma write_at_frame i l data seq copy (y : System Emu) :
  let y' := write_at emu_feed emu_resize i l data seq copy y in
  y_head y' = y_head y /\ y_ours y' = y_ours y /\ y_typed y' = y_typed y.
Proof. unfold write_at. destruct (found _); [|done]. by destruct (exec _ _). Qed.

Lemma resize_at_frame i l cols rows res (y : System Emu) :
  let y' := resize_at emu_feed emu_resize gap_text i l cols rows res y in
  y_head y' = y_head y /\ y_ours y' = y_ours y /\ y_typed y' = y_typed y.
Proof. unfold resize_at. destruct (found _); [|done]. by destruct (exec _ _). Qed.

Lemma step_deliver i res y v y' :
  InInv y v -> calm y (Deliver i res) -> step y (Deliver i res) = Some y' ->
  is_Some (axes (y_sess y') !! y_head y') -> preserved y v (Deliver i res) y'.
Proof.
  intros HI [_ Hcalm]. cbn [Attach.step]. unfold deliver.
  destruct (y_legs y !! i) as [l|] eqn:Hi; [|done]. cbn [mbind option_bind].
  destruct (l_up l) as [|f up] eqn:Hup; [done|]. destruct (l_waiting l) eqn:Hw; [done|].
  destruct (running l) eqn:Hrun; [|done].
  unfold running in Hrun. apply andb_true_iff in Hrun as [_ Hnf].
  assert (l_fault l = None) as Hf by by destruct (l_fault l). clear Hnf.
  pose proof (ii_legs _ _ HI) as Hlegs. rewrite Forall_lookup in Hlegs.
  destruct (leg_ok_shrink _ _ _ _ _ (Hlegs i l Hi) Hup) as [Hok Hfr].
  assert (y_recovering y = false -> i = 0%nat -> cur_ok (y_head y) (c_writer (y_client y))
    (sent (c_pending (y_client y))) v (alive (y_sess y)) (y_resp y) l) as Hcur.
  { intros Er ->. destruct (ii_cur _ _ HI Er) as (l0 & Hl0 & Hc). rewrite Hi in Hl0. by injection Hl0 as <-. }
  assert (y_recovering y = false -> i = 0%nat -> _) as Hcons
    by (intros Er Hi0; exact (consume_cur _ _ _ _ _ _ _ _ _ (Hcur Er Hi0) Hup Hw Hf)).
  destruct (input_frame (l_applied l) f) as [data seq|cols rows| |flt] eqn:Ef; intros [= <-] Hpres.
  - apply input_frame_write in Ef as ->.
    destruct (write_at_frame i (set_up up (l_copies l) l) data seq false y) as (Hh & Ho & Ht).
    rewrite Hh in Hpres. unfold preserved. rewrite Ho, Ht.
    edestruct (InInv_write i l (set_up up (l_copies l) l) data seq false y v) as (v' & HI' & Hex);
      [done|exact Hi|done|done|exact Hok|exact Hfr|by apply Hcalm|exact Hcons|exact Hpres|].
    exists v'. split; [done|]. intros Hal. apply Hex. intros Hs. by apply Hal.
  - destruct (resize_at_frame i (set_up up (l_copies l) l) cols rows res y) as (Hh & Ho & Ht).
    rewrite Hh in Hpres. unfold preserved. rewrite Ho, Ht.
    edestruct (InInv_resize i l (set_up up (l_copies l) l) cols rows res y v) as (v' & HI' & Hex);
      [done|exact Hi|done|exact Hok| |exact Hpres|by exists v'].
    intros Er Hi0. split; [by apply Hcons|done].
  - apply preserved_still; [|done..]. eapply InInv_leg; [done|exact Hi|done|exact Hok|].
    intros Er Hi0 _. split; [by apply Hcons|by right].
  - apply preserved_still; [|done..]. eapply InInv_leg; [done|exact Hi|done|exact Hok|].
    intros Er Hi0 _. by destruct (Hcons Er Hi0).
Qed.

Lemma step_copy i k y v y' :
  InInv y v -> calm y (Copy i k) -> step y (Copy i k) = Some y' ->
  is_Some (axes (y_sess y') !! y_head y') -> preserved y v (Copy i k) y'.
Proof.
  intros HI [_ Hcalm]. cbn [Attach.step]. unfold deliver_copy.
  destruct (y_legs y !! i) as [l|] eqn:Hi; [|done]. cbn [mbind option_bind].
  destruct (l_copies l !! k) as [[seq data]|] eqn:Hk; [|done]. cbn [mbind option_bind].
  destruct (_ && _) eqn:Hg; [|done]. intros [= <-] Hpres. unfold copy_applies in Hg. bools.
  destruct (l_waiting l) eqn:Hw; [done|].
  pose proof (ii_legs _ _ HI) as Hlegs. rewrite Forall_lookup in Hlegs.
  destruct (Hlegs i l Hi) as (Hu & Hc & Hs).
  destruct (write_at_frame i l data seq true y) as (Hh & Ho & Ht).
  rewrite Hh in Hpres. unfold preserved. rewrite Ho, Ht.
  edestruct (InInv_write i l l data seq true y v) as (v' & HI' & Hex);
    [done|exact Hi|done|done|by split_and!| |by apply Hcalm| |exact Hpres|].
  - rewrite Forall_lookup in Hc. by eapply Hc.
  - intros Er ->. destruct (ii_cur _ _ HI Er) as (l0 & Hl0 & [K1 K2 K2' K3 K4 K5 K6]).
    rewrite Hi in Hl0. injection Hl0 as <-. split; [|lia]. split; try done.
    + intros Hf. destruct (K2 Hf) as (x & q & Hx & Hq). exists x, q. split; [|done].
      unfold reach in *. rewrite Hw in Hx. done.
    + intros w [= <-]. simpl. split; [lia|]. intros _. lia.
  - exists v'. split; [done|]. intros Hal. apply Hex. intros Hst. by apply Hal.
Qed.

Lemma step_answer i y v y' : InInv y v -> step y (Answer i) = Some y' -> preserved y v (Answer i) y'.
Proof.
  intros HI. cbn [Attach.step]. unfold answer.
  destruct (y_legs y !! i) as [l|] eqn:Hi; [|done]. cbn [mbind option_bind].
  destruct (l_waiting l) as [w|] eqn:Hw; [|done]. cbn [mbind option_bind].
  destruct (write_reply _ _) as [r|] eqn:Hr; [|done]. cbn [mbind option_bind].
  destruct (running l); [|done]. intros [= <-]. apply preserved_still; [|done..].
  set (br := map_err _ r).
  pose proof (ii_legs _ _ HI) as Hlegs. rewrite Forall_lookup in Hlegs.
  destruct (answer_frame w br l) as (Hu & Hc & Hs).
  eapply InInv_leg; [done|exact Hi|exact Hs|unfold leg_ok; rewrite Hu, Hc, Hs; by apply (Hlegs i)|].
  intros Er -> Hcur. destruct (answer_cur _ _ _ _ _ _ w br l Hcur Hw) as [? ?]; [|auto].
  apply write_reply_in in Hr. destruct (ii_tell _ _ HI) as [Ht _]. apply Ht in Hr as [_ Hr].
  specialize (Hr w). unfold cur_waiting in Hr. rewrite Er, Hi in Hr. cbn [mbind option_bind] in Hr.
  specialize (Hr Hw eq_refl). unfold br. destruct r as [k|[]]; simpl; try done. split; [lia|]. intros _. lia.
Qed.

(** ** The client's own steps *)

(** What is said about the typed bytes so far stays true of more of them. *)
Lemma HostInv_typed (s : Sess) head ours S T v : HostInv s head ours S v -> HostInv s head ours (S ++ T) v.
Proof. intros []. split; try done; [by apply slices_grows|len_lia]. Qed.

(** The client's fields changed, and the current leg's; [T] was typed. *)
Lemma InInv_client y v c l l' T :
  InInv y v -> y_legs y !! 0%nat = Some l -> l_stream l' = l_stream l -> l_waiting l' = l_waiting l ->
  leg_ok (y_typed y ++ T) (y_ours y) l' -> pend_ok (y_typed y ++ T) (c_pending c) ->
  (alive (y_sess y) = true -> acked (c_pending c) <= v /\ c_mark c <= v) ->
  (y_recovering y = false ->
   cur_ok (y_head y) (c_writer (y_client y)) (sent (c_pending (y_client y))) v (alive (y_sess y)) (y_resp y) l ->
   cur_ok (y_head y) (c_writer c) (sent (c_pending c)) v (alive (y_sess y)) (y_resp y) l') ->
  (forall e, e ∈ c_errors c -> exists k, e = UnackedInputOverflow k) ->
  (forall cols rows, c_window c = Some (cols, rows) -> fits16 cols && fits16 rows = true) ->
  InInv (mkSystem (y_sess y) (<[0%nat := l']> (y_legs y)) c (y_head y) (y_ticket y) (y_recovering y)
    (y_resp y) (y_typed y ++ T) (y_ours y)) v.
Proof.
  intros HI Hl Hst Hwait Hok Hp Ha Hcur Herr Hwin.
  assert (0 < length (y_legs y))%nat as Hlt by by eapply lookup_lt_Some.
  split; cbn [y_sess y_legs y_client y_head y_ticket y_recovering y_resp y_typed y_ours]; try done.
  - by apply HostInv_typed, HI.
  - apply Forall_insert; [|done]. eapply Forall_impl; [apply HI|]. intros x. apply leg_ok_typed.
  - eapply tells_weaken, HI. intros r x. apply ok_reply_mono; [done..|]. left.
    unfold cur_waiting. destruct (y_recovering y); [done|].
    rewrite Hl, list_lookup_insert_eq by done. cbn [mbind option_bind]. done.
  - intros t Ht. destruct (ii_ticket _ _ HI t Ht) as (? & ? & Hf). split_and!; try done.
    apply Forall_insert; [done|]. rewrite Hst. rewrite Forall_lookup in Hf. by eapply Hf.
  - intros Er. exists l'. rewrite list_lookup_insert_eq by done. split; [done|].
    destruct (ii_cur _ _ HI Er) as (l0 & Hl0 & Hc). rewrite Hl in Hl0. injection Hl0 as <-. auto.
Qed.

(** The same where nothing was typed. *)
Lemma InInv_reader y v c l l' :
  InInv y v -> y_legs y !! 0%nat = Some l -> l_stream l' = l_stream l -> l_waiting l' = l_waiting l ->
  leg_ok (y_typed y) (y_ours y) l' -> pend_ok (y_typed y) (c_pending c) ->
  (alive (y_sess y) = true -> acked (c_pending c) <= v /\ c_mark c <= v) ->
  (y_recovering y = false ->
   cur_ok (y_head y) (c_writer (y_client y)) (sent (c_pending (y_client y))) v (alive (y_sess y)) (y_resp y) l ->
   cur_ok (y_head y) (c_writer c) (sent (c_pending c)) v (alive (y_sess y)) (y_resp y) l') ->
  (forall e, e ∈ c_errors c -> exists k, e = UnackedInputOverflow k) ->
  (forall cols rows, c_window c = Some (cols, rows) -> fits16 cols && fits16 rows = true) ->
  InInv (with_client c (with_legs (<[0%nat := l']> (y_legs y)) y)) v.
Proof.
  intros. unfold with_client, with_legs. cbn [y_sess y_legs y_head y_ticket y_recovering y_resp y_typed y_ours].
  pose proof (InInv_client y v c l l' []) as H'. rewrite app_nil_r in H'. auto.
Qed.

Lemma exact_typed (s : Sess) ours S T v : v <= len S -> exact s ours S v -> exact s ours (S ++ T) v.
Proof.
  unfold exact. intros Hv ->. unfold slice. rewrite dropN_app_le, takeN_app_le by len_lia. done.
Qed.

Lemma step_type data n y v y' : InInv y v -> step y (Type_ data n) = Some y' -> preserved y v (Type_ data n) y'.
Proof.
  intros HI. cbn [Attach.step]. unfold type_input.
  destruct (y_legs y !! 0%nat) as [l|] eqn:Hl; [|done]. cbn [mbind option_bind].
  destruct (c_writer (y_client y)) as [q|] eqn:Hq; [|done]. cbn [mbind option_bind].
  destruct (y_recovering y) eqn:Er; [done|].
  destruct (ii_cur _ _ HI Er) as (l0 & Hl0 & Hc). rewrite Hl in Hl0. injection Hl0 as <-. rewrite Hq in Hc.
  pose proof (ii_legs _ _ HI) as Hlegs. rewrite Forall_lookup in Hlegs. specialize (Hlegs 0%nat l Hl).
  pose proof (ii_pend _ _ HI) as (_ & Hsent & _).
  destruct (pending_push data (c_pending (y_client y))) as [p|e] eqn:Hp.
  - destruct (send_input q data) as [frames seq] eqn:Hs. intros [= <-].
    destruct (pend_push _ _ _ _ (ii_pend _ _ HI) Hp) as (Hpo & Hpa & Hps).
    rewrite (co_writer _ _ _ _ _ _ _ Hc q eq_refl), Hsent in Hs.
    destruct (send_input_spec (y_typed y ++ data) _ data n frames seq Hs) as (-> & Hall & Hfr & Hse & w & Hw & He);
      [len_lia|apply slice_tail|].
    exists v. split.
    2: { intros _. apply exact_typed, (hi_end _ _ _ _ _ (ii_host _ _ HI)). }
    rewrite <- Er. eapply InInv_client; [exact HI|exact Hl|done|done|..]; cbn [c_pending c_mark c_writer c_errors c_window].
    + destruct (leg_ok_typed _ data _ _ Hlegs) as (Hu & Hcp & Hst).
      split_and!; cbn [set_up l_up l_copies l_stream]; [by apply Forall_app|by apply Forall_app|done].
    + done.
    + rewrite Hpa. apply HI.
    + intros _ _. eapply cur_ok_send; [exact Hc|exact Hse|rewrite Hsent; exact Hw|].
      intros q0. destruct (Nat.leb_spec (length frames) n); [|done]. intros [= <-]. rewrite He by done.
      split; [done|]. by rewrite Hps, Hsent.
    + apply HI.
    + apply HI.
  - intros [= <-]. apply preserved_still; [|done..].
    pose proof (InInv_reader y v (mkClient (c_pending (y_client y)) (c_last_seq (y_client y)) None
      (c_mark (y_client y)) (c_window (y_client y)) (c_shown (y_client y)) (c_errors (y_client y) ++ [e])
      (c_broken (y_client y))) l l HI Hl eq_refl eq_refl Hlegs (ii_pend _ _ HI) (ii_acked _ _ HI)) as Hr.
    unfold with_legs in Hr. rewrite list_insert_id in Hr by done. apply Hr; cbn [c_writer c_pending c_errors c_window].
    + intros _. apply cur_ok_stop.
    + intros e'. rewrite elem_of_app, list_elem_of_singleton. intros [He| ->]; [by apply HI|].
      unfold pending_push in Hp. destruct (_ <? _); [|done]. injection Hp as <-. eauto.
    + apply HI.
Qed.

Lemma step_window cols rows sent y v y' :
  InInv y v -> step y (Window cols rows sent) = Some y' -> preserved y v (Window cols rows sent) y'.
Proof.
  intros HI. cbn [Attach.step]. unfold resize_window.
  destruct (y_legs y !! 0%nat) as [l|] eqn:Hl; [|done]. cbn [mbind option_bind].
  destruct (c_writer (y_client y)) as [q|] eqn:Hq; [|done]. cbn [mbind option_bind].
  destruct (y_recovering y || _) eqn:Eg; [done|]. apply orb_false_iff in Eg as [Er Hfit].
  apply negb_false_iff in Hfit. intros [= <-]. apply preserved_still; [|done..].
  pose proof (ii_legs _ _ HI) as Hlegs. rewrite Forall_lookup in Hlegs. destruct (Hlegs 0%nat l Hl) as (Hu & Hc & Hs).
  eapply InInv_reader; [exact HI|exact Hl|done|done|..]; cbn [c_pending c_mark c_writer c_errors c_window].
  - split_and!; cbn [set_up l_up l_copies l_stream]; [|done|done].
    apply Forall_app. split; [done|]. by destruct sent; repeat constructor.
  - apply HI.
  - apply HI.
  - intros _ [K1 K2 K2' K3 K4 K5 K6]. rewrite Hq in *. split; try done.
    + intros Hf. destruct (K2 Hf) as (x & w & Hx & Hup & Hw). exists x, w. split; [done|]. split.
      * cbn [set_up l_up]. eapply upto_app; [exact Hup|]. by destruct sent.
      * destruct sent; [done|]. done.
    + destruct sent; [done|]. done.
    + cbn [set_up l_up]. apply Forall_app. split; [done|]. destruct sent; [|done].
      constructor; [|done]. by split.
  - apply HI.
  - by intros ? ? [= <- <-].
Qed.

Lemma InInv_out i l o frames y v :
  InInv y v -> y_legs y !! i = Some l -> (forall k, FInputAck k ∉ frames) ->
  InInv (with_legs (<[i := set_out o frames l]> (y_legs y)) y) v.
Proof.
  intros HI Hi Hno. pose proof (ii_legs _ _ HI) as Hlegs. rewrite Forall_lookup in Hlegs.
  eapply InInv_leg; [done|exact Hi|done|by apply (Hlegs i l)|].
  intros _ _ [K1 K2 K2' K3 K4 K5 K6]. split; [|by right]. split; try done.
  intros Hl. destruct (K5 Hl) as [? Hk]. split; [done|]. intros k. cbn [set_out l_down].
  rewrite elem_of_app. intros [?|?]; [auto|]. by destruct (Hno k).
Qed.

Lemma step_pull i y v y' : InInv y v -> step y (Pull i) = Some y' -> preserved y v (Pull i) y'.
Proof.
  intros HI. cbn [Attach.step]. unfold pull. destruct (y_legs y !! i) as [l|] eqn:Hi; [|done].
  cbn [mbind option_bind]. destruct (running l); [|done].
  destruct (output_round _ _) as [[o frames] ns] eqn:Eo. intros [= <-]. apply preserved_still; [|done..].
  apply InInv_out; [done|done|]. intros k. unfold output_round in Eo.
  destruct (Ring.read _ _ _); injection Eo as <- <- <-; [apply pump_no_ack|apply not_elem_of_nil].
Qed.

Lemma step_cut i y v y' : InInv y v -> step y (Cut i) = Some y' -> preserved y v (Cut i) y'.
Proof.
  intros HI. cbn [Attach.step]. unfold cut. destruct (y_legs y !! i) as [l|] eqn:Hi; [|done].
  intros [= <-]. apply preserved_still; [|done..]. apply InInv_out; [done|done|].
  intros k. apply not_elem_of_nil.
Qed.

Lemma step_recv y v y' : InInv y v -> step y Recv = Some y' -> preserved y v Recv y'.
Proof.
  intros HI. cbn [Attach.step]. unfold recv. destruct (y_legs y !! 0%nat) as [l|] eqn:Hl; [|done].
  cbn [mbind option_bind]. destruct (y_recovering y || _) eqn:Eg; [done|].
  apply orb_false_iff in Eg as [Er _]. destruct (l_down l) as [|f down] eqn:Hd; [done|].
  intros [= <-]. apply preserved_still; [|done..].
  destruct (ii_cur _ _ HI Er) as (l0 & Hl0 & Hc). rewrite Hl in Hl0. injection Hl0 as <-.
  pose proof (ii_legs _ _ HI) as Hlegs. rewrite Forall_lookup in Hlegs.
  assert (forall c', pend_ok (y_typed y) (c_pending c') -> sent (c_pending c') = sent (c_pending (y_client y)) ->
    c_writer c' = c_writer (y_client y) -> c_errors c' = c_errors (y_client y) -> c_window c' = c_window (y_client y) ->
    (alive (y_sess y) = true -> acked (c_pending c') <= v /\ c_mark c' <= v) ->
    InInv (with_client c' (with_legs (<[0%nat := set_down down l]> (y_legs y)) y)) v) as Hgen.
  { intros c' Hp Hs Hw He Hwin Ha.
    eapply InInv_reader; [exact HI|exact Hl|done|done|by apply (Hlegs 0%nat l)|done|done|..].
    - intros _ [K1 K2 K2' K3 K4 K5 K6]. rewrite Hw, Hs. split; try done.
      intros Hlv. destruct (K5 Hlv) as [? Hk]. split; [done|]. intros k Hin. apply Hk. rewrite Hd. by right.
    - rewrite He. apply HI.
    - rewrite Hwin. apply HI. }
  destruct (read_frame f) as [[e|]|] eqn:Ef; [|apply Hgen; try done; apply HI..].
  destruct e as [sq d|ra af|n|fs code sg].
  - apply Hgen; unfold read_event; destruct (accept _ _); try done; apply HI.
  - apply Hgen; unfold read_event; try done; apply HI.
  - assert (f = FInputAck n) as ->.
    { unfold read_frame in Ef. destruct (validate f); [|done]. destruct f; simplify_eq; done. }
    destruct (pend_ack _ _ n (ii_pend _ _ HI)) as (Hpo & Hps & Hpa).
    apply Hgen; try done. intros Ha. destruct (ii_acked _ _ HI Ha).
    destruct (co_acks _ _ _ _ _ _ _ Hc Ha) as [_ Hk]. specialize (Hk n). rewrite Hd in Hk.
    specialize (Hk ltac:(by left)). cbn [read_event accept c_pending c_mark]. lia.
  - apply Hgen; unfold read_event; try done; apply HI.
Qed.

(** ** Reattaching *)

Lemma step_reattach y v y' :
  InInv y v -> step y Reattach = Some y' -> is_Some (axes (y_sess y') !! y_head y') ->
  preserved y v Reattach y'.
Proof.
  intros HI Hr [v1 Hv1]. pose proof Hr as Hr'. cbn [Attach.step] in Hr'.
  apply (reattach_steps emu_feed emu_resize) in Hr' as He.
  destruct (ii_host _ _ HI) as [Hinv Hhead Hours Hin Hfrom Hsl Hend].
  apply Inv_exec_all in He as Hinv'; [|done]. clear He Hr. unfold reattach in Hr'.
  destruct (found (y_sess y)); [|done]. injection Hr' as <-.
  set (id := next_input_stream (meta (y_sess y))) in *.
  assert (v1 = v) as ->.
  { unfold axes in *. simpl in Hv1. apply prune_lookup in Hv1. rewrite lookup_insert_eq in Hv1.
    rewrite Hhead in Hv1. by injection Hv1 as <-. }
  assert (chunks_of (id :: y_ours y) (queued (y_sess y)) = chunks_of (y_ours y) (queued (y_sess y))) as Hch.
  { apply chunks_of_fresh. intros c o Hc Hf. pose proof (Hfrom c id o Hc Hf). lia. }
  exists v. split.
  - split; cbn [y_sess y_legs y_client y_head y_ticket y_recovering y_resp y_typed y_ours
                c_pending c_mark c_errors c_window]; try apply HI; try done.
    + split; try done.
      * constructor; [simpl; lia|]. eapply Forall_impl; [exact Hours|]. simpl. intros a. lia.
      * by left.
      * intros c a o Hc Hf. simpl. pose proof (Hfrom c a o Hc Hf). lia.
      * change (slices (y_typed y) 0 v (chunks_of (id :: y_ours y) (queued (y_sess y)))). by rewrite Hch.
    + eapply Forall_impl; [apply HI|]. intros l (Hu & Hc & Hs). split_and!; [done|done|by right].
    + eapply tells_same; [..|eapply tells_weaken, HI]; [done|done|].
      intros r x. apply ok_reply_mono; [done|done|by right].
    + intros t [= <-]. cbn [t_stream t_input_from]. split_and!; [done| |].
      * unfold axes in Hhead. change (default 0 (applied_input (meta (y_sess y)) !! y_head y) = v). by rewrite Hhead.
      * eapply Forall_impl; [apply HI|]. intros l (_ & _ & Hs) Heq. rewrite Heq in Hs.
        rewrite Forall_forall in Hours. specialize (Hours _ Hs). simpl in Hours. lia.
  - intros _ Hex. unfold exact in *. cbn [y_sess y_ours y_typed].
    change (concat (snd <$> chunks_of (id :: y_ours y) (queued (y_sess y))) = slice 0 v (y_typed y)). by rewrite Hch.
Qed.

Lemma step_open principal conn physical no_steal sent0 y v y' :
  InInv y v -> step y (OpenStream principal conn physical no_steal sent0) = Some y' ->
  is_Some (axes (y_sess y') !! y_head y') ->
  preserved y v (OpenStream principal conn physical no_steal sent0) y'.
Proof.
  intros HI. cbn [Attach.step]. unfold open_stream. destruct (y_ticket y) as [t|] eqn:Et; [|done].
  cbn [mbind option_bind]. rewrite (found_alive y v HI). destruct (alive (y_sess y)) eqn:Hal; [|done].
  set (e := Cmd (TakeLease _ _ _ _ _) _). destruct (exec (y_sess y) e) as [s|] eqn:He; [|done].
  cbn [option_bind]. destruct (ii_ticket _ _ HI t Et) as (Hts & Htf & Hnone).
  destruct (ii_acked _ _ HI Hal) as [Hack Hmark].
  assert (forall v1, axes s !! y_head y = Some v1 -> v1 = v) as Hsame.
  { intros v1 Hv1. eapply exec_axis_still; [exact He|apply HI|exact Hv1|done|done]. }
  assert (forall w, tells (ok_reply (y_resp y) w v) (y_sess y) -> tells (ok_reply (y_resp y + 1) w v) s) as Htell.
  { intros w Hw. eapply tells_exec; [apply ok_reply_lost|exact He|done|].
    eapply tells_weaken, Hw. intros r x. apply ok_reply_mono; [lia|done|by left]. }
  destruct (fst _).
  - destruct (rejoin t sent0 (y_client y)) as [[[c up] copies] complete] eqn:Ej. intros [= <-] [v1 Hv1].
    cbn [y_sess y_head] in Hv1. rewrite (Hsame v1 Hv1) in Hv1.
    destruct (host_step _ _ _ _ _ _ _ _ (ii_host _ _ HI) He Hv1) as (Hh & _ & Hlive & Hex); [done|done|].
    destruct (rejoin_input (y_typed y) t sent0 (y_client y) c up copies complete v)
      as (Hpo & Hpa & Hm & Herr & Hwin & Hup & Hcp & Hcomp); try done; try apply HI.
    exists v. split; [|intros _; by apply Hex].
    split; cbn [y_sess y_legs y_client y_head y_ticket y_recovering y_resp y_typed y_ours]; try done.
    + constructor; [|apply HI]. split_and!; [done|done|]. cbn [l_stream]. rewrite Hts. apply HI.
    + intros _. rewrite Hm. done.
    + apply Htell. eapply tells_weaken, HI. intros r x. apply ok_reply_mono; [done|done|]. right.
      unfold cur_waiting. by destruct (negb complete).
    + intros Hrec. apply negb_false_iff in Hrec. destruct (Hcomp Hrec) as (Hw & Hse & Hupto).
      pose proof Hpo as (_ & Hsent & _).
      eexists. split; [done|]. split; try done; cbn [l_stream l_up l_fault l_waiting l_applied l_down].
      * intros _. exists v, (len (y_typed y)). split; [unfold reach; simpl; lia|]. split; [done|].
        intros q Hq. rewrite Hw in Hq. injection Hq as <-. done.
      * intros q Hq. rewrite Hw in Hq. injection Hq as <-. done.
      * intros _. split; [lia|]. intros k ?%elem_of_nil. done.
    + rewrite Herr. apply HI.
    + rewrite Hwin. apply HI.
  - intros [= <-] [v1 Hv1]. cbn [y_sess y_head] in Hv1. rewrite (Hsame v1 Hv1) in Hv1.
    destruct (host_step _ _ _ _ _ _ _ _ (ii_host _ _ HI) He Hv1) as (Hh & _ & Hlive & Hex); [done|done|].
    exists v. split; [|intros _; by apply Hex].
    split; cbn [y_sess y_legs y_client y_head y_ticket y_recovering y_resp y_typed y_ours]; try apply HI; try done.
    + apply Htell, HI.
    + intros Er. destruct (ii_cur _ _ HI Er) as (l & Hl & Hc). exists l. split; [done|].
      eapply cur_ok_mono; [reflexivity|exact Hlive| |exact Hc]. lia.
Qed.

(** ** Runs *)

Lemma in_step y v a y' :
  InInv y v -> calm y a -> step y a = Some y' -> is_Some (axes (y_sess y') !! y_head y') ->
  preserved y v a y'.
Proof.
  destruct a; intros HI Hc Hs Hp.
  - by apply step_env.
  - by apply step_type.
  - by apply step_window.
  - by apply step_deliver.
  - by apply step_copy.
  - by apply step_answer.
  - by apply step_pull.
  - by apply step_cut.
  - by apply step_recv.
  - by apply step_reattach.
  - by apply step_open.
Qed.

Lemma in_run y v acts y' :
  InInv y v -> run emu_feed emu_resize gap_text y acts = Some y' ->
  throughout emu_feed emu_resize gap_text calm y acts -> is_Some (axes (y_sess y') !! y_head y') ->
  exists v', InInv y' v' /\
    (throughout emu_feed emu_resize gap_text allowed y acts -> exact (y_sess y) (y_ours y) (y_typed y) v ->
     exact (y_sess y') (y_ours y') (y_typed y') v').
Proof.
  revert y v. induction acts as [|a acts IH]; intros y v HI Hr Hc Hp; cbn [run throughout] in *.
  - simplify_eq. by exists v.
  - destruct (step y a) as [y1|] eqn:E; [|done]. destruct Hc as [Hca Hc]. specialize (Hc y1 eq_refl).
    assert (is_Some (axes (y_sess y1) !! y_head y1)) as Hp1.
    { destruct acts; cbn [run throughout] in *; [by simplify_eq|]. apply Hc. }
    destruct (in_step y v a y1 HI Hca E Hp1) as (v1 & HI1 & Hex1).
    destruct (IH y1 v1 HI1 Hr Hc Hp) as (v' & HI' & Hex'). exists v'. split; [done|].
    intros [Ha Hal] Hex. apply Hex'; [by apply Hal|]. by apply Hex1.
Qed.

Lemma InInv_opened config emu t : InInv (opened config emu t) 0.
Proof.
  split; try done.
  - split; [apply Inv_create|done|by constructor|by left| |done|done].
    by intros c a o ?%elem_of_nil.
  - split; [by intros r x ?%elem_of_nil|by intros c r ?%elem_of_nil].
  - intros t0 [= <-]. done.
  - intros e ?%elem_of_nil. done.
Qed.

(** A run from the opening of the session, as the properties see it. *)
Lemma opened_run config emu t acts y v :
  run emu_feed emu_resize gap_text (opened config emu t) acts = Some y ->
  throughout emu_feed emu_resize gap_text calm (opened config emu t) acts ->
  axes (y_sess y) !! y_head y = Some v ->
  InInv y v /\ (throughout emu_feed emu_resize gap_text allowed (opened config emu t) acts ->
    concat (snd <$> chunks_of (y_ours y) (queued (y_sess y))) = takeN v (y_typed y)).
Proof.
  intros Hr Hc Hv. destruct (in_run _ 0 acts y (InInv_opened config emu t) Hr Hc ltac:(eauto)) as (v' & HI & Hex).
  assert (v' = v) as -> by (pose proof (hi_head _ _ _ _ _ (ii_host _ _ HI)); congruence).
  split; [done|]. intros Ha. rewrite (Hex Ha eq_refl). unfold slice. by rewrite N.sub_0_r.
Qed.

End System.

(** ** Properties *)



(** An attach that types, loses its connection with input in flight and
    unacknowledged, resumes, and detaches with everything applied. *)
Definition demo_typing : list Action :=
  [OpenStream "device:a" 7 7 false (Some 0%nat); Window 80 24 true; Type_ [x61; x62] 1; Deliver 0 (Ok tt);
   Deliver 0 (Ok tt); Env WriterRecv; Env (WriterDone (Ok tt) 0); Answer 0; Type_ [x63] 1; Copy 0 1;
   Env WriterRecv; Env (WriterDone (Ok tt) 0); Cut 0; Reattach;
   OpenStream "device:a" 8 8 false (Some 0%nat); Deliver 0 (Ok tt); Type_ [x64; x65] 1; Deliver 0 (Ok tt);
   Env WriterRecv; Env (WriterDone (Ok tt) 0); Answer 0; Recv].
Definition demo_typed : System unit := Eval vm_compute in
  default (opened default_config tt 0)
    (run demo_feed demo_resize demo_gap (opened default_config tt 0) demo_typing).

Ltac run_steps tac :=
  repeat (split; [tac|]; let y := fresh "y" in let H := fresh "H" in
    intros y H; vm_compute in H; injection H as <-); exact I.
Ltac calm_now :=
  split; [by eexists|]; first [exact I|intros ? [= <-]; vm_compute; auto].
Ltac allowed_now :=
  first [exact I|intros ? [= <-] _; vm_compute; auto].

Lemma demo_typing_runs :
  run demo_feed demo_resize demo_gap (opened default_config tt 0) demo_typing = Some demo_typed.
Proof. vm_compute. reflexivity. Qed.

Lemma demo_calm :
  throughout demo_feed demo_resize demo_gap calm (opened default_config tt 0) demo_typing.
Proof. run_steps calm_now. Qed.

Lemma demo_allowed :
  throughout demo_feed demo_resize demo_gap allowed (opened default_config tt 0) demo_typing.
Proof. run_steps allowed_now. Qed.



(** A reattach whose predecessor's last input frame is accepted between
    [session.attach] and the opening of the new data stream. *)
Definition demo_handover : list Action :=
  [OpenStream "device:a" 7 7 false (Some 0%nat); Type_ [x61; x62] 1; Deliver 0 (Ok tt); Env WriterRecv;
   Env (WriterDone (Ok tt) 0); Answer 0; Type_ [x63] 1; Reattach; Deliver 0 (Ok tt); Env WriterRecv;
   Env (WriterDone (Ok tt) 0); OpenStream "device:a" 8 8 false (Some 1%nat); Deliver 0 (Ok tt);
   Env WriterRecv; Env (WriterDone (Ok tt) 0); Answer 0; Recv].

(** The condition on superseded legs cannot be dropped.  A reattach forks
    the new input stream at the offset the host had accepted when
    [session.attach] was answered, while the old leg keeps the writer lease
    until the new data stream opens.  An input frame of the old leg delivered
    in between is run by the child, and run again when the client replays it
    on the new stream: the client typed [abc], every byte was acknowledged,
    and the child received [abcc]. *)
Example handover_duplicates :
  exists y, run demo_feed demo_resize demo_gap (opened default_config tt 0) demo_handover = Some y /\
    y_typed y = [x61; x62; x63] /\ child_in (y_sess y) = [x61; x62; x63; x63] /\
    acked (c_pending (y_client y)) = 3 /\ c_errors (y_client y) = [].
Proof. eexists. vm_compute. done. Qed.

End AttachInput.
