(* ===== verification/ScreenCodec.v ===== *)
(** * Byte-level helpers of the screen codec

    Models [crates/qsh-proto/src/screen/codec.rs] and the data types of
    [crates/qsh-proto/src/screen/mod.rs].  A reader is a parser on a byte
    list; the class [Codec] states what a reader and a writer promise to the
    formats built from them: what was written is read back, and bytes that
    are accepted are the encoding of the value read (the encoding is
    canonical).  Text is a list of bytes that is well-formed UTF-8. *)

From S2P Require Import Prelude.

Module ScreenCodec.

(** ** Readers *)

Inductive DecodeError :=
  | Truncated
  | Trailing
  | Invalid (rule : string).

Definition Reader (A : Type) : Type := list byte -> result (A * list byte) DecodeError.

Definition ret {A} (a : A) : Reader A := fun bs => Ok (a, bs).
Definition fail {A} (e : DecodeError) : Reader A := fun _ => Err e.
Definition bind {A B} (p : Reader A) (k : A -> Reader B) : Reader B :=
  fun bs => match p bs with Ok (a, r) => k a r | Err e => Err e end.

Notation "'let!' x ':=' c 'in' k" := (bind c (fun x => k))
  (at level 10, x pattern, c at level 100, k at level 200,
   format "'[v' let!  x  :=  c  in '/' k ']'") : rust_scope.

(** [if bad { return Err(e) }] *)
Definition guard (ok : bool) (e : DecodeError) : Reader unit := if ok then ret tt else fail e.

Definition u8 : Reader byte :=
  fun bs => match bs with [] => Err Truncated | b :: rest => Ok (b, rest) end.

Definition take (n : N) : Reader (list byte) :=
  fun bs => if len bs <? n then Err Truncated else Ok (takeN n bs, dropN n bs).

Definition finish : Reader unit :=
  fun bs => match bs with [] => Ok (tt, []) | _ => Err Trailing end.

(** The loop of [varint]: byte [i] of the encoding. *)
Fixpoint varint_loop (fuel : nat) (i value : N) : Reader N :=
  match fuel with
  | O => fail (Invalid "varint is longer than 10 bytes")
  | S fuel =>
      let! b := u8 in
      let low := N.land (b2n b) 127 in
      if (i =? 9) && (1 <? low) then fail (Invalid "varint overflows 64 bits")
      else
        let value := N.lor value (N.shiftl low (7 * i)) in
        if N.land (b2n b) 128 =? 0 then
          if (0 <? i) && (b2n b =? 0) then fail (Invalid "varint is not the shortest form")
          else ret value
        else varint_loop fuel (i + 1) value
  end.

Definition varint : Reader N := varint_loop 10 0 0.

Definition varint_u16 : Reader N :=
  let! v := varint in
  let! _ := guard (v <=? 65535) (Invalid "value does not fit in 16 bits") in
  ret v.

(** [count]: [usize] is 64 bits wide, so the conversion cannot fail. *)
Definition count (min_bytes_each : N) : Reader N :=
  let! n := varint in
  fun bs => if len bs / N.max min_bytes_each 1 <? n then Err Truncated else Ok (n, bs).

(** ** UTF-8 *)

Definition cont (b : byte) : bool := (128 <=? b2n b) && (b2n b <=? 191).
Definition between (lo hi : N) (b : byte) : bool := (lo <=? b2n b) && (b2n b <=? hi).
Definition low6 (b : byte) : N := b2n b - 128.

(** [std::str::from_utf8] and [str::chars]: the scalar values of a
    well-formed string. *)
Fixpoint chars (bs : list byte) : option (list N) :=
  match bs with
  | [] => Some []
  | b0 :: t =>
      let n := b2n b0 in
      if n <=? 127 then cons n <$> chars t
      else if (194 <=? n) && (n <=? 223) then
        match t with
        | b1 :: t' =>
            if cont b1 then cons ((n - 192) * 64 + low6 b1) <$> chars t' else None
        | _ => None
        end
      else if (224 <=? n) && (n <=? 239) then
        match t with
        | b1 :: b2 :: t' =>
            if between (if n =? 224 then 160 else 128) (if n =? 237 then 159 else 191) b1 && cont b2
            then cons ((n - 224) * 4096 + low6 b1 * 64 + low6 b2) <$> chars t' else None
        | _ => None
        end
      else if (240 <=? n) && (n <=? 244) then
        match t with
        | b1 :: b2 :: b3 :: t' =>
            if between (if n =? 240 then 144 else 128) (if n =? 244 then 143 else 191) b1
               && cont b2 && cont b3
            then cons ((n - 240) * 262144 + low6 b1 * 4096 + low6 b2 * 64 + low6 b3) <$> chars t'
            else None
        | _ => None
        end
      else None
  end.

Definition is_utf8 (bs : list byte) : bool := match chars bs with Some _ => true | None => false end.

(** [char::is_control]: the general category Cc. *)
Definition is_control (c : N) : bool := (c <? 32) || ((127 <=? c) && (c <? 160)).

(** [s.chars().any(char::is_control)] *)
Definition has_control (bs : list byte) : bool :=
  match chars bs with Some cs => existsb is_control cs | None => false end.

Definition string_ (max : N) : Reader (list byte) :=
  let! n := varint in
  let! _ := guard (n <=? max) (Invalid "string longer than its limit") in
  let! bytes := take n in
  let! _ := guard (is_utf8 bytes) (Invalid "string is not UTF-8") in
  ret bytes.

(** ** Cells *)

Definition MAX_CELL_TEXT : N := 32.

Inductive Color := Default | Idx (i : byte) | Rgb (r g b : byte).

(** [cell_flags] *)
Definition WIDE : N := 32.
Definition WIDE_CONT : N := 64.
Definition FLAGS_ALL : N := 127.

Record Cell := mkCell { text : list byte; fg : Color; bg : Color; flags : byte }.

(** [Cell::default] *)
Definition blank_cell : Cell := mkCell [] Default Default x00.

#[global] Instance Color_eq_dec : EqDecision Color.
Proof. solve_decision. Defined.
#[global] Instance Cell_eq_dec : EqDecision Cell.
Proof. solve_decision. Defined.

(** [x & mask != 0] *)
Definition has (b : byte) (mask : N) : bool := negb (N.land (b2n b) mask =? 0).

Definition color (kind : N) : Reader Color :=
  if kind =? 0 then ret Default
  else if kind =? 1 then let! i := u8 in ret (Idx i)
  else if kind =? 2 then
    let! b := take 3 in
    match b with
    | [r; g; b] => ret (Rgb r g b)
    | _ => fail Truncated
    end
  else fail (Invalid "unknown colour kind").

Definition cell : Reader Cell :=
  let! b0 := u8 in
  let! b1 := u8 in
  let flags := n2b (N.land (b2n b0) FLAGS_ALL) in
  let has_text := has b0 128 in
  let! _ := guard (negb (has b1 240)) (Invalid "reserved colour bits") in
  let! _ := guard (negb (has flags WIDE && has flags WIDE_CONT))
              (Invalid "cell is both wide and a continuation") in
  let! _ := guard (negb (has_text && has flags WIDE_CONT)) (Invalid "continuation cell has text") in
  let! fg := color (N.land (b2n b1) 3) in
  let! bg := color (N.land (N.shiftr (b2n b1) 2) 3) in
  if has_text then
    let! n := varint in
    let! _ := guard (negb ((n =? 0) || (MAX_CELL_TEXT <? n)))
                (Invalid "cell text length is out of range") in
    let! s := take n in
    let! _ := guard (is_utf8 s) (Invalid "cell text is not UTF-8") in
    let! _ := guard (negb (has_control s)) (Invalid "cell text has a control character") in
    ret (mkCell s fg bg flags)
  else ret (mkCell [] fg bg flags).

(** ** Writers *)

(** The loop of [put_varint]; a 64-bit value has at most ten groups. *)
Fixpoint put_varint_loop (fuel : nat) (v : N) : list byte :=
  match fuel with
  | O => []
  | S fuel =>
      let low := N.land v 127 in
      let v := N.shiftr v 7 in
      if v =? 0 then [n2b low] else n2b (N.lor low 128) :: put_varint_loop fuel v
  end.

Definition put_varint (v : N) : list byte := put_varint_loop 10 v.

Definition put_string (s : list byte) : list byte := put_varint (len s) ++ s.

Definition color_kind (c : Color) : N :=
  match c with Default => 0 | Idx _ => 1 | Rgb _ _ _ => 2 end.

Definition put_color (c : Color) : list byte :=
  match c with Default => [] | Idx i => [i] | Rgb r g b => [r; g; b] end.

Definition is_nil {A} (l : list A) : bool := match l with [] => true | _ => false end.

Definition put_cell (c : Cell) : list byte :=
  let has_text := negb (is_nil (text c)) in
  n2b (N.lor (N.land (b2n (flags c)) FLAGS_ALL) (if has_text then 128 else 0))
  :: n2b (N.lor (color_kind (fg c)) (N.shiftl (color_kind (bg c)) 2))
  :: put_color (fg c) ++ put_color (bg c) ++ (if has_text then put_string (text c) else []).

Definition cell_is_valid (c : Cell) : bool :=
  negb (has (flags c) 128)
  && negb (has (flags c) WIDE && has (flags c) WIDE_CONT)
  && (len (text c) <=? MAX_CELL_TEXT)
  && negb (has_control (text c))
  && negb (has (flags c) WIDE_CONT && negb (is_nil (text c))).

(** ** Codecs *)

Class Codec {A} (p : Reader A) (e : A -> list byte) (V : A -> Prop) : Prop := {
  codec_read a r : V a -> p (e a ++ r) = Ok (a, r);
  codec_canonical bs a r : p bs = Ok (a, r) -> V a /\ bs = e a ++ r;
}.

(** *** Bits of bytes *)

Lemma land_low v : N.land v 127 = v mod 128.
Proof. change 127 with (N.ones 7). by rewrite N.land_ones. Qed.

Lemma shift7 v : N.shiftr v 7 = v / 128.
Proof. by rewrite N.shiftr_div_pow2. Qed.

Lemma high_bit b : (N.land (b2n b) 128 =? 0) = (b2n b <? 128).
Proof. by destruct b. Qed.

Lemma with_high_bit low : low < 128 -> N.lor low 128 = low + 128.
Proof.
  intros H. rewrite <- N.lxor_lor, <- N.add_nocarry_lxor; [done|..];
    change 128 with (2 ^ 7) in *; apply N.bits_inj_0; intros j; rewrite N.land_spec, N.pow2_bits_eqb;
    (destruct (N.eqb_spec 7 j) as [<-|]; [|apply andb_false_r]);
    rewrite <- (N.mod_small low (2 ^ 7)) by done; by rewrite N.mod_pow2_bits_high.
Qed.

Lemma lor_shift value low k : value < 2 ^ k -> N.lor value (N.shiftl low k) = value + low * 2 ^ k.
Proof.
  intros H. rewrite <- N.shiftl_mul_pow2.
  assert (N.land value (N.shiftl low k) = 0) as Hz.
  { apply N.bits_inj_0. intros j. rewrite N.land_spec. destruct (N.lt_ge_cases j k).
    - rewrite N.shiftl_spec_low by done. apply andb_false_r.
    - rewrite <- (N.mod_small value (2 ^ k)) by done. by rewrite N.mod_pow2_bits_high. }
  by rewrite <- N.lxor_lor, <- N.add_nocarry_lxor.
Qed.

Lemma pow7_succ i : 2 ^ (7 * (i + 1)) = 128 * 2 ^ (7 * i).
Proof. rewrite N.mul_add_distr_l, N.pow_add_r. change (2 ^ (7 * 1)) with 128. lia. Qed.

Lemma pow64_succ i : i <= 8 -> 2 ^ (64 - 7 * i) = 128 * 2 ^ (64 - 7 * (i + 1)).
Proof.
  intros H. replace (64 - 7 * i) with (7 + (64 - 7 * (i + 1))) by lia. by rewrite N.pow_add_r.
Qed.

(** *** Variable-length integers *)

Definition is_u64 (v : N) : Prop := v < 2 ^ 64.

Lemma varint_loop_read fuel i value v r :
  i + N.of_nat fuel = 10 -> i <= 9 -> value < 2 ^ (7 * i) -> v < 2 ^ (64 - 7 * i) ->
  i = 0 \/ 0 < v ->
  varint_loop fuel i value (put_varint_loop fuel v ++ r) = Ok (value + v * 2 ^ (7 * i), r).
Proof.
  revert i value v. induction fuel as [|fuel IH]; intros i value v Hi H9 Hval Hv Hpos; [lia|].
  cbn [put_varint_loop varint_loop]. rewrite shift7, land_low.
  pose proof (N.div_mod v 128 ltac:(lia)) as Hdm. pose proof (N.mod_lt v 128 ltac:(lia)) as Hlow.
  assert (i = 9 -> v < 2) as Hnine by (intros ->; exact Hv).
  destruct (N.eqb_spec (v / 128) 0) as [E|E].
  - assert (v mod 128 = v) as Hm by lia. rewrite Hm in *. unfold bind, u8. simpl.
    rewrite high_bit, b2n_n2b_small, land_low, Hm, (proj2 (N.ltb_lt v 128)) by lia.
    assert ((i =? 9) && (1 <? v) = false) as ->.
    { destruct (N.eqb_spec i 9) as [H|]; [|done]. specialize (Hnine H). simpl. apply N.ltb_ge. lia. }
    assert ((0 <? i) && (v =? 0) = false) as ->.
    { destruct (N.ltb_spec 0 i); [|done]. simpl. apply N.eqb_neq. lia. }
    unfold ret. by rewrite lor_shift.
  - assert (i <> 9) as Hne by (intros H; specialize (Hnine H); lia).
    rewrite with_high_bit by done. unfold bind, u8. simpl.
    rewrite high_bit, b2n_n2b_small by lia.
    rewrite land_low, (proj2 (N.ltb_ge (v mod 128 + 128) 128)), (proj2 (N.eqb_neq i 9)) by lia. simpl.
    assert ((v mod 128 + 128) mod 128 = v mod 128) as ->.
    { symmetry. apply (N.mod_unique _ _ 1); lia. }
    rewrite lor_shift by done. rewrite IH; [| | |rewrite pow7_succ|rewrite pow64_succ in Hv by lia|right]; try lia.
    + rewrite pow7_succ. f_equal. f_equal. nia.
    + nia.
Qed.

Lemma varint_loop_canonical fuel i value bs a r :
  i + N.of_nat fuel = 10 -> value < 2 ^ (7 * i) -> varint_loop fuel i value bs = Ok (a, r) ->
  exists v, bs = put_varint_loop fuel v ++ r /\ a = value + v * 2 ^ (7 * i)
            /\ v < 2 ^ (64 - 7 * i) /\ (i = 0 \/ 0 < v).
Proof.
  revert i value bs. induction fuel as [|fuel IH]; intros i value bs Hi Hval; [done|].
  cbn [varint_loop]. unfold bind, u8. destruct bs as [|b t]; [done|]. cbn [put_varint_loop].
  pose proof (b2n_bound b) as Hb. rewrite high_bit, land_low.
  destruct ((i =? 9) && (1 <? b2n b mod 128)) eqn:E9; [done|].
  destruct (N.ltb_spec (b2n b) 128) as [Hlt|Hge].
  - destruct ((0 <? i) && (b2n b =? 0)) eqn:Es; [done|]. unfold ret. intros [= <- <-].
    rewrite N.mod_small in * by done. exists (b2n b). rewrite shift7, land_low, N.mod_small by done.
    rewrite N.div_small by done. simpl. rewrite n2b_b2n, lor_shift by done. split; [done|]. split; [done|].
    split.
    + destruct (N.eq_dec i 9) as [->|Hne]; [change (2 ^ (64 - 7 * 9)) with 2; rewrite N.eqb_refl in E9; simpl in E9; lia|].
      rewrite pow64_succ by lia. pose proof (N.pow_nonzero 2 (64 - 7 * (i + 1))). nia.
    + destruct (N.eqb_spec i 0); [by left|]. right. rewrite (proj2 (N.ltb_lt 0 i)) in Es by lia.
      simpl in Es. apply N.eqb_neq in Es. lia.
  - intros Hrec. destruct fuel as [|fuel']; [done|].
    rewrite lor_shift in Hrec by done. pose proof (N.mod_lt (b2n b) 128 ltac:(lia)).
    apply IH in Hrec as (w & -> & -> & Hw & [Hz|Hw0]); [lia| |lia|rewrite pow7_succ; nia].
    rewrite pow7_succ in *. exists (b2n b mod 128 + 128 * w). rewrite shift7, land_low.
    assert ((b2n b mod 128 + 128 * w) mod 128 = b2n b mod 128) as ->
      by (symmetry; apply (N.mod_unique _ _ w); lia).
    assert ((b2n b mod 128 + 128 * w) / 128 = w) as ->
      by (symmetry; apply (N.div_unique _ _ _ (b2n b mod 128)); lia).
    rewrite (proj2 (N.eqb_neq w 0)), with_high_bit by lia.
    assert (b2n b mod 128 + 128 = b2n b) as ->.
    { pose proof (N.div_mod (b2n b) 128 ltac:(lia)). assert (b2n b / 128 = 1); [|lia].
      symmetry. apply (N.div_unique _ _ _ (b2n b - 128)); lia. }
    rewrite n2b_b2n. split; [done|]. rewrite pow64_succ by lia. split; [nia|]. split; [nia|]. right. lia.
Qed.

#[global] Instance varint_codec : Codec varint put_varint is_u64.
Proof.
  split.
  - intros v r Hv. unfold varint, put_varint. rewrite varint_loop_read; try done; [|by left].
    do 2 f_equal. lia.
  - intros bs v r Hp. apply varint_loop_canonical in Hp as (w & -> & -> & Hw & _); [|done..].
    replace (0 + w * 2 ^ (7 * 0)) with w by lia. split; [exact Hw|done].
Qed.

(** *** Sequencing *)

Lemma bind_read {A B} (p : Reader A) e V `{!Codec p e V} (k : A -> Reader B) a r :
  V a -> bind p k (e a ++ r) = k a r.
Proof. intros HV. unfold bind. by rewrite codec_read. Qed.

Lemma bind_canonical {A B} (p : Reader A) e V `{!Codec p e V} (k : A -> Reader B) bs x r :
  bind p k bs = Ok (x, r) -> exists a t, V a /\ bs = e a ++ t /\ k a t = Ok (x, r).
Proof.
  unfold bind. destruct (p bs) as [[a t]|] eqn:E; [|done]. apply codec_canonical in E as [HV ->]. eauto.
Qed.

Lemma guard_read {B} ok e (k : unit -> Reader B) bs : ok = true -> bind (guard ok e) k bs = k tt bs.
Proof. by intros ->. Qed.

Lemma guard_canonical {B} ok e (k : unit -> Reader B) bs y :
  bind (guard ok e) k bs = Ok y -> ok = true /\ k tt bs = Ok y.
Proof. by destruct ok. Qed.

(** Take the next field out of a successful read. *)
Ltac next_field H a V :=
  match type of H with
  | bind ?p _ _ = _ =>
      let C := constr:(_ : Codec p _ _) in
      let t := fresh "t" in
      apply (bind_canonical p _ _ (Codec0 := C)) in H as (a & t & V & -> & H)
  end.
Ltac next_guard H G := apply guard_canonical in H as [G H].

#[global] Instance u8_codec : Codec u8 (fun b => [b]) (fun _ => True).
Proof. split; [done|]. intros [|b bs] a r; simpl; [done|]. by intros [= <- <-]. Qed.

#[global] Instance take_codec n : Codec (take n) (fun bs => bs) (fun bs => len bs = n).
Proof.
  split; unfold take.
  - intros a r Ha. destruct (N.ltb_spec (len (a ++ r)) n); [len_lia|].
    by rewrite takeN_app_len, dropN_app_len.
  - intros bs a r. destruct (N.ltb_spec (len bs) n); [done|]. intros [= <- <-].
    rewrite takeN_dropN. split; [len_lia|done].
Qed.

Definition is_u16 (v : N) : Prop := v <= 65535.

Lemma u16_u64 v : is_u16 v -> is_u64 v.
Proof. unfold is_u16, is_u64. change (2 ^ 64) with 18446744073709551616. lia. Qed.

#[global] Instance varint_u16_codec : Codec varint_u16 put_varint is_u16.
Proof.
  split; unfold varint_u16.
  - intros v r Hv. rewrite (bind_read varint put_varint is_u64) by by apply u16_u64.
    rewrite guard_read; [done|]. by apply N.leb_le.
  - intros bs v r H. next_field H w Hw. next_guard H G. injection H as -> ->.
    split; [by apply N.leb_le|done].
Qed.

(** Strings of at most [max] bytes, a [max] that fits a [u64]. *)
Definition is_str (max : N) (s : list byte) : Prop := len s <= max /\ is_utf8 s = true.

#[global] Instance string_codec max : Codec (string_ max) put_string (fun s => is_str max s /\ is_u64 (len s)).
Proof.
  split; unfold string_, put_string.
  - intros s r [[Hl Hu] H64]. rewrite <- app_assoc, (bind_read varint put_varint is_u64) by done.
    rewrite guard_read by by apply N.leb_le.
    rewrite (bind_read (take (len s)) (fun bs => bs) (fun bs => len bs = len s)) by done.
    by rewrite guard_read.
  - intros bs s r H. next_field H n Hn. next_guard H G. next_field H u Hu. next_guard H G'.
    injection H as -> ->. rewrite Hu, app_assoc. repeat split; try done.
    rewrite Hu. by apply N.leb_le.
Qed.

#[global] Instance color_codec kind : Codec (color kind) put_color (fun c => color_kind c = kind).
Proof.
  split; unfold color.
  - intros c r <-. destruct c; simpl; try done. unfold bind, take.
    destruct (N.ltb_spec (len (r0 :: g :: b :: r)) 3); [len_lia|].
    change (r0 :: g :: b :: r) with ([r0; g; b] ++ r).
    by rewrite takeN_app_len, dropN_app_len.
  - intros bs c r H. destruct (N.eqb_spec kind 0) as [->|]; [by injection H as <- <-|].
    destruct (N.eqb_spec kind 1) as [->|]; [next_field H i Hi; by injection H as <- <-|].
    destruct (N.eqb_spec kind 2) as [->|]; [|done].
    next_field H b Hb. destruct b as [|b0 [|b1 [|b2 [|]]]]; try done. by injection H as <- <-.
Qed.

Lemma bind_u8 {B} (k : byte -> Reader B) b r : bind u8 k (b :: r) = k b r.
Proof. done. Qed.

(** *** Cells *)

Definition cell_ok (c : Cell) : Prop := cell_is_valid c = true /\ is_utf8 (text c) = true.

Lemma flags_byte b (t : bool) :
  N.land (b2n b) 128 = 0 ->
  let b0 := n2b (N.lor (N.land (b2n b) FLAGS_ALL) (if t then 128 else 0)) in
  n2b (N.land (b2n b0) FLAGS_ALL) = b /\ has b0 128 = t.
Proof. by destruct b, t. Qed.

Lemma flags_inverse b0 :
  let b := n2b (N.land (b2n b0) FLAGS_ALL) in
  n2b (N.lor (N.land (b2n b) FLAGS_ALL) (if has b0 128 then 128 else 0)) = b0 /\ has b 128 = false.
Proof. by destruct b0. Qed.

Lemma kinds_byte k1 k2 :
  k1 <= 2 -> k2 <= 2 ->
  let b1 := n2b (N.lor k1 (N.shiftl k2 2)) in
  has b1 240 = false /\ N.land (b2n b1) 3 = k1 /\ N.land (N.shiftr (b2n b1) 2) 3 = k2.
Proof.
  intros H1 H2. assert (k1 = 0 \/ k1 = 1 \/ k1 = 2) as [->|[->| ->]] by lia;
    assert (k2 = 0 \/ k2 = 1 \/ k2 = 2) as [->|[->| ->]] by lia; done.
Qed.

Lemma kinds_inverse b1 :
  has b1 240 = false -> n2b (N.lor (N.land (b2n b1) 3) (N.shiftl (N.land (N.shiftr (b2n b1) 2) 3) 2)) = b1.
Proof. by destruct b1. Qed.

Lemma color_kind_le c : color_kind c <= 2.
Proof. destruct c; simpl; lia. Qed.

Lemma len_u64 (s : list byte) max : len s <= max -> max < 2 ^ 64 -> is_u64 (len s).
Proof. unfold is_u64. lia. Qed.

#[global] Instance cell_codec : Codec cell put_cell cell_ok.
Proof.
  split; unfold cell, put_cell.
  - intros [tx f b fl] r [Hv Hu]. unfold cell_is_valid in Hv. cbn [text fg bg flags] in *. bools.
    assert (has fl 128 = false) as Hfl by done. unfold has in Hfl. apply negb_false_iff, N.eqb_eq in Hfl.
    destruct (flags_byte fl (negb (is_nil tx)) Hfl) as [E1 E2].
    destruct (kinds_byte (color_kind f) (color_kind b) (color_kind_le f) (color_kind_le b)) as (E3 & E4 & E5).
    rewrite <- !app_comm_cons, !bind_u8, E1, E2, E3, E4, E5. rewrite guard_read by done.
    rewrite guard_read by (by apply negb_true_iff, andb_false_iff).
    rewrite guard_read by (apply negb_true_iff, andb_false_iff; tauto).
    rewrite <- !app_assoc, (bind_read (color _) put_color (fun c => color_kind c = color_kind f)) by done.
    rewrite (bind_read (color _) put_color (fun c => color_kind c = color_kind b)) by done.
    destruct tx as [|x tx']; cbn [is_nil negb] in *; [done|]. set (tx := x :: tx') in *.
    assert (len tx <> 0) by (subst tx; len_lia). unfold MAX_CELL_TEXT in *.
    unfold put_string. rewrite <- app_assoc, (bind_read varint put_varint is_u64) by (apply (len_u64 _ 32); done || lia).
    rewrite guard_read by (apply negb_true_iff, orb_false_iff; split; [by apply N.eqb_neq|by apply N.ltb_ge]).
    rewrite (bind_read (take (len tx)) (fun bs => bs) (fun bs => len bs = len tx)) by done.
    rewrite !guard_read by (done || by apply negb_true_iff). done.
  - intros bs c r H. next_field H b0 Hb0. next_field H b1 Hb1. next_guard H G1. next_guard H G2. next_guard H G3.
    next_field H f Hf. next_field H b Hb. apply negb_true_iff in G1, G2, G3.
    destruct (flags_inverse b0) as [E1 E2]. pose proof (kinds_inverse b1 G1) as E3.
    destruct (has b0 128) eqn:Ht.
    + next_field H n Hn. next_guard H G4. next_field H s Hs. next_guard H G5. next_guard H G6.
      injection H as <- <-. apply negb_true_iff, orb_false_iff in G4 as [G4 G4'].
      apply N.eqb_neq in G4. apply N.ltb_ge in G4'.
      assert (is_nil s = false) as Hnil by (destruct s; [by rewrite len_nil in Hs|done]).
      split.
      * split; [|done]. unfold cell_is_valid. cbn [text flags]. rewrite E2, G2, Hs, (proj2 (N.leb_le n _)) by done.
        simpl in G3. by rewrite G3, G6.
      * cbn [text fg bg flags]. rewrite Hnil. cbn [negb]. rewrite E1, Hf, Hb, E3. unfold put_string.
        rewrite Hs. simpl. by rewrite <- !app_assoc.
    + injection H as <- <-. split.
      * split; [|done]. unfold cell_is_valid. cbn [text flags]. rewrite E2, G2. simpl. by rewrite andb_false_r.
      * cbn [text fg bg flags is_nil negb]. rewrite E1, Hf, Hb, E3. simpl. by rewrite app_nil_r, <- app_assoc.
Qed.

(** *** Repetition *)

Lemma count_read {B} min (k : N -> Reader B) n r :
  0 < min -> is_u64 n -> n * min <= len r -> bind (count min) k (put_varint n ++ r) = k n r.
Proof.
  intros Hm Hn Hl. unfold bind, count, bind. rewrite codec_read by done.
  replace (N.max min 1) with min by lia.
  destruct (N.ltb_spec (len r / min) n) as [H|]; [|done].
  assert (n <= len r / min); [|lia]. apply N.div_le_lower_bound; lia.
Qed.

Lemma count_canonical {B} min (k : N -> Reader B) bs x r :
  0 < min -> bind (count min) k bs = Ok (x, r) ->
  exists n t, is_u64 n /\ bs = put_varint n ++ t /\ n * min <= len t /\ k n t = Ok (x, r).
Proof.
  intros Hm. unfold bind, count, bind. destruct (varint bs) as [[n t]|] eqn:E; [|done].
  apply codec_canonical in E as [Hn ->]. replace (N.max min 1) with min by lia.
  destruct (N.ltb_spec (len t / min) n); [done|]. intros Hk. exists n, t. repeat split; try done.
  pose proof (N.Div0.mul_div_le (len t) min). nia.
Qed.

Section Many.
Context {S A : Type}.
Variable step : S -> Reader A.
Variable e : A -> list byte.
Variable V : S -> A -> Prop.
Variable next : S -> A -> S.

(** [for _ in 0..n { items.push(read()?) }], with the state the loop keeps. *)
Fixpoint read_many (n : nat) (s : S) : Reader (list A) :=
  match n with
  | O => ret []
  | Datatypes.S n =>
      let! a := step s in
      let! l := read_many n (next s a) in
      ret (a :: l)
  end.

Fixpoint chain (s : S) (l : list A) : Prop :=
  match l with
  | [] => True
  | a :: l => V s a /\ chain (next s a) l
  end.

Definition encode_all (l : list A) : list byte := mjoin (e <$> l).

Context `{Hc : forall s, Codec (step s) e (V s)}.

Lemma encode_all_cons a l : encode_all (a :: l) = e a ++ encode_all l.
Proof. done. Qed.

Lemma many_read l s r : chain s l -> read_many (length l) s (encode_all l ++ r) = Ok (l, r).
Proof.
  revert s. induction l as [|a l IH]; intros s; [done|]. intros [Ha Hl]. cbn [length read_many].
  rewrite encode_all_cons, <- app_assoc, (bind_read (step s) e (V s)) by done.
  unfold bind. by rewrite IH.
Qed.

Lemma many_canonical n s bs l r :
  read_many n s bs = Ok (l, r) -> length l = n /\ chain s l /\ bs = encode_all l ++ r.
Proof.
  revert s bs l. induction n as [|n IH]; intros s bs l; cbn [read_many].
  - by intros [= <- <-].
  - intros H. apply (bind_canonical (step s) e (V s)) in H as (a & t & Ha & -> & H).
    unfold bind in H. destruct (read_many n (next s a) t) as [[l' r']|] eqn:E; [|done].
    injection H as <- <-. apply IH in E as (Hn & Hl & ->). rewrite encode_all_cons, <- app_assoc.
    simpl. auto.
Qed.

Lemma len_encode_all min l :
  (forall s a, V s a -> min <= len (e a)) -> forall s, chain s l -> len l * min <= len (encode_all l).
Proof.
  intros Hmin. induction l as [|a l IH]; intros s; [done|]. intros [Ha Hl].
  rewrite encode_all_cons, len_app, len_cons. specialize (Hmin s a Ha). specialize (IH _ Hl). lia.
Qed.
End Many.

(** A writer writes at least one byte per value. *)
Lemma len_put_varint v : 1 <= len (put_varint v).
Proof. unfold put_varint. cbn [put_varint_loop]. case_match; rewrite len_cons; lia. Qed.

Lemma len_put_cell c : 2 <= len (put_cell c).
Proof. unfold put_cell. rewrite !len_cons. lia. Qed.
End ScreenCodec.
