(* ===== verification/ScreenDiff.v ===== *)
(** * Screen states and their differences

    Models the screen state of [crates/qsh-proto/src/screen/mod.rs] and the
    differences, effects and updates of [crates/qsh-proto/src/screen/diff.rs].
    The hash function (BLAKE3) is a parameter.  The theorems: a difference
    turns its base into the new state, an update read back from its encoding
    is the update written, accepted bytes are canonical, and a decoded
    difference always applies to a valid screen and gives a valid one. *)

From S2P Require Import Prelude ScreenCodec.

Module ScreenDiff.
Import ScreenCodec.

(** ** States *)

Definition MAX_DIM : N := 2048.
Definition MAX_CELLS : N := N.shiftl 1 20.
Definition HASH_LEN : N := 8.

Record Row := mkRow { cells : list Cell; wrapped : bool }.

Record Modes := mkModes { m_flags : byte; mouse_mode : byte; mouse_encoding : byte }.

(** [Modes::default] *)
Definition default_modes : Modes := mkModes x00 x00 x00.

(** [Modes::is_valid]; [!FLAGS_ALL] of a [u8] is 224. *)
Definition modes_valid (m : Modes) : bool :=
  negb (has (m_flags m) 224) && (b2n (mouse_mode m) <=? 4) && (b2n (mouse_encoding m) <=? 2).

Record ScreenState := mkScreen {
  rows : N;
  cols : N;
  cursor_row : N;
  cursor_col : N;
  modes : Modes;
  grid : list Row;
}.

Definition size_is_valid (r c : N) : bool :=
  (1 <=? r) && (r <=? MAX_DIM) && ((1 <=? c) && (c <=? MAX_DIM)) && (r * c <=? MAX_CELLS).

Inductive BadSize := mkBadSize (r c : N).

(** [ScreenState::blank] *)
Definition blank_row (c : N) : Row := mkRow (replicate (N.to_nat c) blank_cell) false.

Definition blank (r c : N) : result ScreenState BadSize :=
  if size_is_valid r c
  then Ok (mkScreen r c 0 0 default_modes (replicate (N.to_nat r) (blank_row c)))
  else Err (mkBadSize r c).

(** [u16::to_le_bytes] *)
Definition to_le_bytes (v : N) : list byte := [n2b v; n2b (v / 256)].

Definition wrap_byte (w : bool) : byte := if w then x01 else x00.

Definition canonical_bytes (s : ScreenState) : list byte :=
  to_le_bytes (rows s) ++ to_le_bytes (cols s) ++ to_le_bytes (cursor_row s) ++ to_le_bytes (cursor_col s)
  ++ [m_flags (modes s); mouse_mode (modes s); mouse_encoding (modes s)]
  ++ mjoin ((fun row => wrap_byte (wrapped row) :: mjoin (put_cell <$> cells row)) <$> grid s).

Definition row_valid (c : N) (r : Row) : bool :=
  (len (cells r) =? c) && forallb cell_is_valid (cells r).

(** [ScreenState::is_valid] *)
Definition is_valid (s : ScreenState) : bool :=
  size_is_valid (rows s) (cols s)
  && (cursor_row s <? rows s) && (cursor_col s <? cols s)
  && modes_valid (modes s)
  && (len (grid s) =? rows s)
  && forallb (row_valid (cols s)) (grid s).

#[global] Instance Row_eq_dec : EqDecision Row.
Proof. solve_decision. Defined.
#[global] Instance Modes_eq_dec : EqDecision Modes.
Proof. solve_decision. Defined.
#[global] Instance ScreenState_eq_dec : EqDecision ScreenState.
Proof. solve_decision. Defined.

(** ** Differences *)

Definition MERGE_GAP : nat := 4.

Inductive ApplyError := ABadSize | BadHeader | OutOfRange | HashMismatch.

Record Run := mkRun { col : N; run_cells : list Cell }.

Record RowChange := mkChange { row : N; change_wrapped : bool; runs : list Run }.

Record Diff := mkDiff {
  d_rows : N;
  d_cols : N;
  d_cursor_row : N;
  d_cursor_col : N;
  d_modes : Modes;
  changes : list RowChange;
}.

(** [old.cells[k] != row.cells[k]]; every index the code uses is in range for
    rows of the same length. *)
Definition differs (old new : list Cell) (k : nat) : bool :=
  negb (bool_decide (old !! k = new !! k)).

(** The inner loop: the end of the run that starts before [end_], looking at
    column [k]. *)
Fixpoint extend (fuel : nat) (old new : list Cell) (k end_ : nat) : nat :=
  match fuel with
  | O => end_
  | S fuel =>
      if ((k <? length new) && (k - end_ <=? MERGE_GAP))%nat
      then extend fuel old new (S k) (if differs old new k then S k else end_)
      else end_
  end.

(** The outer loop over the columns of one row. *)
Fixpoint scan (fuel : nat) (old new : list Cell) (c : nat) : list Run :=
  match fuel with
  | O => []
  | S fuel =>
      if (c <? length new)%nat then
        if differs old new c then
          let end_ := extend (length new) old new (S c) (S c) in
          mkRun (N.of_nat c mod 65536) (list.take (end_ - c) (drop c new)) :: scan fuel old new end_
        else scan fuel old new (S c)
      else []
  end.

Definition row_runs (old new : list Cell) : list Run := scan (S (length new)) old new 0.

Fixpoint changed_rows (r : N) (old new : list Row) : list RowChange :=
  match old, new with
  | o :: old', n :: new' =>
      let rs := row_runs (cells o) (cells n) in
      (if negb (is_nil rs) || negb (Bool.eqb (wrapped o) (wrapped n))
       then [mkChange (r mod 65536) (wrapped n) rs] else [])
      ++ changed_rows (r + 1) old' new'
  | _, _ => []
  end.

Definition same_size (s : ScreenState) (r c : N) : bool := (rows s =? r) && (cols s =? c).

(** [ScreenDiff::between] *)
Definition between (base new : ScreenState) : result Diff BadSize :=
  let? base := if same_size base (rows new) (cols new) then Ok base
               else blank (rows new) (cols new) in
  Ok (mkDiff (rows new) (cols new) (cursor_row new) (cursor_col new) (modes new)
        (changed_rows 0 (grid base) (grid new))).

(** [row.cells[start..end].clone_from_slice(&run.cells)] *)
Definition splice (start : N) (new cs : list Cell) : list Cell :=
  takeN start cs ++ new ++ dropN (start + len new) cs.

Fixpoint apply_runs (c : N) (rs : list Run) (next_free : N) (cs : list Cell)
    : result (list Cell) ApplyError :=
  match rs with
  | [] => Ok cs
  | r :: rs' =>
      let start := col r in
      let end_ := start + len (run_cells r) in
      if is_nil (run_cells r) || (start <? next_free) || (c <? end_)
         || negb (forallb cell_is_valid (run_cells r))
      then Err OutOfRange
      else apply_runs c rs' end_ (splice start (run_cells r) cs)
  end.

Fixpoint apply_changes (r c : N) (chs : list RowChange) (last_row : option N) (g : list Row)
    : result (list Row) ApplyError :=
  match chs with
  | [] => Ok g
  | ch :: chs' =>
      if (r <=? row ch) || match last_row with Some l => row ch <=? l | None => false end
      then Err OutOfRange
      else
        let old := default (mkRow [] false) (g !! N.to_nat (row ch)) in
        let? cs := apply_runs c (runs ch) 0 (cells old) in
        apply_changes r c chs' (Some (row ch)) (<[N.to_nat (row ch) := mkRow cs (change_wrapped ch)]> g)
  end.

(** [ScreenDiff::apply] *)
Definition apply (d : Diff) (base : ScreenState) : result ScreenState ApplyError :=
  if negb (size_is_valid (d_rows d) (d_cols d)) then Err ABadSize
  else if (d_rows d <=? d_cursor_row d) || (d_cols d <=? d_cursor_col d) || negb (modes_valid (d_modes d))
  then Err BadHeader
  else
    let? out := if same_size base (d_rows d) (d_cols d) then Ok base
                else map_err (fun _ => ABadSize) (blank (d_rows d) (d_cols d)) in
    let? g := apply_changes (d_rows d) (d_cols d) (changes d) None (grid out) in
    Ok (mkScreen (rows out) (cols out) (d_cursor_row d) (d_cursor_col d) (d_modes d) g).

(** *** Encoding *)

Definition put_run (r : Run) : list byte :=
  put_varint (col r) ++ put_varint (len (run_cells r)) ++ encode_all put_cell (run_cells r).

Definition put_change (ch : RowChange) : list byte :=
  put_varint (row ch) ++ [wrap_byte (change_wrapped ch)]
  ++ put_varint (len (runs ch)) ++ encode_all put_run (runs ch).

(** [ScreenDiff::encode_into] *)
Definition encode_into (d : Diff) : list byte :=
  put_varint (d_rows d) ++ put_varint (d_cols d)
  ++ put_varint (d_cursor_row d) ++ put_varint (d_cursor_col d)
  ++ [m_flags (d_modes d)] ++ [mouse_mode (d_modes d)] ++ [mouse_encoding (d_modes d)]
  ++ put_varint (len (changes d)) ++ encode_all put_change (changes d).

Definition read_run (c next_free : N) : Reader Run :=
  let! cl := varint_u16 in
  let! n := count 2 in
  let! _ := guard (negb ((n =? 0) || (cl <? next_free) || (c <? cl + n)))
              (Invalid "run is empty, overlapping or off the row") in
  let! cs := read_many (fun _ : unit => cell) (fun u _ => u) (N.to_nat n) tt in
  ret (mkRun cl cs).

Definition run_end (_ : N) (r : Run) : N := col r + len (run_cells r).

Definition read_change (r c : N) (last_row : option N) : Reader RowChange :=
  let! rw := varint_u16 in
  let! _ := guard (negb ((r <=? rw) || match last_row with Some l => rw <=? l | None => false end))
              (Invalid "changed rows are not ascending") in
  let! w := u8 in
  let! wr := (if bool_decide (w = x00) then ret false
              else if bool_decide (w = x01) then ret true
              else fail (Invalid "wrap flag is not 0 or 1")) in
  let! n := count 4 in
  let! _ := guard (n <=? c) (Invalid "more runs than columns") in
  let! rs := read_many (read_run c) run_end (N.to_nat n) 0 in
  ret (mkChange rw wr rs).

Definition change_row (_ : option N) (ch : RowChange) : option N := Some (row ch).

(** [ScreenDiff::read] *)
Definition read_diff : Reader Diff :=
  let! r := varint_u16 in
  let! c := varint_u16 in
  let! _ := guard (size_is_valid r c) (Invalid "screen size out of range") in
  let! cr := varint_u16 in
  let! cc := varint_u16 in
  let! _ := guard (negb ((r <=? cr) || (c <=? cc))) (Invalid "cursor outside the screen") in
  let! f := u8 in
  let! mm := u8 in
  let! me := u8 in
  let! _ := guard (modes_valid (mkModes f mm me)) (Invalid "mode value out of range") in
  let! n := count 3 in
  let! _ := guard (n <=? r) (Invalid "more changed rows than rows") in
  let! chs := read_many (read_change r c) change_row (N.to_nat n) None in
  ret (mkDiff r c cr cc (mkModes f mm me) chs).

(** Reading a whole input: [read] then [finish]. *)
Definition whole {A} (p : Reader A) (bs : list byte) : result A DecodeError :=
  match (let! a := p in let! _ := finish in ret a) bs with
  | Ok (a, _) => Ok a
  | Err e => Err e
  end.

(** [ScreenDiff::decode] *)
Definition decode_diff (bs : list byte) : result Diff DecodeError := whole read_diff bs.

(** ** Effects *)

Definition MAX_TITLE_BYTES : N := 1024.
Definition MAX_CLIPBOARD_BYTES : N := 64 * 1024.
Definition MAX_HYPERLINK_PARAMS : N := 256.
Definition MAX_HYPERLINK_URI : N := 2048.
Definition MAX_EFFECTS : N := 64.
Definition MAX_UPDATE_BYTES : N := 1024 * 1024.
Definition MAX_SELECTION_BYTES : N := 8.

Inductive Effect :=
  | Title (t : list byte)
  | Bell
  | Clipboard (selection data : list byte)
  | Hyperlink (params uri : list byte).

Definition plain_text (s : list byte) (max : N) : bool := (len s <=? max) && negb (has_control s).

Definition is_alphanumeric (b : byte) : bool :=
  ScreenCodec.between 48 57 b || ScreenCodec.between 65 90 b || ScreenCodec.between 97 122 b.

Definition base64_text (s : list byte) : bool :=
  (len s <=? MAX_CLIPBOARD_BYTES)
  && forallb (fun b => is_alphanumeric b || (b2n b =? 43) || (b2n b =? 47) || (b2n b =? 61)) s.

(** The letters [cpqs] and the digits 0 to 7. *)
Definition selection_letters : list N := [99; 112; 113; 115; 48; 49; 50; 51; 52; 53; 54; 55].

Definition selection_text (s : list byte) : bool :=
  (len s <=? MAX_SELECTION_BYTES) && forallb (fun b => existsb (N.eqb (b2n b)) selection_letters) s.

Definition effect_valid (e : Effect) : bool :=
  match e with
  | Title t => plain_text t MAX_TITLE_BYTES
  | Bell => true
  | Clipboard selection data => selection_text selection && base64_text data
  | Hyperlink params uri => plain_text params MAX_HYPERLINK_PARAMS && plain_text uri MAX_HYPERLINK_URI
  end.

Definition put_effect (e : Effect) : list byte :=
  match e with
  | Title t => x01 :: put_string t
  | Bell => [x02]
  | Clipboard selection data => x03 :: put_string selection ++ put_string data
  | Hyperlink params uri => x04 :: put_string params ++ put_string uri
  end.

(** The body of an effect of kind [k]. *)
Definition read_effect_of (k : byte) : Reader Effect :=
  if b2n k =? 1 then let! t := string_ MAX_TITLE_BYTES in ret (Title t)
  else if b2n k =? 2 then ret Bell
  else if b2n k =? 3 then
    let! s := string_ MAX_SELECTION_BYTES in
    let! d := string_ MAX_CLIPBOARD_BYTES in
    ret (Clipboard s d)
  else if b2n k =? 4 then
    let! p := string_ MAX_HYPERLINK_PARAMS in
    let! u := string_ MAX_HYPERLINK_URI in
    ret (Hyperlink p u)
  else fail (Invalid "unknown effect kind").

Definition read_effect : Reader Effect :=
  let! k := u8 in
  let! e := read_effect_of k in
  let! _ := guard (effect_valid e) (Invalid "effect text breaks its rules") in
  ret e.

(** ** Updates *)

Record ScreenUpdate := mkUpdate {
  base_num : N;
  new_num : N;
  output_seq : N;
  diff : Diff;
  effects : list Effect;
  state_hash : list byte;
}.

(** [ScreenUpdate::encode] *)
Definition encode_update (u : ScreenUpdate) : list byte :=
  put_varint (base_num u) ++ put_varint (new_num u) ++ put_varint (output_seq u)
  ++ state_hash u ++ put_varint (len (effects u)) ++ encode_all put_effect (effects u)
  ++ encode_into (diff u).

Definition read_update : Reader ScreenUpdate :=
  let! bn := varint in
  let! nn := varint in
  let! _ := guard (bn <? nn) (Invalid "new_num is not greater than base_num") in
  let! os := varint in
  let! h := take HASH_LEN in
  let! n := count 1 in
  let! _ := guard (n <=? MAX_EFFECTS) (Invalid "too many effects") in
  let! es := read_many (fun _ : unit => read_effect) (fun u _ => u) (N.to_nat n) tt in
  let! d := read_diff in
  ret (mkUpdate bn nn os d es h).

(** [ScreenUpdate::decode] *)
Definition decode_update (bs : list byte) : result ScreenUpdate DecodeError :=
  if MAX_UPDATE_BYTES <? len bs then Err (Invalid "update is larger than the cap")
  else whole read_update bs.

Section Hashed.
(** BLAKE3 and its truncation to [HASH_LEN] bytes. *)
Variable blake3 : list byte -> list byte.

(** [ScreenState::hash] *)
Definition hash (s : ScreenState) : list byte := takeN HASH_LEN (blake3 (canonical_bytes s)).

(** [ScreenUpdate::apply] *)
Definition apply_update (u : ScreenUpdate) (base : ScreenState) : result ScreenState ApplyError :=
  let? s := apply (diff u) base in
  if bool_decide (hash s = state_hash u) then Ok s else Err HashMismatch.
End Hashed.

(** ** The formats are codecs *)

Definition run_ok (c next_free : N) (r : Run) : Prop :=
  is_u16 (col r) /\ is_u64 (len (run_cells r)) /\ len (run_cells r) <> 0 /\ next_free <= col r
  /\ col r + len (run_cells r) <= c /\ Forall cell_ok (run_cells r).

Definition after (last : option N) (r : N) : Prop :=
  match last with Some l => l < r | None => True end.

Definition change_ok (r c : N) (last : option N) (ch : RowChange) : Prop :=
  is_u16 (row ch) /\ row ch < r /\ after last (row ch)
  /\ is_u64 (len (runs ch)) /\ len (runs ch) <= c /\ chain (run_ok c) run_end 0 (runs ch).

Definition diff_ok (d : Diff) : Prop :=
  size_is_valid (d_rows d) (d_cols d) = true
  /\ d_cursor_row d < d_rows d /\ d_cursor_col d < d_cols d /\ modes_valid (d_modes d) = true
  /\ len (changes d) <= d_rows d
  /\ chain (change_ok (d_rows d) (d_cols d)) change_row None (changes d).

Lemma chain_unit {A} (P : A -> Prop) l : chain (fun _ : unit => P) (fun u _ => u) tt l <-> Forall P l.
Proof.
  induction l as [|a l IH]; simpl; [by split|]. rewrite Forall_cons. by rewrite IH.
Qed.

Lemma N2nat_len {A} (l : list A) : N.to_nat (len l) = length l.
Proof. unfold len. lia. Qed.

Lemma length_len {A} (l : list A) n : length l = N.to_nat n -> len l = n.
Proof. unfold len. lia. Qed.

Lemma size_valid_bounds r c :
  size_is_valid r c = true -> 1 <= r <= 2048 /\ 1 <= c <= 2048.
Proof. unfold size_is_valid, MAX_DIM. intros. bools. lia. Qed.

Lemma len_cells (l : list Cell) : len l * 2 <= len (encode_all put_cell l).
Proof.
  apply (len_encode_all put_cell (fun _ _ => True) (fun u _ => u) 2 l (fun _ c _ => len_put_cell c) tt).
  by induction l.
Qed.

Lemma small_u64 n : n <= 65535 -> is_u64 n.
Proof. apply u16_u64. Qed.

#[global] Instance run_codec c nf : Codec (read_run c nf) put_run (run_ok c nf).
Proof.
  split; unfold read_run, put_run.
  - intros [cl cs] r (Hcl & Hn & H0 & Hnf & Hc & Hcs). cbn [col run_cells] in *.
    rewrite <- !app_assoc, (bind_read varint_u16 put_varint is_u16) by done.
    rewrite count_read by (done || (rewrite len_app; pose proof (len_cells cs); lia)).
    rewrite guard_read by lia.
    unfold bind. rewrite N2nat_len, (many_read _ put_cell (fun _ => cell_ok)); [done|apply _|by apply chain_unit].
  - intros bs x r H. next_field H cl Hcl. apply count_canonical in H as (n & t' & Hn & -> & Hlen & H); [|done].
    next_guard H G. unfold bind in H. destruct (read_many _ _ _ _ _) as [[cs r']|] eqn:E; [|done].
    injection H as <- <-.
    apply (many_canonical _ put_cell (fun _ => cell_ok)) in E as (Hlc%length_len & Hcs%chain_unit & ->);
      [|apply _].
    cbn [col run_cells]. subst n. rewrite <- !app_assoc. split; [|done].
    repeat split; try done; cbn [col run_cells]; lia.
Qed.

Lemma len_put_run c nf r : run_ok c nf r -> 4 <= len (put_run r).
Proof.
  intros (_ & _ & H0 & _). unfold put_run. rewrite !len_app. pose proof (len_put_varint (col r)).
  pose proof (len_put_varint (len (run_cells r))). pose proof (len_cells (run_cells r)). lia.
Qed.

Lemma wrap_read (w : bool) bs :
  (if bool_decide (wrap_byte w = x00) then ret false
   else if bool_decide (wrap_byte w = x01) then ret true
   else fail (Invalid "wrap flag is not 0 or 1")) bs = Ok (w, bs).
Proof. by destruct w. Qed.

Lemma bind_wrap {B} (k : bool -> Reader B) w bs y :
  bind (if bool_decide (w = x00) then ret false
        else if bool_decide (w = x01) then ret true
        else fail (Invalid "wrap flag is not 0 or 1")) k bs = Ok y ->
  exists wr, w = wrap_byte wr /\ k wr bs = Ok y.
Proof.
  case_bool_decide; [by exists false|]. case_bool_decide; [by exists true|done].
Qed.

#[global] Instance change_codec r c last : Codec (read_change r c last) put_change (change_ok r c last).
Proof.
  split; unfold read_change, put_change.
  - intros [rw w rs] t (Hrw & Hr & Hlast & Hn & Hc & Hrs). cbn [row change_wrapped runs] in *.
    rewrite <- !app_assoc, (bind_read varint_u16 put_varint is_u16) by done.
    rewrite guard_read.
    2: { rewrite (proj2 (N.leb_gt r rw)) by done. destruct last as [l|]; [|done]. simpl in Hlast.
         by rewrite (proj2 (N.leb_gt rw l)). }
    rewrite <- app_comm_cons, bind_u8. unfold bind at 1. rewrite wrap_read. cbn [app].
    pose proof (len_encode_all put_run (run_ok c) run_end 4 rs (len_put_run c) 0 Hrs).
    rewrite count_read by (done || (rewrite len_app; lia)).
    rewrite guard_read by lia.
    unfold bind. rewrite N2nat_len, (many_read _ put_run (run_ok c)); [done|apply _|done].
  - intros bs x t H. next_field H rw Hrw. next_guard H G. next_field H w Hw.
    apply bind_wrap in H as (wr & -> & H).
    apply count_canonical in H as (n & t' & Hn & -> & Hlen & H); [|done]. next_guard H G2.
    unfold bind in H. destruct (read_many _ _ _ _ _) as [[rs r']|] eqn:E; [|done]. injection H as <- <-.
    apply (many_canonical _ put_run (run_ok c)) in E as (Hl%length_len & Hrs & ->); [|apply _].
    cbn [row change_wrapped runs]. subst n. rewrite <- !app_assoc. split; [|done].
    repeat split; try done; cbn [row runs]; [lia| |lia]. destruct last; simpl; [|done].
    apply negb_true_iff, orb_false_iff in G as [_ G]. by apply N.leb_gt.
Qed.

Lemma len_put_change r c last ch : change_ok r c last ch -> 3 <= len (put_change ch).
Proof.
  intros _. unfold put_change. rewrite !len_app, len_cons. pose proof (len_put_varint (row ch)).
  pose proof (len_put_varint (len (runs ch))). lia.
Qed.

#[global] Instance diff_codec : Codec read_diff encode_into diff_ok.
Proof.
  split; unfold read_diff, encode_into.
  - intros [r c cr cc [f mm me] chs] t (Hsz & Hcr & Hcc & Hm & Hn & Hch).
    cbn [d_rows d_cols d_cursor_row d_cursor_col d_modes changes m_flags mouse_mode mouse_encoding] in *.
    destruct (size_valid_bounds r c Hsz) as [Hr Hc].
    rewrite <- !app_assoc. rewrite (bind_read varint_u16 put_varint is_u16) by (unfold is_u16; lia).
    rewrite (bind_read varint_u16 put_varint is_u16) by (unfold is_u16; lia). rewrite guard_read by done.
    rewrite (bind_read varint_u16 put_varint is_u16) by (unfold is_u16; lia).
    rewrite (bind_read varint_u16 put_varint is_u16) by (unfold is_u16; lia). rewrite guard_read by lia.
    cbn [app]. rewrite !bind_u8, guard_read by done.
    pose proof (len_encode_all put_change (change_ok r c) change_row 3 chs (len_put_change r c) None Hch).
    rewrite count_read by (done || (apply small_u64; lia) || (rewrite len_app; lia)).
    rewrite guard_read by lia.
    unfold bind. rewrite N2nat_len, (many_read _ put_change (change_ok r c)); [done|apply _|done].
  - intros bs x t H. next_field H r Hr. next_field H c Hc. next_guard H G1.
    next_field H cr Hcr. next_field H cc Hcc. next_guard H G2.
    next_field H f Hf. next_field H mm Hmm. next_field H me Hme. next_guard H G3.
    apply count_canonical in H as (n & t' & Hn & -> & Hlen & H); [|done]. next_guard H G4.
    unfold bind in H. destruct (read_many _ _ _ _ _) as [[chs r']|] eqn:E; [|done]. injection H as <- <-.
    apply (many_canonical _ put_change (change_ok r c)) in E as (Hl%length_len & Hchs & ->); [|apply _].
    cbn [d_rows d_cols d_cursor_row d_cursor_col d_modes changes m_flags mouse_mode mouse_encoding].
    subst n. rewrite <- !app_assoc. split; [|done].
    repeat split; try done; cbn [d_rows d_cols d_cursor_row d_cursor_col changes]; lia.
Qed.

Definition effect_texts (e : Effect) : list (list byte) :=
  match e with
  | Title t => [t]
  | Bell => []
  | Clipboard s d => [s; d]
  | Hyperlink p u => [p; u]
  end.

Definition effect_ok (e : Effect) : Prop :=
  effect_valid e = true /\ Forall (fun t => is_utf8 t = true) (effect_texts e).

(** A text within the limit of its field. *)
Lemma str_field (s : list byte) max :
  len s <= max -> max <= 65536 -> is_utf8 s = true -> is_str max s /\ is_u64 (len s).
Proof.
  intros. repeat split; [done|done|]. unfold is_u64. change (2 ^ 64) with 18446744073709551616. lia.
Qed.

Definition effect_kind (e : Effect) : byte :=
  match e with Title _ => x01 | Bell => x02 | Clipboard _ _ => x03 | Hyperlink _ _ => x04 end.

Definition put_effect_body (e : Effect) : list byte :=
  match e with
  | Title t => put_string t
  | Bell => []
  | Clipboard s d => put_string s ++ put_string d
  | Hyperlink p u => put_string p ++ put_string u
  end.

Lemma put_effect_split e : put_effect e = effect_kind e :: put_effect_body e.
Proof. by destruct e. Qed.

(** The lengths the reader enforces. *)
Definition effect_fits (e : Effect) : Prop :=
  match e with
  | Title t => len t <= MAX_TITLE_BYTES
  | Bell => True
  | Clipboard s d => len s <= MAX_SELECTION_BYTES /\ len d <= MAX_CLIPBOARD_BYTES
  | Hyperlink p u => len p <= MAX_HYPERLINK_PARAMS /\ len u <= MAX_HYPERLINK_URI
  end.

Lemma effect_valid_fits e : effect_valid e = true -> effect_fits e.
Proof.
  destruct e; simpl; unfold plain_text, selection_text, base64_text; intros; bools; done.
Qed.

Ltac read_string max :=
  rewrite (bind_read (string_ max) put_string (fun s => is_str max s /\ is_u64 (len s)))
    by (by apply str_field).

#[global] Instance effect_body_codec k :
  Codec (read_effect_of k) put_effect_body
    (fun e => effect_kind e = k /\ effect_fits e /\ Forall (fun t => is_utf8 t = true) (effect_texts e)).
Proof.
  split; unfold read_effect_of.
  - intros e r (<- & Hl & Hu).
    destruct e; cbn [effect_kind put_effect_body effect_fits effect_texts] in *;
      repeat (apply Forall_cons in Hu as [? Hu]).
    + change (b2n x01 =? 1) with true. cbn [negb]. by read_string MAX_TITLE_BYTES.
    + done.
    + change (b2n x03 =? 1) with false. change (b2n x03 =? 2) with false. change (b2n x03 =? 3) with true.
      destruct Hl. rewrite <- app_assoc. read_string MAX_SELECTION_BYTES. by read_string MAX_CLIPBOARD_BYTES.
    + change (b2n x04 =? 1) with false. change (b2n x04 =? 2) with false. change (b2n x04 =? 3) with false.
      change (b2n x04 =? 4) with true.
      destruct Hl. rewrite <- app_assoc. read_string MAX_HYPERLINK_PARAMS. by read_string MAX_HYPERLINK_URI.
  - intros bs e r H.
    repeat match type of H with
    | (if b2n k =? ?n then _ else _) _ = _ =>
        let E := fresh "E" in destruct (N.eqb_spec (b2n k) n) as [E|]
    end; [| | | |done].
    + next_field H s Hs. injection H as <- <-. destruct Hs as [[] _].
      repeat split; [by apply b2n_inj|done|by repeat constructor].
    + injection H as <- <-. repeat split; [by apply b2n_inj|constructor].
    + next_field H s Hs. next_field H d Hd. injection H as <- <-. destruct Hs as [[] _], Hd as [[] _].
      cbn [put_effect_body]. rewrite <- app_assoc. repeat split; [by apply b2n_inj|done|done|by repeat constructor].
    + next_field H p Hp. next_field H u Hu. injection H as <- <-. destruct Hp as [[] _], Hu as [[] _].
      cbn [put_effect_body]. rewrite <- app_assoc. repeat split; [by apply b2n_inj|done|done|by repeat constructor].
Qed.

#[global] Instance effect_codec : Codec read_effect put_effect effect_ok.
Proof.
  split; unfold read_effect.
  - intros e r [Hv Hu]. rewrite put_effect_split, <- app_comm_cons, bind_u8.
    unfold bind at 1. rewrite codec_read by (by pose proof (effect_valid_fits e Hv)). by rewrite guard_read.
  - intros bs e r H. next_field H k Hk. next_field H e' He. next_guard H G. injection H as -> ->.
    destruct He as (<- & _ & Hu). by rewrite put_effect_split.
Qed.

Lemma len_put_effect e : 1 <= len (put_effect e).
Proof. rewrite put_effect_split, len_cons. lia. Qed.

Definition update_ok (u : ScreenUpdate) : Prop :=
  is_u64 (base_num u) /\ is_u64 (new_num u) /\ base_num u < new_num u /\ is_u64 (output_seq u)
  /\ len (state_hash u) = HASH_LEN /\ len (effects u) <= MAX_EFFECTS /\ Forall effect_ok (effects u)
  /\ diff_ok (diff u).

#[global] Instance update_codec : Codec read_update encode_update update_ok.
Proof.
  split; unfold read_update, encode_update.
  - intros [bn nn os d es h] r (Hb & Hn & Hlt & Ho & Hh & Hne & Hes & Hd).
    cbn [base_num new_num output_seq diff effects state_hash] in *. rewrite <- !app_assoc.
    rewrite (bind_read varint put_varint is_u64), (bind_read varint put_varint is_u64) by done.
    rewrite guard_read by lia. rewrite (bind_read varint put_varint is_u64) by done.
    rewrite (bind_read (take HASH_LEN) (fun bs => bs) (fun bs => len bs = HASH_LEN)) by done.
    assert (chain (fun _ : unit => effect_ok) (fun u _ => u) tt es) as Hch by by apply chain_unit.
    pose proof (len_encode_all put_effect _ _ 1 es (fun _ e _ => len_put_effect e) tt Hch).
    unfold MAX_EFFECTS in *.
    rewrite count_read by (done || (apply small_u64; lia) || (rewrite len_app; lia)).
    rewrite guard_read by lia. unfold bind at 1.
    rewrite N2nat_len, (many_read _ put_effect (fun _ => effect_ok)); [|apply _|done].
    unfold bind. by rewrite codec_read.
  - intros bs u r H. next_field H bn Hb. next_field H nn Hn. next_guard H G1. next_field H os Ho.
    next_field H h Hh. apply count_canonical in H as (n & t' & Hn' & -> & Hlen & H); [|done].
    next_guard H G2. unfold bind at 1 in H. destruct (read_many _ _ _ _ _) as [[es r']|] eqn:E; [|done].
    apply (many_canonical _ put_effect (fun _ => effect_ok)) in E as (Hl%length_len & Hes%chain_unit & ->);
      [|apply _].
    next_field H d Hd. injection H as <- <-.
    cbn [base_num new_num output_seq diff effects state_hash]. subst n. rewrite <- !app_assoc.
    split; [|done]. repeat split; try done; cbn [base_num new_num effects]; lia || apply Hd.
Qed.

Lemma whole_read {A} (p : Reader A) e V `{!Codec p e V} a : V a -> whole p (e a) = Ok a.
Proof.
  intros HV. unfold whole. rewrite <- (app_nil_r (e a)), (bind_read p e V) by done. done.
Qed.

Lemma whole_canonical {A} (p : Reader A) e V `{!Codec p e V} bs a :
  whole p bs = Ok a -> V a /\ e a = bs.
Proof.
  unfold whole, bind. destruct (p bs) as [[a' t]|] eqn:E; [|done]. apply codec_canonical in E as [HV ->].
  destruct t; simpl; [|done]. intros [= <-]. by rewrite app_nil_r.
Qed.

(** ** A difference turns its base into the new state *)

Lemma extend_bounds fuel old new k e :
  (e <= k)%nat -> (e <= length new)%nat ->
  (e <= extend fuel old new k e)%nat /\ (extend fuel old new k e <= length new)%nat.
Proof.
  revert k e. induction fuel as [|fuel IH]; intros k e Hk He; simpl; [lia|].
  destruct (Nat.ltb_spec k (length new)); simpl; [|lia].
  destruct (Nat.leb_spec (k - e) MERGE_GAP); [|lia].
  destruct (differs old new k).
  - specialize (IH (S k) (S k) ltac:(lia) ltac:(lia)). lia.
  - apply IH; lia.
Qed.

Lemma forallb_Forall {A} (P : A -> bool) l : forallb P l = true <-> Forall (fun x => P x = true) l.
Proof.
  induction l as [|x l IH]; simpl; [by split|]. rewrite andb_true_iff, Forall_cons. by rewrite IH.
Qed.

(** A row whose first [c] cells are already the new ones. *)
Definition patched (old new : list Cell) (c : nat) : list Cell := list.take c new ++ drop c old.

Lemma patched_step old new c :
  (c < length new)%nat -> length old = length new -> differs old new c = false ->
  patched old new c = patched old new (S c).
Proof.
  intros Hc Hl Hd. unfold differs in Hd. apply negb_false_iff, bool_decide_eq_true in Hd.
  destruct (lookup_lt_is_Some_2 new c Hc) as [x Hx]. rewrite Hx in Hd. unfold patched.
  rewrite (take_S_r new c x), (drop_S old x c) by done. by rewrite <- app_assoc.
Qed.

Lemma patched_splice old new c e :
  (c < e)%nat -> (e <= length new)%nat -> length old = length new ->
  splice (N.of_nat c) (list.take (e - c) (drop c new)) (patched old new c) = patched old new e.
Proof.
  intros Hc He Hl. unfold splice, patched, takeN, dropN, len.
  rewrite length_take, length_drop. replace (N.to_nat (N.of_nat c)) with c by lia.
  replace (N.to_nat (N.of_nat c + N.of_nat ((e - c) `min` (length new - c)))) with e by lia.
  rewrite take_app_le, take_take, Nat.min_id by (rewrite length_take; lia).
  rewrite drop_app_ge by (rewrite length_take; lia). rewrite length_take, drop_drop.
  replace (c + (e - c `min` length new))%nat with e by lia.
  rewrite app_assoc. f_equal. rewrite take_take_drop. f_equal. lia.
Qed.

Lemma patched_end old new : length old = length new -> patched old new (length new) = new.
Proof. intros Hl. unfold patched. by rewrite firstn_all, drop_ge, app_nil_r by lia. Qed.

(** The facts about one scanned run both theorems use. *)
Lemma scan_run (old new : list Cell) c :
  (c < length new)%nat -> len new <= 65535 ->
  let e := extend (length new) old new (S c) (S c) in
  (c < e)%nat /\ (e <= length new)%nat /\ N.of_nat c mod 65536 = N.of_nat c
  /\ len (list.take (e - c) (drop c new)) = N.of_nat (e - c).
Proof.
  intros Hc Hn. pose proof (extend_bounds (length new) old new (S c) (S c) ltac:(lia) ltac:(lia)) as [H1 H2].
  simpl. split; [lia|]. split; [done|]. split; [apply N.mod_small; unfold len in Hn; lia|].
  unfold len. rewrite length_take, length_drop. lia.
Qed.

Lemma apply_scan fuel old new c nf :
  length old = length new -> len new <= 65535 -> (c <= length new)%nat ->
  (length new - c < fuel)%nat -> nf <= N.of_nat c -> forallb cell_is_valid new = true ->
  apply_runs (len new) (scan fuel old new c) nf (patched old new c) = Ok new.
Proof.
  intros Hl Hn. revert c nf. induction fuel as [|fuel IH]; intros c nf Hc Hf Hnf Hv; [lia|]. cbn [scan].
  destruct (Nat.ltb_spec c (length new)) as [Hlt|Hge].
  2: { assert (c = length new) as -> by lia. simpl. by rewrite patched_end. }
  destruct (differs old new c) eqn:Ed.
  - destruct (scan_run old new c Hlt Hn) as (He & Hle & Hm & Hlen).
    set (e := extend (length new) old new (S c) (S c)) in *. cbn [apply_runs col run_cells].
    rewrite Hm, Hlen.
    assert (is_nil (list.take (e - c) (drop c new)) = false) as ->.
    { destruct (list.take (e - c) (drop c new)); [|done]. rewrite len_nil in Hlen. lia. }
    assert (forallb cell_is_valid (list.take (e - c) (drop c new)) = true) as ->.
    { apply forallb_Forall. apply forallb_Forall in Hv. by apply Forall_take, Forall_drop. }
    rewrite (proj2 (N.ltb_ge (N.of_nat c) nf)) by lia.
    rewrite (proj2 (N.ltb_ge (len new) _)) by (unfold len; lia). cbn [orb negb].
    rewrite patched_splice by done. apply IH; try done; lia.
  - rewrite patched_step by done. apply IH; try done; lia.
Qed.

Lemma patched_0 old new : patched old new 0 = old.
Proof. done. Qed.

Lemma apply_row_runs old new :
  length old = length new -> len new <= 65535 -> forallb cell_is_valid new = true ->
  apply_runs (len new) (row_runs old new) 0 old = Ok new.
Proof.
  intros Hl Hn Hv. rewrite <- (patched_0 old new) at 2. unfold row_runs. apply apply_scan; try done; lia.
Qed.

Lemma scan_ok fuel old new c nf :
  len new <= 65535 -> nf <= N.of_nat c -> Forall cell_ok new ->
  chain (run_ok (len new)) run_end nf (scan fuel old new c).
Proof.
  intros Hn. revert c nf. induction fuel as [|fuel IH]; intros c nf Hnf Hv; [done|]. cbn [scan].
  destruct (Nat.ltb_spec c (length new)) as [Hlt|Hge]; [|done].
  destruct (differs old new c); [|apply IH; [lia|done]].
  destruct (scan_run old new c Hlt Hn) as (He & Hle & Hm & Hlen).
  set (e := extend (length new) old new (S c) (S c)) in *. cbn [chain]. unfold run_ok, run_end.
  cbn [col run_cells]. rewrite Hm, Hlen. unfold is_u16, len in *. split.
  - repeat split; try lia; [apply small_u64; lia|]. by apply Forall_take, Forall_drop.
  - apply IH; [lia|done].
Qed.

Lemma scan_length fuel old new c : (length (scan fuel old new c) <= length new - c)%nat.
Proof.
  revert c. induction fuel as [|fuel IH]; intros c; cbn [scan]; [simpl; lia|].
  destruct (Nat.ltb_spec c (length new)) as [Hlt|Hge]; [|simpl; lia].
  destruct (differs old new c); [|specialize (IH (S c)); lia]. cbn [length].
  pose proof (extend_bounds (length new) old new (S c) (S c) ltac:(lia) ltac:(lia)).
  specialize (IH (extend (length new) old new (S c) (S c))). lia.
Qed.

(** What the theorems need of the rows of a screen. *)
Record RowsOk (c : N) (old new : list Row) : Prop := {
  rk_length : length old = length new;
  rk_old : Forall (fun r => len (cells r) = c) old;
  rk_new : Forall (fun r => len (cells r) = c /\ Forall cell_ok (cells r)) new;
}.

Lemma RowsOk_cons c o n old new :
  RowsOk c (o :: old) (n :: new) ->
  len (cells o) = c /\ len (cells n) = c /\ Forall cell_ok (cells n) /\ RowsOk c old new.
Proof.
  intros [Hl [Ho Hos]%Forall_cons [[Hn Hc] Hns]%Forall_cons]. repeat split; try done. by injection Hl.
Qed.

Lemma cell_ok_valid cs : Forall cell_ok cs -> forallb cell_is_valid cs = true.
Proof. intros Hc. apply forallb_Forall. eapply Forall_impl; [exact Hc|]. by intros c [? _]. Qed.

Lemma row_update c o n :
  c <= 2048 -> len (cells o) = c -> len (cells n) = c -> Forall cell_ok (cells n) ->
  apply_runs c (row_runs (cells o) (cells n)) 0 (cells o) = Ok (cells n).
Proof.
  intros Hc Ho Hn Hok. rewrite <- Hn at 1. apply apply_row_runs; [|lia|by apply cell_ok_valid].
  unfold len in *. lia.
Qed.

Lemma apply_changed_rows R c pre old new last :
  R = len pre + len new -> R <= 2048 -> c <= 2048 -> RowsOk c old new -> after last (len pre) ->
  apply_changes R c (changed_rows (len pre) old new) last (pre ++ old) = Ok (pre ++ new).
Proof.
  revert pre old last. induction new as [|n new IH]; intros pre old last HR HR' Hc Hok Hlast.
  { destruct Hok as [Hl _ _]. destruct old; [done|]. discriminate Hl. }
  destruct old as [|o old]; [by destruct Hok as [Hl _ _]|]. rewrite len_cons in HR.
  destruct (RowsOk_cons _ _ _ _ _ Hok) as (Ho & Hn & Hcs & Hok'). cbn [changed_rows].
  pose proof (row_update c o n Hc Ho Hn Hcs) as Hrow.
  assert (forall last', after last' (len (pre ++ [n])) ->
    apply_changes R c (changed_rows (len pre + 1) old new) last' (pre ++ n :: old) = Ok (pre ++ n :: new)) as Hrest.
  { intros last' Hl'. specialize (IH (pre ++ [n]) old last'). rewrite len_app, len_cons, len_nil in IH.
    rewrite <- !app_assoc in IH. apply IH; try done; [lia|by rewrite len_app, len_cons, len_nil in Hl']. }
  destruct (negb (is_nil _) || negb (Bool.eqb _ _)) eqn:E.
  - cbn [app apply_changes row runs change_wrapped]. rewrite N.mod_small by lia.
    rewrite (proj2 (N.leb_gt R (len pre))) by lia. cbn [orb].
    assert ((match last with Some l => len pre <=? l | None => false end) = false) as ->.
    { destruct last; [by apply N.leb_gt|done]. }
    rewrite N2nat_len, list_lookup_middle by done. cbn [default from_option id]. rewrite Hrow. cbn [rbind].
    rewrite insert_app_r_alt, Nat.sub_diag by done. cbn [insert list_insert].
    destruct n as [ncs nw]. apply Hrest. simpl. rewrite len_app, len_cons, len_nil. lia.
  - cbn [app]. apply orb_false_iff in E as [E1%negb_false_iff E2%negb_false_iff].
    apply Bool.eqb_prop in E2. destruct (row_runs (cells o) (cells n)); [|done]. injection Hrow as Hcells.
    assert (o = n) as -> by (destruct o, n; simpl in *; congruence).
    apply Hrest. destruct last; simpl in *; [rewrite len_app, len_cons, len_nil; lia|done].
Qed.

Lemma changed_rows_ok R c r old new last :
  R = r + len new -> R <= 2048 -> c <= 2048 -> RowsOk c old new -> after last r ->
  chain (change_ok R c) change_row last (changed_rows r old new)
  /\ len (changed_rows r old new) <= len new.
Proof.
  revert r old last. induction new as [|n new IH]; intros r old last HR HR' Hc Hok Hlast.
  { by destruct old. }
  destruct old as [|o old]; [by destruct Hok as [Hl _ _]|]. rewrite len_cons in *.
  destruct (RowsOk_cons _ _ _ _ _ Hok) as (Ho & Hn & Hcs & Hok'). cbn [changed_rows].
  destruct (negb (is_nil _) || negb (Bool.eqb _ _)).
  - cbn [app chain change_row row]. rewrite N.mod_small by lia. rewrite len_cons.
    destruct (IH (r + 1) old (Some r)) as [Hch Hlen]; try done; [lia|simpl; lia|].
    split; [|lia]. split; [|done]. unfold change_ok, is_u16. cbn [row runs].
    pose proof (scan_length (S (length (cells n))) (cells o) (cells n) 0) as Hsl.
    unfold row_runs. unfold len in Hsl, Hn |- *.
    repeat split; try lia; [done|apply small_u64; lia|].
    change (N.of_nat (length (cells n))) with (len (cells n)) in Hn. rewrite <- Hn.
    apply scan_ok; [lia|lia|done].
  - cbn [app]. destruct (IH (r + 1) old last) as [Hch Hlen]; try done; [lia|destruct last; simpl in *; lia|].
    split; [done|lia].
Qed.

(** ** Valid states *)

(** A valid state whose texts are strings. *)
Definition state_ok (s : ScreenState) : Prop :=
  is_valid s = true /\ Forall (fun r => Forall (fun c => is_utf8 (text c) = true) (cells r)) (grid s).

Lemma valid_rows s :
  is_valid s = true ->
  size_is_valid (rows s) (cols s) = true /\ cursor_row s < rows s /\ cursor_col s < cols s
  /\ modes_valid (modes s) = true /\ len (grid s) = rows s
  /\ Forall (fun r => len (cells r) = cols s /\ forallb cell_is_valid (cells r) = true) (grid s).
Proof.
  unfold is_valid. intros H. bools. repeat split; try done. apply forallb_Forall in H0.
  eapply Forall_impl; [exact H0|]. unfold row_valid. intros r Hr. simpl in Hr. bools. done.
Qed.

Lemma blank_rows_ok r c :
  Forall (fun x => len (cells x) = c) (replicate (N.to_nat r) (blank_row c)).
Proof.
  apply Forall_replicate. simpl. unfold len. rewrite length_replicate. lia.
Qed.

Lemma same_size_spec s r c : same_size s r c = true <-> rows s = r /\ cols s = c.
Proof. unfold same_size. rewrite andb_true_iff, !N.eqb_eq. done. Qed.

(** The state a difference of size [r] by [c] is relative to. *)
Lemma base_rows base r c :
  is_valid base = true -> size_is_valid r c = true ->
  exists g, (if same_size base r c then Ok base else blank r c)
            = Ok (mkScreen r c (cursor_row g) (cursor_col g) (modes g) (grid g))
    /\ length (grid g) = N.to_nat r /\ Forall (fun x => len (cells x) = c) (grid g)
    /\ Forall (fun x => forallb cell_is_valid (cells x) = true) (grid g).
Proof.
  intros Hb Hs. destruct (same_size base r c) eqn:E.
  - apply same_size_spec in E as [<- <-]. destruct (valid_rows base Hb) as (_ & _ & _ & _ & Hl & Hf).
    exists base. split; [by destruct base|]. split; [unfold len in Hl; lia|].
    split; (eapply Forall_impl; [exact Hf|]; by intros ? []).
  - unfold blank. rewrite Hs.
    exists (mkScreen r c 0 0 default_modes (replicate (N.to_nat r) (blank_row c))).
    split; [done|]. cbn [grid]. rewrite length_replicate.
    split; [done|]. split; [apply blank_rows_ok|]. apply Forall_replicate, forallb_Forall, Forall_replicate. done.
Qed.

Lemma Forall_both {A} (P Q : A -> Prop) l : Forall P l -> Forall Q l -> Forall (fun x => P x /\ Q x) l.
Proof. induction 1; intros Hq; [constructor|]. apply Forall_cons in Hq as [? ?]. constructor; auto. Qed.

Lemma state_cells s :
  state_ok s -> Forall (fun r => len (cells r) = cols s /\ Forall cell_ok (cells r)) (grid s).
Proof.
  intros [Hv Hu]. destruct (valid_rows s Hv) as (_ & _ & _ & _ & _ & Hf).
  pose proof (Forall_both _ _ _ Hf Hu) as Hb. eapply Forall_impl; [exact Hb|].
  intros r [[Hl Hc%forallb_Forall] Ht]. split; [done|].
  pose proof (Forall_both _ _ _ Hc Ht) as Hcell. eapply Forall_impl; [exact Hcell|]. by intros c [].
Qed.

(** The difference between two valid states is well formed and turns the
    first into the second. *)
Lemma between_spec base new :
  is_valid base = true -> state_ok new ->
  exists d, between base new = Ok d /\ diff_ok d /\ apply d base = Ok new.
Proof.
  intros Hb Hn. pose proof (state_cells new Hn) as Hcells. destruct Hn as [Hv _].
  destruct (valid_rows new Hv) as (Hs & Hcr & Hcc & Hm & Hl & _).
  destruct (size_valid_bounds _ _ Hs) as [Hr Hc].
  destruct (base_rows base (rows new) (cols new) Hb Hs) as (g & Hbase & Hgl & Hgw & _).
  assert (RowsOk (cols new) (grid g) (grid new)) as Hok.
  { constructor; [unfold len in Hl; lia|done|done]. }
  unfold between. rewrite Hbase. cbn [rbind grid]. eexists. split; [done|].
  destruct (changed_rows_ok (rows new) (cols new) 0 (grid g) (grid new) None) as [Hch Hlen]; try done; [lia..|].
  split.
  - unfold diff_ok. cbn [d_rows d_cols d_cursor_row d_cursor_col d_modes changes].
    repeat split; try done. lia.
  - unfold apply. cbn [d_rows d_cols d_cursor_row d_cursor_col d_modes changes].
    rewrite Hs, Hm. cbn [negb].
    rewrite (proj2 (N.leb_gt (rows new) (cursor_row new))), (proj2 (N.leb_gt (cols new) (cursor_col new))) by done.
    cbn [orb].
    assert ((if same_size base (rows new) (cols new) then Ok base
             else map_err (fun _ => ABadSize) (blank (rows new) (cols new)))
            = Ok (mkScreen (rows new) (cols new) (cursor_row g) (cursor_col g) (modes g) (grid g))) as ->.
    { destruct (same_size _ _ _); [by injection Hbase as ->|]. by rewrite Hbase. }
    cbn [rbind grid rows cols].
    pose proof (apply_changed_rows (rows new) (cols new) [] (grid g) (grid new) None) as Ha.
    rewrite len_nil in Ha. cbn [app] in Ha. rewrite Ha; try done; [by destruct new|lia..].
Qed.

(** ** A decoded difference always applies *)

Lemma apply_runs_ok c rs nf cs :
  chain (run_ok c) run_end nf rs -> len cs = c -> forallb cell_is_valid cs = true ->
  exists cs', apply_runs c rs nf cs = Ok cs' /\ len cs' = c /\ forallb cell_is_valid cs' = true.
Proof.
  revert nf cs. induction rs as [|r rs IH]; intros nf cs; cbn [chain apply_runs]; [eauto|].
  intros [(_ & _ & H0 & Hnf & Hc & Hok) Hrs] Hl Hv.
  assert (is_nil (run_cells r) = false) as -> by (destruct (run_cells r); [by rewrite len_nil in H0|done]).
  rewrite (proj2 (N.ltb_ge _ nf)), (proj2 (N.ltb_ge c _)), (cell_ok_valid _ Hok) by done. cbn [orb negb].
  apply IH; [done| |].
  - unfold splice. len_lia.
  - unfold splice. apply forallb_Forall. apply forallb_Forall in Hv.
    apply Forall_app_2; [by apply Forall_take|]. apply Forall_app_2; [|by apply Forall_drop].
    by apply forallb_Forall, cell_ok_valid.
Qed.

Definition row_good (c : N) (x : Row) : Prop :=
  len (cells x) = c /\ forallb cell_is_valid (cells x) = true.

Lemma apply_changes_ok r c chs last g :
  chain (change_ok r c) change_row last chs -> len g = r -> Forall (row_good c) g ->
  exists g', apply_changes r c chs last g = Ok g' /\ len g' = r /\ Forall (row_good c) g'.
Proof.
  revert last g. induction chs as [|ch chs IH]; intros last g; cbn [chain apply_changes]; [eauto|].
  intros [(_ & Hr & Hlast & _ & _ & Hruns) Hrest] Hl Hg.
  rewrite (proj2 (N.leb_gt r _)) by done.
  assert ((match last with Some l => row ch <=? l | None => false end) = false) as ->
    by (destruct last; [by apply N.leb_gt|done]). cbn [orb].
  destruct (lookup_lt_is_Some_2 g (N.to_nat (row ch))) as [x Hx]; [unfold len in Hl; lia|].
  rewrite Hx. cbn [default from_option id].
  assert (row_good c x) as [Hxl Hxv] by (rewrite Forall_lookup in Hg; by eapply Hg).
  destruct (apply_runs_ok c (runs ch) 0 (cells x) Hruns Hxl Hxv) as (cs & -> & Hcl & Hcv). cbn [rbind].
  apply IH; [done|unfold len in *; by rewrite length_insert|]. by apply Forall_insert.
Qed.

Lemma apply_ok d base :
  diff_ok d -> is_valid base = true -> exists s, apply d base = Ok s /\ is_valid s = true.
Proof.
  intros (Hs & Hcr & Hcc & Hm & _ & Hch) Hb.
  destruct (base_rows base _ _ Hb Hs) as (g & Hbase & Hgl & Hgw & Hgv).
  unfold apply. rewrite Hs, Hm. cbn [negb].
  rewrite (proj2 (N.leb_gt _ (d_cursor_row d))), (proj2 (N.leb_gt _ (d_cursor_col d))) by done. cbn [orb].
  assert ((if same_size base (d_rows d) (d_cols d) then Ok base
           else map_err (fun _ => ABadSize) (blank (d_rows d) (d_cols d)))
          = Ok (mkScreen (d_rows d) (d_cols d) (cursor_row g) (cursor_col g) (modes g) (grid g))) as ->.
  { destruct (same_size _ _ _); [by injection Hbase as ->|]. by rewrite Hbase. }
  cbn [rbind grid rows cols].
  destruct (apply_changes_ok (d_rows d) (d_cols d) (changes d) None (grid g) Hch) as (g' & -> & Hl' & Hg');
    [by apply length_len|by apply Forall_both|].
  cbn [rbind]. eexists. split; [done|]. unfold is_valid. cbn [rows cols cursor_row cursor_col modes grid].
  rewrite Hs, Hm, Hl', N.eqb_refl, (proj2 (N.ltb_lt _ _) Hcr), (proj2 (N.ltb_lt _ _) Hcc). cbn [andb].
  apply forallb_Forall. eapply Forall_impl; [exact Hg'|]. intros x [Hx1 Hx2]. unfold row_valid.
  by rewrite Hx1, N.eqb_refl, Hx2.
Qed.

(** ** Properties *)

(** An update survives the wire: every well-formed update whose encoding
    is within the cap is read back unchanged from its encoding. *)
Theorem update_roundtrip u :
  update_ok u -> len (encode_update u) <= MAX_UPDATE_BYTES ->
  decode_update (encode_update u) = Ok u.
Proof.
  intros Hu Hl. unfold decode_update. rewrite (proj2 (N.ltb_ge _ _)) by done.
  by apply (whole_read read_update encode_update update_ok).
Qed.

(** C40: The decoder is canonical and safe on arbitrary bytes: input it accepts
    is the encoding of the update it returns, and the difference of that update
    applies to every valid screen and gives a valid screen, so that only a
    hash mismatch can refuse it. *)
Theorem decode_safe blake3 bs u base :
  decode_update bs = Ok u -> is_valid base = true ->
  encode_update u = bs
  /\ exists s, apply (diff u) base = Ok s /\ is_valid s = true
     /\ apply_update blake3 u base = if bool_decide (hash blake3 s = state_hash u) then Ok s
                                     else Err HashMismatch.
Proof.
  unfold decode_update. destruct (MAX_UPDATE_BYTES <? len bs); [done|]. intros Hd Hb.
  apply (whole_canonical read_update encode_update update_ok) in Hd as [Hu He]. split; [done|].
  destruct Hu as (_ & _ & _ & _ & _ & _ & _ & Hd). destruct (apply_ok (diff u) base Hd Hb) as (s & Hs & Hv).
  exists s. split; [done|]. split; [done|]. unfold apply_update. by rewrite Hs.
Qed.

(** The difference of two valid screens turns the first into the second,
    whatever their sizes, and is well formed for the wire. *)
Theorem between_apply base new :
  is_valid base = true -> state_ok new ->
  exists d, between base new = Ok d /\ diff_ok d /\ apply d base = Ok new.
Proof. apply between_spec. Qed.

(** *** Examples *)

Definition demo_cell (b : byte) : Cell := mkCell [b] (Idx x02) Default x01.
Definition demo_screen (t : list byte) : ScreenState :=
  mkScreen 1 (len t) 0 0 default_modes [mkRow (demo_cell <$> t) false].
Definition demo_old : ScreenState := demo_screen [x61; x62; x63; x64; x65; x66; x67; x68; x69; x6a; x6b; x6c].
Definition demo_new : ScreenState := demo_screen [x61; x78; x63; x64; x79; x66; x67; x68; x69; x6a; x6b; x7a].
Definition demo_diff : Diff :=
  default (mkDiff 0 0 0 0 default_modes []) (match between demo_old demo_new with Ok d => Some d | Err _ => None end).
Definition demo_update : ScreenUpdate :=
  mkUpdate 1 2 300 demo_diff [Bell; Title [x6c; x73]] (replicate 8 x00).

Lemma demo_old_valid : is_valid demo_old = true.
Proof. vm_compute. reflexivity. Qed.
Lemma demo_new_ok : state_ok demo_new.
Proof. split; [vm_compute; reflexivity|]. by repeat constructor. Qed.

Lemma demo_update_ok : update_ok demo_update.
Proof.
  destruct (between_spec demo_old demo_new demo_old_valid demo_new_ok) as (d & Hd & Hok & _).
  assert (d = demo_diff) as -> by (unfold demo_diff; by rewrite Hd).
  unfold update_ok. do 4 (split; [vm_compute; reflexivity|]). split; [vm_compute; reflexivity|].
  split; [vm_compute; discriminate|]. split; [|exact Hok].
  repeat (constructor; [split; [reflexivity|repeat constructor]|]). constructor.
Qed.

Lemma update_roundtrip_witness : decode_update (encode_update demo_update) = Ok demo_update.
Proof. apply (update_roundtrip demo_update demo_update_ok). vm_compute. discriminate. Defined.

Lemma decode_safe_witness :
  encode_update demo_update = encode_update demo_update
  /\ exists s, apply (diff demo_update) demo_old = Ok s /\ is_valid s = true
     /\ apply_update (fun x => x) demo_update demo_old = Err HashMismatch.
Proof.
  destruct (decode_safe (fun x => x) (encode_update demo_update) demo_update demo_old
              ltac:(vm_compute; reflexivity) demo_old_valid) as (H & s & Hs & Hv & _).
  split; [exact H|]. exists s. split; [exact Hs|]. split; [exact Hv|]. vm_compute. reflexivity.
Defined.

Lemma between_apply_witness :
  length (match between demo_old demo_new with Ok d => mjoin (runs <$> changes d) | Err _ => [] end) = 2%nat
  /\ exists d, between demo_old demo_new = Ok d /\ apply d demo_old = Ok demo_new.
Proof.
  split; [vm_compute; reflexivity|].
  destruct (between_apply demo_old demo_new demo_old_valid demo_new_ok) as (d & Hd & _ & Ha). eauto.
Defined.
End ScreenDiff.
