(* ===== verification/ScreenParts.v ===== *)
(** * Updates in parts

    Models [crates/qsh-proto/src/screen/parts.rs]: cutting an encoded update
    into parts, the strict reassembler of the stream carrier and the
    reassembler of the datagram carrier, whose parts may arrive in any order,
    twice or not at all. *)

From S2P Require Import Prelude ScreenCodec ScreenDiff.

Module ScreenParts.
Import ScreenDiff.

Definition PART_MAX : N := 16 * 1024.
Definition MAX_PARTS : N := MAX_UPDATE_BYTES / PART_MAX.
Definition MAX_DATAGRAM_PARTS : N := 64.

Inductive PartError := Numbering | TooLarge | OutOfOrder.

(** [slice::chunks] *)
Fixpoint chunks_loop {A} (fuel : nat) (n : N) (l : list A) : list (list A) :=
  match fuel, l with
  | S fuel, _ :: _ => takeN n l :: chunks_loop fuel n (dropN n l)
  | _, _ => []
  end.
Definition chunks {A} (n : N) (l : list A) : list (list A) := chunks_loop (length l) n l.

Definition split (encoded : list byte) : list (list byte) :=
  match encoded with
  | [] => [encoded]
  | _ => chunks PART_MAX encoded
  end.

Definition split_sized (encoded : list byte) (max_part : N) : list (list byte) :=
  match encoded with
  | [] => [encoded]
  | _ => chunks (N.max max_part 1) encoded
  end.

(** ** The stream reassembler *)

Record Reassembler := mkRe { re_num : N; re_parts : N; re_next : N; re_buf : list byte }.

(** [Reassembler::default], and what [reset] leaves. *)
Definition re_empty : Reassembler := mkRe 0 0 0 [].

Definition push_inner (num part parts : N) (data : list byte) (r : Reassembler)
    : Reassembler * result (option (list byte)) PartError :=
  if (parts =? 0) || (MAX_PARTS <? parts) || (parts <=? part) then (r, Err Numbering)
  else if PART_MAX <? len data then (r, Err TooLarge)
  else
    let started := if part =? 0 then Some (mkRe num parts 0 [])
                   else if (re_parts r =? 0) || negb (num =? re_num r) || negb (parts =? re_parts r)
                           || negb (part =? re_next r) then None
                   else Some r in
    match started with
    | None => (r, Err OutOfOrder)
    | Some r =>
        if MAX_UPDATE_BYTES <? len (re_buf r) + len data then (r, Err TooLarge)
        else
          let buf := re_buf r ++ data in
          if part + 1 =? re_parts r then (re_empty, Ok (Some buf))
          else (mkRe (re_num r) (re_parts r) (part + 1) buf, Ok None)
    end.

(** [Reassembler::push] *)
Definition re_push (num part parts : N) (data : list byte) (r : Reassembler)
    : Reassembler * result (option (list byte)) PartError :=
  match push_inner num part parts data r with
  | (_, Err e) => (re_empty, Err e)
  | ok => ok
  end.

(** The parts of an update pushed one after another; the results in order. *)
Fixpoint re_push_all (num part parts : N) (ds : list (list byte)) (r : Reassembler)
    : Reassembler * list (result (option (list byte)) PartError) :=
  match ds with
  | [] => (r, [])
  | d :: ds' =>
      let '(r, x) := re_push num part parts d r in
      let '(r, xs) := re_push_all num (part + 1) parts ds' r in
      (r, x :: xs)
  end.

(** ** The datagram reassembler *)

Record DatagramReassembler := mkDr {
  dr_num : N;
  dr_done : N;
  dr_parts : N;
  dr_got : N;
  dr_slots : list (option (list byte));
  dr_bytes : N;
}.

Definition dr_new : DatagramReassembler := mkDr 0 0 0 0 [] 0.

Definition dr_reset (r : DatagramReassembler) : DatagramReassembler :=
  mkDr (dr_num r) (dr_done r) 0 0 [] 0.

(** [slots.drain(..).flatten().flatten().collect()] *)
Definition flatten (slots : list (option (list byte))) : list byte :=
  mjoin (default [] <$> slots).

Definition dr_push (num part parts : N) (data : list byte) (r : DatagramReassembler)
    : DatagramReassembler * result (option (list byte)) PartError :=
  if (parts =? 0) || (MAX_DATAGRAM_PARTS <? parts) || (parts <=? part) then (r, Err Numbering)
  else if PART_MAX <? len data then (r, Err TooLarge)
  else if (num <? dr_done r) || (negb (dr_parts r =? 0) && (num <? dr_num r)) then (r, Ok None)
  else
    let fresh := (dr_parts r =? 0) || (dr_num r <? num) in
    if negb fresh && negb (parts =? dr_parts r) then (dr_reset r, Err OutOfOrder)
    else
      let r := if fresh then mkDr num (dr_done r) parts 0 (replicate (N.to_nat parts) None) 0 else r in
      match default None (dr_slots r !! N.to_nat part) with
      | Some _ => (r, Ok None)
      | None =>
          if MAX_UPDATE_BYTES <? dr_bytes r + len data then (dr_reset r, Err TooLarge)
          else
            let slots := <[N.to_nat part := Some data]> (dr_slots r) in
            if dr_got r + 1 =? dr_parts r
            then (mkDr (dr_num r) num 0 0 [] 0, Ok (Some (flatten slots)))
            else (mkDr (dr_num r) (dr_done r) (dr_parts r) (dr_got r + 1) slots (dr_bytes r + len data), Ok None)
      end.

(** One datagram part as it arrives. *)
Record Part := mkPart { p_num : N; p_part : N; p_parts : N; p_data : list byte }.

Definition dr_offer (p : Part) (r : DatagramReassembler) :=
  dr_push (p_num p) (p_part p) (p_parts p) (p_data p) r.

Fixpoint dr_run (r : DatagramReassembler) (ps : list Part)
    : DatagramReassembler * list (result (option (list byte)) PartError) :=
  match ps with
  | [] => (r, [])
  | p :: ps' =>
      let '(r, x) := dr_offer p r in
      let '(r, xs) := dr_run r ps' in
      (r, x :: xs)
  end.

(** ** Cutting *)

Lemma chunks_loop_spec {A} fuel n (l : list A) :
  0 < n -> (length l <= fuel)%nat ->
  mjoin (chunks_loop fuel n l) = l /\ Forall (fun c => len c <= n) (chunks_loop fuel n l)
  /\ len (chunks_loop fuel n l) * n < len l + n.
Proof.
  intros Hn. revert l. induction fuel as [|fuel IH]; intros l Hl.
  { destruct l; [|simpl in Hl; lia]. cbn [chunks_loop]. rewrite (len_nil (A:=A)), (len_nil (A:=list A)). auto with lia. }
  destruct l as [|x l]; [cbn [chunks_loop]; rewrite (len_nil (A:=A)), (len_nil (A:=list A)); auto with lia|].
  cbn [chunks_loop]. destruct (IH (dropN n (x :: l))) as (Hj & Hf & Hc).
  { unfold dropN. rewrite length_drop. simpl in *. lia. }
  split; [rewrite mjoin_cons, Hj; apply takeN_dropN|].
  split; [constructor; [rewrite len_takeN; lia|done]|].
  rewrite len_cons. rewrite len_dropN in Hc. pose proof (len_cons x l).
  set (c := len (chunks_loop fuel n (dropN n (x :: l)))) in *. replace ((1 + c) * n) with (n + c * n) by lia.
  destruct (N.lt_ge_cases n (len (x :: l))); [lia|]. assert (c = 0) as -> by nia. lia.
Qed.

Lemma split_spec encoded :
  len encoded <= MAX_UPDATE_BYTES ->
  mjoin (split encoded) = encoded /\ Forall (fun c => len c <= PART_MAX) (split encoded)
  /\ 0 < len (split encoded) <= MAX_PARTS.
Proof.
  intros Hl. unfold split. destruct encoded as [|b bs] eqn:E; [by repeat constructor|].
  rewrite <- E in *. destruct (chunks_loop_spec (length encoded) PART_MAX encoded) as (Hj & Hf & Hc);
    [done|lia|]. fold (chunks PART_MAX encoded) in *.
  split; [done|]. split; [done|]. unfold MAX_PARTS, MAX_UPDATE_BYTES, PART_MAX in *.
  change (1024 * 1024 / (16 * 1024)) with 64. split; [|lia].
  destruct (chunks (16 * 1024) encoded); [by subst|rewrite len_cons; lia].
Qed.

(** ** In order over the stream *)

Lemma re_push_next num part parts data r :
  part < parts <= MAX_PARTS -> len data <= PART_MAX -> 
  (part = 0 \/ (re_num r = num /\ re_parts r = parts /\ re_next r = part)) ->
  let buf := if part =? 0 then [] else re_buf r in
  len buf + len data <= MAX_UPDATE_BYTES ->
  re_push num part parts data r =
  if part + 1 =? parts then (re_empty, Ok (Some (buf ++ data)))
  else (mkRe num parts (part + 1) (buf ++ data), Ok None).
Proof.
  intros Hp Hd Hr buf Hb. unfold re_push, push_inner.
  rewrite (proj2 (N.eqb_neq parts 0)), (proj2 (N.ltb_ge MAX_PARTS parts)), (proj2 (N.leb_gt parts part)),
    (proj2 (N.ltb_ge PART_MAX (len data))) by lia. cbn [orb].
  destruct (N.eqb_spec part 0) as [->|Hne]; subst buf; cbn [re_buf re_parts re_num].
  - rewrite (proj2 (N.ltb_ge MAX_UPDATE_BYTES _)) by done. by destruct (0 + 1 =? parts).
  - destruct Hr as [?|(<- & <- & <-)]; [done|]. rewrite !N.eqb_refl, (proj2 (N.eqb_neq _ 0)) by lia.
    cbn [negb orb]. rewrite (proj2 (N.ltb_ge MAX_UPDATE_BYTES _)) by done. by destruct (re_next r + 1 =? re_parts r).
Qed.

Lemma re_push_all_spec num parts ds : forall part r,
  ds <> [] -> part + len ds = parts -> parts <= MAX_PARTS -> Forall (fun c => len c <= PART_MAX) ds ->
  (part = 0 \/ (re_num r = num /\ re_parts r = parts /\ re_next r = part)) ->
  let buf := if part =? 0 then [] else re_buf r in
  len buf + len (mjoin ds) <= MAX_UPDATE_BYTES ->
  re_push_all num part parts ds r =
  (re_empty, replicate (length ds - 1) (Ok None) ++ [Ok (Some (buf ++ mjoin ds))]).
Proof.
  induction ds as [|d ds IH]; [done|]. intros part r _ Hn Hmax [Hd Hds]%Forall_cons Hr buf Hb.
  rewrite len_cons in Hn. rewrite mjoin_cons, len_app in Hb. cbn [re_push_all].
  rewrite re_push_next by (done || lia || (subst buf; lia)). fold buf.
  destruct ds as [|d' ds'].
  - rewrite len_nil in Hn. rewrite (proj2 (N.eqb_eq _ _)) by lia. cbn. by rewrite app_nil_r.
  - rewrite (proj2 (N.eqb_neq _ _)) by (rewrite len_cons in Hn; lia).
    rewrite IH; try done; cbn [re_num re_parts re_next re_buf]; rewrite ?len_cons in *; try lia.
    + rewrite (proj2 (N.eqb_neq (part + 1) 0)) by lia. rewrite (mjoin_cons d). cbn [length Nat.sub replicate app].
      rewrite Nat.sub_0_r. by rewrite <- app_assoc.
    + rewrite (proj2 (N.eqb_neq (part + 1) 0)) by lia. rewrite len_app. lia.
Qed.

(** Pushing the parts of an update in order rebuilds it, whatever the
    reassembler held before. *)
Lemma stream_parts num encoded r :
  len encoded <= MAX_UPDATE_BYTES ->
  re_push_all num 0 (len (split encoded)) (split encoded) r =
  (re_empty, replicate (length (split encoded) - 1) (Ok None) ++ [Ok (Some encoded)]).
Proof.
  intros Hl. destruct (split_spec encoded Hl) as (Hj & Hf & Hc0 & Hc).
  rewrite re_push_all_spec; try done; [by rewrite Hj| |by left|by rewrite Hj].
  by apply len_pos_inv.
Qed.

(** ** Slots *)

Definition filled (slots : list (option (list byte))) : N := len (omap id slots).

#[local] Arguments flatten : simpl never.
#[local] Arguments filled : simpl never.

Lemma flatten_app s t : flatten (s ++ t) = flatten s ++ flatten t.
Proof. unfold flatten. by rewrite fmap_app, join_app. Qed.

Lemma flatten_cons o s : flatten (o :: s) = default [] o ++ flatten s.
Proof. done. Qed.

Lemma filled_insert slots i d :
  slots !! i = Some None ->
  filled (<[i := Some d]> slots) = filled slots + 1
  /\ len (flatten (<[i := Some d]> slots)) = len (flatten slots) + len d.
Proof.
  intros Hi. pose proof (lookup_lt_Some _ _ _ Hi). rewrite <- (take_drop_middle _ _ _ Hi) at 2 4.
  rewrite insert_take_drop by done. unfold filled.
  rewrite !omap_app, !flatten_app, !len_app, !flatten_cons, !len_app. cbn. rewrite len_cons, len_nil. lia.
Qed.

Lemma filled_none n : filled (replicate n None) = 0 /\ flatten (replicate n None) = [].
Proof. induction n as [|n [IH1 IH2]]; [done|]. split; [exact IH1|exact IH2]. Qed.

Lemma filled_le slots : filled slots <= len slots.
Proof.
  induction slots as [|[d|] s IH]; [done| |]; unfold filled in *; cbn [omap list_omap id];
    rewrite ?len_cons in *; lia.
Qed.

(** Every slot is filled when the count says so. *)
Lemma filled_all slots :
  filled slots = len slots -> exists ds, slots = Some <$> ds /\ flatten slots = mjoin ds.
Proof.
  induction slots as [|o s IH]; intros H; [by exists []|].
  pose proof (filled_le s). destruct o as [d|].
  - destruct IH as (ds & -> & Hf); [unfold filled in *; cbn [omap list_omap id] in H; rewrite !len_cons in H; lia|].
    exists (d :: ds). split; [done|]. by rewrite flatten_cons, Hf.
  - unfold filled in *. cbn [omap list_omap id] in H. rewrite len_cons in H. lia.
Qed.

(** ** What comes out was sent *)

(** What the reassembler holds is accounted for by the parts [seen] so far. *)
Definition Holds (seen : list Part) (r : DatagramReassembler) : Prop :=
  len (dr_slots r) = dr_parts r /\ dr_got r = filled (dr_slots r) /\ dr_bytes r = len (flatten (dr_slots r))
  /\ dr_bytes r <= MAX_UPDATE_BYTES
  /\ forall j d, dr_slots r !! j = Some (Some d) -> mkPart (dr_num r) (N.of_nat j) (dr_parts r) d ∈ seen.

(** [bs] is one whole state: all its parts, each of them seen. *)
Definition Whole (seen : list Part) (num parts : N) (bs : list byte) : Prop :=
  len bs <= MAX_UPDATE_BYTES
  /\ exists ds, bs = mjoin ds /\ len ds = parts
     /\ forall j d, ds !! j = Some d -> mkPart num (N.of_nat j) parts d ∈ seen.

Lemma holds_mono seen p r : Holds seen r -> Holds (seen ++ [p]) r.
Proof. unfold Holds. set_solver. Qed.

Lemma holds_empty seen num done : Holds seen (mkDr num done 0 0 [] 0).
Proof. do 4 (split; [done|]). intros j d. cbn. by rewrite lookup_nil. Qed.

Lemma holds_fresh seen num done parts :
  Holds seen (mkDr num done parts 0 (replicate (N.to_nat parts) None) 0).
Proof.
  destruct (filled_none (N.to_nat parts)) as [Hf Hb].
  split; [cbn; unfold len; rewrite length_replicate; lia|]. split; [done|]. split; [cbn; by rewrite Hb|].
  split; [done|]. intros j d. cbn. intros [? ?]%lookup_replicate. done.
Qed.

(** Filling an empty slot of the state being built. *)
Lemma holds_fill seen r part data :
  Holds seen r -> dr_slots r !! N.to_nat part = Some None -> dr_bytes r + len data <= MAX_UPDATE_BYTES ->
  Holds (seen ++ [mkPart (dr_num r) part (dr_parts r) data])
    (mkDr (dr_num r) (dr_done r) (dr_parts r) (dr_got r + 1) (<[N.to_nat part := Some data]> (dr_slots r))
       (dr_bytes r + len data)).
Proof.
  intros (Hl & Hg & Hb & Hm & Hs) Hi Hd. destruct (filled_insert _ _ data Hi) as [Hf Hlen].
  split; [cbn; unfold len in *; by rewrite length_insert|]. split; [cbn; lia|]. split; [cbn; lia|].
  split; [done|]. cbn. intros j d [(<- & [= <-] & _)|[_ Hj]]%list_lookup_insert_Some.
  - rewrite N2Nat.id. set_solver.
  - apply Hs in Hj. set_solver.
Qed.

Lemma holds_complete seen r part data :
  Holds seen r -> dr_slots r !! N.to_nat part = Some None -> dr_bytes r + len data <= MAX_UPDATE_BYTES ->
  dr_got r + 1 = dr_parts r ->
  Whole (seen ++ [mkPart (dr_num r) part (dr_parts r) data]) (dr_num r) (dr_parts r)
    (flatten (<[N.to_nat part := Some data]> (dr_slots r))).
Proof.
  intros H Hi Hd Hg. pose proof (holds_fill _ _ _ _ H Hi Hd) as (Hl & Hg' & Hb & Hm & Hs). cbn in *.
  split; [lia|]. destruct (filled_all (<[N.to_nat part:=Some data]> (dr_slots r))) as (ds & Hds & Hf); [lia|].
  exists ds. split; [done|]. rewrite Hds in *. split; [unfold len in *; by rewrite length_fmap in Hl|].
  intros j d Hj. apply Hs. by rewrite list_lookup_fmap, Hj.
Qed.

(** The state a part is booked into: a fresh one for a newer state. *)
Definition dr_started (num parts : N) (r : DatagramReassembler) : DatagramReassembler :=
  if (dr_parts r =? 0) || (dr_num r <? num) then mkDr num (dr_done r) parts 0 (replicate (N.to_nat parts) None) 0
  else r.

Lemma started_spec seen num parts r :
  Holds seen r -> (dr_parts r = 0 \/ dr_num r <= num) ->
  ((dr_parts r =? 0) || (dr_num r <? num) = true \/ parts = dr_parts r) ->
  Holds seen (dr_started num parts r) /\ dr_num (dr_started num parts r) = num
  /\ dr_parts (dr_started num parts r) = parts /\ dr_done (dr_started num parts r) = dr_done r.
Proof.
  intros Hr Hn Hp. unfold dr_started. destruct ((dr_parts r =? 0) || (dr_num r <? num)) eqn:E.
  - split; [apply holds_fresh|done].
  - destruct Hp as [?|Hp]; [done|]. split; [done|]. split; [lia|done].
Qed.

Lemma offer_sound seen p r r' x :
  Holds seen r -> dr_offer p r = (r', x) ->
  Holds (seen ++ [p]) r' /\ dr_done r <= dr_done r'
  /\ (forall bs, x = Ok (Some bs) ->
      Whole (seen ++ [p]) (p_num p) (p_parts p) bs /\ dr_done r <= p_num p <= dr_done r').
Proof.
  intros Hr. destruct p as [num part parts data]. unfold dr_offer. cbn [p_num p_part p_parts p_data].
  assert (Hkeep : forall x', (forall bs, x' <> Ok (Some bs)) -> (r, x') = (r', x) ->
    Holds (seen ++ [mkPart num part parts data]) r' /\ dr_done r <= dr_done r'
    /\ (forall bs, x = Ok (Some bs) ->
      Whole (seen ++ [mkPart num part parts data]) num parts bs /\ dr_done r <= num <= dr_done r')).
  { intros x' Hx' [= <- <-]. split; [by apply holds_mono|]. split; [done|]. by intros bs ?%Hx'. }
  unfold dr_push. destruct (_ || _ || _) eqn:E1; [by apply Hkeep|].
  destruct (PART_MAX <? len data); [by apply Hkeep|].
  destruct ((num <? dr_done r) || _) eqn:E2; [by apply Hkeep|]. clear Hkeep.
  destruct (negb (_ || _) && negb (parts =? dr_parts r)) eqn:E3.
  { intros E. injection E as Er Ex. subst. split; [apply holds_empty|done]. }
  fold (dr_started num parts r).
  destruct (started_spec seen num parts r Hr) as (Hs & Hsn & Hsp & Hsd); [lia|lia|].
  set (r0 := dr_started num parts r) in *. clearbody r0.
  destruct (dr_slots r0 !! N.to_nat part) as [[d|]|] eqn:Ei; cbn [default].
  - intros [= <- <-]. split; [by apply holds_mono|]. split; [lia|done].
  - destruct (N.ltb_spec MAX_UPDATE_BYTES (dr_bytes r0 + len data)).
    { intros [= <- <-]. split; [apply holds_empty|]. split; [cbn; lia|done]. }
    rewrite <- Hsn, <- Hsp. destruct (N.eqb_spec (dr_got r0 + 1) (dr_parts r0)) as [Eg|Eg].
    + intros [= <- <-]. split; [apply holds_empty|]. cbn [dr_done]. split; [lia|].
      intros bs [= <-]. split; [by apply holds_complete|lia].
    + intros [= <- <-]. split; [by apply holds_fill|]. split; [cbn; lia|done].
  - apply lookup_ge_None in Ei. destruct Hs as (Hl & _). unfold len in Hl. lia.
Qed.

Lemma run_sound ps : forall seen r r' xs,
  Holds seen r -> dr_run r ps = (r', xs) ->
  Holds (seen ++ ps) r'
  /\ (forall i bs, xs !! i = Some (Ok (Some bs)) ->
      exists p, ps !! i = Some p /\ Whole (seen ++ take (S i) ps) (p_num p) (p_parts p) bs /\ dr_done r <= p_num p)
  /\ (forall i j bs bs' p q, (i < j)%nat -> xs !! i = Some (Ok (Some bs)) -> xs !! j = Some (Ok (Some bs')) ->
      ps !! i = Some p -> ps !! j = Some q -> p_num p <= p_num q).
Proof.
  induction ps as [|p ps IH]; intros seen r r' xs Hr; cbn [dr_run].
  { intros [= <- <-]. split; [by rewrite app_nil_r|]. split; intros i; by rewrite lookup_nil. }
  destruct (dr_offer p r) as [r1 x] eqn:E1. destruct (dr_run r1 ps) as [r2 ys] eqn:E2. intros [= <- <-].
  destruct (offer_sound _ _ _ _ _ Hr E1) as (H1 & Hd & Hx).
  destruct (IH _ _ _ _ H1 E2) as (H2 & Hw & Hm). clear IH. rewrite <- app_assoc in H2. split; [exact H2|].
  split.
  - intros [|i] bs Hi.
    + injection Hi as ->. destruct (Hx bs eq_refl) as [HW ?]. exists p. split; [done|]. split; [exact HW|lia].
    + destruct (Hw i bs Hi) as (q & Hq & HW & Hle). exists q. split; [done|].
      rewrite <- app_assoc in HW. split; [exact HW|lia].
  - intros [|i] [|j] bs bs' q q' Hij Hi Hj Hq Hq'; try lia.
    + injection Hi as ->. injection Hq as <-. destruct (Hx bs eq_refl) as [_ ?].
      destruct (Hw j bs' Hj) as (q2 & Hq2 & _ & ?). change (ps !! j = Some q') in Hq'.
      rewrite Hq2 in Hq'. injection Hq' as <-. lia.
    + apply (Hm i j bs bs' q q'); auto with lia.
Qed.

(** ** Any order *)

(** The parts of state [num], which are [ds]. *)
Definition of_state (num : N) (ds : list (list byte)) (p : Part) : Prop :=
  p_num p = num /\ p_parts p = len ds /\ ds !! N.to_nat (p_part p) = Some (p_data p).

(** Part [j] of state [num] is among [ps]. *)
Definition arrived (num : N) (ps : list Part) (j : nat) : bool :=
  existsb (fun p => (p_num p =? num) && (N.to_nat (p_part p) =? j)%nat) ps.

(** The slots once [ps] have arrived. *)
Definition masked (m : nat -> bool) (ds : list (list byte)) : list (option (list byte)) :=
  imap (fun j d => if m j then Some d else None) ds.

Lemma masked_lookup m ds j : masked m ds !! j = (fun d => if m j then Some d else None) <$> ds !! j.
Proof. unfold masked. by rewrite list_lookup_imap. Qed.

Lemma masked_ext m m' ds : (forall j, (j < length ds)%nat -> m j = m' j) -> masked m ds = masked m' ds.
Proof.
  intros H. apply list_eq. intros j. rewrite !masked_lookup. destruct (ds !! j) eqn:E; [|done].
  cbn. rewrite H; [done|]. by eapply lookup_lt_Some.
Qed.

Lemma masked_size m ds : len (flatten (masked m ds)) <= len (mjoin ds).
Proof.
  revert m. induction ds as [|d ds IH]; intros m; [done|]. unfold masked. cbn [imap].
  rewrite flatten_cons, mjoin_cons, !len_app. apply N.add_le_mono; [|exact (IH (m ∘ S))].
  destruct (m 0%nat); [done|apply N.le_0_l].
Qed.

Lemma masked_all m ds : (forall j, (j < length ds)%nat -> m j = true) -> masked m ds = Some <$> ds.
Proof.
  intros H. apply list_eq. intros j. rewrite masked_lookup, list_lookup_fmap. destruct (ds !! j) eqn:E; [|done].
  cbn. rewrite H; [done|]. by eapply lookup_lt_Some.
Qed.

Lemma flatten_some ds : flatten (Some <$> ds) = mjoin ds.
Proof. induction ds as [|d ds IH]; [done|]. cbn [fmap list_fmap]. by rewrite flatten_cons, IH. Qed.

Lemma masked_insert m ds j d :
  ds !! j = Some d -> <[j := Some d]> (masked m ds) = masked (fun k => m k || (j =? k)%nat) ds.
Proof.
  intros Hj. assert (j < length (masked m ds))%nat.
  { unfold masked. rewrite length_imap. by eapply lookup_lt_Some. }
  apply list_eq. intros k. rewrite masked_lookup. destruct (Nat.eqb_spec j k) as [<-|Hne].
  - rewrite list_lookup_insert_eq, Hj by done. cbn. by rewrite orb_true_r.
  - rewrite list_lookup_insert_ne, masked_lookup by done. by rewrite orb_false_r.
Qed.

Lemma filled_some ds : filled (Some <$> ds) = len ds.
Proof.
  induction ds as [|d ds IH]; [done|]. unfold filled in *. cbn [fmap list_fmap omap list_omap id].
  rewrite !len_cons. by f_equal.
Qed.

Lemma arrived_snoc num ps p j :
  arrived num (ps ++ [p]) j = arrived num ps j || ((p_num p =? num) && (N.to_nat (p_part p) =? j)%nat).
Proof. unfold arrived. rewrite existsb_app. cbn. by rewrite orb_false_r. Qed.

Section AnyOrder.
(** A state and its parts. *)
Context (num : N) (ds : list (list byte)).

Definition covered (ps : list Part) : bool := forallb (arrived num ps) (seq 0 (length ds)).

Lemma covered_spec ps : covered ps = true <-> forall j, (j < length ds)%nat -> arrived num ps j = true.
Proof.
  unfold covered. rewrite forallb_forall. split; intros H j Hj; apply H; [apply in_seq; lia|].
  apply in_seq in Hj. lia.
Qed.

(** State [num] has been started, and [ps] have arrived. *)
Definition Building (ps : list Part) (r : DatagramReassembler) : Prop :=
  dr_num r = num /\ dr_parts r = len ds /\ dr_done r <= num
  /\ dr_slots r = masked (arrived num ps) ds
  /\ dr_got r = filled (dr_slots r) /\ dr_bytes r = len (flatten (dr_slots r)).

(** No part of state [num] nor of a later one has arrived. *)
Definition Waiting (ps : list Part) (r : DatagramReassembler) : Prop :=
  (forall j, arrived num ps j = false) /\ (dr_parts r = 0 \/ dr_num r < num) /\ dr_done r <= num.

Lemma filled_covered ps : filled (masked (arrived num ps) ds) = len ds <-> covered ps = true.
Proof.
  rewrite covered_spec. split.
  - intros H j [d Hd]%lookup_lt_is_Some_2. destruct (filled_all (masked (arrived num ps) ds)) as (es & He & _).
    { rewrite H. unfold len, masked. by rewrite length_imap. }
    pose proof (masked_lookup (arrived num ps) ds j) as E. rewrite He, list_lookup_fmap, Hd in E.
    destruct (es !! j), (arrived num ps j); by simplify_eq/=.
  - intros H. by rewrite masked_all, filled_some.
Qed.

Lemma covered_app k l : covered (k ++ l) = false -> covered k = false.
Proof.
  rewrite <- !not_true_iff_false, !covered_spec. intros H Hk. apply H. intros j Hj.
  unfold arrived in *. by rewrite existsb_app, Hk.
Qed.

(** The state is within the limits of the carrier. *)
Hypothesis Hsome : 0 < len ds <= MAX_DATAGRAM_PARTS.
Hypothesis Hparts : Forall (fun d => len d <= PART_MAX) ds.
Hypothesis Hsize : len (mjoin ds) <= MAX_UPDATE_BYTES.

Lemma started_building ps r :
  Waiting ps r \/ Building ps r -> Building ps (dr_started num (len ds) r).
Proof.
  intros [(Ha & Hn & Hd)|H]; unfold dr_started.
  - rewrite (proj2 (orb_true_iff _ _)) by lia. destruct (filled_none (length ds)) as [Hf Hl].
    replace (N.to_nat (len ds)) with (length ds) by (unfold len; lia).
    assert (replicate (length ds) None = masked (arrived num ps) ds) as E.
    { apply list_eq. intros j. rewrite masked_lookup, Ha. destruct (ds !! j) eqn:Ej; cbn.
      - apply lookup_replicate. split; [done|]. by eapply lookup_lt_Some.
      - apply lookup_replicate_None. apply lookup_ge_None in Ej. lia. }
    do 3 (split; [done|]). split; [exact E|]. cbn. by rewrite Hf, Hl.
  - pose proof H as (Hn & Hp & _). rewrite (proj2 (orb_false_iff _ _)) by lia. done.
Qed.

Lemma offer_older ps p r r' x :
  p_num p < num -> dr_offer p r = (r', x) -> Waiting ps r \/ Building ps r ->
  Waiting (ps ++ [p]) r' \/ Building (ps ++ [p]) r'.
Proof.
  intros Hlt Ho Hr.
  assert (Ha : forall j, arrived num (ps ++ [p]) j = arrived num ps j).
  { intros j. rewrite arrived_snoc, (proj2 (N.eqb_neq _ _)) by lia. by rewrite orb_false_r. }
  destruct Hr as [(Hw & Hn & Hd)|Hb].
  - left. split; [intros j; by rewrite Ha|].
    unfold dr_offer, dr_push in Ho. repeat case_match; injection Ho as <- <-; cbn; lia.
  - right. enough (r' = r) as ->.
    { destruct Hb as (? & ? & ? & Hs & ?). do 3 (split; [done|]). split; [|done]. rewrite Hs. by apply masked_ext. }
    destruct Hb as (Hn & Hp & _). unfold dr_offer, dr_push in Ho.
    destruct (_ || _ || _); [by injection Ho|]. destruct (PART_MAX <? _); [by injection Ho|].
    rewrite (proj2 (orb_true_iff _ _)) in Ho by lia. by injection Ho.
Qed.

(** A part of the state gets past the checks. *)
Lemma offer_accepted ps p r :
  of_state num ds p -> Waiting ps r \/ Building ps r ->
  let r0 := dr_started num (len ds) r in
  dr_offer p r =
  match default None (dr_slots r0 !! N.to_nat (p_part p)) with
  | Some _ => (r0, Ok None)
  | None =>
      if MAX_UPDATE_BYTES <? dr_bytes r0 + len (p_data p) then (dr_reset r0, Err TooLarge)
      else
        let slots := <[N.to_nat (p_part p) := Some (p_data p)]> (dr_slots r0) in
        if dr_got r0 + 1 =? dr_parts r0 then (mkDr (dr_num r0) num 0 0 [] 0, Ok (Some (flatten slots)))
        else (mkDr (dr_num r0) (dr_done r0) (dr_parts r0) (dr_got r0 + 1) slots (dr_bytes r0 + len (p_data p)), Ok None)
  end.
Proof.
  intros (Hn & Hp & Hd) Hr. pose proof (lookup_lt_Some _ _ _ Hd) as Hlt.
  pose proof (proj1 (Forall_lookup _ _) Hparts _ _ Hd) as Hmax. cbv beta in Hmax.
  unfold dr_offer, dr_push. rewrite Hn, Hp. fold (dr_started num (len ds) r).
  assert (p_part p < len ds) by (unfold len; lia).
  rewrite (proj2 (orb_false_iff (_ || _) _)) by lia. rewrite (proj2 (N.ltb_ge PART_MAX _)) by done.
  assert (dr_done r <= num /\ (dr_parts r = 0 \/ dr_num r < num \/ (dr_num r = num /\ dr_parts r = len ds))) as (Hdn & Hcase).
  { destruct Hr as [(_ & [?|?] & ?)|(? & ? & ? & _)]; auto. }
  rewrite (proj2 (orb_false_iff (num <? dr_done r) _)) by lia.
  rewrite (proj2 (andb_false_iff (negb (_ || _)) _)) by lia. done.
Qed.

Lemma offer_state ps p r r' x :
  of_state num ds p -> dr_offer p r = (r', x) -> Waiting ps r \/ Building ps r -> covered ps = false ->
  if covered (ps ++ [p]) then x = Ok (Some (mjoin ds)) else Building (ps ++ [p]) r'.
Proof.
  intros Hst Ho Hr Hc. rewrite (offer_accepted ps) in Ho by done. apply started_building in Hr.
  set (r0 := dr_started num (len ds) r) in *. clearbody r0. cbv zeta in Ho.
  destruct Hst as (Hn & Hp & Hd). destruct Hr as (Hrn & Hrp & Hrd & Hrs & Hrg & Hrb).
  assert (Ha : forall j, arrived num (ps ++ [p]) j = arrived num ps j || (N.to_nat (p_part p) =? j)%nat).
  { intros j. by rewrite arrived_snoc, Hn, N.eqb_refl. }
  rewrite Hrs, masked_lookup, Hd in Ho. cbn [fmap option_fmap option_map] in Ho.
  destruct (arrived num ps (N.to_nat (p_part p))) eqn:Ej; cbn in Ho.
  - injection Ho as <- <-. assert (Ha' : forall j, arrived num (ps ++ [p]) j = arrived num ps j).
    { intros j. rewrite Ha. destruct (Nat.eqb_spec (N.to_nat (p_part p)) j) as [<-|]; [by rewrite Ej|apply orb_false_r]. }
    replace (covered (ps ++ [p])) with (covered ps) by (apply eq_true_iff_eq; rewrite !covered_spec; by setoid_rewrite Ha').
    rewrite Hc. do 3 (split; [done|]). split; [|done]. rewrite Hrs. by apply masked_ext.
  - rewrite masked_insert in Ho by done.
    rewrite (masked_ext _ (arrived num (ps ++ [p]))) in Ho by (intros; by rewrite Ha).
    destruct (filled_insert (dr_slots r0) (N.to_nat (p_part p)) (p_data p)) as [Hf Hl].
    { rewrite Hrs, masked_lookup, Hd. cbn. by rewrite Ej. }
    rewrite Hrs, masked_insert, (masked_ext _ (arrived num (ps ++ [p]))) in Hf, Hl by (done || (intros; by rewrite Ha)).
    rewrite <- Hrs in Hf, Hl. pose proof (masked_size (arrived num (ps ++ [p])) ds).
    rewrite (proj2 (N.ltb_ge _ _)) in Ho by lia. pose proof (filled_covered (ps ++ [p])) as Hfc.
    destruct (N.eqb_spec (dr_got r0 + 1) (dr_parts r0)) as [Eg|Eg]; injection Ho as <- <-.
    + assert (covered (ps ++ [p]) = true) as -> by (apply Hfc; lia).
      rewrite masked_all by (apply covered_spec, Hfc; lia). by rewrite flatten_some.
    + assert (covered (ps ++ [p]) = false) as -> by (apply not_true_iff_false; intros ?%Hfc; lia).
      do 4 (split; [done|]). cbn. lia.
Qed.

(** The invariant of a run that has not yet seen every part. *)
Lemma run_progress ps : forall pre r r' xs,
  Forall (fun p => of_state num ds p \/ p_num p < num) ps ->
  Waiting pre r \/ Building pre r -> covered (pre ++ ps) = false -> dr_run r ps = (r', xs) ->
  Waiting (pre ++ ps) r' \/ Building (pre ++ ps) r'.
Proof.
  induction ps as [|p ps IH]; intros pre r r' xs Hps Hr Hc; cbn [dr_run].
  { intros [= <- <-]. by rewrite app_nil_r. }
  apply Forall_cons in Hps as [Hp Hps]. destruct (dr_offer p r) as [r1 x] eqn:E1.
  destruct (dr_run r1 ps) as [r2 ys] eqn:E2. intros [= <- <-].
  rewrite (cons_middle p pre ps), app_assoc in Hc |- *.
  eapply IH; [done| |done|done]. destruct Hp as [Hp|Hp]; [|by eapply offer_older].
  right. pose proof (covered_app _ _ Hc) as Hc1. pose proof (covered_app _ _ Hc1) as Hc0.
  pose proof (offer_state pre p r r1 x Hp E1 Hr Hc0) as Hb. by rewrite Hc1 in Hb.
Qed.
End AnyOrder.

Lemma dr_run_snoc p ps : forall r,
  dr_run r (ps ++ [p]) =
  let '(r1, xs) := dr_run r ps in let '(r2, x) := dr_offer p r1 in (r2, xs ++ [x]).
Proof.
  induction ps as [|q ps IH]; intros r; cbn [dr_run app]; [by destruct (dr_offer p r)|].
  destruct (dr_offer q r) as [r1 x]. rewrite IH. destruct (dr_run r1 ps) as [r2 xs].
  by destruct (dr_offer p r2).
Qed.

Lemma dr_run_length ps : forall r, length (snd (dr_run r ps)) = length ps.
Proof.
  induction ps as [|p ps IH]; intros r; [done|]. cbn [dr_run]. destruct (dr_offer p r) as [r1 x].
  specialize (IH r1). destruct (dr_run r1 ps). cbn in *. by f_equal.
Qed.

Lemma split_sized_spec encoded max_part :
  max_part <= PART_MAX ->
  mjoin (split_sized encoded max_part) = encoded
  /\ Forall (fun d => len d <= PART_MAX) (split_sized encoded max_part)
  /\ 0 < len (split_sized encoded max_part).
Proof.
  intros Hm. unfold split_sized. destruct encoded as [|b bs] eqn:E; [by repeat constructor|].
  rewrite <- E in *. destruct (chunks_loop_spec (length encoded) (N.max max_part 1) encoded) as (Hj & Hf & Hc);
    [lia|lia|]. fold (chunks (N.max max_part 1) encoded) in *.
  split; [done|]. split.
  - eapply Forall_impl; [exact Hf|]. cbv beta. unfold PART_MAX in *. lia.
  - destruct (chunks _ encoded); [by subst|rewrite len_cons; lia].
Qed.

(** ** Properties *)

(** A screen sent over the stream arrives: for valid screens, the update
    between them, cut into parts and pushed in order into a reassembler in any
    state, comes out whole at the last part, decodes to what was sent, and
    applied to the base gives the new screen, hash check included. *)
Theorem screen_sync blake3 base new num0 num seq effs r :
  (forall x, HASH_LEN <= len (blake3 x)) ->
  is_valid base = true -> state_ok new -> num0 < num -> ScreenCodec.is_u64 num -> ScreenCodec.is_u64 seq ->
  len effs <= MAX_EFFECTS -> Forall effect_ok effs ->
  exists d, between base new = Ok d
  /\ let u := mkUpdate num0 num seq d effs (hash blake3 new) in
  let parts := split (encode_update u) in
  len (encode_update u) <= MAX_UPDATE_BYTES ->
  re_push_all num 0 (len parts) parts r =
    (re_empty, replicate (length parts - 1) (Ok None) ++ [Ok (Some (encode_update u))])
  /\ decode_update (encode_update u) = Ok u /\ apply_update blake3 u base = Ok new.
Proof.
  intros Hh Hb Hn Hlt Hnum Hseq Hne Hes. destruct (between_spec base new Hb Hn) as (d & Hd & Hok & Ha).
  exists d. split; [done|]. intros u parts Hl. split; [by apply stream_parts|]. split.
  - unfold decode_update. rewrite (proj2 (N.ltb_ge _ _)) by done.
    apply (whole_read read_update encode_update update_ok). unfold u, update_ok, ScreenCodec.is_u64 in *. cbn.
    do 4 (split; [lia|]). split; [|done]. unfold hash. rewrite len_takeN.
    specialize (Hh (canonical_bytes new)). lia.
  - unfold apply_update, u. cbn [diff state_hash]. rewrite Ha. cbn. by rewrite bool_decide_true.
Qed.

(** Datagram parts may come in any order and more than once, among parts
    of older states: the arrival that leaves no part of a state missing
    completes it, and gives exactly the update that was cut. *)
Theorem datagram_any_order encoded max_part num ps p :
  let ds := split_sized encoded max_part in
  len encoded <= MAX_UPDATE_BYTES -> max_part <= PART_MAX -> len ds <= MAX_DATAGRAM_PARTS ->
  Forall (fun p => of_state num ds p \/ p_num p < num) (ps ++ [p]) ->
  covered num ds ps = false -> covered num ds (ps ++ [p]) = true ->
  exists xs, snd (dr_run dr_new (ps ++ [p])) = xs ++ [Ok (Some encoded)] /\ length xs = length ps.
Proof.
  intros ds He Hm Hc [Hps Hp]%Forall_app Hn Hy. rewrite Forall_singleton in Hp.
  destruct (split_sized_spec encoded max_part Hm) as (Hj & Hf & H0). fold ds in Hj, Hf, H0. clearbody ds.
  rewrite dr_run_snoc. pose proof (dr_run_length ps dr_new) as Hlen.
  destruct (dr_run dr_new ps) as [r1 xs] eqn:E1. destruct (dr_offer p r1) as [r2 x] eqn:E2.
  exists xs. split; [|done]. cbn. do 2 f_equal.
  assert (Hr : Waiting num ps r1 \/ Building num ds ps r1).
  { refine (run_progress num ds ltac:(lia) Hf ltac:(by rewrite Hj) ps [] dr_new r1 xs Hps _ Hn E1).
    left. split; [done|]. split; [by left|cbn; lia]. }
  destruct Hp as [Hp|Hp].
  - pose proof (offer_state num ds ltac:(lia) Hf ltac:(by rewrite Hj) ps p r1 r2 x Hp E2 Hr Hn) as Hx.
    rewrite Hy, Hj in Hx. exact Hx.
  - exfalso. apply not_true_iff_false in Hn. apply Hn. rewrite covered_spec in Hy |- *. intros j Hj'.
    specialize (Hy j Hj'). rewrite arrived_snoc, (proj2 (N.eqb_neq _ _)), orb_false_r in Hy by lia. done.
Qed.

(** Whatever arrives, from whoever: an update that comes out of the
    datagram reassembler is the concatenation, in order, of all the parts of
    one state, each of which has arrived with that state's number and count;
    completed states never go backwards; and what is buffered stays within
    the update cap. *)
Theorem datagram_sound ps r xs :
  dr_run dr_new ps = (r, xs) ->
  dr_bytes r <= MAX_UPDATE_BYTES
  /\ (forall i bs, xs !! i = Some (Ok (Some bs)) ->
      exists p ds, ps !! i = Some p /\ bs = mjoin ds /\ len ds = p_parts p /\ len bs <= MAX_UPDATE_BYTES
      /\ forall j d, ds !! j = Some d -> mkPart (p_num p) (N.of_nat j) (p_parts p) d ∈ take (S i) ps)
  /\ (forall i j bs bs' p q, (i < j)%nat -> xs !! i = Some (Ok (Some bs)) -> xs !! j = Some (Ok (Some bs')) ->
      ps !! i = Some p -> ps !! j = Some q -> p_num p <= p_num q).
Proof.
  intros H. destruct (run_sound ps [] dr_new r xs (holds_empty _ _ _) H) as ((_ & _ & _ & Hb & _) & Hw & Hm).
  split; [done|]. split; [|done]. intros i bs Hi.
  destruct (Hw i bs Hi) as (p & Hp & (Hl & ds & -> & Hn & Hin) & _). by exists p, ds.
Qed.

(** *** Examples *)

Lemma screen_sync_witness :
  exists d, between demo_old demo_new = Ok d
  /\ let u := mkUpdate 1 2 300 d [Bell] (hash (fun x => x ++ replicate 8 x00) demo_new) in
     decode_update (encode_update u) = Ok u /\ apply_update (fun x => x ++ replicate 8 x00) u demo_old = Ok demo_new.
Proof.
  destruct (screen_sync (fun x => x ++ replicate 8 x00) demo_old demo_new 1 2 300 [Bell] (mkRe 7 3 1 [x00]))
    as (d & Hd & H).
  - intros x. rewrite len_app. change (len (replicate 8 x00)) with 8. unfold HASH_LEN. lia.
  - exact demo_old_valid.
  - exact demo_new_ok.
  - reflexivity.
  - reflexivity.
  - reflexivity.
  - vm_compute. discriminate.
  - constructor; [split; [reflexivity|repeat constructor]|constructor].
  - exists d. split; [exact Hd|]. assert (E : Ok d = between demo_old demo_new) by (by rewrite Hd).
    vm_compute in E. injection E as ->. apply H. vm_compute. discriminate.
Defined.

(** Five bytes in parts of two, the last part first, one twice, with a part
    of an older state in between. *)
Definition demo_encoded : list byte := [x61; x62; x63; x64; x65].
Definition demo_part (num i : N) : Part :=
  mkPart num i 3 (default [] (split_sized demo_encoded 2 !! N.to_nat i)).
Definition demo_parts : list Part := [demo_part 9 2; demo_part 4 1; demo_part 9 0; demo_part 9 2].

Lemma datagram_any_order_witness :
  exists xs, snd (dr_run dr_new (demo_parts ++ [demo_part 9 1])) = xs ++ [Ok (Some demo_encoded)]
             /\ length xs = 4%nat.
Proof.
  apply (datagram_any_order demo_encoded 2 9 demo_parts (demo_part 9 1)).
  - vm_compute. discriminate.
  - vm_compute. discriminate.
  - vm_compute. discriminate.
  - repeat (constructor; [first [by left; repeat split | by right]|]). constructor.
  - reflexivity.
  - reflexivity.
Defined.

Lemma datagram_sound_witness :
  exists r xs, dr_run dr_new (demo_parts ++ [demo_part 9 1]) = (r, xs)
  /\ dr_bytes r <= MAX_UPDATE_BYTES
  /\ exists p ds, (demo_parts ++ [demo_part 9 1]) !! 4%nat = Some p /\ demo_encoded = mjoin ds.
Proof.
  destruct (dr_run dr_new (demo_parts ++ [demo_part 9 1])) as [r xs] eqn:E. exists r, xs. split; [reflexivity|].
  pose proof (datagram_sound _ _ _ E) as (Hb & Hw & _). split; [exact Hb|].
  destruct (Hw 4%nat demo_encoded) as (p & ds & Hp & He & _).
  - vm_compute in E. injection E as <- <-. reflexivity.
  - exists p, ds. split; [exact Hp|exact He].
Defined.

End ScreenParts.
