(* ===== verification/Utf8.v ===== *)
(** * Characters and their UTF-8 form

    What the screen code uses of [char] and [String]: [char::encode_utf8],
    [char::len_utf8] and [String::from_utf8_lossy].  Strings are their bytes;
    [chars] of [ScreenCodec] reads them back. *)

From S2P Require Import Prelude ScreenCodec.

Module Utf8.
Import ScreenCodec.

(** The values of [char]. *)
Definition is_scalar (c : N) : bool := (c <? 55296) || ((57344 <=? c) && (c <? 1114112)).

Definition len_utf8 (c : N) : N :=
  if c <? 128 then 1 else if c <? 2048 then 2 else if c <? 65536 then 3 else 4.

Definition encode_utf8 (c : N) : list byte :=
  if c <? 128 then [n2b c]
  else if c <? 2048 then [n2b (192 + c / 64); n2b (128 + c mod 64)]
  else if c <? 65536 then [n2b (224 + c / 4096); n2b (128 + c / 64 mod 64); n2b (128 + c mod 64)]
  else [n2b (240 + c / 262144); n2b (128 + c / 4096 mod 64); n2b (128 + c / 64 mod 64); n2b (128 + c mod 64)].

(** U+FFFD *)
Definition REPLACEMENT : N := 65533.

(** [String::from_utf8_lossy]: each maximal prefix of a character that goes no
    further becomes one U+FFFD. *)
Fixpoint lossy (bs : list byte) : list N :=
  match bs with
  | [] => []
  | b0 :: t0 =>
      let n := b2n b0 in
      if n <=? 127 then n :: lossy t0
      else if (194 <=? n) && (n <=? 223) then
        match t0 with
        | b1 :: t1 =>
            if cont b1 then (n - 192) * 64 + low6 b1 :: lossy t1 else REPLACEMENT :: lossy t0
        | [] => [REPLACEMENT]
        end
      else if (224 <=? n) && (n <=? 239) then
        match t0 with
        | b1 :: t1 =>
            if between (if n =? 224 then 160 else 128) (if n =? 237 then 159 else 191) b1 then
              match t1 with
              | b2 :: t2 =>
                  if cont b2 then (n - 224) * 4096 + low6 b1 * 64 + low6 b2 :: lossy t2
                  else REPLACEMENT :: lossy t1
              | [] => [REPLACEMENT]
              end
            else REPLACEMENT :: lossy t0
        | [] => [REPLACEMENT]
        end
      else if (240 <=? n) && (n <=? 244) then
        match t0 with
        | b1 :: t1 =>
            if between (if n =? 240 then 144 else 128) (if n =? 244 then 143 else 191) b1 then
              match t1 with
              | b2 :: t2 =>
                  if cont b2 then
                    match t2 with
                    | b3 :: t3 =>
                        if cont b3
                        then (n - 240) * 262144 + low6 b1 * 4096 + low6 b2 * 64 + low6 b3 :: lossy t3
                        else REPLACEMENT :: lossy t2
                    | [] => [REPLACEMENT]
                    end
                  else REPLACEMENT :: lossy t1
              | [] => [REPLACEMENT]
              end
            else REPLACEMENT :: lossy t0
        | [] => [REPLACEMENT]
        end
      else REPLACEMENT :: lossy t0
  end.

(** ** Facts *)

#[local] Ltac Zify.zify_post_hook ::= Z.div_mod_to_equations.

(** The tests of a decoder on bytes whose ranges are known. *)
Ltac known := repeat match goal with
  | |- context [if ?b then _ else _] => first [replace b with true by lia | replace b with false by lia]; cbv iota
  end.

Lemma len_encode c : len (encode_utf8 c) = len_utf8 c.
Proof. unfold encode_utf8, len_utf8. by repeat destruct (_ <? _). Qed.

Lemma chars_encode c t : is_scalar c = true -> chars (encode_utf8 c ++ t) = cons c <$> chars t.
Proof.
  intros Hs. unfold is_scalar in Hs. unfold encode_utf8.
  destruct (N.ltb_spec c 128); [|destruct (N.ltb_spec c 2048); [|destruct (N.ltb_spec c 65536)]].
  all: cbn [app chars]; unfold cont, between, low6; rewrite !b2n_n2b_small by lia; known.
  - done.
  - do 2 f_equal. lia.
  - destruct (N.eqb_spec (224 + c / 4096) 224), (N.eqb_spec (224 + c / 4096) 237); known; do 2 f_equal; lia.
  - destruct (N.eqb_spec (240 + c / 262144) 240), (N.eqb_spec (240 + c / 262144) 244); known; do 2 f_equal; lia.
Qed.

Lemma chars_encode_all cs :
  Forall (fun c => is_scalar c = true) cs -> chars (mjoin (encode_utf8 <$> cs)) = Some cs.
Proof.
  induction 1 as [|c cs Hc _ IH]; [done|]. cbn [fmap list_fmap]. rewrite mjoin_cons, chars_encode, IH by done.
  done.
Qed.

(** A first character decoded, with what is left and what it took. *)
Ltac char_of t k :=
  eexists _, t, k; split; [reflexivity|]; split; [lia|]; split; [reflexivity|]; split; [done|].

(** One step of [lossy]: a character is taken off the front. *)
Lemma lossy_step b0 t0 : exists c t k,
  lossy (b0 :: t0) = c :: lossy t /\ is_scalar c = true /\ b0 :: t0 = k ++ t /\ k <> [] /\
  (forall cs, chars (b0 :: t0) = Some cs -> exists cs', cs = c :: cs' /\ chars t = Some cs').
Proof.
  assert (forall (o : option (list N)) x cs, cons x <$> o = Some cs -> exists cs', cs = x :: cs' /\ o = Some cs') as Hcons
    by (intros [l|] x cs; simpl; naive_solver).
  pose proof (b2n_bound b0). cbn [lossy chars]. unfold is_scalar, REPLACEMENT.
  destruct (b2n b0 <=? 127) eqn:E1. { char_of t0 [b0]. apply Hcons. }
  destruct ((194 <=? b2n b0) && (b2n b0 <=? 223)) eqn:E2.
  { destruct t0 as [|b1 t1]; [by char_of ([] : list byte) [b0]|]. unfold cont, low6 in *.
    destruct ((128 <=? b2n b1) && _) eqn:F1; [char_of t1 [b0; b1]; apply Hcons|by char_of (b1 :: t1) [b0]]. }
  destruct ((224 <=? b2n b0) && (b2n b0 <=? 239)) eqn:E3.
  { destruct t0 as [|b1 t1]; [by char_of ([] : list byte) [b0]|]. unfold between, cont, low6 in *.
    destruct (((if b2n b0 =? 224 then 160 else 128) <=? b2n b1) && _) eqn:F1;
      [|char_of (b1 :: t1) [b0]; by destruct t1].
    destruct t1 as [|b2 t2]; [by char_of ([] : list byte) [b0; b1]|]. cbn [andb].
    destruct ((128 <=? b2n b2) && _) eqn:F2; [|by char_of (b2 :: t2) [b0; b1]].
    destruct (N.eqb_spec (b2n b0) 224), (N.eqb_spec (b2n b0) 237); char_of t2 [b0; b1; b2]; apply Hcons. }
  destruct ((240 <=? b2n b0) && (b2n b0 <=? 244)) eqn:E4; [|by char_of t0 [b0]].
  destruct t0 as [|b1 t1]; [by char_of ([] : list byte) [b0]|]. unfold between, cont, low6 in *.
  destruct (((if b2n b0 =? 240 then 144 else 128) <=? b2n b1) && _) eqn:F1;
    [|char_of (b1 :: t1) [b0]; by destruct t1 as [|? [|? ?]]].
  destruct t1 as [|b2 t2]; [by char_of ([] : list byte) [b0; b1]|].
  destruct ((128 <=? b2n b2) && _) eqn:F2; [|char_of (b2 :: t2) [b0; b1]; by destruct t2].
  destruct t2 as [|b3 t3]; [by char_of ([] : list byte) [b0; b1; b2]|]. cbn [andb].
  destruct ((128 <=? b2n b3) && _) eqn:F3; [|by char_of (b3 :: t3) [b0; b1; b2]].
  destruct (N.eqb_spec (b2n b0) 240), (N.eqb_spec (b2n b0) 244); char_of t3 [b0; b1; b2; b3]; apply Hcons.
Qed.

(** Lossy decoding gives characters, and the string itself when it is one. *)
Lemma lossy_spec bs :
  Forall (fun c => is_scalar c = true) (lossy bs) /\ forall cs, chars bs = Some cs -> lossy bs = cs.
Proof.
  remember (length bs) as n eqn:Hn. revert bs Hn. induction (lt_wf n) as [n _ IH]. intros [|b0 t0] ->; [split; [constructor|by intros ? [= <-]]|].
  destruct (lossy_step b0 t0) as (c & t & k & -> & Hc & Hk & Hne & Hv).
  destruct (IH (length t)) with (bs := t) as [Hs Hl]; [|done|].
  { rewrite Hk, length_app. destruct k; [done|]. simpl. lia. }
  split; [by constructor|]. intros cs Hcs. destruct (Hv cs Hcs) as (cs' & -> & Hcs'). by rewrite (Hl cs').
Qed.

Lemma chars_scalar bs cs : chars bs = Some cs -> Forall (fun c => is_scalar c = true) cs.
Proof. intros H. destruct (lossy_spec bs) as [Hs Hl]. by rewrite <- (Hl cs H). Qed.

End Utf8.
