(* ===== verification/ScreenHost.v ===== *)
(** * The host's terminal emulator

    Models [crates/qsh-core/src/screen/mod.rs] ([HostScreen]) and
    [screen/collector.rs] ([Collector]): the emulator a session feeds its
    output to, the numbered states it freezes and the updates between them,
    the side effects and the scrolled-off lines it collects, and the answers
    it gives to terminal queries.

    The terminal emulation itself is the third-party crate [vt100].  It enters
    as [Vt]: operations on an abstract parser that show a screen and report
    callbacks. *)

From stdpp Require Import pretty.
From S2P Require Import Prelude ScreenCodec ScreenDiff Utf8.

Module ScreenHost.
Import ScreenCodec ScreenDiff Utf8.

Definition RETAINED_STATES : nat := 8.
Definition FEED_SLICE : N := 16 * 1024.
Definition DEFAULT_HISTORY_ROWS : N := 5000.
Definition DEFAULT_HISTORY_BYTES : N := 4 * 1024 * 1024.
Definition EFFECT_LOG_MAX : nat := 256.
Definition MAX_ANSWER_BYTES : N := 4096.

(** ** The variation selector filter *)

(** [Vs16Filter::SEQ]; the filter's state is the prefix of it that is held. *)
Definition SEQ : list byte := [xef; xb8; x8f].

Fixpoint vs16_loop (held data : list byte) : list byte * list byte :=
  match data with
  | [] => (held, [])
  | b :: t =>
      if bool_decide (SEQ !! length held = Some b) then
        if (length held =? 2)%nat then let '(h, out) := vs16_loop [] t in (h, x00 :: out)
        else vs16_loop (held ++ [b]) t
      else if bool_decide (b = xef) then
        let '(h, out) := vs16_loop [b] t in (h, held ++ out)
      else let '(h, out) := vs16_loop [] t in (h, held ++ b :: out)
  end.

(** [Vs16Filter::filter] *)
Definition vs16_filter (held data : list byte) : list byte * list byte :=
  if is_nil held && negb (bool_decide (xef ∈ data)) then (held, data) else vs16_loop held data.

(** ** The emulator crate *)

Record VtCell := mkVtCell {
  vc_contents : list byte;
  vc_wide : bool; vc_wide_continuation : bool;
  vc_bold : bool; vc_dim : bool; vc_italic : bool; vc_underline : bool; vc_inverse : bool;
  vc_fg : Color; vc_bg : Color;
}.

Inductive MouseMode := MNone | MPress | MPressRelease | MButtonMotion | MAnyMotion.
Inductive MouseEncoding := EDefault | EUtf8 | ESgr.

Record VtScreen := mkVtScreen {
  vs_rows : N; vs_cols : N;
  vs_cell : N -> N -> option VtCell;
  vs_row_wrapped : N -> bool;
  vs_cursor : N * N;
  vs_alternate : bool; vs_hide_cursor : bool; vs_app_cursor : bool; vs_app_keypad : bool;
  vs_paste : bool;
  vs_mouse : MouseMode; vs_encoding : MouseEncoding;
}.

(** The callbacks; a scrolled line comes formatted, or with the failure to
    format it. *)
Inductive Callback :=
  | CbBell
  | CbTitle (title : list byte)
  | CbClipboard (ty data : list byte)
  | CbOsc (params : list (list byte))
  | CbCsi (screen : VtScreen) (i1 i2 : option byte) (params : list (list N)) (c : byte)
  | CbScroll (line : option (list byte)) (alternate_screen : bool).

Class Vt (V : Type) := {
  vt_new : N -> N -> V;
  vt_process : V -> list byte -> V * list Callback;
  vt_set_size : V -> N -> N -> V * list Callback;
  vt_screen : V -> VtScreen;
}.

(** A screen has the size it was given, in both dimensions at least one. *)
Class VtLaws (V : Type) `{Vt V} : Prop := {
  vt_new_size r c : vs_rows (vt_screen (vt_new r c)) = r /\ vs_cols (vt_screen (vt_new r c)) = c;
  vt_process_size v bs : let s := vt_screen (vt_process v bs).1 in
    vs_rows s = vs_rows (vt_screen v) /\ vs_cols s = vs_cols (vt_screen v);
  vt_set_size_size v r c : let s := vt_screen (vt_set_size v r c).1 in vs_rows s = r /\ vs_cols s = c;
}.

(** ** A screen as a state *)

Fixpoint or_flags (l : list (bool * N)) : N :=
  match l with
  | [] => 0
  | (on, bit) :: l' => (if on then bit else 0) + or_flags l'
  end.

(** The loop over the characters of a cell. *)
Fixpoint cell_text (used : N) (cs : list N) : list byte :=
  match cs with
  | [] => []
  | c :: cs' =>
      if is_control c || (MAX_CELL_TEXT <? used + len_utf8 c) then []
      else encode_utf8 c ++ cell_text (used + len_utf8 c) cs'
  end.

(** Distinct bits: or is the sum. *)
Definition convert_cell (cell : VtCell) : Cell :=
  let style := or_flags [(vc_bold cell, 1); (vc_dim cell, 2); (vc_italic cell, 4);
                         (vc_underline cell, 8); (vc_inverse cell, 16)] in
  if vc_wide_continuation cell then mkCell [] (vc_fg cell) (vc_bg cell) (n2b (style + WIDE_CONT))
  else mkCell (cell_text 0 (default [] (chars (vc_contents cell)))) (vc_fg cell) (vc_bg cell)
         (n2b (style + (if vc_wide cell then WIDE else 0))).

Definition mouse_code (m : MouseMode) : byte :=
  match m with MNone => x00 | MPress => x01 | MPressRelease => x02 | MButtonMotion => x03 | MAnyMotion => x04 end.
Definition encoding_code (e : MouseEncoding) : byte :=
  match e with EDefault => x00 | EUtf8 => x01 | ESgr => x02 end.

Definition upto (n : N) : list N := N.of_nat <$> seq 0 (N.to_nat n).

Definition state_of (s : VtScreen) : ScreenState :=
  mkScreen (vs_rows s) (vs_cols s)
    ((vs_cursor s).1 `min` (vs_rows s - 1)) ((vs_cursor s).2 `min` (vs_cols s - 1))
    (mkModes (n2b (or_flags [(vs_alternate s, 1); (vs_hide_cursor s, 2); (vs_app_cursor s, 4);
                             (vs_app_keypad s, 8); (vs_paste s, 16)]))
       (mouse_code (vs_mouse s)) (encoding_code (vs_encoding s)))
    ((fun r => mkRow ((fun c => from_option convert_cell blank_cell (vs_cell s r c)) <$> upto (vs_cols s))
                 (vs_row_wrapped s r)) <$> upto (vs_rows s)).

(** ** What the emulator reports *)

Record Collector := mkCollector {
  k_answers : list byte;
  k_effects : list Effect;
  k_effects_dropped : N;
  k_history : list (list byte);
  k_history_bytes : N;
  k_history_max_rows : N;
  k_history_max_bytes : N;
  k_history_skipped : N;
  k_history_full : bool;
  k_fg : option (byte * byte * byte);
  k_bg : option (byte * byte * byte);
}.

Definition collector_new (max_rows max_bytes : N) : Collector :=
  mkCollector [] [] 0 [] 0 max_rows max_bytes 0 false None None.

Definition set_answers (a : list byte) (k : Collector) : Collector :=
  mkCollector a (k_effects k) (k_effects_dropped k) (k_history k) (k_history_bytes k) (k_history_max_rows k)
    (k_history_max_bytes k) (k_history_skipped k) (k_history_full k) (k_fg k) (k_bg k).
Definition set_effects (es : list Effect) (dropped : N) (k : Collector) : Collector :=
  mkCollector (k_answers k) es dropped (k_history k) (k_history_bytes k) (k_history_max_rows k)
    (k_history_max_bytes k) (k_history_skipped k) (k_history_full k) (k_fg k) (k_bg k).
Definition set_history (h : list (list byte)) (bytes skipped : N) (full : bool) (k : Collector) : Collector :=
  mkCollector (k_answers k) (k_effects k) (k_effects_dropped k) h bytes (k_history_max_rows k)
    (k_history_max_bytes k) skipped full (k_fg k) (k_bg k).
Definition set_colors (fg bg : option (byte * byte * byte)) (k : Collector) : Collector :=
  mkCollector (k_answers k) (k_effects k) (k_effects_dropped k) (k_history k) (k_history_bytes k)
    (k_history_max_rows k) (k_history_max_bytes k) (k_history_skipped k) (k_history_full k) fg bg.

(** [Collector::answer] *)
Definition answer (bytes : list byte) (k : Collector) : Collector :=
  if len (k_answers k) + len bytes <=? MAX_ANSWER_BYTES then set_answers (k_answers k ++ bytes) k else k.

(** [Collector::effect] *)
Definition drop_effect (k : Collector) : Collector := set_effects (k_effects k) (k_effects_dropped k + 1) k.

Definition is_bell (e : Effect) : bool := match e with Bell => true | _ => false end.

Definition effect (e : Effect) (k : Collector) : Collector :=
  if negb (effect_valid e) then drop_effect k
  else if is_bell e && from_option is_bell false (last (k_effects k)) then k
  else if MAX_EFFECTS <=? len (k_effects k) then drop_effect k
  else set_effects (k_effects k ++ [e]) (k_effects_dropped k) k.

(** [Collector::push_history] *)
Definition push_history (line : list byte) (k : Collector) : Collector :=
  if k_history_max_bytes k <? k_history_bytes k + len line
  then set_history (k_history k) (k_history_bytes k) (k_history_skipped k + 1) true k
  else
    let h := k_history k ++ [line] in
    set_history h (k_history_bytes k + len line) (k_history_skipped k)
      (k_history_full k || (k_history_max_rows k <=? len h)) k.

(** Text of answers. *)
Definition ascii (s : string) : list byte := String.list_byte_of_string s.
Definition dec (n : N) : list byte := ascii (pretty n).
Definition hex_digit (n : N) : byte := n2b (if n <? 10 then 48 + n else 87 + n).
Definition hex2 (b : byte) : list byte := [hex_digit (b2n b / 16); hex_digit (b2n b mod 16)].

(** [Collector::color_answer] *)
Definition color_answer (ps : N) (color : option (byte * byte * byte)) (k : Collector) : Collector :=
  match color with
  | Some (r, g, b) =>
      answer (x1b :: ascii "]" ++ dec ps ++ ascii ";rgb:" ++ hex2 r ++ hex2 r ++ ascii "/" ++ hex2 g ++ hex2 g
              ++ ascii "/" ++ hex2 b ++ hex2 b ++ [x1b; x5c]) k
  | None => k
  end.

(** [clean_text] *)
Fixpoint clean_loop (used max : N) (cs : list N) : list byte :=
  match cs with
  | [] => []
  | c :: cs' =>
      if is_control c then clean_loop used max cs'
      else if max <? used + len_utf8 c then []
      else encode_utf8 c ++ clean_loop (used + len_utf8 c) max cs'
  end.
Definition clean_text (bytes : list byte) (max : N) : list byte := clean_loop 0 max (lossy bytes).

(** [private_mode_state] *)
Definition is_mouse (m : MouseMode) (s : VtScreen) : bool := b2n (mouse_code (vs_mouse s)) =? b2n (mouse_code m).
Definition is_encoding (e : MouseEncoding) (s : VtScreen) : bool :=
  b2n (encoding_code (vs_encoding s)) =? b2n (encoding_code e).
Definition private_mode_state (s : VtScreen) (mode : N) : option bool :=
  if mode =? 1 then Some (vs_app_cursor s)
  else if mode =? 9 then Some (is_mouse MPress s)
  else if mode =? 25 then Some (negb (vs_hide_cursor s))
  else if (mode =? 47) || (mode =? 1049) then Some (vs_alternate s)
  else if mode =? 1000 then Some (is_mouse MPressRelease s)
  else if mode =? 1002 then Some (is_mouse MButtonMotion s)
  else if mode =? 1003 then Some (is_mouse MAnyMotion s)
  else if mode =? 1005 then Some (is_encoding EUtf8 s)
  else if mode =? 1006 then Some (is_encoding ESgr s)
  else if mode =? 2004 then Some (vs_paste s)
  else None.

Definition first_param (params : list (list N)) : option N := list.head params ≫= list.head.

(** The callbacks of [Collector]. *)
Definition copy_to_clipboard (ty data : list byte) (k : Collector) : Collector :=
  if negb (is_utf8 ty && is_utf8 data) || (MAX_CLIPBOARD_BYTES <? len data) then drop_effect k
  else effect (Clipboard ty data) k.

Fixpoint join_bytes (sep : byte) (l : list (list byte)) : list byte :=
  match l with
  | [] => []
  | [x] => x
  | x :: l' => x ++ sep :: join_bytes sep l'
  end.

Definition unhandled_osc (params : list (list byte)) (k : Collector) : Collector :=
  match params with
  | code :: rest =>
      if bool_decide (code = ascii "8") then
        match rest with
        | link_params :: u0 :: us =>
            let u := join_bytes x3b (u0 :: us) in
            if (MAX_HYPERLINK_PARAMS <? len link_params) || (MAX_HYPERLINK_URI <? len u)
               || negb (is_utf8 link_params && is_utf8 u)
            then drop_effect k else effect (Hyperlink link_params u) k
        | _ => k
        end
      else if bool_decide (params = [ascii "10"; ascii "?"]) then color_answer 10 (k_fg k) k
      else if bool_decide (params = [ascii "11"; ascii "?"]) then color_answer 11 (k_bg k) k
      else k
  | [] => k
  end.

(** The bytes [?], [>] and [$], the letters [c], [n] and [p]. *)
Definition unhandled_csi (s : VtScreen) (i1 i2 : option byte) (params : list (list N)) (c : byte) (k : Collector)
    : Collector :=
  let first := first_param params in
  let zero := match first with None | Some 0 => true | Some _ => false end in
  if bool_decide ((i1, i2, c) = (None, None, x63)) && zero then answer (x1b :: ascii "[?62;22c") k
  else if bool_decide ((i1, i2, c) = (Some x3e, None, x63)) && zero then answer (x1b :: ascii "[>0;0;0c") k
  else if bool_decide ((i1, i2, c) = (None, None, x6e)) && bool_decide (first = Some 5)
  then answer (x1b :: ascii "[0n") k
  else if (bool_decide ((i1, i2, c) = (None, None, x6e)) || bool_decide ((i1, i2, c) = (Some x3f, None, x6e)))
          && bool_decide (first = Some 6) then
    let row := (vs_cursor s).1 `min` (vs_rows s - 1) + 1 in
    let col := (vs_cursor s).2 `min` (vs_cols s - 1) + 1 in
    answer (x1b :: ascii "[" ++ match i1 with Some _ => ascii "?" | None => [] end ++ dec row ++ ascii ";" ++ dec col
            ++ ascii "R") k
  else if bool_decide ((i1, i2, c) = (Some x3f, Some x24, x70)) && (len params =? 1) then
    match first with
    | Some mode =>
        match private_mode_state s mode with
        | Some set =>
            answer (x1b :: ascii "[?" ++ dec mode ++ ascii ";" ++ ascii (if set then "1" else "2") ++ ascii "$y") k
        | None => k
        end
    | None => k
    end
  else k.

Definition on_scroll (line : option (list byte)) (alternate_screen : bool) (k : Collector) : Collector :=
  if alternate_screen then k
  else if k_history_full k || (k_history_max_rows k =? 0)
  then set_history (k_history k) (k_history_bytes k) (k_history_skipped k + 1) (k_history_full k) k
  else match line with Some l => push_history l k | None => k end.

Definition on_callback (k : Collector) (cb : Callback) : Collector :=
  match cb with
  | CbBell => effect Bell k
  | CbTitle title => effect (Title (clean_text title MAX_TITLE_BYTES)) k
  | CbClipboard ty data => copy_to_clipboard ty data k
  | CbOsc params => unhandled_osc params k
  | CbCsi s i1 i2 params c => unhandled_csi s i1 i2 params c k
  | CbScroll line alt => on_scroll line alt k
  end.

(** ** The host screen *)

Record StateInfo := mkInfo { i_num : N; i_output_seq : N; i_hash : list byte }.
Record Cut := mkCut { cut_info : StateInfo; cut_state : ScreenState }.

Record HostScreen (V : Type) := mkHost {
  h_parser : V;
  h_collector : Collector;
  h_cuts : list Cut;
  h_effect_log : list (N * Effect);
  h_last_title : option (list byte);
  h_next_num : N;
  h_fed_seq : N;
  h_dirty : bool;
  h_vs16 : list byte;
}.
Arguments mkHost {V}.
Arguments h_parser {V}. Arguments h_collector {V}. Arguments h_cuts {V}. Arguments h_effect_log {V}.
Arguments h_last_title {V}. Arguments h_next_num {V}. Arguments h_fed_seq {V}. Arguments h_dirty {V}.
Arguments h_vs16 {V}.

Section Host.
Context {V : Type} `{!Vt V}.
Variable blake3 : list byte -> list byte.

Abbreviation Host := (HostScreen V).

(** [HostScreen::new] *)
Definition host_new (rows cols history_rows history_bytes : N) : Host :=
  let '(r, c) := if size_is_valid rows cols then (rows, cols) else (24, 80) in
  mkHost (vt_new r c) (collector_new history_rows history_bytes) [] [] None 1 0 true [].

Definition with_vt (p : V) (k : Collector) (h : Host) : Host :=
  mkHost p k (h_cuts h) (h_effect_log h) (h_last_title h) (h_next_num h) (h_fed_seq h) (h_dirty h) (h_vs16 h).

(** One call of the parser, its callbacks handed to the collector. *)
Definition process (h : Host) (slice : list byte) : Host :=
  let '(p, cbs) := vt_process (h_parser h) slice in with_vt p (foldl on_callback (h_collector h) cbs) h.

(** [slice::chunks] *)
Fixpoint slices_upto (fuel : nat) (data : list byte) : list (list byte) :=
  match fuel, data with
  | S fuel', _ :: _ => takeN FEED_SLICE data :: slices_upto fuel' (dropN FEED_SLICE data)
  | _, _ => []
  end.

(** [HostScreen::feed] *)
Definition feed (data : list byte) (end_seq : N) (h : Host) : Host :=
  let '(held, clean) := vs16_filter (h_vs16 h) data in
  let h1 := foldl process h (slices_upto (length clean) clean) in
  mkHost (h_parser h1) (h_collector h1) (h_cuts h1) (h_effect_log h1) (h_last_title h1) (h_next_num h1)
    end_seq true held.

(** [HostScreen::take_answers] *)
Definition take_answers (h : Host) : Host * list byte :=
  (with_vt (h_parser h) (set_answers [] (h_collector h)) h, k_answers (h_collector h)).

(** [HostScreen::resize] *)
Definition resize (rows cols : N) (h : Host) : Host :=
  let s := vt_screen (h_parser h) in
  if negb (size_is_valid rows cols) then h
  else if (vs_rows s =? rows) && (vs_cols s =? cols) then h
  else
    let '(p, cbs) := vt_set_size (h_parser h) rows cols in
    mkHost p (foldl on_callback (h_collector h) cbs) (h_cuts h) (h_effect_log h) (h_last_title h)
      (h_next_num h) (h_fed_seq h) true (h_vs16 h).

(** [HostScreen::set_client_colors] *)
Definition set_client_colors (fg bg : option (byte * byte * byte)) (h : Host) : Host :=
  with_vt (h_parser h) (set_colors fg bg (h_collector h)) h.

(** [HostScreen::take_history]: the lines, and how many were skipped after
    them. *)
Definition take_history (h : Host) : Host * (list (list byte) * N) :=
  let k := h_collector h in
  (with_vt (h_parser h) (set_history [] 0 0 false k) h, (k_history k, k_history_skipped k)).

(** [HostScreen::snapshot] *)
Definition snapshot (h : Host) : ScreenState := state_of (vt_screen (h_parser h)).

Definition titles (es : list Effect) : list (list byte) :=
  omap (fun e => match e with Title t => Some t | _ => None end) es.

(** [while len > max { pop_front }] *)
Definition keep_last {A} (max : nat) (l : list A) : list A := drop (length l - max) l.

(** [while front is at most n { pop_front }] *)
Fixpoint forget_upto (n : N) (l : list (N * Effect)) : list (N * Effect) :=
  match l with
  | (m, e) :: l' => if m <=? n then forget_upto n l' else l
  | [] => []
  end.

(** The part of [HostScreen::cut] that numbers a new state. *)
Definition fresh_cut (h : Host) : Host * StateInfo :=
  let k := h_collector h in
  let es := k_effects k in
  let info := mkInfo (h_next_num h) (h_fed_seq h) (hash blake3 (snapshot h)) in
  let log := keep_last EFFECT_LOG_MAX (h_effect_log h ++ (pair (i_num info) <$> es)) in
  let cuts := keep_last RETAINED_STATES (h_cuts h ++ [mkCut info (snapshot h)]) in
  let log := match cuts with oldest :: _ => forget_upto (i_num (cut_info oldest)) log | [] => log end in
  (mkHost (h_parser h) (set_effects [] (k_effects_dropped k) k) cuts log
     (from_option Some (h_last_title h) (last (titles es))) (h_next_num h + 1) (h_fed_seq h) false (h_vs16 h),
   info).

(** The latest state again, its output offset moved forward. *)
Definition same_cut (l : Cut) (h : Host) : Host * StateInfo :=
  let info := mkInfo (i_num (cut_info l)) (h_fed_seq h) (i_hash (cut_info l)) in
  (mkHost (h_parser h) (h_collector h) (removelast (h_cuts h) ++ [mkCut info (cut_state l)]) (h_effect_log h)
     (h_last_title h) (h_next_num h) (h_fed_seq h) false (h_vs16 h), info).

(** [HostScreen::cut] *)
Definition cut (h : Host) : Host * StateInfo :=
  match last (h_cuts h) with
  | Some latest =>
      if negb (h_dirty h) then (h, cut_info latest)
      else if is_nil (k_effects (h_collector h))
              && bool_decide (i_hash (cut_info latest) = hash blake3 (snapshot h))
      then same_cut latest h
      else fresh_cut h
  | None => fresh_cut h
  end.

Definition ok_of {A E} (r : result A E) : option A := match r with Ok a => Some a | Err _ => None end.

(** [HostScreen::update_since] *)
Definition update_since (base : N) (h : Host) : Host * option ScreenUpdate :=
  let '(h1, latest) := cut h in
  if base =? i_num latest then (h1, None)
  else
    (h1,
     c ← last (h_cuts h1);
     let new := cut_state c in
     match List.find (fun c => (i_num (cut_info c) =? base) && negb (base =? 0) && (base <? i_num latest))
             (h_cuts h1) with
     | Some b =>
         d ← ok_of (ScreenDiff.between (cut_state b) new);
         Some (mkUpdate base (i_num latest) (i_output_seq latest) d
                 (omap (fun x : N * Effect => if base <? x.1 then Some x.2 else None) (h_effect_log h1))
                 (i_hash latest))
     | None =>
         bl ← ok_of (blank (rows new) (cols new));
         d ← ok_of (ScreenDiff.between bl new);
         Some (mkUpdate 0 (i_num latest) (i_output_seq latest) d
                 (Title <$> option_list (h_last_title h1)) (i_hash latest))
     end).

End Host.
End ScreenHost.
