(* ===== verification/ScreenCuts.v ===== *)
(** * What holds of the host's screen

    Facts about [ScreenHost]: the byte filter in front of the emulator, the
    validity of every state and effect, and the invariant of the numbered
    states.  [log] is the list of all states a host ever numbered, the first
    being state 1; the host itself keeps the newest eight. *)

From S2P Require Import Prelude ScreenCodec ScreenDiff Utf8 ScreenHost.

Module ScreenCuts.
Import ScreenCodec ScreenDiff Utf8 ScreenHost.

(** ** The filter *)

(** Every U+FE0F replaced by a NUL. *)
Fixpoint nulled (bs : list byte) : list byte :=
  match bs with
  | [] => []
  | b :: t =>
      match t with
      | _ :: _ :: t' => if bool_decide (list.take 3 bs = SEQ) then x00 :: nulled t' else b :: nulled t
      | _ => b :: nulled t
      end
  end.

Lemma nulled_other b t : list.take 3 (b :: t) <> SEQ -> nulled (b :: t) = b :: nulled t.
Proof. intros H. destruct t as [|b1 [|b2 t]]; [done..|]. cbn [nulled]. by rewrite bool_decide_false. Qed.

(** What the filter may hold: the beginning of a selector. *)
Definition pending (held : list byte) : Prop := held = [] \/ held = [xef] \/ held = [xef; xb8].

Lemma vs16_loop_spec data held h out :
  pending held -> vs16_loop held data = (h, out) -> pending h /\ out ++ h = nulled (held ++ data).
Proof.
  revert held h out. induction data as [|b t IH]; intros held h out Hp; cbn [vs16_loop].
  - intros [= <- <-]. split; [done|]. rewrite app_nil_r. by destruct Hp as [-> | [-> | ->]].
  - destruct (vs16_loop [] t) as [h0 o0] eqn:E0. destruct (vs16_loop [b] t) as [h1 o1] eqn:E1.
    destruct (IH _ _ _ (or_introl eq_refl) E0) as [Hp0 Ho0]. case_bool_decide as Hb.
    + destruct Hp as [-> | [-> | ->]]; injection Hb as <-; cbn [length Nat.eqb].
      * intros H. apply IH in H as [? ->]; [done|by right; left].
      * intros H. apply IH in H as [? ->]; [done|by right; right].
      * intros [= <- <-]. split; [done|]. cbn. by f_equal.
    + case_bool_decide as He; intros [= <- <-].
      * subst b. destruct (IH _ _ _ (or_intror (or_introl eq_refl)) E1) as [Hp1 Ho1]. split; [done|].
        rewrite <- app_assoc, Ho1. destruct Hp as [-> | [-> | ->]]; cbn [app]; [by destruct Hb|..].
        -- by rewrite (nulled_other xef (xef :: t)).
        -- by rewrite (nulled_other xef (xb8 :: xef :: t)), (nulled_other xb8 (xef :: t)).
      * split; [done|]. rewrite <- app_assoc. cbn [app]. rewrite Ho0.
        assert (nulled (b :: t) = b :: nulled t) as Hbt by (apply nulled_other; by intros [= -> _]).
        destruct Hp as [-> | [-> | ->]]; cbn [app]; rewrite <- Hbt; [done|..].
        -- rewrite (nulled_other xef (b :: t)); [done|]. intros [= -> _]. by destruct Hb.
        -- rewrite (nulled_other xef (xb8 :: b :: t)), (nulled_other xb8 (b :: t)); [done..|].
           intros [= ->]. by destruct Hb.
Qed.

Lemma nulled_plain bs : (xef ∉ bs) -> nulled bs = bs.
Proof.
  induction bs as [|b t IH]; [done|]. intros [Hb Ht]%not_elem_of_cons. rewrite nulled_other, IH; [done..|].
  by intros [= -> _].
Qed.

Lemma vs16_filter_spec held data h out :
  pending held -> vs16_filter held data = (h, out) -> pending h /\ out ++ h = nulled (held ++ data).
Proof.
  intros Hp. unfold vs16_filter. destruct (_ && _) eqn:E; [|by apply vs16_loop_spec]. intros [= <- <-].
  destruct held as [|? ?]; [|done]. bools.
  split; [done|]. by rewrite app_nil_r, nulled_plain.
Qed.

(** The head of the filtered bytes is the head of the bytes, or a NUL. *)
Lemma nulled_head bs b t : nulled bs = b :: t -> b <> x00 -> exists t', bs = b :: t' /\ nulled t' = t.
Proof.
  destruct bs as [|b0 t0]; [done|]. intros H Hb. destruct (decide (list.take 3 (b0 :: t0) = SEQ)) as [E|E].
  - destruct t0 as [|b1 [|b2 t2]]; [done..|]. cbn [nulled] in H. rewrite bool_decide_true in H by done.
    by injection H as <- _.
  - rewrite nulled_other in H by done. injection H as <- <-. eauto.
Qed.

Lemma nulled_no_seq bs p q : nulled bs <> p ++ SEQ ++ q.
Proof.
  remember (length bs) as n eqn:Hn. revert bs p Hn. induction (lt_wf n) as [n _ IH]. intros bs p -> H.
  destruct p as [|b p].
  - pose proof H as H1. apply nulled_head in H1 as (t1 & -> & H1); [|done].
    apply nulled_head in H1 as (t2 & -> & H1); [|done]. apply nulled_head in H1 as (t3 & -> & _); done.
  - destruct bs as [|b0 t0]; [done|]. destruct (decide (list.take 3 (b0 :: t0) = SEQ)) as [E|E].
    + destruct t0 as [|b1 [|b2 t2]]; [done..|]. cbn [nulled] in H. rewrite bool_decide_true in H by done.
      injection H as _ H. eapply (IH (length t2)), H; [simpl; lia|done].
    + rewrite nulled_other in H by done. injection H as _ H. eapply (IH (length t0)), H; [simpl; lia|done].
Qed.

(** ** States *)

Lemma has_control_encode cs :
  Forall (fun c => is_scalar c = true /\ is_control c = false) cs ->
  is_utf8 (mjoin (encode_utf8 <$> cs)) = true /\ has_control (mjoin (encode_utf8 <$> cs)) = false.
Proof.
  intros H. assert (chars (mjoin (encode_utf8 <$> cs)) = Some cs) as E.
  { apply chars_encode_all. eapply Forall_impl; [exact H|]. by intros c []. }
  unfold is_utf8, has_control. rewrite E. split; [done|].
  apply not_true_iff_false. rewrite existsb_exists. intros (c & Hin & Hc). rewrite Forall_forall in H.
  destruct (H c); [by apply list_elem_of_In|congruence].
Qed.

Abbreviation printable := (Forall (fun c => is_scalar c = true /\ is_control c = false)).

Lemma cell_text_spec used cs :
  Forall (fun c => is_scalar c = true) cs -> used <= MAX_CELL_TEXT ->
  exists l, cell_text used cs = mjoin (encode_utf8 <$> l) /\ printable l /\ used + len (cell_text used cs) <= MAX_CELL_TEXT.
Proof.
  intros H. revert used. induction H as [|c cs Hc _ IH]; intros used Hu; cbn [cell_text].
  { exists []. rewrite len_nil. split_and!; [done..|lia]. }
  destruct (is_control c || _) eqn:E; [exists []; rewrite len_nil; split_and!; [done..|lia]|].
  apply orb_false_iff in E as [Hk E]. apply N.ltb_ge in E.
  destruct (IH (used + len_utf8 c) E) as (l & Hl & Hp & Hn). exists (c :: l).
  cbn [fmap list_fmap]. rewrite mjoin_cons, len_app, len_encode, Hl in *. split_and!; [done|by constructor|lia].
Qed.

Lemma clean_loop_spec used max cs :
  Forall (fun c => is_scalar c = true) cs -> used <= max ->
  exists l, clean_loop used max cs = mjoin (encode_utf8 <$> l) /\ printable l /\ used + len (clean_loop used max cs) <= max.
Proof.
  intros H. revert used. induction H as [|c cs Hc _ IH]; intros used Hu; cbn [clean_loop].
  { exists []. rewrite len_nil. split_and!; [done..|lia]. }
  destruct (is_control c) eqn:Hk; [by apply IH|].
  destruct (_ <? _) eqn:E; [exists []; rewrite len_nil; split_and!; [done..|lia]|]. apply N.ltb_ge in E.
  destruct (IH (used + len_utf8 c) E) as (l & Hl & Hp & Hn). exists (c :: l).
  cbn [fmap list_fmap]. rewrite mjoin_cons, len_app, len_encode, Hl in *. split_and!; [done|by constructor|lia].
Qed.

Lemma elem_of_upto n x : x ∈ upto n <-> x < n.
Proof.
  unfold upto. rewrite list_elem_of_fmap. setoid_rewrite elem_of_seq. split.
  - intros (k & -> & ?). lia.
  - intros H. exists (N.to_nat x). split; lia.
Qed.

Lemma len_upto n : len (upto n) = n.
Proof. unfold upto, len. rewrite length_fmap, length_seq. lia. Qed.

(** The five style bits do not touch the others. *)
Lemma style_bits style : style < 32 ->
  (has (n2b (style + WIDE_CONT)) 128 = false /\ has (n2b (style + WIDE_CONT)) WIDE = false) /\
  (forall w : bool, has (n2b (style + if w then WIDE else 0)) 128 = false /\
     has (n2b (style + if w then WIDE else 0)) WIDE_CONT = false).
Proof.
  intros H%elem_of_upto.
  assert (forallb (fun s => negb (has (n2b (s + WIDE_CONT)) 128) && negb (has (n2b (s + WIDE_CONT)) WIDE)
    && negb (has (n2b (s + WIDE)) 128) && negb (has (n2b (s + WIDE)) WIDE_CONT)
    && negb (has (n2b (s + 0)) 128) && negb (has (n2b (s + 0)) WIDE_CONT)) (upto 32) = true) as E
    by (vm_compute; reflexivity).
  apply forallb_Forall in E. rewrite Forall_forall in E. specialize (E style H). bools.
  split; [done|]. by intros [].
Qed.

Lemma or_flags_bound l : or_flags l <= foldr (fun x n => x.2 + n) 0 l.
Proof. induction l as [|[[] n] l IH]; cbn [or_flags foldr]; simpl in *; lia. Qed.

Lemma convert_cell_ok cell : cell_ok (convert_cell cell).
Proof.
  unfold convert_cell, cell_ok, cell_is_valid. set (style := or_flags _).
  assert (style < 32) as Hst by (pose proof (or_flags_bound _ : style <= _) as Hb; simpl in Hb; lia).
  destruct (style_bits style Hst) as [[H1 H2] H3]. destruct (vc_wide_continuation cell); cbn [flags text].
  - rewrite H1, H2. cbn [is_nil negb andb]. rewrite andb_false_r. done.
  - destruct (H3 (vc_wide cell)) as [H4 H5]. rewrite H4, H5, andb_false_r.
    destruct (cell_text_spec 0 (default [] (chars (vc_contents cell)))) as (l & Hl & Hp & Hn); [|done|].
    { destruct (chars _) eqn:E; [by eapply chars_scalar|constructor]. }
    apply has_control_encode in Hp as [Hu Hk]. rewrite <- Hl in Hu, Hk. rewrite Hk. split; [|done].
    rewrite (proj2 (N.leb_le _ _)); [done|lia].
Qed.

Lemma blank_cell_ok : cell_ok blank_cell.
Proof. by vm_compute. Qed.

(** Whatever the emulator shows is a valid state. *)
Lemma state_of_ok s : size_is_valid (vs_rows s) (vs_cols s) = true -> state_ok (state_of s).
Proof.
  intros Hs. destruct (size_valid_bounds _ _ Hs) as [Hr Hc]. unfold state_of.
  assert (forall r, Forall cell_ok ((fun c => from_option convert_cell blank_cell (vs_cell s r c)) <$> upto (vs_cols s))) as Hcells.
  { intros r. apply Forall_fmap, Forall_forall. intros c _. simpl.
    destruct (vs_cell s r c); [apply convert_cell_ok|apply blank_cell_ok]. }
  split; cbn [grid].
  - unfold is_valid. cbn [rows cols cursor_row cursor_col modes grid]. rewrite Hs.
    rewrite !(proj2 (N.ltb_lt _ _)) by lia. cbn [andb].
    assert (modes_valid (mkModes (n2b (or_flags [(vs_alternate s, 1); (vs_hide_cursor s, 2);
      (vs_app_cursor s, 4); (vs_app_keypad s, 8); (vs_paste s, 16)])) (mouse_code (vs_mouse s))
      (encoding_code (vs_encoding s))) = true) as ->.
    { unfold modes_valid. cbn [m_flags mouse_mode mouse_encoding or_flags].
      destruct (vs_alternate s), (vs_hide_cursor s), (vs_app_cursor s), (vs_app_keypad s), (vs_paste s),
        (vs_mouse s), (vs_encoding s); vm_compute; reflexivity. }
    assert (len ((fun r => mkRow ((fun c => from_option convert_cell blank_cell (vs_cell s r c)) <$> upto (vs_cols s))
      (vs_row_wrapped s r)) <$> upto (vs_rows s)) = vs_rows s) as ->
      by (unfold len; rewrite length_fmap; apply len_upto).
    rewrite N.eqb_refl. apply forallb_Forall, Forall_fmap, Forall_forall. intros r _. unfold row_valid. simpl.
    rewrite cell_ok_valid by apply Hcells. unfold len. rewrite length_fmap.
    change (N.of_nat (length (upto (vs_cols s)))) with (len (upto (vs_cols s))). by rewrite len_upto, N.eqb_refl.
  - apply Forall_fmap, Forall_forall. intros r _. simpl. eapply Forall_impl; [apply Hcells|]. by intros c [].
Qed.

(** ** Effects *)

Definition effects_ok (k : Collector) : Prop := Forall effect_ok (k_effects k) /\ len (k_effects k) <= MAX_EFFECTS.

Lemma effect_keeps e k :
  Forall (fun t => is_utf8 t = true) (effect_texts e) -> effects_ok k -> effects_ok (effect e k).
Proof.
  intros Hu [Hf Hl]. unfold effect, drop_effect. destruct (effect_valid e) eqn:Hv; [|done]. cbn [negb].
  destruct (_ && _); [done|]. destruct (N.leb_spec MAX_EFFECTS (len (k_effects k))); [done|].
  split; cbn [set_effects k_effects]; [|len_lia]. apply Forall_app. split; [done|]. by repeat constructor.
Qed.

Lemma answer_keeps a k : k_effects (answer a k) = k_effects k.
Proof. unfold answer. by destruct (_ <=? _). Qed.

Lemma on_callback_keeps k cb : effects_ok k -> effects_ok (on_callback k cb).
Proof.
  intros H. destruct cb as [|t|ty data|ps|sc i1 i2 ps c|line alt]; cbn [on_callback].
  - by apply effect_keeps.
  - apply effect_keeps; [|done]. cbn [effect_texts]. repeat constructor. unfold clean_text.
    destruct (lossy_spec t) as [Hs _].
    destruct (clean_loop_spec 0 MAX_TITLE_BYTES (lossy t) Hs) as (l & -> & Hp & _); [done|].
    by apply has_control_encode in Hp as [].
  - unfold copy_to_clipboard. destruct (negb _ || _) eqn:E; [done|]. bools. apply effect_keeps; [|done].
    by repeat constructor.
  - unfold unhandled_osc, color_answer. destruct ps as [|code rest]; [done|].
    repeat case_bool_decide; try destruct (k_fg k) as [[[? ?] ?]|]; try destruct (k_bg k) as [[[? ?] ?]|];
      try (unfold effects_ok; by rewrite ?answer_keeps).
    all: destruct rest as [|lp [|u0 us]]; try done.
    all: destruct (_ || _) eqn:E; [done|]; bools; apply effect_keeps; [|done]; by repeat constructor.
  - unfold unhandled_csi, effects_ok.
    repeat (destruct (bool_decide _ && _); [by rewrite ?answer_keeps|]).
    destruct (_ && _); [by rewrite ?answer_keeps|]. destruct (_ && _); [|done].
    destruct (first_param ps) as [m|]; [|done]. destruct (private_mode_state sc m); by rewrite ?answer_keeps.
  - unfold on_scroll, push_history. destruct alt; [done|]. destruct (_ || _); [done|].
    destruct line as [l|]; [|done]. by destruct (_ <? _).
Qed.

(** ** The numbered states *)

(** State [n] of a log. *)
Definition nth_state (log : list ScreenState) (n : N) : option ScreenState :=
  if n =? 0 then None else log !! N.to_nat (n - 1).

Lemma nth_state_grow log more n s : nth_state log n = Some s -> nth_state (log ++ more) n = Some s.
Proof. unfold nth_state. destruct (n =? 0); [done|]. intros H. by apply lookup_app_l_Some. Qed.

Lemma nth_state_bound log n s : nth_state log n = Some s -> 1 <= n <= len log.
Proof.
  unfold nth_state. destruct (N.eqb_spec n 0); [done|]. intros H%lookup_lt_Some. unfold len. lia.
Qed.

Lemma nth_state_last log s : nth_state (log ++ [s]) (len log + 1) = Some s.
Proof.
  unfold nth_state. rewrite (proj2 (N.eqb_neq _ _)) by lia.
  replace (N.to_nat (len log + 1 - 1)) with (length log) by (unfold len; lia). by rewrite lookup_app_r, Nat.sub_diag.
Qed.

Section Host.
Context {V : Type} `{!Vt V} `{!VtLaws V}.
Variable blake3 : list byte -> list byte.

Abbreviation Host := (HostScreen V).
Abbreviation hash := (ScreenDiff.hash blake3).

(** The retained states are the newest of the log, under their numbers. *)
Definition cuts_ok (cuts : list Cut) (log : list ScreenState) : Prop :=
  (length cuts <= length log)%nat /\ (log <> [] -> cuts <> []) /\
  forall i c, cuts !! i = Some c ->
    i_num (cut_info c) = N.of_nat (length log - length cuts + i) + 1 /\
    log !! (length log - length cuts + i)%nat = Some (cut_state c) /\ i_hash (cut_info c) = hash (cut_state c).

Record HostInv (h : Host) (log : list ScreenState) : Prop := {
  hv_size : size_is_valid (vs_rows (vt_screen (h_parser h))) (vs_cols (vt_screen (h_parser h))) = true;
  hv_num : h_next_num h = len log + 1;
  hv_log : Forall state_ok log;
  hv_cuts : cuts_ok (h_cuts h) log;
  hv_effects : effects_ok (h_collector h);
  hv_effect_log : Forall (fun x => effect_ok x.2) (h_effect_log h);
  hv_title : forall t, h_last_title h = Some t -> effect_ok (Title t);
  hv_seq : is_u64 (h_fed_seq h) /\ Forall (fun c => is_u64 (i_output_seq (cut_info c))) (h_cuts h);
  hv_clean : h_dirty h = false ->
    exists c, last (h_cuts h) = Some c /\ i_hash (cut_info c) = hash (snapshot h);
}.

Lemma cuts_ok_last cuts log c :
  cuts_ok cuts log -> last cuts = Some c ->
  i_num (cut_info c) = len log /\ nth_state log (i_num (cut_info c)) = Some (cut_state c) /\
  i_hash (cut_info c) = hash (cut_state c).
Proof.
  intros (Hl & _ & H) Hc. rewrite last_lookup in Hc. destruct (H _ _ Hc) as (Hn & Hs & Hh).
  pose proof (lookup_lt_Some _ _ _ Hc).
  replace (length log - length cuts + Nat.pred (length cuts))%nat with (length log - 1)%nat in * by lia.
  split_and!; [unfold len; lia| |done]. unfold nth_state. rewrite (proj2 (N.eqb_neq _ _)) by lia.
  rewrite Hn. by replace (N.to_nat (N.of_nat (length log - 1) + 1 - 1)) with (length log - 1)%nat by lia.
Qed.

Lemma cuts_ok_find cuts log c n :
  cuts_ok cuts log -> c ∈ cuts -> i_num (cut_info c) = n -> nth_state log n = Some (cut_state c).
Proof.
  intros (_ & _ & H) [i Hi]%list_elem_of_lookup <-. destruct (H i c Hi) as (Hn & Hs & _).
  unfold nth_state. rewrite (proj2 (N.eqb_neq _ _)), Hn by lia.
  by replace (N.to_nat (N.of_nat (length log - length cuts + i) + 1 - 1)) with (length log - length cuts + i)%nat by lia.
Qed.

Lemma cuts_ok_add cuts log info s :
  cuts_ok cuts log -> i_num info = len log + 1 -> i_hash info = hash s ->
  cuts_ok (keep_last RETAINED_STATES (cuts ++ [mkCut info s])) (log ++ [s]).
Proof.
  intros (Hl & _ & H) Hn Hh. unfold keep_last. set (d := (length (cuts ++ [mkCut info s]) - RETAINED_STATES)%nat).
  assert (length (drop d (cuts ++ [mkCut info s])) = length cuts + 1 - d)%nat as Hlen
    by (rewrite length_drop, length_app; simpl; lia).
  assert (d <= length cuts)%nat by (unfold d, RETAINED_STATES; rewrite length_app; simpl; lia).
  split_and!; rewrite ?Hlen, ?length_app; cbn [length]; [lia| |].
  - intros _ E. rewrite E in Hlen. simpl in Hlen. lia.
  - intros i c. rewrite lookup_drop. intros Hi.
    replace (length log + 1 - (length cuts + 1 - d) + i)%nat with (length log - length cuts + (d + i))%nat by lia.
    apply lookup_app_Some in Hi as [Hi|[Hge Hi]].
    + destruct (H _ _ Hi) as (? & Hs & ?). split_and!; [done|by apply lookup_app_l_Some|done].
    + apply list_lookup_singleton_Some in Hi as [Hi <-]. cbn [cut_info cut_state].
      replace (length log - length cuts + (d + i))%nat with (length log) by lia.
      split_and!; [unfold len in Hn; lia|by rewrite lookup_app_r, Nat.sub_diag|done].
Qed.

Lemma cuts_ok_again l c info log :
  cuts_ok (l ++ [c]) log -> i_num info = i_num (cut_info c) -> i_hash info = i_hash (cut_info c) ->
  cuts_ok (l ++ [mkCut info (cut_state c)]) log.
Proof.
  intros (Hl & Hne & H) Hn Hh. rewrite length_app in *. cbn [length] in *.
  split_and!; [by rewrite length_app| |rewrite length_app; cbn [length]].
  - intros _. by destruct l.
  - intros i x [Hi|[Hge [Hi <-]%list_lookup_singleton_Some]]%lookup_app_Some.
    + apply H. by apply lookup_app_l_Some.
    + cbn [cut_info cut_state]. rewrite Hn, Hh. apply H. by rewrite lookup_app_r, Hi by lia.
Qed.

Lemma forget_upto_Forall (P : N * Effect -> Prop) n l : Forall P l -> Forall P (forget_upto n l).
Proof. induction 1 as [|[m e] l Hx Hl IH]; cbn [forget_upto]; [done|]. destruct (m <=? n); [done|by constructor]. Qed.

Lemma keep_last_Forall {A} (P : A -> Prop) n l : Forall P l -> Forall P (keep_last n l).
Proof. apply Forall_drop. Qed.

Lemma keep_last_snoc {A} (l : list A) x : last (keep_last RETAINED_STATES (l ++ [x])) = Some x.
Proof.
  unfold keep_last, RETAINED_STATES. rewrite drop_app_le; [by rewrite last_snoc|]. rewrite length_app. simpl. lia.
Qed.

Lemma snapshot_ok h log : HostInv h log -> state_ok (snapshot h).
Proof. intros HI. by apply state_of_ok, HI. Qed.

Lemma fresh_cut_inv h log :
  HostInv h log -> HostInv (fresh_cut blake3 h).1 (log ++ [snapshot h]).
Proof.
  intros HI. pose proof (snapshot_ok h log HI) as Hok. destruct HI as [Hs Hn Hlog Hc [He Hl] Hel Ht [Hq Hqs] Hd].
  assert (Forall (fun x => effect_ok x.2) (keep_last EFFECT_LOG_MAX
    (h_effect_log h ++ (pair (h_next_num h) <$> k_effects (h_collector h))))) as Hel'.
  { apply keep_last_Forall, Forall_app. split; [done|]. by apply Forall_fmap. }
  split; cbn [fresh_cut fst h_parser h_collector h_cuts h_effect_log h_last_title h_next_num h_fed_seq h_dirty]; try done.
  - rewrite Hn. len_lia.
  - apply Forall_app. split; [done|by constructor].
  - by apply cuts_ok_add.
  - cbn [i_num]. destruct (keep_last RETAINED_STATES _) as [|oldest ?]; [done|]. by apply forget_upto_Forall.
  - intros t. destruct (last (titles _)) as [t'|] eqn:E; cbn [from_option]; [|apply Ht]. intros [= <-].
    apply last_Some_elem_of, list_elem_of_omap in E as (e & Hin & Ee). destruct e; try done. injection Ee as ->.
    rewrite Forall_forall in He. by apply He.
  - split; [done|]. apply keep_last_Forall, Forall_app. split; [done|by constructor].
  - intros _. exists (mkCut (mkInfo (h_next_num h) (h_fed_seq h) (hash (snapshot h))) (snapshot h)).
    split; [|done]. by rewrite keep_last_snoc.
Qed.

(** What cutting gives: the current screen is, up to its hash, the newest
    state. *)
Definition cut_ok (h : Host) (log : list ScreenState) (h' : Host) (info : StateInfo) (log' : list ScreenState)
    (new : ScreenState) : Prop :=
  (log' = log \/ log' = log ++ [snapshot h]) /\ HostInv h' log' /\
  i_num info = len log' /\ nth_state log' (len log') = Some new /\
  last (h_cuts h') = Some (mkCut info new) /\ i_hash info = hash new /\
  hash new = hash (snapshot h) /\ snapshot h' = snapshot h.

Lemma fresh_cut_spec h log h' info :
  HostInv h log -> fresh_cut blake3 h = (h', info) -> cut_ok h log h' info (log ++ [snapshot h]) (snapshot h).
Proof.
  intros HI E. pose proof (fresh_cut_inv h log HI) as HI'. rewrite E in HI'. pose proof (hv_num _ _ HI) as Hn.
  assert (len (log ++ [snapshot h]) = len log + 1) as Hl by len_lia. unfold cut_ok.
  split; [by right|]. split; [exact HI'|]. injection E as <- <-. rewrite Hl. cbn [i_num i_hash h_cuts].
  split; [done|]. split; [apply nth_state_last|]. split; [apply keep_last_snoc|]. done.
Qed.

Lemma cut_spec h log h' info :
  HostInv h log -> cut blake3 h = (h', info) -> exists log' new, cut_ok h log h' info log' new.
Proof.
  intros HI. unfold cut. pose proof (fresh_cut_spec h log) as Hfresh.
  destruct (last (h_cuts h)) as [l|] eqn:El; [|eauto].
  destruct (cuts_ok_last _ _ _ (hv_cuts _ _ HI) El) as (Hnum & Hnth & Hh). rewrite Hnum in Hnth.
  destruct (h_dirty h) eqn:Ed; cbn [negb].
  - destruct (is_nil _ && _) eqn:Eb; [|eauto]. bools. intros [= <- <-].
    apply last_Some in El as [l' El]. exists log, (cut_state l). unfold cut_ok. rewrite El, removelast_last.
    split_and!; try done; [by left| |cbn [h_cuts]; by rewrite last_snoc|congruence].
    destruct HI as [Hs Hn Hlog Hc He Hel Ht [Hq Hqs] Hd].
    split; cbn [h_parser h_collector h_cuts h_effect_log h_last_title h_next_num h_fed_seq h_dirty]; try done.
    + rewrite El in Hc. by apply cuts_ok_again.
    + rewrite El in Hqs. apply Forall_app in Hqs as [Hqs _]. split; [done|]. apply Forall_app.
      split; [done|by constructor].
    + intros _. eexists. rewrite last_snoc. split; [done|]. done.
  - intros [= <- <-]. exists log, (cut_state l). unfold cut_ok. rewrite El.
    split_and!; try done; [by left|by destruct l|].
    destruct (hv_clean _ _ HI Ed) as (c & Hc & <-). congruence.
Qed.

(** ** Updates *)

(** An update the host made from state [b] to the numbered state [new]. *)
Definition genuine (log : list ScreenState) (u : ScreenUpdate) (b new : ScreenState) : Prop :=
  nth_state log (new_num u) = Some new /\
  (base_num u = 0 /\ blank (rows new) (cols new) = Ok b \/ nth_state log (base_num u) = Some b) /\
  base_num u < new_num u /\ diff_ok (diff u) /\ apply (diff u) b = Ok new /\
  state_hash u = hash new /\ Forall effect_ok (effects u) /\ is_u64 (output_seq u).

Lemma genuine_grow log more u b new : genuine log u b new -> genuine (log ++ more) u b new.
Proof.
  intros (Hn & Hb & H). split; [by apply nth_state_grow|]. split; [|done].
  destruct Hb as [Hb|Hb]; [by left|right; by apply nth_state_grow].
Qed.

Lemma nth_state_ok log n s : Forall state_ok log -> nth_state log n = Some s -> state_ok s.
Proof.
  unfold nth_state. destruct (n =? 0); [done|]. rewrite Forall_lookup. eauto.
Qed.

Lemma blank_is_valid r c b : blank r c = Ok b -> is_valid b = true.
Proof.
  unfold blank. destruct (size_is_valid r c) eqn:Hs; [|done]. intros [= <-]. pose proof (size_valid_bounds _ _ Hs).
  unfold is_valid. cbn [rows cols cursor_row cursor_col modes grid]. rewrite Hs, !(proj2 (N.ltb_lt _ _)) by lia.
  cbn [andb]. unfold len. rewrite length_replicate, N2Nat.id, N.eqb_refl. cbn [andb].
  apply forallb_Forall, Forall_replicate. unfold row_valid. cbn [blank_row cells].
  unfold len. rewrite length_replicate, N2Nat.id, N.eqb_refl. by apply forallb_Forall, Forall_replicate.
Qed.

Lemma blank_valid s : is_valid s = true -> exists b, blank (rows s) (cols s) = Ok b /\ is_valid b = true.
Proof.
  intros (Hs & _)%valid_rows. destruct (blank (rows s) (cols s)) as [b|] eqn:E.
  - exists b. split; [done|by eapply blank_is_valid].
  - unfold blank in E. by rewrite Hs in E.
Qed.

Lemma update_since_spec h log base h' o :
  HostInv h log -> update_since blake3 base h = (h', o) ->
  exists log' new, (log' = log \/ log' = log ++ [snapshot h]) /\ HostInv h' log' /\
    nth_state log' (len log') = Some new /\ hash new = hash (snapshot h) /\ snapshot h' = snapshot h /\
    match o with
    | None => base = len log'
    | Some u => base <> len log' /\ new_num u = len log' /\ (base_num u = base \/ base_num u = 0) /\
                exists b, genuine log' u b new
    end.
Proof.
  intros HI. unfold update_since. destruct (cut blake3 h) as [h1 info] eqn:Ec.
  destruct (cut_spec h log h1 info HI Ec) as (log' & new & Hlog & HI' & Hn & Hnth & Hlast & Hh & Hs & Hsn).
  pose proof (nth_state_ok _ _ _ (hv_log _ _ HI') Hnth) as Hok.
  assert (is_u64 (i_output_seq info)) as Hseq.
  { destruct (hv_seq _ _ HI') as [_ Hqs]. rewrite Forall_forall in Hqs.
    by apply (Hqs (mkCut info new)), last_Some_elem_of. }
  intros E. exists log', new. split; [done|]. rewrite Hn in E.
  destruct (N.eqb_spec base (len log')) as [->|Hne]; injection E as <- <-; [by split_and!|].
  split; [done|]. split; [done|]. split; [done|]. split; [done|].
  rewrite Hlast. cbn [mbind option_bind cut_state]. destruct (List.find _ _) as [c|] eqn:Ef.
  - apply List.find_some in Ef as [Hin Ef]. apply list_elem_of_In in Hin. bools.
    pose proof (cuts_ok_find _ _ _ base (hv_cuts _ _ HI') Hin ltac:(done)) as Hb.
    destruct (between_spec (cut_state c) new) as (d & -> & Hd & Ha); [apply (nth_state_ok _ _ _ (hv_log _ _ HI') Hb)|done|].
    cbn [ok_of mbind option_bind new_num base_num]. split_and!; [done|done|by left|]. exists (cut_state c).
    unfold genuine. cbn [new_num base_num diff state_hash effects].
    split_and!; [done|by right|lia|done|done|done| |done].
    apply Forall_forall. intros e (x & Hx & Ex)%list_elem_of_omap. destruct (_ <? _); [|done]. injection Ex as <-.
    pose proof (hv_effect_log _ _ HI') as Hel. rewrite Forall_forall in Hel. by apply Hel.
  - destruct (blank_valid new) as (b & Hb & Hbv); [apply Hok|]. rewrite Hb. cbn [ok_of mbind option_bind].
    destruct (between_spec b new) as (d & -> & Hd & Ha); [done..|].
    cbn [ok_of mbind option_bind new_num base_num]. split_and!; [done|done|by right|]. exists b.
    unfold genuine. cbn [new_num base_num diff state_hash effects]. apply nth_state_bound in Hnth as Hbd.
    split_and!; [done|by left|lia|done|done|done| |done].
    apply Forall_fmap, Forall_forall. intros t Ht. simpl. apply (hv_title _ _ HI').
    destruct (h_last_title h1); cbn in Ht; set_solver.
Qed.

(** A second cut changes nothing. *)
Lemma cut_clean (h : Host) : h_dirty (cut blake3 h).1 = false.
Proof.
  unfold cut. destruct (last (h_cuts h)); [|done]. destruct (h_dirty h) eqn:E; [|done]. cbn [negb].
  by destruct (_ && _).
Qed.

Lemma cut_again h log : HostInv h log -> h_dirty h = false -> (cut blake3 h).1 = h.
Proof. intros HI Hd. destruct (hv_clean _ _ HI Hd) as (c & Hc & _). unfold cut. by rewrite Hc, Hd. Qed.

Lemma update_since_host base (h : Host) : (update_since blake3 base h).1 = (cut blake3 h).1.
Proof. unfold update_since. destruct (cut blake3 h) as [h1 i]. by destruct (_ =? _). Qed.

(** ** Every operation keeps the invariant *)

Lemma callbacks_keep cbs k : effects_ok k -> effects_ok (foldl on_callback k cbs).
Proof. revert k. induction cbs as [|cb cbs IH]; intros k Hk; [done|]. by apply IH, on_callback_keeps. Qed.

Lemma process_keeps ss (h : Host) :
  let h' := foldl process h ss in
  vs_rows (vt_screen (h_parser h')) = vs_rows (vt_screen (h_parser h)) /\
  vs_cols (vt_screen (h_parser h')) = vs_cols (vt_screen (h_parser h)) /\
  (effects_ok (h_collector h) -> effects_ok (h_collector h')) /\
  h_cuts h' = h_cuts h /\ h_effect_log h' = h_effect_log h /\ h_last_title h' = h_last_title h /\
  h_next_num h' = h_next_num h.
Proof.
  revert h. induction ss as [|s ss IH]; intros h; [done|]. cbn [foldl].
  destruct (IH (process h s)) as (-> & -> & He & -> & -> & -> & ->). unfold process in *.
  pose proof (vt_process_size (h_parser h) s) as [Hr Hc]. destruct (vt_process (h_parser h) s) as [p cbs].
  cbn [with_vt h_parser h_collector h_cuts h_effect_log h_last_title h_next_num fst] in *.
  split_and!; try done. intros H. by apply He, callbacks_keep.
Qed.

Lemma feed_keeps data e h log : is_u64 e -> HostInv h log -> HostInv (feed data e h) log.
Proof.
  intros Hq HI. unfold feed. destruct (vs16_filter _ _) as [held clean].
  destruct (process_keeps (slices_upto (length clean) clean) h) as (Hr & Hc & He & E1 & E2 & E3 & E4).
  split; cbn [h_parser h_collector h_cuts h_effect_log h_last_title h_next_num h_fed_seq h_dirty]; rewrite ?E1, ?E2, ?E3, ?E4;
    try done; try apply HI.
  - rewrite Hr, Hc. apply HI.
  - apply He, HI.
  - split; [done|apply HI].
Qed.

Lemma resize_keeps r c h log : HostInv h log -> HostInv (resize r c h) log.
Proof.
  intros HI. unfold resize. destruct (size_is_valid r c) eqn:Hs; [|done]. cbn [negb]. destruct (_ && _); [done|].
  pose proof (vt_set_size_size (h_parser h) r c) as [Hr Hc].
  destruct (vt_set_size (h_parser h) r c) as [p cbs]. cbn [fst] in *.
  split; cbn [h_parser h_collector h_cuts h_effect_log h_last_title h_next_num h_fed_seq h_dirty]; try done; try apply HI.
  - by rewrite Hr, Hc.
  - apply callbacks_keep, HI.
Qed.

(** The operations that touch only the collector. *)
Lemma with_vt_keeps k h log :
  effects_ok k -> HostInv h log -> HostInv (with_vt (h_parser h) k h) log.
Proof. intros Hk [Hs Hn Hlog Hc He Hel Ht Hq Hd]. by split. Qed.

Lemma host_new_inv r c hr hb : HostInv (host_new r c hr hb) [].
Proof.
  unfold host_new. destruct (size_is_valid r c) eqn:E; cbn [fst snd].
  all: split; cbn [h_parser h_collector h_cuts h_effect_log h_last_title h_next_num h_fed_seq h_dirty]; try done.
  all: try (destruct (vt_new_size (V := V) r c) as [-> ->]; done).
  all: try (destruct (vt_new_size (V := V) 24 80) as [-> ->]; done).
  all: by split_and!.
Qed.

End Host.
End ScreenCuts.
