(* ===== verification/ScreenSync.v ===== *)
(** * Screen sync, from the host's emulator to the client's screen

    Models the screen path of an attach end to end:
    - the sender of [crates/qsh-core/src/session_stream.rs] ([ScreenSync],
      [ScreenSender], [screen_pump]): which base each update is made from, on
      which carrier it goes, and when it is sent again;
    - the client of [crates/qsh-core/src/client/screen.rs] ([ClientScreen]);
    - how acknowledgements travel ([pump_attach_input] of
      [ops/session/pump.rs], [AttachWriter::send_screen_ack] of
      [client/mod.rs]).

    [System] puts them around the emulator of [ScreenHost].  The stream is
    ordered and reliable in both directions; a datagram may be lost, delayed
    and delivered more than once.  What the policy ([adapt]) says, whether
    datagrams can be used and whether the send queue has room are arguments of
    the sender's step.  Echo and history frames are left out. *)

From S2P Require Import Prelude ScreenCodec ScreenDiff ScreenParts Utf8 ScreenHost.

Module ScreenSync.
Import ScreenDiff ScreenParts ScreenHost.

(** ** The client's screen *)

Definition RETAINED_STATES : nat := 8.

Inductive ResyncReason := RHashMismatch | RBaseMismatch | RBadDiff.

Inductive ScreenOutcome :=
  | OPartial
  | OApplied (new_num output_seq : N) (effects : list Effect)
  | OResync (reason : ResyncReason)
  | OIgnored
  | OStale (held : N).

(** [ScreenOutcome::ack] *)
Definition outcome_ack (o : ScreenOutcome) : option N :=
  match o with
  | OApplied new_num _ _ => Some new_num
  | OResync _ => Some 0
  | OStale held => if held =? 0 then None else Some held
  | OPartial | OIgnored => None
  end.

Inductive Via := OnStream | OnDatagram.

Record ClientScreen := mkClient {
  s_history : list (N * ScreenState);
  s_output_seq : N;
  s_parts : Reassembler;
  s_datagram_parts : DatagramReassembler;
  s_awaiting_full : bool;
  s_applied : N;
  s_resyncs : N;
  s_datagram_dropped : N;
}.

(** [ClientScreen::new], [state] and [num] *)
Definition client_new : ClientScreen := mkClient [] 0 re_empty dr_new false 0 0 0.
Definition client_state (c : ClientScreen) : option ScreenState := snd <$> last (s_history c).
Definition client_num (c : ClientScreen) : N := from_option fst 0 (last (s_history c)).

Definition set_parts (r : Reassembler) (c : ClientScreen) : ClientScreen :=
  mkClient (s_history c) (s_output_seq c) r (s_datagram_parts c) (s_awaiting_full c) (s_applied c)
    (s_resyncs c) (s_datagram_dropped c).
Definition set_datagram_parts (r : DatagramReassembler) (c : ClientScreen) : ClientScreen :=
  mkClient (s_history c) (s_output_seq c) (s_parts c) r (s_awaiting_full c) (s_applied c)
    (s_resyncs c) (s_datagram_dropped c).
Definition drop_datagram (c : ClientScreen) : ClientScreen :=
  mkClient (s_history c) (s_output_seq c) (s_parts c) (s_datagram_parts c) (s_awaiting_full c) (s_applied c)
    (s_resyncs c) (s_datagram_dropped c + 1).

(** [ClientScreen::resync] *)
Definition resync (reason : ResyncReason) (c : ClientScreen) : ClientScreen * ScreenOutcome :=
  (mkClient [] (s_output_seq c) (s_parts c) (s_datagram_parts c) true (s_applied c) (s_resyncs c + 1)
     (s_datagram_dropped c), OResync reason).

Section Hashed.
Variable blake3 : list byte -> list byte.

(** [ClientScreen::apply_via] from its base on. *)
Definition apply_from (u : ScreenUpdate) (base : ScreenState) (c : ClientScreen) : ClientScreen * ScreenOutcome :=
  match apply_update blake3 u base with
  | Ok state =>
      (mkClient (keep_last RETAINED_STATES (s_history c ++ [(new_num u, state)])) (output_seq u) (s_parts c)
         (s_datagram_parts c) false (s_applied c + 1) (s_resyncs c) (s_datagram_dropped c),
       OApplied (new_num u) (output_seq u) (effects u))
  | Err HashMismatch => resync RHashMismatch c
  | Err _ => resync RBadDiff c
  end.

Definition apply_via (u : ScreenUpdate) (via : Via) (c : ClientScreen) : ClientScreen * ScreenOutcome :=
  let held := client_num c in
  if s_awaiting_full c && negb (base_num u =? 0) then (c, OIgnored)
  else if negb (held =? 0) && ((new_num u <? held) || (negb (base_num u =? 0) && (new_num u =? held)))
  then (c, OStale held)
  else if base_num u =? 0 then
    match blank (d_rows (diff u)) (d_cols (diff u)) with
    | Ok base => apply_from u base c
    | Err _ => resync RBadDiff c
    end
  else
    match List.find (fun x : N * ScreenState => x.1 =? base_num u) (s_history c) with
    | Some (_, base) => apply_from u base c
    | None => match via with OnDatagram => (c, OStale held) | OnStream => resync RBaseMismatch c end
    end.

(** [ClientScreen::on_part]; an error ends the leg. *)
Definition on_part (p : Part) (c : ClientScreen) : result (ClientScreen * ScreenOutcome) (PartError + ScreenCodec.DecodeError) :=
  let '(r, x) := re_push (p_num p) (p_part p) (p_parts p) (p_data p) (s_parts c) in
  match x with
  | Err e => Err (inl e)
  | Ok None => Ok (set_parts r c, OPartial)
  | Ok (Some bytes) =>
      match decode_update bytes with
      | Err e => Err (inr e)
      | Ok u => Ok (apply_via u OnStream (set_parts r c))
      end
  end.

(** [ClientScreen::on_datagram_part] *)
Definition on_datagram_part (p : Part) (c : ClientScreen) : ClientScreen * ScreenOutcome :=
  let '(r, x) := dr_offer p (s_datagram_parts c) in
  let c := set_datagram_parts r c in
  match x with
  | Ok None => (c, OPartial)
  | Ok (Some bytes) =>
      match decode_update bytes with
      | Ok u => apply_via u OnDatagram c
      | Err _ => (drop_datagram c, OPartial)
      end
  | Err _ => (drop_datagram c, OPartial)
  end.

End Hashed.

(** [ScreenUpdate::validate] of a part. *)
Definition part_valid (p : Part) : bool := len (p_data p) <=? PART_MAX.

(** ** The host's sender *)

(** Milliseconds. *)
Definition FIXED_FRAME_INTERVAL : N := 20.
Definition RTT_FLOOR : N := 50.
Definition DATAGRAM_RESEND_RTTS : N := 2.
Definition MIN_PART_PAYLOAD : N := 64.
(** [DatagramFrame::HEADER_LEN + PART_OVERHEAD] *)
Definition DATAGRAM_OVERHEAD : N := 17 + 24.

(** [part_budget] *)
Definition part_budget (max_datagram_size : N) : option N :=
  if max_datagram_size <? DATAGRAM_OVERHEAD then None
  else
    let budget := max_datagram_size - DATAGRAM_OVERHEAD in
    if MIN_PART_PAYLOAD <=? budget then Some budget else None.

(** [wire::ScreenUpdate::parts_of] and [parts_sized] *)
Definition number_parts (num : N) (ds : list (list byte)) : list Part :=
  imap (fun i d => mkPart num (N.of_nat i) (len ds) d) ds.
Definition parts_of (num : N) (encoded : list byte) : list Part := number_parts num (split encoded).
Definition parts_sized (num : N) (encoded : list byte) (max_part : N) : list Part :=
  number_parts num (split_sized encoded max_part).

(** What the input side tells the pump ([ScreenSync]). *)
Record Sync := mkSync { y_resync : bool; y_acked : N; y_datagram_seen : bool }.

(** [ScreenSync::on_ack] *)
Definition on_ack (state_num : N) (s : Sync) : Sync :=
  if state_num =? 0 then mkSync true 0 (y_datagram_seen s)
  else mkSync (y_resync s) (y_acked s `max` state_num) (y_datagram_seen s).

Record Sender := mkSender {
  n_last_sent_stream : N;
  n_force_full : bool;
  n_inflight : list (N * N);
  n_last_dg_at : option N;
}.

Definition sender_new : Sender := mkSender 0 false [] None.

(** What a transport does with the parts of one update: takes them all, or
    refuses one after the first [k]. *)
Inductive Taken := TakesAll | Refuses (k : nat) | Closes (k : nat).

(** The state of the path at one attempt: the connection's
    [max_datagram_size], what the policy says for all updates and for one of
    so many parts, whether the stream's queue has room, and what the transport
    does with datagrams. *)
Record Path := mkPath {
  max_datagram_size : option N;
  wants_datagram : bool;
  carries : N -> bool;
  has_room : bool;
  taken : Taken;
}.

Inductive Sent := Done | Blocked | Paced (until : N).
Inductive SendFault := UpdateTooLarge | PeerGone.

(** What one [try_send] did. *)
Record Attempt (V : Type) := mkAttempt {
  a_host : HostScreen V;
  a_sender : Sender;
  a_stream : list Part;
  a_dgrams : list Part;
  a_sent : result Sent SendFault;
}.
Arguments mkAttempt {V}.
Arguments a_host {V}. Arguments a_sender {V}. Arguments a_stream {V}. Arguments a_dgrams {V}. Arguments a_sent {V}.

Section Sender.
Context {V : Type} `{!Vt V}.
Variable blake3 : list byte -> list byte.

Abbreviation Host := (HostScreen V).

Definition after_full (u : ScreenUpdate) (n : Sender) : bool := if base_num u =? 0 then false else n_force_full n.

(** The stream half of [ScreenSender::try_send]; [dgrams] went out before. *)
Definition send_stream (acked : N) (dgrams : list Part) (h : Host) (n : Sender) : Attempt V :=
  let base := if n_force_full n then 0 else acked `max` n_last_sent_stream n in
  match update_since blake3 base h with
  | (h1, None) => mkAttempt h1 n [] dgrams (Ok Done)
  | (h1, Some u) =>
      let encoded := encode_update u in
      if MAX_UPDATE_BYTES <? len encoded then mkAttempt h1 n [] dgrams (Err UpdateTooLarge)
      else mkAttempt h1 (mkSender (new_num u) (after_full u n) (n_inflight n) (n_last_dg_at n))
             (parts_of (new_num u) encoded) dgrams (Ok Done)
  end.

(** The datagram half: the attempt it makes, or the parts it gave up on. *)
Definition send_datagrams (now acked : N) (p : Path) (h : Host) (n : Sender)
    : Attempt V + (Host * list Part) :=
  let base := if n_force_full n then 0 else acked in
  match update_since blake3 base h with
  | (h1, None) => inl (mkAttempt h1 n [] [] (Ok Done))
  | (h1, Some u) =>
      let encoded := encode_update u in
      if MAX_UPDATE_BYTES <? len encoded then inl (mkAttempt h1 n [] [] (Err UpdateTooLarge))
      else
        match max_datagram_size p ≫= part_budget with
        | Some budget =>
            let parts := parts_sized (new_num u) encoded budget in
            if (len parts <=? MAX_DATAGRAM_PARTS) && carries p (len parts) then
              match taken p with
              | TakesAll =>
                  inl (mkAttempt h1 (mkSender (n_last_sent_stream n) (after_full u n)
                                       (n_inflight n ++ [(new_num u, now)]) (Some now))
                         [] parts (Ok Done))
              | Refuses k => inr (h1, list.take k parts)
              | Closes k => inl (mkAttempt h1 n [] (list.take k parts) (Err PeerGone))
              end
            else inr (h1, [])
        | None => inr (h1, [])
        end
  end.

(** [ScreenSender::datagram_usable] *)
Definition datagram_usable (carrier : bool) (s : Sync) (p : Path) : bool :=
  carrier && y_datagram_seen s && (if max_datagram_size p is Some _ then true else false).

Definition paced (now : N) (n : Sender) : option N :=
  match n_last_dg_at n with
  | Some at_ => if now <? at_ + FIXED_FRAME_INTERVAL then Some (at_ + FIXED_FRAME_INTERVAL) else None
  | None => None
  end.

(** [ScreenSender::try_send] *)
Definition try_send (now : N) (force_stream carrier : bool) (p : Path) (s : Sync) (h : Host) (n : Sender)
    : Attempt V :=
  let stream dgrams h :=
    if negb force_stream && negb (has_room p) then mkAttempt h n [] dgrams (Ok Blocked)
    else send_stream (y_acked s) dgrams h n in
  if negb force_stream && datagram_usable carrier s p && wants_datagram p then
    match paced now n with
    | Some next => mkAttempt h n [] [] (Ok (Paced next))
    | None =>
        match send_datagrams now (y_acked s) p h n with
        | inl a => a
        | inr (h1, dgrams) => stream dgrams h1
        end
    end
  else stream [] h.

(** [ScreenSender::tick]: what was acknowledged is no longer in flight. *)
Fixpoint drop_acked (acked : N) (l : list (N * N)) : list (N * N) :=
  match l with
  | (num, at_) :: l' => if num <=? acked then drop_acked acked l' else l
  | [] => []
  end.

Definition tick (acked : N) (retest_started : bool) (n : Sender) : Sender :=
  let inflight := drop_acked acked (if acked =? 0 then [] else n_inflight n) in
  mkSender (n_last_sent_stream n) (n_force_full n) (if retest_started then [] else inflight) (n_last_dg_at n).

(** [ScreenSender::resend_deadline] *)
Definition resend_deadline (rtt : N) (n : Sender) : option N :=
  match last (n_inflight n) with
  | Some (_, sent) => Some (sent + (rtt `max` RTT_FLOOR) * DATAGRAM_RESEND_RTTS + FIXED_FRAME_INTERVAL)
  | None => None
  end.

(** [screen_pump] from the top of its loop to the sending: the sender and
    whether there is something to send. *)
Definition pump_top (now rtt : N) (retest_started : bool) (s : Sync) (n : Sender) (dirty : bool)
    : Sync * Sender * bool :=
  let '(s, n, dirty) :=
    if y_resync s
    then (mkSync false (y_acked s) (y_datagram_seen s), mkSender 0 true (n_inflight n) (n_last_dg_at n), true)
    else (s, n, dirty) in
  let n := tick (y_acked s) retest_started n in
  (s, n, dirty || match resend_deadline rtt n with Some at_ => at_ <=? now | None => false end).

End Sender.

(** ** The system *)

(** [z_log] are all the states the host has numbered; no party reads it. *)
Record System (V : Type) := mkSystem {
  z_host : HostScreen V;
  z_log : list ScreenState;
  z_sync : Sync;
  z_sender : Sender;
  z_dirty : bool;
  z_fault : option SendFault;
  z_carrier : bool;
  z_down : list Part;
  z_dgrams : list Part;
  z_client : ClientScreen;
  z_broken : bool;
  z_acks : list N;
  z_up : list N;
  z_up_dgrams : list N;
}.
Arguments mkSystem {V}.
Arguments z_host {V}. Arguments z_log {V}. Arguments z_sync {V}. Arguments z_sender {V}. Arguments z_dirty {V}.
Arguments z_fault {V}. Arguments z_carrier {V}. Arguments z_down {V}. Arguments z_dgrams {V}. Arguments z_client {V}.
Arguments z_broken {V}. Arguments z_acks {V}. Arguments z_up {V}. Arguments z_up_dgrams {V}.

Inductive Action :=
  | Feed (data : list byte) (end_seq : N)
  | Resize (rows cols : N)
  | Peek
  | Wake
  | Seen
  | Top (now rtt : N) (retest_started : bool)
  | Send (now : N) (force_stream : bool) (p : Path)
  | Recv
  | RecvDatagram (k : nat)
  | Flush (k : nat)
  | Ack
  | AckDatagram (k : nat).

(** The acknowledgements [pump_attach_input] sends for those it found queued:
    the newest, and a request for the full screen on its own. *)
Definition fold_acks (acks : list N) : list N :=
  match last acks with
  | None => []
  | Some newest => (if existsb (N.eqb 0) acks && negb (newest =? 0) then [0] else []) ++ [newest]
  end.

Section System.
Context {V : Type} `{!Vt V}.
Variable blake3 : list byte -> list byte.

Abbreviation Sys := (System V).

Definition grown (h h' : HostScreen V) (log : list ScreenState) : list ScreenState :=
  if h_next_num h' =? h_next_num h then log else log ++ [snapshot h].

Definition set_host (h : HostScreen V) (z : Sys) : Sys :=
  mkSystem h (grown (z_host z) h (z_log z)) (z_sync z) (z_sender z) (z_dirty z) (z_fault z) (z_carrier z)
    (z_down z) (z_dgrams z) (z_client z) (z_broken z) (z_acks z) (z_up z) (z_up_dgrams z).
Definition set_pump (s : Sync) (n : Sender) (dirty : bool) (z : Sys) : Sys :=
  mkSystem (z_host z) (z_log z) s n dirty (z_fault z) (z_carrier z)
    (z_down z) (z_dgrams z) (z_client z) (z_broken z) (z_acks z) (z_up z) (z_up_dgrams z).
Definition set_client (c : ClientScreen) (broken : bool) (acks : list N) (down : list Part) (z : Sys) : Sys :=
  mkSystem (z_host z) (z_log z) (z_sync z) (z_sender z) (z_dirty z) (z_fault z) (z_carrier z)
    down (z_dgrams z) c broken acks (z_up z) (z_up_dgrams z).
Definition set_up (acks up up_dgrams : list N) (z : Sys) : Sys :=
  mkSystem (z_host z) (z_log z) (z_sync z) (z_sender z) (z_dirty z) (z_fault z) (z_carrier z)
    (z_down z) (z_dgrams z) (z_client z) (z_broken z) acks up up_dgrams.

Definition send (now : N) (force_stream : bool) (p : Path) (z : Sys) : Sys :=
  let a := try_send blake3 now force_stream (z_carrier z) p (z_sync z) (z_host z) (z_sender z) in
  let dirty := match a_sent a with
               | Ok Done => false
               | Ok _ => if force_stream then false else z_dirty z
               | Err _ => z_dirty z
               end in
  mkSystem (a_host a) (grown (z_host z) (a_host a) (z_log z)) (z_sync z) (a_sender a) dirty
    (match a_sent a with Err f => Some f | Ok _ => None end) (z_carrier z)
    (z_down z ++ a_stream a) (z_dgrams z ++ a_dgrams a) (z_client z) (z_broken z) (z_acks z) (z_up z) (z_up_dgrams z).

(** The reader on an outcome: what it acknowledges goes to the input pump. *)
Definition outcome (x : ClientScreen * ScreenOutcome) (down : list Part) (z : Sys) : Sys :=
  set_client x.1 false (z_acks z ++ option_list (outcome_ack x.2)) down z.

Definition step (z : Sys) (a : Action) : option Sys :=
  match a with
  | Feed data e => Some (set_host (feed data e (z_host z)) z)
  | Resize r c => Some (set_host (resize r c (z_host z)) z)
  | Peek => Some (set_host (cut blake3 (z_host z)).1 z)
  | Wake => Some (set_pump (z_sync z) (z_sender z) true z)
  | Seen => if negb (z_carrier z) then None else Some (set_pump (mkSync (y_resync (z_sync z)) (y_acked (z_sync z)) true) (z_sender z) (z_dirty z) z)
  | Top now rtt retest =>
      if z_fault z is Some _ then None
      else
        let '(s, n, dirty) := pump_top now rtt retest (z_sync z) (z_sender z) (z_dirty z) in
        Some (set_pump s n dirty z)
  | Send now force p =>
      if z_fault z is Some _ then None
      else if force || z_dirty z then Some (send now force p z) else None
  | Recv =>
      match z_down z with
      | p :: down =>
          if z_broken z then None
          else if part_valid p then
            match on_part blake3 p (z_client z) with
            | Ok x => Some (outcome x down z)
            | Err _ => Some (set_client (z_client z) true (z_acks z) down z)
            end
          else Some (set_client (z_client z) true (z_acks z) down z)
      | [] => None
      end
  | RecvDatagram k =>
      match z_dgrams z !! k with
      | Some p =>
          if z_broken z || negb (part_valid p) then None
          else Some (outcome (on_datagram_part blake3 p (z_client z)) (z_down z) z)
      | None => None
      end
  | Flush k =>
      let out := fold_acks (list.take k (z_acks z)) in
      Some (set_up (drop k (z_acks z)) (z_up z ++ out) (z_up_dgrams z ++ out) z)
  | Ack =>
      match z_up z with
      | a :: up =>
          let z := set_up (z_acks z) up (z_up_dgrams z) z in
          Some (set_pump (on_ack a (z_sync z)) (z_sender z) (z_dirty z) z)
      | [] => None
      end
  | AckDatagram k =>
      match z_up_dgrams z !! k with
      | Some a =>
          let s := mkSync (y_resync (z_sync z)) (y_acked (z_sync z)) true in
          if negb (z_carrier z) then None else Some (set_pump (on_ack a s) (z_sender z) (z_dirty z) z)
      | None => None
      end
  end.

Fixpoint run (z : Sys) (acts : list Action) : option Sys :=
  match acts with
  | [] => Some z
  | a :: acts' => match step z a with Some z' => run z' acts' | None => None end
  end.

(** A fresh attach to a session whose emulator is [h]. *)
Definition attached (h : HostScreen V) (log : list ScreenState) (carrier : bool) : Sys :=
  mkSystem h log (mkSync false 0 false) sender_new true None carrier [] [] client_new false [] [] [].

End System.
End ScreenSync.
