(* ===== verification/ScreenTruth.v ===== *)
(** * What the client shows is what the host had

    Safety of screen sync ([ScreenSync]) over both carriers: whatever is lost,
    repeated or put together from parts of different updates, every screen
    the client holds under a number has the hash of the state the host gave
    that number. *)

From S2P Require Import Prelude ScreenCodec ScreenDiff ScreenParts Utf8 ScreenHost ScreenCuts ScreenSync.

Module ScreenTruth.
Import ScreenCodec ScreenDiff ScreenParts ScreenHost ScreenCuts ScreenSync.

(** ** The header of an update *)

(** The bytes before the effects: the two numbers, the offset and the hash. *)
Definition header (u : ScreenUpdate) : list byte :=
  put_varint (base_num u) ++ put_varint (new_num u) ++ put_varint (output_seq u) ++ state_hash u.

Definition header_ok (u : ScreenUpdate) : Prop :=
  is_u64 (base_num u) /\ is_u64 (new_num u) /\ is_u64 (output_seq u) /\ len (state_hash u) = HASH_LEN.

Lemma encode_header u : exists t, encode_update u = header u ++ t.
Proof. eexists. unfold encode_update, header. by rewrite <- !app_assoc. Qed.

Lemma put_varint_loop_short fuel v : len (put_varint_loop fuel v) <= N.of_nat fuel.
Proof.
  revert v. induction fuel as [|fuel IH]; intros v; cbn [put_varint_loop]; [done|].
  destruct (_ =? 0); rewrite len_cons; [rewrite len_nil; lia|]. specialize (IH (N.shiftr v 7)). lia.
Qed.

Lemma header_short u : header_ok u -> len (header u) <= MIN_PART_PAYLOAD.
Proof.
  intros (_ & _ & _ & Hh). unfold header, HASH_LEN, MIN_PART_PAYLOAD, put_varint in *. rewrite !len_app, Hh.
  pose proof (put_varint_loop_short 10 (base_num u)). pose proof (put_varint_loop_short 10 (new_num u)).
  pose proof (put_varint_loop_short 10 (output_seq u)). lia.
Qed.

Lemma varint_inj a b x y :
  is_u64 a -> is_u64 b -> put_varint a ++ x = put_varint b ++ y -> a = b /\ x = y.
Proof.
  intros Ha Hb E. pose proof (codec_read (p := varint) a x Ha) as H1. pose proof (codec_read (p := varint) b y Hb) as H2.
  rewrite E in H1. rewrite H1 in H2. by injection H2 as -> ->.
Qed.

(** Bytes that begin with the header of an update decode, if they do, to an
    update of the same numbers and hash. *)
Lemma decode_header bs g x u :
  header_ok g -> bs = header g ++ x -> decode_update bs = Ok u ->
  base_num u = base_num g /\ new_num u = new_num g /\ state_hash u = state_hash g /\ diff_ok (diff u).
Proof.
  intros (Hb & Hn & Ho & Hh) -> Hd. unfold decode_update in Hd. destruct (_ <? _); [done|].
  apply (whole_canonical read_update encode_update update_ok) in Hd as [(Ub & Un & _ & Uo & Uh & _ & _ & Ud) E].
  destruct (encode_header u) as [t Ht]. rewrite Ht in E. unfold header in E. rewrite <- !app_assoc in E.
  apply varint_inj in E as [-> E]; [|done..]. apply varint_inj in E as [-> E]; [|done..].
  apply varint_inj in E as [_ E]; [|done..]. apply app_inj_1 in E as [-> _]; [done|]. unfold len in *. lia.
Qed.

(** ** Parts *)

Section Truth.
Context {V : Type} `{!Vt V} `{!VtLaws V}.
Variable blake3 : list byte -> list byte.
Hypothesis blake3_len : forall x, HASH_LEN <= len (blake3 x).

Abbreviation hash := (ScreenDiff.hash blake3).
Abbreviation Sys := (System V).

(** The update begins with the header of one of the host's. *)
Definition begins (log : list ScreenState) (num : N) (bs : list byte) : Prop :=
  exists u b new x, genuine blake3 log u b new /\ header_ok u /\ new_num u = num /\ bs = header u ++ x.

Definition part_ok (log : list ScreenState) (p : Part) : Prop :=
  p_part p = 0 -> begins log (p_num p) (p_data p).

Lemma begins_grow log more num bs : begins log num bs -> begins (log ++ more) num bs.
Proof. intros (u & b & new & x & Hg & H). exists u, b, new, x. split; [by apply genuine_grow|done]. Qed.

Lemma begins_app log num bs more : begins log num bs -> begins log num (bs ++ more).
Proof.
  intros (u & b & new & x & Hg & Hh & Hn & ->). exists u, b, new, (x ++ more). by rewrite app_assoc.
Qed.

Lemma genuine_header log u b new :
  genuine blake3 log u b new -> len log < 2 ^ 64 -> header_ok u.
Proof.
  intros (Hn & _ & Hlt & _ & _ & Hh & _ & Ho) Hl. apply nth_state_bound in Hn. unfold header_ok, is_u64 in *.
  split_and!; [lia|lia|done|]. rewrite Hh. unfold ScreenDiff.hash. rewrite len_takeN. specialize (blake3_len (canonical_bytes new)). lia.
Qed.

Lemma first_chunk n (bs x : list byte) :
  0 < n -> chunks n bs !! 0%nat = Some x -> x = takeN n bs.
Proof. unfold chunks. destruct bs as [|b bs]; [done|]. cbn. by intros _ [= <-]. Qed.

Lemma number_parts_ok log u b new n ds :
  genuine blake3 log u b new -> header_ok u -> MIN_PART_PAYLOAD <= n ->
  (forall d, ds !! 0%nat = Some d -> d = takeN n (encode_update u)) ->
  Forall (part_ok log) (number_parts (new_num u) ds).
Proof.
  intros Hg Hh Hn Hd. apply Forall_lookup. intros i p. unfold number_parts. rewrite list_lookup_imap.
  destruct (ds !! i) as [d|] eqn:E; [|done]. intros [= <-] H0. cbn [p_part p_num p_data] in *.
  assert (i = 0%nat) as -> by lia. apply Hd in E as ->. destruct (encode_header u) as [t ->].
  exists u, b, new, (takeN (n - len (header u)) t). split_and!; [done..|].
  apply takeN_app_ge. pose proof (header_short u Hh). lia.
Qed.

Lemma parts_of_ok log u b new :
  genuine blake3 log u b new -> header_ok u -> Forall (part_ok log) (parts_of (new_num u) (encode_update u)).
Proof.
  intros Hg Hh. apply (number_parts_ok _ _ b new PART_MAX); [done..|]. unfold split.
  destruct (encode_update u) as [|b0 bs] eqn:E; [intros d [= <-]; unfold takeN; by rewrite take_nil|]. intros d. by apply first_chunk.
Qed.

Lemma parts_sized_ok log u b new n :
  genuine blake3 log u b new -> header_ok u -> MIN_PART_PAYLOAD <= n ->
  Forall (part_ok log) (parts_sized (new_num u) (encode_update u) n).
Proof.
  intros Hg Hh Hn. apply (number_parts_ok _ _ b new (N.max n 1)); [done..|unfold MIN_PART_PAYLOAD in *; lia|].
  unfold split_sized. destruct (encode_update u) as [|b0 bs] eqn:E; [intros d [= <-]; unfold takeN; by rewrite take_nil|]. intros d.
  apply first_chunk. lia.
Qed.

Lemma part_budget_min m n : part_budget m = Some n -> MIN_PART_PAYLOAD <= n.
Proof.
  unfold part_budget. destruct (_ <? _); [done|]. destruct (N.leb_spec MIN_PART_PAYLOAD (m - DATAGRAM_OVERHEAD)); [|done].
  by intros [= <-].
Qed.

(** ** The client *)

(** What the client holds under a number. *)
Definition entry_ok (log : list ScreenState) (x : N * ScreenState) : Prop :=
  is_valid x.2 = true /\ exists t, nth_state log x.1 = Some t /\ hash x.2 = hash t.

Definition ascending (l : list N) : Prop :=
  forall i j a b, (i < j)%nat -> l !! i = Some a -> l !! j = Some b -> a <= b.

Lemma ascending_snoc l x :
  ascending l -> (forall a, last l = Some a -> a <= x) -> ascending (l ++ [x]).
Proof.
  intros Hl Hx i j a b Hij [Ha|[? Ha]]%lookup_app_Some [Hb|[? Hb]]%lookup_app_Some.
  - by eapply Hl.
  - apply list_lookup_singleton_Some in Hb as [_ <-]. pose proof (lookup_lt_Some _ _ _ Ha).
    destruct (last l) as [y|] eqn:E; [|apply last_None in E as ->; by destruct i]. specialize (Hx y eq_refl).
    rewrite last_lookup in E. destruct (decide (i = Nat.pred (length l))) as [->|]; [congruence|].
    pose proof (Hl i (Nat.pred (length l)) a y ltac:(lia) Ha E). lia.
  - apply lookup_lt_Some in Hb. lia.
  - apply list_lookup_singleton_Some in Ha as [? _], Hb as [? _]. lia.
Qed.

Lemma ascending_drop n l : ascending l -> ascending (drop n l).
Proof. intros Hl i j a b Hij. rewrite !lookup_drop. apply Hl. lia. Qed.

Record ClientInv (c : ClientScreen) (log : list ScreenState) : Prop := {
  ci_history : Forall (entry_ok log) (s_history c);
  ci_sorted : ascending (fst <$> s_history c);
  ci_buf : re_parts (s_parts c) <> 0 -> begins log (re_num (s_parts c)) (re_buf (s_parts c));
  ci_slots : exists seen, Holds seen (s_datagram_parts c) /\ Forall (part_ok log) seen;
}.

(** The parts of the client an update does not touch. *)
Definition same_parts (c c' : ClientScreen) : Prop :=
  s_parts c' = s_parts c /\ s_datagram_parts c' = s_datagram_parts c.

(** What an update may do to the screen held: nothing, drop it, or move it to
    a valid one with the update's hash. *)
Definition moved (u : ScreenUpdate) (c c' : ClientScreen) : Prop :=
  same_parts c c' /\
  (s_history c' = s_history c \/ s_history c' = [] \/
   exists s, s_history c' = keep_last RETAINED_STATES (s_history c ++ [(new_num u, s)]) /\
     is_valid s = true /\ hash s = state_hash u /\ (client_num c <> 0 -> client_num c <= new_num u)).

Lemma apply_via_spec u via c c' o :
  apply_via blake3 u via c = (c', o) -> Forall (fun x => is_valid x.2 = true) (s_history c) -> diff_ok (diff u) ->
  moved u c c'.
Proof.
  unfold apply_via. intros H Hv Hd. destruct (_ && _); [injection H as <- _; by split; [|left]|].
  destruct (negb (client_num c =? 0) && _) eqn:Eh; [injection H as <- _; by split; [|left]|].
  assert (forall base, is_valid base = true -> apply_from blake3 u base c = (c', o) -> moved u c c') as Hfrom.
  { intros base Hb. unfold apply_from, apply_update. destruct (apply_ok _ _ Hd Hb) as (s & -> & Hs). cbn [rbind].
    case_bool_decide as Hh; intros [= <- _]; (split; [done|]); [|by right; left]. right; right. exists s.
    split_and!; [done..|]. intros H0. rewrite (proj2 (N.eqb_neq _ _) H0) in Eh. cbn [negb andb] in Eh.
    apply orb_false_iff in Eh as [Eh _]. lia. }
  destruct (base_num u =? 0).
  - destruct (blank (d_rows (diff u)) (d_cols (diff u))) as [base|] eqn:Eb.
    + apply (Hfrom base); [by eapply blank_is_valid|done].
    + injection H as <- _. split; [done|by right; left].
  - destruct (List.find _ _) as [[n base]|] eqn:Ef.
    + apply List.find_some in Ef as [Hin _]. apply list_elem_of_In in Hin. rewrite Forall_forall in Hv.
      apply (Hfrom base); [by apply (Hv (n, base))|done].
    + destruct via; injection H as <- _; (split; [done|]); [by right; left|by left].
Qed.

(** What one step does to the number shown. *)
Definition onward (c c' : ClientScreen) : Prop := client_state c' = None \/ client_num c <= client_num c'.

Lemma moved_onward u c c' : moved u c c' -> onward c c'.
Proof.
  unfold onward, client_state, client_num. intros [_ [->|[->|(s & -> & _ & _ & Hle)]]]; [by right|by left|]. right.
  rewrite keep_last_snoc. cbn. unfold client_num in Hle. destruct (N.eq_dec (from_option fst 0 (last (s_history c))) 0); [lia|auto].
Qed.

Lemma client_num_last c a : last (fst <$> s_history c) = Some a -> client_num c = a.
Proof. unfold client_num. rewrite fmap_last. destruct (last (s_history c)); [|done]. by intros [= <-]. Qed.

Lemma apply_via_inv log u via c c' o num bs :
  ClientInv c log -> begins log num bs -> decode_update bs = Ok u -> apply_via blake3 u via c = (c', o) ->
  ClientInv c' log /\ onward c c'.
Proof.
  intros [Hh Hs Hb Hsl] (g & b & new & x & Hg & Hgh & Hn & Ebs) Hd Ha.
  destruct (decode_header bs g x u Hgh Ebs Hd) as (_ & Hnum & Hhash & Hdiff).
  destruct (apply_via_spec u via c c' o Ha) as [[Hp1 Hp2] Hm]; [|done|].
  { eapply Forall_impl; [exact Hh|]. by intros y []. }
  split; [|by apply (moved_onward u)]. destruct Hm as [E|[E|(s & E & Hv & Hsh & Hle)]]; split; rewrite ?E, ?Hp1, ?Hp2; try done.
  - apply keep_last_Forall, Forall_app. split; [done|]. constructor; [|done]. split; [done|]. exists new.
    cbn [fst snd]. rewrite Hnum. destruct Hg as (Hnew & _ & _ & _ & _ & Hgs & _). split; [done|congruence].
  - unfold keep_last. rewrite fmap_drop, fmap_app. apply ascending_drop, ascending_snoc; [done|]. intros a Hl.
    rewrite <- (client_num_last c a Hl) in *. apply Hle. intros H0. rewrite (client_num_last c a Hl) in H0. subst a.
    rewrite fmap_last in Hl. destruct (last (s_history c)) as [y|] eqn:El; [|done]. injection Hl as Hy.
    apply last_Some_elem_of in El. rewrite Forall_forall in Hh. destruct (Hh y El) as (_ & t & Ht & _).
    apply nth_state_bound in Ht. lia.
Qed.

Lemma set_parts_inv log c r :
  ClientInv c log -> (re_parts r <> 0 -> begins log (re_num r) (re_buf r)) -> ClientInv (set_parts r c) log.
Proof. intros [Hh Hs Hb Hsl] Hr. by split. Qed.

(** One part from the stream. *)
Lemma re_push_begins log p r r' x :
  (re_parts r <> 0 -> begins log (re_num r) (re_buf r)) -> part_ok log p ->
  re_push (p_num p) (p_part p) (p_parts p) (p_data p) r = (r', x) ->
  (re_parts r' <> 0 -> begins log (re_num r') (re_buf r')) /\
  (forall bs, x = Ok (Some bs) -> exists num, begins log num bs).
Proof.
  intros Hr Hp. unfold re_push, push_inner. destruct (_ || _); [by intros [= <- <-]|].
  destruct (PART_MAX <? _); [by intros [= <- <-]|].
  destruct (N.eqb_spec (p_part p) 0) as [E0|E0]; cbn [re_buf re_parts re_num].
  - destruct (_ <? _); [by intros [= <- <-]|]. specialize (Hp E0).
    destruct (_ =? p_parts p); intros [= <- <-]; cbn [re_buf re_num app]; (split; [done|]); [|done].
    intros bs [= <-]. eauto.
  - destruct (re_parts r =? 0) eqn:Ez; [by intros [= <- <-]|]. apply N.eqb_neq in Ez. specialize (Hr Ez).
    cbn [orb]. destruct (_ || _); [by intros [= <- <-]|]. destruct (_ <? _); [by intros [= <- <-]|].
    destruct (_ =? re_parts r); intros [= <- <-]; cbn [re_buf re_num].
    + split; [done|]. intros bs [= <-]. exists (re_num r). by apply begins_app.
    + split; [intros _; by apply begins_app|done].
Qed.

Lemma on_part_inv log p c x :
  ClientInv c log -> part_ok log p -> on_part blake3 p c = Ok x -> ClientInv x.1 log /\ onward c x.1.
Proof.
  intros HI Hp. unfold on_part. destruct (re_push _ _ _ _ _) as [r res] eqn:E.
  destruct (re_push_begins log p _ r res (ci_buf _ _ HI) Hp E) as [Hr Hbs].
  destruct res as [[bs|]|]; [|intros [= <-]; split; [by apply set_parts_inv|by right]|done].
  destruct (decode_update bs) as [u|] eqn:Ed; [|done]. intros [= <-].
  destruct (Hbs bs eq_refl) as [num Hb]. destruct (apply_via _ _ _ _) as [c' o] eqn:Ea.
  change (onward c) with (onward (set_parts r c)). eapply apply_via_inv; [by apply set_parts_inv|exact Hb|exact Ed|exact Ea].
Qed.

(** One part from a datagram. *)
Lemma on_datagram_inv log p c :
  ClientInv c log -> part_ok log p -> ClientInv (on_datagram_part blake3 p c).1 log /\ onward c (on_datagram_part blake3 p c).1.
Proof.
  intros HI Hp. unfold on_datagram_part. destruct (dr_offer p (s_datagram_parts c)) as [r x] eqn:E.
  destruct (ci_slots _ _ HI) as (seen & Hs & Hseen).
  destruct (offer_sound _ _ _ _ _ Hs E) as (Hs' & _ & Hw).
  assert (Forall (part_ok log) (seen ++ [p])) as Hseen' by (apply Forall_app; split; [done|by constructor]).
  assert (ClientInv (set_datagram_parts r c) log) as HI' by (destruct HI; split; [done..|by exists (seen ++ [p])]).
  assert (ClientInv (drop_datagram (set_datagram_parts r c)) log) as HI'' by (destruct HI'; by split).
  destruct x as [[bs|]|]; [|by split; [|right]..]. destruct (decode_update bs) as [u|] eqn:Ed; [|by split; [|right]].
  destruct (Hw bs eq_refl) as [(_ & ds & -> & Hl & Hd) _]. destruct (apply_via _ _ _ _) as [c' o] eqn:Ea.
  destruct ds as [|d ds].
  { exfalso. clear -Ed. by vm_compute in Ed. }
  pose proof (Hd 0%nat d eq_refl) as Hin. rewrite Forall_forall in Hseen'. pose proof (Hseen' _ Hin eq_refl) as Hb.
  change (onward c) with (onward (set_datagram_parts r c)). eapply apply_via_inv; [exact HI'|apply begins_app, Hb|exact Ed|exact Ea].
Qed.

(** ** The sender *)

Lemma grown_spec (h h' : HostScreen V) log log' :
  HostInv blake3 h log -> HostInv blake3 h' log' -> (log' = log \/ log' = log ++ [snapshot h]) -> grown h h' log = log'.
Proof.
  intros HI HI' Hlog. unfold grown. rewrite (hv_num _ _ _ HI), (hv_num _ _ _ HI').
  destruct Hlog as [-> | ->]; [by rewrite N.eqb_refl|]. rewrite (proj2 (N.eqb_neq _ _)); [done|len_lia].
Qed.

Lemma grown_same (h : HostScreen V) log : grown h h log = log.
Proof. unfold grown. by rewrite N.eqb_refl. Qed.

Lemma grown_app (h h' : HostScreen V) log : exists more, grown h h' log = log ++ more.
Proof. unfold grown. destruct (_ =? _); [exists []; by rewrite app_nil_r|by eexists]. Qed.

(** The host after a cut, and the log with it. *)
Abbreviation cut_host h := (cut blake3 h).1.
Abbreviation cut_log h log := (grown h (cut_host h) log).

Lemma cut_inv h log : HostInv blake3 h log -> HostInv blake3 (cut_host h) (cut_log h log).
Proof.
  intros HI. destruct (cut blake3 h) as [h' i] eqn:E.
  destruct (cut_spec blake3 h log h' i HI E) as (log' & new & Hlog & HI' & _). cbn [fst].
  by rewrite (grown_spec h h' log log').
Qed.

Lemma cut_twice h log : HostInv blake3 h log -> cut_host (cut_host h) = cut_host h.
Proof. intros HI. eapply cut_again; [by apply cut_inv|apply cut_clean]. Qed.

(** An update made now. *)
Lemma update_spec base h log h1 o :
  HostInv blake3 h log -> update_since blake3 base h = (h1, o) ->
  h1 = cut_host h /\ exists new, nth_state (cut_log h log) (len (cut_log h log)) = Some new /\
    hash new = hash (snapshot h) /\
    match o with
    | None => base = len (cut_log h log)
    | Some u => base <> len (cut_log h log) /\ new_num u = len (cut_log h log) /\
                (base_num u = base \/ base_num u = 0) /\ exists b, genuine blake3 (cut_log h log) u b new
    end.
Proof.
  intros HI E. pose proof (update_since_host blake3 base h) as Hh. rewrite E in Hh. cbn [fst] in Hh. split; [done|].
  destruct (update_since_spec blake3 h log base h1 o HI E) as (log' & new & Hlog & HI' & Hn & Hs & _ & Ho).
  exists new. rewrite <- Hh, (grown_spec h h1 log log') by done. done.
Qed.

(** After a cut the log is that of the cut. *)
Lemma cut_log_twice h log : HostInv blake3 h log -> cut_log (cut_host h) (cut_log h log) = cut_log h log.
Proof. intros HI. rewrite (cut_twice h log HI). apply grown_same. Qed.

(** What an attempt leaves: the host or its cut, and parts of genuine
    updates. *)
Definition attempt_ok (h : HostScreen V) (log : list ScreenState) (a : Attempt V) : Prop :=
  (a_host a = h \/ a_host a = cut_host h) /\
  (len (grown h (a_host a) log) < 2 ^ 64 ->
   Forall (part_ok (grown h (a_host a) log)) (a_stream a) /\ Forall (part_ok (grown h (a_host a) log)) (a_dgrams a)).

Lemma send_stream_ok acked dgrams h h0 log n :
  HostInv blake3 h0 log -> h = h0 \/ h = cut_host h0 ->
  (len (cut_log h0 log) < 2 ^ 64 -> Forall (part_ok (cut_log h0 log)) dgrams) ->
  attempt_ok h0 log (send_stream blake3 acked dgrams h n).
Proof.
  intros HI Hh Hd. unfold send_stream. set (base := if n_force_full n then _ else _).
  destruct (update_since blake3 base h) as [h1 o] eqn:E.
  assert (h1 = cut_host h0 /\ match o with None => True | Some u => exists b new, genuine blake3 (cut_log h0 log) u b new end)
    as [-> Ho].
  { destruct Hh as [-> | ->].
    - destruct (update_spec base h0 log h1 o HI E) as (-> & new & _ & _ & Ho). split; [done|].
      destruct o; [|done]. naive_solver.
    - destruct (update_spec base _ _ h1 o (cut_inv h0 log HI) E) as (-> & new & _ & _ & Ho).
      rewrite (cut_log_twice h0 log HI), (cut_twice h0 log HI) in *. split; [done|]. destruct o; [|done]. naive_solver. }
  destruct o as [u|]; [|split; cbn [a_host a_stream a_dgrams]; [by right|intros; auto]].
  destruct Ho as (b & new & Hg).
  destruct (_ <? _); (split; cbn [a_host a_stream a_dgrams]; [by right|intros Hl; split; [|by apply Hd]]); [done|].
  eapply parts_of_ok; [exact Hg|]. by eapply genuine_header.
Qed.

Lemma send_datagrams_ok now acked p h log n :
  HostInv blake3 h log ->
  match send_datagrams blake3 now acked p h n with
  | inl a => attempt_ok h log a
  | inr (h1, dgrams) => h1 = cut_host h /\
      (len (cut_log h log) < 2 ^ 64 -> Forall (part_ok (cut_log h log)) dgrams)
  end.
Proof.
  intros HI. unfold send_datagrams. set (base := if n_force_full n then _ else _).
  destruct (update_since blake3 base h) as [h1 o] eqn:E.
  destruct (update_spec base h log h1 o HI E) as (-> & new & _ & _ & Ho).
  destruct o as [u|]; [|split; cbn [a_host a_stream a_dgrams]; [by right|done]]. destruct Ho as (_ & _ & _ & b & Hg).
  destruct (_ <? _); [split; cbn [a_host a_stream a_dgrams]; [by right|done]|].
  destruct (max_datagram_size p ≫= part_budget) as [budget|] eqn:Eb; [|done].
  destruct (_ && _); [|done].
  assert (len (cut_log h log) < 2 ^ 64 ->
    Forall (part_ok (cut_log h log)) (parts_sized (new_num u) (encode_update u) budget)) as Hp.
  { intros Hl. eapply parts_sized_ok; [exact Hg|by eapply genuine_header|].
    destruct (max_datagram_size p); [|done]. by eapply part_budget_min. }
  destruct (taken p).
  - split; cbn [a_host a_stream a_dgrams]; [by right|auto].
  - split; [done|]. intros Hl. by apply Forall_take, Hp.
  - split; cbn [a_host a_stream a_dgrams]; [by right|]. intros Hl. split; [done|]. by apply Forall_take, Hp.
Qed.

Lemma try_send_ok now force carrier p s h log n :
  HostInv blake3 h log -> attempt_ok h log (try_send blake3 now force carrier p s h n).
Proof.
  intros HI. unfold try_send.
  assert (forall dgrams h1, h1 = h \/ h1 = cut_host h ->
    (len (grown h h1 log) < 2 ^ 64 -> Forall (part_ok (grown h h1 log)) dgrams) ->
    (len (cut_log h log) < 2 ^ 64 -> Forall (part_ok (cut_log h log)) dgrams) ->
    attempt_ok h log (if negb force && negb (has_room p) then mkAttempt h1 n [] dgrams (Ok Blocked)
                      else send_stream blake3 (y_acked s) dgrams h1 n)) as Hst.
  { intros dgrams h1 Hh1 Hd1 Hd. destruct (_ && _); [split; cbn [a_host a_stream a_dgrams]; [done|by intros; split; [|apply Hd1]]|].
    by apply send_stream_ok. }
  destruct (negb force && datagram_usable carrier s p && wants_datagram p).
  - destruct (paced now n); [split; cbn [a_host a_stream a_dgrams]; [by left|done]|].
    pose proof (send_datagrams_ok now (y_acked s) p h log n HI) as Hd.
    destruct (send_datagrams _ _ _ _ _ _) as [a|[h1 dgrams]]; [done|]. destruct Hd as [-> Hd].
    apply Hst; [by right|done|done].
  - apply Hst; [by left|done|done].
Qed.

(** ** The system *)

Record Truth (z : Sys) : Prop := {
  tr_host : HostInv blake3 (z_host z) (z_log z);
  tr_down : Forall (part_ok (z_log z)) (z_down z);
  tr_dgrams : Forall (part_ok (z_log z)) (z_dgrams z);
  tr_client : ClientInv (z_client z) (z_log z);
}.

Lemma part_ok_grow log more p : part_ok log p -> part_ok (log ++ more) p.
Proof. intros H H0. by apply begins_grow, H. Qed.

Lemma parts_ok_grow log more ps : Forall (part_ok log) ps -> Forall (part_ok (log ++ more)) ps.
Proof. intros H. eapply Forall_impl; [exact H|]. intros p. apply part_ok_grow. Qed.

Lemma client_grow c log more : ClientInv c log -> ClientInv c (log ++ more).
Proof.
  intros [Hh Hs Hb (seen & Hsl & Hseen)]. split; [|done|..].
  - eapply Forall_impl; [exact Hh|]. intros x (Hv & t & Ht & E). split; [done|]. exists t. split; [by apply nth_state_grow|done].
  - intros H. by apply begins_grow, Hb.
  - exists seen. split; [done|by apply parts_ok_grow].
Qed.

Lemma set_host_inv h z : HostInv blake3 h (grown (z_host z) h (z_log z)) -> Truth z -> Truth (set_host h z).
Proof.
  intros HI [_ Hd Hg Hc]. destruct (grown_app (z_host z) h (z_log z)) as [more E].
  split; cbn [set_host z_host z_log z_down z_dgrams z_client]; [done|..]; rewrite E.
  - by apply parts_ok_grow.
  - by apply parts_ok_grow.
  - by apply client_grow.
Qed.

(** What the actions may bring: offsets of 64 bits. *)
Definition fits (a : Action) : Prop := match a with Feed _ e => is_u64 e | _ => True end.

Lemma send_truth now force p z :
  Truth z -> len (z_log (send blake3 now force p z)) < 2 ^ 64 -> Truth (send blake3 now force p z).
Proof.
  intros [HI Hd Hg Hc] Hl. cbn [send z_log] in Hl. unfold send. set (a := try_send _ _ _ _ _ _ _ _) in *.
  destruct (try_send_ok now force (z_carrier z) p (z_sync z) (z_host z) (z_log z) (z_sender z) HI) as [Hh Hp].
  fold a in Hh, Hp. destruct (Hp Hl) as [Hps Hpd]. destruct (grown_app (z_host z) (a_host a) (z_log z)) as [more E].
  split; cbn [z_host z_log z_down z_dgrams z_client].
  - destruct Hh as [-> | ->]; [by rewrite grown_same|by apply cut_inv].
  - apply Forall_app. split; [rewrite E; by apply parts_ok_grow|done].
  - apply Forall_app. split; [rewrite E; by apply parts_ok_grow|done].
  - rewrite E. by apply client_grow.
Qed.

Lemma truth_step z a z' :
  Truth z -> fits a -> step blake3 z a = Some z' -> len (z_log z') < 2 ^ 64 -> Truth z'.
Proof.
  intros HT Hf Hs Hl. pose proof HT as [HI Hd Hg Hc]. destruct a as [data e|r c| | | |now rtt rt|now force p| |k|k| |k];
    cbn [step] in Hs.
  - injection Hs as <-. apply set_host_inv; [|done].
    pose proof (feed_keeps blake3 data e (z_host z) (z_log z) Hf HI) as HI'.
    rewrite (grown_spec _ _ _ (z_log z)); [done|done|done|by left].
  - injection Hs as <-. apply set_host_inv; [|done].
    pose proof (resize_keeps blake3 r c (z_host z) (z_log z) HI) as HI'.
    rewrite (grown_spec _ _ _ (z_log z)); [done|done|done|by left].
  - injection Hs as <-. apply set_host_inv; [|done]. by apply cut_inv.
  - by injection Hs as <-.
  - destruct (negb _); [done|]. by injection Hs as <-.
  - destruct (z_fault z); [done|]. destruct (pump_top _ _ _ _ _ _) as [[s n] d]. by injection Hs as <-.
  - destruct (z_fault z); [done|]. destruct (force || z_dirty z); [|done]. injection Hs as <-.
    by apply send_truth.
  - destruct (z_down z) as [|p down]; [done|]. apply Forall_cons in Hd as [Hp Hd]. destruct (z_broken z); [done|].
    destruct (part_valid p); [|by injection Hs as <-].
    destruct (on_part blake3 p (z_client z)) as [x|] eqn:E; injection Hs as <-; [|by split].
    split; [done|done|done|]. by apply (on_part_inv (z_log z) p (z_client z)).
  - destruct (z_dgrams z !! k) as [p|] eqn:E; [|done]. destruct (_ || _); [done|]. injection Hs as <-.
    split; [done..|]. apply on_datagram_inv; [done|]. rewrite Forall_lookup in Hg. by eapply Hg.
  - by injection Hs as <-.
  - destruct (z_up z); [done|]. by injection Hs as <-.
  - destruct (z_up_dgrams z !! k); [|done]. destruct (negb _); [done|]. by injection Hs as <-.
Qed.

Lemma log_grows z a z' : step blake3 z a = Some z' -> exists more, z_log z' = z_log z ++ more.
Proof.
  assert (exists more, z_log z = z_log z ++ more) as H0 by (exists []; by rewrite app_nil_r).
  destruct a; cbn [step]; intros Hs; repeat (case_match; try done); injection Hs as <-;
    cbn [set_host set_pump set_client set_up outcome send z_log]; try exact H0; apply grown_app.
Qed.

Lemma run_log_grows z acts z' : run blake3 z acts = Some z' -> exists more, z_log z' = z_log z ++ more.
Proof.
  revert z. induction acts as [|a acts IH]; intros z Hr; cbn [run] in Hr.
  { simplify_eq. exists []. by rewrite app_nil_r. }
  destruct (step blake3 z a) as [z1|] eqn:E; [|done]. destruct (log_grows _ _ _ E) as [m1 E1].
  destruct (IH z1 Hr) as [m2 ->]. exists (m1 ++ m2). by rewrite E1, app_assoc.
Qed.

Lemma run_log_len z acts z' : run blake3 z acts = Some z' -> len (z_log z) <= len (z_log z').
Proof. intros [more ->]%run_log_grows. len_lia. Qed.

Lemma truth_run z acts z' :
  Truth z -> Forall fits acts -> run blake3 z acts = Some z' -> len (z_log z') < 2 ^ 64 -> Truth z'.
Proof.
  intros HT Hf. revert z HT. induction Hf as [|a acts Ha _ IH]; intros z HT Hr Hl; cbn [run] in Hr; [by simplify_eq|].
  destruct (step blake3 z a) as [z1|] eqn:E; [|done]. apply (IH z1); [|done|done].
  apply (truth_step z a); [done..|]. apply run_log_len in Hr. lia.
Qed.

Lemma truth_start r c hr hb carrier : Truth (attached (host_new r c hr hb) [] carrier).
Proof.
  split; cbn [attached z_host z_log z_down z_dgrams z_client]; [by apply host_new_inv|done..|].
  split; [done|by intros i j a b _ Ha|done|]. exists []. by split; [apply holds_empty|].
Qed.

(** The last state numbered is the one on screen, when nothing came since. *)
Lemma clean_last h log :
  HostInv blake3 h log -> h_dirty h = false ->
  exists t, nth_state log (len log) = Some t /\ hash t = hash (snapshot h).
Proof.
  intros HI Hd. destruct (hv_clean _ _ _ HI Hd) as (c & Hc & Hh).
  destruct (cuts_ok_last _ _ _ _ (hv_cuts _ _ _ HI) Hc) as (Hn & Hs & E). exists (cut_state c).
  split; [congruence|congruence].
Qed.

Lemma onward_step z a z' : Truth z -> step blake3 z a = Some z' -> onward (z_client z) (z_client z').
Proof.
  intros [HI Hd Hg Hc] Hs. assert (onward (z_client z) (z_client z)) as H0 by by right.
  destruct a as [data e|r c| | | |now rtt rt|now force p| |k|k| |k]; cbn [step] in Hs.
  1-4: by injection Hs as <-.
  - destruct (negb _); [done|]. by injection Hs as <-.
  - destruct (z_fault z); [done|]. destruct (pump_top _ _ _ _ _ _) as [[s n] d]. by injection Hs as <-.
  - destruct (z_fault z); [done|]. destruct (force || z_dirty z); [|done]. by injection Hs as <-.
  - destruct (z_down z) as [|p down]; [done|]. apply Forall_cons in Hd as [Hp Hd]. destruct (z_broken z); [done|].
    destruct (part_valid p); [|by injection Hs as <-].
    destruct (on_part blake3 p (z_client z)) as [x|] eqn:E; injection Hs as <-; [|done]. by apply (on_part_inv (z_log z) p (z_client z)).
  - destruct (z_dgrams z !! k) as [p|] eqn:E; [|done]. destruct (_ || _); [done|]. injection Hs as <-.
    apply (on_datagram_inv (z_log z)); [done|]. rewrite Forall_lookup in Hg. by eapply Hg.
  - by injection Hs as <-.
  - destruct (z_up z); [done|]. by injection Hs as <-.
  - destruct (z_up_dgrams z !! k); [|done]. destruct (negb _); [done|]. by injection Hs as <-.
Qed.

(** C7: the client never shows a screen the host did not have.  Over the
    stream and over datagrams that are lost, late, repeated or mixed, after any
    run of the attach (offsets and state numbers within 64 bits): every screen
    the client keeps is valid and has the hash of the state the host gave that
    number, in ascending order of number; no step takes the number it shows
    back, except to no screen at all (when it asks for the full one); and a
    client at the host's last number shows a screen with the hash of what is
    on the emulator, when nothing came to the emulator since that state was
    numbered. *)
Theorem screen_truth r c hr hb carrier acts z :
  Forall fits acts -> run blake3 (attached (host_new r c hr hb) [] carrier) acts = Some z -> len (z_log z) < 2 ^ 64 ->
  ascending (fst <$> s_history (z_client z)) /\
  (forall n s, (n, s) ∈ s_history (z_client z) ->
     is_valid s = true /\ exists t, nth_state (z_log z) n = Some t /\ hash s = hash t) /\
  (forall a z', step blake3 z a = Some z' -> onward (z_client z) (z_client z')) /\
  (forall s, h_dirty (z_host z) = false -> client_num (z_client z) = len (z_log z) ->
     client_state (z_client z) = Some s -> hash s = hash (snapshot (z_host z))).
Proof.
  intros Hf Hr Hl. pose proof (truth_run _ _ _ (truth_start r c hr hb carrier) Hf Hr Hl) as HT.
  pose proof HT as [HI _ _ [Hh Hs _ _]].
  rewrite Forall_forall in Hh. split_and!; [done|by intros n s H%Hh|intros a z'; by apply onward_step|]. intros s Hd Hn.
  unfold client_num, client_state in *. destruct (last (s_history (z_client z))) as [[n s']|] eqn:E; [|done].
  intros [= ->]. cbn in Hn. subst n. apply last_Some_elem_of in E. destruct (Hh _ E) as (_ & t & Ht & Et).
  destruct (clean_last _ _ HI Hd) as (t' & Ht' & Et'). cbn in Ht, Et. congruence.
Qed.

End Truth.
(** ** A small emulator *)

(** It shows the last byte it was fed in its corner; byte 2 sets the title. *)
Definition demo_vt_cell (b : byte) : VtCell := mkVtCell [b] false false false false false false false Default Default.
Definition demo_vt_screen (v : N * N * byte) : VtScreen :=
  mkVtScreen v.1.1 v.1.2 (fun r c => if (r =? 0) && (c =? 0) then Some (demo_vt_cell v.2) else None)
    (fun _ => false) (0, 0) false false false false false MNone EDefault.
Definition demo_put (x : N * N * byte * list Callback) (b : byte) : N * N * byte * list Callback :=
  if bool_decide (b = x02) then (x.1, x.2 ++ [CbTitle [x74]]) else ((x.1.1, b), x.2).

#[global] Instance demo_vt : Vt (N * N * byte) := {|
  vt_new r c := (r, c, x20);
  vt_process v bs := foldl demo_put (v, []) bs;
  vt_set_size v r c := (r, c, v.2, []);
  vt_screen := demo_vt_screen |}.

#[global] Instance demo_vt_laws : VtLaws (N * N * byte).
Proof.
  split; [done| |done]. intros v bs. cbn. change v with (v, @nil Callback).1 at 2 4. generalize (v, @nil Callback).
  induction bs as [|b bs IH]; intros x; [done|]. cbn [foldl]. destruct (IH (demo_put x b)) as [-> ->].
  unfold demo_put. by case_bool_decide.
Qed.

Definition demo_blake3 (bs : list byte) : list byte := list.take 8 (reverse bs ++ replicate 8 x00).

Lemma demo_blake3_len x : HASH_LEN <= len (demo_blake3 x).
Proof. unfold demo_blake3, HASH_LEN, len. rewrite length_take, length_app, length_replicate. lia. Qed.

Definition by_stream : Path := mkPath None false (fun _ => false) true TakesAll.
Definition by_datagram : Path := mkPath (Some 1200) true (fun _ => true) true TakesAll.
Definition demo_start (carrier : bool) : System (N * N * byte) := attached (host_new 1 1 10 1000) [] carrier.

(** An update on the stream that a later one overtakes as a datagram, then the
    forced screen before an event. *)
Definition overtaken : list Action :=
  [Feed [x61] 1; Send 0 false by_stream; Recv; Flush 1; Ack; Seen;
   Feed [x62] 2; Wake; Send 0 false by_stream; Feed [x63] 3; Wake; Send 0 false by_datagram;
   RecvDatagram 0; Recv; Feed [x64] 4; Send 0 true by_datagram].

(** The client's request reaches the host, which answers with a full screen
    in a datagram. *)
Definition answered : list Action :=
  [Recv; Flush 3; Ack; Wake; Top 100 10 false; Send 100 false by_datagram].

Definition demo_got (acts : list Action) : option (System (N * N * byte)) := run demo_blake3 (demo_start true) acts.

(** Nothing new from the session, no datagram of the client, and the full
    screen's datagram is lost. *)
Definition quiet (a : Action) : bool :=
  match a with
  | Top _ _ _ | Send _ false _ | Recv | Flush _ | Ack | Seen => true
  | RecvDatagram k => bool_decide (k = 0%nat)
  | _ => false
  end.

Definition waiting_client : option ClientScreen := Eval vm_compute in z_client <$> demo_got (overtaken ++ answered).
Definition waiting_dgrams : option (list Part) := Eval vm_compute in z_dgrams <$> demo_got (overtaken ++ answered).

(** The client waits for a screen and nothing is left to bring it one. *)
Definition stuck (z : System (N * N * byte)) : Prop :=
  Some (z_client z) = waiting_client /\ Some (z_dgrams z) = waiting_dgrams /\ z_dirty z = false /\
  y_resync (z_sync z) = false /\ y_acked (z_sync z) = 0 /\ z_down z = [] /\ z_acks z = [] /\ z_up z = [].

Lemma tick_clears rt n : n_inflight (tick 0 rt n) = [].
Proof. unfold tick. by destruct rt. Qed.

Lemma stuck_step z a z' : stuck z -> quiet a = true -> step demo_blake3 z a = Some z' -> stuck z'.
Proof.
  intros (Hc & Hg & Hd & Hr & Hk & Hdown & Ha & Hu) Hq. destruct a as [| | | | |now rtt rt|now [] p| |k|k| |]; try done;
    cbn [step]; rewrite ?Hd, ?Hdown, ?Hu; try done.
  - destruct (negb _); [done|]. by intros [= <-].
  - destruct (z_fault z); [done|]. unfold pump_top, resend_deadline. rewrite Hr, Hk, tick_clears. cbn [last orb].
    by intros [= <-].
  - by destruct (z_fault z).
  - apply bool_decide_eq_true in Hq as ->. destruct (z_dgrams z) as [|p ps] eqn:Eg; [done|]. cbn [lookup list_lookup].
    destruct (_ || _); [done|]. intros [= <-]. unfold stuck, outcome.
    cbn [set_client z_client z_dgrams z_dirty z_sync z_down z_acks z_up]. injection Hc as ->. injection Hg as -> ->.
    rewrite Ha, Eg. split_and!; try done; by vm_compute.
  - rewrite Ha, take_nil, drop_nil. cbn. intros [= <-]. unfold stuck.
    cbn [set_up z_client z_dgrams z_dirty z_sync z_down z_acks z_up]. by split_and!.
Qed.

Lemma stuck_run z acts z' : stuck z -> forallb quiet acts = true -> run demo_blake3 z acts = Some z' -> stuck z'.
Proof.
  revert z. induction acts as [|a acts IH]; intros z Hz Hq; cbn [run]; [by intros [= <-]|].
  cbn [forallb] in Hq. bools. destruct (step demo_blake3 z a) as [z1|] eqn:E; [|done].
  apply IH; [by eapply stuck_step|done].
Qed.

Lemma screen_run_app {V} `{!Vt V} blake3 (z : System V) l k :
  run blake3 z (l ++ k) = match run blake3 z l with Some z' => run blake3 z' k | None => None end.
Proof. revert z. induction l as [|a l IH]; intros z; cbn [run app]; [done|]. by destruct (step _ _ _). Qed.

(** an update on the stream that a later datagram overtakes makes the
    client ask for the full screen: it drops the late update as stale, and the
    next one on the stream is made from the state it never kept. *)
Theorem overtaken_update_resyncs :
  exists z z', demo_got overtaken = Some z /\ client_num (z_client z) = 3 /\ s_resyncs (z_client z) = 0 /\
    step demo_blake3 z Recv = Some z' /\ s_resyncs (z_client z') = 1 /\ client_state (z_client z') = None.
Proof. eexists _, _. split; [vm_compute; reflexivity|]. split_and!; vm_compute; reflexivity. Qed.

(** a full screen lost as a datagram is not sent again.  While the client
    has asked for the full screen the pump forgets what it has in flight, so
    no resend is ever due: however often it looks, the client has no screen
    until the session has new output. *)
Theorem lost_full_not_resent acts z :
  forallb quiet acts = true -> demo_got ((overtaken ++ answered) ++ acts) = Some z ->
  client_state (z_client z) = None /\ s_awaiting_full (z_client z) = true /\ z_dirty z = false.
Proof.
  unfold demo_got. rewrite screen_run_app. intros Hq.
  destruct (run demo_blake3 (demo_start true) (overtaken ++ answered)) as [z0|] eqn:E; [|done]. intros Hr.
  assert (stuck z0) as Hz by (vm_compute in E; injection E as <-; by vm_compute).
  destruct (stuck_run z0 acts z Hz Hq Hr) as (Hc & _ & Hd & _). injection Hc as ->.
  split_and!; [reflexivity|reflexivity|exact Hd].
Qed.

(** ** Witnesses *)

Definition resend_passes : list Action := [Top 200 10 false; RecvDatagram 0; Top 10000 10 false].

Definition after_passes : option (System (N * N * byte)) :=
  Eval vm_compute in demo_got ((overtaken ++ answered) ++ resend_passes).

Lemma lost_full_not_resent_witness :
  exists z, demo_got ((overtaken ++ answered) ++ resend_passes) = Some z /\ client_state (z_client z) = None.
Proof.
  destruct after_passes as [z|] eqn:E; [|exfalso; vm_compute in E; discriminate].
  assert (demo_got ((overtaken ++ answered) ++ resend_passes) = Some z) as H.
  { rewrite <- E. vm_compute. reflexivity. }
  exists z. split; [exact H|]. apply (lost_full_not_resent resend_passes z); [reflexivity|exact H].
Defined.

Lemma screen_truth_witness :
  exists z, run demo_blake3 (demo_start true) overtaken = Some z /\
    forall n s, (n, s) ∈ s_history (z_client z) ->
      is_valid s = true /\ exists t, nth_state (z_log z) n = Some t /\ hash demo_blake3 s = hash demo_blake3 t.
Proof.
  destruct (run demo_blake3 (demo_start true) overtaken) as [z|] eqn:E; [|exfalso; vm_compute in E; discriminate].
  exists z. split; [reflexivity|].
  apply (screen_truth demo_blake3 demo_blake3_len 1 1 10 1000 true overtaken z); [repeat constructor|exact E|].
  vm_compute in E. injection E as <-. reflexivity.
Defined.

End ScreenTruth.
