(* ===== verification/ScreenStream.v ===== *)
(** * Screen sync over the stream alone

    Without a datagram carrier screen sync is exact: every update the host
    sends applies at the client, which never asks for the full screen and
    ends up with the state last sent ([ScreenSync], [ScreenHost]). *)

From S2P Require Import Prelude ScreenCodec ScreenDiff ScreenParts Utf8 ScreenHost ScreenCuts ScreenSync ScreenTruth.

Module ScreenStream.
Import ScreenCodec ScreenDiff ScreenParts ScreenHost ScreenCuts ScreenSync ScreenTruth.

Section Stream.
Context {V : Type} `{!Vt V} `{!VtLaws V}.
Variable blake3 : list byte -> list byte.
Hypothesis blake3_len : forall x, HASH_LEN <= len (blake3 x).

Abbreviation hash := (ScreenDiff.hash blake3).
Abbreviation Sys := (System V).

(** ** Updates on their way *)

Abbreviation pieces u := (split (encode_update u)).
Abbreviation parts u := (parts_of (new_num u) (encode_update u)).

(** The reassembler has the first [j] parts of [u]. *)
Definition got (r : Reassembler) (u : ScreenUpdate) (j : nat) : Prop :=
  j = 0%nat \/ r = mkRe (new_num u) (len (pieces u)) (N.of_nat j) (mjoin (list.take j (pieces u))).

(** The stream carries the rest of the first update and the others whole. *)
Definition in_stream (r : Reassembler) (down : list Part) (us : list ScreenUpdate) : Prop :=
  match us with
  | [] => down = []
  | u :: us' => exists j, (j < length (pieces u))%nat /\ got r u j /\
      down = drop j (parts u) ++ mjoin ((fun u => parts u) <$> us')
  end.

(** Each update is made from the state before it, and readable. *)
Fixpoint sent_chain (log : list ScreenState) (n : N) (us : list ScreenUpdate) (m : N) : Prop :=
  match us with
  | [] => n = m
  | u :: us' => (base_num u = n \/ base_num u = 0) /\ n < new_num u /\ update_ok u /\
      len (encode_update u) <= MAX_UPDATE_BYTES /\ (exists b new, genuine blake3 log u b new) /\
      sent_chain log (new_num u) us' m
  end.

Lemma sent_chain_le log n us m : sent_chain log n us m -> n <= m.
Proof.
  revert n. induction us as [|u us IH]; intros n; cbn [sent_chain]; [by intros ->|].
  intros (_ & Hlt & _ & _ & _ & H%IH). lia.
Qed.

Lemma sent_chain_grow log more n us m : sent_chain log n us m -> sent_chain (log ++ more) n us m.
Proof.
  revert n. induction us as [|u us IH]; intros n; cbn [sent_chain]; [done|].
  intros (Hb & Hlt & Hok & Hlen & (b & new & Hg) & H). split_and!; try done; [|by apply IH].
  exists b, new. by apply genuine_grow.
Qed.

Lemma sent_chain_snoc log n us m u :
  sent_chain log n us m -> (base_num u = m \/ base_num u = 0) -> m < new_num u -> update_ok u ->
  len (encode_update u) <= MAX_UPDATE_BYTES -> (exists b new, genuine blake3 log u b new) ->
  sent_chain log n (us ++ [u]) (new_num u).
Proof.
  intros H Hb Hlt Hok Hlen Hg. revert n H. induction us as [|v us IH]; intros n; cbn [sent_chain app].
  - intros ->. by split_and!.
  - intros (? & ? & ? & ? & ? & H). split_and!; try done. by apply IH.
Qed.

Lemma pieces_pos u : (0 < length (pieces u))%nat.
Proof. unfold split. destruct (encode_update u); cbn; lia. Qed.

Lemma in_stream_snoc r down us u :
  in_stream r down us -> in_stream r (down ++ parts u) (us ++ [u]).
Proof.
  destruct us as [|v us]; cbn [in_stream app].
  - intros ->. exists 0%nat. split_and!; [apply pieces_pos|by left|]. cbn. by rewrite app_nil_r.
  - intros (j & Hj & Hg & ->). exists j. split_and!; [done..|].
    rewrite fmap_app, join_app, <- app_assoc. cbn. by rewrite app_nil_r.
Qed.

Lemma parts_lookup u j d :
  pieces u !! j = Some d -> parts u !! j = Some (mkPart (new_num u) (N.of_nat j) (len (pieces u)) d).
Proof. intros H. unfold parts_of, number_parts. by rewrite list_lookup_imap, H. Qed.

(** The next part of the stream, and what the reassembler makes of it. *)
Lemma next_part r down u us :
  len (encode_update u) <= MAX_UPDATE_BYTES -> in_stream r down (u :: us) ->
  exists p down', down = p :: down' /\ part_valid p = true /\
    (re_push (p_num p) (p_part p) (p_parts p) (p_data p) r = (re_empty, Ok (Some (encode_update u))) /\
       in_stream re_empty down' us \/
     exists r', re_push (p_num p) (p_part p) (p_parts p) (p_data p) r = (r', Ok None) /\ in_stream r' down' (u :: us)).
Proof.
  intros Hl (j & Hj & Hg & ->). destruct (split_spec _ Hl) as (Hmj & Hf & Hn & Hmax).
  destruct (lookup_lt_is_Some_2 _ _ Hj) as [d Hd]. rewrite (drop_S _ _ _ (parts_lookup u j d Hd)).
  eexists _, _. split; [reflexivity|]. rewrite Forall_lookup in Hf. pose proof (Hf _ _ Hd) as Hdl.
  unfold part_valid. cbn [p_num p_part p_parts p_data]. split; [lia|].
  pose proof (take_S_r _ _ _ Hd) as Ht. assert (mjoin (list.take (S j) (pieces u)) = mjoin (list.take j (pieces u)) ++ d) as Hm.
  { rewrite Ht, join_app. cbn. by rewrite app_nil_r. }
  assert ((if N.of_nat j =? 0 then [] else re_buf r) = mjoin (list.take j (pieces u))) as Hbuf.
  { destruct Hg as [-> | ->]; [done|]. destruct (N.eqb_spec (N.of_nat j) 0); [|done]. by replace j with 0%nat by lia. }
  assert (len (mjoin (list.take j (pieces u))) + len d <= MAX_UPDATE_BYTES) as Hlen.
  { rewrite <- len_app, <- Hm. rewrite <- Hmj, <- (take_drop (S j) (pieces u)), join_app, len_app in Hl. lia. }
  rewrite re_push_next; [|unfold len in *; lia|done| |by rewrite Hbuf].
  2: { destruct Hg as [-> | ->]; [by left|by right]. }
  rewrite Hbuf. destruct (N.eqb_spec (N.of_nat j + 1) (len (pieces u))) as [E|E].
  - left. rewrite <- Hm, take_ge, Hmj by (unfold len in E; lia). split; [done|].
    rewrite drop_ge by (unfold parts_of, number_parts; rewrite length_imap; unfold len in E; lia). cbn [app].
    destruct us as [|v us]; [done|]. exists 0%nat. by split_and!; [apply pieces_pos|left|].
  - right. eexists. split; [reflexivity|]. exists (S j). split_and!; [unfold len in E; lia| |done]. right.
    rewrite Hm. by replace (N.of_nat (S j)) with (N.of_nat j + 1) by lia.
Qed.

(** ** The client applies what comes *)

Lemma apply_size d b s : apply d b = Ok s -> rows s = d_rows d /\ cols s = d_cols d.
Proof.
  unfold apply. destruct (negb _) eqn:Es; [done|]. destruct (_ || _ || _); [done|].
  destruct (same_size b (d_rows d) (d_cols d)) eqn:E; cbn [rbind].
  - apply same_size_spec in E as [<- <-]. destruct (apply_changes _ _ _ _ _); [|done]. by intros [= <-].
  - unfold blank. apply negb_false_iff in Es. rewrite Es. cbn [map_err rbind].
    destruct (apply_changes _ _ _ _ _); [|done]. by intros [= <-].
Qed.

(** The screens the client keeps are the host's. *)
Definition exact_history (log : list ScreenState) (c : ClientScreen) : Prop :=
  Forall (fun x => nth_state log x.1 = Some x.2) (s_history c).

Lemma last_keep {A} n (l : list A) x : (0 < n)%nat -> last (keep_last n (l ++ [x])) = Some x.
Proof.
  intros Hn. unfold keep_last. rewrite length_app. cbn [length]. rewrite drop_app_le by lia. apply last_snoc.
Qed.

Lemma find_base log c n :
  exact_history log c -> client_num c = n -> n <> 0 ->
  exists m s, List.find (fun x : N * ScreenState => x.1 =? n) (s_history c) = Some (m, s) /\ nth_state log n = Some s.
Proof.
  intros He Hn H0. unfold exact_history in He. rewrite Forall_forall in He.
  destruct (List.find _ _) as [[m s]|] eqn:E.
  - apply List.find_some in E as [Hin%list_elem_of_In Hm]. exists m, s. split; [done|]. specialize (He _ Hin).
    cbn in *. apply N.eqb_eq in Hm as ->. done.
  - exfalso. unfold client_num in Hn. destruct (last (s_history c)) as [x|] eqn:El; [|done].
    apply last_Some_elem_of, list_elem_of_In in El. pose proof (List.find_none _ _ E _ El) as Hx. cbn in Hx, Hn.
    apply N.eqb_neq in Hx. done.
Qed.

Lemma apply_next log c u b new :
  exact_history log c -> s_awaiting_full c = false -> genuine blake3 log u b new ->
  base_num u = client_num c \/ base_num u = 0 -> client_num c < new_num u ->
  exists c', apply_via blake3 u OnStream c = (c', OApplied (new_num u) (output_seq u) (effects u)) /\
    exact_history log c' /\ client_num c' = new_num u /\ s_awaiting_full c' = false /\
    s_parts c' = s_parts c /\ s_resyncs c' = s_resyncs c.
Proof.
  intros He Ha (Hn & Hb & Hlt & Hdf & Hap & Hh & _) Hbase Hnum.
  assert (apply_from blake3 u b c = (mkClient (keep_last RETAINED_STATES (s_history c ++ [(new_num u, new)]))
    (output_seq u) (s_parts c) (s_datagram_parts c) false (s_applied c + 1) (s_resyncs c) (s_datagram_dropped c),
    OApplied (new_num u) (output_seq u) (effects u))) as Hf.
  { unfold apply_from, apply_update. rewrite Hap. cbn [rbind]. by rewrite bool_decide_eq_true_2. }
  assert (apply_via blake3 u OnStream c = apply_from blake3 u b c) as Hv.
  { unfold apply_via. rewrite Ha, (proj2 (N.ltb_ge _ _)), (proj2 (N.eqb_neq (new_num u) _)) by lia.
    rewrite andb_false_r, andb_false_r. cbn [andb]. destruct (N.eqb_spec (base_num u) 0) as [E|E].
    - destruct Hb as [[_ Hb]|Hb]; [|rewrite E in Hb; done]. destruct (apply_size _ _ _ Hap) as [<- <-]. by rewrite Hb.
    - destruct Hbase as [Hbase|?]; [|done]. destruct (find_base log c (base_num u) He (eq_sym Hbase) E) as (m & s & -> & Hs).
      destruct Hb as [[? _]|Hb]; [done|]. rewrite Hs in Hb. by injection Hb as ->. }
  rewrite Hv, Hf. eexists. split; [reflexivity|].
  cbn [s_awaiting_full s_parts s_resyncs]. split_and!; try done.
  - apply keep_last_Forall, Forall_app. split; [done|by constructor].
  - unfold client_num. cbn [s_history]. rewrite last_keep by (unfold RETAINED_STATES; lia). done.
Qed.

(** ** The system *)

(** What the client has acknowledged. *)
Definition acked_upto (n : N) (l : list N) : Prop := Forall (fun a => 1 <= a <= n) l.

Record Exact (z : Sys) : Prop := {
  ex_host : HostInv blake3 (z_host z) (z_log z);
  ex_carrier : z_carrier z = false /\ z_dgrams z = [];
  ex_sound : z_broken z = false /\ s_resyncs (z_client z) = 0 /\ s_awaiting_full (z_client z) = false;
  ex_history : exact_history (z_log z) (z_client z);
  ex_stream : exists us, sent_chain (z_log z) (client_num (z_client z)) us (n_last_sent_stream (z_sender z)) /\
    in_stream (s_parts (z_client z)) (z_down z) us;
  ex_sent : n_last_sent_stream (z_sender z) <= len (z_log z) /\ n_force_full (z_sender z) = false;
  ex_sync : y_resync (z_sync z) = false /\ y_acked (z_sync z) <= client_num (z_client z);
  ex_acks : acked_upto (client_num (z_client z)) (z_acks z) /\ acked_upto (client_num (z_client z)) (z_up z);
}.

Lemma exact_start r c hr hb : Exact (attached (host_new r c hr hb) [] false).
Proof.
  split; cbn; try done; [by apply host_new_inv|by constructor|by exists []|by split; constructor].
Qed.

Lemma acked_mono n m l : n <= m -> acked_upto n l -> acked_upto m l.
Proof. intros Hn H. eapply Forall_impl; [exact H|]. cbn. lia. Qed.

Lemma exact_set_host h z : HostInv blake3 h (grown (z_host z) h (z_log z)) -> Exact z -> Exact (set_host h z).
Proof.
  intros HI [_ Hc Hs Hh (us & Hch & Hin) [Hl Hf] Hy Ha]. destruct (grown_app (z_host z) h (z_log z)) as [more E].
  split; cbn [set_host z_host z_log z_carrier z_dgrams z_broken z_client z_sender z_down z_sync z_acks z_up]; try done;
    rewrite E.
  - eapply Forall_impl; [exact Hh|]. intros x. apply nth_state_grow.
  - exists us. split; [by apply sent_chain_grow|done].
  - split; [len_lia|done].
Qed.

(** *** Receiving *)

Lemma exact_recv z p down :
  Exact z -> z_down z = p :: down ->
  exists z', step blake3 z Recv = Some z' /\ Exact z' /\ z_down z' = down /\ z_host z' = z_host z /\ z_log z' = z_log z /\
    z_sender z' = z_sender z.
Proof.
  intros [HI Hc (Hb & Hrs & Haw) Hh (us & Hch & Hin) Hse Hy [Ha Hu]] Hd. destruct us as [|u us]; [cbn in Hin; congruence|].
  cbn [sent_chain] in Hch. destruct Hch as (Hbase & Hnum & Hok & Hlen & (b & new & Hg) & Hch).
  destruct (next_part _ _ u us Hlen Hin) as (p' & down' & E & Hv & Hpush). rewrite E in Hd. injection Hd as -> ->.
  cbn [step]. rewrite E, Hb, Hv. unfold on_part. destruct Hpush as [[-> Hin']|(r' & -> & Hin')].
  - assert (decode_update (encode_update u) = Ok u) as ->.
    { unfold decode_update. rewrite (proj2 (N.ltb_ge _ _)) by done. by apply (whole_read read_update encode_update update_ok). }
    destruct (apply_next (z_log z) (set_parts re_empty (z_client z)) u b new) as (c' & -> & Hh' & Hn' & Haw' & Hp' & Hr');
      [done|done|done|done|done|].
    eexists. split; [reflexivity|]. split; [|done]. unfold outcome. cbn [fst snd outcome_ack option_list].
    split; cbn [set_client z_host z_log z_carrier z_dgrams z_broken z_client z_sender z_down z_sync z_acks z_up]; try done.
    + by rewrite Hr'.
    + exists us. rewrite Hn', Hp'. done.
    + rewrite Hn'. split; [apply Hy|]. destruct Hy. lia.
    + rewrite Hn'. split; [|eapply acked_mono; [|exact Hu]; lia]. apply Forall_app. split; [eapply acked_mono; [|exact Ha]; lia|].
      constructor; [lia|done].
  - eexists. split; [reflexivity|]. split; [|done]. unfold outcome. cbn [fst snd outcome_ack option_list]. rewrite app_nil_r.
    split; cbn [set_client z_host z_log z_carrier z_dgrams z_broken z_client z_sender z_down z_sync z_acks z_up]; try done.
    exists (u :: us). split; [|done]. cbn [sent_chain]. split_and!; try done. by exists b, new.
Qed.

(** *** Sending *)

Lemma update_effects base (h h1 : HostScreen V) u :
  update_since blake3 base h = (h1, Some u) -> len (effects u) <= 1 `max` len (h_effect_log h1).
Proof.
  unfold update_since. destruct (cut blake3 h) as [h' i]. destruct (_ =? _); [done|]. intros [= <- H].
  destruct (last (h_cuts h')) as [c|]; [|done]. cbn in H. destruct (List.find _ _) as [b'|].
  - destruct (ok_of _) as [d|]; [|done]. injection H as <-. cbn [effects].
    enough (len (omap (fun x : N * Effect => if base <? x.1 then Some x.2 else None) (h_effect_log h')) <= len (h_effect_log h')) by lia.
    induction (h_effect_log h') as [|x l IH]; [done|]. cbn. destruct (base <? x.1); rewrite ?len_cons; lia.
  - destruct (ok_of _) as [bl|]; [|done]. cbn in H. destruct (ok_of _) as [d|]; [|done]. injection H as <-. cbn [effects].
    unfold len at 1. rewrite length_fmap. assert (length (option_list (h_last_title h')) <= 1)%nat by (destruct (h_last_title h'); cbn; lia).
    lia.
Qed.

(** A send that finds no more effects than an update may carry. *)
Definition few_effects (z : Sys) : bool := len (h_effect_log (cut blake3 (z_host z)).1) <=? MAX_EFFECTS.

(** What a send may do: nothing, or put the next update on the stream. *)
Definition sends (z : Sys) (a : Attempt V) : Prop :=
  let log := grown (z_host z) (a_host a) (z_log z) in
  (a_host a = z_host z \/ a_host a = (cut blake3 (z_host z)).1) /\ a_dgrams a = [] /\ n_force_full (a_sender a) = false /\
  (a_stream a = [] /\ n_last_sent_stream (a_sender a) = n_last_sent_stream (z_sender z) \/
   exists u, a_stream a = parts u /\ n_last_sent_stream (a_sender a) = new_num u /\
     (base_num u = n_last_sent_stream (z_sender z) \/ base_num u = 0) /\
     n_last_sent_stream (z_sender z) < new_num u /\ update_ok u /\ len (encode_update u) <= MAX_UPDATE_BYTES /\
     exists b new, genuine blake3 log u b new).

Lemma genuine_ok log u b new :
  genuine blake3 log u b new -> len log < 2 ^ 64 -> len (effects u) <= MAX_EFFECTS -> update_ok u.
Proof.
  intros Hg Hl He. destruct (genuine_header blake3 blake3_len _ _ _ _ Hg Hl) as (? & ? & ? & ?).
  destruct Hg as (_ & _ & Hlt & Hd & _ & _ & Hes & _). by split_and!.
Qed.

Lemma stream_sends z :
  Exact z -> few_effects z = true -> len (grown (z_host z) (cut blake3 (z_host z)).1 (z_log z)) < 2 ^ 64 ->
  let a := send_stream blake3 (y_acked (z_sync z)) [] (z_host z) (z_sender z) in
  sends z a /\ ((exists f, a_sent a = Err f) \/
    a_host a = (cut blake3 (z_host z)).1 /\
    n_last_sent_stream (a_sender a) = len (grown (z_host z) (a_host a) (z_log z))).
Proof.
  intros [HI Hc Hs Hh (us & Hch & Hin) [Hle Hff] [Hr Hk] Ha] Hfew Hl. apply sent_chain_le in Hch.
  unfold few_effects in Hfew. unfold send_stream. rewrite Hff, N.max_r by lia.
  destruct (update_since blake3 _ _) as [h1 o] eqn:E.
  destruct (update_spec blake3 _ _ (z_log z) h1 o HI E) as (-> & new & Hn & Hnh & Ho).
  destruct (grown_app (z_host z) (cut blake3 (z_host z)).1 (z_log z)) as [more Em].
  destruct o as [u|].
  - destruct Ho as (Hne & Hnum & Hb & b & Hg). pose proof (update_effects _ _ _ _ E) as Heff.
    assert (update_ok u) as Hok by (eapply genuine_ok; [exact Hg|done|unfold MAX_EFFECTS in *; lia]).
    destruct (N.ltb_spec MAX_UPDATE_BYTES (len (encode_update u))).
    + split; [|left; by eexists]. split_and!; cbn; [by right|done|done|by left].
    + split; [|by right]. split_and!; cbn; [by right|done|unfold after_full; rewrite Hff; by destruct (_ =? _)|].
      right. exists u. split_and!; try done; [|by exists b, new]. rewrite Hnum, Em in *. len_lia.
  - split; [|by right]. split_and!; cbn; [by right|done|done|by left].
Qed.

Lemma try_sends now force p z :
  Exact z -> few_effects z = true ->
  let a := try_send blake3 now force (z_carrier z) p (z_sync z) (z_host z) (z_sender z) in
  len (grown (z_host z) (a_host a) (z_log z)) < 2 ^ 64 ->
  sends z a /\ (force = true -> (exists f, a_sent a = Err f) \/
    a_host a = (cut blake3 (z_host z)).1 /\
    n_last_sent_stream (a_sender a) = len (grown (z_host z) (a_host a) (z_log z))).
Proof.
  intros HE Hfew. unfold try_send, datagram_usable. rewrite (proj1 (ex_carrier _ HE)). cbn [andb].
  rewrite andb_false_r. cbn [andb]. destruct (negb force && negb (has_room p)) eqn:Ebl; cbn [a_host]; intros Hl.
  - split; [|bools; intros ->; done]. split_and!; [by left|done|apply HE|by left].
  - assert (len (grown (z_host z) (cut blake3 (z_host z)).1 (z_log z)) < 2 ^ 64) as Hl'.
    { unfold send_stream in Hl. pose proof (update_since_host blake3
        (if n_force_full (z_sender z) then 0 else y_acked (z_sync z) `max` n_last_sent_stream (z_sender z)) (z_host z)) as E.
      destruct (update_since _ _ _) as [h1 [u|]]; cbn in E; subst h1; [|done]. by destruct (_ <? _). }
    destruct (stream_sends z HE Hfew Hl') as [Hs Hd]. by split.
Qed.

Lemma exact_send now force p z :
  Exact z -> few_effects z = true -> len (z_log (send blake3 now force p z)) < 2 ^ 64 ->
  Exact (send blake3 now force p z) /\
  (force = true -> z_fault (send blake3 now force p z) = None ->
   z_host (send blake3 now force p z) = (cut blake3 (z_host z)).1 /\
   n_last_sent_stream (z_sender (send blake3 now force p z)) = len (z_log (send blake3 now force p z))).
Proof.
  intros HE Hfew. pose proof (try_sends now force p z HE Hfew) as Ht. unfold send. set (a := try_send _ _ _ _ _ _ _ _) in *.
  cbn [z_log z_fault z_host z_sender] in *. intros Hl. destruct (Ht Hl) as [(Hh & Hdg & Hff & Hsd) Hforce].
  split; [|intros Hf; destruct (Hforce Hf) as [[f ->]|?]; by destruct (a_sent a)].
  destruct HE as [HI Hc Hs He (us & Hch & Hin) [Hle _] Hy Hk].
  destruct (grown_app (z_host z) (a_host a) (z_log z)) as [more E].
  split; cbn [z_host z_log z_carrier z_dgrams z_broken z_client z_sender z_down z_sync z_acks z_up]; try done.
  - destruct Hh as [-> | ->]; [by rewrite grown_same|by apply cut_inv].
  - rewrite Hdg, app_nil_r. done.
  - rewrite E. eapply Forall_impl; [exact He|]. intros x. apply nth_state_grow.
  - destruct Hsd as [[-> ->]|(u & -> & -> & Hb & Hlt & Hok & Hlen & Hg)].
    + exists us. rewrite app_nil_r, E. split; [by apply sent_chain_grow|done].
    + exists (us ++ [u]). split; [|by apply in_stream_snoc]. eapply sent_chain_snoc; [|done..].
      rewrite E. by apply sent_chain_grow.
  - split; [|done]. destruct Hsd as [[_ ->]|(u & _ & -> & _ & _ & _ & _ & b & new & Hg & _)]; [rewrite E; len_lia|].
    by apply nth_state_bound in Hg as [_ ?].
Qed.

(** *** Acknowledging *)

Lemma fold_acks_upto n l : acked_upto n l -> acked_upto n (fold_acks l).
Proof.
  intros H. unfold fold_acks. destruct (last l) as [x|] eqn:E; [|by constructor].
  assert (existsb (N.eqb 0) l = false) as ->.
  { apply not_true_iff_false. intros (y & Hy & E0)%existsb_exists. apply list_elem_of_In in Hy.
    unfold acked_upto in H. rewrite Forall_forall in H. specialize (H _ Hy). cbn in H. apply N.eqb_eq in E0. lia. }
  cbn. constructor; [|done]. apply last_Some_elem_of in E. unfold acked_upto in H. rewrite Forall_forall in H. by apply H.
Qed.

Lemma exact_set_pump s n dirty z :
  Exact z -> y_resync s = false -> y_acked s <= client_num (z_client z) ->
  n_last_sent_stream n = n_last_sent_stream (z_sender z) -> n_force_full n = false -> Exact (set_pump s n dirty z).
Proof.
  intros [HI Hc Hs Hh Hst [Hle Hff] Hy Ha] Hr Hk Hn Hf.
  split; cbn [set_pump z_host z_log z_carrier z_dgrams z_broken z_client z_sender z_down z_sync z_acks z_up]; try done;
    by rewrite Hn.
Qed.

(** What every send of a run finds. *)
Definition calm_step (z : Sys) (a : Action) : bool := match a with Send _ _ _ => few_effects z | _ => true end.
Fixpoint calm (z : Sys) (acts : list Action) : bool :=
  match acts with
  | [] => true
  | a :: acts' => calm_step z a && match step blake3 z a with Some z' => calm z' acts' | None => true end
  end.

Lemma exact_step z a z' :
  Exact z -> fits a -> calm_step z a = true -> step blake3 z a = Some z' -> len (z_log z') < 2 ^ 64 -> Exact z'.
Proof.
  intros HE Hf Hcalm Hs Hl. pose proof HE as [HI [Hc Hdg] _ _ _ [_ Hff] [Hr Hk] [Ha Hu]].
  destruct a as [data e|r c| | | |now rtt rt|now force p| |k|k| |k]; cbn [step] in Hs.
  - injection Hs as <-. apply exact_set_host; [|done].
    pose proof (feed_keeps blake3 data e (z_host z) (z_log z) Hf HI) as HI'.
    rewrite (grown_spec blake3 _ _ _ (z_log z)); [done|done|done|by left].
  - injection Hs as <-. apply exact_set_host; [|done].
    pose proof (resize_keeps blake3 r c (z_host z) (z_log z) HI) as HI'.
    rewrite (grown_spec blake3 _ _ _ (z_log z)); [done|done|done|by left].
  - injection Hs as <-. apply exact_set_host; [|done]. by apply cut_inv.
  - injection Hs as <-. by apply exact_set_pump.
  - by rewrite Hc in Hs.
  - destruct (z_fault z); [done|]. unfold pump_top in Hs. rewrite Hr in Hs. injection Hs as <-. by apply exact_set_pump.
  - destruct (z_fault z); [done|]. destruct (force || z_dirty z); [|done]. injection Hs as <-.
    by apply (exact_send now force p z).
  - destruct (z_down z) as [|p down] eqn:E; [done|].
    destruct (exact_recv z p down HE E) as (z1 & E1 & HE1 & _). cbn [step] in E1. rewrite E in E1. rewrite E1 in Hs.
    by injection Hs as <-.
  - by rewrite Hdg in Hs.
  - injection Hs as <-. destruct HE. split; try done. cbn [set_up z_acks z_up z_client]. split; [by apply Forall_drop|].
    apply Forall_app. split; [done|]. by apply fold_acks_upto, Forall_take.
  - destruct (z_up z) as [|a up] eqn:E; [done|]. injection Hs as <-. apply Forall_cons in Hu as [Hpos Hu].
    apply exact_set_pump; [destruct HE; by split| | |done|done]; cbn [set_up z_sync z_client]; unfold on_ack;
      rewrite (proj2 (N.eqb_neq a 0)) by lia; cbn; [done|lia].
  - destruct (z_up_dgrams z !! k); [|done]. by rewrite Hc in Hs.
Qed.

Lemma exact_run z acts z' :
  Exact z -> Forall fits acts -> calm z acts = true -> run blake3 z acts = Some z' -> len (z_log z') < 2 ^ 64 -> Exact z'.
Proof.
  intros HE Hf. revert z HE. induction Hf as [|a acts Ha _ IH]; intros z HE Hcalm Hr Hl; cbn [run calm] in *; [by simplify_eq|].
  apply andb_true_iff in Hcalm as [Hca Hcalm]. destruct (step blake3 z a) as [z1|] eqn:E; [|done].
  apply (IH z1); [|done..]. apply (exact_step z a); [done..|]. apply run_log_len in Hr. lia.
Qed.

(** The client reads all that is on the stream. *)
Lemma exact_drain z :
  Exact z -> exists z', run blake3 z (replicate (length (z_down z)) Recv) = Some z' /\ Exact z' /\ z_down z' = [] /\
    z_host z' = z_host z /\ z_log z' = z_log z /\ z_sender z' = z_sender z.
Proof.
  remember (z_down z) as down eqn:E. symmetry in E. revert z E. induction down as [|p down IH]; intros z E HE.
  - exists z. by rewrite E.
  - destruct (exact_recv z p down HE E) as (z1 & E1 & HE1 & Hd & Hh & Hl & Hn).
    destruct (IH z1 Hd HE1) as (z2 & E2 & HE2 & Hd2 & Hh2 & Hl2 & Hn2). exists z2. cbn [length replicate run].
    rewrite E1. split_and!; [exact E2|done|done|congruence..].
Qed.

Lemma in_stream_nil r us : in_stream r [] us -> us = [].
Proof.
  destruct us as [|u us]; [done|]. intros (j & Hj & _ & E). symmetry in E. apply app_eq_nil in E as [E _].
  apply (f_equal length) in E. rewrite length_drop in E. unfold parts_of, number_parts in E.
  rewrite length_imap in E. cbn [length] in E. lia.
Qed.

(** The client at the end of the stream, once the host has sent all it had. *)
Lemma exact_end z :
  Exact z -> z_down z = [] -> n_last_sent_stream (z_sender z) = len (z_log z) -> h_dirty (z_host z) = false ->
  exists s, client_state (z_client z) = Some s /\ client_num (z_client z) = len (z_log z) /\
    nth_state (z_log z) (len (z_log z)) = Some s /\ hash s = hash (snapshot (z_host z)).
Proof.
  intros [HI _ _ Hh (us & Hch & Hin) _ _ _] Hd Hn Hc. rewrite Hd in Hin. apply in_stream_nil in Hin as ->.
  cbn in Hch. destruct (clean_last blake3 _ _ HI Hc) as (t & Ht & Et). rewrite Hn in Hch. rewrite <- Hch in Ht.
  pose proof (nth_state_bound _ _ _ Ht) as [Hpos _].
  unfold client_num, client_state in *. destruct (last (s_history (z_client z))) as [[n s]|] eqn:E; [|cbn in Hpos; lia].
  cbn in *. apply last_Some_elem_of in E. unfold exact_history in Hh. rewrite Forall_forall in Hh. specialize (Hh _ E).
  cbn in Hh. exists s. rewrite <- Hch. split_and!; [done|done|done|congruence].
Qed.

(** C6: over the stream alone the client follows the host exactly.  However
    the session's output, its resizes, the sends, the reads and the
    acknowledgements interleave, the client reads every update, never asks
    for the full screen, and each screen it keeps is the host's state of that
    number, as long as no send finds more effects than an update may carry
    ([piled_effects_break_stream] shows what happens otherwise) and offsets and
    state numbers stay within 64 bits; once the stream is read to its end, the
    client is at the number that was sent last. *)
Theorem stream_exact r c hr hb acts z :
  Forall fits acts -> calm (attached (host_new r c hr hb) [] false) acts = true ->
  run blake3 (attached (host_new r c hr hb) [] false) acts = Some z -> len (z_log z) < 2 ^ 64 ->
  z_broken z = false /\ s_resyncs (z_client z) = 0 /\
  (forall n s, (n, s) ∈ s_history (z_client z) -> nth_state (z_log z) n = Some s) /\
  client_num (z_client z) <= n_last_sent_stream (z_sender z) <= len (z_log z) /\
  (z_down z = [] -> client_num (z_client z) = n_last_sent_stream (z_sender z)).
Proof.
  intros Hf Hcalm Hr Hl. destruct (exact_run _ _ _ (exact_start r c hr hb) Hf Hcalm Hr Hl)
    as [_ _ (Hb & Hrs & _) Hh (us & Hch & Hin) [Hle _] _ _].
  split_and!; [done|done| |by eapply sent_chain_le|done|].
  - unfold exact_history in Hh. rewrite Forall_forall in Hh. by intros n s H%Hh.
  - intros E. rewrite E in Hin. by apply in_stream_nil in Hin as ->.
Qed.

(** C25: over the stream the final screen arrives.  Take any run of an attach
    over the stream in which no send finds more effects than an update may
    carry, and offsets and state numbers stay within 64 bits.  When the host
    then sends the forced screen before an event, there are again no more
    effects than an update may carry, and the update is not too large, the client that reads the stream to its end
    shows the host's last state, which has the hash of what is on the
    emulator. *)
Theorem stream_converges r c hr hb acts z now p :
  Forall fits acts -> calm (attached (host_new r c hr hb) [] false) acts = true ->
  run blake3 (attached (host_new r c hr hb) [] false) acts = Some z ->
  few_effects z = true -> len (z_log (send blake3 now true p z)) < 2 ^ 64 ->
  z_fault (send blake3 now true p z) = None ->
  exists z' s, run blake3 (send blake3 now true p z) (replicate (length (z_down (send blake3 now true p z))) Recv) = Some z' /\
    z_down z' = [] /\ client_state (z_client z') = Some s /\
    nth_state (z_log z') (len (z_log z')) = Some s /\ z_host z' = (cut blake3 (z_host z)).1 /\
    hash s = hash (snapshot (z_host z')).
Proof.
  intros Hf Hcalm Hr Hfew Hl Hfault. cbn [send z_log] in Hl.
  assert (Exact z) as HE.
  { apply (exact_run _ _ _ (exact_start r c hr hb) Hf Hcalm Hr).
    destruct (grown_app (z_host z) (a_host (try_send blake3 now true (z_carrier z) p (z_sync z) (z_host z) (z_sender z))) (z_log z))
      as [more E]. rewrite E, len_app in Hl. lia. }
  destruct (exact_send now true p z HE Hfew Hl) as [HE1 H1]. destruct (H1 eq_refl Hfault) as [Hh1 Hn1].
  destruct (exact_drain _ HE1) as (z' & E' & HE' & Hd' & Hh' & Hl' & Hn').
  destruct (exact_end z' HE' Hd') as (s & Hs & _ & Hnth & Hsn); [congruence|rewrite Hh', Hh1; apply cut_clean|].
  exists z', s. split_and!; [exact E'|done|done|done|congruence|done].
Qed.

End Stream.

(** ** Effects that pile up *)

(** Two states with forty titles each between two sends of one client; the
    second is numbered for another client. *)
Definition titles_piled : list Action :=
  [Feed (replicate 40 x02 ++ [x61]) 41; Send 0 false by_stream; Recv;
   Feed (replicate 40 x02 ++ [x62]) 82; Peek; Feed (replicate 40 x02 ++ [x63]) 123; Wake; Send 0 false by_stream].

(** the host may send an update the client refuses.  What a state's
    effects number is bounded, what an update over several states carries is
    not: with eighty effects since the client's base the host makes and sends
    an update that the client's decoder rejects, and the attach ends. *)
Example piled_effects_break_stream :
  exists z z', run demo_blake3 (demo_start false) titles_piled = Some z /\ z_broken z = false /\ z_fault z = None /\
    step demo_blake3 z Recv = Some z' /\ z_broken z' = true.
Proof. eexists _, _. split; [vm_compute; reflexivity|]. split_and!; vm_compute; reflexivity. Qed.

(** ** Witnesses *)

Definition stream_demo : list Action :=
  [Feed [x61] 1; Send 0 false by_stream; Recv; Flush 1; Ack; Feed [x62] 2; Wake; Send 0 false by_stream; Feed [x63] 3].

Lemma stream_exact_witness :
  exists z, run demo_blake3 (demo_start false) stream_demo = Some z /\ z_broken z = false /\
    client_num (z_client z) <= n_last_sent_stream (z_sender z) <= len (z_log z).
Proof.
  destruct (run demo_blake3 (demo_start false) stream_demo) as [z|] eqn:E; [|exfalso; vm_compute in E; discriminate].
  exists z. split; [reflexivity|].
  destruct (stream_exact demo_blake3 demo_blake3_len 1 1 10 1000 stream_demo z) as (Hb & _ & _ & Hn & _);
    [repeat constructor|vm_compute; reflexivity|exact E|vm_compute in E; injection E as <-; reflexivity|].
  split; [exact Hb|exact Hn].
Defined.

Lemma stream_converges_witness :
  exists z z' s, run demo_blake3 (demo_start false) stream_demo = Some z /\
    run demo_blake3 (send demo_blake3 0 true by_stream z) [Recv; Recv] = Some z' /\
    client_state (z_client z') = Some s /\ hash demo_blake3 s = hash demo_blake3 (snapshot (z_host z')).
Proof.
  destruct (run demo_blake3 (demo_start false) stream_demo) as [z|] eqn:E; [|exfalso; vm_compute in E; discriminate].
  exists z. assert (replicate (length (z_down (send demo_blake3 0 true by_stream z))) Recv = [Recv; Recv]) as <-
    by (vm_compute in E; injection E as <-; vm_compute; reflexivity).
  destruct (stream_converges demo_blake3 demo_blake3_len 1 1 10 1000 stream_demo z 0 by_stream)
    as (z' & s & Hr & _ & Hs & _ & _ & Hh);
    [repeat constructor|vm_compute; reflexivity|exact E|vm_compute in E; injection E as <-; vm_compute; reflexivity..|].
  exists z', s. split; [reflexivity|]. split; [exact Hr|]. split; [exact Hs|exact Hh].
Defined.

End ScreenStream.
