(* ===== verification/FsPath.v ===== *)
(** * POSIX paths

    The part of [std::path] the program uses, on a POSIX host: the components
    of a path, building paths by [push], [join] and [pop], and comparing them.
    A path is its text; two paths are equal when their components are. *)

From S2P Require Import Prelude Text.

Module FsPath.
Import Text.

Definition slash : ascii := "/"%char.

Inductive Component := RootDir | CurDir | ParentDir | Normal (name : string).

#[global] Instance Component_eq_dec : EqDecision Component.
Proof. solve_decision. Defined.

#[global] Instance Normal_inj : Inj (=) (=) Normal.
Proof. by intros ?? [= ->]. Qed.

(** [Component::as_os_str] *)
Definition as_os_str (c : Component) : string :=
  match c with
  | RootDir => "/"
  | CurDir => "."
  | ParentDir => ".."
  | Normal name => name
  end.

(** A piece between separators; empty pieces and [.] are skipped. *)
Definition piece (w : string) : option Component :=
  if bool_decide (w = EmptyString) || bool_decide (w = "."%string) then None
  else if bool_decide (w = ".."%string) then Some ParentDir
  else Some (Normal w).

(** [Path::is_absolute] *)
Definition is_absolute (p : string) : bool := starts_with "/" p.

(** [Path::components]: a [.] counts only at the start of a relative path. *)
Definition components (p : string) : list Component :=
  if is_absolute p then RootDir :: omap piece (split slash p)
  else match split slash p with
       | w :: ws => if bool_decide (w = "."%string) then CurDir :: omap piece ws else omap piece (w :: ws)
       | [] => []
       end.

(** [Path::eq] *)
Definition path_eqb (p q : string) : bool := bool_decide (components p = components q).

(** [PathBuf::push] *)
Definition push (base p : string) : string :=
  if is_absolute p then p
  else if is_empty base || ends_with "/" base then base +:+ p
  else base +:+ String slash p.

(** [PathBuf::extend] *)
Definition extend (base : string) (ps : list string) : string := foldl push base ps.

Definition skipped (w : string) : bool := bool_decide (w = EmptyString) || bool_decide (w = "."%string).

Fixpoint drop_skipped (ws : list string) : list string :=
  match ws with
  | w :: ws' => if skipped w then drop_skipped ws' else ws
  | [] => []
  end.

(** The pieces before the last component, and whether there is one. *)
Definition before_last (ws : list string) : option (list string) :=
  match drop_skipped (rev ws) with
  | [] => None
  | _ :: r => Some (rev (drop_skipped r))
  end.

(** [Path::parent] *)
Definition parent (p : string) : option string :=
  if is_absolute p then
    (fun ws => String slash (join slash ws)) <$> before_last (tail (split slash p))
  else match split slash p with
  | w :: ws =>
      if bool_decide (w = "."%string) then
        match before_last ws with
        | None => Some EmptyString
        | Some ws => Some (join slash (w :: ws))
        end
      else join slash <$> before_last (w :: ws)
  | [] => None
  end.

(** [PathBuf::pop] *)
Definition pop (p : string) : string := default p (parent p).

(** [Path::file_name] *)
Definition file_name (p : string) : option string :=
  match last (components p) with
  | Some (Normal name) => Some name
  | _ => None
  end.

(** [std::path::absolute], in the working directory [cwd] (which the
    operating system may refuse to tell). *)
Definition absolute (cwd : option string) (p : string) : option string :=
  if is_empty p then None
  else
    let cs := match components p with CurDir :: cs => cs | cs => cs end in
    let start :=
      if is_absolute p then
        if starts_with "//" p && negb (starts_with "///" p) then Some ("//"%string, tail cs) else Some (EmptyString, cs)
      else (fun d => (d, cs)) <$> cwd in
    (fun '(base, cs) =>
       let q := extend base (as_os_str <$> cs) in
       if ends_with "/" p then push q EmptyString else q) <$> start.

(** ** Canonical paths *)

(** A name that is a component by itself. *)
Definition plain (w : string) : Prop :=
  w <> EmptyString /\ w <> "."%string /\ w <> ".."%string /\ contains slash w = false.

(** The absolute path of the names [ns]. *)
Definition render (ns : list string) : string := String slash (join slash ns).

(** [p] is absolute and free of [.], [..], repeated and trailing separators. *)
Definition canonical (p : string) : Prop := exists ns, p = render ns /\ Forall plain ns.

Lemma plain_piece w : plain w -> piece w = Some (Normal w).
Proof. intros (H1 & H2 & H3 & _). unfold piece. by rewrite !bool_decide_false. Qed.

Lemma plain_skipped w : plain w -> skipped w = false.
Proof. intros (H1 & H2 & _). unfold skipped. by rewrite !bool_decide_false. Qed.

Lemma split_render ns : Forall plain ns -> split slash (render ns) = EmptyString :: match ns with [] => [EmptyString] | _ => ns end.
Proof.
  intros Hns. unfold render. change (String slash (join slash ns)) with (EmptyString +:+ String slash (join slash ns)).
  rewrite split_app. cbn [split app]. destruct ns as [|n ns]; [done|]. rewrite split_join; [done|done|].
  eapply Forall_impl; [exact Hns|]. by intros w (_ & _ & _ & ?).
Qed.

Lemma is_absolute_render ns : is_absolute (render ns) = true.
Proof. done. Qed.

Lemma components_render ns : Forall plain ns -> components (render ns) = RootDir :: (Normal <$> ns).
Proof.
  intros Hns. unfold components. rewrite is_absolute_render, split_render by done. f_equal.
  destruct ns as [|n ns]; [done|]. change (omap piece (EmptyString :: n :: ns)) with (omap piece (n :: ns)).
  induction Hns as [|w ws Hw Hws IH]; [done|]. cbn [omap list_omap]. rewrite (plain_piece w Hw). cbn. f_equal. exact IH.
Qed.

Lemma join_snoc ns n : ns <> [] -> join slash (ns ++ [n]) = join slash ns +:+ String slash n.
Proof.
  induction ns as [|w ns IH]; [done|]. intros _. destruct ns as [|w' ns]; [done|].
  change (join slash ((w :: w' :: ns) ++ [n])) with (w +:+ String slash (join slash ((w' :: ns) ++ [n]))).
  rewrite IH by done. change (join slash (w :: w' :: ns)) with (w +:+ String slash (join slash (w' :: ns))).
  rewrite <- app_assoc_s. by rewrite app_cons.
Qed.

Lemma ends_with_join ns : ns <> [] -> Forall plain ns -> ends_with "/" (join slash ns) = false.
Proof.
  intros Hne Hns. destruct (ends_with "/" (join slash ns)) eqn:E; [|done]. exfalso.
  apply ends_with_spec in E as [r Hr].
  pose proof (split_join slash ns Hne) as Hs. rewrite Hr in Hs.
  change "/"%string with (String slash EmptyString) in Hs. rewrite split_app in Hs. cbn [split] in Hs.
  destruct (exists_last Hne) as (pre & w & ->).
  assert (Hp : Forall (fun w => contains slash w = false) (pre ++ [w])).
  { eapply Forall_impl; [exact Hns|]. by intros ? (_ & _ & _ & ?). }
  specialize (Hs Hp). apply app_inj_tail in Hs as [_ <-].
  apply Forall_app in Hns as [_ Hw]. apply Forall_cons in Hw as [(? & _) _]. done.
Qed.

Lemma ends_with_render ms : ms <> [] -> Forall plain ms -> ends_with "/" (render ms) = false.
Proof.
  intros Hne Hp. destruct (ends_with _ _) eqn:E; [|done]. exfalso.
  apply ends_with_spec in E as [r E]. pose proof (ends_with_join ms Hne Hp) as Hj. unfold render in E. destruct r as [|a r].
  - apply (f_equal (split slash)) in E. change (String slash (join slash ms)) with (render ms) in E.
    rewrite split_render in E by done. destruct ms as [|m ms]; [done|]. cbn in E. injection E as -> _.
    by apply Forall_cons in Hp as [(? & _) _].
  - rewrite app_cons in E. injection E as _ E. rewrite (proj2 (ends_with_spec _ _)) in Hj; [done|by exists r].
Qed.

Lemma render_app ms ks : ms <> [] -> ks <> [] -> render (ms ++ ks) = render ms +:+ String slash (join slash ks).
Proof.
  intros Hm Hk. unfold render. rewrite app_cons. f_equal. induction ms as [|m ms IH]; [done|].
  destruct ms as [|m' ms]; [by destruct ks|].
  change (join slash ((m :: m' :: ms) ++ ks)) with (m +:+ String slash (join slash ((m' :: ms) ++ ks))).
  rewrite IH by done. change (join slash (m :: m' :: ms)) with (m +:+ String slash (join slash (m' :: ms))).
  rewrite <- app_assoc_s. by rewrite app_cons.
Qed.

Lemma push_render ns n : Forall plain ns -> plain n -> push (render ns) n = render (ns ++ [n]).
Proof.
  intros Hns (Hn & _ & _ & Hc). unfold push. replace (is_absolute n) with false.
  2: { destruct n as [|a n]; [done|]. cbn [contains] in Hc. unfold is_absolute, starts_with. cbn [strip_prefix].
       apply orb_false_iff in Hc as [Ha _]. fold slash. by rewrite Ascii.eqb_sym, Ha. }
  destruct ns as [|w ns]; [done|]. rewrite (ends_with_render (w :: ns)), (render_app (w :: ns)) by done. done.
Qed.

Lemma drop_skipped_plain ws : Forall plain ws -> drop_skipped ws = ws.
Proof. intros [|w ws' Hw _]; [done|]. cbn. by rewrite plain_skipped. Qed.

Lemma parent_render ns n : Forall plain (ns ++ [n]) -> parent (render (ns ++ [n])) = Some (render ns).
Proof.
  intros H. unfold parent. rewrite is_absolute_render, split_render by done. cbn [tail].
  pose proof (Forall_app plain ns [n]) as Happ. apply Happ in H as [Hns Hn].
  replace (match ns ++ [n] with [] => _ | _ => _ end) with (ns ++ [n]) by by destruct ns.
  unfold before_last. rewrite rev_app_distr. cbn [rev app].
  rewrite drop_skipped_plain by (constructor; [by inversion Hn|by apply Forall_rev]).
  rewrite drop_skipped_plain by by apply Forall_rev. cbn. by rewrite rev_involutive.
Qed.

Lemma pop_render ns n : Forall plain (ns ++ [n]) -> pop (render (ns ++ [n])) = render ns.
Proof. intros H. unfold pop. by rewrite parent_render. Qed.

Lemma pop_root : pop (render []) = render [].
Proof. done. Qed.

Lemma extend_render ns ms : Forall plain ns -> Forall plain ms -> extend (render ns) ms = render (ns ++ ms).
Proof.
  intros Hns Hms. revert ns Hns. induction Hms as [|m ms Hm Hms IH]; intros ns Hns; [by rewrite app_nil_r|].
  unfold extend in *. cbn [foldl]. rewrite push_render, IH by (done || by apply Forall_app; auto). by rewrite <- app_assoc.
Qed.

Lemma file_name_render ns n : Forall plain (ns ++ [n]) -> file_name (render (ns ++ [n])) = Some n.
Proof.
  intros H. unfold file_name. rewrite components_render, fmap_app by done.
  change (RootDir :: ?a ++ ?b) with ((RootDir :: a) ++ b). by rewrite last_app.
Qed.

Lemma render_inj ns ms : Forall plain ns -> Forall plain ms -> render ns = render ms -> ns = ms.
Proof.
  intros Hns Hms E. apply (f_equal components) in E. rewrite !components_render in E by done.
  injection E as E. by apply (inj (fmap Normal)) in E.
Qed.

Lemma canonical_eq p q : canonical p -> canonical q -> components p = components q -> p = q.
Proof.
  intros (ns & -> & Hns) (ms & -> & Hms). rewrite !components_render by done. intros E.
  injection E as E. by apply (inj (fmap Normal)) in E as ->.
Qed.

Lemma piece_normal w c : piece w = Some c -> contains slash w = false ->
  c = ParentDir \/ exists n, c = Normal n /\ plain n.
Proof.
  unfold piece. intros H Hc. case_bool_decide as E1; [done|]. case_bool_decide as E2; [done|]. cbn in H.
  case_bool_decide as E3; injection H as <-; [by left|]. right. exists w. by repeat split.
Qed.

(** Every component but a leading root or [.] is [..] or a plain name. *)
Lemma components_plain p c :
  c ∈ components p -> c = RootDir \/ c = CurDir \/ c = ParentDir \/ exists n, c = Normal n /\ plain n.
Proof.
  assert (Hsub : forall ws, ws ⊆ split slash p -> c ∈ omap piece ws -> c = ParentDir \/ exists n, c = Normal n /\ plain n).
  { intros ws Hws (w & Hw & Hp)%list_elem_of_omap. apply (piece_normal w); [done|].
    pose proof (split_pieces slash p) as H. rewrite Forall_forall in H. apply H, Hws, Hw. }
  unfold components. destruct (is_absolute p).
  - intros [->|Hc]%elem_of_cons; [by left|]. apply Hsub in Hc; [tauto|done].
  - destruct (split slash p) as [|w ws] eqn:E; [by intros ?%elem_of_nil|].
    case_bool_decide; [intros [->|Hc]%elem_of_cons; [tauto|]|intros Hc]; apply Hsub in Hc; set_solver.
Qed.

End FsPath.
