(* ===== verification/FileGuard.v ===== *)
(** * The path judgement of remote file requests

    [FileGuard] models [crates/qsh-core/src/file/guard.rs] on a POSIX host:
    the shape check of a request path, normalization over [realpath], the
    protected set that no file request may reach, and the recheck of an open
    handle.  [realpath], the texts [to_string_lossy] and [to_lowercase] give,
    the working directory and the process's homes are parameters. *)

From stdpp Require Import pretty.
From S2P Require Import Prelude Text FsPath ScreenCodec.

Module FileGuard.
Import Text FsPath.

Definition PATH_MAX_BYTES : N := 4096.
Definition NAME_MAX_BYTES : N := 255.

(** ** Shape *)

Inductive FileOp := Read | List | Write | Mkdir.

(** [FileOp::creates] *)
Definition creates (op : FileOp) : bool := match op with Write | Mkdir => true | _ => false end.

(** The violations a POSIX host reports. *)
Inductive ShapeError :=
  | Empty | NotUtf8 | Nul | ShapeTooLong | TildeUser | NoHome | DotLastComponent | BadName.

Record ShapedPath := mkShaped { sp_absolute : string; must_be_dir : bool }.

Definition join_relative (home rest : string) : string :=
  if is_empty rest then home else push home rest.

(** The last piece that is not empty. *)
Definition last_segment (text : string) : option string :=
  last (List.filter (fun w => negb (is_empty w)) (split slash text)).

Definition shape_posix (text : string) (op : FileOp) (home : option string) : result ShapedPath ShapeError :=
  let last_seg := last_segment text in
  if creates op && (bool_decide (last_seg = Some "."%string) || bool_decide (last_seg = Some ".."%string))
  then Err DotLastComponent
  else
    let usable_home := match home with Some h => if is_absolute h then Ok h else Err NoHome | None => Err NoHome end in
    let? absolute :=
      if starts_with "/" text then Ok text
      else if bool_decide (text = "~"%string) then usable_home
      else match strip_prefix "~/" text with
           | Some rest => let? h := usable_home in Ok (join_relative h rest)
           | None => if starts_with "~" text then Err TildeUser
                     else let? h := usable_home in Ok (join_relative h text)
           end in
    if PATH_MAX_BYTES <? slen absolute then Err ShapeTooLong
    else Ok (mkShaped absolute (ends_with "/" text)).

Definition nul : ascii := Ascii.zero.

Definition is_utf8 (s : string) : bool := ScreenCodec.is_utf8 (String.list_byte_of_string s).

Definition shape_path (raw : string) (op : FileOp) (home : option string) : result ShapedPath ShapeError :=
  if is_empty raw then Err Empty
  else if PATH_MAX_BYTES <? slen raw then Err ShapeTooLong
  else if contains nul raw then Err Nul
  else if negb (is_utf8 raw) then Err NotUtf8
  else shape_posix raw op home.

Definition shape_name_if_dir (name : string) : result unit ShapeError :=
  if negb (is_empty name) && (slen name <=? NAME_MAX_BYTES) && is_utf8 name
     && negb (contains slash name) && negb (contains nul name)
     && negb (bool_decide (name = "."%string)) && negb (bool_decide (name = ".."%string))
  then Ok tt else Err BadName.

(** ** Normalization *)

Inductive ErrorKind := NotFound | OtherKind (kind : string).

#[global] Instance ErrorKind_eq_dec : EqDecision ErrorKind.
Proof. solve_decision. Defined.

Inductive NormalizeError := NotAbsolute | TooLong | Io (kind : ErrorKind).

(** The trait [Normalizer]. *)
Definition Normalizer := string -> result string NormalizeError.

Fixpoint fold_loop (base : string) (pending : list string) (rest : list Component) : string * list string :=
  match rest with
  | [] => (base, pending)
  | Normal name :: rest => fold_loop base (pending ++ [name]) rest
  | ParentDir :: rest =>
      match pending with
      | [] => fold_loop (pop base) [] rest
      | _ => fold_loop base (removelast pending) rest
      end
  | _ :: rest => fold_loop base pending rest
  end.

Definition fold_rest (base : string) (rest : list Component) : string :=
  let '(base, pending) := fold_loop base [] rest in extend base pending.

Definition is_step (c : Component) : bool :=
  match c with Normal _ | ParentDir => true | _ => false end.

Section Normalize.
(** [fs::canonicalize] *)
Variable realpath : string -> result string ErrorKind.

(** The prefix of [keep] components, from the longest down. *)
Fixpoint normalize_loop (parts : list Component) (keep : nat) : result string NormalizeError :=
  match realpath (extend "/" (as_os_str <$> take keep parts)) with
  | Ok base => Ok (fold_rest base (drop keep parts))
  | Err e =>
      match keep with
      | S keep => if bool_decide (e = NotFound) then normalize_loop parts keep else Err (Io e)
      | O => Err (Io e)
      end
  end.

Definition normalize_with (p : string) : result string NormalizeError :=
  if negb (is_absolute p) then Err NotAbsolute
  else if PATH_MAX_BYTES <? slen p then Err TooLong
  else
    let parts := List.filter is_step (components p) in
    normalize_loop parts (length parts).
End Normalize.

(** Fold [.] and [..] of an absolute path. *)
Definition lexical_clean (p : string) : string :=
  foldl (fun out c =>
    match c with
    | RootDir | Normal _ => push out (as_os_str c)
    | CurDir => out
    | ParentDir => pop out
    end) EmptyString (components p).

(** ** Comparison *)

(** [OsStr::to_string_lossy] and [str::to_lowercase]. *)
Class OsText := {
  to_string_lossy : string -> string;
  to_lowercase : string -> string;
}.

Section Compare.
Context `{OsText}.

Definition fold_case (name : string) : string := to_lowercase (to_string_lossy name).

Definition name_eq (a b : string) (fold : bool) : bool :=
  bool_decide (a = b) || (fold && bool_decide (fold_case a = fold_case b)).

Fixpoint all_match (root path : list Component) (fold : bool) : bool :=
  match root with
  | [] => true
  | r :: root =>
      match path with
      | p :: path => name_eq (as_os_str p) (as_os_str r) fold && all_match root path fold
      | [] => false
      end
  end.

Definition is_under (path root : string) (fold : bool) : bool :=
  all_match (components root) (components path) fold.

Definition path_within := is_under.

Definition same_path (a b : string) (fold : bool) : bool :=
  (len (components a) =? len (components b)) && is_under a b fold.

(** ** The protected set *)

Record AuditFiles := mkAuditFiles { af_dir : string; af_name : string; af_retain : N }.

Definition all_digits (s : string) : bool := forallb is_ascii_digit (String.list_ascii_of_string s).
Definition some_nonzero (s : string) : bool :=
  existsb (fun a => negb (Ascii.eqb a "0"%char)) (String.list_ascii_of_string s).

(** [AuditFiles::matches] *)
Definition audit_matches (a : AuditFiles) (canonical : string) (fold : bool) : bool :=
  match parent canonical, file_name canonical with
  | Some par, Some file =>
      if negb (same_path par (af_dir a) fold) then false
      else
        let file := to_string_lossy file in
        let name := to_string_lossy (af_name a) in
        let '(file, name) := if fold then (to_lowercase file, to_lowercase name) else (file, name) in
        if bool_decide (file = name) || bool_decide (file = name +:+ ".lock") then true
        else match strip_prefix (name +:+ ".") file with
             | Some n => negb (is_empty n) && all_digits n && some_nonzero n
             | None => false
             end
  | _, _ => false
  end.

Record ProtectedSet := mkProtected {
  ps_dirs : list string;
  ps_files : list string;
  ps_audit : list AuditFiles;
  ps_fold_case : bool;
}.

(** [ProtectedSet::denies] *)
Definition denies (s : ProtectedSet) (canonical : string) : bool :=
  existsb (fun d => is_under canonical d (ps_fold_case s)) (ps_dirs s)
  || existsb (fun f => same_path canonical f (ps_fold_case s)) (ps_files s)
  || existsb (fun a => audit_matches a canonical (ps_fold_case s)) (ps_audit s).

Inductive StatePathDenied := Unnormalizable (e : NormalizeError) | StateProtected.

(** [ProtectedSet::check_request] *)
Definition check_request (s : ProtectedSet) (normalizer : Normalizer) (p : string) : result string StatePathDenied :=
  let? canonical := map_err Unnormalizable (normalizer p) in
  if denies s canonical then Err StateProtected else Ok canonical.

(** What one path adds: its lexical form and, when it differs, its
    normalized form ([ProtectedSet::add_spellings]). *)
Definition spellings (cwd : option string) (normalizer : Normalizer) (p : string) : list string :=
  let absolute := default p (absolute cwd p) in
  let lexical := lexical_clean absolute in
  lexical :: match normalizer absolute with
             | Ok normal => if path_eqb normal lexical then [] else [normal]
             | Err _ => []
             end.

(** [if !set.contains(&spelling) { set.push(spelling) }] *)
Definition add_new (l : list string) (p : string) : list string :=
  if existsb (path_eqb p) l then l else l ++ [p].

(** The locations of one process ([config::Paths], [config::AuditConfig]). *)
Record Paths := mkPaths { config_dir : string; state_dir : string; runtime_dir : string }.
Definition identity_dir (p : Paths) : string := push (config_dir p) "identity".
Definition audit_log (p : Paths) : string := push (state_dir p) "audit.log".
Record AuditConfig := mkAuditConfig { ac_path : option string; ac_retain : option N }.
Definition audit_path (a : AuditConfig) (p : Paths) : string := default (audit_log p) (ac_path a).
Definition DEFAULT_RETAIN : N := 5.
Definition retain (a : AuditConfig) : N := default DEFAULT_RETAIN (ac_retain a).
Definition KEY_FILE : string := "device.key".

(** [default_runtime_dir] on Linux, for the effective user [uid]. *)
Definition default_runtime_dir (uid : N) : string := "/run/user/" +:+ pretty uid +:+ "/qsh".

(** The directories of [ProtectedSet::resolve]. *)
Definition state_dirs (paths : Paths) (homes : list string) (uid : N) : list string :=
  [config_dir paths; state_dir paths; runtime_dir paths]
  ++ mjoin ((fun h => [push h ".config/qsh"; push h ".local/state/qsh"]) <$> homes)
  ++ [default_runtime_dir uid].

(** [ProtectedSet::resolve] on Linux, where names are compared exactly. *)
Definition resolve (paths : Paths) (audit : AuditConfig) (homes : list string) (uid : N)
    (cwd : option string) (normalizer : Normalizer) : ProtectedSet :=
  let apath := audit_path audit paths in
  mkProtected
    (foldl add_new [] (mjoin (spellings cwd normalizer <$> state_dirs paths homes uid)))
    (foldl add_new [] (spellings cwd normalizer (push (identity_dir paths) KEY_FILE)
                       ++ spellings cwd normalizer apath))
    (match parent apath, file_name apath with
     | Some par, Some name => (fun d => mkAuditFiles d name (retain audit)) <$> spellings cwd normalizer par
     | _, _ => []
     end)
    false.

(** The homes of [ProtectedSet::for_process]. *)
Definition process_homes (serve_home env_home : option string) : list string :=
  let homes := option_list serve_home in
  match env_home with Some h => add_new homes h | None => homes end.

(** [ProtectedSet::for_process] *)
Definition for_process (paths : Paths) (audit : AuditConfig) (serve_home env_home : option string) (uid : N)
    (cwd : option string) (normalizer : Normalizer) : ProtectedSet :=
  resolve paths audit (process_homes serve_home env_home) uid cwd normalizer.

(** ** The open handle *)

Inductive HandleDenied := Protected | Reevaluation | Unresolvable (kind : ErrorKind).

Definition recheck_handle_path (resolved : result string ErrorKind) (s : ProtectedSet) (reevaluate : string -> bool)
    : result string HandleDenied :=
  let? path := map_err Unresolvable resolved in
  if denies s path then Err Protected
  else if negb (reevaluate path) then Err Reevaluation
  else Ok path.

End Compare.

(** ** Normalization gives canonical paths *)

Definition plain_steps (cs : list Component) : Prop :=
  Forall (fun c => c = ParentDir \/ exists n, c = Normal n /\ plain n) cs.

Lemma steps_of p : plain_steps (List.filter is_step (components p)).
Proof.
  unfold plain_steps. rewrite Forall_forall. intros c Hc. apply list_elem_of_In, filter_In in Hc as [Hc Hs].
  apply list_elem_of_In, components_plain in Hc as [->|[->|[->|(n & -> & Hn)]]]; [done..|by left|]. right. by exists n.
Qed.

Lemma fold_loop_canonical rest : forall ns pending,
  Forall plain ns -> Forall plain pending -> plain_steps rest ->
  exists ms pending', fold_loop (render ns) pending rest = (render ms, pending')
  /\ Forall plain ms /\ Forall plain pending' /\ ms `prefix_of` ns.
Proof.
  induction rest as [|c rest IH]; intros ns pending Hns Hp Hr; [by exists ns, pending|].
  apply Forall_cons in Hr as [[->|(n & -> & Hn)] Hr]; cbn [fold_loop].
  - destruct pending as [|x pending].
    + destruct ns as [|n ns _] using rev_ind; [rewrite pop_root; by apply IH|].
      rewrite pop_render by done. apply Forall_app in Hns as [Hns _].
      destruct (IH ns [] Hns Hp Hr) as (ms & p' & -> & ? & ? & ?). exists ms, p'.
      split; [done|]. split; [done|]. split; [done|]. by apply prefix_app_r.
    + apply IH; [done| |done]. destruct (exists_last (l:=x :: pending) ltac:(done)) as (l & y & E). rewrite E in *.
      rewrite removelast_last. by apply Forall_app in Hp as [? _].
  - apply IH; [done| |done]. apply Forall_app. auto.
Qed.

Lemma fold_rest_canonical base rest : canonical base -> plain_steps rest -> canonical (fold_rest base rest).
Proof.
  intros (ns & -> & Hns) Hr. unfold fold_rest.
  destruct (fold_loop_canonical rest ns [] Hns ltac:(done) Hr) as (ms & p & -> & Hms & Hp & _).
  exists (ms ++ p). rewrite extend_render by done. split; [done|]. by apply Forall_app.
Qed.

(** The missing names below the existing prefix are kept as they are. *)
Lemma fold_rest_names ns names :
  Forall plain ns -> Forall plain names -> fold_rest (render ns) (Normal <$> names) = render (ns ++ names).
Proof.
  intros Hns Hn. unfold fold_rest.
  assert (E : forall pending, fold_loop (render ns) pending (Normal <$> names) = (render ns, pending ++ names)).
  { clear Hn. induction names as [|n names IH]; intros pending; cbn; [by rewrite app_nil_r|].
    rewrite IH. by rewrite <- app_assoc. }
  rewrite E. by apply extend_render.
Qed.

Section NormalizeFacts.
Variable realpath : string -> result string ErrorKind.

(** The prefix of [keep] components. *)
Definition prefix_path (parts : list Component) (keep : nat) : string := extend "/" (as_os_str <$> take keep parts).

(** The result rests on the longest prefix that exists. *)
Lemma normalize_loop_spec parts keep q :
  normalize_loop realpath parts keep = Ok q ->
  exists k base, (k <= keep)%nat /\ realpath (prefix_path parts k) = Ok base /\ q = fold_rest base (drop k parts)
  /\ forall j, (k < j <= keep)%nat -> realpath (prefix_path parts j) = Err NotFound.
Proof.
  unfold prefix_path. induction keep as [|keep IH]; cbn [normalize_loop]; intros Hq.
  - destruct (realpath _) as [base|e] eqn:E; [|done]. injection Hq as <-. exists 0%nat, base.
    split; [done|]. split; [done|]. split; [done|]. intros j. lia.
  - destruct (realpath _) as [base|e] eqn:E.
    + injection Hq as <-. exists (S keep), base. split; [done|]. split; [done|]. split; [done|]. intros j. lia.
    + case_bool_decide as Ee; [subst e|done]. destruct (IH Hq) as (k & base & Hk & Hb & Hf & Hj).
      exists k, base. split; [lia|]. split; [done|]. split; [done|]. intros j Hjk.
      destruct (decide (j = S keep)) as [->|]; [done|]. apply Hj. lia.
Qed.

(** Only a failure other than a missing name, or a missing root, refuses. *)
Lemma normalize_loop_total parts keep :
  (forall k e, (k <= keep)%nat -> realpath (prefix_path parts k) = Err e -> e = NotFound /\ (0 < k)%nat) ->
  is_ok (normalize_loop realpath parts keep) = true.
Proof.
  unfold prefix_path. induction keep as [|keep IH]; intros H; cbn [normalize_loop];
    destruct (realpath _) as [base|e] eqn:E; try done; apply H in E as [-> ?]; try lia.
  rewrite bool_decide_true by done. apply IH. intros k e Hk. apply H. lia.
Qed.

End NormalizeFacts.

(** ** The protected set covers its trees *)

Section CompareFacts.
Context `{OsText}.

Lemma all_match_refl cs ds fold : all_match cs (cs ++ ds) fold = true.
Proof.
  induction cs as [|c cs IH]; [done|]. cbn. unfold name_eq. by rewrite bool_decide_true, IH.
Qed.

(** Without folding, a canonical path is under another exactly when the
    other's names come first. *)
Lemma is_under_render ns ms :
  Forall plain ns -> Forall plain ms ->
  is_under (render ns) (render ms) false = true <-> ms `prefix_of` ns.
Proof.
  intros Hns Hms. unfold is_under. rewrite !components_render by done. cbn [all_match].
  replace (name_eq _ _ false) with true by (unfold name_eq; by rewrite bool_decide_true). cbn [andb].
  clear Hns Hms. revert ns. induction ms as [|m ms IH]; intros ns; cbn; [split; [intros _; apply prefix_nil|done]|].
  destruct ns as [|n ns]; cbn; [split; [done|by intros ?%prefix_nil_not]|].
  rewrite andb_true_iff, IH. unfold name_eq. cbn [as_os_str]. rewrite orb_false_r, bool_decide_eq_true.
  split; [intros [-> Hp]; by apply prefix_cons|intros Hp].
  pose proof (prefix_cons_inv_1 _ _ _ _ Hp). apply prefix_cons_inv_2 in Hp. by subst.
Qed.

Lemma path_eqb_under p q r fold : path_eqb q r = true -> is_under p q fold = is_under p r fold.
Proof. unfold path_eqb, is_under. intros ->%bool_decide_eq_true. done. Qed.

(** Adding keeps a representative of every path. *)
Lemma add_new_in l p q : existsb (path_eqb q) l = true -> existsb (path_eqb q) (add_new l p) = true.
Proof. unfold add_new. destruct (existsb (path_eqb p) l); [done|]. rewrite existsb_app. by intros ->. Qed.

Lemma add_new_self l p : existsb (path_eqb p) (add_new l p) = true.
Proof.
  unfold add_new. destruct (existsb (path_eqb p) l) eqn:E; [done|]. rewrite existsb_app. cbn.
  unfold path_eqb at 2. rewrite bool_decide_true by done. by rewrite orb_true_r.
Qed.

Lemma foldl_add_new ps p : forall l,
  existsb (path_eqb p) l = true \/ p ∈ ps -> existsb (path_eqb p) (foldl add_new l ps) = true.
Proof.
  induction ps as [|q ps IH]; intros l Hp; cbn; [destruct Hp as [?|?%elem_of_nil]; done|].
  apply IH. destruct Hp as [Hl|[->|Hps]%elem_of_cons].
  - left. by apply add_new_in.
  - left. apply add_new_self.
  - by right.
Qed.

(** The normalized form of a path is represented among its spellings. *)
Lemma spellings_normal cwd normalizer p a q :
  absolute cwd p = Some a -> normalizer a = Ok q -> existsb (path_eqb q) (spellings cwd normalizer p) = true.
Proof.
  intros Ha Hq. unfold spellings. rewrite Ha. change (default p (Some a)) with a. cbv zeta. rewrite Hq.
  destruct (path_eqb q (lexical_clean a)) eqn:E; cbn [existsb]; rewrite E; [done|].
  unfold path_eqb at 1. by rewrite bool_decide_true.
Qed.

Lemma existsb_path l q : existsb (path_eqb q) l = true -> exists r, r ∈ l /\ path_eqb q r = true.
Proof. intros (r & Hr & He)%existsb_exists. exists r. split; [by apply list_elem_of_In|done]. Qed.

(** A path under the normalized form of a listed directory is denied. *)
Lemma resolve_denies paths audit homes uid cwd normalizer d a q p :
  d ∈ state_dirs paths homes uid ->
  absolute cwd d = Some a -> normalizer a = Ok q -> is_under p q false = true ->
  denies (resolve paths audit homes uid cwd normalizer) p = true.
Proof.
  intros Hd Ha Hq Hp. destruct (existsb_path _ _ (spellings_normal cwd normalizer d a q Ha Hq)) as (r & Hr & Er).
  unfold denies. apply orb_true_iff. left. apply orb_true_iff. left. cbn [ps_dirs ps_fold_case resolve].
  set (ds := state_dirs paths homes uid) in *.
  assert (He : existsb (path_eqb r) (foldl add_new [] (mjoin (spellings cwd normalizer <$> ds))) = true).
  { apply foldl_add_new. right. apply list_elem_of_join. exists (spellings cwd normalizer d).
    split; [done|]. apply list_elem_of_fmap. by exists d. }
  destruct (existsb_path _ _ He) as (t & Ht & Et). apply existsb_exists. exists t.
  split; [by apply list_elem_of_In|]. rewrite <- Hp. symmetry.
  rewrite (path_eqb_under p q r false Er). by apply path_eqb_under.
Qed.

End CompareFacts.

(** ** Properties *)

(** Normalization, over a [realpath] that answers with canonical paths,
    gives a canonical path; it rests on the longest prefix of the request that
    exists, and missing names after that prefix stay below where the prefix
    really is. *)
Theorem normalize_sound realpath p q :
  (forall x y, realpath x = Ok y -> canonical y) ->
  normalize_with realpath p = Ok q ->
  canonical q /\ exists k base, let parts := List.filter is_step (components p) in
  (k <= length parts)%nat /\ realpath (prefix_path parts k) = Ok base /\ q = fold_rest base (drop k parts)
  /\ (forall j, (k < j <= length parts)%nat -> realpath (prefix_path parts j) = Err NotFound)
  /\ (forall names, drop k parts = Normal <$> names -> exists ns, base = render ns /\ q = render (ns ++ names)).
Proof.
  intros Hreal. unfold normalize_with. destruct (negb _); [done|]. destruct (_ <? _); [done|]. intros Hq.
  pose proof (steps_of p) as Hsteps. set (parts := List.filter is_step (components p)) in *.
  apply normalize_loop_spec in Hq as (k & base & Hk & Hb & -> & Hj).
  pose proof (Hreal _ _ Hb) as Hbase. assert (Hdrop : plain_steps (drop k parts)) by by apply Forall_drop.
  split; [by apply fold_rest_canonical|]. exists k, base. split; [done|]. split; [done|]. split; [done|].
  split; [done|]. intros names Hn. destruct Hbase as (ns & -> & Hns). exists ns. split; [done|]. rewrite Hn in Hdrop |- *.
  apply fold_rest_names; [done|]. apply Forall_fmap in Hdrop. eapply Forall_impl; [exact Hdrop|].
  intros n [?|(m & [= ->] & ?)]; done.
Qed.

(** Whatever directory the process keeps its configuration, state or
    sockets in, wherever links take it, every canonical path at or below the
    place it normalizes to is in the protected set. *)
Theorem protected_tree_denied `{OsText} paths audit serve_home env_home uid cwd normalizer d a ns more :
  d ∈ state_dirs paths (process_homes serve_home env_home) uid ->
  absolute cwd d = Some a -> normalizer a = Ok (render ns) -> Forall plain ns -> Forall plain more ->
  denies (for_process paths audit serve_home env_home uid cwd normalizer) (render (ns ++ more)) = true.
Proof.
  intros Hd Ha Hq Hns Hmore. unfold for_process. apply (resolve_denies _ _ _ _ _ _ d a (render ns)); try done.
  apply is_under_render; [by apply Forall_app|done|]. by apply prefix_app_r.
Qed.

(** *** Examples *)

(** Names compared byte by byte, as on a host whose file names are ASCII. *)
Definition ascii_text : OsText := {| to_string_lossy := id; to_lowercase := id |}.

(** A small file system: [/srv], [/srv/share] (a link to [/data]), [/data],
    [/home/u] and its [.config/qsh] (a link to [/cfg]). *)
Definition demo_realpath (p : string) : result string ErrorKind :=
  if bool_decide (p ∈ ["/"; "/srv"; "/data"; "/home"; "/home/u"; "/home/u/.config"; "/cfg"]%string) then Ok p
  else if bool_decide (p = "/srv/share"%string) then Ok "/data"%string
  else if bool_decide (p = "/home/u/.config/qsh"%string) then Ok "/cfg"%string
  else Err NotFound.

Lemma demo_realpath_canonical x y : demo_realpath x = Ok y -> canonical y.
Proof.
  assert (Hc : forall ns, Forall plain ns -> canonical (render ns)) by (intros ns ?; by exists ns).
  unfold demo_realpath. case_bool_decide as E.
  - intros [= <-]. set_unfold in E. destruct_or? E; subst.
    + apply (Hc []). constructor.
    + apply (Hc ["srv"%string]). by repeat constructor.
    + apply (Hc ["data"%string]). by repeat constructor.
    + apply (Hc ["home"%string]). by repeat constructor.
    + apply (Hc ["home"; "u"]%string). by repeat constructor.
    + apply (Hc ["home"; "u"; ".config"]%string). by repeat constructor.
    + apply (Hc ["cfg"%string]). by repeat constructor.
  - repeat case_bool_decide; intros [= <-].
    + apply (Hc ["data"%string]). by repeat constructor.
    + apply (Hc ["cfg"%string]). by repeat constructor.
Qed.

Lemma normalize_sound_witness :
  normalize_with demo_realpath "/srv/share/new" = Ok "/data/new"%string /\ canonical "/data/new"%string.
Proof.
  assert (E : normalize_with demo_realpath "/srv/share/new" = Ok "/data/new"%string) by (vm_compute; reflexivity).
  split; [exact E|]. exact (proj1 (normalize_sound demo_realpath _ _ demo_realpath_canonical E)).
Defined.

(** After a missing name the fold is lexical, so a [..] can step back to a
    link that is then left unresolved: the result is not where the kernel
    would go, and normalizing it again gives another path. *)
Example normalize_not_idempotent :
  normalize_with demo_realpath "/srv/missing/../share/key" = Ok "/srv/share/key"%string
  /\ normalize_with demo_realpath "/srv/share/key" = Ok "/data/key"%string.
Proof. vm_compute. done. Qed.

(** What follows [~/] may itself be absolute, and then the home is lost. *)
Example tilde_slash_is_absolute :
  shape_path "~//etc/passwd" Read (Some "/home/u"%string) = Ok (mkShaped "/etc/passwd" false).
Proof. vm_compute. done. Qed.

Definition demo_paths : Paths := mkPaths "/home/u/.config/qsh" "/home/u/.local/state/qsh" "/run/user/1000/qsh".

Lemma protected_tree_denied_witness :
  @denies ascii_text (for_process demo_paths (mkAuditConfig None None) (Some "/home/u"%string) None 1000 None
                        (normalize_with demo_realpath)) "/cfg/trust.toml" = true.
Proof.
  apply (@protected_tree_denied ascii_text demo_paths (mkAuditConfig None None) (Some "/home/u"%string) None 1000 None
           (normalize_with demo_realpath) "/home/u/.config/qsh" "/home/u/.config/qsh" ["cfg"%string] ["trust.toml"%string]).
  - left.
  - vm_compute. reflexivity.
  - vm_compute. reflexivity.
  - by repeat constructor.
  - by repeat constructor.
Defined.

End FileGuard.
