(* ===== verification/Acl.v ===== *)
(** * The vocabulary of authorization

    [Acl] models the action vocabulary of [crates/qsh-core/src/acl/mod.rs],
    the role table and grant sets of [acl/roles.rs] with the roles of
    [trust/role.rs], the grants of a pin of [acl/pin_grants.rs] and the [paths]
    grammar of [acl/paths.rs], on a POSIX host. *)

From S2P Require Import Prelude Text FsPath FileGuard.

Module Acl.
Import Text.

(** ** Actions *)

Inductive Action :=
  | ExecRun | SessionOpen | SessionList | SessionAttach | SessionControl | HostReverse
  | ForwardLocal | ForwardRemote | ForwardSocks | FileRead | FileWrite | HostPunch.

#[global] Instance Action_eq_dec : EqDecision Action.
Proof. solve_decision. Defined.

(** [Action::ALL] *)
Definition ALL : list Action :=
  [ExecRun; SessionOpen; SessionList; SessionAttach; SessionControl; HostReverse;
   ForwardLocal; ForwardRemote; ForwardSocks; FileRead; FileWrite; HostPunch].

(** [Action::as_str] *)
Definition as_str (a : Action) : string :=
  match a with
  | ExecRun => "exec.run"
  | SessionOpen => "session.open"
  | SessionList => "session.list"
  | SessionAttach => "session.attach"
  | SessionControl => "session.control"
  | HostReverse => "host.reverse"
  | ForwardLocal => "forward.local"
  | ForwardRemote => "forward.remote"
  | ForwardSocks => "forward.socks"
  | FileRead => "file.read"
  | FileWrite => "file.write"
  | HostPunch => "host.punch"
  end.

(** [Action::is_always_denied], [Action::is_file] *)
Definition is_always_denied (a : Action) : bool := match a with ForwardSocks => true | _ => false end.
Definition is_file (a : Action) : bool := match a with FileRead | FileWrite => true | _ => false end.

(** [Action::from_str] *)
Definition action_from_str (s : string) : option Action :=
  List.find (fun a => bool_decide (as_str a = s)) ALL.

Inductive Decision := Allow | Deny.

#[global] Instance Decision_eq_dec : EqDecision Decision.
Proof. solve_decision. Defined.

(** ** Trust roles *)

Inductive TrustRole := Full | Exec | Tunnel | ReadOnly | Reverse | NoneRole.

#[global] Instance TrustRole_eq_dec : EqDecision TrustRole.
Proof. solve_decision. Defined.

Definition ALL_ROLES : list TrustRole := [Full; Exec; Tunnel; ReadOnly; Reverse; NoneRole].

(** [TrustRole::as_str] *)
Definition role_str (r : TrustRole) : string :=
  match r with
  | Full => "full"
  | Exec => "exec"
  | Tunnel => "tunnel"
  | ReadOnly => "read-only"
  | Reverse => "reverse"
  | NoneRole => "none"
  end.

(** [TrustRole::from_str] *)
Definition role_from_str (s : string) : option TrustRole :=
  List.find (fun r => bool_decide (role_str r = s)) ALL_ROLES.

(** [TrustRole::default_for_trust_add] *)
Definition default_for_trust_add (address_given : bool) : TrustRole :=
  if address_given then NoneRole else Full.

Inductive RoleScope := RAny | ROwned | NotApplicable.

#[global] Instance RoleScope_eq_dec : EqDecision RoleScope.
Proof. solve_decision. Defined.

Record RoleGrant := mkRoleGrant { rg_role : TrustRole; rg_actions : list Action; rg_scope : RoleScope }.

Definition ROLE_GRANTS : list RoleGrant :=
  [mkRoleGrant Full [ExecRun; SessionOpen; SessionList; SessionAttach; SessionControl; ForwardLocal;
                     ForwardRemote; FileRead; FileWrite; HostReverse; HostPunch] RAny;
   mkRoleGrant Exec [ExecRun; SessionOpen; SessionList; SessionAttach; SessionControl; HostPunch] RAny;
   mkRoleGrant Tunnel [ForwardLocal; ForwardRemote; HostPunch] ROwned;
   mkRoleGrant ReadOnly [SessionList; SessionAttach; HostPunch] RAny;
   mkRoleGrant Reverse [HostReverse; HostPunch] NotApplicable;
   mkRoleGrant NoneRole [] NotApplicable].

(** [role_grant]: the row of a role.  The source unwraps the search; the
    table has a row per role. *)
Definition role_grant (r : TrustRole) : RoleGrant :=
  default (mkRoleGrant NoneRole [] NotApplicable)
    (List.find (fun g => bool_decide (rg_role g = r)) ROLE_GRANTS).

(** ** Ownership scope *)

Inductive Scope := Owned | Any.

#[global] Instance Scope_eq_dec : EqDecision Scope.
Proof. solve_decision. Defined.

(** ** The [paths] grammar *)

Inductive PathStyle := Posix | Windows.

Inductive EntryError :=
  | NotAbsolute | Backslash | Nul | TooLong | EmptyComponent | DotComponent | TrailingSlash.

Definition dot_component (w : string) : bool :=
  bool_decide (w = "."%string) || bool_decide (w = ".."%string).

(** The loop over the components. *)
Fixpoint check_components (ws : list string) : result unit EntryError :=
  match ws with
  | [] => Ok tt
  | w :: ws => if is_empty w then Err EmptyComponent
               else if dot_component w then Err DotComponent
               else check_components ws
  end.

(** The part after the root, by style. *)
Definition entry_rest (entry : string) (style : PathStyle) : result string EntryError :=
  match style with
  | Posix => match strip_prefix "/" entry with Some rest => Ok rest | None => Err NotAbsolute end
  | Windows =>
      if contains (ascii_of_N 92) entry then Err Backslash
      else match entry with
           | String d (String c (String s rest)) =>
               if is_ascii_alphabetic d && Ascii.eqb c ":"%char && Ascii.eqb s "/"%char then Ok rest
               else Err NotAbsolute
           | _ => Err NotAbsolute
           end
  end.

Definition validate_entry (entry : string) (style : PathStyle) : result unit EntryError :=
  if FileGuard.PATH_MAX_BYTES <? slen entry then Err TooLong
  else if contains FileGuard.nul entry then Err Nul
  else
    let? rest := entry_rest entry style in
    if is_empty rest then Ok tt
    else if ends_with "/" rest then Err TrailingSlash
    else check_components (split "/"%char rest).

(** A request's canonical path and the normalizer that made it. *)
Record CanonicalPath := mkCanonicalPath { cp_path : string; cp_normalizer : FileGuard.Normalizer }.

Definition entries_cover `{FileGuard.OsText} (entries : list string) (request : CanonicalPath) : bool :=
  existsb (fun entry =>
    match cp_normalizer request entry with
    | Ok root => FileGuard.path_within (cp_path request) root false
    | Err _ => false
    end) entries.

(** ** The grants of a pin *)

Definition MAX_PIN_PATHS : N := 64.

Inductive PinGrantsError :=
  | Socks | UnknownAction | NoAction | FileGrantNeedsPaths | PathsWithoutFileGrant | TooManyPaths
  | BadPath (why : EntryError) | BadScope | OrphanKeys.

Record PinGrants := mkPinGrants { pg_actions : list Action; pg_paths : option (list string); pg_scope : Scope }.

Record PinGrantKeys := mkKeys { k_grants : option (list string); k_paths : option (list string); k_scope : option string }.

#[global] Instance PinGrantKeys_eq_dec : EqDecision PinGrantKeys.
Proof. solve_decision. Defined.

(** [PinGrantKeys::default] *)
Definition no_keys : PinGrantKeys := mkKeys None None None.

(** The actions one item of [expand_actions] picks. *)
Definition expand_item (item : string) : result (list Action) PinGrantsError :=
  match strip_suffix ".*" item with
  | Some stem =>
      if is_empty stem then Err UnknownAction
      else
        let family := List.filter (fun a => starts_with (stem +:+ ".") (as_str a)) ALL in
        match family with
        | [] => Err UnknownAction
        | _ => Ok (List.filter (fun a => negb (is_always_denied a)) family)
        end
  | None =>
      match action_from_str item with
      | None => Err UnknownAction
      | Some a => if is_always_denied a then Err Socks else Ok [a]
      end
  end.

Fixpoint expand_loop (raw : list string) (picked : list Action) : result (list Action) PinGrantsError :=
  match raw with
  | [] => Ok picked
  | item :: raw => let? more := expand_item item in expand_loop raw (picked ++ more)
  end.

(** The picked actions in [ALL] order. *)
Definition in_order (picked : list Action) : list Action :=
  List.filter (fun a => bool_decide (a ∈ picked)) ALL.

Definition expand_actions (raw : list string) : result (list Action) PinGrantsError :=
  match raw with
  | [] => Err NoAction
  | _ => let? picked := expand_loop raw [] in Ok (in_order picked)
  end.

Definition parse_scope (raw : string) : result Scope PinGrantsError :=
  if bool_decide (raw = "owned"%string) then Ok Owned
  else if bool_decide (raw = "any"%string) then Ok Any
  else Err BadScope.

Fixpoint clean_loop (raw out : list string) : result (list string) PinGrantsError :=
  match raw with
  | [] => Ok out
  | entry :: raw =>
      let? _ := map_err BadPath (validate_entry entry Posix) in
      clean_loop raw (if bool_decide (entry ∈ out) then out else out ++ [entry])
  end.

Definition clean_paths (raw : list string) : result (list string) PinGrantsError :=
  if MAX_PIN_PATHS <? len raw then Err TooManyPaths else clean_loop raw [].

Definition nonempty (l : list string) : bool := match l with [] => false | _ => true end.

(** [PinGrants::parse] *)
Definition pin_parse (grants paths : option (list string)) (scope : option string)
    : result (option PinGrants) PinGrantsError :=
  match grants with
  | Some (g :: gs) =>
      let? actions := expand_actions (g :: gs) in
      let has_file := existsb is_file actions in
      let? paths :=
        match has_file, paths with
        | true, Some raw => if nonempty raw then rmap Some (clean_paths raw) else Err FileGrantNeedsPaths
        | true, None => Err FileGrantNeedsPaths
        | false, Some raw => if nonempty raw then Err PathsWithoutFileGrant else Ok None
        | false, None => Ok None
        end in
      let? scope := match scope with Some w => parse_scope w | None => Ok Owned end in
      Ok (Some (mkPinGrants actions paths scope))
  | _ =>
      match paths, scope with
      | None, None => Ok None
      | _, _ => Err OrphanKeys
      end
  end.

(** [PinGrants::contains] *)
Definition pin_contains (g : PinGrants) (a : Action) : bool := bool_decide (a ∈ pg_actions g).

(** [PinGrants::keys] *)
Definition keys (g : PinGrants) : PinGrantKeys :=
  mkKeys (Some (as_str <$> pg_actions g)) (pg_paths g)
    (match pg_scope g with Owned => None | Any => Some "any"%string end).

(** [v.push(x)] unless it is there. *)
Definition push_new (l : list string) (x : string) : list string :=
  if bool_decide (x ∈ l) then l else l ++ [x].

(** [apply_allow]; [None] is the panic of its [expect]. *)
Definition apply_allow (current : PinGrantKeys) (actions paths : list string) (scope : option string)
    : result (option PinGrantKeys) PinGrantsError :=
  let? added := expand_actions actions in
  let? existing := pin_parse (k_grants current) (k_paths current) (k_scope current) in
  let names := match existing with Some g => as_str <$> pg_actions g | None => [] end in
  let names := foldl push_new names (as_str <$> added) in
  let merged := default [] (existing ≫= pg_paths) in
  let merged := foldl push_new merged paths in
  let scope := match scope with Some w => Some w | None => k_scope current end in
  let? g := pin_parse (Some names) (if nonempty merged then Some merged else None) scope in
  Ok (keys <$> g).

(** [apply_deny]; [None] is the panic of its [expect]. *)
Definition apply_deny (current : PinGrantKeys) (actions : list string)
    : result (option PinGrantKeys) PinGrantsError :=
  let? removed := expand_actions actions in
  let? existing := pin_parse (k_grants current) (k_paths current) (k_scope current) in
  match existing with
  | None => Ok (Some no_keys)
  | Some g =>
      let kept := as_str <$> List.filter (fun a => negb (bool_decide (a ∈ removed))) (pg_actions g) in
      match kept with
      | [] => Ok (Some no_keys)
      | _ =>
          let keeps_file := existsb (fun n => bool_decide (n = "file.read"%string)
                                              || bool_decide (n = "file.write"%string)) kept in
          let paths := if keeps_file then pg_paths g else None in
          let? g := pin_parse (Some kept) paths (k_scope current) in
          Ok (keys <$> g)
      end
  end.

Definition entry_within (parent child : string) : bool :=
  if bool_decide (parent = child) then true
  else match strip_prefix parent child with
       | Some rest => ends_with "/" parent || starts_with "/" rest
       | None => false
       end.

(** ** What a connection stands on *)

Record Standing := mkStanding { st_role : option TrustRole; st_pin : option PinGrants }.

(** [Standing::default] *)
Definition no_standing : Standing := mkStanding None None.

Record RoleGrants := mkGrants { entries : list (Action * RoleScope); file_paths : list (Action * list string) }.

(** [RoleGrants::empty] *)
Definition no_grants : RoleGrants := mkGrants [] [].

Definition of_role (r : option TrustRole) : RoleGrants :=
  match r with
  | None => no_grants
  | Some r => let row := role_grant r in mkGrants ((fun a => (a, rg_scope row)) <$> rg_actions row) []
  end.

(** [new] reaches everything [old] reached. *)
Definition scope_covers (new old : RoleScope) : bool :=
  bool_decide (new = RAny) || bool_decide (new = old).

(** Widen the axis of the first entry for [a]; [None] when there is none. *)
Fixpoint widen (a : Action) (axis : RoleScope) (es : list (Action * RoleScope)) : option (list (Action * RoleScope)) :=
  match es with
  | [] => None
  | (b, held) :: es =>
      if bool_decide (b = a) then Some ((b, if scope_covers held axis then held else axis) :: es)
      else cons (b, held) <$> widen a axis es
  end.

Definition merge_action (pin : PinGrants) (axis : RoleScope) (g : RoleGrants) (a : Action) : RoleGrants :=
  match widen a axis (entries g) with
  | Some es => mkGrants es (file_paths g)
  | None =>
      mkGrants (entries g ++ [(a, axis)])
        (if is_file a then file_paths g ++ [(a, default [] (pg_paths pin))] else file_paths g)
  end.

Definition of_standing (s : Standing) : RoleGrants :=
  match st_pin s with
  | None => of_role (st_role s)
  | Some pin =>
      let axis := match pg_scope pin with Owned => ROwned | Any => RAny end in
      foldl (merge_action pin axis) (of_role (st_role s)) (pg_actions pin)
  end.

Definition paths_of (g : RoleGrants) (a : Action) : option (list string) :=
  snd <$> List.find (fun e => bool_decide (fst e = a)) (file_paths g).

Definition grants_contain (g : RoleGrants) (a : Action) : bool :=
  existsb (fun e => bool_decide (fst e = a)) (entries g).

Definition restricted_to (actions : list Action) (g : RoleGrants) : RoleGrants :=
  mkGrants ((fun e => (fst e, NotApplicable)) <$> List.filter (fun e => bool_decide (fst e ∈ actions)) (entries g))
    (List.filter (fun e => bool_decide (fst e ∈ actions)) (file_paths g)).

Definition paths_cover (new old : option (list string)) : bool :=
  match new, old with
  | None, _ => true
  | Some _, None => false
  | Some new, Some old => forallb (fun entry => existsb (fun parent => entry_within parent entry) new) old
  end.

Definition covers (self recorded : RoleGrants) : bool :=
  forallb (fun '(a, old) =>
    existsb (fun '(b, new) => bool_decide (b = a) && scope_covers new old) (entries self)
    && paths_cover (paths_of self a) (paths_of recorded a)) (entries recorded).

Definition role_change_narrows (previous new : option string) : bool :=
  let grants := fun word => of_role (word ≫= role_from_str) in
  negb (covers (grants new) (grants previous)).

Definition ok_flat {A E} (r : result (option A) E) : option A := match r with Ok o => o | Err _ => None end.

Definition pin_grants_change_narrows (role : option string) (previous new : PinGrantKeys) : bool :=
  let role := role ≫= role_from_str in
  let standing := fun k => mkStanding role (ok_flat (pin_parse (k_grants k) (k_paths k) (k_scope k))) in
  negb (covers (of_standing (standing new)) (of_standing (standing previous))).

(** ** Facts: the actions *)

Lemma as_str_inj (a b : Action) : as_str a = as_str b -> a = b.
Proof. by destruct a, b. Qed.

#[global] Instance as_str_Inj : Inj (=) (=) as_str := as_str_inj.

Lemma action_from_str_spec s a : action_from_str s = Some a <-> as_str a = s.
Proof.
  unfold action_from_str. split.
  - intros [_ Hb]%find_some. by apply bool_decide_eq_true in Hb.
  - intros <-. by destruct a.
Qed.

Lemma elem_of_ALL a : a ∈ ALL.
Proof. destruct a; vm_compute; repeat constructor. Qed.

Lemma elem_in_order a l : a ∈ in_order l <-> a ∈ l.
Proof.
  unfold in_order. rewrite list_elem_of_In, filter_In, <- list_elem_of_In, bool_decide_eq_true.
  pose proof (elem_of_ALL a). tauto.
Qed.

Lemma in_order_ext l l' : (forall a, a ∈ l <-> a ∈ l') -> in_order l = in_order l'.
Proof. intros Hl. unfold in_order. apply filter_ext. intros a. by apply bool_decide_ext. Qed.

(** The one stem that selects [forward.socks]. *)
Lemma socks_stem stem : starts_with (stem +:+ ".") "forward.socks" = true -> stem = "forward"%string.
Proof.
  rewrite starts_with_spec. intros [rest E].
  do 13 (destruct stem as [|? stem]; [first [reflexivity | discriminate E]|rewrite !app_cons in E; injection E as ? E; subst]).
  by destruct stem.
Qed.

Definition grantable (l : list Action) : Prop := l <> [] /\ Forall (fun a => is_always_denied a = false) l.

Lemma expand_item_grantable item l : expand_item item = Ok l -> grantable l.
Proof.
  unfold expand_item, grantable. destruct (strip_suffix ".*" item) as [stem|].
  - destruct (is_empty stem); [done|]. destruct (List.filter _ ALL) as [|a l'] eqn:E; [done|]. remember (a :: l') as fam eqn:Ef.
    intros [= <-]. split.
    + intros Hnil.
      assert (Hall : forall b, b ∈ fam -> b = ForwardSocks).
      { intros b Hb. destruct (is_always_denied b) eqn:Ed; [by destruct b|].
        assert (Hin : b ∈ @nil Action); [|by apply elem_of_nil in Hin].
        rewrite <- Hnil. apply list_elem_of_In, filter_In. rewrite <- list_elem_of_In. split; [done|]. by rewrite Ed. }
      assert (Ha : ForwardSocks ∈ fam) by (rewrite <- (Hall a) at 1 by (subst; constructor); subst; constructor).
      rewrite <- E, list_elem_of_In, filter_In in Ha. destruct Ha as [_ ->%socks_stem].
      rewrite <- E in Hall. by specialize (Hall ForwardLocal ltac:(vm_compute; repeat constructor)).
    + apply List.Forall_forall. intros b [_ Hb]%filter_In. by destruct (is_always_denied b).
  - destruct (action_from_str item) as [a|]; [|done]. destruct (is_always_denied a) eqn:Ed; [done|].
    intros [= <-]. by repeat constructor.
Qed.

Lemma expand_loop_grantable raw picked l :
  Forall (fun a => is_always_denied a = false) picked -> picked ++ [] <> [] \/ raw <> [] ->
  expand_loop raw picked = Ok l -> grantable l.
Proof.
  revert picked. induction raw as [|item raw IH]; intros picked Hp Hne; cbn [expand_loop].
  { intros [= <-]. rewrite app_nil_r in Hne. destruct Hne as [?|?]; [|done]. done. }
  destruct (expand_item item) as [more|] eqn:E; [|done]. cbn [rbind]. apply expand_item_grantable in E as [Hm Hf].
  apply IH; [by apply Forall_app|]. left. rewrite app_nil_r. by destruct picked, more.
Qed.

Lemma grantable_in_order l : grantable l -> grantable (in_order l).
Proof.
  intros [Hne Hf]. split.
  - destruct l as [|a l]; [done|]. intros E. assert (Ha : a ∈ in_order (a :: l)) by (apply elem_in_order; constructor).
    rewrite E in Ha. by apply elem_of_nil in Ha.
  - apply Forall_forall. intros b Hb. rewrite elem_in_order in Hb. exact (proj1 (Forall_forall _ _) Hf b Hb).
Qed.

Lemma expand_actions_ok raw l : expand_actions raw = Ok l -> grantable l /\ in_order l = l.
Proof.
  unfold expand_actions. destruct raw as [|item raw]; [done|].
  destruct (expand_loop _ _) as [picked|] eqn:E; [|done]. intros [= <-].
  apply expand_loop_grantable in E; [|constructor|by right].
  split; [by apply grantable_in_order|]. apply in_order_ext. intros a. apply elem_in_order.
Qed.

Lemma expand_names acts picked :
  Forall (fun a => is_always_denied a = false) acts ->
  expand_loop (as_str <$> acts) picked = Ok (picked ++ acts).
Proof.
  intros Hf. revert picked. induction Hf as [|a acts Ha Hf IH]; intros picked; [by rewrite app_nil_r|].
  change (as_str <$> a :: acts) with (as_str a :: (as_str <$> acts)). cbn [expand_loop].
  assert (E : expand_item (as_str a) = Ok [a]) by (by destruct a). rewrite E. cbn [rbind].
  rewrite IH, <- app_assoc. done.
Qed.

Lemma expand_actions_names acts : grantable acts -> expand_actions (as_str <$> acts) = Ok (in_order acts).
Proof. intros [Hne Hf]. destruct acts as [|a acts]; [done|]. unfold expand_actions. by rewrite expand_names. Qed.

(** ** Facts: the grants of a pin *)

Lemma elem_push_all (l xs : list string) x : x ∈ foldl push_new l xs <-> x ∈ l \/ x ∈ xs.
Proof.
  revert l. induction xs as [|y xs IH]; intros l; cbn [foldl]; [set_solver|].
  rewrite IH. unfold push_new. case_bool_decide; set_solver.
Qed.

Lemma push_all_NoDup (l xs : list string) : NoDup l -> NoDup (foldl push_new l xs).
Proof.
  revert l. induction xs as [|y xs IH]; intros l Hl; cbn [foldl]; [done|]. apply IH.
  unfold push_new. case_bool_decide; [done|]. apply NoDup_app. split; [done|]. split; [set_solver|apply NoDup_singleton].
Qed.

Lemma push_all_id (l xs : list string) : NoDup (l ++ xs) -> foldl push_new l xs = l ++ xs.
Proof.
  revert l. induction xs as [|y xs IH]; intros l Hl; cbn [foldl]; [by rewrite app_nil_r|].
  assert (y ∉ l) by (apply NoDup_app in Hl as (_ & Hd & _); intros Hy; specialize (Hd y Hy); set_solver).
  unfold push_new at 2. rewrite bool_decide_false by done. rewrite (cons_middle y l xs) in Hl.
  rewrite app_assoc in Hl. rewrite IH by done. by rewrite <- app_assoc.
Qed.

Lemma push_names xs ys :
  exists zs, foldl push_new (as_str <$> xs) (as_str <$> ys) = as_str <$> zs /\ forall a, a ∈ zs <-> a ∈ xs \/ a ∈ ys.
Proof.
  revert xs. induction ys as [|y ys IH]; intros xs; [exists xs; set_solver|].
  change (as_str <$> y :: ys) with (as_str y :: (as_str <$> ys)). cbn [foldl]. unfold push_new at 2.
  case_bool_decide as Hy; rewrite (list_elem_of_fmap_inj as_str) in Hy.
  - destruct (IH xs) as (zs & E & Hzs). exists zs. split; [done|]. set_solver.
  - change [as_str y] with (as_str <$> [y]). rewrite <- fmap_app. destruct (IH (xs ++ [y])) as (zs & E & Hzs).
    exists zs. split; [done|]. set_solver.
Qed.

Definition valid (entry : string) : Prop := validate_entry entry Posix = Ok tt.

Lemma clean_loop_ok raw out l : clean_loop raw out = Ok l -> Forall valid raw /\ l = foldl push_new out raw.
Proof.
  revert out. induction raw as [|e raw IH]; intros out; cbn [clean_loop]; [by intros [= <-]|].
  destruct (validate_entry e Posix) as [[]|] eqn:E; [|done]. cbn [map_err rbind].
  intros [Hv ->]%IH. split; [by constructor|done].
Qed.

Lemma clean_loop_valid raw out : Forall valid raw -> clean_loop raw out = Ok (foldl push_new out raw).
Proof.
  intros Hv. revert out. induction Hv as [|e raw He Hv IH]; intros out; cbn [clean_loop]; [done|].
  rewrite He. cbn [map_err rbind]. apply IH.
Qed.

Lemma push_all_length (l xs : list string) : (length (foldl push_new l xs) <= length l + length xs)%nat.
Proof.
  revert l. induction xs as [|y xs IH]; intros l; cbn [foldl length]; [lia|]. etrans; [apply IH|].
  unfold push_new. case_bool_decide; [lia|]. rewrite length_app. cbn. lia.
Qed.

(** What the loader lets through: grantable actions in the order of the
    vocabulary, and path entries exactly when one of them is a file action. *)
Record pin_wf (g : PinGrants) : Prop := {
  wf_grantable : grantable (pg_actions g);
  wf_ordered : in_order (pg_actions g) = pg_actions g;
  wf_paths : match pg_paths g with
             | Some es => existsb is_file (pg_actions g) = true /\ es <> [] /\ len es <= MAX_PIN_PATHS
                          /\ Forall valid es /\ NoDup es
             | None => existsb is_file (pg_actions g) = false
             end;
}.

(** The scope an optional word sets. *)
Definition scope_word (w : option string) (s : Scope) : Prop :=
  match w with Some w => parse_scope w = Ok s | None => s = Owned end.

Lemma clean_paths_ok raw l :
  raw <> [] -> clean_paths raw = Ok l ->
  l = foldl push_new [] raw /\ l <> [] /\ len l <= MAX_PIN_PATHS /\ Forall valid l /\ NoDup l.
Proof.
  unfold clean_paths. destruct (MAX_PIN_PATHS <? len raw) eqn:Hc; [done|].
  intros Hne [Hv ->]%clean_loop_ok. repeat split.
  - destruct raw as [|e raw]; [done|]. intros E.
    assert (He : e ∈ foldl push_new [] (e :: raw)) by (apply elem_push_all; right; left).
    rewrite E in He. by apply elem_of_nil in He.
  - pose proof (push_all_length [] raw). unfold len in *. cbn [length] in *. lia.
  - apply Forall_forall. intros x Hx. rewrite elem_push_all in Hx.
    destruct Hx as [Hx|Hx]; [by apply elem_of_nil in Hx|exact (proj1 (Forall_forall _ _) Hv x Hx)].
  - apply push_all_NoDup. constructor.
Qed.

Lemma pin_parse_ok grants paths scope g :
  pin_parse grants paths scope = Ok (Some g) ->
  pin_wf g /\ scope_word scope (pg_scope g)
  /\ (exists names, grants = Some names /\ expand_actions names = Ok (pg_actions g))
  /\ default [] (pg_paths g) = foldl push_new [] (default [] paths).
Proof.
  unfold pin_parse. destruct grants as [[|n ns]|]; [by destruct paths, scope| |by destruct paths, scope].
  destruct (expand_actions (n :: ns)) as [acts|] eqn:Ea; [|done]. cbn [rbind].
  pose proof (expand_actions_ok _ _ Ea) as [Hg Ho].
  destruct (match existsb is_file acts with true => _ | false => _ end) as [ps|] eqn:Ep; [|done]. cbn [rbind].
  destruct (match scope with Some _ => _ | None => _ end) as [sc|] eqn:Es; [|done]. cbn [rbind]. intros [= <-].
  cbn [pg_scope pg_actions pg_paths].
  assert (Hs : scope_word scope sc) by (destruct scope; [done|by injection Es]).
  assert (Hp : default [] ps = foldl push_new [] (default [] paths)
               /\ pin_wf (mkPinGrants acts ps sc)); [|destruct Hp; eauto 10].
  destruct (existsb is_file acts) eqn:Ef, paths as [raw|]; try done.
  - destruct raw as [|e raw]; [done|]. cbn [nonempty] in Ep. destruct (clean_paths _) as [l|] eqn:El; [|done].
    injection Ep as <-. apply clean_paths_ok in El as (-> & ? & ? & ? & ?); [|done]. split; [done|]. by constructor.
  - destruct raw as [|e raw]; [|done]. injection Ep as <-. split; [done|]. by constructor.
  - injection Ep as <-. split; [done|]. by constructor.
Qed.

Lemma pin_parse_names acts es sc scope :
  grantable acts -> scope_word scope sc ->
  (if existsb is_file (in_order acts) then es <> [] /\ len es <= MAX_PIN_PATHS /\ Forall valid es /\ NoDup es
   else es = []) ->
  pin_parse (Some (as_str <$> acts)) (if nonempty es then Some es else None) scope
  = Ok (Some (mkPinGrants (in_order acts) (if nonempty es then Some es else None) sc)).
Proof.
  intros Hg Hs He. pose proof (expand_actions_names acts Hg) as Ea. unfold pin_parse.
  destruct acts as [|a acts]; [by destruct Hg|]. change (as_str <$> a :: acts) with (as_str a :: (as_str <$> acts)) in *.
  cbv beta iota. rewrite Ea. cbn [rbind].
  assert (Esc : match scope with Some w => parse_scope w | None => Ok Owned end = Ok sc)
    by (destruct scope; [done|by rewrite Hs]).
  destruct (existsb is_file (in_order (a :: acts))).
  - destruct He as (Hne & Hl & Hv & Hd). destruct es as [|e es]; [done|]. cbn [nonempty].
    unfold clean_paths. destruct (MAX_PIN_PATHS <? len (e :: es)) eqn:Hc; [lia|].
    rewrite clean_loop_valid by done. rewrite (push_all_id [] (e :: es)) by done. cbn [rbind rmap app].
    by rewrite Esc.
  - subst es. cbn [nonempty rbind]. by rewrite Esc.
Qed.

Lemma wf_paths_shape g :
  pin_wf g ->
  exists es, pg_paths g = (if nonempty es then Some es else None)
    /\ if existsb is_file (pg_actions g) then es <> [] /\ len es <= MAX_PIN_PATHS /\ Forall valid es /\ NoDup es
       else es = [].
Proof.
  intros [Hg Ho Hp]. destruct (pg_paths g) as [es|].
  - destruct Hp as (-> & Hne & ?). exists es. by destruct es.
  - rewrite Hp. by exists [].
Qed.

Lemma pin_parse_keys g : pin_wf g -> pin_parse (k_grants (keys g)) (k_paths (keys g)) (k_scope (keys g)) = Ok (Some g).
Proof.
  intros Hwf. destruct (wf_paths_shape g Hwf) as (es & Ep & Hes). destruct Hwf as [Hg Ho _].
  destruct g as [acts ps sc]. cbn [keys k_grants k_paths k_scope pg_actions pg_paths pg_scope] in *. subst ps.
  rewrite <- Ho in Hes. rewrite (pin_parse_names acts es sc _ Hg); [by rewrite Ho|by destruct sc|done].
Qed.

(** The grants of a pin survive the trust store: what parses never holds
    [forward.socks], lists its actions in vocabulary order, carries between 1
    and 64 valid, distinct path entries exactly when a file action is granted,
    and parsing the keys it is written as gives it back. *)
Theorem pin_keys_roundtrip grants paths scope g :
  pin_parse grants paths scope = Ok (Some g) ->
  pin_wf g /\ pin_contains g ForwardSocks = false
  /\ pin_parse (k_grants (keys g)) (k_paths (keys g)) (k_scope (keys g)) = Ok (Some g).
Proof.
  intros [Hwf _]%pin_parse_ok. split; [done|]. split; [|by apply pin_parse_keys].
  apply bool_decide_eq_false. intros Hin. destruct Hwf as [[_ Hf] _ _].
  discriminate (proj1 (Forall_forall _ _) Hf _ Hin).
Qed.

Lemma pin_keys_roundtrip_witness :
  pin_parse (Some ["file.*"; "exec.run"]%string) (Some ["/srv"; "/srv"]%string) (Some "owned"%string)
  = Ok (Some (mkPinGrants [ExecRun; FileRead; FileWrite] (Some ["/srv"%string]) Owned))
  /\ pin_parse (Some ["exec.run"; "file.read"; "file.write"]%string) (Some ["/srv"%string]) None
     = Ok (Some (mkPinGrants [ExecRun; FileRead; FileWrite] (Some ["/srv"%string]) Owned)).
Proof.
  assert (E : pin_parse (Some ["file.*"; "exec.run"]%string) (Some ["/srv"; "/srv"]%string) (Some "owned"%string)
              = Ok (Some (mkPinGrants [ExecRun; FileRead; FileWrite] (Some ["/srv"%string]) Owned)))
    by (vm_compute; reflexivity).
  split; [exact E|]. exact (proj2 (proj2 (pin_keys_roundtrip _ _ _ _ E))).
Defined.

Definition keys_parse (k : PinGrantKeys) : result (option PinGrants) PinGrantsError :=
  pin_parse (k_grants k) (k_paths k) (k_scope k).
Definition actions_of (g : option PinGrants) : list Action := default [] (pg_actions <$> g).
Definition entries_of (g : option PinGrants) : list string := default [] (g ≫= pg_paths).

Lemma pin_parse_some names paths scope g :
  names <> [] -> pin_parse (Some names) paths scope = Ok g -> exists g', g = Some g'.
Proof.
  intros Hne. destruct names as [|n ns]; [done|]. unfold pin_parse.
  destruct (expand_actions _); [|done]. cbn [rbind]. destruct (match existsb _ _ with true => _ | false => _ end); [|done].
  cbn [rbind]. destruct (match scope with Some _ => _ | None => _ end); [|done]. intros [= <-]. eauto.
Qed.

Lemma keys_parse_scope k g :
  keys_parse k = Ok g -> scope_word (k_scope k) (default Owned (pg_scope <$> g)).
Proof.
  destruct g as [g|]; [by intros (_ & ? & _)%pin_parse_ok|]. unfold keys_parse. destruct (k_grants k) as [[|n ns]|].
  - by destruct (k_paths k), (k_scope k).
  - intros [? [=]]%pin_parse_some. done.
  - by destruct (k_paths k), (k_scope k).
Qed.

Lemma keys_parse_wf k g : keys_parse k = Ok (Some g) -> pin_wf g.
Proof. by intros [? _]%pin_parse_ok. Qed.

Lemma entries_NoDup k old : keys_parse k = Ok old -> NoDup (entries_of old).
Proof.
  destruct old as [g|]; [|constructor]. intros [_ _ Hp]%keys_parse_wf. unfold entries_of. cbn.
  destruct (pg_paths g); [by destruct Hp as (_ & _ & _ & _ & ?)|constructor].
Qed.

Lemma default_nonempty (l : list string) : default [] (if nonempty l then Some l else None) = l.
Proof. by destruct l. Qed.

(** [qsh trust allow] adds exactly what it is given: when it succeeds, the
    keys it writes parse back to a pin that holds the actions it held and the
    ones named, the path entries it had and the ones given, and the scope named
    or, unsaid, the one it had; its [expect] does not fire. *)
Theorem apply_allow_exact current actions paths scope r :
  apply_allow current actions paths scope = Ok r ->
  exists k old g added,
    r = Some k /\ keys_parse current = Ok old /\ keys_parse k = Ok (Some g) /\ expand_actions actions = Ok added
    /\ (forall a, a ∈ pg_actions g <-> a ∈ actions_of old \/ a ∈ added)
    /\ (forall e, e ∈ default [] (pg_paths g) <-> e ∈ entries_of old \/ e ∈ paths)
    /\ match scope with
       | Some w => parse_scope w = Ok (pg_scope g)
       | None => pg_scope g = default Owned (pg_scope <$> old)
       end.
Proof.
  unfold apply_allow. destruct (expand_actions actions) as [added|] eqn:Ea; [|done]. cbn [rbind].
  fold (keys_parse current). destruct (keys_parse current) as [old|] eqn:Ec; [|done]. cbn [rbind]. cbv zeta.
  replace (match old with Some g => as_str <$> pg_actions g | None => [] end) with (as_str <$> actions_of old)
    by (by destruct old).
  destruct (push_names (actions_of old) added) as (zs & -> & Hzs). fold (entries_of old).
  set (merged := foldl push_new (entries_of old) paths).
  assert (Hg : grantable zs).
  { apply expand_actions_ok in Ea as [[Hne Hf] _]. split.
    - intros ->. destruct added as [|a added]; [done|]. apply (elem_of_nil a), Hzs. right. left.
    - apply Forall_forall. intros a [Ha|Ha]%Hzs; [|exact (proj1 (Forall_forall _ _) Hf a Ha)].
      destruct old as [g|]; [|by apply elem_of_nil in Ha]. apply keys_parse_wf in Ec as [[_ Hf'] _ _].
      exact (proj1 (Forall_forall _ _) Hf' a Ha). }
  destruct (pin_parse _ _ _) as [og|] eqn:Eg; [|done]. cbn [rbind]. intros [= <-].
  assert (Hnz : as_str <$> zs <> []) by (intros ->%fmap_nil_inv; by destruct Hg).
  destruct (pin_parse_some _ _ _ _ Hnz Eg) as [g ->].
  apply pin_parse_ok in Eg as (Hwf & Hs & (names & [= <-] & Hn) & Hp). rewrite default_nonempty in Hp.
  rewrite expand_actions_names in Hn by done. injection Hn as Hn.
  exists (keys g), old, g, added. split; [done|]. split; [done|]. split; [by apply pin_parse_keys|]. split; [done|].
  split; [|split].
  - intros a. rewrite <- Hn, elem_in_order. apply Hzs.
  - intros e. rewrite Hp, elem_push_all. unfold merged. rewrite elem_push_all. set_solver.
  - destruct scope as [w|]; [done|]. pose proof (keys_parse_scope _ _ Ec) as Hs'. unfold scope_word in *.
    destruct (k_scope current); congruence.
Qed.

Lemma apply_allow_exact_witness :
  apply_allow (mkKeys (Some ["exec.run"%string]) None (Some "any"%string)) ["file.read"%string] ["/srv"%string] None
  = Ok (Some (mkKeys (Some ["exec.run"; "file.read"]%string) (Some ["/srv"%string]) (Some "any"%string)))
  /\ exists g, keys_parse (mkKeys (Some ["exec.run"; "file.read"]%string) (Some ["/srv"%string]) (Some "any"%string))
               = Ok (Some g) /\ pg_scope g = Any.
Proof.
  assert (E : apply_allow (mkKeys (Some ["exec.run"%string]) None (Some "any"%string)) ["file.read"%string]
                ["/srv"%string] None
              = Ok (Some (mkKeys (Some ["exec.run"; "file.read"]%string) (Some ["/srv"%string]) (Some "any"%string))))
    by (vm_compute; reflexivity).
  split; [exact E|].
  destruct (apply_allow_exact _ _ _ _ _ E) as (k & old & g & added & [= <-] & Ho & Hg & _ & _ & _ & Hs).
  exists g. split; [exact Hg|]. rewrite Hs. vm_compute in Ho. injection Ho as <-. reflexivity.
Defined.

Lemma existsb_subset {A} (f : A -> bool) (l l' : list A) : l ⊆ l' -> existsb f l = true -> existsb f l' = true.
Proof.
  rewrite !existsb_exists. intros Hsub (x & Hx & Hf). exists x. rewrite <- list_elem_of_In in *. auto.
Qed.

Lemma keeps_file_names acts :
  existsb (fun n => bool_decide (n = "file.read"%string) || bool_decide (n = "file.write"%string)) (as_str <$> acts)
  = existsb is_file acts.
Proof.
  induction acts as [|a acts IH]; [done|]. cbn [fmap list_fmap existsb]. rewrite IH. f_equal. by destruct a.
Qed.

Lemma filter_in_order f acts : in_order acts = acts -> in_order (List.filter f acts) = List.filter f acts.
Proof.
  intros Ho. assert (E : List.filter f acts = List.filter f (in_order acts)) by (by rewrite Ho).
  rewrite E at 2. unfold in_order. generalize ALL as l. intros l. induction l as [|a l IH]; [done|].
  cbn [List.filter]. rewrite IH. destruct (bool_decide (a ∈ acts)) eqn:Ha.
  - apply bool_decide_eq_true in Ha. cbn [List.filter]. destruct (f a) eqn:Hf.
    + rewrite bool_decide_true; [done|]. apply list_elem_of_In, filter_In. by rewrite <- list_elem_of_In.
    + rewrite bool_decide_false; [done|]. rewrite list_elem_of_In, filter_In. intros [_ ?]. congruence.
  - apply bool_decide_eq_false in Ha. rewrite bool_decide_false; [done|].
    rewrite list_elem_of_In, filter_In, <- list_elem_of_In. tauto.
Qed.

(** [qsh trust deny] takes away exactly what it is given, and never
    refuses a pin that parses: when no action is left the keys are cleared,
    otherwise they parse back to a pin with the remaining actions, the same
    scope, and the path entries as long as a file action remains; its [expect]
    does not fire. *)
Theorem apply_deny_exact current actions removed old :
  expand_actions actions = Ok removed -> keys_parse current = Ok old ->
  exists k g, apply_deny current actions = Ok (Some k) /\ keys_parse k = Ok g
    /\ (forall a, a ∈ actions_of g <-> a ∈ actions_of old /\ a ∉ removed)
    /\ (g = None -> k = no_keys)
    /\ (forall g', g = Some g' -> Some (pg_scope g') = pg_scope <$> old
          /\ pg_paths g' = if existsb is_file (pg_actions g') then old ≫= pg_paths else None).
Proof.
  intros Er Ec. unfold apply_deny. rewrite Er. cbn [rbind]. fold (keys_parse current). rewrite Ec. cbn [rbind].
  destruct old as [g|]; [|exists no_keys, None; repeat split; set_solver].
  set (kept := List.filter _ _).
  assert (Hk : forall a, a ∈ kept <-> a ∈ pg_actions g /\ a ∉ removed).
  { intros a. unfold kept. rewrite list_elem_of_In, filter_In, <- list_elem_of_In, negb_true_iff, bool_decide_eq_false. done. }
  pose proof (keys_parse_wf _ _ Ec) as Hwf. pose proof (keys_parse_scope _ _ Ec) as Hs. cbn in Hs.
  assert (Hok : in_order kept = kept) by (apply filter_in_order, Hwf).
  destruct kept as [|a kept'] eqn:Ek; [exists no_keys, None; repeat split; set_solver|]. rewrite <- Ek in *.
  assert (Hg : grantable kept).
  { split; [by rewrite Ek|]. apply Forall_forall. intros b [Hb _]%Hk. destruct Hwf as [[_ Hf] _ _].
    exact (proj1 (Forall_forall _ _) Hf b Hb). }
  destruct (as_str <$> kept) as [|w ws] eqn:Ew; [by apply fmap_nil_inv in Ew as Ew'; rewrite Ew' in Hg; destruct Hg|].
  rewrite <- Ew, keeps_file_names. destruct (wf_paths_shape g Hwf) as (es & Ep & Hes).
  assert (Hsub : kept ⊆ pg_actions g) by (intros b Hb%Hk; tauto).
  set (es' := if existsb is_file kept then es else []).
  assert (Ep' : (if existsb is_file kept then pg_paths g else None) = if nonempty es' then Some es' else None).
  { unfold es'. by destruct (existsb is_file kept). }
  rewrite Ep', (pin_parse_names kept es' (pg_scope g) _ Hg Hs); cycle 1.
  { rewrite Hok. unfold es'. destruct (existsb is_file kept) eqn:Ef; [|done].
    by rewrite (existsb_subset _ _ _ Hsub Ef) in Hes. }
  cbn [rbind fmap option_fmap option_map]. rewrite <- Ep', Hok. eexists _, (Some (mkPinGrants kept _ (pg_scope g))).
  split; [done|]. split; [|split; [|split; [done|]]].
  - apply pin_parse_keys. split; [done|done|].
    cbn [pg_paths pg_actions]. pose proof (wf_paths g Hwf) as Hwp. destruct (existsb is_file kept) eqn:Ef; [|done].
    rewrite (existsb_subset _ _ _ Hsub Ef) in Hwp. by destruct (pg_paths g).
  - exact Hk.
  - by intros g' [= <-].
Qed.

Lemma apply_deny_exact_witness :
  apply_deny (mkKeys (Some ["exec.run"; "file.*"]%string) (Some ["/srv"%string]) None) ["file.*"%string]
  = Ok (Some (mkKeys (Some ["exec.run"%string]) None None))
  /\ exists g, keys_parse (mkKeys (Some ["exec.run"%string]) None None) = Ok g /\ FileRead ∉ actions_of g.
Proof.
  destruct (apply_deny_exact (mkKeys (Some ["exec.run"; "file.*"]%string) (Some ["/srv"%string]) None)
              ["file.*"%string] [FileRead; FileWrite]
              (Some (mkPinGrants [ExecRun; FileRead; FileWrite] (Some ["/srv"%string]) Owned))
              ltac:(vm_compute; reflexivity) ltac:(vm_compute; reflexivity)) as (k & g & Hk & Hg & Ha & _).
  assert (E : apply_deny (mkKeys (Some ["exec.run"; "file.*"]%string) (Some ["/srv"%string]) None) ["file.*"%string]
              = Ok (Some (mkKeys (Some ["exec.run"%string]) None None))) by (vm_compute; reflexivity).
  rewrite E in Hk. injection Hk as <-. split; [exact E|]. exists g. split; [exact Hg|].
  intros [_ Hn]%Ha. apply Hn. left.
Defined.

(** Every role has its row in the table. *)
Lemma role_grant_row r : role_grant r ∈ ROLE_GRANTS /\ rg_role (role_grant r) = r.
Proof. by destruct r; vm_compute; repeat constructor. Qed.

End Acl.
