(* ===== verification/Policy.v ===== *)
(** * The policy evaluator

    [Policy] models [crates/qsh-core/src/acl/policy.rs] (the one evaluator,
    [decide_standing]) and the rows as [acl/load.rs] accepts them, on a POSIX
    host.  The TOML decoder is outside the model: a file is its decoded rows.
    The interface [Authorizer] is the trait of [acl/mod.rs]; its
    implementations are the bare policy, [DenyAll] and, in [Trust], the
    authorizer that resolves the requester's standing first. *)

From S2P Require Import Prelude Text Identity FsPath FileGuard Acl.

Module Policy.
Import Text Identity Acl.

(** ** Rows *)

(** A family prefix, dot included. *)
Inductive ActionPattern := Exact (a : Action) | Prefix (prefix : string).

(** [ActionPattern::matches], [ActionPattern::render] *)
Definition pattern_matches (p : ActionPattern) (a : Action) : bool :=
  match p with
  | Exact b => bool_decide (b = a)
  | Prefix prefix => starts_with prefix (as_str a)
  end.
Definition pattern_render (p : ActionPattern) : string :=
  match p with
  | Exact a => as_str a
  | Prefix prefix => prefix +:+ "*"
  end.

Record Rule := mkRule {
  r_principal : string;
  r_auth_path : AuthPath;
  r_allow : list ActionPattern;
  r_scope : Scope;
  r_paths : option (list string);
}.

(** [Rule::names_file_action], [Rule::is_file_only] *)
Definition names_file_action (r : Rule) : bool :=
  existsb (fun p => existsb (fun a => is_file a && pattern_matches p a) ALL) (r_allow r).
Definition is_file_only (r : Rule) : bool :=
  forallb (fun p => forallb is_file (List.filter (pattern_matches p) ALL)) (r_allow r).

(** ** Loading *)

Definition MAX_RULES : N := 1024.
Definition MAX_PATTERNS_PER_RULE : N := 64.
Definition MAX_PRINCIPAL_LEN : N := 256.
Definition MAX_PATTERN_LEN : N := 128.
Definition MAX_PATHS_PER_RULE : N := 64.

Record RawRule := mkRawRule {
  raw_principal : string;
  raw_auth_path : option string;
  raw_allow : list string;
  raw_scope : option string;
  raw_paths : option (list string);
}.

(** Why a file is refused; the source puts each in words. *)
Inductive LoadError :=
  | TooManyRules | EmptyPrincipal | PrincipalTooLong | BadPrincipal | UnknownAuthPath | EmptyAllow
  | TooManyPatterns | PatternTooLong | UnknownPattern | UnknownScope | PathsNotFileOnly | EmptyPaths
  | TooManyEntries | BadEntry (why : EntryError).

Definition has_valid_principal_shape (p : string) : bool :=
  existsb (fun prefix => match strip_prefix prefix p with Some rest => negb (is_empty rest) | None => false end)
    ["user:"; "device:"; "fp:sha256:"]%string.

(** The text before the first dot. *)
Definition family (s : string) : string := match split "."%char s with w :: _ :: _ => w | _ => EmptyString end.

Definition parse_action_pattern (raw : string) : option ActionPattern :=
  match strip_suffix ".*" raw with
  | Some prefix =>
      if is_empty prefix then None
      else (fun a => Prefix (family (as_str a) +:+ ".")) <$> List.find (fun a => bool_decide (family (as_str a) = prefix)) ALL
  | None => Exact <$> action_from_str raw
  end.

Fixpoint parse_patterns (raw : list string) : result (list ActionPattern) LoadError :=
  match raw with
  | [] => Ok []
  | pattern :: raw =>
      if MAX_PATTERN_LEN <? slen pattern then Err PatternTooLong
      else match parse_action_pattern pattern with
           | None => Err UnknownPattern
           | Some p => rmap (cons p) (parse_patterns raw)
           end
  end.

Fixpoint check_entries (es : list string) : result unit LoadError :=
  match es with
  | [] => Ok tt
  | e :: es => let? _ := map_err BadEntry (validate_entry e Posix) in check_entries es
  end.

Definition parse_paths (rule : Rule) (raw : option (list string)) : result (option (list string)) LoadError :=
  match raw with
  | None => Ok None
  | Some es =>
      if negb (is_file_only rule) then Err PathsNotFileOnly
      else match es with
           | [] => Err EmptyPaths
           | _ => if MAX_PATHS_PER_RULE <? len es then Err TooManyEntries
                  else let? _ := check_entries es in Ok (Some es)
           end
  end.

Definition parse_rule (raw : RawRule) : result Rule LoadError :=
  if is_empty (raw_principal raw) then Err EmptyPrincipal
  else if MAX_PRINCIPAL_LEN <? slen (raw_principal raw) then Err PrincipalTooLong
  else if negb (has_valid_principal_shape (raw_principal raw)) then Err BadPrincipal
  else
    let? auth_path := match raw_auth_path raw with
                      | None => Ok Pin
                      | Some w => if bool_decide (w = "pin"%string) then Ok Pin
                                  else if bool_decide (w = "ca"%string) then Ok Ca
                                  else Err UnknownAuthPath
                      end in
    if negb (nonempty (raw_allow raw)) then Err EmptyAllow
    else if MAX_PATTERNS_PER_RULE <? len (raw_allow raw) then Err TooManyPatterns
    else
      let? allow := parse_patterns (raw_allow raw) in
      let? scope := match raw_scope raw with
                    | None => Ok Owned
                    | Some w => if bool_decide (w = "owned"%string) then Ok Owned
                                else if bool_decide (w = "any"%string) then Ok Any
                                else Err UnknownScope
                    end in
      let rule := mkRule (raw_principal raw) auth_path allow scope None in
      let? paths := parse_paths rule (raw_paths raw) in
      Ok (mkRule (raw_principal raw) auth_path allow scope paths).

Fixpoint parse_rules (raw : list RawRule) : result (list Rule) LoadError :=
  match raw with
  | [] => Ok []
  | r :: raw => let? rule := parse_rule r in rmap (cons rule) (parse_rules raw)
  end.

(** [load::parse], after the TOML decoder. *)
Definition parse (raw : list RawRule) : result (list Rule) LoadError :=
  if MAX_RULES <? len raw then Err TooManyRules else parse_rules raw.

(** ** Verdicts *)

Record Verdict := mkVerdict {
  v_decision : Decision;
  v_rule : option N;
  v_role : option TrustRole;
  v_pin_grant : bool;
}.

#[global] Instance Verdict_eq_dec : EqDecision Verdict.
Proof. solve_decision. Defined.

Definition DENY : Verdict := mkVerdict Deny None None false.
Definition ALLOW_UNBASED : Verdict := mkVerdict Allow None None false.

Definition is_allow (v : Verdict) : bool := match v_decision v with Allow => true | Deny => false end.

Inductive GrantBasis := RuleBasis (index : N) | RoleBasis (r : TrustRole) | PinGrant.

(** [Verdict::granted_by] *)
Definition granted_by (v : Verdict) : option GrantBasis :=
  if negb (is_allow v) then None
  else match v_role v, v_pin_grant v, v_rule v with
       | Some role, _, _ => Some (RoleBasis role)
       | None, true, _ => Some PinGrant
       | None, false, Some index => Some (RuleBasis index)
       | None, false, None => None
       end.

(** [ResourceRef] *)
Record ResourceRef := mkResource { res_id : string; res_owner : option string; res_path : option CanonicalPath }.
Definition unowned (id : string) : ResourceRef := mkResource id None None.
Definition with_canonical_path (r : ResourceRef) (p : string) (n : FileGuard.Normalizer) : ResourceRef :=
  mkResource (res_id r) (res_owner r) (Some (mkCanonicalPath p n)).

Record Requester := mkRequester {
  q_principal : Principal;
  q_auth_path : AuthPath;
  q_fingerprint : option Fingerprint;
}.

(** ** The evaluator *)

Definition Rules := list Rule.

Section Evaluate.
Context `{Base64} `{FileGuard.OsText}.

Definition rule_selects (r : Rule) (principal : string) (a : AuthPath) : bool :=
  bool_decide (r_principal r = principal) && bool_decide (r_auth_path r = a).

Definition rule_covers (r : Rule) (action : Action) : bool :=
  existsb (fun p => pattern_matches p action) (r_allow r).

Definition rule_covers_path (r : Rule) (res : ResourceRef) : bool :=
  match r_paths r, res_path res with
  | Some es, Some request => entries_cover es request
  | _, _ => false
  end.

Definition is_device (p : Principal) : bool := match p with Device _ => true | _ => false end.

Definition role_covers (p : Principal) (a : AuthPath) (role : TrustRole) (action : Action) : bool :=
  bool_decide (a = Pin) && is_device p && bool_decide (action ∈ rg_actions (role_grant role)).

Definition pin_covers (p : Principal) (a : AuthPath) (pin : PinGrants) (action : Action) : bool :=
  bool_decide (a = Pin) && is_device p && negb (is_always_denied action) && pin_contains pin action.

Definition pin_covers_path (pin : PinGrants) (res : ResourceRef) : bool :=
  match pg_paths pin, res_path res with
  | Some es, Some request => entries_cover es request
  | _, _ => false
  end.

(** A scope against the owner of the resource. *)
Definition scope_ok (s : Scope) (p : Principal) (a : AuthPath) (res : ResourceRef) : bool :=
  match s, res_owner res with
  | Any, _ | Owned, None => true
  | Owned, Some owner => bool_decide (owner = opener_key p a)
  end.
Definition role_scope_ok (s : RoleScope) (p : Principal) (a : AuthPath) (res : ResourceRef) : bool :=
  match s, res_owner res with
  | ROwned, Some owner => bool_decide (owner = opener_key p a)
  | ROwned, None | RAny, _ | NotApplicable, _ => true
  end.

(** The rows from index [i] on. *)
Fixpoint first_match (rules : Rules) (i : N) (p : Principal) (a : AuthPath) (action : Action) (res : ResourceRef)
    : Verdict :=
  match rules with
  | [] => DENY
  | r :: rules =>
      if negb (rule_selects r (principal_display p) a) then first_match rules (i + 1) p a action res
      else if negb (rule_covers r action) then first_match rules (i + 1) p a action res
      else if is_file action && negb (rule_covers_path r res) then first_match rules (i + 1) p a action res
      else if negb (scope_ok (r_scope r) p a res) then first_match rules (i + 1) p a action res
      else mkVerdict Allow (Some i) None false
  end.

(** The role stage, the pin grant stage. *)
Definition role_stage (s : Standing) (p : Principal) (a : AuthPath) (action : Action) (res : ResourceRef)
    : option Verdict :=
  match st_role s with
  | Some role =>
      if role_covers p a role action && role_scope_ok (rg_scope (role_grant role)) p a res
      then Some (mkVerdict Allow None (Some role) false) else None
  | None => None
  end.
Definition pin_stage (s : Standing) (p : Principal) (a : AuthPath) (action : Action) (res : ResourceRef)
    : option Verdict :=
  match st_pin s with
  | Some pin =>
      if pin_covers p a pin action && (scope_ok (pg_scope pin) p a res
                                       && (negb (is_file action) || pin_covers_path pin res))
      then Some (mkVerdict Allow None None true) else None
  | None => None
  end.

Definition decide_standing (rules : Rules) (p : Principal) (a : AuthPath) (s : Standing) (action : Action)
    (res : ResourceRef) : Verdict :=
  if is_always_denied action then DENY
  else match role_stage s p a action res with
       | Some v => v
       | None =>
           match pin_stage s p a action res with
           | Some v => v
           | None => first_match rules 0 p a action res
           end
       end.

Definition file_grant_basis (rules : Rules) (p : Principal) (a : AuthPath) (s : Standing) (action : Action) : bool :=
  if match st_role s with Some role => role_covers p a role action | None => false end then true
  else if match st_pin s with Some pin => pin_covers p a pin action | None => false end then true
  else existsb (fun r => rule_selects r (principal_display p) a && rule_covers r action
                         && match r_paths r with Some _ => true | None => false end) rules.

Definition effective_actions (rules : Rules) (p : Principal) (a : AuthPath) (s : Standing) : list Action :=
  List.filter (fun action =>
    if is_file action then file_grant_basis rules p a s action
    else is_allow (decide_standing rules p a s action (unowned EmptyString))) ALL.

(** [Policy::matching_rules]: the indices of the rows. *)
Fixpoint matching_from (rules : Rules) (i : N) (p : Principal) (a : AuthPath) : list (N * Rule) :=
  match rules with
  | [] => []
  | r :: rules =>
      let rest := matching_from rules (i + 1) p a in
      if rule_selects r (principal_display p) a && existsb (rule_covers r) ALL then (i, r) :: rest else rest
  end.
Definition matching_rules (rules : Rules) (p : Principal) (a : AuthPath) : list (N * Rule) :=
  matching_from rules 0 p a.

End Evaluate.

(** ** The interface *)

(** The trait [Authorizer], over the state [St] its answer is read from. *)
Class Authorizer (Self St : Type) := {
  check : Self -> Requester -> Action -> ResourceRef -> St -> St * Verdict;
  has_file_grant : Self -> Requester -> Action -> St -> St * bool;
}.

(** [AllowAllPinned], [DenyAll] *)
Inductive AllowAllPinned := mkAllowAllPinned.
Inductive DenyAll := mkDenyAll.

#[global] Instance AllowAllPinned_authorizer `{Base64} {St} : Authorizer AllowAllPinned St := {
  check _ q _ res s :=
    let pinned := bool_decide (q_auth_path q = Pin) in
    let owned := match res_owner res with
                 | Some owner => bool_decide (owner = opener_key (q_principal q) (q_auth_path q))
                 | None => true
                 end in
    (s, if pinned && owned then ALLOW_UNBASED else DENY);
  has_file_grant _ _ _ s := (s, true);
}.

#[global] Instance DenyAll_authorizer {St} : Authorizer DenyAll St := {
  check _ _ _ _ s := (s, DENY);
  has_file_grant _ _ _ s := (s, false);
}.

#[global] Instance Policy_authorizer `{Base64} `{FileGuard.OsText} {St} : Authorizer Rules St := {
  check rules q action res s := (s, decide_standing rules (q_principal q) (q_auth_path q) no_standing action res);
  has_file_grant rules q action s := (s, file_grant_basis rules (q_principal q) (q_auth_path q) no_standing action);
}.

(** ** What grants *)

Section Facts.
Context `{Base64} `{FileGuard.OsText}.
Implicit Types (p : Principal) (a : AuthPath) (s : Standing) (res : ResourceRef).

(** The resource is the requester's own, if it is anyone's. *)
Definition own p a res : Prop := forall owner, res_owner res = Some owner -> owner = opener_key p a.

(** One of the entries contains the canonical path of the request. *)
Definition within (es : option (list string)) res : Prop :=
  exists l request entry root, es = Some l /\ res_path res = Some request /\ entry ∈ l
  /\ cp_normalizer request entry = Ok root /\ FileGuard.path_within (cp_path request) root false = true.

Definition role_ok s p a (action : Action) res : Prop :=
  exists role name, st_role s = Some role /\ a = Pin /\ p = Device name
  /\ action ∈ rg_actions (role_grant role) /\ (rg_scope (role_grant role) = ROwned -> own p a res).

Definition pin_ok s p a (action : Action) res : Prop :=
  exists pin name, st_pin s = Some pin /\ a = Pin /\ p = Device name /\ action ∈ pg_actions pin
  /\ (pg_scope pin = Owned -> own p a res) /\ (is_file action = true -> within (pg_paths pin) res).

Definition row_ok (r : Rule) p a (action : Action) res : Prop :=
  r_principal r = principal_display p /\ r_auth_path r = a
  /\ (exists pattern, pattern ∈ r_allow r /\ pattern_matches pattern action = true)
  /\ (is_file action = true -> within (r_paths r) res) /\ (r_scope r = Owned -> own p a res).

Lemma scope_ok_spec sc p a res : scope_ok sc p a res = true <-> (sc = Owned -> own p a res).
Proof.
  unfold scope_ok, own. destruct sc; [|by split]. destruct (res_owner res) as [o|].
  - rewrite bool_decide_eq_true. split; [by intros -> _ ? [= ->]|auto].
  - by split.
Qed.

Lemma role_scope_ok_spec sc p a res : role_scope_ok sc p a res = true <-> (sc = ROwned -> own p a res).
Proof.
  unfold role_scope_ok, own. destruct sc; [by split| |by split]. destruct (res_owner res) as [o|].
  - rewrite bool_decide_eq_true. split; [by intros -> _ ? [= ->]|auto].
  - by split.
Qed.

Lemma entries_cover_spec (es : option (list string)) res :
  match es, res_path res with Some l, Some request => entries_cover l request | _, _ => false end = true
  <-> within es res.
Proof.
  unfold within. destruct es as [l|]; [|split; [done|by intros (? & ? & ? & ? & [=] & _)]].
  destruct (res_path res) as [request|]; [|split; [done|by intros (? & ? & ? & ? & _ & [=] & _)]].
  unfold entries_cover. rewrite existsb_exists. split.
  - intros (entry & Hin & Hn). destruct (cp_normalizer request entry) as [root|] eqn:E; [|done].
    exists l, request, entry, root. split; [done|]. split; [done|]. split; [by apply list_elem_of_In|done].
  - intros (? & ? & entry & root & [= <-] & [= <-] & Hin & E & Hw). exists entry.
    split; [by apply list_elem_of_In|]. by rewrite E.
Qed.

Lemma is_device_spec p : is_device p = true <-> exists name, p = Device name.
Proof. destruct p; split; try done; [eauto|by intros [? [=]]..]. Qed.

Lemma role_stage_spec s p a action res :
  match role_stage s p a action res with
  | Some v => role_ok s p a action res /\ exists role, st_role s = Some role /\ v = mkVerdict Allow None (Some role) false
  | None => ~ role_ok s p a action res
  end.
Proof.
  unfold role_stage, role_ok. destruct (st_role s) as [role|]; [|by intros (? & ? & [=] & _)].
  destruct (_ && _) eqn:E; unfold role_covers in E.
  - rewrite !andb_true_iff, !bool_decide_eq_true, is_device_spec, role_scope_ok_spec in E.
    destruct E as [[[-> [name ->]] Ha] Hs]. split; [|by exists role]. by exists role, name.
  - intros (? & name & [= <-] & -> & -> & Ha & Hs%role_scope_ok_spec).
    rewrite !bool_decide_true, Hs in E by done. done.
Qed.

Lemma pin_stage_spec s p a action res :
  is_always_denied action = false ->
  match pin_stage s p a action res with
  | Some v => pin_ok s p a action res /\ v = mkVerdict Allow None None true
  | None => ~ pin_ok s p a action res
  end.
Proof.
  intros Hd. unfold pin_stage, pin_ok. destruct (st_pin s) as [pin|]; [|by intros (? & ? & [=] & _)].
  destruct (_ && _) eqn:E; unfold pin_covers, pin_contains in E; rewrite Hd in E.
  - rewrite !andb_true_iff, !bool_decide_eq_true, is_device_spec, scope_ok_spec in E.
    destruct E as [[[[-> [name ->]] _] Ha] [Hs Hf]]. split; [|done]. exists pin, name.
    do 5 (split; [done|]). intros Hfile. rewrite Hfile in Hf. by apply entries_cover_spec.
  - intros (? & name & [= <-] & -> & -> & Ha & Hs%scope_ok_spec & Hf).
    rewrite !bool_decide_true, Hs in E by done. destruct (is_file action); [|done].
    unfold pin_covers_path in E. by rewrite (proj2 (entries_cover_spec _ _) (Hf eq_refl)) in E.
Qed.

Lemma row_ok_dec r p a action res :
  rule_selects r (principal_display p) a && rule_covers r action
  && (negb (is_file action) || rule_covers_path r res) && scope_ok (r_scope r) p a res = true
  <-> row_ok r p a action res.
Proof.
  unfold row_ok, rule_selects, rule_covers. rewrite !andb_true_iff, !bool_decide_eq_true, scope_ok_spec, existsb_exists.
  setoid_rewrite list_elem_of_In. unfold rule_covers_path. rewrite orb_true_iff, negb_true_iff, entries_cover_spec.
  destruct (is_file action); naive_solver.
Qed.

Lemma first_match_spec rules i p a action res :
  match v_decision (first_match rules i p a action res) with
  | Allow => exists k r, rules !! k = Some r /\ row_ok r p a action res
             /\ (forall j r', (j < k)%nat -> rules !! j = Some r' -> ~ row_ok r' p a action res)
             /\ first_match rules i p a action res = mkVerdict Allow (Some (i + N.of_nat k)) None false
  | Deny => first_match rules i p a action res = DENY /\ forall r, r ∈ rules -> ~ row_ok r p a action res
  end.
Proof.
  revert i. induction rules as [|r rules IH]; intros i; cbn [first_match].
  { split; [done|]. by intros r ?%elem_of_nil. }
  pose proof (row_ok_dec r p a action res) as Hr.
  destruct (rule_selects r (principal_display p) a && rule_covers r action
            && (negb (is_file action) || rule_covers_path r res) && scope_ok (r_scope r) p a res) eqn:E.
  - rewrite !andb_true_iff in E. destruct E as [[[-> ->] Hf] ->]. cbn [negb].
    replace (is_file action && negb (rule_covers_path r res)) with false
      by (destruct (is_file action), (rule_covers_path r res); done).
    exists 0%nat, r. split; [done|]. split; [by apply Hr|]. split; [lia|]. by rewrite N.add_0_r.
  - assert (Hno : ~ row_ok r p a action res) by (intros ?%Hr; congruence).
    set (rest := first_match rules (i + 1) p a action res).
    match goal with |- context [v_decision ?e] => replace e with rest end.
    2: { unfold rest. destruct (rule_selects _ _ _), (rule_covers r action), (is_file action), (rule_covers_path r res),
           (scope_ok _ _ _ _); done. }
    specialize (IH (i + 1)). fold rest in IH. destruct (v_decision rest).
    + destruct IH as (k & r' & Hk & Hok & Hj & Hv). exists (S k), r'. split; [done|]. split; [done|].
      split; [|rewrite Hv; do 2 f_equal; lia]. intros [|j] r'' Hlt Hl; [by injection Hl as <-|].
      apply (Hj j); [lia|done].
    + destruct IH as [Hv Hall]. split; [done|]. intros r' [->|Hin]%elem_of_cons; auto.
Qed.

Definition some_row (rules : Rules) p a action res : Prop := exists r, r ∈ rules /\ row_ok r p a action res.

(** The verdict, stage by stage. *)
Lemma decide_cases rules p a s action res :
  let v := decide_standing rules p a s action res in
  (is_always_denied action = true /\ v = DENY)
  \/ (is_always_denied action = false
      /\ ((role_ok s p a action res /\ exists role, st_role s = Some role /\ v = mkVerdict Allow None (Some role) false)
          \/ (~ role_ok s p a action res /\ pin_ok s p a action res /\ v = mkVerdict Allow None None true)
          \/ (~ role_ok s p a action res /\ ~ pin_ok s p a action res
              /\ ((exists k r, rules !! k = Some r /\ row_ok r p a action res
                   /\ (forall j r', (j < k)%nat -> rules !! j = Some r' -> ~ row_ok r' p a action res)
                   /\ v = mkVerdict Allow (Some (N.of_nat k)) None false)
                  \/ (v = DENY /\ ~ some_row rules p a action res))))).
Proof.
  intros v. unfold v, decide_standing. destruct (is_always_denied action) eqn:Ed; [by left|]. right. split; [done|].
  pose proof (role_stage_spec s p a action res) as Hr. destruct (role_stage s p a action res) as [w|]; [by left|right].
  pose proof (pin_stage_spec s p a action res Ed) as Hp. destruct (pin_stage s p a action res) as [w|]; [by left|right].
  split; [done|]. split; [done|]. pose proof (first_match_spec rules 0 p a action res) as Hm.
  destruct (v_decision _).
  - left. destruct Hm as (k & r & Hk & Hok & Hj & Hv). exists k, r. by rewrite N.add_0_l in Hv.
  - right. destruct Hm as [Hv Hall]. split; [done|]. intros (r & Hin & Hok). by apply (Hall r).
Qed.

Lemma allow_iff rules p a s action res :
  is_allow (decide_standing rules p a s action res) = true <->
  is_always_denied action = false
  /\ (role_ok s p a action res \/ pin_ok s p a action res \/ some_row rules p a action res).
Proof.
  destruct (decide_cases rules p a s action res) as
    [[Hd ->]|[Hd [(Hr & role & Hs & ->)|[(Hr & Hp & ->)|(Hr & Hp & [(k & r & Hk & Hok & Hj & ->)|[-> Hno]])]]]]; cbn.
  - split; [done|]. intros [? _]. congruence.
  - tauto.
  - tauto.
  - split; [|done]. intros _. split; [done|]. right. right. exists r. split; [by eapply list_elem_of_lookup_2|done].
  - split; [done|]. tauto.
Qed.

(** C8: The evaluator allows exactly what the role of the pin, the grants of
    the pin or some row of the policy gives, and never [forward.socks]; the
    verdict names the basis, in that order of precedence, and the first row
    that matches. *)
Theorem decide_exact rules p a s action res :
  let v := decide_standing rules p a s action res in
  (is_allow v = true <->
     is_always_denied action = false
     /\ (role_ok s p a action res \/ pin_ok s p a action res \/ some_row rules p a action res))
  /\ match granted_by v with
     | Some (RoleBasis role) => st_role s = Some role /\ role_ok s p a action res
     | Some PinGrant => ~ role_ok s p a action res /\ pin_ok s p a action res
     | Some (RuleBasis i) =>
         ~ role_ok s p a action res /\ ~ pin_ok s p a action res
         /\ (exists r, rules !! N.to_nat i = Some r /\ row_ok r p a action res)
         /\ forall j r, (j < N.to_nat i)%nat -> rules !! j = Some r -> ~ row_ok r p a action res
     | None => v = DENY
     end.
Proof.
  intros v. split; [apply allow_iff|]. destruct (decide_cases rules p a s action res) as
    [[Hd Hv]|[Hd [(Hr & role & Hs & Hv)|[(Hr & Hp & Hv)|(Hr & Hp & [(k & r & Hk & Hok & Hj & Hv)|[Hv Hno]])]]]];
    fold v in Hv; rewrite Hv; cbn; try done.
  rewrite Nat2N.id. eauto 10.
Qed.

(** C32: A resource that belongs to one opener is out of reach of every other
    requester, unless the basis of the allow has the scope [any]. *)
Theorem owned_isolation rules p a s action res owner b :
  res_owner res = Some (opener_key owner b) -> (p, a) <> (owner, b) ->
  is_allow (decide_standing rules p a s action res) = true ->
  match granted_by (decide_standing rules p a s action res) with
  | Some (RoleBasis role) => rg_scope (role_grant role) <> ROwned
  | Some PinGrant => exists pin, st_pin s = Some pin /\ pg_scope pin = Any
  | Some (RuleBasis i) => exists r, rules !! N.to_nat i = Some r /\ r_scope r = Any
  | None => False
  end.
Proof.
  intros Ho Hne. assert (Hnot : ~ own p a res).
  { intros Hown. apply Hne. pose proof (Hown _ Ho) as E. apply opener_key_inj in E as [-> ->]. done. }
  destruct (decide_cases rules p a s action res) as
    [[Hd ->]|[Hd [(Hr & role & Hs & ->)|[(Hr & Hp & ->)|(Hr & Hp & [(k & r & Hk & Hok & Hj & ->)|[-> Hno]])]]]]; cbn;
    [done|..|done]; intros _.
  - destruct Hr as (role' & ? & Hs' & _ & _ & _ & Hscope). rewrite Hs in Hs'. injection Hs' as <-. auto.
  - destruct Hp as (pin & ? & Hpin & _ & _ & _ & Hscope & _). exists pin. split; [done|]. by destruct (pg_scope pin); [exfalso; auto|].
  - rewrite Nat2N.id. exists r. split; [done|]. destruct Hok as (_ & _ & _ & _ & Hscope). by destruct (r_scope r); [exfalso; auto|].
Qed.

(** The pre-filter of a file request is necessary for an allow. *)
Lemma file_grant_basis_necessary rules p a s action res :
  is_file action = true -> is_allow (decide_standing rules p a s action res) = true ->
  file_grant_basis rules p a s action = true.
Proof.
  intros Hf Hv. assert (Hd : is_always_denied action = false) by by destruct action.
  apply allow_iff in Hv as [_ Hb].
  unfold file_grant_basis. destruct Hb as [(role & n & -> & -> & -> & Ha & _)|[(pin & n & Hpin & -> & -> & Ha & _)|(r & Hin & Hr)]].
  - unfold role_covers. by rewrite !bool_decide_true.
  - destruct (match st_role s with Some _ => _ | None => _ end); [done|]. rewrite Hpin. unfold pin_covers, pin_contains.
    by rewrite Hd, !bool_decide_true.
  - destruct (match st_role s with Some _ => _ | None => _ end); [done|].
    destruct (match st_pin s with Some _ => _ | None => _ end); [done|].
    apply existsb_exists. exists r. split; [by apply list_elem_of_In|].
    destruct Hr as (Hp & Ha & (pat & Hpat & Hm) & Hpath & _). unfold rule_selects, rule_covers. rewrite !bool_decide_true by done.
    cbn [andb]. apply andb_true_iff. split.
    + apply existsb_exists. exists pat. split; [by apply list_elem_of_In|done].
    + destruct (Hpath Hf) as (l & ? & ? & ? & -> & _). done.
Qed.

Lemma allow_unowned rules p a s action res id :
  is_file action = false -> is_allow (decide_standing rules p a s action res) = true ->
  is_allow (decide_standing rules p a s action (unowned id)) = true.
Proof.
  intros Hf. rewrite !allow_iff. intros [Hd Hb]. split; [done|]. assert (Hown : own p a (unowned id)) by done.
  destruct Hb as [(role & n & Hs & Ha & Hp & Hact & _)|[(pin & n & Hs & Ha & Hp & Hact & _)|(r & Hin & Hp & Ha & Hact & _)]].
  - left. exists role, n. auto.
  - right. left. exists pin, n. repeat split; auto. rewrite Hf. done.
  - right. right. exists r. split; [done|]. repeat split; auto. rewrite Hf. done.
Qed.

Lemma effective_elem rules p a s action :
  action ∈ effective_actions rules p a s <->
  (if is_file action then file_grant_basis rules p a s action
   else is_allow (decide_standing rules p a s action (unowned EmptyString))) = true.
Proof.
  unfold effective_actions. rewrite list_elem_of_In, filter_In, <- list_elem_of_In. pose proof (elem_of_ALL action). tauto.
Qed.

(** What [acl show] lists is a ceiling: every action the evaluator allows
    on any resource is listed, and a listed action that is not a file action
    is allowed on every resource without an owner. *)
Theorem effective_ceiling rules p a s action res :
  (is_allow (decide_standing rules p a s action res) = true -> action ∈ effective_actions rules p a s)
  /\ (action ∈ effective_actions rules p a s -> is_file action = false -> res_owner res = None ->
      is_allow (decide_standing rules p a s action res) = true).
Proof.
  rewrite effective_elem. split.
  - intros Hv. destruct (is_file action) eqn:Hf; [by eapply file_grant_basis_necessary|by eapply allow_unowned].
  - intros Hv Hf Ho. rewrite Hf in Hv. revert Hv. rewrite !allow_iff. intros [Hd Hb]. split; [done|].
    assert (Hown : own p a res) by (intros ? E; by rewrite Ho in E).
    destruct Hb as [(role & n & Hs & Ha & Hp & Hact & _)|[(pin & n & Hs & Ha & Hp & Hact & _)|(r & Hin & Hp & Ha & Hact & _)]].
    + left. exists role, n. auto.
    + right. left. exists pin, n. repeat split; auto. by rewrite Hf.
    + right. right. exists r. split; [done|]. repeat split; auto. by rewrite Hf.
Qed.

(** ** What a file of rows means *)

Lemma family_prefix (a b : Action) :
  starts_with (family (as_str b) +:+ ".") (as_str a) = bool_decide (family (as_str a) = family (as_str b)).
Proof. by destruct a, b. Qed.

(** An entry of an allow list is an action's name, or its family with [.*]. *)
Definition names_action (w : string) (a : Action) : Prop := w = as_str a \/ w = family (as_str a) +:+ ".*".

Lemma parse_pattern_spec raw pat :
  parse_action_pattern raw = Some pat ->
  pattern_render pat = raw /\ forall a : Action, pattern_matches pat a = true <-> names_action raw a.
Proof.
  unfold parse_action_pattern, names_action. destruct (strip_suffix ".*" raw) as [prefix|] eqn:E.
  - destruct (is_empty prefix); [done|]. apply strip_suffix_spec in E as ->.
    destruct (find _ ALL) as [b|] eqn:Ef; [|done]. intros [= <-].
    apply find_some in Ef as [_ <-%bool_decide_eq_true]. split; [by destruct b|].
    intros a. cbn. rewrite family_prefix, bool_decide_eq_true. split.
    + intros <-. by right.
    + intros [H1|H1]; [by destruct a, b|by destruct a, b].
  - destruct (action_from_str raw) as [b|] eqn:Ea; [|done]. intros [= <-]. apply action_from_str_spec in Ea as <-.
    split; [done|]. intros a. cbn. rewrite bool_decide_eq_true. split; [by intros ->; left|].
    intros [Heq|Heq]; [by apply as_str_inj|]. rewrite Heq in E. by rewrite strip_suffix_app in E.
Qed.

Lemma parse_patterns_spec raw pats (a : Action) :
  parse_patterns raw = Ok pats ->
  (exists pat, pat ∈ pats /\ pattern_matches pat a = true) <-> exists w, w ∈ raw /\ names_action w a.
Proof.
  revert pats. induction raw as [|w raw IH]; intros pats; cbn [parse_patterns].
  { intros [= <-]. split; intros (? & ?%elem_of_nil & _); done. }
  destruct (_ <? _); [done|]. destruct (parse_action_pattern w) as [pat|] eqn:Ew; [|done].
  destruct (parse_patterns raw) as [pats'|]; [|done]. intros [= <-]. specialize (IH pats' eq_refl).
  apply parse_pattern_spec in Ew as [_ Hw]. setoid_rewrite elem_of_cons. specialize (Hw a). split.
  - intros (q & [->|Hq] & Hm); [exists w; tauto|]. destruct (proj1 IH) as (w' & ? & ?); [by exists q|]. exists w'. tauto.
  - intros (q & [->|Hq] & Hm); [exists pat; tauto|]. destruct (proj2 IH) as (w' & ? & ?); [by exists q|]. exists w'. tauto.
Qed.

(** What a row of the file grants, read off its text. *)
Definition text_grants (raw : RawRule) p a (action : Action) res : Prop :=
  raw_principal raw = principal_display p
  /\ (if bool_decide (raw_auth_path raw = Some "ca"%string) then a = Ca else a = Pin)
  /\ (exists w, w ∈ raw_allow raw /\ names_action w action)
  /\ (is_file action = true -> within (raw_paths raw) res)
  /\ (raw_scope raw <> Some "any"%string -> own p a res).

Lemma parse_paths_same rule raw paths : parse_paths rule raw = Ok paths -> paths = raw.
Proof.
  unfold parse_paths. destruct raw as [[|e es]|]; [by destruct (negb _)| |by intros [= <-]].
  destruct (negb _); [done|]. destruct (_ <? _); [done|]. destruct (check_entries _); [|done]. by intros [= <-].
Qed.

Lemma parse_rule_spec raw r p a action res :
  parse_rule raw = Ok r -> row_ok r p a action res <-> text_grants raw p a action res.
Proof.
  unfold parse_rule. destruct (is_empty _); [done|]. destruct (_ <? _); [done|]. destruct (negb _); [done|].
  destruct (match raw_auth_path raw with Some _ => _ | None => _ end) as [ap|] eqn:Eap; [|done]. cbn [rbind].
  destruct (negb _); [done|]. destruct (_ <? _); [done|].
  destruct (parse_patterns _) as [allow|] eqn:Eal; [|done]. cbn [rbind].
  destruct (match raw_scope raw with Some _ => _ | None => _ end) as [sc|] eqn:Esc; [|done]. cbn [rbind].
  destruct (parse_paths _ _) as [paths|] eqn:Epa; [|done]. cbn [rbind]. intros [= <-].
  apply parse_paths_same in Epa as ->. unfold row_ok, text_grants.
  cbn [r_principal r_auth_path r_allow r_paths r_scope]. rewrite (parse_patterns_spec _ _ action Eal).
  assert (Ha : ap = a <-> if bool_decide (raw_auth_path raw = Some "ca"%string) then a = Ca else a = Pin).
  { destruct (raw_auth_path raw) as [w|]; [|injection Eap as <-; naive_solver].
    revert Eap. repeat case_bool_decide; naive_solver. }
  assert (Hs : sc = Owned <-> raw_scope raw <> Some "any"%string).
  { destruct (raw_scope raw) as [w|]; [|injection Esc as <-; naive_solver].
    revert Esc. repeat case_bool_decide; naive_solver. }
  rewrite Ha, Hs. tauto.
Qed.

Lemma parse_rules_spec raws rules p a action res :
  parse_rules raws = Ok rules ->
  some_row rules p a action res <-> exists raw, raw ∈ raws /\ text_grants raw p a action res.
Proof.
  unfold some_row. revert rules. induction raws as [|raw raws IH]; intros rules; cbn [parse_rules].
  { intros [= <-]. split; intros (? & ?%elem_of_nil & _); done. }
  destruct (parse_rule raw) as [r|] eqn:Er; [|done]. cbn [rbind]. destruct (parse_rules raws) as [rs|]; [|done].
  intros [= <-]. specialize (IH rs eq_refl). pose proof (parse_rule_spec raw r p a action res Er) as Hr.
  setoid_rewrite elem_of_cons. split.
  - intros (q & [->|Hq] & Hm); [exists raw; tauto|]. destruct (proj1 IH) as (w' & ? & ?); [by exists q|]. exists w'. tauto.
  - intros (q & [->|Hq] & Hm); [exists r; tauto|]. destruct (proj2 IH) as (w' & ? & ?); [by exists q|]. exists w'. tauto.
Qed.

(** A policy file means what it says: once it loads, with no role and no
    pin grants, a request is allowed exactly when some row names the requester,
    its trust path ([pin] when unsaid), the action or its family, a path entry
    that contains the request for a file action, and a scope that fits the
    owner. *)
Theorem policy_file_meaning raws rules p a action res :
  parse raws = Ok rules ->
  is_allow (decide_standing rules p a no_standing action res) = true
  <-> is_always_denied action = false /\ exists raw, raw ∈ raws /\ text_grants raw p a action res.
Proof.
  unfold parse. destruct (_ <? _); [done|]. intros Hp. rewrite allow_iff, (parse_rules_spec _ _ _ _ _ _ Hp).
  assert (~ role_ok no_standing p a action res) by (by intros (? & ? & [=] & _)).
  assert (~ pin_ok no_standing p a action res) by (by intros (? & ? & [=] & _)). tauto.
Qed.

End Facts.

(** ** Examples *)

#[local] Existing Instance letters_base64.
#[local] Existing Instance FileGuard.ascii_text.

Definition demo_row : RawRule := mkRawRule "device:laptop" None ["session.*"%string] (Some "any"%string) None.
Definition demo_rule : Rule := mkRule "device:laptop" Pin [Prefix "session."] Any None.
Definition demo_session : ResourceRef := mkResource "01J" (Some (opener_key (Device "desk") Pin)) None.

Lemma owned_isolation_witness :
  is_allow (decide_standing [demo_rule] (Device "laptop") Pin no_standing SessionAttach demo_session) = true
  /\ exists r, [demo_rule] !! 0%nat = Some r /\ r_scope r = Any.
Proof.
  assert (E : is_allow (decide_standing [demo_rule] (Device "laptop") Pin no_standing SessionAttach demo_session) = true)
    by (vm_compute; reflexivity).
  split; [exact E|].
  exact (owned_isolation [demo_rule] (Device "laptop") Pin no_standing SessionAttach demo_session (Device "desk") Pin
           eq_refl ltac:(congruence) E).
Defined.

Lemma policy_file_meaning_witness :
  parse [demo_row] = Ok [demo_rule]
  /\ exists raw, raw ∈ [demo_row] /\ text_grants raw (Device "laptop") Pin SessionAttach demo_session.
Proof.
  assert (E : parse [demo_row] = Ok [demo_rule]) by (vm_compute; reflexivity).
  split; [exact E|].
  refine (proj2 (proj1 (policy_file_meaning [demo_row] [demo_rule] (Device "laptop") Pin SessionAttach demo_session E) _)).
  vm_compute. reflexivity.
Defined.

End Policy.
