(* ===== verification/Grants.v ===== *)
(** * What a connection's standing grants

    [Grants] relates the two readings of a standing (a pin's role and its own
    grants) in [crates/qsh-core/src/acl]: the evaluator's, stage by stage
    ([policy.rs]), and the merged set the connection watch records and
    compares ([roles.rs], [RoleGrants]). *)

From S2P Require Import Prelude Text FsPath FileGuard Identity Acl Policy.

Module Grants.
Import Text FsPath Identity Acl Policy.

(** ** Entries as text and as components *)

Lemma check_components_plain ws :
  Forall (fun w => contains slash w = false) ws -> check_components ws = Ok tt -> Forall plain ws.
Proof.
  induction 1 as [|w ws Hw Hws IH]; [by constructor|]. cbn [check_components].
  destruct (is_empty w) eqn:He; [done|]. unfold dot_component.
  destruct (_ || _) eqn:Hd; [done|]. intros H. constructor; [|auto].
  apply orb_false_iff in Hd as [?%bool_decide_eq_false ?%bool_decide_eq_false]. by destruct w.
Qed.

Lemma valid_canonical e : valid e -> canonical e.
Proof.
  unfold valid, validate_entry. destruct (_ <? _); [done|]. destruct (contains FileGuard.nul e); [done|].
  cbn [entry_rest]. destruct (strip_prefix "/" e) as [rest|] eqn:E; [|done]. cbn [rbind].
  apply strip_prefix_spec in E as ->. destruct (is_empty rest) eqn:Hr.
  - intros _. exists []. split; [by destruct rest|constructor].
  - destruct (ends_with _ _); [done|]. intros Hc. exists (split slash rest). split.
    + unfold render. by rewrite join_split.
    + apply check_components_plain; [apply split_pieces|done].
Qed.

(** Containment of entries as text is containment by components. *)
Lemma entry_within_render ms ns :
  Forall plain ms -> Forall plain ns ->
  entry_within (render ms) (render ns) = true <-> ms `prefix_of` ns.
Proof.
  intros Hm Hn. unfold entry_within. case_bool_decide as Heq; [apply render_inj in Heq as ->; done|].
  destruct (strip_prefix (render ms) (render ns)) as [rest|] eqn:E.
  - rewrite orb_true_iff. apply strip_prefix_spec in E. split.
    + destruct ms as [|m ms]; [intros _; apply prefix_nil|]. rewrite ends_with_render by done.
      intros [?|[rest' ->]%starts_with_spec]; [done|]. exists (split slash rest').
      change ("/" +:+ rest') with (String slash rest') in E.
      apply (f_equal (split slash)) in E. rewrite split_app, !split_render in E by done.
      destruct ns as [|n ns]; [|by injection E as -> ->]. injection E as <- _. by apply Forall_cons in Hm as [(? & _) _].
    + intros [ks ->]. destruct ms as [|m ms]; [by left|]. right.
      destruct ks as [|k ks]; [by rewrite app_nil_r in Heq|].
      rewrite render_app in E by done. apply starts_with_spec. exists (join slash (k :: ks)).
      apply (f_equal (strip_prefix (render (m :: ms)))) in E.
      rewrite !(proj2 (strip_prefix_spec _ _ _) eq_refl) in E. by injection E as <-.
  - split; [done|]. intros [ks ->]. exfalso. destruct ms as [|m ms].
    + pose proof (proj2 (strip_prefix_spec (render []) (render ([] ++ ks)) (join slash ks)) eq_refl). congruence.
    + destruct ks as [|k ks]; [by rewrite app_nil_r in Heq|]. rewrite render_app in E by done.
      by rewrite (proj2 (strip_prefix_spec _ _ _) eq_refl) in E.
Qed.

(** ** The merged set *)

Definition axis_of (g : RoleGrants) (a : Action) : option RoleScope :=
  snd <$> List.find (fun e => bool_decide (fst e = a)) (entries g).

(** The wider of two axes, as the merge picks it. *)
Definition wider (held axis : RoleScope) : RoleScope := if scope_covers held axis then held else axis.

Lemma widen_spec a axis es :
  match widen a axis es with
  | Some es' => (fst <$> es') = (fst <$> es)
      /\ exists held, snd <$> List.find (fun e => bool_decide (fst e = a)) es = Some held
         /\ forall b, snd <$> List.find (fun e => bool_decide (fst e = b)) es'
                     = if bool_decide (b = a) then Some (wider held axis)
                       else snd <$> List.find (fun e => bool_decide (fst e = b)) es
  | None => ~ a ∈ (fst <$> es) /\ List.find (fun e => bool_decide (fst e = a)) es = None
  end.
Proof.
  induction es as [|[b held] es IH]; cbn [widen List.find fst]; [split; [set_solver|done]|].
  destruct (bool_decide (b = a)) eqn:Hb.
  - apply bool_decide_eq_true in Hb as ->. split; [done|]. exists held. split; [done|]. intros c. cbn [List.find fst].
    destruct (decide (c = a)) as [->|Hn]; [by rewrite !bool_decide_true|].
    by rewrite (bool_decide_false (a = c)), (bool_decide_false (c = a)) by done.
  - apply bool_decide_eq_false in Hb. destruct (widen a axis es) as [es'|]; cbn [fmap option_fmap option_map].
    + destruct IH as (Hk & held' & Hf & Hall). split; [by rewrite !fmap_cons, Hk|].
      exists held'. split; [done|]. intros c. cbn [List.find fst]. case_bool_decide as Hc; [|apply Hall].
      subst c. by rewrite bool_decide_false.
    + destruct IH as [Hn Hf]. split; [|done]. cbn. set_solver.
Qed.

Lemma find_snoc {A} (f : A -> bool) l x :
  List.find f (l ++ [x]) = match List.find f l with Some y => Some y | None => if f x then Some x else None end.
Proof. induction l as [|y l IH]; cbn; [done|]. by destruct (f y). Qed.

Lemma merge_axis pin axis g b a :
  axis_of (merge_action pin axis g b) a
  = if bool_decide (a = b) then Some (match axis_of g b with Some held => wider held axis | None => axis end)
    else axis_of g a.
Proof.
  unfold merge_action, axis_of. pose proof (widen_spec b axis (entries g)) as Hw.
  destruct (widen b axis (entries g)) as [es|]; cbn [entries].
  - destruct Hw as (_ & held & -> & ->). done.
  - destruct Hw as [_ Hf]. rewrite find_snoc, Hf. cbn [fst]. destruct (decide (a = b)) as [->|Hn].
    + by rewrite Hf, !bool_decide_true.
    + rewrite !bool_decide_false by done. by case (List.find _ _).
Qed.

Lemma merge_paths pin axis g b a :
  paths_of (merge_action pin axis g b) a
  = match paths_of g a with
    | Some es => Some es
    | None => if bool_decide (a = b) && is_file a && bool_decide (axis_of g b = None)
              then Some (default [] (pg_paths pin)) else None
    end.
Proof.
  unfold merge_action, axis_of, paths_of. pose proof (widen_spec b axis (entries g)) as Hw.
  destruct (widen b axis (entries g)) as [es|]; cbn [file_paths].
  - destruct Hw as (_ & held & -> & _). rewrite (bool_decide_false (Some held = None)), andb_false_r by done.
    by case (List.find _ _).
  - destruct Hw as [_ ->]. rewrite (bool_decide_true (_ <$> None = None)), andb_true_r by done.
    destruct (is_file b) eqn:Hb.
    + rewrite find_snoc. case (List.find _ _); [done|]. cbn [fst].
      destruct (decide (a = b)) as [->|Hn]; [by rewrite !bool_decide_true, Hb|by rewrite !bool_decide_false].
    + case (List.find _ _); [done|]. destruct (decide (a = b)) as [->|Hn]; [|by rewrite bool_decide_false].
      by rewrite Hb, andb_false_r.
Qed.

Lemma merge_NoDup pin axis g b : NoDup (fst <$> entries g) -> NoDup (fst <$> entries (merge_action pin axis g b)).
Proof.
  intros Hn. unfold merge_action. pose proof (widen_spec b axis (entries g)) as Hw.
  destruct (widen b axis (entries g)) as [es|]; cbn [entries]; [by destruct Hw as [-> _]|].
  destruct Hw as [Hb _]. rewrite fmap_app. apply NoDup_app. split; [done|]. split; [set_solver|apply NoDup_singleton].
Qed.

Lemma wider_idem held axis : wider (wider held axis) axis = wider held axis.
Proof. by destruct held, axis. Qed.

Lemma merge_all_axis pin axis acts g a :
  axis_of (foldl (merge_action pin axis) g acts) a
  = if bool_decide (a ∈ acts) then Some (match axis_of g a with Some held => wider held axis | None => axis end)
    else axis_of g a.
Proof.
  revert g. induction acts as [|b acts IH]; intros g; cbn [foldl]; [by rewrite bool_decide_false by apply not_elem_of_nil|].
  rewrite IH, merge_axis. destruct (decide (a = b)) as [->|Hn].
  - rewrite !(bool_decide_true (b = b)), (bool_decide_true (b ∈ b :: acts)) by (done || left).
    case_bool_decide; [|done]. f_equal. destruct (axis_of g b); [apply wider_idem|by destruct axis].
  - rewrite (bool_decide_false (a = b)) by done. rewrite (bool_decide_ext (a ∈ acts) (a ∈ b :: acts)); [done|set_solver].
Qed.

Lemma merge_all_paths pin axis acts g a :
  (axis_of g a = None -> paths_of g a = None) ->
  paths_of (foldl (merge_action pin axis) g acts) a
  = if bool_decide (a ∈ acts) && is_file a && bool_decide (axis_of g a = None)
    then Some (default [] (pg_paths pin)) else paths_of g a.
Proof.
  revert g. induction acts as [|b acts IH]; intros g Hg; cbn [foldl]; [by rewrite bool_decide_false by apply not_elem_of_nil|].
  rewrite IH, merge_paths, merge_axis; clear IH.
  - destruct (decide (a = b)) as [->|Hn].
    + rewrite !(bool_decide_true (b = b)), (bool_decide_true (b ∈ b :: acts)) by (done || left).
      rewrite (bool_decide_false (Some _ = None)), andb_false_r by done. cbn [andb].
      destruct (axis_of g b) eqn:Ha; [by rewrite andb_false_r; destruct (paths_of g b)|]. rewrite Hg by done. done.
    + rewrite (bool_decide_false (a = b)) by done. rewrite (bool_decide_ext (a ∈ acts) (a ∈ b :: acts)) by set_solver.
      by destruct (_ && _), (paths_of g a).
  - rewrite merge_axis, merge_paths. case_bool_decide; [done|]. cbn [andb]. intros Ha. by rewrite Hg.
Qed.

Definition role_axis (r : option TrustRole) (a : Action) : option RoleScope :=
  match r with
  | Some r => if bool_decide (a ∈ rg_actions (role_grant r)) then Some (rg_scope (role_grant r)) else None
  | None => None
  end.
Definition pin_axis (g : PinGrants) : RoleScope := match pg_scope g with Owned => ROwned | Any => RAny end.

Lemma of_role_axis r a : axis_of (of_role r) a = role_axis r a.
Proof. by destruct r as [[]|], a. Qed.

Lemma of_role_paths r a : paths_of (of_role r) a = None.
Proof. by destruct r. Qed.

Lemma standing_axis s a :
  axis_of (of_standing s) a
  = match st_pin s with
    | Some pin =>
        if bool_decide (a ∈ pg_actions pin)
        then Some (match role_axis (st_role s) a with Some held => wider held (pin_axis pin) | None => pin_axis pin end)
        else role_axis (st_role s) a
    | None => role_axis (st_role s) a
    end.
Proof.
  unfold of_standing. destruct (st_pin s) as [pin|]; [|apply of_role_axis]. by rewrite merge_all_axis, of_role_axis.
Qed.

Lemma standing_paths s a :
  paths_of (of_standing s) a
  = match st_pin s with
    | Some pin =>
        if bool_decide (a ∈ pg_actions pin) && is_file a && bool_decide (role_axis (st_role s) a = None)
        then Some (default [] (pg_paths pin)) else None
    | None => None
    end.
Proof.
  unfold of_standing. destruct (st_pin s) as [pin|]; [|apply of_role_paths].
  rewrite merge_all_paths, of_role_axis, of_role_paths; [done|by rewrite of_role_paths].
Qed.

Lemma standing_NoDup s : NoDup (fst <$> entries (of_standing s)).
Proof.
  assert (Hr : NoDup (fst <$> entries (of_role (st_role s)))).
  { apply (bool_decide_unpack _). by destruct (st_role s) as [[]|]. }
  unfold of_standing. destruct (st_pin s) as [pin|]; [|done]. generalize dependent (of_role (st_role s)).
  induction (pg_actions pin) as [|a acts IH]; intros g Hg; cbn [foldl]; [done|]. by apply IH, merge_NoDup.
Qed.

Lemma entries_axis g a x : NoDup (fst <$> entries g) -> (a, x) ∈ entries g <-> axis_of g a = Some x.
Proof.
  unfold axis_of. induction (entries g) as [|[b y] es IH]; cbn [List.find fst].
  { intros _. split; [by intros ?%elem_of_nil|done]. }
  rewrite fmap_cons. intros [Hb Hn]%NoDup_cons. rewrite elem_of_cons. case_bool_decide as Hab.
  - subst b. cbn. split; [|by intros [= ->]; left]. intros [[= ->]|Hin]; [done|].
    exfalso. apply Hb. apply list_elem_of_fmap. by exists (a, x).
  - rewrite <- IH by done. split; [|by right]. intros [[= -> ->]|?]; done.
Qed.

(** ** What the merged set grants *)

Section Meaning.
Context `{Base64} `{FileGuard.OsText}.

Definition grants_ok (g : RoleGrants) (p : Principal) (a : AuthPath) (action : Action) (res : ResourceRef) : Prop :=
  exists x, axis_of g action = Some x /\ (x = ROwned -> own p a res)
  /\ forall es, paths_of g action = Some es -> within (Some es) res.

(** The two actions that are not bound to a resource. *)
Definition is_host (a : Action) : bool := match a with HostReverse | HostPunch => true | _ => false end.

Definition wf_standing (s : Standing) : Prop := forall g, st_pin s = Some g -> pin_wf g.

Lemma wf_file_paths g a : pin_wf g -> a ∈ pg_actions g -> is_file a = true -> Some (default [] (pg_paths g)) = pg_paths g.
Proof.
  intros [_ _ Hp] Ha Hf. destruct (pg_paths g); [done|].
  rewrite (proj2 (existsb_exists is_file (pg_actions g))) in Hp; [done|]. exists a. by rewrite <- list_elem_of_In.
Qed.

Lemma role_ok_axis s n a action res :
  role_ok s (Device n) a action res <->
  a = Pin /\ exists x, role_axis (st_role s) action = Some x /\ (x = ROwned -> own (Device n) a res).
Proof.
  unfold role_ok, role_axis. split.
  - intros (r & m & -> & -> & _ & Ha & Ho). split; [done|]. rewrite bool_decide_true by done. eauto.
  - intros (-> & x & E & Ho). destruct (st_role s) as [r|]; [|done]. case_bool_decide; [|done]. injection E as <-.
    by exists r, n.
Qed.

Lemma role_axis_shape r a x :
  role_axis r a = Some x -> (is_file a = true -> x = RAny) /\ (x = NotApplicable -> is_host a = true).
Proof. by destruct r as [[]|], a; intros [= <-]. Qed.

Lemma pin_ok_axis s n g action res :
  st_pin s = Some g ->
  pin_ok s (Device n) Pin action res <->
  action ∈ pg_actions g /\ (pin_axis g = ROwned -> own (Device n) Pin res)
  /\ (is_file action = true -> within (pg_paths g) res).
Proof.
  intros Hs. unfold pin_ok, pin_axis. split.
  - intros (g' & m & E & _ & _ & Ha & Ho & Hf). rewrite Hs in E. injection E as <-.
    split; [done|]. split; [|done]. by destruct (pg_scope g); [auto|].
  - intros (Ha & Ho & Hf). exists g, n. do 4 (split; [done|]). split; [|done]. intros E. rewrite E in Ho. auto.
Qed.

Lemma standing_grants s n action res :
  wf_standing s -> (is_host action = true -> res_owner res = None) ->
  role_ok s (Device n) Pin action res \/ pin_ok s (Device n) Pin action res
  <-> grants_ok (of_standing s) (Device n) Pin action res.
Proof.
  intros Hwf Hh. rewrite role_ok_axis. unfold grants_ok. rewrite standing_axis, standing_paths.
  assert (Hown : is_host action = true -> own (Device n) Pin res) by (intros E ? E'; by rewrite Hh in E').
  destruct (st_pin s) as [g|] eqn:Es; cycle 1.
  { assert (~ pin_ok s (Device n) Pin action res) by (intros (? & ? & E & _); congruence).
    split; [intros [(_ & x & ? & ?)|?]; [by exists x|done]|]. intros (x & ? & ? & _). left. eauto. }
  rewrite (pin_ok_axis _ _ _ _ _ Es). case_bool_decide as Ha; cycle 1.
  { split; [intros [(_ & x & ? & ?)|(? & _)]; [by exists x|done]|]. intros (x & ? & ? & _). left. eauto. }
  destruct (role_axis (st_role s) action) as [held|] eqn:Er; cycle 1.
  - rewrite bool_decide_true, andb_true_r by done. cbn [andb]. split.
    + intros [(_ & ? & ? & _)|(_ & Ho & Hf)]; [done|]. exists (pin_axis g). split; [done|]. split; [done|].
      intros es. destruct (is_file action) eqn:Hfile; [|done]. intros <-.
      rewrite (wf_file_paths g action) by auto. auto.
    + intros (x & [= <-] & Ho & Hf). right. split; [done|]. split; [done|]. intros Hfile. rewrite Hfile in Hf.
      rewrite (wf_file_paths g action) in Hf by auto. destruct (pg_paths g) eqn:Ep; [by apply Hf|].
      by pose proof (wf_file_paths g action (Hwf _ Es) Ha Hfile); rewrite Ep in *.
  - destruct (role_axis_shape _ _ _ Er) as [Hany Hna]. rewrite bool_decide_false, andb_false_r by done. split.
    + intros Hor. exists (wider held (pin_axis g)). split; [done|]. split; [|done].
      destruct held, (pin_axis g); cbn; try done; intros _; auto; naive_solver.
    + intros (x & [= <-] & Ho & _). destruct held; [left; eauto 10|..].
      * destruct (pin_axis g) eqn:Ex; cbn in Ho; [|left; eauto 10|by unfold pin_axis in Ex; destruct (pg_scope g)].
        right. split; [done|]. split; [done|]. intros Hfile. by specialize (Hany Hfile).
      * left. eauto 10.
Qed.

(** C31: The set the connection watch compares is what the authorizer
    enforces: for a pinned device, the role and pin grant stages allow a
    request exactly when the merged set holds the action on an axis that fits
    the owner and, for a file action limited to paths, one of them contains
    the request.  (The two [host.*] actions are not bound to a resource.) *)
Theorem merged_set_exact s n action res :
  wf_standing s -> (is_host action = true -> res_owner res = None) ->
  is_allow (decide_standing [] (Device n) Pin s action res) = true
  <-> is_always_denied action = false /\ grants_ok (of_standing s) (Device n) Pin action res.
Proof.
  intros Hwf Hh. rewrite allow_iff, <- standing_grants by done.
  assert (~ some_row [] (Device n) Pin action res) by (by intros (? & ?%elem_of_nil & _)). tauto.
Qed.

(** ** Covering *)

Lemma covers_spec g' g :
  NoDup (fst <$> entries g') -> NoDup (fst <$> entries g) ->
  covers g' g = true <->
  forall a old, axis_of g a = Some old ->
    (exists new, axis_of g' a = Some new /\ scope_covers new old = true)
    /\ paths_cover (paths_of g' a) (paths_of g a) = true.
Proof.
  intros Hn' Hn. unfold covers. rewrite forallb_forall. split.
  - intros Hall a old Ha. apply entries_axis, list_elem_of_In in Ha; [|done].
    specialize (Hall _ Ha). cbn in Hall. apply andb_true_iff in Hall as [He Hp]. split; [|done].
    apply existsb_exists in He as ([b new] & Hin%list_elem_of_In & [->%bool_decide_eq_true ?]%andb_true_iff).
    exists new. by rewrite <- entries_axis.
  - intros Hall [a old] Hin%list_elem_of_In. apply entries_axis in Hin; [|done].
    destruct (Hall _ _ Hin) as [(new & Ha & Hs) Hp]. apply andb_true_iff. split; [|done].
    apply existsb_exists. exists (a, new). rewrite <- list_elem_of_In, entries_axis by done.
    by rewrite bool_decide_true.
Qed.

Lemma all_match_trans xs ys zs :
  FileGuard.all_match ys xs false = true -> FileGuard.all_match zs ys false = true ->
  FileGuard.all_match zs xs false = true.
Proof.
  revert xs ys. induction zs as [|z zs IH]; intros xs ys; [done|]. destruct ys as [|y ys]; [done|].
  destruct xs as [|x xs]; [done|]. cbn [FileGuard.all_match]. unfold FileGuard.name_eq. cbn [andb].
  rewrite !orb_false_r, !andb_true_iff, !bool_decide_eq_true. intros [-> ?] [-> ?]. eauto.
Qed.

(** Where the normalizer of the request resolves an old entry, it resolves a
    new entry that contains it as text, to a path that contains it. *)
Definition follows (res : ResourceRef) (new old : list string) : Prop :=
  forall request parent child c,
    res_path res = Some request -> parent ∈ new -> child ∈ old -> entry_within parent child = true ->
    cp_normalizer request child = Ok c ->
    exists r, cp_normalizer request parent = Ok r /\ FileGuard.path_within c r false = true.

Lemma within_cover res new old :
  follows res new old -> paths_cover (Some new) (Some old) = true -> within (Some old) res -> within (Some new) res.
Proof.
  intros Hf Hp (l & request & entry & root & [= <-] & Hr & Hin & Hn & Hw). cbn in Hp.
  rewrite forallb_forall in Hp. specialize (Hp entry ltac:(by apply list_elem_of_In)).
  apply existsb_exists in Hp as (parent & Hpar%list_elem_of_In & He).
  destruct (Hf _ _ _ _ Hr Hpar Hin He Hn) as (r & Hr' & Hcr).
  exists new, request, parent, r. do 4 (split; [done|]). unfold FileGuard.path_within, FileGuard.is_under in *.
  by eapply all_match_trans.
Qed.

Lemma standing_paths_in s a es e :
  wf_standing s -> paths_of (of_standing s) a = Some es -> es = entries_of (st_pin s) /\ (e ∈ es -> valid e) /\ es <> [].
Proof.
  intros Hwf. rewrite standing_paths. unfold entries_of. destruct (st_pin s) as [g|] eqn:Es; [|done].
  change (Some g ≫= pg_paths) with (pg_paths g).
  case_bool_decide as Ha; [|done]. destruct (is_file a) eqn:Hf; [|done]. cbn [andb].
  case_bool_decide; [|done]. intros E. injection E as <-. split; [done|].
  pose proof (wf_file_paths g a (Hwf _ Es) Ha Hf) as Hp. destruct (Hwf _ Es) as [_ _ Hw].
  destruct (pg_paths g) as [es|]; [|done]. destruct Hw as (_ & Hne & _ & Hv & _). split; [|done].
  intros He. exact (proj1 (Forall_forall _ _) Hv e He).
Qed.

Lemma grants_ok_covers s s' n action res :
  wf_standing s -> wf_standing s' -> follows res (entries_of (st_pin s')) (entries_of (st_pin s)) ->
  (is_host action = true -> res_owner res = None) ->
  covers (of_standing s') (of_standing s) = true ->
  grants_ok (of_standing s) (Device n) Pin action res -> grants_ok (of_standing s') (Device n) Pin action res.
Proof.
  intros Hwf Hwf' Hfo Hh Hc (x & Hx & Ho & Hp).
  destruct (proj1 (covers_spec _ _ (standing_NoDup s') (standing_NoDup s)) Hc _ _ Hx) as [(new & Hnew & Hs) Hpc].
  exists new. split; [done|]. split.
  - intros ->. apply Ho. by destruct x.
  - intros es' Hes'. rewrite Hes' in Hpc. destruct (paths_of (of_standing s) action) as [es|] eqn:Hes; [|done].
    destruct (standing_paths_in _ _ _ EmptyString Hwf Hes) as [-> _].
    destruct (standing_paths_in _ _ _ EmptyString Hwf' Hes') as [-> _].
    eapply within_cover; eauto.
Qed.

(** Covering keeps access: when the grants of the new
    standing cover the recorded ones, every request allowed before is still
    allowed, as long as the filesystem keeps the containment the entries show
    as text. *)
Lemma covers_keeps_access rules p a s s' action res :
  wf_standing s -> wf_standing s' -> follows res (entries_of (st_pin s')) (entries_of (st_pin s)) ->
  (is_host action = true -> res_owner res = None) ->
  covers (of_standing s') (of_standing s) = true ->
  is_allow (decide_standing rules p a s action res) = true ->
  is_allow (decide_standing rules p a s' action res) = true.
Proof.
  intros Hwf Hwf' Hfo Hh Hc. rewrite !allow_iff. intros [Hd Hb]. split; [done|].
  assert (Hst : role_ok s p a action res \/ pin_ok s p a action res -> role_ok s' p a action res \/ pin_ok s' p a action res).
  { intros Hor. assert (Hdev : exists n, p = Device n /\ a = Pin).
    { destruct Hor as [(? & n & _ & -> & -> & _)|(? & n & _ & -> & -> & _)]; eauto. }
    destruct Hdev as (n & -> & ->). rewrite standing_grants in Hor by done.
    apply standing_grants; [done..|]. by apply (grants_ok_covers s s'). }
  tauto.
Qed.

(** ** Narrowing *)

(** A request for the path [e] as it is spelt. *)
Definition plain_request (owner : option string) (e : string) : ResourceRef :=
  mkResource e owner (Some (mkCanonicalPath e Ok)).

Lemma plain_within owner es e :
  Forall valid es -> valid e ->
  within (Some es) (plain_request owner e) <-> exists parent, parent ∈ es /\ entry_within parent e = true.
Proof.
  intros Hes He. destruct (valid_canonical e He) as (ns & -> & Hns).
  assert (Hr : forall parent, parent ∈ es ->
            FileGuard.path_within (render ns) parent false = true <-> entry_within parent (render ns) = true).
  { intros parent Hp. destruct (valid_canonical parent (proj1 (Forall_forall _ _) Hes _ Hp)) as (ms & -> & Hms).
    rewrite entry_within_render by done. by apply FileGuard.is_under_render. }
  split.
  - intros (l & request & parent & root & [= <-] & [= <-] & Hin & [= <-] & Hw). exists parent. split; [done|]. by apply Hr.
  - intros (parent & Hin & Hw). eexists es, _, parent, parent. do 4 (split; [done|]). by apply Hr.
Qed.

Lemma entry_within_refl e : entry_within e e = true.
Proof. unfold entry_within. by rewrite bool_decide_true. Qed.

(** A request the set grants, with the owner given. *)
Lemma some_request s a x owner n :
  wf_standing s -> axis_of (of_standing s) a = Some x -> (x = ROwned -> owner = None) ->
  exists e, grants_ok (of_standing s) (Device n) Pin a (plain_request owner e).
Proof.
  intros Hwf Hx Ho. assert (Hown : forall e, x = ROwned -> own (Device n) Pin (plain_request owner e)).
  { intros e ->. rewrite Ho by done. by intros ? [=]. }
  destruct (paths_of (of_standing s) a) as [es|] eqn:Ep.
  - assert (Hv : forall e, e ∈ es -> valid e) by (intros e; by destruct (standing_paths_in _ _ _ e Hwf Ep) as (_ & ? & _)).
    destruct (standing_paths_in _ _ _ EmptyString Hwf Ep) as (_ & _ & Hne). destruct es as [|e es]; [done|].
    exists e. exists x. split; [done|]. split; [apply Hown|]. intros es'. rewrite Ep. intros [= <-].
    apply plain_within; [by apply Forall_forall|apply Hv; left|]. exists e. split; [left|apply entry_within_refl].
  - exists EmptyString, x. split; [done|]. split; [apply Hown|]. intros es'. by rewrite Ep.
Qed.

Lemma standing_axis_shape s a x : axis_of (of_standing s) a = Some x -> is_host a = false -> x <> NotApplicable.
Proof.
  rewrite standing_axis. intros Hx Hh ->.
  assert (Hr : role_axis (st_role s) a <> Some NotApplicable) by (intros [_ Hc]%role_axis_shape; by rewrite Hc in Hh).
  destruct (st_pin s) as [g|]; [|done]. case_bool_decide; [|done]. unfold pin_axis in Hx.
  destruct (role_axis (st_role s) a) as [[]|], (pg_scope g); done.
Qed.

Lemma other_owner n : exists owner, owner <> opener_key (Device n) Pin.
Proof. exists (opener_key (Device n) Ca). intros [? [=]]%opener_key_inj. Qed.

(** What a failed comparison means, action by action. *)
Lemma not_covers g' g :
  NoDup (fst <$> entries g') -> NoDup (fst <$> entries g) -> covers g' g = false ->
  exists a old, axis_of g a = Some old
    /\ (axis_of g' a = None
        \/ exists new, axis_of g' a = Some new
           /\ (scope_covers new old = false \/ scope_covers new old = true /\ paths_cover (paths_of g' a) (paths_of g a) = false)).
Proof.
  intros Hn' Hn ([a old] & Hin & Hf)%forallb_false. exists a, old.
  split; [by apply entries_axis|]. destruct (axis_of g' a) as [new|] eqn:Ha; [|by left]. right. exists new. split; [done|].
  destruct (scope_covers new old) eqn:Hs; [right; split; [done|]|by left].
  apply andb_false_iff in Hf as [Hf|Hf]; [|done]. exfalso. apply not_true_iff_false in Hf. apply Hf.
  apply existsb_exists. exists (a, new). rewrite <- list_elem_of_In, entries_axis by done. by rewrite bool_decide_true.
Qed.

(** The grants of [s'] miss a request the grants of [s] allow. *)
Definition loses (s s' : Standing) (n : string) : Prop :=
  exists action res, grants_ok (of_standing s) (Device n) Pin action res
    /\ ~ grants_ok (of_standing s') (Device n) Pin action res
    /\ (is_host action = true -> res_owner res = None).

Lemma lost_paths s s' n a old es' :
  wf_standing s -> wf_standing s' -> axis_of (of_standing s) a = Some old ->
  paths_of (of_standing s') a = Some es' -> paths_cover (Some es') (paths_of (of_standing s) a) = false ->
  loses s s' n.
Proof.
  intros Hwf Hwf' Ha Hes' Hp. destruct (paths_of (of_standing s) a) as [es|] eqn:Hes.
  - cbn in Hp. apply forallb_false in Hp as (e & He & Hne).
    assert (Hv : Forall valid es) by (apply Forall_forall; intros x; by destruct (standing_paths_in _ _ _ x Hwf Hes) as (_ & ? & _)).
    assert (Hv' : Forall valid es') by (apply Forall_forall; intros x; by destruct (standing_paths_in _ _ _ x Hwf' Hes') as (_ & ? & _)).
    assert (valid e) by exact (proj1 (Forall_forall _ _) Hv e He).
    exists a, (plain_request None e). split; [|split; [|done]].
    + exists old. split; [done|]. split; [by intros _ ? [=]|]. intros ? E. rewrite Hes in E. injection E as <-.
      apply plain_within; [done..|]. exists e. split; [done|apply entry_within_refl].
    + intros (x & _ & _ & Hw). specialize (Hw _ Hes'). apply plain_within in Hw as (parent & Hin & Hw); [|done..].
      apply not_true_iff_false in Hne. apply Hne, existsb_exists. exists parent. by rewrite <- list_elem_of_In.
  - exists a, (unowned EmptyString). split; [|split; [|done]].
    + exists old. split; [done|]. split; [by intros _ ? [=]|]. intros ? E. by rewrite Hes in E.
    + intros (x & _ & _ & Hw). destruct (Hw _ Hes') as (? & ? & ? & ? & _ & [=] & _).
Qed.

(** The two standings hold a [host.*] action on different axes. *)
Definition host_axes_differ (s s' : Standing) : Prop :=
  exists a old new, is_host a = true /\ axis_of (of_standing s) a = Some old /\ axis_of (of_standing s') a = Some new
    /\ scope_covers new old = false.

Lemma not_covers_loses s s' n :
  wf_standing s -> wf_standing s' -> covers (of_standing s') (of_standing s) = false ->
  loses s s' n \/ host_axes_differ s s'.
Proof.
  intros Hwf Hwf' (a & old & Ha & Hc)%not_covers; [|apply standing_NoDup..].
  destruct Hc as [Hnone|(new & Hnew & [Hs|[Hs Hp]])].
  - left. destruct (some_request s a old None n Hwf Ha ltac:(done)) as [e He].
    exists a, (plain_request None e). split; [done|]. split; [|done]. intros (x & Hx & _). congruence.
  - destruct (is_host a) eqn:Hh; [right; by exists a, old, new|left].
    pose proof (standing_axis_shape _ _ _ Ha Hh). pose proof (standing_axis_shape _ _ _ Hnew Hh).
    destruct old; [|by destruct new|done]. destruct new; [done| |done]. destruct (other_owner n) as [owner Hother].
    destruct (some_request s a RAny (Some owner) n Hwf Ha ltac:(done)) as [e He].
    exists a, (plain_request (Some owner) e). split; [done|]. split; [|by rewrite Hh].
    intros (x & Hx & Ho & _). rewrite Hnew in Hx. injection Hx as <-. by apply Hother, (Ho eq_refl).
  - left. destruct (paths_of (of_standing s') a) as [es'|] eqn:Hes'; [|done]. by eapply lost_paths.
Qed.

Lemma axis_grantable s a x : wf_standing s -> axis_of (of_standing s) a = Some x -> is_always_denied a = false.
Proof.
  intros Hwf. rewrite standing_axis.
  assert (Hr : role_axis (st_role s) a = Some x -> is_always_denied a = false) by (by destruct (st_role s) as [[]|], a).
  destruct (st_pin s) as [g|] eqn:Es; [|done]. case_bool_decide as Ha; [|done]. intros _.
  destruct (Hwf _ Es) as [[_ Hf] _ _]. exact (proj1 (Forall_forall _ _) Hf a Ha).
Qed.

(** A connection that is closed lost something: when the grants of the new
    standing do not cover the recorded ones, some request that the role and
    the pin grants allowed is refused now, unless the two only differ in the
    axis of a [host.*] action, which is not bound to a resource. *)
Theorem narrowing_is_loss s s' n :
  wf_standing s -> wf_standing s' -> covers (of_standing s') (of_standing s) = false ->
  host_axes_differ s s'
  \/ exists action res,
       is_allow (decide_standing [] (Device n) Pin s action res) = true
       /\ is_allow (decide_standing [] (Device n) Pin s' action res) = false.
Proof.
  intros Hwf Hwf' Hc. destruct (not_covers_loses s s' n Hwf Hwf' Hc) as [(a & res & Hok & Hno & Hh)|?]; [right|by left].
  exists a, res. assert (Hrow : ~ some_row [] (Device n) Pin a res) by (by intros (? & ?%elem_of_nil & _)).
  rewrite <- not_true_iff_false, !allow_iff. pose proof (standing_grants s n a res Hwf Hh).
  pose proof (standing_grants s' n a res Hwf' Hh). assert (is_always_denied a = false); [|tauto].
  destruct Hok as (x & Hx & _). exact (axis_grantable s a x Hwf Hx).
Qed.
End Meaning.

(** ** Examples *)

#[local] Existing Instance letters_base64.
#[local] Existing Instance FileGuard.ascii_text.

Definition files (es : list string) : PinGrants := mkPinGrants [FileRead] (Some es) Owned.

Lemma files_wf e : valid e -> wf_standing (mkStanding None (Some (files [e]))).
Proof.
  intros He g [= <-]. split; [by repeat constructor|done|]. cbn. do 2 (split; [done|]). split; [vm_compute; done|].
  split; [by repeat constructor|apply NoDup_singleton].
Qed.

Lemma role_wf r : wf_standing (mkStanding (Some r) None).
Proof. intros g [=]. Qed.

Lemma merged_set_exact_witness :
  is_allow (decide_standing [] (Device "laptop") Pin (mkStanding None (Some (files ["/srv"%string]))) FileRead
              (plain_request None "/srv/a")) = true
  /\ grants_ok (of_standing (mkStanding None (Some (files ["/srv"%string])))) (Device "laptop") Pin FileRead
       (plain_request None "/srv/a").
Proof.
  assert (E : is_allow (decide_standing [] (Device "laptop") Pin (mkStanding None (Some (files ["/srv"%string]))) FileRead
                (plain_request None "/srv/a")) = true) by (vm_compute; reflexivity).
  split; [exact E|].
  exact (proj2 (proj1 (merged_set_exact (mkStanding None (Some (files ["/srv"%string]))) "laptop" FileRead
                         (plain_request None "/srv/a") (files_wf "/srv" eq_refl) ltac:(done)) E)).
Defined.

Lemma narrowing_is_loss_witness :
  covers (of_standing (mkStanding (Some ReadOnly) None)) (of_standing (mkStanding (Some Exec) None)) = false
  /\ (host_axes_differ (mkStanding (Some Exec) None) (mkStanding (Some ReadOnly) None)
      \/ exists action res,
           is_allow (decide_standing [] (Device "laptop") Pin (mkStanding (Some Exec) None) action res) = true
           /\ is_allow (decide_standing [] (Device "laptop") Pin (mkStanding (Some ReadOnly) None) action res) = false).
Proof.
  assert (E : covers (of_standing (mkStanding (Some ReadOnly) None)) (of_standing (mkStanding (Some Exec) None)) = false)
    by (vm_compute; reflexivity).
  split; [exact E|]. exact (narrowing_is_loss _ _ "laptop" (role_wf Exec) (role_wf ReadOnly) E).
Defined.

(** Granting [host.punch], on the owned scope, to a pin with the role
    [reverse] counts as a narrowing, although every request allowed before is
    still allowed: the row's axis "not applicable" is replaced by "owned",
    which does not cover it. *)
Theorem widening_counts_as_narrowing :
  let before := mkStanding (Some Reverse) None in
  let keys := mkKeys (Some ["host.punch"%string]) None None in
  let after := mkStanding (Some Reverse) (ok_flat (keys_parse keys)) in
  pin_grants_change_narrows (Some "reverse"%string) no_keys keys = true
  /\ covers (of_standing after) (of_standing before) = false
  /\ forall rules p a action res,
       is_allow (decide_standing rules p a before action res) = true ->
       is_allow (decide_standing rules p a after action res) = true.
Proof.
  intros before keys after. do 2 (split; [vm_compute; reflexivity|]). intros rules p a action res.
  rewrite !allow_iff. intros [Hd Hb]. split; [done|]. destruct Hb as [Hr|[Hp|Hr]]; [by left| |by right; right].
  by destruct Hp as (? & ? & [=] & _).
Qed.

End Grants.
