(* ===== verification/TrustStore.v ===== *)
(** * The trust store

    [TrustStore] models the in-memory trust store of
    [crates/qsh-core/src/trust/mod.rs]: the pins and CA roots of [trust.toml],
    the validation its loader adds to the TOML decoder, every operation the
    [qsh trust], [qsh pair] and [qsh cert] commands apply between a load and a
    save, and the lookups of the local queries.

    The TOML codec and the PEM decoder are parameters ([TrustFormat]). *)

From S2P Require Import Prelude Text FileGuard Identity Acl Policy.

Module TrustStore.
Import Text Identity Acl.

(** ** Data *)

Record TrustPeer := mkPeer {
  p_name : string;
  p_fingerprint : string;
  p_address : string;
  p_added_at : string;
  p_role : option string;
  p_grants : option (list string);
  p_paths : option (list string);
  p_scope : option string;
  p_source : option string;
  p_remote_qsh : option string;
}.

Record CaEntry := mkCa { ca_name : string; cert_pem : string }.

(** [TrustStore], which is [TrustFile] once it is validated. *)
Record TrustStore := mkStore { peers : list TrustPeer; cas : list CaEntry }.

#[global] Instance TrustPeer_eq_dec : EqDecision TrustPeer.
Proof. solve_decision. Defined.
#[global] Instance CaEntry_eq_dec : EqDecision CaEntry.
Proof. solve_decision. Defined.
#[global] Instance TrustStore_eq_dec : EqDecision TrustStore.
Proof. solve_decision. Defined.

(** [TrustStore::default] *)
Definition empty_store : TrustStore := mkStore [] [].

(** The [toml] crate on this schema, and [pem::decode_first]. *)
Class TrustFormat (Cert : Type) := {
  toml_decode : string -> option TrustStore;
  toml_encode : TrustStore -> string;
  toml_law s : toml_decode (toml_encode s) = Some s;
  pem_decode : string -> option Cert;
}.

(** ** Loading *)

Inductive StoreError := BadToml | BadRole | BadGrants (why : PinGrantsError).

Definition peer_keys (p : TrustPeer) : PinGrantKeys := mkKeys (p_grants p) (p_paths p) (p_scope p).

Definition role_valid (p : TrustPeer) : bool :=
  match p_role p with Some w => bool_decide (is_Some (role_from_str w)) | None => true end.

Fixpoint check_roles (ps : list TrustPeer) : result unit StoreError :=
  match ps with
  | [] => Ok tt
  | p :: ps => if role_valid p then check_roles ps else Err BadRole
  end.

Fixpoint check_grants (ps : list TrustPeer) : result unit StoreError :=
  match ps with
  | [] => Ok tt
  | p :: ps =>
      match pin_parse (p_grants p) (p_paths p) (p_scope p) with
      | Ok _ => check_grants ps
      | Err e => Err (BadGrants e)
      end
  end.

Section Ops.
Context {Cert : Type} `{TrustFormat Cert} `{Base64}.

(** [TrustStore::parse] *)
Definition store_parse (text : string) : result TrustStore StoreError :=
  match toml_decode text with
  | None => Err BadToml
  | Some file =>
      let? _ := check_roles (peers file) in
      let? _ := check_grants (peers file) in
      Ok file
  end.

(** [TrustStore::load], of what the file holds. *)
Definition load (raw : option string) : result TrustStore StoreError :=
  match raw with Some text => store_parse text | None => Ok empty_store end.

(** [TrustStore::save]: the text it writes. *)
Definition save (s : TrustStore) : string := toml_encode s.

(** ** Lookups and updates *)

Definition find (s : TrustStore) (name : string) : option TrustPeer :=
  List.find (fun p => bool_decide (p_name p = name)) (peers s).

(** [self.peers.iter_mut().find(..)] and an update of the pin it finds. *)
Fixpoint update_first (name : string) (f : TrustPeer -> TrustPeer) (ps : list TrustPeer) : list TrustPeer :=
  match ps with
  | [] => []
  | p :: ps => if bool_decide (p_name p = name) then f p :: ps else p :: update_first name f ps
  end.
Definition update (s : TrustStore) (name : string) (f : TrustPeer -> TrustPeer) : TrustStore :=
  mkStore (update_first name f (peers s)) (cas s).

Definition with_address (a : string) (p : TrustPeer) : TrustPeer :=
  mkPeer (p_name p) (p_fingerprint p) a (p_added_at p) (p_role p) (p_grants p) (p_paths p) (p_scope p) (p_source p)
    (p_remote_qsh p).
Definition with_name (n : string) (src : option string) (p : TrustPeer) : TrustPeer :=
  mkPeer n (p_fingerprint p) (p_address p) (p_added_at p) (p_role p) (p_grants p) (p_paths p) (p_scope p) src
    (p_remote_qsh p).
Definition with_role (r : option string) (p : TrustPeer) : TrustPeer :=
  mkPeer (p_name p) (p_fingerprint p) (p_address p) (p_added_at p) r (p_grants p) (p_paths p) (p_scope p) (p_source p)
    (p_remote_qsh p).
Definition with_keys (k : PinGrantKeys) (p : TrustPeer) : TrustPeer :=
  mkPeer (p_name p) (p_fingerprint p) (p_address p) (p_added_at p) (p_role p) (k_grants k) (k_paths k) (k_scope k)
    (p_source p) (p_remote_qsh p).
Definition with_source (src : option string) (p : TrustPeer) : TrustPeer :=
  mkPeer (p_name p) (p_fingerprint p) (p_address p) (p_added_at p) (p_role p) (p_grants p) (p_paths p) (p_scope p) src
    (p_remote_qsh p).
Definition with_remote_qsh (q : option string) (p : TrustPeer) : TrustPeer :=
  mkPeer (p_name p) (p_fingerprint p) (p_address p) (p_added_at p) (p_role p) (p_grants p) (p_paths p) (p_scope p)
    (p_source p) q.

(** [TrustStore::add_peer_inner]: the store, the pin, [created] and
    [updated]. *)
Definition add_peer_inner (s : TrustStore) (name : string) (address : option string) (fp : Fingerprint) (now : string)
    (role : option TrustRole) : TrustStore * (TrustPeer * bool * bool) :=
  let fingerprint := fp_display fp in
  match find s name with
  | Some existing =>
      if negb (bool_decide (p_fingerprint existing = fingerprint)) then (s, (existing, false, false))
      else match address with
           | None => (s, (existing, false, false))
           | Some new_address =>
               if bool_decide (p_address existing = new_address) then (s, (existing, false, false))
               else (update s name (with_address new_address), (with_address new_address existing, false, true))
           end
  | None =>
      let peer := mkPeer name fingerprint (default EmptyString address) now (role_str <$> role)
                    None None None None None in
      (mkStore (peers s ++ [peer]) (cas s), (peer, true, false))
  end.

Definition set_remote_qsh (s : TrustStore) (name path : string) : TrustStore * bool :=
  match find s name with
  | Some peer =>
      if bool_decide (p_remote_qsh peer = Some path) then (s, false)
      else (update s name (with_remote_qsh (Some path)), true)
  | None => (s, false)
  end.

Definition mark_source (s : TrustStore) (name source : string) : TrustStore * bool :=
  match find s name with
  | Some _ => (update s name (with_source (Some source)), true)
  | None => (s, false)
  end.

Definition find_ca (s : TrustStore) (name : string) : option CaEntry :=
  List.find (fun c => bool_decide (ca_name c = name)) (cas s).

Fixpoint update_ca (name pem : string) (cs : list CaEntry) : list CaEntry :=
  match cs with
  | [] => []
  | c :: cs => if bool_decide (ca_name c = name) then mkCa (ca_name c) pem :: cs else c :: update_ca name pem cs
  end.

Definition add_ca (s : TrustStore) (name pem : string) : TrustStore * (CaEntry * bool * bool) :=
  match find_ca s name with
  | Some c =>
      if bool_decide (cert_pem c = pem) then (s, (c, false, false))
      else (mkStore (peers s) (update_ca name pem (cas s)), (mkCa (ca_name c) pem, false, true))
  | None => (mkStore (peers s) (cas s ++ [mkCa name pem]), (mkCa name pem, true, false))
  end.

(** [TrustStore::add_ca_append_only]; the error is the refused name. *)
Definition add_ca_append_only (s : TrustStore) (name pem : string)
    : TrustStore * result (CaEntry * bool * bool) string :=
  match find_ca s name with
  | Some c => if bool_decide (cert_pem c = pem) then (s, Ok (c, false, false)) else (s, Err name)
  | None => let '(s, r) := add_ca s name pem in (s, Ok r)
  end.

Definition remove (s : TrustStore) (name : string) : TrustStore * bool :=
  let ps := List.filter (fun p => negb (bool_decide (p_name p = name))) (peers s) in
  let cs := List.filter (fun c => negb (bool_decide (ca_name c = name))) (cas s) in
  (mkStore ps cs, negb (length ps =? length (peers s))%nat || negb (length cs =? length (cas s))%nat).

Inductive RenameError := OldMissing | NewTaken.

Definition rename (s : TrustStore) (old new : string) : TrustStore * result TrustPeer RenameError :=
  if existsb (fun p => bool_decide (p_name p = new)) (peers s)
     || existsb (fun c => bool_decide (ca_name c = new)) (cas s) then (s, Err NewTaken)
  else match find s old with
       | None => (s, Err OldMissing)
       | Some p => (update s old (with_name new None), Ok (with_name new None p))
       end.

Inductive SetRoleError := NotFound.

(** [TrustStore::set_role]: the pin, its role before and [changed]. *)
Definition set_role (s : TrustStore) (name : string) (role : TrustRole)
    : TrustStore * result (TrustPeer * option string * bool) SetRoleError :=
  match find s name with
  | None => (s, Err NotFound)
  | Some p =>
      let previous := p_role p in
      let changed := negb (bool_decide (default (role_str NoneRole) previous = role_str role)) in
      if changed then (update s name (with_role (Some (role_str role))),
                       Ok (with_role (Some (role_str role)) p, previous, changed))
      else (s, Ok (p, previous, changed))
  end.

(** [TrustStore::set_grants]: the pin, its keys before and [changed]. *)
Definition set_grants (s : TrustStore) (name : string) (k : PinGrantKeys)
    : TrustStore * result (TrustPeer * PinGrantKeys * bool) SetRoleError :=
  match find s name with
  | None => (s, Err NotFound)
  | Some p =>
      let previous := peer_keys p in
      let changed := negb (bool_decide (previous = k)) in
      if changed then (update s name (with_keys k), Ok (with_keys k p, previous, changed))
      else (s, Ok (p, previous, changed))
  end.

(** [TrustStore::replace_peer]: the new pin and the old one. *)
Definition replace_peer (s : TrustStore) (name : string) (address : option string) (fp : Fingerprint) (now : string)
    (role : TrustRole) : TrustStore * option (TrustPeer * TrustPeer) :=
  match find s name with
  | None => (s, None)
  | Some old =>
      let new := mkPeer name (fp_display fp) (default EmptyString address) now (Some (role_str role))
                   None None None None (p_remote_qsh old) in
      (update s name (fun _ => new), Some (new, old))
  end.

(** ** The parsed view *)

(** One pin as a decision sees it. *)
Record PinRole := mkPinRole {
  pr_name : string;
  pr_fingerprint : Fingerprint;
  pr_role : option TrustRole;
  pr_grants : option PinGrants;
}.

Definition parsed_pins (s : TrustStore) : list (Fingerprint * Principal) :=
  omap (fun p => match fp_from_str (p_fingerprint p) with
                 | Ok fp => Some (fp, Device (p_name p))
                 | Err _ => None
                 end) (peers s).

Definition pin_role (p : TrustPeer) : option PinRole :=
  match fp_from_str (p_fingerprint p) with
  | Ok fp => Some (mkPinRole (p_name p) fp (p_role p ≫= role_from_str)
                     (ok_flat (pin_parse (p_grants p) (p_paths p) (p_scope p))))
  | Err _ => None
  end.
Definition parsed_pin_roles (s : TrustStore) : list PinRole := omap pin_role (peers s).

Definition parsed_cas (s : TrustStore) : list Cert := omap (fun c => pem_decode (cert_pem c)) (cas s).

(** The pin of a connection: its name and its key. *)
Definition pin_of (pins : list PinRole) (name : string) (fp : Fingerprint) : option PinRole :=
  List.find (fun pin => bool_decide (pr_name pin = name) && bool_decide (pr_fingerprint pin = fp)) pins.

Definition role_of_pin (pins : list PinRole) (suspended : bool) (p : Principal) (a : AuthPath)
    (fp : option Fingerprint) : option TrustRole :=
  if suspended || negb (bool_decide (a = Pin)) then None
  else match p, fp with
       | Device name, Some fp => pin_of pins name fp ≫= pr_role
       | _, _ => None
       end.

Definition standing_of_pin (pins : list PinRole) (suspended : bool) (p : Principal) (a : AuthPath)
    (fp : option Fingerprint) : Standing :=
  if suspended || negb (bool_decide (a = Pin)) then no_standing
  else match p, fp with
       | Device name, Some fp =>
           match pin_of pins name fp with
           | Some pin => mkStanding (pr_role pin) (pr_grants pin)
           | None => no_standing
           end
       | _, _ => no_standing
       end.

(** [TrustStore::query_role], [TrustStore::query_standing] *)
Definition query_role (s : TrustStore) (p : Principal) (a : AuthPath) : option TrustRole :=
  match p with
  | Device name =>
      if negb (bool_decide (a = Pin)) then None
      else match find s name with
           | None => None
           | Some peer =>
               match fp_from_str (p_fingerprint peer) with
               | Err _ => None
               | Ok fp => Some (default NoneRole (role_of_pin (parsed_pin_roles s) false p a (Some fp)))
               end
           end
  | _ => None
  end.

Definition query_standing (s : TrustStore) (p : Principal) (a : AuthPath) : Standing :=
  match query_role s p a, p with
  | Some role, Device name =>
      match find s name with
      | None => no_standing
      | Some peer =>
          match fp_from_str (p_fingerprint peer) with
          | Err _ => mkStanding (Some role) None
          | Ok fp => mkStanding (Some role) (st_pin (standing_of_pin (parsed_pin_roles s) false p a (Some fp)))
          end
      end
  | _, _ => no_standing
  end.
End Ops.

(** ** The operations as steps *)

Inductive StoreOp :=
  | AddPeer (name : string) (address : option string) (fp : Fingerprint) (now : string) (role : option TrustRole)
  | SetRemoteQsh (name path : string)
  | MarkSource (name source : string)
  | AddCa (name pem : string)
  | AddCaAppendOnly (name pem : string)
  | Remove (name : string)
  | Rename (old new : string)
  | SetRole (name : string) (role : TrustRole)
  | SetGrants (name : string) (k : PinGrantKeys)
  | ReplacePeer (name : string) (address : option string) (fp : Fingerprint) (now : string) (role : TrustRole).

Section Steps.
Context {Cert : Type} `{TrustFormat Cert} `{Base64}.

Definition run_op (s : TrustStore) (o : StoreOp) : TrustStore :=
  match o with
  | AddPeer name address fp now role => fst (add_peer_inner s name address fp now role)
  | SetRemoteQsh name path => fst (set_remote_qsh s name path)
  | MarkSource name source => fst (mark_source s name source)
  | AddCa name pem => fst (add_ca s name pem)
  | AddCaAppendOnly name pem => fst (add_ca_append_only s name pem)
  | Remove name => fst (remove s name)
  | Rename old new => fst (rename s old new)
  | SetRole name role => fst (set_role s name role)
  | SetGrants name k => fst (set_grants s name k)
  | ReplacePeer name address fp now role => fst (replace_peer s name address fp now role)
  end.

(** ** What the loader accepts *)

Definition peer_valid (p : TrustPeer) : Prop := role_valid p = true /\ exists g, keys_parse (peer_keys p) = Ok g.

Record wf_store (s : TrustStore) : Prop := {
  wf_names : NoDup (p_name <$> peers s);
  wf_cas : NoDup (ca_name <$> cas s);
  wf_peers : Forall peer_valid (peers s);
}.

Lemma check_roles_ok ps : check_roles ps = Ok tt <-> Forall (fun p => role_valid p = true) ps.
Proof.
  induction ps as [|p ps IH]; cbn [check_roles]; [done|]. rewrite Forall_cons. destruct (role_valid p); [tauto|]. naive_solver.
Qed.

Lemma check_grants_ok ps : check_grants ps = Ok tt <-> Forall (fun p => exists g, keys_parse (peer_keys p) = Ok g) ps.
Proof.
  induction ps as [|p ps IH]; cbn [check_grants]; [done|]. rewrite Forall_cons. unfold keys_parse, peer_keys at 1.
  cbn [k_grants k_paths k_scope]. destruct (pin_parse _ _ _); naive_solver.
Qed.

Lemma load_spec s : Forall peer_valid (peers s) <-> load (Some (save s)) = Ok s.
Proof.
  unfold load, save, store_parse. rewrite toml_law.
  assert (Hsplit : Forall peer_valid (peers s) <-> check_roles (peers s) = Ok tt /\ check_grants (peers s) = Ok tt).
  { rewrite check_roles_ok, check_grants_ok. unfold peer_valid. apply Forall_and. }
  rewrite Hsplit. destruct (check_roles (peers s)) as [[]|]; [|naive_solver]. cbn [rbind].
  destruct (check_grants (peers s)) as [[]|]; cbn; naive_solver.
Qed.

(** ** Updates of one pin *)

Lemma find_some_peer s name p : find s name = Some p -> p ∈ peers s /\ p_name p = name.
Proof. unfold find. intros [Hin Hb]%find_some. apply bool_decide_eq_true in Hb. by rewrite list_elem_of_In. Qed.

Lemma find_none_peer s name : find s name = None -> name ∉ (p_name <$> peers s).
Proof.
  unfold find. intros Hn (p & -> & Hin)%list_elem_of_fmap. rewrite list_elem_of_In in Hin.
  pose proof (find_none _ _ Hn p Hin) as Hb. by apply bool_decide_eq_false in Hb.
Qed.

Lemma update_elem name f ps q :
  q ∈ update_first name f ps ->
  q ∈ ps \/ exists p, List.find (fun p => bool_decide (p_name p = name)) ps = Some p /\ q = f p.
Proof.
  induction ps as [|p ps IH]; [by left|]. cbn [update_first List.find]. case_bool_decide; rewrite !elem_of_cons.
  - intros [->|?]; [right; eauto|auto].
  - intros [->|?%IH]; [auto|]. naive_solver.
Qed.

Lemma update_names name f ps :
  (forall p, p_name p = name -> p_name (f p) = name) -> p_name <$> update_first name f ps = p_name <$> ps.
Proof.
  intros Hf. induction ps as [|p ps IH]; [done|]. cbn [update_first]. case_bool_decide as Hp; rewrite !fmap_cons.
  - by rewrite (Hf p Hp), Hp.
  - by rewrite IH.
Qed.

Lemma rename_names old new ps f :
  (forall p, p_name (f p) = new) -> new ∉ (p_name <$> ps) -> NoDup (p_name <$> ps) ->
  NoDup (p_name <$> update_first old f ps) /\ forall x, x ∈ (p_name <$> update_first old f ps) -> x = new \/ x ∈ (p_name <$> ps).
Proof.
  intros Hf. induction ps as [|p ps IH]; [set_solver|]. cbn [update_first]. rewrite fmap_cons. intros Hnew [Hp Hnd]%NoDup_cons.
  case_bool_decide; rewrite fmap_cons.
  - rewrite Hf. split; [apply NoDup_cons; set_solver|set_solver].
  - destruct IH as [IHn IHx]; [set_solver|done|]. split; [|set_solver]. apply NoDup_cons. split; [|done].
    intros Hin%IHx. set_solver.
Qed.

Lemma update_valid name f ps :
  Forall peer_valid ps -> (forall p, peer_valid p -> peer_valid (f p)) -> Forall peer_valid (update_first name f ps).
Proof.
  intros Hps Hf. induction Hps as [|p ps Hp Hps IH]; [constructor|]. cbn [update_first].
  case_bool_decide; constructor; auto.
Qed.

Lemma update_wf s name f :
  wf_store s -> (forall p, p_name p = name -> p_name (f p) = name) -> (forall p, peer_valid p -> peer_valid (f p)) ->
  wf_store (update s name f).
Proof.
  intros [Hn Hc Hp] Hname Hf. split; cbn [update peers cas]; [by rewrite update_names|done|by apply update_valid].
Qed.

Lemma update_ca_names name pem cs : ca_name <$> update_ca name pem cs = ca_name <$> cs.
Proof. induction cs as [|c cs IH]; [done|]. cbn [update_ca]. case_bool_decide; rewrite !fmap_cons; [done|by rewrite IH]. Qed.

Lemma find_ca_none s name : find_ca s name = None -> name ∉ (ca_name <$> cas s).
Proof.
  unfold find_ca. intros Hn (c & -> & Hin)%list_elem_of_fmap. rewrite list_elem_of_In in Hin.
  pose proof (find_none _ _ Hn c Hin) as Hb. by apply bool_decide_eq_false in Hb.
Qed.

Lemma NoDup_snoc {A} (l : list A) x : NoDup l -> x ∉ l -> NoDup (l ++ [x]).
Proof. intros Hl Hx. apply NoDup_app. split; [done|]. split; [set_solver|apply NoDup_singleton]. Qed.

Lemma add_ca_wf s name pem : wf_store s -> wf_store (fst (add_ca s name pem)).
Proof.
  intros [Hn Hc Hp]. unfold add_ca. destruct (find_ca s name) as [c|] eqn:Ef.
  - case_bool_decide; [done|]. split; cbn [fst peers cas]; [done|by rewrite update_ca_names|done].
  - split; cbn [fst peers cas]; [done| |done]. rewrite fmap_app. apply NoDup_snoc; [done|]. by apply find_ca_none.
Qed.

Lemma filter_names {A B} (f : A -> B) (g : A -> bool) l : NoDup (f <$> l) -> NoDup (f <$> List.filter g l).
Proof.
  induction l as [|x l IH]; [done|]. rewrite fmap_cons. intros [Hx Hl]%NoDup_cons. cbn [List.filter].
  destruct (g x); [|auto]. rewrite fmap_cons. apply NoDup_cons. split; [|auto].
  intros (y & E & Hy)%list_elem_of_fmap. apply Hx. rewrite E. apply list_elem_of_fmap. exists y. split; [done|].
  rewrite list_elem_of_In in *. by apply filter_In in Hy as [? _].
Qed.

(** What an operation is called with: the keys a grant write carries come
    from [apply_allow] or [apply_deny], which only return keys that parse. *)
Definition op_ok (o : StoreOp) : Prop :=
  match o with SetGrants _ k => exists g, keys_parse k = Ok g | _ => True end.

Lemma fresh_peer_valid name fp address now role src q :
  (forall w, role = Some w -> is_Some (role_from_str w)) ->
  peer_valid (mkPeer name fp address now role None None None src q).
Proof.
  intros Hr. split; [|by exists None]. unfold role_valid. cbn [p_role]. destruct role; [|done].
  apply bool_decide_eq_true. auto.
Qed.

Lemma role_str_parses r w : role_str <$> r = Some w -> is_Some (role_from_str w).
Proof. destruct r as [r|]; [|done]. intros [= <-]. by destruct r; eexists. Qed.

Lemma run_op_wf s o : wf_store s -> op_ok o -> wf_store (run_op s o).
Proof.
  intros Hwf Ho. destruct o; cbn [run_op].
  - unfold add_peer_inner. destruct (find s name) as [p|] eqn:Ef.
    + destruct (negb _); [done|]. destruct address; [|done]. case_bool_decide; [done|]. by apply update_wf.
    + destruct Hwf as [Hn Hc Hp]. split; cbn [fst peers cas]; [|done|].
      * rewrite fmap_app. apply NoDup_snoc; [done|]. by apply find_none_peer.
      * apply Forall_app. split; [done|]. apply Forall_singleton. apply fresh_peer_valid. apply role_str_parses.
  - unfold set_remote_qsh. destruct (find s name); [|done]. case_bool_decide; [done|]. by apply update_wf.
  - unfold mark_source. destruct (find s name); [|done]. by apply update_wf.
  - by apply add_ca_wf.
  - unfold add_ca_append_only. destruct (find_ca s name); [by case_bool_decide|].
    pose proof (add_ca_wf s name pem Hwf). by destruct (add_ca s name pem).
  - destruct Hwf as [Hn Hc Hp]. split; cbn; [by apply filter_names..|].
    apply List.Forall_forall. intros p [Hin _]%filter_In. exact (proj1 (List.Forall_forall _ _) Hp p Hin).
  - unfold rename. destruct (_ || _) eqn:Et; [done|]. destruct (find s old) as [p|]; [|done].
    apply orb_false_iff in Et as [Et _]. destruct Hwf as [Hn Hc Hp].
    split; cbn [fst update peers cas]; [|done|by apply update_valid].
    apply (rename_names old new); [done| |done]. intros (p' & -> & Hin)%list_elem_of_fmap.
    apply not_true_iff_false in Et. apply Et, existsb_exists. exists p'. rewrite <- list_elem_of_In. by rewrite bool_decide_true.
  - unfold set_role. destruct (find s name); [|done]. cbv zeta. destruct (negb _); [|done]. apply update_wf; [done..|].
    intros p [_ Hg]. split; [|done]. unfold role_valid. cbn [p_role with_role]. apply bool_decide_eq_true. by apply (role_str_parses (Some role)).
  - unfold set_grants. destruct (find s name); [|done]. cbv zeta. destruct (negb _); [|done]. apply update_wf; [done..|].
    intros p [Hr _]. split; [done|]. destruct k. exact Ho.
  - unfold replace_peer. destruct (find s name); [|done]. apply update_wf; [done..|].
    intros _ _. apply fresh_peer_valid. apply (role_str_parses (Some role)).
Qed.

Lemma run_ops_wf s os : wf_store s -> Forall op_ok os -> wf_store (foldl run_op s os).
Proof.
  intros Hwf Hos. revert s Hwf. induction Hos as [|o os Ho Hos IH]; intros s Hwf; [done|]. cbn [foldl].
  by apply IH, run_op_wf.
Qed.

(** Every operation keeps the trust store well-formed: names stay unique,
    and what a save writes is accepted by the next load and reads back as it
    was, so no command leaves a file behind that suspends the grants of every
    pin. *)
Theorem store_ops_roundtrip s os :
  wf_store s -> Forall op_ok os ->
  wf_store (foldl run_op s os) /\ load (Some (save (foldl run_op s os))) = Ok (foldl run_op s os).
Proof. intros Hwf Hos. pose proof (run_ops_wf s os Hwf Hos) as Hw. split; [done|]. apply load_spec, Hw. Qed.

(** ** Whose authority a pin carries *)

(** The key a pin trusts and what it gives to that key. *)
Definition authority (p : TrustPeer) : string * option string * PinGrantKeys := (p_fingerprint p, p_role p, peer_keys p).

Lemma elem_authority s q : q ∈ peers s -> authority q ∈ (authority <$> peers s).
Proof. intros ?. apply list_elem_of_fmap. eauto. Qed.

Lemma find_authority s name p : find s name = Some p -> authority p ∈ (authority <$> peers s).
Proof. intros [? _]%find_some_peer. by apply elem_authority. Qed.

(** An update that leaves the authority of the pin as it was. *)
Lemma update_same s name f q :
  (forall p, authority (f p) = authority p) -> q ∈ peers (update s name f) -> authority q ∈ (authority <$> peers s).
Proof.
  intros Hf [?|(p & Hp & ->)]%update_elem; [by apply elem_authority|]. rewrite Hf. by eapply find_authority.
Qed.

Lemma update_other s name f q :
  q ∈ peers (update s name f) -> authority q ∈ (authority <$> peers s) \/ exists p, find s name = Some p /\ q = f p.
Proof. intros [?|?]%update_elem; [left; by apply elem_authority|by right]. Qed.

Local Ltac same := eapply update_same; [|eassumption]; done.


Lemma filter_length_eq {A} (f : A -> bool) l : length (List.filter f l) = length l <-> List.filter f l = l.
Proof.
  split; [|by intros ->]. induction l as [|x l IH]; [done|]. cbn [List.filter length]. destruct (f x); cbn [length].
  - intros [= E]. by rewrite IH.
  - pose proof (List.filter_length_le f l). lia.
Qed.

Lemma elem_filter_names {A} (f : A -> string) name l x :
  x ∈ List.filter (fun y => negb (bool_decide (f y = name))) l <-> x ∈ l /\ f x <> name.
Proof. by rewrite list_elem_of_In, filter_In, <- list_elem_of_In, negb_true_iff, bool_decide_eq_false. Qed.

(** [remove] withdraws the name: no pin and no root of that name is left,
    every other pin and root stays, and it reports a change exactly when there
    was one. *)
Lemma remove_exact s name :
  let '(s', removed) := remove s name in
  (forall p, p ∈ peers s' <-> p ∈ peers s /\ p_name p <> name)
  /\ (forall c, c ∈ cas s' <-> c ∈ cas s /\ ca_name c <> name)
  /\ (removed = true <-> s' <> s).
Proof.
  unfold remove. cbn [peers cas]. split; [apply elem_filter_names|]. split; [apply elem_filter_names|].
  rewrite orb_true_iff, !negb_true_iff, !Nat.eqb_neq, !filter_length_eq. destruct s as [ps cs]. cbn [peers cas].
  destruct (decide (List.filter (fun p => negb (bool_decide (p_name p = name))) ps = ps)) as [->|Hp];
    destruct (decide (List.filter (fun c => negb (bool_decide (ca_name c = name))) cs = cs)) as [->|Hc]; naive_solver.
Qed.

(** ** Local queries *)

Lemma NoDup_name_eq s p q : wf_store s -> p ∈ peers s -> q ∈ peers s -> p_name p = p_name q -> p = q.
Proof.
  intros [Hn _ _] Hp Hq E. apply list_elem_of_lookup in Hp as [i Hi]. apply list_elem_of_lookup in Hq as [j Hj].
  assert (i = j); [|subst; congruence]. eapply NoDup_lookup; [exact Hn|..]; rewrite list_lookup_fmap; [by rewrite Hi|].
  rewrite Hj. cbn. by rewrite E.
Qed.

(** The pin a connection of [name] with key [fp] is judged by. *)
Lemma pin_of_find s name p fp :
  wf_store s -> find s name = Some p -> fp_from_str (p_fingerprint p) = Ok fp ->
  pin_of (parsed_pin_roles s) name fp = pin_role p.
Proof.
  intros Hwf Hf Hfp. destruct (find_some_peer _ _ _ Hf) as [Hin Hn].
  assert (Hpr : pin_role p = Some (mkPinRole name fp (p_role p ≫= role_from_str)
                  (ok_flat (pin_parse (p_grants p) (p_paths p) (p_scope p))))) by (unfold pin_role; by rewrite Hfp, Hn).
  unfold pin_of. destruct (List.find _ _) as [r|] eqn:E.
  - apply find_some in E as [Hr [Er1 Er2]%andb_true_iff]. apply bool_decide_eq_true in Er1, Er2.
    apply list_elem_of_In, list_elem_of_omap in Hr as (q & Hq & Hqr).
    assert (q = p) as ->; [|done]. eapply NoDup_name_eq; [done..|]. rewrite Hn, <- Er1.
    unfold pin_role in Hqr. destruct (fp_from_str (p_fingerprint q)); [|done]. by injection Hqr as <-.
  - assert (Hmem : List.In (mkPinRole name fp (p_role p ≫= role_from_str)
                     (ok_flat (pin_parse (p_grants p) (p_paths p) (p_scope p)))) (parsed_pin_roles s))
      by (apply list_elem_of_In, list_elem_of_omap; by exists p).
    pose proof (find_none _ _ E _ Hmem) as Hb. cbn in Hb. by rewrite !bool_decide_true in Hb.
Qed.

Context `{FileGuard.OsText}.

Lemma none_role_stage pin p a action res :
  Policy.role_stage (mkStanding (Some NoneRole) pin) p a action res = None.
Proof.
  unfold Policy.role_stage, Policy.role_covers. cbn [st_role]. change (rg_actions (role_grant NoneRole)) with (@nil Action).
  rewrite (bool_decide_false (action ∈ [])) by apply not_elem_of_nil. by rewrite andb_false_r.
Qed.

(** [acl check] and [acl show] answer what a connection gets: for a pin of
    a well-formed store the standing of the local query decides every request
    as the standing of a connection made with that pin's key does. *)
Theorem query_agrees s rules name p fp action res :
  wf_store s -> find s name = Some p -> fp_from_str (p_fingerprint p) = Ok fp ->
  Policy.decide_standing rules (Device name) Pin (query_standing s (Device name) Pin) action res
  = Policy.decide_standing rules (Device name) Pin
      (standing_of_pin (parsed_pin_roles s) false (Device name) Pin (Some fp)) action res.
Proof.
  intros Hwf Hf Hfp. unfold query_standing, query_role, standing_of_pin, role_of_pin.
  rewrite Hf, Hfp. cbn [negb orb]. rewrite !bool_decide_true by done. cbn [negb orb].
  rewrite (pin_of_find s name p fp) by done. unfold pin_role. rewrite Hfp. cbn.
  destruct (p_role p ≫= role_from_str) as [r|]; [done|]. cbn.
  unfold Policy.decide_standing. by rewrite none_role_stage.
Qed.
End Steps.

(** ** Examples *)

(** A codec of stores, by their number: it satisfies what the model asks of
    TOML. *)
Definition one (s : string) : option (list string) := Some [s].
Definition peer_fields (p : TrustPeer) : list (option (list string)) :=
  [one (p_name p); one (p_fingerprint p); one (p_address p); one (p_added_at p); p_role p ≫= one; p_grants p; p_paths p;
   p_scope p ≫= one; p_source p ≫= one; p_remote_qsh p ≫= one].
Definition first (l : option (list string)) : option string := l ≫= head.
Definition fields_peer (l : list (option (list string))) : option TrustPeer :=
  match l with
  | [Some [n]; Some [f]; Some [a]; Some [t]; r; g; ps; sc; so; q] =>
      Some (mkPeer n f a t (first r) g ps (first sc) (first so) (first q))
  | _ => None
  end.
Lemma peer_fields_law p : fields_peer (peer_fields p) = Some p.
Proof. destruct p as [? ? ? ? [] ? ? [] [] []]; reflexivity. Qed.

#[global] Instance TrustPeer_countable : Countable TrustPeer := inj_countable peer_fields fields_peer peer_fields_law.
#[global] Instance CaEntry_countable : Countable CaEntry.
Proof. refine (inj_countable' (fun c => (ca_name c, cert_pem c)) (fun '(n, p) => mkCa n p) _). by intros []. Defined.
#[global] Instance TrustStore_countable : Countable TrustStore.
Proof. refine (inj_countable' (fun s => (peers s, cas s)) (fun '(p, c) => mkStore p c) _). by intros []. Defined.

Fixpoint bits_encode (p : positive) : string :=
  match p with xH => EmptyString | xO p => String "0" (bits_encode p) | xI p => String "1" (bits_encode p) end.
Fixpoint bits_decode (s : string) : positive :=
  match s with
  | EmptyString => xH
  | String a s => if Ascii.eqb a "0"%char then xO (bits_decode s) else xI (bits_decode s)
  end.
Lemma bits_law p : bits_decode (bits_encode p) = p.
Proof. induction p as [p IH|p IH|]; cbn; [by rewrite IH..|done]. Qed.

Definition number_format : TrustFormat unit.
Proof.
  refine {| toml_decode := fun text => decode (bits_decode text);
            toml_encode := fun s => bits_encode (encode s);
            pem_decode := fun _ => None |}.
  intros s. cbv beta. rewrite bits_law. apply decode_encode.
Defined.

#[local] Existing Instance number_format.
#[local] Existing Instance letters_base64.
#[local] Existing Instance FileGuard.ascii_text.

Definition demo_fp : Fingerprint := replicate 32 Byte.x01.
Definition demo_ops : list StoreOp :=
  [AddPeer "laptop" None demo_fp "2026-01-01T00:00:00Z" (Some ReadOnly);
   SetGrants "laptop" (mkKeys (Some ["file.read"%string]) (Some ["/srv"%string]) None);
   Rename "laptop" "notebook"].

Lemma empty_wf : wf_store empty_store.
Proof. by split; constructor. Qed.

Lemma demo_ops_ok : Forall op_ok demo_ops.
Proof. repeat constructor. eexists. vm_compute. reflexivity. Qed.

Lemma store_ops_roundtrip_witness :
  load (Some (save (foldl run_op empty_store demo_ops))) = Ok (foldl run_op empty_store demo_ops).
Proof. exact (proj2 (store_ops_roundtrip empty_store demo_ops empty_wf demo_ops_ok)). Defined.

Definition demo_peer : TrustPeer :=
  mkPeer "notebook" (fp_display demo_fp) EmptyString "2026-01-01T00:00:00Z" (Some "read-only"%string)
    (Some ["file.read"%string]) (Some ["/srv"%string]) None None None.


Lemma query_agrees_witness :
  Policy.decide_standing [] (Device "notebook") Pin
    (query_standing (foldl run_op empty_store demo_ops) (Device "notebook") Pin) SessionList (Policy.unowned "x")
  = Policy.decide_standing [] (Device "notebook") Pin
      (standing_of_pin (parsed_pin_roles (foldl run_op empty_store demo_ops)) false (Device "notebook") Pin (Some demo_fp))
      SessionList (Policy.unowned "x").
Proof.
  apply (query_agrees (foldl run_op empty_store demo_ops) [] "notebook" demo_peer demo_fp).
  - exact (run_ops_wf empty_store demo_ops empty_wf demo_ops_ok).
  - vm_compute. reflexivity.
  - vm_compute. reflexivity.
Defined.

End TrustStore.
