(* ===== verification/Trust.v ===== *)
(** * The shared trust store

    [Trust] models [SharedTrustStore] of [crates/qsh-core/src/trust/mod.rs]:
    the cached snapshot of [trust.toml], its reload, the answers a TLS
    handshake ([TrustEvaluator]) and an authorization read from it, and the
    authorizer of [crates/qsh-core/src/acl/resolving.rs] with the punch gate of
    [acl/punch.rs] on top.

    The disk is part of the state.  A refresh is two steps, the read of the
    file and the application under the write lock; one caller runs them back
    to back, several callers interleave them. *)

From S2P Require Import Prelude Text FileGuard Identity Acl Policy Grants TrustStore.

Module Trust.
Import Text Identity Acl Policy Grants TrustStore.

(** What [read_raw] gives: the text, no file, or a read failure. *)
Definition Disk := result (option string) unit.

(** [Cached]; the parsed views are functions of [c_store].  The modification
    time, which gates nothing, is left out. *)
Record Cached := mkCached {
  c_raw : option string;
  c_store : TrustStore;
  c_failed_raw : option (option string);
  c_read_failed : bool;
}.

(** [Cached::new] *)
Definition cached_new (raw : option string) (s : TrustStore) : Cached := mkCached raw s None false.

(** [Cached::roles_suspended] *)
Definition suspended (c : Cached) : bool := bool_decide (is_Some (c_failed_raw c)) || c_read_failed c.

(** The store and what it depends on: the file, and whether an attached invite
    store has an open window. *)
Record Shared := mkShared {
  disk : Disk;
  cache : Cached;
  generation : N;
  pairing : option bool;
}.

Definition with_disk (d : Disk) (w : Shared) : Shared := mkShared d (cache w) (generation w) (pairing w).

Section Store.
Context {Cert : Type} `{TrustFormat Cert} `{Base64} `{FileGuard.OsText}.

(** [SharedTrustStore::open] *)
Definition open (d : Disk) (p : option bool) : option Shared :=
  match d with
  | Err _ => None
  | Ok raw => match load raw with
              | Err _ => None
              | Ok s => Some (mkShared d (cached_new raw s) 0 p)
              end
  end.

(** [SharedTrustStore::is_current] *)
Definition is_current (c : Cached) (raw : option string) : bool :=
  if c_read_failed c then false
  else match c_failed_raw c with
       | Some failed => bool_decide (failed = raw)
       | None => bool_decide (c_raw c = raw)
       end.

(** The part of [SharedTrustStore::refresh] after the read: the snapshot and
    the generation. *)
Definition apply_read (d : Disk) (c : Cached) (gen : N) : Cached * N :=
  match d with
  | Err _ =>
      if c_read_failed c then (c, gen)
      else (mkCached (c_raw c) (c_store c) (c_failed_raw c) true, gen)
  | Ok raw =>
      if is_current c raw then (c, gen)
      else
        let c := mkCached (c_raw c) (c_store c) (c_failed_raw c) false in
        if bool_decide (c_failed_raw c = None) && bool_decide (c_raw c = raw) then (c, gen)
        else match load raw with
             | Ok s => (cached_new raw s, gen + 1)
             | Err _ => (mkCached (c_raw c) (c_store c) (Some raw) (c_read_failed c), gen)
             end
  end.

(** [SharedTrustStore::refresh] with no other call between its read and its
    application; calls that overlap are under Interleavings below. *)
Definition refresh (w : Shared) : Shared :=
  let '(c, gen) := apply_read (disk w) (cache w) (generation w) in
  mkShared (disk w) c gen (pairing w).

(** [SharedTrustStore::resolve_role], [resolve_standing] *)
Definition no_role_possible (p : Principal) (a : AuthPath) (fp : option Fingerprint) : bool :=
  negb (bool_decide (a = Pin)) || negb (is_device p) || bool_decide (fp = None).

Definition resolve_role (p : Principal) (a : AuthPath) (fp : option Fingerprint) (w : Shared) : Shared * option TrustRole :=
  if no_role_possible p a fp then (w, None)
  else let w := refresh w in
       (w, role_of_pin (parsed_pin_roles (c_store (cache w))) (suspended (cache w)) p a fp).

Definition resolve_standing (p : Principal) (a : AuthPath) (fp : option Fingerprint) (w : Shared) : Shared * Standing :=
  if no_role_possible p a fp then (w, no_standing)
  else let w := refresh w in
       (w, standing_of_pin (parsed_pin_roles (c_store (cache w))) (suspended (cache w)) p a fp).

(** [SharedTrustStore::role_grants_for] *)
Definition role_grants_for (p : Principal) (a : AuthPath) (fp : option Fingerprint) (w : Shared) : Shared * RoleGrants :=
  let '(w, s) := resolve_standing p a fp w in (w, of_standing s).

(** [SharedTrustStore::roles_suspended], [SharedTrustStore::snapshot] *)
Definition roles_suspended (w : Shared) : Shared * bool := let w := refresh w in (w, suspended (cache w)).
Definition snapshot (w : Shared) : Shared * TrustStore := let w := refresh w in (w, c_store (cache w)).

Definition lookup_in (pins : list (Fingerprint * Principal)) (fp : Fingerprint) : option Principal :=
  snd <$> List.find (fun e => bool_decide (fst e = fp)) pins.

(** The store as a [TrustEvaluator]. *)
#[global] Instance Shared_evaluator : TrustEvaluator Cert Shared := {
  lookup_pin fp w := let w := refresh w in (w, lookup_in (parsed_pins (c_store (cache w))) fp);
  ca_roots w := let w := refresh w in (w, parsed_cas (c_store (cache w)));
  pairing_open w := default false (pairing w);
}.

(** [SnapshotView]: the same answers, without the refresh. *)
Record SnapshotView := mkView { view : Shared }.

#[global] Instance SnapshotView_evaluator : TrustEvaluator Cert SnapshotView := {
  lookup_pin fp v := (v, lookup_in (parsed_pins (c_store (cache (view v)))) fp);
  ca_roots v := (v, parsed_cas (c_store (cache (view v))));
  pairing_open v := default false (pairing (view v));
}.

(** [SnapshotView::role_grants_unless_suspended] *)
Definition role_grants_unless_suspended (w : Shared) (p : Principal) (a : AuthPath) (fp : option Fingerprint)
    : option RoleGrants :=
  if suspended (cache w) then None
  else Some (of_standing (standing_of_pin (parsed_pin_roles (c_store (cache w))) false p a fp)).

(** ** The authorizer *)

(** [RoleResolvingAuthorizer]; the store it shares is the state. *)
Record RoleResolvingAuthorizer := mkResolving { rra_policy : Rules }.

#[global] Instance RoleResolving_authorizer : Authorizer RoleResolvingAuthorizer Shared := {
  check self q action res w :=
    let '(w, standing) := resolve_standing (q_principal q) (q_auth_path q) (q_fingerprint q) w in
    (w, decide_standing (rra_policy self) (q_principal q) (q_auth_path q) standing action res);
  has_file_grant self q action w :=
    let '(w, standing) := resolve_standing (q_principal q) (q_auth_path q) (q_fingerprint q) w in
    (w, file_grant_basis (rra_policy self) (q_principal q) (q_auth_path q) standing action);
}.
End Store.

(** ** What the cache holds *)

Section Facts.
Context {Cert : Type} `{TrustFormat Cert} `{Base64} `{FileGuard.OsText}.
Implicit Types (w : Shared) (c : Cached) (d : Disk).

(** The store a state of the disk holds. *)
Definition view_of d : option TrustStore :=
  match d with
  | Ok raw => match load raw with Ok s => Some s | Err _ => None end
  | Err _ => None
  end.

(** The abstract store: the last contents that loaded, and whether the
    present ones do not. *)
Definition spec_step (st : TrustStore * bool) d : TrustStore * bool :=
  match view_of d with Some s => (s, false) | None => (fst st, true) end.

Record wf_cache c : Prop := {
  wf_raw : load (c_raw c) = Ok (c_store c);
  wf_failed : forall failed, c_failed_raw c = Some failed -> exists e, load failed = Err e;
}.

Lemma cached_new_wf raw s : load raw = Ok s -> wf_cache (cached_new raw s).
Proof. by split. Qed.

Lemma suspended_false c : suspended c = false <-> c_failed_raw c = None /\ c_read_failed c = false.
Proof.
  unfold suspended. rewrite orb_false_iff, bool_decide_eq_false. destruct (c_failed_raw c); [|naive_solver].
  split; [intros [Hn _]; exfalso; apply Hn; by eexists|naive_solver].
Qed.

(** The outcome of a step on the cache. *)
Definition refines_step c (r : Cached * N) gen d : Prop :=
  wf_cache (fst r) /\ (c_store (fst r), suspended (fst r)) = spec_step (c_store c, suspended c) d
  /\ (snd r = gen /\ c_store (fst r) = c_store c \/ snd r = gen + 1).

Lemma reload_spec raw c gen :
  wf_cache c ->
  refines_step c (match load raw with
                  | Ok s => (cached_new raw s, gen + 1)
                  | Err _ => (mkCached (c_raw c) (c_store c) (Some raw) false, gen)
                  end) gen (Ok raw).
Proof.
  intros [Hr Hf]. unfold refines_step, spec_step, view_of. destruct (load raw) as [s|e] eqn:El; cbn [fst snd].
  - split; [by apply cached_new_wf|]. split; [done|by right].
  - split; [split; [done|]; intros ? [= <-]; eauto|]. split; [done|by left].
Qed.

Lemma apply_read_spec d c gen : wf_cache c -> refines_step c (apply_read d c gen) gen d.
Proof.
  intros Hwf. pose proof Hwf as [Hr Hf]. destruct d as [raw|[]]; cycle 1.
  { unfold refines_step, apply_read, spec_step. cbn [view_of]. destruct (c_read_failed c) eqn:E; cbn [fst snd].
    - split; [done|]. split; [|by left]. unfold suspended. by rewrite E, orb_true_r.
    - split; [done|]. split; [|by left]. unfold suspended. cbn. by rewrite orb_true_r. }
  unfold apply_read. destruct (is_current c raw) eqn:Ec.
  - unfold is_current in Ec. destruct (c_read_failed c) eqn:Erf; [done|].
    unfold refines_step, spec_step, view_of, suspended. cbn [fst snd]. rewrite Erf.
    destruct (c_failed_raw c) as [failed|] eqn:Efr; apply bool_decide_eq_true in Ec as <-.
    + destruct (Hf _ eq_refl) as [e ->]. split; [done|]. split; [done|by left].
    + rewrite Hr. split; [done|]. split; [done|by left].
  - cbn [c_failed_raw c_raw c_store c_read_failed]. destruct (bool_decide (c_failed_raw c = None)) eqn:Efr; cycle 1.
    { by apply reload_spec. }
    apply bool_decide_eq_true in Efr. cbn [andb]. case_bool_decide as Eraw; [|by apply reload_spec].
    subst raw. unfold refines_step, spec_step, view_of. cbn [fst snd]. rewrite Hr, Efr.
    split; [done|]. split; [done|by left].
Qed.

Lemma refresh_spec w :
  wf_cache (cache w) ->
  wf_cache (cache (refresh w)) /\ disk (refresh w) = disk w
  /\ (c_store (cache (refresh w)), suspended (cache (refresh w)))
     = spec_step (c_store (cache w), suspended (cache w)) (disk w)
  /\ (generation (refresh w) = generation w /\ c_store (cache (refresh w)) = c_store (cache w)
      \/ generation (refresh w) = generation w + 1).
Proof.
  intros Hwf. unfold refresh. pose proof (apply_read_spec (disk w) (cache w) (generation w) Hwf) as (Hc & Hs & Hg).
  destruct (apply_read (disk w) (cache w) (generation w)) as [c gen]. done.
Qed.

Lemma open_wf d p w : open d p = Some w -> wf_cache (cache w) /\ view_of d = Some (c_store (cache w)) /\ suspended (cache w) = false.
Proof.
  unfold open, view_of. destruct d as [raw|]; [|done]. destruct (load raw) as [s|] eqn:E; [|done].
  intros [= <-]. split; [by apply cached_new_wf|done].
Qed.

(** ** Decisions *)

(** The standing a request has by the file alone. *)
Definition disk_standing d (p : Principal) (a : AuthPath) (fp : option Fingerprint) : Standing :=
  match view_of d with
  | Some s => standing_of_pin (parsed_pin_roles s) false p a fp
  | None => no_standing
  end.

Lemma no_role_standing pins b p a fp : no_role_possible p a fp = true -> standing_of_pin pins b p a fp = no_standing.
Proof.
  unfold no_role_possible, standing_of_pin. intros Hn. destruct b; [done|]. cbn [orb].
  destruct (bool_decide (a = Pin)); [|done]. cbn [negb orb] in *. destruct p; try done. destruct fp; done.
Qed.

Lemma suspended_standing pins p a fp : standing_of_pin pins true p a fp = no_standing.
Proof. done. Qed.

Lemma resolve_standing_disk p a fp w :
  wf_cache (cache w) ->
  let '(w', s) := resolve_standing p a fp w in
  wf_cache (cache w') /\ disk w' = disk w /\ s = disk_standing (disk w) p a fp.
Proof.
  intros Hwf. unfold resolve_standing, disk_standing. destruct (no_role_possible p a fp) eqn:En.
  - split; [done|]. split; [done|]. destruct (view_of (disk w)); [|done]. symmetry. by apply no_role_standing.
  - destruct (refresh_spec w Hwf) as (Hwf' & Hd & Hs & _). split; [done|]. split; [done|].
    unfold spec_step in Hs. destruct (view_of (disk w)) as [s|]; injection Hs as -> ->; done.
Qed.

(** A standing needs a pin with the connection's name and key. *)
Lemma standing_pin pins p a fp s :
  standing_of_pin pins false p a fp = s -> s <> no_standing ->
  a = Pin /\ exists name key pin, p = Device name /\ fp = Some key /\ pin ∈ pins /\ pr_name pin = name
    /\ pr_fingerprint pin = key /\ s = mkStanding (pr_role pin) (pr_grants pin).
Proof.
  unfold standing_of_pin. cbn [orb]. intros <- Hs. case_bool_decide as Ha; [subst a|done]. cbn [negb] in *.
  destruct p as [name| | |]; try done. destruct fp as [key|]; [|done]. unfold pin_of in *.
  destruct (List.find _ pins) as [pin|] eqn:E; [|done].
  apply find_some in E as [Hin [Hn%bool_decide_eq_true Hk%bool_decide_eq_true]%andb_true_iff].
  split; [done|]. exists name, key, pin. rewrite list_elem_of_In. done.
Qed.

(** The file holds a pin of that name for that key. *)
Definition pinned d (name : string) (key : Fingerprint) : Prop :=
  exists s p, view_of d = Some s /\ p ∈ peers s /\ p_name p = name /\ fp_from_str (p_fingerprint p) = Ok key.

Lemma unpinned_standing d name key a :
  ~ pinned d name key -> disk_standing d (Device name) a (Some key) = no_standing.
Proof.
  intros Hn. unfold disk_standing. destruct (view_of d) as [s|] eqn:E; [|done].
  destruct (standing_of_pin _ _ _ _ _) as [r g] eqn:Es.
  assert (Hor : mkStanding r g = no_standing \/ mkStanding r g <> no_standing) by (destruct r, g; auto).
  destruct Hor as [?|Hne]; [done|]. exfalso.
  apply standing_pin in Es as (_ & n & k & pin & [= <-] & [= <-] & Hin & Hnm & Hk & _); [|done].
  apply list_elem_of_omap in Hin as (p & Hp & Hpr). unfold pin_role in Hpr.
  destruct (fp_from_str (p_fingerprint p)) as [fp|] eqn:Ef; [|done]. injection Hpr as <-. cbn in *. subst.
  apply Hn. by exists s, p.
Qed.

(** A withdrawn pin grants nothing: once [trust.toml] holds no pin of the
    connection's name with the connection's key (the pin was removed, renamed
    or replaced by another key, or the file is broken), the next decision is
    the one the [acl.toml] rows alone give. *)
Theorem withdrawn_pin_grants_nothing rules q action res w name key :
  wf_cache (cache w) -> q_principal q = Device name -> q_fingerprint q = Some key -> ~ pinned (disk w) name key ->
  snd (check (mkResolving rules) q action res w)
  = decide_standing rules (q_principal q) (q_auth_path q) no_standing action res.
Proof.
  intros Hwf Hp Hf Hn. cbn. pose proof (resolve_standing_disk (q_principal q) (q_auth_path q) (q_fingerprint q) w Hwf) as Hr.
  destruct (resolve_standing _ _ _ w) as [w' s]. destruct Hr as (_ & _ & ->).
  by rewrite Hp, Hf, unpinned_standing.
Qed.

(** ** Admission *)

Context `{X509 Cert}.

Lemma lookup_in_some s fp p :
  lookup_in (parsed_pins s) fp = Some p ->
  exists peer, peer ∈ peers s /\ fp_from_str (p_fingerprint peer) = Ok fp /\ p = Device (p_name peer).
Proof.
  unfold lookup_in. destruct (List.find _ _) as [[fp' p']|] eqn:E; [|done]. cbn. intros [= ->].
  apply find_some in E as [Hin Hb%bool_decide_eq_true]. cbn in Hb. subst fp'.
  apply list_elem_of_In, list_elem_of_omap in Hin as (peer & Hpeer & Hp).
  destruct (fp_from_str (p_fingerprint peer)) as [k|] eqn:Ek; [|done]. injection Hp as <- <-. by exists peer.
Qed.

(** C35: A handshake admits only whom the trust store vouches for: an accepted
    peer is within its certificate's validity, and either some pin of the last
    good [trust.toml] holds its key and gives it its name, or a CA root of
    that file signed it and the certificate itself asserts the name, or an
    invite window is open and the peer gets the pairing principal only. *)
Theorem admitted_is_vouched ee ints now role w w' v :
  wf_cache (cache w) ->
  verify_core ee ints now role w = (w', Ok v) ->
  let s := fst (spec_step (c_store (cache w), suspended (cache w)) (disk w)) in
  exists fp nb na, of_cert_der ee = Some fp /\ validity_unix ee = Some (nb, na)
  /\ (nb <= Z.min (Z.of_N now) I64_MAX <= na)%Z
  /\ ((v_auth_path v = Pin
       /\ exists peer, peer ∈ peers s /\ fp_from_str (p_fingerprint peer) = Ok fp /\ v_principal v = Device (p_name peer))
      \/ (v_auth_path v = Ca /\ parsed_cas s <> [] /\ verify_for_usage (parsed_cas s) ee ints now role = Ok tt
          /\ asserts ee (v_principal v))
      \/ (v = mkVerified PairingPrincipal Pairing /\ pairing w = Some true)).
Proof.
  intros Hwf Hv. destruct (refresh_spec w Hwf) as (Hwf1 & Hd1 & Hs1 & _).
  destruct (refresh_spec (refresh w) Hwf1) as (_ & _ & Hs2 & _). rewrite Hd1, Hs1 in Hs2.
  assert (Hst : c_store (cache (refresh w)) = fst (spec_step (c_store (cache w), suspended (cache w)) (disk w)))
    by (by rewrite <- Hs1).
  assert (Hst2 : c_store (cache (refresh (refresh w))) = fst (spec_step (c_store (cache w), suspended (cache w)) (disk w))).
  { apply (f_equal fst) in Hs2. cbn [fst] in Hs2. rewrite Hs2. unfold spec_step. by destruct (view_of (disk w)). }
  apply verify_core_ok in Hv as (fp & nb & na & Hfp & Hval & Hnow & Hcase). exists fp, nb, na.
  do 3 (split; [done|]). cbn [lookup_pin ca_roots pairing_open Shared_evaluator] in Hcase.
  destruct Hcase as [[Ha Hl]|(w1 & roots & Hl & Hr & Hcase)].
  - left. split; [done|]. injection Hl as <- Hl. rewrite Hst in Hl. by apply lookup_in_some.
  - injection Hl as <- Hl. injection Hr as <- Hroots. rewrite Hst2 in Hroots. subst roots. right.
    destruct Hcase as [(Ha & Hne & Hu & Has)|(-> & Hp)]; [by left|right]. split; [done|].
    unfold refresh in Hp. repeat destruct (apply_read _ _ _). cbn in Hp. by destruct (pairing w) as [[]|].
Qed.

(** ** Interleavings *)

(** Callers that refresh at the same time: each reads the file, then applies
    what it read under the write lock. *)
Inductive Event := Change (d : Disk) | ReadFile (t : nat) | Apply (t : nat).

Definition Threads : Type := Shared * gmap nat Disk.

Definition event (s : Threads) (e : Event) : Threads :=
  let '(w, reads) := s in
  match e with
  | Change d => (with_disk d w, reads)
  | ReadFile t => (w, <[t := disk w]> reads)
  | Apply t =>
      match reads !! t with
      | Some d => let '(c, gen) := apply_read d (cache w) (generation w) in
                  (mkShared (disk w) c gen (pairing w), delete t reads)
      | None => (w, reads)
      end
  end.

(** The contents the file had at some point of the run. *)
Definition seen (d0 : Disk) (es : list Event) (d : Disk) : Prop := d = d0 \/ Change d ∈ es.

Lemma event_wf s e : wf_cache (cache (fst s)) -> wf_cache (cache (fst (event s e))).
Proof.
  destruct s as [w reads]. intros Hwf. destruct e as [d|t|t]; cbn; [done..|]. destruct (reads !! t) as [d|]; [|done].
  pose proof (apply_read_spec d (cache w) (generation w) Hwf) as (Hc & _). by destruct (apply_read d (cache w) (generation w)).
Qed.

Record traced (d0 : Disk) (es : list Event) (s : Threads) : Prop := {
  tr_wf : wf_cache (cache (fst s));
  tr_disk : seen d0 es (disk (fst s));
  tr_reads : forall t d, snd s !! t = Some d -> seen d0 es d;
  tr_store : exists d, seen d0 es d /\ view_of d = Some (c_store (cache (fst s)));
}.

Lemma seen_snoc d0 es e d : seen d0 es d -> seen d0 (es ++ [e]) d.
Proof. intros [?|?]; [by left|right; set_solver]. Qed.

Lemma event_traced d0 es s e : traced d0 es s -> traced d0 (es ++ [e]) (event s e).
Proof.
  intros [Hwf Hd Hr (ds & Hs & Hst)]. pose proof (event_wf s e Hwf) as Hwf'. destruct s as [w reads]. cbn in *.
  split; [done|..]; destruct e as [d|t|t]; cbn in *; try (by eauto using seen_snoc).
  - right. set_solver.
  - destruct (reads !! t) as [d|] eqn:Et; [|by eauto using seen_snoc]. destruct (apply_read _ _ _). eauto using seen_snoc.
  - intros t' d'. destruct (decide (t = t')) as [<-|Hne].
    + rewrite lookup_insert_eq. intros [= <-]. eauto using seen_snoc.
    + rewrite lookup_insert_ne by done. eauto using seen_snoc.
  - destruct (reads !! t) as [d|] eqn:Et; [|by eauto using seen_snoc]. destruct (apply_read _ _ _).
    intros t' d' Hd'. cbn in Hd'. apply lookup_delete_Some in Hd' as [_ Hd']. eauto using seen_snoc.
  - destruct (reads !! t) as [d|] eqn:Et; [|by eauto using seen_snoc].
    pose proof (apply_read_spec d (cache w) (generation w) Hwf) as (_ & Hspec & _).
    destruct (apply_read _ _ _) as [c gen]. cbn in *. unfold spec_step in Hspec.
    destruct (view_of d) as [s|] eqn:Ev; injection Hspec as E _; rewrite E; eauto using seen_snoc.
Qed.

(** A refresh alone is its two steps. *)
Lemma refresh_events t w reads :
  foldl event (w, reads) [ReadFile t; Apply t] = (refresh w, delete t reads).
Proof.
  cbn [foldl event]. rewrite lookup_insert_eq. unfold refresh. destruct (apply_read _ _ _). by rewrite delete_insert_eq.
Qed.

(** *** The abstract store *)

(** The contents last read, the store of the contents last read that load,
    whether the last read failed or what it found does not load, and how often
    a read found contents that load and are not those of the read before. *)
Record Spec := mkSpec { sp_text : option string; sp_store : TrustStore; sp_suspended : bool; sp_changes : N }.

Definition spec_read (st : Spec) d : Spec :=
  match d with
  | Err _ => mkSpec (sp_text st) (sp_store st) true (sp_changes st)
  | Ok raw =>
      match load raw with
      | Err _ => mkSpec raw (sp_store st) true (sp_changes st)
      | Ok s => mkSpec raw s false (if bool_decide (raw = sp_text st) then sp_changes st else sp_changes st + 1)
      end
  end.

Definition abs c (gen : N) : Spec := mkSpec (default (c_raw c) (c_failed_raw c)) (c_store c) (suspended c) gen.

Lemma apply_read_abs d c gen :
  wf_cache c -> abs (fst (apply_read d c gen)) (snd (apply_read d c gen)) = spec_read (abs c gen) d.
Proof.
  intros [Hr Hf]. destruct d as [raw|[]]; cycle 1.
  { unfold apply_read. destruct (c_read_failed c) eqn:E; unfold abs, spec_read, suspended; cbn; by rewrite ?E, orb_true_r. }
  unfold apply_read, is_current, abs, spec_read, suspended. cbn [sp_text sp_store sp_suspended sp_changes].
  destruct c as [craw cstore [failed|] []]; cbn [c_read_failed c_failed_raw c_raw c_store default fst snd] in *.
  - destruct (Hf _ eq_refl) as [e He]. rewrite (bool_decide_false (Some failed = None)) by done. cbn [andb].
    destruct (load raw) eqn:El; cbn; [|done]. rewrite bool_decide_false by congruence. done.
  - destruct (Hf _ eq_refl) as [e He]. case_bool_decide as E; [subst; rewrite He; done|].
    rewrite (bool_decide_false (Some failed = None)) by done. cbn [andb]. destruct (load raw) eqn:El; cbn; [|done].
    by rewrite bool_decide_false by congruence.
  - rewrite bool_decide_true by done. cbn [andb]. case_bool_decide as E; [subst; rewrite Hr; cbn; by rewrite bool_decide_true|].
    destruct (load raw); cbn; [|done]. by rewrite bool_decide_false by congruence.
  - case_bool_decide as E; [subst; rewrite Hr; cbn; by rewrite bool_decide_true|]. rewrite bool_decide_true by done. cbn [andb].
    destruct (load raw); cbn; [|done]. by rewrite bool_decide_false by congruence.
Qed.

(** What the calls of a run apply, in the order they do. *)
Fixpoint applied (s : Threads) (es : list Event) : list Disk :=
  match es with
  | [] => []
  | e :: es' => match e with Apply t => option_list (snd s !! t) | _ => [] end ++ applied (event s e) es'
  end.

Abbreviation abs_of s := (abs (cache (fst s)) (generation (fst s))).

Lemma run_abs es s :
  wf_cache (cache (fst s)) -> abs_of (foldl event s es) = foldl spec_read (abs_of s) (applied s es).
Proof.
  revert s. induction es as [|e es IH]; intros s Hwf; cbn [foldl applied]; [done|].
  rewrite IH by by apply event_wf. rewrite foldl_app. f_equal. destruct s as [w reads]. destruct e as [d|t|t]; cbn; [done..|].
  destruct (reads !! t) as [d|]; cbn; [|done]. rewrite <- (apply_read_abs d _ _ Hwf). by destruct (apply_read _ _ _).
Qed.

Lemma run_traced d0 es es' s : traced d0 es' s -> traced d0 (es' ++ es) (foldl event s es).
Proof.
  revert es' s. induction es as [|e es IH]; intros es' s Ht; cbn [foldl]; [by rewrite app_nil_r|].
  rewrite (cons_middle e es' es), app_assoc. by apply IH, event_traced.
Qed.

Lemma open_traced d0 p w : open d0 p = Some w -> traced d0 [] (w, ∅).
Proof.
  intros Ho. assert (Hd0 : disk w = d0).
  { unfold open in Ho. destruct d0 as [raw|]; [|done]. destruct (load raw); [|done]. by injection Ho as <-. }
  apply open_wf in Ho as (Hwf & Hv & _). split; cbn; [done|by left|by intros t d; rewrite lookup_empty|].
  exists d0. split; [by left|done].
Qed.

Lemma seen_more d0 es es' d : seen d0 es d -> seen d0 (es ++ es') d.
Proof. intros [?|?]; [by left|right; set_solver]. Qed.

Lemma applied_seen d0 es es' s : traced d0 es' s -> Forall (seen d0 (es' ++ es)) (applied s es).
Proof.
  revert es' s. induction es as [|e es IH]; intros es' s Ht; cbn [applied]; [constructor|]. apply Forall_app. split.
  - destruct e as [d|t|t]; [constructor..|]. destruct (snd s !! t) as [d|] eqn:E; cbn; [|constructor].
    constructor; [|constructor]. eapply seen_more, (tr_reads _ _ _ Ht), E.
  - rewrite (cons_middle e es' es), app_assoc. by apply IH, event_traced.
Qed.

(** C16: The reload refines its abstract store, also when calls overlap:
    whatever the file goes through and however calls that refresh interleave,
    the snapshot is the contents last applied that load, grants are suspended
    exactly while the contents last applied could not be read or do not load,
    and the generation counts exactly the applications of contents that load
    and differ from those last read before them.  Each applied read is the
    whole contents of the file at some moment of the run. *)
Theorem refresh_refines d0 p w es :
  open d0 p = Some w ->
  let w' := fst (foldl event (w, ∅) es) in
  abs (cache w') (generation w') = foldl spec_read (abs (cache w) (generation w)) (applied (w, ∅) es)
  /\ Forall (seen d0 es) (applied (w, ∅) es).
Proof.
  intros Ho%open_traced. split; [apply run_abs, Ho|]. by apply (applied_seen d0 es [] (w, ∅)).
Qed.

(** Under any interleaving of concurrent refreshes the snapshot is always
    the whole contents of some moment of the file, never a mixture and never
    one that did not load. *)
Theorem snapshot_is_some_contents d0 p w es :
  open d0 p = Some w ->
  exists d, seen d0 es d /\ view_of d = Some (c_store (cache (fst (foldl event (w, ∅) es)))).
Proof. intros Ho%open_traced. apply (run_traced d0 es [] (w, ∅)), Ho. Qed.

(** *** Decisions among concurrent calls *)

(** What a call that refreshed decides by: the snapshot at that time. *)
Definition standing_in c (p : Principal) (a : AuthPath) (fp : option Fingerprint) : Standing :=
  if no_role_possible p a fp then no_standing
  else standing_of_pin (parsed_pin_roles (c_store c)) (suspended c) p a fp.

Definition reflects c d : Prop :=
  match view_of d with Some s => c_store c = s /\ suspended c = false | None => suspended c = true end.

Lemma apply_read_reflects d c gen : wf_cache c -> reflects (fst (apply_read d c gen)) d.
Proof.
  intros Hwf. pose proof (apply_read_spec d c gen Hwf) as (_ & Hs & _). destruct (apply_read d c gen) as [c' g'].
  unfold reflects, spec_step in *. cbn [fst] in *. destruct (view_of d); injection Hs as E1 E2; [by rewrite E1, E2|done].
Qed.

Lemma reflects_standing c d p a fp : reflects c d -> standing_in c p a fp = disk_standing d p a fp.
Proof.
  unfold reflects, standing_in, disk_standing. intros Hr. destruct (no_role_possible p a fp) eqn:En.
  - destruct (view_of d); [|done]. symmetry. by apply no_role_standing.
  - destruct (view_of d) as [s|]; [by destruct Hr as [-> ->]|by rewrite Hr].
Qed.

(** Every read applied in [es] was made in it. *)
Fixpoint no_stale (begun : list nat) (es : list Event) : bool :=
  match es with
  | [] => true
  | Change _ :: es' => no_stale begun es'
  | ReadFile t :: es' => no_stale (t :: begun) es'
  | Apply t :: es' => bool_decide (t ∈ begun) && no_stale begun es'
  end.

(** During a call: what was read since it began are contents the file had
    since then. *)
Record during (D : Disk -> Prop) (begun : list nat) (s : Threads) : Prop := {
  du_wf : wf_cache (cache (fst s));
  du_disk : D (disk (fst s));
  du_reads : forall t d, t ∈ begun -> snd s !! t = Some d -> D d;
}.

Definition current (D : Disk -> Prop) (s : Threads) : Prop := exists d, D d /\ reflects (cache (fst s)) d.

Lemma during_apply D begun s t d :
  during D begun s -> t ∈ begun -> snd s !! t = Some d -> current D (event s (Apply t)).
Proof.
  intros [Hwf _ Hr] Ht Hd. exists d. split; [by eapply Hr|]. destruct s as [w reads]. cbn in *. rewrite Hd.
  pose proof (apply_read_reflects d (cache w) (generation w) Hwf). by destruct (apply_read _ _ _).
Qed.

Lemma during_run D begun s es rest :
  during D begun s -> no_stale begun (es ++ rest) = true -> (forall d, Change d ∈ es -> D d) ->
  exists begun', (forall t, t ∈ begun -> t ∈ begun') /\ no_stale begun' rest = true /\ during D begun' (foldl event s es) /\
    (current D s -> current D (foldl event s es)) /\
    (forall t, is_Some (snd s !! t) -> Apply t ∉ es -> is_Some (snd (foldl event s es) !! t)).
Proof.
  revert begun s. induction es as [|e es IH]; intros begun s Hdu Hn HD; cbn [foldl app] in *; [exists begun; auto|].
  assert (HD' : forall d, Change d ∈ es -> D d) by (intros; apply HD; set_solver).
  pose proof (event_wf s e (du_wf _ _ _ Hdu)) as Hwf. destruct e as [d|t|t]; cbn [no_stale] in Hn.
  - destruct (IH begun (event s (Change d))) as (b' & Hb & Hns & Hd' & Hc & Hs); [|done|done|].
    { destruct s as [w reads]. split; [done|cbn; apply HD; set_solver|by apply (du_reads _ _ _ Hdu)]. }
    exists b'. split_and!; [done|done|done|by destruct s|]. destruct s. intros u Hu Hna. apply Hs; [done|set_solver].
  - destruct (IH (t :: begun) (event s (ReadFile t))) as (b' & Hb & Hns & Hd' & Hc & Hs); [|done|done|].
    { destruct s as [w reads]. split; [done|by apply Hdu|]. cbn. intros u d Hu.
      destruct (decide (u = t)) as [->|Hne]; [rewrite lookup_insert_eq; intros [= <-]; apply Hdu|].
      rewrite lookup_insert_ne by done. apply (du_reads _ _ _ Hdu). set_solver. }
    exists b'. split_and!; [set_solver|done|done|by destruct s|]. destruct s as [w reads]. cbn in *. intros u Hu Hna. apply Hs; [|set_solver].
    destruct (decide (u = t)) as [->|Hne]; [rewrite lookup_insert_eq; by eexists|by rewrite lookup_insert_ne].
  - apply andb_true_iff in Hn as [Ht%bool_decide_eq_true Hn].
    destruct (IH begun (event s (Apply t))) as (b' & Hb & Hns & Hd' & Hc & Hs); [|done|done|].
    { destruct s as [w reads]. cbn in *. destruct (reads !! t) as [d|]; [|done]. destruct (apply_read _ _ _).
      split; [done|by apply Hdu|]. cbn. intros u d' Hu [_ Hl]%lookup_delete_Some. by apply (du_reads _ _ _ Hdu u). }
    exists b'. split_and!; [done|done|done| |].
    + intros Hcur. apply Hc. destruct (snd s !! t) as [d|] eqn:E; [by eapply during_apply|]. destruct s. cbn in *. by rewrite E.
    + intros u Hu Hna. apply Hs; [|set_solver]. destruct s as [w reads]. cbn in *. destruct (reads !! t) as [d|]; [|done].
      destruct (apply_read _ _ _). cbn. rewrite lookup_delete_ne by set_solver. done.
Qed.

(** C9: A decision is made on the file.  A call that decides reads the file,
    applies what it read, and takes the standing from the snapshot.  Alone, it
    decides by the standing the present contents of [trust.toml] give the
    connection's name and key, and by no standing at all while they cannot be
    read or do not load.  Among other calls and changes of the file, it decides
    that way by contents the file had while the call was under way, provided
    that no read made before the call is applied during it. *)
Theorem check_reads_disk rules q action res s t es1 es2 :
  wf_cache (cache (fst s)) ->
  let call := ReadFile t :: es1 ++ Apply t :: es2 in
  no_stale [] call = true -> Apply t ∉ es1 ->
  let standing d := disk_standing d (q_principal q) (q_auth_path q) (q_fingerprint q) in
  let verdict st := decide_standing rules (q_principal q) (q_auth_path q) st action res in
  let ground st := file_grant_basis rules (q_principal q) (q_auth_path q) st action in
  let taken := standing_in (cache (fst (foldl event s call))) (q_principal q) (q_auth_path q) (q_fingerprint q) in
  snd (check (mkResolving rules) q action res (fst s)) = verdict (standing (disk (fst s))) /\
  snd (has_file_grant (mkResolving rules) q action (fst s)) = ground (standing (disk (fst s))) /\
  exists d, seen (disk (fst s)) call d /\ verdict taken = verdict (standing d) /\ ground taken = ground (standing d).
Proof.
  intros Hwf call Hn Ht standing verdict ground taken. apply and_assoc. split.
  { cbn. pose proof (resolve_standing_disk (q_principal q) (q_auth_path q) (q_fingerprint q) (fst s) Hwf) as Hr.
    destruct (resolve_standing _ _ _ (fst s)) as [w' st]. destruct Hr as (_ & _ & ->). done. }
  set (D := seen (disk (fst s)) call). assert (HD : forall d, Change d ∈ call -> D d) by (by right).
  enough (current D (foldl event s call)) as (d & Hd & Hr).
  { exists d. split; [done|]. unfold taken. by rewrite (reflects_standing _ d). }
  assert (during D [t] (event s (ReadFile t))) as Hdu.
  { destruct s as [w reads]. split; [done|by left|]. cbn. intros u d ->%list_elem_of_singleton. rewrite lookup_insert_eq.
    intros [= <-]. by left. }
  unfold call in *. cbn [no_stale] in Hn. cbn [foldl]. rewrite foldl_app. cbn [foldl].
  destruct (during_run D [t] (event s (ReadFile t)) es1 (Apply t :: es2) Hdu Hn) as (b & Hb & Hn2 & Hdu2 & _ & Hst).
  { intros d Hd. apply HD. set_solver. }
  cbn [no_stale] in Hn2. destruct (Hst t) as [d Hd]; [destruct s; cbn; rewrite lookup_insert_eq; by eexists|done|].
  apply andb_true_iff in Hn2 as [Hin%bool_decide_eq_true Hn2].
  pose proof (during_apply _ _ _ _ _ Hdu2 Hin Hd) as Hcur.
  destruct (during_run D b (foldl event (event s (ReadFile t)) es1) [Apply t] es2 Hdu2) as (b2 & _ & Hn3 & Hdu3 & _);
    [cbn [app no_stale]; by rewrite bool_decide_true|set_solver|]. cbn [foldl] in Hdu3.
  rewrite <- (app_nil_r es2) in Hn3.
  destruct (during_run D b2 _ es2 [] Hdu3 Hn3) as (_ & _ & _ & _ & Hc & _); [|by apply Hc].
  intros d' Hd'. apply HD. set_solver.
Qed.

Lemma apply_changed raw s raw' s' gen :
  load raw = Ok s -> raw' <> raw -> apply_read (Ok raw) (cached_new raw' s') gen = (cached_new raw s, gen + 1).
Proof.
  intros Hl Hne. unfold apply_read, is_current. cbn [c_read_failed c_failed_raw c_raw c_store cached_new].
  rewrite (bool_decide_false (raw' = raw)), andb_false_r by done. by rewrite Hl.
Qed.

(** Two refreshes can race: a caller that read the file before a change
    may apply what it read after a caller that read it later, and the second
    caller then decides on the old contents although its whole call came
    after the change. *)
Theorem stale_read_wins old new s_old s_new p w :
  load old = Ok s_old -> load new = Ok s_new -> old <> new -> open (Ok old) p = Some w ->
  let '(w', _) := foldl event (w, ∅) [ReadFile 0; Change (Ok new); ReadFile 1; Apply 1; Apply 0] in
  disk w' = Ok new /\ c_store (cache w') = s_old /\ suspended (cache w') = false.
Proof.
  intros Ho Hn Hne Hw. unfold open in Hw. rewrite Ho in Hw. injection Hw as <-.
  cbn [foldl event with_disk disk cache generation pairing]. rewrite lookup_insert_eq.
  rewrite (apply_changed new s_new) by done. cbn [event cache generation disk pairing].
  rewrite lookup_delete_ne, lookup_insert_ne, lookup_insert_eq by done.
  rewrite (apply_changed old s_old) by (done || by intros E; apply Hne). done.
Qed.
End Facts.

(** ** Examples *)

#[local] Existing Instance number_format.
#[local] Existing Instance letters_base64.
#[local] Existing Instance FileGuard.ascii_text.

(** A store with one pin, [notebook], and the states of a disk. *)
Definition demo_store : TrustStore := foldl run_op empty_store demo_ops.
Definition demo_text : option string := Some (save demo_store).
Definition demo_shared : Shared := mkShared (Ok demo_text) (cached_new demo_text demo_store) 0 None.

Lemma demo_load : load demo_text = Ok demo_store.
Proof. apply load_spec. exact (wf_peers _ (run_ops_wf empty_store demo_ops empty_wf demo_ops_ok)). Qed.

Lemma demo_wf : wf_cache (cache demo_shared).
Proof. apply cached_new_wf, demo_load. Qed.

Lemma demo_open : open (Ok demo_text) None = Some demo_shared.
Proof. unfold open. by rewrite demo_load. Qed.

Definition demo_requester : Requester := mkRequester (Device "notebook") Pin (Some demo_fp).

(** The file breaks, cannot be read and is put back, while two calls read
    it. *)
Definition demo_events : list Event :=
  [ReadFile 0; Change (Ok (Some "garbage"%string)); ReadFile 1; Apply 1; Change (Err tt); Apply 0; Change (Ok demo_text);
   ReadFile 1; Apply 1].

Lemma refresh_refines_witness :
  let w' := fst (foldl event (demo_shared, ∅) demo_events) in
  abs (cache w') (generation w') = mkSpec demo_text demo_store false 1.
Proof.
  cbv zeta. rewrite (proj1 (refresh_refines (Ok demo_text) None demo_shared demo_events demo_open)). vm_compute. reflexivity.
Defined.

Lemma check_reads_disk_witness :
  let s := (with_disk (Err tt) demo_shared, ∅) in
  let call := [ReadFile 0; Change (Ok demo_text); ReadFile 1; Apply 1; Apply 0] in
  exists d, seen (Err tt) call d /\
    decide_standing [] (Device "notebook") Pin
      (standing_in (cache (fst (foldl event s call))) (Device "notebook") Pin (Some demo_fp)) SessionList (unowned "x")
    = decide_standing [] (Device "notebook") Pin (disk_standing d (Device "notebook") Pin (Some demo_fp)) SessionList (unowned "x").
Proof.
  destruct (check_reads_disk [] demo_requester SessionList (unowned "x") (with_disk (Err tt) demo_shared, ∅) 0
    [Change (Ok demo_text); ReadFile 1; Apply 1] [] demo_wf) as (_ & _ & d & Hd & Hv & _);
    [reflexivity|intros H; repeat (apply elem_of_cons in H as [H|H]; [discriminate|]); by apply elem_of_nil in H|].
  exists d. split; [exact Hd|exact Hv].
Defined.

(** The pin allows while it is there, and no longer once the file is gone. *)
Lemma withdrawn_pin_grants_nothing_witness :
  is_allow (snd (check (mkResolving []) demo_requester SessionList (unowned "x") demo_shared)) = true
  /\ snd (check (mkResolving []) demo_requester SessionList (unowned "x") (with_disk (Ok None) demo_shared))
     = decide_standing [] (Device "notebook") Pin no_standing SessionList (unowned "x").
Proof.
  split; [vm_compute; reflexivity|].
  apply (withdrawn_pin_grants_nothing [] demo_requester SessionList (unowned "x") (with_disk (Ok None) demo_shared)
           "notebook" demo_fp demo_wf eq_refl eq_refl).
  intros (s & p & [= <-] & Hin & _). by apply elem_of_nil in Hin.
Defined.

Definition demo_x509 : X509 unit :=
  {| of_cert_der _ := Some demo_fp;
     validity_unix _ := Some (0, 4102444800)%Z;
     subject_alternative_name _ := Ok None;
     is_anchor _ := true;
     is_end_entity _ := true;
     verify_for_usage _ _ _ _ _ := Err WUnknownIssuer |}.

#[local] Existing Instance demo_x509.

Lemma admitted_is_vouched_witness :
  exists w', verify_core tt [] 1767225600 Client demo_shared = (w', Ok (mkVerified (Device "notebook") Pin))
  /\ exists fp nb na, of_cert_der tt = Some fp /\ validity_unix tt = Some (nb, na)
     /\ (nb <= Z.min (Z.of_N 1767225600) I64_MAX <= na)%Z.
Proof.
  destruct (verify_core tt [] 1767225600 Client demo_shared) as [w' r] eqn:E.
  assert (Er : r = Ok (mkVerified (Device "notebook") Pin)) by (apply (f_equal snd) in E; vm_compute in E; by rewrite <- E).
  rewrite Er in E. exists w'. split; [rewrite Er; reflexivity|].
  destruct (admitted_is_vouched tt [] 1767225600 Client demo_shared w' _ demo_wf E) as (fp & nb & na & H1 & H2 & H3 & _).
  exists fp, nb, na. split; [exact H1|]. split; [exact H2|exact H3].
Defined.

Lemma snapshot_is_some_contents_witness :
  exists d, seen (Ok demo_text) [ReadFile 0; Change (Ok None); Apply 0] d
  /\ view_of d = Some (c_store (cache (fst (foldl event (demo_shared, ∅) [ReadFile 0; Change (Ok None); Apply 0])))).
Proof.
  exact (snapshot_is_some_contents (Ok demo_text) None demo_shared [ReadFile 0; Change (Ok None); Apply 0] demo_open).
Defined.

(** The file is gone, and a call made after that still sees the pin. *)
Lemma stale_read_wins_witness :
  let '(w', _) := foldl event (demo_shared, ∅) [ReadFile 0; Change (Ok None); ReadFile 1; Apply 1; Apply 0] in
  disk w' = Ok None /\ c_store (cache w') = demo_store /\ suspended (cache w') = false.
Proof.
  exact (stale_read_wins demo_text None demo_store empty_store None demo_shared demo_load eq_refl ltac:(done) demo_open).
Defined.

End Trust.
