(* ===== verification/TrustWatch.v ===== *)
(** * The connection watch

    [TrustWatch] models [crates/qsh-core/src/trust/connection_watch.rs]: the
    judgment of one established connection ([judge]), the watch that runs it
    on every change of the shared trust store, and their life as a step
    relation: the poll task reloads the file, the watch notices a new
    generation (or asks again while a comparison is owed), and judges. *)

From S2P Require Import Prelude Text FileGuard Identity Acl Policy Grants TrustStore Trust.

Module TrustWatch.
Import Text Identity Acl Policy Grants TrustStore Trust.

Inductive WithdrawalReason := TrustWithdrawn | GrantsReduced.

(** [WithdrawalReason::as_str] *)
Definition reason_str (r : WithdrawalReason) : string :=
  match r with TrustWithdrawn => "trust_withdrawn" | GrantsReduced => "grants_reduced" end.

Record Established := mkEstablished {
  e_principal : Principal;
  e_auth_path : AuthPath;
  e_fingerprint : option Fingerprint;
  e_role_grants : option RoleGrants;
}.

Inductive Judgment :=
  | Keep (role_grants : option RoleGrants) (deferred : bool)
  | Close (reason : WithdrawalReason).

Definition judge (e : Established) (reverified : result VerifiedPeer RejectReason) (now : option RoleGrants) : Judgment :=
  match reverified with
  | Err _ => Close TrustWithdrawn
  | Ok verified =>
      if negb (bool_decide (v_auth_path verified = e_auth_path e))
         || bool_decide (v_principal verified = PairingPrincipal) then Close TrustWithdrawn
      else match now with
           | None => Keep (e_role_grants e) true
           | Some now =>
               match e_role_grants e with
               | Some recorded => if negb (covers now recorded) then Close GrantsReduced else Keep (Some now) false
               | None => Keep (Some now) false
               end
           end
  end.

Section Watch.
Context {Cert : Type} `{TrustFormat Cert} `{X509 Cert} `{Base64}.

(** [ConnectionWatch]: the chain and the peer's side stand for the
    connection. *)
Record Watch := mkWatch {
  w_chain : list Cert;
  w_peer_role : PeerRole;
  w_established : Established;
  w_compared : option (list Action);
  w_deferred : bool;
}.

(** [ConnectionWatch::cut] *)
Definition cut (compared : option (list Action)) (g : RoleGrants) : RoleGrants :=
  match compared with Some actions => restricted_to actions g | None => g end.

(** The grants of the snapshot, cut to what is compared. *)
Definition grants_now (w : Shared) (e : Established) (compared : option (list Action)) : option RoleGrants :=
  cut compared <$> role_grants_unless_suspended w (e_principal e) (e_auth_path e) (e_fingerprint e).

(** [ConnectionWatch::begin] *)
Definition begin (w : Shared) (chain : list Cert) (role : PeerRole) (p : Principal) (a : AuthPath)
    (fp : option Fingerprint) (compared : option (list Action)) : Watch :=
  let e := mkEstablished p a fp None in
  mkWatch chain role (mkEstablished p a fp (grants_now w e compared)) compared false.

(** [Connection::reverify] over the snapshot, at the time [now]. *)
Definition reverify (c : Watch) (now : N) (w : Shared) : result VerifiedPeer RejectReason :=
  snd (verify_chain (w_chain c) now (w_peer_role c) (mkView w)).

(** [ConnectionWatch::judge_now] *)
Definition judge_now (now : N) (w : Shared) (c : Watch) : Watch * option WithdrawalReason :=
  let e := w_established c in
  match judge e (reverify c now w) (grants_now w e (w_compared c)) with
  | Keep g deferred =>
      (mkWatch (w_chain c) (w_peer_role c) (mkEstablished (e_principal e) (e_auth_path e) (e_fingerprint e) g)
         (w_compared c) deferred, None)
  | Close reason => (c, Some reason)
  end.

(** ** The life of a watch *)

(** The store, the watch, the generation it last saw, whether a judgment is
    due, and why the connection was closed. *)
Record State := mkState {
  s_shared : Shared;
  s_watch : Watch;
  s_seen : N;
  s_due : bool;
  s_closed : option WithdrawalReason;
}.

(** One tick of the poll task, with the contents it finds. *)
Definition tick (d : Disk) (s : State) : State :=
  mkState (refresh (with_disk d (s_shared s))) (s_watch s) (s_seen s) (s_due s) (s_closed s).
(** The wait of [ConnectionWatch::run] ends. *)
Definition notice (s : State) : State :=
  mkState (s_shared s) (s_watch s) (generation (s_shared s)) true (s_closed s).
(** One turn of its loop. *)
Definition judge_step (now : N) (s : State) : State :=
  let '(c, closed) := judge_now now (s_shared s) (s_watch s) in
  mkState (s_shared s) c (s_seen s) false closed.

Inductive step : State -> State -> Prop :=
  | step_tick d s : step s (tick d s)
  | step_notice s :
      s_closed s = None -> s_due s = false -> (s_seen s <> generation (s_shared s) \/ w_deferred (s_watch s) = true) ->
      step s (notice s)
  | step_judge now s : s_closed s = None -> s_due s = true -> step s (judge_step now s).

(** [begin] and [run]: the first judgment is due at once. *)
Definition start (w : Shared) (chain : list Cert) (role : PeerRole) (p : Principal) (a : AuthPath)
    (fp : option Fingerprint) (compared : option (list Action)) : State :=
  mkState w (begin w chain role p a fp compared) (generation w) true None.

(** ** Judgments *)

(** A connection is kept exactly when its trust basis still holds and its
    recorded grants are covered, or cannot be compared yet. *)
Lemma judge_keep e r now g deferred :
  judge e r now = Keep g deferred <->
  exists v, r = Ok v /\ v_auth_path v = e_auth_path e /\ v_principal v <> PairingPrincipal
  /\ match now with
     | None => g = e_role_grants e /\ deferred = true
     | Some now => g = Some now /\ deferred = false
                   /\ forall recorded, e_role_grants e = Some recorded -> covers now recorded = true
     end.
Proof.
  unfold judge. destruct r as [v|]; [|split; [done|by intros (? & [=] & _)]].
  destruct (negb _ || _) eqn:E.
  - split; [done|]. intros (v' & [= <-] & Ha & Hp & _). rewrite Ha, bool_decide_true in E by done.
    by rewrite bool_decide_false in E.
  - apply orb_false_iff in E as [Ha%negb_false_iff%bool_decide_eq_true Hp%bool_decide_eq_false].
    destruct now as [now|]; [|naive_solver]. destruct (e_role_grants e) as [rec|]; [|naive_solver].
    destruct (covers now rec) eqn:Ec; cbn [negb]; [naive_solver|].
    split; [done|]. intros (v' & [= <-] & _ & _ & _ & _ & Hc). rewrite Hc in Ec by done. done.
Qed.
End Watch.

(** ** Covering is transitive *)

Section Facts.
Context {Cert : Type} `{TrustFormat Cert} `{X509 Cert} `{Base64} `{FileGuard.OsText}.
Implicit Types (w : Shared) (s : State (Cert := Cert)).

Lemma entry_within_trans a b c :
  valid a -> valid b -> valid c -> entry_within a b = true -> entry_within b c = true -> entry_within a c = true.
Proof.
  intros (xs & -> & Hx)%valid_canonical (ys & -> & Hy)%valid_canonical (zs & -> & Hz)%valid_canonical.
  rewrite !entry_within_render by done. apply transitivity.
Qed.

Lemma paths_cover_trans new mid old :
  Forall valid (default [] new) -> Forall valid (default [] mid) -> Forall valid (default [] old) ->
  paths_cover new mid = true -> paths_cover mid old = true -> paths_cover new old = true.
Proof.
  destruct new as [new|]; [|done]. destruct mid as [mid|]; [|done]. destruct old as [old|]; [|done].
  cbn. rewrite !Forall_forall, !forallb_forall. intros Vn Vm Vo Hnm Hmo z Hz.
  destruct (proj1 (existsb_exists _ _) (Hmo z Hz)) as (y & Hy & Hyz).
  destruct (proj1 (existsb_exists _ _) (Hnm y Hy)) as (x & Hx & Hxy).
  apply existsb_exists. exists x. split; [done|]. rewrite <- list_elem_of_In in *.
  by apply (entry_within_trans x y z); auto.
Qed.

Lemma standing_paths_valid st a : wf_standing st -> Forall valid (default [] (paths_of (of_standing st) a)).
Proof.
  intros Hwf. destruct (paths_of (of_standing st) a) as [es|] eqn:E; [|constructor]. apply Forall_forall. intros e He.
  destruct (standing_paths_in st a es e Hwf E) as (_ & Hv & _). by apply Hv.
Qed.

Lemma covers_trans (s1 s2 s3 : Standing) :
  wf_standing s1 -> wf_standing s2 -> wf_standing s3 ->
  covers (of_standing s3) (of_standing s2) = true -> covers (of_standing s2) (of_standing s1) = true ->
  covers (of_standing s3) (of_standing s1) = true.
Proof.
  intros W1 W2 W3. rewrite !covers_spec by apply standing_NoDup. intros H32 H21 a old Ha.
  destruct (H21 _ _ Ha) as [(mid & Hm & Sm) Pm]. destruct (H32 _ _ Hm) as [(new & Hn & Sn) Pn]. split.
  - exists new. split; [done|]. by destruct new, mid, old.
  - eapply paths_cover_trans; [apply standing_paths_valid, W3|apply standing_paths_valid, W2|apply standing_paths_valid, W1|done..].
Qed.

Lemma covers_refl (st : Standing) : covers (of_standing st) (of_standing st) = true.
Proof.
  apply covers_spec; [apply standing_NoDup..|]. intros a old Ha. split.
  - exists old. split; [done|]. by destruct old.
  - destruct (paths_of _ a) as [es|]; [|done]. cbn. apply forallb_forall. intros e He. apply existsb_exists.
    exists e. split; [done|apply entry_within_refl].
Qed.

(** ** What a waiting watch has recorded *)

Definition snap_standing w (e : Established) : Standing :=
  standing_of_pin (parsed_pin_roles (c_store (cache w))) false (e_principal e) (e_auth_path e) (e_fingerprint e).

Lemma pin_standing_wf st pins p a fp b : pins = parsed_pin_roles st -> wf_standing (standing_of_pin pins b p a fp).
Proof.
  intros -> g. unfold standing_of_pin. destruct (_ || _); [done|]. destruct p; try done. destruct fp as [k|]; [|done].
  unfold pin_of. destruct (List.find _ _) as [pin|] eqn:E; [|done]. apply find_some in E as [Hin _]. cbn. intros Hg.
  apply list_elem_of_In, list_elem_of_omap in Hin as (peer & _ & Hpr). unfold pin_role in Hpr.
  destruct (fp_from_str _); [|done]. injection Hpr as <-. cbn in Hg. unfold ok_flat in Hg.
  destruct (pin_parse _ _ _) as [[g'|]|] eqn:Ep; [|done..]. injection Hg as ->. by apply pin_parse_ok in Ep as [? _].
Qed.

Lemma snap_standing_wf w e : wf_standing (snap_standing w e).
Proof. by eapply pin_standing_wf. Qed.

Lemma grants_now_some w e compared g :
  grants_now w e compared = Some g -> g = cut compared (of_standing (snap_standing w e)).
Proof. unfold grants_now, role_grants_unless_suspended. destruct (suspended _); [done|]. by intros [= <-]. Qed.

(** Open, and asleep until the generation changes. *)
Definition settled s : Prop :=
  s_closed s = None /\ s_due s = false /\ s_seen s = generation (s_shared s) /\ w_deferred (s_watch s) = false.

(** The connection's trust basis still holds by the snapshot: at some time the
    chain was verified against it by the same path. *)
Definition upheld (c0 : Watch (Cert := Cert)) w : Prop :=
  exists now v, reverify c0 now w = Ok v /\ v_auth_path v = e_auth_path (w_established c0)
    /\ v_principal v <> PairingPrincipal.

Record Inv (c0 : Watch (Cert := Cert)) s : Prop := {
  inv_cache : wf_cache (cache (s_shared s));
  inv_seen : s_seen s <= generation (s_shared s);
  inv_static : w_chain (s_watch s) = w_chain c0 /\ w_peer_role (s_watch s) = w_peer_role c0
               /\ w_compared (s_watch s) = w_compared c0
               /\ e_principal (w_established (s_watch s)) = e_principal (w_established c0)
               /\ e_auth_path (w_established (s_watch s)) = e_auth_path (w_established c0)
               /\ e_fingerprint (w_established (s_watch s)) = e_fingerprint (w_established c0);
  inv_settled : settled s ->
    e_role_grants (w_established (s_watch s))
    = Some (cut (w_compared c0) (of_standing (snap_standing (s_shared s) (w_established c0))));
  inv_upheld : settled s -> upheld c0 (s_shared s);
}.

(** A verification reads the pins, the roots and the pairing window. *)
Lemma reverify_ext (c c' : Watch (Cert := Cert)) now w w' :
  w_chain c = w_chain c' -> w_peer_role c = w_peer_role c' -> c_store (cache w) = c_store (cache w') ->
  pairing w = pairing w' -> reverify c now w = reverify c' now w'.
Proof.
  intros Hch Hr Hs Hp. unfold reverify, verify_chain. rewrite Hch, Hr. destruct (w_chain c') as [|ee rest]; [done|].
  unfold verify_core. cbn [lookup_pin ca_roots pairing_open SnapshotView_evaluator view]. rewrite Hs, Hp.
  repeat case_match; simplify_eq/=; done.
Qed.

Lemma snap_standing_ext w w' e e' :
  c_store (cache w) = c_store (cache w') -> e_principal e = e_principal e' -> e_auth_path e = e_auth_path e' ->
  e_fingerprint e = e_fingerprint e' -> snap_standing w e = snap_standing w' e'.
Proof. unfold snap_standing. by intros -> -> -> ->. Qed.

Lemma refresh_pairing w : pairing (refresh w) = pairing w.
Proof. unfold refresh. by destruct (apply_read _ _ _). Qed.

Lemma step_inv c0 s s' : Inv c0 s -> step s s' -> Inv c0 s'.
Proof.
  intros [Hc Hs Hst Hset Hup] Hstep. destruct Hstep as [d s|s Ho Hd He|now s Ho Hd].
  - destruct (refresh_spec (with_disk d (s_shared s)) Hc) as (Hc' & _ & _ & Hg). cbn in Hg.
    assert (settled (tick d s) -> settled s /\ c_store (cache (refresh (with_disk d (s_shared s)))) = c_store (cache (s_shared s)))
      as Hback.
    { intros (Ho & Hd & Hseen & Hdf). cbn in Ho, Hd, Hseen, Hdf. destruct Hg as [[Hg Hstore]|Hg]; [|lia].
      split; [by repeat split; congruence|done]. }
    split; [done|cbn; lia|done|..]; intros [Hsd Hstore]%Hback; cbn.
    + rewrite (Hset Hsd). do 3 f_equal. by apply snap_standing_ext.
    + destruct (Hup Hsd) as (now & v & Hv & Hpv). exists now, v. split; [|done]. rewrite <- Hv.
      apply reverify_ext; [done..|]. by rewrite refresh_pairing.
  - split; [done|cbn; lia|done|..]; by intros (_ & Hd' & _).
  - unfold judge_step, judge_now. destruct (judge _ _ _) as [g df|reason] eqn:Ej; cycle 1.
    { split; cbn; [done|done|done|..]; by intros ([=] & _). }
    apply judge_keep in Ej as (v & Hv & Hva & Hvp & Hnow). destruct Hst as (Hch & Hro & Hcmp & Hp & Ha & Hf).
    split; cbn; [done|done|done|..]; intros (_ & _ & _ & Hdf); cbn in Hdf; subst df.
    + destruct (grants_now _ _ _) as [gn|] eqn:Eg; [|by destruct Hnow].
      destruct Hnow as (-> & _). apply grants_now_some in Eg as ->. rewrite Hcmp. do 3 f_equal. by apply snap_standing_ext.
    + exists now, v. rewrite <- Hv. split; [by apply reverify_ext|]. split; [congruence|done].
Qed.

Lemma start_inv w chain role p a fp compared :
  wf_cache (cache w) -> Inv (begin w chain role p a fp compared) (start w chain role p a fp compared).
Proof. intros Hwf. split; cbn; [done|lia|done|..]; by intros (_ & [=] & _). Qed.

Lemma reach_inv c0 s s' : Inv c0 s -> rtc step s s' -> Inv c0 s'.
Proof. intros Hi Hr. induction Hr; [done|]. eauto using step_inv. Qed.

(** ** Kept connections *)

Lemma closed_stays s s' r : rtc step s s' -> s_closed s = Some r -> s_closed s' = Some r.
Proof.
  intros Hr. induction Hr as [|s s1 s' Hstep _ IH]; [done|]. intros Hc. apply IH.
  destruct Hstep as [d s|s Ho|now s Ho]; [done|congruence..].
Qed.

(** The recorded set of an open watch covers the one it had before. *)
Definition recorded s (st : Standing) : Prop :=
  wf_standing st /\ e_role_grants (w_established (s_watch s)) = Some (of_standing st).

Lemma step_covers s s' st :
  step s s' -> s_closed s' = None -> w_compared (s_watch s) = None -> recorded s st ->
  exists st', recorded s' st' /\ covers (of_standing st') (of_standing st) = true.
Proof.
  intros Hstep Ho Hcmp [Hwf Hrec]. destruct Hstep as [d s|s|now s Ho' Hd]; [exists st; split; [done|apply covers_refl]..|].
  unfold judge_step, judge_now in *. destruct (judge _ _ _) as [g df|reason] eqn:Ej; [|done].
  apply judge_keep in Ej as (v & _ & _ & _ & Hnow). destruct (grants_now _ _ _) as [gn|] eqn:Eg.
  - destruct Hnow as (-> & _ & Hcov). apply grants_now_some in Eg as ->. rewrite Hcmp in Hcov. specialize (Hcov _ Hrec).
    eexists. split; [|exact Hcov]. split; [apply snap_standing_wf|]. cbn. by rewrite Hcmp.
  - destruct Hnow as [-> _]. exists st. split; [done|apply covers_refl].
Qed.

Lemma reach_covers c0 s s' st :
  Inv c0 s -> w_compared c0 = None -> rtc step s s' -> s_closed s' = None -> recorded s st ->
  exists st', recorded s' st' /\ covers (of_standing st') (of_standing st) = true.
Proof.
  intros Hi Hcmp Hr. revert st. induction Hr as [s|s s1 s' Hstep Hr IH]; intros st Ho Hrec.
  { exists st. split; [done|apply covers_refl]. }
  assert (Ho1 : s_closed s1 = None).
  { destruct (s_closed s1) as [r|] eqn:E; [|done]. pose proof (closed_stays _ _ _ Hr E). congruence. }
  assert (Hcmp1 : w_compared (s_watch s) = None) by (by destruct Hi as [_ _ (_ & _ & -> & _) _ _]).
  destruct (step_covers s s1 st Hstep Ho1 Hcmp1 Hrec) as (st1 & Hrec1 & Hc1).
  destruct (IH (step_inv _ _ _ Hi Hstep) st1 Ho Hrec1) as (st' & Hrec' & Hc'). exists st'. split; [done|].
  eapply covers_trans; [apply Hrec|apply Hrec1|apply Hrec'|done..].
Qed.

(** What a watch recorded when it began is covered by what it has recorded
    when it waits. *)
Lemma settled_covers w chain role p a fp s :
  wf_cache (cache w) -> suspended (cache w) = false ->
  rtc step (start w chain role p a fp None) s -> settled s ->
  covers (of_standing (standing_of_pin (parsed_pin_roles (c_store (cache (s_shared s)))) false p a fp))
    (of_standing (standing_of_pin (parsed_pin_roles (c_store (cache w))) false p a fp)) = true.
Proof.
  intros Hwf Hsus Hr Hset. set (st0 := standing_of_pin (parsed_pin_roles (c_store (cache w))) false p a fp).
  pose proof (start_inv w chain role p a fp None Hwf) as Hi.
  assert (Hrec0 : recorded (start w chain role p a fp None) st0).
  { split; [by eapply pin_standing_wf|]. cbn. unfold grants_now, role_grants_unless_suspended. by rewrite Hsus. }
  destruct (reach_covers _ _ _ st0 Hi eq_refl Hr (proj1 Hset) Hrec0) as (st' & [W' Hrec] & Hc).
  pose proof (inv_settled _ _ (reach_inv _ _ _ Hi Hr) Hset) as Hrec'. rewrite Hrec in Hrec'.
  injection Hrec' as Hrec'. by rewrite Hrec' in Hc.
Qed.


(** A connection the watch keeps loses nothing: however often the file
    changed, if the connection is still open and the watch waits, every
    request its role and pin grants allowed when the watch began is allowed
    now. *)
Theorem watch_keeps_access w chain role p a fp s rules action res :
  wf_cache (cache w) -> suspended (cache w) = false ->
  rtc step (start w chain role p a fp None) s -> settled s ->
  let st0 := standing_of_pin (parsed_pin_roles (c_store (cache w))) false p a fp in
  let st := standing_of_pin (parsed_pin_roles (c_store (cache (s_shared s)))) false p a fp in
  follows res (entries_of (st_pin st)) (entries_of (st_pin st0)) ->
  (is_host action = true -> res_owner res = None) ->
  is_allow (decide_standing rules p a st0 action res) = true ->
  is_allow (decide_standing rules p a st action res) = true.
Proof.
  intros Hwf Hsus Hr Hset st0 st Hfo Hh. pose proof (settled_covers w chain role p a fp s Hwf Hsus Hr Hset) as Hc.
  apply covers_keeps_access; [by eapply pin_standing_wf..|done|done|done].
Qed.

(** ** Withdrawn connections *)

Lemma reverify_pin (c : Watch (Cert := Cert)) now w ee rest fp v :
  w_chain c = ee :: rest -> of_cert_der ee = Some fp -> lookup_in (parsed_pins (c_store (cache w))) fp = None ->
  reverify c now w = Ok v -> v_auth_path v <> Pin.
Proof.
  intros Hch Hfp Hl. unfold reverify, verify_chain. rewrite Hch.
  destruct (verify_core ee rest now (w_peer_role c) (mkView w)) as [w' r] eqn:E. cbn [snd]. destruct r as [v'|]; [|done].
  cbn [map_err]. intros [= <-]. apply verify_core_ok in E as (fp' & nb & na & Hfp' & _ & _ & Hcase).
  rewrite Hfp in Hfp'. injection Hfp' as <-. cbn in Hcase.
  destruct Hcase as [[Ha [= _ Hl']]|(w1 & roots & _ & _ & [(-> & _)|[-> _]])]; [|done..]. congruence.
Qed.

Lemma judge_unpinned now w (c : Watch (Cert := Cert)) ee rest fp :
  w_chain c = ee :: rest -> e_auth_path (w_established c) = Pin -> of_cert_der ee = Some fp ->
  lookup_in (parsed_pins (c_store (cache w))) fp = None ->
  snd (judge_now now w c) = Some TrustWithdrawn.
Proof.
  intros Hch Ha Hfp Hl. unfold judge_now, judge. destruct (reverify c now w) as [v|] eqn:Er; [|done].
  pose proof (reverify_pin c now w ee rest fp v Hch Hfp Hl Er). rewrite Ha, bool_decide_false by done. done.
Qed.

(** C34: A withdrawn pin closes its connections: when the poll task finds a
    [trust.toml] without the key of a connection that was pinned until then,
    the watch wakes up (unless a judgment is due already) and its judgment
    closes the connection, whatever else happened before. *)
Theorem withdrawn_pin_closes w ee rest role p fp compared s d st key q now :
  wf_cache (cache w) -> rtc step (start w (ee :: rest) role p Pin fp compared) s -> s_closed s = None ->
  of_cert_der ee = Some key -> lookup_in (parsed_pins (c_store (cache (s_shared s)))) key = Some q ->
  view_of d = Some st -> lookup_in (parsed_pins st) key = None ->
  (s_due (tick d s) = true \/ step (tick d s) (notice (tick d s)))
  /\ s_closed (judge_step now (tick d s)) = Some TrustWithdrawn
  /\ s_closed (judge_step now (notice (tick d s))) = Some TrustWithdrawn.
Proof.
  intros Hwf Hr Ho Hkey Hq Hd Hl.
  destruct (reach_inv _ _ _ (start_inv w (ee :: rest) role p Pin fp compared Hwf) Hr) as [Hc Hseen (Hch & _ & _ & _ & Ha & _) _ _].
  cbn in Hch, Ha. destruct (refresh_spec (with_disk d (s_shared s)) Hc) as (_ & _ & Hs & Hg). cbn in Hs, Hg.
  unfold spec_step in Hs. rewrite Hd in Hs. injection Hs as Hs _.
  assert (Hj : snd (judge_now now (refresh (with_disk d (s_shared s))) (s_watch s)) = Some TrustWithdrawn)
    by (apply (judge_unpinned _ _ _ ee rest key); [done..|by rewrite Hs]).
  split; [|unfold judge_step; cbn; by destruct (judge_now _ _ _)].
  destruct (s_due s) eqn:Ed; [by left|]. right. apply step_notice; [done..|]. left. cbn.
  destruct Hg as [[_ Hst]|Hg]; [|lia]. rewrite Hs in Hst. congruence.
Qed.
End Facts.

(** ** Examples *)

#[local] Existing Instance number_format.
#[local] Existing Instance letters_base64.
#[local] Existing Instance FileGuard.ascii_text.
#[local] Existing Instance demo_x509.

Definition demo_start : State := start demo_shared [tt] Client (Device "notebook") Pin (Some demo_fp) None.
Definition demo_waiting : State := judge_step 1767225600 demo_start.

Lemma demo_reach : rtc step demo_start demo_waiting.
Proof. apply rtc_once. by apply step_judge. Qed.

Lemma demo_settled : settled demo_waiting.
Proof. repeat split; vm_compute; reflexivity. Qed.


Lemma watch_keeps_access_witness :
  let st := standing_of_pin (parsed_pin_roles (c_store (cache (s_shared demo_waiting)))) false (Device "notebook") Pin
              (Some demo_fp) in
  is_allow (decide_standing [] (Device "notebook") Pin st SessionList (unowned "x")) = true.
Proof.
  apply (watch_keeps_access demo_shared [tt] Client (Device "notebook") Pin (Some demo_fp) demo_waiting [] SessionList
           (unowned "x") demo_wf eq_refl demo_reach demo_settled).
  - intros request parent child c [=].
  - done.
  - vm_compute. reflexivity.
Defined.

Lemma withdrawn_pin_closes_witness :
  s_closed (judge_step 1767225601 (notice (tick (Ok None) demo_waiting))) = Some TrustWithdrawn.
Proof.
  refine (proj2 (proj2 (withdrawn_pin_closes demo_shared tt [] Client (Device "notebook") (Some demo_fp) None demo_waiting
           (Ok None) empty_store demo_fp (Device "notebook") 1767225601 demo_wf demo_reach eq_refl eq_refl _ eq_refl eq_refl))).
  vm_compute. reflexivity.
Defined.

End TrustWatch.
