(* ===== verification/Gate.v ===== *)
(** * The authorization choke points

    [Gate] models the functions through which every privileged operation of
    the server passes before it creates anything: [authorize],
    [authorize_stream], [authorize_owned], [authorize_session_control] and
    [require_opener] of [crates/qsh-core/src/server/dispatch.rs], the punch
    gate of [acl/punch.rs], and the audit records of [audit.rs] they write.

    They work against the interfaces [Authorizer] and [AuditSink]; the time of
    a record and the address of the peer are given in their rendered form. *)

From stdpp Require Import pretty.
From S2P Require Import Prelude Errors Text FileGuard Identity AuditLog Acl Policy.

Module Gate.
Import Text Identity Audit Acl Policy Errors.

(** ** Audit records *)

(** [Decision::as_str] *)
Definition decision_str (d : Decision) : string := match d with Allow => "allow" | Deny => "deny" end.

(** The trait [AuditSink]; [false] is a record that is not durable. *)
Class AuditSink (Sink : Type) := record : AuditRecord -> Sink -> Sink * bool.

Section Records.
Context `{Base64}.

(** [AuditRecord::now] *)
Definition now_record (t : string) (rid : N) (p : Principal) (a : AuthPath) (act : Action) (res : string) (d : Decision)
    (rule : option N) (addr : string) : AuditRecord :=
  mkRecord t (pretty rid) (principal_display p) (as_str act) res (decision_str d) rule (auth_path_str a) addr None None None.

(** [AuditRecord::connection_level] *)
Definition connection_level (t : string) (p : Principal) (a : AuthPath) (act : Action) (res : string) (d : Decision)
    (rule : option N) (addr : string) : AuditRecord :=
  mkRecord t "-" (principal_display p) (as_str act) res (decision_str d) rule (auth_path_str a) addr None None None.

(** [AuditRecord::punch_signal] *)
Definition punch_signal (t : string) (p : Principal) (a : AuthPath) (res : string) (d : Decision) (rule : option N)
    : AuditRecord :=
  mkRecord t "-" (principal_display p) (as_str HostPunch) res (decision_str d) rule (auth_path_str a) "-" None None None.

(** [AuditRecord::with_verdict_role], [with_verdict_pin_grant] *)
Definition with_verdict_role (r : option TrustRole) (x : AuditRecord) : AuditRecord :=
  match r with
  | Some r => mkRecord (ts x) (request_id x) (principal x) (action x) (resource x) (decision x) (rule x) (auth_path x)
                (peer_addr x) (count x) (Some (role_str r)) (grant x)
  | None => x
  end.
Definition with_verdict_pin_grant (b : bool) (x : AuditRecord) : AuditRecord :=
  if b then mkRecord (ts x) (request_id x) (principal x) (action x) (resource x) (decision x) (rule x) (auth_path x)
              (peer_addr x) (count x) (role x) (Some "pin"%string)
  else x.
Definition with_verdict (v : Verdict) (x : AuditRecord) : AuditRecord :=
  with_verdict_pin_grant (v_pin_grant v) (with_verdict_role (v_role v) x).
End Records.

(** ** Replies *)

Definition PERMISSION_DENIED_MESSAGE : string := "peer is not allowed to perform this operation on this host".

(** [Server::permission_denied], and [punch_denied]: what a refused peer is
    told, whatever the action and the reason. *)
Definition permission_denied : WireError := mkError PermissionDenied PERMISSION_DENIED_MESSAGE false.

(** ** The gates *)

(** What a handler knows of its connection ([ConnCtx]). *)
Record ConnCtx := mkCtx {
  ctx_principal : Principal;
  ctx_auth_path : AuthPath;
  ctx_fingerprint : option Fingerprint;
  ctx_peer_addr : string;
}.
Definition requester (c : ConnCtx) : Requester := mkRequester (ctx_principal c) (ctx_auth_path c) (ctx_fingerprint c).

(** What [SessionBackend::get] answers: the opener, no such session, or
    another failure. *)
Inductive Lookup := Found (opener : string) | Missing | LookupFailed.

Inductive PunchOp := Request | Offer | Rendezvous.
Definition punch_str (o : PunchOp) : string :=
  match o with Request => "punch.request" | Offer => "punch.offer" | Rendezvous => "punch.rendezvous" end.

Section Gates.
Context {Self St Sink : Type} `{Authorizer Self St} `{AuditSink Sink} `{Base64}.
Variable self : Self.

Definition World : Type := St * Sink.

Definition authorize_stream (t : string) (c : ConnCtx) (act : Action) (res : string) (w : World) : World * bool :=
  let '(st, sink) := w in
  let '(st, v) := check self (requester c) act (unowned res) st in
  let '(sink, recorded) :=
    record (with_verdict v (connection_level t (ctx_principal c) (ctx_auth_path c) act res (v_decision v) (v_rule v)
                              (ctx_peer_addr c))) sink in
  ((st, sink), is_allow v && recorded).

Definition authorize (t : string) (c : ConnCtx) (rid : N) (act : Action) (res : string) (w : World)
    : World * result unit WireError :=
  let '(st, sink) := w in
  let '(st, v) := check self (requester c) act (unowned res) st in
  let '(sink, recorded) :=
    record (with_verdict v (now_record t rid (ctx_principal c) (ctx_auth_path c) act res (v_decision v) (v_rule v)
                              (ctx_peer_addr c))) sink in
  ((st, sink), if negb (is_allow v) || negb recorded then Err permission_denied else Ok tt).

Definition authorize_owned (t : string) (c : ConnCtx) (rid : N) (act : Action) (res : ResourceRef) (w : World)
    : World * result unit WireError :=
  let '(st, sink) := w in
  let '(st, v) := check self (requester c) act res st in
  let '(sink, recorded) :=
    record (with_verdict v (now_record t rid (ctx_principal c) (ctx_auth_path c) act (res_id res) (v_decision v) (v_rule v)
                              (ctx_peer_addr c))) sink in
  ((st, sink), if negb (is_allow v) || negb recorded then Err permission_denied else Ok tt).

Definition require_opener (t : string) (c : ConnCtx) (rid : N) (act : Action) (id : string) (found : Lookup) (w : World)
    : World * result (option string) WireError :=
  match found with
  | Found opener => (w, Ok (Some opener))
  | Missing => (w, Ok None)
  | LookupFailed =>
      let '(st, sink) := w in
      let '(sink, _) :=
        record (now_record t rid (ctx_principal c) (ctx_auth_path c) act id Deny None (ctx_peer_addr c)) sink in
      ((st, sink), Err permission_denied)
  end.

Definition authorize_session_control (t : string) (c : ConnCtx) (rid : N) (act : Action) (id : string) (found : Lookup)
    (w : World) : World * result unit WireError :=
  let '(w, owner) := require_opener t c rid act id found w in
  match owner with
  | Err e => (w, Err e)
  | Ok owner => authorize_owned t c rid act (mkResource id owner None) w
  end.

(** [check_punch] *)
Definition check_punch (t : string) (o : PunchOp) (q : Requester) (w : World) : World * result unit WireError :=
  let '(st, sink) := w in
  let '(st, v) := check self q HostPunch (unowned (punch_str o)) st in
  let '(sink, recorded) :=
    record (with_verdict v (punch_signal t (q_principal q) (q_auth_path q) (punch_str o) (v_decision v) (v_rule v))) sink in
  ((st, sink), if bool_decide (v_decision v = Allow) && recorded then Ok tt else Err permission_denied).

(** ** A run of requests *)

Inductive Call :=
  | CStream (c : ConnCtx) (act : Action) (res : string)
  | CAuthorize (c : ConnCtx) (rid : N) (act : Action) (res : string)
  | COwned (c : ConnCtx) (rid : N) (act : Action) (res : ResourceRef)
  | CControl (c : ConnCtx) (rid : N) (act : Action) (id : string) (found : Lookup)
  | CPunch (o : PunchOp) (q : Requester).

(** What came of a call: it went through, the peer was sent an error, or a
    stream was refused to its handler. *)
Inductive Answer := Passed | Told (e : WireError) | StreamRefused.

Definition answer (r : result unit WireError) : Answer := match r with Ok _ => Passed | Err e => Told e end.
Definition passed (a : Answer) : bool := match a with Passed => true | _ => false end.

Definition ask (t : string) (call : Call) (w : World) : World * Answer :=
  match call with
  | CStream c act res => let '(w, ok) := authorize_stream t c act res w in (w, if ok then Passed else StreamRefused)
  | CAuthorize c rid act res => let '(w, r) := authorize t c rid act res w in (w, answer r)
  | COwned c rid act res => let '(w, r) := authorize_owned t c rid act res w in (w, answer r)
  | CControl c rid act id found => let '(w, r) := authorize_session_control t c rid act id found w in (w, answer r)
  | CPunch o q => let '(w, r) := check_punch t o q w in (w, answer r)
  end.

(** The refusal of a call: the same for every action, resource and reason. *)
Definition refusal (call : Call) : Answer :=
  match call with CStream _ _ _ => StreamRefused | _ => Told permission_denied end.

(** The principal, the action and the resource of a call. *)
Definition subject (call : Call) : string * string * string :=
  match call with
  | CStream c act res | CAuthorize c _ act res => (principal_display (ctx_principal c), as_str act, res)
  | COwned c _ act res => (principal_display (ctx_principal c), as_str act, res_id res)
  | CControl c _ act id _ => (principal_display (ctx_principal c), as_str act, id)
  | CPunch o q => (principal_display (q_principal q), as_str HostPunch, punch_str o)
  end.
End Gates.

(** ** The log *)

Definition Log := list AuditRecord.

(** A sink that keeps what it takes, in order, and nothing else. *)
Class LoggedSink (Sink : Type) `{AuditSink Sink} := {
  logged : Sink -> Log;
  logged_record r s : let '(s', recorded) := record r s in logged s' = if recorded then logged s ++ [r] else logged s;
}.

(** A log that takes a record or not, by any rule. *)
Definition log_sink (accepts : Log -> AuditRecord -> bool) : AuditSink Log :=
  fun r l => if accepts l r then (l ++ [r], true) else (l, false).

#[export] Instance log_sink_logged accepts : @LoggedSink Log (log_sink accepts).
Proof. refine (@Build_LoggedSink Log (log_sink accepts) (fun l => l) _). intros r l. unfold record, log_sink. by destruct (accepts l r). Defined.

Definition triple (r : AuditRecord) : string * string * string := (principal r, action r, resource r).
Definition allow_line (r : AuditRecord) : bool := bool_decide (decision r = "allow"%string).

(** What the allow lines of a log say. *)
Definition allow_lines (l : Log) : list (string * string * string) := triple <$> List.filter allow_line l.

Lemma allow_lines_app l l' : allow_lines (l ++ l') = allow_lines l ++ allow_lines l'.
Proof. unfold allow_lines. by rewrite List.filter_app, fmap_app. Qed.

Lemma triple_with_verdict v x : triple (with_verdict v x) = triple x.
Proof. unfold with_verdict. destruct v as [? ? [] []]; done. Qed.

Lemma decision_with_verdict v x : decision (with_verdict v x) = decision x.
Proof. unfold with_verdict. destruct v as [? ? [] []]; done. Qed.

Lemma allow_verdict_line v x :
  decision x = decision_str (v_decision v) ->
  allow_lines [with_verdict v x] = if is_allow v then [triple x] else [].
Proof.
  intros Hd. unfold allow_lines. cbn [List.filter]. unfold allow_line. rewrite decision_with_verdict, Hd. unfold is_allow.
  destruct (v_decision v); [|done]. change ([triple (with_verdict v x)] = [triple x]). by rewrite triple_with_verdict.
Qed.

Section Facts.
Context {Self St Sink : Type} `{Authorizer Self St} `{Base64} `{LoggedSink Sink}.
Variable self : Self.

(** One decision and its line: the log grows by an allow line exactly when
    the decision goes through. *)
Lemma gate_line (v : Verdict) (x : AuditRecord) (sink : Sink) :
  decision x = decision_str (v_decision v) ->
  let '(sink', recorded) := record (with_verdict v x) sink in
  allow_lines (logged sink') = allow_lines (logged sink) ++ if is_allow v && recorded then [triple x] else [].
Proof.
  intros Hd. pose proof (logged_record (with_verdict v x) sink) as Hl. destruct (record _ sink) as [sink' [|]]; rewrite Hl.
  - rewrite allow_lines_app, (allow_verdict_line v x Hd), andb_true_r. done.
  - by rewrite andb_false_r, app_nil_r.
Qed.

Lemma authorize_owned_line t c rid act res (w : St * Sink) :
  let '(w', r) := authorize_owned self t c rid act res w in
  allow_lines (logged (snd w'))
  = allow_lines (logged (snd w)) ++ if is_ok r then [(principal_display (ctx_principal c), as_str act, res_id res)] else [].
Proof.
  destruct w as [st l]. unfold authorize_owned. destruct (check self (requester c) act res st) as [st' v].
  pose proof (gate_line v (now_record t rid (ctx_principal c) (ctx_auth_path c) act (res_id res) (v_decision v) (v_rule v)
                             (ctx_peer_addr c)) l eq_refl) as Hg.
  destruct (record _ l) as [l' recorded]. cbn [snd]. rewrite Hg. by destruct (is_allow v), recorded.
Qed.

Lemma ask_line t call (w : St * Sink) :
  let '(w', a) := ask self t call w in
  allow_lines (logged (snd w')) = allow_lines (logged (snd w)) ++ if passed a then [subject call] else [].
Proof.
  assert (Hans : forall r : result unit WireError, passed (answer r) = is_ok r) by by intros [].
  destruct call as [c act res|c rid act res|c rid act res|c rid act id found|o q]; cbn [ask subject].
  - destruct w as [st l]. unfold authorize_stream. destruct (check self _ _ _ st) as [st' v].
    pose proof (gate_line v (connection_level t (ctx_principal c) (ctx_auth_path c) act res (v_decision v) (v_rule v)
                               (ctx_peer_addr c)) l eq_refl) as Hg.
    destruct (record _ l) as [l' recorded]. cbn [snd]. rewrite Hg. by destruct (is_allow v && recorded).
  - pose proof (authorize_owned_line t c rid act (unowned res) w) as Ho. destruct w as [st l].
    unfold authorize_owned, authorize in *. destruct (check self _ _ _ st) as [st' v].
    destruct (record _ l) as [l' recorded]. by rewrite Hans.
  - pose proof (authorize_owned_line t c rid act res w) as Ho. destruct (authorize_owned _ _ _ _ _ _ _) as [w' r]. by rewrite Hans.
  - unfold authorize_session_control. destruct found as [opener| |]; cbn [require_opener].
    + pose proof (authorize_owned_line t c rid act (mkResource id (Some opener) None) w) as Ho.
      destruct (authorize_owned _ _ _ _ _ _ _) as [w' r]. by rewrite Hans.
    + pose proof (authorize_owned_line t c rid act (mkResource id None None) w) as Ho.
      destruct (authorize_owned _ _ _ _ _ _ _) as [w' r]. by rewrite Hans.
    + destruct w as [st l]. match goal with |- context [record ?r l] => pose proof (logged_record r l) as Hl; destruct (record r l) as [l' [|]] end;
        cbn [snd passed answer]; rewrite Hl; [by rewrite allow_lines_app|by rewrite app_nil_r].
  - destruct w as [st l]. unfold check_punch. destruct (check self _ _ _ st) as [st' v].
    pose proof (gate_line v (punch_signal t (q_principal q) (q_auth_path q) (punch_str o) (v_decision v) (v_rule v)) l
                  eq_refl) as Hg.
    destruct (record _ l) as [l' recorded]. cbn [snd]. rewrite Hg, Hans. unfold is_allow.
    destruct (v_decision v), recorded; done.
Qed.

(** A call goes through or gets the refusal. *)
Lemma ask_answer t call (w : St * Sink) : snd (ask self t call w) = Passed \/ snd (ask self t call w) = refusal call.
Proof.
  destruct w as [st l]. destruct call as [c act res|c rid act res|c rid act res|c rid act id found|o q]; cbn [ask refusal].
  - destruct (authorize_stream _ _ _ _ _ _) as [w' []]; auto.
  - unfold authorize. destruct (check self _ _ _ st) as [st' v]. destruct (record _ l). cbn. destruct (_ || _); auto.
  - unfold authorize_owned. destruct (check self _ _ _ st) as [st' v]. destruct (record _ l). cbn. destruct (_ || _); auto.
  - unfold authorize_session_control, authorize_owned. destruct found; cbn [require_opener].
    1,2: destruct (check self _ _ _ st) as [st' v]; destruct (record _ l); cbn; destruct (_ || _); auto.
    destruct (record _ l). by right.
  - unfold check_punch. destruct (check self _ _ _ st) as [st' v]. destruct (record _ l). cbn. destruct (_ && _); auto.
Qed.

(** The calls of a run, each with what came of it. *)
Fixpoint run_calls (calls : list (string * Call)) (w : St * Sink) : (St * Sink) * list (Call * Answer) :=
  match calls with
  | [] => (w, [])
  | (t, call) :: calls =>
      let '(w, a) := ask self t call w in
      let '(w, answers) := run_calls calls w in
      (w, (call, a) :: answers)
  end.

Definition let_through (answers : list (Call * Answer)) : list Call :=
  fst <$> List.filter (fun x : Call * Answer => passed (snd x)) answers.

(** C13: The audit log is complete and fails closed: whatever the authorizer
    answers and whichever records the sink refuses, the allow lines it keeps
    are exactly the requests that were let through, in order, each with its
    principal, action and resource; and every other request got one and the
    same refusal, whether the authorizer denied it, its session could not be
    looked up, or its record was not durable. *)
Theorem allow_lines_exact calls (w : St * Sink) :
  let '(w', answers) := run_calls calls w in
  allow_lines (logged (snd w')) = allow_lines (logged (snd w)) ++ (subject <$> let_through answers)
  /\ answers.*1 = calls.*2
  /\ Forall (fun x : Call * Answer => snd x = Passed \/ snd x = refusal (fst x)) answers.
Proof.
  revert w. induction calls as [|[t call] calls IH]; intros w; cbn [run_calls]; [by rewrite app_nil_r|].
  pose proof (ask_line t call w) as Hl. pose proof (ask_answer t call w) as Ha. destruct (ask self t call w) as [w1 a].
  specialize (IH w1). destruct (run_calls calls w1) as [w2 answers]. destruct IH as (IH1 & IH2 & IH3). split_and!.
  - rewrite IH1, Hl, <- app_assoc. f_equal. unfold let_through. cbn [List.filter snd]. by destruct (passed a).
  - cbn [fmap list_fmap fst snd]. by rewrite <- IH2.
  - by constructor.
Qed.
End Facts.

End Gate.
