(* ===== verification/IpText.v ===== *)
(** * The text of IP addresses

    The parser and the printer of [std::net::Ipv4Addr] and [Ipv6Addr], which
    the SOCKS codec and the dial filter of forwards rely on, and that they are
    inverse: a printed address parses back to itself. *)

From S2P Require Import Prelude.

Module IpText.

(** ** Addresses *)

(** [Ipv4Addr::octets] and [Ipv6Addr::segments] *)
Record Ipv4Addr := mkV4 { o0 : byte; o1 : byte; o2 : byte; o3 : byte }.
Record Ipv6Addr := mkV6 { g0 : N; g1 : N; g2 : N; g3 : N; g4 : N; g5 : N; g6 : N; g7 : N }.
Inductive IpAddr := V4 (a : Ipv4Addr) | V6 (a : Ipv6Addr).

Definition segments (a : Ipv6Addr) : list N := [g0 a; g1 a; g2 a; g3 a; g4 a; g5 a; g6 a; g7 a].

Definition of_segments (l : list N) : option Ipv6Addr :=
  match l with
  | [a; b; c; d; e; f; g; h] => Some (mkV6 a b c d e f g h)
  | _ => None
  end.

(** Segments are of 16 bits. *)
Definition v6_ok (a : Ipv6Addr) : Prop := Forall (fun s => s < 65536) (segments a).

Definition u16_be (a b : byte) : N := b2n a * 256 + b2n b.

(** ** Parsing *)

Definition Parser A : Type := list byte -> option (A * list byte).

(** [char::to_digit] *)
Definition to_digit (radix : N) (b : byte) : option N :=
  let n := b2n b in
  let d := if (48 <=? n) && (n <=? 57) then Some (n - 48)
           else if (97 <=? n) && (n <=? 122) then Some (n - 87)
           else if (65 <=? n) && (n <=? 90) then Some (n - 55)
           else None in
  d ≫= fun d => if d <? radix then Some d else None.

Definition read_given_char (c : byte) (bs : list byte) : option (list byte) :=
  match bs with
  | b :: t => if bool_decide (b = c) then Some t else None
  | [] => None
  end.

(** The loop of [Parser::read_number]: the value, how many digits, the rest. *)
Fixpoint read_digits (radix max acc count : N) (bs : list byte) : option (N * N * list byte) :=
  match bs with
  | b :: t =>
      match to_digit radix b with
      | Some d => if max <? count + 1 then None else read_digits radix max (acc * radix + d) (count + 1) t
      | None => Some (acc, count, bs)
      end
  | [] => Some (acc, count, [])
  end.

(** [Parser::read_number]; [top] is the largest value of the type. *)
Definition read_number (radix max top : N) (allow_zero_prefix : bool) : Parser N := fun bs =>
  match read_digits radix max 0 0 bs with
  | Some (v, count, rest) =>
      let leading_zero := match bs with b :: _ => bool_decide (b = x30) | [] => false end in
      if count =? 0 then None
      else if negb allow_zero_prefix && leading_zero && (1 <? count) then None
      else if v <=? top then Some (v, rest) else None
  | None => None
  end.

(** [Parser::read_separator] *)
Definition read_separator {A} (sep : byte) (index : N) (inner : Parser A) : Parser A := fun bs =>
  if 0 <? index then match read_given_char sep bs with Some t => inner t | None => None end else inner bs.

(** [Parser::read_ipv4_addr] *)
Definition read_octet (index : N) : Parser byte := fun bs =>
  match read_separator x2e index (read_number 10 3 255 false) bs with
  | Some (v, t) => Some (n2b v, t)
  | None => None
  end.

Definition read_ipv4_addr : Parser Ipv4Addr := fun bs =>
  match read_octet 0 bs with
  | Some (a, bs) =>
      match read_octet 1 bs with
      | Some (b, bs) =>
          match read_octet 2 bs with
          | Some (c, bs) =>
              match read_octet 3 bs with Some (d, bs) => Some (mkV4 a b c d, bs) | None => None end
          | None => None
          end
      | None => None
      end
  | None => None
  end.

(** [read_groups] of [Parser::read_ipv6_addr], for the [left] groups from the
    one numbered [i] on: the groups read, and whether they end in an embedded
    IPv4 address. *)
Fixpoint read_groups (left : nat) (i : N) (bs : list byte) : list N * bool * list byte :=
  match left with
  | O => ([], false, bs)
  | S left' =>
      match (if Nat.leb 1 left' then read_separator x3a i read_ipv4_addr bs else None) with
      | Some (a, rest) => ([u16_be (o0 a) (o1 a); u16_be (o2 a) (o3 a)], true, rest)
      | None =>
          match read_separator x3a i (read_number 16 4 65535 true) bs with
          | Some (g, rest) => let '(gs, v4, rest) := read_groups left' (i + 1) rest in (g :: gs, v4, rest)
          | None => ([], false, bs)
          end
      end
  end.

(** [Parser::read_ipv6_addr] *)
Definition read_ipv6_addr : Parser Ipv6Addr := fun bs =>
  let '(head, head_ipv4, bs) := read_groups 8 0 bs in
  if Nat.eqb (length head) 8 then match of_segments head with Some a => Some (a, bs) | None => None end
  else if head_ipv4 then None
  else
    match read_given_char x3a bs ≫= read_given_char x3a with
    | Some bs =>
        let '(tail, _, bs) := read_groups (7 - length head) 0 bs in
        match of_segments (head ++ replicate (8 - length head - length tail) 0 ++ tail) with
        | Some a => Some (a, bs)
        | None => None
        end
    | None => None
    end.

(** [Parser::parse_with] *)
Definition parse_with {A} (p : Parser A) (bs : list byte) : option A :=
  match p bs with Some (a, []) => Some a | _ => None end.

(** [str::parse::<Ipv4Addr>] and [str::parse::<Ipv6Addr>] *)
Definition parse_ipv4 (bs : list byte) : option Ipv4Addr :=
  if 15 <? len bs then None else parse_with read_ipv4_addr bs.
Definition parse_ipv6 (bs : list byte) : option Ipv6Addr := parse_with read_ipv6_addr bs.

(** ** Printing *)

Definition digit_char (d : N) : byte := n2b (if d <? 10 then 48 + d else 87 + d).

(** The digits of a number of at most four; [{}] and [{:x}]. *)
Fixpoint digits (fuel : nat) (radix n : N) : list N :=
  match fuel with
  | O => []
  | S fuel => if n <? radix then [n] else digits fuel radix (n / radix) ++ [n mod radix]
  end.
Definition show (radix n : N) : list byte := digit_char <$> digits 4 radix n.

(** [Display for Ipv4Addr] *)
Definition print_ipv4 (a : Ipv4Addr) : list byte :=
  show 10 (b2n (o0 a)) ++ [x2e] ++ show 10 (b2n (o1 a)) ++ [x2e] ++ show 10 (b2n (o2 a)) ++ [x2e] ++ show 10 (b2n (o3 a)).

(** The longest run of zero segments, the first of equals: its start and
    length. *)
Fixpoint zeroes (i : nat) (current longest : nat * nat) (l : list N) : nat * nat :=
  match l with
  | [] => longest
  | s :: l' =>
      if s =? 0 then
        let current := ((if Nat.eqb current.2 0 then i else current.1), S current.2) in
        zeroes (S i) current (if Nat.ltb longest.2 current.2 then current else longest) l'
      else zeroes (S i) (0, 0)%nat longest l'
  end.

(** [fmt_subslice] *)
Fixpoint print_tail (l : list N) : list byte :=
  match l with
  | [] => []
  | s :: l' => x3a :: show 16 s ++ print_tail l'
  end.
Definition print_segments (l : list N) : list byte :=
  match l with
  | [] => []
  | s :: l' => show 16 s ++ print_tail l'
  end.

(** [Ipv6Addr::to_ipv4_mapped] *)
Definition v4_of (g h : N) : Ipv4Addr := mkV4 (n2b (g / 256)) (n2b (g mod 256)) (n2b (h / 256)) (n2b (h mod 256)).
Definition to_ipv4_mapped (a : Ipv6Addr) : option Ipv4Addr :=
  if (g0 a =? 0) && (g1 a =? 0) && (g2 a =? 0) && (g3 a =? 0) && (g4 a =? 0) && (g5 a =? 65535)
  then Some (v4_of (g6 a) (g7 a)) else None.

(** [Display for Ipv6Addr] *)
Definition print_ipv6 (a : Ipv6Addr) : list byte :=
  match to_ipv4_mapped a with
  | Some v4 => [x3a; x3a; x66; x66; x66; x66; x3a] ++ print_ipv4 v4
  | None =>
      let '(start, n) := zeroes 0 (0, 0)%nat (0, 0)%nat (segments a) in
      if Nat.ltb 1 n
      then print_segments (list.take start (segments a)) ++ [x3a; x3a] ++ print_segments (drop (start + n) (segments a))
      else print_segments (segments a)
  end.

(** ** Numbers *)

Definition no_digit (radix : N) (bs : list byte) : Prop :=
  match bs with b :: _ => to_digit radix b = None | [] => True end.

Lemma to_digit_char radix d : d < radix -> radix <= 16 -> to_digit radix (digit_char d) = Some d.
Proof.
  intros Hd Hr. unfold to_digit, digit_char. destruct (N.ltb_spec d 10); rewrite b2n_n2b_small by lia.
  - rewrite (proj2 (N.leb_le _ _)), (proj2 (N.leb_le _ _)) by lia. cbn.
    replace (48 + d - 48) with d by lia. by rewrite (proj2 (N.ltb_lt _ _)).
  - rewrite (proj2 (N.leb_gt (87 + d) 57)) by lia. rewrite andb_false_r.
    rewrite (proj2 (N.leb_le _ _)), (proj2 (N.leb_le _ _)) by lia. cbn.
    replace (87 + d - 87) with d by lia. by rewrite (proj2 (N.ltb_lt _ _)).
Qed.

Definition value (radix acc : N) (ds : list N) : N := foldl (fun a d => a * radix + d) acc ds.

Lemma read_digits_show radix max ds : forall acc count t,
  Forall (fun d => d < radix) ds -> radix <= 16 -> count + len ds <= max -> no_digit radix t ->
  read_digits radix max acc count ((digit_char <$> ds) ++ t) = Some (value radix acc ds, count + len ds, t).
Proof.
  induction ds as [|d ds IH]; intros acc count t Hds Hr Hm Ht.
  - cbn. rewrite len_nil, N.add_0_r. destruct t as [|b t]; cbn; [done|]. cbn in Ht. by rewrite Ht.
  - apply Forall_cons in Hds as [Hd Hds]. rewrite len_cons in *. cbn. rewrite to_digit_char by done.
    rewrite (proj2 (N.ltb_ge _ _)) by lia. rewrite IH by (done || lia). f_equal. f_equal. f_equal. lia.
Qed.

Lemma digits_spec radix fuel n :
  1 < radix -> (0 < fuel)%nat -> n < radix ^ N.of_nat fuel ->
  Forall (fun d => d < radix) (digits fuel radix n) /\ value radix 0 (digits fuel radix n) = n /\
  (n <> 0 -> hd_error (digits fuel radix n) <> Some 0) /\ (0 < length (digits fuel radix n) <= fuel)%nat /\
  (n = 0 -> length (digits fuel radix n) = 1%nat).
Proof.
  intros Hr. revert n. induction fuel as [|fuel IH]; intros n Hf Hn; [lia|]. cbn [digits].
  destruct (N.ltb_spec n radix) as [Hlt|Hge].
  { split_and!; cbn; try lia; [by repeat constructor|intros H0 [= ->]; done]. }
  replace (N.of_nat (S fuel)) with (N.succ (N.of_nat fuel)) in Hn by lia. rewrite N.pow_succ_r' in Hn.
  assert (n / radix < radix ^ N.of_nat fuel) as Hq by (apply N.Div0.div_lt_upper_bound; lia).
  destruct fuel as [|fuel].
  { cbn in Hq. assert (1 <= n / radix) by (apply N.div_le_lower_bound; lia). lia. }
  destruct (IH (n / radix)) as (Hd & Hv & Hz & Hl & _); [lia|done|].
  assert (1 <= n / radix) as Hpos by (apply N.div_le_lower_bound; lia).
  split_and!.
  - apply Forall_app. split; [done|]. constructor; [|done]. apply N.mod_lt. lia.
  - unfold value in *. rewrite foldl_app, Hv. cbn. rewrite N.mul_comm. symmetry. apply N.div_mod. lia.
  - intros _. destruct (digits (S fuel) radix (n / radix)) as [|d ds] eqn:E; [cbn in Hl; lia|]. apply Hz. lia.
  - rewrite length_app. cbn [length]. lia.
  - rewrite length_app. cbn [length]. lia.
  - lia.
Qed.

Lemma digits_short radix fuel n k :
  1 < radix -> (0 < k)%nat -> n < radix ^ N.of_nat k -> (length (digits fuel radix n) <= k)%nat.
Proof.
  intros Hr. revert n k. induction fuel as [|fuel IH]; intros n k Hk Hn; cbn [digits]; [cbn; lia|].
  destruct (N.ltb_spec n radix) as [Hlt|Hge]; [cbn; lia|]. rewrite length_app. cbn [length].
  destruct k as [|k]; [lia|]. replace (N.of_nat (S k)) with (N.succ (N.of_nat k)) in Hn by lia.
  rewrite N.pow_succ_r' in Hn. destruct k as [|k]; [cbn in Hn; lia|].
  assert (n / radix < radix ^ N.of_nat (S k)) as Hq by (apply N.Div0.div_lt_upper_bound; lia).
  specialize (IH (n / radix) (S k) ltac:(lia) Hq). lia.
Qed.

Lemma digit_char_zero d : d < 16 -> digit_char d = x30 -> d = 0.
Proof.
  intros Hd E. apply (f_equal b2n) in E. unfold digit_char in E. change (b2n x30) with 48 in E.
  destruct (N.ltb_spec d 10); rewrite b2n_n2b_small in E by lia; lia.
Qed.

(** A number printed is the number read. *)
Lemma read_show radix k top az n t :
  1 < radix -> radix <= 16 -> (0 < k <= 4)%nat -> n < radix ^ N.of_nat k -> n <= top -> no_digit radix t ->
  read_number radix (N.of_nat k) top az (show radix n ++ t) = Some (n, t).
Proof.
  intros Hr H16 Hk Hn Htop Ht. pose proof (digits_short radix 4 n k Hr ltac:(lia) Hn) as Hs.
  assert (n < radix ^ N.of_nat 4) as Hn4.
  { eapply N.lt_le_trans; [exact Hn|]. apply N.pow_le_mono_r; lia. }
  destruct (digits_spec radix 4 n Hr ltac:(lia) Hn4) as (Hd & Hv & Hz & Hl & H0). unfold read_number, show.
  rewrite (read_digits_show radix) by (done || (unfold len; lia)). rewrite Hv, N.add_0_l.
  rewrite (proj2 (N.eqb_neq _ _)) by (unfold len; lia). rewrite (proj2 (N.leb_le _ _)) by done.
  destruct (digits 4 radix n) as [|d ds] eqn:E; [cbn in Hl; lia|]. cbn [fmap list_fmap app].
  apply Forall_cons in Hd as [Hd _].
  destruct (bool_decide_reflect (digit_char d = x30)) as [Ez|_]; [|by rewrite andb_false_r].
  apply digit_char_zero in Ez; [|lia]. subst d. destruct (N.eq_dec n 0) as [->|Hne]; [|by destruct (Hz Hne)].
  rewrite (proj2 (N.ltb_ge 1 _)) by (specialize (H0 eq_refl); unfold len; lia). by rewrite andb_false_r.
Qed.

Lemma read_first_octet b t : no_digit 10 t -> read_octet 0 (show 10 (b2n b) ++ t) = Some (b, t).
Proof.
  intros Ht. pose proof (b2n_bound b). unfold read_octet, read_separator. cbn [N.ltb N.compare]. change 3 with (N.of_nat 3).
  rewrite read_show by (done || lia || (cbn; lia)). by rewrite n2b_b2n.
Qed.

Lemma read_next_octet i b t :
  0 < i -> no_digit 10 t -> read_octet i ([x2e] ++ show 10 (b2n b) ++ t) = Some (b, t).
Proof.
  intros Hi Ht. pose proof (b2n_bound b). unfold read_octet, read_separator. rewrite (proj2 (N.ltb_lt _ _)) by done.
  cbn [app read_given_char]. rewrite bool_decide_eq_true_2 by done. change 3 with (N.of_nat 3).
  rewrite read_show by (done || lia || (cbn; lia)). by rewrite n2b_b2n.
Qed.

Lemma read_print_ipv4 a t : no_digit 10 t -> read_ipv4_addr (print_ipv4 a ++ t) = Some (a, t).
Proof.
  intros Ht. unfold read_ipv4_addr, print_ipv4. rewrite <- !app_assoc.
  rewrite read_first_octet by done. rewrite !read_next_octet by (done || lia). by destruct a.
Qed.

Lemma len_show radix k n : 1 < radix -> (0 < k)%nat -> n < radix ^ N.of_nat k -> len (show radix n) <= N.of_nat k.
Proof. intros Hr Hk Hn. unfold show, len. rewrite length_fmap. pose proof (digits_short radix 4 n k Hr Hk Hn). lia. Qed.

Lemma parse_print_ipv4 a : parse_ipv4 (print_ipv4 a) = Some a.
Proof.
  unfold parse_ipv4, parse_with. assert (len (print_ipv4 a) <= 15) as Hl.
  { unfold print_ipv4. rewrite !len_app. change (len [x2e]) with 1.
    assert (forall b, len (show 10 (b2n b)) <= 3) as H.
    { intros b. change 3 with (N.of_nat 3). apply len_show; [done|lia|]. pose proof (b2n_bound b). cbn. lia. }
    pose proof (H (o0 a)). pose proof (H (o1 a)). pose proof (H (o2 a)). pose proof (H (o3 a)). lia. }
  rewrite (proj2 (N.ltb_ge _ _)) by done. pose proof (read_print_ipv4 a [] I) as E. rewrite app_nil_r in E. by rewrite E.
Qed.

(** ** IPv6 *)

Lemma read_digits_rest radix max bs : forall acc count v c r,
  read_digits radix max acc count bs = Some (v, c, r) -> exists k, bs = k ++ r.
Proof.
  induction bs as [|b bs IH]; intros acc count v c r; cbn [read_digits]; [intros [= _ _ <-]; by exists []|].
  destruct (to_digit radix b); [|intros [= _ _ <-]; by exists []]. destruct (_ <? _); [done|].
  intros (k & ->)%IH. by exists (b :: k).
Qed.

(** A text without a dot holds no IPv4 address. *)
Lemma no_dot_no_ipv4 bs : x2e ∉ bs -> read_ipv4_addr bs = None.
Proof.
  intros Hd. unfold read_ipv4_addr. destruct (read_octet 0 bs) as [[a r]|] eqn:E; [|done].
  assert (exists k, bs = k ++ r) as [k ->].
  { unfold read_octet, read_separator in E. cbn [N.ltb N.compare] in E. unfold read_number in E.
    destruct (read_digits 10 3 0 0 bs) as [[[v c] r']|] eqn:Er; [|done]. apply read_digits_rest in Er.
    destruct (c =? 0); [done|]. destruct (_ && _); [done|]. destruct (_ <=? _); [|done]. by injection E as _ <-. }
  assert (read_octet 1 r = None) as ->; [|done]. unfold read_octet, read_separator. cbn [N.ltb N.compare].
  destruct r as [|b r]; [done|]. cbn. rewrite bool_decide_eq_false_2; [done|]. intros ->. apply Hd. set_solver.
Qed.

Lemma digit_char_not n b : n < 16 -> (b2n b < 48 \/ 57 < b2n b < 97 \/ 102 < b2n b) -> digit_char n <> b.
Proof.
  intros Hn Hb E. apply (f_equal b2n) in E. unfold digit_char in E.
  destruct (N.ltb_spec n 10); rewrite b2n_n2b_small in E by lia; lia.
Qed.

Lemma show_clean s b : s < 65536 -> (b2n b < 48 \/ 57 < b2n b < 97 \/ 102 < b2n b) -> b ∉ show 16 s.
Proof.
  intros Hs Hb (n & E & Hn)%list_elem_of_fmap.
  destruct (digits_spec 16 4 s ltac:(lia) ltac:(lia) Hs) as [Hd _]. rewrite Forall_forall in Hd.
  specialize (Hd n Hn). symmetry in E. by apply (digit_char_not n b) in E.
Qed.

Lemma print_tail_clean l b :
  Forall (fun s => s < 65536) l -> b <> x3a -> (b2n b < 48 \/ 57 < b2n b < 97 \/ 102 < b2n b) -> b ∉ print_tail l.
Proof.
  intros Hl Hc Hb. induction Hl as [|s l Hs _ IH]; cbn [print_tail]; [set_solver|].
  pose proof (show_clean s b Hs Hb). set_solver.
Qed.

Lemma no_dot_tail l t : Forall (fun s => s < 65536) l -> x2e ∉ t -> x2e ∉ print_tail l ++ t.
Proof.
  intros Hl Ht. assert (x2e ∉ print_tail l) by (apply print_tail_clean; [done|done|left; by cbn]). set_solver.
Qed.

Lemma read_group_show i s t :
  s < 65536 -> no_digit 16 t ->
  read_separator x3a i (read_number 16 4 65535 true) ((if 0 <? i then [x3a] else []) ++ show 16 s ++ t) = Some (s, t).
Proof.
  intros Hs Ht. unfold read_separator. destruct (0 <? i); cbn [app read_given_char].
  all: rewrite ?bool_decide_eq_true_2 by done; change 4 with (N.of_nat 4).
  all: by rewrite read_show by (done || lia || (cbn; lia)).
Qed.

(** Where groups end: at the end of the text, or at two colons. *)
Definition stops (t : list byte) : Prop := t = [] \/ exists t', t = x3a :: x3a :: t'.

Lemma stops_no_digit t l : stops t -> no_digit 16 (print_tail l ++ t).
Proof. intros [-> |[t' ->]]; by destruct l. Qed.

Lemma no_group i t : stops t -> read_separator x3a i (read_number 16 4 65535 true) t = None.
Proof.
  intros [-> |[t' ->]]; unfold read_separator; destruct (0 <? i); cbn [read_given_char]; [done|done| |done].
  by rewrite bool_decide_eq_true_2.
Qed.

Lemma no_ipv4_here i t : x2e ∉ t -> read_separator x3a i read_ipv4_addr t = None.
Proof.
  intros Hd. unfold read_separator. destruct (0 <? i); [|by apply no_dot_no_ipv4]. destruct t as [|b t]; [done|].
  cbn [read_given_char]. case_bool_decide; [|done]. apply no_dot_no_ipv4. set_solver.
Qed.

Lemma read_tail l : forall left i t,
  Forall (fun s => s < 65536) l -> (length l <= left)%nat -> 0 < i -> stops t -> x2e ∉ t ->
  read_groups left i (print_tail l ++ t) = (l, false, t).
Proof.
  induction l as [|s l IH]; intros left i t Hl Hlen Hi Hs Hd.
  - cbn [print_tail app]. destruct left as [|left]; [done|]. cbn [read_groups].
    rewrite no_ipv4_here, no_group by done. by destruct (Nat.leb _ _).
  - apply Forall_cons in Hl as [Hsb Hl]. cbn [length] in Hlen. destruct left as [|left]; [lia|]. cbn [read_groups].
    assert (x2e ∉ print_tail (s :: l) ++ t) as Hd' by (apply no_dot_tail; [by constructor|done]).
    rewrite no_ipv4_here by done. pose proof (read_group_show i s (print_tail l ++ t) Hsb (stops_no_digit t l Hs)) as E.
    rewrite (proj2 (N.ltb_lt _ _)) in E by done. cbn [app] in E.
    cbn [print_tail app]. rewrite <- app_assoc, E, IH by (done || lia). by destruct (Nat.leb _ _).
Qed.

Lemma read_segments l left t :
  Forall (fun s => s < 65536) l -> (length l <= left)%nat -> stops t -> x2e ∉ t ->
  read_groups left 0 (print_segments l ++ t) = (l, false, t).
Proof.
  intros Hl Hlen Hs Hd. destruct l as [|s l].
  - cbn [print_segments app]. destruct left as [|left]; [done|]. cbn [read_groups].
    rewrite no_ipv4_here, no_group by done. by destruct (Nat.leb _ _).
  - apply Forall_cons in Hl as [Hsb Hl]. cbn [length] in Hlen. destruct left as [|left]; [lia|]. cbn [read_groups print_segments].
    rewrite <- app_assoc. assert (x2e ∉ show 16 s) by (apply show_clean; [done|left; by cbn]).
    pose proof (no_dot_tail l t Hl Hd). rewrite no_ipv4_here by set_solver.
    pose proof (read_group_show 0 s (print_tail l ++ t) Hsb (stops_no_digit t l Hs)) as E. cbn [N.ltb N.compare app] in E.
    rewrite E, read_tail by (done || lia). by destruct (Nat.leb _ _).
Qed.

Definition zero_run (l : list N) (r : nat * nat) : Prop :=
  forall k, (r.1 <= k < r.1 + r.2)%nat -> l !! k = Some 0.

Lemma zeroes_run full l : forall i current longest,
  l = drop i full -> zero_run full current -> (current.2 <> 0 -> current.1 + current.2 = i)%nat ->
  zero_run full longest -> zero_run full (zeroes i current longest l).
Proof.
  induction l as [|s l IH]; intros i cur lng Hl Hc Hi Hg; cbn [zeroes]; [done|].
  assert (full !! i = Some s) as Hs by (rewrite <- (Nat.add_0_r i), <- lookup_drop, <- Hl; done).
  assert (l = drop (S i) full) as Hl' by (rewrite <- Nat.add_1_r, <- drop_drop, <- Hl; done).
  destruct (N.eqb_spec s 0) as [->|_]; [|apply IH; [done|intros k; cbn; lia|done|done]].
  set (cur' := ((if Nat.eqb cur.2 0 then i else cur.1), S cur.2)).
  assert (zero_run full cur') as Hc'.
  { intros k Hk. unfold cur' in Hk. cbn in Hk. destruct (decide (k = i)) as [->|Hne]; [done|].
    destruct (Nat.eqb_spec cur.2 0) as [E|E]; [lia|]. apply Hc. specialize (Hi E). lia. }
  apply IH; [done|done| |by destruct (Nat.ltb _ _)]. intros _. unfold cur'. cbn.
  destruct (Nat.eqb_spec cur.2 0) as [E|E]; [lia|]. specialize (Hi E). lia.
Qed.

Lemma zero_run_split l start n :
  zero_run l (start, S n) -> list.take start l ++ replicate (S n) 0 ++ drop (start + S n) l = l /\ (start + S n <= length l)%nat.
Proof.
  intros Hz. assert (start + S n <= length l)%nat as Hle.
  { pose proof (Hz (start + n)%nat ltac:(cbn; lia)) as H%lookup_lt_Some. lia. }
  split; [|done]. rewrite <- (take_drop start l) at 3. f_equal. rewrite <- (take_drop (S n) (drop start l)), drop_drop. f_equal.
  apply list_eq. intros k. destruct (decide (k < S n)%nat) as [Hk|Hk].
  - rewrite lookup_replicate_2, lookup_take by done. rewrite decide_True by done. rewrite lookup_drop. symmetry. apply Hz. cbn. lia.
  - rewrite !lookup_ge_None_2; [done| |]; rewrite ?length_take, ?length_replicate; lia.
Qed.

Lemma zeroes_spec a : zero_run (segments a) (zeroes 0 (0, 0)%nat (0, 0)%nat (segments a)).
Proof. apply zeroes_run; [done|intros k; cbn; lia|done|intros k; cbn; lia]. Qed.

Lemma of_to_segments a : of_segments (segments a) = Some a.
Proof. by destruct a. Qed.

Lemma u16_split g : g < 65536 -> u16_be (n2b (g / 256)) (n2b (g mod 256)) = g.
Proof.
  intros Hg. unfold u16_be. assert (g / 256 < 256) by (apply N.Div0.div_lt_upper_bound; lia).
  assert (g mod 256 < 256) by (apply N.mod_lt; lia). rewrite !b2n_n2b_small by done.
  rewrite N.mul_comm. symmetry. apply N.div_mod. lia.
Qed.

Lemma parse_mapped a v4 : v6_ok a -> to_ipv4_mapped a = Some v4 -> parse_ipv6 (print_ipv6 a) = Some a.
Proof.
  intros Hok E. unfold print_ipv6. rewrite E. unfold to_ipv4_mapped in E. destruct (_ && _) eqn:Eg; [|done]. bools.
  injection E as <-. destruct a as [a b c d e f g h]. cbn [g0 g1 g2 g3 g4 g5 g6 g7] in *. subst.
  unfold v6_ok, segments in Hok. cbn [g0 g1 g2 g3 g4 g5 g6 g7] in Hok. rewrite !Forall_cons in Hok.
  destruct Hok as (_ & _ & _ & _ & _ & _ & Hg & Hh & _).
  set (v4 := v4_of g h). assert (read_ipv4_addr (print_ipv4 v4) = Some (v4, [])) as Hr.
  { pose proof (read_print_ipv4 v4 [] I) as Hr. by rewrite app_nil_r in Hr. }
  unfold parse_ipv6, parse_with, read_ipv6_addr.
  set (t := print_ipv4 v4) in *. clearbody t. cbn [app].
  assert (read_groups 8 0 (x3a :: x3a :: x66 :: x66 :: x66 :: x66 :: x3a :: t) =
    ([], false, x3a :: x3a :: x66 :: x66 :: x66 :: x66 :: x3a :: t)) as -> by reflexivity.
  cbn [length Nat.eqb read_given_char]. rewrite !bool_decide_eq_true_2 by done. cbn [mbind option_bind read_given_char].
  rewrite !bool_decide_eq_true_2 by done. cbn [Nat.sub].
  assert (read_groups 7 0 (x66 :: x66 :: x66 :: x66 :: x3a :: t) =
    ([65535; u16_be (o0 v4) (o1 v4); u16_be (o2 v4) (o3 v4)], true, [])) as ->.
  { cbn -[read_ipv4_addr]. assert (read_ipv4_addr (x66 :: x66 :: x66 :: x66 :: x3a :: t) = None) as -> by reflexivity.
    assert (read_number 16 4 65535 true (x66 :: x66 :: x66 :: x66 :: x3a :: t) = Some (65535, x3a :: t)) as -> by reflexivity.
    assert (read_separator x3a (0 + 1) read_ipv4_addr (x3a :: t) = Some (v4, [])) as -> by exact Hr. done. }
  cbn. unfold v4. cbn. by rewrite !u16_split.
Qed.

Lemma parse_print_ipv6 a : v6_ok a -> parse_ipv6 (print_ipv6 a) = Some a.
Proof.
  intros Hok. destruct (to_ipv4_mapped a) as [v4|] eqn:E; [by eapply parse_mapped|]. unfold print_ipv6. rewrite E.
  pose proof (zeroes_spec a) as Hz. destruct (zeroes _ _ _ _) as [start n].
  assert (length (segments a) = 8%nat) as H8 by done. unfold v6_ok in Hok.
  unfold parse_ipv6, parse_with, read_ipv6_addr. destruct (Nat.ltb_spec 1 n) as [Hn|Hn].
  - destruct n as [|n]; [lia|]. apply zero_run_split in Hz as [Hz Hle]. rewrite H8 in Hle.
    set (head := list.take start (segments a)) in *. set (tail := drop (start + S n) (segments a)) in *.
    assert (length head = start) as Hh by (unfold head; rewrite length_take; lia).
    assert (length tail = (8 - start - S n)%nat) as Ht by (unfold tail; rewrite length_drop; lia).
    assert (Forall (fun s => s < 65536) head) as Hhb by by apply Forall_take.
    assert (Forall (fun s => s < 65536) tail) as Htb by by apply Forall_drop.
    assert (x2e ∉ print_segments tail) as Hnd.
    { destruct tail as [|s l]; [set_solver|]. cbn. apply Forall_cons in Htb as [? ?].
      assert (x2e ∉ show 16 s) by (apply show_clean; [done|left; by cbn]). pose proof (no_dot_tail l [] ltac:(done)). set_solver. }
    rewrite read_segments; [|done|lia|right; by eexists|set_solver].
    rewrite (proj2 (Nat.eqb_neq _ _)) by lia. cbn [app read_given_char]. rewrite bool_decide_eq_true_2 by done.
    cbn [mbind option_bind read_given_char]. rewrite bool_decide_eq_true_2 by done.
    pose proof (read_segments tail (7 - length head) [] Htb ltac:(lia) (or_introl eq_refl) ltac:(set_solver)) as Er.
    rewrite app_nil_r in Er. rewrite Er. replace (8 - length head - length tail)%nat with (S n) by lia.
    rewrite Hz, of_to_segments. done.
  - pose proof (read_segments (segments a) 8 [] Hok ltac:(lia) (or_introl eq_refl) ltac:(set_solver)) as Er.
    rewrite app_nil_r in Er. by rewrite Er, H8, of_to_segments.
Qed.

(** ** Literals *)

(** [str::parse::<IpAddr>] *)
Definition parse_ip (bs : list byte) : option IpAddr :=
  match parse_ipv4 bs with Some a => Some (V4 a) | None => V6 <$> parse_ipv6 bs end.
Definition print_ip (a : IpAddr) : list byte := match a with V4 a => print_ipv4 a | V6 a => print_ipv6 a end.
Definition ip_ok (a : IpAddr) : Prop := match a with V4 _ => True | V6 a => v6_ok a end.

Lemma read_digits_plain radix max bs : forall acc count v c r,
  radix <= 10 -> read_digits radix max acc count bs = Some (v, c, r) -> exists k, bs = k ++ r /\ x3a ∉ k.
Proof.
  induction bs as [|b bs IH]; intros acc count v c r Hr; cbn [read_digits].
  { intros [= _ _ <-]. exists []. split; [done|set_solver]. }
  destruct (to_digit radix b) as [d|] eqn:Ed; [|intros [= _ _ <-]; exists []; split; [done|set_solver]].
  destruct (_ <? _); [done|]. intros (k & -> & Hk)%IH; [|done]. exists (b :: k). split; [done|].
  assert (b <> x3a) as Hb by (intros ->; by vm_compute in Ed). set_solver.
Qed.

Lemma read_octet_plain i bs b r : read_octet i bs = Some (b, r) -> exists k, bs = k ++ r /\ x3a ∉ k.
Proof.
  assert (forall bs v r, read_number 10 3 255 false bs = Some (v, r) -> exists k, bs = k ++ r /\ x3a ∉ k) as Hn.
  { intros bs' v r'. unfold read_number. destruct (read_digits 10 3 0 0 bs') as [[[v' c] r'']|] eqn:E; [|done].
    apply read_digits_plain in E; [|done]. destruct (c =? 0); [done|]. destruct (_ && _); [done|].
    destruct (_ <=? _); [|done]. by intros [= _ <-]. }
  unfold read_octet, read_separator. destruct (0 <? i).
  - destruct bs as [|c bs]; [done|]. cbn [read_given_char]. destruct (bool_decide_reflect (c = x2e)) as [->|]; [|done].
    destruct (read_number 10 3 255 false bs) as [[v r']|] eqn:E; [|done]. intros [= _ <-].
    destruct (Hn _ _ _ E) as (k & -> & Hk). exists (x2e :: k). split; [done|set_solver].
  - destruct (read_number 10 3 255 false bs) as [[v r']|] eqn:E; [|done]. intros [= _ <-]. by eapply Hn.
Qed.

Lemma ipv4_no_colon bs a : parse_ipv4 bs = Some a -> x3a ∉ bs.
Proof.
  unfold parse_ipv4, parse_with, read_ipv4_addr. destruct (_ <? _); [done|].
  destruct (read_octet 0 bs) as [[a0 r0]|] eqn:E0; [|done]. destruct (read_octet 1 r0) as [[a1 r1]|] eqn:E1; [|done].
  destruct (read_octet 2 r1) as [[a2 r2]|] eqn:E2; [|done]. destruct (read_octet 3 r2) as [[a3 r3]|] eqn:E3; [|done].
  destruct r3; [|done]. apply read_octet_plain in E0 as (k0 & -> & H0), E1 as (k1 & -> & H1), E2 as (k2 & -> & H2), E3 as (k3 & -> & H3).
  set_solver.
Qed.

Lemma print_ipv6_colon a : x3a ∈ print_ipv6 a.
Proof.
  unfold print_ipv6. destruct (to_ipv4_mapped a); [set_solver|]. destruct (zeroes _ _ _ _) as [start n].
  destruct (Nat.ltb 1 n); [set_solver|]. cbn. set_solver.
Qed.

Lemma parse_print_ip a : ip_ok a -> parse_ip (print_ip a) = Some a.
Proof.
  destruct a as [a|a]; intros Hok; unfold parse_ip, print_ip; [by rewrite parse_print_ipv4|].
  destruct (parse_ipv4 (print_ipv6 a)) as [b|] eqn:E; [|by rewrite parse_print_ipv6].
  apply ipv4_no_colon in E. by pose proof (print_ipv6_colon a).
Qed.

(** What is parsed is of the right width. *)
Lemma read_number_top radix max top az bs v r : read_number radix max top az bs = Some (v, r) -> v <= top.
Proof.
  unfold read_number. destruct (read_digits radix max 0 0 bs) as [[[v' c] r']|]; [|done]. destruct (c =? 0); [done|].
  destruct (_ && _); [done|]. destruct (N.leb_spec v' top); [|done]. by intros [= <- _].
Qed.

Lemma read_groups_ok left : forall i bs gs v r,
  read_groups left i bs = (gs, v, r) -> Forall (fun s => s < 65536) gs.
Proof.
  induction left as [|left IH]; intros i bs gs v r; cbn [read_groups]; [by intros [= <- _ _]|].
  destruct (if Nat.leb 1 left then _ else _) as [[a rest]|].
  { intros [= <- _ _]. unfold u16_be. pose proof (b2n_bound (o0 a)). pose proof (b2n_bound (o1 a)).
    pose proof (b2n_bound (o2 a)). pose proof (b2n_bound (o3 a)). repeat constructor; lia. }
  destruct (read_separator _ _ _ bs) as [[g rest]|] eqn:E; [|by intros [= <- _ _]].
  destruct (read_groups left (i + 1) rest) as [[gs' v'] r'] eqn:Er. intros [= <- _ _]. constructor; [|by eapply IH].
  enough (g <= 65535) by lia. unfold read_separator in E.
  destruct (0 <? i); [destruct (read_given_char _ _); [|done]|]; by eapply read_number_top.
Qed.

Lemma of_segments_ok l a : of_segments l = Some a -> Forall (fun s => s < 65536) l -> v6_ok a.
Proof. unfold of_segments. intros E Hl. do 9 (destruct l as [|? l]; try done). by injection E as <-. Qed.

Lemma parse_ipv6_ok bs a : parse_ipv6 bs = Some a -> v6_ok a.
Proof.
  unfold parse_ipv6, parse_with, read_ipv6_addr. destruct (read_groups 8 0 bs) as [[head v] r] eqn:Eh.
  apply read_groups_ok in Eh. destruct (Nat.eqb _ _).
  - destruct (of_segments head) as [b|] eqn:E; [|done]. destruct r; [|done]. intros [= <-]. by eapply of_segments_ok.
  - destruct v; [done|]. destruct (_ ≫= _) as [r'|]; [|done]. destruct (read_groups _ 0 r') as [[tail v'] r''] eqn:Et.
    apply read_groups_ok in Et. destruct (of_segments _) as [b|] eqn:E; [|done]. destruct r''; [|done]. intros [= <-].
    eapply of_segments_ok; [exact E|]. rewrite !Forall_app. split_and!; [done| |done]. by apply Forall_replicate.
Qed.

End IpText.
