(* ===== verification/Socks5.v ===== *)
(** * The SOCKS5 codec of dynamic forwards

    Models [crates/qsh-proto/src/socks5.rs]: the greeting and the CONNECT
    request of a local client, the host names it accepts, and the replies. *)

From S2P Require Import Prelude Errors ScreenCodec IpText.

Module Socks5.
Import Errors IpText.
Abbreviation is_nil := ScreenCodec.is_nil.

Definition SOCKS5_VERSION : byte := x05.
Definition METHOD_NO_AUTH : byte := x00.
Definition CMD_CONNECT : byte := x01.
Definition ATYP_IPV4 : byte := x01.
Definition ATYP_DOMAIN : byte := x03.
Definition ATYP_IPV6 : byte := x04.
Definition REPLY_BND_ATYP : byte := x01.

Record Parsed (T : Type) := mkParsed { p_value : T; p_consumed : N }.
Arguments mkParsed {T}. Arguments p_value {T}. Arguments p_consumed {T}.

(** ** Greeting *)

Record Greeting := mkGreeting { methods : list byte }.
Inductive GreetingError := GIncomplete | GInvalid.

Definition offers_no_auth (g : Greeting) : bool := bool_decide (METHOD_NO_AUTH ∈ methods g).

Definition parse_greeting (input : list byte) : result (Parsed Greeting) GreetingError :=
  match input with
  | [] => Err GIncomplete
  | ver :: t =>
      if negb (bool_decide (ver = SOCKS5_VERSION)) then Err GInvalid
      else
        match t with
        | [] => Err GIncomplete
        | nmethods :: rest =>
            let total := 2 + b2n nmethods in
            if len input <? total then Err GIncomplete
            else Ok (mkParsed (mkGreeting (takeN (b2n nmethods) rest)) total)
        end
  end.

Definition encode_method_select (g : Greeting) : list byte :=
  [SOCKS5_VERSION; if offers_no_auth g then METHOD_NO_AUTH else xff].

(** ** Replies *)

Inductive Rep :=
  | Succeeded | GeneralFailure | NotAllowedByRuleset | NetworkUnreachable | HostUnreachable
  | ConnectionRefused | TtlExpired | CommandNotSupported | AddressTypeNotSupported.

Definition rep_code (r : Rep) : byte :=
  match r with
  | Succeeded => x00 | GeneralFailure => x01 | NotAllowedByRuleset => x02 | NetworkUnreachable => x03
  | HostUnreachable => x04 | ConnectionRefused => x05 | TtlExpired => x06 | CommandNotSupported => x07
  | AddressTypeNotSupported => x08
  end.

(** [Rep::from_error_code] *)
Definition from_error_code (code : ErrorCode) : Rep :=
  match code with
  | PermissionDenied => NotAllowedByRuleset
  | HostNotFound => HostUnreachable
  | ConnectionFailed => ConnectionRefused
  | InvalidArgument | ConfigError | AuthFailed | TrustRequired | SessionNotFound | SessionConflict | ResumeGap
  | Timeout | Canceled | RemoteError | Unsupported | ResourceExhausted | Internal | Unknown _ => GeneralFailure
  end.

Definition encode_reply (rep : Rep) : list byte :=
  [SOCKS5_VERSION; rep_code rep; x00; REPLY_BND_ATYP; x00; x00; x00; x00; x00; x00].

(** ** Host names *)

Definition in_range (lo hi : N) (b : byte) : bool := (lo <=? b2n b) && (b2n b <=? hi).
Definition is_digit (b : byte) : bool := in_range 48 57 b.

Definition to_ascii_lowercase (b : byte) : byte := if in_range 65 90 b then n2b (b2n b + 32) else b.

(** [str::split('.')] *)
Fixpoint labels (bs : list byte) : list (list byte) :=
  match bs with
  | [] => [[]]
  | b :: t =>
      if bool_decide (b = x2e) then [] :: labels t
      else match labels t with l :: ls => (b :: l) :: ls | [] => [[b]] end
  end.

(** The characters of a host name. *)
Definition is_ldh (b : byte) : bool :=
  is_digit b || in_range 65 90 b || in_range 97 122 b || bool_decide (b ∈ [x2e; x2d; x5f]).

Definition looks_like_a_bare_address (label : list byte) : bool :=
  (negb (is_nil label) && forallb is_digit label) || bool_decide (list.take 2 label = [x30; x78]).

Definition strip_dot (bs : list byte) : list byte :=
  if bool_decide (last bs = Some x2e) then removelast bs else bs.

Definition normalize_domain (raw : list byte) : option (list byte) :=
  if is_nil raw || (253 <? len raw) then None
  else
    match ScreenCodec.chars raw with
    | None => None
    | Some _ =>
        let host := strip_dot (to_ascii_lowercase <$> raw) in
        if is_nil host || existsb is_nil (labels host) then None
        else
          match parse_ipv6 host with
          | Some v6 => Some (print_ipv6 v6)
          | None =>
              match parse_ipv4 host with
              | Some v4 => Some (print_ipv4 v4)
              | None =>
                  if negb (forallb is_ldh host) then None
                  else if looks_like_a_bare_address (default host (last (labels host))) then None
                  else Some host
              end
          end
    end.

(** ** Requests *)

Record Request := mkRequest { host : list byte; port : N }.
Inductive RequestError := Incomplete | Rejected (rep : Rep).
Inductive AddrKind := KV4 | KV6 | KDomain (n : N).

Definition total_len (k : AddrKind) : N :=
  4 + match k with KV4 => 4 | KV6 => 16 | KDomain n => 1 + n end + 2.

Definition addr_kind (atyp : byte) (input : list byte) : result AddrKind RequestError :=
  if bool_decide (atyp = ATYP_IPV4) then Ok KV4
  else if bool_decide (atyp = ATYP_IPV6) then Ok KV6
  else if bool_decide (atyp = ATYP_DOMAIN) then
    match input !! 4%nat with Some n => Ok (KDomain (b2n n)) | None => Err Incomplete end
  else Err (Rejected AddressTypeNotSupported).

(** [input[i]] where the length was checked. *)
Definition at_ (input : list byte) (i : N) : byte := default x00 (input !! N.to_nat i).

(** [Ipv6Addr::from] *)
Definition v6_from (i : N) (input : list byte) : Ipv6Addr :=
  let seg k := u16_be (at_ input (i + 2 * k)) (at_ input (i + 2 * k + 1)) in
  mkV6 (seg 0) (seg 1) (seg 2) (seg 3) (seg 4) (seg 5) (seg 6) (seg 7).

Definition request_host (k : AddrKind) (input : list byte) : option (list byte) :=
  match k with
  | KV4 => Some (print_ipv4 (mkV4 (at_ input 4) (at_ input 5) (at_ input 6) (at_ input 7)))
  | KV6 => Some (print_ipv6 (v6_from 4 input))
  | KDomain n => normalize_domain (takeN n (dropN 5 input))
  end.

Definition parse_request (input : list byte) : result (Parsed Request) RequestError :=
  if len input <? 4 then Err Incomplete
  else if negb (bool_decide (at_ input 0 = SOCKS5_VERSION)) then Err (Rejected GeneralFailure)
  else if negb (bool_decide (at_ input 1 = CMD_CONNECT)) then Err (Rejected CommandNotSupported)
  else
    let? kind := addr_kind (at_ input 3) input in
    let total := total_len kind in
    if len input <? total then Err Incomplete
    else
      let port := u16_be (at_ input (total - 2)) (at_ input (total - 1)) in
      if negb (bool_decide (at_ input 2 = x00)) || (port =? 0) then Err (Rejected GeneralFailure)
      else
        match request_host kind input with
        | Some host => Ok (mkParsed (mkRequest host port) total)
        | None => Err (Rejected AddressTypeNotSupported)
        end.

(** ** Prefixes *)

Lemma at_app input more i : i < len input -> at_ (input ++ more) i = at_ input i.
Proof. intros Hi. unfold at_. rewrite lookup_app_l; [done|]. unfold len in Hi. lia. Qed.

Lemma at_takeN input k i : i < k -> at_ (takeN k input) i = at_ input i.
Proof. intros Hi. unfold at_, takeN. rewrite lookup_take, decide_True; [done|lia]. Qed.

Lemma addr_kind_app atyp input more k : addr_kind atyp input = k -> k <> Err Incomplete -> addr_kind atyp (input ++ more) = k.
Proof.
  unfold addr_kind. repeat case_bool_decide; try done. destruct (input !! 4%nat) as [n|] eqn:E.
  - intros <- _. by rewrite (lookup_app_l_Some _ _ _ _ E).
  - by intros <-.
Qed.

Lemma request_host_app k input more : total_len k <= len input -> request_host k (input ++ more) = request_host k input.
Proof.
  intros Hl. unfold request_host, v6_from, total_len in *. destruct k as [| |n]; rewrite ?at_app by lia; [done|done|].
  rewrite dropN_app_le, takeN_app_le by (rewrite ?len_dropN; lia). done.
Qed.

Lemma request_decided input more r : parse_request input = r -> r <> Err Incomplete -> parse_request (input ++ more) = r.
Proof.
  unfold parse_request. destruct (N.ltb_spec (len input) 4) as [|H4]; [by intros <-|]. intros Hr Hne.
  rewrite (proj2 (N.ltb_ge _ _)), !(at_app input more) by (rewrite ?len_app; lia).
  destruct (negb (bool_decide (at_ input 0 = _))); [done|]. destruct (negb (bool_decide (at_ input 1 = _))); [done|].
  destruct (addr_kind (at_ input 3) input) as [k|e] eqn:Ek; cbn [rbind] in *.
  - rewrite (addr_kind_app _ _ _ _ Ek) by done. cbn [rbind]. destruct (N.ltb_spec (len input) (total_len k)) as [|Hl]; [by subst r|].
    assert (6 <= total_len k) by (unfold total_len; destruct k; lia).
    rewrite (proj2 (N.ltb_ge _ _)), !(at_app input more), request_host_app by (rewrite ?len_app; lia). done.
  - rewrite (addr_kind_app _ _ _ _ Ek); [done|]. intros [= ->]; by subst r.
Qed.

Lemma request_prefix input p k :
  parse_request input = Ok p -> k < p_consumed p -> parse_request (takeN k input) = Err Incomplete.
Proof.
  unfold parse_request. destruct (N.ltb_spec (len input) 4) as [|H4]; [done|].
  destruct (negb (bool_decide (at_ input 0 = _))) eqn:E0; [done|].
  destruct (negb (bool_decide (at_ input 1 = _))) eqn:E1; [done|].
  destruct (addr_kind (at_ input 3) input) as [kd|] eqn:Ek; [|done]. cbn [rbind].
  destruct (N.ltb_spec (len input) (total_len kd)) as [|Hl]; [done|]. destruct (_ || _); [done|].
  destruct (request_host kd input); [|done]. intros [= <-]. cbn [p_consumed]. intros Hk.
  assert (len (takeN k input) = k) as Hlk by (rewrite len_takeN; lia). rewrite Hlk.
  destruct (N.ltb_spec k 4); [done|]. rewrite !(at_takeN input k), E0, E1 by lia.
  assert (addr_kind (at_ input 3) (takeN k input) = Ok kd \/ addr_kind (at_ input 3) (takeN k input) = Err Incomplete) as [-> | ->].
  { unfold addr_kind in *. repeat case_bool_decide; try by left. unfold takeN. rewrite lookup_take. case_decide; [by left|by right]. }
  - cbn [rbind]. by rewrite (proj2 (N.ltb_lt _ _)).
  - done.
Qed.

Lemma greeting_decided input more r : parse_greeting input = r -> r <> Err GIncomplete -> parse_greeting (input ++ more) = r.
Proof.
  unfold parse_greeting. destruct input as [|ver [|n t]]; cbn [app]; [by intros <-| |].
  - destruct (negb _); [done|by intros <-].
  - destruct (negb _); [done|]. destruct (N.ltb_spec (len (ver :: n :: t)) (2 + b2n n)) as [|Hl]; [by intros <-|].
    rewrite !len_cons in *. rewrite (proj2 (N.ltb_ge _ _)) by (rewrite len_app; lia). rewrite takeN_app_le by lia. done.
Qed.

Lemma greeting_prefix input p k :
  parse_greeting input = Ok p -> k < p_consumed p -> parse_greeting (takeN k input) = Err GIncomplete.
Proof.
  unfold parse_greeting. destruct input as [|ver [|n t]]; [done|by destruct (negb _)|].
  destruct (negb _) eqn:Ev; [done|]. destruct (N.ltb_spec (len (ver :: n :: t)) (2 + b2n n)) as [|Hl]; [done|].
  intros [= <-]. cbn [p_consumed]. intros Hk. rewrite !len_cons in Hl.
  destruct (N.to_nat k) as [|[|m]] eqn:Em; unfold takeN; rewrite Em; cbn [list.take]; [done|by rewrite Ev|].
  rewrite Ev, (proj2 (N.ltb_lt _ _)); [done|]. rewrite !len_cons. unfold len. rewrite length_take. lia.
Qed.

(** the parsers may be fed a growing buffer.  A message that parsed parses
    the same whatever follows it, a refusal stays, and every strict prefix of a
    well-formed message asks for more bytes, never for a refusal. *)
Theorem socks_incremental input k :
  (forall p, parse_greeting input = Ok p ->
     (forall more, parse_greeting (input ++ more) = Ok p) /\
     (k < p_consumed p -> parse_greeting (takeN k input) = Err GIncomplete)) /\
  (forall p, parse_request input = Ok p ->
     (forall more, parse_request (input ++ more) = Ok p) /\
     (k < p_consumed p -> parse_request (takeN k input) = Err Incomplete)) /\
  (forall rep more, parse_request input = Err (Rejected rep) -> parse_request (input ++ more) = Err (Rejected rep)).
Proof.
  split_and!.
  - intros p Hp. split; [intros more; by apply greeting_decided|by apply greeting_prefix].
  - intros p Hp. split; [intros more; by apply request_decided|by apply request_prefix].
  - intros rep more Hr. by apply request_decided.
Qed.

End Socks5.
