(* ===== verification/Tunnel.v ===== *)
(** * Forwards on the host: authorize, then dial

    Models what a host does with a [TCP_CONNECT] stream: the shape checks, the
    gate, the quota and the dial of [Server::authorize_and_dial_tunnel]
    ([crates/qsh-core/src/server/tunnels.rs]) and the dialer with its filter of
    host-local addresses ([tunnel/dial.rs]).  Every use of the network is in
    the trace it returns.  Resolver and TCP stack are the class [Net]; when
    the bound on the dial expires is an argument. *)

From stdpp Require Import pretty.
From S2P Require Import Prelude Errors Text FileGuard Identity AuditLog Quota Acl Policy Gate IpText.

Module Tunnel.
Import Text Identity Audit Acl Policy Gate Errors IpText.

(** ** Host-local addresses *)

Definition is_loopback_v4 (a : Ipv4Addr) : bool := b2n (o0 a) =? 127.
Definition is_link_local_v4 (a : Ipv4Addr) : bool := (b2n (o0 a) =? 169) && (b2n (o1 a) =? 254).
Definition is_multicast_v4 (a : Ipv4Addr) : bool := (224 <=? b2n (o0 a)) && (b2n (o0 a) <=? 239).
Definition is_broadcast_v4 (a : Ipv4Addr) : bool :=
  (b2n (o0 a) =? 255) && (b2n (o1 a) =? 255) && (b2n (o2 a) =? 255) && (b2n (o3 a) =? 255).

Definition is_host_local_v4 (a : Ipv4Addr) : bool :=
  (b2n (o0 a) =? 0) || is_loopback_v4 a || is_link_local_v4 a || is_multicast_v4 a || is_broadcast_v4 a.

Definition is_loopback_v6 (a : Ipv6Addr) : bool := bool_decide (segments a = [0; 0; 0; 0; 0; 0; 0; 1]).
Definition is_unspecified_v6 (a : Ipv6Addr) : bool := bool_decide (segments a = replicate 8 0).
Definition is_unicast_link_local_v6 (a : Ipv6Addr) : bool := N.land (g0 a) 65472 =? 65152.
Definition is_multicast_v6 (a : Ipv6Addr) : bool := N.land (g0 a) 65280 =? 65280.

Definition embedded_ipv4 (a : Ipv6Addr) : option Ipv4Addr :=
  if (g0 a =? 0) && (g1 a =? 0) && (g2 a =? 0) && (g3 a =? 0) && (g4 a =? 0) && ((g5 a =? 65535) || (g5 a =? 0))
  then Some (mkV4 (n2b (N.shiftr (g6 a) 8)) (n2b (N.land (g6 a) 255)) (n2b (N.shiftr (g7 a) 8)) (n2b (N.land (g7 a) 255)))
  else None.

Definition is_host_local_v6 (a : Ipv6Addr) : bool :=
  if is_loopback_v6 a || is_unspecified_v6 a || is_unicast_link_local_v6 a || is_multicast_v6 a then true
  else match embedded_ipv4 a with Some v4 => is_host_local_v4 v4 | None => false end.

Definition is_host_local (a : IpAddr) : bool :=
  match a with V4 a => is_host_local_v4 a | V6 a => is_host_local_v6 a end.

(** ** The dial *)

Definition SocketAddr : Type := IpAddr * N.

(** [Resolver] and [Connector] *)
Class Net (W : Type) := {
  resolve : W -> list byte -> N -> option (list SocketAddr);
  connect : W -> SocketAddr -> bool;
}.

Inductive NetOp := Resolved (host : list byte) (port : N) | Connected (addr : SocketAddr).

Inductive DialError := DResolve | DConnect | DFiltered.

(** [DialError::code] *)
Definition dial_code (e : DialError) : ErrorCode :=
  match e with DResolve => HostNotFound | DConnect => ConnectionFailed | DFiltered => PermissionDenied end.

Section Dial.
Context {W : Type} `{!Net W}.
Variable net : W.

(** The loop over the candidates. *)
Fixpoint connect_first (candidates : list SocketAddr) : list NetOp * result SocketAddr DialError :=
  match candidates with
  | [] => ([], Err DConnect)
  | a :: l => if connect net a then ([Connected a], Ok a) else let '(tr, r) := connect_first l in (Connected a :: tr, r)
  end.

Definition candidates_of (deny_host_local : bool) (resolved : list SocketAddr) : list SocketAddr :=
  if deny_host_local then List.filter (fun a : SocketAddr => negb (is_host_local a.1)) resolved else resolved.

Definition dial_unbounded (host : list byte) (port : N) (deny_host_local : bool)
    : list NetOp * result SocketAddr DialError :=
  match resolve net host port with
  | None | Some [] => ([Resolved host port], Err DResolve)
  | Some resolved =>
      match candidates_of deny_host_local resolved with
      | [] => ([Resolved host port], Err DFiltered)
      | cs => let '(tr, r) := connect_first cs in (Resolved host port :: tr, r)
      end
  end.

(** [SystemDialer::dial]: the bound may expire during any operation. *)
Definition dial (expires : option nat) (host : list byte) (port : N) (deny_host_local : bool)
    : list NetOp * result SocketAddr DialError :=
  let '(tr, r) := dial_unbounded host port deny_host_local in
  match expires with
  | Some k => if Nat.ltb k (length tr) then (list.take (S k) tr, Err DConnect) else (tr, r)
  | None => (tr, r)
  end.

End Dial.

(** ** The handler *)

Record StreamHeader := mkHeader { sh_host : list byte; sh_port : N; sh_deny_host_local : bool }.

(** [ConnectResult] of a refusal, by its code. *)
Definition ConnectRejected : Type := ErrorCode.

(** An ASCII control byte, a space or a byte that is not ASCII. *)
Definition disallowed (b : byte) : bool := (b2n b <=? 32) || (127 <=? b2n b).

(** [wire::format_host_port] *)
Definition format_host_port (host : list byte) (port : N) : string :=
  let p := String.list_byte_of_string (pretty port) in
  String.string_of_list_byte
    (match parse_ipv6 host with Some _ => [x5b] ++ host ++ [x5d; x3a] ++ p | None => host ++ [x3a] ++ p end).

Definition well_shaped (h : StreamHeader) : bool :=
  (sh_port h <? 65536) && negb (len (sh_host h) =? 0) && negb (sh_port h =? 0) && (len (sh_host h) <=? 255)
  && negb (existsb disallowed (sh_host h)).

Section Handler.
Context {Self St Sink W : Type} `{Authorizer Self St} `{AuditSink Sink} `{Base64} `{!Net W}.
Variable self : Self.
Variable net : W.
Variable rfc3339 : N -> string.

Record World := mkWorld { w_st : St; w_sink : Sink; w_quotas : Quota.Quotas }.

(** [write_quota_audit] *)
Definition write_records (rs : list AuditRecord) (sink : Sink) : Sink := foldl (fun s r => fst (record r s)) sink rs.

Definition tunnel_permit (c : ConnCtx) (resource : string) : Quota.Permit :=
  Quota.TunnelStreamPermit (opener_key (ctx_principal c) (ctx_auth_path c)) resource.

(** [Server::authorize_and_dial_tunnel]; [t] and [now] are what it reads of the
    clocks. *)
Definition authorize_and_dial_tunnel (t : string) (now : N) (expires : option nat) (c : ConnCtx) (h : StreamHeader)
    (w : World) : World * list NetOp * result (SocketAddr * Quota.Permit) ConnectRejected :=
  if negb (well_shaped h) then (w, [], Err InvalidArgument)
  else
    let resource := format_host_port (sh_host h) (sh_port h) in
    let '((st, sink), allowed) := authorize_stream self t c ForwardLocal resource (w_st w, w_sink w) in
    if negb allowed then (mkWorld st sink (w_quotas w), [], Err PermissionDenied)
    else
      let pm := tunnel_permit c resource in
      match Quota.acquire pm (w_quotas w) with
      | (q, Err kind) =>
          let '(q, rs) := Quota.record_rejection rfc3339 kind (opener_key (ctx_principal c) (ctx_auth_path c))
                            (ctx_peer_addr c) now None (ctx_auth_path c) q in
          (mkWorld st (write_records rs sink) q, [], Err ResourceExhausted)
      | (q, Ok _) =>
          match dial net expires (sh_host h) (sh_port h) (sh_deny_host_local h) with
          | (tr, Ok a) => (mkWorld st sink q, tr, Ok (a, pm))
          | (tr, Err DFiltered) =>
              let '(sink, _) := record (connection_level t (ctx_principal c) (ctx_auth_path c) ForwardLocal resource Deny
                                          None (ctx_peer_addr c)) sink in
              (mkWorld st sink (Quota.surrender pm q), tr, Err PermissionDenied)
          | (tr, Err e) => (mkWorld st sink (Quota.surrender pm q), tr, Err (dial_code e))
          end
      end.

End Handler.

(** ** What the filter covers *)

(** An address as the number its bits spell, and membership in a prefix. *)
Definition v4_number (a : Ipv4Addr) : N := ((b2n (o0 a) * 256 + b2n (o1 a)) * 256 + b2n (o2 a)) * 256 + b2n (o3 a).
Definition v6_number (a : Ipv6Addr) : N := foldl (fun n s => n * 65536 + s) 0 (segments a).
Definition within (width n : N) (block : N * N) : bool := n / 2 ^ (width - block.2) =? block.1 / 2 ^ (width - block.2).

(** The host-local categories as their assigned prefixes: this network,
    loopback, link-local, multicast and broadcast; in IPv6 loopback,
    unspecified, link-local and multicast, and the IPv4 ones in the mapped and
    the compatible prefix. *)
Definition v4_blocks : list (N * N) :=
  [(0, 8); (127 * 2 ^ 24, 8); (169 * 2 ^ 24 + 254 * 2 ^ 16, 16); (224 * 2 ^ 24, 4); (2 ^ 32 - 1, 32)].
(** An IPv4 prefix behind 96 leading bits. *)
Definition embed (hi : N) (b : N * N) : N * N := (hi * 2 ^ 32 + b.1, 96 + b.2).
Definition v6_blocks : list (N * N) :=
  [(1, 128); (0, 128); (65152 * 2 ^ 112, 10); (65280 * 2 ^ 112, 8)]
  ++ (embed 65535 <$> v4_blocks) ++ (embed 0 <$> v4_blocks).
Definition reserved (a : IpAddr) : bool :=
  match a with
  | V4 a => existsb (within 32 (v4_number a)) v4_blocks
  | V6 a => existsb (within 128 (v6_number a)) v6_blocks
  end.

Lemma within_all width n v : within width n (v, width) = (n =? v).
Proof. unfold within. cbn [fst snd]. by rewrite N.sub_diag, !N.div_1_r. Qed.

Lemma v4_prefixes a :
  v4_number a / 2 ^ 24 = b2n (o0 a) /\ v4_number a / 2 ^ 16 = b2n (o0 a) * 256 + b2n (o1 a) /\
  v4_number a / 2 ^ 28 = b2n (o0 a) / 16.
Proof.
  destruct a as [a b c d]. pose proof (b2n_bound b). pose proof (b2n_bound c). pose proof (b2n_bound d).
  unfold v4_number. cbn [o0 o1 o2 o3]. assert (forall n x m, m <> 0 -> x < m -> (n * m + x) / m = n) as Hd.
  { intros n x m Hm Hx. rewrite N.div_add_l, N.div_small by done. lia. }
  change (2 ^ 28) with (256 * (256 * (256 * 16))). change (2 ^ 24) with (256 * (256 * 256)). change (2 ^ 16) with (256 * 256).
  rewrite <- !N.Div0.div_div, !Hd by done. done.
Qed.

Lemma reserved_v4 a : is_host_local_v4 a = existsb (within 32 (v4_number a)) v4_blocks.
Proof.
  destruct (v4_prefixes a) as (H24 & H16 & H28). pose proof (b2n_bound (o0 a)). pose proof (b2n_bound (o1 a)).
  pose proof (b2n_bound (o2 a)). pose proof (b2n_bound (o3 a)).
  unfold v4_blocks. cbn [existsb]. rewrite within_all. unfold within. cbn [fst snd]. change (32 - 8) with 24. change (32 - 16) with 16. change (32 - 4) with 28.
  rewrite H24, H16, H28, orb_false_r. unfold is_host_local_v4. rewrite <- !orb_assoc. repeat f_equal.
  - unfold is_link_local_v4. apply eq_true_iff_eq. rewrite andb_true_iff, !N.eqb_eq. change (_ / 2 ^ 16) with 43518. lia.
  - unfold is_multicast_v4. apply eq_true_iff_eq. rewrite andb_true_iff, N.eqb_eq, !N.leb_le. change (_ / 2 ^ 28) with 14. lia.
  - unfold is_broadcast_v4, v4_number. apply eq_true_iff_eq. rewrite !andb_true_iff, !N.eqb_eq. change (2 ^ 32) with 4294967296. lia.
Qed.

(** A prefix longer than 96 bits is 96 bits and a prefix of the last 32. *)
Lemma within_low hi lo hi' b p :
  p <= 32 -> lo < 2 ^ 32 -> b < 2 ^ 32 ->
  within 128 (hi * 2 ^ 32 + lo) (hi' * 2 ^ 32 + b, 96 + p) = (hi =? hi') && within 32 lo (b, p).
Proof.
  intros Hp Hlo Hb. unfold within. cbn [fst snd]. replace (128 - (96 + p)) with (32 - p) by lia.
  assert (2 ^ 32 = 2 ^ p * 2 ^ (32 - p)) as E by (rewrite <- N.pow_add_r; f_equal; lia).
  assert (2 ^ (32 - p) <> 0) as Hnz by (apply N.pow_nonzero; lia).
  assert (forall h x, (h * 2 ^ 32 + x) / 2 ^ (32 - p) = h * 2 ^ p + x / 2 ^ (32 - p)) as Hd.
  { intros h x. by rewrite E, N.mul_assoc, N.div_add_l. }
  assert (forall x, x < 2 ^ 32 -> x / 2 ^ (32 - p) < 2 ^ p) as Hx.
  { intros x Hx. apply N.Div0.div_lt_upper_bound. by rewrite N.mul_comm, <- E. }
  rewrite !Hd. apply Hx in Hlo, Hb. apply eq_true_iff_eq. rewrite andb_true_iff, !N.eqb_eq. split; [|by intros [-> ->]].
  rewrite (N.mul_comm hi), (N.mul_comm hi'). intros Heq. apply N.div_mod_unique in Heq; done.
Qed.

Lemma within_embedded hi lo hi' :
  lo < 2 ^ 32 ->
  existsb (within 128 (hi * 2 ^ 32 + lo)) (embed hi' <$> v4_blocks) =
  (hi =? hi') && existsb (within 32 lo) v4_blocks.
Proof.
  intros Hlo. unfold v4_blocks, embed. cbn [fmap list_fmap existsb fst snd]. rewrite !within_low by (done || lia).
  by destruct (hi =? hi').
Qed.

(** A mask of leading ones compares a prefix. *)
Lemma mask_prefix n k m v : n < 2 ^ (k + m) -> (N.land n (N.shiftl (N.ones m) k) =? N.shiftl v k) = (n / 2 ^ k =? v).
Proof.
  intros Hn. assert (N.land n (N.shiftl (N.ones m) k) = N.shiftl (n / 2 ^ k) k) as ->.
  { rewrite <- N.shiftr_div_pow2. apply N.bits_inj. intros i. rewrite N.land_spec.
    destruct (N.lt_ge_cases i k); [by rewrite !N.shiftl_spec_low, andb_false_r by lia|].
    rewrite !N.shiftl_spec_high', N.shiftr_spec' by lia. replace (i - k + k) with i by lia.
    destruct (N.lt_ge_cases (i - k) m); [by rewrite N.ones_spec_low, andb_true_r by lia|].
    rewrite N.ones_spec_high, andb_false_r by lia. symmetry. rewrite <- (N.mod_small n (2 ^ (k + m))) by done.
    apply N.mod_pow2_bits_high. lia. }
  apply eq_true_iff_eq. rewrite !N.eqb_eq, !N.shiftl_mul_pow2. split; [|by intros ->].
  intros E. apply N.mul_cancel_r in E; [done|]. apply N.pow_nonzero. lia.
Qed.

Lemma u16_octets g : g < 65536 -> b2n (n2b (N.shiftr g 8)) * 256 + b2n (n2b (N.land g 255)) = g.
Proof.
  intros Hg. change 255 with (N.ones 8). rewrite N.land_ones, N.shiftr_div_pow2. change (2 ^ 8) with 256.
  rewrite !b2n_n2b_small by lia. lia.
Qed.

(** The first 96 bits and the rest. *)
Definition v6_high (a : Ipv6Addr) : N :=
  ((((g0 a * 65536 + g1 a) * 65536 + g2 a) * 65536 + g3 a) * 65536 + g4 a) * 65536 + g5 a.
Definition v6_low (a : Ipv6Addr) : N := g6 a * 65536 + g7 a.

Lemma v6_halves a : v6_number a = v6_high a * 2 ^ 32 + v6_low a.
Proof. unfold v6_number, segments, v6_high, v6_low. cbn [foldl]. change (2 ^ 32) with 4294967296. lia. Qed.

Lemma embedded_blocks a :
  v6_ok a ->
  match embedded_ipv4 a with Some v4 => is_host_local_v4 v4 | None => false end =
  (v6_high a =? 65535) && existsb (within 32 (v6_low a)) v4_blocks || (v6_high a =? 0) && existsb (within 32 (v6_low a)) v4_blocks.
Proof.
  intros Hok. unfold v6_ok, segments in Hok. rewrite !Forall_cons in Hok.
  destruct Hok as (? & ? & ? & ? & ? & ? & H6 & H7 & _). rewrite <- andb_orb_distrib_l. unfold embedded_ipv4.
  replace ((v6_high a =? 65535) || (v6_high a =? 0)) with
    ((g0 a =? 0) && (g1 a =? 0) && (g2 a =? 0) && (g3 a =? 0) && (g4 a =? 0) && ((g5 a =? 65535) || (g5 a =? 0))).
  2: { apply eq_true_iff_eq. rewrite !andb_true_iff, !orb_true_iff, !N.eqb_eq. unfold v6_high. lia. }
  destruct (_ && _); [|done]. rewrite reserved_v4. cbn [andb]. f_equal. f_equal.
  unfold v4_number, v6_low. cbn [o0 o1 o2 o3]. pose proof (u16_octets _ H6). pose proof (u16_octets _ H7). lia.
Qed.

(** A short prefix is one of the first segment. *)
Lemma within_first a v p :
  v6_ok a -> p <= 16 -> within 128 (v6_number a) (v * 2 ^ 112, p) = (g0 a / 2 ^ (16 - p) =? v / 2 ^ (16 - p)).
Proof.
  intros Hok Hp. unfold within. cbn [fst snd]. replace (128 - p) with (112 + (16 - p)) by lia.
  rewrite N.pow_add_r, <- !N.Div0.div_div, N.div_mul by done. f_equal. f_equal. symmetry.
  unfold v6_ok, segments in Hok. rewrite !Forall_cons in Hok. destruct Hok as (? & ? & ? & ? & ? & ? & ? & ? & _).
  apply (N.div_unique _ _ _ (v6_number a - g0 a * 2 ^ 112)); unfold v6_number, segments; cbn [foldl];
    change (2 ^ 112) with 5192296858534827628530496329220096; lia.
Qed.

(** The filter is the table: its tests on octets, segments and masks cover the
    assigned prefixes and nothing else. *)
Lemma is_host_local_reserved a : ip_ok a -> is_host_local a = reserved a.
Proof.
  destruct a as [a|a]; cbn [is_host_local ip_ok reserved]; [intros; apply reserved_v4|]. intros Hok.
  unfold is_host_local_v6. rewrite (embedded_blocks a Hok). unfold v6_blocks. rewrite !existsb_app.
  pose proof Hok as Hb. unfold v6_ok, segments in Hb. rewrite !Forall_cons in Hb. destruct Hb as (H0 & ? & ? & ? & ? & ? & ? & ? & _).
  assert (v6_low a < 2 ^ 32) as Hlo by (unfold v6_low; change (2 ^ 32) with 4294967296; lia).
  pose proof (within_embedded (v6_high a) (v6_low a) 65535 Hlo) as E1. pose proof (within_embedded (v6_high a) (v6_low a) 0 Hlo) as E2.
  rewrite <- v6_halves in E1, E2. rewrite E1, E2. cbn [existsb]. rewrite !within_all.
  assert (is_loopback_v6 a = (v6_number a =? 1)) as ->.
  { apply eq_true_iff_eq. unfold is_loopback_v6. rewrite bool_decide_eq_true, N.eqb_eq. unfold v6_number, segments. cbn [foldl].
    split; [by intros [= -> -> -> -> -> -> -> ->]|]. intros. repeat f_equal; lia. }
  assert (is_unspecified_v6 a = (v6_number a =? 0)) as ->.
  { apply eq_true_iff_eq. unfold is_unspecified_v6. rewrite bool_decide_eq_true, N.eqb_eq. unfold v6_number, segments. cbn [foldl replicate].
    split; [by intros [= -> -> -> -> -> -> -> ->]|]. intros. repeat f_equal; lia. }
  rewrite !within_first by done. unfold is_unicast_link_local_v6, is_multicast_v6.
  rewrite (mask_prefix (g0 a) 6 10 1018 : _ -> (N.land (g0 a) 65472 =? 65152) = _) by done.
  rewrite (mask_prefix (g0 a) 8 8 255 : _ -> (N.land (g0 a) 65280 =? 65280) = _) by done.
  change (65152 / 2 ^ (16 - 10)) with 1018. change (65280 / 2 ^ (16 - 8)) with 255. change (16 - 10) with 6. change (16 - 8) with 8.
  rewrite orb_false_r, <- !orb_assoc. by destruct (v6_number a =? 1), (v6_number a =? 0), (_ =? 1018), (_ =? 255).
Qed.

(** ** What a dial does *)

Section DialFacts.
Context {W : Type} `{!Net W}.
Variable net : W.

(** The connections tried: the first of the candidates, up to the one that
    answered. *)
Lemma connect_first_spec cs tr r :
  connect_first net cs = (tr, r) ->
  exists k, tr = Connected <$> list.take k cs /\
    match r with
    | Ok a => connect net a = true /\ last tr = Some (Connected a) /\ a ∈ cs
    | Err e => e = DConnect /\ (length cs <= k)%nat /\ Forall (fun a => connect net a = false) cs
    end.
Proof.
  revert tr r. induction cs as [|a cs IH]; intros tr r; cbn [connect_first].
  { intros [= <- <-]. exists 0%nat. by split_and!. }
  destruct (connect net a) eqn:E.
  { intros [= <- <-]. exists 1%nat. split; [done|]. split_and!; [done|done|set_solver]. }
  destruct (connect_first net cs) as [tr' r'] eqn:Er. intros [= <- <-].
  destruct (IH _ _ eq_refl) as (k & -> & Hr). exists (S k). split; [done|]. destruct r' as [b|e].
  - destruct Hr as (Hc & Hl & Hin). split_and!; [done| |set_solver]. cbn [fmap list_fmap list.take].
    rewrite last_cons, Hl. done.
  - destruct Hr as (-> & Hk & Hf). split_and!; [done|cbn; lia|by constructor].
Qed.

(** What the trace of a dial may hold. *)
Definition dial_trace (host : list byte) (port : N) (deny : bool) (tr : list NetOp) : Prop :=
  tr = [Resolved host port] \/
  exists resolved k, resolve net host port = Some resolved /\
    tr = Resolved host port :: (Connected <$> list.take k (candidates_of deny resolved)).

Lemma dial_unbounded_spec host port deny tr r :
  dial_unbounded net host port deny = (tr, r) ->
  dial_trace host port deny tr /\
  match r with
  | Ok a => connect net a = true /\ last tr = Some (Connected a)
  | Err DResolve => resolve net host port = None \/ resolve net host port = Some []
  | Err DFiltered => deny = true /\ tr = [Resolved host port] /\
      exists resolved, resolve net host port = Some resolved /\ Forall (fun a : SocketAddr => is_host_local a.1 = true) resolved
  | Err DConnect => exists resolved, resolve net host port = Some resolved /\
      Forall (fun a => connect net a = false) (candidates_of deny resolved)
  end.
Proof.
  unfold dial_unbounded. destruct (resolve net host port) as [[|a0 l]|] eqn:E.
  - intros [= <- <-]. split; [by left|by right].
  - set (resolved := a0 :: l) in *. destruct (candidates_of deny resolved) as [|c cs] eqn:Ec.
    + intros [= <- <-]. split; [by left|]. unfold candidates_of in Ec. destruct deny; [|done]. split_and!; [done|done|].
      exists resolved. split; [done|]. apply Forall_forall. intros a Ha.
      destruct (is_host_local a.1) eqn:El; [done|]. exfalso.
      assert (In a (List.filter (fun a : SocketAddr => negb (is_host_local a.1)) resolved)) as Hin.
      { apply filter_In. split; [by apply list_elem_of_In|by rewrite El]. }
      by rewrite Ec in Hin.
    + destruct (connect_first net (c :: cs)) as [tr' r'] eqn:Er. intros [= <- <-].
      destruct (connect_first_spec _ _ _ Er) as (k & -> & Hr). split.
      { right. exists resolved, k. by rewrite Ec. }
      destruct r' as [a|e].
      * destruct Hr as (Hc & Hl & _). split; [done|]. by rewrite last_cons, Hl.
      * destruct Hr as (-> & _ & Hf). exists resolved. by rewrite Ec.
  - intros [= <- <-]. split; [by left|by left].
Qed.

Lemma dial_spec expires host port deny tr r :
  dial net expires host port deny = (tr, r) ->
  dial_trace host port deny tr /\ (forall a, r = Ok a -> connect net a = true /\ last tr = Some (Connected a)) /\
  (r = Err DFiltered -> dial_unbounded net host port deny = (tr, r)).
Proof.
  unfold dial. destruct (dial_unbounded net host port deny) as [tr0 r0] eqn:E.
  destruct (dial_unbounded_spec _ _ _ _ _ E) as [Ht Hr].
  assert (forall k, dial_trace host port deny (list.take (S k) tr0)) as Hcut.
  { intros k. destruct Ht as [-> |(resolved & n & Hres & ->)]; [left; by destruct k|]. right. exists resolved, (Nat.min k n).
    split; [done|]. cbn [list.take]. by rewrite <- fmap_take, take_take. }
  destruct expires as [k|].
  - destruct (Nat.ltb k (length tr0)); intros [= <- <-]; [split_and!; [apply Hcut|done|done]|].
    split_and!; [done| |done]. by intros a ->.
  - intros [= <- <-]. split_and!; [done| |done]. by intros a ->.
Qed.

(** Nothing is connected to that was not resolved, or that the filter
    refuses. *)
Lemma dial_trace_safe host port deny tr a :
  dial_trace host port deny tr -> Connected a ∈ tr ->
  exists resolved, resolve net host port = Some resolved /\ a ∈ resolved /\ (deny = true -> is_host_local a.1 = false).
Proof.
  intros [-> |(resolved & k & Hr & ->)] Ha; [set_solver|]. exists resolved. split; [done|].
  apply elem_of_cons in Ha as [?|Ha]; [done|]. apply list_elem_of_fmap in Ha as (b & [= <-] & Hb).
  apply elem_of_take in Hb as (i & Hb & _). apply list_elem_of_lookup_2 in Hb. unfold candidates_of in Hb.
  destruct deny; [|done]. apply list_elem_of_In, filter_In in Hb as [Hb Hl]. apply list_elem_of_In in Hb.
  split; [done|]. intros _. by destruct (is_host_local a.1).
Qed.

End DialFacts.

(** ** The handler *)

Section Facts.
Context {Self St Sink W : Type} `{Authorizer Self St} `{Base64} `{LoggedSink Sink} `{!Net W}.
Variable self : Self.
Variable net : W.
Variable rfc3339 : N -> string.

Abbreviation Host := (World (St := St) (Sink := Sink)).
Abbreviation handler := (authorize_and_dial_tunnel self net rfc3339).

Lemma release_restores l s ps pm s' :
  Quota.Exact s ps -> Quota.reserve l pm s = Ok s' -> Quota.Exact (Quota.drop_permit pm s') ps.
Proof.
  intros Hs Hr. pose proof (Quota.exact_reserve _ _ _ _ _ Hs Hr) as Hs'.
  assert ((ps ++ [pm]) !! length ps = Some pm) as Hi by (rewrite lookup_app_r, Nat.sub_diag by lia; done).
  pose proof (Quota.exact_drop _ _ _ _ Hs' Hi) as Hd. by rewrite delete_middle, app_nil_r in Hd.
Qed.

(** Records that are no allow lines leave the allow lines alone. *)
Lemma deny_line (r : AuditRecord) (sink : Sink) :
  allow_line r = false -> allow_lines (logged (fst (record r sink))) = allow_lines (logged sink).
Proof.
  intros Hr. pose proof (logged_record r sink) as Hl. destruct (record r sink) as [sink' [|]]; cbn [fst]; rewrite Hl; [|done].
  rewrite allow_lines_app. unfold allow_lines at 2. cbn [List.filter]. by rewrite Hr, app_nil_r.
Qed.

(** The network was used only for a request that the gate let through, with
    its line in the log, and that had a slot. *)
Definition entitled (c : ConnCtx) (h : StreamHeader) (ps : list Quota.Permit) (w w' : Host) : Prop :=
  well_shaped h = true /\
  Quota.refusal (Quota.limits (w_quotas w)) ps (tunnel_permit c (format_host_port (sh_host h) (sh_port h))) = None /\
  allow_lines (logged (w_sink w')) =
    allow_lines (logged (w_sink w)) ++
    [(principal_display (ctx_principal c), as_str ForwardLocal, format_host_port (sh_host h) (sh_port h))].

Lemma handler_spec t now expires c h (w w' : Host) tr r ps :
  handler t now expires c h w = (w', tr, r) -> Quota.Exact (Quota.state (w_quotas w)) ps ->
  (tr = [] /\ (exists e, r = Err e) /\ Quota.Exact (Quota.state (w_quotas w')) ps) \/
  (entitled c h ps w w' /\ exists d, dial net expires (sh_host h) (sh_port h) (sh_deny_host_local h) = (tr, d) /\
   let pm := tunnel_permit c (format_host_port (sh_host h) (sh_port h)) in
   match d with
   | Ok a => r = Ok (a, pm) /\ Quota.Exact (Quota.state (w_quotas w')) (ps ++ [pm])
   | Err e => r = Err (dial_code e) /\ Quota.Exact (Quota.state (w_quotas w')) ps
   end).
Proof.
  intros E Hq. unfold authorize_and_dial_tunnel in E. unfold entitled.
  destruct (well_shaped h) eqn:Hs; cbn [negb] in E; [|injection E as <- <- <-; left; eauto].
  set (res := format_host_port (sh_host h) (sh_port h)) in *.
  pose proof (ask_line self t (CStream c ForwardLocal res) (w_st w, w_sink w)) as Hline. cbn [ask subject snd] in Hline.
  destruct (authorize_stream self t c ForwardLocal res (w_st w, w_sink w)) as [[st sink] allowed]. cbn [snd] in Hline.
  destruct allowed; cbn [negb] in E; [|injection E as <- <- <-; left; eauto].
  set (pm := tunnel_permit c res) in *. unfold Quota.acquire in E.
  pose proof (Quota.reserve_refines (Quota.limits (w_quotas w)) _ ps pm Hq) as Href.
  destruct (Quota.reserve _ pm (Quota.state (w_quotas w))) as [qs|kind] eqn:Er.
  2: { destruct (Quota.record_rejection _ _ _ _ _ _ _ _) as [q rs] eqn:Erec. injection E as <- <- <-. left.
       split_and!; [done|by eexists|]. unfold Quota.record_rejection in Erec. destruct (Quota.reject_in _ _ _ _ _ _ _ _).
       by injection Erec as <- _. }
  right. pose proof (release_restores _ _ _ _ _ Hq Er) as Hback.
  destruct (dial net expires _ _ _) as [tr' [a|e]] eqn:Ed.
  - injection E as <- <- <-. split_and!; [done|done|done|]. exists (Ok a). split_and!; [done|done|].
    exact (Quota.exact_reserve _ _ _ _ _ Hq Er).
  - assert (exists sink', w' = mkWorld st sink' (Quota.surrender pm (Quota.mkQuotas (Quota.limits (w_quotas w)) qs
      (Quota.windows (w_quotas w)) (Quota.count_outcome pm true (Quota.connection_counters (w_quotas w)))
      (Quota.rejections (w_quotas w)))) /\ allow_lines (logged sink') = allow_lines (logged sink) /\ tr = tr' /\ r = Err (dial_code e))
      as (sink' & -> & Hal & -> & ->).
    { destruct e; try (injection E as <- <- <-; by eexists).
      pose proof (deny_line (connection_level t (ctx_principal c) (ctx_auth_path c) ForwardLocal res Deny None (ctx_peer_addr c))
        sink eq_refl) as Hd. destruct (record _ sink) as [sink' b]. injection E as <- <- <-. by eexists. }
    split_and!; [done|done|cbn [w_sink]; by rewrite Hal|]. exists (Err e). by split_and!.
Qed.

(** C15: a forward's network use is authorized, on the record, within its quota
    and within its filter.  Whatever the request, nothing is resolved or
    connected unless the request is well-formed, the gate allowed it with a
    durable line, and a slot was free; only addresses the one resolution
    returned are connected to, and with [deny_host_local] none in a host-local
    prefix; the slot is held exactly when a connection was made. *)
Theorem tunnel_dials_authorized t now expires c h (w w' : Host) tr r ps :
  handler t now expires c h w = (w', tr, r) -> Quota.Exact (Quota.state (w_quotas w)) ps ->
  (tr <> [] -> entitled c h ps w w') /\
  (forall a, Connected a ∈ tr -> exists resolved, resolve net (sh_host h) (sh_port h) = Some resolved /\ a ∈ resolved /\
     (sh_deny_host_local h = true -> ip_ok a.1 -> reserved a.1 = false)) /\
  match r with
  | Ok (a, pm) => connect net a = true /\ last tr = Some (Connected a) /\
      pm = tunnel_permit c (format_host_port (sh_host h) (sh_port h)) /\ Quota.Exact (Quota.state (w_quotas w')) (ps ++ [pm])
  | Err _ => Quota.Exact (Quota.state (w_quotas w')) ps
  end.
Proof.
  intros E Hq. destruct (handler_spec _ _ _ _ _ _ _ _ _ _ E Hq) as [(-> & (e & ->) & HE)|(Hent & d & Ed & Hd)].
  { split_and!; [done|set_solver|done]. }
  destruct (dial_spec net _ _ _ _ _ _ Ed) as (Ht & Hok & _). split_and!; [done| |].
  - intros a Ha. destruct (dial_trace_safe net _ _ _ _ a Ht Ha) as (resolved & ? & ? & Hl). exists resolved. split_and!; [done|done|].
    intros Hdeny Hip. rewrite <- is_host_local_reserved; auto.
  - destruct d as [a|e]; destruct Hd as [-> HE]; [|done]. destruct (Hok a eq_refl). by split_and!.
Qed.

End Facts.

(** ** A small network *)

(** Literals resolve to themselves, every other name to one address; all that
    is connected to answers. *)
#[global] Instance demo_net : Net unit := {|
  resolve _ host port := Some [(default (V4 (mkV4 x5d xb8 xd8 x22)) (parse_ip host), port)];
  connect _ _ := true |}.

Definition demo_ctx : ConnCtx := mkCtx (Device "laptop") Pin None "203.0.113.7:4433".
Definition demo_world : World (St := unit) (Sink := Log) := mkWorld tt [] (Quota.new Quota.demo_limits).
Definition demo_time (now : N) : string := pretty now.
Definition demo_name : list byte := String.list_byte_of_string "example.org".

#[local] Instance demo_base64 : Base64 := letters_base64.
#[local] Instance demo_sink : AuditSink Log := log_sink (fun _ _ => true).

Definition demo_tunnel : World * list NetOp * result (SocketAddr * Quota.Permit) ConnectRejected :=
  authorize_and_dial_tunnel mkAllowAllPinned tt demo_time "t" 5 None demo_ctx (mkHeader demo_name 443 true) demo_world.

Lemma demo_world_exact : Quota.Exact (Quota.state (w_quotas demo_world)) [].
Proof. constructor; done. Qed.

Lemma tunnel_dials_authorized_witness :
  exists w' tr a pm, demo_tunnel = (w', tr, Ok (a, pm)) /\
    (tr <> [] -> entitled demo_ctx (mkHeader demo_name 443 true) [] demo_world w').
Proof.
  destruct demo_tunnel as [[w' tr] [[a pm]|e]] eqn:E; [|exfalso; vm_compute in E; discriminate].
  exists w', tr, a, pm. split; [reflexivity|].
  apply (tunnel_dials_authorized mkAllowAllPinned tt demo_time "t" 5 None demo_ctx (mkHeader demo_name 443 true)
    demo_world w' tr (Ok (a, pm)) []); [exact E|exact demo_world_exact].
Defined.

End Tunnel.
