(* ===== verification/Dynamic.v ===== *)
(** * A dynamic forward: one SOCKS5 connection

    Models what a [-D] listener does with one accepted connection
    ([handle_connection] of [crates/qsh-core/src/tunnel/dynamic.rs]): the reads
    that take exactly the greeting and the request off the socket, the
    replies, the opening of the tunnel and the hand-over to the splice.  How
    reads return is a list of events; what the limits, the carrier and the
    peer answer is an [Env]. *)

From S2P Require Import Prelude Errors IpText Socks5.

Module Dynamic.
Import Errors IpText Socks5.

(** ** Reading *)

(** What one read returns: up to [n + 1] of the bytes that came, or the end,
    an error or the deadline. *)
Inductive ReadEvent := Got (n : N) | Ended.

(** The socket: what the client sends, and how the reads will go. *)
Record Tcp := mkTcp { t_input : list byte; t_reads : list ReadEvent }.

(** The loop of [read_exact_before]; a read with nothing to come waits until
    the deadline. *)
Fixpoint read_loop (reads : list ReadEvent) (want : N) (buf input : list byte) : Tcp * option (list byte) :=
  if want =? 0 then (mkTcp input reads, Some buf)
  else
    match reads with
    | Got n :: reads' =>
        let k := ((n + 1) `min` want) `min` len input in
        if k =? 0 then (mkTcp input reads', None)
        else read_loop reads' (want - k) (buf ++ takeN k input) (dropN k input)
    | Ended :: reads' => (mkTcp input reads', None)
    | [] => (mkTcp input [], None)
    end.
Definition read_exact_before (want : N) (t : Tcp) : Tcp * option (list byte) :=
  read_loop (t_reads t) want [] (t_input t).

(** How a part of the handshake ends; [Unreachable] is a panic of the code. *)
Inductive Handshake (A : Type) := HOk (a : A) | NotSocks5 | DeadlineOrClosed | Unreachable.
Arguments HOk {A}. Arguments NotSocks5 {A}. Arguments DeadlineOrClosed {A}. Arguments Unreachable {A}.

Definition then_read {A} (want : N) (k : list byte -> Tcp -> Tcp * Handshake A) (t : Tcp) : Tcp * Handshake A :=
  match read_exact_before want t with
  | (t, Some buf) => k buf t
  | (t, None) => (t, DeadlineOrClosed)
  end.

Definition read_greeting : Tcp -> Tcp * Handshake Greeting :=
  then_read 1 (fun ver =>
    match parse_greeting ver with
    | Err GInvalid => fun t => (t, NotSocks5)
    | Ok _ => fun t => (t, Unreachable)
    | Err GIncomplete =>
        then_read 1 (fun nmethods =>
          let finish methods t :=
            match parse_greeting (ver ++ nmethods ++ methods) with
            | Ok p => (t, HOk (p_value p))
            | Err _ => (t, Unreachable)
            end in
          let n := b2n (at_ nmethods 0) in
          if n =? 0 then finish [] else then_read n finish)
    end).

Inductive RequestOutcome := RParsed (r : Request) | RRejected (rep : Rep).

Definition classify (buf : list byte) (t : Tcp) : Tcp * Handshake RequestOutcome :=
  match parse_request buf with
  | Ok p => (t, HOk (RParsed (p_value p)))
  | Err (Rejected rep) => (t, HOk (RRejected rep))
  | Err Incomplete => (t, Unreachable)
  end.

Definition read_request : Tcp -> Tcp * Handshake RequestOutcome :=
  then_read 4 (fun buf =>
    let atyp := at_ buf 3 in
    if bool_decide (atyp = x01) then then_read (4 + 2) (fun rest => classify (buf ++ rest))
    else if bool_decide (atyp = x04) then then_read (16 + 2) (fun rest => classify (buf ++ rest))
    else if bool_decide (atyp = x03) then
      then_read 1 (fun n => then_read (b2n (at_ n 0) + 2) (fun rest => classify (buf ++ n ++ rest)))
    else classify buf).

(** ** The connection *)

Inductive ForwardConnError :=
  | Refused (code : string) | Link | NoConnectResult | CarrierNotRaw | CarrierDisconnected | PeerChanged | Splice.

(** [rep_for_forward_conn_error] *)
Definition rep_for_forward_conn_error (e : ForwardConnError) : Rep :=
  match e with
  | Refused code => from_error_code (code_of code)
  | Link | NoConnectResult | CarrierNotRaw | CarrierDisconnected | PeerChanged | Splice => GeneralFailure
  end.

(** [CarrierView::admit], a hold with how it ended. *)
Inductive Admit := Live | Held (live_again : bool) | ARefused.

(** What the connection meets: a handshake slot, writes that work, the
    carrier, a connection slot, a token in time, the carrier still there, and
    what [open_tunnel] comes to. *)
Record Env := mkEnv {
  e_handshake_slot : bool;
  e_select_written : bool;
  e_admit : Admit;
  e_connection_slot : bool;
  e_token : bool;
  e_current : bool;
  e_open_tunnel : list byte -> N -> bool -> result unit ForwardConnError;
  e_reply_written : bool;
}.

(** What it did: the bytes written to the client, the tunnels opened (host,
    port, [deny_host_local]), the client's bytes handed to the splice, and
    whether the code panicked. *)
Record Outcome := mkOutcome {
  written : list byte;
  opened : list (list byte * N * bool);
  spliced : option (list byte);
  panicked : bool;
}.

Definition closed (w : list byte) : Outcome := mkOutcome w [] None false.
Definition panic (w : list byte) : Outcome := mkOutcome w [] None true.

(** [handle_connection] once a request is there. *)
Definition connect_request (e : Env) (w : list byte) (r : Request) (t : Tcp) : Outcome :=
  let refuse := closed (w ++ encode_reply GeneralFailure) in
  match e_admit e with
  | ARefused | Held false => refuse
  | Live | Held true =>
      if negb (e_connection_slot e) then refuse
      else if negb (e_token e) then refuse
      else if negb (e_current e) then refuse
      else
        let tunnel := (host r, port r, true) in
        match e_open_tunnel e (host r) (port r) true with
        | Ok _ => mkOutcome (w ++ encode_reply Succeeded) [tunnel]
                    (if e_reply_written e then Some (t_input t) else None) false
        | Err err => mkOutcome (w ++ encode_reply (rep_for_forward_conn_error err)) [tunnel] None false
        end
  end.

(** [handle_connection] *)
Definition handle_connection (e : Env) (t : Tcp) : Outcome :=
  if negb (e_handshake_slot e) then closed []
  else
    match read_greeting t with
    | (_, (NotSocks5 | DeadlineOrClosed)) => closed []
    | (_, Unreachable) => panic []
    | (t, HOk g) =>
        let select := encode_method_select g in
        if negb (e_select_written e) then closed select
        else if negb (bool_decide (at_ select 1 = x00)) then closed select
        else
          match read_request t with
          | (_, (NotSocks5 | DeadlineOrClosed)) => closed select
          | (_, Unreachable) => panic select
          | (_, HOk (RRejected rep)) => closed (select ++ encode_reply rep)
          | (t, HOk (RParsed r)) => connect_request e select r t
          end
    end.

(** ** Reads are exact *)

Lemma read_loop_some reads : forall want buf input t out,
  read_loop reads want buf input = (t, Some out) ->
  exists got, out = buf ++ got /\ input = got ++ t_input t /\ len got = want.
Proof.
  assert (forall want buf input t out reads, want = 0 -> (mkTcp input reads, Some buf) = (t, Some out) ->
    exists got, out = buf ++ got /\ input = got ++ t_input t /\ len got = want) as H0.
  { intros want buf input t out reads' -> [= <- <-]. exists []. by rewrite app_nil_r. }
  induction reads as [|[n|] reads IH]; intros want buf input t out; cbn [read_loop];
    (destruct (N.eqb_spec want 0) as [E|E]; [by eapply H0|]); [done| |done].
  destruct (_ =? 0) eqn:Ek; [done|]. apply N.eqb_neq in Ek. intros (got & -> & Hin & Hl)%IH.
  eexists. rewrite <- app_assoc. split; [reflexivity|]. rewrite <- app_assoc, <- Hin, takeN_dropN. split; [done|].
  rewrite len_app, len_takeN, Hl. lia.
Qed.

Lemma read_exact_some want t t' buf :
  read_exact_before want t = (t', Some buf) -> t_input t = buf ++ t_input t' /\ len buf = want.
Proof. intros (got & -> & Hin & Hl)%read_loop_some. done. Qed.

(** Reads that all bring something fill the buffer. *)
Definition steady (k : N) (t : Tcp) : Prop := exists gs es, t_reads t = (Got <$> gs) ++ es /\ k <= len gs.

Lemma read_loop_live gs : forall es want buf input,
  want <= len input -> want <= len gs ->
  exists gs', read_loop ((Got <$> gs) ++ es) want buf input =
    (mkTcp (dropN want input) ((Got <$> gs') ++ es), Some (buf ++ takeN want input)) /\ len gs - want <= len gs'.
Proof.
  induction gs as [|n gs IH]; intros es want buf input Hin Hgs.
  - cbn [fmap list_fmap app]. rewrite len_nil in Hgs. assert (want = 0) as -> by lia. exists []. rewrite dropN_0, takeN_0, app_nil_r.
    split; [|lia]. by destruct es.
  - rewrite len_cons in Hgs. rewrite fmap_cons. cbn [app read_loop]. destruct (N.eqb_spec want 0) as [->|Hw].
    { exists (n :: gs). rewrite dropN_0, takeN_0, app_nil_r. split; [done|lia]. }
    set (k := ((n + 1) `min` want) `min` len input). assert (1 <= k <= want) by lia.
    rewrite (proj2 (N.eqb_neq k 0)) by lia.
    destruct (IH es (want - k) (buf ++ takeN k input) (dropN k input)) as (gs' & E & Hl); [rewrite len_dropN; lia|lia|].
    exists gs'. rewrite E, dropN_dropN, <- app_assoc, takeN_takeN_dropN. rewrite len_cons.
    replace (k + (want - k)) with want by lia. split; [done|lia].
Qed.

Lemma then_read_live {A} want (k : list byte -> Tcp -> Tcp * Handshake A) buf more reads n :
  len buf = want -> steady n (mkTcp (buf ++ more) reads) -> want <= n ->
  exists reads', then_read want k (mkTcp (buf ++ more) reads) = k buf (mkTcp more reads') /\
    steady (n - want) (mkTcp more reads').
Proof.
  intros Hb (gs & es & Hr & Hn) Hw. cbn in Hr. unfold then_read, read_exact_before. cbn [t_reads t_input]. rewrite Hr.
  destruct (read_loop_live gs es want [] (buf ++ more)) as (gs' & E & Hl); [len_lia|lia|].
  rewrite E, dropN_app_len, takeN_app_len by done. exists ((Got <$> gs') ++ es). split; [done|].
  exists gs', es. split; [done|lia].
Qed.

Lemma then_read_inv {A} want (k : list byte -> Tcp -> Tcp * Handshake A) t t' x :
  then_read want k t = (t', x) ->
  (x = DeadlineOrClosed) \/ exists buf t1, t_input t = buf ++ t_input t1 /\ len buf = want /\ k buf t1 = (t', x).
Proof.
  unfold then_read. destruct (read_exact_before want t) as [t1 [buf|]] eqn:E; [|intros [= _ <-]; by left].
  intros Hk. right. exists buf, t1. apply read_exact_some in E as [? ?]. done.
Qed.

(** ** The greeting *)

Lemma greeting_whole ver n ms :
  len ms = b2n n ->
  parse_greeting (ver :: n :: ms) =
  if bool_decide (ver = SOCKS5_VERSION) then Ok (mkParsed (mkGreeting ms) (2 + b2n n)) else Err GInvalid.
Proof.
  intros Hl. unfold parse_greeting. case_bool_decide; [|done]. cbn [negb].
  rewrite (proj2 (N.ltb_ge _ _)) by (rewrite !len_cons; lia). by rewrite takeN_ge by lia.
Qed.

Lemma greeting_first ver :
  parse_greeting [ver] = Err (if bool_decide (ver = SOCKS5_VERSION) then GIncomplete else GInvalid).
Proof. unfold parse_greeting. by case_bool_decide. Qed.

Lemma len_1 (l : list byte) : len l = 1 -> exists b, l = [b].
Proof. destruct l as [|b [|c l]]; rewrite ?len_cons; [done|by exists b|lia]. Qed.

(** What was read is one greeting, and nothing more. *)
Lemma read_greeting_inv t t' x :
  read_greeting t = (t', x) ->
  match x with
  | HOk g => exists gb, t_input t = gb ++ t_input t' /\ parse_greeting gb = Ok (mkParsed g (len gb))
  | Unreachable => False
  | NotSocks5 | DeadlineOrClosed => True
  end.
Proof.
  unfold read_greeting. intros [-> |(b1 & t1 & H1 & [ver ->]%len_1 & E)]%then_read_inv; [done|].
  rewrite greeting_first in E. case_bool_decide as Hv; [|by injection E as _ <-]. subst ver.
  apply then_read_inv in E as [-> |(b2 & t2 & H2 & [n ->]%len_1 & E)]; [done|]. change (at_ [n] 0) with n in E.
  assert (forall ms t3, t_input t2 = ms ++ t_input t3 -> len ms = b2n n ->
    (match parse_greeting ([SOCKS5_VERSION] ++ [n] ++ ms) with Ok p => (t3, HOk (p_value p)) | Err _ => (t3, Unreachable) end) = (t', x) ->
    match x with
    | HOk g => exists gb, t_input t = gb ++ t_input t' /\ parse_greeting gb = Ok (mkParsed g (len gb))
    | Unreachable => False | _ => True
    end) as Hfin.
  { intros ms t3 H3 Hl. cbn [app]. rewrite greeting_whole, bool_decide_eq_true_2 by done. intros [= <- <-].
    exists (SOCKS5_VERSION :: n :: ms). split; [by rewrite H1, H2, H3|].
    rewrite greeting_whole, bool_decide_eq_true_2 by done. by rewrite !len_cons, Hl, N.add_assoc. }
  destruct (N.eqb_spec (b2n n) 0) as [E0|E0]; [by apply (Hfin [] t2)|].
  apply then_read_inv in E as [-> |(ms & t3 & H3 & Hl & E)]; [done|]. by apply (Hfin ms t3).
Qed.

Lemma greeting_shape gb g :
  parse_greeting gb = Ok (mkParsed g (len gb)) ->
  exists n, gb = SOCKS5_VERSION :: n :: methods g /\ len (methods g) = b2n n.
Proof.
  unfold parse_greeting. destruct gb as [|ver [|n ms]]; [done|by destruct (negb _)|].
  case_bool_decide as Hv; [|done]. cbn [negb]. destruct (_ <? _); [done|]. intros [= <- Hl]. rewrite !len_cons in Hl.
  exists n. subst ver. rewrite takeN_ge by lia. cbn [methods]. split; [done|lia].
Qed.

(** Carries out the next read, of [buf]; [Hs] says that reads go on. *)
Ltac next_read Hs buf more :=
  match type of Hs with steady ?k _ =>
    match goal with |- context [then_read ?w ?f (mkTcp ?i ?r)] =>
      change i with (buf ++ more) in Hs |- *;
      let r' := fresh "reads" in
      let E := fresh "E" in
      destruct (then_read_live w f buf more r k) as (r' & E & Hs'); [done || lia|exact Hs|lia|rewrite E; clear E Hs; rename Hs' into Hs]
    end
  end.

Lemma read_greeting_live gb g more reads k :
  parse_greeting gb = Ok (mkParsed g (len gb)) -> steady k (mkTcp (gb ++ more) reads) -> len gb <= k ->
  exists reads', read_greeting (mkTcp (gb ++ more) reads) = (mkTcp more reads', HOk g) /\
    steady (k - len gb) (mkTcp more reads').
Proof.
  intros Hp Hs Hk. destruct (greeting_shape gb g Hp) as (n & -> & Hl). rewrite !len_cons in *. unfold read_greeting.
  cbn [app] in *. next_read Hs [SOCKS5_VERSION] (n :: methods g ++ more). rewrite greeting_first, bool_decide_eq_true_2 by done.
  next_read Hs [n] (methods g ++ more). change (at_ [n] 0) with n.
  assert (parse_greeting ([SOCKS5_VERSION] ++ [n] ++ methods g) = Ok (mkParsed g (1 + (1 + len (methods g))))) as Hp' by exact Hp.
  destruct (N.eqb_spec (b2n n) 0) as [E0|E0].
  - destruct (methods g) as [|m ms] eqn:Em; [|rewrite len_cons in Hl; lia]. rewrite Hp'. cbn [app p_value] in *.
    eexists. split; [reflexivity|]. rewrite len_nil in *. by replace (k - (1 + (1 + 0))) with (k - 1 - 1) by lia.
  - next_read Hs (methods g) more. rewrite Hp'. cbn [p_value]. eexists. split; [reflexivity|].
    by replace (k - (1 + (1 + len (methods g)))) with (k - 1 - 1 - b2n n) by lia.
Qed.

(** ** The request *)

(** With the bytes its address type asks for, a request is decided, and takes
    them all. *)
Lemma request_total buf k :
  4 <= len buf -> addr_kind (at_ buf 3) buf = Ok k -> len buf = total_len k ->
  match parse_request buf with
  | Ok p => p_consumed p = len buf
  | Err Incomplete => False
  | Err (Rejected _) => True
  end.
Proof.
  intros H4 Hk Hl. unfold parse_request. rewrite (proj2 (N.ltb_ge _ _)) by done. destruct (negb _); [done|].
  destruct (negb _); [done|]. rewrite Hk. cbn [rbind]. rewrite Hl, (proj2 (N.ltb_ge _ _)) by done. destruct (_ || _); [done|].
  by destruct (request_host k buf).
Qed.

Lemma request_bad_type buf :
  4 <= len buf -> addr_kind (at_ buf 3) buf = Err (Rejected AddressTypeNotSupported) ->
  exists rep, parse_request buf = Err (Rejected rep).
Proof.
  intros H4 Hk. unfold parse_request. rewrite (proj2 (N.ltb_ge _ _)) by done. destruct (negb _); [by eexists|].
  destruct (negb _); [by eexists|]. rewrite Hk. by eexists.
Qed.

Definition request_read (t t' : Tcp) (o : RequestOutcome) : Prop :=
  exists rb, t_input t = rb ++ t_input t' /\
    match o with
    | RParsed r => parse_request rb = Ok (mkParsed r (len rb))
    | RRejected rep => parse_request rb = Err (Rejected rep)
    end.

Lemma classify_inv t t1 buf k t' x :
  t_input t = buf ++ t_input t1 -> 4 <= len buf -> addr_kind (at_ buf 3) buf = Ok k -> len buf = total_len k ->
  classify buf t1 = (t', x) -> exists o, x = HOk o /\ request_read t t' o.
Proof.
  intros Hin H4 Hk Hl. pose proof (request_total buf k H4 Hk Hl) as Ht. unfold classify, request_read.
  destruct (parse_request buf) as [[r n]|[|rep]] eqn:E; [|done|].
  - intros [= <- <-]. eexists. split; [done|]. exists buf. cbn in Ht. by rewrite <- Ht.
  - intros [= <- <-]. eexists. split; [done|]. by exists buf.
Qed.

Lemma read_request_inv t t' x :
  read_request t = (t', x) -> x = DeadlineOrClosed \/ exists o, x = HOk o /\ request_read t t' o.
Proof.
  unfold read_request. intros [-> |(buf & t1 & H1 & Hb & E)]%then_read_inv; [by left|].
  assert (forall more, at_ (buf ++ more) 3 = at_ buf 3) as Hat by (intros; apply at_app; lia).
  assert (forall more, (buf ++ more) !! 4%nat = more !! 0%nat) as Hl4.
  { intros. rewrite lookup_app_r by (unfold len in Hb; lia). f_equal. unfold len in Hb. lia. }
  destruct (bool_decide_reflect (at_ buf 3 = x01)) as [Ea|N1].
  { apply then_read_inv in E as [-> |(rest & t2 & H2 & Hr & E)]; [by left|]. right.
    apply (classify_inv t t2 (buf ++ rest) KV4) in E; [done| | | |]; rewrite ?Hat; rewrite ?len_app; unfold total_len;
      [by rewrite H1, H2, app_assoc|lia|by unfold addr_kind; rewrite Ea|lia]. }
  destruct (bool_decide_reflect (at_ buf 3 = x04)) as [Ea|N4].
  { apply then_read_inv in E as [-> |(rest & t2 & H2 & Hr & E)]; [by left|]. right.
    apply (classify_inv t t2 (buf ++ rest) KV6) in E; [done| | | |]; rewrite ?Hat; rewrite ?len_app; unfold total_len;
      [by rewrite H1, H2, app_assoc|lia|by unfold addr_kind; rewrite Ea|lia]. }
  destruct (bool_decide_reflect (at_ buf 3 = x03)) as [Ea|N3].
  { apply then_read_inv in E as [-> |(b1 & t2 & H2 & [n ->]%len_1 & E)]; [by left|]. change (at_ [n] 0) with n in E.
    apply then_read_inv in E as [-> |(rest & t3 & H3 & Hr & E)]; [by left|]. right.
    apply (classify_inv t t3 (buf ++ [n] ++ rest) (KDomain (b2n n))) in E; [done| | | |]; rewrite ?Hat; rewrite ?len_app; unfold total_len;
      [by rewrite H1, H2, H3, <- !app_assoc|lia| |change (len [n]) with 1; lia].
    unfold addr_kind. rewrite Ea, Hl4. done. }
  right. destruct (request_bad_type buf) as [rep Hrep]; [lia| |].
  { unfold addr_kind, ATYP_IPV4, ATYP_IPV6, ATYP_DOMAIN. by rewrite !bool_decide_eq_false_2. }
  unfold classify in E. rewrite Hrep in E. injection E as <- <-. eexists. split; [done|]. by exists buf.
Qed.

Lemma request_parts rb r :
  parse_request rb = Ok (mkParsed r (len rb)) ->
  exists k, addr_kind (at_ rb 3) rb = Ok k /\ len rb = total_len k.
Proof.
  unfold parse_request. destruct (_ <? 4); [done|]. destruct (negb _); [done|]. destruct (negb _); [done|].
  destruct (addr_kind (at_ rb 3) rb) as [k|]; [|done]. cbn [rbind]. destruct (_ <? _); [done|]. destruct (_ || _); [done|].
  destruct (request_host k rb); [|done]. intros [= _ Hl]. by exists k.
Qed.

Lemma read_request_live rb r more reads k :
  parse_request rb = Ok (mkParsed r (len rb)) -> steady k (mkTcp (rb ++ more) reads) -> len rb <= k ->
  exists reads', read_request (mkTcp (rb ++ more) reads) = (mkTcp more reads', HOk (RParsed r)).
Proof.
  intros Hp Hs Hk. destruct (request_parts rb r Hp) as (kd & Hkd & Hl).
  assert (6 <= total_len kd) by (unfold total_len; destruct kd; lia).
  assert (forall t, classify rb t = (t, HOk (RParsed r))) as Hc by (intros t; unfold classify; by rewrite Hp).
  rewrite <- (takeN_dropN 4 rb) in Hc, Hs |- *. assert (len (takeN 4 rb) = 4) as H4 by (rewrite len_takeN; lia).
  assert (len (dropN 4 rb) = total_len kd - 4) as H5 by (rewrite len_dropN; lia).
  assert (at_ (takeN 4 rb) 3 = at_ rb 3) as Ha by by apply at_takeN.
  assert (dropN 4 rb !! 0%nat = rb !! 4%nat) as Hn by (unfold dropN; by rewrite lookup_drop).
  set (h := takeN 4 rb) in *. set (rest := dropN 4 rb) in *. clearbody h rest. rewrite <- app_assoc in *.
  unfold read_request. next_read Hs h (rest ++ more). rewrite Ha. unfold addr_kind, ATYP_IPV4, ATYP_IPV6, ATYP_DOMAIN in Hkd.
  destruct (bool_decide_reflect (at_ rb 3 = x01)) as [E1|N1].
  { injection Hkd as <-. unfold total_len in *. next_read Hs rest more. rewrite Hc. by eexists. }
  destruct (bool_decide_reflect (at_ rb 3 = x04)) as [E4|N4].
  { injection Hkd as <-. unfold total_len in *. next_read Hs rest more. rewrite Hc. by eexists. }
  destruct (bool_decide_reflect (at_ rb 3 = x03)) as [E3|N3]; [|done].
  rewrite <- Hn in Hkd. destruct rest as [|n rest]; [done|]. injection Hkd as <-. unfold total_len in *. rewrite len_cons in H5.
  next_read Hs [n] (rest ++ more). change (at_ [n] 0) with n. next_read Hs rest more.
  assert (h ++ [n] ++ rest = h ++ n :: rest) as -> by done. rewrite Hc. by eexists.
Qed.

(** ** The connection *)

(** What the client sent is a greeting that offers no authentication, a
    request, and the rest. *)
Definition asked (input : list byte) (r : Request) (rest : list byte) : Prop :=
  exists gb g rb, input = gb ++ rb ++ rest /\ parse_greeting gb = Ok (mkParsed g (len gb)) /\
    offers_no_auth g = true /\ parse_request rb = Ok (mkParsed r (len rb)).

Lemma select_no_auth g : bool_decide (at_ (encode_method_select g) 1 = x00) = offers_no_auth g.
Proof. unfold encode_method_select. change (at_ [?a; ?b] 1) with b. by destruct (offers_no_auth g). Qed.

(** What may be written: nothing, a selection, or one with a reply. *)
Definition answers (w : list byte) : Prop :=
  w = [] \/ exists g, w = encode_method_select g \/
    exists rep, offers_no_auth g = true /\ w = encode_method_select g ++ encode_reply rep.

Definition connection_ok (e : Env) (input : list byte) (o : Outcome) : Prop :=
  panicked o = false /\
  (opened o = [] \/ exists r rest, asked input r rest /\ opened o = [(host r, port r, true)]) /\
  (forall rest, spliced o = Some rest ->
     exists r, asked input r rest /\ e_open_tunnel e (host r) (port r) true = Ok tt /\
       written o = [SOCKS5_VERSION; METHOD_NO_AUTH] ++ encode_reply Succeeded) /\
  answers (written o).

Lemma closed_ok e input w : answers w -> connection_ok e input (closed w).
Proof. intros Hw. split_and!; [done|by left|done|done]. Qed.

Lemma answers_select g : answers (encode_method_select g).
Proof. right. exists g. by left. Qed.

Lemma answers_reply g rep : offers_no_auth g = true -> answers (encode_method_select g ++ encode_reply rep).
Proof. intros Hg. right. exists g. right. by exists rep. Qed.

Lemma connect_request_ok e input g r t :
  asked input r (t_input t) -> offers_no_auth g = true ->
  connection_ok e input (connect_request e (encode_method_select g) r t).
Proof.
  intros Ha Hg. pose proof (closed_ok e input _ (answers_reply g GeneralFailure Hg)) as Hrefuse.
  assert (connection_ok e input
    (match e_open_tunnel e (host r) (port r) true with
     | Ok _ => mkOutcome (encode_method_select g ++ encode_reply Succeeded) [(host r, port r, true)]
                 (if e_reply_written e then Some (t_input t) else None) false
     | Err err => mkOutcome (encode_method_select g ++ encode_reply (rep_for_forward_conn_error err)) [(host r, port r, true)] None false
     end)) as Hopen.
  { destruct (e_open_tunnel e (host r) (port r) true) as [[]|err] eqn:E.
    - split_and!; [done|right; by eexists _, _| |by apply answers_reply]. cbn [spliced written].
      intros rest Hs. destruct (e_reply_written e); [|done]. injection Hs as <-. exists r. split_and!; [done|done|].
      unfold encode_method_select. by rewrite Hg.
    - split_and!; [done|right; by eexists _, _|done|by apply answers_reply]. }
  unfold connect_request. destruct (e_admit e) as [|[]|]; try done;
    destruct (e_connection_slot e), (e_token e), (e_current e); done.
Qed.

Lemma handle_connection_ok e t : connection_ok e (t_input t) (handle_connection e t).
Proof.
  unfold handle_connection. destruct (negb (e_handshake_slot e)); [apply closed_ok; by left|].
  destruct (read_greeting t) as [t1 x] eqn:Eg. apply read_greeting_inv in Eg.
  destruct x as [g| | |]; [|apply closed_ok; by left|apply closed_ok; by left|done]. destruct Eg as (gb & Hin & Hg).
  destruct (negb (e_select_written e)); [apply closed_ok, answers_select|].
  rewrite select_no_auth. destruct (offers_no_auth g) eqn:Ho; cbn [negb]; [|apply closed_ok, answers_select].
  destruct (read_request t1) as [t2 x] eqn:Er. apply read_request_inv in Er as [-> |(o & -> & rb & Hin' & Hr)].
  { apply closed_ok, answers_select. }
  destruct o as [r|rep]; [|by apply closed_ok, answers_reply]. apply connect_request_ok; [|done].
  exists gb, g, rb. by rewrite Hin, Hin'.
Qed.

(** C23: a dynamic forward opens what was asked for, and loses no byte.
    However the client's bytes arrive and wherever the handshake stops, the
    code never panics; a tunnel is opened at most once, for the host and the
    port of a well-formed request after a greeting that offers no
    authentication, and always with [deny_host_local]; what is handed to the
    splice is exactly what the client sent after the request; and the bytes
    written are the method selection and at most one reply. *)
Theorem socks_connection_exact e t :
  let o := handle_connection e t in
  panicked o = false /\
  (opened o = [] \/ exists r rest, asked (t_input t) r rest /\ opened o = [(host r, port r, true)]) /\
  (forall rest, spliced o = Some rest ->
     exists r, asked (t_input t) r rest /\ e_open_tunnel e (host r) (port r) true = Ok tt /\
       written o = [SOCKS5_VERSION; METHOD_NO_AUTH] ++ encode_reply Succeeded) /\
  answers (written o).
Proof. exact (handle_connection_ok e t). Qed.

(** An environment that lets a connection through. *)
Definition let_through (open_tunnel : list byte -> N -> bool -> result unit ForwardConnError) : Env :=
  mkEnv true true Live true true true open_tunnel true.

(** What a well-formed client gets, however its bytes are cut. *)
Lemma served gb g rb r rest reads k open_tunnel :
  parse_greeting gb = Ok (mkParsed g (len gb)) -> offers_no_auth g = true ->
  parse_request rb = Ok (mkParsed r (len rb)) ->
  steady k (mkTcp (gb ++ rb ++ rest) reads) -> len gb + len rb <= k ->
  handle_connection (let_through open_tunnel) (mkTcp (gb ++ rb ++ rest) reads) =
  match open_tunnel (host r) (port r) true with
  | Ok _ => mkOutcome ([SOCKS5_VERSION; METHOD_NO_AUTH] ++ encode_reply Succeeded) [(host r, port r, true)] (Some rest) false
  | Err err => mkOutcome ([SOCKS5_VERSION; METHOD_NO_AUTH] ++ encode_reply (rep_for_forward_conn_error err))
                 [(host r, port r, true)] None false
  end.
Proof.
  intros Hg Ho Hr Hs Hk. unfold handle_connection. cbn [let_through e_handshake_slot negb].
  destruct (read_greeting_live gb g (rb ++ rest) reads k Hg Hs ltac:(lia)) as (reads1 & -> & Hs1).
  cbn [let_through e_select_written negb]. rewrite select_no_auth, Ho. cbn [negb].
  destruct (read_request_live rb r rest reads1 _ Hr Hs1 ltac:(lia)) as (reads2 & ->).
  unfold connect_request, encode_method_select. rewrite Ho. cbn [let_through e_admit e_connection_slot e_token e_current negb].
  cbn [let_through e_open_tunnel e_reply_written t_input]. by destruct (open_tunnel (host r) (port r) true) as [[]|].
Qed.

End Dynamic.
