(* ===== verification/Proxy.v ===== *)
(** * The proxy end to end

    Composes the SOCKS side of a dynamic forward ([Dynamic]) with the host
    that dials for it ([Tunnel]) over an intact tunnel stream ([open_tunnel] of
    [crates/qsh-core/src/tunnel/local.rs]): what a local application, and
    whatever content it runs, can make the proxy connect to. *)

From S2P Require Import Prelude Errors ScreenCodec Utf8 IpText Socks5 FileGuard Identity AuditLog Quota Acl Policy Gate Tunnel Dynamic.

Module Proxy.
Import Errors IpText Socks5 Identity Acl Policy Gate Tunnel Dynamic.

(** [wire::sanitize_peer_text] *)
Definition sanitize_char (c : N) : N :=
  if ScreenCodec.is_control c && negb (c =? 9) then Utf8.REPLACEMENT else c.
Definition sanitize_peer_text (text : string) : string :=
  String.string_of_list_byte
    (mjoin (Utf8.encode_utf8 ∘ sanitize_char <$> default [] (ScreenCodec.chars (String.list_byte_of_string text)))).

(** ** What a request names *)

(** The address a host text spells. *)
Definition spelled (text : list byte) : option IpAddr :=
  match parse_ipv6 text with
  | Some a => Some (V6 a)
  | None => match parse_ipv4 text with Some a => Some (V4 a) | None => None end
  end.
Definition domain_text (raw : list byte) : list byte := strip_dot (Socks5.to_ascii_lowercase <$> raw).

(** The address a request spells out, in whichever form. *)
Definition named (rb : list byte) : option IpAddr :=
  match addr_kind (at_ rb 3) rb with
  | Ok k =>
      match k with
      | KV4 => Some (V4 (mkV4 (at_ rb 4) (at_ rb 5) (at_ rb 6) (at_ rb 7)))
      | KV6 => Some (V6 (v6_from 4 rb))
      | KDomain n => spelled (domain_text (takeN n (dropN 5 rb)))
      end
  | Err _ => None
  end.

Lemma u16_be_bound a b : u16_be a b < 65536.
Proof. unfold u16_be. pose proof (b2n_bound a). pose proof (b2n_bound b). lia. Qed.

Lemma normalize_literal raw host a :
  normalize_domain raw = Some host -> spelled (domain_text raw) = Some a -> host = print_ip a /\ ip_ok a.
Proof.
  unfold normalize_domain, spelled, domain_text. intros Hn Ha. destruct (_ || _); [done|].
  destruct (ScreenCodec.chars raw); [|done]. destruct (_ || _); [done|]. destruct (parse_ipv6 _) as [v6|] eqn:E6.
  - injection Ha as <-. injection Hn as <-. split; [done|]. by apply parse_ipv6_ok in E6.
  - destruct (parse_ipv4 _) as [v4|]; [|done]. injection Ha as <-. by injection Hn as <-.
Qed.

Lemma named_host rb r n a : parse_request rb = Ok (mkParsed r n) -> named rb = Some a -> parse_ip (host r) = Some a /\ ip_ok a.
Proof.
  intros Hp Hn. enough (host r = print_ip a /\ ip_ok a) as [-> Hok] by (split; [by apply parse_print_ip|done]).
  unfold parse_request in Hp. unfold named in Hn. destruct (_ <? 4); [done|]. destruct (negb _); [done|]. destruct (negb _); [done|].
  destruct (addr_kind (at_ rb 3) rb) as [k|]; [|done]. cbn [rbind] in Hp. destruct (_ <? _); [done|]. destruct (_ || _); [done|].
  destruct (request_host k rb) as [h|] eqn:Eh; [|done]. injection Hp as <- _. cbn [host]. destruct k as [| |m]; cbn [request_host] in Eh.
  - injection Hn as <-. by injection Eh as <-.
  - injection Hn as <-. injection Eh as <-. split; [done|]. repeat constructor; apply u16_be_bound.
  - by eapply normalize_literal.
Qed.

(** ** Shapes *)

Abbreviation allowed := (Forall (fun b => disallowed b = false)).

Lemma digit_allowed n : n < 16 -> disallowed (digit_char n) = false.
Proof.
  intros Hn. unfold disallowed, digit_char. destruct (N.ltb_spec n 10); rewrite b2n_n2b_small by lia; lia.
Qed.

Lemma show_allowed radix n : 1 < radix -> radix <= 16 -> n < radix ^ 4 -> allowed (show radix n).
Proof.
  intros Hr H16 Hn. destruct (digits_spec radix 4 n Hr ltac:(lia) Hn) as [Hd _]. apply Forall_fmap.
  eapply Forall_impl; [exact Hd|]. intros d Hlt. cbn in Hlt. apply digit_allowed. lia.
Qed.

Lemma ipv4_allowed a : allowed (print_ipv4 a) /\ len (print_ipv4 a) <= 15.
Proof.
  assert (forall b, allowed (show 10 (b2n b)) /\ len (show 10 (b2n b)) <= 3) as H.
  { intros b. pose proof (b2n_bound b). split; [apply show_allowed; [done|done|change (10 ^ 4) with 10000; lia]|]. change 3 with (N.of_nat 3).
    apply len_show; [done|lia|cbn; lia]. }
  destruct (H (o0 a)), (H (o1 a)), (H (o2 a)), (H (o3 a)). unfold print_ipv4. rewrite !Forall_app, !len_app.
  change (len [x2e]) with 1. split; [by split_and!; try done; repeat constructor|lia].
Qed.

Lemma tail_allowed l : Forall (fun s => s < 65536) l -> allowed (print_tail l) /\ len (print_tail l) <= 5 * len l.
Proof.
  induction 1 as [|s l Hs _ [IH IHl]]; cbn [print_tail]; [by split; [constructor|]|].
  pose proof (show_allowed 16 s ltac:(lia) ltac:(lia) Hs). pose proof (len_show 16 4 s ltac:(lia) ltac:(lia) Hs).
  rewrite !len_cons, len_app. split; [constructor; [done|]; by apply Forall_app|lia].
Qed.

Lemma segments_allowed l :
  Forall (fun s => s < 65536) l -> allowed (print_segments l) /\ len (print_segments l) <= 5 * len l.
Proof.
  intros Hl. destruct l as [|s l]; [by split; [constructor|]|]. apply Forall_cons in Hl as [Hs Hl]. cbn [print_segments].
  destruct (tail_allowed l Hl). pose proof (show_allowed 16 s ltac:(lia) ltac:(lia) Hs).
  pose proof (len_show 16 4 s ltac:(lia) ltac:(lia) Hs). rewrite len_app, len_cons. split; [by apply Forall_app|lia].
Qed.

Lemma ipv6_allowed a : v6_ok a -> allowed (print_ipv6 a) /\ len (print_ipv6 a) <= 82.
Proof.
  intros Hok. unfold print_ipv6. destruct (to_ipv4_mapped a) as [v4|].
  { destruct (ipv4_allowed v4). rewrite Forall_app, len_app. split; [split; [by repeat constructor|done]|].
    change (len [x3a; x3a; x66; x66; x66; x66; x3a]) with 7. lia. }
  destruct (zeroes _ _ _ _) as [start n]. assert (len (segments a) = 8) as H8 by done.
  destruct (Nat.ltb 1 n); [|destruct (segments_allowed _ Hok); split; [done|lia]].
  destruct (segments_allowed (list.take start (segments a))) as [H1 L1]; [by apply Forall_take|].
  destruct (segments_allowed (drop (start + n) (segments a))) as [H2 L2]; [by apply Forall_drop|].
  rewrite !Forall_app, !len_app. change (len [x3a; x3a]) with 2. split; [split_and!; try done; by repeat constructor|].
  unfold len in *. rewrite length_take in L1. rewrite length_drop in L2. lia.
Qed.

Lemma ip_nonempty a : 1 <= len (print_ip a).
Proof.
  destruct a as [a|a]; cbn [print_ip].
  - unfold print_ipv4. rewrite !len_app. change (len [x2e]) with 1. lia.
  - pose proof (print_ipv6_colon a) as Hc. destruct (print_ipv6 a); [set_solver|rewrite len_cons; lia].
Qed.

Lemma print_ip_shape a : ip_ok a -> allowed (print_ip a) /\ 1 <= len (print_ip a) <= 82.
Proof.
  intros Hok. pose proof (ip_nonempty a). destruct a as [a|a]; cbn [print_ip] in *.
  - destruct (ipv4_allowed a). split; [done|lia].
  - destruct (ipv6_allowed a Hok). split; [done|lia].
Qed.

Lemma strip_dot_len l : len (strip_dot l) <= len l.
Proof.
  unfold strip_dot. case_bool_decide as Hl; [|done]. apply last_Some in Hl as [l' ->]. rewrite removelast_last, len_app. lia.
Qed.

Lemma ldh_allowed b : is_ldh b = true -> disallowed b = false.
Proof. by destruct b. Qed.

(** The hosts a domain may come to: a literal in its canonical text, or a name
    that no resolver takes for an address. *)
Lemma normalize_shape raw host :
  normalize_domain raw = Some host ->
  (exists a, ip_ok a /\ host = print_ip a) \/
  (spelled host = None /\ forallb is_ldh host = true /\ 1 <= len host <= 253 /\
   existsb is_nil (labels host) = false /\ looks_like_a_bare_address (default host (last (labels host))) = false).
Proof.
  unfold normalize_domain. destruct (is_nil raw || (253 <? len raw)) eqn:El; [done|].
  destruct (ScreenCodec.chars raw); [|done]. set (text := strip_dot _).
  destruct (is_nil text || existsb is_nil (labels text)) eqn:Ee; [done|]. unfold spelled.
  destruct (parse_ipv6 text) as [v6|] eqn:E6.
  { intros [= <-]. left. exists (V6 v6). split; [by apply parse_ipv6_ok in E6|done]. }
  destruct (parse_ipv4 text) as [v4|] eqn:E4; [intros [= <-]; left; by exists (V4 v4)|].
  destruct (forallb is_ldh text) eqn:Ef; [|done]. cbn [negb]. destruct (looks_like_a_bare_address _) eqn:Eb; [done|].
  intros [= <-]. right. rewrite E6, E4. apply orb_false_iff in El as [_ El], Ee as [En Ee].
  pose proof (strip_dot_len (Socks5.to_ascii_lowercase <$> raw)) as Hl. fold text in Hl. unfold len in Hl at 2. rewrite length_fmap in Hl.
  split_and!; try done.
  - destruct text; [done|rewrite len_cons; lia].
  - unfold len in *. lia.
Qed.

Lemma request_shape input r n :
  parse_request input = Ok (mkParsed r n) ->
  1 <= port r < 65536 /\
  ((exists a, ip_ok a /\ host r = print_ip a) \/
   (spelled (host r) = None /\ forallb is_ldh (host r) = true /\ 1 <= len (host r) <= 253 /\
    existsb is_nil (labels (host r)) = false /\
    looks_like_a_bare_address (default (host r) (last (labels (host r)))) = false)).
Proof.
  unfold parse_request. destruct (_ <? 4); [done|]. destruct (negb _); [done|]. destruct (negb _); [done|].
  destruct (addr_kind (at_ input 3) input) as [k|]; [|done]. cbn [rbind]. destruct (_ <? _); [done|].
  destruct (_ || _) eqn:Ep; [done|]. apply orb_false_iff in Ep as [_ Ep]. apply N.eqb_neq in Ep.
  destruct (request_host k input) as [h|] eqn:Eh; [|done]. intros [= <- _]. cbn [port host].
  split; [pose proof (u16_be_bound (at_ input (total_len k - 2)) (at_ input (total_len k - 1))); lia|].
  destruct k as [| |m]; cbn [request_host] in Eh; [| |by apply normalize_shape in Eh]; injection Eh as <-; left.
  - by eexists (V4 _).
  - exists (V6 (v6_from 4 input)). split; [|done]. repeat constructor; apply u16_be_bound.
Qed.

Lemma allowed_existsb l : allowed l -> existsb disallowed l = false.
Proof. induction 1 as [|b l Hb _ IH]; [done|]. cbn. by rewrite Hb. Qed.

(** what the proxy accepts, the host can decide about.  A request that
    parses names a port from 1 to 65535 and either an address in its canonical
    text or a host name of letters, digits, dots, hyphens and underscores
    whose last label no resolver takes for a number; and the host's own checks
    of the destination's shape never refuse it. *)
Theorem accepted_well_shaped input r n deny :
  parse_request input = Ok (mkParsed r n) ->
  well_shaped (mkHeader (host r) (port r) deny) = true /\
  ((exists a, ip_ok a /\ parse_ip (host r) = Some a /\ host r = print_ip a) \/
   (spelled (host r) = None /\ forallb is_ldh (host r) = true /\
    looks_like_a_bare_address (default (host r) (last (labels (host r)))) = false)).
Proof.
  intros (Hp & Hh)%request_shape.
  assert (allowed (host r) /\ 1 <= len (host r) <= 253) as [Ha Hl].
  { destruct Hh as [(a & Hok & ->)|(_ & Hf & Hl & _)].
    - destruct (print_ip_shape a Hok). split; [done|lia].
    - split; [|done]. rewrite forallb_forall in Hf. apply Forall_forall. intros b Hb.
      apply ldh_allowed, Hf. by apply list_elem_of_In. }
  split; [unfold well_shaped; cbn [sh_host sh_port]; rewrite (allowed_existsb _ Ha); lia|].
  destruct Hh as [(a & Hok & Hh)|(Hs & Hf & _ & _ & Hb)]; [left|by right].
  exists a. split_and!; [done| |done]. rewrite Hh. by apply parse_print_ip.
Qed.

(** ** Refusals *)

Lemma sanitize_known c : c ∈ KNOWN -> sanitize_peer_text (code_str c) = code_str c.
Proof.
  intros Hc. unfold KNOWN in Hc. repeat (apply elem_of_cons in Hc as [->|Hc]; [vm_compute; reflexivity|]).
  by apply elem_of_nil in Hc.
Qed.

Lemma never_succeeded e : rep_for_forward_conn_error e <> Succeeded.
Proof. destruct e as [s| | | | | |]; try done. unfold rep_for_forward_conn_error, from_error_code. by destruct (code_of s). Qed.

(** A resolver returns the address a literal spells. *)
Class LiteralNet (W : Type) `{Net W} : Prop :=
  resolve_literal net host port a : parse_ip host = Some a -> resolve net host port = Some [(a, port)].

Section Proxy.
Context {Self St Sink W : Type} `{Authorizer Self St} `{Base64} `{LoggedSink Sink} `{!Net W}.
Variable self : Self.
Variable net : W.
Variable rfc3339 : N -> string.

Abbreviation Host := (Tunnel.World (St := St) (Sink := Sink)).

(** One stream to the host: when it is handled, by whom it was asked, and what
    the host is at that time. *)
Record Stream := mkStream {
  s_time : string; s_now : N; s_expires : option nat; s_ctx : ConnCtx; s_host : Host }.

Definition host_side (s : Stream) (h : StreamHeader) :=
  authorize_and_dial_tunnel self net rfc3339 (s_time s) (s_now s) (s_expires s) (s_ctx s) h (s_host s).

(** [open_tunnel] *)
Definition open_tunnel (s : Stream) (host : list byte) (port : N) (deny_host_local : bool) : result unit ForwardConnError :=
  match host_side s (mkHeader host port deny_host_local) with
  | (_, _, Ok _) => Ok tt
  | (_, _, Err code) => Err (Refused (sanitize_peer_text (code_str code)))
  end.

(** What a tunnel that was opened means at the host. *)
Lemma opened_means s host port ps :
  Quota.Exact (Quota.state (w_quotas (s_host s))) ps -> open_tunnel s host port true = Ok tt ->
  exists w' tr a pm resolved, host_side s (mkHeader host port true) = (w', tr, Ok (a, pm)) /\
    entitled (s_ctx s) (mkHeader host port true) ps (s_host s) w' /\ connect net a = true /\
    resolve net host port = Some resolved /\ a ∈ resolved /\ is_host_local a.1 = false.
Proof.
  intros Hq Ho. unfold open_tunnel in Ho. destruct (host_side s (mkHeader host port true)) as [[w' tr] [[a pm]|e]] eqn:E; [|done].
  unfold host_side in E. destruct (handler_spec _ _ _ _ _ _ _ _ _ _ _ _ _ E Hq) as [(_ & (e & [=]) & _)|(Hent & d & Ed & Hd)].
  destruct (dial_spec net _ _ _ _ _ _ Ed) as (Ht & Hok & _). destruct d as [b|e]; destruct Hd as [Hr _]; [|done].
  injection Hr as Ea _. subst b. destruct (Hok a eq_refl) as [Hc Hlast].
  destruct (dial_trace_safe net _ _ _ _ a Ht) as (resolved & Hres & Hin & Hloc); [by apply last_Some_elem_of|].
  exists w', tr, a, pm, resolved. split_and!; try done. by apply Hloc.
Qed.

(** C14: what the proxy connects is not host-local, and is on the record.  Whatever
    bytes a local client sends, however they arrive and whatever the limits and
    the carrier answer: when the connection is spliced, the client had asked
    for a host and a port, the host's gate allowed it with a durable line and
    a free slot, and the peer of the splice is an address that host resolved
    to and lies in none of the host-local prefixes (loopback, link-local, ...). *)
Theorem spliced_is_not_host_local e (s : Stream) t rest ps :
  Quota.Exact (Quota.state (w_quotas (s_host s))) ps ->
  e_open_tunnel e = open_tunnel s -> spliced (handle_connection e t) = Some rest ->
  exists r w' tr a pm resolved, asked (t_input t) r rest /\
    host_side s (mkHeader (host r) (port r) true) = (w', tr, Ok (a, pm)) /\
    entitled (s_ctx s) (mkHeader (host r) (port r) true) ps (s_host s) w' /\ connect net a = true /\
    resolve net (host r) (port r) = Some resolved /\ a ∈ resolved /\ (ip_ok a.1 -> reserved a.1 = false).
Proof.
  intros Hq He Hs. destruct (handle_connection_ok e t) as (_ & _ & Hsp & _). destruct (Hsp rest Hs) as (r & Ha & Ho & _).
  rewrite He in Ho. destruct (opened_means s (host r) (port r) ps Hq Ho) as (w' & tr & a & pm & resolved & ? & ? & ? & ? & ? & ?).
  exists r, w', tr, a, pm, resolved. split_and!; try done. intros Hip. by rewrite <- is_host_local_reserved.
Qed.

(** C22: no spelling of a host-local address gets through the proxy.  A request
    that spells an address of a host-local prefix, as IPv4, as IPv6 (also mapped or
    compatible) or as text, is answered with a failure however its bytes are
    cut; the host connects to nothing for it. *)
Theorem local_literal_refused `{!LiteralNet W} (s : Stream) gb g rb r rest reads k a ps :
  Quota.Exact (Quota.state (w_quotas (s_host s))) ps ->
  parse_greeting gb = Ok (mkParsed g (len gb)) -> offers_no_auth g = true -> parse_request rb = Ok (mkParsed r (len rb)) ->
  steady k (mkTcp (gb ++ rb ++ rest) reads) -> len gb + len rb <= k ->
  named rb = Some a -> reserved a = true ->
  let o := handle_connection (let_through (open_tunnel s)) (mkTcp (gb ++ rb ++ rest) reads) in
  spliced o = None /\
  (exists rep, rep <> Succeeded /\ written o = [SOCKS5_VERSION; METHOD_NO_AUTH] ++ encode_reply rep) /\
  (forall b, Connected b ∉ (host_side s (mkHeader (host r) (port r) true)).1.2).
Proof.
  intros Hq Hg Ho Hr Hst Hk Hn Hl. destruct (named_host rb r _ a Hr Hn) as [Hh Hip]. rewrite <- is_host_local_reserved in Hl by done.
  pose proof (resolve_literal net _ (port r) _ Hh) as Hres.
  assert (forall b, Connected b ∉ (host_side s (mkHeader (host r) (port r) true)).1.2) as Hnone.
  { intros b Hb. unfold host_side in Hb. destruct (authorize_and_dial_tunnel _ _ _ _ _ _ _ _ _) as [[w' tr] x] eqn:E.
    cbn [fst snd] in Hb. destruct (handler_spec _ _ _ _ _ _ _ _ _ _ _ _ _ E Hq) as [(-> & _)|(_ & d & Ed & _)]; [set_solver|].
    destruct (dial_spec net _ _ _ _ _ _ Ed) as (Ht & _).
    destruct (dial_trace_safe net _ _ _ _ b Ht Hb) as (resolved & Hres' & Hin & Hloc). cbn [sh_host sh_port sh_deny_host_local] in *.
    rewrite Hres in Hres'. injection Hres' as <-. apply list_elem_of_singleton in Hin as ->. specialize (Hloc eq_refl).
    cbn in Hloc. congruence. }
  rewrite (served gb g rb r rest reads k (open_tunnel s)) by done.
  destruct (open_tunnel s (host r) (port r) true) as [[]|err] eqn:Eo.
  - exfalso. destruct (opened_means s _ _ ps Hq Eo) as (w' & tr & b & pm & resolved & _ & _ & _ & Hres' & Hin & Hloc).
    rewrite Hres in Hres'. injection Hres' as <-. apply list_elem_of_singleton in Hin as ->. cbn in Hloc. congruence.
  - cbn [spliced written]. split_and!; [done| |done]. exists (rep_for_forward_conn_error err).
    split; [apply never_succeeded|done].
Qed.

End Proxy.

(** ** Witnesses *)

#[local] Existing Instance Tunnel.demo_base64.
#[local] Existing Instance Tunnel.demo_sink.

#[global] Instance demo_literal : LiteralNet unit.
Proof. intros [] host port a E. cbn. by rewrite E. Qed.

Definition demo_stream : Stream := mkStream "t" 5 None demo_ctx demo_world.
Definition demo_open : list byte -> N -> bool -> result unit ForwardConnError :=
  open_tunnel mkAllowAllPinned tt demo_time demo_stream.

(** A greeting, a request for a name or for ::ffff:127.0.0.1, and the first
    bytes of the client, in reads of one byte. *)
Definition demo_greeting : list byte := [x05; x01; x00].
Definition demo_by_name : list byte := [x05; x01; x00; x03; x0b] ++ demo_name ++ [x01; xbb].
Definition demo_by_literal : list byte :=
  [x05; x01; x00; x04] ++ replicate 10 x00 ++ [xff; xff; x7f; x00; x00; x01] ++ [x00; x50].
Definition demo_tcp (request : list byte) : Tcp := mkTcp (demo_greeting ++ request ++ [x47; x45; x54]) (replicate 64 (Got 0)).

Lemma spliced_is_not_host_local_witness :
  spliced (handle_connection (let_through demo_open) (demo_tcp demo_by_name)) = Some [x47; x45; x54] /\
  exists r, asked (t_input (demo_tcp demo_by_name)) r [x47; x45; x54].
Proof.
  assert (spliced (handle_connection (let_through demo_open) (demo_tcp demo_by_name)) = Some [x47; x45; x54]) as Hs
    by (vm_compute; reflexivity).
  split; [exact Hs|].
  destruct (spliced_is_not_host_local mkAllowAllPinned tt demo_time (let_through demo_open) demo_stream (demo_tcp demo_by_name)
    [x47; x45; x54] [] demo_world_exact eq_refl Hs) as (r & _ & _ & _ & _ & _ & Ha & _).
  exists r. exact Ha.
Defined.

Lemma accepted_well_shaped_witness :
  exists r, parse_request demo_by_name = Ok (mkParsed r (len demo_by_name)) /\
    well_shaped (mkHeader (host r) (port r) true) = true.
Proof.
  destruct (parse_request demo_by_name) as [[r n]|] eqn:Er; [|exfalso; vm_compute in Er; discriminate].
  assert (n = len demo_by_name) as -> by (vm_compute in Er; injection Er as _ <-; reflexivity).
  exists r. split; [reflexivity|]. apply (accepted_well_shaped demo_by_name r (len demo_by_name) true Er).
Defined.

Lemma local_literal_refused_witness :
  spliced (handle_connection (let_through demo_open) (demo_tcp demo_by_literal)) = None.
Proof.
  destruct (parse_greeting demo_greeting) as [[g n]|] eqn:Eg; [|exfalso; vm_compute in Eg; discriminate].
  destruct (parse_request demo_by_literal) as [[r m]|] eqn:Er; [|exfalso; vm_compute in Er; discriminate].
  assert (n = len demo_greeting) as -> by (vm_compute in Eg; injection Eg as _ <-; reflexivity).
  assert (m = len demo_by_literal) as -> by (vm_compute in Er; injection Er as _ <-; reflexivity).
  destruct (named demo_by_literal) as [a|] eqn:Ea; [|exfalso; vm_compute in Ea; discriminate].
  apply (local_literal_refused mkAllowAllPinned tt demo_time demo_stream demo_greeting g demo_by_literal r [x47; x45; x54]
    (replicate 64 (Got 0)) 64 a []); [exact demo_world_exact|exact Eg| |exact Er| |vm_compute; discriminate|exact Ea|].
  - vm_compute in Eg. injection Eg as <-. reflexivity.
  - exists (replicate 64 0), []. split; [reflexivity|vm_compute; discriminate].
  - vm_compute in Ea. injection Ea as <-. reflexivity.
Defined.

End Proxy.
