(* ===== verification/Reverse.v ===== *)
(** * Reverse registrations

    [Registry] models the controller's table of reverse hosts
    ([crates/qsh-core/src/reverse/registry.rs]) and the [host.reverse] gate in
    front of it ([reverse/admit.rs]).  [Listen] models the table of live
    connections ([reverse/listen/conn_table.rs]) and how registration threads,
    lost connections and the sweeper interleave their steps on the two
    tables ([reverse/listen/registration.rs]).

    Times are nanoseconds of the injected clock; wall-clock stamps are given
    in their rendered form. *)

From S2P Require Import Prelude Errors Text FileGuard Identity AuditLog Acl Policy Gate.

Module Registry.
Import Text Identity Acl Policy Gate Errors.

(** ** Names *)

(** [wire::valid_host_name] *)
Definition host_char (a : ascii) : bool :=
  is_ascii_alphabetic a || is_ascii_digit a || bool_decide (a ∈ ["."; "_"; "-"]%char).
Definition valid_host_name (name : string) : bool :=
  (1 <=? slen name) && (slen name <=? 64) && forallb host_char (String.list_ascii_of_string name).

(** ** Entries *)

Inductive EntryState := Live | Stale.

#[global] Instance EntryState_eq_dec : EqDecision EntryState.
Proof. solve_decision. Defined.

Record ReverseEntry := mkEntry {
  e_name : string;
  e_fingerprint : string;
  e_principal : string;
  e_address : string;
  e_capabilities : list string;
  e_registered_at : string;
  e_generation : N;
  e_state : EntryState;
  e_stale_since : option N;
  e_lost_at : option string;
}.

Record RegisterOutcome := mkOutcome {
  o_entry : ReverseEntry;
  o_replaced_generation : option N;
  o_replaced_entry : option ReverseEntry;
}.

Record AdmittedEntry := mkAdmitted {
  a_fingerprint : string;
  a_principal : string;
  a_address : string;
  a_capabilities : list string;
}.

Record RegistryState := mkReg { entries : gmap string ReverseEntry; last_generation : gmap string N }.

(** [RegistryState::default] *)
Definition empty_registry : RegistryState := mkReg ∅ ∅.

Definition MAX_TOMBSTONES : nat := Z.to_nat 10000.

(** ** Operations *)

Section Ops.
(** The iteration order of the tombstone map. *)
Variable order : gmap string N -> list string.

Definition prune_tombstones (s : RegistryState) : RegistryState :=
  let n := size (last_generation s) in
  if bool_decide (n <= MAX_TOMBSTONES)%nat then s
  else
    let overflow := (n - MAX_TOMBSTONES)%nat in
    let evictable := take overflow (List.filter (fun name => bool_decide (entries s !! name = None)) (order (last_generation s))) in
    mkReg (entries s) (foldl (fun m name => delete name m) (last_generation s) evictable).

Inductive RegisterError := NameConflict | BadOfferedName | ReverseDenied.

(** [Registry::resolve_name] *)
Definition resolve_name (allow_advertised_names : bool) (alias : option string) (offered : string)
    : result string RegisterError :=
  if negb (is_empty offered || valid_host_name offered) then Err BadOfferedName
  else match alias with
       | Some alias => if negb (valid_host_name alias) then Err ReverseDenied else Ok alias
       | None => if allow_advertised_names && negb (is_empty offered) then Ok offered else Err ReverseDenied
       end.

(** [Registry::admit], at the wall-clock time [wall]. *)
Definition next_from_tombstone (s : RegistryState) (name : string) : N :=
  match last_generation s !! name with Some g => g + 1 | None => 0 end.

Definition admit_entry (s : RegistryState) (wall name : string) (e : AdmittedEntry)
    : RegistryState * result RegisterOutcome RegisterError :=
  let insert_new generation replaced_generation replaced_entry :=
    let new := mkEntry name (a_fingerprint e) (a_principal e) (a_address e) (a_capabilities e) wall generation Live None None in
    (prune_tombstones (mkReg (<[name := new]> (entries s)) (<[name := generation]> (last_generation s))),
     Ok (mkOutcome new replaced_generation replaced_entry)) in
  match entries s !! name with
  | Some existing =>
      if negb (bool_decide (e_fingerprint existing = a_fingerprint e)) then (s, Err NameConflict)
      else insert_new (next_from_tombstone s name `max` (e_generation existing + 1))
             (Some (e_generation existing)) (Some existing)
  | None => insert_new (next_from_tombstone s name) None None
  end.

(** [Registry::rollback] *)
Definition rollback (s : RegistryState) (name : string) (generation : N) (replaced : option ReverseEntry) : RegistryState :=
  match entries s !! name with
  | Some e =>
      if bool_decide (e_generation e = generation) then
        mkReg (match replaced with Some previous => <[name := previous]> (entries s) | None => delete name (entries s) end)
          (last_generation s)
      else s
  | None => s
  end.

(** [Registry::mark_stale], at the times [now] and [wall]. *)
Definition mark_stale (s : RegistryState) (name : string) (generation now : N) (wall : string)
    : RegistryState * option ReverseEntry :=
  match entries s !! name with
  | Some e =>
      if negb (bool_decide (e_generation e = generation)) || negb (bool_decide (e_state e = Live)) then (s, None)
      else
        let e := mkEntry (e_name e) (e_fingerprint e) (e_principal e) (e_address e) (e_capabilities e) (e_registered_at e)
                   (e_generation e) Stale (Some now) (Some wall) in
        (mkReg (<[name := e]> (entries s)) (last_generation s), Some e)
  | None => (s, None)
  end.

(** Whether a sweep at [now] takes the entry. *)
Definition due (now retention : N) (e : ReverseEntry) : bool :=
  match e_state e, e_stale_since e with
  | Stale, Some since => retention <=? now - since
  | _, _ => false
  end.

(** [Registry::sweep_expired]: the state left, and the entries removed. *)
Definition sweep_expired (s : RegistryState) (now retention : N) : RegistryState * gmap string ReverseEntry :=
  (mkReg (filter (fun '(_, e) => due now retention e = false) (entries s)) (last_generation s),
   filter (fun '(_, e) => due now retention e = true) (entries s)).

(** ** The gate *)

(** [trust_alias] *)
Definition trust_alias (p : Principal) (a : AuthPath) : option string :=
  match a, p with Pin, Device name => Some name | _, _ => None end.

Record AdmitRequest := mkAdmit {
  ar_principal : Principal;
  ar_auth_path : AuthPath;
  ar_fingerprint : Fingerprint;
  ar_address : string;
  ar_offered_name : string;
  ar_capabilities : list string;
}.

Context {Self St Sink : Type} `{Authorizer Self St} `{AuditSink Sink} `{Base64}.

(** The choke point of [admit_host] and what follows it, at the times [t] of the
    record and [wall] of the entry. *)
Definition admit_named (self : Self) (t wall : string) (req : AdmitRequest) (name : string) (s : RegistryState) (w : St * Sink)
    : RegistryState * (St * Sink) * result RegisterOutcome RegisterError :=
  let '(st, sink) := w in
  let p := ar_principal req in
  let a := ar_auth_path req in
  let '(st, v) := check self (mkRequester p a (Some (ar_fingerprint req))) HostReverse (unowned name) st in
  let '(sink, recorded) :=
    record (with_verdict v (connection_level t p a HostReverse name (v_decision v) (v_rule v) (ar_address req))) sink in
  if negb (is_allow v) || negb recorded then (s, (st, sink), Err ReverseDenied)
  else
    let '(s, r) := admit_entry s wall name
                     (mkAdmitted (fp_display (ar_fingerprint req)) (principal_display p) (ar_address req)
                        (ar_capabilities req)) in
    (s, (st, sink), r).

(** [admit_host] *)
Definition admit_host (self : Self) (advertised : bool) (t wall : string) (req : AdmitRequest) (s : RegistryState) (w : St * Sink)
    : RegistryState * (St * Sink) * result RegisterOutcome RegisterError :=
  let p := ar_principal req in
  let a := ar_auth_path req in
  match resolve_name advertised (trust_alias p a) (ar_offered_name req) with
  | Err ReverseDenied =>
      let resource := if is_empty (ar_offered_name req) then "-"%string else ar_offered_name req in
      let '(st, sink) := w in
      let '(sink, _) := record (connection_level t p a HostReverse resource Deny None (ar_address req)) sink in
      (s, (st, sink), Err ReverseDenied)
  | Err e => (s, w, Err e)
  | Ok name => admit_named self t wall req name s w
  end.
End Ops.

(** ** Runs *)

(** The operations as callers use them: a rollback undoes an earlier
    admission, restoring what it replaced or not. *)
Inductive RegOp :=
  | OpAdmit (wall name : string) (e : AdmittedEntry)
  | OpRollback (i : nat) (restore : bool)
  | OpStale (name : string) (generation now : N) (wall : string)
  | OpSweep (now retention : N).

Section Runs.
Variable order : gmap string N -> list string.

(** The table and the outcomes of the admissions so far. *)
Definition Run : Type := RegistryState * list RegisterOutcome.

Definition reg_step (r : Run) (op : RegOp) : Run :=
  let '(s, outs) := r in
  match op with
  | OpAdmit wall name e =>
      match admit_entry order s wall name e with
      | (s, Ok o) => (s, outs ++ [o])
      | (s, Err _) => (s, outs)
      end
  | OpRollback i restore =>
      match outs !! i with
      | Some o => (rollback s (e_name (o_entry o)) (e_generation (o_entry o))
                     (if restore then o_replaced_entry o else None), outs)
      | None => (s, outs)
      end
  | OpStale name generation now wall => (fst (mark_stale s name generation now wall), outs)
  | OpSweep now retention => (fst (sweep_expired s now retention), outs)
  end.

Definition op_names (op : RegOp) : list string := match op with OpAdmit _ name _ => [name] | _ => [] end.

(** What identifies a registration. *)
Definition key (e : ReverseEntry) : string * N := (e_name e, e_generation e).
Definition same_registration (e e' : ReverseEntry) : Prop := key e = key e' /\ e_fingerprint e = e_fingerprint e'.

(** The names seen so far fit the tombstones, so that none is pruned. *)
Record Inv (X : gset string) (r : Run) : Prop := {
  inv_dom : dom (last_generation (fst r)) ⊆ X;
  inv_entry : forall name e, entries (fst r) !! name = Some e ->
    e_name e = name /\ exists o, o ∈ snd r /\ same_registration e (o_entry o);
  inv_out : forall o, o ∈ snd r ->
    (exists g, last_generation (fst r) !! e_name (o_entry o) = Some g /\ e_generation (o_entry o) <= g)
    /\ forall p, o_replaced_entry o = Some p ->
         e_name p = e_name (o_entry o) /\ e_fingerprint p = e_fingerprint (o_entry o)
         /\ exists o', o' ∈ snd r /\ same_registration p (o_entry o');
  inv_unique : NoDup ((fun o => key (o_entry o)) <$> snd r);
}.

Lemma prune_none s : (size (last_generation s) <= MAX_TOMBSTONES)%nat -> prune_tombstones order s = s.
Proof. intros Hs. unfold prune_tombstones. by rewrite bool_decide_true. Qed.

Lemma dom_size (X : gset string) (m : gmap string N) : dom m ⊆ X -> (size m <= size X)%nat.
Proof. intros Hd. rewrite <- size_dom. by apply subseteq_size. Qed.

(** The generation of an admission is above every one handed out for the
    name. *)
Lemma admit_entry_ok s wall name e s' o :
  (size (<[name := 0%N]> (last_generation s)) <= MAX_TOMBSTONES)%nat ->
  admit_entry order s wall name e = (s', Ok o) ->
  key (o_entry o) = (name, e_generation (o_entry o)) /\ e_fingerprint (o_entry o) = a_fingerprint e
  /\ entries s' = <[name := o_entry o]> (entries s)
  /\ last_generation s' = <[name := e_generation (o_entry o)]> (last_generation s)
  /\ (forall g, last_generation s !! name = Some g -> g < e_generation (o_entry o))
  /\ o_replaced_entry o = entries s !! name
  /\ (forall p, entries s !! name = Some p -> e_fingerprint p = a_fingerprint e).
Proof.
  intros Hsize. unfold admit_entry, next_from_tombstone.
  assert (Hp : forall en g, prune_tombstones order (mkReg en (<[name := g]> (last_generation s))) = mkReg en (<[name := g]> (last_generation s))).
  { intros en g. apply prune_none. cbn [last_generation]. rewrite <- size_dom, dom_insert_L in Hsize |- *. done. }
  destruct (entries s !! name) as [p|] eqn:Ee.
  - case_bool_decide as Hfp; [|done]. cbn [negb]. rewrite Hp. intros E. injection E as <- <-. cbn.
    split; [done|]. split; [done|]. split; [done|]. split; [done|]. split; [|split; [done|by intros ? [= <-]]].
    intros g ->. lia.
  - rewrite Hp. intros E. injection E as <- <-. cbn.
    split; [done|]. split; [done|]. split; [done|]. split; [done|]. split; [|done]. intros g ->. lia.
Qed.

Lemma admit_entry_err s wall name e s' x : admit_entry order s wall name e = (s', Err x) -> s' = s.
Proof. unfold admit_entry. destruct (entries s !! name); [case_bool_decide; cbn [negb]|]; by intros [= <- <-]. Qed.

Section Bounded.
Variable X : gset string.
Hypothesis Hsize : (size X <= MAX_TOMBSTONES)%nat.

Lemma admit_inv r wall name e : Inv X r -> name ∈ X -> Inv X (reg_step r (OpAdmit wall name e)).
Proof.
  destruct r as [s outs]. intros [Hd He Ho Hu] Hname. cbn [reg_step fst snd] in *.
  destruct (admit_entry order s wall name e) as [s' [o|x]] eqn:E; [|by rewrite (admit_entry_err _ _ _ _ _ _ E)].
  apply admit_entry_ok in E as (Hk & Hfp & Hen & Hlg & Hlt & Hrep & Hsame).
  2: { etrans; [|exact Hsize]. apply dom_size. rewrite dom_insert_L. set_solver. }
  injection Hk as Hnm. split; cbn [fst snd].
  - rewrite Hlg, dom_insert_L. set_solver.
  - intros n e'. rewrite Hen. destruct (decide (name = n)) as [<-|Hne].
    + rewrite lookup_insert_eq. intros [= <-]. split; [done|]. exists o. split; [set_solver|done].
    + rewrite lookup_insert_ne by done. intros (-> & o' & Hin & Hs)%He. split; [done|]. exists o'. split; [set_solver|done].
  - intros o' [Hin|Ho']%elem_of_app.
    + destruct (Ho o' Hin) as [(g & Hg & Hle) Hr]. split.
      * rewrite Hlg. destruct (decide (name = e_name (o_entry o'))) as [->|Hne].
        -- rewrite lookup_insert_eq. eexists. split; [done|]. specialize (Hlt _ Hg). lia.
        -- rewrite lookup_insert_ne by done. eauto.
      * intros p Hp. destruct (Hr p Hp) as (? & ? & o'' & ? & ?). split; [done|]. split; [done|]. exists o''. split; [set_solver|done].
    + apply list_elem_of_singleton in Ho' as ->. split.
      * rewrite Hlg, Hnm, lookup_insert_eq. eexists. split; [done|]. lia.
      * intros p Hp. rewrite Hrep in Hp. destruct (He _ _ Hp) as (Hpn & o'' & Hin & Hs).
        split; [congruence|]. split; [rewrite Hfp; auto|]. exists o''. split; [set_solver|done].
  - rewrite fmap_app. apply NoDup_app. split; [done|]. split; [|apply NoDup_singleton].
    intros k (o' & -> & Hin)%list_elem_of_fmap Hk%list_elem_of_singleton.
    destruct (Ho o' Hin) as [(g & Hg & Hle) _]. injection Hk as Hn' Hg'. rewrite Hn', Hnm in Hg. specialize (Hlt _ Hg). lia.
Qed.

(** A step that only replaces entries by the same or by replaced ones. *)
Lemma entries_inv s s' outs :
  Inv X (s, outs) -> last_generation s' = last_generation s ->
  (forall name e, entries s' !! name = Some e ->
     exists e', e_name e = name /\ same_registration e e'
     /\ (entries s !! name = Some e' \/ exists o, o ∈ outs /\ o_replaced_entry o = Some e')) ->
  Inv X (s', outs).
Proof.
  intros [Hd He Ho Hu] Hlg Hent. split; cbn [fst snd] in *; [by rewrite Hlg| |by rewrite Hlg|done].
  intros name e (e' & Hn & Hs & Hor)%Hent. split; [done|].
  assert (Hreg : exists o, o ∈ outs /\ same_registration e' (o_entry o)).
  { destruct Hor as [Hin|(o & Hin & Hr)]; [by apply (He _ _ Hin)|]. destruct (Ho o Hin) as [_ Hr']. by apply (Hr' _ Hr). }
  destruct Hreg as (o & Hin & Hs'). exists o. split; [done|]. unfold same_registration in *. destruct Hs, Hs'. split; congruence.
Qed.

Lemma same_refl e : same_registration e e.
Proof. done. Qed.

Lemma reg_step_inv r op : Inv X r -> Forall (fun n => n ∈ X) (op_names op) -> Inv X (reg_step r op).
Proof.
  intros Hi Hn. destruct op as [wall name e|i restore|name g now wall|now ret].
  - apply admit_inv; [done|]. by apply Forall_cons in Hn as [? _].
  - destruct r as [s outs]. cbn [reg_step]. destruct (outs !! i) as [o|] eqn:Eo; [|done].
    apply list_elem_of_lookup_2 in Eo. unfold rollback. destruct (entries s !! e_name (o_entry o)) as [e|] eqn:Ee; [|done].
    case_bool_decide; [|done]. apply (entries_inv s); [done..|]. cbn [entries]. intros name e'.
    destruct (inv_out _ _ Hi o Eo) as [_ Hrep]. cbn [fst snd] in Hrep.
    destruct (if restore then o_replaced_entry o else None) as [p|] eqn:Ep.
    + destruct restore; [|done]. destruct (decide (e_name (o_entry o) = name)) as [<-|Hne].
      * rewrite lookup_insert_eq. intros [= <-]. exists p. split; [by apply Hrep|]. split; [done|]. right. eauto.
      * rewrite lookup_insert_ne by done. intros Hl. exists e'. split; [by apply (inv_entry _ _ Hi)|]. split; [done|by left].
    + intros [_ Hl]%lookup_delete_Some. exists e'. split; [by apply (inv_entry _ _ Hi)|]. split; [done|by left].
  - destruct r as [s outs]. cbn [reg_step]. unfold mark_stale. destruct (entries s !! name) as [e|] eqn:Ee; [|done].
    destruct (negb _ || negb _); [done|]. apply (entries_inv s); [done..|]. cbn [entries fst]. intros n e'.
    destruct (inv_entry _ _ Hi _ _ Ee) as [Hnm _]. destruct (decide (name = n)) as [<-|Hne].
    + rewrite lookup_insert_eq. intros [= <-]. exists e. split; [done|]. split; [done|by left].
    + rewrite lookup_insert_ne by done. intros Hl. exists e'. split; [by apply (inv_entry _ _ Hi)|]. split; [done|by left].
  - destruct r as [s outs]. cbn [reg_step]. apply (entries_inv s); [done..|]. cbn [entries fst sweep_expired]. intros n e'.
    rewrite map_lookup_filter_Some. intros [Hl _]. exists e'. split; [by apply (inv_entry _ _ Hi)|]. split; [done|by left].
Qed.

Definition run_ops (ops : list RegOp) : Run := foldl reg_step (empty_registry, []) ops.

Lemma run_inv ops : Forall (fun n => n ∈ X) (mjoin (op_names <$> ops)) -> Inv X (run_ops ops).
Proof.
  intros Hops. unfold run_ops.
  assert (Hi : Inv X (empty_registry, [])).
  { split; cbn; [set_solver|by intros ??; rewrite lookup_empty|by intros ? ?%elem_of_nil|constructor]. }
  revert Hi. generalize (empty_registry, @nil RegisterOutcome). induction ops as [|op ops IH]; intros r Hi; [done|].
  rewrite fmap_cons, mjoin_cons in Hops. apply Forall_app in Hops as [Hop Hops]. cbn [foldl]. by apply IH, reg_step_inv.
Qed.
End Bounded.
End Runs.

(** The names a run admits. *)
Definition names_of (ops : list RegOp) : gset string := list_to_set (mjoin (op_names <$> ops)).

Lemma names_of_elem ops : Forall (fun n => n ∈ names_of ops) (mjoin (op_names <$> ops)).
Proof. apply Forall_forall. intros n Hn. by apply elem_of_list_to_set. Qed.

(** No registration is ever confused with an earlier one: as long as no
    more than 10000 names are in use, a pair of name and generation is handed
    out once, through reconnects, rollbacks, losses and sweeps. *)
Theorem generation_never_reissued order ops :
  (size (names_of ops) <= MAX_TOMBSTONES)%nat ->
  NoDup ((fun o => key (o_entry o)) <$> snd (run_ops order ops)).
Proof. intros Hsize. exact (inv_unique _ _ (run_inv order _ Hsize ops (names_of_elem ops))). Qed.

Lemma NoDup_fmap_eq {A B} (f : A -> B) (l : list A) x y : NoDup (f <$> l) -> x ∈ l -> y ∈ l -> f x = f y -> x = y.
Proof.
  intros Hn [i Hi]%list_elem_of_lookup [j Hj]%list_elem_of_lookup E.
  assert (i = j); [|subst; congruence].
  eapply NoDup_lookup; [exact Hn|..]; rewrite list_lookup_fmap; [by rewrite Hi|by rewrite Hj, E].
Qed.

Lemma admit_entry_other order s wall n e s' r name :
  n <> name -> admit_entry order s wall n e = (s', r) -> entries s' !! name = entries s !! name.
Proof.
  intros Hne. unfold admit_entry, prune_tombstones. destruct (entries s !! n); [case_bool_decide; cbn [negb]|]; intros [= <- _];
    try done; case_bool_decide; cbn [entries]; by rewrite lookup_insert_ne.
Qed.

Lemma rollback_other s n g m name : n <> name -> entries (rollback s n g m) !! name = entries s !! name.
Proof.
  intros Hne. unfold rollback. destruct (entries s !! n); [|done]. case_bool_decide; [|done]. cbn [entries].
  destruct m; [by rewrite lookup_insert_ne|by rewrite lookup_delete_ne].
Qed.

(** A reverse host's name is held by its key: while a name is registered,
    live or stale, no operation puts another fingerprint under it; it changes
    hands only after the entry is gone. *)
Theorem name_held order ops op name e e' :
  (size (names_of ops) <= MAX_TOMBSTONES)%nat ->
  entries (fst (run_ops order ops)) !! name = Some e ->
  entries (fst (reg_step order (run_ops order ops) op)) !! name = Some e' ->
  e_fingerprint e' = e_fingerprint e.
Proof.
  intros Hsize He. pose proof (run_inv order _ Hsize ops (names_of_elem ops)) as [_ Hent Hout Hu].
  destruct (run_ops order ops) as [s outs]. cbn [fst snd] in *. destruct op as [wall n ae|i restore|n g now wall|now ret]; cbn [reg_step].
  - destruct (admit_entry order s wall n ae) as [s' r] eqn:E. unfold admit_entry in E.
    destruct (decide (n = name)) as [->|Hne].
    + rewrite He in E. case_bool_decide as Hfp; cbn [negb] in E; injection E as <- <-; cbn [fst].
      * unfold prune_tombstones. case_bool_decide; cbn [entries]; rewrite lookup_insert_eq; by intros [= <-].
      * rewrite He. by intros [= <-].
    + pose proof (admit_entry_other order s wall n ae s' r name Hne) as Hs. unfold admit_entry in Hs. specialize (Hs E).
      destruct r; cbn [fst]; rewrite Hs, He; by intros [= <-].
  - destruct (outs !! i) as [o|] eqn:Eo; cbn [fst]; [|rewrite He; by intros [= <-]].
    apply list_elem_of_lookup_2 in Eo. destruct (decide (e_name (o_entry o) = name)) as [Hn|Hne].
    + unfold rollback. rewrite Hn, He. case_bool_decide as Hg; [|rewrite He; by intros [= <-]].
      destruct (Hent _ _ He) as (Hnm & o1 & Hin1 & Hk1 & Hfp1).
      assert (o1 = o) as ->.
      { apply (NoDup_fmap_eq (fun o => key (o_entry o)) outs); [done..|]. rewrite <- Hk1. unfold key. congruence. }
      destruct restore; cbn [entries]; [|by rewrite lookup_delete_eq].
      destruct (o_replaced_entry o) as [p|] eqn:Ep; [|by rewrite lookup_delete_eq].
      rewrite lookup_insert_eq. intros [= <-]. destruct (Hout o Eo) as [_ Hr]. destruct (Hr p Ep) as (_ & -> & _). done.
    + rewrite rollback_other, He by done. by intros [= <-].
  - cbn [fst]. unfold mark_stale. destruct (entries s !! n) as [x|] eqn:En; cbn [fst]; [|rewrite He; by intros [= <-]].
    destruct (negb _ || negb _); cbn [fst]; [rewrite He; by intros [= <-]|]. cbn [entries].
    destruct (decide (n = name)) as [->|Hne].
    + rewrite lookup_insert_eq. intros [= <-]. rewrite He in En. by injection En as ->.
    + rewrite lookup_insert_ne, He by done. by intros [= <-].
  - cbn. rewrite map_lookup_filter_Some, He. by intros [[= <-] _].
Qed.

(** A rollback right after its admission restores the entries. *)
Lemma admit_rollback order s wall name e s' o :
  admit_entry order s wall name e = (s', Ok o) ->
  entries (rollback s' name (e_generation (o_entry o)) (o_replaced_entry o)) = entries s.
Proof.
  unfold admit_entry, rollback, prune_tombstones. intros E.
  assert (He : entries s' = <[name := o_entry o]> (entries s) /\ o_replaced_entry o = entries s !! name).
  { destruct (entries s !! name) as [p|]; [case_bool_decide; cbn [negb] in E; [|done]|];
      injection E as <- <-; case_bool_decide; done. }
  destruct He as [-> ->]. rewrite lookup_insert_eq, bool_decide_true by done. cbn [entries].
  destruct (entries s !! name) as [p|] eqn:Ep.
  - by rewrite insert_insert_eq, insert_id.
  - by rewrite delete_insert_id.
Qed.

(** ** Nothing is registered unchecked *)

Section Gate.
Context {Self St : Type} `{Authorizer Self St} `{Base64}.

Lemma admit_named_line order (self : Self) accepts t wall req name s (w : St * Log) :
  let '(s', w', r) := admit_named (H0 := log_sink accepts) order self t wall req name s w in
  s' <> s -> allow_lines (snd w') = allow_lines (snd w) ++ [(principal_display (ar_principal req), "host.reverse"%string, name)].
Proof.
  destruct w as [st l]. unfold admit_named. destruct (check self _ _ _ st) as [st' v].
  pose proof (gate_line (H1 := log_sink accepts) v (connection_level t (ar_principal req) (ar_auth_path req) HostReverse name (v_decision v)
                                     (v_rule v) (ar_address req)) l eq_refl) as Hg. unfold record in *. cbn [logged log_sink_logged] in Hg.
  destruct (log_sink accepts _ l) as [l' recorded]. destruct (is_allow v), recorded; cbn [negb orb andb] in *; [|done..].
  by destruct (admit_entry order s wall name _).
Qed.

Lemma resolve_name_ok advertised alias offered name :
  resolve_name advertised alias offered = Ok name ->
  valid_host_name name = true /\ (alias = Some name \/ advertised = true /\ alias = None /\ offered = name).
Proof.
  unfold resolve_name. destruct (is_empty offered) eqn:Ee; destruct alias as [alias|]; cbn [orb negb].
  - destruct (valid_host_name alias) eqn:Ev; [|done]. intros [= <-]. auto.
  - by rewrite andb_false_r.
  - destruct (valid_host_name offered); [|done]. cbn [negb]. destruct (valid_host_name alias) eqn:Ev; [|done].
    intros [= <-]. auto.
  - destruct (valid_host_name offered) eqn:Eo; [|done]. cbn [negb]. destruct advertised; [|done]. intros [= <-]. auto.
Qed.

(** A reverse host is registered only after the decision is allowed and on
    the record: when [admit_host] changes the table, the log has one more allow
    line, for [host.reverse] on the name, which is the trust store's name of a
    pinned peer, or one the peer chose where that is permitted. *)
Theorem registered_is_allowed order (self : Self) accepts advertised t wall req s (w : St * Log) s' w' r :
  admit_host (H0 := log_sink accepts) order self advertised t wall req s w = (s', w', r) -> s' <> s ->
  exists name,
    (trust_alias (ar_principal req) (ar_auth_path req) = Some name
     \/ advertised = true /\ trust_alias (ar_principal req) (ar_auth_path req) = None /\ ar_offered_name req = name)
    /\ valid_host_name name = true
    /\ allow_lines (snd w') = allow_lines (snd w) ++ [(principal_display (ar_principal req), "host.reverse"%string, name)].
Proof.
  unfold admit_host. destruct (resolve_name _ _ _) as [name|[]] eqn:Er; [|congruence|congruence|].
  - apply resolve_name_ok in Er as [Hv Hn]. pose proof (admit_named_line order self accepts t wall req name s w) as Hl.
    destruct (admit_named _ _ _ _ _ _ _ _) as [[s1 w1] r1]. intros [= -> -> ->] Hne. exists name. auto.
  - destruct w as [st l]. destruct (record _ l). congruence.
Qed.
End Gate.

#[local] Existing Instance letters_base64.
Definition demo_request : AdmitRequest :=
  mkAdmit (Device "box") Pin (repeat x07 32) "192.0.2.1:4433" EmptyString [].
Definition demo_admitted : RegistryState * (unit * Log) * result RegisterOutcome RegisterError :=
  admit_host (H0 := log_sink (fun _ _ => true)) (fun m => (map_to_list m).*1) mkAllowAllPinned false "t0" "t0" demo_request
    empty_registry (tt, []).

Lemma registered_is_allowed_witness :
  exists name, trust_alias (Device "box") Pin = Some name /\
    allow_lines (snd (snd (fst demo_admitted))) = [("device:box"%string, "host.reverse"%string, name)].
Proof.
  destruct (registered_is_allowed (fun m => (map_to_list m).*1) mkAllowAllPinned (fun _ _ => true) false "t0" "t0" demo_request
              empty_registry (tt, []) (fst (fst demo_admitted)) (snd (fst demo_admitted)) (snd demo_admitted))
    as (name & [Hn|[Hn _]] & _ & Hl).
  - vm_compute. reflexivity.
  - intros E%(f_equal (fun s => is_ok (from_option Ok (Err tt) (entries s !! "box"%string)))). vm_compute in E. discriminate E.
  - exists name. split; [exact Hn|exact Hl].
  - discriminate Hn.
Defined.
End Registry.

Module Listen.
Import Text Identity Registry.

(** ** The connection table *)

(** [ConnTable]: per name a generation and a value. *)
Definition ConnTable (T : Type) := gmap string (N * T).

Inductive Published (T : Type) := Installed (replaced : option T) | Superseded (mine : T).
Arguments Installed {T} _.
Arguments Superseded {T} _.

Section Table.
Context {T : Type}.

(** [ConnTable::publish] *)
Definition publish (tbl : ConnTable T) (name : string) (generation : N) (value : T) : ConnTable T * Published T :=
  match tbl !! name with
  | Some (existing, v) =>
      if generation <=? existing then (tbl, Superseded value)
      else (<[name := (generation, value)]> tbl, Installed (Some v))
  | None => (<[name := (generation, value)]> tbl, Installed None)
  end.

(** [ConnTable::remove_if] *)
Definition remove_if (tbl : ConnTable T) (name : string) (generation : N) : ConnTable T * bool :=
  match tbl !! name with
  | Some (g, _) => if bool_decide (g = generation) then (delete name tbl, true) else (tbl, false)
  | None => (tbl, false)
  end.

(** [ConnTable::get], [get_matching], [occupant_generation] *)
Definition get (tbl : ConnTable T) (name : string) : option T := snd <$> tbl !! name.
Definition get_matching (tbl : ConnTable T) (name : string) (generation : N) : option T :=
  match tbl !! name with
  | Some (g, v) => if bool_decide (g = generation) then Some v else None
  | None => None
  end.
Definition occupant_generation (tbl : ConnTable T) (name : string) : option N := fst <$> tbl !! name.

(** [rollback_target] *)
Definition rollback_target (tbl : ConnTable T) (name : string) (replaced : option ReverseEntry) : option ReverseEntry :=
  match replaced with
  | Some prev => if bool_decide (occupant_generation tbl name = Some (e_generation prev)) then Some prev else None
  | None => None
  end.

(** What a publication makes the caller close. *)
Definition to_close (p : Published T) : list T :=
  match p with Installed (Some old) => [old] | Installed None => [] | Superseded mine => [mine] end.

(** Registrations of one name published one after the other, and what they
    close. *)
Fixpoint publish_all (tbl : ConnTable T) (name : string) (l : list (N * T)) : ConnTable T * list T :=
  match l with
  | [] => (tbl, [])
  | (g, v) :: l =>
      let '(tbl, p) := publish tbl name g v in
      let '(tbl, closed) := publish_all tbl name l in
      (tbl, to_close p ++ closed)
  end.

Lemma publish_all_occupied tbl name l g0 v0 :
  tbl !! name = Some (g0, v0) -> NoDup (fst <$> (g0, v0) :: l) ->
  exists g v, fst (publish_all tbl name l) !! name = Some (g, v) /\ (g, v) ∈ (g0, v0) :: l
    /\ (forall g' v', (g', v') ∈ (g0, v0) :: l -> g' <= g)
    /\ v :: snd (publish_all tbl name l) ≡ₚ v0 :: (snd <$> l).
Proof.
  revert tbl g0 v0. induction l as [|[g1 v1] l IH]; intros tbl g0 v0 Hl Hn; cbn [publish_all].
  { exists g0, v0. split; [done|]. split; [left|]. split; [|done]. intros g' v' [= -> ->]%list_elem_of_singleton. lia. }
  unfold publish. rewrite Hl. rewrite !fmap_cons in Hn. apply NoDup_cons in Hn as [Hg0 [Hg1 Hn]%NoDup_cons].
  destruct (N.leb_spec g1 g0) as [Hle|Hlt].
  - destruct (IH tbl g0 v0 Hl) as (g & v & Hf & Hin & Hmax & Hp).
    { rewrite fmap_cons. apply NoDup_cons. set_solver. }
    destruct (publish_all tbl name l) as [tbl' closed]. exists g, v. split; [done|]. split; [set_solver|]. split.
    + intros g' v'. rewrite !elem_of_cons. pose proof (Hmax g0 v0 ltac:(left)).
      intros [[= -> ->]|[[= -> ->]|Hin']]; [lia..|]. apply (Hmax g' v'). by right.
    + cbn [to_close snd fmap list_fmap app] in *. rewrite Permutation_swap, Hp. apply Permutation_swap.
  - destruct (IH (<[name := (g1, v1)]> tbl) g1 v1) as (g & v & Hf & Hin & Hmax & Hp).
    { exact (lookup_insert_eq _ _ _). }
    { rewrite fmap_cons. by apply NoDup_cons. }
    destruct (publish_all _ name l) as [tbl' closed]. exists g, v. split; [done|]. split; [set_solver|]. split.
    + intros g' v'. rewrite !elem_of_cons. pose proof (Hmax g1 v1 ltac:(left)).
      intros [[= -> ->]|[[= -> ->]|Hin']]; [lia..|]. apply (Hmax g' v'). by right.
    + cbn [to_close snd fmap list_fmap app] in *. rewrite Permutation_swap. by apply Permutation_skip.
Qed.
End Table.

(** Concurrent registrations of a name converge: in whatever order their
    publications run, the highest generation is left in the table and every
    other connection is handed back to be closed, exactly once. *)
Theorem publish_converges {T} (tbl : ConnTable T) name g0 v0 l l' :
  tbl !! name = Some (g0, v0) -> NoDup (fst <$> (g0, v0) :: l) -> l ≡ₚ l' ->
  exists g v, fst (publish_all tbl name l) !! name = Some (g, v)
    /\ fst (publish_all tbl name l') !! name = Some (g, v)
    /\ (forall g' v', (g', v') ∈ (g0, v0) :: l -> g' <= g)
    /\ v :: snd (publish_all tbl name l) ≡ₚ v0 :: (snd <$> l)
    /\ v :: snd (publish_all tbl name l') ≡ₚ v0 :: (snd <$> l).
Proof.
  intros Hl Hn Hp. assert (Hn' : NoDup (fst <$> (g0, v0) :: l')) by (by rewrite <- Hp).
  destruct (publish_all_occupied tbl name l g0 v0 Hl Hn) as (g & v & Hf & Hin & Hmax & Hc).
  destruct (publish_all_occupied tbl name l' g0 v0 Hl Hn') as (g' & v' & Hf' & Hin' & Hmax' & Hc').
  assert (Hs : snd <$> l ≡ₚ snd <$> l') by (by rewrite Hp).
  rewrite <- Hs in Hc'. rewrite <- Hp in Hin'. pose proof (Hmax _ _ Hin').
  assert (g <= g') by (apply (Hmax' g v); by rewrite <- Hp). assert (g' = g) as -> by lia.
  assert (E : (g, v') = (g, v)) by (by apply (NoDup_fmap_eq fst ((g0, v0) :: l))).
  injection E as ->. by exists g, v.
Qed.

(** ** Registrations, losses and sweeps interleaved *)

(** Where the thread of a registration stands. *)
Inductive Thread :=
  | Registering (o : RegisterOutcome)                                   (** its reply is being sent *)
  | Peeked (o : RegisterOutcome) (restore : option ReverseEntry)     (** the reply failed; [rollback_target] ran *)
  | Driving (name : string) (generation : N)                         (** published *)
  | Removed (name : string) (generation : N) (still_live : bool).    (** its connection ended; [remove_if] ran *)

Record Listener := mkListener {
  registry : RegistryState;
  conns : ConnTable nat;
  threads : gmap nat Thread;
}.

Inductive LEvent :=
  | LAdmit (t : nat) (wall name : string) (e : AdmittedEntry)
  | LPublish (t : nat)
  | LPeek (t : nat)
  | LRollback (t : nat)
  | LDie (t : nat)
  | LStale (t : nat) (now : N) (wall : string)
  | LSweep (now retention : N).

Section Steps.
Variable order : gmap string N -> list string.

(** [register_connection], [finish_registration] and the end of
    [drive_registered_session], one table operation at a time. *)
Definition lstep (s : Listener) (e : LEvent) : Listener :=
  match e with
  | LAdmit t wall name a =>
      match admit_entry order (registry s) wall name a with
      | (r, Ok o) => mkListener r (conns s) (<[t := Registering o]> (threads s))
      | (r, Err _) => mkListener r (conns s) (threads s)
      end
  | LPublish t =>
      match threads s !! t with
      | Some (Registering o) =>
          let name := e_name (o_entry o) in
          let g := e_generation (o_entry o) in
          match publish (conns s) name g t with
          | (tbl, Installed _) => mkListener (registry s) tbl (<[t := Driving name g]> (threads s))
          | (tbl, Superseded _) => mkListener (registry s) tbl (delete t (threads s))
          end
      | _ => s
      end
  | LPeek t =>
      match threads s !! t with
      | Some (Registering o) =>
          mkListener (registry s) (conns s)
            (<[t := Peeked o (rollback_target (conns s) (e_name (o_entry o)) (o_replaced_entry o))]> (threads s))
      | _ => s
      end
  | LRollback t =>
      match threads s !! t with
      | Some (Peeked o restore) =>
          mkListener (rollback (registry s) (e_name (o_entry o)) (e_generation (o_entry o)) restore) (conns s)
            (delete t (threads s))
      | _ => s
      end
  | LDie t =>
      match threads s !! t with
      | Some (Driving name g) =>
          let '(tbl, still_live) := remove_if (conns s) name g in
          mkListener (registry s) tbl (<[t := Removed name g still_live]> (threads s))
      | _ => s
      end
  | LStale t now wall =>
      match threads s !! t with
      | Some (Removed name g still_live) =>
          mkListener (if still_live then fst (mark_stale (registry s) name g now wall) else registry s) (conns s)
            (delete t (threads s))
      | _ => s
      end
  | LSweep now retention => mkListener (fst (sweep_expired (registry s) now retention)) (conns s) (threads s)
  end.
End Steps.

Definition empty_listener : Listener := mkListener empty_registry ∅ ∅.
Definition run_listener (es : list LEvent) : Listener :=
  foldl (lstep (fun m => (map_to_list m).*1)) empty_listener es.

Lemma sweeps_keep_live order s name e sweeps :
  entries (registry s) !! name = Some e -> e_state e = Live ->
  entries (registry (foldl (lstep order) s ((fun '(now, retention) => LSweep now retention) <$> sweeps))) !! name = Some e.
Proof.
  intros He Hl. revert s He. induction sweeps as [|[now ret] sweeps IH]; intros s He; [done|]. rewrite fmap_cons. cbn [foldl].
  apply IH. cbn. apply map_lookup_filter_Some. split; [done|]. unfold due. by rewrite Hl.
Qed.

Lemma run_sweeps_keep_live es name e sweeps :
  entries (registry (run_listener es)) !! name = Some e -> e_state e = Live ->
  entries (registry (run_listener (es ++ ((fun '(now, retention) => LSweep now retention) <$> sweeps)))) !! name = Some e.
Proof. intros He Hl. unfold run_listener in *. rewrite foldl_app. exact (sweeps_keep_live _ _ _ _ sweeps He Hl). Qed.

(** Two registrations of one peer: the reply to the second fails just when
    the first connection ends. *)
Definition box : AdmittedEntry := mkAdmitted "sha256:k" "device:box" "192.0.2.1:4433" [].
Definition phantom : list LEvent :=
  [LAdmit 0 "t0" "box" box; LPublish 0; LAdmit 1 "t1" "box" box; LPeek 1; LDie 0; LStale 0 0 "t2"; LRollback 1].

Definition phantom_row : ReverseEntry := mkEntry "box" "sha256:k" "device:box" "192.0.2.1:4433" [] "t0" 0 Live None None.

Lemma phantom_registry : entries (registry (run_listener phantom)) !! "box"%string = Some phantom_row.
Proof. vm_compute. reflexivity. Qed.
Lemma phantom_conns : conns (run_listener phantom) = ∅.
Proof. vm_compute. reflexivity. Qed.
Lemma phantom_threads : threads (run_listener phantom) = ∅.
Proof. vm_compute. reflexivity. Qed.

(** A rollback can leave a phantom host behind: when the connection an
    admission replaced ends between the check of the connection table and the
    rollback of the registry, the restored row is live although no connection
    and no thread is left, and no sweep ever removes it. *)
Theorem phantom_host_reachable :
  exists es e,
    entries (registry (run_listener es)) !! "box"%string = Some e /\ e_state e = Live
    /\ conns (run_listener es) = ∅ /\ threads (run_listener es) = ∅
    /\ forall sweeps,
         entries (registry (run_listener (es ++ ((fun '(now, retention) => LSweep now retention) <$> sweeps)))) !! "box"%string
         = Some e.
Proof.
  exists phantom, phantom_row. split; [exact phantom_registry|]. split; [reflexivity|].
  split; [exact phantom_conns|]. split; [exact phantom_threads|].
  intros sweeps. exact (run_sweeps_keep_live _ _ _ sweeps phantom_registry eq_refl).
Qed.

(** ** Examples *)

Definition demo_table : ConnTable nat := <["box"%string := (0, 10%nat)]> ∅.

Lemma publish_converges_witness :
  exists g v, fst (publish_all demo_table "box" [(1, 11%nat); (2, 12%nat)]) !! "box"%string = Some (g, v)
    /\ v :: snd (publish_all demo_table "box" [(2, 12%nat); (1, 11%nat)]) ≡ₚ [10; 11; 12]%nat.
Proof.
  destruct (publish_converges demo_table "box" 0 10%nat [(1, 11%nat); (2, 12%nat)] [(2, 12%nat); (1, 11%nat)]
              ltac:(vm_compute; reflexivity) ltac:(apply (bool_decide_unpack _); vm_compute; exact I)
              ltac:(constructor))
    as (g & v & Hf & _ & _ & _ & Hc).
  exists g, v. split; [exact Hf|exact Hc].
Defined.

Definition demo_regops : list RegOp :=
  [OpAdmit "t0" "box" box; OpAdmit "t1" "box" box; OpRollback 1 true; OpStale "box" 0 5 "t2"; OpSweep 100 10;
   OpAdmit "t3" "box" box].

Lemma generation_never_reissued_witness :
  ((fun o => key (o_entry o)) <$> snd (run_ops (fun m => (map_to_list m).*1) demo_regops))
  = [("box"%string, 0); ("box"%string, 1); ("box"%string, 2)]
  /\ NoDup ((fun o => key (o_entry o)) <$> snd (run_ops (fun m => (map_to_list m).*1) demo_regops)).
Proof.
  split; [vm_compute; reflexivity|].
  apply (generation_never_reissued (fun m => (map_to_list m).*1) demo_regops).
  apply Nat.leb_le. vm_compute. reflexivity.
Defined.

Lemma name_held_witness :
  e_fingerprint (mkEntry "box" "sha256:k" "device:box" "192.0.2.1:4433" [] "t1" 1 Live None None) = "sha256:k"%string.
Proof.
  apply (name_held (fun m => (map_to_list m).*1) [OpAdmit "t0" "box" box] (OpAdmit "t1" "box" box) "box"
           (mkEntry "box" "sha256:k" "device:box" "192.0.2.1:4433" [] "t0" 0 Live None None)
           (mkEntry "box" "sha256:k" "device:box" "192.0.2.1:4433" [] "t1" 1 Live None None)).
  - apply Nat.leb_le. vm_compute. reflexivity.
  - vm_compute. reflexivity.
  - vm_compute. reflexivity.
Defined.

End Listen.
