(* ===== verification/Tickets.v ===== *)
(** * Data-stream tickets

    Models the ticket table of [crates/qsh-core/src/server/mod.rs] and the
    budget check of [server/sessions.rs]: a control request that is allowed
    leaves a ticket, and the data stream that presents it runs the operation.
    A ticket owns what it will use (a quota permit, an open handle), so the
    table is also where those live until a stream takes them, the ticket
    expires or its connection ends.  Ticket bytes are drawn at random; the
    draws are an argument, and so are the times the clock is read at. *)

From S2P Require Import Prelude Text Quota.

Module Tickets.
Import Text.

Definition TICKET_TTL : N := 30 * 1000 * 1000 * 1000.
Definition TICKET_LEN : N := 16.
Definition MAX_PENDING_TICKETS_PER_CONN : N := 32.

(** [StreamKind] of the wire. *)
Inductive StreamKind := Unspecified | SessionData | ExecData | TcpConnect | TcpAccepted | FileData.

#[global] Instance StreamKind_eq_dec : EqDecision StreamKind.
Proof. solve_decision. Defined.

Section Table.
(** What an exec, a file and a session ticket carry besides a permit. *)
Context {X F S : Type}.

Inductive TicketPurpose :=
  | PExec (exec : X) (permit : Quota.Permit)
  | PFile (op : F) (permit : Quota.Permit)
  | PSession (session : S).

Definition stream_kind (p : TicketPurpose) : StreamKind :=
  match p with PExec _ _ => ExecData | PFile _ _ => FileData | PSession _ => SessionData end.

Record Ticket := mkTicket { purpose : TicketPurpose; conn_id : N; expires_at : N }.

Abbreviation Table := (gmap string Ticket).
Implicit Types tbl : Table.

(** [extract_tickets]: what is kept, and what is handed out to be dropped. *)
Definition extract_tickets (keep : Ticket -> bool) tbl : Table * list Ticket :=
  (filter (fun kt => keep kt.2 = true) tbl, (map_to_list (filter (fun kt => keep kt.2 = false) tbl)).*2).

Definition unexpired (now : N) (t : Ticket) : bool := now <? expires_at t.

(** [Server::pending_tickets_for] *)
Definition pending_tickets_for (conn now : N) tbl : Table * list Ticket * N :=
  let '(tbl, expired) := extract_tickets (unexpired now) tbl in
  (tbl, expired, N.of_nat (size (filter (fun kt => conn_id kt.2 = conn) tbl))).

(** [Server::pending_unexpired_tickets] *)
Definition pending_unexpired_tickets (now : N) tbl : Table * list Ticket * N :=
  let '(tbl, expired) := extract_tickets (unexpired now) tbl in
  (tbl, expired, N.of_nat (size tbl)).

(** The first of the drawn keys that is vacant; [None] while none is. *)
Fixpoint draw_vacant (tbl : Table) (draws : list string) : option string :=
  match draws with
  | [] => None
  | k :: draws => match tbl !! k with None => Some k | Some _ => draw_vacant tbl draws end
  end.

(** [Server::issue_ticket]; [issued] and [now] are its two clock readings. *)
Definition issue_ticket (conn : N) (p : TicketPurpose) (issued now : N) (draws : list string) tbl
    : option (Table * list Ticket * string) :=
  let pending := mkTicket p conn (issued + TICKET_TTL) in
  let '(tbl, expired) := extract_tickets (unexpired now) tbl in
  match draw_vacant tbl draws with
  | Some k => Some (<[k := pending]> tbl, expired, k)
  | None => None
  end.

(** [Server::redeem_ticket] *)
Definition redeem_ticket (conn : N) (kind : StreamKind) (now : N) (ticket : string) tbl : Table * option Ticket :=
  if negb (slen ticket =? TICKET_LEN) then (tbl, None)
  else match tbl !! ticket with
       | Some p =>
           if (conn_id p =? conn) && unexpired now p && bool_decide (stream_kind (purpose p) = kind)
           then (delete ticket tbl, Some p)
           else (tbl, None)
       | None => (tbl, None)
       end.

(** The tickets part of [Server::purge_connection]. *)
Definition purge_tickets (conn : N) tbl : Table * list Ticket :=
  extract_tickets (fun p => negb (conn_id p =? conn)) tbl.

(** ** What a ticket owns *)

Definition permit_of (t : Ticket) : option Quota.Permit :=
  match purpose t with PExec _ pm | PFile _ pm => Some pm | PSession _ => None end.

(** Dropping tickets returns their permits. *)
Definition drop_tickets (ts : list Ticket) (q : Quota.Quotas) : Quota.Quotas :=
  foldl (fun q pm => Quota.surrender pm q) q (omap permit_of ts).

(** ** A life of the table *)

Inductive TEvent :=
  | TIssue (conn : N) (p : TicketPurpose) (issued now : N) (draws : list string)
  | TRedeem (conn : N) (kind : StreamKind) (now : N) (ticket : string)
  | TPending (conn now : N)
  | TUnexpired (now : N)
  | TPurge (conn : N).

(** The table with what was issued, what was redeemed and by whom, and what
    was dropped. *)
Record Ledger := mkLedger {
  table : Table;
  issues : list Ticket;
  redemptions : list (Ticket * (N * StreamKind * N));
  dropped : list Ticket;
}.

Definition texec (l : Ledger) (e : TEvent) : option Ledger :=
  match e with
  | TIssue conn p issued now draws =>
      match issue_ticket conn p issued now draws (table l) with
      | Some (tbl, expired, _) =>
          Some (mkLedger tbl (mkTicket p conn (issued + TICKET_TTL) :: issues l) (redemptions l) (expired ++ dropped l))
      | None => None
      end
  | TRedeem conn kind now ticket =>
      let '(tbl, r) := redeem_ticket conn kind now ticket (table l) in
      Some (mkLedger tbl (issues l)
              (match r with Some t => (t, (conn, kind, now)) :: redemptions l | None => redemptions l end) (dropped l))
  | TPending conn now =>
      let '(tbl, expired, _) := pending_tickets_for conn now (table l) in
      Some (mkLedger tbl (issues l) (redemptions l) (expired ++ dropped l))
  | TUnexpired now =>
      let '(tbl, expired, _) := pending_unexpired_tickets now (table l) in
      Some (mkLedger tbl (issues l) (redemptions l) (expired ++ dropped l))
  | TPurge conn =>
      let '(tbl, gone) := purge_tickets conn (table l) in
      Some (mkLedger tbl (issues l) (redemptions l) (gone ++ dropped l))
  end.

Fixpoint texec_all (l : Ledger) (es : list TEvent) : option Ledger :=
  match es with [] => Some l | e :: es => match texec l e with Some l => texec_all l es | None => None end end.

Definition empty_ledger : Ledger := mkLedger ∅ [] [] [].

(** ** Conservation *)

(** The tickets of a table. *)
Definition held tbl : list Ticket := (map_to_list tbl).*2.

Lemma held_insert tbl k t : tbl !! k = None -> held (<[k := t]> tbl) ≡ₚ t :: held tbl.
Proof. intros Hk. unfold held. by rewrite map_to_list_insert. Qed.

Lemma held_delete tbl k t : tbl !! k = Some t -> t :: held (delete k tbl) ≡ₚ held tbl.
Proof. intros Hk. unfold held. by rewrite <- (map_to_list_delete tbl k t Hk). Qed.

Lemma extract_held keep tbl :
  held tbl ≡ₚ held (fst (extract_tickets keep tbl)) ++ snd (extract_tickets keep tbl).
Proof.
  unfold extract_tickets. cbn [fst snd]. change ((map_to_list ?m).*2) with (held m).
  induction tbl as [|k t tbl Hk _ IH] using map_first_key_ind; [done|]. rewrite held_insert, IH by done.
  assert (Hnot : forall (P : string * Ticket -> Prop) `{forall x, Decision (P x)}, ~ P (k, t) -> filter P (<[k := t]> tbl) = filter P tbl).
  { intros P HP Hn. apply map_filter_insert_not'; [done|]. congruence. }
  assert (Hnone : forall (P : string * Ticket -> Prop) `{forall x, Decision (P x)}, filter P tbl !! k = None).
  { intros P HP. apply map_lookup_filter_None. by left. }
  destruct (keep t) eqn:Et.
  - rewrite (map_filter_insert_True (fun kt => keep kt.2 = true)), (Hnot (fun kt => keep kt.2 = false)) by (cbn; congruence).
    by rewrite held_insert.
  - rewrite (map_filter_insert_True (fun kt => keep kt.2 = false)), (Hnot (fun kt => keep kt.2 = true)) by (cbn; congruence).
    rewrite (held_insert _ k t) by done. by rewrite Permutation_middle.
Qed.

Lemma draw_vacant_none tbl draws k : draw_vacant tbl draws = Some k -> tbl !! k = None.
Proof. induction draws as [|d draws IH]; cbn; [done|]. destruct (tbl !! d) eqn:E; [done|]. by intros [= <-]. Qed.

(** The account of a ledger. *)
Definition balanced (l : Ledger) : Prop :=
  issues l ≡ₚ held (table l) ++ (redemptions l).*1 ++ dropped l
  /\ Forall (fun '(t, (conn, kind, now)) =>
       conn_id t = conn /\ stream_kind (purpose t) = kind /\ now < expires_at t) (redemptions l).

Lemma extract_balanced keep l tbl ts xs rs ds :
  extract_tickets keep tbl = (l, ts) ->
  xs ≡ₚ held tbl ++ rs ++ ds -> xs ≡ₚ held l ++ rs ++ (ts ++ ds).
Proof.
  intros E ->. pose proof (extract_held keep tbl) as Hh. rewrite E in Hh. cbn [fst snd] in Hh. rewrite Hh.
  rewrite <- !app_assoc. apply Permutation_app_head. rewrite !app_assoc. by rewrite (Permutation_app_comm ts rs).
Qed.

Lemma texec_balanced l e l' : balanced l -> texec l e = Some l' -> balanced l'.
Proof.
  intros [Hp Hr]. destruct e as [conn p issued now draws|conn kind now ticket|conn now|now|conn]; cbn [texec].
  - unfold issue_ticket. destruct (extract_tickets _ _) as [tbl expired] eqn:E.
    destruct (draw_vacant tbl draws) as [k|] eqn:Ek; [|done]. intros [= <-]. split; [|done]. cbn [issues table redemptions dropped].
    rewrite (held_insert _ k _ (draw_vacant_none _ _ _ Ek)). cbn [app]. apply Permutation_skip. by eapply extract_balanced.
  - unfold redeem_ticket. destruct (negb _); [by intros [= <-]|]. destruct (table l !! ticket) as [p|] eqn:Ep; [|by intros [= <-]].
    destruct (_ && _) eqn:Ec; [|by intros [= <-]]. intros [= <-]. bools. split; cbn [issues table redemptions dropped].
    + rewrite Hp, <- (held_delete _ _ _ Ep). cbn. apply Permutation_middle.
    + constructor; [|done]. unfold unexpired in *. bools. by subst.
  - unfold pending_tickets_for. destruct (extract_tickets _ _) as [tbl expired] eqn:E. intros [= <-].
    split; [|done]. by eapply extract_balanced.
  - unfold pending_unexpired_tickets. destruct (extract_tickets _ _) as [tbl expired] eqn:E. intros [= <-].
    split; [|done]. by eapply extract_balanced.
  - unfold purge_tickets. destruct (extract_tickets _ _) as [tbl expired] eqn:E. intros [= <-].
    split; [|done]. by eapply extract_balanced.
Qed.

Lemma texec_all_balanced es : forall l l', balanced l -> texec_all l es = Some l' -> balanced l'.
Proof.
  induction es as [|e es IH]; intros l l' Hb; cbn; [by intros [= <-]|].
  destruct (texec l e) as [l1|] eqn:E; [|done]. apply IH. by eapply texec_balanced.
Qed.
End Table.

(** C36: A ticket is used once or dropped once: over any life of the table, the
    tickets issued are exactly those still in it, those redeemed and those
    dropped, and each redemption was by the connection and the kind of stream
    the ticket was issued for, before it expired. *)
Theorem ticket_once {X F S : Type} (es : list (@TEvent X F S)) l :
  texec_all empty_ledger es = Some l ->
  issues l ≡ₚ held (table l) ++ (redemptions l).*1 ++ dropped l
  /\ forall t conn kind now, (t, (conn, kind, now)) ∈ redemptions l ->
       conn_id t = conn /\ stream_kind (purpose t) = kind /\ now < expires_at t.
Proof.
  intros Hl. destruct (texec_all_balanced es empty_ledger l) as [Hp Hr]; [by split|done|].
  split; [done|]. intros t conn kind now Hin. exact (proj1 (Forall_forall _ _) Hr _ Hin).
Qed.

(** ** Example *)

Definition demo_key : string := "0123456789abcdef".
Definition demo_tickets : list (@TEvent unit nat unit) :=
  [TIssue 7 (PFile 1%nat (Quota.FilePermit "a")) 0 0 [demo_key];
   TIssue 7 (PFile 2%nat (Quota.FilePermit "a")) 1 1 [demo_key; "fedcba9876543210"%string];
   TRedeem 8 FileData 2 demo_key; TRedeem 7 FileData 2 demo_key; TRedeem 7 FileData 3 demo_key;
   TPurge 7].

Lemma ticket_once_witness : exists l,
  texec_all empty_ledger demo_tickets = Some l
  /\ issues l ≡ₚ held (table l) ++ (redemptions l).*1 ++ dropped l /\ length (redemptions l) = 1%nat /\ length (dropped l) = 1%nat.
Proof.
  destruct (texec_all empty_ledger demo_tickets) as [l|] eqn:E; [|vm_compute in E; discriminate E].
  exists l. split; [reflexivity|]. split; [exact (proj1 (ticket_once demo_tickets l E))|].
  vm_compute in E. injection E as <-. split; reflexivity.
Defined.
End Tickets.
