(* ===== verification/HostOs.v ===== *)
(** * The host's file system

    The operating system as the file operations see it: a class of system
    calls over an unknown state, each of which may answer anything and may
    find the state changed by others.  On it the blocking steps of
    [crates/qsh-core/src/file/host/posix.rs], the handle and inode checks of
    [file/guard.rs] and the classification of errors of
    [server/file_host.rs], on Linux. *)

From S2P Require Import Prelude Text FsPath FileGuard.

Module HostOs.
Import Text FsPath FileGuard.

(** ** Errors *)

Definition EPERM : N := 1.
Definition ENOENT : N := 2.
Definition EINTR : N := 4.
Definition EACCES : N := 13.
Definition EEXIST : N := 17.
Definition ENOTDIR : N := 20.
Definition ENOSPC : N := 28.
Definition ELOOP : N := 40.
Definition EDQUOT : N := 122.

(** [io::Error]: from an [errno], or made from a kind. *)
Inductive IoError := Raw (errno : N) | Simple (kind : ErrorKind).

Definition raw_os_error (e : IoError) : option N := match e with Raw n => Some n | Simple _ => None end.

(** [io::Error::kind]; of the kinds only [NotFound] is told apart. *)
Definition decode_error_kind (errno : N) : ErrorKind :=
  if errno =? ENOENT then NotFound
  else if (errno =? EACCES) || (errno =? EPERM) then OtherKind "PermissionDenied"
  else if errno =? EEXIST then OtherKind "AlreadyExists"
  else if errno =? ENOTDIR then OtherKind "NotADirectory"
  else if errno =? ENOSPC then OtherKind "StorageFull"
  else if errno =? ELOOP then OtherKind "FilesystemLoop"
  else if errno =? EDQUOT then OtherKind "QuotaExceeded"
  else OtherKind "Uncategorized".
Definition kind_of_error (e : IoError) : ErrorKind :=
  match e with Raw n => decode_error_kind n | Simple k => k end.
Definition not_found (e : IoError) : bool := bool_decide (kind_of_error e = NotFound).

(** The kind [Interrupted]. *)
Definition interrupted (e : IoError) : bool := bool_decide (raw_os_error e = Some EINTR).

(** [is_not_a_directory_error] *)
Definition is_not_a_directory_error (e : IoError) : bool :=
  match raw_os_error e with Some n => (n =? ENOTDIR) || (n =? ELOOP) | None => false end.

Inductive FileErrorClass := EMissing | EExists | EDenied | ENoSpace | EOther.

(** [classify_file_error] *)
Definition classify_file_error (e : IoError) : FileErrorClass :=
  match raw_os_error e with
  | Some n =>
      if n =? ENOENT then EMissing
      else if n =? EEXIST then EExists
      else if (n =? EACCES) || (n =? EPERM) || (n =? ELOOP) || (n =? ENOTDIR) then EDenied
      else if (n =? ENOSPC) || (n =? EDQUOT) then ENoSpace
      else EOther
  | None => EOther
  end.

(** ** Metadata *)

(** The fields of [struct stat] the code reads. *)
Record RawStat := mkRaw { st_mode : N; st_size : Z; st_mtime : Z; st_dev : N; st_ino : N }.

Definition S_IFMT : N := 61440.
Definition S_IFIFO : N := 4096.
Definition S_IFCHR : N := 8192.
Definition S_IFDIR : N := 16384.
Definition S_IFBLK : N := 24576.
Definition S_IFREG : N := 32768.
Definition S_IFLNK : N := 40960.
Definition S_IFSOCK : N := 49152.
Definition fmt (st : RawStat) : N := N.land (st_mode st) S_IFMT.
Definition md_is_dir (st : RawStat) : bool := fmt st =? S_IFDIR.
Definition md_is_symlink (st : RawStat) : bool := fmt st =? S_IFLNK.

Inductive FsKind := FsRegular | FsDirectory | FsSymlink | FsOther.
#[global] Instance FsKind_eq_dec : EqDecision FsKind.
Proof. solve_decision. Defined.

Record StatInfo := mkInfo { i_kind : FsKind; i_size : N; i_mode : N; i_mtime : Z }.

Definition kind_of (st : RawStat) : FsKind :=
  if fmt st =? S_IFREG then FsRegular
  else if fmt st =? S_IFDIR then FsDirectory
  else if fmt st =? S_IFLNK then FsSymlink
  else FsOther.

(** [info_of]; a negative size is reported as 0. *)
Definition info_of (st : RawStat) : StatInfo :=
  mkInfo (kind_of st) (Z.to_N (st_size st)) (N.land (st_mode st) 511) (st_mtime st).

Inductive FileKind := KRegular | KDirectory | KSymlink | KFifo | KSocket | KBlockDevice | KCharDevice | KOther.

(** [file_kind] *)
Definition file_kind (st : RawStat) : FileKind :=
  if fmt st =? S_IFIFO then KFifo
  else if fmt st =? S_IFSOCK then KSocket
  else if fmt st =? S_IFBLK then KBlockDevice
  else if fmt st =? S_IFCHR then KCharDevice
  else if fmt st =? S_IFREG then KRegular
  else if fmt st =? S_IFDIR then KDirectory
  else if fmt st =? S_IFLNK then KSymlink
  else KOther.

(** ** System calls *)

Class HostOs (Fs Handle : Type) := {
  (** what [realpath] answers while the state stands still *)
  os_realpath : Fs -> string -> result string ErrorKind;
  (** other processes get to run *)
  os_yield : Fs -> Fs;
  (** [open] of a path: [O_RDONLY | O_NOFOLLOW | O_NONBLOCK], and
      [O_DIRECTORY | O_NOFOLLOW] *)
  os_open_read : string -> act Fs (result Handle IoError);
  os_open_dir : string -> act Fs (result Handle IoError);
  (** [openat(O_DIRECTORY | O_NOFOLLOW)] *)
  os_openat_dir : Handle -> string -> act Fs (result Handle IoError);
  os_fstat : Handle -> act Fs (result RawStat IoError);
  (** [fstatat(AT_SYMLINK_NOFOLLOW)] *)
  os_fstatat : Handle -> string -> act Fs (result RawStat IoError);
  os_mkdirat : Handle -> string -> N -> act Fs (result unit IoError);
  os_fchmod : Handle -> N -> act Fs (result unit IoError);
  (** the names a directory stream yields, and the error that ends it *)
  os_readdir : Handle -> act Fs (result (list string * option IoError) IoError);
  (** [readlink("/proc/self/fd/<n>")] *)
  os_readlink_fd : Handle -> act Fs (result string IoError);
  os_lstat : string -> act Fs (result RawStat IoError);
  os_stat : string -> act Fs (result RawStat IoError);
  (** [fs::read_dir] of a path and [DirEntry::metadata] of its entries *)
  os_read_dir : string -> act Fs (result (list (result string IoError)) IoError);
  os_entry_stat : string -> string -> act Fs (result RawStat IoError);
  (** [fstatvfs]: [f_bavail] and [f_frsize] *)
  os_fstatvfs : Handle -> act Fs (result (N * N) IoError);
}.

Inductive MkdirOutcome := Created | Existed | ExistsNotDirectory.
#[global] Instance MkdirOutcome_eq_dec : EqDecision MkdirOutcome.
Proof. solve_decision. Defined.

Inductive ListError := TooManyEntries (cap : N) | ListIo (kind : ErrorKind).

Section Steps.
Context {Fs Handle : Type} `{HostOs Fs Handle}.

(** [FsNormalizer], over the state as it stands. *)
Definition normalizer (fs : Fs) : Normalizer := normalize_with (os_realpath fs).

(** [cstring] *)
Definition cstring (name : string) : result string IoError :=
  if contains nul name then Err (Simple (OtherKind "InvalidInput")) else Ok name.

(** [fstat] *)
Definition fstat (h : Handle) : act Fs (result StatInfo IoError) := amap (rmap info_of) (os_fstat h).

(** The end of [stat_at]: an entry that is not there is no error. *)
Definition stat_answer (r : result RawStat IoError) : result (option StatInfo) IoError :=
  match r with
  | Ok st => Ok (Some (info_of st))
  | Err e => if not_found e then Ok None else Err e
  end.

(** [stat_at] *)
Definition stat_at (dir : Handle) (name : string) : act Fs (result (option StatInfo) IoError) :=
  match cstring name with
  | Err e => aret (Err e)
  | Ok name =>
      let* r := os_fstatat dir name in
      aret (stat_answer r)
  end.

(** [open_dir_at] *)
Definition open_dir_at (dir : Handle) (name : string) : act Fs (result Handle IoError) :=
  match cstring name with Err e => aret (Err e) | Ok name => os_openat_dir dir name end.

(** [mkdir_at] *)
Definition mkdir_at (dir : Handle) (name : string) (mode : N) (preserve : bool) : act Fs (result MkdirOutcome IoError) :=
  match cstring name with
  | Err e => aret (Err e)
  | Ok cname =>
      let wanted := N.lor (N.land mode 511) 448 in
      let initial := if preserve then 448 else wanted in
      let* rc := os_mkdirat dir cname initial in
      match rc with
      | Err e =>
          if negb (bool_decide (raw_os_error e = Some EEXIST)) then aret (Err e)
          else
            let*? info := stat_at dir name in
            aret (Ok (match info with
                      | Some i => if bool_decide (i_kind i = FsDirectory) then Existed else ExistsNotDirectory
                      | None => ExistsNotDirectory
                      end))
      | Ok _ =>
          let*? sub := open_dir_at dir name in
          let*? info := fstat sub in
          let current := i_mode info in
          let target := if preserve then wanted else N.lor current 448 in
          if current =? target then aret (Ok Created)
          else
            let*? _ := os_fchmod sub target in
            aret (Ok Created)
      end
  end.

Fixpoint collect_names (cap : N) (raws : list string) (names : list string) : result (list string) ListError :=
  match raws with
  | [] => Ok names
  | raw :: raws =>
      if bool_decide (raw = "."%string) || bool_decide (raw = ".."%string) then collect_names cap raws names
      else if cap <=? len names then Err (TooManyEntries cap)
      else collect_names cap raws (names ++ [raw])
  end.

(** [read_names] *)
Definition read_names (dir : Handle) (cap : N) : act Fs (result (list string) ListError) :=
  let* r := os_readdir dir in
  aret (match r with
        | Err e => Err (ListIo (kind_of_error e))
        | Ok (raws, fin) =>
            let? names := collect_names cap raws [] in
            match fin with Some e => Err (ListIo (kind_of_error e)) | None => Ok names end
        end).

(** [StatvfsFreeSpace::available_bytes]: a saturating [u64] product. *)
Definition U64_MAX : N := 2 ^ 64 - 1.
Definition available_bytes (dir : Handle) : act Fs (result N IoError) :=
  amap (rmap (fun '(bavail, frsize) => (bavail * frsize) `min` U64_MAX)) (os_fstatvfs dir).

(** ** The path of a handle *)

Definition deleted : string := " (deleted)".

(** [handle_path] on Linux *)
Definition handle_path (h : Handle) : act Fs (result string ErrorKind) :=
  let* link := os_readlink_fd h in
  aret (match link with
        | Err e => Err (kind_of_error e)
        | Ok link =>
            let path := default link (strip_suffix deleted link) in
            if is_absolute path then Ok path else Err (OtherKind "InvalidInput")
        end).

End Steps.

(** ** A file system without links

    For examples: the paths that exist with their metadata, handles that are
    paths, and no one else at work. *)

Definition StaticFs := list (string * RawStat).

Definition entry (fs : StaticFs) (p : string) : option RawStat :=
  snd <$> List.find (fun e => bool_decide (fst e = p)) fs.
Definition children (fs : StaticFs) (d : string) : list string :=
  omap (fun e => if bool_decide (parent (fst e) = Some d) then file_name (fst e) else None) fs.
Definition static_stat (p : string) (fs : StaticFs) : result RawStat IoError :=
  match entry fs p with Some st => Ok st | None => Err (Raw ENOENT) end.
Definition static_dir (p : string) (fs : StaticFs) : result string IoError :=
  match entry fs p with
  | Some st => if md_is_dir st then Ok p else Err (Raw ENOTDIR)
  | None => Err (Raw ENOENT)
  end.

Definition static_os : HostOs StaticFs string := {|
  os_realpath fs p := match entry fs p with Some _ => Ok p | None => Err NotFound end;
  os_yield fs := fs;
  os_open_read p fs := (fs, rmap (fun _ => p) (static_stat p fs));
  os_open_dir p fs := (fs, static_dir p fs);
  os_openat_dir h n fs := (fs, static_dir (push h n) fs);
  os_fstat h fs := (fs, static_stat h fs);
  os_fstatat h n fs := (fs, static_stat (push h n) fs);
  os_mkdirat h n m fs :=
    match entry fs (push h n) with
    | Some _ => (fs, Err (Raw EEXIST))
    | None => (fs ++ [(push h n, mkRaw (S_IFDIR + m) 0 0 1 (len fs))], Ok tt)
    end;
  os_fchmod h m fs :=
    ((fun e => if bool_decide (fst e = h) then (h, mkRaw (fmt (snd e) + m) 0 0 (st_dev (snd e)) (st_ino (snd e))) else e) <$> fs,
     Ok tt);
  os_readdir h fs := (fs, Ok ("."%string :: ".."%string :: children fs h, None));
  os_readlink_fd h fs := (fs, Ok h);
  os_lstat p fs := (fs, static_stat p fs);
  os_stat p fs := (fs, static_stat p fs);
  os_read_dir p fs := (fs, rmap (fun d => Ok <$> children fs d) (static_dir p fs));
  os_entry_stat d n fs := (fs, static_stat (push d n) fs);
  os_fstatvfs h fs := (fs, Ok (1000000, 4096));
|}.

Definition demo_fs : StaticFs :=
  [("/"%string, mkRaw (S_IFDIR + 493) 0 0 1 1);
   ("/s"%string, mkRaw (S_IFDIR + 448) 0 0 1 2);
   ("/s/key"%string, mkRaw (S_IFREG + 384) 32 0 1 3);
   ("/home"%string, mkRaw (S_IFDIR + 493) 0 0 1 4);
   ("/home/u"%string, mkRaw (S_IFDIR + 448) 0 0 1 5);
   ("/home/u/b"%string, mkRaw (S_IFREG + 420) 10 0 1 6);
   ("/home/u/a"%string, mkRaw (S_IFREG + 420) 20 0 1 7);
   ("/home/u/link"%string, mkRaw (S_IFREG + 420) 32 0 1 3)].

(** A directory whose name ends like the kernel's mark of an unlinked file is
    taken for another path. *)
Example deleted_in_name :
  let fs := demo_fs ++ [("/home/u (deleted)"%string, mkRaw (S_IFDIR + 448) 0 0 1 9)] in
  snd (static_os.(os_open_dir) "/home/u (deleted)" fs) = Ok "/home/u (deleted)"%string
  /\ snd (handle_path (H := static_os) "/home/u (deleted)"%string fs) = Ok "/home/u"%string.
Proof. by vm_compute. Qed.
End HostOs.
