(* ===== verification/AuditWriter.v ===== *)
(** * The audit writer

    Models [crates/qsh-core/src/audit/writer.rs] on a POSIX host: the sink that
    queues records without blocking, the thread that writes them, and the
    rotating file it writes to.  A write that fails latches the sink as
    degraded; records already accepted wait until a later flush lands them.

    The file system is the class [LogOs]: every call may fail.  JSON encoding
    is a parameter.  The writer thread is a step function on events, as are
    the producers, whose two visible actions (reading the latch, sending) may
    be interleaved with anything. *)

From stdpp Require Import pretty.
From S2P Require Import Prelude Text FsPath FileGuard AuditLog HostOs.

Module AuditWriter.
Import Text FsPath Audit HostOs.

(** ** The calls *)

Class LogOs (W File : Type) := {
  (** [Path::exists] *)
  path_exists : string -> act W bool;
  (** [DirBuilder::create], recursive *)
  mkdir_all : string -> act W (result unit IoError);
  (** append, create *)
  open_append : string -> act W (result File IoError);
  (** write, create *)
  open_create : string -> act W (result File IoError);
  (** write *)
  open_write : string -> act W (result File IoError);
  file_metadata : File -> act W (result RawStat IoError);
  path_metadata : string -> act W (result RawStat IoError);
  write_all : File -> list byte -> act W (result unit IoError);
  set_len : File -> N -> act W (result unit IoError);
  remove_file : string -> act W (result unit IoError);
  rename : string -> string -> act W (result unit IoError);
  flock_ex : File -> act W (result unit IoError);
  flock_un : File -> act W (result unit IoError);
}.

(** [Metadata::len] *)
Definition md_len (st : RawStat) : N := Z.to_N (st_size st).
Definition same_file (a b : RawStat) : bool := (st_dev a =? st_dev b) && (st_ino a =? st_ino b).

(** ** Names *)

Definition rotated_path (active : string) (n : N) : string := active +:+ "." +:+ pretty n.
Definition lock_path_for (active : string) : string := active +:+ ".lock".

(** A loop of at most [2 ^ d] turns that may stop at any of them. *)
Fixpoint turns {S A B} (d : nat) (body : A -> act S (A + B)) (a : A) : act S (A + B) :=
  match d with
  | O => body a
  | S d =>
      let* r := turns d body a in
      match r with inl a => turns d body a | inr b => aret (inr b) end
  end.

Section Files.
Context {W File : Type} `{LogOs W File}.
Abbreviation io A := (act W (result A IoError)).

Definition create_private_dir (dir : string) : io unit :=
  let* there := path_exists dir in
  if there then aret (Ok tt) else mkdir_all dir.

(** [n] is a [u32], so [2 ^ 32] turns see every value it takes. *)
Definition sweep_stale_rotated (active : string) (retain : N) : act W unit :=
  let* _ :=
    turns 32 (fun n =>
      let* there := path_exists (rotated_path active n) in
      if there then let* _ := remove_file (rotated_path active n) in aret (inl (n + 1)) else aret (inr tt))
      ((retain + 1) `min` u32_max) in
  aret tt.

(** [for n in (1..=k).rev()] *)
Fixpoint shift_files (active : string) (k : nat) : io unit :=
  match k with
  | O => aret (Ok tt)
  | S k' =>
      let n := N.of_nat k in
      let* there := path_exists (rotated_path active n) in
      let*? _ := if there then rename (rotated_path active n) (rotated_path active (n + 1)) else aret (Ok tt) in
      shift_files active k'
  end.

Definition rotate_files (active : string) (retain : N) : io unit :=
  if retain =? 0 then let* _ := remove_file active in aret (Ok tt)
  else
    let* _ := remove_file (rotated_path active retain) in
    let*? _ := shift_files active (N.to_nat (retain - 1)) in
    let* there := path_exists active in
    if there then rename active (rotated_path active 1) else aret (Ok tt).
End Files.

(** ** The rotating file *)

Section Rotating.
Context {W File : Type} `{LogOs W File}.
Variables (active_path : string) (max_bytes retain : N).

Definition dir : string := default "."%string (parent active_path).
Definition lock_path : string := lock_path_for active_path.

Record RotatingFile := mkFile { os : W; file : option File; bytes_written : N; rotation_degraded : bool }.
Abbreviation io A := (act RotatingFile (result A IoError)).

(** [RotatingFile::new] *)
Definition new_file (w : W) : RotatingFile := mkFile w None 0 false.

Definition on_os {A} (m : act W A) : act RotatingFile A := fun s =>
  let '(w, a) := m (os s) in (mkFile w (file s) (bytes_written s) (rotation_degraded s), a).
Definition set_file (f : option File) : act RotatingFile unit := fun s =>
  (mkFile (os s) f (bytes_written s) (rotation_degraded s), tt).
Definition set_bytes (n : N) : act RotatingFile unit := fun s =>
  (mkFile (os s) (file s) n (rotation_degraded s), tt).
Definition set_rotation_degraded (b : bool) : act RotatingFile unit := fun s =>
  (mkFile (os s) (file s) (bytes_written s) b, tt).
Definition get : act RotatingFile RotatingFile := fun s => (s, s).

Definition open_fresh : io (File * N) :=
  let*? _ := on_os (create_private_dir dir) in
  let* _ := on_os (sweep_stale_rotated active_path retain) in
  let*? f := on_os (open_append active_path) in
  let*? st := on_os (file_metadata f) in
  aret (Ok (f, md_len st)).

Definition ensure_open : io unit :=
  let* s := get in
  match file s with
  | Some _ => aret (Ok tt)
  | None =>
      let*? (f, size) := open_fresh in
      let* _ := set_file (Some f) in
      let* _ := set_bytes size in
      aret (Ok tt)
  end.

Definition revalidate : io unit :=
  let* s := get in
  match file s with
  | None => aret (Ok tt)
  | Some f =>
      let*? fh_meta := on_os (file_metadata f) in
      let* at_path := on_os (path_metadata active_path) in
      let stale := match at_path with Ok path_meta => negb (same_file path_meta fh_meta) | Err _ => true end in
      if stale then let* _ := set_file None in ensure_open else aret (Ok tt)
  end.

Definition with_lock {R} (f : io R) : io R :=
  let*? _ := on_os (create_private_dir dir) in
  let*? lock_file := on_os (open_create lock_path) in
  let*? _ := on_os (flock_ex lock_file) in
  let* result := f in
  let* _ := on_os (flock_un lock_file) in
  aret result.

Definition rotate : io unit :=
  let* _ := set_file None in
  let* moved := on_os (rotate_files active_path retain) in
  match moved with
  | Err _ => let* _ := set_rotation_degraded true in ensure_open
  | Ok _ =>
      let* _ := set_rotation_degraded false in
      let*? (f, _) := open_fresh in
      let* _ := set_file (Some f) in
      let* _ := set_bytes 0 in
      aret (Ok tt)
  end.

Definition repair_partial_write : act RotatingFile unit :=
  let* s := get in
  match file s with
  | None => aret tt
  | Some _ =>
      let* opened := on_os (open_write active_path) in
      match opened with
      | Ok f => let* _ := on_os (set_len f (bytes_written s)) in aret tt
      | Err _ => aret tt
      end
  end.

(** The critical section of [write_line]. *)
Definition make_room (line : list byte) : io unit :=
  let*? _ := revalidate in
  let*? _ := ensure_open in
  let* s := get in
  if (0 <? bytes_written s) && (max_bytes <? bytes_written s + len line) then rotate else aret (Ok tt).

(** [ensure_open] has set the handle; the [None] case is the [expect]. *)
Definition write_line (line : list byte) : io unit :=
  let*? _ := with_lock (make_room line) in
  let* s := get in
  match file s with
  | None => aret (Err (Simple (FileGuard.OtherKind "expect")))
  | Some f =>
      let* wrote := on_os (write_all f line) in
      match wrote with
      | Ok _ => let* _ := set_bytes (bytes_written s + len line) in aret (Ok tt)
      | Err e => let* _ := repair_partial_write in aret (Err e)
      end
  end.
End Rotating.
Arguments RotatingFile : clear implicits.
Arguments mkFile {W File}.
Arguments new_file {W File}.

(** ** The sink *)

Inductive AuditError := QueueFull | Degraded.

(** The state the producers and the writer thread share, and the locals of the
    thread.  [racing] holds the records of calls that have read the latch and
    not sent yet, [hand] the record the thread has received and not written.
    [accepted] is not part of the program: it lists the records for which
    [record] returned [Ok], in the order of the sends. *)
Record Sink {W File : Type} := mkSink {
  sender : bool;
  degraded : bool;
  queue : list AuditRecord;
  racing : list AuditRecord;
  hand : option AuditRecord;
  pending : list AuditRecord;
  finished : bool;
  disk : RotatingFile W File;
  accepted : list AuditRecord;
}.
Arguments Sink : clear implicits.

(** What the threads do: a producer calls [record] ([EEnter]) and sends the
    [i]-th racing record ([ESend]); the sink is dropped; the writer receives,
    writes what it received, finds nothing within a tick, or finds the channel
    disconnected. *)
Inductive Event := EEnter (r : AuditRecord) | ESend (i : nat) | EDrop | ERecv | EWrite | ETick | EHangUp.

Section Machine.
Context {W File : Type} `{LogOs W File}.
Variables (active_path : string) (max_bytes retain queue_depth : N).
Variable to_vec : AuditRecord -> option (list byte).

Definition newline : byte := x0a.

Definition encode (r : AuditRecord) : option (list byte) := (fun bytes => bytes ++ [newline]) <$> to_vec r.

Abbreviation write_line := (write_line active_path max_bytes retain).

(** What the thread changes: the file, the latch and [pending]. *)
Definition handle_normal (r : AuditRecord) (s : RotatingFile W File) (latch : bool) (todo : list AuditRecord)
    : RotatingFile W File * bool * list AuditRecord :=
  match encode r with
  | None => (s, latch, todo)
  | Some line =>
      match write_line line s with
      | (s, Err _) => (s, true, todo ++ [r])
      | (s, Ok _) => (s, latch, todo)
      end
  end.

Fixpoint try_flush_pending (todo : list AuditRecord) (s : RotatingFile W File) (latch : bool)
    : RotatingFile W File * bool * list AuditRecord :=
  match todo with
  | [] => (s, false, [])
  | r :: rest =>
      match encode r with
      | None => try_flush_pending rest s latch
      | Some line =>
          match write_line line s with
          | (s, Ok _) => try_flush_pending rest s latch
          | (s, Err _) => (s, latch, todo)
          end
      end
  end.

Definition depth : N := queue_depth `max` 1.

(** [RotatingAuditSink::spawn] on the file system [w]. *)
Definition spawn (w : W) : Sink W File := mkSink _ _ true false [] [] None [] false (new_file w) [].

(** The first half of [record]: the latch. *)
Definition enter (r : AuditRecord) (k : Sink W File) : Sink W File * result unit AuditError :=
  if degraded k then (k, Err Degraded)
  else (mkSink _ _ (sender k) (degraded k) (queue k) (racing k ++ [r]) (hand k) (pending k) (finished k) (disk k) (accepted k),
        Ok tt).

(** The second half: [try_send], which fails when the queue is full or the
    thread has gone. *)
Definition send (i : nat) (r : AuditRecord) (k : Sink W File) : Sink W File * result unit AuditError :=
  let others := take i (racing k) ++ drop (S i) (racing k) in
  if (len (queue k) <? depth) && negb (finished k)
  then (mkSink _ _ (sender k) (degraded k) (queue k ++ [r]) others (hand k) (pending k) (finished k) (disk k) (accepted k ++ [r]), Ok tt)
  else (mkSink _ _ (sender k) (degraded k) (queue k) others (hand k) (pending k) (finished k) (disk k) (accepted k), Err QueueFull).

(** [record], when no other thread comes between. *)
Definition record (r : AuditRecord) (k : Sink W File) : Sink W File * result unit AuditError :=
  match enter r k with
  | (k, Err e) => (k, Err e)
  | (k, Ok _) => send (length (racing k) - 1) r k
  end.

Definition after_flush (done : bool) (k : Sink W File) : Sink W File :=
  let '(s, latch, todo) := try_flush_pending (pending k) (disk k) (degraded k) in
  mkSink _ _ (sender k) latch (queue k) (racing k) (hand k) todo done s (accepted k).

(** One step, or [None] where it is not possible.  The thread is in its loop
    head when it holds no record and has not returned. *)
Definition at_head (k : Sink W File) : bool := negb (finished k) && negb (bool_decide (is_Some (hand k))).

Definition exec (e : Event) (k : Sink W File) : option (Sink W File) :=
  match e with
  | EEnter r => if sender k then Some (fst (enter r k)) else None
  | ESend i => match racing k !! i with Some r => Some (fst (send i r k)) | None => None end
  | EDrop =>
      if sender k && bool_decide (racing k = [])
      then Some (mkSink _ _ false (degraded k) (queue k) (racing k) (hand k) (pending k) (finished k) (disk k) (accepted k))
      else None
  | ERecv =>
      if at_head k then
        match queue k with
        | r :: queue =>
            Some (if bool_decide (pending k = [])
                  then mkSink _ _ (sender k) (degraded k) queue (racing k) (Some r) [] (finished k) (disk k) (accepted k)
                  else mkSink _ _ (sender k) (degraded k) queue (racing k) (hand k) (pending k ++ [r]) (finished k) (disk k) (accepted k))
        | [] => None
        end
      else None
  | EWrite =>
      match hand k with
      | Some r =>
          let '(s, latch, todo) := handle_normal r (disk k) (degraded k) (pending k) in
          Some (mkSink _ _ (sender k) latch (queue k) (racing k) None todo (finished k) s (accepted k))
      | None => None
      end
  | ETick =>
      if at_head k && bool_decide (queue k = []) && sender k && bool_decide (pending k <> [])
      then Some (after_flush false k) else None
  | EHangUp =>
      if at_head k && bool_decide (queue k = []) && negb (sender k)
      then Some (if bool_decide (pending k = [])
                 then mkSink _ _ (sender k) (degraded k) [] (racing k) (hand k) [] true (disk k) (accepted k)
                 else after_flush true k)
      else None
  end.

Fixpoint run (es : list Event) (k : Sink W File) : option (Sink W File) :=
  match es with
  | [] => Some k
  | e :: es => match exec e k with Some k => run es k | None => None end
  end.
End Machine.

End AuditWriter.
