(* ===== verification/AuditDurable.v ===== *)
(** * What the audit writer promises

    Properties of [AuditWriter]: the lines of every accepted record are on
    disk in order, whole, each once, or wait in memory; the log is bounded; a
    dropped sink stops.  And two ways in which lines are lost: a rotation that
    keeps failing and a second writer of the same log. *)

From stdpp Require Import pretty.
From S2P Require Import Prelude Text FsPath FileGuard AuditLog HostOs AuditWriter.

Module AuditDurable.
Import Text FsPath Audit HostOs AuditWriter.

(** ** What the calls do *)

(** The bytes a path names, the handles open on what it names, the paths that
    nobody else touches, and the states reached without a disk that refuses to
    undo: a state is [steady] when so far every truncation succeeded and every
    [exists] told the truth.  The code relies on both without checking them:
    [repair_partial_write] ignores what [set_len] answers, and [Path::exists]
    answers [false] for any error.  What is proved below of steady states is
    not claimed of others, nor of a log that a second process writes (see
    [repair_cuts_other_writer]). *)
Class LogView (W File : Type) := {
  content : W -> string -> option (list byte);
  opened : W -> File -> string -> Prop;
  identity : File -> N * N;
  mine : string -> Prop;
  steady : W -> Prop;
}.

Section View.
Context {W File : Type} `{LogView W File}.

Definition agree (w w' : W) (p : string) : Prop :=
  content w' p = content w p /\ forall f, opened w f p -> opened w' f p.
Definition same (w w' : W) : Prop := forall p, mine p -> agree w w' p.
Definition except (p : string) (w w' : W) : Prop := forall q, mine q -> q <> p -> agree w w' q.

(** A call that ends in a steady state started in one, and did [Q]. *)
Definition law {A} (m : act W A) (Q : W -> A -> W -> Prop) : Prop :=
  forall w w' a, m w = (w', a) -> steady w' -> steady w /\ Q w a w'.

Definition bytes_at (w : W) (p : string) : list byte := default [] (content w p).
End View.

(** [ftruncate] *)
Definition resize (n : N) (l : list byte) : list byte := takeN n l ++ replicate (N.to_nat (n - len l)) x00.

(** POSIX for the paths that are [mine], none of which is a hard link of
    another. *)
Class LogLaws (W File : Type) `{LogOs W File, LogView W File} := {
  law_opened w f p : mine p -> opened w f p -> is_Some (content w p);
  law_exists p : law (path_exists p) (fun w b w' =>
    same w w' /\ (mine p -> b = bool_decide (is_Some (content w p))));
  law_mkdir p : law (mkdir_all p) (fun w _ w' => same w w');
  law_append p : mine p -> law (open_append p) (fun w r w' =>
    except p w w'
    /\ match r with
       | Ok f => opened w' f p /\ content w' p = Some (bytes_at w p)
       | Err _ => agree w w' p
       end);
  law_create p : law (open_create p) (fun w _ w' => except p w w');
  law_open_write p : mine p -> law (open_write p) (fun w r w' =>
    same w w' /\ match r with Ok f => opened w' f p | Err _ => content w p = None end);
  law_file_metadata f : law (file_metadata f) (fun w r w' =>
    same w w'
    /\ forall st, r = Ok st ->
         (st_dev st, st_ino st) = identity f
         /\ forall p, mine p -> opened w f p -> st_size st = Z.of_N (len (bytes_at w p)));
  law_path_metadata p : law (path_metadata p) (fun w r w' =>
    same w w' /\ forall st f, mine p -> r = Ok st -> opened w f p -> (st_dev st, st_ino st) = identity f);
  law_write f l : law (write_all f l) (fun w r w' => forall p, mine p -> opened w f p ->
    except p w w' /\ (forall g, opened w g p -> opened w' g p)
    /\ match r with
       | Ok _ => content w' p = Some (bytes_at w p ++ l)
       | Err _ => exists l', l' `prefix_of` l /\ content w' p = Some (bytes_at w p ++ l')
       end);
  law_set_len f n : law (set_len f n) (fun w r w' => forall p, mine p -> opened w f p ->
    except p w w' /\ (forall g, opened w g p -> opened w' g p)
    /\ content w' p = Some (resize n (bytes_at w p)));
  law_remove p : mine p -> law (remove_file p) (fun w r w' =>
    except p w w' /\ match r with Ok _ => content w' p = None | Err _ => agree w w' p end);
  law_rename p q : mine p -> mine q -> p <> q -> law (rename p q) (fun w r w' =>
    match r with
    | Ok _ =>
        (forall x, mine x -> x <> p -> x <> q -> agree w w' x)
        /\ is_Some (content w p) /\ content w' p = None /\ content w' q = content w p
    | Err _ => same w w'
    end);
  law_flock_ex f : law (flock_ex f) (fun w _ w' => same w w');
  law_flock_un f : law (flock_un f) (fun w _ w' => same w w');
}.

(** ** Names *)

Lemma app_inj_s a b c : a +:+ b = a +:+ c -> b = c.
Proof. induction a as [|x a IH]; [done|]. rewrite !app_cons. intros [= E]. by apply IH. Qed.

Lemma app_self_s a b : a +:+ b = a -> b = EmptyString.
Proof. intros E. apply (app_inj_s a). by rewrite app_nil_s. Qed.

Lemma rotated_inj active n m : rotated_path active n = rotated_path active m -> n = m.
Proof. unfold rotated_path. intros E%app_inj_s%app_inj_s. by apply (inj pretty). Qed.

Lemma rotated_not_active active n : rotated_path active n <> active.
Proof. unfold rotated_path. intros E%app_self_s. by destruct (pretty n). Qed.

Lemma lock_not_active active : lock_path_for active <> active.
Proof. unfold lock_path_for. intros E%app_self_s. done. Qed.

Lemma pretty_go_letters c x t : (forall n, Ascii.eqb (pretty_N_char n) c = false) -> contains c (pretty_N_go x t) = contains c t.
Proof.
  intros Hc. revert t. induction (N.lt_wf_0 x) as [x _ IH]; intros t. destruct (decide (0 < x)) as [Hx|Hx].
  - rewrite pretty_N_go_step by done. rewrite IH by (apply N.div_lt; lia). cbn [contains]. by rewrite Hc.
  - assert (x = 0) as -> by lia. by rewrite pretty_N_go_0.
Qed.

Lemma pretty_no_letter c (n : N) : (forall k, Ascii.eqb (pretty_N_char k) c = false) -> contains c (pretty n) = false.
Proof.
  intros Hc. unfold pretty, pretty_N. case_decide; [|by rewrite pretty_go_letters].
  pose proof (Hc 0) as H0. change (pretty_N_char 0) with "0"%char in H0. cbn [contains]. by rewrite H0.
Qed.

Lemma rotated_not_lock active n : rotated_path active n <> lock_path_for active.
Proof.
  unfold rotated_path, lock_path_for. intros E%app_inj_s. apply (app_inj_s "." _ "lock") in E.
  assert (contains "l" (pretty n) = false) as Hl; [|by rewrite E in Hl].
  apply pretty_no_letter. intros k. unfold pretty_N_char. by repeat case_match.
Qed.

(** ** Specifications of stateful code *)

(** Like [law], with a precondition: if [m] ends in an [ok] state it started
    in one, and leads from [P] to [Q]. *)
Definition spec {S A} (ok : S -> Prop) (P : S -> Prop) (m : act S A) (Q : A -> S -> Prop) : Prop :=
  forall s s' a, m s = (s', a) -> ok s' -> ok s /\ (P s -> Q a s').

Section Spec.
Context {S : Type} (ok : S -> Prop).
Implicit Types P : S -> Prop.

Lemma spec_ret {A} (a : A) P Q : (forall s, P s -> Q a s) -> spec ok P (aret a) Q.
Proof. intros HQ s s' a' [= <- <-] Hok. auto. Qed.

Lemma spec_conseq {A} P P' (m : act S A) (Q Q' : A -> S -> Prop) :
  spec ok P' m Q' -> (forall s, P s -> P' s) -> (forall a s, Q' a s -> Q a s) -> spec ok P m Q.
Proof. intros Hm HP HQ s s' a E Hok. destruct (Hm s s' a E Hok). auto. Qed.

Lemma spec_bind {A B} P (m : act S A) (R : A -> S -> Prop) (k : A -> act S B) Q :
  spec ok P m R -> (forall a, spec ok (R a) (k a) Q) -> spec ok P (abind m k) Q.
Proof.
  intros Hm Hk s s' b E Hok. unfold abind in E. destruct (m s) as [s1 a] eqn:Em.
  destruct (Hk a _ _ _ E Hok) as [Hok1 HQ]. destruct (Hm _ _ _ Em Hok1) as [Hok0 HR]. auto.
Qed.

Lemma spec_try {A B E} P (m : act S (result A E)) (R : A -> S -> Prop) (k : A -> act S (result B E)) Q :
  spec ok P m (fun r s => match r with Ok a => R a s | Err e => Q (Err e) s end) ->
  (forall a, spec ok (R a) (k a) Q) -> spec ok P (atry m k) Q.
Proof. intros Hm Hk. eapply spec_bind; [exact Hm|]. intros [a|e]; [apply Hk|]. by apply spec_ret. Qed.

Lemma spec_pure {A} P (X : Prop) (m : act S A) Q :
  (X -> spec ok P m Q) -> (forall s s' a, m s = (s', a) -> ok s' -> ok s) -> spec ok (fun s => X /\ P s) m Q.
Proof. intros Hm Hs s s' a E Hok. split; [eauto|]. intros [HX HP]. by apply (Hm HX s s' a E Hok). Qed.

(** A loop that keeps [I] as long as its variable satisfies [J]. *)
Lemma spec_turns {A B} (J : A -> Prop) (I : S -> Prop) (body : A -> act S (A + B)) d a :
  (forall a, spec ok (fun s => J a /\ I s) (body a) (fun r s => I s /\ match r with inl a => J a | inr _ => True end)) ->
  spec ok (fun s => J a /\ I s) (turns d body a) (fun r s => I s /\ match r with inl a => J a | inr _ => True end).
Proof.
  intros Hb. revert a. induction d as [|d IH]; intros a; cbn [turns]; [done|]. eapply spec_bind; [apply IH|].
  intros [a'|b]; [|by apply spec_ret]. eapply spec_conseq; [apply IH| |done]. by intros s [HI HJ].
Qed.
End Spec.

Section Calls.
Context {W File : Type} `{LogLaws W File}.
Implicit Types w : W.

Lemma agree_refl w p : agree w w p.
Proof. by split. Qed.

Lemma agree_trans w1 w2 w3 p : agree w1 w2 p -> agree w2 w3 p -> agree w1 w3 p.
Proof. intros [Ha Hb] [Hc Hd]. split; [by rewrite Hc|auto]. Qed.

(** A call leads from one predicate to another. *)
Lemma law_spec {A} (m : act W A) Q (P : W -> Prop) R :
  law m Q -> (forall w a w', P w -> Q w a w' -> R a w') -> spec steady P m R.
Proof. intros Hm HR w w' a E Hok. destruct (Hm w w' a E Hok) as [Hs HQ]. split; [done|]. intros HP. eauto. Qed.

Lemma law_os {A} (m : act W A) Q (P : RotatingFile W File -> Prop) R :
  law m Q ->
  (forall s a w', P s -> Q (os s) a w' -> R a (mkFile w' (file s) (bytes_written s) (rotation_degraded s))) ->
  spec (fun s => steady (os s)) P (on_os m) R.
Proof.
  intros Hm HR s s' a E Hok. unfold on_os in E. destruct (m (os s)) as [w' a'] eqn:Em. injection E as <- <-.
  destruct (Hm _ _ _ Em Hok) as [Hs HQ]. split; [done|]. intros HP. by apply HR.
Qed.

Lemma spec_law {A} (m : act W A) (Q : W -> A -> W -> Prop) : (forall w0, spec steady (eq w0) m (Q w0)) -> law m Q.
Proof. intros Hm w w' a E Hok. destruct (Hm w w w' a E Hok). auto. Qed.

Lemma create_private_dir_same p : law (create_private_dir p) (fun w _ w' => same w w').
Proof.
  apply spec_law. intros w0. unfold create_private_dir.
  eapply (spec_bind _ _ _ (fun _ w => same w0 w)); [eapply law_spec; [apply law_exists|]; by intros w a w' <- [? _]|].
  intros []; [by apply spec_ret|]. eapply law_spec; [apply law_mkdir|]. intros w a w' Ha Hb q Hq. eapply agree_trans; [by apply Ha|by apply Hb].
Qed.
End Calls.

(** ** The files of the log *)

Lemma resize_app (l l' : list byte) : resize (len l) (l ++ l') = l.
Proof.
  unfold resize. rewrite takeN_app_len by done. replace (len l - len (l ++ l')) with 0 by len_lia. apply app_nil_r.
Qed.

(** What the files hold, from the oldest to the active one. *)
Fixpoint trail {A} (n : nat) (seg : nat -> list A) : list A :=
  match n with O => seg O | S m => seg n ++ trail m seg end.

Lemma trail_ext {A} n (s s' : nat -> list A) : (forall i, (i <= n)%nat -> s i = s' i) -> trail n s = trail n s'.
Proof. induction n as [|n IH]; cbn [trail]; intros Hs; [by apply Hs|]. rewrite Hs, IH; auto with lia. Qed.

Lemma trail_nil {A} n : trail n (fun _ => @nil A) = [].
Proof. by induction n. Qed.

Lemma trail_snoc {A} n (s s' : nat -> list A) x :
  (forall i, (0 < i <= n)%nat -> s' i = s i) -> s' O = s O ++ [x] -> trail n s' = trail n s ++ [x].
Proof.
  intros Hs H0. induction n as [|n IH]; cbn [trail]; [done|]. rewrite IH, Hs by auto with lia. by rewrite app_assoc.
Qed.

(** The content of a file goes to the next older one, or nowhere. *)
Definition moved {A} (n : nat) (s : nat -> list A) (i : nat) : list A :=
  if decide (i = S n) then s n else if decide (i = n) then [] else s i.
Definition dropped {A} (n : nat) (s : nat -> list A) (i : nat) : list A := if decide (i = n) then [] else s i.

Lemma trail_dropped {A} n (s : nat -> list A) : trail n s = s n ++ trail n (dropped n s).
Proof.
  destruct n as [|n]; cbn [trail]; unfold dropped; rewrite decide_True by done; [by rewrite app_nil_r|].
  cbn [app]. f_equal. apply trail_ext. intros i Hi. by rewrite decide_False by lia.
Qed.

Lemma trail_moved_top {A} n (s : nat -> list A) : trail (S n) s = s (S n) ++ trail (S n) (moved n s).
Proof.
  cbn [trail]. f_equal. rewrite (trail_dropped n s). unfold moved at 1. rewrite decide_True by done. f_equal.
  apply trail_ext. intros i Hi. unfold moved, dropped. by rewrite (decide_False (P := i = S n)) by lia.
Qed.

Lemma trail_moved {A} n m (s : nat -> list A) : (S n < m)%nat -> s (S n) = [] -> trail m s = trail m (moved n s).
Proof.
  intros Hm Hs. induction Hm as [|m Hm IH].
  - change (s (S (S n)) ++ trail (S n) s = moved n s (S (S n)) ++ trail (S n) (moved n s)).
    rewrite (trail_moved_top n s), Hs. unfold moved at 2. by rewrite !decide_False by lia.
  - cbn [trail]. rewrite IH. unfold moved at 2. by rewrite !decide_False by lia.
Qed.

Section Log.
Context {W File : Type} `{LogLaws W File}.
Variables (active_path : string) (max_bytes retain : N).
Implicit Types w : W.

(** No line is longer. *)
Variable wide : N.

(** With [strict], a file that is there can be renamed. *)
Variable strict : bool.
Hypothesis reliable : strict = true -> forall p q, law (rename p q) (fun w r _ => is_Some (content w p) -> r = Ok tt).

(** The log's files, from the active one to the oldest. *)
Definition slot (n : nat) : string :=
  match n with O => active_path | S _ => rotated_path active_path (N.of_nat n) end.
Definition oldest : nat := N.to_nat retain.

Hypothesis active_mine : mine active_path.
Hypothesis rotated_mine : forall n, mine (rotated_path active_path n).
Hypothesis retain_pos : 0 < retain.
Hypothesis retain_max : retain < u32_max.

Lemma slot_mine n : mine (slot n).
Proof. destruct n; [apply active_mine|apply rotated_mine]. Qed.

Lemma rotated_slot n : 0 < n -> rotated_path active_path n = slot (N.to_nat n).
Proof. intros Hn. destruct (N.to_nat n) eqn:E; [lia|]. cbn [slot]. f_equal. lia. Qed.

Lemma slot_inj n m : slot n = slot m -> n = m.
Proof.
  destruct n, m; cbn [slot]; intros E; [done| | |].
  - symmetry in E. by apply rotated_not_active in E.
  - by apply rotated_not_active in E.
  - apply rotated_inj in E. lia.
Qed.

Lemma slot_not_lock n : slot n <> lock_path active_path.
Proof. destruct n; cbn [slot]; [|apply rotated_not_lock]. intros E. symmetry in E. by apply lock_not_active in E. Qed.

Lemma sweep_agree : law (sweep_stale_rotated active_path retain) (fun w _ w' => forall n, (n <= oldest)%nat -> agree w w' (slot n)).
Proof.
  apply spec_law. intros w0. unfold sweep_stale_rotated.
  eapply (spec_bind _ _ _ (fun _ w => forall k, (k <= oldest)%nat -> agree w0 w (slot k))); [|intros r; by apply spec_ret].
  eapply spec_conseq; [eapply (spec_turns _ (fun n => retain < n) (fun w => forall k, (k <= oldest)%nat -> agree w0 w (slot k)))| |].
  - intros n. eapply spec_bind.
    + eapply law_spec; [apply law_exists|]. intros w b w' [Hn Hw] [Hs _].
      instantiate (1 := fun _ w => retain < n /\ forall k, (k <= oldest)%nat -> agree w0 w (slot k)). cbn beta. split; [done|].
      intros k Hk. eapply agree_trans; [by apply Hw|]. apply Hs, slot_mine.
    + intros []; [|apply spec_ret; intros w [_ Hw]; by split]. eapply spec_bind; [|intros r; apply spec_ret; intros w Hw; exact Hw].
      eapply law_spec; [apply law_remove, rotated_mine|]. intros w r w' [Hn Hw] [Hx _]. split; [|lia].
      intros k Hk. eapply agree_trans; [by apply Hw|]. apply Hx; [apply slot_mine|]. rewrite rotated_slot by lia.
      intros E%slot_inj. unfold oldest in *. lia.
  - intros w <-. split; [unfold u32_max in *; lia|]. intros k _. apply agree_refl.
  - by intros r w [Hw _].
Qed.

(** [Files B L w]: of the lines [L], in their order, the files hold the last
    ones ([seg], by file), whole; what they do not hold are the first ones,
    [gone]; and [B gone seg]. *)
Definition Holds w (seg : nat -> list (list byte)) : Prop :=
  forall n, (n <= oldest)%nat -> bytes_at w (slot n) = concat (seg n).
Definition Files (B : list (list byte) -> (nat -> list (list byte)) -> Prop) (L : list (list byte)) w : Prop :=
  Forall (fun l => l <> []) L /\ exists gone seg, L = gone ++ trail oldest seg /\ Holds w seg /\ B gone seg.

(** The files are used from the newest on, a file over [max_bytes] has one line,
    a rotated file had no room for one line more, and nothing is gone before
    all files are in use. *)
Definition Bounded (gone : list (list byte)) (seg : nat -> list (list byte)) : Prop :=
  (forall n, (n <= oldest)%nat -> len (concat (seg n)) <= max_bytes \/ (length (seg n) <= 1)%nat)
  /\ (forall n, (0 < n < oldest)%nat -> seg n = [] -> seg (S n) = [])
  /\ (forall n, (0 < n <= oldest)%nat -> seg n <> [] -> max_bytes < len (concat (seg n)) + wide)
  /\ (gone = [] \/ forall n, (0 < n <= oldest)%nat -> seg n <> []).
(** Nothing is gone before one file had no room for one line more. *)
Definition Overflowed (gone : list (list byte)) (seg : nat -> list (list byte)) : Prop :=
  gone = [] \/ max_bytes < len (concat (gone ++ trail oldest seg)) + wide.
Definition Limited : list (list byte) -> (nat -> list (list byte)) -> Prop := if strict then Bounded else Overflowed.
Definition Loose : list (list byte) -> W -> Prop := Files (fun _ _ => True).
Definition Kept : list (list byte) -> W -> Prop := Files Limited.

Lemma files_bytes B L w w' :
  (forall n, (n <= oldest)%nat -> bytes_at w' (slot n) = bytes_at w (slot n)) -> Files B L w -> Files B L w'.
Proof.
  intros Ha [Hne (gone & seg & HL & Hh & HB)]. split; [done|]. exists gone, seg. split_and!; [done| |done]. intros n Hn. by rewrite Ha, Hh.
Qed.

Lemma files_agree B L w w' : (forall n, (n <= oldest)%nat -> agree w w' (slot n)) -> Files B L w -> Files B L w'.
Proof. intros Ha. apply files_bytes. intros n Hn. unfold bytes_at. by destruct (Ha n Hn) as [-> _]. Qed.

(** All files but the active one as they were. *)
Lemma except_active w w' : except active_path w w' -> forall n, (0 < n)%nat -> agree w w' (slot n).
Proof. intros He n Hn. apply He; [apply slot_mine|]. change active_path with (slot 0). intros ?%slot_inj. lia. Qed.

Lemma kept_active L w w' : except active_path w w' -> bytes_at w' active_path = bytes_at w active_path -> Kept L w -> Kept L w'.
Proof.
  intros He Hb. apply files_bytes. intros [|n] _; [done|]. unfold bytes_at. destruct (except_active _ _ He (S n)) as [E _]; [lia|].
  by rewrite E.
Qed.

Lemma files_same B L w w' : same w w' -> Files B L w -> Files B L w'.
Proof. intros Hs. apply files_agree. intros n _. apply Hs, slot_mine. Qed.

Lemma loose_remove L w w' :
  except (slot oldest) w w' -> content w' (slot oldest) = None -> Loose L w -> Loose L w'.
Proof.
  intros He Hc [Hne (gone & seg & HL & Hh & _)]. split; [done|]. exists (gone ++ seg oldest), (dropped oldest seg).
  split; [by rewrite HL, (trail_dropped oldest seg), app_assoc|]. split; [|done]. intros n Hn. unfold dropped. case_decide as E.
  - subst n. unfold bytes_at. by rewrite Hc.
  - rewrite <- Hh by done. unfold bytes_at. destruct (He (slot n)) as [-> _]; [apply slot_mine| |done]. by intros ?%slot_inj.
Qed.

Lemma no_lines (ls : list (list byte)) : Forall (fun l => l <> []) ls -> concat ls = [] -> ls = [].
Proof. intros Hne. destruct ls as [|l ls]; [done|]. inversion Hne as [|? ? Hl _]; subst. by destruct l. Qed.

Lemma trail_elem {A} n i (s : nat -> list A) x : (i <= n)%nat -> x ∈ s i -> x ∈ trail n s.
Proof.
  induction n as [|n IH]; cbn [trail]; intros Hi Hx; [by replace O with i by lia|]. apply elem_of_app.
  destruct (decide (i = S n)) as [->|]; [by left|right; apply IH; [lia|done]].
Qed.

(** A file moved to the next older name, which was free or the last one. *)
Lemma loose_rename n L w w' :
  (S n <= oldest)%nat -> ((S n < oldest)%nat -> content w (slot (S n)) = None) ->
  (forall x, mine x -> x <> slot n -> x <> slot (S n) -> agree w w' x) ->
  content w' (slot n) = None -> content w' (slot (S n)) = content w (slot n) -> Loose L w -> Loose L w'.
Proof.
  intros Hn Hfree Ho Hc1 Hc2 [Hne (gone & seg & HL & Hh & _)]. split; [done|].
  assert (exists gone', L = gone' ++ trail oldest (moved n seg)) as [gone' HL'].
  { destruct (decide (S n < oldest)%nat) as [Hlt|Hge].
    - exists gone. rewrite HL. f_equal. apply trail_moved; [done|]. apply no_lines.
      + apply Forall_forall. intros l Hl. rewrite Forall_forall in Hne. apply Hne. rewrite HL. apply elem_of_app. right.
        eapply trail_elem; [|done]. lia.
      + rewrite <- Hh by lia. unfold bytes_at. by rewrite Hfree.
    - exists (gone ++ seg (S n)). replace oldest with (S n) in HL |- * by lia. by rewrite HL, trail_moved_top, app_assoc. }
  exists gone', (moved n seg). split_and!; [done| |done]. intros i Hi. unfold moved. repeat case_decide; subst.
  - rewrite <- Hh by lia. unfold bytes_at. by rewrite Hc2.
  - unfold bytes_at. by rewrite Hc1.
  - rewrite <- Hh by done. unfold bytes_at. destruct (Ho (slot i)) as [-> _]; [apply slot_mine| | |done]; by intros ?%slot_inj.
Qed.

Lemma spec_exists n (P : W -> Prop) :
  (forall w w', same w w' -> P w -> P w') ->
  spec steady P (path_exists (slot n)) (fun b w => P w /\ b = bool_decide (is_Some (content w (slot n)))).
Proof.
  intros HP. eapply law_spec; [apply law_exists|]. intros w b w' Hw [Hs Hb]. rewrite (Hb (slot_mine n)).
  destruct (Hs (slot n) (slot_mine n)) as [-> _]. split; [by eapply HP|done].
Qed.

Lemma loose_free_same n L w w' :
  same w w' -> Loose L w /\ ((S n < oldest)%nat -> content w (slot (S n)) = None) ->
  Loose L w' /\ ((S n < oldest)%nat -> content w' (slot (S n)) = None).
Proof.
  intros Hs [HK Hf]. split; [by eapply files_same|]. destruct (Hs (slot (S n)) (slot_mine _)) as [-> _]. done.
Qed.

Lemma shift_loose k L :
  (k < oldest)%nat ->
  spec steady (fun w => Loose L w /\ ((S k < oldest)%nat -> content w (slot (S k)) = None)) (shift_files active_path k)
    (fun r w => Loose L w /\ (r = Ok tt -> (1 < oldest)%nat -> content w (slot 1) = None)).
Proof.
  induction k as [|k IH]; intros Hk; cbn [shift_files]; [apply spec_ret; naive_solver|].
  rewrite !rotated_slot by lia. replace (N.to_nat (N.of_nat (S k))) with (S k) by lia.
  replace (N.to_nat (N.of_nat (S k) + 1)) with (S (S k)) by lia.
  eapply spec_bind; [apply spec_exists; apply (loose_free_same (S k))|].
  intros b. eapply (spec_try _ _ _ (fun _ w => Loose L w /\ ((S k < oldest)%nat -> content w (slot (S k)) = None))); [|intros _; apply IH; lia].
  destruct b.
  - eapply law_spec; [apply law_rename; [apply slot_mine..|intros E%slot_inj; lia]|].
    intros w [[]|e] w' [[HK Hf] _]; [|intros Hs; split; [by eapply files_same|done]].
    intros (Ho & _ & Hc1 & Hc2). split; [|done]. eapply (loose_rename (S k)); eauto with lia.
  - apply spec_ret. intros w [[HK _] Hb]. symmetry in Hb. apply bool_decide_eq_false in Hb. split; [done|]. intros _.
    by apply eq_None_not_Some.
Qed.

Lemma rotate_files_loose L :
  spec steady (Loose L) (rotate_files active_path retain) (fun r w => Loose L w /\ (r = Ok tt -> content w (slot 0) = None)).
Proof.
  unfold rotate_files. replace (retain =? 0) with false by (symmetry; apply N.eqb_neq; lia).
  rewrite !rotated_slot by lia. fold oldest. change (N.to_nat 1) with 1%nat.
  eapply spec_bind; [eapply law_spec; [apply law_remove, slot_mine|]|].
  { intros w r w' HK [He Hr]. instantiate (1 := fun _ => Loose L). cbn beta. destruct r; [by eapply loose_remove|].
    eapply files_agree; [|done]. intros n Hn. destruct (decide (n = oldest)) as [->|]; [done|]. apply He; [apply slot_mine|].
    by intros ?%slot_inj. }
  intros r. cbn beta. eapply (spec_try _ _ _ (fun _ w => Loose L w /\ ((1 < oldest)%nat -> content w (slot 1) = None))).
  { eapply spec_conseq; [apply (shift_loose (N.to_nat (retain - 1)) L)|..]; [unfold oldest; lia| |].
    - intros w HK. split; [done|]. unfold oldest. lia.
    - intros [[]|e] w [HK Hc]; naive_solver. }
  intros []. eapply spec_bind; [apply (spec_exists 0), (loose_free_same 0)|].
  intros []. 
  - eapply law_spec; [apply (law_rename (slot 0)); [apply slot_mine..|intros E%slot_inj; lia]|].
    intros w [[]|e] w' [[HK Hf] _]; [|intros Hs; split; [by eapply files_same|done]].
    intros (Ho & _ & Hc1 & Hc2). split; [|done]. eapply (loose_rename 0); eauto. unfold oldest. lia.
  - apply spec_ret. intros w [[HK _] Hb]. symmetry in Hb. apply bool_decide_eq_false in Hb. split; [done|]. intros _.
    by apply eq_None_not_Some.
Qed.

(** Where renames succeed, a rotation moves every file to the next name. *)
Section Exact.
Variable c : nat -> list byte.
Hypothesis dense : forall n, (0 < n < oldest)%nat -> c n = [] -> c (S n) = [].
Hypothesis is_strict : strict = true.

Definition Shifted (k : nat) w : Prop :=
  (forall n, (n <= k)%nat -> bytes_at w (slot n) = c n)
  /\ (forall n, (S k < n <= oldest)%nat -> bytes_at w (slot n) = c (pred n))
  /\ (bytes_at w (slot (S k)) = [] \/ S k = oldest /\ bytes_at w (slot (S k)) = c oldest).

Lemma shifted_same k w w' : same w w' -> Shifted k w -> Shifted k w'.
Proof.
  intros Hs. assert (Hb : forall n, bytes_at w' (slot n) = bytes_at w (slot n)).
  { intros n. unfold bytes_at. by destruct (Hs (slot n) (slot_mine n)) as [-> _]. }
  unfold Shifted. rewrite Hb. setoid_rewrite Hb. done.
Qed.

Lemma rename_strict n :
  law (rename (slot n) (slot (S n))) (fun w r w' => is_Some (content w (slot n)) ->
    r = Ok tt /\ content w' (slot n) = None /\ content w' (slot (S n)) = content w (slot n)
    /\ forall i, i <> n -> i <> S n -> bytes_at w' (slot i) = bytes_at w (slot i)).
Proof.
  intros w w' r E Hok. destruct (reliable is_strict _ _ _ _ _ E Hok) as [Hs Hr].
  assert (Hne : slot n <> slot (S n)) by (intros ?%slot_inj; lia).
  destruct (law_rename _ _ (slot_mine n) (slot_mine (S n)) Hne _ _ _ E Hok) as [_ Hq]. split; [done|].
  intros Hc. specialize (Hr Hc). subst r. destruct Hq as (Ho & _ & Hc1 & Hc2). split_and!; [done..|].
  intros i Hi Hi'. unfold bytes_at. destruct (Ho (slot i)) as [-> _]; [apply slot_mine| | |done]; by intros ?%slot_inj.
Qed.

Lemma shift_exact k :
  (k < oldest)%nat -> spec steady (Shifted k) (shift_files active_path k) (fun r w => r = Ok tt /\ Shifted 0 w).
Proof.
  induction k as [|k IH]; intros Hk; cbn [shift_files]; [by apply spec_ret|].
  rewrite !rotated_slot by lia. replace (N.to_nat (N.of_nat (S k))) with (S k) by lia.
  replace (N.to_nat (N.of_nat (S k) + 1)) with (S (S k)) by lia.
  eapply spec_bind; [apply (spec_exists (S k)), shifted_same|].
  intros b. eapply (spec_try _ _ _ (fun _ => Shifted k)); [|intros _; apply IH; lia]. destruct b.
  - eapply law_spec; [apply rename_strict|]. intros w r w' [(Hlow & Hhigh & _) Hb] Hr.
    symmetry in Hb. apply bool_decide_eq_true in Hb. destruct (Hr Hb) as (-> & Hc1 & Hc2 & Ho). split_and!.
    + intros n Hn. rewrite Ho by lia. apply Hlow. lia.
    + intros n Hn. destruct (decide (n = S (S k))) as [->|Hne].
      * unfold bytes_at. rewrite Hc2. apply (Hlow (S k)). lia.
      * rewrite Ho by lia. apply Hhigh. lia.
    + left. unfold bytes_at. by rewrite Hc1.
  - apply spec_ret. intros w [(Hlow & Hhigh & Htop) Hb]. symmetry in Hb. apply bool_decide_eq_false in Hb.
    apply eq_None_not_Some in Hb. assert (Hempty : bytes_at w (slot (S k)) = []) by (unfold bytes_at; by rewrite Hb).
    split_and!; [intros n Hn; apply Hlow; lia| |by left]. intros n Hn. destruct (decide (n = S (S k))) as [->|Hne]; [|apply Hhigh; lia].
    cbn [pred]. rewrite <- (Hlow (S k)) by lia. rewrite Hempty. destruct Htop as [->|[E ->]]; [done|]. rewrite <- E.
    apply dense; [lia|]. rewrite <- Hlow; [done|lia].
Qed.

Lemma rotate_files_exact :
  c O <> [] ->
  spec steady (fun w => forall n, (n <= oldest)%nat -> bytes_at w (slot n) = c n) (rotate_files active_path retain)
    (fun r w => r = Ok tt /\ content w (slot 0) = None /\ forall n, (n < oldest)%nat -> bytes_at w (slot (S n)) = c n).
Proof.
  intros Hc0. unfold rotate_files. replace (retain =? 0) with false by (symmetry; apply N.eqb_neq; lia).
  rewrite !rotated_slot by lia. fold oldest. change (N.to_nat 1) with 1%nat.
  assert (Hold : S (N.to_nat (retain - 1)) = oldest) by (unfold oldest; lia).
  eapply (spec_bind _ _ _ (fun _ => Shifted (N.to_nat (retain - 1)))).
  { eapply law_spec; [apply law_remove, slot_mine|]. intros w r w' Hw [He Hr].
    assert (Ho : forall n, n <> oldest -> bytes_at w' (slot n) = bytes_at w (slot n)).
    { intros n Hn. unfold bytes_at. destruct (He (slot n)) as [-> _]; [apply slot_mine| |done]. by intros ?%slot_inj. }
    split_and!; [intros n Hn; rewrite Ho by lia; apply Hw; lia|lia|]. rewrite Hold. unfold bytes_at.
    destruct r; [left; by rewrite Hr|right]. split; [done|]. destruct Hr as [-> _]. by apply (Hw oldest). }
  intros r. clear r. eapply (spec_try _ _ _ (fun _ => Shifted 0)).
  { eapply spec_conseq; [apply (shift_exact (N.to_nat (retain - 1))); lia|done|]. intros [[]|e] w [? ?]; done. }
  intros []. eapply spec_bind; [apply (spec_exists 0), shifted_same|]. intros [].
  - eapply law_spec; [apply (rename_strict 0)|]. intros w r w' [(Hlow & Hhigh & _) Hb] Hr.
    symmetry in Hb. apply bool_decide_eq_true in Hb. destruct (Hr Hb) as (-> & Hc1 & Hc2 & Ho). split_and!; [done..|].
    intros [|n] Hn; [unfold bytes_at; rewrite Hc2; by apply (Hlow O)|]. rewrite Ho by lia. apply (Hhigh (S (S n))). lia.
  - apply spec_ret. intros w [(Hlow & _) Hb]. symmetry in Hb. apply bool_decide_eq_false in Hb. apply eq_None_not_Some in Hb.
    destruct Hc0. rewrite <- (Hlow O) by lia. unfold bytes_at. by rewrite Hb.
Qed.
End Exact.

(** The segments after a rotation. *)
Definition shifted_seg (seg : nat -> list (list byte)) (n : nat) : list (list byte) :=
  match n with O => [] | S m => seg m end.

Lemma trail_shifted n seg : trail (S n) (shifted_seg seg) = trail n seg.
Proof.
  induction n as [|n IH]; [by cbn; rewrite app_nil_r|].
  change (seg (S n) ++ trail (S n) (shifted_seg seg) = seg (S n) ++ trail n seg). by rewrite IH.
Qed.

Lemma dense_up (seg : nat -> list (list byte)) n :
  (forall n, (0 < n < oldest)%nat -> seg n = [] -> seg (S n) = []) -> (0 < n <= oldest)%nat -> seg n = [] -> seg oldest = [].
Proof.
  intros Hd [Hpos Hn] En. assert (forall m, (n <= m)%nat -> (m <= oldest)%nat -> seg m = []) as Hm; [|by apply Hm].
  intros m Hle. induction Hle as [|m Hle IH]; intros Hm; [done|]. apply Hd; [lia|]. apply IH. lia.
Qed.

Lemma bounded_shift gone seg :
  seg O <> [] -> max_bytes < len (concat (seg O)) + wide -> Bounded gone seg -> Bounded (gone ++ seg oldest) (shifted_seg seg).
Proof.
  intros Hactive Htight (Hsize & Hdense & Hfull & Hgone). split_and!.
  - intros [|n] Hn; cbn [shifted_seg]; [right; cbn; lia|apply Hsize; lia].
  - intros [|[|n]] Hn; cbn [shifted_seg]; [lia|done|]. apply Hdense. lia.
  - intros [|[|n]] Hn; cbn [shifted_seg]; [lia|done|]. apply Hfull. lia.
  - destruct (decide (seg oldest = [])) as [E|E].
    + rewrite E, app_nil_r. destruct Hgone as [->|Hg]; [by left|]. destruct (Hg oldest); [unfold oldest; lia|done].
    + right. intros [|n] Hn; [lia|]. cbn [shifted_seg].
      intros En. destruct n as [|n]; [done|]. apply E. eapply (dense_up seg); [done| |exact En]. lia.
Qed.

(** The active file has no room for one line more. *)
Definition Tight w : Prop := bytes_at w active_path <> [] /\ max_bytes < len (bytes_at w active_path) + wide.

Lemma tight_overflowed gone seg w : Tight w -> Holds w seg -> max_bytes < len (concat (gone ++ trail oldest seg)) + wide.
Proof.
  intros [_ Ht] Hh. specialize (Hh O ltac:(lia)). change (slot 0) with active_path in Hh. rewrite Hh in Ht.
  assert (len (concat (seg O)) <= len (concat (trail oldest seg))); [|rewrite concat_app; len_lia].
  clear. induction oldest as [|n IH]; cbn [trail]; [lia|]. rewrite concat_app. len_lia.
Qed.

Lemma rotate_files_kept L :
  spec steady (fun w => Kept L w /\ Tight w) (rotate_files active_path retain)
    (fun r w => Kept L w /\ (r = Ok tt -> content w (slot 0) = None) /\ (strict = true -> r = Ok tt)).
Proof.
  intros w w' r E Hok. destruct (rotate_files_loose L _ _ _ E Hok) as [Hs Hl]. split; [done|].
  unfold Kept, Limited. destruct (Bool.bool_dec strict true) as [Es|Es%not_true_is_false]; rewrite Es.
  2: { intros [[Hne (gone & seg & HL & Hh & _)] Ht].
       destruct Hl as [[_ (gone' & seg' & HL' & Hh' & _)] Hc]; [split; [done|]; by exists gone, seg|]. split_and!; [|done..].
       split; [done|]. exists gone', seg'. split_and!; [done..|right]. rewrite <- HL', HL. by eapply tight_overflowed. }
  clear Hl.
  intros [[Hne (gone & seg & HL & Hh & HB)] [Hactive Htight]].
  assert (Hseg : seg O <> []) by (intros E0; apply Hactive; change (bytes_at w (slot 0) = []); rewrite Hh by lia; by rewrite E0).
  assert (Hnl : forall i, (i <= oldest)%nat -> concat (seg i) = [] -> seg i = []).
  { intros i Hi. apply no_lines, Forall_forall. intros l Hl. rewrite Forall_forall in Hne. apply Hne. rewrite HL.
    apply elem_of_app. right. by eapply trail_elem. }
  destruct (rotate_files_exact (fun n => concat (seg n))) with (s := w) (s' := w') (a := r) as [_ Hq]; [|done| |done|done|].
  - intros n Hn E0. apply Hnl in E0; [|lia]. destruct HB as (_ & Hd & _). by rewrite Hd.
  - by intros E0%Hnl; [|lia].
  - destruct (Hq Hh) as (-> & Hc & Hsh). split_and!; [|done..]. split; [done|].
    exists (gone ++ seg oldest), (shifted_seg seg). split_and!.
    + rewrite HL, <- app_assoc. f_equal. assert (exists m, oldest = S m) as [m Em] by (exists (pred oldest); unfold oldest; lia).
      rewrite Em, trail_shifted. done.
    + intros [|n] Hn; [unfold bytes_at; by rewrite Hc|]. by apply Hsh.
    + apply bounded_shift; [done| |done]. rewrite <- (Hh O) by lia. done.
Qed.

(** ** The rotating file *)

Implicit Types s : RotatingFile W File.
Abbreviation spec := (spec (fun s : RotatingFile W File => steady (os s))).

(** The handle is on the active file and its length is known. *)
Definition Handle s : Prop :=
  forall f, file s = Some f -> opened (os s) f active_path /\ bytes_written s = len (bytes_at (os s) active_path).
Definition Keeps (L : list (list byte)) s : Prop := Kept L (os s) /\ Handle s.

Lemma keeps_agree L w f n b w' :
  (forall i, (i <= oldest)%nat -> agree w w' (slot i)) -> Keeps L (mkFile w f n b) -> Keeps L (mkFile w' f n b).
Proof.
  intros Ha [HK Hh]. split; [by eapply files_agree|]. intros g Hg. destruct (Hh g Hg) as [Ho Hn]. cbn in *.
  destruct (Ha O) as [Hc Hop]; [lia|]. cbn [slot] in *. split; [by apply Hop|]. unfold bytes_at. by rewrite Hc.
Qed.

(** A call that leaves the log alone. *)
Lemma spec_quiet {A} (m : act W A) (Q : W -> A -> W -> Prop) L (P : RotatingFile W File -> Prop) :
  law m Q -> (forall w a w', Q w a w' -> forall i, (i <= oldest)%nat -> agree w w' (slot i)) ->
  (forall w w' f n b, P (mkFile w f n b) -> P (mkFile w' f n b)) ->
  spec (fun s => Keeps L s /\ P s) (on_os m) (fun _ s => Keeps L s /\ P s).
Proof.
  intros Hm HQ HP. eapply law_os; [exact Hm|]. intros [w f n b] a w' [HK HPs] Hq. split; [|by eapply HP].
  eapply keeps_agree; [|done]. by eapply HQ.
Qed.

Lemma open_fresh_spec L c :
  spec (fun s => Kept L (os s) /\ file s = None /\ bytes_at (os s) active_path = c) (open_fresh active_path retain)
    (fun r s => Kept L (os s) /\ file s = None /\
       match r with
       | Ok (f, n) => opened (os s) f active_path /\ bytes_at (os s) active_path = c /\ n = len c
       | Err _ => True
       end).
Proof.
  pose (P s := Kept L (os s) /\ file s = None /\ bytes_at (os s) active_path = c).
  assert (Hquiet : forall A (m : act W A) Q, law m Q ->
            (forall w a w', Q w a w' -> forall i, (i <= oldest)%nat -> agree w w' (slot i)) -> spec P (on_os m) (fun _ => P)).
  { intros A m Q Hm HQ. eapply law_os; [exact Hm|]. intros s a w' (HK & Hf & Hc) Hq. specialize (HQ _ _ _ Hq).
    unfold P; split_and!; [by eapply files_agree|done|]. cbn. rewrite <- Hc. unfold bytes_at. destruct (HQ O) as [E _]; [lia|]. cbn in E. by rewrite E. }
  unfold open_fresh. eapply (spec_try _ _ _ (fun _ => P)).
  { eapply spec_conseq; [apply (Hquiet _ _ _ (create_private_dir_same _))| done|].
    - intros w a w' Hs i _. apply Hs, slot_mine.
    - intros [[]|e] s; [auto|]. by intros (? & ? & ?). }
  intros _. eapply spec_bind; [apply (Hquiet _ _ _ sweep_agree); auto|]. intros u. cbn beta. clear u.
  eapply (spec_try _ _ _ (fun f s => P s /\ opened (os s) f active_path)).
  { eapply law_os; [apply law_append, active_mine|]. intros s [f|e] w' (HK & Hf & Hc) [He Hr].
    - destruct Hr as [Ho Hc']. split; [|done].
      assert (Hb : bytes_at w' active_path = bytes_at (os s) active_path) by (unfold bytes_at at 1; by rewrite Hc').
      unfold P; split_and!; cbn; [by eapply kept_active|done|by rewrite Hb].
    - unfold P; split_and!; [|done|done]. eapply kept_active; [done| |done]. unfold bytes_at. cbn [os]. by destruct Hr as [-> _]. }
  intros f. eapply (spec_try _ _ _ (fun st s => (P s /\ opened (os s) f active_path) /\ md_len st = len c)).
  { eapply law_os; [apply law_file_metadata|]. intros s r w' [(HK & Hf & Hc) Ho] [Hs Hst].
    assert (HK' : Kept L w') by (by eapply files_same). destruct r as [st|e]; [|by unfold P; split_and!].
    destruct (Hst st eq_refl) as [_ Hl]. destruct (Hs _ active_mine) as [Hc' Hop]. unfold P; split_and!; [done..| |by apply Hop|].
    - rewrite <- Hc. unfold bytes_at. cbn. by rewrite Hc'.
    - unfold md_len. rewrite (Hl _ active_mine Ho), Hc. lia. }
  intros st. apply spec_ret. intros s [[(HK & Hf & Hc) Ho] Hl]. by unfold P; split_and!.
Qed.

Definition has_file s : Prop := is_Some (file s).
(** The log is kept, and after success there is a handle. *)
Definition Ready L (r : result unit IoError) s : Prop := Keeps L s /\ (r = Ok tt -> has_file s).

Lemma spec_get {A} (P : RotatingFile W File -> Prop) (k : RotatingFile W File -> act (RotatingFile W File) A) Q :
  (forall s0, spec (fun s => s = s0 /\ P s) (k s0) Q) -> spec P (abind get k) Q.
Proof. intros Hk s s' a E Hok. destruct (Hk s s s' a E Hok) as [Hs HQ]. auto. Qed.

Lemma spec_weaken_pre {A} (P P' : RotatingFile W File -> Prop) (m : act _ A) Q :
  spec P' m Q -> (forall s, P s -> P' s) -> spec P m Q.
Proof. intros Hm HP. eapply spec_conseq; eauto. Qed.

(** Opening the active file where no handle is held. *)
Lemma adopt_spec L c f n : n = len c ->
  spec (fun s => Kept L (os s) /\ opened (os s) f active_path /\ bytes_at (os s) active_path = c)
    (abind (set_file (Some f)) (fun _ => abind (set_bytes n) (fun _ => aret (Ok tt)))) (Ready L).
Proof.
  intros -> s s' a [= <- <-] Hok. split; [done|]. intros (HK & Ho & Hc). split; [split; [done|]|by eexists].
  intros g [= <-]. split; [done|]. cbn. by rewrite Hc.
Qed.

Lemma reopen_spec L c :
  spec (fun s => Kept L (os s) /\ file s = None /\ bytes_at (os s) active_path = c) (ensure_open active_path retain) (Ready L).
Proof.
  unfold ensure_open. apply spec_get. intros s0. destruct (file s0) eqn:E.
  - apply spec_ret. intros s [-> (_ & Hf & _)]. by rewrite Hf in E.
  - eapply (spec_try _ _ _ (fun '(f, n) s => Kept L (os s) /\ opened (os s) f active_path /\ bytes_at (os s) active_path = c /\ n = len c)).
    + eapply spec_conseq; [apply (open_fresh_spec L c)|naive_solver|]. intros [[f n]|e] s; [naive_solver|].
      intros (HK & Hf & _). split; [|done]. split; [done|]. intros f Hf'. by rewrite Hf in Hf'.
    + intros [f n]. intros s s' a Ea Hok. split; [by injection Ea as <- <-|]. intros (HK & Ho & Hc & Hn).
      eapply (adopt_spec L c f n Hn s s' a Ea Hok). auto.
Qed.

Lemma ensure_open_spec L : spec (Keeps L) (ensure_open active_path retain) (Ready L).
Proof.
  intros s s' r E Hok. destruct (file s) as [f|] eqn:Ef.
  - unfold ensure_open, abind, get in E. rewrite Ef in E. injection E as <- <-. split; [done|]. intros HK. split; [done|].
    intros _. by exists f.
  - destruct (reopen_spec L (bytes_at (os s) active_path) s s' r E Hok) as [Hs HQ]. split; [done|]. intros [HK _]. auto.
Qed.

Lemma revalidate_spec L : spec (Keeps L) (revalidate active_path retain) (fun _ => Keeps L).
Proof.
  unfold revalidate. apply spec_get. intros s0. destruct (file s0) as [f|] eqn:Ef; [|apply spec_ret; naive_solver].
  eapply (spec_try _ _ _ (fun _ => Keeps L)).
  { eapply law_os; [apply law_file_metadata|]. intros [w g n b] r w' [_ HK] [Hs _].
    assert (Keeps L (mkFile w' g n b)); [|by destruct r]. eapply keeps_agree; [|done]. intros i _. apply Hs, slot_mine. }
  intros st. eapply (spec_bind _ _ _ (fun _ => Keeps L)).
  { eapply law_os; [apply law_path_metadata|]. intros [w g n b] r w' HK [Hs _].
    eapply keeps_agree; [|done]. intros i _. apply Hs, slot_mine. }
  intros r. destruct (match r with Ok _ => _ | Err _ => _ end); [|by apply spec_ret].
  eapply (spec_bind _ _ _ (fun _ => Keeps L)).
  - intros s s' a [= <- <-] Hok. split; [done|]. by intros [HK _].
  - intros _. eapply spec_conseq; [apply ensure_open_spec|done|]. by intros a s [HK _].
Qed.

(** There is room for the line. *)
Definition Room (line : list byte) s : Prop :=
  strict = true -> bytes_at (os s) active_path = [] \/ len (bytes_at (os s) active_path) + len line <= max_bytes.
Definition Roomy L line (r : result unit IoError) s : Prop := Keeps L s /\ (r = Ok tt -> has_file s /\ Room line s).

Lemma rotate_spec L line :
  spec (fun s => Keeps L s /\ Tight (os s)) (rotate active_path retain) (Roomy L line).
Proof.
  unfold rotate. eapply (spec_bind _ _ _ (fun _ s => Kept L (os s) /\ file s = None /\ Tight (os s))).
  { intros s s' a [= <- <-] Hok. split; [done|]. by intros [[HK _] Hb]. }
  intros _. eapply (spec_bind _ _ _ (fun r s => Kept L (os s) /\ file s = None /\ (r = Ok tt -> content (os s) active_path = None)
                                               /\ (strict = true -> r = Ok tt))).
  { intros s s' a E Hok. unfold on_os in E. destruct (rotate_files active_path retain (os s)) as [w' a'] eqn:Er. injection E as <- <-.
    destruct (rotate_files_kept L _ _ _ Er Hok) as [Hs HQ]. split; [done|]. intros (HK & Hf & Hb). destruct HQ as (? & ? & ?); [done|]. by split_and!. }
  intros [[]|e].
  - eapply (spec_bind _ _ _ (fun _ s => Kept L (os s) /\ file s = None /\ bytes_at (os s) active_path = [])).
    { intros s s' a [= <- <-] Hok. split; [done|]. intros (HK & Hf & Hc & _). unfold bytes_at. cbn. by rewrite (Hc eq_refl). }
    intros _. eapply (spec_try _ _ _ (fun '(f, _) s => Kept L (os s) /\ opened (os s) f active_path /\ bytes_at (os s) active_path = [])).
    + eapply spec_conseq; [apply (open_fresh_spec L [])|done|]. intros [[f n]|e] s; [naive_solver|].
      intros (HK & Hf & _). split; [|done]. split; [done|]. intros f Hf'. by rewrite Hf in Hf'.
    + intros [f n] s s' a E Hok. destruct (adopt_spec L [] f 0 eq_refl s s' a E Hok) as [Hs HQ]. split; [done|]. intros HP.
      destruct (HQ HP) as [HK Hf]. split; [done|]. intros Hr. split; [auto|]. intros _. left. injection E as <- <-. by destruct HP as (_ & _ & ?).
  - eapply (spec_bind _ _ _ (fun _ s => Keeps L s /\ strict <> true)).
    { intros s s' a [= <- <-] Hok. split; [done|]. intros (HK & Hf & _ & Hst). split; [|naive_solver]. split; [done|].
      intros f Hf'. cbn in Hf'. by rewrite Hf in Hf'. }
    intros u s s' a E Hok. destruct (ensure_open_spec L s s' a E Hok) as [Hs HQ]. split; [done|]. intros [HK Hst].
    destruct (HQ HK) as [HK' Hf]. split; [done|]. intros Hr. split; [auto|]. by intros ?.
Qed.

Lemma make_room_spec L line : len line <= wide -> spec (Keeps L) (make_room active_path max_bytes retain line) (Roomy L line).
Proof.
  intros Hwide. unfold make_room. eapply (spec_try _ _ _ (fun _ => Keeps L)).
  { eapply spec_conseq; [apply revalidate_spec|done|]. intros [[]|e] s HK; [done|]. by split. }
  intros _. eapply (spec_try _ _ _ (fun _ s => Keeps L s /\ has_file s)).
  { eapply spec_conseq; [apply ensure_open_spec|done|]. intros [[]|e] s [HK Hf]; [by auto|by split]. }
  intros _. apply spec_get. intros s0. destruct (_ && _) eqn:E.
  - eapply spec_weaken_pre; [apply rotate_spec|]. intros s (-> & HK & f & Hf). split; [done|]. bools.
    destruct HK as [_ Hh]. destruct (Hh f Hf) as [_ Hn]. split; [apply len_pos_inv|]; lia.
  - apply spec_ret. intros s [-> [HK Hf]]. split; [done|]. intros _. split; [done|]. intros _. destruct Hf as [f Hf].
    destruct HK as [_ Hh]. destruct (Hh f Hf) as [_ Hn]. bools. destruct E as [E|E]; bools; [left; apply len_0|right]; lia.
Qed.

Lemma with_lock_spec L line m :
  spec (Keeps L) m (Roomy L line) -> spec (Keeps L) (with_lock active_path m) (Roomy L line).
Proof.
  intros Hm. assert (Hquiet : forall A (m : act W (result A IoError)), law m (fun w _ w' => same w w') ->
    spec (Keeps L) (on_os m) (fun r s => Keeps L s)).
  { intros A m' Hl. eapply law_os; [exact Hl|]. intros [w g n b] r w' HK Hs. eapply keeps_agree; [|done].
    intros i _. apply Hs, slot_mine. }
  assert (Herr : forall A (r : result A IoError) s, Keeps L s -> match r with Ok _ => Keeps L s | Err e => Roomy L line (Err e) s end).
  { intros A [a|e] s HK; [done|]. by split. }
  unfold with_lock. eapply (spec_try _ _ _ (fun _ => Keeps L)).
  { eapply spec_conseq; [apply Hquiet, create_private_dir_same|done|apply Herr]. }
  intros _. eapply (spec_try _ _ _ (fun _ => Keeps L)).
  { eapply spec_conseq; [|done|apply Herr]. eapply law_os; [apply law_create|]. intros [w g n b] r w' HK He.
    eapply keeps_agree; [|done]. intros i _. apply He; [apply slot_mine|apply slot_not_lock]. }
  intros lock. eapply (spec_try _ _ _ (fun _ => Keeps L)).
  { eapply spec_conseq; [apply Hquiet, law_flock_ex|done|apply Herr]. }
  intros _. eapply spec_bind; [exact Hm|]. intros r. eapply (spec_bind _ _ _ (fun _ => Roomy L line r)); [|intros x; by apply spec_ret].
  eapply law_os; [apply law_flock_un|]. intros [w g n b] x w' [HK Hf] Hs. split; [|].
  - eapply keeps_agree; [|done]. intros i _. apply Hs, slot_mine.
  - unfold has_file, Room, bytes_at in *. cbn in *. by destruct (Hs _ active_mine) as [-> _].
Qed.

Lemma kept_append L w w' line :
  line <> [] -> except active_path w w' -> bytes_at w' active_path = bytes_at w active_path ++ line ->
  (strict = true -> bytes_at w active_path = [] \/ len (bytes_at w active_path) + len line <= max_bytes) ->
  Kept L w -> Kept (L ++ [line]) w'.
Proof.
  intros Hl He Hb Hroom [Hne (gone & seg & HL & Hh & HB)]. split; [apply Forall_app; by split; [|constructor]|].
  exists gone, (fun i => if decide (i = O) then seg O ++ [line] else seg i). split_and!.
  - rewrite HL, <- app_assoc. f_equal. symmetry. apply trail_snoc; [|done]. intros i Hi. by rewrite decide_False by lia.
  - intros n Hn. case_decide as E.
    + subst n. change (slot 0) with active_path. rewrite Hb, concat_app. cbn. rewrite app_nil_r. f_equal. by apply (Hh O).
    + rewrite <- Hh by done. unfold bytes_at. by destruct (except_active _ _ He n) as [-> _]; [lia|].
  - unfold Limited in *. destruct (Bool.bool_dec strict true) as [Es|Es%not_true_is_false]; rewrite Es in HB |- *.
    2: { destruct HB as [HB|HB]; [by left|right]. rewrite (trail_snoc oldest seg _ line), !concat_app in * by (intros; by rewrite ?decide_False by lia).
         len_lia. }
    destruct HB as (Hsize & Hdense & Hfull & Hgone). split_and!.
    + intros n Hn. case_decide as E; [subst n|by apply Hsize]. specialize (Hh O Hn). change (slot 0) with active_path in Hh.
      destruct (Hroom Es) as [E|E].
      * right. assert (seg O = []) as ->; [|done]. apply no_lines; [|by rewrite <- Hh].
        apply Forall_forall. intros l Hin. rewrite Forall_forall in Hne. apply Hne. rewrite HL. apply elem_of_app. right. by eapply trail_elem.
      * left. rewrite concat_app, <- Hh. cbn. rewrite app_nil_r. len_lia.
    + intros n Hn. rewrite !decide_False by lia. by apply Hdense.
    + intros n Hn. rewrite !decide_False by lia. by apply Hfull.
    + destruct Hgone as [Hg|Hg]; [by left|right]. intros n Hn. rewrite decide_False by lia. by apply Hg.
Qed.

(** What a failed write left behind is cut off. *)
Lemma repair_spec L n l' f0 :
  spec (fun s => exists w0, Kept L w0 /\ except active_path w0 (os s) /\ n = len (bytes_at w0 active_path)
                /\ content (os s) active_path = Some (bytes_at w0 active_path ++ l')
                /\ opened (os s) f0 active_path /\ file s = Some f0 /\ bytes_written s = n)
    (repair_partial_write active_path) (fun _ => Keeps L).
Proof.
  unfold repair_partial_write. apply spec_get. intros s0. destruct (file s0) as [f|] eqn:Ef.
  2: { apply spec_ret. intros s (-> & w0 & _ & _ & _ & _ & _ & Hf & _). by rewrite Hf in Ef. }
  eapply spec_bind.
  { eapply law_os; [apply law_open_write, active_mine|]. intros s r w' (-> & w0 & HK & He & Hn & Hc & Ho & Hf & Hb) [Hs Hr].
    instantiate (1 := fun r s => exists w0 g, r = Ok g /\ Kept L w0 /\ except active_path w0 (os s) /\ n = len (bytes_at w0 active_path)
                /\ content (os s) active_path = Some (bytes_at w0 active_path ++ l')
                /\ opened (os s) f0 active_path /\ opened (os s) g active_path /\ file s = Some f0 /\ bytes_written s = n
                /\ bytes_written s0 = n). cbn.
    destruct r as [g|e]; [|by rewrite Hr in Hc]. exists w0, g. destruct (Hs _ active_mine) as [Hc' Hop].
    split_and!; [done|done| |done|by rewrite Hc'|by apply Hop|done..].
    intros q Hq Hne. eapply agree_trans; [by apply He|by apply Hs]. }
  intros [g|e]; [|apply spec_ret; naive_solver]. eapply (spec_bind _ _ _ (fun _ => Keeps L)); [|intros u; by apply spec_ret].
  eapply law_os; [apply law_set_len|]. intros s r w' (w0 & g' & [= <-] & HK & He & Hn & Hc & Ho & Hg & Hf & Hb & Hb0) Hl.
  destruct (Hl _ active_mine Hg) as (He' & Hop & Hc'). unfold bytes_at in Hc' at 1. rewrite Hc in Hc'. cbn in Hc'.
  rewrite Hb0, Hn, resize_app in Hc'.
  assert (Hb' : bytes_at w' active_path = bytes_at w0 active_path) by (unfold bytes_at at 1; by rewrite Hc').
  split; cbn.
  - eapply kept_active; [|exact Hb'|done]. intros q Hq Hne. eapply agree_trans; [by apply He|by apply He'].
  - intros h Hh. cbn in Hh. rewrite Hf in Hh. injection Hh as <-. split; [by apply Hop|]. cbn. by rewrite Hb, Hn, Hb'.
Qed.

(** A line is written whole, or the log is as before. *)
Lemma write_line_spec L line :
  line <> [] -> len line <= wide ->
  spec (Keeps L) (write_line active_path max_bytes retain line)
    (fun r s => match r with Ok _ => Keeps (L ++ [line]) s | Err _ => Keeps L s end).
Proof.
  intros Hl Hwide. unfold write_line. eapply (spec_try _ _ _ (fun _ s => Keeps L s /\ has_file s /\ Room line s)).
  { eapply spec_conseq; [by apply with_lock_spec, make_room_spec|done|]. intros [[]|e] s [HK Hf]; [by auto|done]. }
  intros _. apply spec_get. intros s0. destruct (file s0) as [f|] eqn:Ef.
  2: { apply spec_ret. by intros s (-> & HK & Hf & _). }
  eapply spec_bind.
  { eapply law_os; [apply law_write|]. intros s r w' (-> & [HK Hh] & _ & Hroom) Hw. destruct (Hh f Ef) as [Ho Hn].
    instantiate (1 := fun r s =>
      match r with
      | Ok _ => Kept (L ++ [line]) (os s) /\ opened (os s) f active_path
                /\ bytes_written s0 + len line = len (bytes_at (os s) active_path) /\ file s = Some f
      | Err _ => exists w0 l', Kept L w0 /\ except active_path w0 (os s) /\ bytes_written s0 = len (bytes_at w0 active_path)
                /\ content (os s) active_path = Some (bytes_at w0 active_path ++ l')
                /\ opened (os s) f active_path /\ file s = Some f /\ bytes_written s = bytes_written s0
      end). cbn.
    destruct (Hw _ active_mine Ho) as (He & Hop & Hr). destruct r as [u|e].
    - assert (Hb : bytes_at w' active_path = bytes_at (os s0) active_path ++ line) by (unfold bytes_at at 1; by rewrite Hr).
      split_and!; [by eapply kept_append|by apply Hop|rewrite Hb, len_app, Hn; lia|done].
    - destruct Hr as (l' & _ & Hc). exists (os s0), l'. by split_and!; [..|apply Hop| |]. }
  intros [u|e].
  - intros s s' a [= <- <-] Hok. split; [done|]. intros (HK & Ho & Hn & Hf). split; [done|]. intros g Hg. cbn in *.
    rewrite Hf in Hg. injection Hg as <-. by split.
  - eapply (spec_bind _ _ _ (fun _ => Keeps L)); [|intros v; by apply spec_ret].
    intros s s' a E Hok. split.
    + by destruct (repair_spec L 0 [] f s s' a E Hok).
    + intros (w0 & l' & HK & He & Hn & Hc & Ho & Hf & Hb). apply (repair_spec L (bytes_written s0) l' f s s' a E Hok). eauto 10.
Qed.
End Log.
End AuditDurable.
