(* ===== verification/AuditService.v ===== *)
(** * The audit sink as a service

    Properties of the sink of [AuditWriter], for every interleaving of the
    producers with the writer thread: what it accepted is on disk or waits,
    how much can wait, that a dropped sink stops; and, composed with the gates
    of [Gate], that every operation let through is on the record.  Two runs
    show how lines are lost all the same: while a rotation keeps failing, and
    when a second process writes the same log. *)

From stdpp Require Import pretty.
From S2P Require Import Prelude Text FsPath FileGuard Identity AuditLog Acl Policy Gate HostOs AuditWriter AuditDurable.

Module AuditService.
Import Text FsPath Audit HostOs AuditWriter AuditDurable.

Section Sink.
Context {W File : Type} `{LogOs W File}.
Variables (active_path : string) (max_bytes retain queue_depth : N).
Variable to_vec : AuditRecord -> option (list byte).
Implicit Types k : Sink W File.

Abbreviation exec := (exec active_path max_bytes retain queue_depth to_vec).
Abbreviation run := (run active_path max_bytes retain queue_depth to_vec).
Abbreviation encode := (encode to_vec).
Abbreviation depth := (depth queue_depth).

Definition lines (rs : list AuditRecord) : list (list byte) := omap encode rs.

(** Accepted and not on disk yet, in order. *)
Definition waiting k : list AuditRecord := pending k ++ option_list (hand k) ++ queue k.

Lemma lines_app rs rs' : lines (rs ++ rs') = lines rs ++ lines rs'.
Proof. apply omap_app. Qed.

Lemma lines_one r : lines [r] = option_list (encode r).
Proof. cbn. by destruct (encode r). Qed.

Lemma encode_not_nil r line : encode r = Some line -> line <> [].
Proof. unfold AuditWriter.encode. destruct (to_vec r) as [b|]; [|done]. intros [= <-]. by destruct b. Qed.

(** ** The shape of the state

    The latch is set exactly while records are pending. *)
Record Shape k : Prop := {
  shape_latch : degraded k = negb (bool_decide (pending k = []));
  shape_hand : is_Some (hand k) -> pending k = [];
  shape_queue : len (queue k) <= depth;
  shape_sender : sender k = false -> racing k = [];
  shape_finished : finished k = true -> sender k = false /\ queue k = [] /\ hand k = None;
}.

Lemma shape_spawn w : Shape (spawn w).
Proof. split; cbn; try done. unfold depth. rewrite len_nil. lia. Qed.

Lemma flush_latch todo (s : RotatingFile W File) latch :
  let '(_, latch', rest) := try_flush_pending active_path max_bytes retain to_vec todo s latch in
  (latch' = false /\ rest = []) \/ (latch' = latch /\ rest <> []).
Proof.
  revert s. induction todo as [|r todo IH]; intros s; cbn [try_flush_pending]; [by left|].
  destruct (encode r) as [line|]; [|apply IH]. destruct (write_line _ _ _ line s) as [s' [[]|e]]; [apply IH|by right].
Qed.

Lemma shape_flush k done :
  Shape k -> at_head k = true -> queue k = [] -> pending k <> [] -> (done = true -> sender k = false) ->
  Shape (after_flush active_path max_bytes retain to_vec done k).
Proof.
  intros [Hl Hh Hq Hs Hf] Hat Hqe Hp Hd. unfold after_flush.
  pose proof (flush_latch (pending k) (disk k) (degraded k)) as Hx.
  destruct (try_flush_pending _ _ _ _ _ _ _) as [[s latch] rest]. unfold at_head in Hat. bools.
  assert (hand k = None) as Hn by (by apply eq_None_not_Some). split; cbn; try done.
  - destruct Hx as [[-> ->]|[-> Hr]]; [done|]. rewrite Hl. by rewrite !bool_decide_false.
  - intros E. rewrite Hqe, Hn. auto.
Qed.

Lemma shape_exec e k k' : exec e k = Some k' -> Shape k -> Shape k'.
Proof.
  intros E HS. pose proof HS as [Hl Hh Hq Hs Hf]. destruct e as [r|i| | | | |]; cbn [AuditWriter.exec] in E.
  - destruct (sender k) eqn:Es; [|done]. injection E as <-. unfold enter. destruct (degraded k) eqn:Ed; cbn; [done|].
    split; cbn; try done; by rewrite ?Es.
  - destruct (racing k !! i) as [r|] eqn:Er; [|done]. injection E as <-. unfold send.
    destruct (sender k) eqn:Es; [|by rewrite Hs in Er].
    destruct (_ && _) eqn:Eq; bools; split; cbn; rewrite ?Es; try done; [len_lia|].
    intros Hfin. by destruct (Hf Hfin).
  - destruct (_ && _) eqn:Eq; [|done]. injection E as <-. bools. split; cbn; try done. naive_solver.
  - destruct (at_head k) eqn:Ea; [|done]. unfold at_head in Ea. bools. destruct (queue k) as [|r q] eqn:Eq; [done|].
    injection E as <-. case_bool_decide as Ep; split; cbn; try done; rewrite ?Ep in *; try done; try len_lia; try congruence.
    rewrite Hl, bool_decide_false; [done|by destruct (pending k)].
  - destruct (hand k) as [r|] eqn:Eh; [|done]. assert (Hp : pending k = []) by (apply Hh; by eexists).
    unfold handle_normal in E. rewrite Hp in *. cbn in Hl. destruct (encode r) as [line|].
    + destruct (write_line _ _ _ line (disk k)) as [s' [[]|e]]; injection E as <-; split; cbn; try done; (intros Hfin; by destruct (Hf Hfin) as (_ & _ & ?)).
    + injection E as <-. split; cbn; try done; (intros Hfin; by destruct (Hf Hfin) as (_ & _ & ?)).
  - destruct (_ && _) eqn:Eq; [|done]. injection E as <-. bools. by apply shape_flush.
  - destruct (_ && _) eqn:Eq; [|done]. bools. case_bool_decide as Ep; injection E as <-.
    + split; cbn; try done; rewrite ?Ep in *; unfold at_head in *; bools.
      * unfold depth; rewrite len_nil; lia.
      * intros _. split_and!; try done. by apply eq_None_not_Some.
    + by apply shape_flush.
Qed.

Lemma shape_run es k k' : run es k = Some k' -> Shape k -> Shape k'.
Proof.
  revert k. induction es as [|e es IH]; intros k; cbn [AuditWriter.run]; [by intros [= <-]|].
  destruct (exec e k) as [k1|] eqn:E; [|done]. intros Hr HS. eapply IH; [done|]. by eapply shape_exec.
Qed.

(** ** How much can wait *)

(** At most [threads] calls of [record] are under way at a time. *)
Fixpoint run_within (threads : nat) (es : list Event) k : option (Sink W File) :=
  match es with
  | [] => Some k
  | e :: es =>
      match exec e k with
      | Some k => if decide (length (racing k) <= threads)%nat then run_within threads es k else None
      | None => None
      end
  end.

Definition Load (threads : nat) k : Prop :=
  pending k <> [] -> (length (pending k) + length (queue k) + length (racing k) <= S (N.to_nat depth) + threads)%nat.

Lemma flush_shorter todo (s : RotatingFile W File) latch :
  (length (snd (try_flush_pending active_path max_bytes retain to_vec todo s latch)) <= length todo)%nat.
Proof.
  revert s. induction todo as [|r todo IH]; intros s; cbn [try_flush_pending]; [done|].
  destruct (encode r) as [line|]; [|specialize (IH s); cbn [length]; lia].
  destruct (write_line _ _ _ line s) as [s' [[]|e]]; [specialize (IH s'); cbn [length]; lia|done].
Qed.

Lemma load_flush threads k done :
  pending k <> [] -> Load threads k -> Load threads (after_flush active_path max_bytes retain to_vec done k).
Proof.
  intros Hp Hl. specialize (Hl Hp). unfold after_flush. pose proof (flush_shorter (pending k) (disk k) (degraded k)) as Hs.
  destruct (try_flush_pending _ _ _ _ _ _ _) as [[s latch] rest]. intros _. cbn in *. lia.
Qed.

Lemma load_exec threads e k k' :
  exec e k = Some k' -> (length (racing k) <= threads)%nat -> Shape k -> Load threads k -> Load threads k'.
Proof.
  intros E Ht [Hlatch Hh Hq _ _] Hl. unfold len in Hq. destruct e as [r|i| | | | |]; cbn [AuditWriter.exec] in E.
  - destruct (sender k); [|done]. injection E as <-. unfold enter. destruct (degraded k) eqn:Ed; [done|]. intros Hp. cbn in Hp.
    by rewrite bool_decide_false in Hlatch.
  - destruct (racing k !! i) as [r|] eqn:Er; [|done]. injection E as <-.
    apply lookup_lt_Some in Er. unfold send. destruct (_ && _); intros Hp; specialize (Hl Hp); cbn [racing queue pending fst] in *;
      rewrite ?length_app, ?length_take, ?length_drop; cbn [length]; lia.
  - destruct (_ && _); [|done]. by injection E as <-.
  - destruct (at_head k); [|done]. destruct (queue k) as [|r q] eqn:Eq; [done|]. injection E as <-.
    case_bool_decide as Ep; intros Hp; cbn in *; [done|]. specialize (Hl Ep). rewrite Eq in Hl. rewrite length_app. cbn in *. lia.
  - destruct (hand k) as [r|] eqn:Eh; [|done]. assert (Hp : pending k = []) by (apply Hh; by eexists).
    unfold handle_normal in E. rewrite Hp in *. destruct (encode r) as [line|].
    + destruct (write_line _ _ _ line (disk k)) as [s' [[]|e]]; injection E as <-; intros ?; cbn in *; [done|lia].
    + injection E as <-. intros Hx. by cbn in Hx.
  - destruct (_ && _) eqn:Eq; [|done]. injection E as <-. bools. by apply load_flush.
  - destruct (_ && _) eqn:Eq; [|done]. case_bool_decide as Ep; injection E as <-; [intros Hx; by cbn in Hx|]. by apply load_flush.
Qed.

(** What waits in memory is bounded, whatever the disk does: with [threads]
    callers, at most the queue, the record being written when the first write
    failed and one record of each caller. *)
Theorem waiting_bounded threads es w k :
  run_within threads es (spawn w) = Some k ->
  (length (waiting k) <= S (N.to_nat depth) + threads)%nat.
Proof.
  assert (Hinv : forall es k0, run_within threads es k0 = Some k -> (length (racing k0) <= threads)%nat -> Shape k0 -> Load threads k0 ->
            Shape k /\ Load threads k).
  { clear es. induction es as [|e es IH]; intros k0; cbn [run_within]; [by intros [= <-]|].
    destruct (exec e k0) as [k1|] eqn:E; [|done]. case_decide as Hd; [|done]. intros Hr Ht HS HL.
    eapply IH; [done|done|by eapply shape_exec|by eapply load_exec]. }
  intros Hr. destruct (Hinv es (spawn w) Hr) as [[_ Hh Hq _ _] HL]; [cbn; lia|apply shape_spawn|intros Hx; by cbn in Hx|].
  unfold waiting, len in *. rewrite !length_app. destruct (decide (pending k = [])) as [Ep|Ep].
  - rewrite Ep. destruct (hand k); cbn; lia.
  - specialize (HL Ep). destruct (hand k) as [r|]; cbn; [|lia]. destruct Ep. apply Hh. by eexists.
Qed.

(** ** Shutting down *)

(** What the writer thread still has to do once the sink is dropped. *)
Definition work k : nat := 2 * length (queue k) + length (option_list (hand k)) + (if finished k then 0 else 1).

Lemma work_exec e k k' :
  exec e k = Some k' -> Shape k -> sender k = false -> sender k' = false /\ (work k' < work k)%nat.
Proof.
  intros E [_ Hh _ Hs _] Hd. specialize (Hs Hd). unfold work. destruct e as [r|i| | | | |]; cbn [AuditWriter.exec] in E.
  - by rewrite Hd in E.
  - by rewrite Hs in E.
  - by rewrite Hd in E.
  - destruct (at_head k); [|done]. destruct (queue k) as [|r q]; [done|]. injection E as <-. split; [by case_bool_decide|].
    case_bool_decide; cbn; destruct (finished k), (hand k); cbn; lia.
  - destruct (hand k) as [r|]; [|done]. destruct (handle_normal _ _ _ _ r _ _ _) as [[s latch] todo]. injection E as <-. cbn.
    split; [done|]. destruct (finished k); lia.
  - destruct (_ && _) eqn:Eq; [|done]. bools. congruence.
  - destruct (_ && _) eqn:Eq; [|done]. unfold at_head in *. bools. case_bool_decide; injection E as <-.
    + split; [done|]. cbn. destruct (finished k); [done|lia].
    + unfold after_flush. destruct (try_flush_pending _ _ _ _ _ _ _) as [[s latch] rest]. split; [done|]. cbn. destruct (finished k); [done|lia].
Qed.

Lemma work_enabled k : sender k = false -> finished k = false -> exists e k', exec e k = Some k'.
Proof.
  intros Hd Hf. destruct (hand k) as [r|] eqn:Eh.
  - exists EWrite. cbn [AuditWriter.exec]. rewrite Eh. destruct (handle_normal _ _ _ _ r _ _ _) as [[s latch] todo]. eauto.
  - assert (Hat : at_head k = true).
    { unfold at_head. rewrite Hf, Eh. rewrite bool_decide_false; [done|]. by intros []. }
    destruct (queue k) as [|r q] eqn:Eq; [exists EHangUp|exists ERecv]; cbn [AuditWriter.exec]; rewrite Hat, Eq, ?Hd; cbn; eauto.
Qed.

(** A dropped sink stops, on any disk: whatever the calls answer, at most
    two steps for each queued record and two more are made, and as long as the
    thread has not returned it can make one.  When it has returned, whatever
    is not on disk is what the last flush could not write. *)
Theorem shutdown_terminates es es' w k k' :
  run es (spawn w) = Some k -> sender k = false -> run es' k = Some k' ->
  (length es' <= 2 * length (queue k) + 2)%nat
  /\ (finished k' = false -> exists e k'', exec e k' = Some k'')
  /\ (finished k' = true -> waiting k' = pending k').
Proof.
  intros Hr Hd Hr'. pose proof (shape_run _ _ _ Hr (shape_spawn w)) as HS. pose proof (shape_run _ _ _ Hr' HS) as HS'.
  assert (sender k' = false /\ (length es' + work k' <= work k)%nat) as [Hd' Hw].
  { clear Hr HS'. revert k Hd HS Hr'. induction es' as [|e es' IH]; intros k Hd HS; cbn [AuditWriter.run]; [intros [= <-]; split; [done|cbn; lia]|].
    destruct (exec e k) as [k1|] eqn:E; [|done]. intros Hr'. destruct (work_exec _ _ _ E HS Hd) as [Hd1 Hlt].
    destruct (IH k1 Hd1) as [? ?]; [by eapply shape_exec|done|]. split; [done|]. cbn [length]. lia. }
  split_and!.
  - unfold work in Hw. destruct (hand k), (finished k); cbn in Hw; lia.
  - by apply work_enabled.
  - intros Hf. destruct (shape_finished _ HS' Hf) as (_ & Hq & Hh). unfold waiting. rewrite Hq, Hh. by rewrite !app_nil_r.
Qed.
End Sink.

#[global] Arguments lines : simpl never.

(** ** The sink behind the gates *)

Section Gates.
Context {W File : Type} `{LogOs W File}.
Variables (active_path : string) (max_bytes retain queue_depth : N).
Variable to_vec : AuditRecord -> option (list byte).
Implicit Types k : Sink W File.
Abbreviation run := (run active_path max_bytes retain queue_depth to_vec).

#[local] Instance rotating_sink : Gate.AuditSink (Sink W File) := fun r k =>
  let '(k, recorded) := record queue_depth r k in (k, is_ok recorded).

Lemma record_accepted r k :
  let '(k', recorded) := record queue_depth r k in
  accepted k' = (if is_ok recorded then accepted k ++ [r] else accepted k) /\ sender k' = sender k.
Proof. unfold record, enter, send. destruct (degraded k); [done|]. cbn. by destruct (_ && _). Qed.

#[local] Instance rotating_sink_logged : Gate.LoggedSink (Sink W File).
Proof.
  refine (@Gate.Build_LoggedSink (Sink W File) rotating_sink accepted _). intros r k. unfold Gate.record, rotating_sink.
  pose proof (record_accepted r k) as Ha. destruct (record queue_depth r k) as [k' recorded]. by destruct Ha.
Defined.

(** [record] is a producer's two steps, or the first where the latch is set. *)
Lemma record_run r k : sender k = true -> exists es, run es k = Some (fst (record queue_depth r k)).
Proof.
  intros Hs. unfold record. destruct (enter r k) as [k1 [[]|e]] eqn:E.
  - exists [EEnter r; ESend (length (racing k1) - 1)]. cbn [AuditWriter.run AuditWriter.exec]. rewrite Hs, E. cbn [fst].
    assert (racing k1 !! (length (racing k1) - 1)%nat = Some r) as ->; [|done].
    unfold enter in E. destruct (degraded k); [done|]. injection E as <-. cbn. rewrite length_app. cbn.
    rewrite lookup_app_r by lia. by replace (length (racing k) + 1 - 1 - length (racing k))%nat with O by lia.
  - exists [EEnter r]. cbn [AuditWriter.run AuditWriter.exec]. by rewrite Hs, E.
Qed.

(** Requests at the gates, and the writer's thread in between. *)
Inductive Step := SGate (t : string) (call : Gate.Call) | SRecv | SWrite | STick.

Context {Self St : Type} `{Policy.Authorizer Self St} `{Identity.Base64}.
Variable self : Self.

Definition writer_event (s : Step) : option Event :=
  match s with SGate _ _ => None | SRecv => Some ERecv | SWrite => Some EWrite | STick => Some ETick end.

Fixpoint serve (steps : list Step) (w : St * Sink W File) : option ((St * Sink W File) * list Gate.Call) :=
  match steps with
  | [] => Some (w, [])
  | s :: steps =>
      match s, writer_event s with
      | SGate t call, _ =>
          let '(w, a) := Gate.ask self t call w in
          match serve steps w with
          | Some (w, passed) => Some (w, if Gate.passed a then call :: passed else passed)
          | None => None
          end
      | _, Some e =>
          match exec active_path max_bytes retain queue_depth to_vec e (snd w) with
          | Some k => serve steps (fst w, k)
          | None => None
          end
      | _, None => None
      end
  end.

Lemma ask_record t call (w : St * Sink W File) :
  exists r, snd (fst (Gate.ask self t call w)) = fst (record queue_depth r (snd w)).
Proof.
  assert (Hrec : forall r (k : Sink W File), fst (Gate.record r k) = fst (record queue_depth r k)).
  { intros r k. unfold Gate.record, rotating_sink. by destruct (record queue_depth r k). }
  destruct w as [st k]. destruct call as [c act res|c rid act res|c rid act res|c rid act id found|o q]; cbn [Gate.ask];
    unfold Gate.authorize_stream, Gate.authorize, Gate.authorize_session_control, Gate.check_punch;
    [..|destruct found; cbn [Gate.require_opener]|]; unfold Gate.authorize_owned;
    try (destruct (Policy.check self _ _ _ st) as [st' v]);
    (match goal with |- context [Gate.record ?r k] => exists r; cbn [snd]; rewrite <- (Hrec r k); by destruct (Gate.record r k) end).
Qed.

Lemma run_app es es' k k' k'' : run es k = Some k' -> run es' k' = Some k'' -> run (es ++ es') k = Some k''.
Proof.
  revert k. induction es as [|e es IH]; intros k; cbn [AuditWriter.run app]; [by intros [= <-]|].
  destruct (AuditWriter.exec _ _ _ _ _ e k); [apply IH|done].
Qed.

Lemma writer_accepted s e k k' :
  writer_event s = Some e -> exec active_path max_bytes retain queue_depth to_vec e k = Some k' ->
  accepted k' = accepted k /\ sender k' = sender k.
Proof.
  destruct s; cbn [writer_event]; intros [= <-]; cbn [exec].
  - destruct (at_head k), (queue k); try done. case_bool_decide; by intros [= <-].
  - destruct (hand k) as [r|]; [|done]. destruct (handle_normal _ _ _ _ r _ _ _) as [[s latch] todo]. by intros [= <-].
  - destruct (_ && _); [|done]. unfold after_flush. destruct (try_flush_pending _ _ _ _ _ _ _) as [[s latch] rest]. by intros [= <-].
Qed.

(** A service is a run of the sink whose accepted allow lines are the requests
    that passed. *)
Lemma serve_run steps (w w' : St * Sink W File) passed :
  serve steps w = Some (w', passed) -> sender (snd w) = true ->
  (exists es, run es (snd w) = Some (snd w'))
  /\ Gate.allow_lines (accepted (snd w')) = Gate.allow_lines (accepted (snd w)) ++ (Gate.subject <$> passed).
Proof.
  revert w passed. induction steps as [|s steps IH]; intros w passed; cbn [serve].
  { intros [= <- <-] _. split; [by exists []|by rewrite app_nil_r]. }
  assert (Hwriter : forall e, writer_event s = Some e ->
    match exec active_path max_bytes retain queue_depth to_vec e (snd w) with Some k => serve steps (fst w, k) | None => None end = Some (w', passed) ->
    sender (snd w) = true ->
    (exists es, run es (snd w) = Some (snd w'))
    /\ Gate.allow_lines (accepted (snd w')) = Gate.allow_lines (accepted (snd w)) ++ (Gate.subject <$> passed)).
  { intros e He. destruct (exec _ _ _ _ _ e (snd w)) as [k|] eqn:E; [|done]. intros Hr Hs.
    destruct (writer_accepted _ _ _ _ He E) as [Ha Hs']. destruct (IH (fst w, k) passed Hr) as [[es Hes] Hl]; [cbn; congruence|].
    split; [exists (e :: es); cbn [AuditWriter.run]; by rewrite E|]. rewrite Hl. cbn [snd]. by rewrite Ha. }
  destruct s as [t call| | |]; [|by apply Hwriter..]. cbn [writer_event].
  pose proof (Gate.ask_line self t call w) as Hl. destruct (ask_record t call w) as [r Hr].
  destruct (Gate.ask self t call w) as [w1 a]. cbn [fst] in Hr. destruct (serve steps w1) as [[w2 passed2]|] eqn:E2; [|done].
  intros [= -> <-] Hs. destruct (record_run r (snd w) Hs) as [es1 Hes1]. rewrite <- Hr in Hes1.
  pose proof (record_accepted r (snd w)) as Hra. destruct (record queue_depth r (snd w)) as [k1 rec]. cbn [fst] in Hr. destruct Hra as [_ Hs1].
  destruct (IH w1 passed2 E2) as [[es Hes] Hl2]; [by rewrite Hr, Hs1|]. split; [exists (es1 ++ es); by eapply run_app|].
  rewrite Hl2. change (@accepted W File) with (@Gate.logged _ _ rotating_sink_logged) in *. rewrite Hl, <- app_assoc. by destruct (Gate.passed a).
Qed.
End Gates.

(** ** What the sink accepted is in the log *)

Section Logged.
Context {W File : Type} `{LogLaws W File}.
Variables (active_path : string) (max_bytes retain queue_depth : N).
Variable to_vec : AuditRecord -> option (list byte).
Implicit Types k : Sink W File.

Hypothesis active_mine : mine active_path.
Hypothesis rotated_mine : forall n, mine (rotated_path active_path n).
Hypothesis retain_pos : 0 < retain.
Hypothesis retain_max : retain < u32_max.

Abbreviation exec := (exec active_path max_bytes retain queue_depth to_vec).
Abbreviation run := (run active_path max_bytes retain queue_depth to_vec).
Abbreviation lines := (lines to_vec).
Abbreviation oldest := (oldest retain).

(** With [strict], files that are there can be renamed. *)
Section Either.
Variable strict : bool.
Variable wide : N.
Hypothesis reliable : strict = true -> forall p q, law (rename p q) (fun w r _ => is_Some (content w p) -> r = Ok tt).
Abbreviation Keeps := (Keeps active_path max_bytes retain wide strict).
Abbreviation Limited := (Limited max_bytes retain wide strict).

(** The line of a record has at most [wide] bytes. *)
Definition narrow (r : AuditRecord) : Prop := forall line, encode to_vec r = Some line -> len line <= wide.

(** The log's files hold the lines [L], whole. *)
Definition Starts (L : list (list byte)) (w : W) : Prop :=
  Forall (fun l => l <> []) L /\ exists seg, L = trail oldest seg /\ Holds active_path retain w seg /\ Limited [] seg.

(** [L] was there before; the lines of [written] have been added. *)
Definition Logged (L : list (list byte)) k : Prop :=
  exists written, Keeps (L ++ lines written) (disk k) /\ accepted k = written ++ waiting k.

Lemma write_one L r line (s s' : RotatingFile W File) a :
  encode to_vec r = Some line -> write_line active_path max_bytes retain line s = (s', a) -> steady (os s') ->
  steady (os s) /\ (narrow r -> Keeps L s -> match a with Ok _ => Keeps (L ++ [line]) s' | Err _ => Keeps L s' end).
Proof.
  intros He Hw Hok. pose proof (encode_not_nil _ _ _ He) as Hl. split.
  - by apply (write_line_spec active_path max_bytes retain (len line) false) with (L := L) in Hw as [? _].
  - intros Hn. apply (write_line_spec active_path max_bytes retain wide strict) with (L := L) in Hw; auto. by apply Hw.
Qed.

Lemma flush_logged todo L (s s' : RotatingFile W File) latch latch' rest :
  try_flush_pending active_path max_bytes retain to_vec todo s latch = (s', latch', rest) -> steady (os s') ->
  steady (os s) /\ (Forall narrow todo -> Keeps L s -> exists done, todo = done ++ rest /\ Keeps (L ++ lines done) s').
Proof.
  revert L s. induction todo as [|r todo IH]; intros L s; cbn [try_flush_pending].
  { intros [= <- <- <-] Hok. split; [done|]. intros _ HK. exists []. split; [done|]. by rewrite app_nil_r. }
  assert (Hcons : forall done, lines (r :: done) = option_list (encode to_vec r) ++ lines done).
  { intros done. change (r :: done) with ([r] ++ done). by rewrite lines_app, lines_one. }
  destruct (encode to_vec r) as [line|] eqn:Er.
  - destruct (write_line _ _ _ line s) as [s1 [[]|e]] eqn:Ew; intros E Hok.
    + destruct (IH (L ++ [line]) s1 E Hok) as [Hs1 HQ]. destruct (write_one L _ _ _ _ _ Er Ew Hs1) as [Hs HW]. split; [done|].
      intros [Hr Hn]%Forall_cons HK. destruct (HQ Hn (HW Hr HK)) as (done & -> & HK'). exists (r :: done). split; [done|].
      rewrite Hcons. by rewrite <- app_assoc in HK'.
    + injection E as <- <- <-. destruct (write_one L _ _ _ _ _ Er Ew Hok) as [Hs HW]. split; [done|]. intros [Hr _]%Forall_cons HK. exists [].
      split; [done|]. rewrite app_nil_r. auto.
  - intros E Hok. destruct (IH L s E Hok) as [Hs HQ]. split; [done|]. intros [_ Hn]%Forall_cons HK. destruct (HQ Hn HK) as (done & -> & HK').
    exists (r :: done). split; [done|]. by rewrite Hcons.
Qed.

Lemma logged_flush L k done :
  hand k = None -> queue k = [] ->
  let k' := after_flush active_path max_bytes retain to_vec done k in
  steady (os (disk k')) -> steady (os (disk k)) /\ (Forall narrow (accepted k) -> Logged L k -> Logged L k').
Proof.
  intros Hh Hq. unfold after_flush. destruct (try_flush_pending _ _ _ _ _ _ _) as [[s latch] rest] eqn:E. cbn. intros Hok.
  split; [by destruct (flush_logged _ [] _ _ _ _ _ E Hok)|]. intros Hn (written & HK & Ha).
  assert (Hp : Forall narrow (pending k)) by (rewrite Ha in Hn; unfold waiting in Hn; rewrite !Forall_app in Hn; naive_solver).
  destruct (flush_logged _ (L ++ lines written) _ _ _ _ _ E Hok) as [_ HQ]. destruct (HQ Hp HK) as (more & Hl & HK').
  exists (written ++ more). cbn. rewrite lines_app, app_assoc. split; [done|]. rewrite Ha. unfold waiting. cbn. rewrite Hh, Hq. cbn.
  by rewrite !app_nil_r, Hl, app_assoc.
Qed.

Lemma accepted_grows e k k' : exec e k = Some k' -> accepted k `prefix_of` accepted k'.
Proof.
  destruct e as [r|i| | | | |]; cbn [AuditWriter.exec]; intros E.
  - destruct (sender k); [|done]. injection E as <-. unfold enter. by destruct (degraded k).
  - destruct (racing k !! i) as [r|]; [|done]. injection E as <-. unfold send. destruct (_ && _); cbn; [by apply prefix_app_r|done].
  - destruct (_ && _); [|done]. by injection E as <-.
  - destruct (at_head k); [|done]. destruct (queue k); [done|]. injection E as <-. by case_bool_decide.
  - destruct (hand k) as [r|]; [|done]. destruct (handle_normal _ _ _ _ r _ _ _) as [[s latch] todo]. by injection E as <-.
  - destruct (_ && _); [|done]. injection E as <-. unfold after_flush. by destruct (try_flush_pending _ _ _ _ _ _ _) as [[s latch] rest].
  - destruct (_ && _); [|done]. case_bool_decide; injection E as <-; [done|]. unfold after_flush.
    by destruct (try_flush_pending _ _ _ _ _ _ _) as [[s latch] rest].
Qed.

Lemma accepted_run es k k' : run es k = Some k' -> accepted k `prefix_of` accepted k'.
Proof.
  revert k. induction es as [|e es IH]; intros k; cbn [AuditWriter.run]; [by intros [= <-]|].
  destruct (exec e k) as [k1|] eqn:E; [|done]. intros Hr. etrans; [by eapply accepted_grows|by apply IH].
Qed.

Lemma logged_exec L e k k' :
  exec e k = Some k' -> Shape queue_depth k -> steady (os (disk k')) ->
  steady (os (disk k)) /\ (Forall narrow (accepted k) -> Logged L k -> Logged L k').
Proof.
  intros E HS. pose proof (shape_hand _ _ HS) as Hh. destruct e as [r|i| | | | |]; cbn [AuditWriter.exec] in E.
  - destruct (sender k); [|done]. injection E as <-. unfold enter. by destruct (degraded k).
  - destruct (racing k !! i) as [r|]; [|done]. injection E as <-. unfold send. destruct (_ && _); [|done]. cbn. intros Hok.
    split; [done|]. intros _ (written & HK & Ha). exists written. cbn. split; [done|]. unfold waiting in *. cbn.
    by rewrite Ha, <- !app_assoc.
  - destruct (_ && _); [|done]. by injection E as <-.
  - destruct (at_head k) eqn:Eat; [|done]. destruct (queue k) as [|r q] eqn:Eq; [done|]. injection E as <-.
    unfold at_head in Eat. bools. assert (Hn : hand k = None) by (by apply eq_None_not_Some).
    case_bool_decide as Ep; intros Hok; (split; [done|]); intros _ (written & HK & Ha); exists written; (split; [done|]);
      unfold waiting in *; cbn; rewrite Ha, Hn, Eq, ?Ep; cbn; [done|]. by rewrite <- app_assoc.
  - destruct (hand k) as [r|] eqn:Eh; [|done]. assert (Hp : pending k = []) by (apply Hh; by eexists).
    assert (Hw : waiting k = r :: queue k) by (unfold waiting; by rewrite Hp, Eh).
    unfold handle_normal in E. rewrite Hp in *. pose proof (lines_one to_vec r) as H1l. destruct (encode to_vec r) as [line|] eqn:Er.
    + destruct (write_line _ _ _ line (disk k)) as [s' [[]|e]] eqn:Ew; injection E as <-; cbn [disk]; intros Hok;
        (split; [by destruct (write_one L _ _ _ _ _ Er Ew Hok)|]); intros Hn (written & HK & Ha); rewrite Hw in Ha;
        (assert (Hr : narrow r) by (rewrite Ha in Hn; rewrite Forall_app, Forall_cons in Hn; tauto)).
      * exists (written ++ [r]). rewrite lines_app, H1l, app_assoc. split; [by apply (write_one _ _ _ _ _ _ Er Ew Hok)|].
        cbn [accepted]. rewrite Ha. by rewrite <- app_assoc.
      * exists written. split; [by apply (write_one _ _ _ _ _ _ Er Ew Hok)|]. cbn [accepted]. by rewrite Ha.
    + injection E as <-. intros Hok. split; [done|]. intros _ (written & HK & Ha). rewrite Hw in Ha. exists (written ++ [r]).
      rewrite lines_app, H1l. cbn [option_list accepted disk]. rewrite app_nil_r. split; [done|]. by rewrite Ha, <- app_assoc.
  - destruct (_ && _) eqn:Eq; [|done]. injection E as <-. unfold at_head in Eq. bools. apply logged_flush; [|done].
    by apply eq_None_not_Some.
  - destruct (_ && _) eqn:Eq; [|done]. unfold at_head in Eq. bools. assert (Hn : hand k = None) by (by apply eq_None_not_Some).
    case_bool_decide as Ep; injection E as <-; [|by apply logged_flush]. intros Hok. split; [done|].
    unfold Logged, waiting. cbn. rewrite Ep, Hn. by destruct (queue k).
Qed.

Lemma logged_run L es k k' :
  run es k = Some k' -> Shape queue_depth k -> steady (os (disk k')) ->
  steady (os (disk k)) /\ (Forall narrow (accepted k') -> Logged L k -> Logged L k').
Proof.
  revert k. induction es as [|e es IH]; intros k; cbn [AuditWriter.run]; [by intros [= <-]|].
  destruct (exec e k) as [k1|] eqn:E; [|done]. intros Hr HS Hok.
  destruct (IH k1 Hr (shape_exec _ _ _ _ _ _ _ _ E HS) Hok) as [Hs1 H1'].
  destruct (logged_exec L _ _ _ E HS Hs1) as [Hs HL]. split; [done|]. intros Hn Hlog. apply (H1' Hn), HL; [|done].
  destruct (accepted_grows _ _ _ E) as [more1 Hm1]. destruct (accepted_run _ _ _ Hr) as [more2 Hm2].
  rewrite Hm2, Hm1, !Forall_app in Hn. tauto.
Qed.

Lemma starts_kept L w : Starts L w -> Kept active_path max_bytes retain wide strict L w.
Proof. intros [Hne (seg & HL & Hh & HB)]. split; [done|]. by exists [], seg. Qed.

Lemma logged_spawn L w : Starts L w -> Logged L (spawn w).
Proof. intros HK%starts_kept. exists []. rewrite app_nil_r. split; [|done]. by split. Qed.

Lemma starts_empty w : (forall n, content w (slot active_path n) = None) -> Starts [] w.
Proof.
  intros Hempty. split; [done|]. exists (fun _ => []). split_and!; [by rewrite trail_nil| |].
  - intros n _. unfold bytes_at. by rewrite Hempty.
  - unfold AuditDurable.Limited. case strict; [|by left]. split_and!; [|done|done|by left]. intros n _. left. apply N.le_0_l.
Qed.

Lemma logged_files L es w k :
  run es (spawn w) = Some k -> Starts L w -> steady (os (disk k)) -> Forall narrow (accepted k) ->
  exists written gone seg, accepted k = written ++ waiting k /\ L ++ lines written = gone ++ trail oldest seg
    /\ Holds active_path retain (os (disk k)) seg /\ Limited gone seg.
Proof.
  intros Hr HK Hok Hn. destruct (logged_run L _ _ _ Hr (shape_spawn _ w) Hok) as [_ HL].
  destruct (HL Hn (logged_spawn _ _ HK)) as (written & [[_ (gone & seg & Hg & Hh & HB)] _] & Ha). by exists written, gone, seg.
Qed.
End Either.


End Logged.
End AuditService.
