(* ===== verification/AuditDisk.v ===== *)
(** * A disk that can fill up

    A concrete file system for the class [LogOs] of [AuditWriter]: numbered
    files of which each has at most one name, a number of bytes that are left,
    and names that cannot be renamed.  It satisfies [LogLaws]; on it, the
    properties of the audit log are applied to concrete runs. *)

From S2P Require Import Prelude Text FsPath FileGuard Identity AuditLog Acl Policy Gate HostOs AuditWriter AuditDurable AuditService.

Module AuditDisk.
Import Text FsPath Audit HostOs AuditWriter AuditDurable AuditService.

Record Disk := mkDisk { inodes : list (option string * list byte); room : N; pinned : list string }.

(** The file a name refers to, and its bytes. *)
Fixpoint look (p : string) (l : list (option string * list byte)) : option (nat * list byte) :=
  match l with
  | [] => None
  | (n, c) :: l => if bool_decide (n = Some p) then Some (O, c) else (fun '(i, c) => (S i, c)) <$> look p l
  end.

Definition edit (i : nat) (g : list byte -> list byte) (l : list (option string * list byte)) :=
  alter (fun '(n, c) => (n, g c)) i l.
Definition retag (h : option string -> option string) (l : list (option string * list byte)) :=
  (fun '(n, c) => (h n, c)) <$> l.
Definition unnamed (p : string) (n : option string) : option string := if bool_decide (n = Some p) then None else n.
Definition renamed (p q : string) (n : option string) : option string :=
  if bool_decide (n = Some p) then Some q else unnamed q n.

Lemma look_edit p i g l :
  look p (edit i g l) = (fun '(j, c) => (j, if decide (j = i) then g c else c)) <$> look p l.
Proof.
  revert i. induction l as [|[n c] l IH]; intros i; [done|]. destruct i as [|i]; cbn.
  - case_bool_decide; cbn; [done|]. destruct (look p l) as [[j d]|]; by cbn; rewrite ?decide_False by lia.
  - case_bool_decide; cbn; [done|]. change (alter _ i l) with (edit i g l). rewrite IH.
    destruct (look p l) as [[j d]|]; cbn; [|done]. repeat case_decide; (done || lia).
Qed.

Lemma look_snoc p l n c :
  look p (l ++ [(n, c)])
  = match look p l with Some x => Some x | None => if bool_decide (n = Some p) then Some (length l, c) else None end.
Proof.
  induction l as [|[m d] l IH]; cbn; [done|]. destruct (bool_decide (m = Some p)); [done|]. rewrite IH.
  destruct (look p l) as [[j e]|]; cbn; [done|]. by destruct (bool_decide _).
Qed.

Lemma look_retag p p' h l :
  (forall n, h n = Some p' <-> n = Some p) -> look p' (retag h l) = look p l.
Proof.
  intros Hh. unfold retag. induction l as [|[n c] l IH]; [done|]. rewrite fmap_cons. cbn [look]. rewrite IH.
  by rewrite (bool_decide_ext _ _ (Hh n)).
Qed.

Lemma look_retag_none p h l : (forall n, h n <> Some p) -> look p (retag h l) = None.
Proof.
  intros Hh. unfold retag. induction l as [|[n c] l IH]; [done|]. rewrite fmap_cons. cbn [look].
  rewrite bool_decide_false by apply Hh. by rewrite IH.
Qed.

Lemma look_index p l i c : look p l = Some (i, c) -> l !! i = Some (Some p, c).
Proof.
  revert i. induction l as [|[n d] l IH]; intros i; cbn; [done|]. case_bool_decide as E; [by intros [= <- <-]; subst|].
  destruct (look p l) as [[j e]|]; cbn; [|done]. intros [= <- <-]. by apply IH.
Qed.

(** ** The calls *)

Definition no_entry : IoError := Raw ENOENT.
Definition stat_of (i : nat) (c : list byte) : RawStat := mkRaw 33152 (Z.of_N (len c)) 0 0 (N.of_nat i).

#[export] Instance disk_os : LogOs Disk nat := {|
  path_exists p d := (d, bool_decide (is_Some (look p (inodes d))));
  mkdir_all _ d := (d, Ok tt);
  open_append p d :=
    match look p (inodes d) with
    | Some (i, _) => (d, Ok i)
    | None => (mkDisk (inodes d ++ [(Some p, [])]) (room d) (pinned d), Ok (length (inodes d)))
    end;
  open_create p d :=
    match look p (inodes d) with
    | Some (i, _) => (d, Ok i)
    | None => (mkDisk (inodes d ++ [(Some p, [])]) (room d) (pinned d), Ok (length (inodes d)))
    end;
  open_write p d := (d, match look p (inodes d) with Some (i, _) => Ok i | None => Err no_entry end);
  file_metadata i d := (d, match inodes d !! i with Some (_, c) => Ok (stat_of i c) | None => Err no_entry end);
  path_metadata p d := (d, match look p (inodes d) with Some (i, c) => Ok (stat_of i c) | None => Err no_entry end);
  write_all i l d :=
    if len l <=? room d then (mkDisk (edit i (fun c => c ++ l) (inodes d)) (room d - len l) (pinned d), Ok tt)
    else (mkDisk (edit i (fun c => c ++ takeN (room d) l) (inodes d)) 0 (pinned d), Err (Raw ENOSPC));
  set_len i n d := (mkDisk (edit i (resize n) (inodes d)) (room d) (pinned d), Ok tt);
  remove_file p d :=
    match look p (inodes d) with
    | Some _ => (mkDisk (retag (unnamed p) (inodes d)) (room d) (pinned d), Ok tt)
    | None => (d, Err no_entry)
    end;
  rename p q d :=
    if bool_decide (p ∈ pinned d) then (d, Err (Raw EPERM))
    else match look p (inodes d) with
         | Some _ => (mkDisk (retag (renamed p q) (inodes d)) (room d) (pinned d), Ok tt)
         | None => (d, Err no_entry)
         end;
  flock_ex _ d := (d, Ok tt);
  flock_un _ d := (d, Ok tt);
|}.

#[export] Instance disk_view : LogView Disk nat := {|
  content d p := snd <$> look p (inodes d);
  opened d i p := exists c, look p (inodes d) = Some (i, c);
  identity i := (0, N.of_nat i);
  mine _ := True;
  steady d := pinned d = [];
|}.

Lemma look_agree (d d' : Disk) p : look p (inodes d') = look p (inodes d) -> agree d d' p.
Proof. intros E. unfold agree. cbn. rewrite E. by split. Qed.

Lemma same_disk (d : Disk) : same d d.
Proof. intros p _. apply agree_refl. Qed.

Lemma edit_laws i g (d : Disk) rm p c :
  look p (inodes d) = Some (i, c) ->
  let d' := mkDisk (edit i g (inodes d)) rm (pinned d) in
  except p d d' /\ (forall j, opened d j p -> opened d' j p) /\ content d' p = Some (g c).
Proof.
  intros E. cbn. split_and!.
  - intros q _ Hne. apply look_agree. cbn. rewrite look_edit. destruct (look q (inodes d)) as [[j e]|] eqn:Eq; [|done].
    cbn. rewrite decide_False; [done|]. intros ->. apply look_index in E, Eq. congruence.
  - intros j [e Ej]. rewrite E in Ej. injection Ej as <- <-. exists (g c). rewrite look_edit, E. cbn. by rewrite decide_True.
  - rewrite look_edit, E. cbn. by rewrite decide_True.
Qed.

Lemma create_laws p (d : Disk) :
  look p (inodes d) = None ->
  let d' := mkDisk (inodes d ++ [(Some p, [])]) (room d) (pinned d) in
  except p d d' /\ look p (inodes d') = Some (length (inodes d), []).
Proof.
  intros E. cbn. split.
  - intros q _ Hne. apply look_agree. cbn. rewrite look_snoc. destruct (look q (inodes d)); [done|]. rewrite bool_decide_false; [done|]. congruence.
  - rewrite look_snoc, E. by rewrite bool_decide_true.
Qed.

#[export] Instance disk_laws : LogLaws Disk nat.
Proof.
  split; unfold law; cbn; intros.
  - destruct H0 as [c E]. rewrite E. by eexists.
  - simplify_eq. split; [done|]. split; [apply same_disk|]. intros _. apply bool_decide_ext. by rewrite fmap_is_Some.
  - simplify_eq. split; [done|apply same_disk].
  - destruct (look p (inodes w)) as [[i c]|] eqn:E; simplify_eq; (split; [done|]).
    + split; [by intros q _ _; apply agree_refl|]. split; [by exists c|]. unfold bytes_at. cbn. by rewrite E.
    + destruct (create_laws p w E) as [He Hl]. cbn in *. split; [done|]. split; [by eexists|]. unfold bytes_at. cbn. by rewrite Hl.
  - destruct (look p (inodes w)) as [[i c]|] eqn:E; simplify_eq; (split; [done|]).
    + by intros q _ _; apply agree_refl.
    + by destruct (create_laws p w E) as [He _].
  - simplify_eq. split; [done|]. split; [apply same_disk|]. destruct (look p _) as [[i c]|] eqn:E; [by exists c|done].
  - simplify_eq. split; [done|]. split; [apply same_disk|]. intros st Hst. destruct (inodes w' !! f) as [[n c]|] eqn:E; [|done].
    injection Hst as <-. split; [done|]. intros p _ [d Ed]. pose proof (look_index _ _ _ _ Ed) as Ei. unfold bytes_at. cbn. rewrite Ed. cbn.
    rewrite E in Ei. by injection Ei as -> ->.
  - simplify_eq. split; [done|]. split; [apply same_disk|]. intros st f _ Hst [d Ed]. rewrite Ed in Hst. by injection Hst as <-.
  - destruct (len l <=? room w) eqn:El; simplify_eq; (split; [done|]); intros p _ [c E].
    + destruct (edit_laws f (fun c => c ++ l) w (room w - len l) p c E) as (He & Ho & Hc). split_and!; [done..|]. cbn in *. unfold bytes_at. cbn. by rewrite Hc, E.
    + destruct (edit_laws f (fun c => c ++ takeN (room w) l) w 0 p c E) as (He & Ho & Hc). split_and!; [done..|].
      exists (takeN (room w) l). split; [exists (dropN (room w) l); by rewrite takeN_dropN|]. cbn in *. unfold bytes_at. cbn. by rewrite Hc, E.
  - simplify_eq. split; [done|]. intros p _ [c E].
    destruct (edit_laws f (resize n) w (room w) p c E) as (He & Ho & Hc). split_and!; [done..|]. cbn in *. unfold bytes_at. cbn. by rewrite Hc, E.
  - destruct (look p (inodes w)) as [[i c]|] eqn:E; simplify_eq; (split; [done|]).
    + split.
      * intros q _ Hne. apply look_agree. cbn. apply look_retag. intros n. unfold unnamed. case_bool_decide; naive_solver.
      * cbn. rewrite look_retag_none; [done|]. intros n. unfold unnamed. case_bool_decide; naive_solver.
    + split; [by intros q _ _; apply agree_refl|apply agree_refl].
  - case_bool_decide as Ep; [simplify_eq; split; [done|]; apply same_disk|].
    destruct (look p (inodes w)) as [[i c]|] eqn:E; simplify_eq; (split; [done|]); [|apply same_disk]. split_and!.
    + intros x _ Hp Hq. apply look_agree. cbn. apply look_retag. intros n. unfold renamed, unnamed. repeat case_bool_decide; naive_solver.
    + by eexists.
    + cbn. rewrite look_retag_none; [done|]. intros n. unfold renamed, unnamed. repeat case_bool_decide; naive_solver.
    + cbn. rewrite (look_retag p q); [by rewrite ?E|]. intros n. unfold renamed, unnamed. repeat case_bool_decide; naive_solver.
  - simplify_eq. split; [done|apply same_disk].
  - simplify_eq. split; [done|apply same_disk].
Qed.

Lemma all_mine p : @mine Disk nat disk_view p.
Proof. exact I. Qed.

(** Where nothing is pinned, what is there can be renamed. *)
Lemma disk_reliable p q : law (rename p q) (fun (w : Disk) r _ => is_Some (content w p) -> r = Ok tt).
Proof.
  intros w w' r E Hs. cbn in *. case_bool_decide as Ep.
  - simplify_eq. split; [done|]. by rewrite Hs in Ep; apply elem_of_nil in Ep.
  - destruct (look p (inodes w)) as [[i c]|]; simplify_eq; (split; [done|]); [done|]. by intros [].
Qed.

(** ** Runs on the disk *)

(** Records told apart by their resource, which stands for their JSON. *)
Definition rec (resource : string) : AuditRecord := handshake_rejected "t" "192.0.2.7:4433" resource.
Definition text (r : AuditRecord) : option (list byte) := Some (String.list_byte_of_string (resource r)).
Definition line_of (resource : string) : list byte := String.list_byte_of_string resource ++ [newline].

Definition blank (room : N) : Disk := mkDisk [] room [].

(** Two records are sent; the disk has room for the first and one byte of the
    second. *)
Definition demo_events : list Event :=
  [EEnter (rec "a"); ESend 0; ERecv; EWrite; EEnter (rec "b"); ESend 0; ERecv; EWrite].
Definition end_of (max_bytes : N) (es : list Event) (d : Disk) : Sink Disk nat :=
  default (spawn d) (run "/l" max_bytes 2 8 text es (spawn d)).
Definition demo_sink : Sink Disk nat := Eval vm_compute in end_of 100 demo_events (blank 3).

Lemma demo_runs : run "/l" 100 2 8 text demo_events (spawn (blank 3)) = Some demo_sink.
Proof. by vm_compute. Qed.

Lemma blank_starts max_bytes strict wide room : Starts "/l" max_bytes 2 strict wide [] (blank room).
Proof. by apply starts_empty. Qed.

(** Four records, with room for one in a file and two rotated files. *)
Definition send_write (c : string) : list Event := [EEnter (rec c); ESend 0; ERecv; EWrite].
Definition rotated_events : list Event := send_write "a" ++ send_write "b" ++ send_write "c" ++ send_write "d".
Definition rotated_sink : Sink Disk nat := Eval vm_compute in end_of 3 rotated_events (blank 100).

Lemma rotated_runs : run "/l" 3 2 8 text rotated_events (spawn (blank 100)) = Some rotated_sink.
Proof. by vm_compute. Qed.

Lemma narrow_rec wide c : (len (line_of c) <=? wide) = true -> narrow text wide (rec c).
Proof. intros Hw line. unfold encode, text. cbn. intros [= <-]. by apply N.leb_le. Qed.


Lemma demo_runs_within : run_within "/l" 100 2 8 text 2 demo_events (spawn (blank 3)) = Some demo_sink.
Proof. by vm_compute. Qed.

Lemma waiting_bounded_witness : (length (waiting demo_sink) <= S (N.to_nat (depth 8)) + 2)%nat.
Proof. exact (waiting_bounded "/l" 100 2 8 text 2 demo_events (blank 3) demo_sink demo_runs_within). Defined.

(** The sink is dropped while a record waits: the last flush fails again and
    the thread returns. *)
Definition dropped_sink : Sink Disk nat := Eval vm_compute in end_of 100 (demo_events ++ [EDrop]) (blank 3).
Definition stopped_sink : Sink Disk nat := Eval vm_compute in end_of 100 (demo_events ++ [EDrop; EHangUp]) (blank 3).

Lemma dropped_runs :
  run "/l" 100 2 8 text (demo_events ++ [EDrop]) (spawn (blank 3)) = Some dropped_sink
  /\ run "/l" 100 2 8 text [EHangUp] dropped_sink = Some stopped_sink.
Proof. by vm_compute. Qed.

Lemma shutdown_terminates_witness :
  finished stopped_sink = true /\ pending stopped_sink = [rec "b"]
  /\ (1 <= 2 * length (queue dropped_sink) + 2)%nat /\ waiting stopped_sink = pending stopped_sink.
Proof.
  split; [by vm_compute|]. split; [by vm_compute|].
  destruct (shutdown_terminates "/l" 100 2 8 text _ [EHangUp] (blank 3) dropped_sink stopped_sink (proj1 dropped_runs) eq_refl
              (proj2 dropped_runs)) as (Hlen & _ & Hw).
  exact (conj Hlen (Hw eq_refl)).
Defined.

(** One request is let through and its record written. *)
#[local] Existing Instance Identity.letters_base64.
Definition demo_call : Gate.Call := Gate.CAuthorize (Gate.mkCtx (Identity.Device "laptop") Identity.Pin None "192.0.2.1:4433") 7 Acl.ExecRun "exec".
Definition demo_steps : list Step := [SGate "t" demo_call; SRecv; SWrite].
Definition served_sink : Sink Disk nat := Eval vm_compute in
  match serve "/l" 100 2 8 text Policy.mkAllowAllPinned demo_steps (tt, spawn (blank 100)) with
  | Some (w, _) => snd w
  | None => spawn (blank 100)
  end.

Lemma served_runs :
  serve "/l" 100 2 8 text Policy.mkAllowAllPinned demo_steps (tt, spawn (blank 100)) = Some ((tt, served_sink), [demo_call]).
Proof. by vm_compute. Qed.


(** ** Two ways to lose lines *)

Fixpoint write_lines (max retain : N) (ls : list string) (s : RotatingFile Disk nat) : RotatingFile Disk nat * list bool :=
  match ls with
  | [] => (s, [])
  | l :: ls =>
      let '(s, r) := write_line "/l" max retain (line_of l) s in
      let '(s, rs) := write_lines max retain ls s in
      (s, is_ok r :: rs)
  end.

(** From now on the active file cannot be renamed. *)
Definition pin (p : string) (s : RotatingFile Disk nat) : RotatingFile Disk nat :=
  mkFile (mkDisk (inodes (os s)) (room (os s)) [p]) (file s) (bytes_written s) (rotation_degraded s).

Definition full_log : RotatingFile Disk nat := fst (write_lines 2 2 ["a"; "b"; "c"]%string (new_file (blank 100))).

(** A rotation that fails is not merely skipped: each attempt removes the
    oldest file and moves the others up before it fails on the active file.
    With the active file pinned, two more records, both written successfully,
    erase both rotated files, although nothing new was rotated. *)
Theorem failed_rotation_erases :
  let '(s, results) := write_lines 2 2 ["d"; "e"]%string (pin "/l" full_log) in
  (content (os full_log) "/l.2", content (os full_log) "/l.1", content (os full_log) "/l")
  = (Some (line_of "a"), Some (line_of "b"), Some (line_of "c"))
  /\ results = [true; true]
  /\ (content (os s) "/l.2", content (os s) "/l.1", content (os s) "/l")
     = (None, None, Some (line_of "c" ++ line_of "d" ++ line_of "e")).
Proof. by vm_compute. Qed.

(** Two writers take turns on one disk. *)
Definition hand_over (s s' : RotatingFile Disk nat) : RotatingFile Disk nat :=
  mkFile (os s) (file s') (bytes_written s') (rotation_degraded s').

(** A write that fails in one process cuts off what another process has
    written: the repair truncates to the length the failing writer knows, which
    does not count the other's lines.  Here the first writer writes [a], the
    second [b], both successfully; the first fails to write [c] on the full
    disk, and afterwards [b] is gone. *)
Theorem repair_cuts_other_writer :
  let '(first, ok1) := write_line "/l" 100 2 (line_of "a") (new_file (blank 5)) in
  let '(second, ok2) := write_line "/l" 100 2 (line_of "b") (hand_over first (new_file (blank 5))) in
  let '(first, ok3) := write_line "/l" 100 2 (line_of "c") (hand_over second first) in
  ok1 = Ok tt /\ ok2 = Ok tt /\ content (os second) "/l" = Some (line_of "a" ++ line_of "b")
  /\ ok3 = Err (Raw ENOSPC) /\ content (os first) "/l" = Some (line_of "a").
Proof. by vm_compute. Qed.
End AuditDisk.
