(* ===== verification/AuditReader.v ===== *)
(** * Audit queries

    Models [crates/qsh-core/src/audit/reader.rs] on a POSIX host, with the
    error type of [ops/mod.rs]: the filter of a request, the bounded line
    reader, and the query that reads the files of the log from the oldest on
    and keeps a window of the newest matches.

    JSON decoding and the time library are parameters.  What the operating
    system answers about a path is an argument, and an open file is the
    sequence of its read results. *)

From stdpp Require Import pretty.
From S2P Require Import Prelude Errors Text FsPath FileGuard AuditLog HostOs AuditWriter.

Module AuditReader.
Import Errors Text FileGuard Audit HostOs AuditWriter.

Definition DEFAULT_LIMIT : N := 100.
Definition MAX_LIMIT : N := 1000.
Definition MAX_LINE_BYTES : N := 64 * 1024.

(** [OpError], without its always empty details. *)
Record OpError := mkOpError { op_code : ErrorCode; op_message : string; op_retryable : bool }.
Definition new_op_error (c : ErrorCode) (message : string) : OpError := mkOpError c message (default_retryable c).

Record AuditQueryReq := mkReq {
  q_since : option string;
  q_until : option string;
  q_principal : option string;
  q_action : option string;
  q_resource : option string;
  q_decision : option string;
  q_limit : option N;
}.

Record AuditQueryData := mkData { d_records : list AuditRecord; d_truncated : bool; d_skipped : N; d_oldest : option string }.

(** ** Lines *)

(** What the reads of an open file will answer; a read of no bytes is the end. *)
Definition Reader : Type := list (result (list byte) IoError).

Inductive Line := End | Complete (buf : list byte) | TooLong.

Fixpoint position (b : byte) (l : list byte) : option nat :=
  match l with
  | [] => None
  | c :: l => if bool_decide (c = b) then Some O else S <$> position b l
  end.

(** What is left of a chunk stays in the buffer of the reader. *)
Definition put_back (l : list byte) (r : Reader) : Reader := match l with [] => r | _ => Ok l :: r end.

(** The state of the loop: [buf] is [None] once the line is too long. *)
Definition extend (cap : N) (buf : option (list byte)) (l : list byte) : option (list byte) :=
  match buf with
  | None => None
  | Some buf => if cap <? len buf + len l then None else Some (buf ++ l)
  end.

Definition finish (seen_any : bool) (buf : option (list byte)) : Line :=
  if negb seen_any then End else match buf with None => TooLong | Some buf => Complete buf end.

Fixpoint read_line_loop (cap : N) (r : Reader) (seen_any : bool) (buf : option (list byte)) : result (Line * Reader) IoError :=
  match r with
  | [] => Ok (finish seen_any buf, [])
  | Err e :: r => if interrupted e then read_line_loop cap r seen_any buf else Err e
  | Ok [] :: r => Ok (finish seen_any buf, r)
  | Ok chunk :: r =>
      match position newline chunk with
      | Some take => Ok (finish true (extend cap buf (firstn take chunk)), put_back (skipn (S take) chunk) r)
      | None => read_line_loop cap r true (extend cap buf chunk)
      end
  end.

Definition read_bounded_line (cap : N) (r : Reader) : result (Line * Reader) IoError := read_line_loop cap r false (Some []).

(** The bytes and the reads still to come; no line is read more often. *)
Definition reader_size (r : Reader) : nat :=
  foldr (fun x n => (match x with Ok l => S (length l) | Err _ => 1 end + n)%nat) O r.

Section Query.
Variable from_slice : list byte -> option AuditRecord.
(** [OffsetDateTime::parse] with RFC 3339; an instant is a number. *)
Variable parse_instant : string -> option Z.
(** [checked_sub] of a number of seconds. *)
Variable checked_sub : Z -> Z -> option Z.
(** [Display] of a kind. *)
Variable kind_text : ErrorKind -> string.

Definition UNREADABLE_REMEDY : string :=
  "so no records were returned; make the log readable by this account or point `[audit].path` in config.toml at a readable file".

Definition unreadable (path : string) (e : IoError) : OpError :=
  new_op_error Internal ("cannot read audit log " +:+ path +:+ ": " +:+ kind_text (kind_of_error e) +:+ ", " +:+ UNREADABLE_REMEDY).

(** [scan_file], feeding [sink] with the state [s]; [None] is fuel that ran
    out. *)
Fixpoint scan_lines {S} (fuel : nat) (path : string) (sink : S -> option AuditRecord -> S) (r : Reader) (s : S)
    : option (result S OpError) :=
  match fuel with
  | O => None
  | Datatypes.S fuel =>
      match read_bounded_line MAX_LINE_BYTES r with
      | Err e => Some (Err (unreadable path e))
      | Ok (End, _) => Some (Ok s)
      | Ok (TooLong, r) => scan_lines fuel path sink r (sink s None)
      | Ok (Complete line, r) => scan_lines fuel path sink r (sink s (from_slice line))
      end
  end.
Definition scan_file {S} (r : Reader) (path : string) (sink : S -> option AuditRecord -> S) (s : S) : option (result S OpError) :=
  scan_lines (Datatypes.S (reader_size r)) path sink r s.

(** ** The filter *)

Record Filter := mkFilter {
  f_since : option Z;
  f_until : option Z;
  f_principal : option string;
  f_action : option string;
  f_resource : option string;
  f_decision : option string;
  f_limit : N;
}.

Definition invalid (message : string) : OpError := new_op_error InvalidArgument message.

Definition bad_since : OpError :=
  invalid "invalid since: expected an RFC 3339 timestamp or N[smhd], so nothing was read; run `qsh audit --since 24h`".

(** [text.chars().last()] with the text before it; the units are ASCII. *)
Fixpoint split_last (s : string) : option (string * ascii) :=
  match s with
  | EmptyString => None
  | String a EmptyString => Some (EmptyString, a)
  | String a s => (fun '(t, z) => (String a t, z)) <$> split_last s
  end.

Definition unit_seconds (c : ascii) : option Z :=
  if Ascii.eqb c "s" then Some 1%Z
  else if Ascii.eqb c "m" then Some 60%Z
  else if Ascii.eqb c "h" then Some 3600%Z
  else if Ascii.eqb c "d" then Some 86400%Z
  else None.

Fixpoint digits_value (acc : Z) (s : string) : Z :=
  match s with
  | EmptyString => acc
  | String a s => digits_value (acc * 10 + (Z.of_N (N_of_ascii a) - 48)) s
  end.

Definition i64_max : Z := 2 ^ 63 - 1.
(** [str::parse::<i64>] of a text of digits. *)
Definition parse_i64 (s : string) : option Z :=
  let n := digits_value 0 s in if (n <=? i64_max)%Z then Some n else None.
(** [i64::checked_mul] of numbers that are not negative. *)
Definition checked_mul (a b : Z) : option Z := if (a * b <=? i64_max)%Z then Some (a * b)%Z else None.

Definition parse_since (text : string) (now : Z) : result Z OpError :=
  match parse_instant text with
  | Some at_ => Ok at_
  | None =>
      match split_last text with
      | None => Err bad_since
      | Some (digits, c) =>
          match unit_seconds c with
          | None => Err bad_since
          | Some unit =>
              if is_empty digits || negb (all_digits digits) then Err bad_since
              else match n ← parse_i64 digits; checked_mul n unit with
                   | None => Err bad_since
                   | Some seconds => match checked_sub now seconds with Some at_ => Ok at_ | None => Err bad_since end
                   end
          end
      end
  end.

(** [Option::map(..).transpose()] *)
Definition transpose {A E} (o : option (result A E)) : result (option A) E :=
  match o with None => Ok None | Some (Ok a) => Ok (Some a) | Some (Err e) => Err e end.

Definition limit_error (n : N) : OpError :=
  invalid ("audit limit " +:+ pretty n +:+ " is out of range (expected 1..=" +:+ pretty MAX_LIMIT
           +:+ "), so nothing was read; run `qsh audit --limit " +:+ pretty MAX_LIMIT +:+ "` or a smaller value").
Definition quoted (s : string) : string := String (ascii_of_N 34) s +:+ String (ascii_of_N 34) EmptyString.
Definition decision_error : OpError :=
  invalid ("invalid decision filter: expected " +:+ quoted "allow" +:+ " or " +:+ quoted "deny"
           +:+ ", so nothing was read; run `qsh audit --decision deny` or `qsh audit --decision allow`").
Definition until_error : OpError :=
  invalid "invalid until: expected an RFC 3339 timestamp, so nothing was read; run `qsh audit --until 2026-10-16T00:00:00Z`".

Definition from_request (req : AuditQueryReq) (now : Z) : result Filter OpError :=
  let? limit :=
    match q_limit req with
    | None => Ok DEFAULT_LIMIT
    | Some n => if (1 <=? n) && (n <=? MAX_LIMIT) then Ok n else Err (limit_error n)
    end in
  let? _ :=
    match q_decision req with
    | Some d => if String.eqb d "allow" || String.eqb d "deny" then Ok tt else Err decision_error
    | None => Ok tt
    end in
  let? since := transpose ((fun text => parse_since text now) <$> q_since req) in
  let? until :=
    transpose ((fun text => match parse_instant text with Some at_ => Ok at_ | None => Err until_error end) <$> q_until req) in
  Ok (mkFilter since until (q_principal req) (q_action req) (q_resource req) (q_decision req) limit).

Definition eq_or_none (want : option string) (have : string) : bool :=
  match want with None => true | Some w => String.eqb w have end.

Definition matches (f : Filter) (r : AuditRecord) : bool :=
  if negb (eq_or_none (f_principal f) (principal r) && eq_or_none (f_action f) (action r)
           && eq_or_none (f_resource f) (resource r) && eq_or_none (f_decision f) (decision r))
  then false
  else match f_since f, f_until f with
       | None, None => true
       | since, until =>
           match parse_instant (ts r) with
           | None => false
           | Some at_ =>
               match since with None => true | Some s => (s <=? at_)%Z end
               && match until with None => true | Some u => (at_ <=? u)%Z end
           end
       end.

(** ** The query *)

Record Window := mkWindow { w_window : list AuditRecord; w_matched : N; w_skipped : N; w_oldest : option string }.

(** The closure of [query]; [record_view] moves a record field for field. *)
Definition take_in (f : Filter) (w : Window) (outcome : option AuditRecord) : Window :=
  match outcome with
  | None => mkWindow (w_window w) (w_matched w) (w_skipped w + 1) (w_oldest w)
  | Some r =>
      let oldest := match w_oldest w with None => Some (ts r) | o => o end in
      if matches f r
      then let win := if len (w_window w) =? f_limit f then tail (w_window w) else w_window w in
           mkWindow (win ++ [r]) (w_matched w + 1) (w_skipped w) oldest
      else mkWindow (w_window w) (w_matched w) (w_skipped w) oldest
  end.

(** What the system answers: whether a path is a regular file, if that can be
    told, and what opening it gives. *)
Variable is_file : string -> option bool.
Variable open : string -> result Reader IoError.

Definition open_read_only (path : string) : result (option Reader) OpError :=
  match is_file path with
  | Some false =>
      Err (new_op_error Internal ("cannot read audit log " +:+ path +:+ ": not a regular file, " +:+ UNREADABLE_REMEDY))
  | _ =>
      match open path with
      | Ok r => Ok (Some r)
      | Err e => if not_found e then Ok None else Err (unreadable path e)
      end
  end.

(** [(1..=retain).rev()] and the active file. *)
Fixpoint log_paths (active : string) (n : nat) : list string :=
  match n with O => [active] | S m => rotated_path active (N.of_nat n) :: log_paths active m end.

Fixpoint query_files (f : Filter) (paths : list string) (w : Window) : option (result Window OpError) :=
  match paths with
  | [] => Some (Ok w)
  | path :: paths =>
      match open_read_only path with
      | Err e => Some (Err e)
      | Ok None => query_files f paths w
      | Ok (Some r) =>
          match scan_file r path (take_in f) w with
          | Some (Ok w) => query_files f paths w
          | bad => bad
          end
      end
  end.

Definition query (active : string) (retain : N) (req : AuditQueryReq) (now : Z) : option (result AuditQueryData OpError) :=
  match from_request req now with
  | Err e => Some (Err e)
  | Ok f =>
      match query_files f (log_paths active (N.to_nat retain)) (mkWindow [] 0 0 None) with
      | Some (Ok w) => Some (Ok (mkData (rev (w_window w)) (f_limit f <? w_matched w) (w_skipped w) (w_oldest w)))
      | Some (Err e) => Some (Err e)
      | None => None
      end
  end.
End Query.

(** ** Lines, whatever the reads *)

(** The reads go through [bs] to its end, in pieces. *)
Inductive delivers : list byte -> Reader -> Prop :=
  | dv_end : delivers [] []
  | dv_chunk c bs r : c <> [] -> delivers bs r -> delivers (c ++ bs) (Ok c :: r)
  | dv_again e bs r : interrupted e = true -> delivers bs r -> delivers bs (Err e :: r).

(** The lines of a text, without their newlines; the last one may lack it. *)
Fixpoint pieces (acc bs : list byte) : list (list byte) :=
  match bs with
  | [] => match acc with [] => [] | _ => [acc] end
  | b :: bs => if bool_decide (b = newline) then acc :: pieces [] bs else pieces (acc ++ [b]) bs
  end.

Lemma position_app b l l' :
  position b (l ++ l') = match position b l with Some n => Some n | None => (fun n => (length l + n)%nat) <$> position b l' end.
Proof.
  induction l as [|c l IH]; cbn; [by destruct (position b l')|]. case_bool_decide; [done|]. rewrite IH.
  destruct (position b l); cbn; [done|]. by destruct (position b l').
Qed.

Lemma position_lt b l n : position b l = Some n -> (n < length l)%nat.
Proof.
  revert n. induction l as [|c l IH]; intros n; cbn; [done|]. case_bool_decide; [intros [= <-]; lia|].
  destruct (position b l) as [m|]; [|done]. intros [= <-]. specialize (IH m eq_refl). lia.
Qed.

Lemma pieces_cut acc bs :
  pieces acc bs = match position newline bs with
                  | Some n => (acc ++ take n bs) :: pieces [] (drop (S n) bs)
                  | None => match acc ++ bs with [] => [] | l => [l] end
                  end.
Proof.
  revert acc. induction bs as [|b bs IH]; intros acc; cbn; [rewrite app_nil_r; by destruct acc|]. case_bool_decide; [by rewrite app_nil_r|].
  rewrite IH. destruct (position newline bs) as [n|]; cbn; [by rewrite <- app_assoc|]. by rewrite <- app_assoc.
Qed.

Lemma extend_extend cap buf l l' : extend cap (extend cap buf l) l' = extend cap buf (l ++ l').
Proof.
  destruct buf as [buf|]; [|done]. cbn. rewrite len_app. destruct (cap <? len buf + len l) eqn:E1; bools; cbn.
  - by replace (cap <? len buf + (len l + len l')) with true by (symmetry; apply N.ltb_lt; lia).
  - rewrite len_app, app_assoc. by replace (len buf + len l + len l') with (len buf + (len l + len l')) by lia.
Qed.

Lemma delivers_put_back l bs r : delivers bs r -> delivers (l ++ bs) (put_back l r).
Proof. intros Hd. destruct l; [done|]. by constructor. Qed.

(** One line is cut off the bytes to come, however the reads cut them. *)
Lemma read_line_exact cap bs r a buf :
  delivers bs r ->
  exists r',
    read_line_loop cap r a buf
    = Ok (match position newline bs with
          | Some n => finish true (extend cap buf (take n bs))
          | None => if bool_decide (bs = []) then finish a buf else finish true (extend cap buf bs)
          end, r')
    /\ delivers (match position newline bs with Some n => drop (S n) bs | None => [] end) r'.
Proof.
  intros Hd. revert a buf. induction Hd as [|c bs r Hc Hd IH|e bs r He Hd IH]; intros a buf; cbn [read_line_loop].
  - exists []. split; [done|constructor].
  - rewrite position_app. destruct c as [|b c]; [done|]. rewrite (bool_decide_false ((b :: c) ++ bs = [])) by done.
    destruct (position newline (b :: c)) as [n|] eqn:En.
    + pose proof (position_lt _ _ _ En) as Hlt. exists (put_back (drop (S n) (b :: c)) r).
      rewrite take_app_le, drop_app_le by lia. split; [done|]. by apply delivers_put_back.
    + destruct (IH true (extend cap buf (b :: c))) as (r' & -> & Hd'). exists r'. destruct (position newline bs) as [n|]; cbn [fmap option_fmap option_map].
      * rewrite take_app_add' by done. rewrite drop_app_ge by lia. replace (S (length (b :: c) + n) - length (b :: c))%nat with (S n) by lia.
        split; [by rewrite extend_extend|done].
      * split; [|done]. case_bool_decide as Eb; [subst; by rewrite app_nil_r|]. by rewrite extend_extend.
  - rewrite He. apply IH.
Qed.

Lemma put_back_size l r : (reader_size (put_back l r) <= S (length l) + reader_size r)%nat.
Proof. unfold reader_size. destruct l; cbn; lia. Qed.

Lemma read_line_size cap r a buf l r' :
  read_line_loop cap r a buf = Ok (l, r') ->
  (reader_size r' <= reader_size r)%nat /\ (a = false -> l <> End -> (reader_size r' < reader_size r)%nat).
Proof.
  revert a buf. induction r as [|[[|b c]|e] r IH]; intros a buf; cbn [read_line_loop].
  - intros [= <- <-]. split; [done|]. by intros ->.
  - intros [= <- <-]. unfold reader_size in *. cbn. lia.
  - destruct (position newline (b :: c)) as [n|] eqn:En.
    + apply position_lt in En. intros [= <- <-]. pose proof (put_back_size (drop n c) r) as Hp. rewrite length_drop in Hp. unfold reader_size in *. cbn in *. lia.
    + intros E. destruct (IH _ _ E) as [Hle _]. unfold reader_size in *. cbn. lia.
  - destruct (interrupted e); [|done]. intros E. destruct (IH _ _ E) as [Hle _]. unfold reader_size in *. cbn. lia.
Qed.

(** ** The window *)

Definition lastn {A} (n : N) (l : list A) : list A := drop (length l - N.to_nat n) l.

Lemma lastn_snoc {A} n (l : list A) x :
  0 < n -> lastn n (l ++ [x]) = (if len (lastn n l) =? n then tail (lastn n l) else lastn n l) ++ [x].
Proof.
  intros Hn. unfold lastn, len. rewrite length_drop, length_app. cbn [length]. destruct (N.eqb_spec (N.of_nat (length l - (length l - N.to_nat n))) n) as [E|E].
  - replace (length l + 1 - N.to_nat n)%nat with (S (length l - N.to_nat n)) by lia. rewrite drop_app_le by lia. f_equal.
    destruct (drop (length l - N.to_nat n) l) as [|y k] eqn:Ed; [apply (f_equal length) in Ed; rewrite length_drop in Ed; cbn in Ed; lia|].
    cbn [tail]. replace (S (length l - N.to_nat n)) with (length l - N.to_nat n + 1)%nat by lia. by rewrite <- drop_drop, Ed.
  - replace (length l + 1 - N.to_nat n)%nat with O by lia. by replace (length l - N.to_nat n)%nat with O by lia.
Qed.

Lemma length_lastn {A} n (l : list A) : len (lastn n l) <= n.
Proof. unfold lastn, len. rewrite length_drop. lia. Qed.

Section Facts.
Variable from_slice : list byte -> option AuditRecord.
Variable parse_instant : string -> option Z.
Variable checked_sub : Z -> Z -> option Z.
Variable kind_text : ErrorKind -> string.

Abbreviation scan_lines := (scan_lines from_slice kind_text).
Abbreviation scan_file := (scan_file from_slice kind_text).

Lemma scan_total {S} fuel path (sink : S -> option AuditRecord -> S) r s :
  (reader_size r < fuel)%nat -> exists res, scan_lines fuel path sink r s = Some res.
Proof.
  revert r s. induction fuel as [|fuel IH]; intros r s Hf; [lia|]. cbn [AuditReader.scan_lines].
  destruct (read_bounded_line MAX_LINE_BYTES r) as [[l r']|e] eqn:E; [|by eexists].
  destruct (read_line_size _ _ _ _ _ _ E) as [_ Hlt]. specialize (Hlt eq_refl).
  destruct l; [by eexists|..]; apply IH; specialize (Hlt ltac:(done)); lia.
Qed.

(** What a line counts as. *)
Definition judge (line : list byte) : option AuditRecord :=
  if MAX_LINE_BYTES <? len line then None else from_slice line.

Lemma scan_exact {S} fuel path (sink : S -> option AuditRecord -> S) bs r s :
  delivers bs r -> (reader_size r < fuel)%nat -> scan_lines fuel path sink r s = Some (Ok (foldl sink s (judge <$> pieces [] bs))).
Proof.
  revert bs r s. induction fuel as [|fuel IH]; intros bs r s Hd Hf; [lia|]. cbn [AuditReader.scan_lines]. unfold read_bounded_line.
  destruct (read_line_exact MAX_LINE_BYTES bs r false (Some []) Hd) as (r' & E & Hd'). rewrite E.
  destruct (read_line_size _ _ _ _ _ _ E) as [_ Hlt]. specialize (Hlt eq_refl). rewrite (pieces_cut [] bs). cbn [app].
  assert (Hone : forall l bs', delivers bs' r' -> (reader_size r' < fuel)%nat ->
    match finish true (extend MAX_LINE_BYTES (Some []) l) with
    | End => Some (Ok s)
    | TooLong => scan_lines fuel path sink r' (sink s None)
    | Complete line => scan_lines fuel path sink r' (sink s (from_slice line))
    end = Some (Ok (foldl sink s (judge <$> l :: pieces [] bs')))).
  { intros l bs' Hbs Hsz. rewrite fmap_cons. cbn [foldl].
    assert (judge l = from_option from_slice None (extend MAX_LINE_BYTES (Some []) l)) as ->.
    { unfold judge. cbn [extend]. change (len [] + len l) with (0 + len l). rewrite N.add_0_l. by destruct (_ <? _). }
    destruct (extend MAX_LINE_BYTES (Some []) l); cbn [finish negb from_option]; by apply IH. }
  destruct (position newline bs) as [n|].
  - specialize (Hlt ltac:(cbn; by destruct (MAX_LINE_BYTES <? _))). rewrite <- (Hone (take n bs) _ Hd') by lia.
    by destruct (finish _ _).
  - case_bool_decide as Eb; [by subst bs|]. specialize (Hlt ltac:(cbn; by destruct (MAX_LINE_BYTES <? _))).
    destruct bs as [|b bs]; [done|]. etransitivity; [|apply (Hone (b :: bs) [] Hd'); lia]. by destruct (finish _ _).
Qed.

Abbreviation matches := (matches parse_instant).
Abbreviation take_in := (take_in parse_instant).

Definition records_of (os : list (option AuditRecord)) : list AuditRecord := omap id os.
Definition skipped_of (os : list (option AuditRecord)) : N := len (List.filter (fun o => match o with None => true | Some _ => false end) os).
Definition found (f : Filter) (os : list (option AuditRecord)) : list AuditRecord := List.filter (matches f) (records_of os).

(** The window after the lines [os]. *)
Definition window_of (f : Filter) (os : list (option AuditRecord)) : Window :=
  mkWindow (lastn (f_limit f) (found f os)) (len (found f os)) (skipped_of os) (ts <$> head (records_of os)).

Lemma take_in_window f os o : 0 < f_limit f -> take_in f (window_of f os) o = window_of f (os ++ [o]).
Proof.
  intros Hl. unfold window_of, found, skipped_of, records_of. rewrite omap_app, !List.filter_app, len_app.
  destruct o as [r|]; cbn [omap list_omap id List.filter AuditReader.take_in w_window w_matched w_skipped w_oldest].
  - assert (ts <$> head (omap id os ++ [r]) = match ts <$> head (omap id os) with None => Some (ts r) | o => o end) as ->
      by (by destruct (omap id os)).
    destruct (matches f r); rewrite ?app_nil_r, ?len_nil, ?N.add_0_r; [|done]. by rewrite ?len_app, lastn_snoc by done.
  - by rewrite ?app_nil_r, ?len_app, ?len_nil, ?N.add_0_r.
Qed.

Lemma fold_window f os os' : 0 < f_limit f -> foldl (take_in f) (window_of f os) os' = window_of f (os ++ os').
Proof.
  intros Hl. revert os. induction os' as [|o os' IH]; intros os; cbn [foldl]; [by rewrite app_nil_r|].
  rewrite take_in_window by done. rewrite IH. by rewrite <- app_assoc.
Qed.

Lemma from_request_limit req now f : from_request parse_instant checked_sub req now = Ok f -> 0 < f_limit f <= MAX_LIMIT.
Proof.
  unfold from_request. destruct (q_limit req) as [n|].
  - destruct ((1 <=? n) && (n <=? MAX_LIMIT)) eqn:En; [|done]. bools. cbn [rbind].
    repeat (match goal with |- rbind ?x _ = _ -> _ => destruct x; [cbn [rbind]|done] end). intros [= <-]. cbn. lia.
  - cbn [rbind]. repeat (match goal with |- rbind ?x _ = _ -> _ => destruct x; [cbn [rbind]|done] end). intros [= <-].
    unfold DEFAULT_LIMIT, MAX_LIMIT. cbn. lia.
Qed.

Lemma parse_since_error text now e : parse_since parse_instant checked_sub text now = Err e -> op_code e = InvalidArgument.
Proof.
  unfold parse_since. destruct (parse_instant text); [done|]. destruct (split_last text) as [[d c]|]; [|by intros [= <-]].
  destruct (unit_seconds c); [|by intros [= <-]]. destruct (_ || _); [by intros [= <-]|].
  destruct (n ← parse_i64 d; checked_mul n z); [|by intros [= <-]]. destruct (checked_sub now _); [done|by intros [= <-]].
Qed.

Lemma from_request_error req now e : from_request parse_instant checked_sub req now = Err e -> op_code e = InvalidArgument.
Proof.
  unfold from_request. destruct (match q_limit req with None => _ | Some _ => _ end) as [n|e1] eqn:E1; cbn [rbind].
  2: { destruct (q_limit req) as [n|]; [|done]. destruct (_ && _); [done|]. injection E1 as <-. by intros [= <-]. }
  destruct (match q_decision req with None => _ | Some _ => _ end) as [u|e2] eqn:E2; cbn [rbind].
  2: { destruct (q_decision req) as [d|]; [|done]. destruct (_ || _); [done|]. injection E2 as <-. by intros [= <-]. }
  destruct (transpose (_ <$> q_since req)) as [since|e3] eqn:E3; cbn [rbind].
  2: { intros [= <-]. destruct (q_since req) as [text|]; [|done]. cbn in E3. destruct (parse_since _ _ text now) as [x|y] eqn:Ep; [done|].
       injection E3 as <-. by eapply parse_since_error. }
  destruct (transpose (_ <$> q_until req)) as [until|e4] eqn:E4; cbn [rbind]; [done|].
  intros [= <-]. destruct (q_until req) as [text|]; [|done]. cbn in E4. destruct (parse_instant text); [done|]. by injection E4 as <-.
Qed.

Section System.
Variable is_file : string -> option bool.
Variable open : string -> result Reader IoError.

Abbreviation query_files := (query_files from_slice parse_instant kind_text is_file open).
Abbreviation query := (query from_slice parse_instant checked_sub kind_text is_file open).

(** What a path holds, as the system shows it. *)
Definition shows (path : string) (bs : list byte) : Prop :=
  is_file path <> Some false
  /\ ((exists r, open path = Ok r /\ delivers bs r) \/ (exists e, open path = Err e /\ not_found e = true /\ bs = [])).

(** The outcome of every line of the files. *)
Definition outcomes (contents : list (list byte)) : list (option AuditRecord) := (bs ← contents; judge <$> pieces [] bs).

Lemma outcomes_cons bs contents : outcomes (bs :: contents) = (judge <$> pieces [] bs) ++ outcomes contents.
Proof. done. Qed.

Lemma query_files_exact f paths contents os :
  0 < f_limit f -> Forall2 shows paths contents ->
  query_files f paths (window_of f os) = Some (Ok (window_of f (os ++ outcomes contents))).
Proof.
  intros Hl Hs. revert os. induction Hs as [|path bs paths contents [Hfile Hshow] _ IH]; intros os; cbn [AuditReader.query_files].
  { by rewrite app_nil_r. }
  rewrite outcomes_cons, app_assoc, <- IH. unfold open_read_only. destruct Hshow as [(r & -> & Hd)|(e & -> & He & ->)].
  - assert (match is_file path with Some false => Err (new_op_error Internal ("cannot read audit log " +:+ path +:+ ": not a regular file, " +:+ UNREADABLE_REMEDY))
            | _ => Ok (Some r) end = (Ok (Some r) : result (option Reader) OpError)) as -> by (by destruct (is_file path) as [[]|]).
    unfold AuditReader.scan_file. rewrite (scan_exact _ _ _ bs) by (done || lia). by rewrite fold_window.
  - rewrite He. cbn [pieces fmap list_fmap]. rewrite app_nil_r. by destruct (is_file path) as [[]|].
Qed.

(** The answer from the outcomes of the lines. *)
Definition answer (f : Filter) (os : list (option AuditRecord)) : AuditQueryData :=
  mkData (rev (lastn (f_limit f) (found f os))) (f_limit f <? len (found f os)) (skipped_of os) (ts <$> head (records_of os)).

Lemma query_answer active retain req now f contents :
  from_request parse_instant checked_sub req now = Ok f -> Forall2 shows (log_paths active (N.to_nat retain)) contents ->
  query active retain req now = Some (Ok (answer f (outcomes contents))).
Proof.
  intros Hf Hs. unfold AuditReader.query. rewrite Hf. destruct (from_request_limit _ _ _ Hf) as [Hl _].
  change (mkWindow [] 0 0 None) with (window_of f []). by rewrite (query_files_exact f _ contents []).
Qed.

(** C38: A query answers the newest records that match.  However the reads cut
    the files, the answer is made of the lines of the rotated files from the
    oldest on and of the active file: of the records that match, the last ones
    up to the limit, the newest first; whether there were more; the number of
    lines that are no record or too long; and the time of the oldest record. *)
Theorem query_exact active retain req now f contents :
  from_request parse_instant checked_sub req now = Ok f ->
  Forall2 shows (log_paths active (N.to_nat retain)) contents ->
  query active retain req now
  = Some (Ok (mkData (rev (lastn (f_limit f) (found f (outcomes contents)))) (f_limit f <? len (found f (outcomes contents)))
                (skipped_of (outcomes contents)) (ts <$> head (records_of (outcomes contents))))).
Proof. apply query_answer. Qed.

(** What a query keeps in memory. *)
Lemma take_in_bound f w o : 0 < f_limit f -> len (w_window w) <= f_limit f -> len (w_window (take_in f w o)) <= f_limit f.
Proof.
  intros Hl Hw. unfold AuditReader.take_in. destruct o as [r|]; [|done]. destruct (matches f r); [|done]. cbn [w_window].
  destruct (N.eqb_spec (len (w_window w)) (f_limit f)) as [E|E]; [|len_lia].
  destruct (w_window w) as [|x l]; cbn [tail]; [cbn in *; len_lia|len_lia].
Qed.

Lemma scan_bound fuel path f r w w' :
  0 < f_limit f -> scan_lines fuel path (take_in f) r w = Some (Ok w') -> len (w_window w) <= f_limit f -> len (w_window w') <= f_limit f.
Proof.
  intros Hl. revert r w. induction fuel as [|fuel IH]; intros r w; cbn [AuditReader.scan_lines]; [done|].
  destruct (read_bounded_line MAX_LINE_BYTES r) as [[[]]|e]; [by intros [= <-]|..|done]; intros E Hw; (eapply IH; [exact E|]); by apply take_in_bound.
Qed.

Lemma scan_error {T} fuel path (sink : T -> option AuditRecord -> T) r s e :
  scan_lines fuel path sink r s = Some (Err e) -> op_code e = Internal.
Proof.
  revert r s. induction fuel as [|fuel IH]; intros r s; cbn [AuditReader.scan_lines]; [done|].
  destruct (read_bounded_line MAX_LINE_BYTES r) as [[[]]|e']; [done|by apply IH|by apply IH|by intros [= <-]].
Qed.

Lemma query_files_total f paths w :
  0 < f_limit f -> len (w_window w) <= f_limit f ->
  exists res, query_files f paths w = Some res
    /\ match res with Ok w' => len (w_window w') <= f_limit f | Err e => op_code e = Internal end.
Proof.
  intros Hl. revert w. induction paths as [|path paths IH]; intros w Hw; cbn [AuditReader.query_files]; [by exists (Ok w)|].
  destruct (open_read_only _ _ _ path) as [[r|]|e] eqn:Eo; [|by apply IH|].
  - destruct (scan_total (S (reader_size r)) path (take_in f) r w) as [res Hres]; [lia|]. unfold AuditReader.scan_file. rewrite Hres.
    destruct res as [w'|e]; [apply IH; by eapply scan_bound|]. exists (Err e). split; [done|]. by eapply scan_error.
  - exists (Err e). split; [done|]. unfold open_read_only in Eo. destruct (is_file path) as [[]|]; [|by injection Eo as <-|];
      (destruct (open path) as [r|e']; [done|]; destruct (not_found e'); [done|by injection Eo as <-]).
Qed.

(** A query always answers, and in bounded memory: whatever the reads give
    (errors, files that grow while they are read), it ends, with at most
    [MAX_LIMIT] records, or with [INVALID_ARGUMENT] for the request, or with
    [INTERNAL] for a file that cannot be read. *)
Theorem query_answers active retain req now :
  exists res, query active retain req now = Some res
    /\ match res with
       | Ok data => len (d_records data) <= MAX_LIMIT
       | Err e => from_request parse_instant checked_sub req now = Err e /\ op_code e = InvalidArgument
                  \/ is_ok (from_request parse_instant checked_sub req now) = true /\ op_code e = Internal
       end.
Proof.
  unfold AuditReader.query. destruct (from_request parse_instant checked_sub req now) as [f|e] eqn:Ef.
  2: { eexists. split; [done|]. left. split; [done|]. by eapply from_request_error. }
  destruct (from_request_limit _ _ _ Ef) as [Hl Hmax].
  destruct (query_files_total f (log_paths active (N.to_nat retain)) (mkWindow [] 0 0 None)) as (res & -> & Hres); [done|cbn; rewrite len_nil; lia|].
  destruct res as [w|e]; eexists; (split; [done|]); [|by right]. cbn [d_records]. unfold len in *. rewrite length_rev. lia.
Qed.
End System.
End Facts.
End AuditReader.
