(* ===== verification/AuditTrip.v ===== *)
(** * From the sink to the query

    The two ends of the audit log composed: what [AuditWriter] wrote, a query
    of [AuditReader] finds. *)

From S2P Require Import Prelude Errors Text FsPath FileGuard AuditLog HostOs AuditWriter AuditDurable AuditService AuditDisk AuditReader.

Module AuditTrip.
Import Errors Text Audit HostOs AuditWriter AuditDurable AuditService AuditReader.

(** A line that ends in its only newline. *)
Definition line_shaped (l : list byte) : Prop := exists b, l = b ++ [newline] /\ newline ∉ b.
Definition strip (l : list byte) : list byte := take (length l - 1) l.

Lemma strip_line b : strip (b ++ [newline]) = b.
Proof. unfold strip. rewrite length_app. cbn. by replace (length b + 1 - 1)%nat with (length b) by lia; rewrite take_app_length. Qed.

Lemma position_line b l : newline ∉ b -> position newline (b ++ newline :: l) = Some (length b).
Proof.
  induction b as [|c b IH]; cbn; [done|]. intros Hn. apply not_elem_of_cons in Hn as [Hc Hb].
  rewrite bool_decide_false by congruence. by rewrite IH.
Qed.

Lemma pieces_lines ls : Forall line_shaped ls -> pieces [] (concat ls) = strip <$> ls.
Proof.
  induction 1 as [|l ls (b & -> & Hb) _ IH]; [done|]. cbn [concat]. rewrite fmap_cons, strip_line, <- IH.
  rewrite (pieces_cut [] ((b ++ [newline]) ++ concat ls)), <- app_assoc. cbn [app]. rewrite position_line by done. cbn [app].
  rewrite take_app_length. f_equal. by rewrite drop_app_ge, Nat.sub_succ_l, Nat.sub_diag by lia.
Qed.

Section Trip.
Context {W File : Type} `{LogLaws W File}.
Variables (active_path : string) (max_bytes retain queue_depth : N).
Variable to_vec : AuditRecord -> option (list byte).
Variable from_slice : list byte -> option AuditRecord.
Variable parse_instant : string -> option Z.
Variable checked_sub : Z -> Z -> option Z.
Variable kind_text : FileGuard.ErrorKind -> string.
Variable is_file : string -> option bool.
Variable open : string -> result Reader IoError.

Hypothesis active_mine : mine active_path.
Hypothesis rotated_mine : forall n, mine (rotated_path active_path n).
Hypothesis retain_pos : 0 < retain.
Hypothesis retain_max : retain < u32_max.

(** JSON takes the record back, holds no newline and is not too long. *)
Definition codes (r : AuditRecord) : Prop :=
  exists b, to_vec r = Some b /\ from_slice b = Some r /\ (newline ∉ b) /\ len b <= MAX_LINE_BYTES.

Definition read_back (l : list byte) : option AuditRecord := judge from_slice (strip l).

Lemma codes_line r : codes r -> exists l, encode to_vec r = Some l /\ line_shaped l /\ read_back l = Some r.
Proof.
  intros (b & Ht & Hf & Hn & Hl). exists (b ++ [newline]). unfold encode. rewrite Ht. split_and!; [done|by exists b|].
  unfold read_back, judge. rewrite strip_line. by replace (MAX_LINE_BYTES <? len b) with false by (symmetry; apply N.ltb_ge; lia).
Qed.

Lemma lines_cons r l rs : encode to_vec r = Some l -> lines to_vec (r :: rs) = l :: lines to_vec rs.
Proof. intros Hl. change (r :: rs) with ([r] ++ rs). by rewrite lines_app, lines_one, Hl. Qed.

Lemma lines_shaped rs : Forall codes rs -> Forall line_shaped (lines to_vec rs) /\ read_back <$> lines to_vec rs = Some <$> rs.
Proof.
  induction 1 as [|r rs (l & Hl & Hs & Hj)%codes_line _ [IH1 IH2]]; [done|].
  rewrite (lines_cons _ _ _ Hl). split; [by constructor|]. by rewrite !fmap_cons, IH2, Hj.
Qed.

(** Where every record has a line, a cut of the lines is a cut of the records. *)
Lemma lines_cut rs l1 l2 :
  Forall codes rs -> lines to_vec rs = l1 ++ l2 -> exists rs1 rs2, rs = rs1 ++ rs2 /\ lines to_vec rs1 = l1 /\ lines to_vec rs2 = l2.
Proof.
  intros Hc. revert l1. induction Hc as [|r rs Hr _ IH]; intros l1.
  - intros E. change (lines to_vec []) with (@nil (list byte)) in E. symmetry in E. apply app_nil in E as [-> ->]. by exists [], [].
  - destruct (codes_line r Hr) as (l & Hl & _). rewrite (lines_cons _ _ _ Hl).
    destruct l1 as [|l' l1]; cbn [app]; intros E.
    + exists [], (r :: rs). split_and!; [done..|]. by rewrite (lines_cons _ _ _ Hl).
    + injection E as <- E. destruct (IH l1 E) as (rs1 & rs2 & -> & Hl1 & Hl2). exists (r :: rs1), rs2.
      split_and!; [done| |done]. by rewrite (lines_cons _ _ _ Hl), Hl1.
Qed.

(** The contents of the files, in the order of a query. *)
Fixpoint contents (w : W) (n : nat) : list (list byte) :=
  bytes_at w (slot active_path n) :: match n with O => [] | S m => contents w m end.

Lemma shows_paths w n :
  (forall i, (i <= n)%nat -> shows is_file open (slot active_path i) (bytes_at w (slot active_path i))) ->
  Forall2 (shows is_file open) (log_paths active_path n) (contents w n).
Proof.
  induction n as [|n IH]; intros Hs; cbn [log_paths contents]; constructor; [by apply (Hs O)|constructor|by apply (Hs (S n))|].
  apply IH. intros i Hi. apply Hs. lia.
Qed.

Lemma outcomes_trail w n seg :
  (forall i, (i <= n)%nat -> bytes_at w (slot active_path i) = concat (seg i)) -> Forall line_shaped (trail n seg) ->
  outcomes from_slice (contents w n) = read_back <$> trail n seg.
Proof.
  induction n as [|n IH]; intros Hs Hl; cbn [contents trail] in *; rewrite outcomes_cons, Hs by lia.
  - rewrite pieces_lines by done. unfold outcomes. cbn. by rewrite app_nil_r, <- list_fmap_compose.
  - apply Forall_app in Hl as [Hl1 Hl2]. rewrite fmap_app, pieces_lines, <- list_fmap_compose by done. f_equal. apply IH; [|done].
    intros i Hi. apply Hs. lia.
Qed.

Lemma records_some (rs : list AuditRecord) : records_of (Some <$> rs) = rs.
Proof. induction rs as [|r rs IH]; [done|]. unfold records_of in *. cbn. by rewrite IH. Qed.

Lemma skipped_some (rs : list AuditRecord) : skipped_of (Some <$> rs) = 0.
Proof. unfold skipped_of. by rewrite filter_none by (intros o (r & -> & _)%list_elem_of_fmap; done). Qed.

Lemma codes_narrow r : codes r -> narrow to_vec (MAX_LINE_BYTES + 1) r.
Proof. intros (b & Ht & _ & _ & Hl) line. unfold encode. rewrite Ht. intros [= <-]. len_lia. Qed.

(** C28: What was recorded is found.  The log is written by one sink alone, which
    starts on an empty one; the disk cuts off what a failed write left, [exists]
    tells the truth, files that are there can be renamed, and each accepted
    record has a JSON text without newline, of at most 64 KiB, that decodes to
    it; any other call of the disk may fail.  Then the records accepted are, in
    order, some that are gone, those whose lines are in the files, and those
    waiting; none is gone before all rotated files are in use and had no room
    for a further line; and a query that can read the files answers from
    exactly those in the files: the newest matches up to the limit, newest
    first, whether there were more, no line skipped, and the time of the oldest
    one. *)
Theorem logged_is_found es w k req now f :
  (forall p q, law (rename p q) (fun w r _ => is_Some (content w p) -> r = Ok tt)) ->
  run active_path max_bytes retain queue_depth to_vec es (spawn w) = Some k ->
  (forall n, content w (slot active_path n) = None) -> steady (os (disk k)) -> Forall codes (accepted k) ->
  (forall n, (n <= oldest retain)%nat -> shows is_file open (slot active_path n) (bytes_at (os (disk k)) (slot active_path n))) ->
  from_request parse_instant checked_sub req now = Ok f ->
  exists gone kept seg, accepted k = gone ++ kept ++ waiting k
    /\ lines to_vec kept = trail (oldest retain) seg /\ Holds active_path retain (os (disk k)) seg
    /\ Bounded max_bytes retain (MAX_LINE_BYTES + 1) (lines to_vec gone) seg
    /\ let hits := List.filter (matches parse_instant f) kept in
       query from_slice parse_instant checked_sub kind_text is_file open active_path retain req now
       = Some (Ok (mkData (rev (lastn (f_limit f) hits)) (f_limit f <? len hits) 0 (ts <$> head kept))).
Proof.
  intros Hren Hr Hempty Hok Hcodes Hshows Hf.
  destruct (logged_files active_path max_bytes retain queue_depth to_vec active_mine rotated_mine retain_pos retain_max
              true (MAX_LINE_BYTES + 1) (fun _ => Hren) [] es w k Hr) as (written & gone & seg & Ha & Hl & Hh & HB);
    [by apply starts_empty|done|by eapply Forall_impl; [|apply codes_narrow]|].
  rewrite Ha in Hcodes. apply Forall_app in Hcodes as [Hw _].
  destruct (lines_cut written gone (trail (oldest retain) seg) Hw Hl) as (g & kept & -> & Hgone & Hkept).
  apply Forall_app in Hw as [_ Hk]. destruct (lines_shaped kept Hk) as [Hshape Hjudge]. rewrite Hkept in Hshape, Hjudge.
  exists g, kept, seg. split_and!; [by rewrite Ha, <- app_assoc|done|done|by rewrite Hgone|]. cbn zeta.
  assert (Hout : outcomes from_slice (contents (os (disk k)) (oldest retain)) = Some <$> kept) by (by rewrite (outcomes_trail _ _ seg Hh Hshape)).
  rewrite (query_answer _ _ _ _ _ _ _ _ _ _ _ _ Hf (shows_paths _ _ Hshows)), Hout. unfold answer, found.
  by rewrite records_some, skipped_some.
Qed.
End Trip.

(** ** Concrete queries *)

Import AuditDisk.

Definition read_text (b : list byte) : option AuditRecord := Some (rec (String.string_of_list_byte b)).
Definition no_time (_ : string) : option Z := None.
Definition demo_kind (_ : FileGuard.ErrorKind) : string := "other error".

(** A disk as a reader sees it: each file in one read. *)
Definition read_disk (d : Disk) (p : string) : result Reader IoError :=
  match look p (inodes d) with
  | None => Err no_entry
  | Some (_, []) => Ok []
  | Some (_, c) => Ok [Ok c]
  end.

Lemma disk_shows d p : shows (fun _ => Some true) (read_disk d) p (bytes_at d p).
Proof.
  split; [done|]. unfold read_disk, bytes_at. cbn. destruct (look p (inodes d)) as [[i [|b c]]|] eqn:E; cbn.
  - left. exists []. split; [done|constructor].
  - left. exists [Ok (b :: c)]. split; [done|]. rewrite <- (app_nil_r (b :: c)) at 1. constructor; [done|constructor].
  - right. by exists no_entry.
Qed.

Definition any_request (limit : N) : AuditQueryReq := mkReq None None None None None None (Some limit).
Definition any_filter (limit : N) : Filter := mkFilter None None None None None None limit.

(** Three lines in four reads, one of which was interrupted; the limit is two. *)
Definition pieces_open (p : string) : result Reader IoError :=
  if String.eqb p "/l" then Ok [Ok (line_of "a" ++ [x62]); Err (Raw EINTR); Ok [newline; x63]; Ok [newline]] else Err no_entry.

Lemma query_exact_witness :
  query read_text no_time (fun _ _ => None) demo_kind (fun _ => None) pieces_open "/l" 1 (any_request 2) 0
  = Some (Ok (mkData [rec "c"; rec "b"] true 0 (Some "t"%string))).
Proof.
  rewrite (query_exact read_text no_time (fun _ _ => None) demo_kind (fun _ => None) pieces_open "/l" 1 (any_request 2) 0
             (any_filter 2) [[]; line_of "a" ++ line_of "b" ++ line_of "c"]); [by vm_compute|done|].
  constructor; [|constructor; [|constructor]].
  - split; [done|]. right. by exists no_entry.
  - split; [done|]. left. eexists. split; [done|].
    change (line_of "a" ++ line_of "b" ++ line_of "c") with ((line_of "a" ++ [x62]) ++ [newline; x63] ++ [newline] ++ []).
    constructor; [done|]. constructor; [done|]. repeat constructor; done.
Defined.

(** After the run of [rotated_sink], the last three of four records are found. *)
Lemma logged_is_found_witness :
  query read_text no_time (fun _ _ => None) demo_kind (fun _ => Some true) (read_disk (os (disk rotated_sink))) "/l" 2 (any_request 10) 0
  = Some (Ok (mkData [rec "d"; rec "c"; rec "b"] false 0 (Some "t"%string)))
  /\ exists gone kept seg, accepted rotated_sink = gone ++ kept ++ waiting rotated_sink
    /\ lines text kept = trail (oldest 2) seg /\ Holds "/l" 2 (os (disk rotated_sink)) seg
    /\ Bounded 3 2 (MAX_LINE_BYTES + 1) (lines text gone) seg
    /\ let hits := List.filter (matches no_time (any_filter 10)) kept in
       query read_text no_time (fun _ _ => None) demo_kind (fun _ => Some true) (read_disk (os (disk rotated_sink))) "/l" 2 (any_request 10) 0
       = Some (Ok (mkData (rev (lastn 10 hits)) (10 <? len hits) 0 (ts <$> head kept))).
Proof.
  split; [by vm_compute|].
  refine (logged_is_found "/l" 3 2 8 text read_text no_time (fun _ _ => None) demo_kind (fun _ => Some true)
            (read_disk (os (disk rotated_sink))) (all_mine _) (fun n => all_mine _) eq_refl eq_refl rotated_events (blank 100) rotated_sink
            (any_request 10) 0 (any_filter 10) disk_reliable rotated_runs (fun _ => eq_refl) eq_refl _ (fun n _ => disk_shows _ _) eq_refl).
  repeat constructor; eexists; (split; [reflexivity|]); (split; [reflexivity|]); (split; [|by vm_compute]); by apply (bool_decide_unpack _).
Defined.
End AuditTrip.
