(* ===== verification/InodeScan.v ===== *)
(** * The inodes of the protected tree

    Models [ProtectedInodes] and [check_read_target] of
    [crates/qsh-core/src/file/guard.rs]: a read is refused when the opened
    file is a hard link to anything below the protected directories.  The scan
    keeps a stack of directories and gives up past a number of entries or a
    depth.  The loop over the stack runs on fuel; the fuel given is shown to be
    enough against any file system. *)

From stdpp Require Import pretty.
From S2P Require Import Prelude Text FsPath FileGuard HostOs.

Module InodeScan.
Import Text FsPath FileGuard HostOs.

Definition INODE_SCAN_MAX_ENTRIES : N := 4096.
Definition INODE_SCAN_MAX_DEPTH : N := 4.
Definition INODE_SCAN_MAX_ROTATED : N := 1024.

Inductive InodeScanError := TooLarge | ScanIo (kind : ErrorKind).

(** [(st_dev, st_ino)] *)
Definition InodeKey : Type := N * N.
Definition key_of (st : RawStat) : InodeKey := (st_dev st, st_ino st).

(** [AuditFiles::rotated_names] *)
Definition rotated_names (a : AuditFiles) : list string :=
  af_name a :: (af_name a +:+ ".lock")
  :: ((fun n => af_name a +:+ "." +:+ pretty (N.of_nat n)) <$> seq 1 (N.to_nat (af_retain a `min` INODE_SCAN_MAX_ROTATED))).

Section Scan.
Context {Fs Handle : Type} `{HostOs Fs Handle} `{OsText}.

(** The protected directories that exist, the last one on top. *)
Fixpoint scan_roots (dirs : list string) (stack : list (string * N)) : act Fs (result (list (string * N)) InodeScanError) :=
  match dirs with
  | [] => aret (Ok stack)
  | dir :: dirs =>
      let* r := os_lstat dir in
      match r with
      | Ok md => scan_roots dirs (if md_is_dir md then (dir, 0) :: stack else stack)
      | Err e => if not_found e then scan_roots dirs stack else aret (Err (ScanIo (kind_of_error e)))
      end
  end.

(** What the scan knows: the entries seen, the stack and the keys found. *)
Record Found := mkFound { visited : N; stack : list (string * N); ids : gset InodeKey }.

(** The entries of one directory. *)
Fixpoint scan_entries (max_entries max_depth : N) (dir : string) (depth : N) (entries : list (result string IoError))
    (f : Found) : act Fs (result Found InodeScanError) :=
  match entries with
  | [] => aret (Ok f)
  | Err e :: _ => aret (Err (ScanIo (kind_of_error e)))
  | Ok name :: entries =>
      let f := mkFound (visited f + 1) (stack f) (ids f) in
      if max_entries <? visited f then aret (Err TooLarge)
      else
        let* r := os_entry_stat dir name in
        match r with
        | Err e =>
            if not_found e then scan_entries max_entries max_depth dir depth entries f
            else aret (Err (ScanIo (kind_of_error e)))
        | Ok md =>
            if md_is_dir md then
              if max_depth <=? depth then aret (Err TooLarge)
              else scan_entries max_entries max_depth dir depth entries
                     (mkFound (visited f) ((push dir name, depth + 1) :: stack f) (ids f))
            else if negb (md_is_symlink md) then
              scan_entries max_entries max_depth dir depth entries
                (mkFound (visited f) (stack f) ({[key_of md]} ∪ ids f))
            else scan_entries max_entries max_depth dir depth entries f
        end
  end.

(** The loop over the stack; [None] is fuel that ran out. *)
Fixpoint scan_loop (fuel : nat) (max_entries max_depth : N) (f : Found) : act Fs (option (result (gset InodeKey) InodeScanError)) :=
  match fuel with
  | O => aret None
  | S fuel =>
      match stack f with
      | [] => aret (Some (Ok (ids f)))
      | (dir, depth) :: rest =>
          let f := mkFound (visited f) rest (ids f) in
          let* r := os_read_dir dir in
          match r with
          | Err e =>
              if not_found e then scan_loop fuel max_entries max_depth f
              else aret (Some (Err (ScanIo (kind_of_error e))))
          | Ok entries =>
              let* r := scan_entries max_entries max_depth dir depth entries f in
              match r with
              | Ok f => scan_loop fuel max_entries max_depth f
              | Err e => aret (Some (Err e))
              end
          end
      end
  end.

(** Rotated audit files beside the configured ones, best effort. *)
Definition matching_entries (fold : bool) (family : AuditFiles) (entries : list (result string IoError)) : list string :=
  let oks := omap (fun r => match r with Ok n => Some n | Err _ => None end) entries in
  List.filter (fun p => audit_matches family p fold)
    ((fun n => push (af_dir family) n) <$> takeN INODE_SCAN_MAX_ENTRIES oks).

Fixpoint audit_named (fold : bool) (families : list AuditFiles) : act Fs (list string) :=
  match families with
  | [] => aret []
  | family :: families =>
      let* rd := os_read_dir (af_dir family) in
      let more := match rd with Ok entries => matching_entries fold family entries | Err _ => [] end in
      let* rest := audit_named fold families in
      aret (((fun n => push (af_dir family) n) <$> rotated_names family) ++ more ++ rest)
  end.

(** The keys of the named files ([path_key]). *)
Fixpoint named_keys (paths : list string) (ids : gset InodeKey) : act Fs (result (gset InodeKey) InodeScanError) :=
  match paths with
  | [] => aret (Ok ids)
  | p :: paths =>
      let* r := os_stat p in
      match r with
      | Ok md => named_keys paths (if md_is_dir md then ids else {[key_of md]} ∪ ids)
      | Err e => if not_found e then named_keys paths ids else aret (Err (ScanIo (kind_of_error e)))
      end
  end.

(** [ProtectedInodes::collect_with_limits] *)
Definition collect_with_limits (s : ProtectedSet) (max_entries max_depth : N)
    : act Fs (option (result (gset InodeKey) InodeScanError)) :=
  let* roots := scan_roots (ps_dirs s) [] in
  match roots with
  | Err e => aret (Some (Err e))
  | Ok roots =>
      let* r := scan_loop (S (length roots + N.to_nat max_entries)) max_entries max_depth (mkFound 0 roots ∅) in
      match r with
      | Some (Ok ids) =>
          let* audit := audit_named (ps_fold_case s) (ps_audit s) in
          amap Some (named_keys (ps_files s ++ audit) ids)
      | r => aret r
      end
  end.

(** [ProtectedInodes::collect] *)
Definition collect (s : ProtectedSet) : act Fs (option (result (gset InodeKey) InodeScanError)) :=
  collect_with_limits s INODE_SCAN_MAX_ENTRIES INODE_SCAN_MAX_DEPTH.

Inductive ReadTargetDenied := ProtectedInode | NotRegular (kind : FileKind) | StatFailed (kind : ErrorKind).

(** [check_read_target] *)
Definition check_read_target (h : Handle) (inodes : gset InodeKey) : act Fs (result RawStat ReadTargetDenied) :=
  let* r := os_fstat h in
  aret (match r with
        | Err e => Err (StatFailed (kind_of_error e))
        | Ok md =>
            if bool_decide (key_of md ∈ inodes) then Err ProtectedInode
            else match file_kind md with KRegular => Ok md | kind => Err (NotRegular kind) end
        end).

(** ** The fuel is enough *)

(** Each entry is counted before it can add to the stack. *)
Lemma scan_entries_stack max_entries max_depth dir depth entries : forall f fs fs' f',
  visited f <= max_entries ->
  scan_entries max_entries max_depth dir depth entries f fs = (fs', Ok f') ->
  (length (stack f') + N.to_nat (visited f) <= length (stack f) + N.to_nat (visited f'))%nat /\ visited f' <= max_entries.
Proof.
  induction entries as [|[name|e] entries IH]; intros f fs fs' f' Hv; cbn [scan_entries].
  { intros [= <- <-]. lia. }
  2:{ by intros [=]. }
  cbn [visited stack ids]. destruct (N.ltb_spec max_entries (visited f + 1)) as [|Hle]; [by intros [=]|].
  unfold abind. destruct (os_entry_stat dir name fs) as [fs1 [md|e]].
  - destruct (md_is_dir md); [destruct (max_depth <=? depth); [by intros [=]|]|destruct (negb _)];
      intros E; apply IH in E; cbn [visited stack ids length] in *; lia.
  - destruct (not_found e); [|by intros [=]]. intros E. apply IH in E; cbn [visited stack ids] in *; lia.
Qed.

Lemma scan_loop_total max_entries max_depth fuel : forall f fs,
  visited f <= max_entries ->
  (length (stack f) + N.to_nat max_entries < fuel + N.to_nat (visited f))%nat ->
  exists r, snd (scan_loop fuel max_entries max_depth f fs) = Some r.
Proof.
  induction fuel as [|fuel IH]; intros f fs Hv Hf; cbn [scan_loop]; [lia|].
  destruct (stack f) as [|[dir depth] rest] eqn:Es; [by eexists|]. cbn [length] in Hf.
  unfold abind. destruct (os_read_dir dir fs) as [fs1 [entries|e]].
  - destruct (scan_entries max_entries max_depth dir depth entries _ fs1) as [fs2 [f'|e]] eqn:E; [|by eexists].
    apply scan_entries_stack in E as [Hst Hv']; [|done]. cbn [visited stack ids] in *. apply IH; [done|]. lia.
  - destruct (not_found e); [|by eexists]. apply IH; cbn [visited stack ids]; [done|lia].
Qed.

(** The scan of the protected tree ends on every file system, however it
    changes under the scan: [collect_with_limits] never runs out of fuel. *)
Theorem scan_terminates s max_entries max_depth fs :
  exists r, snd (collect_with_limits s max_entries max_depth fs) = Some r.
Proof.
  unfold collect_with_limits, abind, amap. destruct (scan_roots _ _ fs) as [fs1 [roots|e]]; [|by eexists].
  destruct (scan_loop_total max_entries max_depth (S (length roots + N.to_nat max_entries)) (mkFound 0 roots ∅) fs1)
    as [r Hr]; [cbn; lia|cbn; lia|].
  destruct (scan_loop _ _ _ _ fs1) as [fs2 r']. cbn [snd] in Hr. subst r'. destruct r as [ids|e]; [|by eexists].
  destruct (audit_named _ _ fs2) as [fs3 audit]. unfold abind. destruct (named_keys _ _ fs3). by eexists.
Qed.

(** ** The scan misses nothing *)

(** The calls of the scan leave the state [fs] as it is. *)
Record Still (fs : Fs) : Prop := {
  still_lstat p : fst (os_lstat p fs) = fs;
  still_stat p : fst (os_stat p fs) = fs;
  still_read_dir p : fst (os_read_dir p fs) = fs;
  still_entry d n : fst (os_entry_stat d n fs) = fs;
}.

(** [k] is the key of a file somewhere below the directory. *)
Inductive in_tree (fs : Fs) : string -> InodeKey -> Prop :=
  | in_here dir entries name md :
      snd (os_read_dir dir fs) = Ok entries -> Ok name ∈ entries -> snd (os_entry_stat dir name fs) = Ok md ->
      md_is_dir md = false -> md_is_symlink md = false -> in_tree fs dir (key_of md)
  | in_below dir entries name md k :
      snd (os_read_dir dir fs) = Ok entries -> Ok name ∈ entries -> snd (os_entry_stat dir name fs) = Ok md ->
      md_is_dir md = true -> in_tree fs (push dir name) k -> in_tree fs dir k.

Section Complete.
Variable fs : Fs.
Hypothesis Hstill : Still fs.

Lemma scan_roots_complete dirs : forall stack fs' roots,
  scan_roots dirs stack fs = (fs', Ok roots) ->
  fs' = fs /\ stack ⊆ roots
  /\ forall d md, d ∈ dirs -> snd (os_lstat d fs) = Ok md -> md_is_dir md = true -> (d, 0) ∈ roots.
Proof.
  induction dirs as [|d dirs IH]; intros stack fs' roots; cbn [scan_roots].
  { intros [= <- <-]. split; [done|]. split; [done|]. intros ?? []%elem_of_nil. }
  unfold abind. pose proof (still_lstat _ Hstill d) as Hd. destruct (os_lstat d fs) as [fs1 r] eqn:Er. cbn [fst] in Hd. subst fs1.
  destruct r as [md|e].
  - intros (-> & Hs & Hall)%IH. split; [done|]. split; [destruct (md_is_dir md); set_solver|].
    intros d' md' [->|Hin]%elem_of_cons; [|by apply Hall]. rewrite Er. cbn [snd]. intros [= <-] Hmd. rewrite Hmd in Hs. set_solver.
  - destruct (not_found e); [|by intros [=]]. intros (-> & Hs & Hall)%IH. split; [done|]. split; [done|].
    intros d' md' [->|Hin]%elem_of_cons; [|by apply Hall]. by rewrite Er.
Qed.

Lemma scan_entries_complete max_entries max_depth dir depth entries : forall f fs' f',
  scan_entries max_entries max_depth dir depth entries f fs = (fs', Ok f') ->
  fs' = fs /\ ids f ⊆ ids f' /\ stack f ⊆ stack f'
  /\ forall name md, Ok name ∈ entries -> snd (os_entry_stat dir name fs) = Ok md ->
       (md_is_dir md = true -> (push dir name, depth + 1) ∈ stack f')
       /\ (md_is_dir md = false -> md_is_symlink md = false -> key_of md ∈ ids f').
Proof.
  induction entries as [|[name|e] entries IH]; intros f fs' f'; cbn [scan_entries].
  { intros [= <- <-]. split; [done|]. split; [done|]. split; [done|]. intros ?? []%elem_of_nil. }
  2:{ by intros [=]. }
  cbn [visited stack ids]. destruct (max_entries <? visited f + 1); [by intros [=]|].
  unfold abind. pose proof (still_entry _ Hstill dir name) as Hd.
  destruct (os_entry_stat dir name fs) as [fs1 r] eqn:Er. cbn [fst] in Hd. subst fs1. destruct r as [md|e].
  - destruct (md_is_dir md) eqn:Em; [destruct (max_depth <=? depth); [by intros [=]|]|destruct (md_is_symlink md) eqn:El; cbn [negb]];
      intros (-> & Hi & Hs & Hall)%IH; cbn [visited stack ids] in *; (split; [done|]); (split; [set_solver|]); (split; [set_solver|]);
      intros n md' [[= ->]|Hin]%elem_of_cons; try (by apply Hall); rewrite Er; cbn [snd]; intros [= <-];
      split; intros; try congruence; set_solver.
  - destruct (not_found e); [|by intros [=]]. intros (-> & Hi & Hs & Hall)%IH. cbn [visited stack ids] in *.
    split; [done|]. split; [done|]. split; [done|]. intros n md' [[= ->]|Hin]%elem_of_cons; [by rewrite Er|by apply Hall].
Qed.

Lemma scan_loop_complete max_entries max_depth fuel : forall f fs' r,
  scan_loop fuel max_entries max_depth f fs = (fs', Some (Ok r)) ->
  fs' = fs /\ ids f ⊆ r /\ forall d depth k, (d, depth) ∈ stack f -> in_tree fs d k -> k ∈ r.
Proof.
  induction fuel as [|fuel IH]; intros f fs' r; cbn [scan_loop]; [by intros [=]|].
  destruct (stack f) as [|[dir depth] rest] eqn:Es.
  { intros [= <- <-]. split; [done|]. split; [done|]. intros ??? []%elem_of_nil. }
  unfold abind. pose proof (still_read_dir _ Hstill dir) as Hd. destruct (os_read_dir dir fs) as [fs1 rd] eqn:Er. cbn [fst] in Hd. subst fs1.
  destruct rd as [entries|e].
  - destruct (scan_entries max_entries max_depth dir depth entries _ fs) as [fs2 [f'|e]] eqn:E; [|by intros [=]].
    apply scan_entries_complete in E as (-> & Hi & Hs & Hall). cbn [visited stack ids] in *.
    intros (-> & Hr & Hin)%IH. split; [done|]. split; [set_solver|]. intros d dp k [[= -> ->]|Hd]%elem_of_cons Ht.
    + inversion Ht as [? es n md Hes Hn Hmd Hdir Hlink|? es n md ? Hes Hn Hmd Hdir Hsub]; subst;
        rewrite Er in Hes; cbn [snd] in Hes; injection Hes as <-.
      * apply Hr. by apply (Hall n md).
      * eapply Hin; [|exact Hsub]. by apply (Hall n md).
    + by apply (Hin d dp k); [apply Hs|].
  - destruct (not_found e); [|by intros [=]]. intros (-> & Hr & Hin)%IH. split; [done|]. split; [done|].
    intros d dp k [[= -> ->]|Hd]%elem_of_cons Ht; [|by eapply Hin].
    inversion Ht as [? ? ? ? Hes|? ? ? ? ? Hes]; subst; by rewrite Er in Hes.
Qed.

Lemma audit_named_still fold families : fst (audit_named fold families fs) = fs.
Proof.
  induction families as [|a families IH]; [done|]. cbn [audit_named]. unfold abind.
  pose proof (still_read_dir _ Hstill (af_dir a)) as Hd. destruct (os_read_dir _ fs) as [fs1 rd]. cbn [fst] in Hd. subst fs1.
  destruct (audit_named fold families fs) as [fs2 rest]. done.
Qed.

Lemma named_keys_complete paths : forall acc fs' r,
  named_keys paths acc fs = (fs', Ok r) ->
  acc ⊆ r /\ forall p md, p ∈ paths -> snd (os_stat p fs) = Ok md -> md_is_dir md = false -> key_of md ∈ r.
Proof.
  induction paths as [|p paths IH]; intros acc fs' r; cbn [named_keys].
  { intros [= <- <-]. split; [done|]. intros ?? []%elem_of_nil. }
  unfold abind. pose proof (still_stat _ Hstill p) as Hd. destruct (os_stat p fs) as [fs1 rd] eqn:Er. cbn [fst] in Hd. subst fs1.
  destruct rd as [md|e]; [|destruct (not_found e); [|by intros [=]]]; intros (Hs & Hall)%IH.
  - split; [destruct (md_is_dir md); set_solver|]. intros q md' [->|Hin]%elem_of_cons; [|by apply Hall].
    rewrite Er. cbn [snd]. intros [= <-] Hmd. rewrite Hmd in Hs. set_solver.
  - split; [done|]. intros q md' [->|Hin]%elem_of_cons; [by rewrite Er|by apply Hall].
Qed.

Lemma collect_complete s max_entries max_depth fs' ids :
  collect_with_limits s max_entries max_depth fs = (fs', Some (Ok ids)) ->
  (forall d md k, d ∈ ps_dirs s -> snd (os_lstat d fs) = Ok md -> md_is_dir md = true -> in_tree fs d k -> k ∈ ids)
  /\ (forall p md, p ∈ ps_files s -> snd (os_stat p fs) = Ok md -> md_is_dir md = false -> key_of md ∈ ids).
Proof.
  unfold collect_with_limits, abind at 1. destruct (scan_roots _ _ fs) as [fs1 [roots|e]] eqn:E1; [|by intros [=]].
  apply scan_roots_complete in E1 as (-> & _ & Hroots). unfold abind at 1.
  destruct (scan_loop _ _ _ _ fs) as [fs2 [[found|e]|]] eqn:E2; [|by intros [=]..].
  apply scan_loop_complete in E2 as (-> & _ & Htree). unfold abind at 1, amap, abind.
  pose proof (audit_named_still (ps_fold_case s) (ps_audit s)) as Ha. destruct (audit_named _ _ fs) as [fs3 audit]. cbn [fst] in Ha. subst fs3.
  destruct (named_keys _ _ fs) as [fs4 r] eqn:E4. intros [= <- ->]. apply named_keys_complete in E4 as [Hsub Hnamed]. split.
  - intros d md k Hd Hl Hm Ht. apply Hsub. eapply Htree; [|exact Ht]. by eapply Hroots.
  - intros p md Hp. apply Hnamed. set_solver.
Qed.
End Complete.

(** What passes the checks of a read is no hard link into the protected
    tree: when the scan of a file system that stands still finishes and the
    open file passes, it is a regular file, and its inode is neither that of a
    file anywhere below an existing protected directory nor that of a
    protected file. *)
Theorem read_target_not_protected fs s h fs1 ids fs2 fs3 md :
  Still fs -> collect s fs = (fs1, Some (Ok ids)) -> check_read_target h ids fs2 = (fs3, Ok md) ->
  file_kind md = KRegular
  /\ (forall d dmd, d ∈ ps_dirs s -> snd (os_lstat d fs) = Ok dmd -> md_is_dir dmd = true -> ~ in_tree fs d (key_of md))
  /\ (forall p pmd, p ∈ ps_files s -> snd (os_stat p fs) = Ok pmd -> md_is_dir pmd = false -> key_of pmd <> key_of md).
Proof.
  intros Hs [Htree Hfiles]%(collect_complete fs Hs). unfold check_read_target, abind.
  destruct (os_fstat h fs2) as [fs4 [st|e]]; [|by intros [=]]. cbn. case_bool_decide as Hin; [by intros [=]|].
  destruct (file_kind st) eqn:Ek; intros [= <- <-]. split; [done|]. split.
  - intros d dmd Hd Hl Hm Ht. apply Hin. by eapply Htree.
  - intros p pmd Hp Hst Hm E. apply Hin. rewrite <- E. by eapply Hfiles.
Qed.
End Scan.

(** ** Example *)

#[local] Existing Instance static_os.
#[local] Existing Instance ascii_text.

Lemma static_still fs : Still fs.
Proof. constructor; intros; reflexivity. Qed.

Definition demo_protected : ProtectedSet := mkProtected ["/s"%string] ["/s/key"%string] [] false.

(** Another file passes, a hard link to the key does not. *)
Lemma read_target_not_protected_witness :
  check_read_target "/home/u/link"%string {[(1, 3)]} demo_fs = (demo_fs, Err ProtectedInode)
  /\ forall d dmd, d ∈ ["/s"%string] -> snd (os_lstat d demo_fs) = Ok dmd -> md_is_dir dmd = true -> ~ in_tree demo_fs d (1, 7).
Proof.
  split; [vm_compute; reflexivity|].
  refine (proj1 (proj2 (read_target_not_protected demo_fs demo_protected "/home/u/a"%string demo_fs {[(1, 3)]} demo_fs demo_fs
                          (mkRaw (S_IFREG + 420) 20 0 1 7) (static_still _) _ _))).
  - vm_compute. reflexivity.
  - vm_compute. reflexivity.
Defined.
End InodeScan.
