(* ===== verification/Listing.v ===== *)
(** * Directory listings

    Models [list_dir] of [crates/qsh-core/src/file/host.rs], which answers one
    page of a directory and keeps no state between pages, and [list_all] of
    [crates/qsh-core/src/ops/file/copy/tree.rs], the client's loop that joins
    the pages.  The loop runs on fuel; [None] is fuel that ran out. *)

From stdpp Require Import sorting.
From S2P Require Import Prelude Text FsPath FileGuard HostOs.

Module Listing.
Import Text FsPath FileGuard HostOs.

Definition FILE_LIST_PAGE_MAX : N := 512.
Definition FILE_LIST_DIR_MAX : N := 65536.
Definition U32_MAX : N := 2 ^ 32 - 1.

(** ** The order of names *)

(** [<=] on byte strings. *)
Fixpoint name_leb (a b : string) : bool :=
  match a, b with
  | EmptyString, _ => true
  | String _ _, EmptyString => false
  | String x a, String y b =>
      (N_of_ascii x <? N_of_ascii y) || ((N_of_ascii x =? N_of_ascii y) && name_leb a b)
  end.
Definition name_le (a b : string) : Prop := name_leb a b = true.

#[global] Instance name_le_dec a b : Decision (name_le a b) := bool_eq_dec (name_leb a b) true.

Lemma name_leb_refl a : name_leb a a = true.
Proof. induction a as [|x a IH]; [done|]. cbn. rewrite N.eqb_refl, IH. apply orb_true_r. Qed.

#[global] Instance name_le_trans : Transitive name_le.
Proof.
  intros a. induction a as [|x a IH]; intros [|y b] [|z c]; unfold name_le; cbn; try done.
  rewrite !orb_true_iff, !andb_true_iff, !N.ltb_lt, !N.eqb_eq. intros [?|[? ?]] [?|[? ?]]; [left; lia..|].
  right. split; [lia|]. by eapply IH.
Qed.

#[global] Instance name_le_total : Total name_le.
Proof.
  intros a. induction a as [|x a IH]; intros [|y b]; unfold name_le; cbn; [by left..|by right|].
  destruct (N.ltb_spec (N_of_ascii x) (N_of_ascii y)), (N.ltb_spec (N_of_ascii y) (N_of_ascii x)); cbn; [auto..|].
  rewrite !(proj2 (N.eqb_eq _ _)) by lia. apply IH.
Qed.

Lemma name_le_antisym a b : name_le a b -> name_le b a -> a = b.
Proof.
  revert b. induction a as [|x a IH]; intros [|y b]; unfold name_le; cbn; try done.
  rewrite !orb_true_iff, !andb_true_iff, !N.ltb_lt, !N.eqb_eq. intros [?|[Hx ?]] [?|[? ?]]; [lia..|].
  f_equal; [|by apply IH]. rewrite <- (ascii_N_embedding x), <- (ascii_N_embedding y). by rewrite Hx.
Qed.

(** ** A page *)

Record ListedEntry := mkListed { l_name : string; l_info : StatInfo }.
Record Page := mkPage { p_entries : list ListedEntry; p_more : bool; p_unlistable : N }.

(** [slice::partition_point], on a list the predicate partitions. *)
Fixpoint partition_point (p : string -> bool) (l : list string) : nat :=
  match l with [] => 0 | x :: l => if p x then S (partition_point p l) else 0 end%nat.

Section Host.
Context {Fs Handle : Type} `{HostOs Fs Handle}.

Fixpoint stat_names (dir : Handle) (names : list string) : act Fs (result (list ListedEntry) ListError) :=
  match names with
  | [] => aret (Ok [])
  | name :: names =>
      let* r := stat_at dir name in
      match r with
      | Err e => aret (Err (ListIo (kind_of_error e)))
      | Ok info =>
          let*? rest := stat_names dir names in
          aret (Ok (match info with Some info => mkListed name info :: rest | None => rest end))
      end
  end.

(** [list_dir] *)
Definition list_dir (dir : Handle) (after : string) (page_max dir_max : N) : act Fs (result Page ListError) :=
  let*? names := read_names dir dir_max in
  let names := merge_sort name_le names in
  let listable := List.filter is_utf8 names in
  let unlistable := (len names - len listable) `min` U32_MAX in
  let start := partition_point (fun name => name_leb name after) listable in
  let rest := drop start listable in
  let more := page_max <? len rest in
  let*? entries := stat_names dir (takeN page_max rest) in
  aret (Ok (mkPage entries more unlistable)).
End Host.

(** ** The client *)

Inductive ListFailure (E : Type) := NotADirectory | OutOfOrder | TooMany | DidNotAdvance | FetchFailed (e : E).
Arguments NotADirectory {E}.
Arguments OutOfOrder {E}.
Arguments TooMany {E}.
Arguments DidNotAdvance {E}.
Arguments FetchFailed {E} _.

Section Client.
Context {W E : Type}.
(** One [file_list_open] request with a cursor. *)
Variable fetch : string -> act W (result (FsKind * Page) E).

(** The entries of one page, in order and within the cap. *)
Fixpoint join_page (entries page : list ListedEntry) : result (list ListedEntry) (ListFailure E) :=
  match page with
  | [] => Ok entries
  | entry :: page =>
      if match last entries with Some prev => name_leb (l_name entry) (l_name prev) | None => false end
      then Err OutOfOrder
      else
        let entries := entries ++ [entry] in
        if FILE_LIST_DIR_MAX <? len entries then Err TooMany else join_page entries page
  end.

(** The loop of [list_all]. *)
Fixpoint list_loop (fuel : nat) (entries : list ListedEntry) (page : Page) : act W (option (result (list ListedEntry) (ListFailure E))) :=
  match fuel with
  | O => aret None
  | S fuel =>
      match join_page entries (p_entries page) with
      | Err e => aret (Some (Err e))
      | Ok entries =>
          if negb (p_more page) then aret (Some (Ok entries))
          else match last entries with
               | None => aret (Some (Err DidNotAdvance))
               | Some prev =>
                   let* r := fetch (l_name prev) in
                   match r with
                   | Err e => aret (Some (Err (FetchFailed e)))
                   | Ok (_, page) => list_loop fuel entries page
                   end
               end
      end
  end.

(** [list_all] of a directory, from the first page on. *)
Definition list_all (fuel : nat) : act W (option (result (list ListedEntry * N) (ListFailure E))) :=
  let* r := fetch EmptyString in
  match r with
  | Err e => aret (Some (Err (FetchFailed e)))
  | Ok (kind, page) =>
      if negb (bool_decide (kind = FsDirectory)) then aret (Some (Err NotADirectory))
      else amap (option_map (rmap (fun entries => (entries, p_unlistable page)))) (list_loop fuel [] page)
  end.
End Client.

(** ** Sorted names *)

Definition name_lt (a b : string) : Prop := name_leb b a = false.

Lemma name_lt_le a b : name_lt a b -> name_le a b.
Proof. unfold name_lt, name_le. intros Hn. destruct (name_le_total a b); [done|congruence]. Qed.

Lemma strongly_sorted_lt l : NoDup l -> StronglySorted name_le l -> StronglySorted name_lt l.
Proof.
  induction l as [|x l IH]; [constructor|]. intros [Hx Hn]%NoDup_cons [Hs Hf]%StronglySorted_inv.
  constructor; [by apply IH|]. apply Forall_forall. intros y Hy. pose proof (proj1 (Forall_forall _ _) Hf y Hy) as Hle.
  unfold name_lt. destruct (name_leb y x) eqn:E; [|done]. by rewrite (name_le_antisym x y Hle E) in Hx.
Qed.

Lemma strongly_sorted_filter p l : StronglySorted name_lt l -> StronglySorted name_lt (List.filter p l).
Proof.
  induction l as [|x l IH]; cbn; [done|]. intros [Hs Hf]%StronglySorted_inv. destruct (p x); [|by apply IH].
  constructor; [by apply IH|]. apply Forall_forall. intros y Hy%list_elem_of_In%filter_In. destruct Hy as [Hy _].
  apply (proj1 (Forall_forall _ _) Hf). by apply list_elem_of_In.
Qed.

(** The cursor of a name is the place after it. *)
Lemma partition_point_at l1 x l2 :
  StronglySorted name_lt (l1 ++ x :: l2) ->
  partition_point (fun n => name_leb n x) (l1 ++ x :: l2) = S (length l1).
Proof.
  induction l1 as [|y l1 IH]; cbn.
  - intros [Hs Hf]%StronglySorted_inv. rewrite name_leb_refl. f_equal. destruct l2 as [|z l2]; [done|].
    apply Forall_cons in Hf as [Hz _]. unfold name_lt in Hz. cbn. by rewrite Hz.
  - intros [Hs Hf]%StronglySorted_inv. apply Forall_app in Hf as [_ [Hx _]%Forall_cons].
    rewrite (name_lt_le _ _ Hx). f_equal. by apply IH.
Qed.

Lemma join_page_sorted {E} (f : string -> ListedEntry) (l1 l2 : list string) :
  (forall n, l_name (f n) = n) -> StronglySorted name_lt (l1 ++ l2) -> len (l1 ++ l2) <= FILE_LIST_DIR_MAX ->
  join_page (E := E) (f <$> l1) (f <$> l2) = Ok (f <$> l1 ++ l2).
Proof.
  intros Hf. revert l1. induction l2 as [|y l2 IH]; intros l1 Hs Hl; cbn [fmap list_fmap join_page]; [by rewrite app_nil_r|].
  assert (Hcmp : match last (f <$> l1) with Some prev => name_leb (l_name (f y)) (l_name prev) | None => false end = false).
  { destruct l1 as [|x l1 _] using rev_ind; [done|]. rewrite fmap_app. cbn. rewrite last_snoc, !Hf.
    exact (StronglySorted_app_1_elem_of _ _ _ x y Hs ltac:(set_solver) ltac:(set_solver)). }
  rewrite Hcmp. replace ((f <$> l1) ++ [f y]) with (f <$> l1 ++ [y]) by (by rewrite fmap_app).
  destruct (N.ltb_spec FILE_LIST_DIR_MAX (len (f <$> l1 ++ [y]))) as [Hgt|_].
  { revert Hgt Hl. unfold len. rewrite length_fmap, !length_app. cbn. lia. }
  rewrite IH; rewrite <- app_assoc; done.
Qed.

(** ** A directory that stands still *)

Definition dot_name (n : string) : bool := bool_decide (n = "."%string) || bool_decide (n = ".."%string).

(** The names a listing of [raws] gives. *)
Definition listed_names (raws : list string) : list string :=
  List.filter is_utf8 (merge_sort name_le (List.filter (fun n => negb (dot_name n)) raws)).

Lemma collect_names_ok cap raws : forall acc,
  len acc + len (List.filter (fun n => negb (dot_name n)) raws) <= cap ->
  collect_names cap raws acc = Ok (acc ++ List.filter (fun n => negb (dot_name n)) raws).
Proof.
  induction raws as [|raw raws IH]; intros acc Hc; cbn [collect_names List.filter]; [by rewrite app_nil_r|].
  cbn [List.filter] in Hc. change (bool_decide (raw = "."%string) || bool_decide (raw = ".."%string)) with (dot_name raw).
  destruct (dot_name raw); cbn [negb] in *; [by apply IH|]. rewrite len_cons in Hc.
  rewrite (proj2 (N.leb_gt _ _)) by lia. rewrite IH; [by rewrite <- app_assoc|]. rewrite len_app, len_cons, len_nil. lia.
Qed.

Lemma listed_sorted raws : NoDup raws -> StronglySorted name_lt (listed_names raws).
Proof.
  intros Hn. apply strongly_sorted_filter, strongly_sorted_lt; [|apply StronglySorted_merge_sort; apply _].
  rewrite merge_sort_Permutation. by apply List.NoDup_filter, NoDup_ListNoDup || (apply NoDup_ListNoDup, List.NoDup_filter; by apply NoDup_ListNoDup).
Qed.

(** How many names of [raws] cannot be listed. *)
Definition unlistable_of (raws : list string) : N :=
  len (List.filter (fun n => negb (is_utf8 n)) (List.filter (fun n => negb (dot_name n)) raws)) `min` U32_MAX.

Lemma filter_complement_len {A} (p : A -> bool) l : len (List.filter p l) + len (List.filter (fun x => negb (p x)) l) = len l.
Proof. induction l as [|x l IH]; [done|]. cbn. destruct (p x); cbn; rewrite !len_cons; lia. Qed.

Lemma filter_perm {A} (p : A -> bool) l l' : l ≡ₚ l' -> List.filter p l ≡ₚ List.filter p l'.
Proof.
  induction 1 as [|x l l' _ IH|x y l|l l' l'' _ IH _ IH']; cbn; [done| | |by rewrite IH].
  - destruct (p x); [by rewrite IH|done].
  - destruct (p x), (p y); try done. constructor.
Qed.

Lemma unlistable_count raws :
  let names := merge_sort name_le (List.filter (fun n => negb (dot_name n)) raws) in
  (len names - len (listed_names raws)) `min` U32_MAX = unlistable_of raws.
Proof.
  cbv zeta. unfold unlistable_of, listed_names. set (ns := List.filter _ raws).
  pose proof (filter_complement_len is_utf8 (merge_sort name_le ns)).
  pose proof (filter_complement_len is_utf8 ns).
  assert (len (merge_sort name_le ns) = len ns) by (unfold len; by rewrite merge_sort_Permutation).
  assert (len (List.filter is_utf8 (merge_sort name_le ns)) = len (List.filter is_utf8 ns)).
  { unfold len. f_equal. apply Permutation_length, filter_perm, merge_sort_Permutation. }
  f_equal. lia.
Qed.

Section Walk.
Context {Fs Handle : Type} `{HostOs Fs Handle}.
Variables (dir : Handle) (fs : Fs) (raws : list string) (info : string -> StatInfo).

(** A directory of [raws] in which every name that is listed can be inspected. *)
Record StillDir : Prop := {
  sd_read : os_readdir dir fs = (fs, Ok (raws, None));
  sd_stat n : n ∈ listed_names raws -> stat_at dir n fs = (fs, Ok (Some (info n)));
  sd_nodup : NoDup raws;
  sd_named : EmptyString ∉ raws;
  sd_small : len raws <= FILE_LIST_DIR_MAX;
}.
Hypothesis Hd : StillDir.

Abbreviation L := (listed_names raws).
Definition listed (n : string) : ListedEntry := mkListed n (info n).

Lemma listed_elem n : n ∈ L -> n ∈ raws.
Proof.
  intros [Hn _]%list_elem_of_In%filter_In. apply list_elem_of_In in Hn. rewrite merge_sort_Permutation in Hn.
  apply list_elem_of_In, filter_In in Hn as [Hn _]. by apply list_elem_of_In.
Qed.

Lemma stat_names_ok names : names ⊆ L -> stat_names dir names fs = (fs, Ok (listed <$> names)).
Proof.
  induction names as [|n names IH]; intros Hs; [done|]. cbn [stat_names]. unfold abind.
  rewrite (sd_stat Hd) by set_solver. unfold atry, abind. rewrite IH by set_solver. done.
Qed.

Lemma list_dir_ok after page_max :
  list_dir dir after page_max FILE_LIST_DIR_MAX fs
  = let rest := drop (partition_point (fun n => name_leb n after) L) L in
    (fs, Ok (mkPage (listed <$> takeN page_max rest) (page_max <? len rest) (unlistable_of raws))).
Proof.
  set (rest := drop _ L). cbv zeta. unfold list_dir, atry at 1, abind at 1, read_names, abind at 1.
  rewrite (sd_read Hd). cbn [aret]. rewrite collect_names_ok.
  2:{ pose proof (sd_small Hd). rewrite len_nil. unfold len in *.
      pose proof (List.filter_length_le (fun n => negb (dot_name n)) raws). lia. }
  cbn [app rbind]. unfold atry, abind. rewrite stat_names_ok; [by rewrite unlistable_count|].
  intros n Hn. unfold takeN in Hn.
  rewrite <- (take_drop (partition_point (fun n => name_leb n after) L) L), elem_of_app. right. fold rest.
  rewrite <- (take_drop (N.to_nat page_max) rest), elem_of_app. by left.
Qed.

(** A request of the client. *)
Definition fetch_page (after : string) : act Fs (result (FsKind * Page) ListError) :=
  amap (rmap (fun p => (FsDirectory, p))) (list_dir dir after FILE_LIST_PAGE_MAX FILE_LIST_DIR_MAX).

Lemma drop_cursor l1 prev l2 : L = l1 ++ prev :: l2 -> drop (partition_point (fun n => name_leb n prev) L) L = l2.
Proof.
  intros E. pose proof (listed_sorted raws (sd_nodup Hd)) as Hs. rewrite E in *. rewrite partition_point_at by done.
  by rewrite (cons_middle prev l1 l2), app_assoc, drop_app_length' by (rewrite length_app; cbn; lia).
Qed.

Lemma listed_length : (length L <= length raws)%nat.
Proof.
  unfold listed_names.
  pose proof (List.filter_length_le is_utf8 (merge_sort name_le (List.filter (fun n => negb (dot_name n)) raws))) as H1.
  pose proof (List.filter_length_le (fun n => negb (dot_name n)) raws) as H2.
  pose proof (Permutation_length (merge_sort_Permutation name_le (List.filter (fun n => negb (dot_name n)) raws))) as H3. lia.
Qed.

Lemma listed_len : len L <= FILE_LIST_DIR_MAX.
Proof. pose proof (sd_small Hd). pose proof listed_length. unfold len in *. lia. Qed.

(** The empty cursor is before every name. *)
Lemma first_cursor : partition_point (fun n => name_leb n EmptyString) L = 0%nat.
Proof.
  pose proof listed_elem as Hin. destruct L as [|[|a n] l]; [done| |done].
  exfalso. apply (sd_named Hd), Hin. left.
Qed.

(** A page that is not the last one ends in a name. *)
Lemma takeN_last (l : list string) :
  FILE_LIST_PAGE_MAX < len l -> exists init prev, takeN FILE_LIST_PAGE_MAX l = init ++ [prev].
Proof.
  intros Hl. pose proof (len_takeN FILE_LIST_PAGE_MAX l) as E.
  destruct (takeN FILE_LIST_PAGE_MAX l) as [|x t _] using rev_ind; [|by exists t, x].
  rewrite len_nil in E. unfold FILE_LIST_PAGE_MAX in *. lia.
Qed.

Lemma list_loop_ok fuel : forall l1 l2 u,
  L = l1 ++ l2 -> (length l2 < fuel)%nat ->
  list_loop fetch_page fuel (listed <$> l1)
    (mkPage (listed <$> takeN FILE_LIST_PAGE_MAX l2) (FILE_LIST_PAGE_MAX <? len l2) u) fs
  = (fs, Some (Ok (listed <$> L))).
Proof.
  induction fuel as [|fuel IH]; intros l1 l2 u E Hf; [lia|]. cbn [list_loop p_entries p_more].
  assert (Hcut : L = (l1 ++ takeN FILE_LIST_PAGE_MAX l2) ++ dropN FILE_LIST_PAGE_MAX l2).
  { rewrite <- app_assoc, takeN_dropN. exact E. }
  pose proof (listed_sorted raws (sd_nodup Hd)) as Hs. rewrite join_page_sorted; [|done| |].
  2:{ rewrite Hcut in Hs. by apply StronglySorted_app_1_l in Hs. }
  2:{ pose proof listed_len as Hl. rewrite Hcut, len_app in Hl. lia. }
  destruct (N.ltb_spec FILE_LIST_PAGE_MAX (len l2)) as [Hmore|Hlast]; cbn [negb].
  - destruct (takeN_last l2 Hmore) as (init & prev & Ep). rewrite Ep in *. rewrite app_assoc, fmap_app. cbn [fmap list_fmap].
    rewrite last_snoc. unfold abind, fetch_page, amap, abind. cbn [l_name listed].
    rewrite list_dir_ok. cbv zeta.
    rewrite (drop_cursor (l1 ++ init) prev (dropN FILE_LIST_PAGE_MAX l2)) by (rewrite Hcut, <- !app_assoc; done).
    cbn [rmap rbind aret]. change ([listed prev]) with (listed <$> [prev]). rewrite <- fmap_app. apply IH; [rewrite Hcut, <- !app_assoc; done|].
    pose proof (len_dropN FILE_LIST_PAGE_MAX l2). unfold len, FILE_LIST_PAGE_MAX in *. lia.
  - unfold aret. rewrite E, takeN_ge by done. done.
Qed.

(** A directory listed page by page comes out whole: against a directory
    that stands still and is within the cap, the client's loop ends and joins
    exactly the names that are valid UTF-8, each once, in byte order, with what
    the host knows of them. *)
Theorem walk_complete fuel :
  (length raws < fuel)%nat ->
  list_all fetch_page fuel fs = (fs, Some (Ok (listed <$> L, unlistable_of raws)))
  /\ StronglySorted name_lt L
  /\ (forall n, n ∈ L <-> n ∈ raws /\ dot_name n = false /\ is_utf8 n = true).
Proof.
  intros Hf. split; [|split].
  - unfold list_all, abind at 1, fetch_page at 1, amap, abind at 1. rewrite list_dir_ok, first_cursor, drop_0. cbn [aret rmap rbind].
    rewrite bool_decide_true by done. cbn [negb]. unfold abind.
    pose proof (list_loop_ok fuel [] L (unlistable_of raws) eq_refl ltac:(pose proof listed_length; lia)) as El. change (listed <$> []) with (@nil ListedEntry) in El.
    rewrite El. done.
  - apply listed_sorted, (sd_nodup Hd).
  - intros n. unfold listed_names. rewrite list_elem_of_In, filter_In, <- list_elem_of_In, merge_sort_Permutation.
    rewrite list_elem_of_In, filter_In, <- list_elem_of_In, negb_true_iff. tauto.
Qed.
End Walk.

(** ** A listing that never ends *)

(** A host that, after a page with the entry [e], keeps announcing more and
    sending nothing. *)
Definition stalling (e : ListedEntry) (after : string) : act nat (result (FsKind * Page) unit) :=
  fun n => (S n, Ok (FsDirectory, mkPage (if is_empty after then [e] else []) true 0)).

(** The client does not stop at a page that does not advance: against a
    host that answers one entry and then, for ever, pages without entries that
    announce more, the loop of [list_all] asks again and never returns. *)
Theorem list_all_stalls e fuel :
  is_empty (l_name e) = false -> list_all (stalling e) fuel 0%nat = (S fuel, None).
Proof.
  intros He. unfold list_all, abind. cbn [stalling is_empty]. cbn. rewrite bool_decide_true by done. cbn [negb].
  assert (Hloop : forall fuel n, list_loop (stalling e) fuel [e] (mkPage [] true 0) n = ((fuel + n)%nat, None)).
  { clear fuel. induction fuel as [|fuel IH]; intros n; [done|]. cbn [list_loop p_entries join_page p_more negb last].
    unfold abind. unfold stalling at 1. rewrite He, IH. f_equal. lia. }
  unfold amap, abind. destruct fuel as [|fuel]; [done|]. cbn [list_loop p_entries join_page last app p_more negb].
  change (FILE_LIST_DIR_MAX <? len [e]) with false. cbn [last]. unfold abind. unfold stalling at 1. rewrite He, Hloop.
  cbn. by replace (fuel + 2)%nat with (S (S fuel)) by lia.
Qed.

(** ** Examples *)

#[local] Existing Instance static_os.

Definition demo_raws : list string := ["."; ".."; "b"; "a"; "link"]%string.
Definition demo_info (n : string) : StatInfo :=
  match static_stat (push "/home/u" n) demo_fs with Ok st => info_of st | Err _ => mkInfo FsOther 0 0 0 end.

Lemma walk_complete_witness :
  list_all (fetch_page "/home/u"%string) 6 demo_fs
  = (demo_fs, Some (Ok (listed demo_info <$> ["a"; "b"; "link"]%string, 0))).
Proof.
  refine (proj1 (walk_complete "/home/u"%string demo_fs demo_raws demo_info _ 6 _)); [|apply Nat.ltb_lt; vm_compute; reflexivity].
  constructor.
  - vm_compute. reflexivity.
  - replace (listed_names demo_raws) with ["a"; "b"; "link"]%string by (vm_compute; reflexivity).
    intros n Hn. repeat (apply elem_of_cons in Hn as [->|Hn]; [vm_compute; reflexivity|]). by apply elem_of_nil in Hn.
  - apply (bool_decide_unpack _). vm_compute. exact I.
  - apply (bool_decide_unpack _). vm_compute. exact I.
  - apply N.leb_le. vm_compute. reflexivity.
Defined.

Lemma list_all_stalls_witness :
  list_all (stalling (mkListed "a" (mkInfo FsRegular 0 0 0))) 1000 0%nat = (1001%nat, None).
Proof. apply (list_all_stalls (mkListed "a" (mkInfo FsRegular 0 0 0)) 1000). reflexivity. Defined.
End Listing.
