(* ===== verification/FileHost.v ===== *)
(** * Remote file operations

    Models the control plane of [file.read], [file.write], [file.list] and
    [file.mkdir]: [handle_file_op] of [crates/qsh-core/src/server/file.rs] and
    the stages of [server/file_host.rs], on a Linux host.  A request is shaped,
    authorized, checked against the protected set and the transfer quota; only
    then is anything opened, and what was opened is checked again by the path
    the handle really has.  A read or write leaves a ticket that owns the
    handle and the transfer slot.

    The handlers run against the interfaces [Authorizer], [AuditSink] and
    [HostOs]; the file system may change between any two calls.  Within one
    call of the authorizer or of the construction of the protected set it is
    taken to stand still.  What a request reads of the clock and of the random
    generator is an argument. *)

From S2P Require Import Prelude Errors Text FsPath FileGuard Identity AuditLog Quota Acl Policy Gate Tickets HostOs InodeScan Listing.

Module FileHost.
Import Text FsPath FileGuard Identity Audit Acl Policy Gate Errors Tickets HostOs InodeScan Listing.

Definition FILE_WRITE_FREE_RESERVE : N := 256 * 1024 * 1024.

(** ** Requests and replies *)

Inductive FileRequest :=
  | FRead (path user : string)
  | FWrite (path user name_if_dir : string) (size mode : N) (overwrite preserve : bool) (mtime : Z)
  | FList (path user after : string)
  | FMkdir (path user name_if_dir : string) (mode : N) (preserve : bool).

(** [FileRequest::op] and the action of its row. *)
Definition request_action (r : FileRequest) : Action :=
  match r with FRead _ _ | FList _ _ _ => FileRead | FWrite _ _ _ _ _ _ _ _ | FMkdir _ _ _ _ _ => FileWrite end.
Definition shape (r : FileRequest) : FileOp :=
  match r with
  | FRead _ _ => FileGuard.Read | FWrite _ _ _ _ _ _ _ _ => FileGuard.Write
  | FList _ _ _ => FileGuard.List | FMkdir _ _ _ _ _ => FileGuard.Mkdir
  end.
Definition request_path (r : FileRequest) : string :=
  match r with FRead p _ | FWrite p _ _ _ _ _ _ _ | FList p _ _ | FMkdir p _ _ _ _ => p end.
Definition request_name (r : FileRequest) : string :=
  match r with FWrite _ _ n _ _ _ _ _ | FMkdir _ _ n _ _ => n | _ => EmptyString end.
Definition request_user (r : FileRequest) : string :=
  match r with FRead _ u | FWrite _ u _ _ _ _ _ _ | FList _ u _ | FMkdir _ u _ _ _ => u end.

Inductive Reply :=
  | RError (e : WireError)
  | RReadOpened (ticket : string) (size mode : N) (mtime : Z)
  | RWriteOpened (ticket : string) (into_dir : bool)
  | RListed (info : StatInfo) (entries : list ListedEntry) (more : bool) (unlistable : N)
  | RMkdirDone (created into_dir : bool)
  | RDrawing. (** no vacant ticket was drawn yet *)

Definition invalid (message : string) : Reply := RError (mkError InvalidArgument message false).

(** The text of a [ShapeError]. *)
Definition shape_text (e : ShapeError) : string :=
  match e with
  | FileGuard.Empty => "path must not be empty"
  | FileGuard.NotUtf8 => "path must be valid UTF-8"
  | FileGuard.Nul => "path must not contain a NUL byte"
  | FileGuard.ShapeTooLong => "path is longer than 4096 bytes"
  | FileGuard.TildeUser => "`~user` paths are not supported; only `~` and `~/...`"
  | FileGuard.NoHome => "the serve account has no home directory"
  | FileGuard.DotLastComponent => "the last path component must not be `.` or `..`"
  | FileGuard.BadName => "name must be one plain path component of at most 255 bytes"
  end.
Definition shape_error (e : ShapeError) : Reply := invalid (shape_text e).

(** [file_io_error] *)
Definition file_io_error (e : IoError) : WireError :=
  match classify_file_error e with
  | EMissing => mkError InvalidArgument "no such file or directory" false
  | EExists => mkError InvalidArgument "destination exists" false
  | EDenied => mkError PermissionDenied PERMISSION_DENIED_MESSAGE false
  | ENoSpace => mkError ResourceExhausted "no space left" false
  | EOther => mkError Internal "file operation failed" false
  end.

(** [Server::io_reply] on a POSIX host *)
Definition io_reply (e : IoError) : Reply := RError (file_io_error e).

(** ** The server *)

(** What is fixed for the process. *)
Record Host (Self : Type) := mkHost {
  h_self : Self;
  h_config : option (Paths * AuditConfig);
  h_serve_home : option string;
  h_env_home : option string;
  h_uid : N;
  h_cwd : option string;
  h_login_matches : string -> bool;
  h_rfc3339 : N -> string;
}.
Arguments mkHost {Self}.
Arguments h_self {Self}.
Arguments h_config {Self}.
Arguments h_serve_home {Self}.
Arguments h_env_home {Self}.
Arguments h_uid {Self}.
Arguments h_cwd {Self}.
Arguments h_login_matches {Self}.
Arguments h_rfc3339 {Self}.

(** What one request reads of the clock and the random generator. *)
Record Inputs := mkInputs {
  in_t : string;
  in_budget : N;
  in_quota : N;
  in_issued : N;
  in_sweep : N;
  in_draws : list string;
}.

Inductive PendingFileOp (Handle : Type) :=
  | OpRead (file : Handle) (size : N)
  | OpWrite (dir : Handle) (name : string) (size mode : N) (overwrite preserve : bool) (mtime : Z) (existed : bool).
Arguments OpRead {Handle} _ _.
Arguments OpWrite {Handle} _ _ _ _ _ _ _ _.

Section Server.
Context {Self St Sink Fs Handle Ex Sn : Type}.
Context `{Authorizer Self St} `{AuditSink Sink} `{Base64} `{OsText} `{HostOs Fs Handle}.

Abbreviation FileTicket := (@Ticket Ex (PendingFileOp Handle) Sn).

(** The state the handlers share. *)
Record World := mkWorld {
  w_st : St;
  w_sink : Sink;
  w_fs : Fs;
  w_quotas : Quota.Quotas;
  w_tickets : gmap string FileTicket;
}.

Definition on_auth {A} (m : act St A) : act World A := fun w =>
  let '(st, a) := m (w_st w) in (mkWorld st (w_sink w) (w_fs w) (w_quotas w) (w_tickets w), a).
Definition on_sink {A} (m : act Sink A) : act World A := fun w =>
  let '(sink, a) := m (w_sink w) in (mkWorld (w_st w) sink (w_fs w) (w_quotas w) (w_tickets w), a).
Definition on_gate {A} (m : act (St * Sink) A) : act World A := fun w =>
  let '((st, sink), a) := m (w_st w, w_sink w) in (mkWorld st sink (w_fs w) (w_quotas w) (w_tickets w), a).
Definition on_fs {A} (m : act Fs A) : act World A := fun w =>
  let '(fs, a) := m (w_fs w) in (mkWorld (w_st w) (w_sink w) fs (w_quotas w) (w_tickets w), a).
Definition on_quotas {A} (m : act Quota.Quotas A) : act World A := fun w =>
  let '(q, a) := m (w_quotas w) in (mkWorld (w_st w) (w_sink w) (w_fs w) q (w_tickets w), a).

(** The normalizer, over the file system as it now is. *)
Definition path_normalizer : act World Normalizer :=
  on_fs (fun fs => let fs := os_yield fs in (fs, normalizer fs)).

(** A connection: [ConnCtx] with its id. *)
Record Conn := mkConn { c_ctx : ConnCtx; c_id : N }.

Variable host : Host Self.

Section Request.
Variables (conn : Conn) (rid : N) (inp : Inputs).

(** What one request carries from stage to stage. *)
Record Stage := mkStage {
  s_action : Action;
  s_path : string;
  s_protected : ProtectedSet;
  s_canonical : string;
  s_must_be_dir : bool;
}.

(** [Server::deny_file] *)
Definition deny_file (action : Action) (resource : string) : act World Reply :=
  let c := c_ctx conn in
  let* _ := on_sink (record (now_record (in_t inp) rid (ctx_principal c) (ctx_auth_path c) action resource Deny None
                               (ctx_peer_addr c))) in
  aret (RError permission_denied).
Definition deny (st : Stage) : act World Reply := deny_file (s_action st) (s_path st).

(** [Server::check_ticket_budget] *)
Definition check_ticket_budget : act World (result unit Reply) := fun w =>
  let '(tickets, expired, count) := pending_tickets_for (c_id conn) (in_budget inp) (w_tickets w) in
  let w := mkWorld (w_st w) (w_sink w) (w_fs w) (drop_tickets expired (w_quotas w)) tickets in
  (w, if MAX_PENDING_TICKETS_PER_CONN <=? count
      then Err (RError (mkError ResourceExhausted "too many outstanding tickets on this connection" true))
      else Ok tt).

(** [write_quota_audit] *)
Fixpoint write_quota_audit (records : list AuditRecord) : act Sink unit :=
  match records with
  | [] => aret tt
  | r :: records => let* _ := record r in write_quota_audit records
  end.

Definition opener : string := opener_key (ctx_principal (c_ctx conn)) (ctx_auth_path (c_ctx conn)).
Definition file_permit : Quota.Permit := Quota.FilePermit opener.

(** [Server::reserve_file_permit] *)
Definition reserve_file_permit : act World (result unit Reply) :=
  let*? _ := check_ticket_budget in
  let* r := on_quotas (Quota.acquire file_permit) in
  match r with
  | Ok _ => aret (Ok tt)
  | Err kind =>
      let c := c_ctx conn in
      let* records := on_quotas (Quota.record_rejection (h_rfc3339 host) kind opener (ctx_peer_addr c) (in_quota inp)
                                   (Some rid) (ctx_auth_path c)) in
      let* _ := on_sink (write_quota_audit records) in
      aret (Err (RError (mkError ResourceExhausted (Quota.wire_message kind) true)))
  end.

(** The permit is dropped. *)
Definition drop_permit : act World unit := on_quotas (fun q => (Quota.surrender file_permit q, tt)).

(** [Server::issue_ticket] of a file ticket *)
Definition issue_file_ticket (op : PendingFileOp Handle) : act World (option string) := fun w =>
  match issue_ticket (c_id conn) (PFile op file_permit) (in_issued inp) (in_sweep inp) (in_draws inp) (w_tickets w) with
  | Some (tickets, expired, k) =>
      (mkWorld (w_st w) (w_sink w) (w_fs w) (drop_tickets expired (w_quotas w)) tickets, Some k)
  | None => (w, None)
  end.

(** [Server::recheck]: the second look, at an open handle. *)
Definition reevaluate (st : Stage) (child : option string) (eval_child : bool) (path : string) : act World bool :=
  if match child with Some c => denies (s_protected st) (push path c) | None => false end then aret false
  else
    let target := match child with Some c => if eval_child then push path c else path | None => path end in
    let* n := path_normalizer in
    amap is_allow (on_auth (check (h_self host) (requester (c_ctx conn)) (s_action st)
                              (with_canonical_path (unowned (s_path st)) target n))).

Definition recheck (st : Stage) (h : Handle) (child : option string) (eval_child : bool) : act World bool :=
  let* resolved := on_fs (handle_path h) in
  match resolved with
  | Err _ => aret false
  | Ok path => if denies (s_protected st) path then aret false else reevaluate st child eval_child path
  end.

(** ** [file.read] *)

Definition file_read_open (st : Stage) : act World (result (Handle * StatInfo) Reply) :=
  let* r := on_fs (os_open_read (s_canonical st)) in
  match r with
  | Err e => aret (Err (io_reply e))
  | Ok file =>
      let* ok := recheck st file None false in
      if negb ok then amap Err (deny st)
      else
        let* scan := on_fs (collect (s_protected st)) in
        match scan with
        | Some (Ok inodes) =>
            let* target := on_fs (check_read_target file inodes) in
            match target with
            | Err (NotRegular _) => aret (Err (invalid "path is not a regular file"))
            | Err _ => amap Err (deny st)
            | Ok _ =>
                if s_must_be_dir st then aret (Err (invalid "path is not a directory"))
                else
                  let* info := on_fs (fstat file) in
                  aret (match info with Ok info => Ok (file, info) | Err e => Err (io_reply e) end)
            end
        | _ => amap Err (deny st)
        end
  end.

(** [Server::file_read] *)
Definition file_read (st : Stage) : act World Reply :=
  let* r := file_read_open st in
  match r with
  | Err reply => let* _ := drop_permit in aret reply
  | Ok (file, info) =>
      let* k := issue_file_ticket (OpRead file (i_size info)) in
      aret (match k with Some k => RReadOpened k (i_size info) (i_mode info) (i_mtime info) | None => RDrawing end)
  end.

(** ** [file.write] and [file.mkdir] *)

Record Target := mkTarget { t_dir : Handle; t_name : string; t_into_dir : bool }.

Definition rechecked (st : Stage) (h : Handle) (name : string) (eval_child into_dir : bool) : act World (result Target Reply) :=
  let* ok := recheck st h (Some name) eval_child in
  if negb ok then amap Err (deny st) else aret (Ok (mkTarget h name into_dir)).

(** [Server::open_target] *)
Definition open_target (st : Stage) (name_if_dir : string) : act World (result Target Reply) :=
  let into_name := if is_empty name_if_dir then None else Some name_if_dir in
  match file_name (s_canonical st) with
  | None =>
      let* r := on_fs (os_open_dir (s_canonical st)) in
      match r with
      | Err e => aret (Err (io_reply e))
      | Ok dir =>
          match into_name with
          | None => aret (Err (invalid "destination is a directory"))
          | Some name => rechecked st dir name false true
          end
      end
  | Some final_name =>
      let* r := on_fs (os_open_dir (default (s_canonical st) (parent (s_canonical st)))) in
      match r with
      | Err e => aret (Err (io_reply e))
      | Ok par =>
          let* r := on_fs (stat_at par final_name) in
          match r with
          | Err e => aret (Err (io_reply e))
          | Ok existing =>
              let is_dir := match existing with Some i => bool_decide (i_kind i = FsDirectory) | None => false end in
              match is_dir, into_name with
              | true, Some name =>
                  let* r := on_fs (open_dir_at par final_name) in
                  match r with
                  | Err e => aret (Err (io_reply e))
                  | Ok dir => rechecked st dir name false true
                  end
              | _, _ => rechecked st par final_name true false
              end
          end
      end
  end.

(** The checks of [Server::file_write] before its ticket. *)
Definition file_write_open (st : Stage) (name_if_dir : string) (size : N) (overwrite : bool)
    : act World (result (Target * bool) Reply) :=
  let*? target := open_target st name_if_dir in
  let* r := on_fs (stat_at (t_dir target) (t_name target)) in
  match r with
  | Err e => aret (Err (io_reply e))
  | Ok existing =>
      let existed :=
        match existing with
        | None => Ok false
        | Some i =>
            match i_kind i with
            | FsRegular => if negb overwrite then Err (invalid "destination exists") else Ok true
            | FsDirectory => Err (invalid "destination is a directory")
            | _ => Err (invalid "destination is not a regular file")
            end
        end in
      match existed with
      | Err reply => aret (Err reply)
      | Ok existed =>
          if s_must_be_dir st && negb (t_into_dir target) then aret (Err (invalid "path is not a directory"))
          else
            let* space := on_fs (available_bytes (t_dir target)) in
            aret (match space with
                  | Ok available =>
                      if available <? (size + FILE_WRITE_FREE_RESERVE) `min` U64_MAX
                      then Err (RError (mkError ResourceExhausted "no space left" false))
                      else Ok (target, existed)
                  | Err e => Err (io_reply e)
                  end)
      end
  end.

(** [Server::file_write] *)
Definition file_write (st : Stage) (name_if_dir : string) (size mode : N) (overwrite preserve : bool) (mtime : Z)
    : act World Reply :=
  let* r := file_write_open st name_if_dir size overwrite in
  match r with
  | Err reply => let* _ := drop_permit in aret reply
  | Ok (target, existed) =>
      let* k := issue_file_ticket (OpWrite (t_dir target) (t_name target) size (N.land mode 511) overwrite preserve mtime existed) in
      aret (match k with Some k => RWriteOpened k (t_into_dir target) | None => RDrawing end)
  end.

(** [Server::file_mkdir] *)
Definition file_mkdir (st : Stage) (name_if_dir : string) (mode : N) (preserve : bool) : act World Reply :=
  let* r := open_target st name_if_dir in
  match r with
  | Err reply => aret reply
  | Ok target =>
      if s_must_be_dir st && negb (is_empty name_if_dir) && negb (t_into_dir target)
      then aret (invalid "path is not a directory")
      else
        let* r := on_fs (mkdir_at (t_dir target) (t_name target) mode preserve) in
        aret (match r with
              | Err e => io_reply e
              | Ok ExistsNotDirectory => invalid "a file with that name exists"
              | Ok outcome => RMkdirDone (bool_decide (outcome = Created)) (t_into_dir target)
              end)
  end.

(** ** [file.list] *)

(** [Server::file_list_object] *)
Definition file_list_object (st : Stage) : act World Reply :=
  match parent (s_canonical st), file_name (s_canonical st) with
  | Some par, Some name =>
      let* r := on_fs (os_open_dir par) in
      match r with
      | Err e => aret (io_reply e)
      | Ok par =>
          let* ok := recheck st par (Some name) true in
          if negb ok then deny st
          else
            let* r := on_fs (stat_at par name) in
            aret (match r with
                  | Ok (Some info) => if s_must_be_dir st then invalid "path is not a directory" else RListed info [] false 0
                  | Ok None => invalid "no such file or directory"
                  | Err e => io_reply e
                  end)
      end
  | _, _ => aret (invalid "no such file or directory")
  end.

(** [Server::file_list] *)
Definition file_list (st : Stage) (after : string) : act World Reply :=
  let* r := on_fs (os_open_dir (s_canonical st)) in
  match r with
  | Ok dir =>
      let* ok := recheck st dir None false in
      if negb ok then deny st
      else
        let* r := on_fs (fstat dir) in
        match r with
        | Err e => aret (io_reply e)
        | Ok info =>
            let* listing := on_fs (list_dir dir after FILE_LIST_PAGE_MAX FILE_LIST_DIR_MAX) in
            aret (match listing with
                  | Ok page => RListed info (p_entries page) (p_more page) (p_unlistable page)
                  | Err (TooManyEntries _) => RError (mkError ResourceExhausted "directory has too many entries" false)
                  | Err (ListIo kind) => io_reply (Simple kind)
                  end)
        end
  | Err e => if is_not_a_directory_error e then file_list_object st else aret (io_reply e)
  end.

(** ** The stages *)

(** Stages 5 to 7. *)
Definition run_request (req : FileRequest) (st : Stage) : act World Reply :=
  match req with
  | FRead _ _ =>
      let* r := reserve_file_permit in
      match r with Ok _ => file_read st | Err reply => aret reply end
  | FWrite _ _ name size mode overwrite preserve mtime =>
      let* r := reserve_file_permit in
      match r with Ok _ => file_write st name size mode overwrite preserve mtime | Err reply => aret reply end
  | FList _ _ after => file_list st after
  | FMkdir _ _ name mode preserve => file_mkdir st name mode preserve
  end.

(** Stage 4: the state paths. *)
Definition state_path_stage (req : FileRequest) (shaped : ShapedPath) (normalized : option (result string NormalizeError))
    : act World Reply :=
  let action := request_action req in
  match h_config host with
  | None => deny_file action (request_path req)
  | Some (paths, audit) =>
      let* canonical := match normalized with
                        | Some r => aret r
                        | None => let* n := path_normalizer in aret (n (sp_absolute shaped))
                        end in
      match canonical with
      | Err _ => deny_file action (request_path req)
      | Ok canonical =>
          let* n := path_normalizer in
          let protected := for_process paths audit (h_serve_home host) (h_env_home host) (h_uid host) (h_cwd host) n in
          if denies protected canonical
             || (negb (is_empty (request_name req)) && denies protected (push canonical (request_name req)))
          then deny_file action (request_path req)
          else run_request req (mkStage action (request_path req) protected canonical (must_be_dir shaped))
      end
  end.

Definition USER_SWITCH : WireError :=
  mkError Unsupported "user switching is not supported: file operations run as the qsh serve account" false.

(** [Server::file_op_after_shape] *)
Definition file_op_after_shape (req : FileRequest) (shaped : ShapedPath) : act World Reply :=
  let action := request_action req in
  let c := c_ctx conn in
  let* ground := on_auth (has_file_grant (h_self host) (requester c) action) in
  let* normalized := if ground then let* n := path_normalizer in aret (Some (n (sp_absolute shaped))) else aret None in
  let* resource := match normalized with
                   | Some (Ok path) =>
                       let* n := path_normalizer in aret (with_canonical_path (unowned (request_path req)) path n)
                   | _ => aret (unowned (request_path req))
                   end in
  let* decided := on_gate (authorize_owned (h_self host) (in_t inp) c rid action resource) in
  match decided with
  | Err denied => aret (RError denied)
  | Ok _ =>
      if negb (is_empty (request_user req)) && negb (h_login_matches host (request_user req)) then aret (RError USER_SWITCH)
      else state_path_stage req shaped normalized
  end.

(** [Server::handle_file_op] *)
Definition handle_file_op (req : FileRequest) : act World Reply :=
  match shape_path (request_path req) (shape req) (h_serve_home host) with
  | Err e => aret (shape_error e)
  | Ok shaped =>
      match (if creates (shape req) && negb (is_empty (request_name req)) then shape_name_if_dir (request_name req) else Ok tt) with
      | Err e => aret (shape_error e)
      | Ok _ => file_op_after_shape req shaped
      end
  end.
End Request.
End Server.
End FileHost.
