(* ===== verification/FileSafety.v ===== *)
(** * What the file operations promise

    Properties of [FileHost.handle_file_op], for every file system, every
    audit sink and every authorizer (or every authorizer that keeps the
    promise [Grounded]): a requester without ground reaches nothing, and
    transfer slots are exactly the permits that tickets hold. *)

From S2P Require Import Prelude Errors Text FsPath FileGuard Identity AuditLog Counter Quota Acl Policy Gate Tickets HostOs InodeScan Listing FileHost.
From S2P Require Import TrustStore Trust.

Module FileSafety.
Import Text FsPath FileGuard Identity Audit Acl Policy Gate Errors Tickets HostOs InodeScan Listing FileHost.

(** ** No ground, no touch *)

(** What the file operations rely on: a requester for whom
    [has_file_grant] finds no ground is allowed nothing right after. *)
Class Grounded (Self St : Type) `{Authorizer Self St} (ok : St -> Prop) :=
  grounded self q action res st :
    ok st -> is_file action = true -> snd (has_file_grant self q action st) = false ->
    is_allow (snd (check self q action res (fst (has_file_grant self q action st)))) = false.

(** The policy file alone keeps it, *)
#[global] Instance Policy_grounded `{Base64} `{OsText} {St} : Grounded Rules St (fun _ => True).
Proof.
  intros rules q action res st _ Hf Hno. cbn [has_file_grant check Policy_authorizer fst snd] in *. apply not_true_iff_false. intros Hv.
  apply file_grant_basis_necessary in Hv; [congruence|done].
Qed.

(** and so does the authorizer that reads the trust store. *)
#[global] Instance RoleResolving_grounded {Cert} `{TrustStore.TrustFormat Cert} `{Base64} `{OsText} :
  Grounded Trust.RoleResolvingAuthorizer Trust.Shared (fun w => Trust.wf_cache (Trust.cache w)).
Proof.
  intros [rules] q action res w Hwf Hf. cbn [has_file_grant check Trust.RoleResolving_authorizer Trust.rra_policy].
  pose proof (Trust.resolve_standing_disk (q_principal q) (q_auth_path q) (q_fingerprint q) w Hwf) as Hr.
  destruct (Trust.resolve_standing _ _ _ w) as [w1 s1]. destruct Hr as (Hwf1 & Hd1 & ->). cbn [fst snd].
  pose proof (Trust.resolve_standing_disk (q_principal q) (q_auth_path q) (q_fingerprint q) w1 Hwf1) as Hr.
  destruct (Trust.resolve_standing _ _ _ w1) as [w2 s2]. destruct Hr as (_ & _ & ->). cbn [fst snd]. rewrite Hd1.
  intros Hno. apply not_true_iff_false. intros Hv. apply file_grant_basis_necessary in Hv; [congruence|done].
Qed.

Lemma request_is_file req : is_file (request_action req) = true.
Proof. by destruct req. Qed.

Section Ground.
Context {Self St Sink Fs Handle Ex Sn : Type}.
Context `{Authorizer Self St} `{AuditSink Sink} `{Base64} `{OsText} `{HostOs Fs Handle} (ok : St -> Prop) `{!Grounded Self St ok}.

(** C19: A requester without ground for the action makes the host do nothing:
    no file system call, no ticket and no transfer slot, and the reply is the
    uniform refusal, unless the request is malformed. *)
Theorem no_ground_no_touch (host : Host Self) conn rid inp req (w : @World St Sink Fs Handle Ex Sn) :
  ok (w_st w) ->
  snd (has_file_grant (h_self host) (requester (c_ctx conn)) (request_action req) (w_st w)) = false ->
  let '(w', reply) := handle_file_op host conn rid inp req w in
  w_fs w' = w_fs w /\ w_quotas w' = w_quotas w /\ w_tickets w' = w_tickets w
  /\ (reply = RError permission_denied \/ exists e, reply = shape_error e).
Proof.
  intros Hok Hno. unfold handle_file_op. destruct (shape_path _ _ _) as [shaped|e]; [|unfold aret; eauto 10].
  destruct (if _ && _ then _ else _) as [_|e]; [|unfold aret; eauto 10].
  pose proof (grounded (h_self host) (requester (c_ctx conn)) (request_action req) (unowned (request_path req)) (w_st w)
                Hok (request_is_file req) Hno) as Hdeny.
  unfold file_op_after_shape, abind, on_auth. destruct (has_file_grant _ _ _ (w_st w)) as [st ground]. cbn [fst snd] in Hno, Hdeny. subst ground.
  cbn [aret]. unfold on_gate, authorize_owned. cbn [w_st w_sink]. destruct (check _ _ _ _ st) as [st' v]. cbn [snd] in Hdeny.
  rewrite Hdeny. cbn [negb orb]. destruct (record _ (w_sink w)) as [sink recorded]. cbn. auto.
Qed.
End Ground.

(** ** Transfer slots *)

Section Permits.
Import Counter.

Lemma occ_perm {K} `{Countable K} (k : K) l l' : l ≡ₚ l' -> occ k l = occ k l'.
Proof. induction 1; cbn; try lia. Qed.

Lemma live_perm {K} (f : Quota.Permit -> option K) l l' : l ≡ₚ l' -> Quota.live f l ≡ₚ Quota.live f l'.
Proof. intros E. unfold Quota.live. by rewrite E. Qed.

Lemma counts_perm {K} `{Countable K} (m : gmap K N) l l' : l ≡ₚ l' -> counts m l -> counts m l'.
Proof. intros E Hc k. by rewrite (Hc k), (occ_perm k _ _ E). Qed.

Lemma exact_perm s ps ps' : ps ≡ₚ ps' -> Quota.Exact s ps -> Quota.Exact s ps'.
Proof.
  intros E []. constructor; try (by eapply counts_perm; [apply live_perm, E|]).
  rewrite ex_pairing. unfold len. by rewrite (live_perm Quota.pairing_key _ _ E).
Qed.

Lemma exact_surrender l : forall q ps,
  Quota.Exact (Quota.state q) (l ++ ps) ->
  Quota.Exact (Quota.state (foldl (fun q pm => Quota.surrender pm q) q l)) ps.
Proof.
  induction l as [|pm l IH]; intros q ps He; [done|]. cbn [foldl]. apply IH.
  exact (Quota.exact_drop _ _ 0%nat pm He eq_refl).
Qed.
End Permits.

Section Slots.
Context {Self St Sink Fs Handle Ex Sn : Type}.
Context `{Authorizer Self St} `{AuditSink Sink} `{Base64} `{OsText} `{HostOs Fs Handle}.
Abbreviation World := (@World St Sink Fs Handle Ex Sn).

(** The quotas count exactly the permits [ext] and those of the tickets. *)
Definition Accounted (ext : list Quota.Permit) (w : World) : Prop :=
  Quota.Exact (Quota.state (w_quotas w)) (ext ++ omap permit_of (held (w_tickets w))).

(** [m] touches neither the quotas nor the tickets. *)
Definition off_books {A} (m : act World A) : Prop := forall w,
  w_quotas (fst (m w)) = w_quotas w /\ w_tickets (fst (m w)) = w_tickets w.

Lemma off_ret {A} (a : A) : off_books (aret a).
Proof. done. Qed.
Lemma off_bind {A B} (m : act World A) (k : A -> act World B) :
  off_books m -> (forall a, off_books (k a)) -> off_books (abind m k).
Proof.
  intros Hm Hk w. unfold abind. specialize (Hm w). destruct (m w) as [w1 a]. destruct (Hk a w1) as [-> ->]. exact Hm.
Qed.
Lemma off_map {A B} (f : A -> B) (m : act World A) : off_books m -> off_books (amap f m).
Proof. intros Hm. apply off_bind; [done|]. intros. apply off_ret. Qed.
Lemma off_try {A B E} (m : act World (result A E)) (k : A -> act World (result B E)) :
  off_books m -> (forall a, off_books (k a)) -> off_books (atry m k).
Proof. intros Hm Hk. apply off_bind; [done|]. intros [a|e]; [apply Hk|apply off_ret]. Qed.
Lemma off_fs {A} (m : act Fs A) : off_books (on_fs m).
Proof. intros w. unfold on_fs. by destruct (m (w_fs w)). Qed.
Lemma off_sink {A} (m : act Sink A) : off_books (on_sink m).
Proof. intros w. unfold on_sink. by destruct (m (w_sink w)). Qed.
Lemma off_auth {A} (m : act St A) : off_books (on_auth m).
Proof. intros w. unfold on_auth. by destruct (m (w_st w)). Qed.
Lemma off_gate {A} (m : act (St * Sink) A) : off_books (on_gate m).
Proof. intros w. unfold on_gate. by destruct (m (w_st w, w_sink w)) as [[]]. Qed.

Ltac off :=
  repeat first
    [ simple apply off_ret | simple apply off_fs | simple apply off_sink | simple apply off_auth | simple apply off_gate
    | simple apply off_map | simple apply off_bind; [|intros] | simple apply off_try; [|intros]
    | progress unfold deny, deny_file, path_normalizer, recheck, reevaluate, rechecked
    | match goal with |- off_books (match ?x with _ => _ end) => destruct x end
    | match goal with |- off_books (if ?b then _ else _) => destruct b end ].

Variables (host : Host Self) (conn : Conn) (rid : N) (inp : Inputs).

Lemma read_off st : off_books (file_read_open host conn rid inp st).
Proof. unfold file_read_open. off. Qed.
Lemma target_off st name : off_books (open_target host conn rid inp st name).
Proof. unfold open_target. off. Qed.
Lemma write_off st name size overwrite : off_books (file_write_open host conn rid inp st name size overwrite).
Proof. unfold file_write_open. apply off_try; [apply target_off|intros]. off. Qed.
Lemma mkdir_off st name mode preserve : off_books (file_mkdir host conn rid inp st name mode preserve).
Proof. unfold file_mkdir. apply off_bind; [apply target_off|intros]. off. Qed.
Lemma list_off st after : off_books (file_list host conn rid inp st after).
Proof. unfold file_list, file_list_object. off. Qed.

Lemma off_accounted {A} (m : act World A) ext w : off_books m -> Accounted ext w -> Accounted ext (fst (m w)).
Proof. intros Hm. unfold Accounted. by destruct (Hm w) as [-> ->]. Qed.

Abbreviation pm := (file_permit conn).

Lemma drop_accounted ext w : Accounted (pm :: ext) w -> Accounted ext (fst (drop_permit conn w)).
Proof. intros Ha. exact (Quota.exact_drop _ _ 0%nat pm Ha eq_refl). Qed.

Lemma expired_accounted ext (keep : Ticket -> bool) (w : World) tickets expired :
  extract_tickets keep (w_tickets w) = (tickets, expired) -> Accounted ext w ->
  Quota.Exact (Quota.state (drop_tickets expired (w_quotas w))) (ext ++ omap permit_of (held tickets)).
Proof.
  intros E Ha. unfold drop_tickets. apply exact_surrender. eapply exact_perm; [|exact Ha].
  pose proof (extract_held keep (w_tickets w)) as Hh. rewrite E in Hh. cbn [fst snd] in Hh. rewrite Hh, omap_app.
  rewrite (Permutation_app_comm (omap permit_of (held tickets))). rewrite !app_assoc. by rewrite (Permutation_app_comm ext).
Qed.

Lemma budget_accounted ext w : Accounted ext w -> Accounted ext (fst (check_ticket_budget conn inp w)).
Proof.
  intros Ha. unfold check_ticket_budget, pending_tickets_for. destruct (extract_tickets _ _) as [tickets expired] eqn:E.
  by apply (expired_accounted ext _ w tickets expired E).
Qed.

Lemma issue_accounted ext op w :
  Accounted (pm :: ext) w ->
  let '(w', k) := issue_file_ticket conn inp op w in
  Accounted (match k with Some _ => ext | None => pm :: ext end) w'.
Proof.
  intros Ha. unfold issue_file_ticket, issue_ticket. destruct (extract_tickets _ _) as [tickets expired] eqn:E.
  destruct (draw_vacant tickets _) as [k|] eqn:Ek; [|done].
  pose proof (expired_accounted _ _ _ _ _ E Ha) as Hx. eapply exact_perm; [|exact Hx].
  cbn [w_tickets]. rewrite (held_insert _ k _ (draw_vacant_none _ _ _ Ek)). cbn. apply Permutation_middle.
Qed.

Lemma reserve_accounted ext w :
  Accounted ext w ->
  let '(w', r) := reserve_file_permit host conn rid inp w in
  Accounted (match r with Ok _ => pm :: ext | Err _ => ext end) w'.
Proof.
  intros Ha. unfold reserve_file_permit, atry, abind. pose proof (budget_accounted ext w Ha) as Hb.
  destruct (check_ticket_budget conn inp w) as [w1 [[]|e]]; [|done]. cbn [fst] in Hb.
  unfold on_quotas, Quota.acquire. destruct (Quota.reserve _ _ _) as [s|kind] eqn:E.
  - unfold Accounted. cbn [aret w_quotas w_tickets Quota.state]. eapply exact_perm; [|by eapply Quota.exact_reserve].
    rewrite Permutation_app_comm. done.
  - cbn [w_quotas]. unfold Quota.record_rejection. destruct (Quota.reject_in _ _ _ _ _ _ _ _) as [c rs].
    unfold on_sink. destruct (write_quota_audit rs _) as [sink []]. exact Hb.
Qed.

(** What a running handler still holds: its permit, while it draws a
    ticket. *)
Definition pending (r : Reply) (ext : list Quota.Permit) : list Quota.Permit :=
  match r with RDrawing => pm :: ext | _ => ext end.

(** A reply of a handler that is done; a refusal is the uniform one. *)
Definition settled (r : Reply) : Prop :=
  match r with RDrawing => False | RError e => code e = PermissionDenied -> e = permission_denied | _ => True end.
Definition settled_err {A} (r : result A Reply) : Prop := match r with Err r => settled r | Ok _ => True end.

(** What [m] answers. *)
Definition yields {A} (Q : A -> Prop) (m : act World A) : Prop := forall w, Q (snd (m w)).

Lemma yields_ret {A} (Q : A -> Prop) a : Q a -> yields Q (aret a).
Proof. by intros Ha w. Qed.
Lemma yields_bind {A B} (Q : B -> Prop) (m : act World A) (k : A -> act World B) :
  (forall a, yields Q (k a)) -> yields Q (abind m k).
Proof. intros Hk w. unfold abind. destruct (m w) as [w1 a]. apply Hk. Qed.
Lemma yields_bind_if {A B} (P : A -> Prop) (Q : B -> Prop) (m : act World A) (k : A -> act World B) :
  yields P m -> (forall a, P a -> yields Q (k a)) -> yields Q (abind m k).
Proof. intros Hm Hk w. unfold abind. specialize (Hm w). destruct (m w) as [w1 a]. by apply Hk. Qed.
Lemma yields_try {A B} (m : act World (result A Reply)) (k : A -> act World (result B Reply)) :
  yields settled_err m -> (forall a, yields settled_err (k a)) -> yields settled_err (atry m k).
Proof.
  intros Hm Hk w. unfold atry, abind. specialize (Hm w). destruct (m w) as [w1 [a|e]]; [apply Hk|exact Hm].
Qed.
Lemma yields_err {A} (m : act World Reply) : yields settled m -> yields (@settled_err A) (amap Err m).
Proof. intros Hm w. unfold amap, abind. specialize (Hm w). by destruct (m w). Qed.
Lemma io_settled e : settled (io_reply e).
Proof. unfold io_reply, file_io_error. by destruct (classify_file_error e). Qed.

Ltac yield :=
  repeat first
    [ simple apply yields_ret | simple apply yields_err | simple apply yields_bind; intros
    | progress unfold deny, deny_file, rechecked
    | match goal with |- yields _ (match ?x with _ => _ end) => destruct x end
    | match goal with |- yields _ (if ?b then _ else _) => destruct b end
    | match goal with |- settled_err (match ?x with _ => _ end) => destruct x end
    | match goal with |- settled_err (if ?b then _ else _) => destruct b end
    | match goal with |- settled (match ?x with _ => _ end) => destruct x end
    | apply io_settled | exact I | done ].

Lemma pending_settled r ext : settled r -> pending r ext = ext.
Proof. by destruct r. Qed.

(** The end of a transfer request: the permit goes into a ticket or back. *)
Lemma finish_accounted {A} (m : act World (result A Reply)) (k : A -> act World Reply) (op : A -> PendingFileOp Handle)
    (done : A -> string -> Reply) ext w :
  (forall a, k a = let* t := issue_file_ticket conn inp (op a) in
                   aret (match t with Some t => done a t | None => RDrawing end)) ->
  off_books m -> yields settled_err m -> (forall a k, settled (done a k)) ->
  Accounted (pm :: ext) w ->
  let '(w', r) := (let* r := m in
                   match r with
                   | Err reply => let* _ := drop_permit conn in aret reply
                   | Ok a => k a
                   end) w in
  Accounted (pending r ext) w'.
Proof.
  intros Hk Hoff Herr Hdone Ha. unfold abind at 1. pose proof (off_accounted m _ w Hoff Ha) as Ha1. specialize (Herr w).
  destruct (m w) as [w1 [a|reply]]; cbn [fst snd] in *.
  - rewrite Hk. unfold abind. pose proof (issue_accounted ext (op a) w1 Ha1) as Hi.
    destruct (issue_file_ticket _ _ _ w1) as [w2 [t|]]; [|exact Hi]. cbn [aret]. by rewrite pending_settled.
  - unfold abind. pose proof (drop_accounted ext w1 Ha1) as Hd. destruct (drop_permit conn w1) as [w2 []]. cbn [fst aret] in *.
    by rewrite pending_settled.
Qed.

Lemma read_settled st : yields settled_err (file_read_open host conn rid inp st).
Proof. unfold file_read_open. yield. Qed.
Lemma target_settled st name : yields settled_err (open_target host conn rid inp st name).
Proof. unfold open_target. yield. Qed.
Lemma write_settled st name size overwrite : yields settled_err (file_write_open host conn rid inp st name size overwrite).
Proof.
  unfold file_write_open. apply yields_try; [apply target_settled|intros target]. apply yields_bind. intros [existing|e]; [|yield].
  destruct existing as [[[] ???]|], overwrite; cbn [i_kind negb]; yield.
Qed.
Lemma reserve_settled : yields settled_err (reserve_file_permit host conn rid inp).
Proof.
  unfold reserve_file_permit. apply yields_try; [|intros; yield].
  intros w. unfold check_ticket_budget. destruct (pending_tickets_for _ _ _) as [[tickets expired] count]. cbn. by case_match.
Qed.
Lemma list_settled st after : yields settled (file_list host conn rid inp st after).
Proof. unfold file_list, file_list_object. yield. Qed.
Lemma mkdir_settled st name mode preserve : yields settled (file_mkdir host conn rid inp st name mode preserve).
Proof.
  unfold file_mkdir. apply (yields_bind_if settled_err); [apply target_settled|]. intros [target|e] Ht; [|by apply yields_ret].
  yield.
Qed.

Lemma run_accounted req st ext w :
  Accounted ext w -> let '(w', r) := run_request host conn rid inp req st w in Accounted (pending r ext) w'.
Proof.
  intros Ha. destruct req as [path user|path user name size mode overwrite preserve mtime|path user after|path user name mode preserve];
    cbn [run_request].
  - unfold abind at 1. pose proof (reserve_accounted ext w Ha) as Hr. pose proof (reserve_settled w) as Hs.
    destruct (reserve_file_permit _ _ _ _ w) as [w1 [[]|e]]; [|unfold aret; by rewrite pending_settled].
    refine (finish_accounted (file_read_open host conn rid inp st) _ (fun a => OpRead (fst a) (i_size (snd a)))
             (fun a k => RReadOpened k (i_size (snd a)) (i_mode (snd a)) (i_mtime (snd a))) ext w1 _ (read_off st) (read_settled st) _ Hr);
      [by intros []|done].
  - unfold abind at 1. pose proof (reserve_accounted ext w Ha) as Hr. pose proof (reserve_settled w) as Hs.
    destruct (reserve_file_permit _ _ _ _ w) as [w1 [[]|e]]; [|unfold aret; by rewrite pending_settled].
    refine (finish_accounted (file_write_open host conn rid inp st name size overwrite) _
             (fun a => OpWrite (t_dir (fst a)) (t_name (fst a)) size (N.land mode 511) overwrite preserve mtime (snd a))
             (fun a k => RWriteOpened k (t_into_dir (fst a))) ext w1 _ (write_off _ _ _ _) (write_settled _ _ _ _) _ Hr);
      [by intros []|done].
  - pose proof (off_accounted _ ext w (list_off st after) Ha) as Hl. pose proof (list_settled st after w) as Hs.
    destruct (file_list _ _ _ _ _ _ w) as [w1 r]. by rewrite pending_settled.
  - pose proof (off_accounted _ ext w (mkdir_off st name mode preserve) Ha) as Hl. pose proof (mkdir_settled st name mode preserve w) as Hs.
    destruct (file_mkdir _ _ _ _ _ _ _ _ w) as [w1 r]. by rewrite pending_settled.
Qed.

Definition accounts (m : act World Reply) : Prop := forall ext w,
  Accounted ext w -> let '(w', r) := m w in Accounted (pending r ext) w'.

Lemma accounts_bind_if {A} (P : A -> Prop) (m : act World A) (k : A -> act World Reply) :
  off_books m -> yields P m -> (forall a, P a -> accounts (k a)) -> accounts (abind m k).
Proof.
  intros Hm Hp Hk ext w Ha. unfold abind. pose proof (off_accounted m ext w Hm Ha) as Ha1. specialize (Hp w).
  destruct (m w) as [w1 a]. by apply Hk.
Qed.
Lemma accounts_bind {A} (m : act World A) (k : A -> act World Reply) :
  off_books m -> (forall a, accounts (k a)) -> accounts (abind m k).
Proof. intros Hm Hk. by apply (accounts_bind_if (fun _ => True)). Qed.
Lemma accounts_off (m : act World Reply) : off_books m -> yields settled m -> accounts m.
Proof.
  intros Hm Hs ext w Ha. pose proof (off_accounted m ext w Hm Ha) as Ha1. specialize (Hs w). destruct (m w) as [w1 r].
  by rewrite pending_settled.
Qed.
Lemma gate_settled t c action res :
  yields (fun r => match r with Ok _ => True | Err e => e = permission_denied end) (on_gate (authorize_owned (h_self host) t c rid action res)).
Proof.
  intros w. unfold on_gate, authorize_owned. destruct (check _ _ _ _ _) as [st v]. destruct (record _ _) as [sink recorded].
  cbn. by destruct (_ || _).
Qed.
Lemma deny_accounts action res : accounts (deny_file conn rid inp action res).
Proof. apply accounts_off; [off|yield]. Qed.
Lemma ret_accounts r : settled r -> accounts (aret r).
Proof. intros Hr. by apply accounts_off; [|apply yields_ret]. Qed.

Lemma stage_accounts req shaped normalized : accounts (state_path_stage host conn rid inp req shaped normalized).
Proof.
  unfold state_path_stage. destruct (h_config host) as [[paths audit]|]; [|apply deny_accounts].
  apply accounts_bind; [off|intros [canonical|e]; [|apply deny_accounts]]. apply accounts_bind; [off|intros n].
  destruct (_ || _); [apply deny_accounts|]. intros ext w. apply run_accounted.
Qed.
Lemma shaped_accounts req shaped : accounts (file_op_after_shape host conn rid inp req shaped).
Proof.
  unfold file_op_after_shape. apply accounts_bind; [off|intros ground]. apply accounts_bind; [off|intros normalized].
  apply accounts_bind; [off|intros res]. eapply accounts_bind_if; [off|apply gate_settled|].
  intros [[]|e] He; [|subst; by apply ret_accounts]. destruct (_ && _); [by apply ret_accounts|apply stage_accounts].
Qed.
End Slots.

(** C20: Transfer slots are never lost and never counted twice: when the quotas
    count exactly the permits held elsewhere and those of the tickets, they
    still do after any file request, whatever it met; only a request that is
    still drawing a ticket holds a permit of its own. *)
Theorem slots_accounted {Self St Sink Fs Handle Ex Sn : Type} `{Authorizer Self St} `{AuditSink Sink} `{Base64} `{OsText}
    `{HostOs Fs Handle} (host : Host Self) conn rid inp req ext (w : @World St Sink Fs Handle Ex Sn) :
  Quota.Exact (Quota.state (w_quotas w)) (ext ++ omap permit_of (held (w_tickets w))) ->
  let '(w', reply) := handle_file_op host conn rid inp req w in
  Quota.Exact (Quota.state (w_quotas w'))
    ((match reply with RDrawing => file_permit conn :: ext | _ => ext end) ++ omap permit_of (held (w_tickets w'))).
Proof.
  intros Ha. unfold handle_file_op. destruct (shape_path _ _ _) as [shaped|e]; [|exact Ha].
  destruct (if _ && _ then _ else _) as [[]|e]; [|exact Ha]. exact (shaped_accounts host conn rid inp req shaped ext w Ha).
Qed.

(** ** Examples *)

#[local] Existing Instance letters_base64.
#[local] Existing Instance ascii_text.
#[local] Existing Instance static_os.
#[local] Instance demo_sink : AuditSink Log := log_sink (fun _ _ => true).

Definition demo_files : Rules := [mkRule "device:laptop" Pin [Prefix "file."] Any (Some ["/"%string])].
Definition demo_host (rules : Rules) : Host Rules :=
  mkHost rules (Some (mkPaths "/s" "/s" "/s", mkAuditConfig None None)) (Some "/home/u"%string) None 1000 (Some "/"%string)
    (fun u => String.eqb u "u") (fun _ => "t"%string).
Definition demo_conn : Conn := mkConn (mkCtx (Device "laptop") Pin None "192.0.2.1:4433") 7.
Definition demo_inputs : Inputs := mkInputs "t" 0 0 0 0 ["k1"%string].
Definition demo_world : @World unit Log StaticFs string unit unit :=
  mkWorld tt [] demo_fs (Quota.new Quota.default_limits) ∅.
Definition demo_reply (rules : Rules) (req : FileRequest) : Reply :=
  snd (handle_file_op (demo_host rules) demo_conn 1 demo_inputs req demo_world).

(** A file of the home is read by ticket; the key, a second name of it outside
    the state directory, and a directory to make there are refused alike. *)
Example demo_replies :
  demo_reply demo_files (FRead "~/a" EmptyString) = RReadOpened "k1" 20 420 0
  /\ demo_reply demo_files (FRead "/s/key" EmptyString) = RError permission_denied
  /\ demo_reply demo_files (FRead "~/link" EmptyString) = RError permission_denied
  /\ demo_reply demo_files (FMkdir "/s/x" EmptyString EmptyString 493 false) = RError permission_denied.
Proof. by vm_compute. Qed.

Lemma no_ground_no_touch_witness :
  let '(w', reply) := handle_file_op (demo_host []) demo_conn 1 demo_inputs (FRead "~/a" EmptyString) demo_world in
  w_fs w' = demo_fs /\ w_quotas w' = w_quotas demo_world /\ w_tickets w' = ∅
  /\ (reply = RError permission_denied \/ exists e, reply = shape_error e).
Proof.
  apply (no_ground_no_touch (fun _ => True) (demo_host []) demo_conn 1 demo_inputs (FRead "~/a" EmptyString) demo_world).
  - exact I.
  - vm_compute. reflexivity.
Defined.

Lemma slots_accounted_witness :
  let '(w', reply) := handle_file_op (demo_host demo_files) demo_conn 1 demo_inputs (FRead "~/a" EmptyString) demo_world in
  Quota.Exact (Quota.state (w_quotas w'))
    ((match reply with RDrawing => [file_permit demo_conn] | _ => [] end) ++ omap permit_of (held (w_tickets w'))).
Proof.
  apply (slots_accounted (demo_host demo_files) demo_conn 1 demo_inputs (FRead "~/a" EmptyString) [] demo_world).
  split; intros; vm_compute; try reflexivity.
Defined.
End FileSafety.
