(* ===== verification/FileVet.v ===== *)
(** * Whatever is used was vetted

    The file operations of [FileHost] run here against a file system and an
    authorizer that keep a record of what they were asked.  Whatever the
    handlers use (a directory they make something in or list, a handle they
    put into a ticket) was vetted in the same request: the path the kernel
    gives for that handle was read, it is outside the protected set, and the
    authorizer allowed the action on it. *)

From S2P Require Import Prelude Errors Text FsPath FileGuard Identity AuditLog Quota Acl Policy Gate Tickets HostOs InodeScan Listing FileHost.

Module FileVet.
Import Text FsPath FileGuard Identity Audit Acl Policy Gate Errors Tickets HostOs InodeScan Listing FileHost.

(** ** Recording *)

Section Recorder.
Context {Fs Handle : Type} `{HostOs Fs Handle}.

(** A look at the state, the path a handle was said to have, and the use of a
    directory, for an entry in it or as a whole. *)
Inductive OsEvent :=
  | OView (fs : Fs)
  | OLink (h : Handle) (answer : result string IoError)
  | OUse (h : Handle) (child : option string).

Definition Recorded : Type := list OsEvent * Fs.

Definition silent {A} (m : act Fs A) : act Recorded A := fun '(l, fs) => let '(fs, a) := m fs in ((l, fs), a).
Definition noted {A} (e : A -> OsEvent) (m : act Fs A) : act Recorded A := fun '(l, fs) =>
  let '(fs, a) := m fs in ((l ++ [e a], fs), a).

#[global] Instance recorded_os : HostOs Recorded Handle := {
  os_realpath r := os_realpath (snd r);
  os_yield '(l, fs) := let fs := os_yield fs in (l ++ [OView fs], fs);
  os_open_read p := silent (os_open_read p);
  os_open_dir p := silent (os_open_dir p);
  os_openat_dir h n := silent (os_openat_dir h n);
  os_fstat h := silent (os_fstat h);
  os_fstatat h n := silent (os_fstatat h n);
  os_mkdirat h n m := noted (fun _ => OUse h (Some n)) (os_mkdirat h n m);
  os_fchmod h m := silent (os_fchmod h m);
  os_readdir h := noted (fun _ => OUse h None) (os_readdir h);
  os_readlink_fd h := noted (OLink h) (os_readlink_fd h);
  os_lstat p := silent (os_lstat p);
  os_stat p := silent (os_stat p);
  os_read_dir p := silent (os_read_dir p);
  os_entry_stat d n := silent (os_entry_stat d n);
  os_fstatvfs h := silent (os_fstatvfs h);
}.
End Recorder.
Arguments OsEvent : clear implicits.
Arguments Recorded : clear implicits.

Section RecordedAuthorizer.
Context {Self St : Type} `{Authorizer Self St}.

(** The questions put to the authorizer and whether it allowed them. *)
Definition Question : Type := Requester * Action * ResourceRef * bool.
Definition Questioned : Type := list Question * St.

#[global] Instance recorded_authorizer : Authorizer Self Questioned := {
  check self q action res '(l, st) :=
    let '(st, v) := check self q action res st in ((l ++ [(q, action, res, is_allow v)], st), v);
  has_file_grant self q action '(l, st) := let '(st, b) := has_file_grant self q action st in ((l, st), b);
}.
End RecordedAuthorizer.
Arguments Questioned : clear implicits.

(** ** Vetting *)

(** The path [handle_path] makes of what the kernel links a handle to: without
    the mark the kernel puts after the name of an unlinked file.  A directory
    that is there and whose own name ends like this mark is taken for another
    one ([HostOs.deleted_in_name]). *)
Definition shown (link : string) : string := default link (strip_suffix deleted link).

Section Vet.
Context {Self St Sink Fs Handle Ex Sn : Type}.
Context `{Authorizer Self St} `{AuditSink Sink} `{Base64} `{OsText} `{HostOs Fs Handle}.
Abbreviation World := (@World (Questioned St) Sink (Recorded Fs Handle) Handle Ex Sn).
Implicit Types w : World.

Definition oslog w : list (OsEvent Fs Handle) := fst (w_fs w).
Definition authlog w : list Question := fst (w_st w).

Variables (host : Host Self) (conn : Conn) (req : FileRequest).

(** The protected set of the process, over a state the host looked at. *)
Definition in_force (w : World) (s : ProtectedSet) : Prop :=
  exists paths audit fs, h_config host = Some (paths, audit) /\ OView fs ∈ oslog w
  /\ s = for_process paths audit (h_serve_home host) (h_env_home host) (h_uid host) (h_cwd host) (normalizer fs).

(** The handle [h], for the entry [child] or as a whole, is vetted. *)
Definition vetted (w : World) (h : Handle) (child : option string) : Prop :=
  exists s link target n,
    in_force w s
    /\ OLink h (Ok link) ∈ oslog w
    /\ denies s (shown link) = false
    /\ (forall c, child = Some c -> denies s (push (shown link) c) = false)
    /\ (target = shown link \/ exists c, child = Some c /\ target = push (shown link) c)
    /\ (requester (c_ctx conn), request_action req, with_canonical_path (unowned (request_path req)) target n, true) ∈ authlog w.

(** What a ticket will use. *)
Definition ticket_use (t : @Ticket Ex (PendingFileOp Handle) Sn) : option (Handle * option string) :=
  match purpose t with
  | PFile (OpRead file _) _ => Some (file, None)
  | PFile (OpWrite dir name _ _ _ _ _ _) _ => Some (dir, Some name)
  | _ => None
  end.

(** Logs only grow. *)
Definition later (w w' : World) : Prop :=
  (forall e, e ∈ oslog w -> e ∈ oslog w') /\ (forall e, e ∈ authlog w -> e ∈ authlog w').

#[global] Instance later_preorder : PreOrder later.
Proof. split; [intros w; by split|]. intros w1 w2 w3 [] []. split; auto. Qed.

Lemma in_force_later w w' s : later w w' -> in_force w s -> in_force w' s.
Proof. intros [Hl _] (paths & audit & fs & ? & ? & ?). exists paths, audit, fs. auto. Qed.
Lemma vetted_later w w' h child : later w w' -> vetted w h child -> vetted w' h child.
Proof.
  intros Hl (s & link & target & n & Hf & Hk & Hd & Hc & Ht & Ha). exists s, link, target, n.
  split; [by eapply in_force_later|]. destruct Hl as [Hl1 Hl2]. auto 10.
Qed.

(** Every use so far was vetted, and every ticket that was not there at the
    start. *)
Definition Safe (before : gmap string (@Ticket Ex (PendingFileOp Handle) Sn)) (w : World) : Prop :=
  (forall h child, OUse h child ∈ oslog w -> vetted w h child)
  /\ (forall k t, w_tickets w !! k = Some t -> before !! k = Some t
       \/ exists h child, ticket_use t = Some (h, child) /\ vetted w h child).

(** ** Events of the blocking steps *)

(** [m] adds only events in [E]. *)
Definition logs {A} (E : OsEvent Fs Handle -> Prop) (m : act (Recorded Fs Handle) A) : Prop := forall r,
  exists l, fst (fst (m r)) = fst r ++ l /\ Forall E l.

Lemma logs_ret {A} E (a : A) : logs E (aret a).
Proof. intros r. exists []. by rewrite app_nil_r. Qed.
Lemma logs_bind {A B} E (m : act (Recorded Fs Handle) A) (k : A -> act (Recorded Fs Handle) B) :
  logs E m -> (forall a, logs E (k a)) -> logs E (abind m k).
Proof.
  intros Hm Hk r. unfold abind. destruct (Hm r) as (l1 & E1 & F1). destruct (m r) as [r1 a]. cbn [fst] in *.
  destruct (Hk a r1) as (l2 & E2 & F2). exists (l1 ++ l2). split; [by rewrite E2, E1, app_assoc|by apply Forall_app].
Qed.
Lemma logs_map {A B} E (f : A -> B) (m : act (Recorded Fs Handle) A) : logs E m -> logs E (amap f m).
Proof. intros Hm. apply logs_bind; [done|]. intros. apply logs_ret. Qed.
Lemma logs_try {A B Er} E (m : act (Recorded Fs Handle) (result A Er)) (k : A -> act (Recorded Fs Handle) (result B Er)) :
  logs E m -> (forall a, logs E (k a)) -> logs E (atry m k).
Proof. intros Hm Hk. apply logs_bind; [done|]. intros [a|e]; [apply Hk|apply logs_ret]. Qed.
Lemma logs_silent {A} E (m : act Fs A) : logs E (silent m).
Proof. intros [l fs]. unfold silent. destruct (m fs). exists []. by rewrite app_nil_r. Qed.
Lemma logs_noted {A} (E : OsEvent Fs Handle -> Prop) (e : A -> OsEvent Fs Handle) (m : act Fs A) :
  (forall a, E (e a)) -> logs E (noted e m).
Proof. intros He [l fs]. unfold noted. destruct (m fs) as [fs' a]. exists [e a]. split; [done|]. by repeat constructor. Qed.

Ltac logged :=
  repeat first
    [ simple apply logs_ret | simple apply logs_map | simple apply logs_bind; [|intros] | simple apply logs_try; [|intros]
    | match goal with |- logs _ (match ?x with _ => _ end) => destruct x end
    | match goal with |- logs _ (if ?b then _ else _) => destruct b end
    | match goal with |- logs ?E (os_mkdirat ?h ?n ?m) => exact (logs_noted E _ _ (fun _ => or_intror eq_refl)) end
    | match goal with |- logs ?E (os_readdir ?h) => exact (logs_noted E _ _ (fun _ => or_intror eq_refl)) end
    | apply logs_silent ].

Definition harmless (e : OsEvent Fs Handle) : Prop := match e with OUse _ _ => False | _ => True end.
Definition only (h : Handle) (child : option string) (e : OsEvent Fs Handle) : Prop := harmless e \/ e = OUse h child.

Lemma stat_at_logs E dir name : logs E (stat_at dir name).
Proof. unfold stat_at. logged. Qed.
Lemma open_dir_at_logs E dir name : logs E (open_dir_at dir name).
Proof. unfold open_dir_at. logged. Qed.
Lemma fstat_logs E h : logs E (fstat h).
Proof. unfold fstat. logged. Qed.

Lemma mkdir_at_logs dir name mode preserve : logs (only dir (Some name)) (mkdir_at dir name mode preserve).
Proof.
  unfold mkdir_at. destruct (cstring name) as [cname|e] eqn:Ec; [|apply logs_ret].
  assert (cname = name) as -> by (unfold cstring in Ec; by destruct (contains nul name); [|injection Ec]).
  apply logs_bind; [logged|intros [[]|e]].
  - apply logs_try; [apply open_dir_at_logs|intros]. apply logs_try; [apply fstat_logs|intros]. logged.
  - destruct (negb _); [apply logs_ret|]. apply logs_try; [apply stat_at_logs|intros]. logged.
Qed.

Lemma stat_names_logs E dir names : logs E (stat_names dir names).
Proof.
  induction names as [|n names IH]; [apply logs_ret|]. cbn [stat_names]. apply logs_bind; [apply stat_at_logs|].
  intros [info|e]; [|apply logs_ret]. apply logs_try; [exact IH|intros]. logged.
Qed.
Lemma list_dir_logs dir after page_max dir_max : logs (only dir None) (list_dir dir after page_max dir_max).
Proof.
  unfold list_dir. apply logs_try; [unfold read_names; logged|intros]. apply logs_try; [apply stat_names_logs|intros]. logged.
Qed.

Lemma scan_entries_logs E max_entries max_depth dir depth entries : forall f, logs E (scan_entries max_entries max_depth dir depth entries f).
Proof. induction entries as [|[name|e] entries IH]; intros f; cbn [scan_entries]; logged; apply IH. Qed.
Lemma scan_loop_logs E max_entries max_depth fuel : forall f, logs E (scan_loop fuel max_entries max_depth f).
Proof.
  induction fuel as [|fuel IH]; intros f; cbn [scan_loop]; [apply logs_ret|]. logged; try apply scan_entries_logs; apply IH.
Qed.
Lemma scan_roots_logs E dirs : forall st, logs E (scan_roots dirs st).
Proof. induction dirs as [|d dirs IH]; intros st; cbn [scan_roots]; logged; apply IH. Qed.
Lemma audit_named_logs E fold families : logs E (audit_named fold families).
Proof. induction families as [|a families IH]; cbn [audit_named]; logged; apply IH. Qed.
Lemma named_keys_logs E paths : forall ids, logs E (named_keys paths ids).
Proof. induction paths as [|p paths IH]; intros ids; cbn [named_keys]; logged; apply IH. Qed.
Lemma collect_logs E s : logs E (collect s).
Proof.
  unfold collect, collect_with_limits. apply logs_bind; [apply scan_roots_logs|intros [roots|e]; [|apply logs_ret]].
  apply logs_bind; [apply scan_loop_logs|intros [[ids|e]|]; [|apply logs_ret..]].
  apply logs_bind; [apply audit_named_logs|intros]. apply logs_map, named_keys_logs.
Qed.
Lemma check_read_target_logs E h ids : logs E (check_read_target h ids).
Proof. unfold check_read_target. logged. Qed.
Lemma available_logs E h : logs E (available_bytes h).
Proof. unfold available_bytes. logged. Qed.

(** ** Rules *)

Variable before : gmap string (@Ticket Ex (PendingFileOp Handle) Sn).

(** From a safe state with [P], [m] keeps safe, only adds to the logs and
    answers with [Q]. *)
Definition keeps {A} (P : World -> Prop) (m : act World A) (Q : World -> A -> Prop) : Prop := forall w,
  Safe before w -> P w -> let '(w', a) := m w in Safe before w' /\ later w w' /\ Q w' a.

(** Facts that later states keep. *)
Class Stable (P : World -> Prop) := stable w w' : later w w' -> P w -> P w'.
#[global] Instance stable_and P Q : Stable P -> Stable Q -> Stable (fun w => P w /\ Q w).
Proof. intros HP HQ w w' Hl []. split; [by apply (HP w)|by apply (HQ w)]. Qed.
#[global] Instance stable_const (P : Prop) : Stable (fun _ => P).
Proof. by intros w w'. Qed.
#[global] Instance stable_impl (P : Prop) Q : Stable Q -> Stable (fun w => P -> Q w).
Proof. intros HQ w w' Hl Hp HP. apply (HQ w); auto. Qed.
#[global] Instance stable_force s : Stable (fun w => in_force w s).
Proof. intros w w'. apply in_force_later. Qed.
#[global] Instance stable_vetted h child : Stable (fun w => vetted w h child).
Proof. intros w w'. apply vetted_later. Qed.
#[global] Instance stable_os e : Stable (fun w => e ∈ oslog w).
Proof. intros w w' [Hl _]. apply Hl. Qed.
#[global] Instance stable_auth e : Stable (fun w => e ∈ authlog w).
Proof. intros w w' [_ Hl]. apply Hl. Qed.
#[global] Instance stable_ex {A} (P : A -> World -> Prop) : (forall a, Stable (P a)) -> Stable (fun w => exists a, P a w).
Proof. intros HP w w' Hl [a Ha]. exists a. by apply (HP a w). Qed.

Lemma keeps_ret {A} (P : World -> Prop) (a : A) (Q : World -> A -> Prop) : (forall w, P w -> Q w a) -> keeps P (aret a) Q.
Proof. intros HQ w Hs Hp. cbn. split; [done|]. split; [done|]. by apply HQ. Qed.

Lemma keeps_bind {A B} P (m : act World A) Q (k : A -> act World B) R :
  Stable P -> keeps P m Q -> (forall a, keeps (fun w => P w /\ Q w a) (k a) R) -> keeps P (abind m k) R.
Proof.
  intros HP Hm Hk w Hs Hp. unfold abind. specialize (Hm w Hs Hp). destruct (m w) as [w1 a]. destruct Hm as (Hs1 & Hl1 & Hq).
  specialize (Hk a w1 Hs1 (conj (stable _ _ Hl1 Hp) Hq)). destruct (k a w1) as [w2 b]. destruct Hk as (Hs2 & Hl2 & Hr).
  split; [done|]. split; [by etrans|done].
Qed.

Lemma keeps_weaken {A} (P P' : World -> Prop) (m : act World A) (Q Q' : World -> A -> Prop) :
  keeps P' m Q' -> (forall w, P w -> P' w) -> (forall w a, Q' w a -> Q w a) -> keeps P m Q.
Proof.
  intros Hm HP HQ w Hs Hp. specialize (Hm w Hs (HP w Hp)). destruct (m w) as [w1 a]. destruct Hm as (? & ? & ?). auto.
Qed.

(** Without an answer. *)
Abbreviation quiet P m := (keeps P m (fun _ _ => True)).

Lemma safe_grow (w w' : World) :
  later w w' -> w_tickets w' = w_tickets w ->
  (forall h child, OUse h child ∈ oslog w' -> OUse h child ∈ oslog w \/ vetted w h child) ->
  Safe before w -> Safe before w'.
Proof.
  intros Hl Ht Hu [Hs1 Hs2]. split.
  - intros h child Hin. apply (vetted_later w); [done|]. destruct (Hu h child Hin); auto.
  - intros k t. rewrite Ht. intros [?|(h & child & Hut & Hv)]%Hs2; [by left|right].
    exists h, child. split; [done|]. by apply (vetted_later w).
Qed.

Lemma keeps_fs {A} P (m : act (Recorded Fs Handle) A) E :
  logs E m -> (forall w h child, P w -> E (OUse h child) -> vetted w h child) -> quiet P (on_fs m).
Proof.
  intros Hm HE w Hs Hp. unfold on_fs. destruct (Hm (w_fs w)) as (l & El & Fl). destruct (m (w_fs w)) as [fs a]. cbn [fst] in El.
  assert (Hl : later w (mkWorld (w_st w) (w_sink w) fs (w_quotas w) (w_tickets w))).
  { split; [|done]. intros e. unfold oslog. cbn [w_fs]. rewrite El. set_solver. }
  split; [|done]. eapply safe_grow; [exact Hl|done| |done]. intros h child. unfold oslog at 1. cbn [w_fs]. rewrite El.
  intros [?|Hin]%elem_of_app; [by left|right]. apply (HE w h child Hp). exact (proj1 (Forall_forall _ _) Fl _ Hin).
Qed.

Lemma keeps_harmless {A} P (m : act (Recorded Fs Handle) A) : (forall E, logs E m) -> quiet P (on_fs m).
Proof. intros Hm. apply (keeps_fs P m harmless); [apply Hm|]. by intros w h child _ []. Qed.

Lemma keeps_path P h :
  keeps P (on_fs (handle_path h))
    (fun w r => match r with Ok path => exists link, OLink h (Ok link) ∈ oslog w /\ path = shown link | Err _ => True end).
Proof.
  intros w Hs Hp. unfold on_fs, handle_path, abind. destruct (w_fs w) as [l fs] eqn:Ew. cbn [os_readlink_fd recorded_os noted].
  destruct (os_readlink_fd h fs) as [fs' answer]. cbn [aret].
  assert (Hl : later w (mkWorld (w_st w) (w_sink w) (l ++ [OLink h answer], fs') (w_quotas w) (w_tickets w))).
  { split; [|done]. intros e. unfold oslog. rewrite Ew. cbn. set_solver. }
  split; [|split; [done|]].
  - eapply safe_grow; [exact Hl|done| |done]. intros h' child. unfold oslog. rewrite Ew. cbn. set_solver.
  - destruct answer as [link|e]; [|done]. fold (shown link). destruct (is_absolute (shown link)); [|done].
    exists link. split; [|done]. unfold oslog. cbn. set_solver.
Qed.

Lemma keeps_normalizer P : keeps P path_normalizer (fun w n => exists fs, OView fs ∈ oslog w /\ n = normalizer fs).
Proof.
  intros w Hs Hp. unfold path_normalizer, on_fs. destruct (w_fs w) as [l fs] eqn:Ew. cbn [os_yield recorded_os].
  assert (Hl : later w (mkWorld (w_st w) (w_sink w) (l ++ [OView (os_yield fs)], os_yield fs) (w_quotas w) (w_tickets w))).
  { split; [|done]. intros e. unfold oslog. rewrite Ew. cbn. set_solver. }
  split; [|split; [done|]].
  - eapply safe_grow; [exact Hl|done| |done]. intros h' child. unfold oslog. rewrite Ew. cbn. set_solver.
  - exists (os_yield fs). split; [|done]. unfold oslog. cbn. set_solver.
Qed.

Lemma keeps_check P (self : Self) q action res :
  keeps P (on_auth (check self q action res)) (fun w v => (q, action, res, is_allow v) ∈ authlog w).
Proof.
  intros w Hs Hp. unfold on_auth. destruct (w_st w) as [l st] eqn:Ew. cbn [check recorded_authorizer].
  destruct (check self q action res st) as [st' v].
  assert (Hl : later w (mkWorld (l ++ [(q, action, res, is_allow v)], st') (w_sink w) (w_fs w) (w_quotas w) (w_tickets w))).
  { split; [done|]. intros e. unfold authlog. rewrite Ew. cbn. set_solver. }
  split; [|split; [done|]].
  - eapply safe_grow; [exact Hl|done| |done]. auto.
  - unfold authlog. cbn. set_solver.
Qed.

Lemma keeps_grant P (self : Self) q action : quiet P (on_auth (has_file_grant self q action)).
Proof.
  intros w Hs Hp. unfold on_auth. destruct (w_st w) as [l st] eqn:Ew. cbn [has_file_grant recorded_authorizer].
  destruct (has_file_grant self q action st) as [st' b].
  assert (Hl : later w (mkWorld (l, st') (w_sink w) (w_fs w) (w_quotas w) (w_tickets w))).
  { split; [done|]. intros e. unfold authlog. rewrite Ew. done. }
  split; [|done]. eapply safe_grow; [exact Hl|done| |done]. auto.
Qed.

(** What leaves both logs and the tickets alone. *)
Lemma keeps_still {A} P (m : act World A) :
  (forall w, w_st (fst (m w)) = w_st w /\ w_fs (fst (m w)) = w_fs w /\ w_tickets (fst (m w)) = w_tickets w) -> quiet P m.
Proof.
  intros Hm w Hs Hp. destruct (Hm w) as (E1 & E2 & E3). destruct (m w) as [w' a]. cbn [fst] in *.
  assert (Hl : later w w') by (split; unfold oslog, authlog; by rewrite ?E1, ?E2).
  split; [|done]. eapply safe_grow; [exact Hl|done| |done]. intros h child. unfold oslog. rewrite E2. auto.
Qed.
Lemma keeps_sink {A} P (m : act Sink A) : quiet P (on_sink m).
Proof. apply keeps_still. intros w. unfold on_sink. by destruct (m (w_sink w)). Qed.
Lemma keeps_quotas {A} P (m : act Quota.Quotas A) : quiet P (on_quotas m).
Proof. apply keeps_still. intros w. unfold on_quotas. by destruct (m (w_quotas w)). Qed.

Lemma keeps_gate P t c rid action res : quiet P (on_gate (authorize_owned (h_self host) t c rid action res)).
Proof.
  intros w Hs Hp. unfold on_gate, authorize_owned. destruct (w_st w) as [l st] eqn:Ew. cbn [check recorded_authorizer].
  destruct (check (h_self host) (requester c) action res st) as [st' v]. destruct (record _ (w_sink w)) as [sink recorded].
  set (w' := mkWorld _ _ _ _ _).
  assert (Hl : later w w'). { split; [done|]. intros e. unfold authlog. rewrite Ew. cbn. set_solver. }
  split; [|done]. eapply safe_grow; [exact Hl|done| |done]. auto.
Qed.

(** ** The handlers *)

Variables (rid : N) (inp : Inputs).

Lemma keeps_deny P action res : quiet P (deny_file conn rid inp action res).
Proof.
  intros w Hs Hp. unfold deny_file, abind. pose proof (keeps_sink P (record (now_record (in_t inp) rid (ctx_principal (c_ctx conn))
    (ctx_auth_path (c_ctx conn)) action res Deny None (ctx_peer_addr (c_ctx conn)))) w Hs Hp) as Hk.
  destruct (on_sink _ w) as [w' b]. exact Hk.
Qed.

Lemma extract_lookup keep (tbl tbl' : gmap string (@Ticket Ex (PendingFileOp Handle) Sn)) expired k t :
  extract_tickets keep tbl = (tbl', expired) -> tbl' !! k = Some t -> tbl !! k = Some t.
Proof. unfold extract_tickets. intros [= <- _] Hk. by apply map_lookup_filter_Some in Hk as [? _]. Qed.

Lemma keeps_budget P : quiet P (check_ticket_budget conn inp).
Proof.
  intros w Hs Hp. unfold check_ticket_budget, pending_tickets_for. destruct (extract_tickets _ _) as [tickets expired] eqn:E.
  split; [|by split]. destruct Hs as [Hu Ht]. split; [exact Hu|]. intros k t Hk. apply (Ht k t). by eapply extract_lookup.
Qed.

Lemma keeps_issue P op h child :
  (forall w, P w -> vetted w h child) -> ticket_use (mkTicket (PFile op (file_permit conn)) (c_id conn) 0) = Some (h, child) ->
  quiet P (issue_file_ticket conn inp op).
Proof.
  intros Hv Hop w Hs Hp. unfold issue_file_ticket, issue_ticket. destruct (extract_tickets _ _) as [tickets expired] eqn:E.
  destruct (draw_vacant tickets _) as [k|] eqn:Ek; [|by split]. split; [|by split]. destruct Hs as [Hu Ht]. split; [exact Hu|].
  intros k' t. cbn [w_tickets]. destruct (decide (k' = k)) as [->|Hne].
  - rewrite lookup_insert_eq. intros [= <-]. right. exists h, child. split; [exact Hop|]. exact (Hv w Hp).
  - rewrite lookup_insert_ne by done. intros Hk. apply (Ht k' t). by eapply extract_lookup.
Qed.

Lemma keeps_reserve P : Stable P -> quiet P (reserve_file_permit host conn rid inp).
Proof.
  intros HP. unfold reserve_file_permit, atry. eapply keeps_bind; [done|apply keeps_budget|]. intros [[]|e]; [|by apply keeps_ret].
  eapply keeps_bind; [apply _|apply keeps_quotas|]. intros [[]|kind]; [by apply keeps_ret|].
  eapply keeps_bind; [apply _|apply keeps_quotas|]. intros records.
  eapply keeps_bind; [apply _|apply keeps_sink|]. intros []. by apply keeps_ret.
Qed.

Variable st : Stage.
Hypothesis Haction : s_action st = request_action req.
Hypothesis Hpath : s_path st = request_path req.

Lemma keeps_recheck P h child eval :
  Stable P -> (forall w, P w -> in_force w (s_protected st)) ->
  keeps P (recheck host conn st h child eval) (fun w b => b = true -> vetted w h child).
Proof.
  intros HP Hf. unfold recheck. eapply keeps_bind; [done|apply keeps_path|]. intros [path|e]; [|by apply keeps_ret].
  destruct (denies (s_protected st) path) eqn:Ed; [by apply keeps_ret|]. unfold reevaluate.
  destruct (match child with Some c => _ | None => _ end) eqn:Ec; [by apply keeps_ret|].
  eapply keeps_bind; [apply _|apply keeps_normalizer|]. intros n.
  eapply keeps_bind; [apply _|apply keeps_check|]. intros v. apply keeps_ret.
  intros w [[[Hp (link & Hl & ->)] _] Ha] Hv. rewrite Hv, Haction, Hpath in Ha.
  eexists (s_protected st), link, _, n. split; [by apply Hf|]. split; [done|]. split; [done|]. split; [|split; [|exact Ha]].
  - intros c ->. exact Ec.
  - destruct child as [c|]; [destruct eval; [right; by exists c|by left]|by left].
Qed.

(** One step of a handler, by a rule. *)
Ltac step rule := eapply keeps_bind; [apply _|apply rule|].
Ltac fs_step rule := eapply keeps_bind; [apply _|apply keeps_harmless; intros; apply rule|].
Ltac halt := apply keeps_ret; by intros.

Abbreviation force := (fun w => in_force w (s_protected st)).

Lemma keeps_deny_err {A} P Q action res :
  (forall w e, Q w (Err e)) -> keeps P (amap (@Err A Reply) (deny_file conn rid inp action res)) Q.
Proof.
  intros HQ w Hs Hp. unfold amap, abind. pose proof (keeps_deny P action res w Hs Hp) as Hk.
  destruct (deny_file _ _ _ _ _ w) as [w' r]. destruct Hk as (? & ? & _). cbn. auto.
Qed.

Lemma keeps_rechecked P h name eval into_dir :
  Stable P -> (forall w, P w -> in_force w (s_protected st)) ->
  keeps P (rechecked host conn rid inp st h name eval into_dir)
    (fun w r => match r with Ok t => vetted w (t_dir t) (Some (t_name t)) | Err _ => True end).
Proof.
  intros HP Hf. unfold rechecked. eapply keeps_bind; [done|by apply keeps_recheck|]. intros [|]; cbn [negb].
  - apply keeps_ret. intros w [_ Hv]. by apply Hv.
  - by apply keeps_deny_err.
Qed.

Lemma keeps_target name :
  keeps force (open_target host conn rid inp st name)
    (fun w r => match r with Ok t => vetted w (t_dir t) (Some (t_name t)) | Err _ => True end).
Proof.
  unfold open_target. destruct (file_name (s_canonical st)) as [final|].
  - fs_step @logs_silent. intros [par|e]; [|halt]. fs_step stat_at_logs. intros [existing|e]; [|halt].
    destruct (match existing with Some i => _ | None => _ end), (is_empty name);
      try (apply keeps_rechecked; [apply _|by intros w [[]]]).
    fs_step open_dir_at_logs. intros [dir|e]; [|halt]. apply keeps_rechecked; [apply _|by intros w [[[]]]].
  - fs_step @logs_silent. intros [dir|e]; [|halt]. destruct (is_empty name); [halt|].
    apply keeps_rechecked; [apply _|by intros w []].
Qed.

Lemma keeps_read_open :
  keeps force (file_read_open host conn rid inp st)
    (fun w r => match r with Ok (file, _) => vetted w file None | Err _ => True end).
Proof.
  unfold file_read_open. fs_step @logs_silent. intros [file|e]; [|halt].
  eapply keeps_bind; [apply _|apply keeps_recheck; [apply _|by intros w []]|]. intros [|]; cbn [negb]; [|by apply keeps_deny_err].
  fs_step collect_logs. intros [[inodes|e]|]; [|by apply keeps_deny_err..].
  fs_step check_read_target_logs. intros [md|[|kind|kind]]; [|by apply keeps_deny_err|halt|by apply keeps_deny_err].
  destruct (s_must_be_dir st); [halt|]. fs_step fstat_logs. intros [info|e]; [|halt].
  apply keeps_ret. intros w ((((_ & Hv) & _) & _) & _). by apply Hv.
Qed.

Lemma keeps_write_open name size overwrite :
  keeps force (file_write_open host conn rid inp st name size overwrite)
    (fun w r => match r with Ok (t, _) => vetted w (t_dir t) (Some (t_name t)) | Err _ => True end).
Proof.
  unfold file_write_open, atry. step keeps_target. intros [t|e]; [|halt]. fs_step stat_at_logs. intros [existing|e]; [|halt].
  destruct (match existing with Some i => _ | None => _ end) as [existed|e]; [|halt]. destruct (_ && _); [halt|].
  fs_step available_logs. intros [available|e]; [|halt]. destruct (_ <? _); [halt|]. apply keeps_ret.
  intros w (((_ & Hv) & _) & _). exact Hv.
Qed.

Lemma keeps_mkdir name mode preserve : quiet force (file_mkdir host conn rid inp st name mode preserve).
Proof.
  unfold file_mkdir. step keeps_target. intros [t|e]; [|halt]. destruct (_ && _); [halt|].
  eapply keeps_bind; [apply _|eapply keeps_fs; [apply mkdir_at_logs|]|intros r; halt].
  intros w h child [_ Hv] [[]|[= -> ->]]. exact Hv.
Qed.

Lemma keeps_list after : quiet force (file_list host conn rid inp st after).
Proof.
  unfold file_list. fs_step @logs_silent. intros [dir|e].
  - eapply keeps_bind; [apply _|apply keeps_recheck; [apply _|by intros w []]|]. intros [|]; cbn [negb]; [|apply keeps_deny].
    fs_step fstat_logs. intros [info|e]; [|halt].
    eapply keeps_bind; [apply _|eapply keeps_fs; [apply list_dir_logs|]|intros r; halt].
    intros w h child [[_ Hv] _] [[]|[= -> ->]]. by apply Hv.
  - destruct (is_not_a_directory_error e); [|halt]. unfold file_list_object.
    destruct (parent (s_canonical st)) as [par|]; [|halt]. destruct (file_name (s_canonical st)) as [name|]; [|halt].
    fs_step @logs_silent. intros [h|e']; [|halt].
    eapply keeps_bind; [apply _|apply keeps_recheck; [apply _|by intros w [[]]]|]. intros [|]; cbn [negb]; [|apply keeps_deny].
    fs_step stat_at_logs. intros r. halt.
Qed.

Lemma keeps_file_read : quiet force (file_read host conn rid inp st).
Proof.
  unfold file_read. step keeps_read_open. intros [[file info]|reply].
  - eapply keeps_bind; [apply _|apply (keeps_issue _ _ file None); [by intros w []|done]|]. intros k. halt.
  - step @keeps_quotas. intros []. halt.
Qed.

Lemma keeps_file_write name size mode overwrite preserve mtime :
  quiet force (file_write host conn rid inp st name size mode overwrite preserve mtime).
Proof.
  unfold file_write. step keeps_write_open. intros [[t existed]|reply].
  - eapply keeps_bind; [apply _|apply (keeps_issue _ _ (t_dir t) (Some (t_name t))); [by intros w []|done]|]. intros k. halt.
  - step @keeps_quotas. intros []. halt.
Qed.

Lemma keeps_run r : quiet force (run_request host conn rid inp r st).
Proof.
  destruct r; cbn [run_request]; [| |apply keeps_list|apply keeps_mkdir];
    (eapply keeps_bind; [apply _|apply keeps_reserve; apply _|]; intros [[]|reply]; [|halt]).
  - eapply keeps_weaken; [apply keeps_file_read|by intros w []|done].
  - eapply keeps_weaken; [apply keeps_file_write|by intros w []|done].
Qed.
End Vet.

Section Handled.
Context {Self St Sink Fs Handle Ex Sn : Type}.
Context `{Authorizer Self St} `{AuditSink Sink} `{Base64} `{OsText} `{HostOs Fs Handle}.
Abbreviation World := (@World (Questioned St) Sink (Recorded Fs Handle) Handle Ex Sn).
Variables (before : gmap string (@Ticket Ex (PendingFileOp Handle) Sn)).
Variables (host : Host Self) (conn : Conn) (rid : N) (inp : Inputs) (req : FileRequest).
Abbreviation calm P m := (keeps host conn req before P m (fun _ _ => True)).

Lemma keeps_state_path (P : World -> Prop) shaped normalized :
  Stable P -> calm P (state_path_stage host conn rid inp req shaped normalized).
Proof.
  intros HP. unfold state_path_stage. destruct (h_config host) as [[paths audit]|] eqn:Ec; [|apply keeps_deny].
  apply (keeps_bind _ _ _ _ _ _ (fun _ _ => True)); [done| |].
  - destruct normalized as [r|]; [by apply keeps_ret|]. eapply keeps_bind; [done|apply keeps_normalizer|]. intros n. by apply keeps_ret.
  - intros [canonical|e]; [|apply keeps_deny]. eapply keeps_bind; [apply _|apply keeps_normalizer|]. intros n. cbv zeta.
    destruct (_ || _); [apply keeps_deny|]. eapply keeps_weaken; [by apply keeps_run| |done].
    intros w [_ (fs & Hfs & ->)]. by exists paths, audit, fs.
Qed.

Lemma keeps_fst {A} P (m : act World A) Q w :
  keeps host conn req before P m Q -> Safe host conn req before w -> P w -> Safe host conn req before (fst (m w)) /\ later w (fst (m w)).
Proof. intros Hm Hs Hp. specialize (Hm w Hs Hp). destruct (m w) as [w' a]. by destruct Hm as (? & ? & _). Qed.

Lemma keeps_handle : calm (fun _ => True) (handle_file_op host conn rid inp req).
Proof.
  unfold handle_file_op. destruct (shape_path _ _ _) as [shaped|e]; [|by apply keeps_ret].
  destruct (if _ && _ then _ else _) as [[]|e]; [|by apply keeps_ret]. unfold file_op_after_shape.
  eapply keeps_bind; [apply _|apply keeps_grant|]. intros ground.
  apply (keeps_bind _ _ _ _ _ _ (fun _ _ => True)); [apply _| |].
  { destruct ground; [|by apply keeps_ret]. eapply keeps_bind; [apply _|apply keeps_normalizer|]. intros n. by apply keeps_ret. }
  intros normalized. apply (keeps_bind _ _ _ _ _ _ (fun _ _ => True)); [apply _| |].
  { destruct normalized as [[path|e]|]; try by apply keeps_ret.
    eapply keeps_bind; [apply _|apply keeps_normalizer|]. intros n. by apply keeps_ret. }
  intros resource. eapply keeps_bind; [apply _|apply keeps_gate|]. intros [[]|denied]; [|by apply keeps_ret].
  destruct (_ && _); [by apply keeps_ret|]. apply keeps_state_path. apply _.
Qed.
End Handled.

(** C12: over any file system, any authorizer and any interference between two
    steps of a request: every directory the handlers of the file operations
    make an entry in or list, and every handle they leave in a ticket for a
    later transfer, is vetted in that request.  The kernel was asked for the
    path of that very handle; its answer, less a final [ (deleted)] if it ends
    so, and the name used below it are outside the protected set of the process,
    computed over a state of the file system seen in that request; and the
    authorizer allowed the action of the request on this path or on the name
    below it.  Where the kernel's answer ends otherwise it is this path itself;
    nothing is said of the path of a live directory whose own name ends in
    [ (deleted)]. *)
Theorem file_use_vetted {Self St Sink Fs Handle Ex Sn : Type}
    `{Authorizer Self St} `{AuditSink Sink} `{Base64} `{OsText} `{HostOs Fs Handle}
    (host : Host Self) (conn : Conn) (rid : N) (inp : Inputs) (req : FileRequest)
    (st : St) (sink : Sink) (fs : Fs) (quotas : Quota.Quotas) (tickets : gmap string (@Ticket Ex (PendingFileOp Handle) Sn)) :
  let w := fst (handle_file_op host conn rid inp req (mkWorld ([], st) sink ([], fs) quotas tickets)) in
  (forall h child, OUse h child ∈ oslog w -> vetted host conn req w h child)
  /\ (forall k t, w_tickets w !! k = Some t -> tickets !! k = Some t
       \/ exists h child, ticket_use t = Some (h, child) /\ vetted host conn req w h child).
Proof.
  cbv zeta. set (w0 := mkWorld _ _ _ _ _).
  assert (Hs : Safe host conn req tickets w0) by (split; [by intros h child ?%elem_of_nil|by left]).
  pose proof (keeps_fst _ _ _ _ _ _ _ w0 (keeps_handle tickets host conn rid inp req) Hs I) as Hk.
  exact (proj1 Hk).
Qed.
End FileVet.
