(* ===== verification/Transfer.v ===== *)
(** * Writing a file into place

    The shared pieces of a transfer ([file/xfer.rs]): the temporary file next
    to the destination and the guard that removes it, the disk writer, the
    commit; and the machine that the host's [serve_write]
    ([server/file_data.rs]) and the client's [download] ([client/file.rs])
    build from them: a task that pumps a stream, a writer thread behind a
    bounded queue, and the blocking jobs that create and commit.

    Blocking code is a program over the system calls it makes, so that a job
    can be interleaved, call by call, with the other threads and with whatever
    else happens in the directory. *)

From S2P Require Import Prelude Text FsPath FileGuard HostOs.

Module Transfer.
Import Text FsPath FileGuard HostOs.

(** ** Programs over system calls *)

Section Programs.
Context {Dir File : Type}.

(** The calls, with the type of their answers.  [SWriteAll] is [write_all]: it
    repeats the [write] call until all is written or one fails. *)
Inductive Sys : Type -> Type :=
  | SDup (dir : Dir) : Sys (result unit IoError)
  | SOpenExcl (dir : Dir) (name : string) (mode : N) : Sys (result File IoError)
  | SWriteAll (f : File) (data : list byte) : Sys (result unit IoError)
  | SSync (f : File) : Sys (result unit IoError)
  | SChmod (f : File) (mode : N) : Sys (result unit IoError)
  | SMtime (f : File) (mtime : Z) : Sys (result unit IoError)
  | SStatAt (dir : Dir) (name : string) : Sys (result RawStat IoError)
  | SRename (dir : Dir) (from to : string) : Sys (result unit IoError)
  | SLink (dir : Dir) (from to : string) : Sys (result unit IoError)
  | SUnlink (dir : Dir) (name : string) : Sys (result unit IoError)
  | SSyncDir (dir : Dir) : Sys (result unit IoError).

Inductive prog (A : Type) : Type :=
  | Ret (a : A)
  | Do {B : Type} (c : Sys B) (k : B -> prog A).
Arguments Ret {A} _.
Arguments Do {A B} _ _.

Fixpoint pbind {A B} (p : prog A) (f : A -> prog B) : prog B :=
  match p with Ret a => f a | Do c k => Do c (fun b => pbind (k b) f) end.
(** The operator [?]. *)
Definition ptry {A B E} (p : prog (result A E)) (f : A -> prog (result B E)) : prog (result B E) :=
  pbind p (fun r => match r with Ok a => f a | Err e => Ret (Err e) end).
Definition call {B} (c : Sys B) : prog B := Do c (fun b => Ret b).
End Programs.
Arguments Sys : clear implicits.
Arguments prog : clear implicits.
Arguments Ret {Dir File A} _.
Arguments Do {Dir File A B} _ _.

Declare Scope prog_scope.
Delimit Scope prog_scope with prog.
Notation "'let!' x := p 'in' k" := (pbind p (fun x => k)) (at level 10, x name, p at level 100, k at level 200) : prog_scope.
Notation "'let!?' x := p 'in' k" := (ptry p (fun x => k)) (at level 10, x name, p at level 100, k at level 200) : prog_scope.

(** ** The pieces *)

Definition NAME_MAX : N := 255.

(** [format!("{b:02x}")] of every byte *)
Definition hex_digit (n : N) : ascii := match String.get (N.to_nat n) "0123456789abcdef" with Some c => c | None => "0"%char end.
Fixpoint hex (bs : list byte) : string :=
  match bs with
  | [] => EmptyString
  | b :: bs => String (hex_digit (b2n b / 16)) (String (hex_digit (b2n b mod 16)) (hex bs))
  end.

(** [temp_name] *)
Definition temp_name (name : string) (random : list byte) : string :=
  let tail := (".qsh-" +:+ hex random +:+ ".part")%string in
  let room := (NAME_MAX - 1 - slen tail)%N in
  "." +:+ String.substring 0 (N.to_nat (slen name `min` room)) name +:+ tail.

Record Committed := mkCommitted { overwritten : bool; temp_gone : bool }.
Record Placement := mkPlacement { p_name : string; p_mode : N; p_overwrite : bool; p_preserve : bool; p_mtime : Z }.

Section Pieces.
Context {Dir File : Type} (umask : N).
Abbreviation io A := (prog Dir File (result A IoError)).
Open Scope prog_scope.

(** [create_temp]: the rest of the four attempts, and the last error. *)
Fixpoint create_temp_loop (dir : Dir) (name : string) (draws : list (list byte)) (last : IoError) : io (File * string) :=
  match draws with
  | [] => Ret (Err last)
  | random :: draws =>
      let temp := temp_name name random in
      match cstring temp with
      | Err e => Ret (Err e)
      | Ok cname =>
          let! r := call (SOpenExcl dir cname 384) in
          match r with
          | Ok f => Ret (Ok (f, temp))
          | Err e =>
              if negb (bool_decide (raw_os_error e = Some EEXIST)) then Ret (Err e) else create_temp_loop dir name draws e
          end
      end
  end.
Definition create_temp (dir : Dir) (name : string) (draws : list (list byte)) : io (File * string) :=
  create_temp_loop dir name (take 4 draws) (Simple (OtherKind "AlreadyExists")).

Definition named (name : string) (f : string -> io unit) : io unit :=
  match cstring name with Err e => Ret (Err e) | Ok cname => f cname end.

(** [unlink_at], [replace_at], [link_new_at], [place_new] *)
Definition unlink_at (dir : Dir) (name : string) : io unit := named name (fun n => call (SUnlink dir n)).
Definition replace_at (dir : Dir) (temp name : string) : io unit :=
  named temp (fun from => named name (fun to => call (SRename dir from to))).
Definition link_new_at (dir : Dir) (temp name : string) : io unit :=
  named temp (fun from => named name (fun to => call (SLink dir from to))).
Definition place_new (dir : Dir) (temp name : string) : io bool :=
  let!? _ := link_new_at dir temp name in
  let! r := unlink_at dir temp in
  Ret (Ok (is_ok r)).

(** [apply_final_attrs] *)
Definition final_mode (mode : N) (preserve : bool) : N :=
  let mode := N.land mode 511 in
  if preserve then mode else N.ldiff mode umask.
Definition apply_final_attrs (f : File) (mode : N) (preserve : bool) (mtime : Z) : io unit :=
  let!? _ := call (SChmod f (final_mode mode preserve)) in
  if preserve then call (SMtime f mtime) else Ret (Ok tt).

(** [stat_at] *)
Definition stat_entry (dir : Dir) (name : string) : io (option StatInfo) :=
  match cstring name with
  | Err e => Ret (Err e)
  | Ok cname => let! r := call (SStatAt dir cname) in Ret (stat_answer r)
  end.

(** [commit_temp] *)
Definition commit_temp (dir : Dir) (temp : string) (written : File) (place : Placement) : io Committed :=
  let!? _ := call (SSync written) in
  let!? _ := apply_final_attrs written (p_mode place) (p_preserve place) (p_mtime place) in
  let!? committed :=
    (if p_overwrite place then
       let!? existing := stat_entry dir (p_name place) in
       let over := match existing with Some i => bool_decide (i_kind i = FsRegular) | None => false end in
       let!? _ := replace_at dir temp (p_name place) in
       Ret (Ok (mkCommitted over true))
     else
       let!? gone := place_new dir temp (p_name place) in
       Ret (Ok (mkCommitted false gone))) in
  let!? _ := call (SSyncDir dir) in
  Ret (Ok committed).
End Pieces.

(** ** The directory *)

(** What answers the calls. *)
Class DirOs (Fs Dir File : Type) := perform : forall {B}, Sys Dir File B -> Fs -> Fs * B.

(** Calls that change neither the names of the directory nor the bytes of a
    file. *)
Definition plain {Dir File B} (c : Sys Dir File B) : bool :=
  match c with
  | SDup _ | SSync _ | SChmod _ _ | SMtime _ _ | SStatAt _ _ | SSyncDir _ => true
  | _ => false
  end.

(** ** The machine *)

Record FileEnd := mkEnd { e_size : N; e_blake3 : list byte }.

(** A [FileFrame]. *)
Inductive Body :=
  | Data (chunk : list byte)
  | End_ (e : FileEnd)
  | Result (ok : bool) (code message : string) (over : bool).

(** What a receive on the stream comes back with; the timeout is that of the
    grace after the end frame. *)
Inductive RecvFailure := EReset (code : N) | ERead | EMalformed (text : string) | ECarrier.
Inductive Received := RFrame (body : option Body) | RFinished | RError (e : RecvFailure) | RTimeout.

(** What the pump makes of it. *)
Inductive Pumped (Stop : Type) :=
  | Go (received : N) (fend : option FileEnd)
  | Chunk (received : N) (chunk : list byte)
  | Finish (e : FileEnd)
  | Stopped (why : Stop).
Arguments Go {Stop} _ _.
Arguments Chunk {Stop} _ _.
Arguments Finish {Stop} _.
Arguments Stopped {Stop} _.

Inductive Interrupt := Stalled | CancelAsked.

Inductive Outcome (Stop : Type) :=
  | OClone (e : IoError)
  | OIo (e : IoError)
  | OStopped (why : Stop)
  | OInterrupted (i : Interrupt)
  | OInternal
  | OMismatch
  | OCommitted (bytes : N) (hash : list byte) (over : bool).
Arguments OClone {Stop} _.
Arguments OIo {Stop} _.
Arguments OStopped {Stop} _.
Arguments OInterrupted {Stop} _.
Arguments OInternal {Stop}.
Arguments OMismatch {Stop}.
Arguments OCommitted {Stop} _ _ _.

(** The receiving end: the host or the client. *)
Record Receiver (Stop : Type) := mkReceiver {
  rc_pump : N -> option FileEnd -> Received -> Pumped Stop;
  rc_agrees : FileEnd -> N -> list byte -> bool;
  rc_clones : bool;
}.
Arguments mkReceiver {Stop}.
Arguments rc_pump {Stop}.
Arguments rc_agrees {Stop}.
Arguments rc_clones {Stop}.

Definition DISK_QUEUE_CHUNKS : N := 4.

Section Machine.
Context {Fs Dir File Stop : Type} `{DirOs Fs Dir File} (umask : N) (blake3 : list byte -> list byte).

Record Written := mkWritten { w_file : File; w_bytes : N; w_hash : list byte; w_error : option IoError }.

Inductive Task :=
  | TCreating
  | TPumping (received : N) (fend : option FileEnd)
  | THanding (received : N) (chunk : list byte)
  | TFailing
  | TJoining (e : FileEnd)
  | TCommitting (bytes : N) (hash : list byte)
  | TOver (o : Outcome Stop)
  | TDropped.

(** [write_loop], between two chunks: the file and what it has hashed. *)
Inductive Writer := WNone | WRun (f : File) (hashed : list byte) | WEnd (w : Written).

Inductive Job :=
  | JNone
  | JCreate (p : prog Dir File (result (File * string) (Outcome Stop)))
  | JCommit (p : prog Dir File (result Committed IoError)).

(** A call that was made, and its answer. *)
Inductive Event := | ECall {B : Type} (c : Sys Dir File B) (b : B).

(** [t_log], [t_made], [t_data] and [t_recv] record what happened: the calls,
    the temporary file that was made, the chunks the pump took, and what the
    stream answered. *)
Record TState := mkT {
  t_fs : Fs;
  t_log : list Event;
  t_task : Task;
  t_queue : list (list byte);
  t_tx : bool;
  t_writer : Writer;
  t_guard : option string;
  t_job : Job;
  t_made : option (File * string);
  t_data : list byte;
  t_recv : list Received;
}.

Definition with_disk (fs : Fs) (log : list Event) (s : TState) : TState :=
  mkT fs log (t_task s) (t_queue s) (t_tx s) (t_writer s) (t_guard s) (t_job s) (t_made s) (t_data s) (t_recv s).
Definition with_task (t : Task) (s : TState) : TState :=
  mkT (t_fs s) (t_log s) t (t_queue s) (t_tx s) (t_writer s) (t_guard s) (t_job s) (t_made s) (t_data s) (t_recv s).
Definition with_queue (q : list (list byte)) (s : TState) : TState :=
  mkT (t_fs s) (t_log s) (t_task s) q (t_tx s) (t_writer s) (t_guard s) (t_job s) (t_made s) (t_data s) (t_recv s).
Definition hang_up (s : TState) : TState :=
  mkT (t_fs s) (t_log s) (t_task s) (t_queue s) false (t_writer s) (t_guard s) (t_job s) (t_made s) (t_data s) (t_recv s).
Definition with_writer (w : Writer) (s : TState) : TState :=
  mkT (t_fs s) (t_log s) (t_task s) (t_queue s) (t_tx s) w (t_guard s) (t_job s) (t_made s) (t_data s) (t_recv s).
Definition with_guard (g : option string) (s : TState) : TState :=
  mkT (t_fs s) (t_log s) (t_task s) (t_queue s) (t_tx s) (t_writer s) g (t_job s) (t_made s) (t_data s) (t_recv s).
Definition with_job (j : Job) (s : TState) : TState :=
  mkT (t_fs s) (t_log s) (t_task s) (t_queue s) (t_tx s) (t_writer s) (t_guard s) j (t_made s) (t_data s) (t_recv s).
Definition with_made (m : option (File * string)) (s : TState) : TState :=
  mkT (t_fs s) (t_log s) (t_task s) (t_queue s) (t_tx s) (t_writer s) (t_guard s) (t_job s) m (t_data s) (t_recv s).
Definition take_data (chunk : list byte) (s : TState) : TState :=
  mkT (t_fs s) (t_log s) (t_task s) (t_queue s) (t_tx s) (t_writer s) (t_guard s) (t_job s) (t_made s) (t_data s ++ chunk) (t_recv s).
Definition hear (ev : Received) (s : TState) : TState :=
  mkT (t_fs s) (t_log s) (t_task s) (t_queue s) (t_tx s) (t_writer s) (t_guard s) (t_job s) (t_made s) (t_data s) (t_recv s ++ [ev]).

(** One call, and a program at once. *)
Definition sys {B} (c : Sys Dir File B) (s : TState) : TState * B :=
  let '(fs, b) := perform c (t_fs s) in (with_disk fs (t_log s ++ [ECall c b]) s, b).
Fixpoint run {A} (p : prog Dir File A) (s : TState) : TState * A :=
  match p with Ret a => (s, a) | Do c k => let '(s, b) := sys c s in run (k b) s end.

Variables (rc : Receiver Stop) (dir : Dir) (place : Placement) (draws : list (list byte)).

(** [TempGuard::clean] *)
Definition clean (s : TState) : TState :=
  match t_guard s with
  | Some name => with_guard None (fst (run (unlink_at dir name) s))
  | None => s
  end.
Definition over (o : Outcome Stop) (s : TState) : TState := with_task (TOver o) (clean (hang_up s)).

(** [create_guarded_temp], after the host's [try_clone]. *)
Definition start_job : prog Dir File (result (File * string) (Outcome Stop)) :=
  let guarded := pbind (create_temp dir (p_name place) draws) (fun r => Ret (map_err OIo r)) in
  if rc_clones rc
  then pbind (call (SDup dir)) (fun r => match r with Ok _ => guarded | Err e => Ret (Err (OClone e)) end)
  else guarded.

Definition start (fs : Fs) : TState := mkT fs [] TCreating [] false WNone None (JCreate start_job) None [] [].

(** The next call of a blocking job, or its end. *)
Definition created (r : result (File * string) (Outcome Stop)) : option (File * string) :=
  match r with Ok made => Some made | Err _ => None end.
Definition job_step (s : TState) : option TState :=
  match t_job s with
  | JNone => None
  | JCreate (Do c k) =>
      let '(s, b) := sys c s in
      Some (with_made (match k b with Ret r => created r | _ => None end) (with_job (JCreate (k b)) s))
  | JCommit (Do c k) => let '(s, b) := sys c s in Some (with_job (JCommit (k b)) s)
  | JCreate (Ret (Ok (f, temp))) =>
      let s := with_guard (Some temp) (with_job JNone s) in
      Some (match t_task s with
            | TCreating => with_task (TPumping 0 None) (with_writer (WRun f [])
                             (mkT (t_fs s) (t_log s) (t_task s) (t_queue s) true (t_writer s) (t_guard s) (t_job s) (t_made s) (t_data s) (t_recv s)))
            | _ => clean s
            end)
  | JCreate (Ret (Err o)) =>
      let s := with_job JNone s in
      Some (match t_task s with TCreating => with_task (TOver o) s | _ => s end)
  | JCommit (Ret r) =>
      let s := with_job JNone s in
      Some (match t_task s, r with
            | TCommitting bytes hash, Ok c =>
                with_task (TOver (OCommitted bytes hash (overwritten c))) (if temp_gone c then with_guard None s else clean s)
            | TCommitting _ _, Err e => over (OIo e) s
            | _, _ => s
            end)
  end.

(** [write_loop] *)
Definition writer_step (s : TState) : option TState :=
  match t_writer s, t_queue s with
  | WRun f hashed, chunk :: queue =>
      let '(s, r) := sys (SWriteAll f chunk) (with_queue queue s) in
      Some (match r with
            | Ok _ => with_writer (WRun f (hashed ++ chunk)) s
            | Err e => with_queue [] (with_writer (WEnd (mkWritten f (len hashed) (blake3 hashed) (Some e))) s)
            end)
  | WRun f hashed, [] =>
      if t_tx s then None else Some (with_writer (WEnd (mkWritten f (len hashed) (blake3 hashed) None)) s)
  | _, _ => None
  end.

(** The stream answers the pump. *)
Definition recv_step (ev : Received) (s : TState) : option TState :=
  match t_task s with
  | TPumping received fend =>
      let s := hear ev s in
      Some (match rc_pump rc received fend ev with
            | Go received fend => with_task (TPumping received fend) s
            | Chunk received chunk => with_task (THanding received chunk) (take_data chunk s)
            | Finish e => with_task (TJoining e) (hang_up s)
            | Stopped why => over (OStopped why) s
            end)
  | _ => None
  end.

(** The hand-off of a chunk to the disk writer. *)
Definition hand_step (s : TState) : option TState :=
  match t_task s with
  | THanding received chunk =>
      match t_writer s with
      | WEnd _ => Some (with_task TFailing (hang_up s))
      | _ =>
          if len (t_queue s) <? DISK_QUEUE_CHUNKS
          then Some (with_task (TPumping received None) (with_queue (t_queue s ++ [chunk]) s)) else None
      end
  | _ => None
  end.

(** The task gets what the writer reports; without its guard it would
    panic. *)
Definition join_step (s : TState) : option TState :=
  match t_task s, t_writer s with
  | TFailing, WEnd w => Some (over (match w_error w with Some e => OIo e | None => OInternal end) s)
  | TJoining e, WEnd w =>
      Some (match w_error w with
            | Some err => over (OIo err) s
            | None =>
                if negb (rc_agrees rc e (w_bytes w) (w_hash w)) then over OMismatch s
                else match t_guard s with
                     | Some temp =>
                         with_task (TCommitting (w_bytes w) (w_hash w)) (with_job (JCommit (commit_temp umask dir temp (w_file w) place)) s)
                     | None => with_task TDropped s
                     end
            end)
  | _, _ => None
  end.

(** The ledger or the caller stops the pump. *)
Definition stop_step (i : Interrupt) (s : TState) : option TState :=
  match t_task s with
  | TPumping _ _ | THanding _ _ => Some (over (OInterrupted i) s)
  | _ => None
  end.

(** The task is dropped where it awaits; its guard goes with it, blocking
    threads run on. *)
Definition drop_step (s : TState) : option TState :=
  match t_task s with
  | TOver _ | TDropped => None
  | _ => Some (with_task TDropped (clean (hang_up s)))
  end.

Inductive Label := LJob | LWriter | LRecv (ev : Received) | LHand | LJoin | LStop (i : Interrupt) | LDrop.

Definition step (s : TState) (l : Label) : option TState :=
  match l with
  | LJob => job_step s
  | LWriter => writer_step s
  | LRecv ev => recv_step ev s
  | LHand => hand_step s
  | LJoin => join_step s
  | LStop i => stop_step i s
  | LDrop => drop_step s
  end.
End Machine.

(** ** What the calls do *)

(** The names of the directory [d], the bytes of the files, and the promises
    POSIX makes about the calls on them. *)
Class DirLaws {Fs Dir File : Type} `{DirOs Fs Dir File} (d : Dir) := {
  view : Fs -> gmap string N;
  content : Fs -> N -> list byte;
  inode : File -> N;
  same (fs fs' : Fs) : Prop := view fs' = view fs /\ forall i, content fs' i = content fs i;
  law_plain {B} (c : Sys Dir File B) fs : plain c = true -> same fs (fst (perform c fs));
  law_open n m fs : forall fs' r, perform (SOpenExcl d n m) fs = (fs', r) ->
    match r with
    | Ok f =>
        view fs !! n = None /\ view fs' = <[n := inode f]> (view fs)
        /\ (forall n', view fs !! n' <> Some (inode f))
        /\ content fs' (inode f) = [] /\ forall i, i <> inode f -> content fs' i = content fs i
    | Err _ => same fs fs'
    end;
  law_write f data fs : forall fs' r, perform (SWriteAll f data) fs = (fs', r) ->
    view fs' = view fs /\ (forall i, i <> inode f -> content fs' i = content fs i)
    /\ (r = Ok tt -> content fs' (inode f) = content fs (inode f) ++ data);
  law_rename a b fs : forall fs' r, perform (SRename d a b) fs = (fs', r) ->
    (forall i, content fs' i = content fs i)
    /\ match r with
       | Ok _ => exists i, view fs !! a = Some i
                 /\ view fs' = if bool_decide (view fs !! b = Some i) then view fs else <[b := i]> (delete a (view fs))
       | Err _ => view fs' = view fs
       end;
  law_link a b fs : forall fs' r, perform (SLink d a b) fs = (fs', r) ->
    (forall i, content fs' i = content fs i)
    /\ match r with
       | Ok _ => exists i, view fs !! a = Some i /\ view fs !! b = None /\ view fs' = <[b := i]> (view fs)
       | Err _ => view fs' = view fs
       end;
  law_unlink a fs : forall fs' r, perform (SUnlink d a) fs = (fs', r) ->
    (forall i, content fs' i = content fs i)
    /\ view fs' = match r with Ok _ => delete a (view fs) | Err _ => view fs end;
}.

(** What the frames that were received carry: the bytes, and the first end
    frame. *)
Definition data_of (evs : list Received) : list byte :=
  concat (omap (fun ev => match ev with RFrame (Some (Data chunk)) => Some chunk | _ => None end) evs).
Definition first_end (evs : list Received) : option FileEnd :=
  head (omap (fun ev => match ev with RFrame (Some (End_ e)) => Some e | _ => None end) evs).

#[global] Arguments data_of : simpl never.
#[global] Arguments first_end : simpl never.

(** What a receiver promises: the pump takes the bytes of data frames that come
    before the end frame and nothing else, keeps the end frame, and finishes
    when the stream does; and the comparison is one of sizes and hashes. *)
Class ReceiverLaws {Stop} (rc : Receiver Stop) : Prop := {
  pump_go received fend ev received' fend' : rc_pump rc received fend ev = Go received' fend' ->
    (fend' = fend /\ (ev = RTimeout \/ ev = RFrame (Some (Data []))))
    \/ (fend = None /\ exists e, ev = RFrame (Some (End_ e)) /\ fend' = Some e);
  pump_chunk received fend ev received' chunk : rc_pump rc received fend ev = Chunk received' chunk ->
    fend = None /\ ev = RFrame (Some (Data chunk));
  pump_finish received fend ev e : rc_pump rc received fend ev = Finish e -> fend = Some e /\ ev = RFinished;
  agrees_exact e bytes hash : rc_agrees rc e bytes hash = true -> e_size e = bytes /\ e_blake3 e = hash;
}.

(** A call that gave some file another name, whatever the names; [put] below
    says which. *)
Definition placing {Dir File} (e : @Event Dir File) : bool :=
  match e with
  | ECall c b => match c in Sys _ _ B return B -> bool with
                 | SRename _ _ _ | SLink _ _ _ => is_ok
                 | _ => fun _ => false
                 end b
  end.
Definition placed {Dir File} (log : list (@Event Dir File)) : nat := length (List.filter placing log).
#[global] Arguments placed : simpl never.

Lemma placed_app {Dir File} (l l' : list (@Event Dir File)) : placed (l ++ l') = (placed l + placed l')%nat.
Proof. unfold placed. by rewrite List.filter_app, length_app. Qed.

(** More in the log, nothing more in place. *)
Definition extends {Dir File} (log log' : list (@Event Dir File)) : Prop := placed log' = placed log /\ forall e, e ∈ log -> e ∈ log'.
Lemma extends_app {Dir File} (log l : list (@Event Dir File)) : placed l = 0%nat -> extends log (log ++ l).
Proof. intros Hl. split; [rewrite placed_app; lia|set_solver]. Qed.

(** ** Rely and guarantee for a blocking program *)

Section Wp.
Context {Fs Dir File : Type} `{DirOs Fs Dir File}.
Abbreviation Log := (list (@Event Dir File)).
Variable R : Fs -> Fs -> Prop.
Variable G : forall B, Sys Dir File B -> B -> Fs -> Fs -> Prop.
Context `{!PreOrder R}.

(** Whatever [R] does to the state before each call, each call does [G], and
    the program ends with [Q]. *)
Fixpoint wp {A} (p : prog Dir File A) (Q : A -> Log -> Fs -> Prop) (log : Log) (fs : Fs) : Prop :=
  match p with
  | Ret a => Q a log fs
  | @Do _ _ _ B c k => forall fs1, R fs fs1 ->
      let '(fs2, b) := perform c fs1 in G B c b fs1 fs2 /\ wp (k b) Q (log ++ [ECall c b]) fs2
  end.

Definition stable {A} (Q : A -> Log -> Fs -> Prop) : Prop := forall a log fs fs', R fs fs' -> Q a log fs -> Q a log fs'.

Lemma wp_rely {A} (p : prog Dir File A) Q log fs fs' : stable Q -> R fs fs' -> wp p Q log fs -> wp p Q log fs'.
Proof.
  intros HQ HR. destruct p as [a|B c k]; cbn [wp]; [by apply HQ|]. intros Hw fs1 H1. apply Hw. by transitivity fs'.
Qed.
Lemma wp_weaken {A} (p : prog Dir File A) Q Q' log fs :
  wp p Q log fs -> (forall a log fs, Q a log fs -> Q' a log fs) -> wp p Q' log fs.
Proof.
  intros Hw HQ. revert log fs Hw. induction p as [a|B c k IH]; intros log fs; cbn [wp]; [apply HQ|]. intros Hw fs1 H1. specialize (Hw fs1 H1).
  destruct (perform c fs1) as [fs2 b]. destruct Hw as [Hg Hw]. split; [done|]. by apply IH.
Qed.
Lemma wp_bind {A B} (p : prog Dir File A) (f : A -> prog Dir File B) Q log fs :
  wp p (fun a => wp (f a) Q) log fs -> wp (pbind p f) Q log fs.
Proof.
  revert log fs. induction p as [a|C c k IH]; intros log fs; cbn [wp pbind]; [done|]. intros Hw fs1 H1. specialize (Hw fs1 H1).
  destruct (perform c fs1) as [fs2 b]. destruct Hw as [Hg Hw]. split; [done|]. by apply IH.
Qed.
Lemma wp_try {A B E} (p : prog Dir File (result A E)) (f : A -> prog Dir File (result B E)) Q log fs :
  wp p (fun r => match r with Ok a => wp (f a) Q | Err e => Q (Err e) end) log fs -> wp (ptry p f) Q log fs.
Proof. intros Hw. apply wp_bind. eapply wp_weaken; [exact Hw|]. by intros [a|e] log' fs'. Qed.
Lemma wp_call {B} (c : Sys Dir File B) Q log fs :
  (forall fs1, R fs fs1 -> forall fs2 b, perform c fs1 = (fs2, b) -> G B c b fs1 fs2 /\ Q b (log ++ [ECall c b]) fs2) ->
  wp (call c) Q log fs.
Proof. intros HQ fs1 H1. specialize (HQ fs1 H1). destruct (perform c fs1) as [fs2 b]. by apply HQ. Qed.

Lemma wp_extends {A} (p : prog Dir File A) (Q : A -> Log -> Fs -> Prop) log log' fs :
  (forall a log log' fs, extends log log' -> Q a log fs -> Q a log' fs) -> extends log log' -> wp p Q log fs -> wp p Q log' fs.
Proof.
  intros HQ. revert log log' fs. induction p as [a|B c k IH]; intros log log' fs He; cbn [wp]; [by apply HQ|].
  intros Hw fs1 H1. specialize (Hw fs1 H1). destruct (perform c fs1) as [fs2 b]. destruct Hw as [Hg Hw]. split; [done|].
  eapply IH; [|done]. destruct He as [Hp Hm]. split; [by rewrite !placed_app, Hp|].
  intros e. rewrite !elem_of_app. intros [?|?]; auto.
Qed.
End Wp.

(** ** The commit *)

Section Commit.
Context {Fs Dir File : Type} `{DirOs Fs Dir File} (d : Dir) `{!DirLaws d} (umask : N) (place : Placement) (f : File) (temp : string).
Hypothesis Hne : temp <> p_name place.
Hypothesis Hcs : cstring temp = Ok temp.
Implicit Types (fs : Fs) (log : list (@Event Dir File)).

(** What happens around the commit: the temporary name may go, its bytes stay,
    and nobody gives the file its final name. *)
Definition around fs fs' : Prop :=
  content fs' (inode f) = content fs (inode f)
  /\ (view fs' !! temp = view fs !! temp \/ view fs' !! temp = None)
  /\ (view fs' !! p_name place = Some (inode f) -> view fs !! p_name place = Some (inode f)).

#[global] Instance around_preorder : PreOrder around.
Proof. split; [by intros fs; repeat split; auto|]. intros x y z (E1 & H1 & ?) (E2 & H2 & ?). split; [congruence|]. split; [|auto].
  destruct H2 as [->| ->]; auto.
Qed.

(** What its calls do. *)
Definition commits B (c : Sys Dir File B) (b : B) fs fs' : Prop :=
  (forall n, n <> temp -> n <> p_name place -> view fs' !! n = view fs !! n)
  /\ (forall i, content fs' i = content fs i)
  /\ (view fs' !! temp = view fs !! temp \/ view fs' !! temp = None)
  /\ (if placing (ECall c b) then view fs' !! p_name place = Some (inode f) /\ (p_overwrite place = false -> view fs !! p_name place = None)
      else view fs' !! p_name place = view fs !! p_name place).

(** Before the file is in place. *)
Definition unplaced log fs : Prop :=
  placed log = 0%nat /\ (view fs !! temp = Some (inode f) \/ view fs !! temp = None) /\ view fs !! p_name place <> Some (inode f).

Lemma unplaced_around log fs fs' : around fs fs' -> unplaced log fs -> unplaced log fs'.
Proof. intros (_ & Ht & Hn) (Hl & He & Hp). split; [done|]. split; [destruct Ht as [->| ->]; auto|auto]. Qed.

Lemma plain_places {B} (c : Sys Dir File B) (b : B) : plain c = true -> placing (ECall c b) = false.
Proof. by destruct c. Qed.
Lemma same_commits {B} (c : Sys Dir File B) (b : B) fs fs' :
  placing (ECall c b) = false -> same fs fs' -> commits B c b fs fs'.
Proof. intros Hp [Hv Hc]. unfold commits. rewrite Hp, Hv. auto. Qed.
Lemma unplaced_same {B} (c : Sys Dir File B) (b : B) log fs fs' :
  placing (ECall c b) = false -> same fs fs' -> unplaced log fs -> unplaced (log ++ [ECall c b]) fs'.
Proof.
  intros Hp [Hv _] (Hl & He & Hn). unfold unplaced. rewrite placed_app, Hl, Hv. unfold placed. cbn [List.filter]. rewrite Hp. auto.
Qed.

Abbreviation cwp := (wp around commits).

Lemma wp_plain {B} (c : Sys Dir File B) Q log fs :
  plain c = true -> unplaced log fs -> (forall b log fs, unplaced log fs -> Q b log fs) -> cwp (call c) Q log fs.
Proof.
  intros Hp Hu HQ. apply wp_call. intros fs1 H1 fs2 b E. pose proof (law_plain c fs1 Hp) as Hs. rewrite E in Hs. cbn [fst] in Hs.
  apply (plain_places _ b) in Hp. split; [by apply same_commits|]. apply HQ. eapply unplaced_same; [done..|]. by eapply unplaced_around.
Qed.

(** The temporary file was given the name of the destination, and this is the
    only such call that was made. *)
Definition put log : Prop :=
  placed log = 1%nat
  /\ (if p_overwrite place then ECall (SRename d temp (p_name place)) (Ok tt) else ECall (SLink d temp (p_name place)) (Ok tt)) ∈ log.
Lemma put_extends log log' : extends log log' -> put log -> put log'.
Proof. intros [Hp Hm] [H1' Hin]. split; [by rewrite Hp|by apply Hm]. Qed.

(** What the commit answers. *)
Definition commit_ends (r : result Committed IoError) log fs : Prop :=
  match r with
  | Ok c => put log /\ (temp_gone c = true -> view fs !! temp = None)
  | Err e => placed log = 0%nat \/ (put log /\ ECall (SSyncDir d) (Err e) ∈ log)
  end.
Lemma commit_ends_stable : stable around commit_ends.
Proof.
  intros [c|e] log fs fs' (_ & Ht & _); [|done]. intros [Hl Hg]. split; [done|]. intros E. specialize (Hg E). destruct Ht; congruence.
Qed.

Lemma commit_ends_extends r log log' fs : extends log log' -> commit_ends r log fs -> commit_ends r log' fs.
Proof.
  intros He. pose proof (put_extends log log' He) as Hput. destruct He as [Hp Hm]. destruct r as [c|e]; cbn; [naive_solver|]. rewrite Hp. naive_solver.
Qed.

(** In place, and the temporary name gone where [gone] says so. *)
Definition in_place (gone : bool) log fs : Prop := put log /\ (gone = true -> view fs !! temp = None).
Lemma in_place_around gone log fs fs' : around fs fs' -> in_place gone log fs -> in_place gone log fs'.
Proof. intros (_ & Ht & _) [Hl Hg]. split; [done|]. intros E. specialize (Hg E). destruct Ht; congruence. Qed.

Lemma named_wp {A} n (g : string -> prog Dir File (result A IoError)) (Q : result A IoError -> _) log fs :
  unplaced log fs -> (forall e log fs, unplaced log fs -> Q (Err e) log fs) ->
  (forall n', n' = n -> cwp (g n') Q log fs) ->
  cwp (match cstring n with Err e => Ret (Err e) | Ok n' => g n' end) Q log fs.
Proof.
  intros Hu HE Hg. unfold cstring. destruct (contains nul n); [by apply HE|by apply Hg].
Qed.

Lemma failed_unplaced {B} (c : Sys Dir File B) (b : B) log fs fs' :
  placing (ECall c b) = false -> view fs' = view fs -> (forall i, content fs' i = content fs i) ->
  unplaced log fs -> commits B c b fs fs' /\ unplaced (log ++ [ECall c b]) fs'.
Proof. intros Hp Hv Hc Hu. split; [by apply same_commits|by eapply unplaced_same]. Qed.

Lemma placed_one {B} (c : Sys Dir File B) (b : B) log : placed log = 0%nat -> placing (ECall c b) = true -> placed (log ++ [ECall c b]) = 1%nat.
Proof. intros Hl Hp. rewrite placed_app, Hl. unfold placed. cbn [List.filter]. by rewrite Hp. Qed.

Lemma replace_wp Q log fs :
  p_overwrite place = true -> unplaced log fs -> (forall e log fs, unplaced log fs -> Q (Err e) log fs) ->
  (forall log fs, in_place true log fs -> Q (Ok tt) log fs) ->
  cwp (replace_at d temp (p_name place)) Q log fs.
Proof.
  intros Ho Hu HE HO. unfold replace_at, named. apply named_wp; [done..|]. intros ? ->. apply named_wp; [done..|]. intros ? ->.
  apply wp_call. intros fs1 H1 fs2 r E. apply (unplaced_around log) in H1; [|done]. apply law_rename in E as [Hc Hr]. destruct r as [[]|e].
  - destruct Hr as (i & Ea & Hv). destruct H1 as (Hl & He & Hn). assert (i = inode f) as -> by (destruct He; congruence).
    rewrite bool_decide_false in Hv by done. split.
    + split; [|split; [done|split; [right|split; [|congruence]]]]; rewrite Hv.
      * intros n Hn1 Hn2. by rewrite lookup_insert_ne, lookup_delete_ne.
      * by rewrite lookup_insert_ne, lookup_delete_eq by done.
      * by rewrite lookup_insert_eq.
    + apply HO. split; [split; [by apply placed_one|rewrite Ho; set_solver]|]. intros _. by rewrite Hv, lookup_insert_ne, lookup_delete_eq by done.
  - destruct (failed_unplaced (SRename d temp (p_name place)) (Err e) log fs1 fs2) as [? ?]; auto.
Qed.

Lemma link_wp Q log fs :
  p_overwrite place = false -> unplaced log fs -> (forall e log fs, unplaced log fs -> Q (Err e) log fs) ->
  (forall log fs, in_place false log fs -> Q (Ok tt) log fs) ->
  cwp (link_new_at d temp (p_name place)) Q log fs.
Proof.
  intros Ho Hu HE HO. unfold link_new_at, named. apply named_wp; [done..|]. intros ? ->. apply named_wp; [done..|]. intros ? ->.
  apply wp_call. intros fs1 H1 fs2 r E. apply (unplaced_around log) in H1; [|done]. apply law_link in E as [Hc Hr]. destruct r as [[]|e].
  - destruct Hr as (i & Ea & Eb & Hv). destruct H1 as (Hl & He & Hn). assert (i = inode f) as -> by (destruct He; congruence). split.
    + split; [|split; [done|split; [left|split; [|done]]]]; rewrite Hv.
      * intros n Hn1 Hn2. by rewrite lookup_insert_ne.
      * by rewrite lookup_insert_ne.
      * by rewrite lookup_insert_eq.
    + apply HO. split; [split; [by apply placed_one|rewrite Ho; set_solver]|done].
  - destruct (failed_unplaced (SLink d temp (p_name place)) (Err e) log fs1 fs2) as [? ?]; auto.
Qed.

Lemma unlink_wp Q log fs :
  in_place false log fs -> (forall r log fs, in_place (is_ok r) log fs -> Q r log fs) -> cwp (unlink_at d temp) Q log fs.
Proof.
  intros Hp HQ. unfold unlink_at, named. rewrite Hcs. apply wp_call. intros fs1 H1 fs2 r E. apply (in_place_around false log) in H1; [|done].
  apply law_unlink in E as [Hc Hv]. destruct H1 as [Hl _]. split.
  - destruct r as [[]|e]; [|by apply same_commits]. split; [|split; [done|split; [right|]]]; rewrite Hv.
    + intros n Hn1 Hn2. by rewrite lookup_delete_ne.
    + by rewrite lookup_delete_eq.
    + cbn. by rewrite lookup_delete_ne.
  - apply HQ. split; [eapply put_extends; [|done]; by apply extends_app|]. destruct r as [[]|e]; [|done]. intros _. by rewrite Hv, lookup_delete_eq.
Qed.

Lemma sync_wp c log fs :
  in_place (temp_gone c) log fs -> cwp (ptry (call (SSyncDir d)) (fun _ => Ret (Ok c))) commit_ends log fs.
Proof.
  intros Hp. apply wp_try, wp_call. intros fs1 H1 fs2 r E. apply (in_place_around (temp_gone c) log) in H1; [|done].
  pose proof (law_plain (SSyncDir d) fs1 eq_refl) as Hs. rewrite E in Hs. cbn [fst] in Hs. split; [by apply same_commits|].
  destruct H1 as [Hl Hg], Hs as [Hv _]. destruct r as [[]|e]; cbn.
  - split; [eapply put_extends; [|done]; by apply extends_app|]. by rewrite Hv.
  - right. split; [eapply put_extends; [|done]; by apply extends_app|set_solver].
Qed.

Lemma attrs_wp mode preserve mtime (Q : result unit IoError -> _) log fs :
  unplaced log fs -> (forall r log fs, unplaced log fs -> Q r log fs) -> cwp (apply_final_attrs umask f mode preserve mtime) Q log fs.
Proof.
  intros Hu HQ. apply wp_try, wp_plain; [done..|]. intros [[]|e] log1 fs1 Hu1; [|by apply HQ].
  destruct preserve; [by apply wp_plain|by apply HQ].
Qed.
Lemma stat_wp (Q : result (option StatInfo) IoError -> _) log fs :
  unplaced log fs -> (forall r log fs, unplaced log fs -> Q r log fs) -> cwp (stat_entry d (p_name place)) Q log fs.
Proof.
  intros Hu HQ. apply named_wp; [done|by auto|]. intros ? ->. apply wp_bind, wp_plain; [done..|]. intros r log1 fs1 Hu1. by apply HQ.
Qed.

Lemma commit_wp log fs : unplaced log fs -> cwp (commit_temp umask d temp f place) commit_ends log fs.
Proof.
  intros Hu. unfold commit_temp. assert (HE : forall e log fs, unplaced log fs -> commit_ends (Err e) log fs) by (intros e l fs' [? _]; by left).
  apply wp_try, wp_plain; [done..|]. intros [[]|e] log1 fs1 Hu1; [|by apply HE].
  apply wp_try, attrs_wp; [done|]. intros [[]|e] log2 fs2 Hu2; [|by apply HE].
  apply wp_try. destruct (p_overwrite place) eqn:Ho.
  - apply wp_try, stat_wp; [done|]. intros [existing|e] log3 fs3 Hu3; [|by apply HE].
    apply wp_try, replace_wp; [done..|]. intros log4 fs4 Hp. by apply sync_wp.
  - apply wp_try, wp_try, link_wp; [done..|]. intros log3 fs3 Hp. apply wp_bind, unlink_wp; [done|]. intros r log4 fs4 Hp4. by apply sync_wp.
Qed.
End Commit.
End Transfer.
