(* ===== verification/TransferSafety.v ===== *)
(** * What a transfer does to the directory

    The machine of [Transfer], with any interleaving of its threads and any
    interference of others that leaves its temporary file alone: an
    invariant, what each step may do to the directory, what the outcome says,
    and that the threads never hang on each other. *)

From S2P Require Import Prelude Text FsPath FileGuard HostOs Transfer.

Module TransferSafety.
Import Text FsPath FileGuard HostOs Transfer.

Section Safety.
Context {Fs Dir File Stop : Type} `{DirOs Fs Dir File} (d : Dir) `{!DirLaws d} (umask : N) (blake3 : list byte -> list byte).
Variables (rc : Receiver Stop) (place : Placement) (draws : list (list byte)).
Abbreviation TState := (@TState Fs Dir File Stop).
Abbreviation name := (p_name place).
Abbreviation mstep := (step umask blake3 rc d place).
Implicit Types (s : TState) (fs : Fs) (log : list (@Event Dir File)).

(** The drawn names are not the name of the destination. *)
Hypothesis Hdraws : forall random, random ∈ draws -> temp_name name random <> name.

(** Others leave the temporary file and its name alone, and do not give it
    the name of the destination. *)
Definition rely s fs' : Prop :=
  match t_made s with
  | None => True
  | Some (f, temp) =>
      content fs' (inode f) = content (t_fs s) (inode f)
      /\ view fs' !! temp = view (t_fs s) !! temp
      /\ (view fs' !! name = Some (inode f) -> view (t_fs s) !! name = Some (inode f))
  end.

(** [alone]: others leave the name of the destination alone, too. *)
Definition untouched s fs' : Prop := view fs' !! name = view (t_fs s) !! name.
Inductive tstep (alone : bool) : TState -> TState -> Prop :=
  | t_own l s s' : mstep s l = Some s' -> tstep alone s s'
  | t_env s fs' : rely s fs' -> (alone = true -> untouched s fs') -> tstep alone s (with_disk fs' (t_log s) s).
Definition reaches (alone : bool) s : Prop := exists fs0, rtc (tstep alone) (start rc d place draws fs0) s.
Definition reachable s : Prop := reaches false s.

(** ** The invariant *)

(** The temporary file was put in place and holds what the pump took. *)
Definition stored (f : File) (temp : string) s : Prop :=
  put d place temp (t_log s) /\ content (t_fs s) (inode f) = t_data s.

(** What an outcome says of the calls that were made. *)
Definition ended (f : File) (temp : string) (o : Outcome Stop) s : Prop :=
  match o with
  | OCommitted bytes hash _ => stored f temp s /\ bytes = len (t_data s) /\ hash = blake3 (t_data s)
  | OIo e => placed (t_log s) = 0%nat \/ (stored f temp s /\ ECall (SSyncDir d) (Err e) ∈ t_log s)
  | _ => placed (t_log s) = 0%nat
  end.

(** The temporary name is gone, or could not be removed. *)
Definition swept (temp : string) s : Prop :=
  view (t_fs s) !! temp = None \/ exists e, ECall (SUnlink d temp) (Err e) ∈ t_log s.

(** A program that makes the temporary file. *)
Fixpoint creating (p : prog Dir File (result (File * string) (Outcome Stop))) : Prop :=
  match p with
  | Ret r => exists e, r = Err (OClone e) \/ r = Err (OIo e)
  | Do c k =>
      match c in Sys _ _ B return (B -> prog Dir File (result (File * string) (Outcome Stop))) -> (B -> Prop) -> Prop with
      | SOpenExcl dir temp m => fun k rec =>
          dir = d /\ temp <> name /\ cstring temp = Ok temp /\ (forall f, k (Ok f) = Ret (Ok (f, temp))) /\ forall e, rec (Err e)
      | SDup _ => fun k rec => forall b, rec b
      | _ => fun _ _ => False
      end k (fun b => creating (k b))
  end.

(** Armed: the temporary file is there and nothing is in place. *)
Definition live (f : File) (temp : string) s : Prop :=
  t_guard s = Some temp /\ placed (t_log s) = 0%nat
  /\ view (t_fs s) !! temp = Some (inode f) /\ view (t_fs s) !! name <> Some (inode f).

(** The bytes on disk, those in the queue and [tail] are what the pump took. *)
Definition pipe (f : File) (tail : list byte) s : Prop :=
  match t_writer s with
  | WNone => False
  | WRun _ hashed => content (t_fs s) (inode f) = hashed /\ hashed ++ concat (t_queue s) ++ tail = t_data s
  | WEnd w =>
      w_error w = None -> t_tx s = false /\ tail = [] /\ content (t_fs s) (inode f) = t_data s
        /\ w_bytes w = len (t_data s) /\ w_hash w = blake3 (t_data s)
  end.

Definition owned (f : File) s : Prop :=
  match t_writer s with
  | WNone => True
  | WRun f' _ => f' = f /\ placed (t_log s) = 0%nat
  | WEnd w => w_file w = f
  end.

Definition making (f : File) (temp : string) s : Prop :=
  t_guard s = None /\ t_writer s = WNone /\ t_queue s = [] /\ t_data s = [] /\ t_tx s = false /\ placed (t_log s) = 0%nat
  /\ content (t_fs s) (inode f) = [] /\ view (t_fs s) !! temp = Some (inode f) /\ view (t_fs s) !! name <> Some (inode f)
  /\ (t_task s = TCreating \/ t_task s = TDropped).

Definition working (f : File) (temp : string) s : Prop :=
  owned f s /\
  match t_task s with
  | TPumping _ _ => live f temp s /\ t_tx s = true /\ pipe f [] s
  | THanding _ chunk => live f temp s /\ t_tx s = true /\ pipe f chunk s
  | TFailing => live f temp s /\ exists w e, t_writer s = WEnd w /\ w_error w = Some e
  | TJoining _ => live f temp s /\ t_tx s = false /\ pipe f [] s
  | TOver o => t_guard s = None /\ ended f temp o s /\ swept temp s
  | TDropped => t_guard s = None /\ (placed (t_log s) <= 1)%nat /\ swept temp s
  | TCreating | TCommitting _ _ => False
  end.

Definition committing (f : File) (temp : string) (p : prog Dir File (result Committed IoError)) s : Prop :=
  (exists w, t_writer s = WEnd w /\ w_file w = f)
  /\ content (t_fs s) (inode f) = t_data s
  /\ wp (around d place f temp) (commits d place f temp) p (commit_ends d place temp) (t_log s) (t_fs s)
  /\ match t_task s with
     | TCommitting bytes hash => t_guard s = Some temp /\ bytes = len (t_data s) /\ hash = blake3 (t_data s)
     | TDropped => t_guard s = None /\ swept temp s
     | _ => False
     end.

Definition Inv s : Prop :=
  match t_made s with
  | None =>
      t_guard s = None /\ t_writer s = WNone /\ t_queue s = [] /\ t_data s = [] /\ t_tx s = false /\ placed (t_log s) = 0%nat
      /\ match t_job s with
         | JCreate p => creating p /\ (t_task s = TCreating \/ t_task s = TDropped)
         | JNone => t_task s = TDropped \/ exists e, t_task s = TOver (OClone e) \/ t_task s = TOver (OIo e)
         | JCommit _ => False
         end
  | Some (f, temp) =>
      temp <> name /\ cstring temp = Ok temp
      /\ match t_job s with
         | JCreate p => p = Ret (Ok (f, temp)) /\ making f temp s
         | JNone => working f temp s
         | JCommit p => committing f temp p s
         end
  end.

Lemma creating_loop ds last : ds ⊆ draws ->
  creating (pbind (create_temp_loop d name ds last) (fun r => Ret (map_err OIo r))).
Proof.
  revert last. induction ds as [|random ds IH]; intros last Hs; cbn [create_temp_loop pbind creating]; [by exists last; right|].
  unfold cstring at 1. destruct (contains nul (temp_name name random)) eqn:Ec; cbn [pbind creating]; [eexists; by right|].
  split; [done|]. split; [apply Hdraws, Hs; set_solver|]. split; [unfold cstring; by rewrite Ec|]. split; [done|].
  intros e. cbn. destruct (bool_decide (raw_os_error e = Some EEXIST)); cbn; [|by exists e; right]. apply IH. set_solver.
Qed.

Lemma Inv_start fs : Inv (start rc d place draws fs).
Proof.
  assert (Hc : creating (pbind (create_temp d name draws) (fun r => Ret (map_err OIo r)))).
  { apply creating_loop. intros x Hx. rewrite <- (take_drop 4 draws). set_solver. }
  cbn. repeat split; [|by left]. unfold start_job. destruct (rc_clones rc); [|done]. cbn. intros [[]|e]; [done|]. exists e. by left.
Qed.

(** ** Steps *)

(** The guard's removal of the temporary name. *)
Lemma clean_armed s temp :
  t_guard s = Some temp -> cstring temp = Ok temp ->
  exists fs r, clean d s = with_guard None (with_disk fs (t_log s ++ [ECall (SUnlink d temp) r]) s)
    /\ (forall i, content fs i = content (t_fs s) i)
    /\ view fs = match r with Ok _ => delete temp (view (t_fs s)) | Err _ => view (t_fs s) end.
Proof.
  intros Hg Hc. unfold clean. rewrite Hg. unfold unlink_at, named. rewrite Hc. cbn [run call]. unfold sys.
  destruct (perform (SUnlink d temp) (t_fs s)) as [fs r] eqn:E. exists fs, r. split; [done|]. by apply law_unlink in E.
Qed.
Lemma clean_idle s : t_guard s = None -> clean d s = s.
Proof. intros Hg. unfold clean. by rewrite Hg. Qed.

Lemma placed_other {B} log (c : Sys Dir File B) (b : B) : placing (ECall c b) = false -> placed (log ++ [ECall c b]) = placed log.
Proof. intros Hp. rewrite placed_app. unfold placed at 2. cbn [List.filter]. rewrite Hp. cbn. lia. Qed.
Lemma placed_unlink log temp r : placed (log ++ [ECall (SUnlink d temp) r]) = placed log.
Proof. by apply placed_other. Qed.

Lemma swept_cleaned temp s fs r :
  view fs = match r with Ok _ => delete temp (view (t_fs s)) | Err _ => view (t_fs s) end ->
  swept temp (with_guard None (with_disk fs (t_log s ++ [ECall (SUnlink d temp) r]) s)).
Proof.
  intros Hv. unfold swept. cbn. destruct r as [[]|e]; [left; by rewrite Hv, lookup_delete_eq|right; exists e; set_solver].
Qed.

Lemma live_ext f temp s s' :
  t_guard s' = t_guard s -> placed (t_log s') = placed (t_log s) -> view (t_fs s') = view (t_fs s) -> live f temp s -> live f temp s'.
Proof. unfold live. by intros -> -> ->. Qed.
Lemma ended_ext f temp o s s' :
  t_data s' = t_data s -> extends (t_log s) (t_log s') ->
  (placed (t_log s) <> 0%nat -> content (t_fs s') (inode f) = content (t_fs s) (inode f)) -> ended f temp o s -> ended f temp o s'.
Proof.
  intros Hd He Hc. assert (Hst : stored f temp s -> stored f temp s').
  { intros [Hput Hcd]. split; [by eapply put_extends|]. destruct Hput as [Hput _]. rewrite Hc, Hcd, Hd; [done|lia]. }
  destruct He as [Hp Hm]. unfold ended. rewrite Hd, Hp. destruct o; naive_solver.
Qed.
Lemma swept_ext temp s s' :
  view (t_fs s') !! temp = view (t_fs s) !! temp \/ view (t_fs s') !! temp = None -> (forall e, e ∈ t_log s -> e ∈ t_log s') ->
  swept temp s -> swept temp s'.
Proof. intros Hv Hm [Hn|[e He]]; [left; destruct Hv; congruence|right; eauto]. Qed.

(** The end of a transfer. *)
Lemma clean_working f temp o s :
  cstring temp = Ok temp -> owned f s -> t_guard s = Some temp -> ended f temp o s -> working f temp (with_task (TOver o) (clean d s)).
Proof.
  intros Hc Ho Hg He. destruct (clean_armed s temp) as (fs & r & -> & Hcs & Hv); [done..|]. split.
  - unfold owned in *. cbn. destruct (t_writer s); [done| |done]. by rewrite placed_unlink.
  - cbn. split; [done|]. split; [|by apply (swept_cleaned temp s)]. eapply ended_ext; [| | |exact He]; [done|by apply extends_app|]. intros _. apply Hcs.
Qed.
Lemma over_working f temp o s :
  cstring temp = Ok temp -> owned f s -> t_guard s = Some temp -> ended f temp o s -> working f temp (over d o s).
Proof. intros Hc Ho Hg He. by apply (clean_working f temp o (hang_up s)). Qed.
Lemma over_fields o s :
  t_made (over d o s) = t_made s /\ t_job (over d o s) = t_job s.
Proof.
  unfold over, clean. destruct (t_guard (hang_up s)); [|done]. unfold unlink_at, named.
  destruct (cstring s0); cbn; [|done]. unfold sys. cbn. by destruct (perform _ _).
Qed.

Lemma over_inv f temp o s :
  t_made s = Some (f, temp) -> t_job s = JNone -> temp <> name -> cstring temp = Ok temp ->
  owned f s -> live f temp s -> ended f temp o s -> Inv (over d o s).
Proof.
  intros Hm Hj Hn Hc Ho [Hg _] He. unfold Inv. destruct (over_fields o s) as [-> ->]. rewrite Hm, Hj.
  split; [done|]. split; [done|]. by apply over_working.
Qed.

(** A write to the temporary file. *)
Lemma written_working f temp fs r chunk queue hashed w' s :
  owned f s -> working f temp s -> t_writer s = WRun f hashed -> t_queue s = chunk :: queue ->
  view fs = view (t_fs s) -> (r = Ok tt -> content fs (inode f) = content (t_fs s) (inode f) ++ chunk) ->
  match r with Ok _ => w' = WRun f (hashed ++ chunk) | Err e => exists w, w' = WEnd w /\ w_file w = f /\ w_error w = Some e end ->
  working f temp (with_writer w' (with_disk fs (t_log s ++ [ECall (SWriteAll f chunk) r])
                                    (with_queue (if is_ok r then queue else []) s))).
Proof.
  intros Ho [_ HI] Ew Eq Hv Hok Hw. unfold owned in Ho. rewrite Ew in Ho. destruct Ho as [_ Hp].
  set (s' := with_writer _ _).
  assert (He : extends (t_log s) (t_log s')) by (by apply extends_app).
  assert (Hl : live f temp s -> live f temp s') by (apply live_ext; [done|exact (proj1 He)|done]).
  assert (Hpi : forall tail, pipe f tail s -> pipe f tail s').
  { intros tail. unfold pipe. rewrite Ew, Eq. intros [Hc Hd]. subst s'. cbn. destruct r as [[]|e]; cbn.
    - subst w'. rewrite Hok by done. rewrite Hc, <- Hd. cbn. by rewrite <- !app_assoc.
    - destruct Hw as (w & -> & _ & ->). done. }
  split.
  - unfold owned. subst s'. cbn. destruct r as [[]|e]; [subst w'|by destruct Hw as (w & -> & ? & _)]. split; [done|]. rewrite <- Hp. exact (proj1 He).
  - change (t_task s') with (t_task s). change (t_tx s') with (t_tx s). change (t_guard s') with (t_guard s). destruct (t_task s) eqn:Ek; try done.
    + destruct HI as (? & ? & ?). auto.
    + destruct HI as (? & ? & ?). auto.
    + destruct HI as (_ & w & e' & ? & _). congruence.
    + destruct HI as (? & ? & ?). auto.
    + destruct HI as (? & Hd & Hs). split; [done|]. split; [apply (ended_ext _ _ _ s); [done..|lia|done]|]. eapply swept_ext; [| |exact Hs]; [left; by cbn; rewrite Hv|apply He].
    + destruct HI as (? & Hd & Hs). split; [done|]. split; [destruct He as [-> _]; lia|]. eapply swept_ext; [| |exact Hs]; [left; by cbn; rewrite Hv|apply He].
Qed.

Lemma inv_writer s s' : Inv s -> writer_step blake3 s = Some s' -> Inv s'.
Proof.
  unfold writer_step, Inv. intros HI. destruct (t_writer s) as [|f' hashed|w] eqn:Ew; [done| |done].
  destruct (t_made s) as [[f temp]|] eqn:Em; [|by destruct HI as (_ & ? & _)]. destruct HI as (Hn & Hc & HI).
  destruct (t_job s) as [|p|p] eqn:Ej; [|by destruct HI as (_ & _ & ? & _); congruence|by destruct HI as ((w & ? & _) & _); congruence].
  pose proof HI as [Ho HT]. assert (f' = f) as -> by (unfold owned in Ho; rewrite Ew in Ho; apply Ho). destruct (t_queue s) as [|chunk queue] eqn:Eq.
  - destruct (t_tx s) eqn:Et; [done|]. intros [= <-]. cbn. rewrite Em, Ej. split; [done|]. split; [done|]. split; [done|]. cbn.
    destruct (t_task s) eqn:Ek; try done.
    + by destruct HT as (_ & ? & _).
    + by destruct HT as (_ & ? & _).
    + destruct HT as (_ & w & e' & ? & _). congruence.
    + destruct HT as (Hl & _ & Hpi). split; [done|]. split; [done|]. unfold pipe in *. rewrite Ew, Eq in Hpi. cbn in *.
      destruct Hpi as [-> <-]. intros _. by rewrite app_nil_r.
  - unfold sys. cbn [with_queue t_fs t_log]. destruct (perform _ _) as [fs r] eqn:E. apply law_write in E as (Hv & _ & Hok).
    intros [= <-]. destruct r as [[]|e]; cbn; rewrite Em, Ej; split; try done; split; try done.
    + by eapply (written_working f temp fs (Ok tt) chunk queue hashed _ s).
    + eapply (written_working f temp fs (Err e) chunk queue hashed _ s); try done. by eexists.
Qed.

Lemma inv_working f temp s :
  t_made s = Some (f, temp) -> t_job s = JNone -> temp <> name -> cstring temp = Ok temp -> working f temp s -> Inv s.
Proof. intros Hm Hj Hn Hc Hw. unfold Inv. by rewrite Hm, Hj. Qed.

(** The task has the file and no job runs. *)
Definition busy s : bool :=
  match t_task s with TPumping _ _ | THanding _ _ | TFailing | TJoining _ => true | _ => false end.
Lemma inv_busy s :
  Inv s -> busy s = true ->
  exists f temp, t_made s = Some (f, temp) /\ t_job s = JNone /\ temp <> name /\ cstring temp = Ok temp /\ working f temp s /\ live f temp s.
Proof.
  unfold Inv, busy. intros HI Hb. destruct (t_made s) as [[f temp]|] eqn:Em.
  2:{ destruct HI as (_ & _ & _ & _ & _ & _ & HI). destruct (t_job s); [|destruct HI as [_ [Ht|Ht]]; by rewrite Ht in Hb|done].
      destruct HI as [Ht|(e & [Ht|Ht])]; by rewrite Ht in Hb. }
  destruct HI as (Hn & Hc & HI). destruct (t_job s) as [|p|p] eqn:Ej.
  - exists f, temp. split; [done|]. split; [done|]. split; [done|]. split; [done|]. split; [done|]. destruct HI as [_ HI].
    destruct (t_task s); try done; apply HI.
  - destruct HI as (_ & _ & _ & _ & _ & _ & _ & _ & _ & _ & [Ht|Ht]); by rewrite Ht in Hb.
  - destruct HI as (_ & _ & _ & HI). by destruct (t_task s).
Qed.

Lemma inv_recv ev s s' : Inv s -> recv_step rc d ev s = Some s' -> Inv s'.
Proof.
  unfold recv_step. intros HI. destruct (t_task s) as [|received fend| | | | | |] eqn:Ek; try done. intros [= <-].
  destruct (inv_busy s HI ltac:(unfold busy; by rewrite Ek)) as (f & temp & Em & Ej & Hn & Hc & [Ho HT] & _).
  rewrite Ek in HT. destruct HT as (Hl & Ht & Hpi). destruct (rc_pump rc received fend ev) as [r' fend'|r' chunk|e|why].
  - by apply (inv_working f temp).
  - apply (inv_working f temp); try done. split; [done|]. cbn. split; [done|]. split; [done|].
    unfold pipe in *. cbn. destruct (t_writer s) as [|f' hashed|w]; [done| |]; cbn.
    + destruct Hpi as [-> <-]. split; [done|]. by rewrite app_nil_r, <- !app_assoc.
    + intros He. destruct (Hpi He) as [? _]. congruence.
  - apply (inv_working f temp); try done. split; [done|]. cbn. split; [done|]. split; [done|].
    unfold pipe in *. cbn. destruct (t_writer s) as [|f' hashed|w]; [done|done|]. intros He. by destruct (Hpi He) as [? ?].
  - eapply over_inv; try done. cbn. apply Hl.
Qed.

Lemma inv_hand s s' : Inv s -> hand_step s = Some s' -> Inv s'.
Proof.
  unfold hand_step. intros HI. destruct (t_task s) as [| |received chunk| | | | |] eqn:Ek; try done.
  destruct (inv_busy s HI ltac:(unfold busy; by rewrite Ek)) as (f & temp & Em & Ej & Hn & Hc & [Ho HT] & _).
  rewrite Ek in HT. destruct HT as (Hl & Ht & Hpi). unfold pipe in Hpi. destruct (t_writer s) as [|f' hashed|w] eqn:Ew; [done| |].
  - destruct (_ <? _); [|done]. intros [= <-]. apply (inv_working f temp); try done. split; [done|]. cbn. split; [done|]. split; [done|].
    unfold pipe. cbn. rewrite Ew. destruct Hpi as [-> <-]. split; [done|]. by rewrite concat_app, !app_nil_r; cbn; rewrite app_nil_r.
  - intros [= <-]. apply (inv_working f temp); try done. split; [done|]. cbn. split; [done|]. exists w. rewrite Ew.
    destruct (w_error w) as [e|]; [by exists e|]. destruct Hpi as [? _]; [done|congruence].
Qed.

Lemma inv_stop i s s' : Inv s -> stop_step d i s = Some s' -> Inv s'.
Proof.
  unfold stop_step. intros HI Hs. assert (Hb : busy s = true) by (unfold busy; by destruct (t_task s)).
  assert (s' = over d (OInterrupted i) s) as -> by (destruct (t_task s); try done; congruence).
  destruct (inv_busy s HI Hb) as (f & temp & Em & Ej & Hn & Hc & [Ho _] & Hl). eapply over_inv; try done. cbn. apply Hl.
Qed.

Lemma inv_join s s' : Inv s -> join_step umask rc d place s = Some s' -> Inv s'.
Proof.
  unfold join_step. intros HI Hs. assert (Hb : busy s = true) by (unfold busy; by destruct (t_task s)).
  destruct (inv_busy s HI Hb) as (f & temp & Em & Ej & Hn & Hc & [Ho HT] & Hl). pose proof Hl as (Hg & Hp & Hv & Hd).
  destruct (t_task s) as [| | | |e| | |] eqn:Ek; try done; destruct (t_writer s) as [| |w] eqn:Ew; try done; revert Hs.
  - intros [= <-]. eapply over_inv; try done. destruct (w_error w); cbn; auto.
  - destruct HT as (_ & Ht & Hpi). unfold pipe in Hpi. rewrite Ew in Hpi. destruct (w_error w) as [err|] eqn:Ee.
    { intros [= <-]. eapply over_inv; try done. by left. }
    destruct (Hpi eq_refl) as (_ & _ & Hcd & Hby & Hha). destruct (negb _) eqn:Ea.
    { intros [= <-]. by eapply over_inv. }
    rewrite Hg. intros [= <-]. unfold Inv. cbn. rewrite Em. split; [done|]. split; [done|].
    unfold owned in Ho. rewrite Ew in Ho. unfold committing. cbn. rewrite Ho. split; [by exists w|]. split; [done|].
    split; [|done]. apply commit_wp; [done..|]. split; [done|]. split; [by left|done].
Qed.

Lemma inv_drop s s' : Inv s -> drop_step d s = Some s' -> Inv s'.
Proof.
  unfold drop_step. intros HI Hs.
  assert (Hd : (forall o, t_task s <> TOver o) /\ t_task s <> TDropped /\ s' = with_task TDropped (clean d (hang_up s)))
    by (destruct (t_task s); try done; (split; [done|split; [done|congruence]])).
  destruct Hd as (Ho & Hd & ->). clear Hs. unfold Inv in HI. destruct (t_made s) as [[f temp]|] eqn:Em.
  2:{ destruct HI as (Hg & Hw & Hq & Hda & Ht & Hp & HI). rewrite clean_idle by done. unfold Inv. cbn. rewrite Em.
      split; [done|]. split; [done|]. split; [done|]. split; [done|]. split; [done|]. split; [done|].
      destruct (t_job s); [by left| |done]. destruct HI as [? _]. auto. }
  destruct HI as (Hn & Hc & HI). destruct (t_job s) as [|p|p] eqn:Ej.
  - assert (Hg : t_guard s = Some temp /\ placed (t_log s) = 0%nat).
    { destruct HI as [_ HI]. destruct (t_task s); try done; [..|by destruct (Ho o)]; destruct HI as [(? & ? & _) _]; done. }
    destruct Hg as [Hg Hp]. destruct (clean_armed (hang_up s) temp) as (fs & r & -> & _ & Hv); [done..|].
    apply (inv_working f temp); try done. destruct HI as [Hw _]. split.
    + unfold owned in *. cbn. destruct (t_writer s); [done| |done]. by rewrite placed_unlink.
    + cbn. split; [done|]. split; [rewrite placed_unlink; lia|]. by apply (swept_cleaned temp (hang_up s)).
  - destruct HI as [-> HI]. rewrite clean_idle by apply HI. unfold Inv. cbn. rewrite Em, Ej. split; [done|]. split; [done|]. split; [done|].
    destruct HI as (? & ? & ? & ? & ? & ? & ? & ? & ? & _). unfold making. cbn. auto 12.
  - destruct HI as (Hw & Hcd & Hwp & HI). destruct (t_task s) as [| | | | |bytes hash| |] eqn:Ek; try done. destruct HI as (Hg & Hb & Hh).
    destruct (clean_armed (hang_up s) temp) as (fs & r & -> & Hcs & Hv); [done..|]. unfold Inv. cbn. rewrite Em, Ej. split; [done|]. split; [done|].
    split; [done|]. cbn. split; [by rewrite Hcs|]. split; [|split; [done|by apply (swept_cleaned temp (hang_up s))]].
    eapply wp_extends; [apply commit_ends_extends|by apply extends_app|]. eapply wp_rely; [apply _|apply commit_ends_stable| |exact Hwp].
    split; [by rewrite Hcs|]. cbn in Hv. rewrite Hv. destruct r as [[]|e].
    + rewrite lookup_delete_eq, lookup_delete_ne by done. auto.
    + auto.
Qed.

Lemma creating_unmade p : creating p -> match p with Ret r => created r | _ => None end = None.
Proof. destruct p as [r|B c k]; [|done]. by intros [e [->| ->]]. Qed.

Lemma inv_create s s' p : Inv s -> t_made s = None -> t_job s = JCreate p -> job_step d s = Some s' -> Inv s'.
Proof.
  unfold Inv at 1, job_step. intros HI Em Ej. rewrite Em, Ej in *. destruct HI as (Hg & Hw & Hq & Hd & Ht & Hp & Hc & Hk).
  destruct p as [r|B c k].
  - cbn in Hc. destruct Hc as [e Hr]. destruct Hr as [->| ->]; intros [= <-]; destruct Hk as [Hk|Hk]; cbn; rewrite Hk;
      unfold Inv; cbn; rewrite Em, ?Hk; do 6 (split; [done|]); eauto.
  - unfold sys. destruct (perform c (t_fs s)) as [fs b] eqn:E. intros [= <-].
    assert (Hnone : creating (k b) -> placing (ECall c b) = false ->
      Inv (with_made (match k b with Ret r => created r | _ => None end) (with_job (JCreate (k b)) (with_disk fs (t_log s ++ [ECall c b]) s)))).
    { intros Hcr Hpl. rewrite (creating_unmade _ Hcr). unfold Inv. cbn. do 5 (split; [done|]). split; [|done].
      rewrite placed_app, Hp. unfold placed. cbn [List.filter]. by rewrite Hpl. }
    destruct c; try done; cbn in Hc.
    + apply Hnone; [apply Hc|done].
    + destruct Hc as (-> & Hn & Hcs & Hok & Herr). destruct b as [f|e]; [|by apply Hnone]. rewrite Hok. cbn.
      apply law_open in E as (Hnew & Hv & Hfresh & Hcon & _). unfold Inv. cbn. split; [done|]. split; [done|]. split; [done|].
      unfold making. cbn. do 5 (split; [done|]). split; [by rewrite placed_app, Hp|]. split; [done|]. rewrite Hv, lookup_insert_eq.
      split; [done|]. split; [|done]. rewrite lookup_insert_ne by done. apply Hfresh.
Qed.

Lemma inv_guarded s s' f temp : Inv s -> t_made s = Some (f, temp) -> t_job s = JCreate (Ret (Ok (f, temp))) -> job_step d s = Some s' -> Inv s'.
Proof.
  unfold Inv at 1, job_step. intros HI Em Ej. rewrite Em, Ej in *. destruct HI as (Hn & Hc & _ & Hg & Hw & Hq & Hd & Ht & Hp & Hco & Hv & Hnm & Hk).
  intros [= <-]. change (t_task (with_guard (Some temp) (with_job JNone s))) with (t_task s). destruct Hk as [Hk|Hk]; rewrite Hk.
  - apply (inv_working f temp); try done. split; [done|]. cbn. split; [done|]. split; [done|]. unfold pipe. cbn. by rewrite Hco, Hq, Hd.
  - destruct (clean_armed (with_guard (Some temp) (with_job JNone s)) temp) as (fs & r & -> & _ & Hv'); [done..|].
    apply (inv_working f temp); try done. split; [unfold owned; cbn; by rewrite Hw|]. cbn. rewrite Hk.
    rewrite placed_unlink, Hp. split; [done|]. split; [lia|]. by apply (swept_cleaned temp (with_guard (Some temp) (with_job JNone s))).
Qed.

Lemma inv_commit s s' f temp p :
  Inv s -> t_made s = Some (f, temp) -> t_job s = JCommit p -> job_step d s = Some s' -> Inv s'.
Proof.
  unfold Inv at 1, job_step. intros HI Em Ej. rewrite Em, Ej in *. destruct HI as (Hn & Hc & Hw & Hcd & Hwp & HT). destruct p as [r|B c k].
  - intros [= <-]. cbn in Hwp. cbn [with_job t_task].
    assert (Ho : owned f s) by (unfold owned; destruct Hw as (w & -> & ?); done).
    destruct (t_task s) as [| | | | |bytes hash| |] eqn:Ek; try done.
    + destruct HT as (Hg & -> & ->). destruct r as [c|e].
      * destruct Hwp as [Hp Hgone]. assert (He : forall s1, t_data s1 = t_data s -> t_log s1 = t_log s -> t_fs s1 = t_fs s ->
          ended f temp (OCommitted (len (t_data s)) (blake3 (t_data s)) (overwritten c)) s1)
          by (intros s1 E1 E2 E3; unfold ended, stored; by rewrite E1, E2, E3).
        destruct (temp_gone c).
        -- apply (inv_working f temp); try done. split; [done|]. cbn. split; [done|]. split; [exact (He _ eq_refl eq_refl eq_refl)|]. left. by apply Hgone.
        -- pose proof (clean_working f temp (OCommitted (len (t_data s)) (blake3 (t_data s)) (overwritten c)) (with_job JNone s) Hc Ho Hg
             (He _ eq_refl eq_refl eq_refl)) as Hwork.
           destruct (clean_armed (with_job JNone s) temp) as (fs & r & E & _); [done..|]. rewrite E in *. by apply (inv_working f temp).
      * assert (He : ended f temp (OIo e) (with_job JNone s)) by (destruct Hwp as [?|[? ?]]; [by left|by right]).
        pose proof (over_working f temp (OIo e) (with_job JNone s) Hc Ho Hg He) as Hwork.
        destruct (over_fields (OIo e) (with_job JNone s)) as [E1 E2]. by apply (inv_working f temp); rewrite ?E1, ?E2.
    + destruct HT as [Hg Hs]. apply (inv_working f temp); try done. split; [done|]. cbn. rewrite Ek. split; [done|]. split; [|done].
      destruct r as [c|e]; cbn in Hwp; [destruct Hwp as [[-> _] _]; lia|]. destruct Hwp as [->|[[-> _] _]]; lia.
  - unfold sys. specialize (Hwp (t_fs s) ltac:(reflexivity)). destruct (perform c (t_fs s)) as [fs b]. destruct Hwp as [(_ & Hcs & Ht & _) Hwp].
    intros [= <-]. unfold Inv. cbn. rewrite Em. split; [done|]. split; [done|]. split; [done|]. cbn. split; [by rewrite Hcs|].
    split; [done|]. destruct (t_task s); try done. destruct HT as [Hg Hs]. split; [done|].
    eapply swept_ext; [| |exact Hs]; [exact Ht|]. cbn. set_solver.
Qed.

Lemma inv_job s s' : Inv s -> job_step d s = Some s' -> Inv s'.
Proof.
  intros HI Hs. pose proof HI as HI'. unfold Inv in HI'. destruct (t_job s) as [|p|p] eqn:Ej; [unfold job_step in Hs; by rewrite Ej in Hs|..];
    destruct (t_made s) as [[f temp]|] eqn:Em.
  - destruct HI' as (_ & _ & -> & _). by eapply inv_guarded.
  - by eapply inv_create.
  - by eapply inv_commit.
  - by destruct HI' as (_ & _ & _ & _ & _ & _ & ?).
Qed.

Lemma inv_step l s s' : Inv s -> mstep s l = Some s' -> Inv s'.
Proof. destruct l; [apply inv_job|apply inv_writer|apply inv_recv|apply inv_hand|apply inv_join|apply inv_stop|apply inv_drop]. Qed.

Lemma inv_env s fs' : Inv s -> rely s fs' -> Inv (with_disk fs' (t_log s) s).
Proof.
  unfold Inv, rely. cbn. destruct (t_made s) as [[f temp]|]; [|done]. intros (Hn & Hc & HI) (Hcon & Hv & Hname). split; [done|]. split; [done|].
  assert (Hl : live f temp s -> live f temp (with_disk fs' (t_log s) s)) by (unfold live; cbn; rewrite Hv; naive_solver).
  assert (Hpi : forall tail, pipe f tail s -> pipe f tail (with_disk fs' (t_log s) s)) by (intros tail; unfold pipe; cbn; by rewrite Hcon).
  assert (Hs : swept temp s -> swept temp (with_disk fs' (t_log s) s)) by (apply swept_ext; [by left|done]).
  destruct (t_job s) as [|p|p].
  - assert (He : forall o, ended f temp o s -> ended f temp o (with_disk fs' (t_log s) s)).
    { intros o. apply ended_ext; [done| |done]. by split. }
    destruct HI as [Ho HI]. split; [done|]. cbn. destruct (t_task s); naive_solver.
  - destruct HI as [Hp HI]. split; [done|]. unfold making in *. cbn. rewrite Hcon, Hv. naive_solver.
  - destruct HI as (Hw & Hcd & Hwp & HT). split; [done|]. cbn. rewrite Hcon. split; [done|].
    split; [|by destruct (t_task s); naive_solver].
    eapply wp_rely; [apply _|apply commit_ends_stable| |exact Hwp]. split; [done|]. auto.
Qed.

Lemma reaches_ind alone (P : TState -> Prop) s :
  reaches alone s -> (forall fs, P (start rc d place draws fs)) -> (forall l s s', mstep s l = Some s' -> P s -> P s') ->
  (forall s fs', rely s fs' -> (alone = true -> untouched s fs') -> P s -> P (with_disk fs' (t_log s) s)) -> P s.
Proof.
  intros [fs0 Hr] H0 Hown Henv. assert (P (start rc d place draws fs0)) as HP by apply H0. revert HP. clear H0.
  induction Hr as [s|s1 s2 s3 Hs _ IH]; [done|]. intros HP. apply IH. destruct Hs; eauto.
Qed.
Lemma inv_reaches alone s : reaches alone s -> Inv s.
Proof. intros Hr. eapply (reaches_ind alone Inv s Hr); [apply Inv_start|intros l s1 s2 Hs HI; by eapply inv_step|intros s1 fs' Hy _ HI; by apply inv_env]. Qed.

(** ** What was received *)

(** The stream is complete: it has been finished, and the first of its end
    frames states the size and the hash of the bytes of its data frames, by the
    receiver's own comparison, too. *)
Definition complete (evs : list Received) : Prop :=
  last evs = Some RFinished
  /\ exists e, first_end evs = Some e /\ e_size e = len (data_of evs) /\ e_blake3 e = blake3 (data_of evs)
       /\ rc_agrees rc e (len (data_of evs)) (blake3 (data_of evs)) = true.

(** The task has seen the end of the stream. *)
Definition sealed s : Prop := placed (t_log s) <> 0%nat \/ exists p, t_job s = JCommit p.
Definition Heard s : Prop :=
  (sealed s -> data_of (t_recv s) = t_data s /\ complete (t_recv s))
  /\ match t_task s with
     | TCreating => t_recv s = []
     | TPumping _ fend => data_of (t_recv s) = t_data s /\ first_end (t_recv s) = fend
     | THanding _ _ => data_of (t_recv s) = t_data s /\ first_end (t_recv s) = None
     | TJoining e => data_of (t_recv s) = t_data s /\ first_end (t_recv s) = Some e /\ last (t_recv s) = Some RFinished
     | TFailing | TCommitting _ _ | TOver _ | TDropped => True
     end.

Lemma data_of_snoc evs ev :
  data_of (evs ++ [ev]) = data_of evs ++ match ev with RFrame (Some (Data chunk)) => chunk | _ => [] end.
Proof.
  unfold data_of. rewrite omap_app, concat_app. f_equal. cbn. destruct ev as [[[chunk| |]|]| | |]; cbn; try done. by rewrite app_nil_r.
Qed.
Lemma first_end_snoc evs ev :
  first_end (evs ++ [ev])
  = match first_end evs with Some e => Some e | None => match ev with RFrame (Some (End_ e)) => Some e | _ => None end end.
Proof.
  unfold first_end. rewrite omap_app. destruct (omap _ evs); [|done]. cbn. by destruct ev as [[[|e|]|]| | |].
Qed.

Lemma clean_fields s :
  t_task (clean d s) = t_task s /\ t_job (clean d s) = t_job s /\ t_queue (clean d s) = t_queue s /\ t_writer (clean d s) = t_writer s.
Proof.
  unfold clean, unlink_at, named. destruct (t_guard s) as [g|]; [|done]. destruct (cstring g); [|done]. cbn. unfold sys.
  by destruct (perform _ _).
Qed.

Lemma clean_record s :
  t_data (clean d s) = t_data s /\ t_recv (clean d s) = t_recv s /\ t_job (clean d s) = t_job s /\ t_made (clean d s) = t_made s
  /\ placed (t_log (clean d s)) = placed (t_log s).
Proof.
  unfold clean, unlink_at, named. destruct (t_guard s) as [g|]; [|done]. destruct (cstring g); [|done]. cbn. unfold sys.
  destruct (perform _ _) as [fs r]. cbn. by rewrite placed_unlink.
Qed.

(** A step after which the task waits for nothing more. *)
Lemma heard_quiet s s' :
  t_data s' = t_data s -> t_recv s' = t_recv s -> (sealed s' -> sealed s) ->
  match t_task s' with TFailing | TCommitting _ _ | TOver _ | TDropped => True | k => k = t_task s end -> Heard s -> Heard s'.
Proof.
  intros Ed Er Hs Hk [H1' H2']. split; [rewrite Ed, Er; auto|]. destruct (t_task s') eqn:Ek; try done; rewrite <- Hk in H2'; rewrite Ed || idtac; by rewrite ?Ed, ?Er.
Qed.

Lemma over_heard o s s0 :
  t_data s = t_data s0 -> t_recv s = t_recv s0 -> (sealed s -> sealed s0) -> Heard s0 -> Heard (over d o s).
Proof.
  intros Ed Er Hs. destruct (clean_record (hang_up s)) as (E1 & E2 & E3 & _ & E5). apply heard_quiet; cbn; [by rewrite E1|by rewrite E2| |done].
  intros Hx. apply Hs. unfold sealed in *. cbn in *. by rewrite E3, E5 in Hx.
Qed.

Context `{!ReceiverLaws rc}.

Lemma heard_recv ev s s' : Inv s -> Heard s -> recv_step rc d ev s = Some s' -> Heard s'.
Proof.
  unfold recv_step. intros HI [_ HH]. destruct (t_task s) as [|received fend| | | | | |] eqn:Ek; try done. intros [= <-].
  destruct (inv_busy s HI ltac:(unfold busy; by rewrite Ek)) as (f & temp & Em & Ej & Hn & Hc & _ & (_ & Hp & _)). destruct HH as [Hd He].
  assert (Hns : ~ sealed s) by (unfold sealed; rewrite Ej, Hp; naive_solver).
  destruct (rc_pump rc received fend ev) as [r' fend'|r' chunk|e|why] eqn:E.
  - split; [by intros ?%Hns|]. cbn. rewrite data_of_snoc, first_end_snoc, Hd, He.
    apply pump_go in E as [(-> & [->| ->])|(-> & e & -> & ->)]; rewrite app_nil_r; (split; [done|]); by repeat case_match.
  - split; [by intros ?%Hns|]. cbn. apply pump_chunk in E as [-> ->]. by rewrite data_of_snoc, first_end_snoc, Hd, He.
  - split; [by intros ?%Hns|]. cbn. apply pump_finish in E as [-> ->]. by rewrite data_of_snoc, first_end_snoc, Hd, He, app_nil_r, last_snoc.
  - destruct (clean_record (hang_up (hear ev s))) as (_ & _ & E3 & _ & E5). split; [|done]. intros Hx. exfalso. apply Hns.
    unfold sealed, over in *. cbn in *. by rewrite E3, E5 in Hx.
Qed.

Lemma heard_join s s' : Inv s -> Heard s -> join_step umask rc d place s = Some s' -> Heard s'.
Proof.
  unfold join_step. intros HI HH Hs. assert (Hb : busy s = true) by (unfold busy; by destruct (t_task s)).
  destruct (inv_busy s HI Hb) as (f & temp & Em & Ej & Hn & Hc & [Ho HT] & Hl).
  destruct (t_task s) as [| | | |e| | |] eqn:Ek; try done; destruct (t_writer s) as [| |w] eqn:Ew; try done; revert Hs.
  - intros [= <-]. by apply (over_heard _ s s).
  - destruct HT as (_ & Ht & Hpi). unfold pipe in Hpi. rewrite Ew in Hpi. destruct (w_error w) as [err|] eqn:Ee.
    { intros [= <-]. by apply (over_heard _ s s). }
    destruct (Hpi eq_refl) as (_ & _ & Hcd & Hby & Hha). destruct (negb _) eqn:Ea; [intros [= <-]; by apply (over_heard _ s s)|].
    destruct Hl as [Hg _]. rewrite Hg. intros [= <-]. split; [|done]. intros _. cbn. destruct HH as [_ HH]. rewrite Ek in HH.
    destruct HH as (Hd & He & Hf). split; [done|]. split; [done|]. exists e. rewrite Hd, <- Hby, <- Hha. apply negb_false_iff in Ea.
    destruct (agrees_exact _ _ _ Ea). done.
Qed.

Lemma heard_job s s' : Inv s -> Heard s -> job_step d s = Some s' -> Heard s'.
Proof.
  intros HI HH. unfold job_step, Inv in *. destruct (t_job s) as [|[r|B c k]|[r|B c k]] eqn:Ej; [done|..].
  - destruct r as [[f temp]|o]; intros [= <-].
    + change (t_task (with_guard (Some temp) (with_job JNone s))) with (t_task s).
      destruct (clean_record (with_guard (Some temp) (with_job JNone s))) as (E1 & E2 & E3 & _ & E5).
      destruct (clean_fields (with_guard (Some temp) (with_job JNone s))) as (E6 & _).
      destruct (t_made s) as [[f' temp']|]; [|by destruct HI as (_ & _ & _ & _ & _ & _ & [e [?|?]] & _)].
      destruct HI as (_ & _ & _ & _ & _ & _ & Hd & _ & Hp & _ & _ & _ & [Hk|Hk]); rewrite Hk.
      * destruct HH as [_ HH]. rewrite Hk in HH. split; [|cbn; by rewrite HH, Hd]. unfold sealed. cbn. rewrite Hp. naive_solver.
      * apply (heard_quiet s); [done|done| |by rewrite E6; cbn; rewrite Hk|done]. unfold sealed. rewrite E3, E5. cbn. naive_solver.
    + apply (heard_quiet s); [by cbn; destruct (t_task s)..| |by cbn; destruct (t_task s) eqn:Ek; cbn; rewrite ?Ek|done].
      unfold sealed. cbn. destruct (t_task s); cbn; naive_solver.
  - unfold sys. destruct (perform c (t_fs s)) as [fs b]. intros [= <-].
    apply (heard_quiet s); [done|done| |cbn; by destruct (t_task s)|done]. unfold sealed. cbn. rewrite placed_app.
    destruct (t_made s) as [[f temp]|]; [by destruct HI as (_ & _ & ? & _)|]. destruct HI as (_ & _ & _ & _ & _ & _ & Hc & _).
    destruct c; try done; unfold placed at 2; cbn; rewrite Nat.add_0_r; naive_solver.
  - intros [= <-]. change (t_task (with_job JNone s)) with (t_task s). assert (Hs : sealed s) by (right; eauto).
    destruct (clean_record (with_job JNone s)) as (E1 & E2 & _).
    destruct (t_task s) eqn:Ek; try (apply (heard_quiet s); cbn; by rewrite ?Ek).
    destruct r as [c|e]; [|by apply (over_heard _ _ s)]. apply (heard_quiet s); cbn; try done; by destruct (temp_gone c).
  - unfold sys. destruct (perform c (t_fs s)) as [fs b]. intros [= <-]. apply (heard_quiet s); [done|done| |cbn; by destruct (t_task s)|done].
    intros _. right. eauto.
Qed.

Lemma heard_step l s s' : Inv s -> Heard s -> mstep s l = Some s' -> Heard s'.
Proof.
  intros HI HH. destruct l as [| |ev| | |i|]; cbn [step].
  - by apply heard_job.
  - unfold writer_step. destruct (t_writer s), (t_queue s); try (destruct (t_tx s)); try done;
      [intros [= <-]; apply (heard_quiet s); cbn; try done; by destruct (t_task s)|..];
      unfold sys; destruct (perform _ _) as [fs r]; intros [= <-]; (apply (heard_quiet s); [by destruct r|by destruct r| |by destruct r; cbn; destruct (t_task s)|done]);
      unfold sealed; destruct r; cbn; rewrite placed_app; unfold placed at 2; cbn; rewrite Nat.add_0_r; naive_solver.
  - by apply heard_recv.
  - unfold hand_step. destruct (t_task s) eqn:Ek; try done. destruct HH as [H1' H2']. rewrite Ek in H2'.
    destruct (t_writer s); try (destruct (_ <? _)); try done; intros [= <-]; by split.
  - by apply heard_join.
  - unfold stop_step. destruct (t_task s); try done; intros [= <-]; by apply (over_heard _ s s).
  - unfold drop_step. destruct (clean_record (hang_up s)) as (E1 & E2 & E3 & _ & E5). intros Hs.
    assert (s' = with_task TDropped (clean d (hang_up s))) as -> by (destruct (t_task s); try done; congruence).
    apply (heard_quiet s); cbn; try done. unfold sealed. cbn in *. by rewrite E3, E5.
Qed.

Lemma heard_reaches alone s : reaches alone s -> Inv s /\ Heard s.
Proof.
  intros Hr. apply (reaches_ind alone (fun s => Inv s /\ Heard s) s Hr).
  - intros fs. split; [apply Inv_start|]. split; [|done]. unfold sealed, placed. cbn. naive_solver.
  - intros l s1 s2 Hs [HI HH]. split; [by eapply inv_step|by eapply heard_step].
  - intros s1 fs' Hy _ [HI HH]. split; [by apply inv_env|exact HH].
Qed.

(** ** What a step may do *)

Definition guarantee s s' : Prop :=
  (forall n, n <> name -> view (t_fs s') !! n = view (t_fs s) !! n \/ exists f, t_made s' = Some (f, n))
  /\ (forall i, content (t_fs s') i = content (t_fs s) i
        \/ exists f temp, t_made s' = Some (f, temp) /\ i = inode f /\ placed (t_log s) = 0%nat)
  /\ (view (t_fs s') !! name = view (t_fs s) !! name /\ placed (t_log s') = placed (t_log s)
      \/ exists f temp, t_made s = Some (f, temp) /\ view (t_fs s') !! name = Some (inode f)
           /\ content (t_fs s') (inode f) = data_of (t_recv s) /\ complete (t_recv s)
           /\ (p_overwrite place = false -> view (t_fs s) !! name = None)).

Lemma same_guarantee s s' : same (t_fs s) (t_fs s') -> placed (t_log s') = placed (t_log s) -> guarantee s s'.
Proof. intros [Hv Hc] Hp. unfold guarantee. rewrite Hv. auto. Qed.
Lemma dir_same_refl fs : same fs fs.
Proof. by split. Qed.

Lemma idle_guarantee s s' : t_fs s' = t_fs s -> t_log s' = t_log s -> guarantee s s'.
Proof. intros E El. apply same_guarantee; [rewrite E; apply dir_same_refl|by rewrite El]. Qed.
Lemma guarantee_fields s s1 s2 : t_fs s2 = t_fs s1 -> t_made s2 = t_made s1 -> t_log s2 = t_log s1 -> guarantee s s1 -> guarantee s s2.
Proof. unfold guarantee. by intros -> -> ->. Qed.

(** The guard holds the temporary name and no other. *)
Definition armed s : Prop :=
  match t_made s with
  | Some (_, temp) => temp <> name /\ cstring temp = Ok temp /\ forall g, t_guard s = Some g -> g = temp
  | None => t_guard s = None
  end.
Lemma inv_armed s : Inv s -> armed s.
Proof.
  unfold Inv, armed. destruct (t_made s) as [[f temp]|]; [|by intros [? _]]. intros (Hn & Hc & HI). split; [done|]. split; [done|].
  destruct (t_job s) as [|p|p].
  - destruct HI as [_ HI]. unfold live in HI. destruct (t_task s); naive_solver.
  - destruct HI as (_ & -> & _). done.
  - destruct HI as (_ & _ & _ & HI). destruct (t_task s); naive_solver.
Qed.

(** Removing the temporary name. *)
Lemma clean_guarantee s0 s : t_fs s0 = t_fs s -> t_log s0 = t_log s -> armed s -> guarantee s0 (clean d s).
Proof.
  unfold armed. intros Ef El Ha. destruct (t_guard s) as [g|] eqn:Eg; [|rewrite clean_idle by done; by apply idle_guarantee].
  destruct (t_made s) as [[f temp]|] eqn:Hm; [|done]. destruct Ha as (Hn & Hc & Hg). assert (g = temp) as -> by (by apply Hg).
  destruct (clean_armed s temp) as (fs & r & -> & Hcs & Hv); [done..|].
  unfold guarantee. cbn. rewrite Ef, El, Hv, Hm, placed_unlink. destruct r as [[]|e]; [|auto]. split; [|split].
  - intros n Hne. destruct (decide (n = temp)) as [->|]; [right; by eexists|left; by rewrite lookup_delete_ne].
  - auto.
  - left. by rewrite lookup_delete_ne.
Qed.
Lemma over_guarantee o s0 s : t_fs s0 = t_fs s -> t_log s0 = t_log s -> armed s -> guarantee s0 (over d o s).
Proof. intros Ef El Ha. by apply (guarantee_fields _ (clean d (hang_up s))), clean_guarantee. Qed.

Lemma job_guarantee s s' : Inv s -> Heard s -> job_step d s = Some s' -> guarantee s s'.
Proof.
  intros HI [HH _]. pose proof (inv_armed s HI) as Ha. unfold job_step, Inv in *.
  destruct (t_job s) as [|[r|B c k]|[r|B c k]] eqn:Ej; [done|..].
  - destruct r as [[f temp]|o]; intros [= <-]; [|apply idle_guarantee; cbn; by destruct (t_task s)].
    destruct (t_made s) as [[f' temp']|] eqn:Em; [|by destruct HI as (_ & _ & _ & _ & _ & _ & [e [?|?]] & _)].
    destruct HI as (Hn & Hc & [= -> ->] & _). change (t_task (with_guard (Some temp') (with_job JNone s))) with (t_task s).
    assert (Hg : guarantee s (clean d (with_guard (Some temp') (with_job JNone s)))).
    { apply clean_guarantee; [done..|]. unfold armed. cbn. rewrite Em. split; [done|]. split; [done|]. congruence. }
    destruct (t_task s); try exact Hg. by apply idle_guarantee.
  - destruct (t_made s) as [[f temp]|] eqn:Em; [by destruct HI as (_ & _ & ? & _)|]. destruct HI as (_ & _ & _ & _ & _ & Hp & Hc & _).
    unfold sys. destruct (perform c (t_fs s)) as [fs b] eqn:E. intros [= <-].
    destruct c as [dir|dir temp m| | | | | | | | |]; try done; cbn in Hc.
    + apply same_guarantee; [|by apply placed_other]. pose proof (law_plain (SDup dir) (t_fs s) eq_refl) as Hs. by rewrite E in Hs.
    + destruct Hc as (-> & Hn & _ & Hok & _). apply law_open in E. destruct b as [f|e]; [|by apply same_guarantee; [|apply placed_other]].
      destruct E as (_ & Hv & _ & _ & Hcon). unfold guarantee. cbn. rewrite Hok, Hv. cbn. split; [|split].
      * intros n _. destruct (decide (n = temp)) as [->|]; [right; by eexists|left; by rewrite lookup_insert_ne].
      * intros i. destruct (decide (i = inode f)) as [->|]; [right; by eexists _, _|left; by apply Hcon].
      * left. split; [by rewrite lookup_insert_ne|by apply placed_other].
  - intros [= <-]. change (t_task (with_job JNone s)) with (t_task s).
    destruct (t_task s); try (by apply idle_guarantee). destruct r as [c|e]; [|by apply over_guarantee].
    destruct (temp_gone c); [by apply idle_guarantee|]. by apply (guarantee_fields _ (clean d (with_job JNone s))), clean_guarantee.
  - destruct (t_made s) as [[f temp]|] eqn:Em; [|by destruct HI as (_ & _ & _ & _ & _ & _ & ?)].
    destruct HI as (Hn & Hc & _ & Hcd & Hwp & _). destruct HH as [Hd Hco]; [right; eauto|]. specialize (Hwp (t_fs s) ltac:(reflexivity)). unfold sys.
    destruct (perform c (t_fs s)) as [fs b]. destruct Hwp as [(Hv & Hcs & Ht & Hpl) _]. intros [= <-]. unfold guarantee. cbn. rewrite Em. split; [|split].
    + intros n Hne. destruct (decide (n = temp)) as [->|]; [right; by eexists|left; by apply Hv].
    + auto.
    + destruct (placing (ECall c b)) eqn:Ep; [|left; split; [done|by apply placed_other]]. destruct Hpl as [Hpl Hov]. right. exists f, temp.
      rewrite Hcs, Hcd. auto 10.
Qed.

Lemma writer_guarantee s s' : Inv s -> writer_step blake3 s = Some s' -> guarantee s s'.
Proof.
  unfold writer_step, Inv. intros HI. destruct (t_writer s) as [|f' hashed|w] eqn:Ew; [done| |done].
  destruct (t_queue s) as [|chunk queue]; [destruct (t_tx s); [done|]; intros [= <-]; by apply idle_guarantee|].
  destruct (t_made s) as [[f temp]|] eqn:Em; [|by destruct HI as (_ & ? & _)]. destruct HI as (Hn & Hc & HI).
  destruct (t_job s) as [|p|p] eqn:Ej; [|by destruct HI as (_ & _ & ? & _); congruence|by destruct HI as ((w & ? & _) & _); congruence].
  destruct HI as [Ho _]. unfold owned in Ho. rewrite Ew in Ho. destruct Ho as [-> Hp]. unfold sys. cbn [with_queue t_fs t_log].
  destruct (perform _ _) as [fs r] eqn:E. apply law_write in E as (Hv & Hcon & _). intros [= <-].
  apply (guarantee_fields _ (with_disk fs (t_log s ++ [ECall (SWriteAll f chunk) r]) s)); [by destruct r..|]. unfold guarantee. cbn.
  rewrite Hv, Em, placed_other by done. split; [auto|]. split; [|auto].
  intros i. destruct (decide (i = inode f)) as [->|]; [right; by eexists _, _|left; by apply Hcon].
Qed.

Lemma step_guarantee l s s' : Inv s -> Heard s -> mstep s l = Some s' -> guarantee s s'.
Proof.
  intros HI HH. pose proof (inv_armed s HI) as Ha. destruct l as [| |ev| | |i|]; cbn [step].
  - by apply job_guarantee.
  - by apply writer_guarantee.
  - unfold recv_step. destruct (t_task s); try done. intros [= <-]. case_match; [by apply idle_guarantee..|by apply over_guarantee].
  - unfold hand_step. destruct (t_task s); try done. destruct (t_writer s); try (destruct (_ <? _)); try done; intros [= <-]; by apply idle_guarantee.
  - unfold join_step. destruct (t_task s), (t_writer s) as [| |w]; try done; intros [= <-]; [by apply over_guarantee|].
    destruct (w_error w); [by apply over_guarantee|]. destruct (negb _); [by apply over_guarantee|]. case_match; by apply idle_guarantee.
  - unfold stop_step. destruct (t_task s); try done; intros [= <-]; by apply over_guarantee.
  - unfold drop_step. destruct (t_task s); try done; intros [= <-];
      by apply (guarantee_fields _ (clean d (hang_up s))), clean_guarantee.
Qed.

(** ** No hanging *)

(** The labels of the transfer's own threads; the others wait for the stream,
    the ledger, the caller or the runtime. *)
Definition thread (l : Label) : bool := match l with LJob | LWriter | LHand | LJoin => true | _ => false end.
Definition below s' s : Prop := exists l, thread l = true /\ mstep s l = Some s'.

Definition rank s : nat :=
  match t_task s with
  | TCreating => 6 | THanding _ _ => 5 | TPumping _ _ => 4 | TFailing | TJoining _ => 3 | TCommitting _ _ => 2 | TOver _ | TDropped => 0
  end.
Definition load s : nat := length (t_queue s) + match t_writer s with WRun _ _ => 1 | _ => 0 end.
Definition job_below (j' j : @Job Dir File Stop) : Prop :=
  match j with
  | JNone => False
  | JCreate (Ret _) | JCommit (Ret _) => j' = JNone
  | JCreate (Do c k) => exists b, j' = JCreate (k b)
  | JCommit (Do c k) => exists b, j' = JCommit (k b)
  end.
Lemma job_below_wf : well_founded job_below.
Proof.
  assert (H0 : Acc job_below JNone) by by constructor.
  intros [|p|p]; [done|..]; induction p as [r|B c k IH]; constructor; intros j'; cbn.
  1,3: by intros ->.
  all: intros [b ->]; apply IH.
Qed.

(** Every step of a thread goes down in one of three measures. *)
Definition lower s' s : Prop :=
  (rank s' < rank s)%nat \/ (rank s' = rank s /\ job_below (t_job s') (t_job s))
  \/ (rank s' = rank s /\ t_job s' = t_job s /\ (load s' < load s)%nat).

Lemma job_lower s s' : job_step d s = Some s' -> lower s' s.
Proof.
  unfold job_step. destruct (t_job s) as [|[r|B c k]|[r|B c k]] eqn:Ej; [done|..].
  - destruct r as [[f temp]|o]; intros [= <-].
    + change (t_task (with_guard (Some temp) (with_job JNone s))) with (t_task s).
      destruct (clean_fields (with_guard (Some temp) (with_job JNone s))) as (E1 & E2 & _).
      unfold lower. rewrite Ej. unfold rank. destruct (t_task s) eqn:Ek; rewrite ?E1, ?E2; cbn; rewrite ?Ek; auto with lia.
    + unfold lower, rank. rewrite Ej. cbn. destruct (t_task s) eqn:Ek; cbn; rewrite ?Ek; auto with lia.
  - unfold sys. destruct (perform c (t_fs s)) as [fs b]. intros [= <-]. right; left. split; [done|]. rewrite Ej. by exists b.
  - intros [= <-]. change (t_task (with_job JNone s)) with (t_task s). unfold lower, rank. rewrite Ej.
    destruct (t_task s) eqn:Ek; cbn; rewrite ?Ek; auto. left. destruct r as [c|e]; cbn; lia.
  - unfold sys. destruct (perform c (t_fs s)) as [fs b]. intros [= <-]. right; left. split; [done|]. rewrite Ej. by exists b.
Qed.

Lemma below_lower s s' : below s' s -> lower s' s.
Proof.
  intros (l & Hl & Hs). destruct l; try done; cbn [step] in Hs; [by apply job_lower|..].
  - right; right. revert Hs. unfold writer_step, load. destruct (t_writer s) as [|f hashed|w]; [done| |done].
    destruct (t_queue s) as [|chunk queue] eqn:Eq.
    + destruct (t_tx s); [done|]. intros [= <-]. cbn. rewrite Eq. auto.
    + unfold sys. cbn. destruct (perform _ _) as [fs [[]|e]]; intros [= <-]; cbn; (split; [done|]); (split; [done|]); lia.
  - left. revert Hs. unfold hand_step, rank. destruct (t_task s); try done.
    destruct (t_writer s); try (destruct (_ <? _)); try done; intros [= <-]; cbn; lia.
  - left. revert Hs. unfold join_step, rank. destruct (t_task s), (t_writer s); try done; intros [= <-]; [cbn; lia|].
    destruct (w_error w); [cbn; lia|]. destruct (negb _); [cbn; lia|]. destruct (t_guard s); cbn; lia.
Qed.

Lemma below_wf : well_founded below.
Proof.
  assert (Hall : forall n j m s, rank s = n -> t_job s = j -> load s = m -> Acc below s); [|intros s; by eapply Hall].
  induction n as [n IHn] using lt_wf_ind. intros j. induction (job_below_wf j) as [j _ IHj].
  induction m as [m IHm] using lt_wf_ind. intros s <- <- <-. constructor. intros s' [Hr|[[Hr Hj]|(Hr & Hj & Hl)]]%below_lower.
  - by eapply IHn.
  - by eapply IHj.
  - by eapply IHm.
Qed.

(** Where the threads are done, the task waits for the stream or is over. *)
Lemma thread_enabled s :
  Inv s ->
  (exists received fend, t_task s = TPumping received fend) \/ (exists o, t_task s = TOver o) \/ t_task s = TDropped \/ exists s', below s' s.
Proof.
  intros HI. assert (Hb : forall l, thread l = true -> is_Some (mstep s l) -> exists s', below s' s) by (intros l Hl [s' Hs]; by exists s', l).
  destruct (busy s) eqn:Eb.
  - destruct (inv_busy s HI Eb) as (f & temp & Em & Ej & Hn & Hc & [Ho HT] & Hl). destruct (t_task s) as [|r e|r chunk| |e| | |] eqn:Ek; try done; eauto.
    + right; right; right. destruct HT as (_ & Ht & Hp). unfold pipe in Hp. destruct (t_writer s) as [|f' hashed|w] eqn:Ew; [done| |].
      * destruct (len (t_queue s) <? DISK_QUEUE_CHUNKS) eqn:Eq; [apply (Hb LHand); [done|]; cbn; unfold hand_step; rewrite Ek, Ew, Eq; eauto|].
        apply (Hb LWriter); [done|]. cbn. unfold writer_step. rewrite Ew. destruct (t_queue s); [done|]. unfold sys. destruct (perform _ _). eauto.
      * apply (Hb LHand); [done|]. cbn. unfold hand_step. rewrite Ek, Ew. eauto.
    + right; right; right. destruct HT as (_ & w & err & Ew & _). apply (Hb LJoin); [done|]. cbn. unfold join_step. rewrite Ek, Ew. eauto.
    + right; right; right. destruct HT as (_ & Ht & Hp). unfold pipe in Hp. destruct (t_writer s) as [|f' hashed|w] eqn:Ew; [done| |].
      * apply (Hb LWriter); [done|]. cbn. unfold writer_step. rewrite Ew, Ht. destruct (t_queue s); [eauto|]. unfold sys. destruct (perform _ _). eauto.
      * apply (Hb LJoin); [done|]. cbn. unfold join_step. rewrite Ek, Ew. eauto.
  - assert (Hj : t_job s <> JNone -> exists s', below s' s).
    { intros Hj. apply (Hb LJob); [done|]. cbn. unfold job_step, sys. destruct (t_job s) as [|[[[f temp]|o]|B c k]|[r|B c k]]; try done; eauto;
        destruct (perform c (t_fs s)); eauto. }
    unfold Inv, busy in *. destruct (t_task s) as [| | | | |bytes hash|o|] eqn:Ek; try done; [| |by right; left; exists o|by right; right; left];
      right; right; right; apply Hj; intros E; rewrite E in HI; destruct (t_made s) as [[f temp]|].
    + destruct HI as (_ & _ & _ & HI). by rewrite Ek in HI.
    + destruct HI as (_ & _ & _ & _ & _ & _ & [?|[e [?|?]]]); congruence.
    + destruct HI as (_ & _ & _ & HI). by rewrite Ek in HI.
    + destruct HI as (_ & _ & _ & _ & _ & _ & [?|[e [?|?]]]); congruence.
Qed.

(** ** Where the file is *)

Lemma made_step l s s' x : Inv s -> mstep s l = Some s' -> t_made s = Some x -> t_made s' = Some x.
Proof.
  intros HI Hs Hm. assert (Hover : forall o s0, t_made s0 = Some x -> t_made (over d o s0) = Some x) by (intros o s0 <-; apply over_fields).
  assert (Hclean : forall s0, t_made s0 = Some x -> t_made (clean d s0) = Some x) by (intros s0 <-; apply clean_record).
  destruct l as [| |ev| | |i|]; cbn [step] in Hs; revert Hs.
  - unfold job_step, Inv in *. rewrite Hm in HI. destruct x as [f temp]. destruct (t_job s) as [|[[[f' temp']|o]|B c k]|[r|B c k]] eqn:Ej; try done.
    + intros [= <-]. change (t_task (with_guard (Some temp') (with_job JNone s))) with (t_task s). destruct (t_task s); try (by apply Hclean). done.
    + by destruct HI as (_ & _ & ? & _).
    + by destruct HI as (_ & _ & ? & _).
    + intros [= <-]. change (t_task (with_job JNone s)) with (t_task s). destruct (t_task s); try done. destruct r as [c|e]; [|by apply Hover].
      cbn. destruct (temp_gone c); [done|by apply Hclean].
    + unfold sys. destruct (perform c (t_fs s)). by intros [= <-].
  - unfold writer_step. destruct (t_writer s), (t_queue s); try (destruct (t_tx s)); try done; [by intros [= <-]|..];
      unfold sys; destruct (perform _ _) as [fs []]; by intros [= <-].
  - unfold recv_step. destruct (t_task s); try done. intros [= <-]. case_match; try done. by apply Hover.
  - unfold hand_step. destruct (t_task s); try done. destruct (t_writer s); try (destruct (_ <? _)); try done; by intros [= <-].
  - unfold join_step. destruct (t_task s), (t_writer s) as [| |w]; try done; intros [= <-]; [by apply Hover|].
    destruct (w_error w); [by apply Hover|]. destruct (negb _); [by apply Hover|]. by case_match.
  - unfold stop_step. destruct (t_task s); try done; intros [= <-]; by apply Hover.
  - unfold drop_step. destruct (t_task s); try done; intros [= <-]; by apply Hclean.
Qed.

(** Where nobody else touches the name of the destination, the file stays where
    it was put. *)
Lemma stands_reaches s :
  reaches true s -> forall f temp, t_made s = Some (f, temp) -> placed (t_log s) <> 0%nat -> view (t_fs s) !! name = Some (inode f).
Proof.
  intros Hr. apply (reaches_ind true (fun s => (Inv s /\ Heard s) /\
    forall f temp, t_made s = Some (f, temp) -> placed (t_log s) <> 0%nat -> view (t_fs s) !! name = Some (inode f)) s Hr).
  - intros fs. split; [|done]. apply (heard_reaches true). exists fs. apply rtc_refl.
  - intros l s1 s2 Hs [[HI HH] Hst]. split; [split; [by eapply inv_step|by eapply heard_step]|]. intros f temp Hm Hp.
    destruct (step_guarantee l s1 s2 HI HH Hs) as (_ & _ & [[Hv Hpl]|(f' & temp' & Hm' & Hv & _)]).
    + rewrite Hv. rewrite Hpl in Hp. destruct (t_made s1) as [x|] eqn:Em.
      * pose proof (made_step l s1 s2 x HI Hs Em) as Hx. rewrite Hm in Hx. injection Hx as <-. by eapply Hst.
      * unfold Inv in HI. rewrite Em in HI. destruct HI as (_ & _ & _ & _ & _ & ? & _). done.
    + pose proof (made_step l s1 s2 _ HI Hs Hm') as Hx. rewrite Hm in Hx. by injection Hx as -> ->.
  - intros s1 fs' Hy Hu [[HI HH] Hst]. split; [split; [by apply inv_env|exact HH]|]. intros f temp Hm Hp. cbn. rewrite Hu by done. by eapply Hst.
Qed.

(** What a success means. *)
Lemma committed_stored alone s bytes hash over :
  reaches alone s -> t_task s = TOver (OCommitted bytes hash over) ->
  exists f temp, t_made s = Some (f, temp) /\ stored f temp s /\ bytes = len (t_data s) /\ hash = blake3 (t_data s)
    /\ (alone = true -> view (t_fs s) !! name = Some (inode f)).
Proof.
  intros Hr Ek. pose proof (inv_reaches alone s Hr) as HI. unfold Inv in HI. destruct (t_made s) as [[f temp]|] eqn:Em.
  - destruct HI as (_ & _ & HI). destruct (t_job s) as [|p|p].
    + destruct HI as [_ HI]. rewrite Ek in HI. destruct HI as (_ & (Hs & Hb & Hh) & _). exists f, temp. split_and!; [done..|].
      intros ->. apply (stands_reaches s Hr f temp Em). destruct Hs as [[Hp _] _]. lia.
    + destruct HI as (_ & _ & _ & _ & _ & _ & _ & _ & _ & _ & [?|?]); congruence.
    + destruct HI as (_ & _ & _ & HI). by rewrite Ek in HI.
  - destruct HI as (_ & _ & _ & _ & _ & _ & HI). destruct (t_job s); [|by destruct HI as [_ [?|?]]; congruence|done].
    destruct HI as [?|[e [E|E]]]; congruence.
Qed.

(** ** Properties *)

(** C11: A transfer is atomic at its destination, whatever the order in which
    its threads run, wherever it is stopped, dropped or failed by the disk, and
    whatever others do around it short of touching its temporary file: each
    step leaves every other name of the directory and every other file as they
    were; the name of the destination changes only to the finished temporary
    file, which holds exactly the bytes of the data frames received; by then
    the stream has been finished and the end frame that was received states the
    size and the hash of these bytes; and without [overwrite] the name changes
    only where nothing had it at that very moment. *)
Theorem transfer_guarantee s l s' : reachable s -> mstep s l = Some s' -> guarantee s s'.
Proof. intros Hr. destruct (heard_reaches _ s Hr). by apply step_guarantee. Qed.

Lemma stored_received f temp s :
  Heard s -> stored f temp s -> content (t_fs s) (inode f) = data_of (t_recv s) /\ complete (t_recv s).
Proof. intros [HH _] [[Hp _] Hc]. destruct HH as [Hd Hco]; [left; lia|]. by rewrite Hd. Qed.

(** C27: The outcome of a transfer tells the truth.  Success means that the
    temporary file was given the name of the destination, by one call and no
    other of its kind (a rename with [overwrite], else a link); that it holds
    exactly the bytes of the data frames received, whose number and hash are
    those reported; and that the stream was complete: finished, with an end
    frame that states this size and hash.  A failure means that no such call
    was made, unless only making the directory durable failed, after the file
    was put in place in this way.  As long as nobody else touches the name of
    the destination ([alone]), the file stays there.  When the transfer is over
    no temporary name is left behind, unless removing it failed. *)
Theorem transfer_outcome alone s :
  reaches alone s ->
  match t_task s with
  | TOver (OCommitted bytes hash _) =>
      exists f temp, t_made s = Some (f, temp) /\ put d place temp (t_log s)
        /\ content (t_fs s) (inode f) = data_of (t_recv s) /\ complete (t_recv s)
        /\ bytes = len (data_of (t_recv s)) /\ hash = blake3 (data_of (t_recv s))
        /\ (alone = true -> view (t_fs s) !! name = Some (inode f))
  | TOver (OIo e) =>
      placed (t_log s) = 0%nat
      \/ (exists f temp, t_made s = Some (f, temp) /\ put d place temp (t_log s)
            /\ content (t_fs s) (inode f) = data_of (t_recv s) /\ complete (t_recv s)
            /\ (alone = true -> view (t_fs s) !! name = Some (inode f)))
         /\ ECall (SSyncDir d) (Err e) ∈ t_log s
  | TOver _ => placed (t_log s) = 0%nat
  | _ => True
  end
  /\ (t_job s = JNone -> ((exists o, t_task s = TOver o) \/ t_task s = TDropped) ->
      forall f temp, t_made s = Some (f, temp) ->
        view (t_fs s) !! temp = None \/ exists e, ECall (SUnlink d temp) (Err e) ∈ t_log s).
Proof.
  intros Hr. destruct (heard_reaches alone s Hr) as [HI HH].
  assert (Hst : forall f temp, t_made s = Some (f, temp) -> put d place temp (t_log s) -> alone = true -> view (t_fs s) !! name = Some (inode f)).
  { intros f temp Hm [Hp _] ->. apply (stands_reaches s Hr f temp Hm). lia. }
  unfold Inv in HI. destruct (t_made s) as [[f temp]|]; [|split; [|done]].
  - destruct HI as (_ & _ & HI). split.
    + destruct (t_task s) as [| | | | | |o|] eqn:Ek; try done. destruct (t_job s) as [|p|p].
      * destruct HI as [_ HI]. rewrite Ek in HI. destruct HI as (_ & He & _). unfold ended in He. destruct o as [|e| | | | |bytes hash over]; try done.
        -- destruct He as [?|[Hs ?]]; [by left|right]. split; [|done]. destruct (stored_received f temp s HH Hs) as [? ?]. exists f, temp.
           destruct Hs as [Hput _]. eauto 10.
        -- destruct He as (Hs & -> & ->). destruct (stored_received f temp s HH Hs) as [Hc ?]. exists f, temp. destruct Hs as [Hput Hd].
           rewrite <- Hd, Hc. eauto 10.
      * destruct HI as (_ & _ & _ & _ & _ & _ & _ & _ & _ & _ & [?|?]); congruence.
      * destruct HI as (_ & _ & _ & HI). by rewrite Ek in HI.
    + intros Hj Hend f' temp' [= <- <-]. rewrite Hj in HI. destruct HI as [_ HI]. destruct Hend as [[o Ek]|Ek]; rewrite Ek in HI; by destruct HI as (_ & _ & ?).
  - destruct HI as (_ & _ & _ & _ & _ & Hp & HI). destruct (t_task s) as [| | | | | |o|] eqn:Ek; try done. destruct (t_job s); [|by destruct HI as [_ [?|?]]|done].
    destruct HI as [?|[e [E|E]]]; [done|..]; inversion E; subst; auto.
Qed.

(** C29: The threads of a transfer never hang: whatever the files and the disk
    do, the steps of its own threads cannot go on for ever, and when none of
    them is left to do, the transfer is waiting for its stream or is over.  The
    bounded queue between the pump and the disk writer never deadlocks. *)
Theorem transfer_never_hangs :
  well_founded below
  /\ forall s, reachable s -> (forall s', ~ below s' s) ->
       (exists received fend, t_task s = TPumping received fend) \/ (exists o, t_task s = TOver o) \/ t_task s = TDropped.
Proof.
  split; [apply below_wf|]. intros s Hr%inv_reaches Hb. destruct (thread_enabled s Hr) as [?|[?|[?|[s' Hs']]]]; [auto..|]. by destruct (Hb s').
Qed.
End Safety.

(** ** The temporary name *)

Lemma hex_length bs : slen (hex bs) = 2 * len bs.
Proof. induction bs as [|b bs IH]; [done|]. cbn [hex]. rewrite !slen_cons, IH, len_cons. lia. Qed.

Lemma temp_name_length name random :
  len random = 8 -> slen (temp_name name random) = 27 + slen name `min` 228.
Proof.
  intros Hr. unfold temp_name. rewrite !slen_app, hex_length, Hr. change (slen ".qsh-") with 5. change (slen ".part") with 5. change (slen ".") with 1.
  change (NAME_MAX - 1 - (5 + (2 * 8 + 5))) with 228. rewrite slen_prefix, N2Nat.id. lia.
Qed.

(** The temporary name of every destination is a name the file system
    takes, however long the name of the destination, and it is not that name
    unless the name is of the longest and already ends like a temporary one. *)
Theorem temp_name_fits name random :
  len random = 8 ->
  slen (temp_name name random) <= NAME_MAX
  /\ (temp_name name random = name -> slen name = NAME_MAX /\ exists pre, name = pre +:+ ".qsh-" +:+ hex random +:+ ".part").
Proof.
  intros Hr. pose proof (temp_name_length name random Hr) as Hl. unfold NAME_MAX. split; [lia|]. intros E. split; [rewrite E in Hl; lia|].
  rewrite <- E. unfold temp_name. eexists ("." +:+ _). by rewrite <- (app_assoc_s "."%string).
Qed.
Lemma temp_name_fits_witness :
  len (replicate 8 Byte.xab) = 8 /\ slen (temp_name "a" (replicate 8 Byte.xab)) <= NAME_MAX.
Proof. split; [reflexivity|]. exact (proj1 (temp_name_fits "a" (replicate 8 Byte.xab) eq_refl)). Defined.

(** ** A directory *)

(** A directory that never fails: the names, and the bytes of the files. *)
Record DirState := mkDir { ds_names : gmap string N; ds_bytes : gmap N (list byte) }.

Definition next_inode (m : gmap string N) : N := 1 + foldr N.max 0 (map_to_list m).*2.
Definition ds_open (n : string) (s : DirState) : DirState * result N IoError :=
  match ds_names s !! n with
  | Some _ => (s, Err (Raw EEXIST))
  | None => let i := next_inode (ds_names s) in (mkDir (<[n := i]> (ds_names s)) (<[i := []]> (ds_bytes s)), Ok i)
  end.
Definition ds_rename (a b : string) (s : DirState) : DirState * result unit IoError :=
  match ds_names s !! a with
  | Some i => (if bool_decide (ds_names s !! b = Some i) then s else mkDir (<[b := i]> (delete a (ds_names s))) (ds_bytes s), Ok tt)
  | None => (s, Err (Raw ENOENT))
  end.
Definition ds_link (a b : string) (s : DirState) : DirState * result unit IoError :=
  match ds_names s !! a, ds_names s !! b with
  | Some i, None => (mkDir (<[b := i]> (ds_names s)) (ds_bytes s), Ok tt)
  | Some _, Some _ => (s, Err (Raw EEXIST))
  | None, _ => (s, Err (Raw ENOENT))
  end.
Definition ds_unlink (a : string) (s : DirState) : DirState * result unit IoError :=
  match ds_names s !! a with
  | Some _ => (mkDir (delete a (ds_names s)) (ds_bytes s), Ok tt)
  | None => (s, Err (Raw ENOENT))
  end.
Definition ds_read (s : DirState) (i : N) : list byte := default [] (ds_bytes s !! i).

#[global] Instance dir_os : DirOs DirState unit N := fun B c =>
  match c in Sys _ _ B return DirState -> DirState * B with
  | SDup _ | SSync _ | SChmod _ _ | SMtime _ _ | SSyncDir _ => fun s => (s, Ok tt)
  | SOpenExcl _ n _ => ds_open n
  | SWriteAll f data => fun s => (mkDir (ds_names s) (<[f := ds_read s f ++ data]> (ds_bytes s)), Ok tt)
  | SStatAt _ n => fun s => (s, match ds_names s !! n with Some i => Ok (mkRaw (S_IFREG + 420) 0 0 1 i) | None => Err (Raw ENOENT) end)
  | SRename _ a b => ds_rename a b
  | SLink _ a b => ds_link a b
  | SUnlink _ a => ds_unlink a
  end.

Lemma next_inode_fresh m n : m !! n <> Some (next_inode m).
Proof.
  unfold next_inode. intros Hn. assert (Hin : 1 + foldr N.max 0 (map_to_list m).*2 ∈ (map_to_list m).*2).
  { apply list_elem_of_fmap. eexists (n, _). split; [done|]. by apply elem_of_map_to_list. }
  assert (Hle : forall l : list N, forall x, x ∈ l -> x <= foldr N.max 0 l).
  { induction l as [|y l IH]; intros x; [by intros ?%elem_of_nil|]. intros [->|Hx]%elem_of_cons; cbn; [lia|]. specialize (IH x Hx). lia. }
  specialize (Hle _ _ Hin). lia.
Qed.

#[global] Instance dir_laws : DirLaws (H := dir_os) tt.
Proof.
  refine {| view := ds_names; content := ds_read; inode := fun f : N => f |}.
  - by intros B [] fs.
  - intros n m fs fs' r. unfold perform, dir_os, ds_open. destruct (ds_names fs !! n) eqn:E; intros [= <- <-]; [done|]. cbn.
    split; [done|]. split; [done|]. split; [intros n'; apply next_inode_fresh|]. unfold ds_read. cbn. rewrite lookup_insert_eq.
    split; [done|]. intros i Hi. by rewrite lookup_insert_ne.
  - intros f data fs fs' r [= <- <-]. unfold ds_read. cbn. split; [done|]. split; [|by rewrite lookup_insert_eq]. intros i Hi. by rewrite lookup_insert_ne.
  - intros a b fs fs' r. unfold perform, dir_os, ds_rename. destruct (ds_names fs !! a) as [i|]; intros [= <- <-]; [|done].
    split; [by case_bool_decide|]. exists i. split; [done|]. by case_bool_decide.
  - intros a b fs fs' r. unfold perform, dir_os, ds_link. destruct (ds_names fs !! a) as [i|]; [|by intros [= <- <-]].
    destruct (ds_names fs !! b); intros [= <- <-]; [done|]. split; [done|]. by exists i.
  - intros a fs fs' r. unfold perform, dir_os, ds_unlink. destruct (ds_names fs !! a) eqn:E; by intros [= <- <-].
Defined.
End TransferSafety.
