(* ===== verification/FileData.v ===== *)
(** * File data streams

    The two ends of a transfer: what the host ([server/file_data.rs]) and the
    client ([client/file.rs]) make of the frames they receive and how they
    answer, over the machine of [Transfer]; and the two senders.  A file that
    one end sends is the file the other end puts in place. *)

From S2P Require Import Prelude Errors Text FsPath FileGuard Identity Acl Policy Gate HostOs FileHost Transfer TransferSafety.

Module FileData.
Import Text FsPath FileGuard Gate Errors HostOs FileHost Transfer TransferSafety.

Definition FILE_CHUNK_MAX : N := 32 * 1024.
Definition RESET_CODE_BAD_HEADER : N := 8193.
Definition RESET_CODE_TUNNEL_ABORT : N := 8199.
Definition RESET_CODE_TUNNEL_STALLED : N := 8206.

(** [FileFrame::validate] *)
Definition validate (body : option Body) : bool :=
  match body with Some (Data chunk) => len chunk <=? FILE_CHUNK_MAX | _ => true end.

(** ** The host receives *)

Inductive UploadStop := Violation | Gone.

(** [receive_upload], for one frame *)
Definition receive_upload (announced received : N) (fend : option FileEnd) (ev : Received) : Pumped UploadStop :=
  match ev with
  | RTimeout => match fend with Some _ => Stopped Violation | None => Go received fend end
  | RError (EReset _ | ERead) => Stopped Gone
  | RError (EMalformed _ | ECarrier) => Stopped Violation
  | RFinished => match fend with Some e => Finish e | None => Stopped Violation end
  | RFrame body =>
      if negb (validate body) then Stopped Violation
      else match body, fend with
           | Some (Data chunk), None =>
               let received := (received + len chunk) `min` U64_MAX in
               if announced <? received then Stopped Violation
               else match chunk with [] => Go received None | _ => Chunk received chunk end
           | Some (End_ e), None => Go received (Some e)
           | _, _ => Stopped Violation
           end
  end.

(** The check of [serve_write] before it commits *)
Definition host_agrees (size : N) (e : FileEnd) (bytes : N) (hash : list byte) : bool :=
  (e_size e =? bytes) && (bytes =? size) && bool_decide (e_blake3 e = hash).

Definition host_receiver (size : N) : Receiver UploadStop := mkReceiver (receive_upload size) (host_agrees size) true.

(** What the host does with its half of the stream and its transfer slot. *)
Inductive Act := DropPermit | SendFrame (b : Body) | FinishSend | ResetSend (code : N) | StopRecv (code : N).

(** [failure_frame], [mismatch], [internal] *)
Definition failure_frame (e : WireError) : Body := Result false (code_str (code e)) (message e) false.
Definition mismatch : WireError := mkError InvalidArgument "size or hash mismatch" false.
Definition internal : WireError := mkError Internal "file operation failed" false.

Inductive IoClass := CExists | CNotFound | CDenied | CNotDirectory | CIsDirectory | CSymlinkRefused | CNoSpace | CTooManyOpen | COther.
Definition EISDIR : N := 21.
Definition ENFILE : N := 23.
Definition EMFILE : N := 24.
Definition EROFS : N := 30.

(** [local::classify] *)
Definition classify (e : IoError) : IoClass :=
  match raw_os_error e with
  | Some n =>
      if n =? EEXIST then CExists
      else if n =? ENOENT then CNotFound
      else if (n =? EACCES) || (n =? EPERM) || (n =? EROFS) then CDenied
      else if n =? ENOTDIR then CNotDirectory
      else if n =? EISDIR then CIsDirectory
      else if n =? ELOOP then CSymlinkRefused
      else if (n =? ENOSPC) || (n =? EDQUOT) then CNoSpace
      else if (n =? EMFILE) || (n =? ENFILE) then CTooManyOpen
      else COther
  | None => COther
  end.
Definition too_many_open (e : IoError) : bool := match classify e with CTooManyOpen => true | _ => false end.

(** [finish_with], on a stream that takes the frame or not *)
Definition finish_with (takes : bool) (b : Body) : list Act :=
  SendFrame b :: if takes then [FinishSend] else [ResetSend RESET_CODE_TUNNEL_ABORT].

(** The end of [serve_write], on each outcome *)
Definition serve_write_end (takes : bool) (o : Outcome UploadStop) : list Act :=
  match o with
  | OClone e =>
      DropPermit :: finish_with takes (failure_frame
        (if too_many_open e then mkError ResourceExhausted "too many open files" true else file_io_error e))
  | OIo e => DropPermit :: finish_with takes (failure_frame (file_io_error e))
  | OStopped Violation => [ResetSend RESET_CODE_BAD_HEADER; StopRecv RESET_CODE_BAD_HEADER; DropPermit]
  | OStopped Gone => [ResetSend RESET_CODE_TUNNEL_ABORT; DropPermit]
  | OInterrupted _ => [ResetSend RESET_CODE_TUNNEL_STALLED; StopRecv RESET_CODE_TUNNEL_STALLED; DropPermit]
  | OInternal => DropPermit :: finish_with takes (failure_frame internal)
  | OMismatch => DropPermit :: finish_with takes (failure_frame mismatch)
  | OCommitted _ _ over => DropPermit :: finish_with takes (Result true EmptyString EmptyString over)
  end.

(** ** The client receives *)

Inductive XferFailure :=
  | Remote (c : ErrorCode) (message : string)
  | Local_ (c : ErrorCode) (message : string)
  | Exists_
  | Link
  | CanceledCopy.

Section Client.
(** The text of an error of the system, and a number in hexadecimal. *)
Variables (io_text : IoError -> string) (hex_text : N -> string).

(** [local_io_failure] *)
Definition local_io_failure (e : IoError) : XferFailure :=
  match classify e with
  | CExists => Exists_
  | CNotFound => Local_ InvalidArgument "no such file or directory"
  | CDenied => Local_ PermissionDenied "permission denied"
  | CNotDirectory => Local_ InvalidArgument "not a directory"
  | CIsDirectory => Local_ InvalidArgument "is a directory"
  | CSymlinkRefused => Local_ InvalidArgument "too many levels of symbolic links"
  | CNoSpace => Local_ ResourceExhausted "no space left on device"
  | CTooManyOpen => Local_ ResourceExhausted "too many open files"
  | COther => Local_ Internal ("local I/O error: " +:+ io_text e)
  end.

(** [reset_failure] *)
Definition reset_failure (c : N) : XferFailure :=
  if c =? RESET_CODE_TUNNEL_STALLED
  then Remote ResourceExhausted "the host stopped the transfer: its disk write made no progress"
  else Remote RemoteError ("the host aborted the transfer (stream error " +:+ hex_text c +:+ ")").

(** [recv_failure] *)
Definition recv_failure (e : RecvFailure) : XferFailure :=
  match e with
  | EReset c => reset_failure c
  | EMalformed text => Remote RemoteError ("peer protocol violation: " +:+ text)
  | ERead | ECarrier => Link
  end.

(** [result_failure] *)
Definition result_failure (c message : string) : XferFailure :=
  let c := code_of c in
  if bool_decide (c = InvalidArgument) && String.eqb message "destination exists" then Exists_ else Remote c message.

Inductive DownloadStop := DViolation (message : string) | DFailed (f : XferFailure).

(** [receive_download], for one frame *)
Definition receive_download (received : N) (fend : option FileEnd) (ev : Received) : Pumped DownloadStop :=
  match ev with
  | RTimeout =>
      match fend with Some _ => Stopped (DViolation "the host did not finish the stream after its end frame") | None => Go received fend end
  | RError e => Stopped (DFailed (recv_failure e))
  | RFinished =>
      match fend with
      | Some e => Finish e
      | None => Stopped (DFailed (Remote RemoteError "the host closed the stream before its end frame"))
      end
  | RFrame body =>
      if negb (validate body) then Stopped (DViolation "data chunk over the cap")
      else match body, fend with
           | Some (Data chunk), None => match chunk with [] => Go received None | _ => Chunk (received + len chunk) chunk end
           | Some (End_ e), None => Go received (Some e)
           | _, _ => Stopped (DViolation "unexpected frame on a file.read stream")
           end
  end.

Definition client_agrees (e : FileEnd) (bytes : N) (hash : list byte) : bool := (e_size e =? bytes) && bool_decide (e_blake3 e = hash).

Definition client_receiver : Receiver DownloadStop := mkReceiver receive_download client_agrees false.

Record Downloaded := mkDownloaded { dl_bytes : N; dl_blake3 : string; dl_mode : N; dl_overwritten : bool }.

(** The end of [download], on each outcome *)
Definition download_end (mode : N) (o : Outcome DownloadStop) : result Downloaded XferFailure :=
  match o with
  | OClone e | OIo e => Err (local_io_failure e)
  | OStopped (DViolation message) => Err (Remote RemoteError ("peer protocol violation: " +:+ message))
  | OStopped (DFailed f) => Err f
  | OInterrupted Stalled => Err (Local_ ResourceExhausted "stopped: the local disk write made no progress")
  | OInterrupted CancelAsked => Err CanceledCopy
  | OInternal => Err (Local_ Internal "file operation failed")
  | OMismatch => Err (Remote RemoteError "size or hash mismatch against the host's end frame")
  | OCommitted bytes hash over => Ok (mkDownloaded bytes (hex hash) (N.land mode 511) over)
  end.

(** ** Reading a file *)

(** [read_loop] of the host, over what its reads answer: the items it puts on
    the channel. *)
Fixpoint read_loop (reads : list (result (list byte) IoError)) : list (result (list byte) IoError) :=
  match reads with
  | [] => []
  | Ok [] :: _ => []
  | Ok chunk :: reads => Ok chunk :: read_loop reads
  | Err e :: reads => if interrupted e then read_loop reads else [Err e]
  end.

(** [read_loop] of the client: the items, and what it hashed. *)
Definition unexpected_eof : IoError := Simple (OtherKind "UnexpectedEof").
Fixpoint upload_read (remaining : N) (reads : list (result (list byte) IoError)) : list (result (list byte) IoError) * list byte :=
  if remaining =? 0 then ([], [])
  else match reads with
       | [] => ([], [])
       | Ok [] :: _ => ([Err unexpected_eof], [])
       | Ok chunk :: reads =>
           let '(items, hashed) := upload_read (remaining - len chunk) reads in (Ok chunk :: items, chunk ++ hashed)
       | Err e :: reads => if interrupted e then upload_read remaining reads else ([Err e], [])
       end.

(** ** The host sends *)

Section Send.
Variable blake3 : list byte -> list byte.
(** Which frames the stream still takes. *)
Variable takes : nat -> bool.

Inductive ReadStop := Disk (e : IoError) | Stream.

(** The send loop of [serve_read] and [run_upload] *)
Fixpoint send_chunks (i : nat) (items : list (result (list byte) IoError)) (sent : list byte) : list Act * result (list byte) ReadStop :=
  match items with
  | [] => ([], Ok sent)
  | Err e :: _ => ([], Err (Disk e))
  | Ok chunk :: items =>
      if takes i then let '(acts, r) := send_chunks (S i) items (sent ++ chunk) in (SendFrame (Data chunk) :: acts, r)
      else ([SendFrame (Data chunk)], Err Stream)
  end.

(** [serve_read] *)
Definition serve_read (items : list (result (list byte) IoError)) : list Act :=
  let '(acts, r) := send_chunks 0 items [] in
  acts ++ DropPermit ::
  match r with
  | Ok sent => finish_with (takes (length items)) (End_ (mkEnd (len sent) (blake3 sent)))
  | Err _ => [ResetSend RESET_CODE_TUNNEL_ABORT; StopRecv RESET_CODE_TUNNEL_ABORT]
  end.

(** ** The client sends *)

Record FileWriteResult := mkWriteResult { wr_ok : bool; wr_code : string; wr_message : string; wr_overwritten : bool }.

(** [read_result]; [None] is the timeout of the grace. *)
Definition read_result (ev : Received) : option (result FileWriteResult XferFailure) :=
  match ev with
  | RFrame (Some (Result ok c message over)) => Some (Ok (mkWriteResult ok c message over))
  | RFrame _ => Some (Err (Remote RemoteError "peer protocol violation: unexpected frame on a file.write stream"))
  | RFinished => Some (Err (Remote RemoteError "the host closed the stream without a result"))
  | RError e => Some (Err (recv_failure e))
  | RTimeout => None
  end.

Record Uploaded := mkUploaded { up_bytes : N; up_blake3 : string; up_overwritten : bool }.

(** [run_upload], over the items of its reader, what the reader hashed and the
    answer of the host *)
Definition run_upload (items : list (result (list byte) IoError)) (hashed : list byte) (answer : Received)
    : list Act * option (result Uploaded XferFailure) :=
  let '(acts, r) := send_chunks 0 items [] in
  match r with
  | Err Stream =>
      (acts, Some (Err (match read_result answer with
                        | Some (Ok w) => if negb (wr_ok w) then result_failure (wr_code w) (wr_message w) else Link
                        | Some (Err (Remote c message)) => Remote c message
                        | _ => Link
                        end)))
  | Err (Disk e) =>
      (acts ++ [ResetSend RESET_CODE_TUNNEL_ABORT],
       Some (Err (if bool_decide (kind_of_error e = OtherKind "UnexpectedEof")
                  then Local_ InvalidArgument "the source file changed while it was copied" else local_io_failure e)))
  | Ok sent =>
      let acts := acts ++ [SendFrame (End_ (mkEnd (len sent) (blake3 hashed)))] in
      if negb (takes (length items)) then (acts, Some (Err Link))
      else (acts ++ [FinishSend],
            match read_result answer with
            | Some (Ok w) =>
                Some (if negb (wr_ok w) then Err (result_failure (wr_code w) (wr_message w))
                      else Ok (mkUploaded (len sent) (hex (blake3 hashed)) (wr_overwritten w)))
            | Some (Err f) => Some (Err f)
            | None => None
            end)
  end.

(** [upload]: the caller may cancel it. *)
Definition upload (canceled : bool) (items : list (result (list byte) IoError)) (hashed : list byte) (answer : Received)
    : list Act * option (result Uploaded XferFailure) :=
  if canceled then ([ResetSend RESET_CODE_TUNNEL_ABORT; StopRecv RESET_CODE_TUNNEL_ABORT], Some (Err CanceledCopy))
  else run_upload items hashed answer.
End Send.
End Client.

(** ** The receivers keep their promises *)

#[export] Instance host_laws size : ReceiverLaws (host_receiver size).
Proof.
  split; cbn.
  - intros received fend [body| |[]|] r' fend'; cbn; [|by destruct fend..|done|done|done|by destruct fend; intros [= <- <-]; auto].
    destruct (negb _); [done|]. destruct body as [[chunk|e|]|], fend; try done; [|intros [= <- <-]; eauto].
    destruct (_ <? _); [done|]. destruct chunk; [|done]. intros [= <- <-]. auto.
  - intros received fend [body| |[]|] r' chunk; cbn; try done; [|by destruct fend..]. destruct (negb _); [done|].
    destruct body as [[chunk'|e|]|], fend; try done. destruct (_ <? _); [done|]. destruct chunk'; [done|]. by intros [= _ <-].
  - intros received fend [body| |[]|] e; cbn; try done; [|by destruct fend; [intros [= <-]|]|by destruct fend]. destruct (negb _); [done|].
    destruct body as [[chunk'|e'|]|], fend; try done. destruct (_ <? _); [done|]. by destruct chunk'.
  - intros e bytes hash. unfold host_agrees. intros Ha. bools. auto.
Qed.

#[export] Instance client_laws hex_text : ReceiverLaws (client_receiver hex_text).
Proof.
  split; cbn.
  - intros received fend [body| |e|] r' fend'; cbn; [|by destruct fend|done|by destruct fend; intros [= <- <-]; auto].
    destruct (negb _); [done|]. destruct body as [[chunk|e|]|], fend; try done; [|intros [= <- <-]; eauto].
    destruct chunk; [|done]. intros [= <- <-]. auto.
  - intros received fend [body| |e|] r' chunk; cbn; try done; [|by destruct fend..]. destruct (negb _); [done|].
    destruct body as [[chunk'|e|]|], fend; try done. destruct chunk'; [done|]. by intros [= _ <-].
  - intros received fend [body| |e'|] e; cbn; try done; [|by destruct fend; [intros [= <-]|]|by destruct fend]. destruct (negb _); [done|].
    destruct body as [[chunk'|e'|]|], fend; try done. by destruct chunk'.
  - intros e bytes hash. unfold client_agrees. intros Ha. bools. auto.
Qed.
End FileData.
