(* ===== verification/FileRoundtrip.v ===== *)
(** * A file arrives as it was sent

    What the senders of [FileData] put on a stream is accepted by the
    receivers, whatever the schedule of the receiver's threads: the transfer
    ends with the file in place or with an error of the disk, and with nothing
    else. *)

From S2P Require Import Prelude Errors Text FsPath FileGuard Gate HostOs FileHost Transfer TransferSafety FileData.

Module FileRoundtrip.
Import Text FsPath FileGuard HostOs Transfer TransferSafety FileData.

(** ** An honest stream *)

Definition end_of (blake3 : list byte -> list byte) (content : list byte) : FileEnd := mkEnd (len content) (blake3 content).
Definition data_events (cs : list (list byte)) : list Received := (fun c => RFrame (Some (Data c))) <$> cs.
Definition stream_of (blake3 : list byte -> list byte) (cs : list (list byte)) : list Received :=
  data_events cs ++ [RFrame (Some (End_ (end_of blake3 (concat cs)))); RFinished].

(** What a receiver needs to take such a stream. *)
Class Accepts {Stop} (rc : Receiver Stop) (blake3 : list byte -> list byte) (cs : list (list byte)) : Prop := {
  acc_data pre c rest : cs = pre ++ c :: rest ->
    rc_pump rc (len (concat pre)) None (RFrame (Some (Data c))) = Chunk (len (concat (pre ++ [c]))) c;
  acc_end received : rc_pump rc received None (RFrame (Some (End_ (end_of blake3 (concat cs))))) = Go received (Some (end_of blake3 (concat cs)));
  acc_finish received : rc_pump rc received (Some (end_of blake3 (concat cs))) RFinished = Finish (end_of blake3 (concat cs));
  acc_agrees : rc_agrees rc (end_of blake3 (concat cs)) (len (concat cs)) (blake3 (concat cs)) = true;
}.

Section Honest.
Context {Fs Dir File Stop : Type} `{DirOs Fs Dir File} (d : Dir) `{!DirLaws d} (umask : N) (blake3 : list byte -> list byte).
Variables (rc : Receiver Stop) (place : Placement) (draws : list (list byte)) (cs : list (list byte)).
Context `{!Accepts rc blake3 cs} `{!ReceiverLaws rc}.
Variable events : list Received.
Variable alone : bool.
Hypothesis Hevents : events = stream_of blake3 cs.
Hypothesis Hdraws : forall random, random ∈ draws -> temp_name (p_name place) random <> p_name place.
Abbreviation TState := (@TState Fs Dir File Stop).
Abbreviation mstep := (step umask blake3 rc d place).
Implicit Types (s : TState).

(** The transfer runs, and the stream answers it frame by frame; [rest] is
    still to come.  It is neither stopped nor dropped, and others leave its
    temporary file alone ([alone]: also the name of the destination). *)
Inductive fed : list Received -> TState -> Prop :=
  | fed_start fs : fed events (start rc d place draws fs)
  | fed_recv ev rest s s' : fed (ev :: rest) s -> mstep s (LRecv ev) = Some s' -> fed rest s'
  | fed_thread l rest s s' : thread l = true -> fed rest s -> mstep s l = Some s' -> fed rest s'
  | fed_env rest s fs' : fed rest s -> rely d place s fs' -> (alone = true -> untouched d place s fs') -> fed rest (with_disk fs' (t_log s) s).

Lemma fed_reaches rest s : fed rest s -> reaches d umask blake3 rc place draws alone s.
Proof.
  induction 1 as [fs|ev rest s s' _ [fs Hr] Hs|l rest s s' _ _ [fs Hr] Hs|rest s fs' _ [fs Hr] Hs Hu]; [by exists fs|exists fs..].
  - eapply rtc_r; [done|]. by eapply t_own.
  - eapply rtc_r; [done|]. by eapply t_own.
  - eapply rtc_r; [done|]. by apply t_env.
Qed.

(** How far the pump is. *)
Definition partial (received : N) rest (data : list byte) : Prop :=
  exists pre todo, cs = pre ++ todo /\ received = len (concat pre) /\ data = concat pre
  /\ rest = data_events todo ++ [RFrame (Some (End_ (end_of blake3 (concat cs)))); RFinished].
Definition fine (o : Outcome Stop) : Prop :=
  (exists e, o = OClone e \/ o = OIo e) \/ exists over, o = OCommitted (len (concat cs)) (blake3 (concat cs)) over.
Definition progress (rest : list Received) s : Prop :=
  match t_task s with
  | TCreating => rest = events
  | TPumping received None | THanding received _ => partial received rest (t_data s)
  | TPumping _ (Some e) => e = end_of blake3 (concat cs) /\ rest = [RFinished] /\ t_data s = concat cs
  | TFailing => True
  | TJoining e => e = end_of blake3 (concat cs) /\ t_data s = concat cs
  | TCommitting _ _ => t_data s = concat cs
  | TOver o => fine o /\ forall b h v, o = OCommitted b h v -> t_data s = concat cs
  | TDropped => False
  end.

Lemma progress_same rest s s' : t_task s' = t_task s -> t_data s' = t_data s -> progress rest s -> progress rest s'.
Proof. unfold progress. by intros -> ->. Qed.

Abbreviation Inv := (Inv d blake3 place).

Lemma progress_recv ev rest s s' : progress (ev :: rest) s -> recv_step rc d ev s = Some s' -> progress rest s'.
Proof.
  unfold recv_step, progress at 1. destruct (t_task s) as [|received fend| | | | | |] eqn:Ek; try done. intros Hp [= <-].
  destruct fend as [e|].
  - destruct Hp as (-> & [= -> ->] & Hd). rewrite acc_finish. unfold progress. cbn. auto.
  - destruct Hp as (pre & todo & Hcs & -> & Hd & Hrest). destruct todo as [|c todo]; cbn in Hrest; injection Hrest as -> ->.
    + rewrite acc_end. unfold progress. cbn. by rewrite Hd, Hcs, app_nil_r.
    + rewrite (acc_data pre c todo Hcs). unfold progress. cbn. exists (pre ++ [c]), todo. rewrite <- app_assoc. cbn.
      split; [done|]. split; [done|]. split; [|done]. by rewrite Hd, concat_app; cbn; rewrite app_nil_r.
Qed.

Lemma progress_job rest s s' : Inv s -> progress rest s -> job_step d s = Some s' -> progress rest s'.
Proof.
  unfold job_step, TransferSafety.Inv. intros HI Hp. destruct (t_job s) as [|[r|B c k]|[r|B c k]] eqn:Ej; [done|..].
  - unfold progress in Hp. destruct r as [[f temp]|o]; intros [= <-]; destruct (t_made s) as [[f' temp']|] eqn:Em.
    + destruct HI as (_ & _ & [= -> ->] & _ & _ & _ & Hd & _ & _ & _ & _ & _ & [Hk|Hk]); rewrite Hk in Hp; [|done]. cbn. rewrite Hk, Hp, Hevents.
      exists [], cs. by rewrite Hd.
    + by destruct HI as (_ & _ & _ & _ & _ & _ & [e [?|?]] & _).
    + by destruct HI as (_ & _ & ? & _).
    + destruct HI as (_ & _ & _ & _ & _ & _ & [e He] & [Hk|Hk]); rewrite Hk in Hp; [|done]. unfold progress. cbn. rewrite Hk. cbn.
      destruct He as [[= ->]|[= ->]]; (split; [left; eauto|done]).
  - unfold sys. destruct (perform c (t_fs s)) as [fs b]. intros [= <-]. by eapply progress_same.
  - destruct (t_made s) as [[f temp]|]; [|by destruct HI as (_ & _ & _ & _ & _ & _ & ?)]. destruct HI as (_ & _ & _ & _ & _ & HT).
    change (t_task (with_job JNone s)) with (t_task s). unfold progress in Hp. intros [= <-].
    destruct (t_task s) as [| | | | |bytes hash| |] eqn:Ek; try done. destruct HT as (_ & -> & ->). 
    assert (Ed : forall s0, t_data (clean d s0) = t_data s0).
    { intros s0. unfold clean, unlink_at, named. destruct (t_guard s0); [|done]. destruct (cstring _); [|done]. cbn. unfold sys. by destruct (perform _ _). }
    destruct r as [c|e]; unfold progress; cbn; [|split; [left; eauto|done]]. split; [rewrite Hp; right; by eexists|].
    intros _ _ _ _. destruct (temp_gone c); [done|]. by rewrite Ed.
  - unfold sys. destruct (perform c (t_fs s)) as [fs b]. intros [= <-]. by eapply progress_same.
Qed.

Lemma progress_join rest s s' : Inv s -> progress rest s -> join_step umask rc d place s = Some s' -> progress rest s'.
Proof.
  unfold join_step. intros HI Hp Hs. assert (Hb : busy s = true) by (unfold busy; by destruct (t_task s)).
  destruct (inv_busy d blake3 place s HI Hb) as (f & temp & Em & Ej & Hn & Hc & [Ho HT] & Hl).
  unfold progress in Hp. destruct (t_task s) as [| | | |e| | |] eqn:Ek; try done; destruct (t_writer s) as [| |w] eqn:Ew; try done; revert Hs.
  - destruct HT as (_ & w' & err & [= <-] & He). rewrite He. intros [= <-]. split; [left; eauto|done].
  - destruct HT as (_ & _ & Hpi). unfold pipe in Hpi. rewrite Ew in Hpi. destruct Hp as [-> Hd].
    destruct (w_error w) as [err|]; [intros [= <-]; split; [left; eauto|done]|]. destruct (Hpi eq_refl) as (_ & _ & _ & -> & ->). rewrite Hd, acc_agrees. cbn [negb].
    destruct Hl as [-> _]. intros [= <-]. exact Hd.
Qed.

Lemma progress_step l rest s s' : thread l = true -> Inv s -> progress rest s -> mstep s l = Some s' -> progress rest s'.
Proof.
  intros Hl HI Hp. destruct l; try done; cbn [step].
  - by apply progress_job.
  - unfold writer_step. destruct (t_writer s), (t_queue s); try (destruct (t_tx s)); try done; [intros [= <-]; by eapply progress_same|..];
      unfold sys; destruct (perform _ _) as [fs [[]|e]]; intros [= <-]; by eapply progress_same.
  - unfold hand_step, progress in *. destruct (t_task s); try done. destruct (t_writer s); try (destruct (_ <? _)); try done; by intros [= <-].
  - by apply progress_join.
Qed.

Lemma fed_progress rest s : fed rest s -> progress rest s.
Proof.
  induction 1 as [fs|ev rest s s' _ IH Hs|l rest s s' Hl Hf IH Hs|rest s fs' _ IH Hs _].
  - done.
  - by eapply progress_recv.
  - eapply progress_step; [done| |done|done]. by apply (inv_reaches d umask blake3 rc place draws Hdraws alone), (fed_reaches rest).
  - by eapply progress_same.
Qed.

(** The file of the outcome [o] is in place. *)
Definition delivered (o : Outcome Stop) s : Prop :=
  exists over f temp, o = OCommitted (len (concat cs)) (blake3 (concat cs)) over
    /\ t_made s = Some (f, temp) /\ put d place temp (t_log s) /\ content (t_fs s) (inode f) = concat cs
    /\ (alone = true -> view (t_fs s) !! p_name place = Some (inode f)).

(** Where its threads have nothing left to do, the transfer has ended well or
    by the disk, or it waits for a frame that is still to come. *)
Lemma honest_transfer rest s :
  fed rest s -> (forall s', ~ below d umask blake3 rc place s' s) ->
  (exists o, t_task s = TOver o /\ ((exists e, o = OClone e \/ o = OIo e) \/ delivered o s))
  \/ exists received fend ev more, t_task s = TPumping received fend /\ rest = ev :: more.
Proof.
  intros Hf Hb. pose proof (fed_progress rest s Hf) as Hp. unfold progress in Hp.
  destruct (thread_enabled d umask blake3 rc place s) as [(r & fend & Ek)|[[o Ek]|[Ek|[s' Hs']]]].
  - by apply (inv_reaches d umask blake3 rc place draws Hdraws alone), (fed_reaches rest).
  - right. rewrite Ek in Hp. exists r, fend. destruct fend as [e|].
    + destruct Hp as (_ & -> & _). eauto.
    + destruct Hp as (pre & todo & _ & _ & _ & ->). destruct todo; cbn; eauto.
  - left. rewrite Ek in Hp. exists o. split; [done|]. destruct Hp as [[?|[over ->]] Hd]; [by left|right]. specialize (Hd _ _ _ eq_refl).
    destruct (committed_stored d umask blake3 rc place draws Hdraws alone s _ _ _ (fed_reaches rest s Hf) Ek) as (f & temp & Hm & [Hput Hc] & _ & _ & Hv).
    exists over, f, temp. rewrite Hd in Hc. by split_and!.
  - by rewrite Ek in Hp.
  - by destruct (Hb s').
Qed.
End Honest.

(** ** The senders *)

(** What the other end receives of what an end does. *)
Definition received_of (acts : list Act) : list Received :=
  omap (fun a => match a with
                 | SendFrame b => Some (RFrame (Some b))
                 | FinishSend => Some RFinished
                 | ResetSend c => Some (RError (EReset c))
                 | DropPermit | StopRecv _ => None
                 end) acts.

(** Reads that go through a file to its end, in pieces. *)
Inductive reads_of : list (list byte) -> list (result (list byte) IoError) -> Prop :=
  | ro_end more : reads_of [] (Ok [] :: more)
  | ro_chunk c cs reads : c <> [] -> len c <= FILE_CHUNK_MAX -> reads_of cs reads -> reads_of (c :: cs) (Ok c :: reads)
  | ro_again e cs reads : interrupted e = true -> reads_of cs reads -> reads_of cs (Err e :: reads).

Definition chunked (cs : list (list byte)) : Prop := Forall (fun c => c <> [] /\ len c <= FILE_CHUNK_MAX) cs.
Lemma reads_chunked cs reads : reads_of cs reads -> chunked cs.
Proof. induction 1; by repeat constructor. Qed.

Lemma read_loop_of cs reads : reads_of cs reads -> read_loop reads = Ok <$> cs.
Proof. induction 1 as [more|c cs reads Hc _ _ IH|e cs reads He _ IH]; cbn; [done| |by rewrite He]. destruct c; [done|]. by rewrite IH. Qed.

Lemma upload_read_of cs reads : reads_of cs reads -> upload_read (len (concat cs)) reads = (Ok <$> cs, concat cs).
Proof.
  induction 1 as [more|c cs reads Hc Hm _ IH|e cs reads He Hr IH]; [done| |].
  - cbn. rewrite len_app. destruct c as [|b c]; [done|]. assert (0 < len (b :: c)) by (rewrite len_cons; lia).
    destruct (N.eqb_spec (len (b :: c) + len (concat cs)) 0); [lia|].
    replace (len (b :: c) + len (concat cs) - len (b :: c)) with (len (concat cs)) by lia. by rewrite IH.
  - cbn. destruct (N.eqb_spec (len (concat cs)) 0) as [E|E]; [|by rewrite He].
    destruct cs as [|c cs]; [done|]. apply reads_chunked in Hr. apply Forall_cons in Hr as [[Hc _] _]. cbn in E. rewrite len_app in E.
    destruct c; [done|]. rewrite len_cons in E. lia.
Qed.

Lemma send_chunks_all i cs sent :
  send_chunks (fun _ => true) i (Ok <$> cs) sent = ((fun c => SendFrame (Data c)) <$> cs, Ok (sent ++ concat cs)).
Proof. revert i sent. induction cs as [|c cs IH]; intros i sent; cbn; [by rewrite app_nil_r|]. by rewrite IH, <- app_assoc. Qed.

Lemma received_data cs acts : received_of (((fun c => SendFrame (Data c)) <$> cs) ++ acts) = data_events cs ++ received_of acts.
Proof. unfold received_of, data_events. rewrite omap_app. f_equal. induction cs as [|c cs IH]; cbn; [done|]. by rewrite IH. Qed.

Lemma serve_read_stream blake3 cs reads :
  reads_of cs reads -> received_of (serve_read blake3 (fun _ => true) (read_loop reads)) = stream_of blake3 cs.
Proof. intros Hr. unfold serve_read. rewrite (read_loop_of _ _ Hr), send_chunks_all, received_data. done. Qed.

Lemma run_upload_stream io_text hex_text blake3 cs answer :
  received_of (fst (run_upload io_text hex_text blake3 (fun _ => true) (Ok <$> cs) (concat cs) answer)) = stream_of blake3 cs.
Proof. unfold run_upload. rewrite send_chunks_all. cbn. rewrite <- app_assoc, received_data. done. Qed.

(** ** The receivers *)

Lemma chunked_middle cs pre c rest : chunked cs -> cs = pre ++ c :: rest -> c <> [] /\ len c <= FILE_CHUNK_MAX.
Proof. unfold chunked. intros Hc ->. apply Forall_app in Hc as [_ Hc]. by apply Forall_cons in Hc as [? _]. Qed.
Lemma concat_snoc {A} (pre : list (list A)) c : concat (pre ++ [c]) = concat pre ++ c.
Proof. rewrite concat_app. cbn. by rewrite app_nil_r. Qed.

Lemma host_accepts blake3 cs : chunked cs -> len (concat cs) <= U64_MAX -> Accepts (host_receiver (len (concat cs))) blake3 cs.
Proof.
  intros Hc Hu. split.
  - intros pre c rest E. destruct (chunked_middle cs pre c rest Hc E) as [Hn Hm]. cbn. unfold validate. rewrite (proj2 (N.leb_le _ _) Hm). cbn [negb].
    assert (Hle : len (concat pre) + len c <= len (concat cs)) by (rewrite E, concat_app; cbn; rewrite !len_app; lia).
    rewrite N.min_l by lia. destruct (N.ltb_spec (len (concat cs)) (len (concat pre) + len c)); [lia|].
    rewrite concat_snoc, len_app. by destruct c.
  - done.
  - done.
  - cbn. unfold host_agrees. cbn. rewrite !N.eqb_refl. by rewrite bool_decide_true.
Qed.

Lemma client_accepts hex_text blake3 cs : chunked cs -> Accepts (client_receiver hex_text) blake3 cs.
Proof.
  intros Hc. split.
  - intros pre c rest E. destruct (chunked_middle cs pre c rest Hc E) as [Hn Hm]. cbn. unfold validate. rewrite (proj2 (N.leb_le _ _) Hm). cbn [negb].
    rewrite concat_snoc, len_app. by destruct c.
  - done.
  - done.
  - cbn. unfold client_agrees. cbn. rewrite !N.eqb_refl. by rewrite bool_decide_true.
Qed.

(** ** Round trips *)

(** C26: A file that is put arrives: whatever pieces the client reads it in and
    whatever the schedule of the host's threads, as long as the stream carries
    what the client sends and the host's transfer is neither stopped (stalled or
    cancelled) nor dropped, and others leave its temporary file alone, the host
    takes the stream; once its threads are at rest it waits for a frame that is
    on its way, or it is over: with an error of its disk, or with success, the
    size and the hash of the file reported, its temporary file given the name of
    the destination and holding exactly these bytes; and where others leave that
    name alone ([alone]), this file is found under it. *)
Theorem upload_roundtrip {Fs Dir File} `{DirOs Fs Dir File} (d : Dir) `{!DirLaws d} io_text hex_text umask blake3 place draws
    cs reads answer alone :
  reads_of cs reads -> len (concat cs) <= U64_MAX ->
  (forall random, random ∈ draws -> temp_name (p_name place) random <> p_name place) ->
  let '(items, hashed) := upload_read (len (concat cs)) reads in
  let sent := received_of (fst (run_upload io_text hex_text blake3 (fun _ => true) items hashed answer)) in
  let host := host_receiver (len (concat cs)) in
  forall rest s, fed d umask blake3 host place draws sent alone rest s -> (forall s', ~ below d umask blake3 host place s' s) ->
  (exists o, t_task s = TOver o
     /\ ((exists e, o = OClone e \/ o = OIo e)
         \/ exists over f temp, o = OCommitted (len (concat cs)) (blake3 (concat cs)) over
              /\ t_made s = Some (f, temp) /\ put d place temp (t_log s) /\ content (t_fs s) (inode f) = concat cs
              /\ (alone = true -> view (t_fs s) !! p_name place = Some (inode f))))
  \/ exists received fend ev more, t_task s = TPumping received fend /\ rest = ev :: more.
Proof.
  intros Hr Hu Hd. rewrite (upload_read_of _ _ Hr). cbv zeta. rewrite run_upload_stream. intros rest s Hf Hb.
  pose proof (host_accepts blake3 cs (reads_chunked _ _ Hr) Hu).
  exact (honest_transfer d umask blake3 _ place draws cs (stream_of blake3 cs) alone eq_refl Hd rest s Hf Hb).
Qed.

(** A file that is got arrives, in the same sense: the stream the host makes of
    the file it reads is taken by the client. *)
Theorem download_roundtrip {Fs Dir File} `{DirOs Fs Dir File} (d : Dir) `{!DirLaws d} hex_text umask blake3 place draws cs reads alone :
  reads_of cs reads ->
  (forall random, random ∈ draws -> temp_name (p_name place) random <> p_name place) ->
  let sent := received_of (serve_read blake3 (fun _ => true) (read_loop reads)) in
  let client := client_receiver hex_text in
  forall rest s, fed d umask blake3 client place draws sent alone rest s -> (forall s', ~ below d umask blake3 client place s' s) ->
  (exists o, t_task s = TOver o
     /\ ((exists e, o = OClone e \/ o = OIo e)
         \/ exists over f temp, o = OCommitted (len (concat cs)) (blake3 (concat cs)) over
              /\ t_made s = Some (f, temp) /\ put d place temp (t_log s) /\ content (t_fs s) (inode f) = concat cs
              /\ (alone = true -> view (t_fs s) !! p_name place = Some (inode f))))
  \/ exists received fend ev more, t_task s = TPumping received fend /\ rest = ev :: more.
Proof.
  intros Hr Hd. cbv zeta. rewrite (serve_read_stream blake3 cs reads Hr). intros rest s Hf Hb.
  pose proof (client_accepts hex_text blake3 cs (reads_chunked _ _ Hr)).
  exact (honest_transfer d umask blake3 _ place draws cs (stream_of blake3 cs) alone eq_refl Hd rest s Hf Hb).
Qed.

(** ** Examples *)

Section Drive.
Context {Fs Dir File Stop : Type} `{DirOs Fs Dir File} (d : Dir) `{!DirLaws d} (umask : N) (blake3 : list byte -> list byte).
Variables (rc : Receiver Stop) (place : Placement) (draws : list (list byte)) (events : list Received).
Abbreviation mstep := (step umask blake3 rc d place).

(** A schedule: a label, or the next frame of the stream. *)
Fixpoint drive (ls : list (option Label)) (rest : list Received) (s : @TState Fs Dir File Stop) : option (list Received * @TState Fs Dir File Stop) :=
  match ls, rest with
  | [], _ => Some (rest, s)
  | Some l :: ls, _ => match mstep s l with Some s => if thread l then drive ls rest s else None | None => None end
  | None :: ls, ev :: rest => match mstep s (LRecv ev) with Some s => drive ls rest s | None => None end
  | None :: _, [] => None
  end.

Lemma drive_fed alone ls rest s rest' s' :
  fed d umask blake3 rc place draws events alone rest s -> drive ls rest s = Some (rest', s') -> fed d umask blake3 rc place draws events alone rest' s'.
Proof.
  revert rest s. induction ls as [|[l|] ls IH]; intros rest s Hf; cbn [drive]; [by intros [= <- <-]|..].
  - destruct (mstep s l) as [s1|] eqn:E; [|done]. destruct (thread l) eqn:Et; [|done]. apply IH. by eapply fed_thread.
  - destruct rest as [|ev rest]; [done|]. destruct (mstep s (LRecv ev)) as [s1|] eqn:E; [|done]. apply IH. by eapply fed_recv.
Qed.

Definition at_rest (s : @TState Fs Dir File Stop) : bool :=
  forallb (fun l => match mstep s l with Some _ => false | None => true end) [LJob; LWriter; LHand; LJoin].
Lemma at_rest_below s : at_rest s = true -> forall s', ~ below d umask blake3 rc place s' s.
Proof.
  unfold at_rest. cbn [forallb]. intros Hr s' (l & Hl & Hs). destruct l; try done; rewrite Hs in Hr; by rewrite ?andb_false_r in Hr.
Qed.
End Drive.

Definition demo_dir : DirState := mkDir {["a"%string := 1]} {[1 := [Byte.x00]]}.
Definition demo_place : Placement := mkPlacement "a" 420 true false 0.
Definition demo_draws : list (list byte) := [replicate 8 Byte.xab].
Definition demo_hash (bs : list byte) : list byte := take 32 bs.
Definition demo_text {A} (_ : A) : string := "?".
Definition demo_cs : list (list byte) := [[Byte.x61]; [Byte.x62; Byte.x63]].
Definition demo_reads : list (result (list byte) IoError) := [Ok [Byte.x61]; Err (Raw EINTR); Ok [Byte.x62; Byte.x63]; Ok []].
Definition demo_host : Receiver UploadStop := host_receiver 3.
Definition demo_sent : list Received := stream_of demo_hash demo_cs.
Definition demo_start : @TState DirState unit N UploadStop := start demo_host tt demo_place demo_draws demo_dir.
Definition demo_schedule : list (option Label) :=
  [Some LJob; Some LJob; Some LJob; None; Some LHand; None; Some LHand; Some LWriter; None; None; Some LWriter; Some LWriter; Some LJoin;
   Some LJob; Some LJob; Some LJob; Some LJob; Some LJob; Some LJob].
Definition demo_driven (n : nat) : list Received * @TState DirState unit N UploadStop :=
  default ([], demo_start) (drive tt 18 demo_hash demo_host demo_place (take n demo_schedule) demo_sent demo_start).

Lemma demo_draws_ok random : random ∈ demo_draws -> temp_name (p_name demo_place) random <> p_name demo_place.
Proof. unfold demo_draws. intros ->%list_elem_of_singleton. by vm_compute. Qed.
Lemma demo_fed alone n :
  drive tt 18 demo_hash demo_host demo_place (take n demo_schedule) demo_sent demo_start = Some (demo_driven n) ->
  fed tt 18 demo_hash demo_host demo_place demo_draws demo_sent alone (fst (demo_driven n)) (snd (demo_driven n)).
Proof. destruct (demo_driven n) as [rest s]. intros E. eapply drive_fed; [|exact E]. apply fed_start. Qed.

(** The file is there, with its bytes, and nothing else is. *)
Example demo_put :
  let s := snd (demo_driven 19) in
  t_task s = TOver (OCommitted 3 (demo_hash (concat demo_cs)) true)
  /\ ds_names (t_fs s) = {["a"%string := 2]} /\ ds_read (t_fs s) 2 = concat demo_cs.
Proof. by vm_compute. Qed.

(** On a disk that cannot make the directory durable, the transfer reports a
    failure although the destination was replaced. *)
Definition EIO : N := 5.
Definition flaky_os : DirOs DirState unit N := fun B c =>
  match c in Sys _ _ B return DirState -> DirState * B with
  | SSyncDir _ => fun s => (s, Err (Raw EIO))
  | c => dir_os _ c
  end.
Example sync_failure_after_placing :
  match drive (H := flaky_os) tt 18 demo_hash demo_host demo_place demo_schedule demo_sent
          (start demo_host tt demo_place demo_draws demo_dir) with
  | Some (_, s) =>
      t_task s = TOver (OIo (Raw EIO)) /\ ds_names (t_fs s) = {["a"%string := 2]} /\ ds_read (t_fs s) 2 = concat demo_cs
  | None => False
  end.
Proof. by vm_compute. Qed.

(** The step that renames the temporary file. *)
Lemma transfer_guarantee_witness :
  exists s', step 18 demo_hash demo_host tt demo_place (snd (demo_driven 16)) LJob = Some s'
  /\ view (DirLaws := dir_laws) (t_fs s') !! "a"%string <> view (DirLaws := dir_laws) (t_fs (snd (demo_driven 16))) !! "a"%string
  /\ guarantee tt demo_hash demo_host demo_place (snd (demo_driven 16)) s'.
Proof.
  eexists. split; [vm_compute; reflexivity|]. split; [vm_compute; discriminate|].
  apply (transfer_guarantee tt 18 demo_hash demo_host demo_place demo_draws demo_draws_ok _ LJob); [|vm_compute; reflexivity].
  apply (fed_reaches tt 18 demo_hash demo_host demo_place demo_draws demo_sent false (fst (demo_driven 16))). apply demo_fed. vm_compute. reflexivity.
Defined.

Lemma transfer_outcome_witness :
  t_task (snd (demo_driven 19)) = TOver (OCommitted 3 (demo_hash (concat demo_cs)) true)
  /\ exists f temp, t_made (snd (demo_driven 19)) = Some (f, temp) /\ put tt demo_place temp (t_log (snd (demo_driven 19)))
       /\ ds_read (t_fs (snd (demo_driven 19))) f = data_of (t_recv (snd (demo_driven 19)))
       /\ complete demo_hash demo_host (t_recv (snd (demo_driven 19)))
       /\ 3 = len (data_of (t_recv (snd (demo_driven 19)))) /\ demo_hash (concat demo_cs) = demo_hash (data_of (t_recv (snd (demo_driven 19))))
       /\ (true = true -> ds_names (t_fs (snd (demo_driven 19))) !! "a"%string = Some f).
Proof.
  assert (Ek : t_task (snd (demo_driven 19)) = TOver (OCommitted 3 (demo_hash (concat demo_cs)) true)) by (vm_compute; reflexivity).
  split; [exact Ek|].
  destruct (transfer_outcome tt 18 demo_hash demo_host demo_place demo_draws demo_draws_ok true (snd (demo_driven 19))) as [Ho _].
  - apply (fed_reaches tt 18 demo_hash demo_host demo_place demo_draws demo_sent true (fst (demo_driven 19))). apply demo_fed. vm_compute. reflexivity.
  - rewrite Ek in Ho. exact Ho.
Defined.

Lemma transfer_never_hangs_witness :
  well_founded (below tt 18 demo_hash demo_host demo_place (H := dir_os)).
Proof. exact (proj1 (transfer_never_hangs tt 18 demo_hash demo_host demo_place demo_draws demo_draws_ok)). Defined.

Lemma demo_reads_of : reads_of demo_cs demo_reads.
Proof. repeat constructor; by vm_compute. Qed.

Lemma upload_roundtrip_witness :
  exists o, t_task (snd (demo_driven 19)) = TOver o
     /\ ((exists e, o = OClone e \/ o = OIo e)
         \/ exists over f temp, o = OCommitted 3 (demo_hash (concat demo_cs)) over
              /\ t_made (snd (demo_driven 19)) = Some (f, temp) /\ put tt demo_place temp (t_log (snd (demo_driven 19)))
              /\ ds_read (t_fs (snd (demo_driven 19))) f = concat demo_cs
              /\ (true = true -> ds_names (t_fs (snd (demo_driven 19))) !! "a"%string = Some f)).
Proof.
  destruct (upload_roundtrip tt demo_text demo_text 18 demo_hash demo_place demo_draws demo_cs demo_reads RFinished true
    demo_reads_of ltac:(vm_compute; discriminate) demo_draws_ok [] (snd (demo_driven 19))) as [Ho|(r & e & ev & more & _ & [=])].
  - apply (demo_fed true 19). vm_compute. reflexivity.
  - apply at_rest_below. vm_compute. reflexivity.
  - exact Ho.
Defined.

Definition demo_client : Receiver DownloadStop := client_receiver demo_text.
Definition demo_get : list Received * @TState DirState unit N DownloadStop :=
  let s0 := start demo_client tt demo_place demo_draws demo_dir in
  default ([], s0) (drive tt 18 demo_hash demo_client demo_place (Some LJob :: drop 3 demo_schedule) demo_sent (default s0 (step 18 demo_hash demo_client tt demo_place s0 LJob))).
Lemma demo_get_fed alone : fed tt 18 demo_hash demo_client demo_place demo_draws demo_sent alone (fst demo_get) (snd demo_get).
Proof.
  assert (E : drive tt 18 demo_hash demo_client demo_place (Some LJob :: Some LJob :: drop 3 demo_schedule) demo_sent
    (start demo_client tt demo_place demo_draws demo_dir) = Some demo_get) by (vm_compute; reflexivity).
  destruct demo_get as [rest s]. eapply drive_fed; [|exact E]. apply fed_start.
Qed.

Lemma download_roundtrip_witness :
  exists o, t_task (snd demo_get) = TOver o
     /\ ((exists e, o = OClone e \/ o = OIo e)
         \/ exists over f temp, o = OCommitted 3 (demo_hash (concat demo_cs)) over
              /\ t_made (snd demo_get) = Some (f, temp) /\ put tt demo_place temp (t_log (snd demo_get))
              /\ ds_read (t_fs (snd demo_get)) f = concat demo_cs
              /\ (true = true -> ds_names (t_fs (snd demo_get)) !! "a"%string = Some f)).
Proof.
  destruct (download_roundtrip tt demo_text 18 demo_hash demo_place demo_draws demo_cs demo_reads true
    demo_reads_of demo_draws_ok [] (snd demo_get)) as [Ho|(r & e & ev & more & _ & [=])].
  - apply demo_get_fed.
  - apply at_rest_below. vm_compute. reflexivity.
  - exact Ho.
Defined.
End FileRoundtrip.
